(* ===== verification/_CoqProject ===== *)
-Q . S2P
Prelude.v
Result.v
Chan.v
ChanList.v
ChanSpec.v
ChanClose.v
ChanSystem.v
ChanProps.v
Select.v
SelectSpec.v
SelectProps.v
TimerHeap.v
TimerService.v
TimerSpec.v
TimerProps.v
RunQueue.v
Inbox.v
Bitmap.v
GlobalQueue.v
QueueProps.v
Bytes.v
Net.v
NetProps.v
Dns.v
Resolver.v
DnsProps.v
Mutex.v
RWMutex.v
WaitGroup.v
OnceCond.v
Io.v
BufReader.v
BufWriter.v
IoProps.v
Pool.v
Join.v
Group.v
Cancel.v
Sched.v
SchedOps.v
SchedLogic.v
SchedSystem.v
SchedSound.v
SchedInv.v
SchedProps.v
Reactor.v
ReactorInv.v
ReactorEdges.v
ReactorProps.v
IoQueue.v
IoQueueInv.v
BlockingPool.v
BlockingPoolInv.v
Endpoint.v
Roots.v
Driver.v
Sock.v
SockProps.v
Dial.v
TimerHandle.v
Wp.v
TlsCache.v
TlsConfig.v
TlsConfigProps.v
TlsConn.v
Fs.v
FsTree.v
FsWorld.v
SockLife.v
Proc.v
ProcProps.v
ProcIo.v
Signal.v
Deadline.v
Scoped.v
SockCancel.v
Abandon.v
FramePool.v
