(* ===== verification/Prelude.v ===== *)
(** * cio: a verification library for the coroutine runtime

    cio (include/cio, src) is a multi-threaded coroutine runtime: tasks are
    coroutine frames, each worker thread runs the frames of its own queues and
    steals from its peers, a reactor and a timer service make suspended frames
    runnable, and channels, select, mutexes, groups and joins suspend frames and
    hand them back to the scheduler. This library models the runtime's core in
    Rocq and proves what makes each part correct, under every interleaving of the
    threads where the part is concurrent.

    ** How the program is modelled

    - Integers are [Z] with their wrap-around written out ([u8], [u32], [u64],
      [sgn] below); a 32-bit counter of a queue wraps in its model as in the code.
    - A coroutine frame, a task or a waiter is a number; a pointer to a node that
      other threads read is an address in a shared store.
    - An atomic access, a critical section of a mutex, and a section of a spin
      lock is one step. Threads are program counters of a step relation
      (inductive [.._step] with [reachable] below), or programs over events (the
      scheduler). Memory is sequentially consistent: the acquire, release and
      seq_cst orders of the code are not distinguished.
    - A loop that may run for ever in the code (a compare-exchange loop) is its
      successful turn; a loop with a bound is a [Fixpoint]; a loop over a shared
      list takes fuel, and its theorem gives fuel that is enough.
    - Errors are values ([Result.Result], the error codes of result.hpp);
      undefined behaviour (a null dereference, an index out of range) is [None]
      of the monad [St] below or a missing step, and the theorems show it does not
      happen.
    - An operation that need not return (a wait of the reactor, a turn in the
      operation queue, a blocking [waitpid]) has an outcome for that, [Parked] of
      [Sock.Fate], and the theorems say when it can be.
    - The kernel, the C library, the clock and the random device are parameters:
      the answer of a system call, a time, a byte stream.

    ** The parts

    - Result: result.hpp, error codes and [Result<T>].
    - Sched .. SchedProps: scheduler.hpp, scheduler.cpp. Sched has the workers'
      slots, rings, inboxes, the global queue, the idle and stealable bitmaps and
      every atomic access ([Event], [exec]); SchedOps has every operation as a
      program over these accesses, under its own name ([push], [drain_inbox],
      [park], [run_turn], [schedule_batch_to], ..). SchedLogic is a program logic
      for them: what a thread holds (frames) and owes (a published entry, a count,
      a wake) is a resource, and each operation has a specification. SchedSystem
      is the system of all workers' loops and any number of foreign threads, with
      the invariant; SchedSound shows that every access keeps it, SchedInv that
      every step of the system does, and it computes histories. SchedProps: no
      runnable frame is left while all workers sleep (no lost wake), frames are
      neither lost nor run twice, a sleeping worker's own queues are empty, no
      access is out of range. The reactor is its contract here: a pending wake
      ([wake_token]) makes a blocking poll return, only the owner's poll takes it,
      and a poll delivers suspended frames.
    - Endpoint, Roots, Driver: the parts of scheduler.cpp around it. Endpoint is the
      word of leases that lets a foreign thread use a scheduler which shuts down;
      Roots counts the tasks that a graceful shutdown waits for; Driver is the
      monitor's pass over a reactor that nobody polls, with the epochs of its
      requests and the coroutine that any worker may run.
    - Reactor, ReactorInv, ReactorEdges, ReactorProps: reactor.hpp,
      reactor_common.cpp, reactor_epoll.cpp. A descriptor node through its
      incarnations: the slots of its two directions, the lease for native calls,
      the pins of the poller, detach and reuse, against a kernel that reports edges.
      IoQueue, IoQueueInv: the queue of complete operations of one direction.
      Deadline: the deadlines of a descriptor, their setters, timer and waiters
      ([Reactor::set_deadline], [on_deadline]). BlockingPool, BlockingPoolInv:
      blocking_pool.cpp, its threads, admission by class, and shutdown.
    - FramePool: detail/frame_pool.hpp, the allocator of frames with the links of
      its lists inside the free blocks.
    - RunQueue, Inbox, GlobalQueue, QueueProps: queue.hpp,
      the ring with its thieves, the bounded inbox and the global queue, each
      access a step. They are linearizable queues, the ring as long as no thread
      stalls while its 32-bit counters go round once, and the scheduler uses them as
      such: one access of it is one operation of the ring or the inbox.
    - Bitmap: bitmap.hpp, the worker bitmap against the set of workers it stands
      for.
    - Chan, ChanList, ChanSpec, ChanClose, ChanSystem, ChanProps: chan.hpp. The
      intrusive waiter lists over a store of nodes refine lists; the locked
      primitives refine an abstract bounded channel; under all interleavings of
      senders, receivers, selects and close no value and no wake is lost.
    - Select, SelectSpec, SelectProps: select.hpp. Poll orders, lock order, the
      scan, and the phase word: one case wins and the task resumes once.
    - TimerHeap, TimerService, TimerSpec, TimerProps: detail/timer.hpp, timer.cpp.
      The heap with back-pointers, arm, disarm against a firing callback, and
      [run_expired]. TimerHandle: timer_handle.cpp, the task behind a Timer or a
      Ticker against [stop] and [reset].
    - Mutex, RWMutex, WaitGroup, OnceCond: sync.hpp, each with its lock-free
      paths and its queue: exclusion, hand-off order, no stranded waiter.
    - Join: the rendezvous word and reference count of a spawned task (spawn.hpp).
      Group: group.hpp, the children's count. Cancel: context.hpp, context.cpp and
      the scopes of group.hpp.
    - Net, NetProps: the address part of net.cpp. Bytes has the string searches.
      Sock, SockProps: its socket operations over the class [Native], which stands
      for the kernel and for the reactor's promises; where every wait is answered a
      socket is a [Reader] and a [Writer] of Io. Dial: the order of addresses and the race of the dialer.
      SockLife: making, configuring and closing sockets over the class [Host], with
      an account of the descriptors and registrations each function leaves.
      SockCancel: [set_cancel], its hook, and the reuse of nodes under it. Abandon:
      dial with a token and its watcher, lookups whose caller left. Scoped:
      scoped.hpp, [Timeout] scopes against their reading in the text.
    - Wp: programs that fail with an error, and their weakest preconditions, for
      the components that follow. TlsCache, TlsConfig, TlsConfigProps, TlsConn:
      tls.hpp, tls.cpp, the session cache, compiling and sharing of configurations
      and the connection's pump, over the classes that stand for the TLS engine.
    - Fs, FsTree, FsWorld: fs.hpp, fs.cpp, whole files and streams over the calls
      of the kernel, directory trees, and a concrete world in which they run.
    - Proc, ProcProps, ProcIo: process.hpp, process.cpp. Proc has [start] on both
      sides of the fork, the child, its wait and its destructor; ProcProps the
      account of descriptors and children, with the making of the reaper; ProcIo [Command::output] and the reaper.
      Signal: signal.cpp.
    - Dns, Resolver, DnsProps: dns.cpp, the codec on any
      input, the queries and their retries over an interface [Transport].
    - Io, BufReader, BufWriter, IoProps: io.hpp and bufio.hpp over the classes
      [Reader] and [Writer] with their laws.
    - Pool: pool.hpp and pool.cpp, buffers under thread caches.

    ** What the theorems show

    Each property carries its claim id in its comment. Invariants of the state and
    the safety properties that follow (conservation, exclusion, single resumption,
    single release) are proved by induction on the step relation; liveness is
    stated over states in which every thread rests: nothing that could run waits.
    Refinements relate an operation to a function on the data it stands for.
    Codecs have their round trips. A property with hypotheses has a witness that
    applies it to a concrete run.

    ** Bounds and fuel

    The scheduler's theorems assume fewer than 2^32 frames (the global queue's
    counter). Worker ids are below the worker count; with [threads >= count] the
    remaining threads are foreign. Loops of the scheduler are bounded by the
    worker count and by [kInboxDrainBatch]. The channel loops take the number of
    parked waiters as fuel, which their theorems provide. The resolver's loops
    take the length of their input. The socket loops take a bound on how often the
    kernel still interrupts or wakes for nothing; a read may still park for ever,
    and SockProps says where. The ring is exact while fewer than 2^32 items pass
    within one operation, and QueueProps has a run beyond that. Epochs and roots assume fewer than
    2^64 requests and actors; the leases of an endpoint need no bound, the code
    refuses the one that would overflow. The TLS pump takes fuel above the
    requests its engine still makes, and buffers below 2^31. The loops over a file
    take fuel above its bytes and the interruptions, those over a tree above its
    size; dial and start above the host's patience. The race of dial runs on a
    clock of its own, which its timers follow. Deadlines assume fewer than
    2^32-1 settings in one incarnation of a node, and a theorem shows what the next
    one does.

    ** Not modelled

    The slab that hands out descriptor nodes, the awaiters of sleep and of
    blocking.hpp, the coroutine machinery of task.hpp and spawn.hpp, the runtime
    object with its threads and signal masks, metrics and configuration: storage,
    the language's own transfer of control, and values no operation reads. The
    certificates and the bytes of the TLS protocol are the engine's, a library.
    A call of a socket is one task's; the race of two closers is left out. Weak memory orders are not modelled. *)

From stdpp Require Export base tactics numbers list gmap.
From Stdlib Require Export ZArith Lia.

#[global] Set Default Goal Selector "!".

(** ** Machine integers

    A [w]-bit unsigned integer is a [Z] in [0, 2^w); arithmetic wraps. *)

Declare Scope cio_scope.
Delimit Scope cio_scope with cio.
#[global] Open Scope cio_scope.

Definition wrap (w x : Z) : Z := x mod 2 ^ w.

Abbreviation u8 := (wrap 8).
Abbreviation u16 := (wrap 16).
Abbreviation u32 := (wrap 32).
Abbreviation u64 := (wrap 64).

(** Reinterpretation of a [w]-bit word as a two's complement number. *)
Definition sgn (w x : Z) : Z :=
  if decide (wrap w x < 2 ^ (w - 1))%Z then wrap w x else (wrap w x - 2 ^ w)%Z.

Abbreviation i64 := (sgn 64).

Definition in_range (w x : Z) : Prop := (0 <= x < 2 ^ w)%Z.

#[global] Instance in_range_dec w x : Decision (in_range w x).
Proof. unfold in_range. apply _. Defined.

Lemma wrap_range w x : (0 <= w)%Z -> in_range w (wrap w x).
Proof. intros. unfold in_range, wrap. apply Z.mod_pos_bound. lia. Qed.

Lemma wrap_small w x : in_range w x -> wrap w x = x.
Proof. intros. by apply Z.mod_small. Qed.

Lemma u64_small x : (0 <= x < 2 ^ 64)%Z -> u64 x = x.
Proof. apply wrap_small. Qed.

Lemma wrap_wrap w x : (0 <= w)%Z -> wrap w (wrap w x) = wrap w x.
Proof. intros. by apply wrap_small, wrap_range. Qed.

Lemma wrap_add_l w x y : wrap w (wrap w x + y) = wrap w (x + y).
Proof. unfold wrap. by rewrite Zplus_mod_idemp_l. Qed.

Lemma wrap_add_r w x y : wrap w (x + wrap w y) = wrap w (x + y).
Proof. unfold wrap. by rewrite Zplus_mod_idemp_r. Qed.

Lemma wrap_sub_l w x y : wrap w (wrap w x - y) = wrap w (x - y).
Proof. unfold wrap. by rewrite Zminus_mod_idemp_l. Qed.

Lemma wrap_sub_r w x y : wrap w (x - wrap w y) = wrap w (x - y).
Proof. unfold wrap. by rewrite Zminus_mod_idemp_r. Qed.

(** ** A state monad with undefined behaviour

    [None] stands for undefined behaviour of the C++ program (a null or
    dangling dereference) and for a loop that exceeded its fuel; every
    operation written in it has a theorem that excludes [None]. *)

Definition ST (S A : Type) : Type := S -> option (A * S).

Section st_monad.
Context {S : Type}.

Definition st_ret {A} (a : A) : ST S A := fun s => Some (a, s).
Definition st_bind {A B} (f : A -> ST S B) (m : ST S A) : ST S B :=
  fun s => match m s with Some (a, s') => f a s' | None => None end.
Definition st_fail {A} : ST S A := fun _ => None.
Definition st_get : ST S S := fun s => Some (s, s).
Definition st_put (s : S) : ST S unit := fun _ => Some (tt, s).
Definition st_modify (f : S -> S) : ST S unit := fun s => Some (tt, f s).
Definition st_gets {A} (f : S -> A) : ST S A := fun s => Some (f s, s).
(** Reads a partial view of the state; undefined when the view is. *)
Definition st_lift {A} (f : S -> option A) : ST S A :=
  fun s => match f s with Some a => Some (a, s) | None => None end.
End st_monad.

Notation "x <-- m ; k" := (st_bind (fun x => k) m)
  (at level 100, m at next level, k at level 200, right associativity,
   format "x  <--  m ; '/' k") : cio_scope.
Notation "m ;;; k" := (st_bind (fun _ => k) m)
  (at level 100, k at level 200, right associativity,
   format "m ;;; '/' k") : cio_scope.

(** Runs the first action of a bind whose result is known. *)
Lemma st_bind_eq {S A B} (m : ST S A) (k : A -> ST S B) (s s' : S) (a : A) :
  m s = Some (a, s') -> st_bind k m s = k a s'.
Proof. intros H. unfold st_bind. by rewrite H. Qed.

(** ** Transition systems *)

Section transition_system.
Context {S : Type} (init : S -> Prop) (step : S -> S -> Prop).

Inductive reachable : S -> Prop :=
  | reachable_init s : init s -> reachable s
  | reachable_step s s' : reachable s -> step s s' -> reachable s'.

Lemma reachable_invariant (I : S -> Prop) :
  (forall s, init s -> I s) ->
  (forall s s', reachable s -> I s -> step s s' -> I s') ->
  forall s, reachable s -> I s.
Proof. intros H0 H1 s. induction 1; eauto. Qed.

Lemma reachable_rtc s s' : reachable s -> rtc step s s' -> reachable s'.
Proof. intros Hr Hs. induction Hs; eauto using reachable_step. Qed.
End transition_system.

Arguments reachable_invariant {S init step} I.

(** ** Lists *)

Lemma NoDup_snoc {A} (l : list A) (x : A) :
  NoDup l -> x ∉ l -> NoDup (l ++ [x]).
Proof.
  intros Hl Hx. apply NoDup_app. split; [done|]. split; [|apply NoDup_singleton].
  intros y Hy Hy'. apply list_elem_of_singleton in Hy'. by subst.
Qed.

Lemma NoDup_rev {A} (l : list A) : NoDup l -> NoDup (reverse l).
Proof. intros H. by rewrite reverse_Permutation. Qed.

Lemma last_lookup_pred {A} (l : list A) (x : A) :
  last l = Some x -> exists n, length l = S n /\ l !! n = Some x.
Proof.
  rewrite last_lookup. intros Hx. pose proof (lookup_lt_Some _ _ _ Hx).
  exists (Init.Nat.pred (length l)). split; [lia|done].
Qed.

(** ** Tactics *)

(** Splits every [if decide _] and [match _ with] in the goal or context,
    then closes what is contradictory. *)
Ltac crush_match :=
  repeat (case_match || case_decide); simplify_eq/=.

(** Runs one step of a state-monad program in the goal. *)
Ltac st_step := unfold st_bind at 1; cbv beta.

Ltac invc H := inversion H; subst; clear H.

(** Removes existentials and conjunctions from the context. *)
Ltac decompose_hyps :=
  repeat match goal with
         | H : exists _, _ |- _ => destruct H
         | H : _ /\ _ |- _ => destruct H
         end.

(** ** Sums over lists *)

Lemma sum_insert {A} (f : A -> nat) (l : list A) i a : l !! i = Some a ->
  exists N, sum_list (map f l) = N + f a /\ forall b, sum_list (map f (<[i := b]> l)) = N + f b.
Proof.
  revert i. induction l as [|y l IH]; intros [|i] Hi; simpl in *; [done..| |].
  - injection Hi as ->. exists (sum_list (map f l)). split; [lia|]. intros b. lia.
  - destruct (IH i Hi) as (N & E & E'). exists (f y + N). split; [lia|]. intros b. rewrite E'. lia.
Qed.

Lemma sum_zero {A} (f : A -> nat) (l : list A) : sum_list (map f l) = 0 <-> forall i a, l !! i = Some a -> f a = 0.
Proof.
  split.
  - induction l as [|y l IH]; intros Hs [|i] a Ha; simpl in *; [done..|injection Ha as ->; lia|].
    apply (IH ltac:(lia) i a Ha).
  - induction l as [|y l IH]; intros Hf; simpl; [done|]. rewrite (Hf 0 y eq_refl). apply IH. intros i a. apply (Hf (S i)).
Qed.

Lemma sum_ge {A} (f : A -> nat) (l : list A) i a : l !! i = Some a -> f a <= sum_list (map f l).
Proof. intros Hi. destruct (sum_insert f l i a Hi) as (N & -> & _). lia. Qed.

Lemma sum_two {A} (f : A -> nat) (l : list A) i j a b : l !! i = Some a -> l !! j = Some b -> i <> j ->
  f a + f b <= sum_list (map f l).
Proof.
  revert i j. induction l as [|y l IH]; intros [|i] [|j] Hi Hj Hne; simpl in *; try done.
  - injection Hi as ->. pose proof (sum_ge f l j b Hj). lia.
  - injection Hj as ->. pose proof (sum_ge f l i a Hi). lia.
  - pose proof (IH i j Hi Hj ltac:(lia)). lia.
Qed.

Lemma sum_pos {A} (f : A -> nat) (l : list A) : 0 < sum_list (map f l) -> exists i a, l !! i = Some a /\ 0 < f a.
Proof.
  induction l as [|y l IH]; simpl; intros H; [lia|]. destruct (decide (0 < f y)) as [Hy|Hy]; [by exists 0, y|].
  destruct IH as (i & a & Ha & Hf); [lia|]. by exists (S i), a.
Qed.
