(* ===== verification/Result.v ===== *)
(** * [Result<T>] and [Error] (include/cio/result.hpp)

    The error channel of every fallible operation: error codes are signed
    integers, positive ones are errno values, negative ones are [Errc]. *)

From S2P Require Import Prelude.

Local Open Scope Z_scope.

(** errno values of Linux (asm-generic/errno.h), used by the sources by name. *)
Definition ENOENT : Z := 2.
Definition EINTR : Z := 4.
Definition EIO : Z := 5.
Definition EBADF : Z := 9.
Definition EAGAIN : Z := 11.
Definition ENOMEM : Z := 12.
Definition EINVAL : Z := 22.
Definition ENOSPC : Z := 28.
Definition EPIPE : Z := 32.
Definition ENAMETOOLONG : Z := 36.
Definition EBADMSG : Z := 74.
Definition EMSGSIZE : Z := 90.
Definition ECONNRESET : Z := 104.
Definition ENOBUFS : Z := 105.
Definition ESHUTDOWN : Z := 108.
Definition ETIMEDOUT : Z := 110.
Definition ECONNREFUSED : Z := 111.
Definition ECANCELED : Z := 125.
(** On Linux the two names denote one value. *)
Definition EWOULDBLOCK : Z := EAGAIN.

Inductive Errc :=
  | ok_ | cancelled | timed_out | closed | shutdown | would_block | broken
  | overloaded.

#[global] Instance Errc_eq_dec : EqDecision Errc.
Proof. solve_decision. Defined.

Definition Errc_code (e : Errc) : Z :=
  match e with
  | ok_ => 0 | cancelled => -1 | timed_out => -2 | closed => -3
  | shutdown => -4 | would_block => -5 | broken => -6 | overloaded => -7
  end.

Record Error := mkError { code_ : Z }.

#[global] Instance Error_eq_dec : EqDecision Error.
Proof. solve_decision. Defined.

Definition of_errc (e : Errc) : Error := mkError (Errc_code e).
Definition of_errno (n : Z) : Error := mkError n.
Definition no_error : Error := mkError 0.

Definition is_errno (e : Error) : bool := bool_decide (0 < code_ e).
Definition is_errc (e : Error) (c : Errc) : bool :=
  bool_decide (code_ e = Errc_code c).
Definition is_code (e : Error) (n : Z) : bool := bool_decide (code_ e = n).
(** [explicit operator bool]. *)
Definition error_bool (e : Error) : bool := bool_decide (code_ e <> 0).

(** The literal answers of [message]; an errno message is libc's. *)
Inductive Message :=
  | MsgErrno (n : Z) | MsgErrc (e : Errc) | MsgUnknown.

Definition message (e : Error) : Message :=
  if decide (0 < code_ e) then MsgErrno (code_ e)
  else
    if decide (code_ e = 0) then MsgErrc ok_
    else if decide (code_ e = -1) then MsgErrc cancelled
    else if decide (code_ e = -2) then MsgErrc timed_out
    else if decide (code_ e = -3) then MsgErrc closed
    else if decide (code_ e = -4) then MsgErrc shutdown
    else if decide (code_ e = -5) then MsgErrc would_block
    else if decide (code_ e = -6) then MsgErrc broken
    else if decide (code_ e = -7) then MsgErrc overloaded
    else MsgUnknown.

Definition is_timeout (e : Error) : bool :=
  is_errc e timed_out || is_code e ETIMEDOUT.
Definition is_cancelled (e : Error) : bool :=
  is_errc e cancelled || is_code e ECANCELED.
Definition is_temporary (e : Error) : bool :=
  is_timeout e || is_code e EAGAIN || is_code e EWOULDBLOCK ||
  is_code e EINTR || is_code e ENOBUFS || is_code e ENOMEM ||
  is_errc e would_block || is_errc e overloaded.
Definition is_closed (e : Error) : bool :=
  is_errc e closed || is_code e EPIPE || is_code e ECONNRESET ||
  is_code e ESHUTDOWN.
Definition is_not_found (e : Error) : bool := is_code e ENOENT.

(** [Result<T>]: the value or the error. *)
Inductive Result (T : Type) :=
  | Ok (v : T)
  | Err (e : Error).
Arguments Ok {T} v.
Arguments Err {T} e.

Definition has_value {T} (r : Result T) : bool :=
  match r with Ok _ => true | Err _ => false end.
Definition error {T} (r : Result T) : Error :=
  match r with Ok _ => no_error | Err e => e end.
Definition value_or {T} (r : Result T) (fallback : T) : T :=
  match r with Ok v => v | Err _ => fallback end.

#[global] Instance Result_ret : MRet Result := fun T v => Ok v.
#[global] Instance Result_bind : MBind Result :=
  fun A B f r => match r with Ok v => f v | Err e => Err e end.

#[global] Instance Result_eq_dec {T} `{EqDecision T} : EqDecision (Result T).
Proof. solve_decision. Defined.

Lemma Ok_inj {T} (x y : T) : Ok x = Ok y -> x = y.
Proof. congruence. Qed.

(** [Result<void>] holds only an [Error] and succeeds when its code is 0: its
    value is kept here as the case of no error. *)
Definition ResultVoid : Type := Result unit.
Definition ok : ResultVoid := Ok tt.
Definition void_result (err : Error) : ResultVoid := if error_bool err then Err err else Ok tt.

(** [value()]: the value, or the error it throws. *)
Definition value {T} (r : Result T) : T + Error :=
  match r with Ok v => inl v | Err e => inr e end.

Lemma void_result_error err : error (void_result err) = err.
Proof.
  unfold void_result, error_bool. destruct err as [c]. case_bool_decide as Hc; [done|]. simpl.
  f_equal. simpl in Hc. destruct (decide (c = 0)); [done|tauto].
Qed.
