(* ===== verification/Chan.v ===== *)
(** * Channels (include/cio/chan.hpp)

    The intrusive waiter list, the waiter's select claim, the ring buffer and
    the locked primitives of [Channel<T>], on a shared store of waiter nodes.
    A critical section of [ChannelMutex] is one atomic transition. *)

From S2P Require Import Prelude Result.

Set Default Proof Using "Type".

(** Address of a [ChanWaiter] (in a coroutine frame) and of a [SelectShared]. *)
Abbreviation addr := nat.
Abbreviation sel_id := nat.

Definition kNoWinner : Z := 0xFFFFFFFF.
Definition kSelectSetup : Z := 0.
Definition kSelectParked : Z := 1.
Definition kSelectResumed : Z := 2.

Inductive OpStatus := kDone | kClosed | kBlocked.

#[global] Instance OpStatus_eq_dec : EqDecision OpStatus.
Proof. solve_decision. Defined.

(** What a waker hands to the scheduler: [dispatch_completion] (the plain wake)
    or [dispatch_next] (the direct hand-off). *)
Inductive Dispatch :=
  | DispatchCompletion (h : nat)
  | DispatchNext (h : nat).

#[global] Instance Dispatch_eq_dec : EqDecision Dispatch.
Proof. solve_decision. Defined.

Section Chan.
  Context {V : Type}.

(** The [void* slot] of a waiter: a sender's points at the [T] being sent
    ([None] once it was moved from), a receiver's at the [optional] to fill. *)
Inductive Slot :=
  | SlotSend (v : option V)
  | SlotRecv (o : option V).

Record ChanWaiter := mkWaiter {
  next : option addr;
  prev : option addr;
  handle : nat;
  slot : Slot;
  select_winner : option sel_id;
  select_phase : option sel_id;
  case_index : Z;
  success : bool;
  queued : bool
}.

Definition set_links (n p : option addr) (w : ChanWaiter) : ChanWaiter :=
  mkWaiter n p (handle w) (slot w) (select_winner w) (select_phase w)
    (case_index w) (success w) (queued w).
Definition set_next (n : option addr) (w : ChanWaiter) : ChanWaiter :=
  set_links n (prev w) w.
Definition set_prev (p : option addr) (w : ChanWaiter) : ChanWaiter :=
  set_links (next w) p w.
Definition set_queued (b : bool) (w : ChanWaiter) : ChanWaiter :=
  mkWaiter (next w) (prev w) (handle w) (slot w) (select_winner w)
    (select_phase w) (case_index w) (success w) b.
Definition set_slot (s : Slot) (w : ChanWaiter) : ChanWaiter :=
  mkWaiter (next w) (prev w) (handle w) s (select_winner w)
    (select_phase w) (case_index w) (success w) (queued w).
Definition set_success (b : bool) (w : ChanWaiter) : ChanWaiter :=
  mkWaiter (next w) (prev w) (handle w) (slot w) (select_winner w)
    (select_phase w) (case_index w) b (queued w).

(** [SelectShared] of include/cio/select.hpp: the claim and the publication
    phase that the waiters of one select point to. *)
Record SelectShared := mkShared {
  winner : Z;
  phase : Z;
  sel_handle : nat
}.

(** The store: waiter nodes, select states, and what was handed to the
    scheduler, oldest first. *)
Record Mem := mkMem {
  nodes : gmap addr ChanWaiter;
  shared : gmap sel_id SelectShared;
  dispatched : list Dispatch
}.

Definition get_node (a : addr) : ST Mem ChanWaiter :=
  st_lift (fun m => nodes m !! a).
Definition upd_node (a : addr) (f : ChanWaiter -> ChanWaiter) : ST Mem unit :=
  w <-- get_node a;
  st_modify (fun m => mkMem (<[a := f w]> (nodes m)) (shared m) (dispatched m)).
Definition get_shared (s : sel_id) : ST Mem SelectShared :=
  st_lift (fun m => shared m !! s).
Definition upd_shared (s : sel_id) (f : SelectShared -> SelectShared)
  : ST Mem unit :=
  w <-- get_shared s;
  st_modify (fun m => mkMem (nodes m) (<[s := f w]> (shared m)) (dispatched m)).
Definition dispatch (d : Dispatch) : ST Mem unit :=
  st_modify (fun m => mkMem (nodes m) (shared m) (dispatched m ++ [d])).

(** ** [ChanWaiter] methods *)

(** [compare_exchange_strong(kNoWinner, case_index)] on the select's claim. *)
Definition try_acquire (a : addr) : ST Mem bool :=
  w <-- get_node a;
  match select_winner w with
  | None => st_ret true
  | Some s =>
      upd_node a (set_links None None);;;
      sh <-- get_shared s;
      if decide (winner sh = kNoWinner)
      then upd_shared s (fun sh => mkShared (case_index w) (phase sh) (sel_handle sh));;;
           st_ret true
      else st_ret false
  end.

Definition take_resume_ownership (a : addr) : ST Mem bool :=
  w <-- get_node a;
  match select_phase w with
  | None => st_ret true
  | Some s =>
      sh <-- get_shared s;
      upd_shared s (fun sh => mkShared (winner sh) kSelectResumed (sel_handle sh));;;
      st_ret (bool_decide (phase sh = kSelectParked))
  end.

Definition wake (a : addr) : ST Mem unit :=
  owned <-- take_resume_ownership a;
  if negb owned then st_ret tt
  else w <-- get_node a; dispatch (DispatchCompletion (handle w)).

Definition wake_handoff (a : addr) : ST Mem unit :=
  owned <-- take_resume_ownership a;
  if negb owned then st_ret tt
  else w <-- get_node a; dispatch (DispatchNext (handle w)).

(** ** [WaiterList] *)

Record WaiterList := mkList { head_ : option addr; tail_ : option addr }.

Definition empty_list : WaiterList := mkList None None.

Definition push_back (w : addr) (q : WaiterList) : ST Mem WaiterList :=
  upd_node w (set_next None);;;
  upd_node w (set_prev (tail_ q));;;
  q' <-- match tail_ q with
         | Some t => upd_node t (set_next (Some w));;; st_ret q
         | None => st_ret (mkList (Some w) (tail_ q))
         end;
  upd_node w (set_queued true);;;
  st_ret (mkList (head_ q') (Some w)).

Definition pop_front (q : WaiterList) : ST Mem (option addr * WaiterList) :=
  match head_ q with
  | None => st_ret (None, q)
  | Some w =>
      n <-- get_node w;
      q' <-- match next n with
             | Some h => upd_node h (set_prev None);;;
                         st_ret (mkList (Some h) (tail_ q))
             | None => st_ret (mkList None None)
             end;
      upd_node w (set_queued false);;;
      st_ret (Some w, q')
  end.

Definition remove (w : addr) (q : WaiterList) : ST Mem WaiterList :=
  n <-- get_node w;
  if negb (queued n) then st_ret q
  else
    q1 <-- match prev n with
           | Some p => upd_node p (set_next (next n));;; st_ret q
           | None => st_ret (mkList (next n) (tail_ q))
           end;
    q2 <-- match next n with
           | Some x => upd_node x (set_prev (prev n));;; st_ret q1
           | None => st_ret (mkList (head_ q1) (prev n))
           end;
    upd_node w (set_queued false);;;
    st_ret q2.

Definition list_empty (q : WaiterList) : bool := bool_decide (head_ q = None).

(** The loop [while (w = list.pop_front()) { if (!w->try_acquire()) continue; ..]
    of the locked primitives, up to its first acquired waiter. *)
Fixpoint pop_acquired (fuel : nat) (q : WaiterList)
  : ST Mem (option addr * WaiterList) :=
  match fuel with
  | O => st_fail
  | S fuel =>
      r <-- pop_front q;
      match r with
      | (None, q') => st_ret (None, q')
      | (Some w, q') =>
          won <-- try_acquire w;
          if negb won then pop_acquired fuel q' else st_ret (Some w, q')
      end
  end.

(** Every turn of a loop pops one node of the store. *)
Definition loop_fuel : ST Mem nat := st_gets (fun m => S (size (nodes m))).

(** ** [Channel<T>] *)

Record Channel := mkChannel {
  capacity : nat;
  count : nat;
  send_index : nat;
  recv_index : nat;
  closed : bool;
  senders : WaiterList;
  receivers : WaiterList;
  (** the cells of [buffer_]; [None] is raw storage *)
  buffer_ : list (option V)
}.

(** [create]: [None] is the throw of [std::bad_array_new_length]; [sizeof_T]
    is [sizeof(T)]. *)
Definition create (sizeof_T : Z) (cap : nat) : option Channel :=
  if decide ((0 < cap)%nat /\ ((2 ^ 64 - 1) / sizeof_T < Z.of_nat cap)%Z) then None
  else Some (mkChannel cap 0 0 0 false empty_list empty_list (replicate cap None)).

Definition next_index (c : Channel) (i : nat) : nat :=
  if decide (i + 1 = capacity c) then 0 else i + 1.

Definition set_lists (s r : WaiterList) (c : Channel) : Channel :=
  mkChannel (capacity c) (count c) (send_index c) (recv_index c) (closed c) s r
    (buffer_ c).
Definition set_closed (c : Channel) : Channel :=
  mkChannel (capacity c) (count c) (send_index c) (recv_index c) true
    (senders c) (receivers c) (buffer_ c).

(** [new (buffer_ + send_index) T(v); send_index = next_index(..); ++count]. *)
Definition ring_put (v : V) (c : Channel) : Channel :=
  mkChannel (capacity c) (count c + 1) (next_index c (send_index c))
    (recv_index c) (closed c) (senders c) (receivers c)
    (<[send_index c := Some v]> (buffer_ c)).

(** Moves the cell at [recv_index] out; undefined on a raw cell. *)
Definition ring_take (c : Channel) : option (V * Channel) :=
  match buffer_ c !! recv_index c with
  | Some (Some v) =>
      Some (v, mkChannel (capacity c) (count c - 1) (send_index c)
                 (next_index c (recv_index c)) (closed c) (senders c)
                 (receivers c) (<[recv_index c := None]> (buffer_ c)))
  | _ => None
  end.

(** Moves the value out of a parked sender's slot. *)
Definition take_slot (a : addr) : ST Mem V :=
  w <-- get_node a;
  match slot w with
  | SlotSend (Some v) => upd_node a (set_slot (SlotSend None));;; st_ret v
  | _ => st_fail
  end.

(** [slot->emplace(v)] / [slot->reset()] on a parked receiver. *)
Definition fill_slot (a : addr) (o : option V) : ST Mem unit :=
  w <-- get_node a;
  match slot w with
  | SlotRecv _ => upd_node a (set_slot (SlotRecv o))
  | SlotSend _ => st_fail
  end.

Definition try_send_locked (value : V) (c : Channel)
  : ST Mem (OpStatus * option addr * Channel) :=
  if closed c then st_ret (kClosed, None, c)
  else
    fuel <-- loop_fuel;
    r <-- pop_acquired fuel (receivers c);
    let '(receiver, rs) := r in
    let c := set_lists (senders c) rs c in
    match receiver with
    | Some a =>
        fill_slot a (Some value);;;
        upd_node a (set_success true);;;
        st_ret (kDone, Some a, c)
    | None =>
        if decide (count c < capacity c)
        then st_ret (kDone, None, ring_put value c)
        else st_ret (kBlocked, None, c)
    end.

(** Result: status, [*out] afterwards, [to_wake] and the channel. *)
Definition try_recv_locked (out : option V) (c : Channel)
  : ST Mem (OpStatus * option V * option addr * Channel) :=
  if decide (0 < count c) then
    match ring_take c with
    | None => st_fail
    | Some (v, c) =>
        fuel <-- loop_fuel;
        r <-- pop_acquired fuel (senders c);
        let '(sender, ss) := r in
        let c := set_lists ss (receivers c) c in
        match sender with
        | Some a =>
            x <-- take_slot a;
            upd_node a (set_success true);;;
            st_ret (kDone, Some v, Some a, ring_put x c)
        | None => st_ret (kDone, Some v, None, c)
        end
    end
  else
    fuel <-- loop_fuel;
    r <-- pop_acquired fuel (senders c);
    let '(sender, ss) := r in
    let c := set_lists ss (receivers c) c in
    match sender with
    | Some a =>
        x <-- take_slot a;
        upd_node a (set_success true);;;
        st_ret (kDone, Some x, Some a, c)
    | None =>
        if closed c then st_ret (kClosed, None, None, c)
        else st_ret (kBlocked, out, None, c)
    end.

Definition try_recv_now_locked (out : option V) (c : Channel)
  : ST Mem (OpStatus * option V * option addr * Channel) :=
  if bool_decide (count c = 0) || negb (list_empty (senders c))
  then try_recv_locked out c
  else match ring_take c with
       | None => st_fail
       | Some (v, c) => st_ret (kDone, Some v, None, c)
       end.

(** The two draining loops of [close]: every acquired waiter is failed and
    pushed in front of [wake_list]. *)
Fixpoint close_drain (fuel : nat) (is_recv : bool) (q : WaiterList)
    (wake_list : option addr) : ST Mem (WaiterList * option addr) :=
  match fuel with
  | O => st_fail
  | S fuel =>
      r <-- pop_front q;
      match r with
      | (None, q') => st_ret (q', wake_list)
      | (Some w, q') =>
          won <-- try_acquire w;
          if negb won then close_drain fuel is_recv q' wake_list
          else
            (if is_recv then fill_slot w None else st_ret tt);;;
            upd_node w (set_success false);;;
            upd_node w (set_next wake_list);;;
            close_drain fuel is_recv q' (Some w)
      end
  end.

(** Wakes [wake_list], reading each [next] before the wake. *)
Fixpoint wake_all (fuel : nat) (wake_list : option addr) : ST Mem unit :=
  match wake_list with
  | None => st_ret tt
  | Some w =>
      match fuel with
      | O => st_fail
      | S fuel =>
          n <-- get_node w;
          wake w;;;
          wake_all fuel (next n)
      end
  end.

(** The critical section of [close]: the channel and the list to wake. *)
Definition close_locked (c : Channel) : ST Mem (Channel * option addr) :=
  if closed c then st_ret (c, None)
  else
    let c := set_closed c in
    fuel <-- loop_fuel;
    r <-- close_drain fuel true (receivers c) None;
    let '(rs, wl) := r in
    s <-- close_drain fuel false (senders c) wl;
    let '(ss, wl) := s in
    st_ret (set_lists ss rs c, wl).

Definition close (c : Channel) : ST Mem Channel :=
  r <-- close_locked c;
  let '(c, wl) := r in
  fuel <-- loop_fuel;
  wake_all fuel wl;;;
  st_ret c.

(** ** The awaiters and the non-blocking operations of [Chan<T>] *)

Definition wake_opt (wk : addr -> ST Mem unit) (o : option addr) : ST Mem unit :=
  match o with Some a => wk a | None => st_ret tt end.

(** Node of a parking [SendAwaiter] / [RecvAwaiter]: a plain waiter. *)
Definition plain_waiter (h : nat) (s : Slot) : ChanWaiter :=
  mkWaiter None None h s None None 0 false false.
Definition alloc_node (a : addr) (w : ChanWaiter) : ST Mem unit :=
  st_modify (fun m => mkMem (<[a := w]> (nodes m)) (shared m) (dispatched m)).

(** The locked block of [SendAwaiter::await_suspend], with its node at [a]:
    [kBlocked] means that the task parked. *)
Definition send_cs (a : addr) (h : nat) (v : V) (c : Channel)
  : ST Mem (OpStatus * option addr * Channel) :=
  r <-- try_send_locked v c;
  let '(status, to_wake, c) := r in
  if decide (status = kBlocked) then
    alloc_node a (plain_waiter h (SlotSend (Some v)));;;
    q <-- push_back a (senders c);
    st_ret (kBlocked, None, set_lists q (receivers c) c)
  else st_ret (status, to_wake, c).

(** [SendAwaiter::await_suspend]: whether the task parked, and
    [waiter_.success] when it did not. *)
Definition send_suspend (a : addr) (h : nat) (v : V) (c : Channel)
  : ST Mem (bool * bool * Channel) :=
  r <-- send_cs a h v c;
  let '(status, to_wake, c) := r in
  if decide (status = kBlocked) then st_ret (true, false, c)
  else
    wake_opt wake_handoff to_wake;;;
    st_ret (false, bool_decide (status = kDone), c).

(** The locked block of [RecvAwaiter::await_suspend]; the second component is
    [value_]. *)
Definition recv_cs (a : addr) (h : nat) (c : Channel)
  : ST Mem (OpStatus * option V * option addr * Channel) :=
  r <-- try_recv_locked None c;
  let '(status, out, to_wake, c) := r in
  if decide (status = kBlocked) then
    alloc_node a (plain_waiter h (SlotRecv out));;;
    q <-- push_back a (receivers c);
    st_ret (kBlocked, None, None, set_lists (senders c) q c)
  else st_ret (status, out, to_wake, c).

(** [RecvAwaiter::await_suspend]: whether the task parked, and [value_]. *)
Definition recv_suspend (a : addr) (h : nat) (c : Channel)
  : ST Mem (bool * option V * Channel) :=
  r <-- recv_cs a h c;
  let '(status, out, to_wake, c) := r in
  if decide (status = kBlocked) then st_ret (true, None, c)
  else
    wake_opt wake_handoff to_wake;;;
    st_ret (false, out, c).

Definition try_send (v : V) (c : Channel) : ST Mem (bool * Channel) :=
  r <-- try_send_locked v c;
  let '(status, to_wake, c) := r in
  wake_opt wake to_wake;;;
  st_ret (bool_decide (status = kDone), c).

Definition try_recv (c : Channel) : ST Mem (option V * Channel) :=
  r <-- try_recv_now_locked None c;
  let '(status, out, to_wake, c) := r in
  wake_opt wake to_wake;;;
  st_ret (out, c).

Definition is_closed (c : Channel) : bool := closed c.
Definition chan_size (c : Channel) : nat := count c.
Definition chan_capacity (c : Channel) : nat := capacity c.

End Chan.

Arguments ChanWaiter : clear implicits.
Arguments Slot : clear implicits.
Arguments Mem : clear implicits.
Arguments Channel : clear implicits.
