(* ===== verification/ChanList.v ===== *)
(** * The intrusive waiter list refines a list of addresses

    Representation predicate [dll] of [WaiterList] over the node store, and the
    functional specification of [push_back], [pop_front], [remove] and of the
    claim loop [pop_acquired] of the channel's locked primitives. *)

From S2P Require Import Prelude Result Chan.

Set Default Proof Using "Type".

Create HintDb chan discriminated.

Section ChanList.
  Context {V : Type}.
  Implicit Types (m : Mem V) (w : ChanWaiter V) (a b : addr) (l : list addr).

(** The fields of a waiter that the list operations do not own. *)
Definition payload w :=
  (handle w, slot w, select_winner w, select_phase w, case_index w, success w).

(** Predecessor of position [i]. *)
Definition pred_of l (i : nat) : option addr :=
  match i with O => None | S j => l !! j end.

Definition linked_at m l (i : nat) a : Prop :=
  exists w, nodes m !! a = Some w /\ queued w = true /\
            next w = l !! S i /\ prev w = pred_of l i.

(** [q] is a well-formed doubly linked list whose nodes are [l], in order. *)
Definition dll m (q : WaiterList) l : Prop :=
  NoDup l /\ head_ q = head l /\ tail_ q = last l /\
  forall i a, l !! i = Some a -> linked_at m l i a.

(** [m'] differs from [m] at most in the links of the nodes [L]. *)
Record lframe (L : list addr) m m' : Prop := {
  lf_out : forall b, b ∉ L -> nodes m' !! b = nodes m !! b;
  lf_payload : forall b, payload <$> nodes m' !! b = payload <$> nodes m !! b;
  lf_dispatched : dispatched m' = dispatched m
}.

Lemma lframe_refl L m : lframe L m m.
Proof. by split. Qed.

Lemma lframe_trans L m1 m2 m3 : lframe L m1 m2 -> lframe L m2 m3 -> lframe L m1 m3.
Proof.
  intros [o1 p1 d1] [o2 p2 d2]. split; [|intros; by rewrite p2|congruence].
  intros b Hb. by rewrite o2, o1.
Qed.

Lemma lframe_weaken L L' m m' : L ⊆ L' -> lframe L m m' -> lframe L' m m'.
Proof. intros Hs [o p d]. split; [|done..]. intros b Hb. apply o. set_solver. Qed.

Lemma lframe_node L m m' b w :
  lframe L m m' -> nodes m !! b = Some w ->
  exists w', nodes m' !! b = Some w' /\ payload w' = payload w.
Proof.
  intros [_ p _] Hw. specialize (p b). rewrite Hw in p.
  destruct (nodes m' !! b) as [w'|]; [|done]. exists w'. split; [done|].
  by apply (inj Some) in p.
Qed.

Definition with_nodes (f : gmap addr (ChanWaiter V) -> gmap addr (ChanWaiter V)) m :=
  mkMem (f (nodes m)) (shared m) (dispatched m).

Lemma upd_node_eq a w f m :
  nodes m !! a = Some w ->
  upd_node a f m = Some (tt, with_nodes <[a := f w]> m).
Proof. intros H. unfold upd_node, st_bind, get_node, st_lift. by rewrite H. Qed.

Lemma get_node_eq a w m : nodes m !! a = Some w -> get_node a m = Some (w, m).
Proof. intros H. unfold get_node, st_lift. by rewrite H. Qed.

(** Updating the links of one node is a link frame. *)
Lemma lframe_upd a w w' m :
  nodes m !! a = Some w -> payload w' = payload w ->
  lframe [a] m (with_nodes <[a := w']> m).
Proof.
  intros Hw Hp. split; simpl; [| |done].
  - intros b Hb. rewrite lookup_insert_ne; [done|set_solver].
  - intros b. destruct (decide (a = b)) as [->|Hn].
    + rewrite lookup_insert_eq, Hw. simpl. by rewrite Hp.
    + by rewrite lookup_insert_ne.
Qed.

Lemma lframe_upd_in L a w w' m :
  a ∈ L -> nodes m !! a = Some w -> payload w' = payload w ->
  lframe L m (with_nodes <[a := w']> m).
Proof.
  intros Ha Hw Hp. eapply lframe_weaken; [|by apply (lframe_upd a w)].
  intros b Hb%list_elem_of_singleton. by subst.
Qed.

Lemma dll_out L m m' q l :
  lframe L m m' -> (forall b, b ∈ l -> b ∉ L) -> dll m q l -> dll m' q l.
Proof.
  intros [o _ _] Hd (H1 & H2 & H3 & H4). do 3 (split; [done|]).
  intros i a Ha. destruct (H4 i a Ha) as (w & Hw & Hr).
  exists w. split; [|done]. rewrite o; [done|].
  apply Hd, list_elem_of_lookup. eauto.
Qed.

Lemma dll_nil m q : dll m q [] <-> q = empty_list.
Proof.
  split.
  - intros (_ & H1 & H2 & _). destruct q; simpl in *. by subst.
  - intros ->. split; [constructor|]. do 2 (split; [done|]). intros i a Ha. done.
Qed.

Lemma dll_head m q a l :
  dll m q (a :: l) -> head_ q = Some a /\ linked_at m (a :: l) 0 a.
Proof. intros (_ & H1 & _ & H4). split; [done|]. by apply H4. Qed.

Lemma dll_node m q l a :
  dll m q l -> a ∈ l -> exists w, nodes m !! a = Some w /\ queued w = true.
Proof.
  intros (_ & _ & _ & H) Ha. apply list_elem_of_lookup in Ha as [i Hi].
  destruct (H i a Hi) as (w & Hw & Hq & _). eauto.
Qed.

(** A list is no longer than the store: the fuel of every loop suffices. *)
Lemma dll_fuel m q l : dll m q l -> length l < S (size (nodes m)).
Proof.
  intros Hd. apply Nat.lt_succ_r. rewrite <- size_dom.
  assert (Hn : NoDup l) by apply Hd.
  rewrite <- (size_list_to_set (C := gset addr) l Hn).
  apply subseteq_size. intros a Ha. apply elem_of_list_to_set in Ha.
  destruct (dll_node _ _ _ _ Hd Ha) as (w & Hw & _).
  apply elem_of_dom. eauto.
Qed.

(** ** [pop_front] *)

Lemma pop_front_nil m : pop_front empty_list m = Some ((None, empty_list), m).
Proof. done. Qed.

Lemma pop_front_cons m q a l :
  dll m q (a :: l) ->
  exists q' m', pop_front q m = Some ((Some a, q'), m') /\ dll m' q' l /\
    lframe (a :: l) m m' /\ shared m' = shared m /\
    (exists w, nodes m' !! a = Some w /\ queued w = false).
Proof.
  intros Hd. pose proof (dll_head _ _ _ _ Hd) as [Hh (w & Hw & Hq & Hn & _)].
  destruct Hd as (Hnd & _ & Ht & Hl). apply NoDup_cons in Hnd as [Hnin Hnd].
  unfold pop_front. rewrite Hh. unfold st_bind at 1. rewrite (get_node_eq _ _ _ Hw).
  rewrite Hn. unfold st_bind at 1. destruct l as [|b l]; simpl.
  - unfold st_ret at 1, st_bind. rewrite (upd_node_eq _ _ _ _ Hw). simpl.
    eexists _, _. split; [done|]. split; [by apply dll_nil|].
    split; [by apply (lframe_upd a w)|]. split; [done|]. simpl.
    rewrite lookup_insert_eq. eauto.
  - destruct (Hl 1 b eq_refl) as (wb & Hwb & Hqb & Hnb & _). simpl in Hnb.
    assert (a <> b) by set_solver.
    unfold st_bind at 1. rewrite (upd_node_eq _ _ _ _ Hwb). unfold st_ret at 1.
    unfold st_bind. rewrite (upd_node_eq a w); [|simpl; by rewrite lookup_insert_ne].
    simpl. eexists _, _. split; [done|]. split; [|split; [|split; [done|]]].
    + split; [done|]. split; [done|]. split; [by rewrite Ht|].
      intros i c Hc. assert (a <> c).
      { intros ->. apply Hnin. apply list_elem_of_lookup. eauto. }
      destruct (decide (b = c)) as [->|Hbc].
      * assert (i = 0) as -> by (by eapply (NoDup_lookup _ i 0 c)).
        exists (set_prev None wb). simpl.
        rewrite lookup_insert_ne, lookup_insert_eq by done. done.
      * destruct (Hl (S i) c Hc) as (wc & Hwc & Hqc & Hnc & Hpc).
        exists wc. simpl. rewrite !lookup_insert_ne by done.
        do 3 (split; [done|]). destruct i; [|done]. simpl in *. congruence.
    + eapply lframe_trans.
      * by eapply (lframe_upd_in _ b wb (set_prev None wb)); [set_solver| |].
      * eapply (lframe_upd_in _ a w (set_queued false w)); [set_solver| |done].
        simpl. by rewrite lookup_insert_ne.
    + simpl. rewrite lookup_insert_eq. eauto.
Qed.

(** ** [push_back] *)

Lemma push_back_dll m q l a w :
  dll m q l -> a ∉ l -> nodes m !! a = Some w ->
  exists q' m', push_back a q m = Some (q', m') /\ dll m' q' (l ++ [a]) /\
    lframe (a :: l) m m' /\ shared m' = shared m.
Proof.
  intros (Hnd & Hh & Ht & Hl) Hnin Hw. unfold push_back.
  unfold st_bind at 1. rewrite (upd_node_eq _ _ _ _ Hw).
  unfold st_bind at 1. erewrite upd_node_eq by (simpl; by rewrite lookup_insert_eq).
  unfold with_nodes at 1 2. simpl. rewrite insert_insert_eq.
  set (w1 := set_prev _ _). set (m1 := mkMem _ _ _).
  assert (Hw1 : nodes m1 !! a = Some w1) by (simpl; by rewrite lookup_insert_eq).
  assert (Hf1 : lframe [a] m m1) by (by apply (lframe_upd a w)).
  destruct (last l) as [t|] eqn:Hlast.
  - apply last_lookup_pred in Hlast as (n & Hlen & Hlast).
    destruct (Hl _ _ Hlast) as (wt & Hwt & Hqt & Hnt & Hpt).
    assert (t <> a) as Hta. { intros ->. apply Hnin, list_elem_of_lookup. eauto. }
    assert (Hwt1 : nodes m1 !! t = Some wt) by (simpl; by rewrite lookup_insert_ne).
    rewrite Ht. unfold st_bind at 1. unfold st_bind at 1. rewrite (upd_node_eq _ _ _ _ Hwt1).
    unfold st_ret at 1. unfold st_bind.
    erewrite upd_node_eq by (simpl; rewrite lookup_insert_ne by done; exact Hw1).
    eexists _, _. split; [done|]. split; [|split; [|done]].
    + split; [by apply NoDup_snoc|]. split; [by destruct l|].
      split; [by rewrite last_snoc|].
      intros i c Hc. destruct (decide (c = a)) as [->|Hca].
      * exists (set_queued true w1). simpl. rewrite lookup_insert_eq.
        assert (i = length l) as ->.
        { apply lookup_app_Some in Hc as [Hc|[? Hc]].
          - destruct Hnin. apply list_elem_of_lookup. eauto.
          - apply list_lookup_singleton_Some in Hc as [? _]. lia. }
        do 2 (split; [done|]). split.
        -- simpl. rewrite lookup_ge_None_2; [done|]. rewrite length_app. simpl. lia.
        -- simpl. rewrite Ht, Hlen. simpl. rewrite lookup_app_l by lia. done.
      * apply lookup_app_Some in Hc as [Hc|[? Hc]].
        2:{ apply list_lookup_singleton_Some in Hc as [_ ?]. congruence. }
        pose proof (lookup_lt_Some _ _ _ Hc). pose proof (lookup_lt_Some _ _ _ Hlast).
        assert (pred_of (l ++ [a]) i = pred_of l i) as Hpred.
        { destruct i; [done|]. simpl. by rewrite lookup_app_l by lia. }
        destruct (decide (c = t)) as [->|Hct].
        -- exists (set_next (Some a) wt). simpl.
           rewrite lookup_insert_ne, lookup_insert_eq by done.
           assert (i = n) as -> by (by eapply (NoDup_lookup l)).
           rewrite Hpred. do 2 (split; [done|]). split; [|done]. simpl.
           rewrite lookup_app_r by lia.
           by replace (S n - length l) with 0 by lia.
        -- destruct (Hl _ _ Hc) as (wc & Hwc & Hqc & Hnc & Hpc).
           exists wc. simpl. rewrite !lookup_insert_ne by done. rewrite Hpred.
           do 2 (split; [done|]). split; [|done].
           rewrite Hnc. rewrite lookup_app_l; [done|].
           enough (i <> n) by lia. intros ->. congruence.
    + eapply (lframe_trans _ _ m1); [by apply (lframe_upd_in _ a w); [set_solver| |]|].
      eapply lframe_trans.
      * apply (lframe_upd_in _ t wt (set_next (Some a) wt)); [|done|done].
        right. apply list_elem_of_lookup. eauto.
      * apply (lframe_upd_in _ a w1 (set_queued true w1)); [set_solver| |done].
        simpl. by rewrite lookup_insert_ne.
  - apply last_None in Hlast as ->. rewrite Ht. simpl. unfold st_bind at 1, st_ret at 1.
    unfold st_bind. rewrite (upd_node_eq _ _ _ _ Hw1).
    eexists _, _. split; [done|]. split; [|split; [|done]].
    + split; [apply NoDup_singleton|]. do 2 (split; [done|]).
      intros i c Hc. apply list_lookup_singleton_Some in Hc as [-> ->].
      exists (set_queued true w1). simpl. rewrite lookup_insert_eq.
      do 3 (split; [done|]). by rewrite Ht.
    + eapply lframe_trans; [exact Hf1|]. by apply (lframe_upd a w1).
Qed.

(** ** [remove] *)

Lemma remove_not_queued m q a w :
  nodes m !! a = Some w -> queued w = false -> remove a q m = Some (q, m).
Proof.
  intros Hw Hq. unfold remove, st_bind at 1. rewrite (get_node_eq _ _ _ Hw).
  by rewrite Hq.
Qed.

(** What removing a node between [p] and [n] does to another node [c]. *)
Definition relink (p n : option addr) (c : addr) w : ChanWaiter V :=
  set_links (if decide (p = Some c) then n else next w)
            (if decide (n = Some c) then p else prev w) w.

Lemma pred_of_mid l1 a l2 : pred_of (l1 ++ a :: l2) (length l1) = last l1.
Proof.
  rewrite last_lookup. destruct l1 as [|b l1]; [done|].
  change (pred_of _ _) with (((b :: l1) ++ a :: l2) !! length l1).
  by rewrite lookup_app_l by (simpl; lia).
Qed.

Lemma lookup_mid_S l1 a l2 : (l1 ++ a :: l2) !! S (length l1) = head l2.
Proof.
  rewrite lookup_app_r by lia. replace (S (length l1) - length l1) with 1 by lia.
  by destruct l2.
Qed.

Definition opt_alter (o : option addr) (f : ChanWaiter V -> ChanWaiter V)
    (g : gmap addr (ChanWaiter V)) : gmap addr (ChanWaiter V) :=
  match o with Some p => alter f p g | None => g end.

Lemma lookup_opt_alter o f g c :
  opt_alter o f g !! c = (if decide (o = Some c) then f else id) <$> g !! c.
Proof.
  destruct o as [p|]; simpl.
  - destruct (decide (p = c)) as [->|Hn].
    + by rewrite lookup_alter_eq, decide_True.
    + rewrite lookup_alter_ne, decide_False by congruence. by rewrite option_fmap_id.
  - by rewrite option_fmap_id.
Qed.

(** The two conditional relinkings of [remove]. *)
Lemma relink_run o f q qn m :
  (forall p, o = Some p -> is_Some (nodes m !! p)) ->
  (match o with Some p => upd_node p f;;; st_ret q | None => st_ret qn end) m
  = Some (match o with Some _ => q | None => qn end : WaiterList,
          with_nodes (opt_alter o f) m).
Proof.
  intros Ho. destruct o as [p|]; [|by destruct m].
  destruct (Ho p eq_refl) as [w Hw]. st_step. rewrite (upd_node_eq _ _ _ _ Hw).
  unfold st_ret, with_nodes. simpl. do 3 f_equal. apply map_eq. intros c.
  destruct (decide (p = c)) as [->|?].
  - by rewrite lookup_insert_eq, lookup_alter_eq, Hw.
  - by rewrite lookup_insert_ne, lookup_alter_ne.
Qed.

Lemma linked_dll m q l i a : dll m q l -> l !! i = Some a -> linked_at m l i a.
Proof. intros (_ & _ & _ & H). auto. Qed.

(** The neighbours of a removed node are other nodes of the store. *)
Lemma mid_neighbours m q l1 a l2 :
  dll m q (l1 ++ a :: l2) ->
  (forall c, last l1 = Some c -> c <> a /\ is_Some (nodes m !! c)) /\
  (forall c, head l2 = Some c -> c <> a /\ is_Some (nodes m !! c)).
Proof.
  intros Hd. assert (Hnd : NoDup (l1 ++ a :: l2)) by apply Hd.
  apply NoDup_app in Hnd as (_ & Hd1 & [Hnin _]%NoDup_cons).
  assert (Hin : forall c, c ∈ l1 ++ a :: l2 -> is_Some (nodes m !! c)).
  { intros c Hc. destruct (dll_node _ _ _ c Hd Hc) as (wc & ? & _). eauto. }
  split; intros c Hc.
  - apply last_Some_elem_of in Hc. split; [|apply Hin; set_solver].
    intros ->. eapply Hd1; [done|set_solver].
  - apply head_Some_elem_of in Hc. split; [set_solver|apply Hin; set_solver].
Qed.

Lemma remove_run m q l1 a l2 :
  dll m q (l1 ++ a :: l2) ->
  exists m', remove a q m = Some (mkList (head (l1 ++ l2)) (last (l1 ++ l2)), m') /\
    (forall c, c <> a ->
       nodes m' !! c = relink (last l1) (head l2) c <$> nodes m !! c) /\
    shared m' = shared m /\ dispatched m' = dispatched m /\
    (exists w, nodes m !! a = Some w /\ nodes m' !! a = Some (set_queued false w)).
Proof.
  intros Hd. destruct (linked_dll m q _ (length l1) a Hd) as (w & Hw & Hq & Hn & Hp).
  { by apply list_lookup_middle. }
  rewrite lookup_mid_S in Hn. rewrite pred_of_mid in Hp.
  destruct (mid_neighbours _ _ _ _ _ Hd) as [Hy Hx].
  destruct Hd as (_ & Hh & Ht & _).
  unfold remove. st_step. rewrite (get_node_eq _ _ _ Hw), Hq. simpl.
  rewrite Hp, Hn. st_step. rewrite relink_run by (intros; by apply Hy).
  st_step. rewrite relink_run.
  2:{ intros c [_ [wc Hc]]%Hx. simpl. rewrite lookup_opt_alter, Hc. eauto. }
  st_step. erewrite upd_node_eq.
  2:{ simpl. rewrite !lookup_opt_alter, Hw. simpl.
      rewrite decide_False by (intros [? _]%Hx; done).
      rewrite decide_False by (intros [? _]%Hy; done). done. }
  eexists. split; [unfold st_ret; do 2 f_equal|].
  - destruct q as [hq tq]. simpl in *. subst hq tq. rewrite !last_app, last_cons.
    destruct l1 as [|b l1]; destruct l2 as [|x l2]; simpl; try done.
    + rewrite last_cons. by destruct (last l2).
    + destruct (last (b :: l1)) eqn:E; [done|]. apply last_None in E. done.
    + destruct (last (b :: l1)) eqn:E; [|apply last_None in E; done].
      rewrite last_cons. by destruct (last l2).
  - simpl. split; [|do 2 (split; [done|]); exists w; by rewrite lookup_insert_eq].
    intros c Hc. rewrite lookup_insert_ne, !lookup_opt_alter by done.
    destruct (nodes m !! c) as [wc|]; [|done]. simpl. f_equal. unfold relink.
    repeat case_decide; by destruct wc.
Qed.

(** Deleting position [length l1] shifts the positions after it. *)
Lemma mid_lookup l1 a l2 i c :
  (l1 ++ l2) !! i = Some c ->
  exists j, (l1 ++ a :: l2) !! j = Some c /\
    (j = i /\ i < length l1 \/ j = S i /\ length l1 <= i).
Proof.
  intros [Hc|[Hi Hc]]%lookup_app_Some.
  - pose proof (lookup_lt_Some _ _ _ Hc). exists i. split; [by rewrite lookup_app_l|lia].
  - exists (S i). split; [|lia]. rewrite lookup_app_r by lia.
    by replace (S i - length l1) with (S (i - length l1)) by lia.
Qed.

(** The links of a relinked node, at its position in the shorter list. *)
Lemma relink_links m q l1 a l2 i c :
  dll m q (l1 ++ a :: l2) -> (l1 ++ l2) !! i = Some c ->
  c <> a /\ exists w, nodes m !! c = Some w /\ queued w = true /\
    next (relink (last l1) (head l2) c w) = (l1 ++ l2) !! S i /\
    prev (relink (last l1) (head l2) c w) = pred_of (l1 ++ l2) i.
Proof.
  intros Hd Hc. destruct (mid_lookup l1 a l2 i c Hc) as (j & Hj & Hij).
  destruct (linked_dll _ _ _ _ _ Hd Hj) as (w & Hw & Hq & Hn & Hp).
  assert (Hnd : NoDup (l1 ++ a :: l2)) by apply Hd.
  assert (Hu : forall k d, (l1 ++ a :: l2) !! k = Some d -> d = c -> k = j).
  { intros k d Hk ->. by eapply NoDup_lookup. }
  assert (Ha : (l1 ++ a :: l2) !! length l1 = Some a) by by apply list_lookup_middle.
  assert (c <> a). { intros ->. pose proof (Hu _ _ Ha eq_refl). lia. }
  split; [done|]. exists w. do 2 (split; [done|]). simpl. split.
  - case_decide as E.
    + apply last_lookup_pred in E as (n & Hlen & Hln).
      assert (n = j) as -> by (eapply Hu; [by rewrite lookup_app_l by lia|done]).
      destruct Hij as [[-> ?]|[-> ?]]; [|lia]. rewrite lookup_app_r by lia.
      replace (S i - length l1) with 0 by lia. by destruct l2.
    + rewrite Hn. destruct Hij as [[-> ?]|[-> ?]].
      * destruct (decide (S i = length l1)) as [E'|].
        -- destruct E. rewrite last_lookup, <- E'. simpl.
           by rewrite lookup_app_l in Hc by lia.
        -- by rewrite !lookup_app_l by lia.
      * rewrite !lookup_app_r by lia.
        by replace (S (S i) - length l1) with (S (S i - length l1)) by lia.
  - case_decide as E.
    + destruct l2 as [|x l2]; simplify_eq/=.
      assert (S (length l1) = j) as <-.
      { eapply Hu; [rewrite lookup_mid_S; done|done]. }
      assert (i = length l1) as -> by lia. destruct l1; simpl; [done|].
      rewrite <- (pred_of_mid _ c l2). done.
    + rewrite Hp. destruct Hij as [[-> ?]|[-> ?]].
      * destruct i; [done|]. simpl. by rewrite !lookup_app_l by lia.
      * destruct i as [|i]; simpl.
        -- destruct l1; [|simpl in *; lia]. simpl in *. destruct l2; simplify_eq/=.
        -- destruct (decide (S i = length l1)) as [E'|].
           ++ destruct E. rewrite lookup_app_r in Hc by lia.
              replace (S i - length l1) with 0 in Hc by lia. by destruct l2.
           ++ rewrite !lookup_app_r by lia.
              by replace (S i - length l1) with (S (i - length l1)) by lia.
Qed.

Lemma remove_dll m q l1 a l2 :
  dll m q (l1 ++ a :: l2) ->
  exists q' m', remove a q m = Some (q', m') /\ dll m' q' (l1 ++ l2) /\
    lframe (l1 ++ a :: l2) m m' /\ shared m' = shared m /\
    (exists w, nodes m' !! a = Some w /\ queued w = false).
Proof.
  intros Hd. destruct (remove_run _ _ _ _ _ Hd) as (m' & Hr & Hc & Hs & Hdp & w & Hw & Hw').
  assert (Hnd : NoDup (l1 ++ a :: l2)) by apply Hd.
  eexists _, m'. split; [done|]. split; [|split; [|eauto]].
  - split; [|split; [done|split; [done|]]].
    { apply NoDup_app in Hnd as (? & ? & [? ?]%NoDup_cons).
      apply NoDup_app. split; [done|]. split; [set_solver|done]. }
    intros i c Hi. destruct (relink_links _ _ _ _ _ _ _ Hd Hi) as (Hca & wc & Hwc & Hq & ? & ?).
    eexists. rewrite Hc, Hwc by done. split; [done|]. by destruct wc.
  - split; [| |done]; intros c.
    + intros Hnin. assert (c <> a) by set_solver. rewrite Hc by done.
      destruct (nodes m !! c) as [wc|]; [|done]. simpl. unfold relink.
      rewrite !decide_False.
      * by destruct wc.
      * intros E%head_Some_elem_of. set_solver.
      * intros E%last_Some_elem_of. set_solver.
    + destruct (decide (c = a)) as [->|]; [by rewrite Hw, Hw'|].
      rewrite Hc by done. by destruct (nodes m !! c).
Qed.

(** ** The claim loop *)

(** Waking [a] can succeed: it is a plain waiter, or its select is unclaimed. *)
Definition acquirable m a : bool :=
  match nodes m !! a with
  | Some w =>
      match select_winner w with
      | None => true
      | Some s =>
          match shared m !! s with
          | Some sh => bool_decide (winner sh = kNoWinner)
          | None => false
          end
      end
  | None => false
  end.

(** The waiters that remain once the stale ones in front were discarded. *)
Fixpoint drop_stale m l : list addr :=
  match l with
  | [] => []
  | a :: l' => if acquirable m a then l else drop_stale m l'
  end.

(** The select states after [a] was acquired. *)
Definition claim m a : gmap sel_id SelectShared :=
  match nodes m !! a with
  | Some w =>
      match select_winner w with
      | None => shared m
      | Some s =>
          alter (fun sh => mkShared (case_index w) (phase sh) (sel_handle sh)) s (shared m)
      end
  | None => shared m
  end.

Definition claim_opt m (o : option addr) : gmap sel_id SelectShared :=
  match o with Some a => claim m a | None => shared m end.

(** Every waiter of [l] points to a live select. *)
Definition selects_ok m l : Prop :=
  forall a w s, a ∈ l -> nodes m !! a = Some w -> select_winner w = Some s ->
    is_Some (shared m !! s).

Lemma lframe_cases L m m' a :
  lframe L m m' ->
  nodes m !! a = None /\ nodes m' !! a = None \/
  exists w w', nodes m !! a = Some w /\ nodes m' !! a = Some w' /\
    select_winner w' = select_winner w /\ case_index w' = case_index w.
Proof.
  intros [_ p _]. specialize (p a).
  destruct (nodes m !! a) as [w|], (nodes m' !! a) as [w'|]; try done; [|by left].
  right. exists w, w'. apply (inj Some) in p. unfold payload in p.
  injection p as ??????. done.
Qed.

Lemma acquirable_frame L m m' a :
  lframe L m m' -> shared m' = shared m -> acquirable m' a = acquirable m a.
Proof.
  intros Hf Hs. unfold acquirable. rewrite Hs.
  destruct (lframe_cases _ _ _ a Hf) as [[-> ->]|(w & w' & -> & -> & -> & _)]; done.
Qed.

Lemma claim_frame L m m' a :
  lframe L m m' -> shared m' = shared m -> claim m' a = claim m a.
Proof.
  intros Hf Hs. unfold claim. rewrite Hs.
  destruct (lframe_cases _ _ _ a Hf) as [[-> ->]|(w & w' & -> & -> & -> & ->)]; done.
Qed.

Lemma selects_ok_frame L m m' l :
  lframe L m m' -> shared m' = shared m -> selects_ok m l -> selects_ok m' l.
Proof.
  intros Hf Hs Hok a w s Ha Hw Hsel. rewrite Hs.
  destruct (lframe_cases _ _ _ a Hf) as [[? ?]|(w0 & w' & ? & ? & ? & _)]; [congruence|].
  eapply Hok; eauto. congruence.
Qed.

Lemma drop_stale_frame L m m' l :
  lframe L m m' -> shared m' = shared m -> drop_stale m' l = drop_stale m l.
Proof.
  intros Hf Hs. induction l as [|a l IH]; simpl; [done|].
  rewrite (acquirable_frame _ _ _ _ Hf Hs). by rewrite IH.
Qed.

(** [try_acquire] succeeds exactly on an acquirable waiter, whose select it
    claims; it touches no other link. *)
Lemma try_acquire_spec m a w :
  nodes m !! a = Some w ->
  (forall s, select_winner w = Some s -> is_Some (shared m !! s)) ->
  exists m', try_acquire a m = Some (acquirable m a, m') /\ lframe [a] m m' /\
    shared m' = (if acquirable m a then claim m a else shared m) /\
    (exists w', nodes m' !! a = Some w' /\ queued w' = queued w).
Proof.
  intros Hw Hs. unfold try_acquire, acquirable, claim. rewrite Hw. st_step.
  rewrite (get_node_eq _ _ _ Hw). destruct (select_winner w) as [s|] eqn:E.
  - destruct (Hs s eq_refl) as [sh Hsh]. rewrite Hsh. st_step.
    rewrite (upd_node_eq _ _ _ _ Hw). st_step. unfold get_shared at 1, st_lift.
    simpl. rewrite Hsh.
    assert (Hf : lframe [a] m (with_nodes <[a:=set_links None None w]> m)).
    { by apply (lframe_upd a w). }
    case_decide.
    + rewrite bool_decide_true by done. st_step. unfold upd_shared. st_step.
      unfold get_shared, st_lift. simpl. rewrite Hsh.
      eexists. split; [done|]. split; [by destruct Hf|]. simpl. split.
      * apply map_eq. intros i. destruct (decide (s = i)) as [->|].
        -- by rewrite lookup_insert_eq, lookup_alter_eq, Hsh.
        -- by rewrite lookup_insert_ne, lookup_alter_ne.
      * rewrite lookup_insert_eq. eauto.
    + rewrite bool_decide_false by done.
      eexists. split; [done|]. split; [done|]. split; [done|].
      simpl. rewrite lookup_insert_eq. eauto.
  - eexists. split; [done|]. split; [apply lframe_refl|]. eauto.
Qed.

(** Nodes of [l] that are no longer in [rest] are detached. *)
Definition detached m l (rest : list addr) : Prop :=
  forall a, a ∈ l -> a ∉ rest -> exists w, nodes m !! a = Some w /\ queued w = false.

Lemma pop_acquired_spec fuel : forall m q l,
  dll m q l -> selects_ok m l -> length l < fuel ->
  exists q' m', pop_acquired fuel q m = Some ((head (drop_stale m l), q'), m') /\
    dll m' q' (tail (drop_stale m l)) /\ lframe l m m' /\
    shared m' = claim_opt m (head (drop_stale m l)) /\
    detached m' l (tail (drop_stale m l)).
Proof.
  induction fuel as [|fuel IH]; intros m q l Hd Hok Hlen; [lia|].
  destruct l as [|a l].
  - apply dll_nil in Hd as ->. eexists _, m. split; [done|]. split; [by apply dll_nil|].
    split; [apply lframe_refl|]. split; [done|]. intros a Ha. set_solver.
  - destruct (pop_front_cons _ _ _ _ Hd) as (q1 & m1 & Hp & Hd1 & Hf1 & Hs1 & w1 & Hw1 & Hq1).
    assert (Hok1 : selects_ok m1 (a :: l)) by by eapply selects_ok_frame.
    assert (Hnd : NoDup (a :: l)) by apply Hd. apply NoDup_cons in Hnd as [Hnin _].
    destruct (try_acquire_spec m1 a w1 Hw1) as (m2 & Ht & Hf2 & Hs2 & w2 & Hw2 & Hq2).
    { intros s Hs. eapply (Hok1 a); [set_solver|done..]. }
    rewrite (acquirable_frame _ _ _ a Hf1 Hs1) in Ht, Hs2.
    assert (Hd2 : dll m2 q1 l) by (eapply dll_out; [done| |done]; set_solver).
    assert (Hf12 : lframe (a :: l) m m2).
    { eapply lframe_trans; [done|]. eapply lframe_weaken; [|done]. set_solver. }
    simpl. st_step. rewrite Hp. st_step. rewrite Ht.
    destruct (acquirable m a) eqn:Ea; simpl.
    + eexists _, m2. split; [done|]. split; [done|]. split; [done|].
      split; [rewrite Hs2; by eapply claim_frame|].
      intros b Hb Hnb. assert (b = a) as -> by set_solver. exists w2. by rewrite Hq2.
    + assert (Hs12 : shared m2 = shared m) by congruence.
      destruct (IH m2 q1 l Hd2) as (q' & m' & Hr & Hd' & Hf' & Hs' & Hdet).
      { intros b wb s Hb Hwb Hsel.
        eapply (selects_ok_frame _ m m2 (a :: l) Hf12 Hs12 Hok b); [set_solver|done|done]. }
      { simpl in Hlen. lia. }
      rewrite (drop_stale_frame _ _ _ l Hf12 Hs12) in Hr, Hd', Hs', Hdet.
      eexists _, m'. split; [done|]. split; [done|].
      split; [eapply lframe_trans; [done|]; eapply lframe_weaken; [|done]; set_solver|].
      split.
      * rewrite Hs'. destruct (head (drop_stale m l)); [|done]. by eapply claim_frame.
      * intros b Hb Hnb. destruct (decide (b = a)) as [->|Hba]; [|apply Hdet; set_solver].
        exists w2. rewrite (lf_out _ _ _ Hf') by done. by rewrite Hq2.
Qed.

Lemma drop_stale_nil m l :
  drop_stale m l = [] <-> (forall a, a ∈ l -> acquirable m a = false).
Proof.
  induction l as [|a l IH]; simpl.
  - split; [set_solver|done].
  - destruct (acquirable m a) eqn:E.
    + split; [done|]. intros H. specialize (H a ltac:(set_solver)). congruence.
    + rewrite IH. set_solver.
Qed.

Lemma drop_stale_cons m l a rest :
  drop_stale m l = a :: rest ->
  acquirable m a = true /\ exists st, l = st ++ a :: rest /\
    forall b, b ∈ st -> acquirable m b = false.
Proof.
  induction l as [|b l IH]; simpl; [done|]. destruct (acquirable m b) eqn:E.
  - intros [= -> ->]. split; [done|]. exists []. split; [done|]. set_solver.
  - intros (? & st & -> & ?)%IH. split; [done|]. exists (b :: st). split; [done|].
    set_solver.
Qed.

Lemma drop_stale_sub m l : drop_stale m l ⊆ l.
Proof.
  induction l as [|a l IH]; simpl; [done|]. destruct (acquirable m a); [done|].
  set_solver.
Qed.

End ChanList.
