(* ===== verification/ChanSpec.v ===== *)
(** * Channel refinement

    The abstract channel (a bounded FIFO and two lists of parked waiters), the
    representation relation [crep], and the refinement of the locked primitives. *)

From S2P Require Import Prelude Result Chan ChanList.

Set Default Proof Using "Type".

Section ChanSpec.
  Context {V : Type}.
  Implicit Types (m : Mem V) (w : ChanWaiter V) (c : Channel V) (a b : addr)
    (l : list addr) (v : V) (buf : list V).

(** ** The abstract channel *)

Record AChan := mkAChan {
  a_cap : nat;
  a_buf : list V;
  a_closed : bool;
  a_send : list addr;
  a_recv : list addr
}.

(** The waiters from the first one that [acq] accepts on. *)
Fixpoint drop_until (acq : addr -> bool) l : list addr :=
  match l with
  | [] => []
  | a :: l' => if acq a then l else drop_until acq l'
  end.

(** Sending: to the first acquirable receiver, else into the buffer. *)
Definition abs_send (acq : addr -> bool) v (A : AChan)
  : OpStatus * option addr * AChan :=
  if a_closed A then (kClosed, None, A)
  else match drop_until acq (a_recv A) with
       | r :: rest =>
           (kDone, Some r, mkAChan (a_cap A) (a_buf A) (a_closed A) (a_send A) rest)
       | [] =>
           if decide (length (a_buf A) < a_cap A)
           then (kDone, None,
                 mkAChan (a_cap A) (a_buf A ++ [v]) (a_closed A) (a_send A) [])
           else (kBlocked, None, mkAChan (a_cap A) (a_buf A) (a_closed A) (a_send A) [])
       end.

(** Receiving: the oldest buffered value, whose place the first acquirable
    sender takes; without a buffered value, that sender's; [val] is what a
    parked sender offers. *)
Definition abs_recv (acq : addr -> bool) (val : addr -> option V)
    (out : option V) (A : AChan) : OpStatus * option V * option addr * AChan :=
  let rest := drop_until acq (a_send A) in
  match a_buf A with
  | x :: buf =>
      let buf' := match rest with s :: _ => buf ++ option_list (val s) | [] => buf end in
      (kDone, Some x, head rest,
       mkAChan (a_cap A) buf' (a_closed A) (tail rest) (a_recv A))
  | [] =>
      let A' := mkAChan (a_cap A) [] (a_closed A) (tail rest) (a_recv A) in
      match rest with
      | s :: _ => (kDone, val s, Some s, A')
      | [] => if a_closed A then (kClosed, None, None, A') else (kBlocked, out, None, A')
      end
  end.

(** ** The ring buffer *)

(** Cell of the [i]-th buffered value. *)
Definition cell (cap r i : nat) : nat :=
  if decide (r + i < cap) then r + i else r + i - cap.

Record ring c buf : Prop := {
  ring_len : length (buffer_ c) = capacity c;
  ring_count : count c = length buf;
  ring_fits : length buf <= capacity c;
  ring_recv : recv_index c < 1 `max` capacity c;
  ring_send : send_index c = cell (1 `max` capacity c) (recv_index c) (length buf);
  ring_cells : forall i, i < capacity c ->
    buffer_ c !! cell (capacity c) (recv_index c) i = Some (buf !! i)
}.

Lemma ring_put_spec c buf v :
  ring c buf -> length buf < capacity c -> ring (ring_put v c) (buf ++ [v]).
Proof.
  intros [H1 H2 H3 H4 H5 H6] Hlt. split; simpl.
  - by rewrite length_insert.
  - rewrite length_app. simpl. lia.
  - rewrite length_app. simpl. lia.
  - done.
  - rewrite H5, length_app. unfold next_index, cell. simpl. repeat case_decide; lia.
  - intros i Hi. rewrite H5. replace (1 `max` capacity c) with (capacity c) by lia.
    destruct (decide (i = length buf)) as [->|Hne].
    + rewrite list_lookup_insert_eq.
      * by rewrite lookup_app_r, Nat.sub_diag by lia.
      * rewrite H1. unfold cell. case_decide; lia.
    + rewrite list_lookup_insert_ne.
      * rewrite H6 by done. f_equal.
        destruct (decide (i < length buf)); [by rewrite lookup_app_l|].
        rewrite !lookup_ge_None_2; [done| |lia]. rewrite length_app. simpl. lia.
      * unfold cell. repeat case_decide; lia.
Qed.

Lemma ring_take_spec c v buf :
  ring c (v :: buf) ->
  exists c', ring_take c = Some (v, c') /\ ring c' buf /\
    capacity c' = capacity c /\ closed c' = closed c /\
    senders c' = senders c /\ receivers c' = receivers c.
Proof.
  intros [H1 H2 H3 H4 H5 H6]. simpl in *. unfold ring_take.
  pose proof (H6 0 ltac:(lia)) as H0. unfold cell in H0.
  rewrite decide_True in H0 by lia. rewrite Nat.add_0_r in H0. rewrite H0. simpl.
  eexists. split; [done|]. split; [|done]. split; simpl.
  - by rewrite length_insert.
  - lia.
  - lia.
  - unfold next_index. case_decide; lia.
  - rewrite H5. unfold next_index, cell. repeat case_decide; lia.
  - intros i Hi. unfold next_index.
    destruct (decide (S i = capacity c)) as [E|E].
    + assert (cell (capacity c) (if decide (recv_index c + 1 = capacity c) then 0
        else recv_index c + 1) i = recv_index c) as ->.
      { unfold cell. repeat case_decide; lia. }
      rewrite list_lookup_insert_eq by lia.
      by rewrite lookup_ge_None_2 by lia.
    + assert (cell (capacity c) (if decide (recv_index c + 1 = capacity c) then 0
        else recv_index c + 1) i = cell (capacity c) (recv_index c) (S i)) as ->.
      { unfold cell. repeat case_decide; lia. }
      rewrite list_lookup_insert_ne; [by rewrite H6 by lia|].
      unfold cell. repeat case_decide; lia.
Qed.

Lemma ring_set_lists c buf s r : ring c buf -> ring (set_lists s r c) buf.
Proof. by intros []. Qed.

Lemma drop_stale_until m l : drop_stale m l = drop_until (acquirable m) l.
Proof. induction l as [|a l IH]; simpl; [done|]. by rewrite IH. Qed.

(** ** Representation *)

(** The value a parked sender offers. *)
Definition parked_value m a : option V :=
  match nodes m !! a with
  | Some w => match slot w with SlotSend o => o | SlotRecv _ => None end
  | None => None
  end.

Definition is_receiver m a : Prop :=
  exists w o, nodes m !! a = Some w /\ slot w = SlotRecv o.

Record crep m c (A : AChan) : Prop := {
  cr_cap : capacity c = a_cap A;
  cr_closed : closed c = a_closed A;
  cr_ring : ring c (a_buf A);
  cr_send : dll m (senders c) (a_send A);
  cr_recv : dll m (receivers c) (a_recv A);
  cr_disj : forall a, a ∈ a_send A -> a ∈ a_recv A -> False;
  cr_sel : selects_ok m (a_send A ++ a_recv A);
  cr_phase : forall a w, a ∈ a_send A ++ a_recv A -> nodes m !! a = Some w ->
    select_phase w = select_winner w;
  cr_val : forall a, a ∈ a_send A -> is_Some (parked_value m a);
  cr_rcv : forall a, a ∈ a_recv A -> is_receiver m a
}.

(** The memory effect of a locked primitive: the peer [o], if any, was claimed,
    detached and completed with slot [s] and success flag [ok]; every other
    waiter keeps its payload. *)
Record completed m m' (o : option addr) (s : Slot V) (ok : bool) : Prop := {
  co_other : forall b, o <> Some b ->
    payload <$> nodes m' !! b = payload <$> nodes m !! b;
  co_node : forall a, o = Some a -> exists w w',
    nodes m !! a = Some w /\ nodes m' !! a = Some w' /\
    payload w' = payload (set_success ok (set_slot s w)) /\ queued w' = false;
  co_acq : forall a, o = Some a -> acquirable m a = true;
  co_shared : shared m' = claim_opt m o;
  co_disp : dispatched m' = dispatched m
}.

Lemma lframe_completed l m m' s ok :
  lframe l m m' -> shared m' = shared m -> completed m m' None s ok.
Proof. intros [o p d] Hs. by split. Qed.

Lemma claim_dom m a s : is_Some (claim m a !! s) <-> is_Some (shared m !! s).
Proof.
  unfold claim. destruct (nodes m !! a) as [w|]; [|done].
  destruct (select_winner w) as [t|]; [|done].
  destruct (decide (t = s)) as [->|]; [|by rewrite lookup_alter_ne].
  rewrite lookup_alter_eq. destruct (shared m !! s); [|done]. split; eauto.
Qed.

Lemma payload_sel w w' : payload w' = payload w ->
  select_winner w' = select_winner w /\ slot w' = slot w /\ case_index w' = case_index w
  /\ handle w' = handle w /\ select_phase w' = select_phase w /\ success w' = success w.
Proof. unfold payload. intros [=]. done. Qed.

(** Nodes other than the peer keep the value they offer or the slot they fill. *)
Lemma completed_node m m' o s ok b w' :
  completed m m' o s ok -> nodes m' !! b = Some w' ->
  exists w, nodes m !! b = Some w /\ select_winner w' = select_winner w /\
    select_phase w' = select_phase w /\ (o <> Some b -> slot w' = slot w).
Proof.
  intros [H1 H2 _ _ _] Hw'. destruct (decide (o = Some b)) as [->|Hn].
  - destruct (H2 b eq_refl) as (w & w2 & Hw & Hw2 & Hp & _).
    assert (w2 = w') as -> by congruence. exists w. split; [done|].
    apply payload_sel in Hp as (-> & _ & _ & _ & -> & _). done.
  - specialize (H1 b Hn). rewrite Hw' in H1.
    destruct (nodes m !! b) as [w|]; [|done]. exists w. apply (inj Some) in H1.
    apply payload_sel in H1 as (-> & -> & _ & _ & -> & _). done.
Qed.

Lemma completed_slot m m' o s ok b w :
  completed m m' o s ok -> nodes m !! b = Some w -> o <> Some b ->
  exists w', nodes m' !! b = Some w' /\ slot w' = slot w.
Proof.
  intros [H1 _ _ _ _] Hw Hn. specialize (H1 b Hn). rewrite Hw in H1.
  destruct (nodes m' !! b) as [w'|]; [|done]. exists w'. apply (inj Some) in H1.
  by apply payload_sel in H1 as (_ & -> & _).
Qed.

(** Rebuilds the representation after a primitive that shortened the lists. *)
Lemma crep_completed m m' c c' A A' o s ok :
  crep m c A -> completed m m' o s ok ->
  capacity c' = a_cap A' -> closed c' = a_closed A' -> ring c' (a_buf A') ->
  dll m' (senders c') (a_send A') -> dll m' (receivers c') (a_recv A') ->
  a_send A' ⊆ a_send A -> a_recv A' ⊆ a_recv A ->
  (forall a, o = Some a -> a ∉ a_send A' /\ a ∉ a_recv A') ->
  crep m' c' A'.
Proof.
  intros [] Hco ????? Hss Hrs Ho. split; try done.
  - intros a Ha Hb. eauto.
  - intros a w' t Ha Hw' Ht.
    destruct (completed_node _ _ _ _ _ _ _ Hco Hw') as (w & Hw & Hsel & _ & _).
    assert (is_Some (shared m !! t)) as Hsome.
    { eapply (cr_sel0 a); [|done|congruence]. set_solver. }
    destruct Hco as [_ _ _ -> _]. destruct o as [b|]; [by apply claim_dom|done].
  - intros a w' Ha Hw'.
    destruct (completed_node _ _ _ _ _ _ _ Hco Hw') as (w & Hw & -> & -> & _).
    apply (cr_phase0 a); [set_solver|done].
  - intros a Ha. assert (o <> Some a) as Hn. { intros ->. by destruct (Ho a eq_refl). }
    specialize (cr_val0 a (Hss a Ha)). unfold parked_value in *.
    destruct (nodes m !! a) as [w|] eqn:Hw; [|by destruct cr_val0].
    destruct (completed_slot _ _ _ _ _ _ _ Hco Hw Hn) as (w' & -> & ->). done.
  - intros a Ha. assert (o <> Some a) as Hn. { intros ->. by destruct (Ho a eq_refl). }
    destruct (cr_rcv0 a (Hrs a Ha)) as (w & x & Hw & Hx).
    destruct (completed_slot _ _ _ _ _ _ _ Hco Hw Hn) as (w' & ? & ?).
    exists w', x. split; [done|congruence].
Qed.

Lemma dll_insert m q l a w :
  a ∉ l -> dll m q l -> dll (with_nodes <[a := w]> m) q l.
Proof.
  intros Hn (H1 & H2 & H3 & H4). do 3 (split; [done|]). intros i b Hb.
  destruct (H4 i b Hb) as (wb & Hwb & Hr). exists wb. split; [|done]. simpl.
  rewrite lookup_insert_ne; [done|]. intros ->. apply Hn, list_elem_of_lookup. eauto.
Qed.

(** Completing the acquired peer of a list leaves the other lists alone. *)
Lemma complete_peer m m1 l a rest w1 s ok :
  NoDup l -> drop_stale m l = a :: rest -> lframe l m m1 -> shared m1 = claim m a ->
  nodes m1 !! a = Some w1 -> queued w1 = false ->
  completed m (with_nodes <[a := set_success ok (set_slot s w1)]> m1) (Some a) s ok /\
  a ∈ l /\ a ∉ rest.
Proof.
  intros Hnd Hdrop Hf Hs Hw1 Hq.
  destruct (drop_stale_cons _ _ _ _ Hdrop) as (Hacq & st & -> & _).
  assert (a ∉ rest). { apply NoDup_app in Hnd as (_ & _ & [? _]%NoDup_cons). done. }
  split; [|split; [set_solver|done]].
  destruct Hf as [ho hp hd]. split; simpl; [| |by intros b [= <-]|done|done].
  - intros b Hb. rewrite lookup_insert_ne by congruence. done.
  - intros b [= <-]. specialize (hp a). rewrite Hw1 in hp.
    destruct (nodes m !! a) as [w|] eqn:Hw; [|done]. apply (inj Some) in hp.
    eexists w, _. split; [done|]. rewrite lookup_insert_eq. split; [done|].
    apply payload_sel in hp as (? & ? & ? & ? & ? & ?). unfold payload. simpl.
    split; [congruence|done].
Qed.

Lemma fill_slot_eq m a w o x :
  nodes m !! a = Some w -> slot w = SlotRecv x ->
  fill_slot a o m = Some (tt, with_nodes <[a := set_slot (SlotRecv o) w]> m).
Proof.
  intros Hw Hs. unfold fill_slot. st_step. rewrite (get_node_eq _ _ _ Hw), Hs.
  by rewrite (upd_node_eq _ _ _ _ Hw).
Qed.

Lemma take_slot_eq m a w v :
  nodes m !! a = Some w -> slot w = SlotSend (Some v) ->
  take_slot a m = Some (v, with_nodes <[a := set_slot (SlotSend None) w]> m).
Proof.
  intros Hw Hs. unfold take_slot. st_step. rewrite (get_node_eq _ _ _ Hw), Hs.
  st_step. by rewrite (upd_node_eq _ _ _ _ Hw).
Qed.

Lemma upd_twice m a w f :
  upd_node a f (with_nodes <[a := w]> m) = Some (tt, with_nodes <[a := f w]> m).
Proof.
  erewrite upd_node_eq by (simpl; by rewrite lookup_insert_eq).
  unfold with_nodes. simpl. by rewrite insert_insert_eq.
Qed.

Lemma loop_fuel_eq m : loop_fuel m = Some (S (size (nodes m)), m).
Proof. done. Qed.

(** [pop_acquired] with the loop's fuel, in terms of [drop_until]. *)
Lemma pop_run m q l :
  dll m q l -> selects_ok m l ->
  exists q' m', pop_acquired (S (size (nodes m))) q m
      = Some ((head (drop_until (acquirable m) l), q'), m') /\
    dll m' q' (tail (drop_until (acquirable m) l)) /\ lframe l m m' /\
    shared m' = claim_opt m (head (drop_until (acquirable m) l)) /\
    detached m' l (tail (drop_until (acquirable m) l)).
Proof.
  intros Hd Hok. rewrite <- drop_stale_until.
  apply pop_acquired_spec; [done|done|by eapply dll_fuel].
Qed.

Lemma drop_until_sub acq l : drop_until acq l ⊆ l.
Proof.
  induction l as [|a l IH]; simpl; [done|]. destruct (acq a); [done|].
  intros x Hx. right. by apply IH.
Qed.

Lemma tail_sub l : tail l ⊆ l.
Proof. destruct l; simpl; [done|]. intros x Hx. by right. Qed.

Lemma selects_ok_sub m l l' : l' ⊆ l -> selects_ok m l -> selects_ok m l'.
Proof. intros Hs H a w s Ha. apply H. auto. Qed.

(** ** Refinement of the locked primitives *)

Lemma cr_nodup_recv m c A : crep m c A -> NoDup (a_recv A).
Proof. intros H. apply (cr_recv _ _ _ H). Qed.
Lemma cr_nodup_send m c A : crep m c A -> NoDup (a_send A).
Proof. intros H. apply (cr_send _ _ _ H). Qed.

(** Claiming the first acquirable waiter of one list, and what holds of the
    store afterwards: the shape shared by every locked primitive. *)
Lemma pop_peer m q l q2 l2 :
  dll m q l -> dll m q2 l2 -> selects_ok m l ->
  (forall a, a ∈ l -> a ∈ l2 -> False) ->
  exists q' m1, pop_acquired (S (size (nodes m))) q m
      = Some ((head (drop_until (acquirable m) l), q'), m1) /\
    dll m1 q' (tail (drop_until (acquirable m) l)) /\ dll m1 q2 l2 /\
    match drop_until (acquirable m) l with
    | [] => lframe l m m1 /\ shared m1 = shared m
    | a :: rest => a ∈ l /\ a ∉ rest /\ a ∉ l2 /\ exists w w1,
        nodes m !! a = Some w /\ nodes m1 !! a = Some w1 /\ slot w1 = slot w /\
        forall s ok,
          completed m (with_nodes <[a := set_success ok (set_slot s w1)]> m1) (Some a) s ok
    end.
Proof.
  intros Hd Hd2 Hok Hdisj.
  destruct (pop_run _ _ _ Hd Hok) as (q' & m1 & Hp & Hd' & Hf & Hs & Hdet).
  assert (Hd2' : dll m1 q2 l2).
  { eapply dll_out; [done| |done]. intros b Hb Hb'. eauto. }
  exists q', m1. do 3 (split; [done|]).
  destruct (drop_until (acquirable m) l) as [|a rest] eqn:E; [done|]. simpl in *.
  rewrite <- drop_stale_until in E.
  destruct (drop_stale_cons _ _ _ _ E) as (_ & st & Hl & _).
  assert (Ha : a ∈ l) by (rewrite Hl; set_solver).
  assert (Hnd : NoDup l) by apply Hd.
  assert (a ∉ rest) as Hnr.
  { rewrite Hl in Hnd. by apply NoDup_app in Hnd as (_ & _ & [? _]%NoDup_cons). }
  destruct (Hdet a Ha Hnr) as (w1 & Hw1 & Hq1).
  destruct (dll_node _ _ _ _ Hd Ha) as (w & Hw & _).
  destruct (lframe_node _ _ _ _ _ Hf Hw) as (w1' & Hw1' & Hp1).
  assert (w1' = w1) as -> by congruence.
  split; [done|]. split; [done|]. split; [intros Ha2; by apply (Hdisj a)|]. exists w, w1.
  do 2 (split; [done|]). split; [by apply payload_sel in Hp1 as (_ & -> & _)|].
  intros s ok. eapply complete_peer; eauto.
Qed.

Lemma try_send_run m c A v :
  crep m c A ->
  exists st wk c' m' A', try_send_locked v c m = Some ((st, wk, c'), m') /\
    abs_send (acquirable m) v A = (st, wk, A') /\ crep m' c' A' /\
    completed m m' wk (SlotRecv (Some v)) true.
Proof.
  intros Hc. pose proof Hc as [].
  unfold try_send_locked, abs_send. rewrite cr_closed0.
  destruct (a_closed A) eqn:Ecl.
  { exists kClosed, None, c, m, A. do 2 (split; [done|]). split; [done|].
    apply (lframe_completed []); [apply lframe_refl|done]. }
  rewrite (st_bind_eq _ _ _ _ _ (loop_fuel_eq m)).
  destruct (pop_peer m (receivers c) (a_recv A) (senders c) (a_send A))
    as (q' & m1 & Hp & Hd1 & Hds & Hrest); [done|done| |intros b Hb Hb2; by apply (cr_disj0 b)|].
  { eapply selects_ok_sub; [|done]. set_solver. }
  rewrite (st_bind_eq _ _ _ _ _ Hp). cbn beta iota.
  pose proof (drop_until_sub (acquirable m) (a_recv A)) as Hsub.
  destruct (drop_until (acquirable m) (a_recv A)) as [|a rest] eqn:E; simpl.
  - destruct Hrest as [Hf Hs].
    assert (Hco : completed m m1 None (SlotRecv (Some v)) true) by by eapply lframe_completed.
    rewrite cr_cap0, (ring_count _ _ cr_ring0).
    case_decide; (eexists _, _, _, _, _; split; [done|]; split; [done|]; split; [|done]);
      eapply (crep_completed m m1 c _ A); eauto; simpl; try done.
    + apply (ring_put_spec (set_lists (senders c) q' c)); [by apply ring_set_lists|].
      simpl. lia.
    + by apply ring_set_lists.
  - destruct Hrest as (Ha & Hnr & Hns & w & w1 & Hw & Hw1 & Hsl & Hco).
    destruct (cr_rcv0 a Ha) as (w' & x & Hw' & Hx).
    assert (Hx1 : slot w1 = SlotRecv x) by congruence.
    rewrite (st_bind_eq _ _ _ _ _ (fill_slot_eq _ _ _ (Some v) _ Hw1 Hx1)).
    rewrite (st_bind_eq _ _ _ _ _ (upd_twice _ _ _ _)).
    eexists _, _, _, _, _. split; [done|]. split; [done|]. split; [|done].
    eapply (crep_completed m _ c _ A); eauto; simpl; try done.
    + by apply ring_set_lists.
    + by apply dll_insert.
    + by apply dll_insert.
    + set_solver.
    + intros b [= <-]. done.
Qed.

(** What a parked peer offers is still in its node when it was acquired. *)
Lemma peer_value m m1 a w w1 v :
  nodes m !! a = Some w -> nodes m1 !! a = Some w1 -> slot w1 = slot w ->
  parked_value m a = Some v -> slot w1 = SlotSend (Some v).
Proof.
  intros Hw Hw1 Hs Hv. unfold parked_value in Hv. rewrite Hw in Hv. rewrite Hs.
  destruct (slot w); congruence.
Qed.

(** The tail of every receive: claim the first acquirable sender, move its
    value out and complete it. *)
Lemma pop_sender m c A :
  crep m c A ->
  let rest := drop_until (acquirable m) (a_send A) in
  exists ss m1, pop_acquired (S (size (nodes m))) (senders c) m
      = Some ((head rest, ss), m1) /\
    match rest with
    | [] => dll m1 ss [] /\ dll m1 (receivers c) (a_recv A) /\
            completed m m1 None (SlotSend None) true
    | a :: r => exists v m2, parked_value m a = Some v /\
        (x <-- take_slot a; upd_node a (set_success true);;; st_ret x) m1 = Some (v, m2) /\
        dll m2 ss r /\ dll m2 (receivers c) (a_recv A) /\
        a ∉ r /\ a ∉ a_recv A /\ completed m m2 (Some a) (SlotSend None) true
    end.
Proof.
  intros Hc rest. pose proof Hc as [].
  destruct (pop_peer m (senders c) (a_send A) (receivers c) (a_recv A))
    as (q' & m1 & Hp & Hd1 & Hdr & Hrest); [done|done| |done|].
  { eapply selects_ok_sub; [|done]. set_solver. }
  exists q', m1. split; [done|]. unfold rest in *. clear rest.
  destruct (drop_until (acquirable m) (a_send A)) as [|a r]; simpl in *.
  - destruct Hrest as [Hf Hs]. do 2 (split; [done|]). by eapply lframe_completed.
  - destruct Hrest as (Ha & Hnr & Hns & w & w1 & Hw & Hw1 & Hsl & Hco).
    destruct (cr_val0 a Ha) as [v Hv].
    exists v, (with_nodes <[a := set_success true (set_slot (SlotSend None) w1)]> m1).
    split; [done|]. split.
    { assert (Hsv : slot w1 = SlotSend (Some v)) by exact (peer_value _ _ _ _ _ _ Hw Hw1 Hsl Hv).
      rewrite (st_bind_eq _ _ _ _ _ (take_slot_eq _ _ _ _ Hw1 Hsv)).
      by rewrite (st_bind_eq _ _ _ _ _ (upd_twice _ _ _ _)). }
    split; [by apply dll_insert|]. split; [by apply dll_insert|]. done.
Qed.

Lemma bind_assoc {S X Y Z} (p : ST S X) (f : X -> ST S Y) (g : Y -> ST S Z) s :
  st_bind g (st_bind f p) s = st_bind (fun x => st_bind g (f x)) p s.
Proof. unfold st_bind. by destruct (p s) as [[x s']|]. Qed.

(** Runs [take_slot; set_success; k] from the two first actions' result. *)
Lemma take_then {Y} m1 m2 a v (k : V -> ST (Mem V) Y) :
  (x <-- take_slot a; upd_node a (set_success true);;; st_ret x) m1 = Some (v, m2) ->
  (x <-- take_slot a; upd_node a (set_success true);;; k x) m1 = k v m2.
Proof.
  unfold st_bind, st_ret. destruct (take_slot a m1) as [[x m']|]; [|done].
  destruct (upd_node a _ m') as [[[] m'']|]; [|done]. by intros [= -> ->].
Qed.

Lemma try_recv_run m c A out :
  crep m c A ->
  exists st res wk c' m' A', try_recv_locked out c m = Some ((st, res, wk, c'), m') /\
    abs_recv (acquirable m) (parked_value m) out A = (st, res, wk, A') /\
    crep m' c' A' /\ completed m m' wk (SlotSend None) true.
Proof.
  intros Hc. pose proof Hc as [].
  pose proof (pop_sender m c A Hc) as (ss & m1 & Hp & Hrest).
  pose proof (drop_until_sub (acquirable m) (a_send A)) as Hsub.
  unfold try_recv_locked, abs_recv. rewrite (ring_count _ _ cr_ring0).
  destruct (a_buf A) as [|x buf] eqn:Eb; simpl; rewrite ?Eb in cr_ring0.
  - rewrite (st_bind_eq _ _ _ _ _ (loop_fuel_eq m)), (st_bind_eq _ _ _ _ _ Hp).
    destruct (drop_until (acquirable m) (a_send A)) as [|a r]; simpl.
    + destruct Hrest as (Hd1 & Hdr & Hco). rewrite cr_closed0.
      assert (crep m1 (set_lists ss (receivers c) c)
                (mkAChan (a_cap A) [] (a_closed A) [] (a_recv A))) as Hrep.
      { eapply (crep_completed m _ c _ A); eauto; simpl; try done.
        by apply ring_set_lists. }
      destruct (a_closed A) eqn:Ecl; by eexists _, _, _, _, _, _.
    + destruct Hrest as (v & m2 & Hv & Ht & Hd1 & Hdr & Hnr & Hns & Hco).
      rewrite (take_then _ _ _ _ _ Ht), Hv.
      eexists _, _, _, _, _, _. do 2 (split; [done|]). split; [|done].
      eapply (crep_completed m _ c _ A); eauto; try done; simpl.
      * by apply ring_set_lists.
      * set_solver.
      * by intros b [= <-].
  - destruct (ring_take_spec c x buf) as (c1 & Htk & Hr1 & Hc1 & Hcl1 & Hs1 & Hrc1); [done|].
    rewrite Htk, (st_bind_eq _ _ _ _ _ (loop_fuel_eq m)), Hs1, (st_bind_eq _ _ _ _ _ Hp).
    rewrite Hrc1.
    destruct (drop_until (acquirable m) (a_send A)) as [|a r]; simpl.
    + destruct Hrest as (Hd1 & Hdr & Hco).
      eexists _, _, _, _, _, _. do 2 (split; [done|]). split; [|done].
      eapply (crep_completed m _ c _ A); eauto; simpl; try congruence; try done.
      by apply ring_set_lists.
    + destruct Hrest as (v & m2 & Hv & Ht & Hd1 & Hdr & Hnr & Hns & Hco).
      rewrite (take_then _ _ _ _ _ Ht), Hv.
      eexists _, _, _, _, _, _. do 2 (split; [done|]). split; [|done].
      eapply (crep_completed m _ c _ A); eauto; simpl; try congruence; try done.
      * apply ring_put_spec; [by apply ring_set_lists|]. simpl.
        pose proof (ring_fits _ _ cr_ring0). simpl in *. lia.
      * set_solver.
      * by intros b [= <-].
Qed.

(** The fast path of [try_recv] is the general receive. *)
Lemma try_recv_now_run m c A out :
  crep m c A ->
  exists st res wk c' m' A', try_recv_now_locked out c m = Some ((st, res, wk, c'), m') /\
    abs_recv (acquirable m) (parked_value m) out A = (st, res, wk, A') /\
    crep m' c' A' /\ completed m m' wk (SlotSend None) true.
Proof.
  intros Hc. unfold try_recv_now_locked.
  destruct (bool_decide (count c = 0) || negb (list_empty (senders c))) eqn:E.
  { by apply try_recv_run. }
  apply orb_false_iff in E as [E1%bool_decide_eq_false E2%negb_false_iff].
  unfold list_empty in E2. apply bool_decide_eq_true in E2.
  pose proof Hc as []. rewrite (ring_count _ _ cr_ring0) in E1.
  assert (a_send A = []) as Es.
  { destruct (a_send A) eqn:Es; [done|].
    destruct (dll_head _ _ _ _ cr_send0) as [Hh _]. congruence. }
  unfold abs_recv. rewrite Es. destruct (a_buf A) as [|x buf] eqn:Eb; [done|].
  destruct (ring_take_spec c x buf) as (c1 & Htk & Hr1 & Hc1 & Hcl1 & Hs1 & Hrc1); [done|].
  rewrite Htk. eexists _, _, _, _, _, _. do 2 (split; [done|]).
  assert (Hco : completed m m None (SlotSend None) true).
  { apply (lframe_completed []); [apply lframe_refl|done]. }
  split; [|done]. eapply (crep_completed m _ c _ A); eauto; simpl; try congruence; try done.
Qed.

End ChanSpec.

Arguments AChan : clear implicits.
