(* ===== verification/ChanClose.v ===== *)
(** * Closing a channel

    [close] drains both waiter lists, claims every waiter it can, and wakes the
    claimed ones through an intrusive list built on their [next] links. *)

From S2P Require Import Prelude Result Chan ChanList ChanSpec.

Set Default Proof Using "Type".

Section ChanClose.
  Context {V : Type}.
  Implicit Types (m : Mem V) (w : ChanWaiter V) (c : Channel V) (a b : addr)
    (l k : list addr).

(** The fields a claim depends on. *)
Definition claim_info w := (select_winner w, case_index w).

Definition claim_eq l m m' : Prop :=
  shared m' = shared m /\
  forall b, b ∈ l -> claim_info <$> (nodes m' !! b) = claim_info <$> (nodes m !! b).

(** The waiters of [l] that a draining loop acquires, and the select states
    afterwards: each claim is seen by the waiters behind it. *)
Fixpoint drain_acq m l : list addr * gmap sel_id SelectShared :=
  match l with
  | [] => ([], shared m)
  | a :: l' =>
      if acquirable m a then
        let r := drain_acq (mkMem (nodes m) (claim m a) (dispatched m)) l' in
        (a :: r.1, r.2)
      else drain_acq m l'
  end.

Lemma claim_eq_acquirable l m m' a :
  claim_eq l m m' -> a ∈ l -> acquirable m' a = acquirable m a /\ claim m' a = claim m a.
Proof.
  intros [Hs Hc] Ha. specialize (Hc a Ha). unfold acquirable, claim. rewrite Hs.
  destruct (nodes m !! a) as [w|], (nodes m' !! a) as [w'|]; try done.
  apply (inj Some) in Hc. unfold claim_info in Hc. injection Hc as -> ->. done.
Qed.

Lemma drain_acq_eq l : forall m m', claim_eq l m m' -> drain_acq m' l = drain_acq m l.
Proof.
  induction l as [|a l IH]; intros m m' Hc; simpl; [by destruct Hc as [-> _]|].
  destruct (claim_eq_acquirable _ _ _ a Hc) as [-> Hcl]; [set_solver|].
  destruct Hc as [Hs Hc].
  rewrite (IH (mkMem (nodes m) (claim m a) (dispatched m))
              (mkMem (nodes m') (claim m' a) (dispatched m'))).
  - rewrite (IH m m'); [done|]. split; [done|]. intros b Hb. apply Hc. set_solver.
  - split; [done|]. intros b Hb. apply Hc. set_solver.
Qed.

Lemma drain_acq_sub l : forall m, (drain_acq m l).1 ⊆ l.
Proof.
  induction l as [|a l IH]; intros m; simpl; [done|].
  destruct (acquirable m a); simpl.
  - intros b [->|Hb]%elem_of_cons; [left|]. right. by eapply IH.
  - intros b Hb. right. by eapply IH.
Qed.

Lemma drain_acq_nodup l : forall m, NoDup l -> NoDup (drain_acq m l).1.
Proof.
  induction l as [|a l IH]; intros m Hnd; simpl; [constructor|].
  apply NoDup_cons in Hnd as [Hn Hnd]. destruct (acquirable m a); simpl; [|by apply IH].
  apply NoDup_cons. split; [|by apply IH]. intros Ha. by apply drain_acq_sub in Ha.
Qed.

(** [wake_list] as built by the loops: linked through [next]. *)
Fixpoint chain m (o : option addr) k : Prop :=
  match k with
  | [] => o = None
  | a :: k' => o = Some a /\ exists w, nodes m !! a = Some w /\ chain m (next w) k'
  end.

Lemma chain_ext m m' k : forall o,
  (forall b, b ∈ k -> nodes m' !! b = nodes m !! b) -> chain m o k -> chain m' o k.
Proof.
  induction k as [|a k IH]; intros o Hb; simpl; [done|].
  intros (-> & w & Hw & Hc). split; [done|]. exists w.
  split; [rewrite Hb; [done|set_solver]|]. apply IH; [|done].
  intros b Hbk. apply Hb. set_solver.
Qed.

(** A waiter that [close] failed: [success] is false and a receiver's slot is
    empty. *)
Definition failed_node (is_recv : bool) w : ChanWaiter V :=
  set_success false (if is_recv then set_slot (SlotRecv None) w else w).

(** One turn of [close_drain] on an acquired waiter. *)
Lemma drain_fail_run m a w wl (is_recv : bool) :
  nodes m !! a = Some w -> (is_recv = true -> is_receiver m a) ->
  ((if is_recv then fill_slot a None else st_ret tt);;;
   upd_node a (set_success false);;; upd_node a (set_next wl)) m
  = Some (tt, with_nodes <[a := set_next wl (failed_node is_recv w)]> m).
Proof.
  intros Hw Hr. unfold failed_node. destruct is_recv.
  - destruct (Hr eq_refl) as (w' & x & Hw' & Hx). assert (w' = w) as -> by congruence.
    rewrite (st_bind_eq _ _ _ _ _ (fill_slot_eq _ _ _ None _ Hw Hx)).
    rewrite (st_bind_eq _ _ _ _ _ (upd_twice _ _ _ _)). apply upd_twice.
  - unfold st_bind at 1, st_ret. rewrite (st_bind_eq _ _ _ _ _ (upd_node_eq _ _ _ _ Hw)).
    apply upd_twice.
Qed.

Lemma seq3_then {S Y} (p1 p2 p3 : ST S unit) (k : ST S Y) (s s' : S) :
  (p1;;; p2;;; p3) s = Some (tt, s') -> (p1;;; p2;;; p3;;; k) s = k s'.
Proof.
  unfold st_bind. destruct (p1 s) as [[? s1]|]; [|done].
  destruct (p2 s1) as [[? s2]|]; [|done].
  destruct (p3 s2) as [[? s3]|]; [|done]. by intros [= _ ->].
Qed.

(** The fate of the nodes of a drained list. *)
Definition drained_nodes m m' (is_recv : bool) l (acq : list addr) : Prop :=
  (forall b, b ∉ l -> nodes m' !! b = nodes m !! b) /\
  (forall a, a ∈ l -> exists w w', nodes m !! a = Some w /\ nodes m' !! a = Some w' /\
     queued w' = false /\
     payload w' = payload (if decide (a ∈ acq) then failed_node is_recv w else w)).

Lemma drained_cons m m1 m' (is_recv : bool) a l acq acq' w w1 :
  a ∉ l -> nodes m !! a = Some w -> nodes m1 !! a = Some w1 -> queued w1 = false ->
  payload w1 = payload (if decide (a ∈ acq') then failed_node is_recv w else w) ->
  (forall b, b ∉ a :: l -> nodes m1 !! b = nodes m !! b) ->
  (forall b, b ∈ l -> payload <$> (nodes m1 !! b) = payload <$> (nodes m !! b)) ->
  (forall b, b ∈ l -> b ∈ acq' <-> b ∈ acq) ->
  drained_nodes m1 m' is_recv l acq -> drained_nodes m m' is_recv (a :: l) acq'.
Proof.
  intros Hn Hw Hw1 Hq Hp Ho Hl Hacq [Hout Hin]. split.
  - intros b Hb. rewrite Hout by set_solver. by apply Ho.
  - intros b [->|Hb]%elem_of_cons.
    + exists w, w1. split; [done|]. rewrite Hout by done. done.
    + destruct (Hin b Hb) as (wb1 & wb' & Hwb1 & Hwb' & Hqb & Hpb).
      specialize (Hl b Hb). rewrite Hwb1 in Hl.
      destruct (nodes m !! b) as [wb|]; [|done]. exists wb, wb'. apply (inj Some) in Hl.
      do 3 (split; [done|]). rewrite Hpb, (decide_ext _ _ _ _ (Hacq b Hb)).
      apply payload_sel in Hl as (? & ? & ? & ? & ? & ?).
      case_decide; unfold payload, failed_node; destruct is_recv; simpl; congruence.
Qed.

Lemma claim_info_payload w w' : payload w' = payload w -> claim_info w' = claim_info w.
Proof. intros (? & ? & ? & _)%payload_sel. unfold claim_info. congruence. Qed.

Lemma lframe_claim_eq L l m m' : lframe L m m' -> shared m' = shared m -> claim_eq l m m'.
Proof.
  intros [_ p _] Hs. split; [done|]. intros b _. specialize (p b).
  destruct (nodes m !! b), (nodes m' !! b); try done.
  apply (inj Some) in p. simpl. f_equal. by apply claim_info_payload.
Qed.

(** One turn of a popping loop: pop the front, try to claim it. *)
Lemma pop_try m q a l :
  dll m q (a :: l) -> selects_ok m (a :: l) ->
  exists q1 m1 m2 w w2, pop_front q m = Some ((Some a, q1), m1) /\
    try_acquire a m1 = Some (acquirable m a, m2) /\ dll m2 q1 l /\
    lframe (a :: l) m m2 /\ a ∉ l /\
    shared m2 = (if acquirable m a then claim m a else shared m) /\
    nodes m !! a = Some w /\ nodes m2 !! a = Some w2 /\ queued w2 = false /\
    payload w2 = payload w.
Proof.
  intros Hd Hok.
  destruct (pop_front_cons _ _ _ _ Hd) as (q1 & m1 & Hp & Hd1 & Hf1 & Hs1 & w1 & Hw1 & Hq1).
  assert (Hnin : a ∉ l) by (assert (NoDup (a :: l)) as [? _]%NoDup_cons by apply Hd; done).
  destruct (try_acquire_spec m1 a w1 Hw1) as (m2 & Ht & Hf2 & Hs2 & w2 & Hw2 & Hq2).
  { intros s Hs. eapply (selects_ok_frame _ m m1 _ Hf1 Hs1 Hok a); [set_solver|done..]. }
  rewrite (acquirable_frame _ _ _ a Hf1 Hs1) in Ht, Hs2.
  rewrite (claim_frame _ _ _ a Hf1 Hs1) in Hs2.
  assert (Hf12 : lframe (a :: l) m m2).
  { eapply lframe_trans; [done|]. eapply lframe_weaken; [|done]. set_solver. }
  destruct (dll_node _ _ _ a Hd) as (w & Hw & _); [set_solver|].
  destruct (lframe_node _ _ _ _ _ Hf12 Hw) as (w2' & Hw2' & Hp2).
  assert (w2' = w2) as -> by congruence.
  exists q1, m1, m2, w, w2. do 2 (split; [done|]).
  split; [eapply (dll_out _ _ _ _ _ Hf2); [|done]; set_solver|].
  do 2 (split; [done|]). split; [destruct (acquirable m a); congruence|].
  do 2 (split; [done|]). split; [congruence|done].
Qed.

Lemma is_receiver_payload m m' a :
  (payload <$> (nodes m' !! a)) = (payload <$> (nodes m !! a)) ->
  is_receiver m a -> is_receiver m' a.
Proof.
  intros Hp (w & x & Hw & Hx). rewrite Hw in Hp.
  destruct (nodes m' !! a) as [w'|] eqn:E; [|done]. apply (inj Some) in Hp.
  apply payload_sel in Hp as (_ & Hs & _). exists w', x. split; [done|congruence].
Qed.

Lemma close_drain_spec (is_recv : bool) fuel : forall m q l wl k,
  dll m q l -> selects_ok m l -> chain m wl k -> (forall a, a ∈ l -> a ∉ k) ->
  (is_recv = true -> forall a, a ∈ l -> is_receiver m a) -> length l < fuel ->
  exists wl' m', close_drain fuel is_recv q wl m = Some ((empty_list, wl'), m') /\
    chain m' wl' (reverse (drain_acq m l).1 ++ k) /\
    shared m' = (drain_acq m l).2 /\ dispatched m' = dispatched m /\
    drained_nodes m m' is_recv l (drain_acq m l).1.
Proof.
  induction fuel as [|fuel IH]; intros m q l wl k Hd Hok Hch Hlk Hrcv Hlen; [lia|].
  destruct l as [|a l].
  { apply dll_nil in Hd as ->. exists wl, m. do 4 (split; [done|]).
    split; [done|]. intros a Ha. set_solver. }
  destruct (pop_try m q a l Hd Hok)
    as (q1 & m1 & m2 & w & w2 & Hp & Ht & Hd2 & Hf & Hnin & Hs2 & Hw & Hw2 & Hq2 & Hp2).
  simpl. rewrite (st_bind_eq _ _ _ _ _ Hp), (st_bind_eq _ _ _ _ _ Ht).
  assert (Hpl : forall b, b ∈ l -> payload <$> (nodes m2 !! b) = payload <$> (nodes m !! b)).
  { intros b _. apply (lf_payload _ _ _ Hf). }
  assert (Hch2 : chain m2 wl k).
  { eapply chain_ext; [|done]. intros b Hb. apply (lf_out _ _ _ Hf). intros Hb'.
    by apply (Hlk b). }
  simpl in Hlen. destruct (acquirable m a) eqn:Ea; simpl.
  - set (m3 := with_nodes <[a := set_next wl (failed_node is_recv w2)]> m2).
    assert (Hrun : ((if is_recv then fill_slot a None else st_ret tt);;;
      upd_node a (set_success false);;; upd_node a (set_next wl)) m2 = Some (tt, m3)).
    { apply drain_fail_run; [done|]. intros Hr. eapply is_receiver_payload;
        [apply (lf_payload _ _ _ Hf)|]. apply Hrcv; [done|set_solver]. }
    assert (Hn3 : forall b, b <> a -> nodes m3 !! b = nodes m2 !! b).
    { intros b Hb. simpl. by rewrite lookup_insert_ne. }
    assert (Hda : drain_acq m3 l = drain_acq (mkMem (nodes m) (claim m a) (dispatched m)) l).
    { apply drain_acq_eq. split; [done|]. intros b Hb. rewrite Hn3 by set_solver.
      specialize (Hpl b Hb). simpl. destruct (nodes m !! b), (nodes m2 !! b); try done.
      apply (inj Some) in Hpl. simpl. f_equal. by apply claim_info_payload. }
    destruct (IH m3 q1 l (Some a) (a :: k)) as (wl' & m' & Hr & Hc' & Hs' & Hdp & Hdn).
    { by apply dll_insert. }
    { intros b wb t Hb Hwb Ht'. simpl. rewrite Hs2. apply claim_dom.
      rewrite Hn3 in Hwb by set_solver. specialize (Hpl b Hb). rewrite Hwb in Hpl.
      destruct (nodes m !! b) as [wb0|] eqn:E; [|done]. apply (inj Some) in Hpl.
      apply payload_sel in Hpl as [? _]. eapply (Hok b); [set_solver|done|congruence]. }
    { split; [done|]. eexists. split; [simpl; by rewrite lookup_insert_eq|]. simpl.
      eapply chain_ext; [|done]. intros b Hb. apply Hn3. intros ->. by apply (Hlk a); [left|]. }
    { intros b Hb. assert (b <> a) by set_solver. specialize (Hlk b). set_solver. }
    { intros Hr b Hb. eapply is_receiver_payload; [|apply Hrcv; set_solver].
      rewrite Hn3 by set_solver. by apply Hpl. }
    { lia. }
    rewrite Hda in *. exists wl', m'. split.
    { rewrite <- Hr. by apply seq3_then. }
    split; [by rewrite reverse_cons, <- app_assoc|]. split; [done|].
    split; [rewrite Hdp; apply (lf_dispatched _ _ _ Hf)|].
    eapply (drained_cons m m3 m' is_recv a l _ _ w (set_next wl (failed_node is_recv w2)));
      [done|done|simpl; by rewrite lookup_insert_eq| | | | | |exact Hdn].
    + unfold failed_node. by destruct is_recv.
    + rewrite decide_True by set_solver. unfold failed_node.
      apply payload_sel in Hp2 as (? & ? & ? & ? & ? & ?).
      destruct is_recv; unfold payload; simpl; congruence.
    + intros b Hb. rewrite Hn3 by set_solver. by apply (lf_out _ _ _ Hf).
    + intros b Hb. rewrite Hn3 by set_solver. by apply Hpl.
    + intros b Hb. split; [|set_solver]. intros [->|?]%elem_of_cons; done.
  - destruct (IH m2 q1 l wl k) as (wl' & m' & Hr & Hc' & Hs' & Hdp & Hdn); try done; try lia.
    { eapply selects_ok_frame; [done|congruence|]. eapply selects_ok_sub; [|done]. set_solver. }
    { set_solver. }
    { intros Hr b Hb. eapply is_receiver_payload; [by apply Hpl|]. apply Hrcv; set_solver. }
    assert (Hda : drain_acq m2 l = drain_acq m l).
    { apply drain_acq_eq. eapply lframe_claim_eq; [done|congruence]. }
    rewrite Hda in *. exists wl', m'. do 3 (split; [done|]).
    split; [rewrite Hdp; apply (lf_dispatched _ _ _ Hf)|].
    eapply (drained_cons m m2); eauto.
    + rewrite decide_False; [done|]. intros Hin. by apply drain_acq_sub in Hin.
    + intros b Hb. by apply (lf_out _ _ _ Hf).
Qed.

Lemma drain_acq_dom l : forall m s, is_Some ((drain_acq m l).2 !! s) <-> is_Some (shared m !! s).
Proof.
  induction l as [|a l IH]; intros m s; simpl; [done|].
  destruct (acquirable m a); simpl; [|done]. rewrite IH. simpl. apply claim_dom.
Qed.

(** Without a claim in common, the wake list is made of parked waiters. *)
Definition close_acq m (A : AChan V) : list addr :=
  let r := drain_acq m (a_recv A) in
  reverse (drain_acq (mkMem (nodes m) r.2 (dispatched m)) (a_send A)).1 ++ reverse r.1.

Definition abs_close (A : AChan V) : AChan V :=
  mkAChan (a_cap A) (a_buf A) true [] [].

Lemma close_acq_sub m A : close_acq m A ⊆ a_send A ++ a_recv A.
Proof.
  intros a [Ha|Ha]%elem_of_app; rewrite elem_of_reverse in Ha;
    apply drain_acq_sub in Ha; set_solver.
Qed.

Lemma drained_node m m' is_recv l acq b w' :
  drained_nodes m m' is_recv l acq -> nodes m' !! b = Some w' ->
  exists w, nodes m !! b = Some w /\ claim_info w' = claim_info w /\
    select_phase w' = select_phase w /\ handle w' = handle w.
Proof.
  intros [Ho Hi] Hw'. destruct (decide (b ∈ l)) as [Hb|Hb].
  - destruct (Hi b Hb) as (w & w2 & Hw & Hw2 & _ & Hp). assert (w2 = w') as -> by congruence.
    exists w. split; [done|]. apply payload_sel in Hp as (Hs & _ & Hc & Hh & Hph & _).
    unfold claim_info. rewrite Hs, Hc, Hh, Hph. unfold failed_node.
    by case_decide; destruct is_recv.
  - rewrite Ho in Hw' by done. eauto.
Qed.

(** The two drains together, on the nodes of both lists. *)
Lemma closed_nodes m m1 m2 (A : AChan V) acq1 acq2 :
  acq1 ⊆ a_recv A -> acq2 ⊆ a_send A ->
  drained_nodes m m1 true (a_recv A) acq1 ->
  drained_nodes m1 m2 false (a_send A) acq2 ->
  (forall a, a ∈ a_send A -> a ∈ a_recv A -> False) ->
  (forall a, a ∈ a_send A ++ a_recv A -> exists w w',
     nodes m !! a = Some w /\ nodes m2 !! a = Some w' /\ handle w' = handle w /\
     select_phase w' = select_phase w /\ queued w' = false /\
     (a ∈ reverse acq2 ++ reverse acq1 -> success w' = false) /\
     select_winner w' = select_winner w) /\
  (forall b, b ∉ a_send A ++ a_recv A -> nodes m2 !! b = nodes m !! b).
Proof.
  intros Hs1 Hs2 [Ho1 Hi1] [Ho2 Hi2] Hdj. split.
  - intros a Ha. destruct (decide (a ∈ a_recv A)) as [Hr|Hr].
    + destruct (Hi1 a Hr) as (w & w' & Hw & Hw' & Hq & Hp). exists w, w'.
      rewrite Ho2 by naive_solver. do 2 (split; [done|]).
      apply payload_sel in Hp as (-> & _ & _ & -> & -> & ->).
      split; [|split; [|split; [done|split]]]; try by case_decide.
      intros Hin%elem_of_app. rewrite !elem_of_reverse in Hin.
      rewrite decide_True; [done|]. destruct Hin as [Hin|]; [|done].
      destruct (Hdj a); auto.
    + assert (Hs : a ∈ a_send A) by set_solver.
      destruct (Hi2 a Hs) as (w & w' & Hw & Hw' & Hq & Hp). exists w, w'.
      rewrite Ho1 in Hw by done. do 2 (split; [done|]).
      apply payload_sel in Hp as (-> & _ & _ & -> & -> & ->).
      split; [|split; [|split; [done|split]]]; try by case_decide.
      intros Hin%elem_of_app. rewrite !elem_of_reverse in Hin.
      rewrite decide_True; [done|]. destruct Hin as [|Hin]; [done|].
      destruct (Hdj a); auto.
  - intros b Hb. rewrite Ho2, Ho1 by set_solver. done.
Qed.

Lemma close_locked_run m c A :
  crep m c A -> a_closed A = false ->
  exists c' wl m', close_locked c m = Some ((c', wl), m') /\ crep m' c' (abs_close A) /\
    chain m' wl (close_acq m A) /\ dispatched m' = dispatched m /\
    (forall a, a ∈ a_send A ++ a_recv A -> exists w w',
       nodes m !! a = Some w /\ nodes m' !! a = Some w' /\ handle w' = handle w /\
       select_phase w' = select_phase w /\ queued w' = false /\
       (a ∈ close_acq m A -> success w' = false) /\ select_winner w' = select_winner w) /\
    (forall b, b ∉ a_send A ++ a_recv A -> nodes m' !! b = nodes m !! b).
Proof.
  intros Hc Hcl. destruct Hc as [Hcap Hclosed Hring Hsend Hrecv Hdisj Hsel Hphase Hval Hrcv]. unfold close_locked. rewrite Hclosed, Hcl.
  rewrite (st_bind_eq _ _ _ _ _ (loop_fuel_eq m)).
  destruct (close_drain_spec true (S (size (nodes m))) m (receivers c) (a_recv A) None [])
    as (wl1 & m1 & Hr1 & Hch1 & Hs1 & Hd1 & Hn1); try done.
  { eapply selects_ok_sub; [|done]. set_solver. }
  { set_solver. }
  { by eapply dll_fuel. }
  rewrite (st_bind_eq _ _ _ _ _ Hr1). cbn beta iota.
  assert (Hds : dll m1 (senders c) (a_send A)).
  { destruct Hsend as (H1 & H2 & H3 & H4). do 3 (split; [done|]).
    intros i b Hb. destruct (H4 i b Hb) as (wb & Hwb & Hrb). exists wb. split; [|done].
    rewrite (proj1 Hn1); [done|]. intros Hb'. apply (Hdisj b); [|done].
    apply list_elem_of_lookup. eauto. }
  destruct (close_drain_spec false (S (size (nodes m))) m1 (senders c) (a_send A) wl1
    (reverse (drain_acq m (a_recv A)).1)) as (wl2 & m2 & Hr2 & Hch2 & Hs2 & Hd2 & Hn2); try done.
  { intros b w' t Hb Hw' Ht. rewrite Hs1. apply drain_acq_dom.
    destruct (drained_node _ _ _ _ _ _ _ Hn1 Hw') as (w & Hw & Hci & _).
    unfold claim_info in Hci. eapply (Hsel b); [set_solver|done|congruence]. }
  { by rewrite app_nil_r in Hch1. }
  { intros a Ha Ha'. rewrite elem_of_reverse in Ha'. apply drain_acq_sub in Ha'. eauto. }
  { by eapply dll_fuel. }
  rewrite (st_bind_eq _ _ _ _ _ Hr2). cbn beta iota.
  assert (Hda : drain_acq m1 (a_send A) = drain_acq (mkMem (nodes m)
      (drain_acq m (a_recv A)).2 (dispatched m)) (a_send A)).
  { apply drain_acq_eq. split; [done|]. intros b Hb.
    rewrite (proj1 Hn1); [done|]. intros Hb'. by apply (Hdisj b). }
  rewrite Hda in *.
  exists (set_lists empty_list empty_list (set_closed c)), wl2, m2.
  split; [done|]. split.
  { split; simpl; [done|done|by destruct Hring|by apply dll_nil|by apply dll_nil| | | | |];
      intros a Ha; set_solver. }
  split; [done|]. split; [congruence|].
  apply (closed_nodes m m1 m2); [apply drain_acq_sub|apply drain_acq_sub|done|done|].
  intros b Hb Hb'. by apply (Hdisj b).
Qed.

(** ** Waking *)

Definition handle_of m a : nat :=
  match nodes m !! a with Some w => handle w | None => 0 end.

(** The store after [a]'s select, if any, was moved to [kSelectResumed]. *)
Definition resumed m a : gmap sel_id SelectShared :=
  match nodes m !! a with
  | Some w =>
      match select_phase w with
      | Some s => alter (fun sh => mkShared (winner sh) kSelectResumed (sel_handle sh)) s
                    (shared m)
      | None => shared m
      end
  | None => shared m
  end.

(** Whether the waker of [a] owns its resumption. *)
Definition owns_resume m a : bool :=
  match nodes m !! a with
  | Some w =>
      match select_phase w with
      | Some s =>
          match shared m !! s with
          | Some sh => bool_decide (phase sh = kSelectParked)
          | None => false
          end
      | None => true
      end
  | None => false
  end.

Definition wake_mem (d : nat -> Dispatch) m a : Mem V :=
  mkMem (nodes m) (resumed m a)
    (dispatched m ++ if owns_resume m a then [d (handle_of m a)] else []).

Definition phases_live m a : Prop :=
  exists w, nodes m !! a = Some w /\
    forall s, select_phase w = Some s -> is_Some (shared m !! s).

Lemma take_resume_run m a :
  phases_live m a ->
  take_resume_ownership a m
  = Some (owns_resume m a, mkMem (nodes m) (resumed m a) (dispatched m)).
Proof.
  intros (w & Hw & Hs). unfold take_resume_ownership, owns_resume, resumed.
  rewrite (st_bind_eq _ _ _ _ _ (get_node_eq _ _ _ Hw)), Hw.
  destruct (select_phase w) as [s|]; [|by destruct m].
  destruct (Hs s eq_refl) as [sh Hsh]. rewrite Hsh.
  assert (Hg : get_shared s m = Some (sh, m)) by (unfold get_shared, st_lift; by rewrite Hsh).
  rewrite (st_bind_eq _ _ _ _ _ Hg). unfold upd_shared at 1.
  rewrite bind_assoc, (st_bind_eq _ _ _ _ _ Hg). unfold st_bind, st_modify, st_ret.
  do 3 f_equal. apply map_eq. intros i. destruct (decide (s = i)) as [->|].
  - by rewrite lookup_insert_eq, lookup_alter_eq, Hsh.
  - by rewrite lookup_insert_ne, lookup_alter_ne.
Qed.

Lemma wake_run m a :
  phases_live m a -> wake a m = Some (tt, wake_mem DispatchCompletion m a).
Proof.
  intros Hp. unfold wake. rewrite (st_bind_eq _ _ _ _ _ (take_resume_run _ _ Hp)).
  unfold wake_mem. destruct Hp as (w & Hw & _). unfold handle_of. rewrite Hw.
  destruct (owns_resume m a); simpl; [|by rewrite app_nil_r].
  rewrite (st_bind_eq _ _ _ _ _ (get_node_eq a w (mkMem _ _ _) Hw)). done.
Qed.

Lemma wake_handoff_run m a :
  phases_live m a -> wake_handoff a m = Some (tt, wake_mem DispatchNext m a).
Proof.
  intros Hp. unfold wake_handoff. rewrite (st_bind_eq _ _ _ _ _ (take_resume_run _ _ Hp)).
  unfold wake_mem. destruct Hp as (w & Hw & _). unfold handle_of. rewrite Hw.
  destruct (owns_resume m a); simpl; [|by rewrite app_nil_r].
  rewrite (st_bind_eq _ _ _ _ _ (get_node_eq a w (mkMem _ _ _) Hw)). done.
Qed.

Lemma phases_live_wake d m a b : phases_live m b -> phases_live (wake_mem d m a) b.
Proof.
  intros (w & Hw & Hs). exists w. split; [done|]. intros s Hsel. simpl.
  destruct (Hs s Hsel) as [sh Hsh]. unfold resumed.
  destruct (nodes m !! a) as [wa|]; [|eauto]. destruct (select_phase wa) as [t|]; [|eauto].
  destruct (decide (t = s)) as [->|].
  - rewrite lookup_alter_eq, Hsh. simpl. eauto.
  - rewrite lookup_alter_ne by done. eauto.
Qed.

Fixpoint wakes_mem m (ws : list addr) : Mem V :=
  match ws with
  | [] => m
  | a :: ws' => wakes_mem (wake_mem DispatchCompletion m a) ws'
  end.

Lemma wake_all_run ws : forall fuel m o,
  chain m o ws -> (forall a, a ∈ ws -> phases_live m a) -> length ws <= fuel ->
  wake_all fuel o m = Some (tt, wakes_mem m ws).
Proof.
  induction ws as [|a ws IH]; intros fuel m o Hc Hp Hf; simpl in *.
  - subst o. by destruct fuel.
  - destruct Hc as (-> & w & Hw & Hc). destruct fuel as [|fuel]; [lia|]. simpl.
    rewrite (st_bind_eq _ _ _ _ _ (get_node_eq _ _ _ Hw)).
    rewrite (st_bind_eq _ _ _ _ _ (wake_run _ a (Hp a ltac:(set_solver)))).
    apply IH; [|intros b Hb; apply phases_live_wake, Hp; set_solver|lia].
    eapply chain_ext; [|done]. done.
Qed.

Lemma chain_fuel m o ws : chain m o ws -> NoDup ws -> length ws <= size (nodes m).
Proof.
  intros Hc Hnd. rewrite <- size_dom, <- (size_list_to_set (C := gset addr) ws Hnd).
  apply subseteq_size. intros a Ha. apply elem_of_list_to_set in Ha.
  clear Hnd. revert o Hc. induction ws as [|b ws IH]; intros o Hc; [set_solver|].
  destruct Hc as (_ & w & Hw & Hc). apply elem_of_cons in Ha as [->|Ha]; [|eauto].
  apply elem_of_dom. eauto.
Qed.

Lemma close_acq_nodup m A : NoDup (a_send A) -> NoDup (a_recv A) ->
  (forall a, a ∈ a_send A -> a ∈ a_recv A -> False) -> NoDup (close_acq m A).
Proof.
  intros Hs Hr Hd. apply NoDup_app.
  split; [by apply NoDup_rev, drain_acq_nodup|].
  split; [|by apply NoDup_rev, drain_acq_nodup].
  intros a. rewrite !elem_of_reverse. intros H1%drain_acq_sub H2%drain_acq_sub. eauto.
Qed.

Definition is_plain m a : Prop :=
  exists w, nodes m !! a = Some w /\ select_winner w = None /\ select_phase w = None.

Lemma drain_acq_plain l : forall m, (forall a, a ∈ l -> is_plain m a) ->
  drain_acq m l = (l, shared m).
Proof.
  induction l as [|a l IH]; intros m Hp; simpl; [done|].
  destruct (Hp a) as (w & Hw & Hs & _); [set_solver|].
  unfold acquirable, claim. rewrite Hw, Hs. rewrite IH; [done|].
  intros b Hb. apply (Hp b). set_solver.
Qed.

Lemma wakes_plain ws : forall m,
  (forall a, a ∈ ws -> is_plain m a) ->
  nodes (wakes_mem m ws) = nodes m /\
  dispatched (wakes_mem m ws)
  = dispatched m ++ map (fun a => DispatchCompletion (handle_of m a)) ws.
Proof.
  induction ws as [|a ws IH]; intros m Hp; simpl; [by rewrite app_nil_r|].
  destruct (Hp a) as (w & Hw & _ & Hs); [set_solver|].
  assert (owns_resume m a = true) as Ho by (unfold owns_resume; by rewrite Hw, Hs).
  destruct (IH (wake_mem DispatchCompletion m a)) as [-> ->].
  - intros b Hb. apply (Hp b). set_solver.
  - split; [done|]. simpl. rewrite Ho, <- app_assoc. done.
Qed.

Lemma close_plain_run m c A :
  crep m c A -> a_closed A = false ->
  (forall a, a ∈ a_send A ++ a_recv A -> is_plain m a) ->
  exists c' m', close c m = Some (c', m') /\ crep m' c' (abs_close A) /\
    dispatched m' = dispatched m ++
      map (fun a => DispatchCompletion (handle_of m a)) (reverse (a_send A) ++ reverse (a_recv A)) /\
    (forall a, a ∈ a_send A ++ a_recv A ->
       exists w, nodes m' !! a = Some w /\ success w = false /\ queued w = false).
Proof.
  intros Hc Hcl Hp.
  destruct (close_locked_run m c A Hc Hcl) as (c' & wl & m1 & Hr & Hc' & Hch & Hd & Hn & _).
  assert (Hacq : close_acq m A = reverse (a_send A) ++ reverse (a_recv A)).
  { unfold close_acq. rewrite (drain_acq_plain (a_recv A)) by set_solver. simpl.
    rewrite drain_acq_plain; [done|]. intros a Ha. apply (Hp a). set_solver. }
  assert (Hin : forall a, a ∈ close_acq m A -> a ∈ a_send A ++ a_recv A) by apply close_acq_sub.
  assert (Hp1 : forall a, a ∈ close_acq m A -> is_plain m1 a /\ handle_of m1 a = handle_of m a).
  { intros a Ha. destruct (Hp a (Hin a Ha)) as (w & Hw & Hs & Hph).
    destruct (Hn a (Hin a Ha)) as (w0 & w' & Hw0 & Hw' & Hh & Hph' & _ & _ & Hsel).
    assert (w0 = w) as -> by congruence. unfold is_plain, handle_of. rewrite Hw, Hw'.
    split; [|done]. exists w'. split; [done|]. split; congruence. }
  unfold close. rewrite (st_bind_eq _ _ _ _ _ Hr). cbn beta iota.
  rewrite (st_bind_eq _ _ _ _ _ (loop_fuel_eq m1)).
  assert (Hnd : NoDup (close_acq m A)).
  { apply close_acq_nodup; [by eapply cr_nodup_send|by eapply cr_nodup_recv|by destruct Hc]. }
  pose proof (chain_fuel _ _ _ Hch Hnd).
  assert (Hrun : wake_all (S (size (nodes m1))) wl m1 = Some (tt, wakes_mem m1 (close_acq m A))).
  { apply wake_all_run; [done| |lia]. intros a Ha.
    destruct (Hp1 a Ha) as [(w & Hw & _ & Hs) _]. exists w. split; [done|]. congruence. }
  rewrite (st_bind_eq _ _ _ _ _ Hrun).
  destruct (wakes_plain (close_acq m A) m1) as [Hwn Hwd]; [intros a Ha; by apply Hp1|].
  eexists c', _. split; [done|]. split; [|split].
  - destruct Hc' as [H1 H2 H3 H4 H5 _ _ _ _ _].
    split; simpl; [done|done|done| | | | | | |];
      [| |intros a Ha; set_solver..].
    + apply dll_nil. by apply dll_nil in H4.
    + apply dll_nil. by apply dll_nil in H5.
  - rewrite Hwd, Hd, Hacq. f_equal. apply map_ext_in. intros a Ha.
    rewrite <- list_elem_of_In, <- Hacq in Ha. by rewrite (proj2 (Hp1 a Ha)).
  - intros a Ha. destruct (Hn a Ha) as (w & w' & _ & Hw' & _ & _ & Hq & Hs & _).
    exists w'. rewrite Hwn. split; [done|]. split; [|done]. apply Hs. rewrite Hacq.
    rewrite elem_of_app, !elem_of_reverse. set_solver.
Qed.

End ChanClose.
