(* ===== verification/ChanSystem.v ===== *)
(** * One channel under arbitrary interleavings

    The transition system of one channel: tasks sending and receiving, selects
    parking and retracting waiters, claims made through other channels and
    timers, [close], and the wakes performed after the lock was dropped. Each
    critical section of [ChannelMutex] is one step. *)

From S2P Require Import Prelude Result Chan ChanList ChanSpec ChanClose.

Set Default Proof Using "Type".

Section ChanSystem.
  Context {V : Type}.
  Implicit Types (m : Mem V) (w : ChanWaiter V) (c : Channel V) (a b : addr)
    (l : list addr) (v : V) (A : AChan V).

(** [accepted] logs the values that entered the channel (from a sender that
    completed), [delivered] those that a receiver obtained. *)
Record Sys := mkSys {
  ch : Channel V;
  mem : Mem V;
  pend : list (addr * bool);
  accepted : list V;
  delivered : list V
}.

(** [init_waiter] and the slot assignment of [case_enqueue]: the node of a
    select case. *)
Definition init_waiter (s : sel_id) (index : Z) (h : nat) (sl : Slot V) : ChanWaiter V :=
  mkWaiter None None h sl (Some s) (Some s) index false false.

(** [case_try] on one case of a select over this channel. *)
Definition case_try_status (sl : Slot V) (c : Channel V)
  : ST (Mem V) (OpStatus * Channel V) :=
  match sl with
  | SlotSend (Some v) =>
      r <-- try_send_locked v c; let '(st, _, c) := r in st_ret (st, c)
  | SlotSend None => st_fail
  | SlotRecv o =>
      r <-- try_recv_locked o c; let '(st, _, _, c) := r in st_ret (st, c)
  end.

(** The ready scan finds every case blocked. *)
Fixpoint scan_blocked (cs : list (addr * Z * Slot V)) (c : Channel V)
  : ST (Mem V) (bool * Channel V) :=
  match cs with
  | [] => st_ret (true, c)
  | (_, _, sl) :: cs =>
      r <-- case_try_status sl c;
      let '(st, c) := r in
      if decide (st = kBlocked) then scan_blocked cs c else st_ret (false, c)
  end.

(** [case_enqueue] on every case. *)
Fixpoint enqueue_cases (s : sel_id) (h : nat) (cs : list (addr * Z * Slot V))
    (c : Channel V) : ST (Mem V) (Channel V) :=
  match cs with
  | [] => st_ret c
  | (a, index, sl) :: cs =>
      alloc_node a (init_waiter s index h sl);;;
      match sl with
      | SlotSend _ =>
          q <-- push_back a (senders c);
          enqueue_cases s h cs (set_lists q (receivers c) c)
      | SlotRecv _ =>
          q <-- push_back a (receivers c);
          enqueue_cases s h cs (set_lists (senders c) q c)
      end
  end.

Definition with_shared (f : gmap sel_id SelectShared -> gmap sel_id SelectShared) m :=
  mkMem (nodes m) (f (shared m)) (dispatched m).

Definition pend_of (o : option addr) (k : bool) : list (addr * bool) :=
  match o with Some a => [(a, k)] | None => [] end.

Definition log_send (st : OpStatus) v : list V := if decide (st = kDone) then [v] else [].

(** What a peer woken by a receive contributes: its parked value. *)
Definition log_peer m (wk : option addr) : list V :=
  match wk with Some a => option_list (parked_value m a) | None => [] end.

(** The waiter of a case is queued, if at all, on the list of its channel. *)
Definition parked_only_on m (q : WaiterList) a : Prop :=
  forall l, dll m q l -> a ∈ l \/ exists w, nodes m !! a = Some w /\ queued w = false.

Inductive chan_step : Sys -> Sys -> Prop :=
  | step_send c m p acc del a h v st wk c' m' :
      nodes m !! a = None ->
      send_cs a h v c m = Some ((st, wk, c'), m') ->
      chan_step (mkSys c m p acc del)
        (mkSys c' m' (p ++ pend_of wk true) (acc ++ log_send st v)
           (del ++ if wk then log_send st v else []))
  | step_try_send c m p acc del v st wk c' m' k :
      try_send_locked v c m = Some ((st, wk, c'), m') ->
      chan_step (mkSys c m p acc del)
        (mkSys c' m' (p ++ pend_of wk k) (acc ++ log_send st v)
           (del ++ if wk then log_send st v else []))
  | step_recv c m p acc del a h st res wk c' m' :
      nodes m !! a = None ->
      recv_cs a h c m = Some ((st, res, wk, c'), m') ->
      chan_step (mkSys c m p acc del)
        (mkSys c' m' (p ++ pend_of wk true) (acc ++ log_peer m wk) (del ++ option_list res))
  | step_case_recv c m p acc del st res wk c' m' :
      try_recv_locked None c m = Some ((st, res, wk, c'), m') ->
      chan_step (mkSys c m p acc del)
        (mkSys c' m' (p ++ pend_of wk true) (acc ++ log_peer m wk) (del ++ option_list res))
  | step_try_recv c m p acc del st res wk c' m' :
      try_recv_now_locked None c m = Some ((st, res, wk, c'), m') ->
      chan_step (mkSys c m p acc del)
        (mkSys c' m' (p ++ pend_of wk false) (acc ++ log_peer m wk) (del ++ option_list res))
  | step_close c m p acc del c' wl m' ws :
      close_locked c m = Some ((c', wl), m') -> chain m' wl ws ->
      chan_step (mkSys c m p acc del)
        (mkSys c' m' (p ++ map (fun a => (a, false)) ws) acc del)
  | step_wake c m p1 p2 acc del a m' (k : bool) :
      (if k then wake_handoff a else wake a) m = Some (tt, m') ->
      chan_step (mkSys c m (p1 ++ (a, k) :: p2) acc del) (mkSys c m' (p1 ++ p2) acc del)
  | step_select_park c m p acc del s h cs c1 m1 c' m' :
      shared m !! s = None ->
      NoDup (map (fun x => x.1.1) cs) ->
      (forall x, x ∈ cs -> nodes m !! x.1.1 = None) ->
      scan_blocked cs c (with_shared <[s := mkShared kNoWinner kSelectSetup h]> m)
        = Some ((true, c1), m1) ->
      enqueue_cases s h cs c1 m1 = Some (c', m') ->
      chan_step (mkSys c m p acc del) (mkSys c' m' p acc del)
  | step_claim_elsewhere c m p acc del s sh i :
      shared m !! s = Some sh -> winner sh = kNoWinner ->
      chan_step (mkSys c m p acc del)
        (mkSys c (with_shared <[s := mkShared i (phase sh) (sel_handle sh)]> m) p acc del)
  | step_phase c m p acc del s sh ph :
      shared m !! s = Some sh ->
      chan_step (mkSys c m p acc del)
        (mkSys c (with_shared <[s := mkShared (winner sh) ph (sel_handle sh)]> m) p acc del)
  | step_retract_recv c m p acc del a q m' :
      acquirable m a = false -> parked_only_on m (receivers c) a ->
      remove a (receivers c) m = Some (q, m') ->
      chan_step (mkSys c m p acc del) (mkSys (set_lists (senders c) q c) m' p acc del)
  | step_retract_send c m p acc del a q m' :
      acquirable m a = false -> parked_only_on m (senders c) a ->
      remove a (senders c) m = Some (q, m') ->
      chan_step (mkSys c m p acc del) (mkSys (set_lists q (receivers c) c) m' p acc del).

(** A freshly created channel, before any task touched it. *)
Definition chan_init (s : Sys) : Prop :=
  exists sz cap, create sz cap = Some (ch s) /\
    s = mkSys (ch s) (mkMem ∅ ∅ []) [] [] [].

(** ** The invariant *)

Definition same_select m a b : Prop :=
  exists w w' s, nodes m !! a = Some w /\ nodes m !! b = Some w' /\
    select_winner w = Some s /\ select_winner w' = Some s.

(** No waiter that could be served is parked, except that one select may hold
    both ends. *)
Record wf m A : Prop := {
  wf_closed : a_closed A = true -> a_send A = [] /\ a_recv A = [];
  wf_recv : forall r, r ∈ a_recv A -> acquirable m r = true -> a_buf A = [];
  wf_send : forall s, s ∈ a_send A -> acquirable m s = true -> length (a_buf A) = a_cap A;
  wf_pair : forall r s, r ∈ a_recv A -> s ∈ a_send A ->
    acquirable m r = true -> acquirable m s = true -> same_select m r s
}.

Definition inv (s : Sys) : Prop :=
  exists A, crep (mem s) (ch s) A /\ wf (mem s) A /\
    accepted s = delivered s ++ a_buf A.

(** Selects are only ever claimed: what is acquirable later was before. *)
Definition acq_le (L : list addr) m m' : Prop :=
  forall b, b ∈ L -> acquirable m' b = true ->
    acquirable m b = true /\
    (forall w', nodes m' !! b = Some w' ->
       exists w, nodes m !! b = Some w /\ select_winner w' = select_winner w).

Lemma completed_acq_le L m m' o s ok : completed m m' o s ok -> acq_le L m m'.
Proof.
  intros Hco b _ Hb. split.
  - unfold acquirable in *. destruct (nodes m' !! b) as [w'|] eqn:Hw'; [|done].
    destruct (completed_node _ _ _ _ _ _ _ Hco Hw') as (w & Hw & Hs & _).
    rewrite Hw, <- Hs. destruct (select_winner w') as [t|] eqn:Ht; [|done].
    destruct Hco as [_ _ Hacq Hsh _]. rewrite Hsh in Hb. destruct o as [a|]; [|done].
    specialize (Hacq a eq_refl). unfold claim_opt, claim in Hb. unfold acquirable in Hacq.
    destruct (nodes m !! a) as [wa|]; [|done]. destruct (select_winner wa) as [u|]; [|done].
    destruct (decide (u = t)) as [->|]; [done|]. by rewrite lookup_alter_ne in Hb.
  - intros w' Hw'. destruct (completed_node _ _ _ _ _ _ _ Hco Hw') as (w & ? & ? & _). eauto.
Qed.

Lemma wf_le m m' A A' :
  wf m A -> acq_le (a_send A ++ a_recv A) m m' ->
  (a_closed A' = true -> a_send A' = [] /\ a_recv A' = []) ->
  a_send A' ⊆ a_send A -> a_recv A' ⊆ a_recv A ->
  (forall r, r ∈ a_recv A' -> acquirable m r = true -> a_buf A' = []) ->
  (forall s, s ∈ a_send A' -> acquirable m s = true -> length (a_buf A') = a_cap A') ->
  wf m' A'.
Proof.
  intros [Hc Hr Hs Hp] Hle Hc' Hss Hrs Hr' Hs'.
  assert (forall b, b ∈ a_recv A' -> b ∈ a_send A ++ a_recv A) as Hin1.
  { intros b Hb. apply elem_of_app. right. auto. }
  assert (forall b, b ∈ a_send A' -> b ∈ a_send A ++ a_recv A) as Hin2.
  { intros b Hb. apply elem_of_app. left. auto. }
  split; [done| | |].
  - intros r Hin Ha. by apply (Hr' r Hin), Hle; [auto|].
  - intros s Hin Ha. by apply (Hs' s Hin), Hle; [auto|].
  - intros r s Hinr Hins Har Has. destruct (Hle r (Hin1 r Hinr) Har) as [Har0 Hwr].
    destruct (Hle s (Hin2 s Hins) Has) as [Has0 Hws].
    destruct (Hp r s (Hrs r Hinr) (Hss s Hins) Har0 Has0) as (w & w' & t & Hw & Hw' & Ht & Ht').
    unfold acquirable in Har, Has.
    destruct (nodes m' !! r) as [wr|] eqn:Er; [|done].
    destruct (nodes m' !! s) as [ws|] eqn:Es; [|done].
    destruct (Hwr wr eq_refl) as (? & ? & ?). destruct (Hws ws eq_refl) as (? & ? & ?).
    exists wr, ws, t. split; [done|]. split; [done|]. split; congruence.
Qed.

(** ** Sending and receiving preserve the invariant *)

Lemma drop_until_nil acq l : drop_until acq l = [] -> forall a, a ∈ l -> acq a = false.
Proof.
  induction l as [|b l IH]; simpl; [set_solver|]. destruct (acq b) eqn:E; [done|].
  intros H a [->|Ha]%elem_of_cons; auto.
Qed.

Lemma drop_until_cons acq l a rest :
  drop_until acq l = a :: rest -> acq a = true /\ a ∈ l /\ rest ⊆ l.
Proof.
  intros H. pose proof (drop_until_sub acq l) as Hs. rewrite H in Hs.
  split; [|split; [apply Hs; set_solver|intros x Hx; apply Hs; set_solver]].
  clear Hs. revert H. induction l as [|b l IH]; simpl; [done|].
  destruct (acq b) eqn:E; [by intros [= <- <-]|done].
Qed.

(** Closes the membership side conditions of [wf_le]. *)
Ltac sub_list :=
  try (let x := fresh in let H := fresh in
       intros x H; by apply not_elem_of_nil in H);
  try (let x := fresh in let H := fresh in
       intros x H ?; by apply not_elem_of_nil in H).

Lemma abs_send_wf m m' c A v st wk A' acc del :
  crep m c A -> wf m A -> acq_le (a_send A ++ a_recv A) m m' -> abs_send (acquirable m) v A = (st, wk, A') ->
  acc = del ++ a_buf A ->
  wf m' A' /\
  acc ++ log_send st v = (del ++ if wk then log_send st v else []) ++ a_buf A' /\
  (st = kBlocked -> wk = None /\ a_closed A' = false /\ a_recv A' = [] /\
     length (a_buf A') = a_cap A' /\ a_send A' = a_send A).
Proof.
  intros Hc Hwf Hle. unfold abs_send. destruct (a_closed A) eqn:Ecl.
  { intros [= <- <- <-] ->. simpl. rewrite !app_nil_r.
    split; [|done]. pose proof Hwf as []. by eapply (wf_le m); eauto. }
  destruct (drop_until _ _) as [|r rest] eqn:E; [case_decide|]; intros [= <- <- <-] ->.
  - split; [|unfold log_send; simpl; rewrite app_nil_r, app_assoc; done].
    pose proof (wf_send _ _ Hwf). eapply (wf_le m); eauto; simpl; try done; sub_list.
    intros s Hs Ha. specialize (H0 s Hs Ha). lia.
  - unfold log_send. simpl. rewrite !app_nil_r. split; [|split; [done|]].
    + eapply (wf_le m); eauto; simpl; try done; sub_list. apply Hwf.
    + intros _. repeat split; try done.
      destruct (cr_ring _ _ _ Hc) as [_ _ Hf _ _ _]. rewrite (cr_cap _ _ _ Hc) in Hf. lia.
  - apply drop_until_cons in E as (Ha & Hin & Hsub).
    rewrite (wf_recv _ _ Hwf r Hin Ha). split; [|unfold log_send; simpl; by rewrite !app_nil_r].
    eapply (wf_le m); eauto; simpl; try done.
    intros s Hs Has. pose proof (wf_send _ _ Hwf s Hs Has) as Hl.
    by rewrite (wf_recv _ _ Hwf r Hin Ha) in Hl.
Qed.

Lemma abs_recv_wf m m' c A out st res wk A' acc del :
  crep m c A -> wf m A -> acq_le (a_send A ++ a_recv A) m m' ->
  abs_recv (acquirable m) (parked_value m) out A = (st, res, wk, A') ->
  acc = del ++ a_buf A ->
  wf m' A' /\
  (st = kBlocked -> res = out /\ wk = None /\ acc = del ++ a_buf A' /\
     a_closed A' = false /\ a_send A' = [] /\ a_buf A' = [] /\ a_recv A' = a_recv A) /\
  (st <> kBlocked -> acc ++ log_peer m wk = (del ++ option_list res) ++ a_buf A').
Proof.
  intros Hc Hwf Hle. unfold abs_recv.
  destruct (drop_until _ _) as [|s rest] eqn:E.
  - pose proof (drop_until_nil _ _ E) as Hno.
    destruct (a_buf A) as [|x buf] eqn:Eb; [destruct (a_closed A) eqn:Ecl|];
      intros [= <- <- <- <-] ->; simpl.
    + split; [|split; [done|by rewrite !app_nil_r]].
      eapply (wf_le m); eauto; simpl; try done; sub_list.
      intros _. by destruct (wf_closed _ _ Hwf Ecl).
    + split; [|done]. eapply (wf_le m); eauto; simpl; try done; sub_list.
    + split; [|split; [done|by rewrite app_nil_r, <- app_assoc]].
      eapply (wf_le m); eauto; simpl; try done; sub_list.
      * intros Hcl. by apply Hwf in Hcl as [_ ->].
      * intros r Hr Ha. pose proof (wf_recv _ _ Hwf r Hr Ha). congruence.
  - apply drop_until_cons in E as (Ha & Hin & Hsub).
    destruct (cr_val _ _ _ Hc s Hin) as [y Hy].
    pose proof (wf_send _ _ Hwf s Hin Ha) as Hfull.
    assert (a_closed A = false) as Hop.
    { destruct (a_closed A) eqn:Ecl; [|done]. apply Hwf in Ecl as [Hn _].
      rewrite Hn in Hin. set_solver. }
    destruct (a_buf A) as [|x buf] eqn:Eb; intros [= <- <- <- <-] ->; simpl; rewrite Hy; simpl.
    + split; [|split; [done|by rewrite !app_nil_r]].
      eapply (wf_le m); eauto; simpl; try done; try congruence.
    + split; [|split; [done|by rewrite <- !app_assoc]].
      eapply (wf_le m); eauto; simpl; try done; try congruence.
      * intros r Hr Har. pose proof (wf_recv _ _ Hwf r Hr Har). congruence.
      * intros _ _ _. rewrite length_app. simpl in *. lia.
Qed.

(** ** Parking a waiter *)

(** [m'] is [m] with the fresh node [a] added and linked. *)
Record parked m m' a w : Prop := {
  pk_node : exists w', nodes m' !! a = Some w' /\ payload w' = payload w;
  pk_other : forall b, b <> a -> payload <$> (nodes m' !! b) = payload <$> (nodes m !! b);
  pk_shared : shared m' = shared m
}.

Lemma parked_node m m' a w b w' :
  parked m m' a w -> b <> a -> nodes m' !! b = Some w' ->
  exists w0, nodes m !! b = Some w0 /\ payload w' = payload w0.
Proof.
  intros [_ Ho _] Hb Hw'. specialize (Ho b Hb). rewrite Hw' in Ho.
  destruct (nodes m !! b) as [w0|]; [|done]. exists w0. by apply (inj Some) in Ho.
Qed.

Lemma parked_acq m m' a w b :
  parked m m' a w -> b <> a -> acquirable m' b = acquirable m b.
Proof.
  intros [_ Ho Hs] Hb. specialize (Ho b Hb). unfold acquirable. rewrite Hs.
  destruct (nodes m !! b), (nodes m' !! b); try done.
  apply (inj Some), payload_sel in Ho as [-> _]. done.
Qed.

Lemma park_push m q l a w :
  dll m q l -> a ∉ l -> nodes m !! a = None ->
  exists q' m', (alloc_node a w;;; push_back a q) m = Some (q', m') /\
    dll m' q' (l ++ [a]) /\ parked m m' a w /\
    (forall q2 l2, dll m q2 l2 -> (forall b, b ∈ l2 -> b ∉ a :: l) -> dll m' q2 l2).
Proof.
  intros Hd Hn Hw. set (m0 := with_nodes <[a := w]> m).
  destruct (push_back_dll m0 q l a w) as (q' & m' & Hr & Hd' & Hf & Hs).
  { by apply dll_insert. } { done. } { simpl. by rewrite lookup_insert_eq. }
  exists q', m'. split; [exact Hr|]. split; [done|]. split.
  - split; [| |by rewrite Hs].
    + destruct (lframe_node _ _ _ a w Hf) as (w' & ? & ?); [simpl; by rewrite lookup_insert_eq|].
      eauto.
    + intros b Hb. rewrite (lf_payload _ _ _ Hf b). simpl. by rewrite lookup_insert_ne.
  - intros q2 l2 Hd2 Hdj. eapply (dll_out _ _ _ _ _ Hf); [done|].
    apply dll_insert; [|done]. intros Ha. apply (Hdj a Ha). set_solver.
Qed.

(** Rebuilds the representation after parking [a]. *)
Lemma crep_parked m m' c c' (A A' : AChan V) a w :
  crep m c A -> parked m m' a w -> nodes m !! a = None ->
  capacity c' = capacity c -> closed c' = closed c -> ring c' (a_buf A') ->
  a_cap A' = a_cap A -> a_closed A' = a_closed A ->
  dll m' (senders c') (a_send A') -> dll m' (receivers c') (a_recv A') ->
  (forall b, b ∈ a_send A' -> b ∈ a_recv A' -> False) ->
  (forall b, b ∈ a_send A' -> b = a \/ b ∈ a_send A) ->
  (forall b, b ∈ a_recv A' -> b = a \/ b ∈ a_recv A) ->
  (forall s, select_winner w = Some s -> is_Some (shared m !! s)) ->
  select_phase w = select_winner w ->
  (a ∈ a_send A' -> exists v, slot w = SlotSend (Some v)) ->
  (a ∈ a_recv A' -> exists o, slot w = SlotRecv o) ->
  crep m' c' A'.
Proof.
  intros Hc Hp Hfr H1 H2 Hring H3 H4 Hds Hdr Hdj Hss Hrs Hsel Hph Hsv Hrv.
  destruct Hc as [Hcap Hclosed _ _ _ _ Hok Hphase Hval Hrcv].
  pose proof Hp as [(wa & Hwa & Hpa) Ho Hsh].
  apply payload_sel in Hpa as (Ea & Eslot & _ & _ & Eph & _).
  assert (forall b, b ∈ a_send A' ++ a_recv A' -> b = a \/ b <> a /\ b ∈ a_send A ++ a_recv A)
    as Hin.
  { intros b Hb. destruct (decide (b = a)) as [->|Hne]; [by left|]. right. split; [done|].
    apply elem_of_app in Hb as [Hb|Hb]; apply elem_of_app.
    - apply Hss in Hb as [|]; [done|by left].
    - apply Hrs in Hb as [|]; [done|by right]. }
  split; try done; try congruence.
  - intros b wb s Hb Hwb Hs. rewrite Hsh. destruct (Hin b Hb) as [->|[Hne Hb0]].
    + apply Hsel. congruence.
    + destruct (parked_node _ _ _ _ _ _ Hp Hne Hwb) as (w0 & Hw0 & Hp0).
      apply payload_sel in Hp0 as (E0 & _). apply (Hok b w0 s Hb0 Hw0). congruence.
  - intros b wb Hb Hwb. destruct (Hin b Hb) as [->|[Hne Hb0]]; [congruence|].
    destruct (parked_node _ _ _ _ _ _ Hp Hne Hwb) as (w0 & Hw0 & Hp0).
    apply payload_sel in Hp0 as (E0 & _ & _ & _ & E1 & _).
    rewrite E0, E1. by apply (Hphase b).
  - intros b Hb. unfold parked_value. destruct (decide (b = a)) as [->|Hne].
    + destruct (Hsv Hb) as [v Hv]. rewrite Hwa, Eslot, Hv. eauto.
    + destruct (Hss b Hb) as [|Hb0]; [done|]. destruct (Hval b Hb0) as [v Hv].
      unfold parked_value in Hv. destruct (nodes m !! b) as [w0|] eqn:E0; [|done].
      specialize (Ho b Hne). rewrite E0 in Ho. destruct (nodes m' !! b) as [wb|]; [|done].
      apply (inj Some), payload_sel in Ho as (_ & -> & _). eauto.
  - intros b Hb. destruct (decide (b = a)) as [->|Hne].
    + destruct (Hrv Hb) as [o Hov]. exists wa, o. split; [done|congruence].
    + destruct (Hrs b Hb) as [|Hb0]; [done|].
      apply (is_receiver_payload m); [by apply Ho|by apply Hrcv].
Qed.

Lemma fresh_not_parked m c A a :
  crep m c A -> nodes m !! a = None -> a ∉ a_send A /\ a ∉ a_recv A.
Proof.
  intros Hc Hn. split; intros Ha.
  - destruct (dll_node _ _ _ _ (cr_send _ _ _ Hc) Ha) as (? & ? & _). congruence.
  - destruct (dll_node _ _ _ _ (cr_recv _ _ _ Hc) Ha) as (? & ? & _). congruence.
Qed.

(** A waiter ready to be parked on one of the lists. *)
Definition parkable m w : Prop :=
  (forall s, select_winner w = Some s -> is_Some (shared m !! s)) /\
  select_phase w = select_winner w.

Definition add_sender a A : AChan V :=
  mkAChan (a_cap A) (a_buf A) (a_closed A) (a_send A ++ [a]) (a_recv A).
Definition add_receiver a A : AChan V :=
  mkAChan (a_cap A) (a_buf A) (a_closed A) (a_send A) (a_recv A ++ [a]).

Lemma park_send_run m c A a w v :
  crep m c A -> nodes m !! a = None -> parkable m w -> slot w = SlotSend (Some v) ->
  exists q m', (alloc_node a w;;; push_back a (senders c)) m = Some (q, m') /\
    crep m' (set_lists q (receivers c) c) (add_sender a A) /\ parked m m' a w.
Proof.
  intros Hc Hfr [Hsel Hph] Hs. destruct (fresh_not_parked _ _ _ _ Hc Hfr) as [Hns Hnr].
  destruct (park_push m _ _ a w (cr_send _ _ _ Hc) Hns Hfr) as (q & m' & Hr & Hd & Hp & Hout).
  exists q, m'. split; [done|]. split; [|done].
  assert (forall b, b ∈ a_send A ++ [a] -> b = a \/ b ∈ a_send A) as Hin.
  { intros b [?|?%list_elem_of_singleton]%elem_of_app; auto. }
  eapply (crep_parked m m' c _ A _ a w); eauto; simpl.
  - apply ring_set_lists, Hc.
  - apply Hout; [apply Hc|]. intros b Hb [->|Hb']%elem_of_cons; [done|].
    by apply (cr_disj _ _ _ Hc b).
  - intros b [->|Hb]%Hin Hb'; [done|]. by apply (cr_disj _ _ _ Hc b).
  - done.
Qed.

Lemma park_recv_run m c A a w o :
  crep m c A -> nodes m !! a = None -> parkable m w -> slot w = SlotRecv o ->
  exists q m', (alloc_node a w;;; push_back a (receivers c)) m = Some (q, m') /\
    crep m' (set_lists (senders c) q c) (add_receiver a A) /\ parked m m' a w.
Proof.
  intros Hc Hfr [Hsel Hph] Hs. destruct (fresh_not_parked _ _ _ _ Hc Hfr) as [Hns Hnr].
  destruct (park_push m _ _ a w (cr_recv _ _ _ Hc) Hnr Hfr) as (q & m' & Hr & Hd & Hp & Hout).
  exists q, m'. split; [done|]. split; [|done].
  assert (forall b, b ∈ a_recv A ++ [a] -> b = a \/ b ∈ a_recv A) as Hin.
  { intros b [?|?%list_elem_of_singleton]%elem_of_app; auto. }
  eapply (crep_parked m m' c _ A _ a w); eauto; simpl.
  - apply ring_set_lists, Hc.
  - apply Hout; [apply Hc|]. intros b Hb [->|Hb']%elem_of_cons; [done|].
    by apply (cr_disj _ _ _ Hc b).
  - intros b Hb [->|Hb']%Hin; [done|]. by apply (cr_disj _ _ _ Hc b).
  - done.
Qed.

(** ** Parking preserves the invariant *)

Lemma parked_same m m' a w b b' :
  parked m m' a w -> b <> a -> b' <> a -> same_select m b b' -> same_select m' b b'.
Proof.
  intros [_ Ho _] Hb Hb' (x & x' & s & Hx & Hx' & Hs & Hs').
  pose proof (Ho b Hb) as H1. pose proof (Ho b' Hb') as H2. rewrite Hx in H1. rewrite Hx' in H2.
  destruct (nodes m' !! b) as [y|] eqn:Ey; [|done].
  destruct (nodes m' !! b') as [y'|] eqn:Ey'; [|done].
  apply (inj Some), payload_sel in H1 as (E1 & _).
  apply (inj Some), payload_sel in H2 as (E2 & _).
  exists y, y', s. split; [done|]. split; [done|]. split; congruence.
Qed.

Lemma wf_parked m m' a w A A' :
  wf m A -> parked m m' a w -> a ∉ a_send A -> a ∉ a_recv A ->
  a_closed A' = false -> a_cap A' = a_cap A -> a_buf A' = a_buf A ->
  (forall r, r ∈ a_recv A' -> r = a \/ r ∈ a_recv A) ->
  (forall r, r ∈ a_send A' -> r = a \/ r ∈ a_send A) ->
  (forall b, b ∈ a_recv A' -> b ∈ a_send A' -> False) ->
  (a ∈ a_recv A' -> a_buf A = []) ->
  (a ∈ a_send A' -> length (a_buf A) = a_cap A) ->
  (forall r s, r = a \/ s = a -> r ∈ a_recv A' -> s ∈ a_send A' ->
     acquirable m' r = true -> acquirable m' s = true -> same_select m' r s) ->
  wf m' A'.
Proof.
  intros [_ Hr Hs Hp] Hpk Hns Hnr Hop Ecap Ebuf Hrs Hss Hdj Hra Hsa Hpa. rewrite <- Ebuf in *.
  assert (forall b, b ∈ a_recv A \/ b ∈ a_send A -> b <> a) as Hne.
  { intros b [Hb|Hb] ->; contradiction. }
  split; [congruence| | |].
  - intros r Hin Ha. destruct (Hrs r Hin) as [->|Hin']; [by apply Hra|].
    rewrite (parked_acq _ _ _ _ _ Hpk) in Ha by auto. eauto.
  - intros s Hin Ha. rewrite Ecap. destruct (Hss s Hin) as [->|Hin']; [by apply Hsa|].
    rewrite (parked_acq _ _ _ _ _ Hpk) in Ha by auto. eauto.
  - intros r s Hinr Hins Har Has.
    destruct (Hrs r Hinr) as [->|Hr']; [by apply Hpa; auto|].
    destruct (Hss s Hins) as [->|Hs']; [by apply Hpa; auto|].
    rewrite (parked_acq _ _ _ _ _ Hpk) in Har by auto.
    rewrite (parked_acq _ _ _ _ _ Hpk) in Has by auto.
    eapply parked_same; [done|auto..].
Qed.

Lemma snoc_in (l : list addr) a b : b ∈ l ++ [a] -> b = a \/ b ∈ l.
Proof. intros [?|?%list_elem_of_singleton]%elem_of_app; auto. Qed.

Lemma wf_add_sender m m' c a w A :
  wf m A -> crep m c A -> parked m m' a w ->
  nodes m !! a = None -> a_closed A = false -> length (a_buf A) = a_cap A ->
  (forall r, r ∈ a_recv A -> acquirable m r = true -> same_select m' r a) ->
  wf m' (add_sender a A).
Proof.
  intros Hwf Hc Hpk Hfr Hop Hfull Hsame.
  destruct (fresh_not_parked _ _ _ _ Hc Hfr) as [Hns Hnr].
  eapply (wf_parked m m' a w A); eauto; simpl.
  - intros r. apply snoc_in.
  - intros b Hb [->|Hb']%snoc_in; [done|]. by apply (cr_disj _ _ _ Hc b).
  - done.
  - intros r s Hor Hr [->|Hs]%snoc_in Har Has.
    + assert (r <> a) by (intros ->; done).
      rewrite (parked_acq _ _ _ _ _ Hpk) in Har by done. auto.
    + destruct Hor as [->| ->]; done.
Qed.

Lemma wf_add_receiver m m' c a w A :
  wf m A -> crep m c A -> parked m m' a w ->
  nodes m !! a = None -> a_closed A = false -> a_buf A = [] ->
  (forall s, s ∈ a_send A -> acquirable m s = true -> same_select m' a s) ->
  wf m' (add_receiver a A).
Proof.
  intros Hwf Hc Hpk Hfr Hop Hemp Hsame.
  destruct (fresh_not_parked _ _ _ _ Hc Hfr) as [Hns Hnr].
  eapply (wf_parked m m' a w A); eauto; simpl.
  - intros r. apply snoc_in.
  - intros b [->|Hb]%snoc_in Hb'; [done|]. by apply (cr_disj _ _ _ Hc b).
  - done.
  - intros r s Hor [->|Hr]%snoc_in Hs Har Has.
    + assert (s <> a) by (intros ->; done).
      rewrite (parked_acq _ _ _ _ _ Hpk) in Has by done. auto.
    + destruct Hor as [->| ->]; done.
Qed.

(** ** The awaiters *)

Lemma completed_fresh m m' s ok a :
  completed m m' None s ok -> nodes m !! a = None -> nodes m' !! a = None.
Proof.
  intros [H _ _ _ _] Ha. specialize (H a ltac:(done)). rewrite Ha in H.
  by destruct (nodes m' !! a).
Qed.

Lemma plain_parkable m h sl : parkable m (plain_waiter h sl : ChanWaiter V).
Proof. done. Qed.

(** Runs a park whose list operation is known and whose channel is set after. *)
Lemma park_then {Y} m m' a w q0 q (k : WaiterList -> ST (Mem V) Y) :
  (alloc_node a w;;; push_back a q0) m = Some (q, m') ->
  (alloc_node a w;;; x <-- push_back a q0; k x) m = k q m'.
Proof.
  unfold st_bind. destruct (alloc_node a w m) as [[[] m1]|]; [|done].
  destruct (push_back a q0 m1) as [[q1 m2]|]; [|done]. by intros [= -> ->].
Qed.

Lemma send_cs_inv m c A a h v acc del :
  crep m c A -> wf m A -> nodes m !! a = None -> acc = del ++ a_buf A ->
  exists st wk c' m' A', send_cs a h v c m = Some ((st, wk, c'), m') /\
    crep m' c' A' /\ wf m' A' /\
    acc ++ log_send st v = (del ++ if wk then log_send st v else []) ++ a_buf A'.
Proof.
  intros Hc Hwf Hfr Hacc.
  destruct (try_send_run m c A v Hc) as (st & wk & c1 & m1 & A1 & Hr & Habs & Hc1 & Hco).
  destruct (abs_send_wf m m1 c A v st wk A1 acc del Hc Hwf) as (Hwf1 & Hlog & Hb);
    [by eapply completed_acq_le|done..|].
  unfold send_cs. rewrite (st_bind_eq _ _ _ _ _ Hr). cbn beta iota.
  case_decide as Est; [|by eexists _, _, _, _, _].
  destruct (Hb Est) as (-> & Hop & Hnil & Hfull & _).
  pose proof (completed_fresh _ _ _ _ _ Hco Hfr) as Hfr1.
  destruct (park_send_run m1 c1 A1 a (plain_waiter h (SlotSend (Some v))) v Hc1 Hfr1)
    as (q & m2 & Hp & Hc2 & Hpk); [done..|].
  rewrite (park_then _ _ _ _ _ _ _ Hp).
  eexists _, _, _, m2, (add_sender a A1). do 2 (split; [done|]).
  split; [|by rewrite Est in Hlog].
  eapply (wf_add_sender m1 m2 c1); eauto. rewrite Hnil. intros r Hin%not_elem_of_nil. done.
Qed.

Lemma recv_cs_inv m c A a h acc del :
  crep m c A -> wf m A -> nodes m !! a = None -> acc = del ++ a_buf A ->
  exists st res wk c' m' A', recv_cs a h c m = Some ((st, res, wk, c'), m') /\
    crep m' c' A' /\ wf m' A' /\
    acc ++ log_peer m wk = (del ++ option_list res) ++ a_buf A'.
Proof.
  intros Hc Hwf Hfr Hacc.
  destruct (try_recv_run m c A None Hc) as (st & res & wk & c1 & m1 & A1 & Hr & Habs & Hc1 & Hco).
  destruct (abs_recv_wf m m1 c A None st res wk A1 acc del Hc Hwf) as (Hwf1 & Hb & Hlog);
    [by eapply completed_acq_le|done..|].
  unfold recv_cs. rewrite (st_bind_eq _ _ _ _ _ Hr). cbn beta iota.
  case_decide as Est; [|eexists _, _, _, _, _, _; eauto].
  destruct (Hb Est) as (-> & -> & Hl & Hop & Hnil & Hemp & _).
  pose proof (completed_fresh _ _ _ _ _ Hco Hfr) as Hfr1.
  destruct (park_recv_run m1 c1 A1 a (plain_waiter h (SlotRecv None)) None Hc1 Hfr1)
    as (q & m2 & Hp & Hc2 & Hpk); [done..|].
  rewrite (park_then _ _ _ _ _ _ _ Hp).
  eexists _, _, _, _, m2, (add_receiver a A1). do 2 (split; [done|]).
  split; [|simpl; by rewrite !app_nil_r].
  eapply (wf_add_receiver m1 m2 c1); eauto. rewrite Hnil. intros r Hin%not_elem_of_nil. done.
Qed.

(** ** A parking select *)

(** The channel is such that a case with this slot blocks. *)
Definition case_blocked A (sl : Slot V) : Prop :=
  a_closed A = false /\
  match sl with
  | SlotSend o => is_Some o /\ a_recv A = [] /\ length (a_buf A) = a_cap A
  | SlotRecv _ => a_send A = [] /\ a_buf A = []
  end.

(** [A'] differs from [A] by waiters that were dropped. *)
Definition shrunk A A' : Prop :=
  a_cap A' = a_cap A /\ a_buf A' = a_buf A /\ a_closed A' = a_closed A /\
  a_send A' ⊆ a_send A /\ a_recv A' ⊆ a_recv A.

Lemma shrunk_blocked A A' sl : shrunk A A' -> case_blocked A sl -> case_blocked A' sl.
Proof.
  intros (E1 & E2 & E3 & Hs & Hr) [Hop H]. split; [congruence|].
  destruct sl as [o|o]; rewrite E2.
  - destruct H as (? & H & ?). rewrite H in Hr. apply list_nil_subseteq in Hr. by rewrite E1.
  - destruct H as (H & ?). rewrite H in Hs. apply list_nil_subseteq in Hs. done.
Qed.

(** A blocked primitive claimed nobody and only dropped stale waiters. *)
Lemma case_try_blocked m c A sl c1 m1 :
  crep m c A -> wf m A -> case_try_status sl c m = Some ((kBlocked, c1), m1) ->
  exists A1, crep m1 c1 A1 /\ wf m1 A1 /\ shrunk A A1 /\ case_blocked A1 sl /\
    shared m1 = shared m /\ (forall a, nodes m !! a = None -> nodes m1 !! a = None).
Proof.
  intros Hc Hwf. destruct sl as [[v|]|o]; simpl; [|done|].
  - destruct (try_send_run m c A v Hc) as (st & wk & c' & m' & A1 & Hr & Habs & Hc1 & Hco).
    rewrite (st_bind_eq _ _ _ _ _ Hr). intros [= -> -> ->].
    destruct (abs_send_wf m m1 c A v kBlocked wk A1 (a_buf A) [] Hc Hwf)
      as (Hwf1 & _ & Hb); [by eapply completed_acq_le|done..|].
    destruct (Hb eq_refl) as (-> & Hop & Hnil & Hfull & Hs).
    exists A1. do 2 (split; [done|]). destruct Hco as [Ho _ _ Hsh _].
    assert (a_cap A1 = a_cap A /\ a_buf A1 = a_buf A /\ a_closed A1 = a_closed A)
      as (? & ? & ?).
    { unfold abs_send in Habs. destruct (a_closed A); [done|].
      destruct (drop_until _ _); [|done]. case_decide; [done|]. by simplify_eq. }
    repeat split; try done.
    + by rewrite Hs.
    + rewrite Hnil. apply list_subseteq_nil.
    + intros a Ha. specialize (Ho a ltac:(done)). rewrite Ha in Ho.
      by destruct (nodes m1 !! a).
  - destruct (try_recv_run m c A o Hc) as (st & res & wk & c' & m' & A1 & Hr & Habs & Hc1 & Hco).
    rewrite (st_bind_eq _ _ _ _ _ Hr). intros [= -> -> ->].
    destruct (abs_recv_wf m m1 c A o kBlocked res wk A1 (a_buf A) [] Hc Hwf)
      as (Hwf1 & Hb & _); [by eapply completed_acq_le|done..|].
    destruct (Hb eq_refl) as (-> & -> & Hl & Hop & Hnil & Hemp & Hs).
    exists A1. do 2 (split; [done|]). destruct Hco as [Ho _ _ Hsh _].
    assert (a_cap A1 = a_cap A /\ a_closed A1 = a_closed A) as [? ?].
    { unfold abs_recv in Habs. destruct (a_buf A); [|done].
      destruct (drop_until _ _); [|done]. destruct (a_closed A); by simplify_eq. }
    repeat split; try done.
    + rewrite Hnil. apply list_subseteq_nil.
    + by rewrite Hs.
    + intros a Ha. specialize (Ho a ltac:(done)). rewrite Ha in Ho.
      by destruct (nodes m1 !! a).
Qed.

Lemma shrunk_trans A1 A2 A3 : shrunk A1 A2 -> shrunk A2 A3 -> shrunk A1 A3.
Proof.
  intros (E1 & E2 & E3 & Hs & Hr) (F1 & F2 & F3 & Gs & Gr).
  repeat split; try congruence; by etrans.
Qed.

Lemma scan_blocked_inv cs : forall m c A c1 m1,
  crep m c A -> wf m A -> scan_blocked cs c m = Some ((true, c1), m1) ->
  exists A1, crep m1 c1 A1 /\ wf m1 A1 /\ shrunk A A1 /\
    (forall x, x ∈ cs -> case_blocked A1 x.2) /\
    shared m1 = shared m /\ (forall a, nodes m !! a = None -> nodes m1 !! a = None).
Proof.
  induction cs as [|[[a i] sl] cs IH]; intros m c A c1 m1 Hc Hwf; simpl.
  - intros [= -> ->]. exists A. do 3 (split; [done|]).
    split; [intros x Hx%not_elem_of_nil; done|done].
  - unfold st_bind. destruct (case_try_status sl c m) as [[[st c'] m']|] eqn:E; [|done].
    case_decide as Est; [subst st|done]. intros Hscan.
    destruct (case_try_blocked _ _ _ _ _ _ Hc Hwf E)
      as (A' & Hc' & Hwf' & Hsh & Hb & Hshared & Hfr).
    destruct (IH _ _ _ _ _ Hc' Hwf' Hscan) as (A1 & Hc1 & Hwf1 & Hsh1 & Hb1 & Hshared1 & Hfr1).
    exists A1. do 2 (split; [done|]). split; [by eapply shrunk_trans|]. split.
    + intros x [->|Hx]%elem_of_cons; [by eapply shrunk_blocked|auto].
    + split; [congruence|auto].
Qed.

(** Every waiter of [l] that can still be acquired belongs to select [s]. *)
Definition only_sel m (s : sel_id) l : Prop :=
  forall r, r ∈ l -> acquirable m r = true ->
    exists w, nodes m !! r = Some w /\ select_winner w = Some s.

(** A remaining case may be parked: its peers, if any, belong to the same select. *)
Definition case_ready m s A (sl : Slot V) : Prop :=
  a_closed A = false /\
  match sl with
  | SlotSend o => is_Some o /\ only_sel m s (a_recv A) /\ length (a_buf A) = a_cap A
  | SlotRecv _ => only_sel m s (a_send A) /\ a_buf A = []
  end.

Lemma only_sel_parked m m' s a w l :
  parked m m' a w -> a ∉ l -> only_sel m s l -> only_sel m' s l.
Proof.
  intros Hp Hn Ho r Hr Ha. assert (r <> a) as Hne by (intros ->; done).
  rewrite (parked_acq _ _ _ _ _ Hp Hne) in Ha. destruct (Ho r Hr Ha) as (x & Hx & Hs).
  destruct Hp as [_ Hpo _]. specialize (Hpo r Hne). rewrite Hx in Hpo.
  destruct (nodes m' !! r) as [y|]; [|done]. apply (inj Some), payload_sel in Hpo as (E & _).
  exists y. split; [done|congruence].
Qed.

Lemma only_sel_snoc m s l a w :
  only_sel m s l -> nodes m !! a = Some w -> select_winner w = Some s ->
  only_sel m s (l ++ [a]).
Proof. intros Ho Hw Hs r [->|Hr]%snoc_in Ha; eauto. Qed.

Lemma only_sel_same m s a w l r :
  only_sel m s l -> r ∈ l -> acquirable m r = true ->
  nodes m !! a = Some w -> select_winner w = Some s ->
  same_select m r a /\ same_select m a r.
Proof.
  intros Ho Hr Ha Hw Hs. destruct (Ho r Hr Ha) as (x & Hx & Hsx).
  split; eexists _, _, s; eauto.
Qed.

(** What the parked node [a] of select [s] means to the remaining cases. *)
Lemma ready_parked m m' s a w A A' sl :
  parked m m' a w -> select_winner w = Some s -> a ∉ a_send A -> a ∉ a_recv A ->
  a_closed A' = a_closed A -> a_cap A' = a_cap A -> a_buf A' = a_buf A ->
  a_send A' = a_send A \/ a_send A' = a_send A ++ [a] ->
  a_recv A' = a_recv A \/ a_recv A' = a_recv A ++ [a] ->
  case_ready m s A sl -> case_ready m' s A' sl.
Proof.
  intros Hp Hw Hns Hnr E1 E2 E3 Hs Hr [Hop H]. split; [congruence|].
  destruct (pk_node _ _ _ _ Hp) as (wa & Hwa & Hpa). apply payload_sel in Hpa as (Ea & _).
  assert (forall l l', a ∉ l -> l' = l \/ l' = l ++ [a] -> only_sel m s l -> only_sel m' s l')
    as Hl.
  { intros l l' Hn Hor Ho. apply (only_sel_parked m m' s a w) in Ho; [|done..].
    destruct Hor as [->| ->]; [done|]. eapply only_sel_snoc; eauto. congruence. }
  destruct sl as [o|o]; rewrite E3.
  - destruct H as (? & ? & ?). rewrite E2. eauto.
  - destruct H as (? & ?). eauto.
Qed.

Lemma case_enqueue_inv m c A s sh h a i sl :
  crep m c A -> wf m A -> nodes m !! a = None -> shared m !! s = Some sh ->
  case_ready m s A sl ->
  exists c' m' A', (forall {Y} (k : Channel V -> ST (Mem V) Y),
      (alloc_node a (init_waiter s i h sl);;;
       match sl with
       | SlotSend _ => q <-- push_back a (senders c); k (set_lists q (receivers c) c)
       | SlotRecv _ => q <-- push_back a (receivers c); k (set_lists (senders c) q c)
       end) m = k c' m') /\
    crep m' c' A' /\ wf m' A' /\ a_buf A' = a_buf A /\
    parked m m' a (init_waiter s i h sl) /\
    forall sl', case_ready m s A sl' -> case_ready m' s A' sl'.
Proof.
  intros Hc Hwf Hfr Hsh Hready. set (w := init_waiter s i h sl).
  destruct (fresh_not_parked _ _ _ _ Hc Hfr) as [Hns Hnr].
  assert (Hpb : parkable m w). { split; [|done]. intros t [= <-]. eauto. }
  destruct Hready as [Hop Hready]. destruct sl as [o|o].
  - destruct Hready as ([v ->] & Ho & Hfull).
    destruct (park_send_run m c A a w v Hc Hfr Hpb eq_refl) as (q & m' & Hr & Hc' & Hp).
    exists (set_lists q (receivers c) c), m', (add_sender a A).
    split; [intros Y k; by rewrite (park_then _ _ _ _ _ _ _ Hr)|]. split; [done|].
    destruct (pk_node _ _ _ _ Hp) as (wa & Hwa & Hpa). apply payload_sel in Hpa as (Ea & _).
    split; [|split; [done|split; [done|]]].
    + eapply (wf_add_sender m m' c); eauto. intros r Hin Ha.
      assert (r <> a) by (intros ->; done).
      apply (only_sel_parked m m' s a w) in Ho; [|done..].
      rewrite <- (parked_acq _ _ _ _ _ Hp) in Ha by done.
      eapply (only_sel_same m' s a wa); eauto.
    + intros sl' Hrd. eapply (ready_parked m m' s a w A); eauto.
  - destruct Hready as (Ho & Hemp).
    destruct (park_recv_run m c A a w o Hc Hfr Hpb eq_refl) as (q & m' & Hr & Hc' & Hp).
    exists (set_lists (senders c) q c), m', (add_receiver a A).
    split; [intros Y k; by rewrite (park_then _ _ _ _ _ _ _ Hr)|]. split; [done|].
    destruct (pk_node _ _ _ _ Hp) as (wa & Hwa & Hpa). apply payload_sel in Hpa as (Ea & _).
    split; [|split; [done|split; [done|]]].
    + eapply (wf_add_receiver m m' c); eauto. intros r Hin Ha.
      assert (r <> a) by (intros ->; done).
      apply (only_sel_parked m m' s a w) in Ho; [|done..].
      rewrite <- (parked_acq _ _ _ _ _ Hp) in Ha by done.
      eapply (only_sel_same m' s a wa); eauto.
    + intros sl' Hrd. eapply (ready_parked m m' s a w A); eauto.
Qed.

Lemma enqueue_cases_inv s h cs : forall m c A sh,
  crep m c A -> wf m A -> shared m !! s = Some sh ->
  NoDup (map (fun x => x.1.1) cs) -> (forall x, x ∈ cs -> nodes m !! x.1.1 = None) ->
  (forall x, x ∈ cs -> case_ready m s A x.2) ->
  exists c' m' A', enqueue_cases s h cs c m = Some (c', m') /\
    crep m' c' A' /\ wf m' A' /\ a_buf A' = a_buf A.
Proof.
  induction cs as [|[[a i] sl] cs IH]; intros m c A sh Hc Hwf Hsh Hnd Hfr Hrd.
  { exists c, m, A. done. }
  assert (Ha : nodes m !! a = None) by (apply (Hfr (a, i, sl)); left).
  assert (Hr : case_ready m s A sl) by (apply (Hrd (a, i, sl)); left).
  destruct (case_enqueue_inv m c A s sh h a i sl Hc Hwf Ha Hsh Hr)
    as (c1 & m1 & A1 & Hrun & Hc1 & Hwf1 & Hb1 & Hp & Hnext).
  simpl. rewrite (Hrun _ (enqueue_cases s h cs)).
  apply NoDup_cons in Hnd as [Hnin Hnd].
  destruct (IH m1 c1 A1 sh Hc1 Hwf1) as (c' & m' & A' & Hrun' & Hc' & Hwf' & Hb').
  - by rewrite (pk_shared _ _ _ _ Hp).
  - done.
  - intros x Hx. assert (x.1.1 <> a) as Hne.
    { intros E. apply Hnin. simpl. rewrite <- E. apply list_elem_of_fmap. eauto. }
    pose proof (pk_other _ _ _ _ Hp _ Hne) as Ho.
    rewrite (Hfr x ltac:(by right)) in Ho. by destruct (nodes m1 !! x.1.1).
  - intros x Hx. apply Hnext, Hrd. by right.
  - exists c', m', A'. rewrite Hb', Hb1. done.
Qed.

(** ** Changes of the select states *)

(** Rebuilds the invariant when only select states changed, none of them back
    to unclaimed. *)
Lemma crep_shared m m' c A :
  crep m c A -> nodes m' = nodes m ->
  (forall s, is_Some (shared m !! s) -> is_Some (shared m' !! s)) -> crep m' c A.
Proof.
  intros [Hcap Hclosed Hring Hsend Hrecv Hdisj Hsel Hphase Hval Hrcv] En Hdom.
  assert (forall q l, dll m q l -> dll m' q l) as Hdll.
  { intros q l (H1 & H2 & H3 & H4). do 3 (split; [done|]).
    intros i a Ha. destruct (H4 i a Ha) as (w & Hw & Hr). exists w. by rewrite En. }
  split; auto.
  - intros a w s Ha Hw Hs. rewrite En in Hw. apply Hdom. by eapply Hsel.
  - intros a w Ha Hw. rewrite En in Hw. eauto.
  - intros a Ha. unfold parked_value. rewrite En. by apply Hval.
  - intros a Ha. unfold is_receiver. rewrite En. by apply Hrcv.
Qed.

Lemma wf_shared m m' c A :
  crep m c A -> wf m A -> nodes m' = nodes m ->
  (forall s sh', is_Some (shared m !! s) -> shared m' !! s = Some sh' ->
     winner sh' = kNoWinner ->
     exists sh, shared m !! s = Some sh /\ winner sh = kNoWinner) ->
  wf m' A.
Proof.
  intros Hc Hwf En Hs. eapply (wf_le m); eauto; try apply Hwf.
  intros b Hb Ha. split.
  - unfold acquirable in *. rewrite En in Ha.
    destruct (nodes m !! b) as [w|] eqn:Ew; [|done].
    destruct (select_winner w) as [s|] eqn:Es; [|done].
    destruct (shared m' !! s) as [sh'|] eqn:Esh; [|done].
    apply bool_decide_eq_true in Ha.
    destruct (Hs s sh' (cr_sel _ _ _ Hc b w s Hb Ew Es) Esh Ha) as (sh & -> & Hw).
    by apply bool_decide_eq_true.
  - intros w'. rewrite En. eauto.
Qed.

(** Waking changes phases and the dispatch log only. *)
Lemma wake_effect (k : bool) m m' a :
  (if k then wake_handoff a else wake a) m = Some (tt, m') ->
  nodes m' = nodes m /\
  forall s, (fun sh => winner sh) <$> (shared m' !! s) = (fun sh => winner sh) <$> (shared m !! s).
Proof.
  assert (forall m1 o, take_resume_ownership a m = Some (o, m1) -> nodes m1 = nodes m /\
    forall s, (fun sh => winner sh) <$> (shared m1 !! s)
      = (fun sh => winner sh) <$> (shared m !! s)) as Ht.
  { intros m1 o. unfold take_resume_ownership, upd_shared, get_shared, get_node, st_bind,
      st_lift, st_ret, st_modify.
    destruct (nodes m !! a) as [w|]; [|done].
    destruct (select_phase w) as [s|]; [|by intros [= <- <-]].
    destruct (shared m !! s) as [sh|] eqn:E; [|done]. simpl. rewrite E. intros [= <- <-]. split; [done|].
    intros t. simpl. destruct (decide (s = t)) as [->|].
    - by rewrite lookup_insert_eq, E.
    - by rewrite lookup_insert_ne. }
  destruct k; unfold wake, wake_handoff, st_bind;
    (destruct (take_resume_ownership a m) as [[o m1]|]; [|done]);
    destruct (Ht m1 o eq_refl) as [En Es]; (destruct o; simpl;
    [unfold get_node, st_lift, dispatch, st_modify;
     (destruct (nodes m1 !! a); [|done]); intros [= <-]; done
    |intros [= <-]; done]).
Qed.

(** ** The invariant holds in every reachable state *)

Lemma inv_wake (k : bool) m m' c A a :
  crep m c A -> wf m A -> (if k then wake_handoff a else wake a) m = Some (tt, m') ->
  crep m' c A /\ wf m' A.
Proof.
  intros Hc Hwf Hw. destruct (wake_effect k _ _ _ Hw) as [En Es].
  assert (forall s, is_Some (shared m !! s) -> is_Some (shared m' !! s)) as Hdom.
  { intros s [sh Hsh]. specialize (Es s). rewrite Hsh in Es.
    destruct (shared m' !! s); [eauto|done]. }
  split; [by eapply crep_shared|]. eapply wf_shared; eauto.
  intros s sh' [sh Hsh] Hsh' Hwin. specialize (Es s). rewrite Hsh, Hsh' in Es.
  exists sh. split; [done|]. simpl in Es. congruence.
Qed.

Lemma inv_shared_insert m c A s sh i ph :
  crep m c A -> wf m A -> shared m !! s = Some sh ->
  (i = kNoWinner -> winner sh = kNoWinner) ->
  crep (with_shared <[s := mkShared i ph (sel_handle sh)]> m) c A /\
  wf (with_shared <[s := mkShared i ph (sel_handle sh)]> m) A.
Proof.
  intros Hc Hwf Hsh Hi. split.
  - eapply crep_shared; eauto. simpl. intros t Ht. destruct (decide (s = t)) as [->|].
    + rewrite lookup_insert_eq. eauto.
    + by rewrite lookup_insert_ne.
  - eapply wf_shared; eauto. simpl. intros t sh' Ht Hsh' Hw.
    destruct (decide (s = t)) as [->|].
    + rewrite lookup_insert_eq in Hsh'. injection Hsh' as <-. eauto.
    + rewrite lookup_insert_ne in Hsh' by done. eauto.
Qed.

Lemma inv_select_park m c A s h cs c1 m1 c' m' :
  crep m c A -> wf m A -> shared m !! s = None ->
  NoDup (map (fun x => x.1.1) cs) -> (forall x, x ∈ cs -> nodes m !! x.1.1 = None) ->
  scan_blocked cs c (with_shared <[s := mkShared kNoWinner kSelectSetup h]> m)
    = Some ((true, c1), m1) ->
  enqueue_cases s h cs c1 m1 = Some (c', m') ->
  exists A', crep m' c' A' /\ wf m' A' /\ a_buf A' = a_buf A.
Proof.
  intros Hc Hwf Hs Hnd Hfr Hscan Henq. set (m0 := with_shared _ m) in *.
  assert (Hc0 : crep m0 c A).
  { eapply crep_shared; eauto. simpl. intros t Ht. destruct (decide (s = t)) as [->|].
    - rewrite lookup_insert_eq. eauto.
    - by rewrite lookup_insert_ne. }
  assert (Hwf0 : wf m0 A).
  { eapply (wf_shared m m0 c); eauto. simpl. intros t sh' [sh Hsh] Hsh' Hw.
    rewrite lookup_insert_ne in Hsh' by congruence. eauto. }
  destruct (scan_blocked_inv _ _ _ _ _ _ Hc0 Hwf0 Hscan)
    as (A1 & Hc1 & Hwf1 & (_ & Eb & _) & Hb & Hsh1 & Hfr1).
  destruct (enqueue_cases_inv s h cs m1 c1 A1 (mkShared kNoWinner kSelectSetup h))
    as (c2 & m2 & A2 & Hrun & Hc2 & Hwf2 & Eb2); auto.
  - rewrite Hsh1. simpl. by rewrite lookup_insert_eq.
  - intros x Hx. destruct (Hb x Hx) as [Hop Hbl]. split; [done|].
    destruct (x.2) as [o|o].
    + destruct Hbl as (? & -> & ?). split; [done|]. split; [|done].
      intros r Hr%not_elem_of_nil. done.
    + destruct Hbl as (-> & ?). split; [|done]. intros r Hr%not_elem_of_nil. done.
  - rewrite Hrun in Henq. injection Henq as <- <-. exists A2. by rewrite Eb2.
Qed.

(** Retracting a node drops it from its list or does nothing. *)
Lemma retract_frame m q q' l m' a :
  dll m q l -> parked_only_on m q a -> remove a q m = Some (q', m') ->
  exists l', dll m' q' l' /\ l' ⊆ l /\ lframe l m m' /\ shared m' = shared m.
Proof.
  intros Hd Hpo Hr. destruct (Hpo l Hd) as [Hin|(w & Hw & Hq)].
  - apply list_elem_of_split in Hin as (l1 & l2 & ->).
    destruct (remove_dll _ _ _ _ _ Hd) as (q2 & m2 & Hr2 & Hd2 & Hf & Hs & _).
    rewrite Hr in Hr2. injection Hr2 as <- <-. exists (l1 ++ l2). split; [done|]. split; [|done].
    intros x [Hx|Hx]%elem_of_app; apply elem_of_app; [by left|right; by right].
  - rewrite (remove_not_queued _ _ _ _ Hw Hq) in Hr. injection Hr as <- <-.
    exists l. split; [done|]. split; [done|]. split; [apply lframe_refl|done].
Qed.

Lemma inv_retract m c A ls lr qs qr m' :
  crep m c A -> wf m A ->
  dll m' qs ls -> ls ⊆ a_send A -> dll m' qr lr -> lr ⊆ a_recv A ->
  (exists l, lframe l m m') -> shared m' = shared m ->
  exists A', crep m' (set_lists qs qr c) A' /\ wf m' A' /\ a_buf A' = a_buf A.
Proof.
  intros Hc Hwf Hds Hs Hdr Hr [l Hf] Hsh.
  pose proof (lframe_completed l m m' (SlotSend None) true Hf Hsh) as Hco.
  exists (mkAChan (a_cap A) (a_buf A) (a_closed A) ls lr).
  split; [|split; [|done]].
  - eapply (crep_completed m m' c _ A); eauto; simpl; try apply Hc; try done.
    apply ring_set_lists, Hc.
  - eapply (wf_le m); eauto; simpl; try done.
    + by eapply completed_acq_le.
    + intros Hcl. destruct (wf_closed _ _ Hwf Hcl) as [E1 E2]. rewrite E1 in Hs. rewrite E2 in Hr.
      by apply list_nil_subseteq in Hs as ->; apply list_nil_subseteq in Hr as ->.
    + intros r Hin. apply (wf_recv _ _ Hwf). auto.
    + intros r Hin. apply (wf_send _ _ Hwf). auto.
Qed.

Lemma step_invariant s s' : inv s -> chan_step s s' -> inv s'.
Proof.
  intros (A & Hc & Hwf & Hlog) Hst. destruct Hst; simpl in Hc, Hwf, Hlog; unfold inv; simpl.
  - destruct (send_cs_inv m c A a h v acc del Hc Hwf)
      as (st' & wk' & c2 & m2 & A2 & Hr & Hc2 & Hwf2 & Hl); [done..|].
    match goal with H : _ = Some (_, m') |- _ =>
      rewrite Hr in H; injection H as -> -> -> -> end. exists A2. done.
  - destruct (try_send_run m c A v Hc) as (st' & wk' & c2 & m2 & A2 & Hr & Habs & Hc2 & Hco).
    match goal with H : _ = Some (_, m') |- _ =>
      rewrite Hr in H; injection H as -> -> -> -> end. exists A2. split; [done|].
    destruct (abs_send_wf m m' c A v st wk A2 acc del Hc Hwf) as (? & ? & _);
      [by eapply completed_acq_le|done..|]. done.
  - destruct (recv_cs_inv m c A a h acc del Hc Hwf)
      as (st' & res' & wk' & c2 & m2 & A2 & Hr & Hc2 & Hwf2 & Hl); [done..|].
    match goal with H : _ = Some (_, m') |- _ =>
      rewrite Hr in H; injection H as -> -> -> -> -> end. exists A2. done.
  - destruct (try_recv_run m c A None Hc)
      as (st' & res' & wk' & c2 & m2 & A2 & Hr & Habs & Hc2 & Hco).
    match goal with H : _ = Some (_, m') |- _ =>
      rewrite Hr in H; injection H as -> -> -> -> -> end. exists A2. split; [done|].
    destruct (abs_recv_wf m m' c A None st res wk A2 acc del Hc Hwf) as (? & Hb & Hnb);
      [by eapply completed_acq_le|done..|]. split; [done|].
    destruct (decide (st = kBlocked)) as [Est|Est]; [|auto].
    destruct (Hb Est) as (-> & -> & ? & _). simpl. by rewrite !app_nil_r.
  - destruct (try_recv_now_run m c A None Hc)
      as (st' & res' & wk' & c2 & m2 & A2 & Hr & Habs & Hc2 & Hco).
    match goal with H : _ = Some (_, m') |- _ =>
      rewrite Hr in H; injection H as -> -> -> -> -> end. exists A2. split; [done|].
    destruct (abs_recv_wf m m' c A None st res wk A2 acc del Hc Hwf) as (? & Hb & Hnb);
      [by eapply completed_acq_le|done..|]. split; [done|].
    destruct (decide (st = kBlocked)) as [Est|Est]; [|auto].
    destruct (Hb Est) as (-> & -> & ? & _). simpl. by rewrite !app_nil_r.
  - destruct (a_closed A) eqn:Ecl.
    + match goal with H : close_locked _ _ = _ |- _ => unfold close_locked in H;
        rewrite (cr_closed _ _ _ Hc), Ecl in H; injection H as <- <- <- end.
      exists A. done.
    + destruct (close_locked_run m c A Hc Ecl) as (c2 & wl2 & m2 & Hr & Hc2 & _).
      match goal with H : close_locked _ _ = _ |- _ =>
        rewrite Hr in H; injection H as -> -> -> end. exists (abs_close A). split; [done|]. split; [|done].
      split; simpl; try done;
        [intros ? Hin%not_elem_of_nil|intros ? Hin%not_elem_of_nil|
         intros ? ? Hin%not_elem_of_nil]; done.
  - exists A. split; [|split; [|done]]; eapply inv_wake; eauto.
  - destruct (inv_select_park m c A s h cs c1 m1 c' m' Hc Hwf) as (A2 & ? & ? & E); [done..|].
    exists A2. rewrite E. done.
  - exists A. destruct (inv_shared_insert m c A s sh i (phase sh) Hc Hwf); done.
  - exists A. destruct (inv_shared_insert m c A s sh (winner sh) ph Hc Hwf); done.
  - destruct (retract_frame m (receivers c) q (a_recv A) m' a) as (l' & Hd & Hs & Hf & Hsh);
      [apply Hc|done..|].
    destruct (inv_retract m c A (a_send A) l' (senders c) q m' Hc Hwf)
      as (A2 & ? & ? & E); [|done..| | |exists A2; by rewrite E]; [|eauto|done].
    eapply dll_out; [done| |apply Hc]. intros b Hb Hb'. by apply (cr_disj _ _ _ Hc b).
  - destruct (retract_frame m (senders c) q (a_send A) m' a) as (l' & Hd & Hs & Hf & Hsh);
      [apply Hc|done..|].
    destruct (inv_retract m c A l' (a_recv A) q (receivers c) m' Hc Hwf)
      as (A2 & ? & ? & E); [done|done| |done|eauto|done|exists A2; by rewrite E].
    eapply dll_out; [done| |apply Hc]. intros b Hb Hb'. by apply (cr_disj _ _ _ Hc b).
Qed.

End ChanSystem.
