(* ===== verification/ChanProps.v ===== *)
(** * What the channel promises

    The correctness theorems of [Channel<T>]: its lists, its locked primitives
    against the abstract channel, [close], and what every interleaving keeps. *)

From S2P Require Import Prelude Result Chan ChanList ChanSpec ChanClose ChanSystem.

Set Default Proof Using "Type".

Section ChanProps.
  Context {V : Type}.
  Implicit Types (m : Mem V) (w : ChanWaiter V) (c : Channel V) (a b : addr)
    (l : list addr) (v : V) (A : AChan V).

(** The cells that [~Channel] destroys: the buffered values, oldest first. *)
Definition ring_contents c : list V :=
  omap (fun i => default None (buffer_ c !! Init.Nat.modulo (recv_index c + i) (capacity c)))
    (seq 0 (count c)).

Lemma omap_fmap {X Y Z} (g : X -> Y) (f : Y -> option Z) (l : list X) :
  omap f (g <$> l) = omap (fun x => f (g x)) l.
Proof.
  induction l as [|x l IH]; [done|]. simpl. unfold omap, fmap in IH.
  by destruct (f (g x)); rewrite IH.
Qed.

Lemma omap_seq_lookup (f : nat -> option V) (n : nat) (l : list V) :
  length l = n -> (forall i, i < n -> f i = l !! i) -> omap f (seq 0 n) = l.
Proof.
  revert f l. induction n as [|n IH]; intros f l Hl Hf.
  - by destruct l.
  - destruct l as [|x l]; [done|]. rewrite <- cons_seq, <- fmap_S_seq.
    pose proof (omap_fmap S f (seq 0 n)) as E. unfold omap, fmap in *. simpl.
    rewrite (Hf 0) by lia. simpl. f_equal. rewrite E. apply IH; [by injection Hl|].
    intros i Hi. apply (Hf (S i)). lia.
Qed.

Lemma ring_contents_eq c (buf : list V) : ring c buf -> ring_contents c = buf.
Proof.
  intros [H1 H2 H3 H4 H5 H6]. unfold ring_contents. rewrite H2.
  apply omap_seq_lookup; [done|]. intros i Hi.
  assert (Init.Nat.modulo (recv_index c + i) (capacity c) = cell (capacity c) (recv_index c) i)
    as ->.
  { unfold cell. case_decide.
    - by apply Nat.mod_small.
    - replace (recv_index c + i) with (recv_index c + i - capacity c + 1 * capacity c) by lia.
      rewrite Nat.Div0.mod_add, Nat.mod_small; lia. }
  rewrite H6 by lia. done.
Qed.

Definition no_waiters : Mem V := mkMem ∅ ∅ [].
Definition abs_init (cap : nat) : AChan V := mkAChan cap [] false [] [].

Lemma dll_empty m : dll m empty_list [].
Proof. by apply dll_nil. Qed.

Lemma crep_init sz cap c : create sz cap = Some c -> crep no_waiters c (abs_init cap).
Proof.
  unfold create. case_decide; [done|]. intros [= <-].
  assert (forall (P : addr -> Prop) a, a ∈ @nil addr -> P a) as Hno.
  { intros P a Ha%not_elem_of_nil. done. }
  split; simpl; try done; try apply dll_empty; try (intros a Ha; by apply not_elem_of_nil in Ha).
  split; simpl; try lia.
  - by rewrite length_replicate.
  - unfold cell. case_decide; lia.
  - intros i Hi. rewrite lookup_nil. apply lookup_replicate_2.
    unfold cell. case_decide; lia.
Qed.

Lemma inv_init (s : Sys (V := V)) : chan_init s -> inv s.
Proof.
  intros (sz & cap & Hc & ->). exists (abs_init cap). simpl.
  split; [by eapply crep_init|]. split; [|done].
  split; simpl; try done; intros ? Ha; try (intros ? Hb); by apply not_elem_of_nil in Ha.
Qed.

Lemma inv_reachable (s : Sys (V := V)) : reachable chan_init chan_step s -> inv s.
Proof.
  apply (reachable_invariant inv); [apply inv_init|].
  intros s1 s2 _. apply step_invariant.
Qed.

(** A parked plain sender or receiver keeps the representation. *)
Lemma crep_one_receiver sz cap c a (h : nat) :
  create sz cap = Some c ->
  exists q m', crep m' (set_lists (senders c) q c) (add_receiver a (abs_init cap)) /\
    is_plain m' a.
Proof.
  intros Hc. pose proof (crep_init _ _ _ Hc) as Hr.
  destruct (park_recv_run no_waiters c _ a (plain_waiter h (SlotRecv None)) None Hr)
    as (q & m' & _ & Hr' & Hp); [done..|].
  exists q, m'. split; [done|]. destruct (pk_node _ _ _ _ Hp) as (w & Hw & E).
  apply payload_sel in E as (E1 & _ & _ & _ & E2 & _). exists w. done.
Qed.

(** ** The waiter lists *)

(** On a well-formed intrusive list, [push_back] appends, [pop_front]
    detaches the oldest waiter and [remove] unlinks any waiter wherever it
    stands; the links of the remaining waiters stay a doubly linked list in the
    same order, no waiter's payload changes, and removing a waiter that is not
    queued does nothing. *)
Theorem waiter_list_refines_queue m q l :
  dll m q l ->
  (forall a w, a ∉ l -> nodes m !! a = Some w ->
     exists q' m', push_back a q m = Some (q', m') /\ dll m' q' (l ++ [a]) /\
       lframe (a :: l) m m') /\
  (exists q' m', pop_front q m = Some ((head l, q'), m') /\ dll m' q' (tail l) /\
     lframe l m m' /\ list_empty q = bool_decide (l = [])) /\
  (forall l1 a l2, l = l1 ++ a :: l2 ->
     exists q' m', remove a q m = Some (q', m') /\ dll m' q' (l1 ++ l2) /\
       lframe l m m' /\ remove a q' m' = Some (q', m')) /\
  (forall a w, nodes m !! a = Some w -> queued w = false -> remove a q m = Some (q, m)).
Proof.
  intros Hd. split; [|split; [|split]].
  - intros a w Hn Hw. destruct (push_back_dll m q l a w Hd Hn Hw) as (q' & m' & ? & ? & ? & _).
    by exists q', m'.
  - unfold list_empty. destruct l as [|a l].
    + pose proof Hd as ->%dll_nil. exists empty_list, m. split; [done|]. split; [done|].
      split; [apply lframe_refl|done].
    + destruct (pop_front_cons _ _ _ _ Hd) as (q' & m' & ? & ? & ? & _).
      destruct (dll_head _ _ _ _ Hd) as [-> _]. by exists q', m'.
  - intros l1 a l2 ->. destruct (remove_dll _ _ _ _ _ Hd) as (q' & m' & ? & ? & ? & _ & w & ? & ?).
    exists q', m'. do 3 (split; [done|]). by eapply remove_not_queued.
  - intros a w. apply remove_not_queued.
Qed.

(** ** The locked primitives *)

(** C10: Under the channel's lock the operations are those of the abstract
    channel. A send hands its value to the first acquirable receiver, else buffers
    it when there is room, else reports [kClosed] or [kBlocked]. A receive takes
    the oldest buffered value and refills the ring from the first acquirable
    sender; on an empty buffer it takes that sender's value directly; with neither
    it reports [kClosed] or [kBlocked]. Each claims and completes at most that one
    waiter. *)
Theorem locked_operations_refine m c A v out :
  crep m c A ->
  (exists st wk c' m' A', try_send_locked v c m = Some ((st, wk, c'), m') /\
    abs_send (acquirable m) v A = (st, wk, A') /\ crep m' c' A' /\
    completed m m' wk (SlotRecv (Some v)) true) /\
  (exists st res wk c' m' A', try_recv_locked out c m = Some ((st, res, wk, c'), m') /\
    abs_recv (acquirable m) (parked_value m) out A = (st, res, wk, A') /\
    crep m' c' A' /\ completed m m' wk (SlotSend None) true).
Proof. intros Hc. split; [by apply try_send_run|by apply try_recv_run]. Qed.

(** The fast path of [try_recv] is the general receive: with no sender
    queued it returns the same status, value and waiter to wake, and the channel
    it leaves represents the same abstract channel. *)
Theorem try_recv_now_equivalent m c A out :
  crep m c A ->
  exists st res wk c1 m1 c2 m2 A',
    try_recv_now_locked out c m = Some ((st, res, wk, c1), m1) /\
    try_recv_locked out c m = Some ((st, res, wk, c2), m2) /\
    crep m1 c1 A' /\ crep m2 c2 A'.
Proof.
  intros Hc.
  destruct (try_recv_now_run m c A out Hc) as (st & res & wk & c1 & m1 & A1 & H1 & Ha1 & Hr1 & _).
  destruct (try_recv_run m c A out Hc) as (st2 & res2 & wk2 & c2 & m2 & A2 & H2 & Ha2 & Hr2 & _).
  rewrite Ha1 in Ha2. injection Ha2 as <- <- <- <-. by exists st, res, wk, c1, m1, c2, m2, A1.
Qed.

(** Closing an open channel whose waiters are plain empties both lists and
    dispatches every parked task exactly once, senders before receivers and each
    list newest first, with its waiter marked failed; the buffered values stay,
    and closing again changes nothing. *)
Theorem close_wakes_every_waiter m c A :
  crep m c A -> a_closed A = false ->
  (forall a, a ∈ a_send A ++ a_recv A -> is_plain m a) ->
  exists c' m', close c m = Some (c', m') /\ crep m' c' (abs_close A) /\
    dispatched m' = dispatched m ++
      map (fun a => DispatchCompletion (handle_of m a)) (reverse (a_send A) ++ reverse (a_recv A)) /\
    (forall a, a ∈ a_send A ++ a_recv A ->
       exists w, nodes m' !! a = Some w /\ success w = false /\ queued w = false) /\
    close c' m' = Some (c', m').
Proof.
  intros Hc Hcl Hp. destruct (close_plain_run m c A Hc Hcl Hp) as (c' & m' & H1 & H2 & H3 & H4).
  exists c', m'. do 4 (split; [done|]). unfold close, close_locked.
  by rewrite (cr_closed _ _ _ H2).
Qed.

(** ** Every interleaving *)

(** C8: In every reachable state of a channel, under any interleaving of sends,
    receives, selects that park and retract, claims made elsewhere, closes and
    late wakes, no waiter sleeps beside an operation it could complete: a parked
    receiver that can still be claimed sees an empty buffer, such a sender a full
    one, a claimable sender and receiver coexist only inside one select, and a
    closed channel has no parked waiter at all. *)
Theorem no_lost_wakeup (s : Sys (V := V)) :
  reachable chan_init chan_step s ->
  exists A, crep (mem s) (ch s) A /\ wf (mem s) A.
Proof. intros (A & Hc & Hwf & _)%inv_reachable. eauto. Qed.

(** C9: Nothing is lost, duplicated or reordered: in every reachable state the
    values accepted from completed senders are, in order, those delivered to
    receivers followed by those the destructor would find in the ring, and these
    never exceed the capacity. *)
Theorem channel_fifo (s : Sys (V := V)) :
  reachable chan_init chan_step s ->
  accepted s = delivered s ++ ring_contents (ch s) /\
  length (ring_contents (ch s)) = count (ch s) /\ count (ch s) <= capacity (ch s).
Proof.
  intros (A & Hc & _ & Hlog)%inv_reachable. pose proof (cr_ring _ _ _ Hc) as Hr.
  rewrite (ring_contents_eq _ _ Hr), (ring_count _ _ Hr). split; [done|]. split; [done|].
  by destruct Hr.
Qed.

End ChanProps.

(** ** Witnesses *)

Definition chan0 : Channel nat := mkChannel 1 0 0 0 false empty_list empty_list [None].

Lemma chan0_create : create 8 1 = Some chan0.
Proof. by vm_compute. Qed.

Lemma crep_chan0 : crep no_waiters chan0 (abs_init 1).
Proof. eapply crep_init, chan0_create. Qed.

(** [chan0] with one parked receiver. *)
Definition mem1 : Mem nat :=
  mkMem {[ 1 := set_queued true (plain_waiter 7 (SlotRecv None)) ]} ∅ [].
Definition chan1 : Channel nat :=
  set_lists empty_list (mkList (Some 1) (Some 1)) chan0.
Definition abs1 : AChan nat := mkAChan 1 [] false [] [1].

Lemma crep_chan1 : crep mem1 chan1 abs1.
Proof.
  destruct (crep_one_receiver 8 1 chan0 1 7 chan0_create) as (q & m' & Hr & _).
  destruct (park_recv_run no_waiters chan0 _ 1 (plain_waiter 7 (SlotRecv None)) None crep_chan0)
    as (q2 & m2 & Hrun & Hr2 & _); [done..|].
  vm_compute in Hrun. injection Hrun as <- <-. exact Hr2.
Qed.

Lemma chan1_plain a : a ∈ a_send abs1 ++ a_recv abs1 -> is_plain mem1 a.
Proof. intros ->%list_elem_of_singleton. by eexists. Qed.

Lemma waiter_list_refines_queue_witness :
  dll mem1 (receivers chan1) [1] /\
  exists q' m', remove 1 (receivers chan1) mem1 = Some (q', m') /\ dll m' q' [].
Proof.
  split; [exact (cr_recv _ _ _ crep_chan1)|].
  destruct (waiter_list_refines_queue _ _ _ (cr_recv _ _ _ crep_chan1)) as (_ & _ & H & _).
  destruct (H [] 1 [] eq_refl) as (q' & m' & ? & ? & _). by exists q', m'.
Defined.

Lemma locked_operations_refine_witness :
  crep mem1 chan1 abs1 /\
  exists c' m', try_send_locked 5 chan1 mem1 = Some ((kDone, Some 1, c'), m').
Proof.
  split; [exact crep_chan1|].
  destruct (locked_operations_refine mem1 chan1 abs1 5 None crep_chan1) as [(st & wk & c' & m' & A' & Hr & Ha & _) _].
  vm_compute in Ha. injection Ha as <- <- _. by exists c', m'.
Defined.

Lemma try_recv_now_equivalent_witness :
  crep mem1 chan1 abs1 /\
  exists st res wk c1 m1 c2 m2,
    try_recv_now_locked None chan1 mem1 = Some ((st, res, wk, c1), m1) /\
    try_recv_locked None chan1 mem1 = Some ((st, res, wk, c2), m2).
Proof.
  split; [exact crep_chan1|].
  destruct (try_recv_now_equivalent mem1 chan1 abs1 None crep_chan1)
    as (st & res & wk & c1 & m1 & c2 & m2 & A' & H1 & H2 & _).
  by exists st, res, wk, c1, m1, c2, m2.
Defined.

Lemma close_wakes_every_waiter_witness :
  crep mem1 chan1 abs1 /\
  exists c' m', close chan1 mem1 = Some (c', m') /\ dispatched m' = [DispatchCompletion 7].
Proof.
  split; [exact crep_chan1|].
  destruct (close_wakes_every_waiter mem1 chan1 abs1 crep_chan1 eq_refl chan1_plain)
    as (c' & m' & Hr & _ & Hd & _).
  exists c', m'. split; [exact Hr|exact Hd].
Defined.

(** A send into the ring, as a run of the transition system. *)
Definition sys0 : Sys (V := nat) := mkSys chan0 no_waiters [] [] [].
Definition sys1 : Sys (V := nat) :=
  mkSys (mkChannel 1 1 0 0 false empty_list empty_list [Some 9]) no_waiters [] [9] [].

Lemma reachable_sys1 : reachable chan_init chan_step sys1.
Proof.
  apply (reachable_step _ _ sys0).
  - apply reachable_init. exists 8%Z, 1. split; [apply chan0_create|done].
  - apply (step_try_send chan0 no_waiters [] [] [] 9 kDone None _ no_waiters true).
    by vm_compute.
Qed.

Lemma no_lost_wakeup_witness :
  reachable chan_init chan_step sys1 /\
  exists A, crep (mem sys1) (ch sys1) A /\ wf (mem sys1) A.
Proof. split; [exact reachable_sys1|exact (no_lost_wakeup sys1 reachable_sys1)]. Defined.

Lemma channel_fifo_witness :
  reachable chan_init chan_step sys1 /\ accepted sys1 = delivered sys1 ++ ring_contents (ch sys1).
Proof.
  split; [exact reachable_sys1|]. by destruct (channel_fifo sys1 reachable_sys1) as [H _].
Defined.
