(* ===== verification/Select.v ===== *)
(** * Select (include/cio/select.hpp)

    Poll orders, the lock order over the channels, the ready scan, the
    publication of the waiters, the timer and phase handshake, and the
    retraction of the losing cases. The channels of one select live in one
    store of waiter nodes. *)

From S2P Require Import Prelude Result Chan ChanList ChanSpec ChanSystem.

Set Default Proof Using "Type".

(** ** Poll orders *)

(** The xorshift generator; [state] is the thread's 64-bit word. *)
Definition select_rand (state : Z) (n : Z) : Z * Z :=
  let state := Z.lxor state (u64 (Z.shiftl state 13)) in
  let state := Z.lxor state (Z.shiftr state 7) in
  let state := Z.lxor state (u64 (Z.shiftl state 17)) in
  (if decide (n = 0)%Z then 0%Z else (Z.shiftr state 33 mod n)%Z, state).

(** [std::swap(out[i], out[j])]. *)
Definition swap_at (i j : nat) (l : list nat) : option (list nat) :=
  a ← l !! i; b ← l !! j; Some (<[j := a]> (<[i := b]> l)).

(** The shuffle from the back, given the bounded draws [rand]: position [n]
    has a draw below [n]. *)
Fixpoint shuffle (n : nat) (draws : nat -> nat) (l : list nat) : option (list nat) :=
  match n with
  | O | S O => Some l
  | S i => l' ← swap_at i (draws n) l; shuffle i draws l'
  end.

Definition kOrders : list (list nat) :=
  [[0; 1; 2]; [0; 2; 1]; [1; 0; 2]; [1; 2; 0]; [2; 0; 1]; [2; 1; 0]].

(** [fill_poll_order] for [kCount] cases; [draw n] is [select_rand(n)] at the
    step that bounds it by [n]. *)
Definition fill_poll_order (kCount : nat) (draw : nat -> nat) : option (list nat) :=
  match kCount with
  | 1 => Some [0]
  | 2 => let first := draw 2 in Some [first; 1 - first]
  | 3 => kOrders !! draw 6
  | _ => shuffle kCount draw (seq 0 kCount)
  end.

(** [fill_channel_poll_order] over the channel cases' indices. *)
Definition fill_channel_poll_order (channel_cases : list nat) (draw : nat -> nat) : option (list nat) :=
  match length channel_cases with
  | 0 | 1 => Some channel_cases
  | 2 => if decide (draw 2 <> 0) then swap_at 0 1 channel_cases else Some channel_cases
  | 3 =>
      picked ← kOrders !! draw 6;
      mapM (fun p => channel_cases !! p) picked
  | n => shuffle n draw channel_cases
  end.

(** ** Lock order *)

(** The inner loop of the insertion sort: moves larger entries up and returns
    the hole. *)
Fixpoint shift_up (key : addr) (j : nat) (locked : list addr) : nat * list addr :=
  match j with
  | O => (O, locked)
  | S j' =>
      match locked !! j' with
      | Some x => if decide (key < x) then shift_up key j' (<[j := x]> locked) else (j, locked)
      | None => (j, locked)
      end
  end.

(** The outer loop from position [i], [n] turns. *)
Fixpoint insertion_sort (n i : nat) (locked : list addr) : list addr :=
  match n with
  | O => locked
  | S n =>
      match locked !! i with
      | Some key =>
          let '(j, locked) := shift_up key i locked in
          insertion_sort n (S i) (<[j := key]> locked)
      | None => locked
      end
  end.

(** Compaction of equal neighbours; a null [previous] is [None]. *)
Fixpoint unique_from (previous : option addr) (locked : list addr) : list addr :=
  match locked with
  | [] => []
  | x :: locked =>
      if decide (Some x <> previous) then x :: unique_from (Some x) locked
      else unique_from previous locked
  end.

Definition lock_order (channels : list addr) : list addr :=
  unique_from None (insertion_sort (length channels - 1) 1 channels).

(** ** Cases *)

Section Select.
Context {V : Type}.

(** A channel case holds its channel, null for a disabled case, its waiter
    node and its value. *)
Inductive Case :=
  | RecvCase (chan : option addr) (node : addr) (value : option V)
  | SendCase (chan : option addr) (node : addr) (value : option V) (success : bool)
  | TimeoutCase (deadline_ns : Z) (armed : bool)
  | DefaultCase.

(** The store: waiter nodes and select states, the channels, the armed select
    timers with their case index. *)
Record World := mkWorld {
  w_mem : Mem V;
  w_chans : gmap addr (Channel V);
  w_timers : list (sel_id * nat * Z)
}.

Definition in_mem {A} (f : ST (Mem V) A) : ST World A := fun w =>
  match f (w_mem w) with
  | Some (a, m) => Some (a, mkWorld m (w_chans w) (w_timers w))
  | None => None
  end.

(** Runs an operation of one channel. *)
Definition on_channel {A} (ch : addr) (f : Channel V -> ST (Mem V) (A * Channel V)) : ST World A := fun w =>
  match w_chans w !! ch with
  | Some c =>
      match f c (w_mem w) with
      | Some ((a, c'), m) => Some (a, mkWorld m (<[ch := c']> (w_chans w)) (w_timers w))
      | None => None
      end
  | None => None
  end.

Definition case_channel (c : Case) : option addr :=
  match c with RecvCase ch _ _ | SendCase ch _ _ _ => ch | _ => None end.
Definition is_channel_case (c : Case) : bool :=
  match c with RecvCase _ _ _ | SendCase _ _ _ _ => true | _ => false end.
Definition is_default_case (c : Case) : bool := match c with DefaultCase => true | _ => false end.

(** [take]. *)
Inductive Taken := TakenValue (v : option V) | TakenSent (ok : bool) | TakenVoid.
Definition take_result (c : Case) : Taken :=
  match c with
  | RecvCase _ _ v => TakenValue v
  | SendCase _ _ _ ok => TakenSent ok
  | _ => TakenVoid
  end.

(** [collect_channels]. *)
Definition collect_channels (cases : list Case) : list addr := omap case_channel cases.

(** The channel cases' indices, in tuple order. *)
Fixpoint channel_cases (i : nat) (cases : list Case) : list nat :=
  match cases with
  | [] => []
  | c :: cases => if is_channel_case c then i :: channel_cases (S i) cases else channel_cases (S i) cases
  end.

(** The choice of [setup]: a select of channel cases only takes
    [fill_poll_order], one with a timeout or a default takes
    [fill_channel_poll_order] over its channel cases. *)
Definition select_poll_order (cases : list Case) (draw : nat -> nat) : option (list nat) :=
  if decide (length (channel_cases 0 cases) = length cases) then fill_poll_order (length cases) draw
  else fill_channel_poll_order (channel_cases 0 cases) draw.

(** [default_index]: the last default case. *)
Fixpoint default_index (i found : nat) (cases : list Case) : nat :=
  match cases with
  | [] => found
  | c :: cases => default_index (S i) (if is_default_case c then i else found) cases
  end.

Definition has_default (cases : list Case) : bool := existsb is_default_case cases.

(** [case_try]: the status, whom to wake, and the case afterwards. *)
Definition case_try (c : Case) : ST World (OpStatus * option addr * Case) :=
  match c with
  | RecvCase (Some ch) node value =>
      r <-- on_channel ch (fun c => r <-- try_recv_locked value c;
                                    let '(st, res, wk, c) := r in st_ret ((st, res, wk), c));
      let '(st, res, wk) := r in st_ret (st, wk, RecvCase (Some ch) node res)
  | SendCase (Some ch) node (Some v) ok =>
      r <-- on_channel ch (fun c => r <-- try_send_locked v c;
                                    let '(st, wk, c) := r in st_ret ((st, wk), c));
      let '(st, wk) := r in
      st_ret (st, wk,
        SendCase (Some ch) node (if decide (st = kDone) then None else Some v)
          (if decide (st = kBlocked) then ok else bool_decide (st = kDone)))
  | SendCase (Some _) _ None _ => st_fail
  | _ => st_ret (kBlocked, None, c)
  end.

(** The ready scan: the first case in poll order that does not block. *)
Fixpoint scan (order : list nat) (cases : list Case) : ST World (option (nat * option addr) * list Case) :=
  match order with
  | [] => st_ret (None, cases)
  | i :: order =>
      match cases !! i with
      | None => st_fail
      | Some c =>
          r <-- case_try c;
          let '(st, wk, c) := r in
          let cases := <[i := c]> cases in
          if decide (st = kBlocked) then scan order cases else st_ret (Some (i, wk), cases)
      end
  end.

Definition store_winner (s : sel_id) (i : nat) : ST World unit :=
  in_mem (upd_shared s (fun sh => mkShared (Z.of_nat i) (phase sh) (sel_handle sh))).

(** [case_enqueue]. *)
Definition case_enqueue (s : sel_id) (h : nat) (i : nat) (c : Case) : ST World unit :=
  match c with
  | RecvCase (Some ch) node value =>
      in_mem (alloc_node node (init_waiter s (Z.of_nat i) h (SlotRecv value)));;;
      on_channel ch (fun c => q <-- push_back node (receivers c);
                              st_ret (tt, set_lists (senders c) q c))
  | SendCase (Some ch) node value _ =>
      in_mem (alloc_node node (init_waiter s (Z.of_nat i) h (SlotSend value)));;;
      on_channel ch (fun c => q <-- push_back node (senders c);
                              st_ret (tt, set_lists q (receivers c) c))
  | _ => st_ret tt
  end.

(** [case_arm]. *)
Definition case_arm (s : sel_id) (i : nat) (c : Case) : ST World Case :=
  match c with
  | TimeoutCase d _ =>
      st_modify (fun w => mkWorld (w_mem w) (w_chans w) ((s, i, d) :: w_timers w));;;
      st_ret (TimeoutCase d true)
  | _ => st_ret c
  end.

(** [for_each_case] with the case index, from [i] on. *)
Fixpoint for_each_case (f : nat -> Case -> ST World Case) (i : nat) (cases : list Case) : ST World (list Case) :=
  match cases with
  | [] => st_ret []
  | c :: cases => c <-- f i c; cases <-- for_each_case f (S i) cases; st_ret (c :: cases)
  end.

(** What the critical section of [setup] ends with. *)
Inductive Locked := Ready (i : nat) | Defaulted (i : nat) | Enqueued.

(** The critical section: from taking the locks to [unlock_all]. The waker of
    a completed peer runs after it. *)
Definition setup_locked (s : sel_id) (h : nat) (order : list nat) (cases : list Case)
  : ST World (Locked * option addr * list Case) :=
  r <-- scan order cases;
  match r with
  | (Some (i, wk), cases) => store_winner s i;;; st_ret (Ready i, wk, cases)
  | (None, cases) =>
      if has_default cases then
        let i := default_index 0 0 cases in
        store_winner s i;;; st_ret (Defaulted i, None, cases)
      else
        cases <-- for_each_case (fun i c => case_enqueue s h i c;;; st_ret c) 0 cases;
        st_ret (Enqueued, None, cases)
  end.

(** The compare-exchange on the phase; [true] means the task parked. *)
Definition cas_parked (sh : SelectShared) : bool * SelectShared :=
  if decide (phase sh = kSelectSetup) then (true, mkShared (winner sh) kSelectParked (sel_handle sh))
  else (false, sh).
Definition park_phase (s : sel_id) : ST World bool :=
  in_mem (sh <-- get_shared s;
          upd_shared s (fun sh => snd (cas_parked sh));;;
          st_ret (fst (cas_parked sh))).

(** [setup]: whether the task parked, [enqueued_] and the cases. *)
Definition setup (s : sel_id) (h : nat) (order : list nat) (cases : list Case)
  : ST World (bool * bool * list Case) :=
  in_mem (st_modify (fun m => mkMem (nodes m) (<[s := mkShared kNoWinner kSelectSetup h]> (shared m)) (dispatched m)));;;
  r <-- setup_locked s h order cases;
  match r with
  | (Enqueued, _, cases) =>
      cases <-- for_each_case (case_arm s) 0 cases;
      parked <-- park_phase s;
      st_ret (parked, true, cases)
  | (_, wk, cases) =>
      match wk with Some a => in_mem (wake_handoff a) | None => st_ret tt end;;;
      st_ret (false, false, cases)
  end.

(** The claim of a waker, and its exchange on the phase: [true] means that it
    owns the resume. *)
Definition claim_winner (i : Z) (sh : SelectShared) : bool * SelectShared :=
  if decide (winner sh = kNoWinner) then (true, mkShared i (phase sh) (sel_handle sh)) else (false, sh).
Definition exchange_resumed (sh : SelectShared) : bool * SelectShared :=
  (bool_decide (phase sh = kSelectParked), mkShared (winner sh) kSelectResumed (sel_handle sh)).

(** [select_timeout_fired]: the coroutine to resume, if any. *)
Definition select_timeout_fired (s : sel_id) (index : nat) : ST (Mem V) (option nat) :=
  sh <-- get_shared s;
  upd_shared s (fun sh => snd (claim_winner (Z.of_nat index) sh));;;
  if negb (fst (claim_winner (Z.of_nat index) sh)) then st_ret None
  else
    sh <-- get_shared s;
    upd_shared s (fun sh => snd (exchange_resumed sh));;;
    st_ret (if fst (exchange_resumed sh) then Some (sel_handle sh) else None).

(** [case_retract]. *)
Definition case_retract (s : sel_id) (won : bool) (i : nat) (c : Case) : ST World Case :=
  match c with
  | RecvCase (Some ch) node _ =>
      if won then st_ret c
      else on_channel ch (fun c => q <-- remove node (receivers c); st_ret (tt, set_lists (senders c) q c));;;
           st_ret c
  | SendCase (Some ch) node _ _ =>
      if won then st_ret c
      else on_channel ch (fun c => q <-- remove node (senders c); st_ret (tt, set_lists q (receivers c) c));;;
           st_ret c
  | TimeoutCase d true =>
      st_modify (fun w => mkWorld (w_mem w) (w_chans w)
        (filter (fun t => fst t <> (s, i)) (w_timers w)));;;
      st_ret (TimeoutCase d false)
  | _ => st_ret c
  end.

(** The value cell and the success flag of a case that was enqueued are those
    of its waiter, which a waker wrote through [slot] and [success]. *)
Definition case_sync (c : Case) : ST World Case :=
  match c with
  | RecvCase (Some ch) node _ =>
      w <-- in_mem (get_node node);
      st_ret (RecvCase (Some ch) node (match slot w with SlotRecv o => o | SlotSend _ => None end))
  | SendCase (Some ch) node _ _ =>
      w <-- in_mem (get_node node);
      st_ret (SendCase (Some ch) node (match slot w with SlotSend v => v | SlotRecv _ => None end) (success w))
  | _ => st_ret c
  end.

(** [finish]: the index of the winning case. *)
Definition finish (s : sel_id) (enqueued : bool) (cases : list Case) : ST World (Z * list Case) :=
  cases <-- (if enqueued then
               sh <-- in_mem (get_shared s);
               for_each_case (fun i c => c <-- case_retract s (bool_decide (Z.of_nat i = winner sh)) i c;
                                         case_sync c) 0 cases
             else st_ret cases);
  sh <-- in_mem (get_shared s);
  st_ret (winner sh, cases).
End Select.

Arguments Case : clear implicits.
Arguments World : clear implicits.
