(* ===== verification/SelectSpec.v ===== *)
(** * Correctness of select

    The orders are permutations and every permutation has its draws; the
    locks are taken in ascending order; the ready scan finds the first ready
    case; the coroutine of a select is resumed once. *)

From Stdlib Require Import Sorting.Sorted.
From S2P Require Import Prelude Result Chan ChanList ChanSpec ChanSystem Select.

Set Default Proof Using "Type".

(** ** The shuffle *)

Lemma swap_at_run (i j : nat) (l : list nat) : i < length l -> j < length l ->
  exists l', swap_at i j l = Some l' /\ l' ≡ₚ l /\ length l' = length l /\
    (forall k, k <> i -> k <> j -> l' !! k = l !! k) /\ l' !! i = l !! j /\ l' !! j = l !! i.
Proof.
  intros Hi Hj. unfold swap_at.
  destruct (lookup_lt_is_Some_2 l i Hi) as [a Ha], (lookup_lt_is_Some_2 l j Hj) as [b Hb].
  rewrite Ha, Hb. cbn [mbind option_bind]. eexists. split; [done|].
  assert (Hl : length (<[j:=a]> (<[i:=b]> l)) = length l) by by rewrite !length_insert.
  destruct (decide (i = j)) as [->|Hij].
  { assert (a = b) as -> by congruence. rewrite list_insert_insert_eq in *. rewrite list_insert_id by done.
    repeat split; done. }
  repeat split.
  - apply (Permutation_insert_swap l i j a b); done.
  - done.
  - intros k H1 H2. by rewrite !list_lookup_insert_ne.
  - rewrite list_lookup_insert_ne by done. by rewrite list_lookup_insert_eq.
  - by rewrite list_lookup_insert_eq by (by rewrite length_insert).
Qed.

(** The draws of a shuffle of [n] positions are within their bounds. *)
Definition draws_ok (n : nat) (draws : nat -> nat) : Prop := forall k, 2 <= k <= n -> draws k < k.

Lemma shuffle_S i draws l : i <> 0 ->
  shuffle (S i) draws l = (l' ← swap_at i (draws (S i)) l; shuffle i draws l').
Proof. by destruct i. Qed.

Lemma shuffle_ext n d1 d2 : forall l, (forall k, 2 <= k <= n -> d1 k = d2 k) -> shuffle n d1 l = shuffle n d2 l.
Proof.
  induction n as [|i IH]; intros l Hd; [done|].
  destruct (decide (i = 0)) as [->|Hi]; [done|]. rewrite !shuffle_S by done. rewrite (Hd (S i)) by lia.
  destruct (swap_at i (d2 (S i)) l); [|done]. apply IH. intros k Hk. apply Hd. lia.
Qed.

Lemma shuffle_perm n draws : forall l, n <= length l -> draws_ok n draws ->
  exists l', shuffle n draws l = Some l' /\ l' ≡ₚ l /\ forall k, n <= k -> l' !! k = l !! k.
Proof.
  induction n as [|i IH]; intros l Hl Hd; [by exists l|].
  destruct (decide (i = 0)) as [->|Hi]; [by exists l|]. rewrite shuffle_S by done.
  pose proof (Hd (S i) ltac:(lia)) as Hb.
  destruct (swap_at_run i (draws (S i)) l) as (l1 & -> & Hp1 & Hlen & Hout & _); [lia|lia|]. cbn [mbind option_bind].
  destruct (IH l1) as (l' & -> & Hp & Hout'); [lia|intros k Hk; apply Hd; lia|].
  exists l'. split; [done|]. split; [by rewrite Hp|]. intros k Hk. rewrite Hout' by lia. apply Hout; lia.
Qed.

(** Different draws shuffle differently. *)
Lemma shuffle_inj n d1 d2 : forall l l', NoDup l -> n <= length l -> draws_ok n d1 -> draws_ok n d2 ->
  shuffle n d1 l = Some l' -> shuffle n d2 l = Some l' -> forall k, 2 <= k <= n -> d1 k = d2 k.
Proof.
  induction n as [|i IH]; intros l l' Hnd Hl H1 H2 E1 E2 k Hk; [lia|].
  destruct (decide (i = 0)) as [->|Hi]; [lia|]. rewrite shuffle_S in E1, E2 by done.
  pose proof (H1 (S i) ltac:(lia)) as Hb1. pose proof (H2 (S i) ltac:(lia)) as Hb2.
  destruct (swap_at_run i (d1 (S i)) l) as (l1 & R1 & Hp1 & Hl1 & _ & Hi1 & _); [lia|lia|].
  destruct (swap_at_run i (d2 (S i)) l) as (l2 & R2 & Hp2 & Hl2 & _ & Hi2 & _); [lia|lia|].
  rewrite R1 in E1. rewrite R2 in E2. cbn [mbind option_bind] in E1, E2.
  destruct (shuffle_perm i d1 l1) as (x1 & S1 & _ & O1); [lia|intros m Hm; apply H1; lia|].
  destruct (shuffle_perm i d2 l2) as (x2 & S2 & _ & O2); [lia|intros m Hm; apply H2; lia|].
  assert (x1 = l') as -> by congruence. assert (x2 = l') as -> by congruence.
  assert (Hsame : d1 (S i) = d2 (S i)).
  { destruct (lookup_lt_is_Some_2 l (d1 (S i)) ltac:(lia)) as [a Ha].
    apply (NoDup_lookup l _ _ a Hnd Ha). rewrite <- Hi2, <- O2, O1, Hi1 by lia. done. }
  destruct (decide (k = S i)) as [->|Hk2]; [done|].
  rewrite Hsame in R1. assert (l1 = l2) as -> by congruence.
  eapply (IH l2 l'); [by rewrite Hp2|lia|intros m Hm; apply H1; lia|intros m Hm; apply H2; lia|done|done|lia].
Qed.

(** Every permutation has draws. *)
Lemma shuffle_surj n : forall l l', NoDup l -> n <= length l -> l' ≡ₚ l -> (forall k, n <= k -> l' !! k = l !! k) ->
  exists draws, draws_ok n draws /\ shuffle n draws l = Some l'.
Proof.
  induction n as [|i IH]; intros l l' Hnd Hl Hp Hout.
  { exists (fun _ => 0). split; [intros k Hk; lia|]. simpl. f_equal. symmetry. apply list_eq. intros k. apply Hout. lia. }
  destruct (decide (i = 0)) as [->|Hi].
  { exists (fun _ => 0). split; [intros k Hk; lia|]. simpl. f_equal.
    destruct l as [|a l]; [simpl in Hl; lia|].
    assert (tail l' = l) as Ht.
    { apply list_eq. intros k. specialize (Hout (S k) ltac:(lia)). simpl in Hout. rewrite <- Hout. by destruct l'. }
    destruct l' as [|b l']; [by apply Permutation_nil_cons in Hp|]. simpl in Ht. subst l'.
    f_equal. apply (Permutation_app_inv_r l [b] [a]) in Hp. apply Permutation_length_1 in Hp. done. }
  assert (Hlen : length l' = length l) by by rewrite Hp.
  destruct (lookup_lt_is_Some_2 l' i ltac:(lia)) as [v Hv].
  assert (Hin : v ∈ l) by (rewrite <- Hp; by eapply list_elem_of_lookup_2).
  apply list_elem_of_lookup in Hin as [j Hj].
  assert (Hji : j < S i).
  { destruct (decide (j < S i)); [done|]. rewrite <- Hout in Hj by lia.
    assert (NoDup l') as Hnd' by by rewrite Hp. pose proof (NoDup_lookup l' _ _ v Hnd' Hv Hj). lia. }
  destruct (swap_at_run i j l) as (l1 & R1 & Hp1 & Hl1 & Ho1 & Hi1 & _); [lia|lia|].
  destruct (IH l1 l') as (draws & Hd & Hs); [by rewrite Hp1|lia|by rewrite Hp1| |].
  { intros k Hk. destruct (decide (k = i)) as [->|]; [by rewrite Hi1, Hj|]. rewrite Ho1 by lia. apply Hout. lia. }
  exists (fun k => if decide (k = S i) then j else draws k). split.
  { intros k Hk. case_decide; [lia|]. apply Hd. lia. }
  rewrite shuffle_S by done. rewrite decide_True by done. rewrite R1. cbn [mbind option_bind].
  rewrite <- Hs. apply shuffle_ext. intros k Hk. by rewrite decide_False by lia.
Qed.

(** Where each count draws. *)
Definition draw_bounds (kCount : nat) : list nat :=
  match kCount with 1 => [] | 2 => [2] | 3 => [6] | _ => seq 2 (kCount - 1) end.
Definition valid_draw (kCount : nat) (draw : nat -> nat) : Prop :=
  forall n, n ∈ draw_bounds kCount -> draw n < n.

Lemma kOrders_complete l : l ≡ₚ [0; 1; 2] -> l ∈ kOrders.
Proof.
  intros Hp. assert (Hnd : NoDup l) by (rewrite Hp; apply (bool_decide_unpack _); by vm_compute).
  assert (Hlen : length l = 3) by by rewrite Hp.
  assert (Hb : forall x, x ∈ l -> x = 0 \/ x = 1 \/ x = 2).
  { intros x Hx. rewrite Hp in Hx. by repeat (apply elem_of_cons in Hx as [->|Hx]; [lia|]); apply not_elem_of_nil in Hx. }
  destruct l as [|a [|b [|c [|]]]]; try discriminate.
  apply NoDup_cons in Hnd as [H1 Hnd]. apply NoDup_cons in Hnd as [H2 _].
  assert (a <> b) by (intros ->; apply H1; left). assert (a <> c) by (intros ->; apply H1; right; left).
  assert (b <> c) by (intros ->; apply H2; left).
  assert (a = 0 \/ a = 1 \/ a = 2) as Ha by (apply Hb; left).
  assert (b = 0 \/ b = 1 \/ b = 2) as Hb' by (apply Hb; right; left).
  assert (c = 0 \/ c = 1 \/ c = 2) as Hc by (apply Hb; right; right; left).
  unfold kOrders.
  destruct Ha as [->|[->| ->]], Hb' as [->|[->| ->]], Hc as [->|[->| ->]]; try done;
    apply (bool_decide_unpack _); by vm_compute.
Qed.

(** ** Lock order *)

Abbreviation ascending := (StronglySorted (A := addr) lt).

(** The hole lands between the entries that are not larger and those that are. *)
Lemma shift_up_run key : forall a x b, exists a1 a2 j l',
  shift_up key (length a) (a ++ x :: b) = (j, l') /\ a = a1 ++ a2 /\
  <[j := key]> l' = a1 ++ key :: a2 ++ b /\ (forall y, y ∈ a2 -> key < y) /\
  match last a1 with Some y => y <= key | None => True end.
Proof.
  intros a. induction a as [|y a IH] using rev_ind; intros x b.
  { exists [], [], 0, (x :: b). repeat split; try done. intros y Hy. by apply not_elem_of_nil in Hy. }
  rewrite length_app, Nat.add_1_r. cbn [shift_up].
  assert (Hy : ((a ++ [y]) ++ x :: b) !! length a = Some y).
  { rewrite <- app_assoc. by apply list_lookup_middle. }
  rewrite Hy. case_decide as Hlt.
  - assert (Hins : <[S (length a):=y]> ((a ++ [y]) ++ x :: b) = a ++ y :: y :: b).
    { rewrite <- app_assoc. cbn [app]. rewrite insert_app_r_alt by lia.
      by replace (S (length a) - length a) with 1 by lia. }
    rewrite Hins. destruct (IH y (y :: b)) as (a1 & a2 & j & l' & -> & -> & He & Hgt & Hle).
    exists a1, (a2 ++ [y]), j, l'. split; [done|]. split; [by rewrite app_assoc|]. split; [by rewrite <- app_assoc|].
    split; [|done]. intros z [Hz|Hz%list_elem_of_singleton]%elem_of_app; [auto|by subst].
  - exists (a ++ [y]), [], (S (length a)), ((a ++ [y]) ++ x :: b). split; [done|]. split; [by rewrite app_nil_r|].
    split; [|split].
    + replace (S (length a)) with (length (a ++ [y]) + 0) by (rewrite length_app; simpl; lia).
      by rewrite insert_app_r.
    + intros z Hz. by apply not_elem_of_nil in Hz.
    + rewrite last_snoc. lia.
Qed.

Lemma sorted_app {R : addr -> addr -> Prop} (l1 l2 : list addr) :
  StronglySorted R (l1 ++ l2) <->
  (forall x y, x ∈ l1 -> y ∈ l2 -> R x y) /\ StronglySorted R l1 /\ StronglySorted R l2.
Proof.
  induction l1 as [|a l1 IH]; cbn [app].
  { split; [|by intros (_ & _ & ?)]. intros H. split; [intros x y Hx; by apply not_elem_of_nil in Hx|].
    split; [constructor|done]. }
  split.
  - intros [Hs Ha]%StronglySorted_inv. apply IH in Hs as (H12 & H1 & H2). apply Forall_app in Ha as [Ha1 Ha2].
    rewrite Forall_forall in Ha2. split; [|split; [by constructor|done]].
    intros x y [->|Hx]%elem_of_cons Hy; auto.
  - intros (H12 & [H1 Ha]%StronglySorted_inv & H2). constructor.
    + apply IH. split; [|done]. intros x y Hx Hy. apply H12; [by right|done].
    + apply Forall_app. split; [done|]. apply Forall_forall. intros y Hy. apply H12; [left|done].
Qed.

Lemma sorted_le_last (a : list addr) y : StronglySorted le (a ++ [y]) -> forall z, z ∈ a ++ [y] -> z <= y.
Proof.
  intros Hs z [Hz|Hz%list_elem_of_singleton]%elem_of_app; [|by subst].
  apply sorted_app in Hs as (H & _ & _). apply H; [done|left].
Qed.

Lemma insertion_sort_run n : forall p q, length q = n -> StronglySorted le p ->
  exists l, insertion_sort n (length p) (p ++ q) = l /\ StronglySorted le l /\ l ≡ₚ p ++ q.
Proof.
  induction n as [|n IH]; intros p q Hq Hp; cbn [insertion_sort].
  { apply nil_length_inv in Hq as ->. rewrite app_nil_r. by eexists. }
  destruct q as [|key q]; [done|]. rewrite list_lookup_middle by done.
  destruct (shift_up_run key p key q) as (a1 & a2 & j & l' & -> & -> & He & Hgt & Hle).
  rewrite He. replace (S (length (a1 ++ a2))) with (length (a1 ++ key :: a2)) by (rewrite !length_app; simpl; lia).
  replace (a1 ++ key :: a2 ++ q) with ((a1 ++ key :: a2) ++ q) by (by rewrite <- app_assoc).
  assert (Hs : StronglySorted le (a1 ++ key :: a2)).
  { apply sorted_app in Hp as (H12 & H1 & H2). apply sorted_app. split; [|split; [done|]].
    - assert (Hk : forall z, z ∈ a1 -> z <= key).
      { destruct (last a1) as [y|] eqn:E; [|apply last_None in E as ->; intros z Hz; by apply not_elem_of_nil in Hz].
        apply last_Some in E as [a ->]. intros z Hz. pose proof (sorted_le_last a y H1 z Hz). lia. }
      intros z1 z2 Hz1 [->|Hz2]%elem_of_cons; [by apply Hk|]. by apply H12.
    - constructor; [done|]. apply Forall_forall. intros z Hz. specialize (Hgt z Hz). lia. }
  destruct (IH (a1 ++ key :: a2) q) as (l & <- & Hl & Hperm); [by injection Hq|done|].
  eexists. split; [done|]. split; [done|]. rewrite Hperm, <- !app_assoc. apply Permutation_app_head.
  cbn [app]. by rewrite Permutation_middle.
Qed.

Lemma unique_from_run l : forall prev, StronglySorted le l ->
  (forall y x, prev = Some y -> x ∈ l -> y <= x) ->
  ascending (unique_from prev l) /\ (forall x, x ∈ unique_from prev l <-> x ∈ l /\ Some x <> prev).
Proof.
  induction l as [|x l IH]; intros prev Hs Hprev; cbn [unique_from].
  { split; [constructor|]. intros x. split; [intros H; by apply not_elem_of_nil in H|].
    intros [H _]. by apply not_elem_of_nil in H. }
  apply StronglySorted_inv in Hs as [Hs Hx]. rewrite Forall_forall in Hx.
  case_decide as Hne.
  - destruct (IH (Some x) Hs) as [Ha He]; [intros y z [= <-]; apply Hx|]. split.
    + constructor; [done|]. apply Forall_forall. intros z [Hz Hzx]%He. specialize (Hx z Hz).
      assert (z <> x) by congruence. lia.
    + intros z. rewrite !elem_of_cons, He. split.
      * intros [->|[Hz Hzx]]; [by split; [left|]|]. split; [by right|]. intros E.
        specialize (Hprev z x ltac:(done) ltac:(left)). specialize (Hx z Hz).
        assert (z = x) by lia. congruence.
      * intros [[->|Hz] Hp]; [by left|]. destruct (decide (z = x)) as [->|]; [by left|]. right. split; [done|congruence].
  - assert (Hp : prev = Some x) by (destruct (decide (Some x = prev)); [done|tauto]). subst prev.
    destruct (IH (Some x) Hs) as [Ha He]; [intros y z [= <-]; apply Hx|]. split; [done|].
    intros z. rewrite He, elem_of_cons. split; [intros [? ?]; split; [by right|done]|].
    intros [[->|Hz] Hzx]; [done|by split].
Qed.

Lemma lock_order_run channels :
  ascending (lock_order channels) /\ forall x, x ∈ lock_order channels <-> x ∈ channels.
Proof.
  unfold lock_order.
  assert (H : StronglySorted le (insertion_sort (length channels - 1) 1 channels) /\
    insertion_sort (length channels - 1) 1 channels ≡ₚ channels).
  { destruct channels as [|c channels]; [simpl; split; [constructor|done]|].
    destruct (insertion_sort_run (length channels) [c] channels eq_refl) as (l & <- & Hl & Hp);
      [by repeat constructor|]. simpl length. rewrite Nat.sub_1_r. done. }
  destruct H as [Hs Hp]. destruct (unique_from_run _ None Hs ltac:(done)) as [Ha He].
  split; [done|]. intros x. rewrite He, Hp. split; [by intros [? _]|by intros ?].
Qed.

(** ** Several channels in one store *)

Section multi.
Context {V : Type}.
Implicit Types (m : Mem V) (c : Channel V) (A : AChan V) (w : World V) (As : gmap addr (AChan V)).

Definition waiters A : list addr := a_send A ++ a_recv A.

(** Every channel is represented, and no waiter is on two channels. *)
Record wrep w As : Prop := {
  wr_chan : forall ch A, As !! ch = Some A -> exists c, w_chans w !! ch = Some c /\ crep (w_mem w) c A;
  wr_disj : forall ch1 ch2 A1 A2 a, As !! ch1 = Some A1 -> As !! ch2 = Some A2 ->
    a ∈ waiters A1 -> a ∈ waiters A2 -> ch1 = ch2
}.

(** A case that does not block. *)
Definition send_ready m A : bool :=
  a_closed A || existsb (acquirable m) (a_recv A) || bool_decide (length (a_buf A) < a_cap A).
Definition recv_ready m A : bool :=
  bool_decide (a_buf A <> []) || existsb (acquirable m) (a_send A) || a_closed A.
Definition case_is_ready m As (c : Case V) : bool :=
  match c with
  | RecvCase (Some ch) _ _ => match As !! ch with Some A => recv_ready m A | None => false end
  | SendCase (Some ch) _ _ _ => match As !! ch with Some A => send_ready m A | None => false end
  | _ => false
  end.

(** A case of the select may be tried: its channel exists, it has its value. *)
Definition case_ok As (c : Case V) : Prop :=
  match c with
  | RecvCase (Some ch) _ _ => is_Some (As !! ch)
  | SendCase (Some ch) _ v _ => is_Some (As !! ch) /\ is_Some v
  | _ => True
  end.

(** The channel after a blocked try dropped its stale waiters. *)
Definition drop_recv A : AChan V := mkAChan (a_cap A) (a_buf A) (a_closed A) (a_send A) [].
Definition drop_send A : AChan V := mkAChan (a_cap A) (a_buf A) (a_closed A) [] (a_recv A).

Lemma drop_until_existsb acq (l : list addr) : drop_until acq l = [] <-> existsb acq l = false.
Proof. induction l as [|a l IH]; simpl; [done|]. by destruct (acq a). Qed.

Lemma crep_frame L m m' c A :
  crep m c A -> lframe L m m' -> shared m' = shared m -> (forall a, a ∈ waiters A -> a ∉ L) -> crep m' c A.
Proof.
  intros Hc Hf Hs Hd. pose proof Hc as [].
  apply (crep_completed m m' c c A A None (SlotSend None) true Hc); try done.
  - by apply (lframe_completed L).
  - eapply dll_out; [done| |done]. intros b Hb. apply Hd, elem_of_app. by left.
  - eapply dll_out; [done| |done]. intros b Hb. apply Hd, elem_of_app. by right.
Qed.

Lemma try_send_blocked m c A v :
  crep m c A -> send_ready m A = false ->
  exists c' m', try_send_locked v c m = Some ((kBlocked, None, c'), m') /\
    crep m' c' (drop_recv A) /\ lframe (waiters A) m m' /\ shared m' = shared m.
Proof.
  intros Hc Hr. unfold send_ready in Hr. apply orb_false_iff in Hr as [Hr Hfull].
  apply orb_false_iff in Hr as [Hcl Hrecv]. apply bool_decide_eq_false in Hfull.
  destruct (try_send_run m c A v Hc) as (st & wk & c' & m' & A' & Hrun & Habs & Hc' & Hco).
  unfold abs_send in Habs. rewrite Hcl in Habs. rewrite (proj2 (drop_until_existsb _ _) Hrecv) in Habs.
  rewrite decide_False in Habs by done. injection Habs as <- <- <-.
  exists c', m'. split; [done|]. unfold drop_recv. rewrite Hcl in *. split; [done|].
  split; [|by destruct Hco].
  unfold try_send_locked in Hrun. rewrite (cr_closed _ _ _ Hc), Hcl in Hrun.
  rewrite (st_bind_eq _ _ _ _ _ (loop_fuel_eq m)) in Hrun.
  destruct (pop_run m (receivers c) (a_recv A)) as (q' & m1 & Hp & _ & Hf & _).
  { apply Hc. } { eapply selects_ok_sub; [|apply (cr_sel _ _ _ Hc)]. intros x Hx. apply elem_of_app. by right. }
  rewrite (st_bind_eq _ _ _ _ _ Hp), (proj2 (drop_until_existsb _ _) Hrecv) in Hrun. simpl in Hrun.
  assert (m1 = m') as -> by (case_decide; unfold st_ret in Hrun; congruence).
  eapply lframe_weaken; [|done]. intros x Hx. apply elem_of_app. by right.
Qed.

Lemma try_recv_blocked m c A out :
  crep m c A -> recv_ready m A = false ->
  exists c' m', try_recv_locked out c m = Some ((kBlocked, out, None, c'), m') /\
    crep m' c' (drop_send A) /\ lframe (waiters A) m m' /\ shared m' = shared m.
Proof.
  intros Hc Hr. unfold recv_ready in Hr. apply orb_false_iff in Hr as [Hr Hcl].
  apply orb_false_iff in Hr as [Hbuf Hsend]. apply bool_decide_eq_false in Hbuf.
  assert (Hnil : a_buf A = []) by (destruct (decide (a_buf A = [])); [done|tauto]).
  destruct (try_recv_run m c A out Hc) as (st & res & wk & c' & m' & A' & Hrun & Habs & Hc' & Hco).
  unfold abs_recv in Habs. rewrite Hcl, Hnil in Habs. rewrite (proj2 (drop_until_existsb _ _) Hsend) in Habs.
  injection Habs as <- <- <- <-.
  exists c', m'. split; [done|]. unfold drop_send. rewrite Hcl, Hnil in *. split; [done|].
  split; [|by destruct Hco].
  unfold try_recv_locked in Hrun.
  rewrite (ring_count _ _ (cr_ring _ _ _ Hc)), Hnil in Hrun. simpl in Hrun.
  rewrite (st_bind_eq _ _ _ _ _ (loop_fuel_eq m)) in Hrun.
  destruct (pop_run m (senders c) (a_send A)) as (q' & m1 & Hp & _ & Hf & _).
  { apply Hc. } { eapply selects_ok_sub; [|apply (cr_sel _ _ _ Hc)]. intros x Hx. apply elem_of_app. by left. }
  rewrite (st_bind_eq _ _ _ _ _ Hp), (proj2 (drop_until_existsb _ _) Hsend) in Hrun. simpl in Hrun.
  rewrite (cr_closed _ _ _ Hc), Hcl in Hrun.
  assert (m1 = m') as -> by (unfold st_ret in Hrun; congruence).
  eapply lframe_weaken; [|done]. intros x Hx. apply elem_of_app. by left.
Qed.
(** [w'] differs from [w] by stale waiters that were dropped: nothing that a
    case could observe. *)
Record quiet w As w' As' : Prop := {
  q_rep : wrep w' As';
  q_shared : shared (w_mem w') = shared (w_mem w);
  q_timers : w_timers w' = w_timers w;
  q_shrunk : forall ch A, As !! ch = Some A -> exists A', As' !! ch = Some A' /\ shrunk A A';
  q_ready : forall k, case_is_ready (w_mem w') As' k = case_is_ready (w_mem w) As k;
  q_ok : forall k, case_ok As k -> case_ok As' k;
  q_fresh : forall a, nodes (w_mem w) !! a = None -> nodes (w_mem w') !! a = None
}.

Lemma shrunk_refl A : shrunk A A.
Proof. repeat split; done. Qed.

Lemma quiet_refl w As : wrep w As -> quiet w As w As.
Proof. intros H. split; try done. intros ch A HA. exists A. split; [done|apply shrunk_refl]. Qed.

Lemma quiet_trans w1 As1 w2 As2 w3 As3 : quiet w1 As1 w2 As2 -> quiet w2 As2 w3 As3 -> quiet w1 As1 w3 As3.
Proof.
  intros [] []. split; try done; try congruence.
  - intros ch A HA. destruct (q_shrunk0 ch A HA) as (A2 & HA2 & H12).
    destruct (q_shrunk1 ch A2 HA2) as (A3 & HA3 & H23). exists A3. split; [done|by eapply shrunk_trans].
  - auto.
  - auto.
Qed.

(** Dropping the stale waiters of one channel. *)
Lemma quiet_drop w As ch c c' m' A A' :
  wrep w As -> As !! ch = Some A -> w_chans w !! ch = Some c -> shrunk A A' -> crep m' c' A' ->
  lframe (waiters A) (w_mem w) m' -> shared m' = shared (w_mem w) ->
  recv_ready (w_mem w) A' = recv_ready (w_mem w) A -> send_ready (w_mem w) A' = send_ready (w_mem w) A ->
  quiet w As (mkWorld m' (<[ch := c']> (w_chans w)) (w_timers w)) (<[ch := A']> As).
Proof.
  intros [Hrep Hdisj] HA Hc Hsh Hc' Hf Hs Hrr Hsr.
  assert (Hacq : forall a, acquirable m' a = acquirable (w_mem w) a) by (intros a; by eapply acquirable_frame).
  assert (Hex : forall l, existsb (acquirable m') l = existsb (acquirable (w_mem w)) l).
  { intros l. induction l as [|a l IH]; [done|]. simpl. by rewrite Hacq, IH. }
  assert (Hr : forall B, recv_ready m' B = recv_ready (w_mem w) B) by (intros B; unfold recv_ready; by rewrite Hex).
  assert (Hsd : forall B, send_ready m' B = send_ready (w_mem w) B) by (intros B; unfold send_ready; by rewrite Hex).
  assert (Hsub : forall a, a ∈ waiters A' -> a ∈ waiters A).
  { destruct Hsh as (_ & _ & _ & H1 & H2). intros a [Ha|Ha]%elem_of_app; apply elem_of_app; [left|right]; auto. }
  split; cbn [w_mem w_chans w_timers]; try done.
  - split; cbn [w_mem w_chans].
    + intros ch2 A2 H2. destruct (decide (ch2 = ch)) as [->|Hne].
      * rewrite lookup_insert_eq in H2. injection H2 as <-. exists c'. by rewrite lookup_insert_eq.
      * rewrite lookup_insert_ne in H2 by done. destruct (Hrep ch2 A2 H2) as (c2 & Hc2 & Hr2).
        exists c2. rewrite lookup_insert_ne by done. split; [done|]. eapply crep_frame; [done|done|done|].
        intros a Ha Hin. by rewrite (Hdisj ch2 ch A2 A a H2 HA Ha Hin) in Hne.
    + intros ch1 ch2 A1 A2 a H1 H2 Ha1 Ha2.
      assert (Hback : forall x B, <[ch:=A']> As !! x = Some B -> a ∈ waiters B ->
        exists B', As !! x = Some B' /\ a ∈ waiters B').
      { intros x B Hx Hin. destruct (decide (x = ch)) as [->|Hne].
        - rewrite lookup_insert_eq in Hx. injection Hx as <-. eauto.
        - rewrite lookup_insert_ne in Hx by done. eauto. }
      destruct (Hback _ _ H1 Ha1) as (B1 & HB1 & Hin1), (Hback _ _ H2 Ha2) as (B2 & HB2 & Hin2).
      by eapply (Hdisj ch1 ch2 B1 B2 a).
  - intros ch2 A2 H2. destruct (decide (ch2 = ch)) as [->|Hne].
    + exists A'. rewrite lookup_insert_eq. split; [done|]. congruence.
    + exists A2. rewrite lookup_insert_ne by done. split; [done|apply shrunk_refl].
  - intros k. destruct k as [[x|] ? ?|[x|] ? ? ?| |]; simpl; try done;
      (destruct (decide (x = ch)) as [->|Hne]; [rewrite lookup_insert_eq, HA; congruence|]);
      rewrite lookup_insert_ne by done; destruct (As !! x); try done.
  - intros k. destruct k as [[x|] ? ?|[x|] ? ? ?| |]; simpl; try done; rewrite lookup_insert_is_Some';
      [by intros ?; right|]. intros [? ?]. split; [by right|done].
  - intros a Ha. destruct (lframe_cases _ _ _ a Hf) as [[_ ?]|(x & _ & E & _)]; [done|congruence].
Qed.

Lemma case_try_quiet w As (k : Case V) : wrep w As -> case_ok As k -> case_is_ready (w_mem w) As k = false ->
  exists w' As', case_try k w = Some ((kBlocked, None, k), w') /\ quiet w As w' As'.
Proof.
  intros Hw Hok Hr.
  destruct k as [[ch|] node v|[ch|] node v ok| |]; simpl in *;
    try (exists w, As; split; [done|by apply quiet_refl]).
  - destruct Hok as [A HA]. rewrite HA in Hr. destruct (wr_chan _ _ Hw _ _ HA) as (c & Hc & Hrep).
    destruct (try_recv_blocked (w_mem w) c A v Hrep Hr) as (c' & m' & Hrun & Hc' & Hf & Hs).
    eexists _, (<[ch := drop_send A]> As). split.
    + unfold st_bind at 1, on_channel. rewrite Hc. rewrite (st_bind_eq _ _ _ _ _ Hrun). done.
    + eapply quiet_drop; try done.
      * repeat split; try done. apply list_subseteq_nil.
      * rewrite Hr. unfold recv_ready in *. simpl. apply orb_false_iff in Hr as [Hr ->].
        apply orb_false_iff in Hr as [-> _]. done.
  - destruct Hok as [[A HA] [x ->]]. rewrite HA in Hr. destruct (wr_chan _ _ Hw _ _ HA) as (c & Hc & Hrep).
    destruct (try_send_blocked (w_mem w) c A x Hrep Hr) as (c' & m' & Hrun & Hc' & Hf & Hs).
    eexists _, (<[ch := drop_recv A]> As). split.
    + unfold st_bind at 1, on_channel. rewrite Hc. rewrite (st_bind_eq _ _ _ _ _ Hrun). done.
    + eapply quiet_drop; try done.
      * repeat split; try done. apply list_subseteq_nil.
      * rewrite Hr. unfold send_ready in *. simpl. apply orb_false_iff in Hr as [Hr ->].
        apply orb_false_iff in Hr as [-> _]. done.
Qed.
(** What a case does to its channel: the abstract send or receive. *)
Definition abs_case m As (k : Case V) : option (addr * OpStatus * option V * option addr * AChan V) :=
  match k with
  | RecvCase (Some ch) _ out =>
      A ← As !! ch;
      let '(st, res, wk, A') := abs_recv (acquirable m) (parked_value m) out A in Some (ch, st, res, wk, A')
  | SendCase (Some ch) _ (Some v) _ =>
      A ← As !! ch;
      let '(st, wk, A') := abs_send (acquirable m) v A in Some (ch, st, None, wk, A')
  | _ => None
  end.

(** The case afterwards: a receive holds what it got, a send whether it was
    delivered. *)
Definition case_result (st : OpStatus) (res : option V) (k : Case V) : Taken :=
  match k with
  | RecvCase _ _ _ => TakenValue res
  | SendCase _ _ _ _ => TakenSent (bool_decide (st = kDone))
  | _ => TakenVoid
  end.

Lemma completed_selects m m' o x ok s :
  completed m m' o x ok -> is_Some (shared m !! s) -> is_Some (shared m' !! s).
Proof. intros [_ _ _ -> _] H. destruct o as [a|]; [by apply claim_dom|done]. Qed.

Lemma case_try_ready w As (k : Case V) : wrep w As -> case_ok As k -> case_is_ready (w_mem w) As k = true ->
  exists ch st res wk A' c' k' w', abs_case (w_mem w) As k = Some (ch, st, res, wk, A') /\ st <> kBlocked /\
    case_try k w = Some ((st, wk, k'), w') /\ w_chans w' !! ch = Some c' /\ crep (w_mem w') c' A' /\
    take_result k' = case_result st res k /\
    (forall s, is_Some (shared (w_mem w) !! s) -> is_Some (shared (w_mem w') !! s)).
Proof.
  intros Hw Hok Hr. destruct k as [[ch|] node v|[ch|] node v ok| |]; simpl in *; try done.
  - destruct Hok as [A HA]. rewrite HA in *. destruct (wr_chan _ _ Hw _ _ HA) as (c & Hc & Hrep).
    destruct (try_recv_run (w_mem w) c A v Hrep) as (st & res & wk & c' & m' & A' & Hrun & Habs & Hc' & Hco).
    cbn [mbind option_bind]. rewrite Habs.
    eexists ch, st, res, wk, A', c', _, _. split; [done|]. split.
    + intros ->. unfold abs_recv in Habs. destruct (a_buf A) eqn:Eb; [|congruence].
      destruct (drop_until _ _) eqn:Ed; [|congruence]. apply drop_until_existsb in Ed.
      destruct (a_closed A) eqn:Ec; [congruence|]. unfold recv_ready in Hr. by rewrite Eb, Ed, Ec in Hr.
    + split; [|split; [|split; [|split]]].
      * unfold st_bind at 1, on_channel. rewrite Hc. rewrite (st_bind_eq _ _ _ _ _ Hrun). done.
      * simpl. by rewrite lookup_insert_eq.
      * done.
      * done.
      * intros t Ht. exact (completed_selects _ _ _ _ _ t Hco Ht).
  - destruct Hok as [[A HA] [x ->]]. rewrite HA in *. destruct (wr_chan _ _ Hw _ _ HA) as (c & Hc & Hrep).
    destruct (try_send_run (w_mem w) c A x Hrep) as (st & wk & c' & m' & A' & Hrun & Habs & Hc' & Hco).
    cbn [mbind option_bind]. rewrite Habs.
    assert (Hst : st <> kBlocked).
    { intros ->. unfold abs_send in Habs. destruct (a_closed A) eqn:Ec; [congruence|].
      destruct (drop_until _ _) eqn:Ed; [|congruence]. apply drop_until_existsb in Ed.
      case_decide as Hfull; [congruence|]. unfold send_ready in Hr. rewrite Ec, Ed in Hr.
      by rewrite bool_decide_false in Hr. }
    eexists ch, st, None, wk, A', c', _, _. split; [done|]. split; [done|].
    split; [|split; [|split; [|split]]].
    + unfold st_bind at 1, on_channel. rewrite Hc. rewrite (st_bind_eq _ _ _ _ _ Hrun). done.
    + simpl. by rewrite lookup_insert_eq.
    + done.
    + simpl. by rewrite decide_False.
    + intros t Ht. exact (completed_selects _ _ _ _ _ t Hco Ht).
Qed.

(** The first ready case of a poll order. *)
Fixpoint first_ready m As (cases : list (Case V)) (order : list nat) : option nat :=
  match order with
  | [] => None
  | i :: order =>
      match cases !! i with
      | Some k => if case_is_ready m As k then Some i else first_ready m As cases order
      | None => None
      end
  end.

Lemma first_ready_quiet w As w' As' cases order : quiet w As w' As' ->
  first_ready (w_mem w') As' cases order = first_ready (w_mem w) As cases order.
Proof.
  intros Hq. induction order as [|i order IH]; [done|]. simpl.
  destruct (cases !! i) as [k|]; [|done]. rewrite (q_ready _ _ _ _ Hq). by rewrite IH.
Qed.

Definition order_ok (cases : list (Case V)) (order : list nat) : Prop := forall i, i ∈ order -> i < length cases.

(** The scan: it stops at the first ready case, whose operation runs on a
    store that only lost stale waiters; with no ready case that is all that
    happens. *)
Lemma scan_run order : forall cases w As, wrep w As -> Forall (case_ok As) cases -> order_ok cases order ->
  match first_ready (w_mem w) As cases order with
  | None => exists w' As', scan order cases w = Some ((None, cases), w') /\ quiet w As w' As'
  | Some i => exists w1 As1 k ch st res wk A' c' k' w',
      quiet w As w1 As1 /\ cases !! i = Some k /\
      abs_case (w_mem w1) As1 k = Some (ch, st, res, wk, A') /\ st <> kBlocked /\
      scan order cases w = Some ((Some (i, wk), <[i := k']> cases), w') /\
      w_chans w' !! ch = Some c' /\ crep (w_mem w') c' A' /\ take_result k' = case_result st res k /\
      (forall s, is_Some (shared (w_mem w1) !! s) -> is_Some (shared (w_mem w') !! s))
  end.
Proof.
  induction order as [|i order IH]; intros cases w As Hw Hok Hord; cbn [first_ready scan].
  { exists w, As. split; [done|by apply quiet_refl]. }
  destruct (lookup_lt_is_Some_2 cases i) as [k Hk]; [apply Hord; left|]. rewrite Hk.
  assert (Hko : case_ok As k) by (rewrite Forall_lookup in Hok; by eapply Hok).
  destruct (case_is_ready (w_mem w) As k) eqn:Er.
  - destruct (case_try_ready w As k Hw Hko Er) as (ch & st & res & wk & A' & c' & k' & w' & Habs & Hst & Hrun & Hch & Hrep & Ht).
    exists w, As, k, ch, st, res, wk, A', c', k', w'. split; [by apply quiet_refl|]. do 3 (split; [done|]).
    split; [|done]. rewrite (st_bind_eq _ _ _ _ _ Hrun). cbn beta iota. by rewrite decide_False.
  - destruct (case_try_quiet w As k Hw Hko Er) as (w1 & As1 & Hrun & Hq).
    rewrite (st_bind_eq _ _ _ _ _ Hrun). cbn beta iota. rewrite decide_True by done.
    rewrite list_insert_id by done. specialize (IH cases w1 As1 (q_rep _ _ _ _ Hq)).
    rewrite (first_ready_quiet _ _ _ _ cases order Hq) in IH.
    assert (Hok1 : Forall (case_ok As1) cases) by (eapply Forall_impl; [done|]; intros x; apply Hq).
    specialize (IH Hok1 ltac:(intros j Hj; apply Hord; by right)).
    destruct (first_ready (w_mem w) As cases order) as [j|].
    + destruct IH as (w2 & As2 & k2 & ch & st & res & wk & A' & c' & k' & w' & Hq2 & Hrest).
      exists w2, As2, k2, ch, st, res, wk, A', c', k', w'. split; [by eapply quiet_trans|done].
    + destruct IH as (w' & As' & Hs & Hq2). exists w', As'. split; [done|by eapply quiet_trans].
Qed.
(** A case parked on its channel. *)
Definition park_case As (k : Case V) : gmap addr (AChan V) :=
  match k with
  | RecvCase (Some ch) node _ => alter (add_receiver node) ch As
  | SendCase (Some ch) node _ _ => alter (add_sender node) ch As
  | _ => As
  end.
Definition case_node (k : Case V) : option addr :=
  match k with RecvCase (Some _) n _ | SendCase (Some _) n _ _ => Some n | _ => None end.

Lemma alter_lookup_fwd As ch (f : AChan V -> AChan V) x B : alter f ch As !! x = Some B ->
  exists A, As !! x = Some A /\ (x = ch /\ B = f A \/ x <> ch /\ B = A).
Proof.
  destruct (decide (x = ch)) as [->|Hne].
  - rewrite lookup_alter_eq. destruct (As !! ch) as [A|]; [|done]. intros [= <-]. exists A. split; [done|by left].
  - rewrite lookup_alter_ne by done. intros H. exists B. split; [done|by right].
Qed.

(** Parking a fresh node on one channel keeps every channel represented. *)
Lemma wrep_park w As ch c A node (x : ChanWaiter V) m' c' (f : AChan V -> AChan V) q l q' :
  wrep w As -> As !! ch = Some A -> w_chans w !! ch = Some c -> nodes (w_mem w) !! node = None ->
  parkable (w_mem w) x -> dll (w_mem w) q l -> (forall a, a ∈ l -> a ∈ waiters A) ->
  (alloc_node node x;;; push_back node q) (w_mem w) = Some (q', m') ->
  crep m' c' (f A) -> (forall a, a ∈ waiters (f A) -> a = node \/ a ∈ waiters A) ->
  wrep (mkWorld m' (<[ch := c']> (w_chans w)) (w_timers w)) (alter f ch As) /\
  shared m' = shared (w_mem w) /\
  (forall a, a <> node -> nodes (w_mem w) !! a = None -> nodes m' !! a = None).
Proof.
  intros [Hrep Hdisj] HA Hc Hfr Hpk Hd Hl Hrun Hc' Hsub.
  assert (Hnin : forall x2 B, As !! x2 = Some B -> node ∉ waiters B).
  { intros x2 B HB Hin. destruct (Hrep x2 B HB) as (c2 & _ & H2).
    destruct (fresh_not_parked _ _ _ _ H2 Hfr) as [H3 H4]. by apply elem_of_app in Hin as [|]. }
  destruct (park_push (w_mem w) q l node x Hd) as (q2 & m2 & Hr2 & _ & Hp & Hout).
  { intros Hin. by apply (Hnin ch A HA), Hl. } { done. }
  rewrite Hrun in Hr2. injection Hr2 as <- <-. split; [|split].
  - split; cbn [w_mem w_chans].
    + intros x2 B HB. apply alter_lookup_fwd in HB as (A2 & HA2 & [[-> ->]|[Hne ->]]).
      { exists c'. rewrite lookup_insert_eq. split; [done|]. congruence. }
      destruct (Hrep x2 A2 HA2) as (c2 & Hc2 & H2). exists c2. rewrite lookup_insert_ne by done. split; [done|].
      assert (Hd2 : forall q2 l2, dll (w_mem w) q2 l2 -> (forall b, b ∈ l2 -> b ∈ waiters A2) -> dll m' q2 l2).
      { intros q2 l2 Hdl Hin. apply Hout; [done|]. intros b Hb [->|Hb2]%elem_of_cons.
        - by apply (Hnin x2 A2 HA2), Hin.
        - by rewrite (Hdisj x2 ch A2 A b HA2 HA (Hin b Hb) (Hl b Hb2)) in Hne. }
      pose proof (Hnin x2 A2 HA2) as Hn2. unfold waiters in Hn2. rewrite elem_of_app in Hn2.
      destruct Hpk as [Hk1 Hk2]. pose proof H2 as [].
      eapply (crep_parked (w_mem w) m' c2 c2 A2 A2 node x); try done.
      * apply Hd2; [done|]. intros b Hb. apply elem_of_app. by left.
      * apply Hd2; [done|]. intros b Hb. apply elem_of_app. by right.
      * intros b Hb. by right.
      * intros b Hb. by right.
      * intros Hb. exfalso. tauto.
      * intros Hb. exfalso. tauto.
    + intros x1 x2 B1 B2 a H1 H2 Ha1 Ha2.
      apply alter_lookup_fwd in H1 as (A1 & HA1 & E1), H2 as (A2 & HA2 & E2).
      assert (Hw : forall y B A0, As !! y = Some A0 -> (y = ch /\ B = f A0 \/ y <> ch /\ B = A0) ->
        a ∈ waiters B -> y = ch /\ a = node \/ a ∈ waiters A0).
      { intros y B A0 H0 [[-> ->]|[_ ->]] Hin; [|by right].
        assert (A0 = A) as -> by congruence. apply Hsub in Hin as [->|?]; [by left|by right]. }
      destruct (Hw _ _ _ HA1 E1 Ha1) as [[-> ->]|Hi1], (Hw _ _ _ HA2 E2 Ha2) as [[-> Hn]|Hi2]; try done.
      * by apply (Hnin _ _ HA2) in Hi2.
      * subst a. by apply (Hnin _ _ HA1) in Hi1.
      * by apply (Hdisj x1 x2 A1 A2 a).
  - apply Hp.
  - intros a Hne Ha. destruct Hp as [_ Ho _]. specialize (Ho a Hne). rewrite Ha in Ho.
    by destruct (nodes m' !! a).
Qed.

Lemma case_ok_park As k k' : case_ok As k -> case_ok (park_case As k') k.
Proof.
  assert (H : forall ch f x, is_Some (As !! x) -> is_Some (alter f ch As !! x)).
  { intros ch f x [A HA]. destruct (decide (ch = x)) as [->|].
    - rewrite lookup_alter_eq, HA. by eexists.
    - rewrite lookup_alter_ne by done. by eexists. }
  destruct k as [[x|] ? ?|[x|] ? ? ?| |], k' as [[y|] ? ?|[y|] ? ? ?| |]; simpl; auto;
    intros [? ?]; split; auto.
Qed.

Lemma case_enqueue_run w As s h i k sh : wrep w As -> case_ok As k ->
  (forall n, case_node k = Some n -> nodes (w_mem w) !! n = None) -> shared (w_mem w) !! s = Some sh ->
  exists w', case_enqueue s h i k w = Some (tt, w') /\ wrep w' (park_case As k) /\
    shared (w_mem w') = shared (w_mem w) /\
    (forall a, case_node k <> Some a -> nodes (w_mem w) !! a = None -> nodes (w_mem w') !! a = None).
Proof.
  intros Hw Hok Hfr Hsh. destruct k as [[ch|] node v|[ch|] node v ok| |]; simpl in *;
    try (exists w; split; [done|]; split; [done|]; split; done).
  - destruct Hok as [A HA]. destruct (wr_chan _ _ Hw _ _ HA) as (c & Hc & Hrep). specialize (Hfr node eq_refl).
    set (x := init_waiter s (Z.of_nat i) h (SlotRecv v)).
    assert (Hpk : parkable (w_mem w) x) by (split; [|done]; intros t [= <-]; by eexists).
    destruct (park_recv_run (w_mem w) c A node x v Hrep Hfr Hpk eq_refl) as (q & m' & Hrun & Hc' & _).
    destruct (wrep_park w As ch c A node x m' (set_lists (senders c) q c) (add_receiver node) (receivers c) (a_recv A) q
      Hw HA Hc Hfr Hpk (cr_recv _ _ _ Hrep)) as (Hw' & Hs' & Hfr'); [|done|done| |].
    { intros a Ha. apply elem_of_app. by right. }
    { intros a [Ha|[Ha|Ha%list_elem_of_singleton]%elem_of_app]%elem_of_app; [right|right|by left]; apply elem_of_app; [by left|by right]. }
    eexists. split; [|split; [exact Hw'|split; [done|]]].
    + unfold st_bind, in_mem, on_channel. cbn. rewrite Hc. unfold st_bind, alloc_node, st_modify in Hrun.
      fold x. rewrite Hrun. done.
    + intros a Hne. apply Hfr'. congruence.
  - destruct Hok as [[A HA] [y ->]]. destruct (wr_chan _ _ Hw _ _ HA) as (c & Hc & Hrep). specialize (Hfr node eq_refl).
    set (x := init_waiter s (Z.of_nat i) h (SlotSend (Some y))).
    assert (Hpk : parkable (w_mem w) x) by (split; [|done]; intros t [= <-]; by eexists).
    destruct (park_send_run (w_mem w) c A node x y Hrep Hfr Hpk eq_refl) as (q & m' & Hrun & Hc' & _).
    destruct (wrep_park w As ch c A node x m' (set_lists q (receivers c) c) (add_sender node) (senders c) (a_send A) q
      Hw HA Hc Hfr Hpk (cr_send _ _ _ Hrep)) as (Hw' & Hs' & Hfr'); [|done|done| |].
    { intros a Ha. apply elem_of_app. by left. }
    { intros a [[Ha|Ha%list_elem_of_singleton]%elem_of_app|Ha]%elem_of_app; [right|by left|right]; apply elem_of_app; [by left|by right]. }
    eexists. split; [|split; [exact Hw'|split; [done|]]].
    + unfold st_bind, in_mem, on_channel. cbn. rewrite Hc. unfold st_bind, alloc_node, st_modify in Hrun.
      fold x. rewrite Hrun. done.
    + intros a Hne. apply Hfr'. congruence.
Qed.

(** The nodes of the cases are distinct and not yet in use. *)
Definition nodes_fresh m (cases : list (Case V)) : Prop :=
  NoDup (omap case_node cases) /\ forall n, n ∈ omap case_node cases -> nodes m !! n = None.

Lemma enqueue_all_run s h cases : forall i w As sh, wrep w As -> Forall (case_ok As) cases ->
  nodes_fresh (w_mem w) cases -> shared (w_mem w) !! s = Some sh ->
  exists w', for_each_case (fun i (x : Case V) => case_enqueue s h i x;;; st_ret x) i cases w = Some (cases, w') /\
    wrep w' (foldl park_case As cases) /\ shared (w_mem w') = shared (w_mem w).
Proof.
  induction cases as [|k cases IH]; intros i w As sh Hw Hok [Hnd Hfr] Hsh; cbn [for_each_case foldl].
  { exists w. split; [done|]. by split. }
  apply Forall_cons in Hok as [Hk Hok].
  assert (Hfk : forall n, case_node k = Some n -> nodes (w_mem w) !! n = None).
  { intros n Hn. apply Hfr. simpl. rewrite Hn. left. }
  destruct (case_enqueue_run w As s h i k sh Hw Hk Hfk Hsh) as (w1 & Hrun & Hw1 & Hs1 & Hf1).
  destruct (IH (S i) w1 (park_case As k) sh) as (w' & Hr' & Hw' & Hs').
  - done.
  - eapply Forall_impl; [exact Hok|]. intros x. apply case_ok_park.
  - simpl in Hnd, Hfr. destruct (case_node k) as [n0|].
    + apply NoDup_cons in Hnd as [Hn0 Hnd]. split; [done|]. intros n Hn. apply Hf1.
      * intros [= ->]. done.
      * apply Hfr. by right.
    + split; [done|]. intros n Hn. by apply Hf1, Hfr.
  - congruence.
  - exists w'. split; [|split; [done|congruence]].
    unfold st_bind at 1 2. unfold st_bind at 1. rewrite Hrun. unfold st_ret at 1.
    rewrite Hr'. done.
Qed.
Lemma store_winner_run s i w sh : shared (w_mem w) !! s = Some sh ->
  exists w', store_winner s i w = Some (tt, w') /\ w_chans w' = w_chans w /\ w_timers w' = w_timers w /\
    nodes (w_mem w') = nodes (w_mem w) /\
    shared (w_mem w') = <[s := mkShared (Z.of_nat i) (phase sh) (sel_handle sh)]> (shared (w_mem w)).
Proof.
  intros H. unfold store_winner, in_mem, upd_shared, get_shared, st_lift, st_modify, st_bind. rewrite H.
  by eexists.
Qed.
End multi.

(** ** The phase handshake *)

(** One select between [unlock_all] and the end of its wait: its shared word,
    the outcome of [setup]'s compare-exchange, the wakers that claimed it and
    have not yet exchanged the phase, and how often a waker resumed it. *)
Record Handshake := mkHandshake {
  hs_shared : SelectShared;
  hs_setup : option bool;
  hs_claimed : nat;
  hs_resumes : nat
}.

Inductive hs_step : Handshake -> Handshake -> Prop :=
  | hs_claim sh o n r i ok sh' : i <> kNoWinner -> claim_winner i sh = (ok, sh') ->
      hs_step (mkHandshake sh o n r) (mkHandshake sh' o (if ok : bool then S n else n) r)
  | hs_exchange sh o n r owned sh' : exchange_resumed sh = (owned, sh') ->
      hs_step (mkHandshake sh o (S n) r) (mkHandshake sh' o n (if owned : bool then S r else r))
  | hs_park sh n r parked sh' : cas_parked sh = (parked, sh') ->
      hs_step (mkHandshake sh None n r) (mkHandshake sh' (Some parked) n r).

Definition hs_init (s : Handshake) : Prop :=
  exists h, s = mkHandshake (mkShared kNoWinner kSelectSetup h) None 0 0.

(** How often the coroutine runs on: inline from [setup], or by a waker. *)
Definition resumptions (s : Handshake) : nat :=
  hs_resumes s + match hs_setup s with Some false => 1 | _ => 0 end.

(** Where the protocol is. *)
Definition hs_inv (s : Handshake) : Prop :=
  let waiting := phase (hs_shared s) = match hs_setup s with Some true => kSelectParked | _ => kSelectSetup end /\
    hs_setup s <> Some false /\ hs_resumes s = 0 in
  (winner (hs_shared s) = kNoWinner /\ hs_claimed s = 0 /\ waiting) \/
  (winner (hs_shared s) <> kNoWinner /\ hs_claimed s = 1 /\ waiting) \/
  (winner (hs_shared s) <> kNoWinner /\ hs_claimed s = 0 /\ phase (hs_shared s) = kSelectResumed /\
   resumptions s = match hs_setup s with None => 0 | _ => 1 end).

Lemma hs_step_inv s s' : hs_inv s -> hs_step s s' -> hs_inv s'.
Proof.
  unfold hs_inv, resumptions. intros Hi Hs. destruct Hs as [sh o n r i ok sh' Hi0 Hc|sh o n r owned sh' Hc|sh n r parked sh' Hc];
    unfold claim_winner, exchange_resumed, cas_parked in Hc; simpl in *; revert Hc;
    try case_decide; intros Hc; inversion Hc; subst; clear Hc; simpl in *.
  - right. left. destruct Hi as [(? & ? & ?)|[(? & ? & ?)|(? & ? & ?)]]; [|done|done]. split; [done|]. split; [lia|done].
  - destruct Hi as [(? & ? & ?)|[(? & ? & ?)|(? & ? & ?)]]; tauto.
  - right. right. destruct Hi as [(? & ? & ?)|[(Hw & Hn & Hph & Ho & Hr)|(? & ? & ?)]]; [lia| |lia].
    split; [done|]. split; [lia|]. split; [done|]. rewrite H in Hph.
    destruct o as [[]|]; [lia|done|discriminate].
  - right. right. destruct Hi as [(? & ? & ?)|[(Hw & Hn & Hph & Ho & Hr)|(? & ? & ?)]]; [lia| |lia].
    split; [done|]. split; [lia|]. split; [done|]. destruct o as [[]|]; [done|done|lia].
  - destruct Hi as [(? & ? & ? & ? & ?)|[(? & ? & ? & ? & ?)|(? & ? & Hp & ?)]].
    + left. repeat split; done.
    + right. left. repeat split; done.
    + exfalso. unfold kSelectSetup, kSelectResumed in *. congruence.
  - destruct Hi as [(? & ? & ? & ? & ?)|[(? & ? & ? & ? & ?)|(? & ? & Hp & ?)]]; [done|done|].
    right. right. repeat split; try done. lia.
Qed.
