(* ===== verification/SelectProps.v ===== *)
(** * Properties of select

    Uniform poll orders, the lock order, the choice of the first ready case,
    and the single resumption of a parked select. *)

From Stdlib Require Import Sorting.Sorted.
From S2P Require Import Prelude Result Chan ChanList ChanSpec ChanSystem ChanProps Select SelectSpec.

Set Default Proof Using "Type".

(** ** Poll orders *)

Lemma draws_ok_valid n draw : 4 <= n -> valid_draw n draw <-> draws_ok n draw.
Proof.
  intros Hn. unfold valid_draw, draws_ok.
  replace (draw_bounds n) with (seq 2 (n - 1)) by (destruct n as [|[|[|[|]]]]; done || lia). split.
  - intros H k Hk. apply H, elem_of_seq. lia.
  - intros H k Hk%elem_of_seq. apply H. lia.
Qed.

Lemma fill_poll_order_big n draw : 4 <= n -> fill_poll_order n draw = shuffle n draw (seq 0 n).
Proof. intros H. destruct n as [|[|[|[|]]]]; [lia..|done]. Qed.

Lemma perm_01 l : l ≡ₚ [0; 1] -> l = [0; 1] \/ l = [1; 0].
Proof. intros H. symmetry in H. by apply Permutation_length_2_inv in H as [|]; [left|right]. Qed.

(** [fill_poll_order]: every order of [seq 0 kCount], each from one sequence
    of draws. *)
Lemma fill_poll_order_uniform kCount order (Hk : 0 < kCount) :
  (forall draw, valid_draw kCount draw ->
    exists l, fill_poll_order kCount draw = Some l /\ l ≡ₚ seq 0 kCount) /\
  (order ≡ₚ seq 0 kCount ->
    exists draw, valid_draw kCount draw /\ fill_poll_order kCount draw = Some order /\
      forall draw', valid_draw kCount draw' -> fill_poll_order kCount draw' = Some order ->
        forall n, n ∈ draw_bounds kCount -> draw' n = draw n).
Proof.
  destruct (decide (4 <= kCount)) as [Hbig|Hsmall].
  - assert (Hl : kCount <= length (seq 0 kCount)) by by rewrite length_seq.
    split.
    + intros draw Hd%draws_ok_valid; [|done]. rewrite fill_poll_order_big by done.
      destruct (shuffle_perm kCount draw (seq 0 kCount) Hl Hd) as (l & H1 & H2 & _). by exists l.
    + intros Hp. destruct (shuffle_surj kCount (seq 0 kCount) order) as (draw & Hd & Hs); [apply NoDup_seq|done|done| |].
      { intros k Hge. rewrite !lookup_ge_None_2; [done|..]; rewrite ?Hp, length_seq; lia. }
      exists draw. rewrite fill_poll_order_big by done. split; [by apply draws_ok_valid|]. split; [done|].
      intros draw' Hd'%draws_ok_valid; [|done]. rewrite fill_poll_order_big by done. intros Hs' n Hn.
      apply (shuffle_inj kCount draw' draw (seq 0 kCount) order (NoDup_seq _ _) Hl Hd' Hd Hs' Hs).
      replace (draw_bounds kCount) with (seq 2 (kCount - 1)) in Hn by (destruct kCount as [|[|[|[|]]]]; done || lia).
      apply elem_of_seq in Hn. lia.
  - destruct kCount as [|[|[|[|]]]]; try lia.
    + split; [by exists [0]|]. intros Hp%Permutation_singleton_r. subst order.
      exists (fun _ => 0). split; [intros n Hn; by apply not_elem_of_nil in Hn|]. split; [done|].
      intros draw' _ _ n Hn. by apply not_elem_of_nil in Hn.
    + assert (Hin : forall n, n ∈ draw_bounds 2 <-> n = 2) by (intros n; apply list_elem_of_singleton).
      split.
      * intros draw Hd. specialize (Hd 2 ltac:(by apply Hin)). simpl. eexists. split; [done|].
        assert (draw 2 = 0 \/ draw 2 = 1) as [-> | ->] by lia; [done|]. apply Permutation_swap.
      * intros [-> | ->]%perm_01.
        -- exists (fun _ => 0). split; [intros n ->%Hin; lia|]. split; [done|].
           intros draw' Hd' [= H] n ->%Hin. done.
        -- exists (fun _ => 1). split; [intros n ->%Hin; lia|]. split; [done|].
           intros draw' Hd' [= H] n ->%Hin. done.
    + assert (Hin : forall n, n ∈ draw_bounds 3 <-> n = 6) by (intros n; apply list_elem_of_singleton).
      split.
      * intros draw Hd. specialize (Hd 6 ltac:(by apply Hin)). unfold fill_poll_order.
        destruct (lookup_lt_is_Some_2 kOrders (draw 6) ltac:(simpl; lia)) as [l Hl]. exists l. split; [done|].
        apply list_elem_of_lookup_2 in Hl. unfold kOrders in Hl.
        repeat (apply elem_of_cons in Hl as [->|Hl]; [apply (bool_decide_unpack _); by vm_compute|]).
        by apply not_elem_of_nil in Hl.
      * intros Hp%kOrders_complete. apply list_elem_of_lookup in Hp as [i Hi].
        pose proof (lookup_lt_Some _ _ _ Hi) as Hb. simpl in Hb.
        exists (fun _ => i). split; [intros n ->%Hin; lia|]. split; [done|].
        intros draw' Hd' Hi' n ->%Hin. apply (NoDup_lookup kOrders _ _ order); [|done|done].
        apply (bool_decide_unpack _). by vm_compute.
Qed.

Lemma channel_cases_ge {V} (cases : list (Case V)) : forall i j, j ∈ channel_cases i cases -> i <= j.
Proof. induction cases as [|c cases IH]; intros i j; cbn; [by intros ?%elem_of_nil|]. case_match; [rewrite elem_of_cons; intros [->|Hj]|intros Hj]; [done|..]; apply IH in Hj; lia. Qed.
Lemma channel_cases_nodup {V} (cases : list (Case V)) : forall i, NoDup (channel_cases i cases).
Proof.
  induction cases as [|c cases IH]; intros i; cbn; [constructor|]. case_match; [|apply IH]. constructor; [|apply IH].
  intros Hi%channel_cases_ge. lia.
Qed.
Lemma channel_cases_all {V} (cases : list (Case V)) : forall i, length (channel_cases i cases) = length cases -> channel_cases i cases = seq i (length cases).
Proof.
  assert (forall l i, length (channel_cases i l) <= length (A := Case V) l) as Hle.
  { induction l as [|c l IH]; intros i; cbn; [done|]. specialize (IH (S i)). case_match; cbn; lia. }
  induction cases as [|c cases IH]; intros i; cbn; [done|]. specialize (Hle cases (S i)). case_match; cbn; [|lia].
  intros [= Hlen]. by rewrite IH.
Qed.

Lemma fill_channel_big l draw : 4 <= length l -> fill_channel_poll_order l draw = shuffle (length l) draw l.
Proof. intros H. unfold fill_channel_poll_order. destruct (length l) as [|[|[|[|]]]]; [lia..|done]. Qed.

Lemma kOrders_bounded p i : p ∈ kOrders -> i ∈ p -> i < 3.
Proof.
  unfold kOrders. intros Hp Hi.
  repeat (apply elem_of_cons in Hp as [->|Hp]; [repeat (apply elem_of_cons in Hi as [->|Hi]; [lia|]); by apply not_elem_of_nil in Hi|]).
  by apply not_elem_of_nil in Hp.
Qed.

(** Picking by a permutation of the positions gives a permutation. *)
Lemma picked_perm (l : list nat) p : p ∈ kOrders -> 3 = length l -> exists l', mapM (fun i => l !! i) p = Some l' /\ l' ≡ₚ l.
Proof.
  destruct l as [|a [|b [|c [|]]]]; try done. intros Hp _. unfold kOrders in Hp.
  repeat (apply elem_of_cons in Hp as [->|Hp]; [cbn; eexists; split; [done|]; solve_Permutation|]).
  by apply not_elem_of_nil in Hp.
Qed.

(** Every order of three is such a pick. *)
Lemma perm_picked (l order : list nat) : length l = 3 -> order ≡ₚ l ->
  exists p, p ∈ kOrders /\ mapM (fun i => l !! i) p = Some order.
Proof.
  destruct l as [|a [|b [|c [|]]]]; try done. intros _ Hp. symmetry in Hp.
  apply Permutation_cons_inv_l in Hp as (l1 & l2 & -> & Hp).
  apply Permutation_length_2_inv in Hp as [Hp|Hp];
    (destruct l1 as [|x [|y [|]]]; cbn in Hp; simplify_eq/=).
  - exists [0; 1; 2]. split; [apply (bool_decide_unpack _); by vm_compute|done].
  - exists [1; 0; 2]. split; [apply (bool_decide_unpack _); by vm_compute|done].
  - exists [1; 2; 0]. split; [apply (bool_decide_unpack _); by vm_compute|done].
  - exists [0; 2; 1]. split; [apply (bool_decide_unpack _); by vm_compute|done].
  - exists [2; 0; 1]. split; [apply (bool_decide_unpack _); by vm_compute|done].
  - exists [2; 1; 0]. split; [apply (bool_decide_unpack _); by vm_compute|done].
Qed.

(** Distinct picks of distinct values differ. *)
Lemma picked_inj (l : list nat) p p' order : NoDup l -> mapM (fun i => l !! i) p = Some order ->
  mapM (fun i => l !! i) p' = Some order -> p' = p.
Proof.
  intros Hnd. rewrite !mapM_Some. revert p p'. induction order as [|x order IH]; intros p p' H1 H2.
  - apply Forall2_nil_inv_r in H1, H2. congruence.
  - apply Forall2_cons_inv_r in H1 as (i & q & Hi & Hq & ->), H2 as (i' & q' & Hi' & Hq' & ->).
    f_equal; [by apply (NoDup_lookup l _ _ x)|by apply IH].
Qed.

Lemma fill_channel_uniform l order : NoDup l ->
  (forall draw, valid_draw (length l) draw -> exists l', fill_channel_poll_order l draw = Some l' /\ l' ≡ₚ l) /\
  (order ≡ₚ l -> exists draw, valid_draw (length l) draw /\ fill_channel_poll_order l draw = Some order /\
      forall draw', valid_draw (length l) draw' -> fill_channel_poll_order l draw' = Some order ->
        forall n, n ∈ draw_bounds (length l) -> draw' n = draw n).
Proof.
  intros Hnd. destruct (decide (4 <= length l)) as [Hbig|Hsmall].
  - split.
    + intros draw Hd%draws_ok_valid; [|done]. rewrite fill_channel_big by done.
      destruct (shuffle_perm (length l) draw l ltac:(done) Hd) as (l' & H1 & H2 & _). by exists l'.
    + intros Hp. destruct (shuffle_surj (length l) l order) as (draw & Hd & Hs); [done|done|done| |].
      { intros k Hge. rewrite !lookup_ge_None_2; [done|..]; rewrite ?Hp; lia. }
      exists draw. rewrite fill_channel_big by done. split; [by apply draws_ok_valid|]. split; [done|].
      intros draw' Hd'%draws_ok_valid; [|done]. rewrite fill_channel_big by done. intros Hs' n Hn.
      apply (shuffle_inj (length l) draw' draw l order Hnd ltac:(done) Hd' Hd Hs' Hs).
      replace (draw_bounds (length l)) with (seq 2 (length l - 1)) in Hn by (destruct (length l) as [|[|[|[|]]]]; done || lia).
      apply elem_of_seq in Hn. lia.
  - destruct l as [|a [|b [|c [|]]]]; cbn in Hsmall; try lia.
    + split; [by exists []|]. intros Hp%Permutation_nil_r. subst order. exists (fun _ => 0). split; [by intros n Hn%not_elem_of_nil|]. split; [done|]. by intros draw' _ _ n Hn%not_elem_of_nil.
    + split; [by exists [a]|]. intros Hp%Permutation_singleton_r. subst order. exists (fun _ => 0). split; [by intros n Hn%not_elem_of_nil|]. split; [done|]. by intros draw' _ _ n Hn%not_elem_of_nil.
    + assert (Hin : forall n, n ∈ draw_bounds 2 <-> n = 2) by (intros n; apply list_elem_of_singleton).
      assert (a <> b) as Hab by (intros ->; by inversion Hnd as [|?? Hx]; destruct Hx; left).
      unfold fill_channel_poll_order, swap_at. cbn [length]. split.
      * intros draw Hd. specialize (Hd 2 ltac:(by apply Hin)). case_decide; cbn; (eexists; split; [done|]); [apply Permutation_swap|done].
      * intros Hp. symmetry in Hp. apply Permutation_length_2_inv in Hp as [-> | ->].
        -- exists (fun _ => 0). split; [intros n ->%Hin; lia|]. split; [done|].
           intros draw' Hd' Ho n ->%Hin. revert Ho. case_decide; cbn; [by intros [= ->]|lia].
        -- exists (fun _ => 1). split; [intros n ->%Hin; lia|]. split; [done|].
           intros draw' Hd' Ho n ->%Hin. specialize (Hd' 2 ltac:(by apply Hin)). revert Ho. case_decide; cbn; [lia|by intros [= ->]].
    + assert (Hin : forall n, n ∈ draw_bounds 3 <-> n = 6) by (intros n; apply list_elem_of_singleton).
      unfold fill_channel_poll_order. cbn [length]. split.
      * intros draw Hd. specialize (Hd 6 ltac:(by apply Hin)).
        destruct (lookup_lt_is_Some_2 kOrders (draw 6) ltac:(simpl; lia)) as [p Hp]. rewrite Hp. cbn [mbind option_bind].
        apply picked_perm; [by eapply list_elem_of_lookup_2|done].
      * intros Hp. destruct (perm_picked [a; b; c] order eq_refl Hp) as (p & Hpin & Hpick).
        apply list_elem_of_lookup in Hpin as [i Hi]. pose proof (lookup_lt_Some _ _ _ Hi) as Hb. simpl in Hb.
        exists (fun _ => i). split; [intros n ->%Hin; lia|]. split; [by rewrite Hi|].
        intros draw' Hd' Ho n ->%Hin. destruct (kOrders !! draw' 6) as [p'|] eqn:Hp'; [|done]. cbn [mbind option_bind] in Ho.
        assert (p' = p) as -> by (by apply (picked_inj [a; b; c] p p' order Hnd)).
        apply (NoDup_lookup kOrders _ _ p); [|done|done]. apply (bool_decide_unpack _). by vm_compute.
Qed.

Lemma channel_cases_spec {V} (cases : list (Case V)) : forall i j,
  j ∈ channel_cases i cases <-> exists c, i <= j /\ cases !! (j - i) = Some c /\ is_channel_case c = true.
Proof.
  induction cases as [|c cases IH]; intros i j; cbn [channel_cases].
  { rewrite elem_of_nil. split; [done|]. intros (c & _ & Hc & _). by rewrite lookup_nil in Hc. }
  assert (Hstep : i < j -> (c :: cases) !! (j - i) = cases !! (j - S i)).
  { intros Hlt. by replace (j - i) with (S (j - S i)) by lia. }
  destruct (is_channel_case c) eqn:Hc.
  - rewrite elem_of_cons, IH. split.
    + intros [->|(c' & Hle & Hl & Hc')]; [exists c; by rewrite Nat.sub_diag|]. exists c'. rewrite Hstep by lia. auto with lia.
    + intros (c' & Hle & Hl & Hc'). destruct (decide (j = i)) as [|Hne]; [by left|]. right. exists c'.
      rewrite Hstep in Hl by lia. auto with lia.
  - rewrite IH. split.
    + intros (c' & Hle & Hl & Hc'). exists c'. rewrite Hstep by lia. auto with lia.
    + intros (c' & Hle & Hl & Hc'). destruct (decide (j = i)) as [->|Hne]; [rewrite Nat.sub_diag in Hl; cbn in Hl; congruence|].
      exists c'. rewrite Hstep in Hl by lia. auto with lia.
Qed.

(** C12: the poll order of a select is uniform over its channel cases, whether
    or not it also has a timeout or a default. Every draw within its bound
    gives a permutation of the indices of the channel cases, and every such
    permutation has exactly one sequence of draws that gives it, so uniform
    draws make every order equally likely and no ready case is favoured by its
    position or by its neighbours. *)
Theorem poll_order_uniform {V} (cases : list (Case V)) (order : list nat) :
  let k := length (channel_cases 0 cases) in
  (forall i, i ∈ channel_cases 0 cases <-> exists c, cases !! i = Some c /\ is_channel_case c = true) /\
  NoDup (channel_cases 0 cases) /\
  (forall draw, valid_draw k draw ->
    exists l, select_poll_order cases draw = Some l /\ l ≡ₚ channel_cases 0 cases) /\
  (order ≡ₚ channel_cases 0 cases ->
    exists draw, valid_draw k draw /\ select_poll_order cases draw = Some order /\
      forall draw', valid_draw k draw' -> select_poll_order cases draw' = Some order ->
        forall n, n ∈ draw_bounds k -> draw' n = draw n).
Proof.
  intros k. split.
  { intros i. rewrite channel_cases_spec, Nat.sub_0_r. split; intros (c & H); exists c; intuition lia. }
  split; [apply channel_cases_nodup|].
  unfold select_poll_order. case_decide as Hall; [|by apply fill_channel_uniform, channel_cases_nodup].
  unfold k. rewrite Hall, (channel_cases_all cases 0 Hall). destruct cases as [|c cases]; [|apply fill_poll_order_uniform; cbn; lia].
  split; [by exists []|]. intros ->%Permutation_nil_r. exists (fun _ => 0).
  split; [by intros n Hn%not_elem_of_nil|]. split; [done|]. by intros draw' _ _ n Hn%not_elem_of_nil.
Qed.

(** ** Locks *)

(** The locks of a select are exactly the channels of its cases, each once
    however often a channel is named, and in ascending order. Two selects
    therefore take any two common channels in the same order, which excludes a
    deadlock between them. *)
Theorem select_lock_order {V} (cases : list (Case V)) (other : list addr) :
  ascending (lock_order (collect_channels cases)) /\
  (forall ch, ch ∈ lock_order (collect_channels cases) <-> exists c, c ∈ cases /\ case_channel c = Some ch) /\
  (forall i j i' j' x y, lock_order (collect_channels cases) !! i = Some x ->
    lock_order (collect_channels cases) !! j = Some y -> lock_order other !! i' = Some x ->
    lock_order other !! j' = Some y -> i < j <-> i' < j').
Proof.
  destruct (lock_order_run (collect_channels cases)) as [Ha He].
  split; [done|]. split.
  { intros ch. rewrite He. unfold collect_channels. by rewrite list_elem_of_omap. }
  destruct (lock_order_run other) as [Hb _].
  assert (Hidx : forall l, ascending l -> forall i j x y, l !! i = Some x -> l !! j = Some y -> i < j <-> x < y).
  { clear. intros l Hs. induction Hs as [|a l Hs IH Hall]; [done|]. rewrite Forall_lookup in Hall.
    intros [|i] [|j] x y Hx Hy; simpl in *.
    - injection Hx as ->. injection Hy as ->. lia.
    - injection Hx as ->. specialize (Hall j y Hy). lia.
    - injection Hy as ->. specialize (Hall i x Hx). lia.
    - rewrite <- (IH i j x y Hx Hy). lia. }
  intros i j i' j' x y H1 H2 H3 H4. rewrite (Hidx _ Ha i j x y H1 H2). by rewrite (Hidx _ Hb i' j' x y H3 H4).
Qed.

(** ** The choice *)

(** The critical section of a select. If some case is ready it takes the
    first one in poll order, on a store that only lost stale waiters: the
    case's channel makes the abstract send or receive step, the case holds the
    result, and the winner is stored. With no ready case, a default case wins
    and changes no channel; without one, every channel case is parked, in
    tuple order, on the list of its own channel and nothing else changes. *)
Theorem select_takes_first_ready {V} (w : World V) As cases order s sh h
  (Hw : wrep w As) (Hok : Forall (case_ok As) cases) (Hord : order_ok cases order)
  (Hfresh : nodes_fresh (w_mem w) cases) (Hsh : shared (w_mem w) !! s = Some sh) :
  match first_ready (w_mem w) As cases order with
  | Some i =>
      exists w1 As1 k ch st res wk A' c' k' w' sh', quiet w As w1 As1 /\ cases !! i = Some k /\
        abs_case (w_mem w1) As1 k = Some (ch, st, res, wk, A') /\ st <> kBlocked /\
        setup_locked s h order cases w = Some ((Ready i, wk, <[i := k']> cases), w') /\
        w_chans w' !! ch = Some c' /\ crep (w_mem w') c' A' /\
        take_result k' = case_result st res k /\
        shared (w_mem w') !! s = Some sh' /\ winner sh' = Z.of_nat i
  | None =>
      exists w1 As1 w', quiet w As w1 As1 /\
        if has_default cases then
          setup_locked s h order cases w = Some ((Defaulted (default_index 0 0 cases), None, cases), w') /\
          w_chans w' = w_chans w1 /\ nodes (w_mem w') = nodes (w_mem w1) /\
          shared (w_mem w') = <[s := mkShared (Z.of_nat (default_index 0 0 cases)) (phase sh) (sel_handle sh)]>
            (shared (w_mem w))
        else
          setup_locked s h order cases w = Some ((Enqueued, None, cases), w') /\
          wrep w' (foldl park_case As1 cases) /\ shared (w_mem w') = shared (w_mem w)
  end.
Proof.
  pose proof (scan_run order cases w As Hw Hok Hord) as Hscan. unfold setup_locked.
  destruct (first_ready (w_mem w) As cases order) as [i|].
  - destruct Hscan as (w1 & As1 & k & ch & st & res & wk & A' & c' & k' & w2 & Hq & Hk & Habs & Hst & Hrun & Hch & Hrep & Ht & Hdom).
    destruct (Hdom s) as [sh2 Hsh2]; [rewrite (q_shared _ _ _ _ Hq), Hsh; by eexists|].
    destruct (store_winner_run s i w2 sh2 Hsh2) as (w' & Hst' & Hc' & _ & Hn' & Hs').
    exists w1, As1, k, ch, st, res, wk, A', c', k', w', (mkShared (Z.of_nat i) (phase sh2) (sel_handle sh2)).
    do 4 (split; [done|]). split; [|split; [congruence|split; [|split; [done|split; [|done]]]]].
    + rewrite (st_bind_eq _ _ _ _ _ Hrun). cbn beta iota. by rewrite (st_bind_eq _ _ _ _ _ Hst').
    + apply (crep_shared (w_mem w2)); [done|done|]. intros t Hdt. rewrite Hs'.
      destruct (decide (t = s)) as [->|]; [by rewrite lookup_insert_eq; eexists|by rewrite lookup_insert_ne].
    + rewrite Hs'. by rewrite lookup_insert_eq.
  - destruct Hscan as (w1 & As1 & Hrun & Hq). exists w1, As1.
    assert (Hsh1 : shared (w_mem w1) !! s = Some sh) by (by rewrite (q_shared _ _ _ _ Hq)).
    destruct (has_default cases) eqn:Ed.
    + destruct (store_winner_run s (default_index 0 0 cases) w1 sh Hsh1) as (w' & Hst' & Hc' & _ & Hn' & Hs').
      exists w'. split; [done|]. split; [|split; [done|split; [done|by rewrite Hs', (q_shared _ _ _ _ Hq)]]].
      rewrite (st_bind_eq _ _ _ _ _ Hrun). cbn beta iota. rewrite Ed. cbv zeta. by rewrite (st_bind_eq _ _ _ _ _ Hst').
    + destruct (enqueue_all_run s h cases 0 w1 As1 sh) as (w' & Henq & Hw' & Hs').
      * apply Hq.
      * eapply Forall_impl; [exact Hok|]. intros x. apply Hq.
      * destruct Hfresh as [Hnd Hf]. split; [done|]. intros n Hn. by apply Hq, Hf.
      * done.
      * exists w'. split; [done|]. split; [|split; [done|by rewrite Hs', (q_shared _ _ _ _ Hq)]].
        rewrite (st_bind_eq _ _ _ _ _ Hrun). cbn beta iota. rewrite Ed. by rewrite (st_bind_eq _ _ _ _ _ Henq).
Qed.

(** ** The resumption *)

(** C11: a select's coroutine runs on at most once, whichever channel, timer or
    closing waker claims it and however its phase exchange interleaves with
    [setup]; once the select is claimed, the waker has exchanged the phase and
    [setup] has finished, it runs on exactly once; and while nobody claimed it
    after it parked, it stays parked. *)
Theorem select_resumed_once s (Hr : reachable hs_init hs_step s) :
  resumptions s <= 1 /\
  (winner (hs_shared s) <> kNoWinner -> hs_claimed s = 0 -> hs_setup s <> None -> resumptions s = 1) /\
  (winner (hs_shared s) = kNoWinner -> hs_setup s = Some true ->
    phase (hs_shared s) = kSelectParked /\ resumptions s = 0).
Proof.
  assert (Hi : hs_inv s).
  { apply (reachable_invariant (init := hs_init) (step := hs_step) hs_inv); [| |done].
    - intros x [h ->]. left. simpl. repeat split; done.
    - intros x y _. apply hs_step_inv. }
  unfold hs_inv, resumptions in *. destruct (hs_setup s) as [[]|];
    destruct Hi as [(? & ? & ? & ? & ?)|[(? & ? & ? & ? & ?)|(? & ? & ? & ?)]]; try done; repeat split; try done; try lia.
Qed.

(** ** Witnesses *)

(** A select over three channels with a default in the middle. *)
Definition ex_poll_cases : list (Case nat) :=
  [RecvCase (Some 1) 10 None; DefaultCase; SendCase (Some 2) 11 (Some 7) false; RecvCase None 12 None].

Lemma poll_order_uniform_witness :
  valid_draw (length (channel_cases 0 ex_poll_cases)) (fun _ => 5) /\
  exists l, select_poll_order ex_poll_cases (fun _ => 5) = Some l /\ l ≡ₚ [0; 2; 3].
Proof.
  assert (H : valid_draw (length (channel_cases 0 ex_poll_cases)) (fun _ => 5)).
  { intros n Hn. apply list_elem_of_singleton in Hn as ->. lia. }
  split; [exact H|].
  exact (proj1 (proj2 (proj2 (poll_order_uniform ex_poll_cases []))) _ H).
Defined.

(** Two open channels of capacity one: a receive that blocks and a send. *)
Definition ex_chan : Channel nat := mkChannel 1 0 0 0 false empty_list empty_list [None].
Definition ex_world : World nat :=
  mkWorld (mkMem ∅ {[5 := mkShared kNoWinner kSelectSetup 9]} []) {[1 := ex_chan; 2 := ex_chan]} [].
Definition ex_abs : gmap addr (AChan nat) := {[1 := mkAChan 1 [] false [] []; 2 := mkAChan 1 [] false [] []]}.
Definition ex_cases : list (Case nat) := [RecvCase (Some 1) 10 None; SendCase (Some 2) 11 (Some 7) false].

Lemma ex_lookup_abs ch A : ex_abs !! ch = Some A -> A = mkAChan 1 [] false [] [] /\ ex_world.(w_chans) !! ch = Some ex_chan.
Proof.
  unfold ex_abs, ex_world. cbn [w_chans].
  destruct (decide (ch = 1)) as [->|H1]; [by intros [= <-]|].
  destruct (decide (ch = 2)) as [->|H2]; [by intros [= <-]|].
  rewrite lookup_insert_ne by done. by rewrite lookup_singleton_ne.
Qed.

Lemma ex_wrep : wrep ex_world ex_abs.
Proof.
  split.
  - intros ch A [-> Hc]%ex_lookup_abs. exists ex_chan. split; [exact Hc|].
    destruct (crep_init 8 1 ex_chan eq_refl). by split.
  - intros ch1 ch2 A1 A2 a [-> _]%ex_lookup_abs _ Ha. by apply not_elem_of_nil in Ha.
Qed.

Lemma select_takes_first_ready_witness :
  exists wk cases' w', setup_locked 5 9 [0; 1] ex_cases ex_world = Some ((Ready 1, wk, cases'), w').
Proof.
  assert (Hok : Forall (case_ok ex_abs) ex_cases).
  { repeat constructor; simpl; try (by eexists). }
  assert (Hord : order_ok ex_cases [0; 1]).
  { intros i Hi. repeat (apply elem_of_cons in Hi as [->|Hi]; [simpl; lia|]). by apply not_elem_of_nil in Hi. }
  assert (Hf : nodes_fresh (w_mem ex_world) ex_cases).
  { split; [apply (bool_decide_unpack _); by vm_compute|]. intros n _. apply lookup_empty. }
  destruct (select_takes_first_ready ex_world ex_abs ex_cases [0; 1] 5 (mkShared kNoWinner kSelectSetup 9) 9
    ex_wrep Hok Hord Hf eq_refl) as (w1 & As1 & k & ch & st & res & wk & A' & c' & k' & w' & sh' & _ & _ & _ & _ & H & _).
  exists wk, (<[1 := k']> ex_cases), w'. exact H.
Defined.

(** A timer claims the select before [setup] parks: it runs on inline. *)
Lemma select_resumed_once_witness :
  exists s, reachable hs_init hs_step s /\ hs_setup s = Some false /\ resumptions s = 1.
Proof.
  set (s0 := mkHandshake (mkShared kNoWinner kSelectSetup 9) None 0 0).
  set (s1 := mkHandshake (mkShared 2 kSelectSetup 9) None 1 0).
  set (s2 := mkHandshake (mkShared 2 kSelectResumed 9) None 0 0).
  set (s3 := mkHandshake (mkShared 2 kSelectResumed 9) (Some false) 0 0).
  assert (H0 : reachable hs_init hs_step s0) by (apply reachable_init; by exists 9).
  assert (H1 : reachable hs_init hs_step s1).
  { apply (reachable_step _ _ s0); [exact H0|]. apply (hs_claim _ None 0 0 2 true _); done. }
  assert (H2 : reachable hs_init hs_step s2).
  { apply (reachable_step _ _ s1); [exact H1|]. apply (hs_exchange _ None 0 0 false _). done. }
  assert (H3 : reachable hs_init hs_step s3).
  { apply (reachable_step _ _ s2); [exact H2|]. apply (hs_park _ 0 0 false _). done. }
  exists s3. split; [exact H3|]. split; [reflexivity|].
  apply (proj1 (proj2 (select_resumed_once s3 H3))); done.
Defined.
