(* ===== verification/TimerHeap.v ===== *)
(** * The timer heap (src/timer.cpp)

    The 4-ary min-heap of one shard: [sift_up], [sift_down], [heap_pop_root] and
    [heap_remove] on the vector of timer pointers, with the [heap_index] each
    writes into the nodes. *)

From S2P Require Import Prelude.

Set Default Proof Using "Type".

Abbreviation timer_id := nat.

Definition kFanOut : nat := 4.
Definition parent_of (i : nat) : nat := (i - 1) / kFanOut.
Definition first_child_of (i : nat) : nat := i * kFanOut + 1.
Definition kNotInHeap : Z := 2 ^ 32 - 1.

Inductive TimerState := kIdle | kArmed | kFiring | kFired | kCancelled.

#[global] Instance TimerState_eq_dec : EqDecision TimerState.
Proof. solve_decision. Defined.

Section TimerHeap.
  (** State that the fire callbacks work on. *)
  Context {E : Type}.

(** [FireFn]: the task to resume, if the callback won its claim. *)
Definition FireFn : Type := timer_id -> E -> option nat * E.

Record Timer := mkTimer {
  deadline_ns : Z;
  waiter : option nat;
  on_fire : option FireFn;
  state : TimerState;
  shard_of : nat;
  preferred_worker : nat;
  heap_index : Z
}.

Definition set_heap_index (i : Z) (t : Timer) : Timer :=
  mkTimer (deadline_ns t) (waiter t) (on_fire t) (state t) (shard_of t)
    (preferred_worker t) i.
Definition set_state (s : TimerState) (t : Timer) : Timer :=
  mkTimer (deadline_ns t) (waiter t) (on_fire t) s (shard_of t)
    (preferred_worker t) (heap_index t).

(** The nodes, and the vector of one shard. *)
Abbreviation Nodes := (gmap timer_id Timer).
Abbreviation Heap := (list timer_id).

(** [node->heap_index = static_cast<std::uint32_t>(i)]. *)
Definition set_index (t : timer_id) (i : nat) (ts : Nodes) : Nodes :=
  alter (set_heap_index (u32 (Z.of_nat i))) t ts.

Definition deadline (ts : Nodes) (t : timer_id) : option Z :=
  deadline_ns <$> ts !! t.

(** [heap[i]->deadline_ns]. *)
Definition deadline_at (h : Heap) (ts : Nodes) (i : nat) : option Z :=
  h !! i ≫= deadline ts.

(** The end of either sift: [node] goes into the hole. *)
Definition place (h : Heap) (ts : Nodes) (node : timer_id) (i : nat) : Heap * Nodes :=
  (<[i := node]> h, set_index node i ts).

(** Moves the node of [j] into the hole at [i]. *)
Definition move (h : Heap) (ts : Nodes) (i j : nat) : option (Heap * Nodes) :=
  t ← h !! j; Some (<[i := t]> h, set_index t i ts).

Fixpoint sift_up_loop (fuel : nat) (node : timer_id) (h : Heap) (ts : Nodes) (i : nat)
  : option (Heap * Nodes) :=
  match fuel with
  | O => None
  | S fuel =>
      if decide (i = 0) then Some (place h ts node i)
      else
        dp ← deadline_at h ts (parent_of i);
        dn ← deadline ts node;
        if decide (dp <= dn)%Z then Some (place h ts node i)
        else
          r ← move h ts i (parent_of i);
          sift_up_loop fuel node r.1 r.2 (parent_of i)
  end.

Definition sift_up (h : Heap) (ts : Nodes) (i : nat) : option (Heap * Nodes) :=
  node ← h !! i; sift_up_loop (S i) node h ts i.

(** The scan of the children [c .. last), [best] being the least so far. *)
Fixpoint best_child (n : nat) (h : Heap) (ts : Nodes) (c best : nat) : option nat :=
  match n with
  | O => Some best
  | S n =>
      dc ← deadline_at h ts c;
      db ← deadline_at h ts best;
      best_child n h ts (c + 1) (if decide (dc < db)%Z then c else best)
  end.

Fixpoint sift_down_loop (fuel : nat) (node : timer_id) (h : Heap) (ts : Nodes) (i : nat)
  : option (Heap * Nodes) :=
  match fuel with
  | O => None
  | S fuel =>
      let n := length h in
      let first := first_child_of i in
      if decide (n <= first) then Some (place h ts node i)
      else
        let last := (first + kFanOut) `min` n in
        best ← best_child (last - (first + 1)) h ts (first + 1) first;
        db ← deadline_at h ts best;
        dn ← deadline ts node;
        if decide (dn <= db)%Z then Some (place h ts node i)
        else
          r ← move h ts i best;
          sift_down_loop fuel node r.1 r.2 best
  end.

Definition sift_down (h : Heap) (ts : Nodes) (i : nat) : option (Heap * Nodes) :=
  node ← h !! i; sift_down_loop (S (length h)) node h ts i.

Definition pop_back (h : Heap) : Heap := take (length h - 1) h.

Definition heap_pop_root (h : Heap) (ts : Nodes) : option (Heap * Nodes) :=
  let last := length h - 1 in
  if decide (last = 0) then Some (pop_back h, ts)
  else
    r ← move h ts 0 last;
    sift_down (pop_back r.1) r.2 0.

Definition heap_remove (h : Heap) (ts : Nodes) (i : nat) : option (Heap * Nodes) :=
  let last := length h - 1 in
  if decide (i = last) then Some (pop_back h, ts)
  else
    r ← move h ts i last;
    let h := pop_back r.1 in
    let ts := r.2 in
    dr ← deadline_at h ts i;
    if decide (0 < i)
    then dp ← deadline_at h ts (parent_of i);
         if decide (dr < dp)%Z then sift_up h ts i else sift_down h ts i
    else sift_down h ts i.

(** ** The heap invariant *)

(** The nodes of [h] exist and have the deadlines [d]. *)
Definition agrees (ts : Nodes) (h : Heap) (d : timer_id -> Z) : Prop :=
  forall t, t ∈ h -> deadline ts t = Some (d t).

(** Position [j] is not below its parent. *)
Definition edge_ok (d : timer_id -> Z) (h : Heap) (j : nat) : Prop :=
  forall t p, h !! j = Some t -> h !! parent_of j = Some p -> (d p <= d t)%Z.

Definition heap_ok (d : timer_id -> Z) (h : Heap) : Prop :=
  forall j, 0 < j -> edge_ok d h j.

(** Every node but the one at [hole] knows its position. *)
Definition index_ok (ts : Nodes) (h : Heap) (hole : option nat) : Prop :=
  forall j t, hole <> Some j -> h !! j = Some t ->
    exists x, ts !! t = Some x /\ heap_index x = Z.of_nat j.

(** Nothing but [heap_index] of the nodes in [h] changes. *)
Definition same_but_index (h : Heap) (ts ts' : Nodes) : Prop :=
  (forall t, t ∉ h -> ts' !! t = ts !! t) /\
  (forall t, set_heap_index 0 <$> ts' !! t = set_heap_index 0 <$> ts !! t).

Lemma parent_lt i : 0 < i -> parent_of i < i.
Proof. intros. unfold parent_of, kFanOut. apply Nat.Div0.div_lt_upper_bound; lia. Qed.

Lemma parent_child i j : 0 < j ->
  parent_of j = i <-> first_child_of i <= j < first_child_of i + kFanOut.
Proof.
  intros. unfold parent_of, first_child_of, kFanOut.
  pose proof (Nat.div_mod_eq (j - 1) 4). pose proof (Nat.mod_upper_bound (j - 1) 4).
  split; [lia|]. intros. symmetry. apply (Nat.div_unique _ _ _ (j - 1 - 4 * i)); lia.
Qed.

Lemma same_but_index_refl h ts : same_but_index h ts ts.
Proof. done. Qed.

Lemma same_but_index_trans h h' ts1 ts2 ts3 :
  h' ⊆ h -> same_but_index h ts1 ts2 -> same_but_index h' ts2 ts3 ->
  same_but_index h ts1 ts3.
Proof.
  intros Hs [H1 H2] [H3 H4]. split; intros t; [|by rewrite H4].
  intros Ht. rewrite H3; [by apply H1|]. intros Ht'. by apply Ht, Hs.
Qed.

Lemma set_index_same h ts t i : t ∈ h -> same_but_index h ts (set_index t i ts).
Proof.
  intros Ht. unfold set_index. split; intros u.
  - intros Hu. rewrite lookup_alter_ne; [done|]. by intros ->.
  - destruct (decide (t = u)) as [->|]; [|by rewrite lookup_alter_ne].
    rewrite lookup_alter_eq. by destruct (ts !! u).
Qed.

Lemma same_deadline h ts ts' t : same_but_index h ts ts' -> deadline ts' t = deadline ts t.
Proof.
  intros [_ H]. specialize (H t). unfold deadline.
  destruct (ts !! t) as [x|], (ts' !! t) as [y|]; try done. simpl in *.
  injection H. intros. by f_equal.
Qed.

Lemma agrees_same h0 h ts ts' d : same_but_index h0 ts ts' -> agrees ts h d -> agrees ts' h d.
Proof. intros Hs Ha t Ht. rewrite (same_deadline _ _ _ _ Hs). auto. Qed.

Lemma deadline_at_eq h ts d i t : agrees ts h d -> h !! i = Some t ->
  deadline_at h ts i = Some (d t).
Proof.
  intros Ha Ht. unfold deadline_at. rewrite Ht. simpl. apply Ha, list_elem_of_lookup. eauto.
Qed.

(** ** One step of a sift

    The hole at [i] holds [node] virtually; moving the node of [j] into it swaps
    positions [i] and [j] of that virtual heap. *)

Definition swap (i j k : nat) : nat :=
  if decide (k = i) then j else if decide (k = j) then i else k.

Lemma swap_lookup {A} (l : list A) i j x y k :
  i <> j -> l !! i = Some x -> l !! j = Some y ->
  <[j := x]> (<[i := y]> l) !! k = l !! swap i j k.
Proof.
  intros Hn Hi Hj. pose proof (lookup_lt_Some _ _ _ Hi). pose proof (lookup_lt_Some _ _ _ Hj).
  unfold swap. destruct (decide (k = i)) as [->|Hki].
  - rewrite list_lookup_insert_ne by done. by rewrite list_lookup_insert_eq by done.
  - destruct (decide (k = j)) as [->|Hkj].
    + rewrite list_lookup_insert_eq; [done|by rewrite length_insert].
    + by rewrite !list_lookup_insert_ne by done.
Qed.

Lemma swap_perm {A} (l : list A) i j x y :
  i <> j -> l !! i = Some x -> l !! j = Some y -> <[j := x]> (<[i := y]> l) ≡ₚ l.
Proof.
  intros Hn Hi Hj. apply Permutation_inj. split; [by rewrite !length_insert|].
  exists (swap i j). split; [|intros k; by apply swap_lookup].
  intros a b. unfold swap. repeat case_decide; congruence.
Qed.

Lemma set_index_ok ts t i x : ts !! t = Some x -> (Z.of_nat i < 2 ^ 32)%Z ->
  exists y, set_index t i ts !! t = Some y /\ heap_index y = Z.of_nat i.
Proof.
  intros Ht Hi. unfold set_index. rewrite lookup_alter_eq, Ht. simpl.
  eexists. split; [done|]. simpl. rewrite wrap_small; [done|]. unfold in_range. lia.
Qed.

(** Everything a sift keeps about the virtual heap [vh] with hole [i]. *)
Record sift_state (d : timer_id -> Z) (ts : Nodes) (vh : Heap) (i : nat) : Prop := {
  ss_nodup : NoDup vh;
  ss_agrees : agrees ts vh d;
  ss_index : index_ok ts vh (Some i);
  ss_small : (Z.of_nat (length vh) < 2 ^ 32)%Z
}.

Lemma move_step d node h ts i j t :
  sift_state d ts (<[i := node]> h) i -> i < length h -> i <> j -> h !! j = Some t ->
  exists h1 ts1, move h ts i j = Some (h1, ts1) /\
    (forall k, <[j := node]> h1 !! k = <[i := node]> h !! swap i j k) /\
    <[j := node]> h1 ≡ₚ <[i := node]> h /\ length h1 = length h /\
    sift_state d ts1 (<[j := node]> h1) j /\
    same_but_index (<[i := node]> h) ts ts1.
Proof.
  intros [Hnd Ha Hi Hsm] Hlt Hn Hj. set (vh := <[i := node]> h) in *.
  assert (Hvi : vh !! i = Some node) by (apply list_lookup_insert_eq; done).
  assert (Hvj : vh !! j = Some t) by (unfold vh; by rewrite list_lookup_insert_ne).
  assert (Htin : t ∈ vh) by (apply list_elem_of_lookup; eauto).
  exists (<[i := t]> h), (set_index t i ts). unfold move. rewrite Hj.
  assert (Ein : <[j := node]> (<[i := t]> h) = <[j := node]> (<[i := t]> vh)).
  { unfold vh. by rewrite list_insert_insert_eq. }
  rewrite Ein. split; [done|].
  split; [intros k; by apply swap_lookup|].
  assert (Hp : <[j := node]> (<[i := t]> vh) ≡ₚ vh) by (by apply swap_perm).
  split; [done|]. split; [by rewrite length_insert|].
  split; [|by apply set_index_same]. split.
  - by rewrite Hp.
  - intros u Hu. rewrite Hp in Hu. by apply (agrees_same _ vh _ _ _ (set_index_same _ _ _ _ Htin)).
  - intros k u Hk Hu. rewrite swap_lookup in Hu by done. unfold swap in Hu.
    destruct (decide (k = i)) as [->|Hki].
    + assert (u = t) as -> by congruence.
      destruct (Hi j t) as (x & Hx & _); [congruence|done|].
      eapply set_index_ok; [done|]. apply lookup_lt_Some in Hvi. lia.
    + rewrite decide_False in Hu by congruence.
      assert (u <> t) as Hut.
      { intros ->. apply Hk. f_equal. symmetry. by eapply NoDup_lookup. }
      unfold set_index. rewrite lookup_alter_ne by done. apply Hi; [congruence|done].
  - by rewrite !length_insert in *.
Qed.

(** Filling the hole ends the sift. *)
Lemma place_step d node h ts i :
  sift_state d ts (<[i := node]> h) i -> i < length h ->
  index_ok (place h ts node i).2 (place h ts node i).1 None /\
  same_but_index (<[i := node]> h) ts (place h ts node i).2.
Proof.
  intros [Hnd Ha Hi Hsm] Hlt. simpl. set (vh := <[i := node]> h) in *.
  assert (Hvi : vh !! i = Some node) by (apply list_lookup_insert_eq; done).
  assert (Hin : node ∈ vh) by (apply list_elem_of_lookup; eauto).
  split; [|by apply set_index_same]. intros k u _ Hu.
  destruct (decide (k = i)) as [->|Hki].
  - assert (u = node) as -> by congruence. pose proof (Ha node Hin) as Hd.
    unfold deadline in Hd. destruct (ts !! node) eqn:E1; [|done].
    eapply set_index_ok; [done|]. apply lookup_lt_Some in Hvi. lia.
  - unfold set_index. rewrite lookup_alter_ne; [apply Hi; [congruence|done]|].
    intros ->. apply Hki. by eapply NoDup_lookup.
Qed.

(** What a finished sift returns. *)
Definition sifted (d : timer_id -> Z) (ts : Nodes) (vh : Heap) (r : option (Heap * Nodes)) : Prop :=
  exists h' ts', r = Some (h', ts') /\ h' ≡ₚ vh /\ heap_ok d h' /\
    index_ok ts' h' None /\ same_but_index vh ts ts'.

Lemma sifted_step d ts ts1 vh vh1 r :
  vh1 ≡ₚ vh -> same_but_index vh ts ts1 -> sifted d ts1 vh1 r -> sifted d ts vh r.
Proof.
  intros Hp Hs (h' & ts' & -> & Hp' & Hok & Hi & Hs'). exists h', ts'.
  split; [done|]. split; [by rewrite Hp'|]. do 2 (split; [done|]).
  eapply same_but_index_trans; [|done|done]. intros x. by rewrite Hp.
Qed.

Lemma sifted_place d ts node h i :
  sift_state d ts (<[i := node]> h) i -> i < length h -> heap_ok d (<[i := node]> h) ->
  sifted d ts (<[i := node]> h) (Some (place h ts node i)).
Proof.
  intros Hss Hlt Hok. destruct (place_step _ _ _ _ _ Hss Hlt) as [Hi Hs].
  eexists _, _. split; [done|]. done.
Qed.

(** [sift_up] repairs a heap whose only bad edge is above [i]. *)
Lemma sift_up_loop_spec d node fuel : forall h ts i,
  sift_state d ts (<[i := node]> h) i -> i < length h -> i < fuel ->
  (forall j, 0 < j -> j <> i -> edge_ok d (<[i := node]> h) j) ->
  (forall j t p, 0 < j -> parent_of j = i -> 0 < i -> <[i := node]> h !! j = Some t ->
     <[i := node]> h !! parent_of i = Some p -> (d p <= d t)%Z) ->
  sifted d ts (<[i := node]> h) (sift_up_loop fuel node h ts i).
Proof.
  induction fuel as [|fuel IH]; intros h ts i Hss Hlt Hf Hok Hgp; [lia|]. simpl.
  set (vh := <[i := node]> h) in *.
  assert (Hvi : vh !! i = Some node) by (apply list_lookup_insert_eq; done).
  case_decide as Hi0.
  { apply sifted_place; [done..|]. intros j Hj. apply Hok; lia. }
  set (p := parent_of i) in *. assert (Hp : p < i) by (apply parent_lt; lia).
  destruct (lookup_lt_is_Some_2 h p ltac:(lia)) as [t Ht].
  assert (Hvp : vh !! p = Some t) by (unfold vh; by rewrite list_lookup_insert_ne by lia).
  pose proof Hss as [Hnd Ha Hidx Hsm].
  assert (Hdt : deadline ts t = Some (d t)) by (apply Ha, list_elem_of_lookup; eauto).
  assert (Hdn : deadline ts node = Some (d node)) by (apply Ha, list_elem_of_lookup; eauto).
  unfold deadline_at. rewrite Ht. simpl. rewrite Hdt, Hdn. simpl.
  case_decide as Hle.
  - apply sifted_place; [done..|]. intros j Hj. destruct (decide (j = i)) as [->|]; [|by apply Hok].
    intros u q Hu Hq. fold vh in Hu, Hq. fold p in Hq. congruence.
  - destruct (move_step d node h ts i p t) as (h1 & ts1 & Hm & Hl & Hperm & Hlen & Hss1 & Hs1);
      [done|done|lia|done|]. rewrite Hm. simpl.
    apply (sifted_step d ts ts1 vh (<[p := node]> h1)); [done|done|].
    assert (Hlk : forall k, k <> i -> k <> p -> <[p := node]> h1 !! k = vh !! k).
    { intros k ??. rewrite Hl. unfold swap. by rewrite !decide_False by done. }
    assert (Hl1i : <[p := node]> h1 !! i = Some t).
    { rewrite Hl. unfold swap. by rewrite decide_True. }
    assert (Hl1p : <[p := node]> h1 !! p = Some node).
    { rewrite Hl. unfold swap. rewrite decide_False, decide_True by (done || lia). done. }
    apply IH; [done|lia|lia| |].
    + intros j Hj Hjp u q Hu Hq. destruct (decide (j = i)) as [->|Hji].
      * fold p in Hq. assert (u = t) as -> by congruence. assert (q = node) as -> by congruence. lia.
      * rewrite Hlk in Hu by done. destruct (decide (parent_of j = i)) as [E1|E1].
        { rewrite E1 in Hq. assert (q = t) as -> by congruence. eapply Hgp; eauto; lia. }
        destruct (decide (parent_of j = p)) as [E2|E2].
        { rewrite E2 in Hq. assert (q = node) as -> by congruence.
          assert (d t <= d u)%Z by (eapply (Hok j); eauto; congruence). lia. }
        rewrite Hlk in Hq by done. by apply (Hok j).
    + intros j u q Hj Hjp Hp0 Hu Hq. pose proof (parent_lt p Hp0).
      rewrite Hlk in Hq by lia.
      assert (d q <= d t)%Z by (eapply (Hok p); eauto; lia).
      destruct (decide (j = i)) as [->|Hji]; [assert (u = t) as -> by congruence; done|].
      pose proof (parent_lt j Hj). rewrite Hlk in Hu by lia.
      assert (d t <= d u)%Z by (eapply (Hok j); eauto; congruence). lia.
Qed.

(** The scan returns a least child. *)
Lemma best_child_spec d ts h n : forall c best,
  agrees ts h d -> best < c -> c + n <= length h ->
  exists b tb, best_child n h ts c best = Some b /\ (b = best \/ c <= b < c + n) /\
    h !! b = Some tb /\
    (forall t, h !! best = Some t -> (d tb <= d t)%Z) /\
    (forall k t, c <= k < c + n -> h !! k = Some t -> (d tb <= d t)%Z).
Proof.
  induction n as [|n IH]; intros c best Ha Hb Hlen; simpl.
  - destruct (lookup_lt_is_Some_2 h best ltac:(lia)) as [tb Htb]. exists best, tb.
    split; [done|]. split; [by left|]. split; [done|].
    split; [intros t Ht; by simplify_eq|lia].
  - destruct (lookup_lt_is_Some_2 h best ltac:(lia)) as [tb Htb].
    destruct (lookup_lt_is_Some_2 h c ltac:(lia)) as [tc Htc].
    rewrite (deadline_at_eq _ _ d _ _ Ha Htc), (deadline_at_eq _ _ d _ _ Ha Htb). simpl.
    case_decide as Hlt.
    + destruct (IH (c + 1) c Ha ltac:(lia) ltac:(lia)) as (b & t & -> & Hor & Ht & H1 & H2).
      exists b, t. split; [done|]. split; [lia|]. split; [done|]. specialize (H1 tc Htc). split.
      * intros t' Ht'. simplify_eq. lia.
      * intros k t' Hk Ht'. destruct (decide (k = c)) as [->|]; [by simplify_eq|].
        apply (H2 k); [lia|done].
    + destruct (IH (c + 1) best Ha ltac:(lia) ltac:(lia)) as (b & t & -> & Hor & Ht & H1 & H2).
      exists b, t. split; [done|]. split; [lia|]. split; [done|]. specialize (H1 tb Htb). split.
      * intros t' Ht'. by simplify_eq.
      * intros k t' Hk Ht'. destruct (decide (k = c)) as [->|]; [simplify_eq; lia|].
        apply (H2 k); [lia|done].
Qed.

Lemma best_child_same h h' ts n : forall c best,
  (forall k, k = best \/ c <= k -> h !! k = h' !! k) ->
  best_child n h ts c best = best_child n h' ts c best.
Proof.
  induction n as [|n IH]; intros c best Hk; simpl; [done|].
  assert (deadline_at h ts c = deadline_at h' ts c) as ->.
  { unfold deadline_at. by rewrite (Hk c) by lia. }
  assert (deadline_at h ts best = deadline_at h' ts best) as ->.
  { unfold deadline_at. by rewrite (Hk best) by lia. }
  destruct (deadline_at h' ts c); simpl; [|done].
  destruct (deadline_at h' ts best); simpl; [|done].
  apply IH. intros k Hor. apply Hk. case_decide; lia.
Qed.

(** [sift_down] repairs a heap whose only bad edges are below [i]. *)
Lemma sift_down_loop_spec d node fuel : forall h ts i,
  sift_state d ts (<[i := node]> h) i -> i < length h -> length h < fuel + i ->
  (forall j, 0 < j -> parent_of j <> i -> edge_ok d (<[i := node]> h) j) ->
  (forall j t p, 0 < j -> parent_of j = i -> 0 < i -> <[i := node]> h !! j = Some t ->
     <[i := node]> h !! parent_of i = Some p -> (d p <= d t)%Z) ->
  sifted d ts (<[i := node]> h) (sift_down_loop fuel node h ts i).
Proof.
  induction fuel as [|fuel IH]; intros h ts i Hss Hlt Hf Hok Hgp; [lia|]. simpl.
  set (vh := <[i := node]> h) in *.
  assert (Hvi : vh !! i = Some node) by (apply list_lookup_insert_eq; done).
  assert (Hlen : length vh = length h) by (apply length_insert).
  case_decide as Hfc.
  { apply sifted_place; [done..|]. intros j Hj.
    destruct (decide (parent_of j = i)) as [Ej|]; [|by apply Hok].
    apply parent_child in Ej; [|done]. intros u q Hu _. apply lookup_lt_Some in Hu.
    rewrite length_insert in Hu. lia. }
  set (first := first_child_of i) in *. set (last := (first + kFanOut) `min` length h).
  assert (Hfi : i < first) by (unfold first, first_child_of, kFanOut; lia).
  assert (Hlast : first < last <= length h) by (unfold last, kFanOut; lia).
  pose proof Hss as [Hnd Ha Hidx Hsm].
  rewrite (best_child_same h vh ts) by
    (intros k Hk; unfold vh; rewrite list_lookup_insert_ne; [done|lia]).
  destruct (best_child_spec d ts vh (last - (first + 1)) (first + 1) first Ha)
    as (b & tb & -> & Hb & Hvb & Hb1 & Hb2); [lia|rewrite Hlen; lia|]. simpl.
  assert (Hbi : i < b < last) by lia.
  assert (Hhb : h !! b = Some tb) by (rewrite <- Hvb; unfold vh; by rewrite list_lookup_insert_ne by lia).
  assert (Hmin : forall j t, 0 < j -> parent_of j = i -> vh !! j = Some t -> (d tb <= d t)%Z).
  { intros j t Hj Ej Ht. apply parent_child in Ej; [|done]. fold first in Ej.
    pose proof (lookup_lt_Some _ _ _ Ht). rewrite Hlen in *.
    destruct (decide (j = first)) as [->|]; [by apply Hb1|]. apply (Hb2 j); [|done].
    unfold last. lia. }
  assert (Hbp : parent_of b = i).
  { apply parent_child; [lia|]. fold first. unfold last in *. lia. }
  assert (Hdt : deadline ts tb = Some (d tb)) by (apply Ha, list_elem_of_lookup; eauto).
  assert (Hdn : deadline ts node = Some (d node)) by (apply Ha, list_elem_of_lookup; eauto).
  unfold deadline_at. rewrite Hhb. simpl. rewrite Hdt, Hdn. simpl.
  case_decide as Hle.
  - apply sifted_place; [done..|]. intros j Hj. fold vh.
    destruct (decide (parent_of j = i)) as [Ej|]; [|by apply Hok].
    intros u q Hu Hq. rewrite Ej in Hq. assert (q = node) as -> by congruence.
    pose proof (Hmin j u Hj Ej Hu). lia.
  - destruct (move_step d node h ts i b tb) as (h1 & ts1 & Hm & Hl & Hperm & Hlen1 & Hss1 & Hs1);
      [done|done|lia|done|]. rewrite Hm. simpl.
    apply (sifted_step d ts ts1 vh (<[b := node]> h1)); [done|done|].
    assert (Hlk : forall k, k <> i -> k <> b -> <[b := node]> h1 !! k = vh !! k).
    { intros k ??. rewrite Hl. unfold swap. by rewrite !decide_False by done. }
    assert (Hl1i : <[b := node]> h1 !! i = Some tb).
    { rewrite Hl. unfold swap. by rewrite decide_True. }
    assert (Hl1b : <[b := node]> h1 !! b = Some node).
    { rewrite Hl. unfold swap. rewrite decide_False, decide_True by (done || lia). done. }
    apply IH; [done|lia|lia| |].
    + intros j Hj Hjb u q Hu Hq. destruct (decide (j = b)) as [->|Hjb2].
      * rewrite Hbp in Hq. assert (u = node) as -> by congruence.
        assert (q = tb) as -> by congruence. lia.
      * destruct (decide (j = i)) as [->|Hji].
        { assert (u = tb) as -> by congruence. pose proof (parent_lt i Hj).
          rewrite Hlk in Hq by lia. eapply (Hgp b); eauto; lia. }
        rewrite Hlk in Hu by done.
        destruct (decide (parent_of j = i)) as [E1|E1].
        { rewrite E1 in Hq. assert (q = tb) as -> by congruence. by apply (Hmin j). }
        rewrite Hlk in Hq by done. by apply (Hok j).
    + intros j u q Hj Hjb _ Hu Hq. rewrite Hbp, Hl1i in Hq. injection Hq as <-.
      pose proof (parent_lt j Hj). rewrite Hlk in Hu by lia.
      apply (Hok j Hj); [lia|done|by rewrite Hjb].
Qed.

Lemma sift_up_spec d h ts i node :
  h !! i = Some node -> sift_state d ts h i ->
  (forall j, 0 < j -> j <> i -> edge_ok d h j) ->
  (forall j t p, 0 < j -> parent_of j = i -> 0 < i -> h !! j = Some t ->
     h !! parent_of i = Some p -> (d p <= d t)%Z) ->
  sifted d ts h (sift_up h ts i).
Proof.
  intros Hn Hss Hok Hgp. unfold sift_up. rewrite Hn. simpl.
  pose proof (lookup_lt_Some _ _ _ Hn) as Hlt.
  pose proof (sift_up_loop_spec d node (S i) h ts i) as H. rewrite list_insert_id in H by done.
  apply H; [done|done|lia|done|done].
Qed.

Lemma sift_down_spec d h ts i node :
  h !! i = Some node -> sift_state d ts h i ->
  (forall j, 0 < j -> parent_of j <> i -> edge_ok d h j) ->
  (forall j t p, 0 < j -> parent_of j = i -> 0 < i -> h !! j = Some t ->
     h !! parent_of i = Some p -> (d p <= d t)%Z) ->
  sifted d ts h (sift_down h ts i).
Proof.
  intros Hn Hss Hok Hgp. unfold sift_down. rewrite Hn. simpl.
  pose proof (lookup_lt_Some _ _ _ Hn) as Hlt.
  pose proof (sift_down_loop_spec d node (S (length h)) h ts i) as H.
  rewrite list_insert_id in H by done. apply H; [done|done|lia|done|done].
Qed.

(** ** The vector operations *)

(** A well-formed heap: the invariant between two critical sections. *)
Record heap_wf (d : timer_id -> Z) (ts : Nodes) (h : Heap) : Prop := {
  hw_nodup : NoDup h;
  hw_agrees : agrees ts h d;
  hw_index : index_ok ts h None;
  hw_small : (Z.of_nat (length h) < 2 ^ 32 - 1)%Z;
  hw_ok : heap_ok d h
}.

Lemma sifted_wf d ts vh r :
  NoDup vh -> agrees ts vh d -> (Z.of_nat (length vh) < 2 ^ 32 - 1)%Z -> sifted d ts vh r ->
  exists h' ts', r = Some (h', ts') /\ h' ≡ₚ vh /\ heap_wf d ts' h' /\ same_but_index vh ts ts'.
Proof.
  intros Hnd Ha Hsm (h' & ts' & -> & Hp & Hok & Hi & Hs). exists h', ts'.
  split; [done|]. split; [done|]. split; [|done]. split; try done.
  - by rewrite Hp.
  - intros t Ht. rewrite Hp in Ht. by apply (agrees_same _ _ _ _ _ Hs Ha).
  - by rewrite Hp.
Qed.

Lemma pop_back_snoc h x : pop_back (h ++ [x]) = h.
Proof.
  unfold pop_back. rewrite length_app. simpl.
  rewrite take_app_le by lia. by rewrite take_ge by lia.
Qed.

Lemma snoc_inv {A} (h : list A) : h <> [] -> exists h0 x, h = h0 ++ [x].
Proof. destruct h as [|x h _] using rev_ind; [done|]. eauto. Qed.

Lemma heap_ok_prefix d h x : heap_ok d (h ++ [x]) -> heap_ok d h.
Proof.
  intros Hok j Hj t p Ht Hp. apply (Hok j Hj); by apply lookup_app_l_Some.
Qed.

Lemma index_prefix ts h x o : index_ok ts (h ++ [x]) o -> index_ok ts h o.
Proof. intros Hi j t Hj Ht. apply Hi; [done|]. by apply lookup_app_l_Some. Qed.

Lemma heap_wf_prefix d ts h x : heap_wf d ts (h ++ [x]) -> heap_wf d ts h.
Proof.
  intros [Hnd Ha Hi Hsm Hok]. rewrite length_app in Hsm. simpl in Hsm. split.
  - by apply NoDup_app in Hnd as (? & _).
  - intros t Ht. apply Ha. set_solver.
  - by eapply index_prefix.
  - lia.
  - by eapply heap_ok_prefix.
Qed.

(** The least deadline is at the root. *)
Lemma heap_root_min d h r i t :
  heap_ok d h -> h !! 0 = Some r -> h !! i = Some t -> (d r <= d t)%Z.
Proof.
  intros Hok Hr. revert t. induction i as [i IH] using lt_wf_ind. intros t Ht.
  destruct (decide (i = 0)) as [->|Hi]; [assert (r = t) as -> by congruence; lia|].
  pose proof (parent_lt i ltac:(lia)) as Hp. pose proof (lookup_lt_Some _ _ _ Ht).
  destruct (lookup_lt_is_Some_2 h (parent_of i) ltac:(lia)) as [p Hpp].
  etrans; [by apply (IH (parent_of i))|]. by apply (Hok i); [lia|..].
Qed.

Lemma delete_insert_list {A} (l : list A) i y : delete i (<[i := y]> l) = delete i l.
Proof.
  revert i. induction l as [|z l IH]; intros [|i]; simpl; try done.
  change (z :: delete i (<[i := y]> l) = z :: delete i l). by rewrite IH.
Qed.

(** Replacing position [i] by the last node and dropping the last slot. *)
Lemma replace_last d ts h0 x i t :
  heap_wf d ts (h0 ++ [x]) -> h0 !! i = Some t ->
  let vh := <[i := x]> h0 in
  let ts1 := set_index x i ts in
  move (h0 ++ [x]) ts i (length (h0 ++ [x]) - 1) = Some (<[i := x]> h0 ++ [x], ts1) /\
  h0 ++ [x] ≡ₚ t :: vh /\ NoDup vh /\ agrees ts1 vh d /\ index_ok ts1 vh None /\
  same_but_index vh ts ts1 /\ vh !! i = Some x.
Proof.
  intros [Hnd Ha Hi Hsm Hok] Ht vh ts1. pose proof (lookup_lt_Some _ _ _ Ht) as Hlt.
  rewrite length_app in *. simpl in *.
  assert (Hvx : vh !! i = Some x) by (by apply list_lookup_insert_eq).
  assert (Hin : x ∈ vh) by (apply list_elem_of_lookup; eauto).
  assert (Hperm : h0 ++ [x] ≡ₚ t :: vh).
  { rewrite (delete_Permutation h0 i t Ht), (delete_Permutation vh i x Hvx). simpl.
    unfold vh. rewrite delete_insert_list. rewrite <- Permutation_cons_append.
    done. }
  assert (Hnd' : NoDup (t :: vh)) by (by rewrite <- Hperm).
  apply NoDup_cons in Hnd' as [Htn Hnd'].
  split.
  { unfold move. rewrite lookup_app_r by lia.
    replace (length h0 + 1 - 1 - length h0) with 0 by lia. simpl.
    by rewrite insert_app_l by done. }
  split; [done|]. split; [done|]. split; [|split; [|split; [by apply set_index_same|done]]].
  - apply (agrees_same vh vh ts); [by apply set_index_same|].
    intros u Hu. apply Ha. rewrite Hperm. by right.
  - intros k u _ Hu. destruct (decide (k = i)) as [->|Hki].
    + assert (u = x) as -> by congruence.
      pose proof (Ha x ltac:(set_solver)) as Hd. unfold deadline in Hd.
      destruct (ts !! x) eqn:Ex; [|done]. eapply set_index_ok; [done|lia].
    + unfold vh in Hu. rewrite list_lookup_insert_ne in Hu by done.
      assert (u <> x) as Hux.
      { intros ->. apply NoDup_app in Hnd as (_ & Hd & _). apply (Hd x); [|set_solver].
        apply list_elem_of_lookup. eauto. }
      unfold ts1, set_index. rewrite lookup_alter_ne by done. apply Hi; [done|].
      by apply lookup_app_l_Some.
Qed.

(** The edges of the heap after the replacement. *)
Lemma replace_edges d h0 x i t j :
  heap_ok d (h0 ++ [x]) -> h0 !! i = Some t -> 0 < j ->
  (j <> i -> parent_of j <> i -> edge_ok d (<[i := x]> h0) j) /\
  (parent_of j = i -> forall u, <[i := x]> h0 !! j = Some u ->
     (d t <= d u)%Z /\ forall p, 0 < i -> <[i := x]> h0 !! parent_of i = Some p -> (d p <= d u)%Z).
Proof.
  intros Hok%heap_ok_prefix Ht Hj. pose proof (parent_lt j Hj) as Hpj. split.
  - intros Hji Hpi u p Hu Hp. rewrite list_lookup_insert_ne in Hu, Hp by done.
    by apply (Hok j Hj).
  - intros Hpi u Hu. rewrite list_lookup_insert_ne in Hu by lia.
    assert (d t <= d u)%Z as Htu by (apply (Hok j Hj); [done|by rewrite Hpi]).
    split; [done|]. intros p Hi0 Hp. pose proof (parent_lt i Hi0).
    rewrite list_lookup_insert_ne in Hp by lia.
    assert (d p <= d t)%Z by (by apply (Hok i Hi0)). lia.
Qed.

Lemma replace_sift_down d ts1 h0 x i t :
  heap_ok d (h0 ++ [x]) -> h0 !! i = Some t ->
  sift_state d ts1 (<[i := x]> h0) i ->
  (0 < i -> forall p, h0 !! parent_of i = Some p -> (d p <= d x)%Z) ->
  sifted d ts1 (<[i := x]> h0) (sift_down (<[i := x]> h0) ts1 i).
Proof.
  intros Hok Ht Hss Hup. pose proof (lookup_lt_Some _ _ _ Ht) as Hlt.
  apply (sift_down_spec d _ _ _ x); [by apply list_lookup_insert_eq|done| |].
  - intros j Hj Hpj. destruct (decide (j = i)) as [->|Hji].
    + intros u p Hu Hp. pose proof (parent_lt i Hj).
      rewrite list_lookup_insert_eq in Hu by done. injection Hu as <-.
      rewrite list_lookup_insert_ne in Hp by lia. auto.
    + by apply (replace_edges d h0 x i t j).
  - intros j u p Hj Hpj Hi0 Hu Hp.
    destruct (replace_edges d h0 x i t j Hok Ht Hj) as [_ H].
    destruct (H Hpj u Hu) as [_ H2]. auto.
Qed.

Lemma replace_sift_up d ts1 h0 x i t p :
  heap_ok d (h0 ++ [x]) -> h0 !! i = Some t ->
  sift_state d ts1 (<[i := x]> h0) i ->
  0 < i -> h0 !! parent_of i = Some p -> (d x < d p)%Z ->
  sifted d ts1 (<[i := x]> h0) (sift_up (<[i := x]> h0) ts1 i).
Proof.
  intros Hok Ht Hss Hi0 Hp Hlt. pose proof (lookup_lt_Some _ _ _ Ht) as Hil.
  pose proof (parent_lt i Hi0) as Hpi.
  apply (sift_up_spec d _ _ _ x); [by apply list_lookup_insert_eq|done| |].
  - intros j Hj Hji. destruct (replace_edges d h0 x i t j Hok Ht Hj) as [H1 H2].
    destruct (decide (parent_of j = i)) as [Hpj|Hpj]; [|by apply H1].
    intros u q Hu Hq. rewrite Hpj, list_lookup_insert_eq in Hq by done. injection Hq as <-.
    destruct (H2 Hpj u Hu) as [H3 _].
    assert (d p <= d t)%Z.
    { apply heap_ok_prefix in Hok. by apply (Hok i Hi0). } lia.
  - intros j u q Hj Hpj _ Hu Hq.
    destruct (replace_edges d h0 x i t j Hok Ht Hj) as [_ H].
    destruct (H Hpj u Hu) as [_ H2]. auto.
Qed.

Lemma heap_remove_spec d ts h i t :
  heap_wf d ts h -> h !! i = Some t ->
  exists h' ts', heap_remove h ts i = Some (h', ts') /\ h ≡ₚ t :: h' /\
    heap_wf d ts' h' /\ same_but_index h' ts ts'.
Proof.
  intros Hwf Ht. pose proof (lookup_lt_Some _ _ _ Ht) as Hlt.
  destruct (snoc_inv h) as (h0 & x & ->); [by intros ->|].
  unfold heap_remove. case_decide as Hil.
  { rewrite pop_back_snoc. exists h0, ts. split; [done|].
    rewrite length_app in Hil. simpl in Hil.
    rewrite lookup_app_r in Ht by lia. replace (i - length h0) with 0 in Ht by lia.
    injection Ht as <-. split; [by rewrite <- Permutation_cons_append|].
    split; [by eapply heap_wf_prefix|done]. }
  assert (Hi0 : i < length h0) by (rewrite length_app in *; simpl in *; lia).
  rewrite lookup_app_l in Ht by done.
  destruct (replace_last d ts h0 x i t Hwf Ht) as (Hm & Hperm & Hnd & Ha & Hidx & Hs & Hvx).
  rewrite Hm. simpl. rewrite pop_back_snoc.
  rewrite (deadline_at_eq _ _ d i x Ha Hvx). simpl.
  pose proof Hwf as [_ _ _ Hsm Hok]. rewrite length_app in Hsm. simpl in Hsm.
  assert (Hss : sift_state d (set_index x i ts) (<[i := x]> h0) i).
  { split; [done|done| |rewrite length_insert; lia]. intros j u _ Hu. by apply Hidx. }
  assert (forall r, sifted d (set_index x i ts) (<[i := x]> h0) r ->
    exists h' ts', r = Some (h', ts') /\ h0 ++ [x] ≡ₚ t :: h' /\ heap_wf d ts' h' /\
      same_but_index h' ts ts') as Hfin.
  { intros r Hr. apply sifted_wf in Hr as (h' & ts' & -> & Hp & Hwf' & Hs'); [|done|done|].
    - exists h', ts'. split; [done|]. split; [by rewrite Hp|]. split; [done|].
      assert (same_but_index (<[i := x]> h0) ts ts') as [H1 H2].
      { eapply same_but_index_trans; [|done|done]. done. }
      split; [|done]. intros u Hu. apply H1. by rewrite <- Hp.
    - rewrite length_insert. lia. }
  case_decide as Hi.
  - pose proof (parent_lt i Hi). destruct (lookup_lt_is_Some_2 h0 (parent_of i) ltac:(lia)) as [p Hp].
    assert (Hvp : <[i := x]> h0 !! parent_of i = Some p) by (by rewrite list_lookup_insert_ne by lia).
    rewrite (deadline_at_eq _ _ d _ p Ha Hvp). simpl.
    case_decide as Hlt2; apply Hfin.
    + by eapply replace_sift_up.
    + eapply replace_sift_down; [done..|]. intros _ q Hq. assert (q = p) as -> by congruence. lia.
  - apply Hfin. eapply replace_sift_down; [done..|]. lia.
Qed.

(** Popping the root is removing position 0. *)
Lemma heap_pop_root_eq d ts h : heap_wf d ts h -> h <> [] ->
  heap_pop_root h ts = heap_remove h ts 0.
Proof.
  intros Hwf Hne. destruct (snoc_inv h Hne) as (h0 & x & ->).
  unfold heap_pop_root, heap_remove. case_decide as H1; [by rewrite decide_True by done|].
  rewrite decide_False by done. rewrite length_app in H1. simpl in H1.
  destruct h0 as [|t h0]; [simpl in H1; lia|].
  destruct (replace_last d ts (t :: h0) x 0 t Hwf eq_refl) as (Hm & _ & _ & Ha & _ & _ & Hvx).
  rewrite Hm. cbn [mbind option_bind fst snd]. rewrite pop_back_snoc.
  by rewrite (deadline_at_eq _ _ d 0 x Ha Hvx).
Qed.

(** Appending a node and sifting it up. *)
Lemma heap_push_spec d ts h t :
  heap_wf d ts h -> t ∉ h -> deadline ts t = Some (d t) ->
  (Z.of_nat (length h) < 2 ^ 32 - 2)%Z ->
  exists h' ts', sift_up (h ++ [t]) (set_index t (length h) ts) (length h) = Some (h', ts') /\
    h' ≡ₚ t :: h /\ heap_wf d ts' h' /\ same_but_index h' ts ts'.
Proof.
  intros [Hnd Ha Hi Hsm Hok] Hn Hd Hlen.
  assert (Hl : (h ++ [t]) !! length h = Some t) by (by rewrite lookup_app_r, Nat.sub_diag by lia).
  assert (Hin : t ∈ h ++ [t]) by set_solver.
  pose proof (set_index_same (h ++ [t]) ts t (length h) Hin) as Hs1.
  set (ts1 := set_index t (length h) ts) in *.
  assert (Ha1 : agrees ts1 (h ++ [t]) d).
  { apply (agrees_same _ _ _ _ _ Hs1). intros u [Hu|Hu%list_elem_of_singleton]%elem_of_app; [auto|].
    by subst. }
  assert (Hnd1 : NoDup (h ++ [t])) by (by apply NoDup_snoc).
  assert (Hr : sifted d ts1 (h ++ [t]) (sift_up (h ++ [t]) ts1 (length h))).
  { apply (sift_up_spec d _ _ _ t); [done|split; [done|done| |rewrite length_app; simpl; lia]| |].
    - intros j u Hj Hu. assert (j < length h) as Hjl.
      { apply lookup_lt_Some in Hu as Hjl. rewrite length_app in Hjl. simpl in Hjl.
        assert (j <> length h) by congruence. lia. }
      rewrite lookup_app_l in Hu by done.
      unfold ts1, set_index. rewrite lookup_alter_ne; [by apply Hi|].
      intros ->. apply Hn, list_elem_of_lookup. eauto.
    - intros j Hj Hne u p Hu Hp. pose proof (parent_lt j Hj).
      apply lookup_lt_Some in Hu as Hjl. rewrite length_app in Hjl. simpl in Hjl.
      rewrite lookup_app_l in Hu, Hp by lia. by apply (Hok j Hj).
    - intros j u p Hj Hpj _ Hu _. apply lookup_lt_Some in Hu as Hjl.
      rewrite length_app in Hjl. simpl in Hjl. pose proof (parent_lt j Hj). lia. }
  apply sifted_wf in Hr as (h' & ts' & -> & Hp & Hwf' & Hs'); [|done|done|].
  - exists h', ts'. split; [done|]. split; [by rewrite Hp, <- Permutation_cons_append|].
    split; [done|].
    assert (same_but_index (h ++ [t]) ts ts') as [H1 H2].
    { eapply same_but_index_trans; [|done|done]. done. }
    split; [|done]. intros u Hu. apply H1. by rewrite <- Hp.
  - rewrite length_app. simpl. lia.
Qed.

End TimerHeap.
