(* ===== verification/TimerService.v ===== *)
(** * The timer service (src/timer.cpp, include/cio/detail/timer.hpp)

    Sharded heaps with a published earliest deadline each: [arm], [disarm],
    [run_expired] and the deadline queries. A shard's critical section is one
    atomic transition. *)

From S2P Require Import Prelude TimerHeap.

Set Default Proof Using "Type".

Definition INT64_MAX : Z := 2 ^ 63 - 1.
Definition kBatch : nat := 64.

Section TimerService.
  Context {E : Type}.
  Implicit Types (ts : gmap timer_id (Timer (E := E))) (h : list timer_id).

Record Shard := mkShard {
  heap : list timer_id;
  earliest : Z
}.

(** [nudged] and [scheduled] log the calls of [Scheduler::nudge_poller] and
    [Scheduler::schedule_batch_to]; [env] is what the fire callbacks act on. *)
Record TimerService := mkService {
  nodes : gmap timer_id (Timer (E := E));
  shards : list Shard;
  nudged : list (nat * Z);
  scheduled : list (list nat * option nat);
  env : E
}.

Definition new_service (shard_count : nat) (e : E) : TimerService :=
  mkService ∅ (replicate (shard_count `max` 1) (mkShard [] INT64_MAX)) [] [] e.

Definition set_shard (i : nat) (sh : Shard) ts (s : TimerService) : TimerService :=
  mkService ts (<[i := sh]> (shards s)) (nudged s) (scheduled s) (env s).
Definition set_nodes ts (s : TimerService) : TimerService :=
  mkService ts (shards s) (nudged s) (scheduled s) (env s).

(** What [republish] stores. *)
Definition published ts h : option Z :=
  match h with [] => Some INT64_MAX | r :: _ => deadline ts r end.

(** [arm], called on worker [worker] of this scheduler or on a foreign thread.
    [push_ok] is false when the vector's growth throws; the boolean tells
    whether [arm] returned normally. *)
Definition arm (worker : option nat) (push_ok : bool) (t : timer_id) (s : TimerService)
  : option (bool * TimerService) :=
  let shard_index := default 0 worker in
  shard ← shards s !! shard_index;
  x ← nodes s !! t;
  if decide (heap_index x = kNotInHeap) then
    let x := mkTimer (deadline_ns x) (waiter x) (on_fire x) kArmed shard_index
               shard_index (heap_index x) in
    if push_ok then
      let h := heap shard ++ [t] in
      let ts := set_index t (length h - 1) (<[t := x]> (nodes s)) in
      r ← sift_up h ts (length h - 1);
      let now_earliest := bool_decide (r.1 !! 0 = Some t) in
      let e := if now_earliest then deadline_ns x else earliest shard in
      let s := set_shard shard_index (mkShard r.1 e) r.2 s in
      Some (true,
            if now_earliest
            then mkService (nodes s) (shards s) (nudged s ++ [(shard_index, deadline_ns x)])
                   (scheduled s) (env s)
            else s)
    else Some (false, set_nodes (<[t := set_state kIdle x]> (nodes s)) s)
  else None.

(** One turn of the loop of [disarm_slow]: the answer, or another turn with the
    state that was read. *)
Definition disarm_turn (st : TimerState) (t : timer_id) (s : TimerService)
  : option ((bool + TimerState) * TimerService) :=
  x ← nodes s !! t;
  let reread (y : Timer) :=
    match state y with
    | kIdle | kCancelled | kFired => inl false
    | st => inr st
    end in
  match st with
  | kFiring => Some (reread x, s)
  | _ =>
      shard ← shards s !! shard_of x;
      if decide (heap_index x ≠ kNotInHeap) then
        if decide (heap_index x = 0%Z) then
          r ← heap_remove (heap shard) (nodes s) 0;
          let ts := alter (set_heap_index kNotInHeap) t r.2 in
          e ← published ts r.1;
          let ts := alter (set_state kCancelled) t ts in
          Some (inl true, set_shard (shard_of x) (mkShard r.1 e) ts s)
        else
          r ← heap_remove (heap shard) (nodes s) (Z.to_nat (heap_index x));
          let ts := alter (set_heap_index kNotInHeap) t r.2 in
          let ts := alter (set_state kCancelled) t ts in
          Some (inl true, set_shard (shard_of x) (mkShard r.1 (earliest shard)) ts s)
      else Some (reread x, s)
  end.

(** [disarm] up to its first answer or turn of waiting. *)
Definition disarm (t : timer_id) (s : TimerService)
  : option ((bool + TimerState) * TimerService) :=
  x ← nodes s !! t;
  match state x with
  | kIdle | kCancelled | kFired => Some (inl false, s)
  | st => disarm_turn st t s
  end.

Definition next_deadline_ns (s : TimerService) : Z :=
  fold_left (fun e sh => if decide (earliest sh < e)%Z then earliest sh else e)
    (shards s) INT64_MAX.

Definition next_deadline_of (worker : nat) (s : TimerService) : Z :=
  match shards s !! worker with Some sh => earliest sh | None => INT64_MAX end.

(** [next_timeout_ns] from a deadline and the clock. *)
Definition timeout_of (deadline now : Z) : Z :=
  if decide (deadline = INT64_MAX) then (-1)%Z
  else let delta := i64 (deadline - now) in
       if decide (0 < delta)%Z then delta else 0%Z.

Definition next_timeout_ns (now : Z) (s : TimerService) : Z :=
  timeout_of (next_deadline_ns s) now.
Definition next_timeout_of (worker : nat) (now : Z) (s : TimerService) : Z :=
  timeout_of (next_deadline_of worker s) now.

Definition empty (s : TimerService) : bool :=
  bool_decide (next_deadline_ns s = INT64_MAX).

Record Fired := mkFired {
  f_timer : timer_id;
  f_waiter : option nat;
  f_on_fire : option (FireFn (E := E));
  f_preferred : nat
}.

(** The locked loop of [run_expired_shard], filling [ready]. *)
Fixpoint pop_due (room : nat) (now : Z) h ts
  : option (list Fired * list timer_id * gmap timer_id (Timer (E := E))) :=
  match room, h with
  | O, _ | _, [] => Some ([], h, ts)
  | S room, t :: _ =>
      x ← ts !! t;
      if decide (deadline_ns x <= now)%Z then
        r ← heap_pop_root h ts;
        let next := if on_fire x then kFiring else kFired in
        let ts := alter (set_state next) t (alter (set_heap_index kNotInHeap) t r.2) in
        q ← pop_due room now r.1 ts;
        Some (mkFired t (waiter x) (on_fire x) (preferred_worker x) :: q.1.1, q.1.2, q.2)
      else Some ([], h, ts)
  end.

(** Firing one timer: the task to resume. *)
Definition fire_one (f : Fired) (e : E) : option nat * E :=
  match f_on_fire f with
  | Some g => g (f_timer f) e
  | None => (f_waiter f, e)
  end.

Definition finish_one (f : Fired) ts : gmap timer_id (Timer (E := E)) :=
  if f_on_fire f then alter (set_state kFired) (f_timer f) ts else ts.

(** The firing loop: [resumable], the preferred worker of its last entry, and
    the callbacks' effects. *)
Fixpoint fire_ready (fs : list Fired) (target : option nat) ts (e : E)
  : list nat * option nat * gmap timer_id (Timer (E := E)) * E :=
  match fs with
  | [] => ([], target, ts, e)
  | f :: fs =>
      let '(resume, e) := fire_one f e in
      let ts := finish_one f ts in
      match resume with
      | Some k =>
          let '(ks, target, ts, e) := fire_ready fs (Some (f_preferred f)) ts e in
          (k :: ks, target, ts, e)
      | None => fire_ready fs target ts e
      end
  end.

Fixpoint run_expired_shard (fuel : nat) (i : nat) (now : Z) (total : nat) (s : TimerService)
  : option (nat * TimerService) :=
  match fuel with
  | O => None
  | S fuel =>
      shard ← shards s !! i;
      q ← pop_due kBatch now (heap shard) (nodes s);
      let '(ready, h, ts) := q in
      e ← published ts h;
      let s := set_shard i (mkShard h e) ts s in
      let n := length ready in
      if decide (n = 0) then Some (total, s)
      else
        let '(ks, target, ts, ev) := fire_ready ready None (nodes s) (env s) in
        let s := mkService ts (shards s) (nudged s)
                   (if decide (0 < length ks) then scheduled s ++ [(ks, target)]
                    else scheduled s) ev in
        if decide (n < kBatch) then Some (total + n, s)
        else run_expired_shard fuel i now (total + n) s
  end.

(** Each batch but the last empties 64 slots of the heap. *)
Definition shard_fuel (i : nat) (s : TimerService) : nat :=
  match shards s !! i with Some sh => S (length (heap sh)) | None => 1 end.

Definition run_expired_of (worker : nat) (now : Z) (s : TimerService)
  : option (nat * TimerService) :=
  match shards s !! worker with
  | None => Some (0, s)
  | Some sh =>
      if decide (now < earliest sh)%Z then Some (0, s)
      else run_expired_shard (shard_fuel worker s) worker now 0 s
  end.

Fixpoint run_expired_from (n i : nat) (now : Z) (fired : nat) (s : TimerService)
  : option (nat * TimerService) :=
  match n with
  | O => Some (fired, s)
  | S n =>
      r ← run_expired_of i now s;
      run_expired_from n (S i) now (fired + r.1) r.2
  end.

Definition run_expired (now : Z) (s : TimerService) : option (nat * TimerService) :=
  run_expired_from (length (shards s)) 0 now 0 s.

Definition cancel_nodes h ts : gmap timer_id (Timer (E := E)) :=
  fold_left (fun ts t => alter (fun x => set_heap_index kNotInHeap (set_state kCancelled x)) t ts)
    h ts.

Definition drain_all (s : TimerService) : TimerService :=
  mkService (fold_left (fun ts sh => cancel_nodes (heap sh) ts) (shards s) (nodes s))
    (map (fun _ => mkShard [] INT64_MAX) (shards s)) (nudged s) (scheduled s) (env s).

End TimerService.
