(* ===== verification/TimerSpec.v ===== *)
(** * Correctness of the timer service

    The service invariant [svc_ok], its preservation, and what [arm], [disarm],
    [run_expired] and the deadline queries do. *)

From stdpp Require Import sorting.
From S2P Require Import Prelude TimerHeap TimerService.

Set Default Proof Using "Type".

Section TimerSpec.
  Context {E : Type} (d : timer_id -> Z).
  Implicit Types (ts : gmap timer_id (Timer (E := E))) (h : list timer_id)
    (s : TimerService (E := E)) (t u : timer_id).

Definition published_min h : Z :=
  match h with [] => INT64_MAX | r :: _ => d r end.

Definition in_shard s i t : Prop := exists sh, shards s !! i = Some sh /\ t ∈ heap sh.

(** The invariant: [d] gives every node's deadline; each shard is a well-formed
    heap of armed nodes that know their shard, publishes the deadline of its
    root, and every node outside the heaps is unlinked and not armed. *)
Record svc_ok s : Prop := {
  so_deadline : forall t x, nodes s !! t = Some x -> deadline_ns x = d t;
  so_heap : forall i sh, shards s !! i = Some sh -> heap_wf d (nodes s) (heap sh);
  so_armed : forall i t, in_shard s i t ->
    exists x, nodes s !! t = Some x /\ state x = kArmed /\ shard_of x = i;
  so_idle : forall t x, nodes s !! t = Some x -> (forall i, ~ in_shard s i t) ->
    heap_index x = kNotInHeap /\ state x <> kArmed;
  so_earliest : forall i sh, shards s !! i = Some sh -> earliest sh = published_min (heap sh)
}.

Lemma index_bound ts h t i x :
  heap_wf d ts h -> h !! i = Some t -> ts !! t = Some x ->
  heap_index x = Z.of_nat i /\ heap_index x <> kNotInHeap.
Proof.
  intros [_ _ Hi Hsm _] Ht Hx. destruct (Hi i t ltac:(done) Ht) as (y & Hy & Hidx).
  assert (y = x) as -> by congruence. split; [done|]. rewrite Hidx.
  apply lookup_lt_Some in Ht. unfold kNotInHeap. lia.
Qed.

Lemma wf_frame ts ts' h :
  (forall t, t ∈ h -> ts' !! t = ts !! t) -> heap_wf d ts h -> heap_wf d ts' h.
Proof.
  intros Hf [Hnd Ha Hi Hsm Hok]. split; try done.
  - intros t Ht. unfold deadline. rewrite Hf by done. by apply Ha.
  - intros j t Hj Ht. rewrite Hf; [by apply Hi|]. apply list_elem_of_lookup. eauto.
Qed.

Lemma shards_disjoint s i j t : svc_ok s -> in_shard s i t -> in_shard s j t -> i = j.
Proof.
  intros Hs Hi Hj. destruct (so_armed s Hs i t Hi) as (x & Hx & _ & <-).
  destruct (so_armed s Hs j t Hj) as (y & Hy & _ & <-). congruence.
Qed.

(** One shard's heap and nodes change; the rest of the service does not. *)
Lemma svc_update s s' i sh sh' :
  svc_ok s -> shards s !! i = Some sh ->
  shards s' = <[i := sh']> (shards s) ->
  (forall u, u ∉ heap sh -> u ∉ heap sh' -> nodes s' !! u = nodes s !! u) ->
  heap_wf d (nodes s') (heap sh') ->
  (forall u, u ∈ heap sh' -> exists x, nodes s' !! u = Some x /\ state x = kArmed /\ shard_of x = i) ->
  (forall u x, u ∈ heap sh -> u ∉ heap sh' -> nodes s' !! u = Some x ->
     deadline_ns x = d u /\ heap_index x = kNotInHeap /\ state x <> kArmed) ->
  (forall u j, u ∈ heap sh' -> j <> i -> ~ in_shard s j u) ->
  earliest sh' = published_min (heap sh') ->
  svc_ok s'.
Proof.
  intros Hs Hi Esh Hout Hwf Harm Hleft Hnew Hear.
  assert (Hlk : forall j shj, shards s' !! j = Some shj ->
    j = i /\ shj = sh' \/ j <> i /\ shards s !! j = Some shj).
  { intros j shj. rewrite Esh. destruct (decide (j = i)) as [->|Hne].
    - rewrite list_lookup_insert_eq by (by eapply lookup_lt_Some). intros [= <-]. by left.
    - rewrite list_lookup_insert_ne by done. by right. }
  assert (Hii : shards s' !! i = Some sh').
  { rewrite Esh. apply list_lookup_insert_eq. by eapply lookup_lt_Some. }
  assert (Hother : forall j shj u, j <> i -> shards s !! j = Some shj -> u ∈ heap shj ->
    nodes s' !! u = nodes s !! u).
  { intros j shj u Hne Hj Hu. apply Hout.
    - intros Hu2. apply Hne. apply (shards_disjoint s j i u Hs); eexists; eauto.
    - intros Hu2. apply (Hnew u j Hu2 Hne). eexists; eauto. }
  split.
  - intros t x Hx. destruct (decide (t ∈ heap sh')) as [Hin|Hin].
    + pose proof (hw_agrees _ _ _ Hwf t Hin) as Hd. unfold deadline in Hd. rewrite Hx in Hd.
      by injection Hd.
    + destruct (decide (t ∈ heap sh)) as [Hin2|Hin2]; [by eapply Hleft|].
      rewrite Hout in Hx by done. by eapply so_deadline.
  - intros j shj [[-> ->]|[Hne Hj]]%Hlk; [done|].
    apply (wf_frame (nodes s)); [intros u; by apply (Hother j)|by eapply so_heap].
  - intros j t (shj & [[-> ->]|[Hne Hj]]%Hlk & Hin); [by apply Harm|].
    destruct (so_armed s Hs j t) as (x & Hx & ? & ?); [by exists shj|].
    exists x. by rewrite (Hother j shj t).
  - intros t x Hx Hno. assert (t ∉ heap sh') as Hn1 by (intros Hin; apply (Hno i); by exists sh').
    destruct (decide (t ∈ heap sh)) as [Hin2|Hin2]; [by eapply Hleft|].
    rewrite Hout in Hx by done. eapply so_idle; [done..|].
    intros j (shj & Hj & Hin). destruct (decide (j = i)) as [->|Hne]; [congruence|].
    apply (Hno j). exists shj. split; [|done]. rewrite Esh. by rewrite list_lookup_insert_ne.
  - intros j shj [[-> ->]|[Hne Hj]]%Hlk; [done|]. by eapply so_earliest.
Qed.

Lemma published_eq ts h : agrees ts h d -> published ts h = Some (published_min h).
Proof. intros Ha. destruct h as [|r h]; [done|]. simpl. apply Ha. left. Qed.

(** The root is published and bounds the heap from below. *)
Lemma published_lower h i t : heap_ok d h -> h !! i = Some t -> (published_min h <= d t)%Z.
Proof. intros Hok Ht. destruct h as [|r h]; [done|]. by apply (heap_root_min d (r :: h) r i t). Qed.

Lemma same_state h ts ts' t x :
  same_but_index h ts ts' -> ts !! t = Some x ->
  exists x', ts' !! t = Some x' /\ set_heap_index 0 x' = set_heap_index 0 x.
Proof.
  intros [_ Hs] Hx. specialize (Hs t). rewrite Hx in Hs.
  destruct (ts' !! t) as [x'|]; [|done]. exists x'. split; [done|]. by apply (inj Some) in Hs.
Qed.

Lemma same_fields (x x' : Timer (E := E)) : set_heap_index 0 x' = set_heap_index 0 x ->
  state x' = state x /\ shard_of x' = shard_of x /\ deadline_ns x' = deadline_ns x /\
  waiter x' = waiter x /\ on_fire x' = on_fire x /\ preferred_worker x' = preferred_worker x.
Proof. unfold set_heap_index. intros [=]. done. Qed.

(** The logs and the callbacks' state do not matter to the invariant. *)
Lemma svc_same s s' : nodes s' = nodes s -> shards s' = shards s -> svc_ok s -> svc_ok s'.
Proof.
  intros En Es [H1 H2 H3 H4 H5]. unfold in_shard in *.
  split; unfold in_shard; rewrite ?En, ?Es; done.
Qed.

(** ** Arming *)

Lemma arm_run worker t s x sh :
  svc_ok s -> nodes s !! t = Some x -> (forall i, ~ in_shard s i t) ->
  shards s !! default 0 worker = Some sh -> (Z.of_nat (length (heap sh)) < 2 ^ 32 - 2)%Z ->
  exists s' sh', arm worker true t s = Some (true, s') /\ svc_ok s' /\
    shards s' = <[default 0 worker := sh']> (shards s) /\ heap sh' ≡ₚ t :: heap sh /\
    nudged s' = nudged s ++
      (if bool_decide (head (heap sh') = Some t) then [(default 0 worker, d t)] else []) /\
    scheduled s' = scheduled s.
Proof.
  intros Hs Hx Hno Hsh Hsm. set (i := default 0 worker) in *.
  destruct (so_idle s Hs t x Hx Hno) as [Hidx Hst].
  assert (Hn : t ∉ heap sh) by (intros Hin; apply (Hno i); by exists sh).
  set (x' := mkTimer (deadline_ns x) (waiter x) (on_fire x) kArmed i i (heap_index x)).
  set (ts0 := <[t := x']> (nodes s)).
  pose proof (so_heap s Hs i sh Hsh) as Hwf.
  assert (Hwf0 : heap_wf d ts0 (heap sh)).
  { apply (wf_frame (nodes s)); [|done]. intros u Hu. unfold ts0.
    rewrite lookup_insert_ne; [done|by intros ->]. }
  assert (Hd0 : deadline ts0 t = Some (d t)).
  { unfold deadline, ts0. rewrite lookup_insert_eq. simpl. by rewrite (so_deadline s Hs t x). }
  destruct (heap_push_spec d ts0 (heap sh) t Hwf0 Hn Hd0 Hsm) as (h' & ts' & Hr & Hp & Hwf' & Hs').
  unfold arm. fold i. rewrite Hsh. cbn [mbind option_bind]. rewrite Hx. cbn [mbind option_bind].
  rewrite decide_True by done. fold x'. fold ts0.
  replace (length (heap sh ++ [t]) - 1) with (length (heap sh))
    by (rewrite length_app; simpl; lia). rewrite Hr. cbn [mbind option_bind fst snd].
  rewrite (so_deadline s Hs t x Hx : deadline_ns x' = d t).
  set (e := if bool_decide (h' !! 0 = Some t) then d t else earliest sh).
  assert (He : e = published_min h').
  { unfold e. destruct h' as [|r h'']; [by apply Permutation_nil_cons in Hp|]. simpl.
    case_bool_decide as Hb; [by injection Hb as ->|].
    rewrite (so_earliest s Hs i sh Hsh). destruct (heap sh) as [|r0 h0] eqn:Eh.
    { assert (r ∈ [t]) as Hrt%list_elem_of_singleton by (rewrite <- Hp; left). congruence. }
    simpl. assert (r ∈ t :: r0 :: h0) as Hin by (rewrite <- Hp; left).
    apply elem_of_cons in Hin as [->|Hin]; [done|].
    apply Z.le_antisymm.
    - apply list_elem_of_lookup in Hin as [j Hj].
      apply (heap_root_min d (r0 :: h0) r0 j r); [apply Hwf|done|done].
    - assert (r0 ∈ r :: h'') as Hin0 by (rewrite Hp; right; left).
      apply list_elem_of_lookup in Hin0 as [j Hj].
      apply (heap_root_min d (r :: h'') r j r0); [apply Hwf'|done|done]. }
  set (sh' := mkShard h' e). set (s1 := set_shard i sh' ts' s).
  exists (if bool_decide (h' !! 0 = Some t)
          then mkService (nodes s1) (shards s1) (nudged s1 ++ [(i, d t)]) (scheduled s1) (env s1)
          else s1), sh'.
  split; [done|].
  assert (Hstate : forall u, u ∈ h' -> exists y, ts' !! u = Some y /\ state y = kArmed /\ shard_of y = i).
  { intros u Hu. rewrite Hp in Hu.
    assert (exists y0, ts0 !! u = Some y0 /\ state y0 = kArmed /\ shard_of y0 = i) as (y0 & Hy0 & ? & ?).
    { unfold ts0. destruct (decide (u = t)) as [->|Hne]; [rewrite lookup_insert_eq; by exists x'|].
      rewrite lookup_insert_ne by done. apply elem_of_cons in Hu as [->|Hu]; [done|].
      apply (so_armed s Hs i u). by exists sh. }
    destruct (same_state _ _ _ _ _ Hs' Hy0) as (y & Hy & Hf). apply same_fields in Hf as (? & ? & _).
    exists y. split; [done|]. split; congruence. }
  assert (svc_ok s1) as Hok.
  { apply (svc_update s s1 i sh sh'); try done.
    - intros u Hu Hu'. simpl in *. destruct Hs' as [Ho _]. rewrite Ho by done. unfold ts0.
      rewrite lookup_insert_ne; [done|]. intros ->. apply Hu'. rewrite Hp. left.
    - intros u y Hu Hu'. exfalso. apply Hu'. simpl. rewrite Hp. by right.
    - intros u j Hu Hj Hin. simpl in Hu. rewrite Hp in Hu.
      apply elem_of_cons in Hu as [->|Hu]; [by apply (Hno j)|].
      apply Hj. apply (shards_disjoint s j i u Hs Hin). by exists sh. }
  split; [|split; [|split; [done|]]].
  - case_bool_decide; [by apply (svc_same s1)|done].
  - by case_bool_decide.
  - split.
    + change (head (heap sh')) with (head h'). rewrite (head_lookup h').
      destruct (bool_decide _); [done|]. by rewrite app_nil_r.
    + by case_bool_decide.
Qed.

(** ** Disarming *)

Lemma unlink_state ts t x st :
  ts !! t = Some x ->
  alter (set_state st) t (alter (set_heap_index kNotInHeap) t ts) !! t
  = Some (set_state st (set_heap_index kNotInHeap x)).
Proof. intros Hx. by rewrite !lookup_alter_eq, Hx. Qed.

Lemma unlink_other ts t u st : u <> t ->
  alter (set_state st) t (alter (set_heap_index kNotInHeap) t ts) !! u = ts !! u.
Proof. intros Hn. by rewrite !lookup_alter_ne. Qed.

(** Unlinking the node at position [j] of a heap and giving it state [st]. *)
Lemma unlink_svc s i sh j t h' ts' st e :
  svc_ok s -> shards s !! i = Some sh -> heap sh !! j = Some t -> st <> kArmed ->
  heap sh ≡ₚ t :: h' -> heap_wf d ts' h' -> same_but_index h' (nodes s) ts' ->
  e = published_min h' ->
  svc_ok (set_shard i (mkShard h' e)
    (alter (set_state st) t (alter (set_heap_index kNotInHeap) t ts')) s).
Proof.
  intros Hs Hi Ht Hst Hp Hwf Hsame ->.
  assert (Hnd : NoDup (t :: h')) by (rewrite <- Hp; apply (so_heap s Hs i sh Hi)).
  apply NoDup_cons in Hnd as [Htn _].
  assert (Hin : in_shard s i t).
  { exists sh. split; [done|]. apply list_elem_of_lookup. eauto. }
  destruct (so_armed s Hs i t Hin) as (x & Hx & _).
  destruct (same_state _ _ _ _ _ Hsame Hx) as (x' & Hx' & Hf).
  apply same_fields in Hf as (_ & _ & Hdx & _).
  eapply (svc_update s _ i sh); [done|done|done|..]; simpl.
  - intros u Hu Hu'. assert (u <> t) as Hne.
    { intros ->. apply Hu, list_elem_of_lookup. eauto. }
    rewrite unlink_other by done. by apply Hsame.
  - apply (wf_frame ts'); [|done]. intros u Hu. apply unlink_other. by intros ->.
  - intros u Hu. assert (u <> t) as Hne by (by intros ->). rewrite unlink_other by done.
    destruct (so_armed s Hs i u) as (y & Hy & Hy1 & Hy2).
    { exists sh. split; [done|]. rewrite Hp. by right. }
    destruct (same_state _ _ _ _ _ Hsame Hy) as (y' & Hy' & Hf).
    apply same_fields in Hf as (? & ? & _). exists y'. split; [done|]. split; congruence.
  - intros u y Hu Hu' Hy. rewrite Hp in Hu. apply elem_of_cons in Hu as [->|Hu]; [|done].
    rewrite (unlink_state _ _ x') in Hy by done. injection Hy as <-. simpl.
    split; [|done]. rewrite Hdx. by apply (so_deadline s Hs).
  - intros u k Hu Hk Hin'. apply Hk. apply (shards_disjoint s k i u Hs Hin').
    exists sh. split; [done|]. rewrite Hp. by right.
  - done.
Qed.

Lemma unlink_nonroot s i sh j t h' ts' :
  svc_ok s -> shards s !! i = Some sh -> heap sh !! j = Some t -> 0 < j ->
  heap sh ≡ₚ t :: h' -> heap_wf d ts' h' -> earliest sh = published_min h'.
Proof.
  intros Hs Hi Ht Hj Hp Hwf. rewrite (so_earliest s Hs i sh Hi).
  pose proof (so_heap s Hs i sh Hi) as Hwf0.
  destruct (heap sh) as [|r h] eqn:Eh; [done|].
  assert (Hr : r ∈ h').
  { assert (r ∈ t :: h') as [->|]%elem_of_cons by (rewrite <- Hp; left); [|done].
    destruct j as [|j]; [lia|]. destruct Hwf0 as [[Hn _]%NoDup_cons _ _ _ _].
    exfalso. apply Hn, list_elem_of_lookup. eauto. }
  destruct h' as [|r' h'']; [by apply not_elem_of_nil in Hr|]. simpl.
  assert (Hr' : r' ∈ r :: h) by (rewrite Hp; right; left).
  apply list_elem_of_lookup in Hr as [k Hk]. apply list_elem_of_lookup in Hr' as [k' Hk'].
  apply Z.le_antisymm.
  - apply (heap_root_min d (r :: h) r k' r'); [apply Hwf0|done|done].
  - apply (heap_root_min d (r' :: h'') r' k r); [apply Hwf|done|done].
Qed.

Lemma disarm_armed_run t s i :
  svc_ok s -> in_shard s i t ->
  exists s' sh sh', disarm t s = Some (inl true, s') /\ svc_ok s' /\
    shards s !! i = Some sh /\ shards s' = <[i := sh']> (shards s) /\
    heap sh ≡ₚ t :: heap sh' /\ (forall j, ~ in_shard s' j t) /\
    (exists x, nodes s' !! t = Some x /\ state x = kCancelled /\ heap_index x = kNotInHeap) /\
    (nudged s' = nudged s /\ scheduled s' = scheduled s /\ env s' = env s).
Proof.
  intros Hs Hin. destruct (so_armed s Hs i t Hin) as (x & Hx & Hst & Hsh).
  pose proof Hin as (sh & Hi & Hint). apply list_elem_of_lookup in Hint as [j Hj].
  pose proof (so_heap s Hs i sh Hi) as Hwf.
  destruct (index_bound _ _ _ _ _ Hwf Hj Hx) as [Hidx Hne].
  destruct (heap_remove_spec d _ _ _ _ Hwf Hj) as (h' & ts' & Hr & Hp & Hwf' & Hsame).
  assert (Hpub : published (alter (set_heap_index kNotInHeap) t ts') h' = Some (published_min h')).
  { apply published_eq. intros u Hu. pose proof (hw_agrees _ _ _ Hwf' u Hu) as Hd.
    unfold deadline in *. destruct (decide (u = t)) as [->|Hut].
    - rewrite lookup_alter_eq. by destruct (ts' !! t).
    - by rewrite lookup_alter_ne. }
  set (ts2 := alter (set_state kCancelled) t (alter (set_heap_index kNotInHeap) t ts')).
  assert (Hrun : disarm t s = Some (inl true, set_shard i (mkShard h' (published_min h')) ts2 s)).
  { unfold disarm. rewrite Hx. simpl. rewrite Hst. unfold disarm_turn. rewrite Hx. simpl.
    rewrite Hsh, Hi. simpl. rewrite decide_True by done.
    case_decide as H0.
    - assert (j = 0) as -> by lia. rewrite Hr. simpl. rewrite Hpub. done.
    - rewrite Hidx, Nat2Z.id, Hr. simpl. unfold ts2. do 4 f_equal. f_equal.
      apply (unlink_nonroot s i sh j t h' ts'); try done. lia. }
  assert (Hok : svc_ok (set_shard i (mkShard h' (published_min h')) ts2 s)).
  { by eapply unlink_svc. }
  eexists _, sh, (mkShard h' (published_min h')). split; [exact Hrun|]. split; [done|].
  split; [done|]. split; [done|]. split; [done|].
  destruct (same_state _ _ _ _ _ Hsame Hx) as (x' & Hx' & _).
  assert (Hx2 : ts2 !! t = Some (set_state kCancelled (set_heap_index kNotInHeap x')))
    by (by apply unlink_state).
  split; [|split; [eauto|done]].
  intros k Hk. destruct (so_armed _ Hok k t Hk) as (y & Hy & Hy' & _). simpl in Hy.
  rewrite Hx2 in Hy. injection Hy as <-. done.
Qed.

Lemma disarm_idle_run t s x :
  nodes s !! t = Some x -> state x = kIdle \/ state x = kCancelled \/ state x = kFired ->
  disarm t s = Some (inl false, s).
Proof. intros Hx Hst. unfold disarm. rewrite Hx. simpl. by destruct Hst as [->|[->| ->]]. Qed.

Lemma disarm_firing_run t s x :
  nodes s !! t = Some x -> state x = kFiring -> disarm t s = Some (inr kFiring, s).
Proof. intros Hx Hst. unfold disarm. rewrite Hx. simpl. rewrite Hst. unfold disarm_turn. rewrite Hx. simpl. by rewrite Hst. Qed.

(** ** Firing *)

Definition due (now : Z) t : Prop := (d t <= now)%Z.

(** [fs] are the heads that a batch took from [h], leaving [h']: due, in order
    of deadline, and not after anything that was left. *)
Record batch_of (now : Z) h h' (fs : list (Fired (E := E))) : Prop := {
  ba_perm : h ≡ₚ map f_timer fs ++ h';
  ba_due : forall f, f ∈ fs -> due now (f_timer f);
  ba_sorted : StronglySorted (fun a b => (d (f_timer a) <= d (f_timer b))%Z) fs;
  ba_least : forall f u, f ∈ fs -> u ∈ h' -> (d (f_timer f) <= d u)%Z
}.

(** A batch entry copies its node's fields. *)
Definition copied ts (f : Fired (E := E)) : Prop :=
  exists x, ts !! f_timer f = Some x /\ f_waiter f = waiter x /\
    f_on_fire f = on_fire x /\ f_preferred f = preferred_worker x.

(** The nodes after a batch: what was taken is unlinked and [kFiring] or
    [kFired], the rest is as before up to [heap_index]. *)
Definition batch_nodes h ts ts' (fs : list (Fired (E := E))) : Prop :=
  (forall t, t ∉ h -> ts' !! t = ts !! t) /\
  (forall f, f ∈ fs -> exists x, ts' !! f_timer f = Some x /\
     deadline_ns x = d (f_timer f) /\ heap_index x = kNotInHeap /\
     state x = if f_on_fire f then kFiring else kFired) /\
  (forall t, t ∉ map f_timer fs -> set_heap_index 0 <$> ts' !! t = set_heap_index 0 <$> ts !! t).

Lemma pop_due_step h ts now r rest :
  heap_wf d ts h -> h = r :: rest -> due now r ->
  exists x h1 ts1, ts !! r = Some x /\ deadline_ns x = d r /\ heap_pop_root h ts = Some (h1, ts1) /\
    h ≡ₚ r :: h1 /\ heap_wf d ts1 h1 /\ same_but_index h1 ts ts1 /\ r ∉ h1.
Proof.
  intros Hwf -> Hdue. assert (Hne : r :: rest <> []) by done.
  pose proof (hw_agrees _ _ _ Hwf r ltac:(left)) as Hd. unfold deadline in Hd.
  destruct (ts !! r) as [x|] eqn:Hx; [|done]. injection Hd as Hd.
  destruct (heap_remove_spec d ts (r :: rest) 0 r Hwf eq_refl) as (h1 & ts1 & Hr & Hp & Hwf1 & Hs).
  exists x, h1, ts1. rewrite (heap_pop_root_eq d ts _ Hwf Hne).
  repeat (split; [done|]). assert (Hnd : NoDup (r :: h1)) by (rewrite <- Hp; apply Hwf).
  by apply NoDup_cons in Hnd as [? _].
Qed.

Lemma batch_cons now h h1 h' r f fs :
  h ≡ₚ r :: h1 -> f_timer f = r -> due now r -> (forall u, u ∈ h1 -> (d r <= d u)%Z) ->
  batch_of now h1 h' fs -> batch_of now h h' (f :: fs).
Proof.
  intros Hp Hf Hdue Hmin [Bp Bd Bs Bl]. split.
  - simpl. rewrite Hp, Hf. by constructor.
  - intros g [->|Hg]%elem_of_cons; [by rewrite Hf|auto].
  - constructor; [done|]. apply Forall_forall. intros g Hg. rewrite Hf. apply Hmin.
    rewrite Bp. apply elem_of_app. left. by apply list_elem_of_fmap_2.
  - intros g u [->|Hg]%elem_of_cons Hu; [|by eapply Bl]. rewrite Hf. apply Hmin.
    rewrite Bp. apply elem_of_app. by right.
Qed.

Lemma batch_nodes_cons h h1 ts ts1 ts' r x f fs (st : TimerState) :
  h ≡ₚ r :: h1 -> r ∉ h1 -> ts !! r = Some x -> deadline_ns x = d r ->
  same_but_index h1 ts ts1 -> f_timer f = r ->
  st = (if f_on_fire f then kFiring else kFired) -> (forall g, g ∈ fs -> f_timer g ∈ h1) ->
  batch_nodes h1 (alter (set_state st) r (alter (set_heap_index kNotInHeap) r ts1)) ts' fs ->
  batch_nodes h ts ts' (f :: fs).
Proof.
  intros Hp Hn Hx Hd Hs Hf -> Hin (Ho & Hfs & Hrest).
  destruct (same_state _ _ _ _ _ Hs Hx) as (x' & Hx' & Hflds).
  apply same_fields in Hflds as (_ & _ & Hdx & _).
  assert (Hnf : r ∉ map f_timer fs).
  { intros (g & -> & Hg)%list_elem_of_fmap. by apply Hn, Hin. }
  split; [|split].
  - intros t Ht. rewrite Hp in Ht. rewrite Ho by (intros ?; apply Ht; by right).
    rewrite unlink_other by (intros ->; apply Ht; left). apply Hs.
    intros Ht1. apply Ht. by right.
  - intros g [->|Hg]%elem_of_cons; [|by apply Hfs]. rewrite Hf.
    rewrite Ho by done. rewrite (unlink_state _ _ x') by done.
    eexists. split; [done|]. simpl. split; [congruence|done].
  - intros t Ht. simpl in Ht. rewrite not_elem_of_cons in Ht. destruct Ht as [Hne Ht].
    rewrite Hf in Hne. rewrite Hrest by done. rewrite unlink_other by done.
    by destruct Hs as [_ ->].
Qed.

Lemma pop_due_run now room : forall h ts,
  heap_wf d ts h ->
  exists fs h' ts', pop_due room now h ts = Some (fs, h', ts') /\
    batch_of now h h' fs /\ heap_wf d ts' h' /\ batch_nodes h ts ts' fs /\
    (forall f, f ∈ fs -> copied ts f) /\
    length fs <= room /\ (length fs < room -> forall u, u ∈ h' -> ~ due now u).
Proof.
  induction room as [|room IH]; intros h ts Hwf.
  { exists [], h, ts. split; [done|]. split; [|split; [done|]].
    - split; [done| | |]; try (intros f Hf; by apply not_elem_of_nil in Hf); try constructor.
      intros f u Hf. by apply not_elem_of_nil in Hf.
    - split; [|split; [intros f Hf; by apply not_elem_of_nil in Hf|]; simpl; split; [lia|lia]].
      split; [done|]. split; [intros f Hf; by apply not_elem_of_nil in Hf|done]. }
  assert (Hstop : (forall u, u ∈ h -> ~ due now u) ->
    exists fs h' ts', Some ([], h, ts) = Some (fs, h', ts') /\
    batch_of now h h' fs /\ heap_wf d ts' h' /\ batch_nodes h ts ts' fs /\
    (forall f, f ∈ fs -> copied ts f) /\
    length fs <= S room /\ (length fs < S room -> forall u, u ∈ h' -> ~ due now u)).
  { intros Hnd. exists [], h, ts. split; [done|]. split; [|split; [done|]].
    - split; [done| | |]; try (intros f Hf; by apply not_elem_of_nil in Hf); try constructor.
      intros f u Hf. by apply not_elem_of_nil in Hf.
    - split; [|split; [intros f Hf; by apply not_elem_of_nil in Hf|]; simpl; split; [lia|done]].
      split; [done|]. split; [intros f Hf; by apply not_elem_of_nil in Hf|done]. }
  destruct h as [|r rest] eqn:Eh.
  { apply Hstop. intros u Hu. by apply not_elem_of_nil in Hu. }
  rewrite <- Eh in *.
  pose proof (hw_agrees _ _ _ Hwf r ltac:(rewrite Eh; left)) as Hdr. unfold deadline in Hdr.
  destruct (ts !! r) as [x|] eqn:Hx; [|done]. injection Hdr as Hdr.
  assert (Eq : pop_due (S room) now h ts =
    if decide (deadline_ns x <= now)%Z then
      q0 ← heap_pop_root h ts;
      let next := if on_fire x then kFiring else kFired in
      let ts := alter (set_state next) r (alter (set_heap_index kNotInHeap) r q0.2) in
      q ← pop_due room now q0.1 ts;
      Some (mkFired r (waiter x) (on_fire x) (preferred_worker x) :: q.1.1, q.1.2, q.2)
    else Some ([], h, ts)).
  { rewrite Eh. simpl. by rewrite Hx. }
  rewrite Eq. case_decide as Hdue; rewrite Hdr in Hdue.
  - destruct (pop_due_step h ts now r rest Hwf Eh Hdue)
      as (x2 & h1 & ts1 & Hx2 & _ & Hpop & Hp & Hwf1 & Hs & Hn).
    assert (x2 = x) as -> by congruence. rewrite Hpop. cbn [mbind option_bind fst snd].
    set (st := if on_fire x then kFiring else kFired).
    set (ts2 := alter (set_state st) r (alter (set_heap_index kNotInHeap) r ts1)).
    assert (Hwf2 : heap_wf d ts2 h1).
    { apply (wf_frame ts1); [|done]. intros u Hu. apply unlink_other. by intros ->. }
    destruct (IH h1 ts2 Hwf2) as (fs & h' & ts' & -> & Hb & Hwf' & Hbn & Hcp & Hlen & Hrest).
    simpl. eexists (_ :: fs), h', ts'. split; [done|].
    assert (Hin : forall g, g ∈ fs -> f_timer g ∈ h1).
    { intros g Hg. rewrite (ba_perm _ _ _ _ Hb). apply elem_of_app. left.
      by apply list_elem_of_fmap_2. }
    split; [|split; [done|split; [|split; [|simpl; split; [lia|intros ?; apply Hrest; lia]]]]].
    + apply (batch_cons now h h1 h' r); try done. intros u Hu.
      assert (Hu' : u ∈ h) by (rewrite Hp; by right). apply list_elem_of_lookup in Hu' as [j Hj].
      apply (heap_root_min d h r j u); [apply Hwf|by rewrite Eh|done].
    + eapply (batch_nodes_cons h h1 ts ts1 ts' r x); try done.
    + intros g [->|Hg]%elem_of_cons; [by exists x|].
      destruct (Hcp g Hg) as (y & Hy & Hflds). specialize (Hin g Hg).
      unfold ts2 in Hy. rewrite unlink_other in Hy by (intros E1; rewrite E1 in Hin; done).
      destruct Hs as [_ Hs]. specialize (Hs (f_timer g)). rewrite Hy in Hs.
      destruct (ts !! f_timer g) as [y0|] eqn:Hy0; [|done]. apply (inj Some) in Hs.
      apply same_fields in Hs as (_ & _ & _ & H1 & H2 & H3).
      exists y0. split; [done|]. by rewrite <- H1, <- H2, <- H3.
  - apply Hstop. intros u Hu Hdu. apply list_elem_of_lookup in Hu as [j Hj].
    assert (d r <= d u)%Z.
    { apply (heap_root_min d h r j u); [apply Hwf|by rewrite Eh|done]. }
    unfold due in Hdu. lia.
Qed.

(** The callbacks of a list of fired timers, run in order: the tasks to resume
    and the final state. *)
Fixpoint fire_all (fs : list (Fired (E := E))) (e : E) : list nat * E :=
  match fs with
  | [] => ([], e)
  | f :: fs =>
      let r := fire_one f e in
      let q := fire_all fs r.2 in
      (option_list r.1 ++ q.1, q.2)
  end.

Lemma fire_all_app fs gs e :
  fire_all (fs ++ gs) e =
  ((fire_all fs e).1 ++ (fire_all gs (fire_all fs e).2).1, (fire_all gs (fire_all fs e).2).2).
Proof.
  revert e. induction fs as [|f fs IH]; intros e; simpl; [by destruct (fire_all gs e)|].
  rewrite IH. simpl. by rewrite app_assoc.
Qed.

Definition finish_all (fs : list (Fired (E := E))) ts : gmap timer_id (Timer (E := E)) :=
  fold_left (fun ts f => finish_one f ts) fs ts.

Lemma fire_ready_run fs : forall target ts e,
  exists target', fire_ready fs target ts e
    = ((fire_all fs e).1, target', finish_all fs ts, (fire_all fs e).2).
Proof.
  induction fs as [|f fs IH]; intros target ts e; simpl; [by exists target|].
  destruct (fire_one f e) as [[k|] e1]; simpl.
  - destruct (IH (Some (f_preferred f)) (finish_one f ts) e1) as [tg ->]. by exists tg.
  - apply IH.
Qed.

(** Finishing unlinked timers keeps the invariant. *)
Lemma svc_finish_one s f :
  svc_ok s -> (forall i, ~ in_shard s i (f_timer f)) ->
  svc_ok (set_nodes (finish_one f (nodes s)) s).
Proof.
  intros Hs Hno. unfold finish_one. destruct (f_on_fire f); [|by apply (svc_same s)].
  set (t := f_timer f) in *. set (s' := set_nodes _ s).
  assert (Hne : forall u, u <> t -> nodes s' !! u = nodes s !! u).
  { intros u Hu. simpl. by rewrite lookup_alter_ne. }
  assert (Hin : forall i u, in_shard s' i u <-> in_shard s i u) by done.
  assert (Ht : forall y, nodes s' !! t = Some y -> exists x, nodes s !! t = Some x /\
    deadline_ns y = deadline_ns x /\ heap_index y = heap_index x /\ state y = kFired).
  { intros y Hy. simpl in Hy. rewrite lookup_alter_eq in Hy.
    destruct (nodes s !! t) as [x|]; [|done]. exists x. injection Hy as <-. done. }
  split.
  - intros u y Hy. destruct (decide (u = t)) as [->|]; [|rewrite Hne in Hy by done; by eapply so_deadline].
    destruct (Ht y Hy) as (x & Hx & -> & _). by apply (so_deadline s).
  - intros i sh Hi. apply (wf_frame (nodes s)); [|by apply (so_heap s Hs i)].
    intros u Hu. apply Hne. intros ->. apply (Hno i). by exists sh.
  - intros i u Hu. destruct (so_armed s Hs i u Hu) as (x & ? & ?). exists x.
    rewrite Hne; [done|]. intros ->. by apply (Hno i).
  - intros u y Hy Hn. destruct (decide (u = t)) as [->|].
    + destruct (Ht y Hy) as (x & Hx & _ & -> & ->). split; [|done].
      by destruct (so_idle s Hs t x Hx).
    + rewrite Hne in Hy by done. by apply (so_idle s Hs u).
  - apply Hs.
Qed.

Lemma svc_finish_all fs : forall s,
  svc_ok s -> (forall f i, f ∈ fs -> ~ in_shard s i (f_timer f)) ->
  svc_ok (set_nodes (finish_all fs (nodes s)) s).
Proof.
  induction fs as [|f fs IH]; intros s Hs Hno; simpl; [by apply (svc_same s)|].
  apply (IH (set_nodes (finish_one f (nodes s)) s)).
  - apply svc_finish_one; [done|]. intros i. apply Hno. left.
  - intros g i Hg. apply (Hno g i). by right.
Qed.

Lemma finish_all_other fs : forall ts u, u ∉ map f_timer fs -> finish_all fs ts !! u = ts !! u.
Proof.
  induction fs as [|f fs IH]; intros ts u Hu; simpl in *; [done|].
  rewrite not_elem_of_cons in Hu. destruct Hu as [Hne Hu]. unfold finish_all in *.
  simpl. rewrite IH by done. unfold finish_one. destruct (f_on_fire f); [|done].
  by rewrite lookup_alter_ne.
Qed.

(** After firing, every timer of the batch is [kFired] and unlinked. *)
Definition fired_node ts t : Prop :=
  exists x, ts !! t = Some x /\ state x = kFired /\ heap_index x = kNotInHeap.

Lemma finish_all_fired fs : forall ts f,
  NoDup (map f_timer fs) -> f ∈ fs ->
  (forall g, g ∈ fs -> exists x, ts !! f_timer g = Some x /\ heap_index x = kNotInHeap /\
     state x = if f_on_fire g then kFiring else kFired) ->
  fired_node (finish_all fs ts) (f_timer f).
Proof.
  induction fs as [|g fs IH]; intros ts f Hnd Hf Hall; [by apply not_elem_of_nil in Hf|].
  simpl in Hnd. apply NoDup_cons in Hnd as [Hn Hnd].
  apply elem_of_cons in Hf as [->|Hf].
  - destruct (Hall g ltac:(left)) as (x & Hx & Hi & Hst). unfold fired_node, finish_all. simpl.
    pose proof (finish_all_other fs (finish_one g ts) (f_timer g) Hn) as E1.
    unfold finish_all in E1. rewrite E1. unfold finish_one.
    destruct (f_on_fire g); [|by exists x]. rewrite lookup_alter_eq, Hx. by eexists.
  - apply (IH (finish_one g ts) f Hnd Hf). intros g' Hg'.
    destruct (Hall g' ltac:(by right)) as (x & Hx & Hrest). exists x. split; [|done].
    unfold finish_one. destruct (f_on_fire g); [|done].
    rewrite lookup_alter_ne; [done|]. intros E1. apply Hn. rewrite E1.
    by apply list_elem_of_fmap_2.
Qed.

Lemma batch_app now h h1 h' fs gs :
  batch_of now h h1 fs -> batch_of now h1 h' gs -> batch_of now h h' (fs ++ gs).
Proof.
  intros [P1 D1 S1 L1] [P2 D2 S2 L2].
  assert (Hg : forall g, g ∈ gs -> f_timer g ∈ h1).
  { intros g Hg. rewrite P2. apply elem_of_app. left. by apply list_elem_of_fmap_2. }
  split.
  - rewrite map_app, <- app_assoc, <- P2. done.
  - intros f [?|?]%elem_of_app; auto.
  - apply StronglySorted_app_2; [|done..]. intros f g Hf Hg'. apply L1; [done|]. by apply Hg.
  - intros f u [Hf|Hf]%elem_of_app Hu; [|by eapply L2]. apply (L1 f u Hf).
    rewrite P2. apply elem_of_app. by right.
Qed.

(** One batch of [run_expired_shard]: the locked part and the firing. *)
Lemma batch_svc s i sh fs h' ts' now :
  svc_ok s -> shards s !! i = Some sh ->
  batch_of now (heap sh) h' fs -> heap_wf d ts' h' -> batch_nodes (heap sh) (nodes s) ts' fs ->
  let s1 := set_shard i (mkShard h' (published_min h')) ts' s in
  svc_ok s1 /\ svc_ok (set_nodes (finish_all fs ts') s1) /\
  (forall f, f ∈ fs -> fired_node (finish_all fs ts') (f_timer f)) /\
  (forall f j, f ∈ fs -> ~ in_shard s1 j (f_timer f)).
Proof.
  intros Hs Hi Hb Hwf' (Ho & Hf & Hr) s1.
  assert (Hnd : NoDup (map f_timer fs ++ h')).
  { rewrite <- (ba_perm _ _ _ _ Hb). apply (so_heap s Hs i sh Hi). }
  apply NoDup_app in Hnd as (Hnd & Hdj & _).
  assert (Hs1 : svc_ok s1).
  { apply (svc_update s s1 i sh (mkShard h' (published_min h'))); try done; simpl.
    - intros u Hu _. by apply Ho.
    - intros u Hu. assert (Hin : in_shard s i u).
      { exists sh. split; [done|]. rewrite (ba_perm _ _ _ _ Hb). apply elem_of_app. by right. }
      destruct (so_armed s Hs i u Hin) as (x & Hx & Hst & Hsh).
      assert (u ∉ map f_timer fs) as Hnu by (intros Hu2; by apply (Hdj u)).
      specialize (Hr u Hnu). rewrite Hx in Hr. destruct (ts' !! u) as [x'|]; [|done].
      apply (inj Some) in Hr. apply same_fields in Hr as (H1 & H2 & _).
      exists x'. split; [done|]. split; congruence.
    - intros u x Hu Hu' Hx. rewrite (ba_perm _ _ _ _ Hb) in Hu.
      apply elem_of_app in Hu as [(f & -> & Hfin)%list_elem_of_fmap|]; [|done].
      destruct (Hf f Hfin) as (y & Hy & ? & ? & Hst). assert (y = x) as -> by congruence.
      split; [done|]. split; [done|]. rewrite Hst. by destruct (f_on_fire f).
    - intros u j Hu Hj Hin. apply Hj. apply (shards_disjoint s j i u Hs Hin).
      exists sh. split; [done|]. rewrite (ba_perm _ _ _ _ Hb). apply elem_of_app. by right. }
  assert (Hno : forall f j, f ∈ fs -> ~ in_shard s1 j (f_timer f)).
  { intros f j Hfin Hj. destruct (so_armed s1 Hs1 j _ Hj) as (y & Hy & Hst & _). simpl in Hy.
    destruct (Hf f Hfin) as (x & Hx & _ & _ & Hst'). assert (y = x) as -> by congruence.
    rewrite Hst' in Hst. by destruct (f_on_fire f). }
  split; [done|]. split; [by apply (svc_finish_all fs s1)|]. split; [|done].
  intros f Hfin. apply finish_all_fired; [done|done|].
  intros g Hg. destruct (Hf g Hg) as (x & ? & _ & ? & ?). eauto.
Qed.

(** ** Draining a shard of its expired timers *)

(** The outcome of firing [fs] on shard [i]. *)
Record expired_run (now : Z) (i : nat) s s' (sh : Shard) h' (fs : list (Fired (E := E))) : Prop := {
  er_ok : svc_ok s';
  er_shards : shards s' = <[i := mkShard h' (published_min h')]> (shards s);
  er_batch : batch_of now (heap sh) h' fs;
  er_left : forall u, u ∈ h' -> ~ due now u;
  er_fired : forall f, f ∈ fs -> fired_node (nodes s') (f_timer f);
  er_copied : forall f, f ∈ fs -> copied (nodes s) f;
  er_sched : exists bs, scheduled s' = scheduled s ++ bs /\
    concat (map fst bs) = (fire_all fs (env s)).1;
  er_env : env s' = (fire_all fs (env s)).2;
  er_nudged : nudged s' = nudged s
}.

Lemma copied_later ts ts2 (gs : list (Fired (E := E))) f :
  (forall t, t ∉ map f_timer gs -> set_heap_index 0 <$> ts2 !! t = set_heap_index 0 <$> ts !! t) ->
  f_timer f ∉ map f_timer gs -> copied ts2 f -> copied ts f.
Proof.
  intros Hr Hn (y & Hy & H1 & H2 & H3). specialize (Hr _ Hn). rewrite Hy in Hr.
  destruct (ts !! f_timer f) as [x|] eqn:Hx; [|done]. apply (inj Some) in Hr.
  apply same_fields in Hr as (_ & _ & _ & E1 & E2 & E3). exists x. split; [done|].
  by rewrite <- E1, <- E2, <- E3.
Qed.

Lemma expired_compose now i s s1 s' sh sh1 h1 h' (fs gs : list (Fired (E := E))) :
  svc_ok s -> shards s !! i = Some sh ->
  heap sh1 = h1 -> svc_ok s' ->
  batch_of now (heap sh) h1 fs ->
  (forall t, t ∉ map f_timer fs -> set_heap_index 0 <$> nodes s1 !! t = set_heap_index 0 <$> nodes s !! t) ->
  (forall f, f ∈ fs -> fired_node (nodes s1) (f_timer f)) ->
  (forall f, f ∈ fs -> copied (nodes s) f) ->
  (exists bs, scheduled s1 = scheduled s ++ bs /\ concat (map fst bs) = (fire_all fs (env s)).1) ->
  env s1 = (fire_all fs (env s)).2 -> nudged s1 = nudged s ->
  shards s1 = <[i := mkShard h1 (published_min h1)]> (shards s) ->
  (forall f, f ∈ fs -> f_timer f ∉ h1 -> nodes s' !! f_timer f = nodes s1 !! f_timer f) ->
  expired_run now i s1 s' sh1 h' gs -> expired_run now i s s' sh h' (fs ++ gs).
Proof.
  intros Hs Hi Eh Hok Hb Hr Hfired Hcp (bs & Hbs & Hcat) Henv Hnud Hsh Hkeep [R1 R2 R3 R4 R5 R6 R7 R8 R9].
  rewrite Eh in R3.
  assert (Hnd : NoDup (map f_timer fs ++ h1)).
  { rewrite <- (ba_perm _ _ _ _ Hb). apply (so_heap s Hs i sh Hi). }
  apply NoDup_app in Hnd as (_ & Hdj & _).
  split; [done| |by eapply batch_app|done| | | | |congruence].
  - rewrite R2, Hsh. by rewrite list_insert_insert_eq.
  - intros f [Hf|Hf]%elem_of_app; [|by apply R5]. destruct (Hfired f Hf) as (x & Hx & Hrest).
    exists x. rewrite Hkeep; [done|done|]. apply Hdj. by apply list_elem_of_fmap_2.
  - intros f [Hf|Hf]%elem_of_app; [by apply Hcp|].
    apply (copied_later _ (nodes s1) fs); [done| |by apply R6].
    intros Hin. apply (Hdj _ Hin). rewrite (ba_perm _ _ _ _ R3). apply elem_of_app. left.
    by apply list_elem_of_fmap_2.
  - destruct R7 as (bs2 & Hbs2 & Hcat2). exists (bs ++ bs2).
    rewrite Hbs2, Hbs, app_assoc. split; [done|]. rewrite map_app, concat_app, Hcat, Hcat2, Henv.
    by rewrite fire_all_app.
  - by rewrite R8, Henv, fire_all_app.
Qed.

Lemma run_expired_shard_run now i fuel : forall s sh total,
  svc_ok s -> shards s !! i = Some sh -> length (heap sh) < fuel ->
  exists fs h' s', run_expired_shard fuel i now total s = Some (total + length fs, s') /\
    expired_run now i s s' sh h' fs /\
    (forall t, t ∉ heap sh -> nodes s' !! t = nodes s !! t).
Proof.
  induction fuel as [|fuel IH]; intros s sh total Hs Hi Hf; [lia|].
  cbn [run_expired_shard]. rewrite Hi. cbn [mbind option_bind].
  destruct (pop_due_run now kBatch (heap sh) (nodes s) (so_heap s Hs i sh Hi))
    as (fs & h1 & ts1 & Hpop & Hb & Hwf1 & Hbn & Hcp & Hlen & Hrest).
  rewrite Hpop. cbn [mbind option_bind].
  rewrite (published_eq _ _ (hw_agrees _ _ _ Hwf1)). cbn [mbind option_bind].
  destruct (batch_svc s i sh fs h1 ts1 now Hs Hi Hb Hwf1 Hbn) as (Hs1 & Hs2 & Hfired & Hno).
  set (sh1 := mkShard h1 (published_min h1)) in *.
  set (s1 := set_shard i sh1 ts1 s) in *.
  pose proof Hbn as (Hbo & _ & Hbr).
  assert (Hpl : length (heap sh) = length fs + length h1).
  { by rewrite (ba_perm _ _ _ _ Hb), length_app, length_map. }
  case_decide as Hn0.
  { apply nil_length_inv in Hn0 as ->. exists [], h1, s1. rewrite Nat.add_0_r.
    split; [done|]. split; [|simpl; exact Hbo]. split; try done.
    - apply Hrest. simpl. unfold kBatch. lia.
    - exists []. simpl. by rewrite app_nil_r. }
  destruct (fire_ready_run fs None ts1 (env s)) as [tg Hfr].
  change (nodes s1) with ts1. change (env s1) with (env s). rewrite Hfr.
  cbn beta iota.
  set (s2 := mkService (finish_all fs ts1) (shards s1) (nudged s1) _ (fire_all fs (env s)).2).
  assert (Hok2 : svc_ok s2) by (by apply (svc_same (set_nodes (finish_all fs ts1) s1))).
  assert (Hsch : exists bs, scheduled s2 = scheduled s ++ bs /\
    concat (map fst bs) = (fire_all fs (env s)).1).
  { subst s2. cbn [scheduled]. case_decide as Hk.
    - exists [((fire_all fs (env s)).1, tg)]. split; [done|]. simpl. by rewrite app_nil_r.
    - exists []. simpl. rewrite app_nil_r. split; [done|]. by destruct (fire_all fs (env s)).1; simpl in Hk; [|lia]. }
  assert (Hr2 : forall t, t ∉ map f_timer fs ->
    set_heap_index 0 <$> nodes s2 !! t = set_heap_index 0 <$> nodes s !! t).
  { intros t Ht. simpl. rewrite finish_all_other by done. by apply Hbr. }
  assert (Ho2 : forall t, t ∉ heap sh -> nodes s2 !! t = nodes s !! t).
  { intros t Ht. simpl. rewrite finish_all_other; [by apply Hbo|].
    intros Hin. apply Ht. rewrite (ba_perm _ _ _ _ Hb). apply elem_of_app. by left. }
  case_decide as Hlt.
  - exists fs, h1, s2. split; [done|]. split; [|done]. split; try done. by apply Hrest.
  - assert (Hi2 : shards s2 !! i = Some sh1).
    { simpl. apply list_lookup_insert_eq. by eapply lookup_lt_Some. }
    destruct (IH s2 sh1 (total + length fs) Hok2 Hi2) as (gs & h' & s' & Hrun & Her & Hother).
    { simpl. unfold kBatch in *. lia. }
    exists (fs ++ gs), h', s'. rewrite length_app, Nat.add_assoc. split; [done|].
    split; [|].
    + apply (expired_compose now i s s2 s' sh sh1 h1 h' fs gs); try done; [by apply Her|].
      intros f Hfin Hnin. by apply Hother.
    + intros t Ht. rewrite Hother; [by apply Ho2|]. simpl. intros Hin. apply Ht.
      rewrite (ba_perm _ _ _ _ Hb). apply elem_of_app. by right.
Qed.

End TimerSpec.
