(* ===== verification/TimerProps.v ===== *)
(** * What the timer service promises

    [run_expired] over all shards, the published deadlines, and the theorems on
    the heap, [arm], [disarm] and firing. *)

From S2P Require Import Prelude TimerHeap TimerService TimerSpec.

Set Default Proof Using "Type".

Section TimerProps.
  Context {E : Type} (d : timer_id -> Z).
  Implicit Types (ts : gmap timer_id (Timer (E := E))) (h : list timer_id)
    (s : TimerService (E := E)) (t u : timer_id).

(** What firing shard [i] does to the service. *)
Record fired_shard (now : Z) (i : nat) s s' (F : list timer_id) : Prop := {
  fs_ok : svc_ok d s';
  fs_length : length (shards s') = length (shards s);
  fs_other : forall j t, j <> i -> in_shard s' j t <-> in_shard s j t;
  fs_nodup : NoDup F;
  fs_due : forall t, t ∈ F <-> in_shard s i t /\ due d now t;
  fs_left : forall t, in_shard s' i t <-> in_shard s i t /\ ~ due d now t;
  fs_fired : forall t, t ∈ F -> fired_node (nodes s') t;
  fs_nodes : forall t, ~ in_shard s i t -> nodes s' !! t = nodes s !! t
}.

Lemma in_shard_eq s i sh t : shards s !! i = Some sh -> in_shard s i t <-> t ∈ heap sh.
Proof.
  intros Hi. split; [|intros Ht; by exists sh]. intros (sh' & Hi' & Ht).
  by assert (sh' = sh) as -> by congruence.
Qed.

Lemma expired_fired now i s s' sh h' fs :
  svc_ok d s -> shards s !! i = Some sh -> expired_run d now i s s' sh h' fs ->
  (forall t, t ∉ heap sh -> nodes s' !! t = nodes s !! t) ->
  fired_shard now i s s' (map f_timer fs).
Proof.
  intros Hs Hi [Hok Hsh [Bp Bd Bs Bl] Hleft Hfired _ _ _ _] Hother.
  assert (Hlt : i < length (shards s)) by (by eapply lookup_lt_Some).
  assert (Hi' : shards s' !! i = Some (mkShard h' (published_min d h'))).
  { rewrite Hsh. by apply list_lookup_insert_eq. }
  assert (Hnd : NoDup (map f_timer fs ++ h')).
  { rewrite <- Bp. apply (so_heap d s Hs i sh Hi). }
  apply NoDup_app in Hnd as (Hnd & Hdj & _).
  split; [done| | |done| | | |].
  - by rewrite Hsh, length_insert.
  - intros j t Hj. unfold in_shard. by rewrite Hsh, list_lookup_insert_ne.
  - intros t. rewrite (in_shard_eq s i sh t Hi), Bp, elem_of_app. split.
    + intros Ht. split; [by left|]. apply list_elem_of_fmap in Ht as (f & -> & Hf). auto.
    + intros [[Ht|Ht] Hd]; [done|]. by destruct (Hleft t Ht).
  - intros t. rewrite (in_shard_eq s' i _ t Hi'), (in_shard_eq s i sh t Hi), Bp, elem_of_app. simpl.
    split; [intros Ht; split; [by right|by apply Hleft]|]. intros [[Ht|Ht] Hd]; [|done].
    exfalso. apply Hd. apply list_elem_of_fmap in Ht as (f & -> & Hf). auto.
  - intros t (f & -> & Hf)%list_elem_of_fmap. auto.
  - intros t Ht. apply Hother. by rewrite <- (in_shard_eq s i sh t Hi).
Qed.

Lemma run_expired_of_run now i s :
  svc_ok d s -> i < length (shards s) ->
  exists F s', run_expired_of i now s = Some (length F, s') /\ fired_shard now i s s' F.
Proof.
  intros Hs Hlt. destruct (lookup_lt_is_Some_2 (shards s) i Hlt) as [sh Hi].
  unfold run_expired_of. rewrite Hi. case_decide as He.
  - exists [], s. split; [done|].
    assert (Hno : forall t, in_shard s i t -> ~ due d now t).
    { intros t (sh' & Hi' & Ht). assert (sh' = sh) as -> by congruence.
      rewrite (so_earliest d s Hs i sh Hi) in He. apply list_elem_of_lookup in Ht as [j Hj].
      pose proof (published_lower d (heap sh) j t) as Hl. unfold due.
      specialize (Hl (hw_ok _ _ _ (so_heap d s Hs i sh Hi)) Hj). lia. }
    split; try done; [constructor| | |intros t Ht; by apply not_elem_of_nil in Ht].
    + intros t. split; [intros Ht; by apply not_elem_of_nil in Ht|].
      intros [Ht Hd]. by destruct (Hno t Ht).
    + intros t. split; [auto|tauto].
  - unfold shard_fuel. rewrite Hi.
    destruct (run_expired_shard_run d now i (S (length (heap sh))) s sh 0 Hs Hi ltac:(lia))
      as (fs & h' & s' & Hrun & Her & Ho).
    exists (map f_timer fs), s'. rewrite length_map. split; [done|].
    by eapply expired_fired.
Qed.

(** All shards from [i] on. *)
Lemma run_expired_from_run now n : forall i fired s,
  svc_ok d s -> i + n <= length (shards s) ->
  exists F s', run_expired_from n i now fired s = Some (fired + length F, s') /\
    svc_ok d s' /\ length (shards s') = length (shards s) /\ NoDup F /\
    (forall t, t ∈ F <-> exists j, i <= j < i + n /\ in_shard s j t /\ due d now t) /\
    (forall j t, in_shard s' j t <-> in_shard s j t /\ (i <= j < i + n -> ~ due d now t)) /\
    (forall t, t ∈ F -> fired_node (nodes s') t) /\
    (forall t, (forall j, i <= j < i + n -> ~ in_shard s j t) -> nodes s' !! t = nodes s !! t).
Proof.
  induction n as [|n IH]; intros i fired s Hs Hlen; simpl.
  { exists [], s. rewrite Nat.add_0_r. do 3 (split; [done|]). split; [constructor|].
    split; [|split; [|split; [intros t Ht; by apply not_elem_of_nil in Ht|done]]].
    - intros t. split; [intros Ht; by apply not_elem_of_nil in Ht|]. intros (j & ? & _). lia.
    - intros j t. split; [|tauto]. intros H. split; [done|lia]. }
  destruct (run_expired_of_run now i s Hs ltac:(lia)) as (F1 & s1 & Hr1 & Hf1).
  rewrite Hr1. cbn [mbind option_bind fst snd]. pose proof Hf1 as [Hok1 Hl1 Ho1 Hn1 Hd1 Hlf1 Hfi1 Hnd1].
  destruct (IH (S i) (fired + length F1) s1 Hok1 ltac:(lia))
    as (F2 & s2 & Hr2 & Hok2 & Hl2 & Hn2 & Hd2 & Hlf2 & Hfi2 & Hnd2).
  exists (F1 ++ F2), s2. rewrite length_app, Nat.add_assoc. split; [done|].
  assert (HF2 : forall t, t ∈ F2 <-> exists j, S i <= j < S i + n /\ in_shard s j t /\ due d now t).
  { intros t. rewrite Hd2. split; intros (j & Hj & Hin & Hdu); exists j; split; try done;
      (split; [|done]); by apply (Ho1 j t ltac:(lia)). }
  split; [done|]. split; [congruence|]. split; [|split; [|split; [|split]]].
  - apply NoDup_app. split; [done|]. split; [|done]. intros t Ht1 Ht2.
    apply Hd1 in Ht1 as [Hin _]. apply HF2 in Ht2 as (j & Hj & Hin2 & _).
    pose proof (shards_disjoint d s i j t Hs Hin Hin2). lia.
  - intros t. rewrite elem_of_app, Hd1, HF2. split.
    + intros [[Hin Hdu]|(j & Hj & Hrest)]; [exists i; split; [lia|done]|exists j; split; [lia|done]].
    + intros (j & Hj & Hin & Hdu). destruct (decide (j = i)) as [->|]; [by left|].
      right. exists j. split; [lia|done].
  - intros j t. rewrite Hlf2. destruct (decide (j = i)) as [->|Hji].
    + rewrite Hlf1. split; [intros [[? ?] ?]; done|]. intros [Hin Hnd].
      split; [split; [done|apply Hnd; lia]|lia].
    + rewrite (Ho1 j t Hji). split; intros [Hin Hnd]; split; try done; intros ?; apply Hnd; lia.
  - intros t [Ht|Ht]%elem_of_app; [|auto].
    destruct (Hfi1 t Ht) as (x & Hx & Hrest). exists x. split; [|done]. rewrite Hnd2; [done|].
    intros j Hj Hin. destruct (so_armed d s1 Hok1 j t Hin) as (y & Hy & Hst & _).
    assert (y = x) as -> by congruence. destruct Hrest as [Hk _]. congruence.
  - intros t Ht. rewrite Hnd2; [apply Hnd1, Ht; lia|].
    intros j Hj Hin. apply (Ht j); [lia|]. by apply (Ho1 j t ltac:(lia)).
Qed.

(** ** Deadlines *)

Lemma fold_min (l : list Shard) e :
  let m := fold_left (fun e sh => if decide (earliest sh < e)%Z then earliest sh else e) l e in
  (m <= e)%Z /\ (forall sh, sh ∈ l -> (m <= earliest sh)%Z) /\
  (m = e \/ exists sh, sh ∈ l /\ m = earliest sh).
Proof.
  revert e. induction l as [|x l IH]; intros e; simpl.
  - split; [lia|]. split; [|by left]. intros sh Hsh. by apply not_elem_of_nil in Hsh.
  - destruct (IH (if decide (earliest x < e)%Z then earliest x else e)) as (H1 & H2 & H3).
    split; [case_decide; lia|]. split.
    + intros sh [->|Hsh]%elem_of_cons; [case_decide; lia|auto].
    + destruct H3 as [H3|(sh & Hsh & H3)].
      * case_decide; [right; exists x; split; [left|done]|by left].
      * right. exists sh. split; [by right|done].
Qed.

(** ** The theorems *)

(** The three vector operations keep the 4-ary heap: pushing and sifting up,
    removing any position, and popping the root leave exactly the expected
    nodes, in heap order, each with its own position in [heap_index], and touch
    no node outside the vector nor any other field. *)
Theorem heap_operations h ts :
  heap_wf d ts h ->
  (forall t, t ∉ h -> deadline ts t = Some (d t) -> (Z.of_nat (length h) < 2 ^ 32 - 2)%Z ->
     exists h' ts', sift_up (h ++ [t]) (set_index t (length h) ts) (length h) = Some (h', ts') /\
       h' ≡ₚ t :: h /\ heap_wf d ts' h' /\ same_but_index h' ts ts') /\
  (forall i t, h !! i = Some t ->
     exists h' ts', heap_remove h ts i = Some (h', ts') /\ h ≡ₚ t :: h' /\
       heap_wf d ts' h' /\ same_but_index h' ts ts') /\
  (forall r, head h = Some r ->
     (forall t, t ∈ h -> (d r <= d t)%Z) /\
     exists h' ts', heap_pop_root h ts = Some (h', ts') /\ h ≡ₚ r :: h' /\
       heap_wf d ts' h' /\ same_but_index h' ts ts').
Proof.
  intros Hwf. split; [|split].
  - intros t Hn Hd Hsm. by apply heap_push_spec.
  - intros i t. by apply heap_remove_spec.
  - intros r Hr. rewrite head_lookup in Hr. split.
    + intros t [j Hj]%list_elem_of_lookup. by apply (heap_root_min d h r j t); [apply Hwf|..].
    + rewrite (heap_pop_root_eq d ts h Hwf) by (by intros ->). by apply heap_remove_spec.
Qed.

(** Arming an unlinked timer links it into the heap of its worker's shard
    (shard 0 on a foreign thread), keeps the service invariant, and nudges the
    poller with its deadline exactly when it became that shard's earliest. *)
Theorem arm_links_timer worker t s x sh :
  svc_ok d s -> nodes s !! t = Some x -> (forall i, ~ in_shard s i t) ->
  shards s !! default 0 worker = Some sh -> (Z.of_nat (length (heap sh)) < 2 ^ 32 - 2)%Z ->
  exists s' sh', arm worker true t s = Some (true, s') /\ svc_ok d s' /\
    shards s' = <[default 0 worker := sh']> (shards s) /\ heap sh' ≡ₚ t :: heap sh /\
    nudged s' = nudged s ++
      (if bool_decide (head (heap sh') = Some t) then [(default 0 worker, d t)] else []) /\
    scheduled s' = scheduled s.
Proof. apply arm_run. Qed.

(** Disarming wins exactly against timers still in a heap: an armed timer is
    unlinked and cancelled, keeping the invariant and every other heap; a timer
    that is idle, cancelled or fired yields false and no change; one whose
    callback is still running makes [disarm] wait. *)
Theorem disarm_exact t s x :
  svc_ok d s -> nodes s !! t = Some x ->
  match state x with
  | kArmed => exists i s' sh sh', disarm t s = Some (inl true, s') /\ svc_ok d s' /\
      shards s !! i = Some sh /\ shards s' = <[i := sh']> (shards s) /\
      heap sh ≡ₚ t :: heap sh' /\ (forall j, ~ in_shard s' j t) /\
      (exists y, nodes s' !! t = Some y /\ state y = kCancelled)
  | kFiring => disarm t s = Some (inr kFiring, s)
  | _ => disarm t s = Some (inl false, s)
  end.
Proof.
  intros Hs Hx. destruct (state x) eqn:Hst; try (eapply disarm_idle_run; by eauto).
  - destruct (decide (Exists (fun sh => t ∈ heap sh) (shards s))) as [Hex|Hnex].
    + apply Exists_exists in Hex as (sh & (i & Hi)%list_elem_of_lookup & Ht).
      destruct (disarm_armed_run d t s i Hs ltac:(by exists sh))
        as (s' & sh0 & sh' & ? & ? & ? & ? & ? & ? & (y & ? & ? & _) & _).
      exists i, s', sh0, sh'. repeat (split; [done|]). by exists y.
    + exfalso. destruct (so_idle d s Hs t x Hx) as [_ Hne]; [|done].
      intros i (sh & Hi & Ht). apply Hnex, Exists_exists. exists sh. split; [|done].
      apply list_elem_of_lookup. eauto.
  - by eapply disarm_firing_run.
Qed.

(** C13: [run_expired] fires exactly the armed timers whose deadline has passed,
    in every shard, and no other: afterwards each is [kFired] and unlinked, what
    stays armed is not due, the returned count is the number fired, and the
    invariant with its published deadlines still holds. *)
Theorem run_expired_exact now s :
  svc_ok d s ->
  exists F s', run_expired now s = Some (length F, s') /\ svc_ok d s' /\ NoDup F /\
    (forall t, t ∈ F <-> exists j, in_shard s j t /\ due d now t) /\
    (forall j t, in_shard s' j t <-> in_shard s j t /\ ~ due d now t) /\
    (forall t, t ∈ F -> fired_node (nodes s') t).
Proof.
  intros Hs. destruct (run_expired_from_run now (length (shards s)) 0 0 s Hs ltac:(lia))
    as (F & s' & Hr & Hok & _ & Hnd & HF & Hleft & Hfired & _).
  exists F, s'. split; [done|]. split; [done|]. split; [done|].
  assert (Hb : forall j t, in_shard s j t -> 0 <= j < 0 + length (shards s)).
  { intros j t (sh & Hj & _). apply lookup_lt_Some in Hj. lia. }
  split; [|split; [|done]].
  - intros t. rewrite HF. split; intros (j & H); exists j; [tauto|].
    destruct H as [Hin Hd]. split; [by eapply Hb|done].
  - intros j t. rewrite Hleft. split; intros [Hin Hd]; (split; [done|]); [|done].
    apply Hd. by eapply Hb.
Qed.

(** Within one shard the timers fire in order of deadline: the tasks handed
    to the scheduler, batch after batch, are those that the fired timers'
    callbacks and waiters give when run in non-decreasing deadline order. *)
Theorem expired_in_deadline_order now i s sh :
  svc_ok d s -> shards s !! i = Some sh -> (earliest sh <= now)%Z ->
  exists fs h' s' bs, run_expired_of i now s = Some (length fs, s') /\
    batch_of d now (heap sh) h' fs /\ (forall f, f ∈ fs -> copied (nodes s) f) /\
    scheduled s' = scheduled s ++ bs /\
    concat (map fst bs) = (fire_all fs (env s)).1 /\ env s' = (fire_all fs (env s)).2.
Proof.
  intros Hs Hi He. unfold run_expired_of, shard_fuel. rewrite Hi, decide_False by lia.
  destruct (run_expired_shard_run d now i (S (length (heap sh))) s sh 0 Hs Hi ltac:(lia))
    as (fs & h' & s' & Hrun & [_ _ Hb _ _ Hcp (bs & Hbs & Hcat) Henv _] & _).
  by exists fs, h', s', bs.
Qed.

(** The deadline queries are right: [next_deadline_ns] is the least deadline
    of all armed timers ([INT64_MAX] when there is none), and for a clock and
    deadlines in range [next_timeout_ns] is the time left, never negative, or -1
    when there is nothing to wait for. *)
Theorem next_deadline_is_least now s :
  svc_ok d s -> (0 <= now <= INT64_MAX)%Z ->
  (forall j t, in_shard s j t -> (0 <= d t < INT64_MAX)%Z) ->
  (forall j t, in_shard s j t -> (next_deadline_ns s <= d t)%Z) /\
  (next_deadline_ns s = INT64_MAX \/ exists j t, in_shard s j t /\ next_deadline_ns s = d t) /\
  next_timeout_ns now s =
    (if empty s then -1 else Z.max 0 (next_deadline_ns s - now))%Z.
Proof.
  intros Hs Hnow Hr. destruct (fold_min (shards s) INT64_MAX) as (H1 & H2 & H3).
  fold (next_deadline_ns s) in H1, H2, H3.
  assert (Hex : next_deadline_ns s = INT64_MAX \/
    exists j t, in_shard s j t /\ next_deadline_ns s = d t).
  { destruct H3 as [->|(sh & (i & Hi)%list_elem_of_lookup & E1)]; [by left|].
    rewrite (so_earliest d s Hs i sh Hi) in E1. destruct (heap sh) as [|r h] eqn:Eh; [by left|].
    right. exists i, r. split; [|done]. exists sh. split; [done|]. rewrite Eh. left. }
  split; [|split; [done|]].
  - intros j t (sh & Hj & (k & Hk)%list_elem_of_lookup).
    etrans; [apply H2, list_elem_of_lookup; by exists j|].
    rewrite (so_earliest d s Hs j sh Hj).
    apply (published_lower d (heap sh) k t); [apply (so_heap d s Hs j sh Hj)|done].
  - unfold next_timeout_ns, timeout_of, empty. case_decide as Hm.
    + by rewrite bool_decide_true.
    + rewrite bool_decide_false by done. destruct Hex as [?|(j & t & Hin & E1)]; [done|].
      specialize (Hr j t Hin). unfold INT64_MAX in *. rewrite E1.
      assert (i64 (d t - now) = d t - now)%Z as ->.
      { unfold sgn, wrap. case_decide as Hc.
        - destruct (decide (0 <= d t - now)%Z); [apply Z.mod_small; lia|].
          rewrite <- (Z.mod_unique (d t - now) (2 ^ 64) (-1) (d t - now + 2 ^ 64)) in Hc by lia. lia.
        - destruct (decide (0 <= d t - now)%Z); [rewrite Z.mod_small in Hc by lia; lia|].
          rewrite <- (Z.mod_unique (d t - now) (2 ^ 64) (-1) (d t - now + 2 ^ 64)) by lia. lia. }
      case_decide; lia.
Qed.

End TimerProps.

(** ** Witnesses *)

Definition d0 (t : timer_id) : Z := match t with 1 => 50 | 2 => 30 | _ => 70 end.

Definition timer0 (t : timer_id) : Timer (E := unit) :=
  mkTimer (d0 t) (Some (100 + t)) None kIdle 0 0 kNotInHeap.

(** Two shards, three idle timers; then timers 1 and 2 armed on worker 1. *)
Definition svc0 : TimerService (E := unit) :=
  mkService (<[1 := timer0 1]> (<[2 := timer0 2]> (<[3 := timer0 3]> ∅)))
    (shards (new_service 2 tt)) [] [] tt.

Definition armed_on (w : option nat) (t : timer_id) (s : TimerService (E := unit)) : TimerService :=
  match arm w true t s with Some (_, s') => s' | None => s end.

Definition svc1 : TimerService (E := unit) := armed_on (Some 1) 1 svc0.
Definition svc2 : TimerService (E := unit) := armed_on (Some 1) 2 svc1.

Lemma svc0_no_shard i t : ~ in_shard svc0 i t.
Proof.
  intros (sh & Hi & Ht).
  destruct i as [|[|i]]; [injection Hi as <-|injection Hi as <-|done];
    by apply not_elem_of_nil in Ht.
Qed.

Lemma svc0_nodes t x : nodes svc0 !! t = Some x -> x = timer0 t.
Proof.
  simpl. rewrite !lookup_insert_Some, lookup_empty. intros [[<- <-]|[_ [[<- <-]|[_ [[<- <-]|[_ ?]]]]]]; done.
Qed.

Lemma svc0_ok : svc_ok d0 svc0.
Proof.
  split.
  - intros t x ->%svc0_nodes. done.
  - intros i sh Hi. destruct i as [|[|i]]; [injection Hi as <-|injection Hi as <-|done];
      (split; [constructor|intros t Ht; by apply not_elem_of_nil in Ht|done|done|done]).
  - intros i t Hin. by apply svc0_no_shard in Hin.
  - intros t x ->%svc0_nodes _. done.
  - intros i sh Hi. destruct i as [|[|i]]; [injection Hi as <-|injection Hi as <-|done]; done.
Qed.

Lemma svc1_ok : svc_ok d0 svc1.
Proof.
  destruct (arm_run d0 (Some 1) 1 svc0 (timer0 1) (mkShard [] INT64_MAX) svc0_ok)
    as (s' & sh' & Hr & Hok & _); [done|intros i; apply svc0_no_shard|done|done|].
  unfold svc1, armed_on. by rewrite Hr.
Qed.

Lemma svc1_unlinked i : ~ in_shard svc1 i 2.
Proof.
  intros (sh & Hi & Ht). destruct i as [|[|i]]; vm_compute in Hi; [| |done];
    injection Hi as <-; vm_compute in Ht; set_solver.
Qed.

Lemma svc2_ok : svc_ok d0 svc2.
Proof.
  destruct (arm_run d0 (Some 1) 2 svc1 (timer0 2) (mkShard [1] 50) svc1_ok)
    as (s' & sh' & Hr & Hok & _); [by vm_compute|intros i; apply svc1_unlinked|by vm_compute|done|].
  unfold svc2, armed_on. by rewrite Hr.
Qed.

Lemma svc2_shard1 : shards svc2 !! 1 = Some (mkShard [2; 1] 30).
Proof. by vm_compute. Qed.

Lemma heap_operations_witness :
  heap_wf d0 (nodes svc2) [2; 1] /\
  exists h' ts', heap_remove [2; 1] (nodes svc2) 0 = Some (h', ts') /\ [2; 1] ≡ₚ 2 :: h'.
Proof.
  pose proof (so_heap d0 svc2 svc2_ok 1 _ svc2_shard1) as Hwf. split; [exact Hwf|].
  destruct (heap_operations d0 [2; 1] (nodes svc2) Hwf) as (_ & Hrem & _).
  destruct (Hrem 0 2 eq_refl) as (h' & ts' & ? & ? & _). by exists h', ts'.
Defined.

Lemma arm_links_timer_witness :
  svc_ok d0 svc1 /\
  exists s' sh', arm (Some 1) true 2 svc1 = Some (true, s') /\ heap sh' ≡ₚ [2; 1].
Proof.
  split; [exact svc1_ok|].
  destruct (arm_links_timer d0 (Some 1) 2 svc1 (timer0 2) (mkShard [1] 50) svc1_ok)
    as (s' & sh' & Hr & _ & _ & Hp & _); [by vm_compute|intros i; apply svc1_unlinked|by vm_compute|done|].
  by exists s', sh'.
Defined.

Lemma disarm_exact_witness :
  svc_ok d0 svc0 /\ disarm 3 svc0 = Some (inl false, svc0).
Proof.
  split; [exact svc0_ok|]. exact (disarm_exact d0 3 svc0 (timer0 3) svc0_ok eq_refl).
Defined.

Lemma run_expired_exact_witness :
  svc_ok d0 svc2 /\ exists (F : list timer_id) s', run_expired 40 svc2 = Some (length F, s') /\ NoDup F.
Proof.
  split; [exact svc2_ok|].
  destruct (run_expired_exact d0 40 svc2 svc2_ok) as (F & s' & ? & _ & ? & _).
  by exists F, s'.
Defined.

Lemma expired_in_deadline_order_witness :
  shards svc2 !! 1 = Some (mkShard [2; 1] 30) /\
  exists (fs : list (Fired (E := unit))) s' bs, run_expired_of 1 60 svc2 = Some (length fs, s') /\
    scheduled s' = scheduled svc2 ++ bs.
Proof.
  split; [exact svc2_shard1|].
  destruct (expired_in_deadline_order d0 60 1 svc2 _ svc2_ok svc2_shard1)
    as (fs & h' & s' & bs & Hr & _ & _ & Hs & _); [by vm_compute|].
  by exists fs, s', bs.
Defined.

Lemma next_deadline_is_least_witness :
  svc_ok d0 svc2 /\ next_timeout_ns 10 svc2 = 20%Z.
Proof.
  split; [exact svc2_ok|].
  destruct (next_deadline_is_least d0 10 svc2 svc2_ok) as (_ & _ & ->).
  - by vm_compute.
  - intros j t (sh & Hj & Ht). unfold d0, INT64_MAX. destruct t as [|[|[|t]]]; lia.
  - by vm_compute.
Defined.
