(* ===== verification/RunQueue.v ===== *)
(** * Run queues (include/cio/detail/queue.hpp)

    The owner's bounded ring [LocalRunQueue] with its thieves, and the queue it
    refines. Counters are free-running
    32-bit words; every atomic access of a concurrent operation is one step. *)

From S2P Require Import Prelude.

Set Default Proof Using "Type".

Definition kLocalQueueCapacity : Z := 256.
Definition kLocalQueueMask : Z := kLocalQueueCapacity - 1.

(** An item is the address of a coroutine frame. *)
Abbreviation item := nat.

(** ** The local ring *)

Record LocalRunQueue := mkLocal {
  head_ctr : Z;
  tail_ctr : Z;
  buf : list item
}.

Definition slot_of (pos : Z) : nat := Z.to_nat (Z.land pos kLocalQueueMask).

Definition fresh_local : LocalRunQueue :=
  mkLocal 0 0 (replicate (Z.to_nat kLocalQueueCapacity) 0).

(** [t - h >= kLocalQueueCapacity] is the full check of [push]. *)
Definition local_full (q : LocalRunQueue) : bool :=
  bool_decide (kLocalQueueCapacity <= u32 (tail_ctr q - head_ctr q))%Z.

Definition write_slot (x : item) (q : LocalRunQueue) : LocalRunQueue :=
  mkLocal (head_ctr q) (tail_ctr q) (<[slot_of (tail_ctr q) := x]> (buf q)).
Definition publish (q : LocalRunQueue) : LocalRunQueue :=
  mkLocal (head_ctr q) (u32 (tail_ctr q + 1)) (buf q).

(** [spawn_mode] after a push: the low two bits become 1, or 2 when the queue
    was empty. *)
Definition spawn_mode_after (full was_empty : bool) (mode : Z) : Z :=
  Z.lor (Z.land mode (u8 (Z.lnot 3))) (if full then 1 else if was_empty then 2 else 1).

Definition local_push (x : item) (mode : Z) (q : LocalRunQueue) : bool * Z * LocalRunQueue :=
  if local_full q then (false, spawn_mode_after true false mode, q)
  else (true, spawn_mode_after false (bool_decide (tail_ctr q = head_ctr q)) mode,
        publish (write_slot x q)).

(** Copies [n] slots from position [h]. *)
Fixpoint read_slots (n : nat) (h : Z) (q : LocalRunQueue) : option (list item) :=
  match n with
  | O => Some []
  | S n => x ← buf q !! slot_of h; xs ← read_slots n (u32 (h + 1)) q; Some (x :: xs)
  end.

(** [compare_exchange_strong(h, h + n)] on [head_]. *)
Definition cas_head (h n : Z) (q : LocalRunQueue) : option LocalRunQueue :=
  if decide (head_ctr q = h) then Some (mkLocal (u32 (h + n)) (tail_ctr q) (buf q)) else None.

(** What a consumer decides from a snapshot of the counters. *)
Inductive Plan := Empty | Retry | Take (n : Z).

#[global] Instance Plan_eq_dec : EqDecision Plan.
Proof. solve_decision. Defined.

Definition plan_pop (h t : Z) : Plan := if decide (t = h) then Empty else Take 1.

Definition plan_grab (max : Z) (h t : Z) : Plan :=
  let n := u32 (t - h) in
  let n := u32 (n - n / 2) in
  if decide (n = 0)%Z then Empty
  else if decide (kLocalQueueCapacity / 2 < n)%Z then Retry
  else Take (Z.min n max).

Definition plan_half (h t : Z) : Plan :=
  let n := (u32 (t - h) / 2)%Z in
  if decide (n = 0)%Z then Empty else Take n.

(** One uncontended turn of a consumer. *)
Definition take_turn (plan : Z -> Z -> Plan) (q : LocalRunQueue)
  : option (Plan * list item * LocalRunQueue) :=
  let h := head_ctr q in
  match plan h (tail_ctr q) with
  | Take n =>
      xs ← read_slots (Z.to_nat n) h q;
      q' ← cas_head h n q;
      Some (Take n, xs, q')
  | p => Some (p, [], q)
  end.

Definition local_pop := take_turn plan_pop.
Definition local_grab (max : Z) := take_turn (plan_grab max).
Definition local_pop_half := take_turn plan_half.

Definition size_of (h t : Z) : Z :=
  let n := u32 (t - h) in if decide (kLocalQueueCapacity < n)%Z then 0 else n.
Definition local_size (q : LocalRunQueue) : Z := size_of (head_ctr q) (tail_ctr q).
Definition local_empty (q : LocalRunQueue) : bool := bool_decide (local_size q = 0%Z).

(** [maybe_nonempty] on the three values it reads. *)
Definition maybe_nonempty (first_head tail second_head : Z) : bool :=
  if decide (first_head ≠ second_head) then true
  else let n := u32 (tail - second_head) in
       bool_decide (n ≠ 0%Z) || bool_decide (kLocalQueueCapacity < n)%Z.

(** ** The queue a ring represents *)

Record lrep (q : LocalRunQueue) (l : list item) : Prop := {
  lr_head : in_range 32 (head_ctr q);
  lr_tail : tail_ctr q = u32 (head_ctr q + Z.of_nat (length l));
  lr_buf : length (buf q) = Z.to_nat kLocalQueueCapacity;
  lr_fits : (Z.of_nat (length l) <= kLocalQueueCapacity)%Z;
  lr_slots : forall i x, l !! i = Some x ->
    buf q !! slot_of (u32 (head_ctr q + Z.of_nat i)) = Some x
}.

Lemma slot_of_mod x : slot_of x = Z.to_nat (x mod 256).
Proof.
  unfold slot_of, kLocalQueueMask, kLocalQueueCapacity.
  change (256 - 1)%Z with (Z.ones 8). by rewrite Z.land_ones by lia.
Qed.

Lemma slot_of_u32 x : slot_of (u32 x) = slot_of x.
Proof.
  rewrite !slot_of_mod. f_equal. unfold wrap.
  symmetry. rewrite (Z.div_mod x (2 ^ 32)) at 1 by lia.
  replace (2 ^ 32 * (x / 2 ^ 32))%Z with (2 ^ 24 * (x / 2 ^ 32) * 256)%Z by lia.
  rewrite Z.add_comm. apply Z_mod_plus_full.
Qed.

Lemma slot_of_lt x : slot_of x < 256.
Proof. rewrite slot_of_mod. pose proof (Z.mod_pos_bound x 256). lia. Qed.

(** Positions less than a capacity apart use different slots. *)
Lemma slot_of_inj x y : slot_of x = slot_of y -> (Z.abs (x - y) < 256)%Z -> x = y.
Proof.
  rewrite !slot_of_mod. intros H1 H2.
  pose proof (Z.mod_pos_bound x 256). pose proof (Z.mod_pos_bound y 256).
  pose proof (Z.div_mod x 256). pose proof (Z.div_mod y 256).
  assert (x mod 256 = y mod 256)%Z by lia. lia.
Qed.

Lemma u32_diff h n : (0 <= n < 2 ^ 32)%Z -> u32 (u32 (h + n) - h) = n.
Proof.
  intros Hn. rewrite wrap_sub_l. replace (h + n - h)%Z with n by lia.
  apply wrap_small. unfold in_range. lia.
Qed.

Lemma lrep_count q l : lrep q l -> u32 (tail_ctr q - head_ctr q) = Z.of_nat (length l).
Proof.
  intros [_ -> _ Hf _]. apply u32_diff. unfold kLocalQueueCapacity in Hf. lia.
Qed.

Lemma lrep_tail_slot q l : lrep q l ->
  slot_of (tail_ctr q) = slot_of (head_ctr q + Z.of_nat (length l)).
Proof. intros [_ -> _ _ _]. apply slot_of_u32. Qed.

(** The slot written at the tail is not one of the queue's. *)
Lemma lrep_write q l x :
  lrep q l -> (Z.of_nat (length l) < kLocalQueueCapacity)%Z -> lrep (write_slot x q) l.
Proof.
  intros Hr Hlt. pose proof (lrep_tail_slot _ _ Hr) as Ht. destruct Hr as [H1 H2 H3 H4 H5].
  split; simpl; try done; [by rewrite length_insert|].
  intros i y Hi. rewrite list_lookup_insert_ne; [by apply H5|].
  rewrite Ht, slot_of_u32. intros E. apply slot_of_inj in E; apply lookup_lt_Some in Hi;
    unfold kLocalQueueCapacity in *; lia.
Qed.

Lemma lrep_publish q l x :
  lrep q l -> (Z.of_nat (length l) < kLocalQueueCapacity)%Z ->
  buf q !! slot_of (tail_ctr q) = Some x -> lrep (publish q) (l ++ [x]).
Proof.
  intros Hr Hlt Hx. pose proof (lrep_tail_slot _ _ Hr) as Ht. destruct Hr as [H1 H2 H3 H4 H5].
  split; simpl; try done.
  - rewrite H2, length_app, wrap_add_l. simpl. f_equal. lia.
  - rewrite length_app. simpl. lia.
  - intros i y Hi. apply lookup_app_Some in Hi as [Hi|[Hge Hi]]; [by apply H5|].
    apply list_lookup_singleton_Some in Hi as [E <-].
    assert (i = length l) as -> by lia. rewrite slot_of_u32, <- Ht. done.
Qed.

Lemma lrep_push q l x :
  lrep q l -> (Z.of_nat (length l) < kLocalQueueCapacity)%Z ->
  lrep (publish (write_slot x q)) (l ++ [x]).
Proof.
  intros Hr Hlt. apply lrep_publish; [by apply lrep_write|done|]. simpl.
  apply list_lookup_insert_eq. rewrite (lr_buf _ _ Hr). apply slot_of_lt.
Qed.

Lemma lrep_drop q l n :
  lrep q l -> n <= length l ->
  lrep (mkLocal (u32 (head_ctr q + Z.of_nat n)) (tail_ctr q) (buf q)) (drop n l).
Proof.
  intros [H1 H2 H3 H4 H5] Hn. split; simpl; try done.
  - by apply wrap_range.
  - rewrite H2, length_drop, wrap_add_l. f_equal. lia.
  - rewrite length_drop. lia.
  - intros i y Hi. rewrite lookup_drop in Hi. apply H5 in Hi. rewrite <- Hi. f_equal.
    rewrite wrap_add_l, !slot_of_u32. f_equal. lia.
Qed.

Lemma read_slots_run q l n : forall i,
  lrep q l -> i + n <= length l ->
  read_slots n (u32 (head_ctr q + Z.of_nat i)) q = Some (take n (drop i l)).
Proof.
  induction n as [|n IH]; intros i Hr Hn; simpl; [by rewrite take_0|].
  destruct (lookup_lt_is_Some_2 l i ltac:(lia)) as [x Hx].
  rewrite (lr_slots _ _ Hr i x Hx). simpl.
  assert (u32 (u32 (head_ctr q + Z.of_nat i) + 1) = u32 (head_ctr q + Z.of_nat (S i))) as ->.
  { rewrite wrap_add_l. f_equal. lia. }
  rewrite (IH (S i)) by (done || lia). simpl. by rewrite (drop_S l x i Hx).
Qed.

(** A consumer whose plan fits takes the oldest items. *)
Lemma take_turn_run plan q l n :
  lrep q l -> plan (head_ctr q) (tail_ctr q) = Take (Z.of_nat n) -> n <= length l ->
  exists q', take_turn plan q = Some (Take (Z.of_nat n), take n l, q') /\ lrep q' (drop n l).
Proof.
  intros Hr Hp Hn. unfold take_turn. rewrite Hp, Nat2Z.id.
  pose proof (read_slots_run q l n 0 Hr Hn) as Hs. rewrite drop_0 in Hs.
  rewrite Z.add_0_r, wrap_small in Hs by apply (lr_head _ _ Hr). rewrite Hs. simpl.
  unfold cas_head. rewrite decide_True by done. simpl. eexists. split; [done|].
  by apply lrep_drop.
Qed.

(** * The local run queue under stealing

    The owner pushes while any number of consumers (the owner's [pop] and
    [pop_half], the thieves' [grab]) run their snapshot, copy and CAS steps. *)

(** Where the owner's [push] and a consumer's loop stand. The [nat] of a
    consumer is ghost: how many items had been taken at its snapshot. *)
Inductive OwnerPc := OIdle | OChecked (x : item) | OWritten (x : item).

Inductive TakerPc :=
  | TIdle
  | TRead (h : Z) (seen : nat) (plan : Z -> Z -> Plan)
  | TCopy (h n : Z) (out : list item) (seen : nat).

Record QSys := mkQSys {
  queue : LocalRunQueue;
  pushed : list item;
  taken : list item;
  owner : OwnerPc;
  takers : list TakerPc
}.

Inductive consumer_plan : (Z -> Z -> Plan) -> Prop :=
  | cp_pop : consumer_plan plan_pop
  | cp_half : consumer_plan plan_half
  | cp_grab max : (0 < max)%Z -> consumer_plan (plan_grab max).

(** One atomic access. *)
Inductive q_step : QSys -> QSys -> Prop :=
  | q_check q ps tk ts x :
      local_full q = false ->
      q_step (mkQSys q ps tk OIdle ts) (mkQSys q ps tk (OChecked x) ts)
  | q_write q ps tk ts x :
      q_step (mkQSys q ps tk (OChecked x) ts) (mkQSys (write_slot x q) ps tk (OWritten x) ts)
  | q_publish q ps tk ts x :
      q_step (mkQSys q ps tk (OWritten x) ts) (mkQSys (publish q) (ps ++ [x]) tk OIdle ts)
  | q_head q ps tk o ts i plan :
      ts !! i = Some TIdle -> consumer_plan plan ->
      q_step (mkQSys q ps tk o ts)
             (mkQSys q ps tk o (<[i := TRead (head_ctr q) (length tk) plan]> ts))
  | q_tail q ps tk o ts i h seen plan n :
      ts !! i = Some (TRead h seen plan) -> plan h (tail_ctr q) = Take n ->
      q_step (mkQSys q ps tk o ts) (mkQSys q ps tk o (<[i := TCopy h n [] seen]> ts))
  | q_give_up q ps tk o ts i h seen plan :
      ts !! i = Some (TRead h seen plan) ->
      plan h (tail_ctr q) = Empty \/ plan h (tail_ctr q) = Retry ->
      q_step (mkQSys q ps tk o ts) (mkQSys q ps tk o (<[i := TIdle]> ts))
  | q_copy q ps tk o ts i h n out seen x :
      ts !! i = Some (TCopy h n out seen) -> (Z.of_nat (length out) < n)%Z ->
      buf q !! slot_of (u32 (h + Z.of_nat (length out))) = Some x ->
      q_step (mkQSys q ps tk o ts) (mkQSys q ps tk o (<[i := TCopy h n (out ++ [x]) seen]> ts))
  | q_cas q ps tk o ts i h n out seen q' :
      ts !! i = Some (TCopy h n out seen) -> Z.of_nat (length out) = n ->
      cas_head h n q = Some q' ->
      q_step (mkQSys q ps tk o ts) (mkQSys q' ps (tk ++ out) o (<[i := TIdle]> ts))
  | q_cas_lost q ps tk o ts i h n out seen :
      ts !! i = Some (TCopy h n out seen) -> cas_head h n q = None ->
      q_step (mkQSys q ps tk o ts) (mkQSys q ps tk o (<[i := TIdle]> ts)).

(** The snapshot a consumer still relies on. *)
Definition snapshot (pc : TakerPc) : option nat :=
  match pc with TIdle => None | TRead _ seen _ => Some seen | TCopy _ _ _ seen => Some seen end.

(** No consumer sleeps through a full turn of the 32-bit counters: fewer than
    [2 ^ 32] items were pushed since a snapshot it still relies on. *)
Definition no_full_turn (s : QSys) : Prop :=
  forall i pc seen, takers s !! i = Some pc -> snapshot pc = Some seen ->
    (Z.of_nat (length (pushed s)) - Z.of_nat seen < 2 ^ 32)%Z.

Definition q_timely (s s' : QSys) : Prop := q_step s s' /\ no_full_turn s.

Definition q_init (s : QSys) : Prop :=
  exists k, s = mkQSys fresh_local [] [] OIdle (replicate k TIdle).

(** ** Invariant *)

Lemma plan_bounds plan h t n :
  in_range 32 h -> in_range 32 t -> consumer_plan plan -> plan h t = Take n ->
  (0 < n <= u32 (t - h))%Z.
Proof.
  intros Hh Ht Hp. pose proof (wrap_range 32 (t - h) ltac:(lia)) as Hr.
  unfold in_range in Hr, Hh, Ht. set (k := u32 (t - h)) in *.
  pose proof (Z.div_mod k 2 ltac:(lia)). pose proof (Z.mod_pos_bound k 2 ltac:(lia)).
  destruct Hp as [| |max Hmax]; unfold plan_pop, plan_half, plan_grab; fold k.
  - case_decide as He; [done|]. intros [= <-]. unfold k, wrap in *.
    destruct (decide (0 <= t - h)%Z).
    + rewrite Z.mod_small in * by lia. lia.
    + rewrite <- (Z.mod_unique (t - h) (2 ^ 32) (-1) (t - h + 2 ^ 32)) in * by lia. lia.
  - case_decide as He; [done|]. intros [= <-]. lia.
  - rewrite (wrap_small 32 (k - k / 2)) by (unfold in_range; lia).
    case_decide; [done|]. case_decide; [done|]. intros [= <-]. lia.
Qed.

Definition owner_ok (q : LocalRunQueue) (l : list item) (o : OwnerPc) : Prop :=
  match o with
  | OIdle => True
  | OChecked _ => (Z.of_nat (length l) < kLocalQueueCapacity)%Z
  | OWritten x => (Z.of_nat (length l) < kLocalQueueCapacity)%Z /\
      buf q !! slot_of (tail_ctr q) = Some x
  end.

Definition taker_ok (ps tk : list item) (pc : TakerPc) : Prop :=
  match pc with
  | TIdle => True
  | TRead h seen plan => h = u32 (Z.of_nat seen) /\ seen <= length tk /\ consumer_plan plan
  | TCopy h n out seen =>
      h = u32 (Z.of_nat seen) /\ seen <= length tk /\ (0 < n)%Z /\
      (seen = length tk -> (Z.of_nat seen + n <= Z.of_nat (length ps))%Z /\
         forall j x, out !! j = Some x -> ps !! (seen + j) = Some x)
  end.

Record q_inv (s : QSys) : Prop := {
  qi_fifo : taken s = take (length (taken s)) (pushed s);
  qi_head : head_ctr (queue s) = u32 (Z.of_nat (length (taken s)));
  qi_rep : lrep (queue s) (drop (length (taken s)) (pushed s));
  qi_owner : owner_ok (queue s) (drop (length (taken s)) (pushed s)) (owner s);
  qi_takers : forall i pc, takers s !! i = Some pc -> taker_ok (pushed s) (taken s) pc
}.

Lemma not_full q l : lrep q l -> local_full q = false ->
  (Z.of_nat (length l) < kLocalQueueCapacity)%Z.
Proof.
  intros Hr. unfold local_full. rewrite (lrep_count _ _ Hr).
  intros H%bool_decide_eq_false. lia.
Qed.

Lemma taken_bound s : q_inv s -> length (taken s) <= length (pushed s).
Proof.
  intros [Hf _ _ _ _]. apply (f_equal length) in Hf. rewrite length_take in Hf. lia.
Qed.

Lemma takers_update (P : TakerPc -> Prop) (ts : list TakerPc) (i : nat) (pc : TakerPc) :
  (forall (j : nat) pc, ts !! j = Some pc -> P pc) -> P pc ->
  forall (j : nat) pc', <[i := pc]> ts !! j = Some pc' -> P pc'.
Proof.
  intros Hall Hpc j pc' Hj. destruct (decide (i = j)) as [->|Hne].
  - destruct (decide (j < length ts)).
    + rewrite list_lookup_insert_eq in Hj by done. by injection Hj as <-.
    + rewrite list_insert_ge in Hj by lia. eauto.
  - rewrite list_lookup_insert_ne in Hj by done. eauto.
Qed.

(** Pushing does not disturb a consumer. *)
Lemma taker_ok_push ps tk x pc : taker_ok ps tk pc -> taker_ok (ps ++ [x]) tk pc.
Proof.
  destruct pc as [|h seen plan|h n out seen]; simpl; [done|done|].
  intros (H1 & H2 & H3 & H4). do 3 (split; [done|]). intros E. destruct (H4 E) as [H5 H6].
  split; [rewrite length_app; lia|]. intros j y Hj. apply lookup_app_l_Some. auto.
Qed.

(** Taking items leaves other consumers with a stale snapshot. *)
Lemma taker_ok_take ps tk out pc :
  0 < length out -> taker_ok ps tk pc -> taker_ok ps (tk ++ out) pc.
Proof.
  intros Hlen.
  destruct pc as [|h seen plan|h n o seen]; simpl; [done| |]; rewrite length_app.
  - intros (? & ? & ?). split; [done|]. split; [lia|done].
  - intros (H1 & H2 & H3 & H4). do 2 (split; [done || lia|]). split; [done|]. lia.
Qed.

Lemma read_current q ps tk h n out seen x :
  lrep q (drop (length tk) ps) -> head_ctr q = u32 (Z.of_nat (length tk)) ->
  taker_ok ps tk (TCopy h n out seen) -> (Z.of_nat (length out) < n)%Z ->
  buf q !! slot_of (u32 (h + Z.of_nat (length out))) = Some x ->
  taker_ok ps tk (TCopy h n (out ++ [x]) seen).
Proof.
  intros Hr Hh (-> & Hle & Hn & Hcur) Hlt Hx. do 3 (split; [done|]). intros ->.
  destruct (Hcur eq_refl) as [Hb Hout]. split; [done|]. intros j y Hj.
  apply lookup_app_Some in Hj as [Hj|[Hge Hj]]; [auto|].
  apply list_lookup_singleton_Some in Hj as [E <-]. assert (j = length out) as -> by lia.
  destruct (lookup_lt_is_Some_2 ps (length tk + length out) ltac:(lia)) as [z Hz].
  assert (Hz' : drop (length tk) ps !! length out = Some z) by (by rewrite lookup_drop).
  apply (lr_slots _ _ Hr) in Hz'. rewrite Hh in Hz'. congruence.
Qed.

Lemma cas_taken ps tk n out h seen q :
  lrep q (drop (length tk) ps) -> head_ctr q = u32 (Z.of_nat (length tk)) ->
  taker_ok ps tk (TCopy h n out seen) -> Z.of_nat (length out) = n ->
  head_ctr q = h -> (Z.of_nat (length tk) - Z.of_nat seen < 2 ^ 32)%Z ->
  out = take (length out) (drop (length tk) ps) /\ length out <= length ps - length tk /\
  0 < length out.
Proof.
  intros Hr Hh (-> & Hle & Hn & Hcur) Hlen Heq Hw. rewrite Heq in Hh.
  assert (seen = length tk) as ->.
  { pose proof (u32_diff (Z.of_nat seen) (Z.of_nat (length tk) - Z.of_nat seen) ltac:(lia)) as E1.
    replace (Z.of_nat seen + (Z.of_nat (length tk) - Z.of_nat seen))%Z
      with (Z.of_nat (length tk)) in E1 by lia.
    rewrite <- Hh, wrap_sub_l, Z.sub_diag in E1. change (u32 0) with 0%Z in E1. lia. }
  destruct (Hcur eq_refl) as [Hb Hout]. split; [|lia].
  apply (list_eq_same_length _ _ (length out)); [rewrite length_take, length_drop; lia|done|].
  - intros j x y Hj Hx Hy. apply Hout in Hx. rewrite lookup_take_lt, lookup_drop in Hy by done.
    congruence.
Qed.

Lemma q_step_inv s s' : q_inv s -> q_timely s s' -> q_inv s'.
Proof.
  intros Hi [Hst Hturn]. pose proof (taken_bound _ Hi) as Hle. destruct Hi as [Hf Hh Hr Ho Ht].
  destruct Hst; simpl in *.
  - split; simpl; try done. by eapply not_full.
  - split; simpl; try done; [by apply lrep_write|]. split; [done|].
    apply list_lookup_insert_eq. rewrite (lr_buf _ _ Hr). apply slot_of_lt.
  - destruct Ho as [Hlt Hx]. split; simpl; try done.
    + rewrite take_app_le by done. done.
    + rewrite drop_app_le by done. by apply lrep_publish.
    + intros j pc Hj. apply taker_ok_push. by eapply Ht.
  - split; simpl; try done. eapply takers_update; [done|]. done.
  - split; simpl; try done. eapply takers_update; [done|].
    destruct (Ht _ _ H) as (-> & Hs & Hcp). split; [done|]. split; [done|].
    destruct (plan_bounds plan (u32 (Z.of_nat seen)) (tail_ctr q) n ltac:(by apply wrap_range) ltac:(rewrite (lr_tail _ _ Hr); by apply wrap_range) Hcp H0)
      as [Hpos Hn]. split; [done|]. intros ->. split; [|intros j y Hj; by rewrite lookup_nil in Hj].
    rewrite <- Hh in Hn. rewrite (lrep_count _ _ Hr), length_drop in Hn. lia.
  - split; simpl; try done. by eapply takers_update.
  - split; simpl; try done. eapply takers_update; [done|].
    by eapply (read_current q ps tk h n out seen); eauto.
  - unfold cas_head in H1. case_decide as Eh; [|done]. injection H1 as <-.
    assert (Hsoon : (Z.of_nat (length tk) - Z.of_nat seen < 2 ^ 32)%Z).
    { specialize (Hturn _ _ seen H eq_refl). simpl in Hturn. lia. }
    destruct (cas_taken _ _ _ _ _ _ _ Hr Hh (Ht _ _ H) H0 Eh Hsoon) as (Hout & Hlen & Hpos).
    assert (Hlt : length (tk ++ out) = length tk + length out) by apply length_app.
    assert (Hd : drop (length tk + length out) ps = drop (length out) (drop (length tk) ps)).
    { by rewrite drop_drop. }
    split; simpl; rewrite ?Hlt.
    + rewrite Hf, Hout at 1. rewrite take_take_drop. done.
    + rewrite <- H0, <- Eh, Hh, wrap_add_l. f_equal. lia.
    + rewrite Hd, <- H0, <- Eh. apply lrep_drop; [done|]. rewrite length_drop. lia.
    + rewrite Hd. destruct o as [|x|x]; simpl in *; [done| |]; rewrite length_drop; [lia|].
      destruct Ho. split; [lia|done].
    + eapply takers_update; [|done]. intros j pc Hj. apply taker_ok_take; [done|]. by eapply Ht.
  - split; simpl; try done. by eapply takers_update.
Qed.

Lemma q_init_inv s : q_init s -> q_inv s.
Proof.
  intros (k & ->). split; simpl; try done.
  intros i pc Hi. apply lookup_replicate in Hi as [-> _]. done.
Qed.

Lemma q_reachable_inv s : reachable q_init q_timely s -> q_inv s.
Proof.
  apply (reachable_invariant q_inv); [apply q_init_inv|]. intros ? ? _. apply q_step_inv.
Qed.
