(* ===== verification/Inbox.v ===== *)
(** * The remote inbox (include/cio/detail/queue.hpp)

    [BoundedMpscQueue<kRemoteInboxCapacity>] with its producers' reserve, write
    and publish steps. *)

From S2P Require Import Prelude RunQueue.

Set Default Proof Using "Type".

Definition kRemoteInboxCapacity : Z := 256.
Definition kMask : Z := kRemoteInboxCapacity - 1.

Record Slot := mkSlot { sequence : Z; frame : item }.

Record Inbox := mkInbox {
  producer_pos : Z;
  consumer_pos : Z;
  slots : list Slot
}.

Definition inbox_slot (pos : Z) : nat := Z.to_nat (Z.land pos kMask).

Definition new_inbox : Inbox :=
  mkInbox 0 0 (map (fun i => mkSlot (Z.of_nat i) 0) (seq 0 (Z.to_nat kRemoteInboxCapacity))).

Definition sequence_at (q : Inbox) (pos : Z) : option Z :=
  sequence <$> slots q !! inbox_slot pos.

(** [static_cast<std::int64_t>(sequence - pos)]. *)
Definition difference (sequence pos : Z) : Z := i64 (u64 (sequence - pos)).

(** [producer_pos_.compare_exchange(pos, pos + 1)]. *)
Definition reserve (pos : Z) (q : Inbox) : option Inbox :=
  if decide (producer_pos q = pos)
  then Some (mkInbox (u64 (pos + 1)) (consumer_pos q) (slots q)) else None.

Definition alter_slot (pos : Z) (f : Slot -> Slot) (q : Inbox) : Inbox :=
  mkInbox (producer_pos q) (consumer_pos q) (alter f (inbox_slot pos) (slots q)).
Definition store_frame (pos : Z) (x : item) : Inbox -> Inbox :=
  alter_slot pos (fun s => mkSlot (sequence s) x).
Definition store_sequence (pos v : Z) : Inbox -> Inbox :=
  alter_slot pos (fun s => mkSlot v (frame s)).

(** An uncontended [try_push]: the first turn decides. *)
Definition try_push (x : item) (q : Inbox) : option (bool * Inbox) :=
  let pos := producer_pos q in
  s ← sequence_at q pos;
  if decide (difference s pos = 0%Z) then
    q' ← reserve pos q;
    Some (true, store_sequence pos (u64 (pos + 1)) (store_frame pos x q'))
  else if decide (difference s pos < 0)%Z then Some (false, q)
  else None.

(** Whether the slot at the consumer's position was published. *)
Definition published_at (q : Inbox) : option bool :=
  s ← sequence_at q (consumer_pos q);
  Some (bool_decide (difference s (u64 (consumer_pos q + 1)) = 0%Z)).

Definition release_slot (q : Inbox) : Inbox :=
  let pos := consumer_pos q in
  let q := store_sequence pos (u64 (pos + kRemoteInboxCapacity)) q in
  mkInbox (producer_pos q) (u64 (pos + 1)) (slots q).

Definition inbox_pop (q : Inbox) : option (option item * Inbox) :=
  b ← published_at q;
  if negb b then Some (None, q)
  else s ← slots q !! inbox_slot (consumer_pos q); Some (Some (frame s), release_slot q).

Definition inbox_empty (q : Inbox) : option bool := b ← published_at q; Some (negb b).

(** ** Concurrent producers *)

Inductive ProducerPc :=
  | PIdle
  | PLoaded (pos : Z) (x : item)
  | PReserve (pos : Z) (x : item)
  | PReserved (pos : Z) (x : item)
  | PWritten (pos : Z) (x : item).

(** [reserved] lists the frames in order of reservation, [consumed] those the
    owner popped; [holding] is the owner between its acquire load and the
    release of the slot. *)
Record ISys := mkISys {
  inbox : Inbox;
  reserved : list item;
  consumed : list item;
  holding : option item;
  producers : list ProducerPc
}.

Inductive i_step : ISys -> ISys -> Prop :=
  | i_load q rs cs hd ps i x :
      ps !! i = Some PIdle ->
      i_step (mkISys q rs cs hd ps)
             (mkISys q rs cs hd (<[i := PLoaded (producer_pos q) x]> ps))
  | i_fits q rs cs hd ps i pos x s :
      ps !! i = Some (PLoaded pos x) -> sequence_at q pos = Some s ->
      difference s pos = 0%Z ->
      i_step (mkISys q rs cs hd ps) (mkISys q rs cs hd (<[i := PReserve pos x]> ps))
  | i_full q rs cs hd ps i pos x s :
      ps !! i = Some (PLoaded pos x) -> sequence_at q pos = Some s ->
      (difference s pos < 0)%Z ->
      i_step (mkISys q rs cs hd ps) (mkISys q rs cs hd (<[i := PIdle]> ps))
  | i_behind q rs cs hd ps i pos x s :
      ps !! i = Some (PLoaded pos x) -> sequence_at q pos = Some s ->
      (0 < difference s pos)%Z ->
      i_step (mkISys q rs cs hd ps)
             (mkISys q rs cs hd (<[i := PLoaded (producer_pos q) x]> ps))
  | i_cas q rs cs hd ps i pos x q' :
      ps !! i = Some (PReserve pos x) -> reserve pos q = Some q' ->
      (Z.of_nat (length rs) < 2 ^ 62)%Z ->
      i_step (mkISys q rs cs hd ps) (mkISys q' (rs ++ [x]) cs hd (<[i := PReserved pos x]> ps))
  | i_cas_lost q rs cs hd ps i pos x :
      ps !! i = Some (PReserve pos x) ->
      i_step (mkISys q rs cs hd ps)
             (mkISys q rs cs hd (<[i := PLoaded (producer_pos q) x]> ps))
  | i_write q rs cs hd ps i pos x :
      ps !! i = Some (PReserved pos x) ->
      i_step (mkISys q rs cs hd ps)
             (mkISys (store_frame pos x q) rs cs hd (<[i := PWritten pos x]> ps))
  | i_publish q rs cs hd ps i pos x :
      ps !! i = Some (PWritten pos x) ->
      i_step (mkISys q rs cs hd ps)
             (mkISys (store_sequence pos (u64 (pos + 1)) q) rs cs hd (<[i := PIdle]> ps))
  | i_read q rs cs ps s :
      published_at q = Some true -> slots q !! inbox_slot (consumer_pos q) = Some s ->
      i_step (mkISys q rs cs None ps) (mkISys q rs cs (Some (frame s)) ps)
  | i_release q rs cs ps x :
      i_step (mkISys q rs cs (Some x) ps) (mkISys (release_slot q) rs (cs ++ [x]) None ps).

Definition i_init (s : ISys) : Prop :=
  exists k, s = mkISys new_inbox [] [] None (replicate k PIdle).

(** ** Invariant *)

(** The position that currently owns each slot is in a window of one capacity
    above what was consumed. *)
Definition in_window (cs : list item) (p : nat) : Prop :=
  length cs <= p < length cs + 256.

(** [p] is reserved by a producer that has not published it. *)
Definition in_flight (ps : list ProducerPc) (i p : nat) (x : item) : Prop :=
  ps !! i = Some (PReserved (Z.of_nat p) x) \/ ps !! i = Some (PWritten (Z.of_nat p) x).

Definition window_ok (q : Inbox) (rs cs : list item) (ps : list ProducerPc) : Prop :=
  forall p, in_window cs p -> exists s, slots q !! inbox_slot (Z.of_nat p) = Some s /\
    (p < length rs ->
       sequence s = Z.of_nat p /\ (exists i x, in_flight ps i p x) \/
       sequence s = Z.of_nat (S p) /\ rs !! p = Some (frame s)) /\
    (length rs <= p -> sequence s = Z.of_nat p).

Definition producer_ok (q : Inbox) (rs cs : list item) (pc : ProducerPc) : Prop :=
  match pc with
  | PIdle => True
  | PLoaded pos x => exists p, pos = Z.of_nat p /\ p <= length rs
  | PReserve pos x => exists p, pos = Z.of_nat p /\ p <= length rs /\
      (p = length rs -> p < length cs + 256)
  | PReserved pos x => exists p, pos = Z.of_nat p /\ length cs <= p < length rs /\
      rs !! p = Some x /\ sequence_at q pos = Some pos
  | PWritten pos x => exists p, pos = Z.of_nat p /\ length cs <= p < length rs /\
      rs !! p = Some x /\ slots q !! inbox_slot pos = Some (mkSlot pos x)
  end.

Record i_inv (s : ISys) : Prop := {
  ii_fifo : consumed s = take (length (consumed s)) (reserved s);
  ii_bound : length (reserved s) <= length (consumed s) + 256;
  ii_small : (Z.of_nat (length (reserved s)) <= 2 ^ 62)%Z;
  ii_producer : producer_pos (inbox s) = Z.of_nat (length (reserved s));
  ii_consumer : consumer_pos (inbox s) = Z.of_nat (length (consumed s));
  ii_slots : length (slots (inbox s)) = 256;
  ii_window : window_ok (inbox s) (reserved s) (consumed s) (producers s);
  ii_producers : forall i pc, producers s !! i = Some pc ->
    producer_ok (inbox s) (reserved s) (consumed s) pc;
  ii_unique : forall i j p x y, in_flight (producers s) i p x -> in_flight (producers s) j p y -> i = j;
  ii_holding : forall x, holding s = Some x ->
    reserved s !! length (consumed s) = Some x /\
    exists t, slots (inbox s) !! inbox_slot (consumer_pos (inbox s)) = Some t /\
      sequence t = Z.of_nat (S (length (consumed s)))
}.

(** * The inbox invariant

    Every step of the producers and of the owner keeps [i_inv]. *)

Implicit Types (q : Inbox) (rs cs : list item) (ps : list ProducerPc) (p : nat).

Lemma inbox_slot_mod x : inbox_slot x = Z.to_nat (x mod 256).
Proof. exact (slot_of_mod x). Qed.

Lemma inbox_slot_inj p p' cs :
  in_window cs p -> in_window cs p' -> inbox_slot (Z.of_nat p) = inbox_slot (Z.of_nat p') -> p = p'.
Proof.
  unfold in_window. intros H1 H2 E. apply (slot_of_inj (Z.of_nat p) (Z.of_nat p')) in E; lia.
Qed.

Lemma inbox_slot_lt x : inbox_slot x < 256.
Proof. exact (slot_of_lt x). Qed.

(** The position of the window that owns the slot of [p]. *)
Lemma occupant p cs : exists p', in_window cs p' /\ inbox_slot (Z.of_nat p') = inbox_slot (Z.of_nat p).
Proof.
  set (c := length cs). set (r := Init.Nat.modulo (p + 255 * c) 256). exists (c + r).
  assert (Hr : r < 256) by (apply Nat.mod_upper_bound; lia).
  split; [unfold in_window; fold c; lia|]. rewrite !inbox_slot_mod. f_equal.
  unfold r. rewrite Nat2Z.inj_add, Nat2Z.inj_mod, Zplus_mod_idemp_r.
  replace (Z.of_nat c + Z.of_nat (p + 255 * c))%Z with (Z.of_nat p + Z.of_nat c * 256)%Z by lia.
  apply Z_mod_plus_full.
Qed.

Lemma difference_small a b :
  (0 <= a < 2 ^ 63)%Z -> (0 <= b < 2 ^ 63)%Z -> difference a b = (a - b)%Z.
Proof.
  intros Ha Hb. unfold difference, sgn. rewrite wrap_wrap by lia. unfold wrap.
  case_decide as Hc.
  - destruct (decide (0 <= a - b)%Z); [apply Z.mod_small; lia|].
    rewrite <- (Z.mod_unique (a - b) (2 ^ 64) (-1) (a - b + 2 ^ 64)) in Hc by lia. lia.
  - destruct (decide (0 <= a - b)%Z); [rewrite Z.mod_small in Hc by lia; lia|].
    rewrite <- (Z.mod_unique (a - b) (2 ^ 64) (-1) (a - b + 2 ^ 64)) by lia. lia.
Qed.

Lemma alter_at f (l : list Slot) pos pos' :
  alter f (inbox_slot pos) l !! inbox_slot pos' =
  (if decide (inbox_slot pos = inbox_slot pos') then f <$> l !! inbox_slot pos'
   else l !! inbox_slot pos').
Proof.
  case_decide as E; [rewrite <- E; apply list_lookup_alter_eq|]. by apply list_lookup_alter_ne.
Qed.

Lemma consumed_le s : i_inv s -> length (consumed s) <= length (reserved s).
Proof.
  intros Hi. pose proof (ii_fifo s Hi) as Hf. apply (f_equal length) in Hf.
  rewrite length_take in Hf. lia.
Qed.

(** The sequence of any slot is close to the window. *)
Lemma sequence_bound q rs cs ps p s :
  window_ok q rs cs ps -> sequence_at q (Z.of_nat p) = Some s ->
  exists p', in_window cs p' /\ inbox_slot (Z.of_nat p') = inbox_slot (Z.of_nat p) /\
    (s = Z.of_nat p' \/ s = Z.of_nat (S p') /\ p' < length rs).
Proof.
  intros Hw Hs. destruct (occupant p cs) as (p' & Hp' & E). exists p'. split; [done|]. split; [done|].
  destruct (Hw p' Hp') as (t & Ht & Hlt & Hge). unfold sequence_at in Hs. rewrite <- E, Ht in Hs.
  injection Hs as <-. destruct (decide (p' < length rs)) as [Hl|Hl].
  - destruct (Hlt Hl) as [[-> _]|[-> _]]; [by left|by right].
  - left. apply Hge. lia.
Qed.

(** A producer at [PReserved] or [PWritten] flies its own position. *)
Lemma flight_pos ps i pos x p' y :
  ps !! i = Some (PReserved pos x) -> forall p, pos = Z.of_nat p -> in_flight ps i p' y -> p' = p.
Proof.
  intros Hi p -> [Hj|Hj]; rewrite Hi in Hj; [|done]. injection Hj. lia.
Qed.

Lemma flight_pos_written ps i pos x p' y :
  ps !! i = Some (PWritten pos x) -> forall p, pos = Z.of_nat p -> in_flight ps i p' y -> p' = p.
Proof.
  intros Hi p -> [Hj|Hj]; rewrite Hi in Hj; [done|]. injection Hj. lia.
Qed.

Lemma flight_update ps i pc j p x :
  in_flight (<[i := pc]> ps) j p x -> j <> i -> in_flight ps j p x.
Proof. unfold in_flight. intros H Hne. by rewrite list_lookup_insert_ne in H. Qed.

Lemma flight_keep ps i pc j p x :
  in_flight ps j p x -> j <> i -> in_flight (<[i := pc]> ps) j p x.
Proof. unfold in_flight. intros H Hne. by rewrite list_lookup_insert_ne. Qed.

Lemma lookup_updated {A} (l : list A) i a j b :
  i < length l -> <[i := a]> l !! j = Some b -> j = i /\ b = a \/ j <> i /\ l !! j = Some b.
Proof.
  intros Hi Hj. destruct (decide (j = i)) as [->|Hne].
  - rewrite list_lookup_insert_eq in Hj by done. left. split; congruence.
  - rewrite list_lookup_insert_ne in Hj by done. by right.
Qed.

(** A step that only moves one producer between states out of flight. *)
Lemma move_producer q rs cs hd ps i pc pc' :
  i_inv (mkISys q rs cs hd ps) -> ps !! i = Some pc ->
  (forall p x, ~ in_flight ps i p x) -> (forall p x, ~ in_flight (<[i := pc']> ps) i p x) ->
  producer_ok q rs cs pc' -> i_inv (mkISys q rs cs hd (<[i := pc']> ps)).
Proof.
  intros [H1 H2 H3 H4 H5 H6 H7 H8 H9 H10] Hi Hn Hn' Hpc. simpl in *.
  pose proof (lookup_lt_Some _ _ _ Hi) as Hlt. split; simpl; try done.
  - intros p Hp. destruct (H7 p Hp) as (s & Hs & Ha & Hb). exists s. split; [done|]. split; [|done].
    intros Hl. destruct (Ha Hl) as [[? (j & x & Hj)]|?]; [left|by right]. split; [done|].
    exists j, x. apply flight_keep; [done|]. intros ->. by apply (Hn p x).
  - intros j b Hj. destruct (lookup_updated _ _ _ _ _ Hlt Hj) as [[-> ->]|[? ?]]; [done|eauto].
  - intros j k p x y Hj Hk. apply (H9 j k p x y).
    + apply (flight_update ps i pc'); [done|]. intros ->. by apply (Hn' p x).
    + apply (flight_update ps i pc'); [done|]. intros ->. by apply (Hn' p y).
Qed.

Lemma not_in_flight ps i pc :
  ps !! i = Some pc ->
  match pc with PReserved _ _ | PWritten _ _ => False | _ => True end ->
  forall p x, ~ in_flight ps i p x.
Proof. intros Hi Hpc p x [H|H]; rewrite Hi in H; injection H as ->; done. Qed.

Lemma not_in_flight_upd ps i pc pc0 :
  ps !! i = Some pc0 ->
  match pc with PReserved _ _ | PWritten _ _ => False | _ => True end ->
  forall p x, ~ in_flight (<[i := pc]> ps) i p x.
Proof.
  intros Hi Hpc. apply (not_in_flight _ i pc); [|done].
  apply list_lookup_insert_eq. by eapply lookup_lt_Some.
Qed.

(** A slot that looks free at [p] is free: the ring has room for [p]. *)
Lemma fits_room q rs cs ps p :
  window_ok q rs cs ps -> length rs <= length cs + 256 -> length cs <= length rs ->
  (Z.of_nat (length rs) <= 2 ^ 62)%Z -> p <= length rs ->
  sequence_at q (Z.of_nat p) = Some (Z.of_nat p) -> p = length rs -> p < length cs + 256.
Proof.
  intros Hw Hb Hle Hsm Hp Hs ->. destruct (decide (length rs < length cs + 256)) as [|Hn]; [done|].
  assert (E : length rs = length cs + 256) by lia.
  assert (Hslot : inbox_slot (Z.of_nat (length cs)) = inbox_slot (Z.of_nat (length rs))).
  { rewrite E, !inbox_slot_mod. f_equal.
    replace (Z.of_nat (length cs + 256)) with (Z.of_nat (length cs) + 1 * 256)%Z by lia.
    by rewrite Z_mod_plus_full. }
  destruct (Hw (length cs) ltac:(unfold in_window; lia)) as (s & Hs' & Ha & _).
  unfold sequence_at in Hs. rewrite <- Hslot, Hs' in Hs. injection Hs as Hs.
  destruct (Ha ltac:(lia)) as [[? _]|[? _]]; lia.
Qed.

(** A producer sees a full ring only when a whole capacity is in flight. *)
Lemma full_is_full q rs cs ps p s :
  window_ok q rs cs ps -> length rs <= length cs + 256 -> length cs <= length rs ->
  (Z.of_nat (length rs) <= 2 ^ 62)%Z -> p <= length rs ->
  sequence_at q (Z.of_nat p) = Some s -> (difference s (Z.of_nat p) < 0)%Z ->
  length rs = length cs + 256.
Proof.
  intros Hw Hb Hle Hsm Hp Hs Hd.
  destruct (sequence_bound q rs cs ps p s Hw Hs) as (p' & Hw' & E & Hor). unfold in_window in Hw'.
  rewrite difference_small in Hd by lia.
  destruct (decide (length rs = length cs + 256)) as [|Hne]; [done|exfalso].
  destruct (decide (length cs <= p)) as [Hge|Hlt].
  - assert (p' = p) as -> by (apply (inbox_slot_inj p' p cs); unfold in_window; (lia || done)). lia.
  - lia.
Qed.

(** ** Steps *)

Lemma inv_write q rs cs hd ps i pos x :
  i_inv (mkISys q rs cs hd ps) -> ps !! i = Some (PReserved pos x) ->
  i_inv (mkISys (store_frame pos x q) rs cs hd (<[i := PWritten pos x]> ps)).
Proof.
  intros [H1 H2 H3 H4 H5 H6 H7 H8 H9 H10] Hi. simpl in *.
  pose proof (lookup_lt_Some _ _ _ Hi) as Hlt.
  destruct (H8 i _ Hi) as (p & -> & Hp & Hrs & Hseq).
  assert (Hwp : in_window cs p) by (unfold in_window; lia).
  assert (Hfl : in_flight ps i p x) by by left.
  assert (Hfl' : in_flight (<[i := PWritten (Z.of_nat p) x]> ps) i p x).
  { right. by apply list_lookup_insert_eq. }
  unfold sequence_at in Hseq. destruct (slots q !! inbox_slot (Z.of_nat p)) as [sp|] eqn:Esp; [|done].
  injection Hseq as Hseq.
  split; try done; cbn [inbox reserved consumed producers holding].
  - by unfold store_frame, alter_slot; simpl; rewrite length_alter.
  - intros p' Hp'. destruct (H7 p' Hp') as (s & Hs & Ha & Hb). simpl.
    rewrite alter_at. case_decide as E.
    + assert (p' = p) as -> by (symmetry; by apply (inbox_slot_inj p p' cs)).
      rewrite Esp. simpl. eexists. split; [done|]. split; [|lia]. intros _. left. split; [done|]. eauto.
    + exists s. split; [done|]. split; [|done]. intros Hl.
      destruct (Ha Hl) as [[? (j & y & Hj)]|?]; [left|by right]. split; [done|].
      exists j, y. apply flight_keep; [done|]. intros ->.
      assert (p' = p) as ->; [|done]. by apply (flight_pos ps i (Z.of_nat p) x p' y Hi).
  - intros j pc Hj. destruct (lookup_updated _ _ _ _ _ Hlt Hj) as [[-> ->]|[Hne Hj']].
    + exists p. split; [done|]. split; [done|]. split; [done|]. simpl.
      rewrite alter_at, decide_True, Esp by done. simpl. by rewrite Hseq.
    + specialize (H8 j pc Hj'). destruct pc as [|?|?|pos2 y|pos2 y]; simpl in *; try done.
      * destruct H8 as (p2 & -> & Hp2 & Hrs2 & Hs2). exists p2. do 3 (split; [done|]).
        unfold sequence_at in *. simpl. rewrite alter_at.
        case_decide; [|done]. by destruct (slots q !! _).
      * destruct H8 as (p2 & -> & Hp2 & Hrs2 & Hs2). exists p2. do 3 (split; [done|]).
        simpl. rewrite alter_at, decide_False; [done|]. intros E. apply Hne.
        assert (p = p2) as -> by (apply (inbox_slot_inj p p2 cs); unfold in_window; (lia || done)).
        apply (H9 j i p2 y x); [by right|done].
  - intros j k p' y z Hj Hk.
    assert (Hback : forall j y, in_flight (<[i := PWritten (Z.of_nat p) x]> ps) j p' y -> exists y', in_flight ps j p' y').
    { intros j0 y0 Hj0. destruct (decide (j0 = i)) as [->|]; [|exists y0; by eapply flight_update].
      exists x. unfold in_flight in Hj0. rewrite list_lookup_insert_eq in Hj0 by done.
      left. destruct Hj0 as [?|[= E _]]; [done|]. rewrite Hi. do 2 f_equal. lia. }
    destruct (Hback j y Hj) as [? ?]. destruct (Hback k z Hk) as [? ?]. by eapply H9.
  - intros y Hy. destruct (H10 y Hy) as (Hy' & t & Ht & Hst). split; [done|].
    simpl. rewrite alter_at, Ht. case_decide; simpl; eauto.
Qed.

Lemma inv_publish q rs cs hd ps i pos x :
  i_inv (mkISys q rs cs hd ps) -> ps !! i = Some (PWritten pos x) ->
  i_inv (mkISys (store_sequence pos (u64 (pos + 1)) q) rs cs hd (<[i := PIdle]> ps)).
Proof.
  intros Hinv Hi. pose proof (consumed_le _ Hinv) as Hle.
  destruct Hinv as [H1 H2 H3 H4 H5 H6 H7 H8 H9 H10]. simpl in *.
  pose proof (lookup_lt_Some _ _ _ Hi) as Hlt.
  destruct (H8 i _ Hi) as (p & -> & Hp & Hrs & Hslot).
  assert (Hwp : in_window cs p) by (unfold in_window; lia).
  assert (Hfl : in_flight ps i p x) by by right.
  rewrite u64_small by lia.
  assert (Hni : forall p' y, ~ in_flight (<[i := PIdle]> ps) i p' y) by by eapply not_in_flight_upd.
  assert (Hother : forall j p2 y, j <> i -> in_flight ps j p2 y -> in_window cs p2 ->
    inbox_slot (Z.of_nat p) <> inbox_slot (Z.of_nat p2)).
  { intros j p2 y Hne Hj Hw2 E. apply Hne.
    assert (p = p2) as <- by (by apply (inbox_slot_inj p p2 cs)). by apply (H9 j i p y x). }
  split; try done; cbn [inbox reserved consumed producers holding].
  - unfold store_sequence, alter_slot. simpl. by rewrite length_alter.
  - intros p' Hp'. destruct (H7 p' Hp') as (s & Hs & Ha & Hb). simpl.
    rewrite alter_at. case_decide as E.
    + assert (p' = p) as -> by (symmetry; by apply (inbox_slot_inj p p' cs)).
      rewrite Hslot. simpl. eexists. split; [done|]. simpl. split; [|lia]. intros _. right.
      split; [lia|done].
    + exists s. split; [done|]. split; [|done]. intros Hl.
      destruct (Ha Hl) as [[? (j & y & Hj)]|?]; [left|by right]. split; [done|].
      exists j, y. apply flight_keep; [done|]. intros ->.
      assert (p' = p) as ->; [|done]. by apply (flight_pos_written ps i (Z.of_nat p) x p' y Hi).
  - intros j pc Hj. destruct (lookup_updated _ _ _ _ _ Hlt Hj) as [[-> ->]|[Hne Hj']]; [done|].
    specialize (H8 j pc Hj'). destruct pc as [|?|?|pos2 y|pos2 y]; simpl in *; try done.
    + destruct H8 as (p2 & -> & Hp2 & Hrs2 & Hs2). exists p2. do 3 (split; [done|]).
      unfold sequence_at in *. simpl. rewrite alter_at, decide_False; [done|].
      apply (Hother j p2 y Hne); [by left|unfold in_window; lia].
    + destruct H8 as (p2 & -> & Hp2 & Hrs2 & Hs2). exists p2. do 3 (split; [done|]).
      rewrite alter_at, decide_False; [done|].
      apply (Hother j p2 y Hne); [by right|unfold in_window; lia].
  - intros j k p' y z Hj Hk. apply (H9 j k p' y z).
    + apply (flight_update ps i PIdle); [done|]. intros ->. by apply (Hni p' y).
    + apply (flight_update ps i PIdle); [done|]. intros ->. by apply (Hni p' z).
  - intros y Hy. destruct (H10 y Hy) as (Hy' & t & Ht & Hst). split; [done|].
    simpl. rewrite alter_at, Ht. case_decide as E; [|eauto]. exfalso.
    rewrite <- E, Hslot in Ht. injection Ht as <-. simpl in Hst. rewrite H5 in E.
    assert (p = length cs) by (apply (inbox_slot_inj p (length cs) cs); unfold in_window; (lia || done)).
    lia.
Qed.

Lemma inv_cas q rs cs hd ps i pos x q' :
  i_inv (mkISys q rs cs hd ps) -> ps !! i = Some (PReserve pos x) -> reserve pos q = Some q' ->
  (Z.of_nat (length rs) < 2 ^ 62)%Z ->
  i_inv (mkISys q' (rs ++ [x]) cs hd (<[i := PReserved pos x]> ps)).
Proof.
  intros Hinv Hi Hres Hsm. pose proof (consumed_le _ Hinv) as Hle.
  destruct Hinv as [H1 H2 H3 H4 H5 H6 H7 H8 H9 H10]. simpl in *.
  pose proof (lookup_lt_Some _ _ _ Hi) as Hlt.
  destruct (H8 i _ Hi) as (p & -> & Hp & Hroom).
  unfold reserve in Hres. case_decide as Ep; [|done]. injection Hres as <-.
  rewrite H4 in Ep. assert (p = length rs) as -> by lia. specialize (Hroom eq_refl).
  assert (Hni : forall p' y, ~ in_flight ps i p' y) by by eapply not_in_flight.
  assert (Hfl : forall j p' y, j <> i -> in_flight ps j p' y -> p' < length rs).
  { intros j p' y Hne [Hj|Hj]; destruct (H8 j _ Hj) as (p2 & E & ? & _); lia. }
  destruct (H7 (length rs) ltac:(unfold in_window; lia)) as (sn & Hsn & _ & Hsq).
  specialize (Hsq ltac:(lia)).
  split; simpl.
  - rewrite take_app_le by done. done.
  - rewrite length_app. simpl. lia.
  - rewrite length_app. simpl. lia.
  - rewrite length_app, u64_small by lia. simpl. lia.
  - done.
  - done.
  - intros p' Hp'. destruct (H7 p' Hp') as (s & Hs & Ha & Hb). exists s. split; [done|].
    rewrite length_app. simpl. split; [|intros; apply Hb; lia]. intros Hl.
    destruct (decide (p' = length rs)) as [->|Hne].
    + left. split; [by apply Hb|]. exists i, x. left. by apply list_lookup_insert_eq.
    + destruct (Ha ltac:(lia)) as [[? (j & y & Hj)]|[? ?]].
      * left. split; [done|]. exists j, y. apply flight_keep; [done|].
        intros ->. by apply (Hni p' y).
      * right. split; [done|]. by apply lookup_app_l_Some.
  - intros j pc Hj. destruct (lookup_updated _ _ _ _ _ Hlt Hj) as [[-> ->]|[Hne Hj']].
    + simpl. exists (length rs). split; [done|]. rewrite length_app. simpl. split; [lia|].
      split; [by rewrite lookup_app_r, Nat.sub_diag by lia|].
      unfold sequence_at. simpl. rewrite Hsn. simpl. by rewrite Hsq.
    + specialize (H8 j pc Hj'). destruct pc as [|pos2 y|pos2 y|pos2 y|pos2 y]; simpl in *;
        rewrite ?length_app; simpl; try done.
      * destruct H8 as (p2 & -> & ?). exists p2. split; [done|lia].
      * destruct H8 as (p2 & -> & ? & ?). exists p2. split; [done|]. split; [lia|]. lia.
      * destruct H8 as (p2 & -> & ? & ? & ?). exists p2. split; [done|]. split; [lia|].
        split; [by apply lookup_app_l_Some|done].
      * destruct H8 as (p2 & -> & ? & ? & ?). exists p2. split; [done|]. split; [lia|].
        split; [by apply lookup_app_l_Some|done].
  - assert (Hback : forall j p' y, in_flight (<[i := PReserved (Z.of_nat (length rs)) x]> ps) j p' y ->
      j = i /\ p' = length rs \/ j <> i /\ in_flight ps j p' y /\ p' < length rs).
    { intros j p' y Hj. destruct (decide (j = i)) as [->|Hne].
      - left. split; [done|].
        apply (flight_pos _ i (Z.of_nat (length rs)) x p' y
                 (list_lookup_insert_eq ps i _ Hlt) (length rs) eq_refl Hj).
      - right. apply flight_update in Hj; [|done]. eauto. }
    intros j k p' y z Hj Hk.
    apply Hback in Hj as [[-> E1]|(? & Hj & E1)]; apply Hback in Hk as [[-> E2]|(? & Hk & E2)];
      try done; try lia. by eapply H9.
  - intros y Hy. destruct (H10 y Hy) as (Hy' & t & Ht & Hst). split; [by apply lookup_app_l_Some|eauto].
Qed.

Lemma inv_read q rs cs ps s :
  i_inv (mkISys q rs cs None ps) -> published_at q = Some true ->
  slots q !! inbox_slot (consumer_pos q) = Some s ->
  i_inv (mkISys q rs cs (Some (frame s)) ps).
Proof.
  intros Hinv Hpub Hs. pose proof (consumed_le _ Hinv) as Hle.
  destruct Hinv as [H1 H2 H3 H4 H5 H6 H7 H8 H9 H10]. simpl in *. rewrite H5 in Hs.
  destruct (H7 (length cs) ltac:(unfold in_window; lia)) as (t & Ht & Ha & Hb).
  assert (t = s) as -> by congruence.
  unfold published_at, sequence_at in Hpub. rewrite H5, Hs in Hpub. simpl in Hpub.
  injection Hpub as Hpub%bool_decide_eq_true. rewrite u64_small in Hpub by lia.
  assert (Hseq : sequence s = Z.of_nat (S (length cs)) /\ rs !! length cs = Some (frame s)).
  { destruct (decide (length cs < length rs)) as [Hl|Hl].
    - destruct (Ha Hl) as [[E _]|[E ?]]; [|done]. rewrite E, difference_small in Hpub by lia. lia.
    - rewrite (Hb ltac:(lia)), difference_small in Hpub by lia. lia. }
  split; try done. simpl. intros y [= <-]. rewrite H5. destruct Hseq. split; [done|eauto].
Qed.

Lemma inv_release q rs cs ps x :
  i_inv (mkISys q rs cs (Some x) ps) -> i_inv (mkISys (release_slot q) rs (cs ++ [x]) None ps).
Proof.
  intros Hinv. pose proof (consumed_le _ Hinv) as Hle.
  destruct Hinv as [H1 H2 H3 H4 H5 H6 H7 H8 H9 H10]. simpl in *.
  destruct (H10 x eq_refl) as (Hx & t & Ht & Hst).
  pose proof (lookup_lt_Some _ _ _ Hx) as Hlt. rewrite H5 in Ht.
  assert (Hwc : in_window cs (length cs)) by (unfold in_window; lia).
  assert (Hwrap : inbox_slot (Z.of_nat (length cs)) = inbox_slot (Z.of_nat (length cs + 256))).
  { rewrite !inbox_slot_mod. f_equal.
    replace (Z.of_nat (length cs + 256)) with (Z.of_nat (length cs) + 1 * 256)%Z by lia.
    by rewrite Z_mod_plus_full. }
  assert (Hne : forall p, in_window cs p -> p <> length cs ->
    inbox_slot (Z.of_nat (length cs)) <> inbox_slot (Z.of_nat p)).
  { intros p Hp Hn E. apply Hn. symmetry. by apply (inbox_slot_inj _ _ cs). }
  unfold release_slot. rewrite H5. unfold kRemoteInboxCapacity.
  rewrite !u64_small by lia.
  split; simpl; rewrite ?length_app; simpl.
  - rewrite H1 at 1. replace (length cs + 1) with (S (length cs)) by lia.
    by rewrite (take_S_r rs (length cs) x Hx).
  - lia.
  - done.
  - done.
  - lia.
  - by rewrite length_alter.
  - intros p Hp. unfold in_window in Hp. rewrite length_app in Hp. simpl in Hp. simpl. rewrite alter_at.
    destruct (decide (p = length cs + 256)) as [->|Hpn].
    + rewrite decide_True by done. rewrite <- Hwrap, Ht. simpl. eexists. split; [done|].
      simpl. split; [lia|]. intros _. lia.
    + rewrite decide_False by (apply Hne; unfold in_window; lia). apply H7. unfold in_window. lia.
  - intros i pc Hi. specialize (H8 i pc Hi).
    destruct pc as [|pos2 y|pos2 y|pos2 y|pos2 y]; simpl in *; rewrite ?length_app; simpl; try done.
    + destruct H8 as (p2 & -> & ? & ?). exists p2. split; [done|]. split; [done|]. intros E.
      specialize (H0 E). lia.
    + destruct H8 as (p2 & -> & ? & ? & Hs). exists p2. split; [done|].
      unfold sequence_at in *. simpl in *.
      assert (p2 <> length cs). { intros ->. rewrite Ht in Hs. injection Hs as Hs. lia. }
      split; [lia|]. split; [done|]. rewrite alter_at, decide_False; [done|].
      apply Hne; [unfold in_window; lia|done].
    + destruct H8 as (p2 & -> & ? & ? & Hs). exists p2. split; [done|].
      assert (p2 <> length cs). { intros ->. rewrite Ht in Hs. injection Hs as ->. simpl in Hst. lia. }
      split; [lia|]. split; [done|]. rewrite alter_at, decide_False; [done|].
      apply Hne; [unfold in_window; lia|done].
  - done.
  - done.
Qed.

Lemma i_step_inv s s' : i_inv s -> i_step s s' -> i_inv s'.
Proof.
  intros Hinv Hst. pose proof (consumed_le _ Hinv) as Hle. destruct Hst; simpl in Hle.
  - eapply move_producer; [done|done|by eapply not_in_flight|by eapply not_in_flight_upd|].
    exists (length rs). split; [apply (ii_producer _ Hinv)|done].
  - eapply move_producer; [done|done|by eapply not_in_flight|by eapply not_in_flight_upd|].
    destruct (ii_producers _ Hinv i _ H) as (p & -> & Hp). simpl in Hp. exists p.
    split; [done|]. split; [done|]. pose proof (ii_bound _ Hinv). pose proof (ii_small _ Hinv).
    simpl in *. destruct (sequence_bound q rs cs ps p s (ii_window _ Hinv) H0) as (p' & Hw & _ & Hor).
    unfold in_window in Hw. rewrite difference_small in H1 by lia.
    apply (fits_room q rs cs ps p); [apply (ii_window _ Hinv)|lia..|].
    rewrite H0. f_equal. lia.
  - eapply move_producer; [done|done|by eapply not_in_flight|by eapply not_in_flight_upd|done].
  - eapply move_producer; [done|done|by eapply not_in_flight|by eapply not_in_flight_upd|].
    exists (length rs). split; [apply (ii_producer _ Hinv)|done].
  - by eapply inv_cas.
  - eapply move_producer; [done|done|by eapply not_in_flight|by eapply not_in_flight_upd|].
    exists (length rs). split; [apply (ii_producer _ Hinv)|done].
  - by apply inv_write.
  - by eapply inv_publish.
  - by apply inv_read.
  - by apply inv_release.
Qed.

Lemma i_init_inv s : i_init s -> i_inv s.
Proof.
  intros (k & ->).
  assert (Hslot : forall p, p < 256 -> slots new_inbox !! inbox_slot (Z.of_nat p) = Some (mkSlot (Z.of_nat p) 0)).
  { intros p Hp. rewrite inbox_slot_mod, Z.mod_small by lia. rewrite Nat2Z.id.
    change (slots new_inbox) with ((fun i => mkSlot (Z.of_nat i) 0) <$> seq 0 256).
    rewrite list_lookup_fmap, lookup_seq_lt by done. done. }
  split; cbn [inbox reserved consumed holding producers]; try done.
  - simpl. lia.
  - intros p Hp. unfold in_window in Hp. simpl in Hp. eexists. split; [apply Hslot; lia|].
    simpl. split; [lia|done].
  - intros i pc Hi. apply lookup_replicate in Hi as [-> _]. done.
  - intros i j p x y [Hi|Hi]; apply lookup_replicate in Hi as [? _]; done.
Qed.

Lemma i_reachable_inv s : reachable i_init i_step s -> i_inv s.
Proof.
  apply (reachable_invariant i_inv); [apply i_init_inv|]. intros ? ? _. apply i_step_inv.
Qed.
