(* ===== verification/Bitmap.v ===== *)
(** * The worker bitmap (include/cio/detail/bitmap.hpp)

    [AtomicWorkerBitmap]: the idle and stealable sets of workers, as words of 64
    bits. Each operation is one atomic access per word it visits. *)

From S2P Require Import Prelude.

Set Default Proof Using "Type".

(** [None] is [kInvalidWorkerId], which no worker index reaches. *)
Abbreviation worker_id := nat.
Abbreviation kInvalidWorkerId := (@None worker_id) (only parsing).

Record Bitmap := mkBitmap {
  bit_count : nat;
  words : list Z
}.

Definition word_count (b : Bitmap) : nat := (bit_count b + 63) / 64.
Definition new_bitmap (n : nat) : Bitmap := mkBitmap n (replicate ((n + 63) / 64) 0%Z).

(** [std::countr_zero] on a 64-bit word. *)
Definition countr_zero (x : Z) : nat :=
  match find (fun i => Z.testbit x (Z.of_nat i)) (seq 0 64) with Some i => i | None => 64 end.

Definition all_ones : Z := 2 ^ 64 - 1.
(** [~x] on 64 bits. *)
Definition not64 (x : Z) : Z := Z.ldiff all_ones x.
Definition bit (w : worker_id) : Z := Z.shiftl 1 (Z.of_nat (Init.Nat.modulo w 64)).

Definition word_of (b : Bitmap) (w : worker_id) : option Z := words b !! (w / 64).
Definition set_word (b : Bitmap) (i : nat) (x : Z) : Bitmap :=
  mkBitmap (bit_count b) (<[i := x]> (words b)).

Definition bm_set (w : worker_id) (b : Bitmap) : option (bool * Bitmap) :=
  if decide (bit_count b <= w) then Some (false, b)
  else x ← word_of b w;
       Some (bool_decide (Z.land x (bit w) = 0%Z), set_word b (w / 64) (Z.lor x (bit w))).

Definition bm_clear (w : worker_id) (b : Bitmap) : option (bool * Bitmap) :=
  if decide (bit_count b <= w) then Some (false, b)
  else x ← word_of b w;
       Some (bool_decide (Z.land x (bit w) <> 0%Z),
             set_word b (w / 64) (Z.land x (not64 (bit w)))).

Definition bm_test (w : worker_id) (b : Bitmap) : option bool :=
  if decide (bit_count b <= w) then Some false
  else x ← word_of b w; Some (bool_decide (Z.land x (bit w) <> 0%Z)).

Definition bm_any (b : Bitmap) : bool := existsb (fun x => bool_decide (x <> 0%Z)) (words b).

Definition bm_all (b : Bitmap) : option bool :=
  if decide (bit_count b = 0) then Some true
  else if forallb (fun x => bool_decide (x = all_ones)) (take (word_count b - 1) (words b))
  then
    let tail_bits := Init.Nat.modulo (bit_count b) 64 in
    let tail_mask := if decide (tail_bits = 0) then all_ones
                     else (Z.shiftl 1 (Z.of_nat tail_bits) - 1)%Z in
    x ← words b !! (word_count b - 1);
    Some (bool_decide (Z.land x tail_mask = tail_mask))
  else Some false.

Definition high_mask (first_bit : nat) : Z :=
  Z.land (Z.shiftl all_ones (Z.of_nat first_bit)) all_ones.
Definition low_mask (first_bit : nat) : Z := (Z.shiftl 1 (Z.of_nat first_bit) - 1)%Z.

(** The other words, in rotation order. *)
Fixpoint find_others (n offset first_word : nat) (b : Bitmap) : option (option worker_id) :=
  match n with
  | O => Some None
  | S n =>
      let i := Init.Nat.modulo (first_word + offset) (word_count b) in
      x ← words b !! i;
      let result := i * 64 + countr_zero x in
      if decide (x = 0%Z) then find_others n (S offset) first_word b
      else if decide (result < bit_count b) then Some (Some result)
      else find_others n (S offset) first_word b
  end.

Definition find_from (start : worker_id) (b : Bitmap) : option (option worker_id) :=
  if decide (bit_count b = 0) then Some kInvalidWorkerId
  else
    let start := Init.Nat.modulo start (bit_count b) in
    let first_word := start / 64 in
    let first_bit := Init.Nat.modulo start 64 in
    first ← words b !! first_word;
    let high := Z.land first (high_mask first_bit) in
    if decide (high <> 0%Z) then Some (Some (first_word * 64 + countr_zero high))
    else
      r ← find_others (word_count b - 1) 1 first_word b;
      match r with
      | Some w => Some (Some w)
      | None =>
          let low := Z.land first (low_mask first_bit) in
          if decide (first_bit <> 0 /\ low <> 0%Z)
          then Some (Some (first_word * 64 + countr_zero low))
          else Some kInvalidWorkerId
      end.

(** The CAS loop of [claim_from_word], once it succeeds. *)
Definition claim_from_word (i : nat) (allowed : Z) (b : Bitmap) : option (option worker_id * Bitmap) :=
  observed ← words b !! i;
  let candidates := Z.land observed allowed in
  if decide (candidates = 0%Z) then Some (kInvalidWorkerId, b)
  else
    let selected := countr_zero candidates in
    let desired := Z.land observed (not64 (Z.shiftl 1 (Z.of_nat selected))) in
    let result := i * 64 + selected in
    Some (if decide (result < bit_count b) then Some result else kInvalidWorkerId,
          set_word b i desired).

Fixpoint claim_others (n offset first_word : nat) (b : Bitmap) : option (option worker_id * Bitmap) :=
  match n with
  | O => Some (kInvalidWorkerId, b)
  | S n =>
      let i := Init.Nat.modulo (first_word + offset) (word_count b) in
      r ← claim_from_word i all_ones b;
      if decide (r.1 <> kInvalidWorkerId) then Some r
      else claim_others n (S offset) first_word r.2
  end.

Definition claim_from (start : worker_id) (b : Bitmap) : option (option worker_id * Bitmap) :=
  if decide (bit_count b = 0) then Some (kInvalidWorkerId, b)
  else
    let start := Init.Nat.modulo start (bit_count b) in
    let first_word := start / 64 in
    let first_bit := Init.Nat.modulo start 64 in
    r ← claim_from_word first_word (high_mask first_bit) b;
    if decide (r.1 <> kInvalidWorkerId) then Some r
    else
      r ← claim_others (word_count b - 1) 1 first_word r.2;
      if decide (r.1 <> kInvalidWorkerId) then Some r
      else if decide (first_bit <> 0) then claim_from_word first_word (low_mask first_bit) r.2
      else Some (kInvalidWorkerId, r.2).

(** ** The set a bitmap represents *)

(** Words are 64-bit and bits from [bit_count] on are clear. *)
Record bm_ok (b : Bitmap) : Prop := {
  bo_len : length (words b) = word_count b;
  bo_range : forall i x, words b !! i = Some x -> in_range 64 x;
  bo_tail : forall i x k, words b !! i = Some x -> k < 64 -> Z.testbit x (Z.of_nat k) = true ->
    i * 64 + k < bit_count b
}.

Definition member (b : Bitmap) (w : worker_id) : Prop :=
  exists x, words b !! (w / 64) = Some x /\ Z.testbit x (Z.of_nat (Init.Nat.modulo w 64)) = true.

(** * The bitmap as a set of workers

    Masks, [countr_zero], and what each operation does to the set. *)

#[local] Arguments Nat.div : simpl never.
#[local] Arguments Nat.modulo : simpl never.

Implicit Types (b : Bitmap) (w : worker_id) (x : Z).

Lemma testbit_high x k : in_range 64 x -> (64 <= k)%Z -> Z.testbit x k = false.
Proof.
  intros [H1 H2] Hk. destruct (decide (x = 0)%Z) as [->|]; [apply Z.bits_0|].
  apply Z.bits_above_log2; [done|]. apply Z.log2_lt_pow2; [lia|].
  eapply Z.lt_le_trans; [done|]. apply Z.pow_le_mono_r; lia.
Qed.

Lemma land_range x y : in_range 64 x -> (0 <= y)%Z -> in_range 64 (Z.land x y).
Proof.
  intros [H1 H2] Hy. split; [apply Z.land_nonneg; lia|].
  destruct (decide (Z.land x y = 0)%Z) as [->|Hn]; [lia|].
  assert (0 <= Z.land x y)%Z by (apply Z.land_nonneg; lia).
  apply Z.log2_lt_pow2; [lia|]. eapply Z.le_lt_trans; [apply Z.log2_land; lia|].
  destruct (decide (x = 0)%Z) as [->|]; [rewrite Z.land_0_l in Hn; done|].
  assert (Z.log2 x < 64)%Z by (apply Z.log2_lt_pow2; lia). lia.
Qed.

Lemma lor_range x y : in_range 64 x -> in_range 64 y -> in_range 64 (Z.lor x y).
Proof.
  intros [H1 H2] [H3 H4]. split; [apply Z.lor_nonneg; lia|].
  destruct (decide (Z.lor x y = 0)%Z) as [->|Hn]; [lia|].
  assert (0 <= Z.lor x y)%Z by (apply Z.lor_nonneg; lia).
  apply Z.log2_lt_pow2; [lia|]. rewrite Z.log2_lor by lia.
  apply Z.max_lub_lt; (destruct (decide (x = 0)%Z) as [->|], (decide (y = 0)%Z) as [->|];
    simpl; try lia; apply Z.log2_lt_pow2; lia).
Qed.

(** A non-zero word has a set bit, which [countr_zero] finds. *)
Lemma countr_zero_spec x : in_range 64 x -> x <> 0%Z ->
  countr_zero x < 64 /\ Z.testbit x (Z.of_nat (countr_zero x)) = true.
Proof.
  intros Hr Hx. unfold countr_zero. destruct (find _ (seq 0 64)) as [i|] eqn:E.
  - apply find_some in E as [Hin Hb]. apply in_seq in Hin. split; [lia|done].
  - exfalso. apply Hx, Z.bits_inj_0. intros k.
    destruct (decide (k < 0)%Z); [by apply Z.testbit_neg_r|].
    destruct (decide (64 <= k)%Z); [by apply testbit_high|].
    rewrite <- (Z2Nat.id k) by lia.
    apply (find_none _ _ E (Z.to_nat k)), in_seq. lia.
Qed.

Lemma land_zero x y : Z.land x y = 0%Z <-> forall k, (0 <= k)%Z -> Z.testbit x k && Z.testbit y k = false.
Proof.
  split.
  - intros E k Hk. by rewrite <- Z.land_spec, E, Z.bits_0.
  - intros H. apply Z.bits_inj_0. intros k. rewrite Z.land_spec.
    destruct (decide (k < 0)%Z); [by rewrite Z.testbit_neg_r|]. apply H. lia.
Qed.

Lemma all_ones_bits k : (0 <= k)%Z -> Z.testbit all_ones k = bool_decide (k < 64)%Z.
Proof.
  intros Hk. change all_ones with (Z.ones 64). case_bool_decide.
  - by rewrite Z.ones_spec_low by lia.
  - by rewrite Z.ones_spec_high by lia.
Qed.

Lemma shifted_one n k : (0 <= k)%Z -> Z.testbit (Z.shiftl 1 (Z.of_nat n)) k = bool_decide (k = Z.of_nat n).
Proof.
  intros Hk. rewrite Z.shiftl_1_l. case_bool_decide as E.
  - subst k. by rewrite Z.pow2_bits_true by lia.
  - by rewrite Z.pow2_bits_false.
Qed.

Lemma not64_bits n k : (0 <= k < 64)%Z ->
  Z.testbit (not64 (Z.shiftl 1 (Z.of_nat n))) k = bool_decide (k <> Z.of_nat n).
Proof.
  intros Hk. unfold not64. rewrite Z.ldiff_spec, all_ones_bits, shifted_one by lia.
  rewrite bool_decide_true by lia. simpl. repeat case_bool_decide; done.
Qed.

Lemma high_mask_bits n k : (0 <= k < 64)%Z -> Z.testbit (high_mask n) k = bool_decide (Z.of_nat n <= k)%Z.
Proof.
  intros Hk. unfold high_mask. rewrite Z.land_spec, Z.shiftl_spec, (all_ones_bits k) by lia.
  rewrite (bool_decide_true (k < 64)%Z), andb_true_r by lia.
  case_bool_decide.
  - rewrite all_ones_bits by lia. rewrite bool_decide_true; [done|lia].
  - apply Z.testbit_neg_r. lia.
Qed.

Lemma low_mask_bits n k : (0 <= k)%Z -> Z.testbit (low_mask n) k = bool_decide (k < Z.of_nat n)%Z.
Proof.
  intros Hk. unfold low_mask. rewrite Z.shiftl_1_l.
  replace (2 ^ Z.of_nat n - 1)%Z with (Z.ones (Z.of_nat n)) by (rewrite Z.ones_equiv; lia).
  case_bool_decide; [by rewrite Z.ones_spec_low by lia|by rewrite Z.ones_spec_high by lia].
Qed.

(** Position of a bit. *)
Lemma bit_position i k : k < 64 -> (i * 64 + k) / 64 = i /\ Init.Nat.modulo (i * 64 + k) 64 = k.
Proof.
  intros Hk. rewrite Nat.div_add_l, Nat.div_small, Nat.add_0_r by lia. split; [done|].
  rewrite Nat.add_comm, Nat.Div0.mod_add. by apply Nat.mod_small.
Qed.

Lemma member_at b i k x : words b !! i = Some x -> k < 64 ->
  member b (i * 64 + k) <-> Z.testbit x (Z.of_nat k) = true.
Proof.
  intros Hi Hk. unfold member. destruct (bit_position i k Hk) as [-> ->]. rewrite Hi. split.
  - by intros (y & [= <-] & ?).
  - eauto.
Qed.

Lemma member_split w : w = (w / 64) * 64 + Init.Nat.modulo w 64 /\ Init.Nat.modulo w 64 < 64.
Proof.
  split; [|by apply Nat.mod_upper_bound]. rewrite (Nat.mul_comm _ 64). apply Nat.div_mod_eq.
Qed.

Lemma member_lt b w : bm_ok b -> member b w -> w < bit_count b.
Proof.
  intros Hok (x & Hx & Hb). destruct (member_split w) as [Hw Hk]. rewrite Hw.
  by apply (bo_tail b Hok _ x).
Qed.

Lemma word_lt b w : bm_ok b -> w < bit_count b -> w / 64 < word_count b.
Proof.
  intros _ Hw. unfold word_count. apply Nat.div_lt_upper_bound; [lia|].
  pose proof (Nat.div_mod_eq (bit_count b + 63) 64).
  pose proof (Nat.mod_upper_bound (bit_count b + 63) 64). lia.
Qed.

Lemma word_at b i : bm_ok b -> i < word_count b -> exists x, words b !! i = Some x /\ in_range 64 x.
Proof.
  intros Hok Hi. destruct (lookup_lt_is_Some_2 (words b) i) as [x Hx]; [by rewrite bo_len|].
  exists x. split; [done|]. by apply (bo_range b Hok i).
Qed.

(** A changed word changes exactly its members. *)
Lemma member_set_word b i x y w :
  words b !! i = Some x -> member (set_word b i y) w <->
  (w / 64 = i /\ Z.testbit y (Z.of_nat (Init.Nat.modulo w 64)) = true \/ w / 64 <> i /\ member b w).
Proof.
  intros Hi. unfold member, set_word. simpl. destruct (decide (w / 64 = i)) as [->|Hne].
  - rewrite list_lookup_insert_eq by (by eapply lookup_lt_Some). split.
    + intros (z & [= <-] & ?). by left.
    + intros [[_ ?]|[? _]]; [eauto|done].
  - rewrite list_lookup_insert_ne by done. split; [by right|by intros [[? _]|[_ ?]]].
Qed.

Lemma set_word_ok b i x y :
  bm_ok b -> words b !! i = Some x -> in_range 64 y ->
  (forall k, k < 64 -> Z.testbit y (Z.of_nat k) = true -> i * 64 + k < bit_count b) ->
  bm_ok (set_word b i y).
Proof.
  intros [H1 H2 H3] Hi Hy Hk. split; simpl; [by rewrite length_insert| |].
  - intros j z Hj. destruct (decide (i = j)) as [->|].
    + rewrite list_lookup_insert_eq in Hj by (by eapply lookup_lt_Some). by injection Hj as <-.
    + rewrite list_lookup_insert_ne in Hj by done. eauto.
  - intros j z k Hj Hk2 Hb. destruct (decide (i = j)) as [->|].
    + rewrite list_lookup_insert_eq in Hj by (by eapply lookup_lt_Some). injection Hj as <-. auto.
    + rewrite list_lookup_insert_ne in Hj by done. eauto.
Qed.

Lemma flag_member b w x : words b !! (w / 64) = Some x ->
  Z.land x (bit w) <> 0%Z <-> member b w.
Proof.
  intros Hx. unfold member. rewrite Hx. rewrite land_zero. split.
  - intros Hz. exists x. split; [done|]. destruct (Z.testbit x _) eqn:E; [done|exfalso].
    apply Hz. intros k Hk. unfold bit. rewrite shifted_one by done. case_bool_decide; [|by rewrite andb_false_r].
    subst k. by rewrite E.
  - intros (y & [= <-] & Hb) Hz. specialize (Hz (Z.of_nat (Init.Nat.modulo w 64)) ltac:(lia)).
    unfold bit in Hz. by rewrite shifted_one, bool_decide_true, Hb in Hz by (done || lia).
Qed.

Lemma set_run b w : bm_ok b -> w < bit_count b ->
  exists f b', bm_set w b = Some (f, b') /\ bm_ok b' /\ (f = true <-> ~ member b w) /\
    forall v, member b' v <-> v = w \/ member b v.
Proof.
  intros Hok Hw. destruct (word_at b (w / 64) Hok) as (x & Hx & Hr); [by apply word_lt|].
  unfold bm_set, word_of. rewrite decide_False by lia. rewrite Hx. simpl.
  destruct (member_split w) as [Hws Hk].
  eexists _, _. split; [done|]. split; [|split].
  - apply (set_word_ok b _ x); [done|done| |].
    + apply lor_range; [done|]. unfold bit. rewrite Z.shiftl_1_l. split; [lia|].
      apply Z.pow_lt_mono_r; lia.
    + intros k Hk2. rewrite Z.lor_spec. unfold bit. rewrite shifted_one by lia.
      case_bool_decide as E; [intros _|rewrite orb_false_r; by apply (bo_tail b Hok)].
      assert (k = Init.Nat.modulo w 64) as -> by lia. lia.
  - rewrite <- (flag_member b w x Hx), bool_decide_eq_true. destruct (decide (Z.land x (bit w) = 0%Z)); tauto.
  - intros v. rewrite (member_set_word b _ x) by done. rewrite Z.lor_spec. unfold bit.
    rewrite shifted_one by lia. destruct (member_split v) as [Hvs Hkv]. split.
    + intros [[Hd Hb]|[? ?]]; [|by right]. case_bool_decide as E.
      * left. rewrite Hvs, Hws, Hd. lia.
      * rewrite orb_false_r in Hb. right. exists x. by rewrite Hd.
    + intros [->|Hm]; [left; split; [done|]; by rewrite bool_decide_true, orb_true_r by done|].
      destruct (decide (v / 64 = w / 64)) as [Hd|]; [left|by right]. split; [done|].
      destruct Hm as (y & Hy & Hb). rewrite Hd, Hx in Hy. injection Hy as <-. by rewrite Hb.
Qed.

Lemma clear_word_run b i x k : bm_ok b -> words b !! i = Some x -> k < 64 ->
  let b' := set_word b i (Z.land x (not64 (Z.shiftl 1 (Z.of_nat k)))) in
  bm_ok b' /\ forall v, member b' v <-> v <> i * 64 + k /\ member b v.
Proof.
  intros Hok Hx Hk b'. pose proof (bo_range b Hok i x Hx) as Hr.
  assert (Hbits : forall j, j < 64 -> Z.testbit (Z.land x (not64 (Z.shiftl 1 (Z.of_nat k)))) (Z.of_nat j)
    = Z.testbit x (Z.of_nat j) && bool_decide (j <> k)).
  { intros j Hj. rewrite Z.land_spec, not64_bits by lia. f_equal. apply bool_decide_ext. lia. }
  split.
  - apply (set_word_ok b i x); [done|done| |].
    + apply land_range; [done|]. unfold not64. apply Z.ldiff_nonneg. left. unfold all_ones. lia.
    + intros j Hj. rewrite Hbits by done. intros [? _]%andb_true_iff. by apply (bo_tail b Hok i x).
  - intros v. unfold b'. rewrite (member_set_word b i x) by done.
    destruct (member_split v) as [Hvs Hkv]. split.
    + intros [[Hd Hb]|[Hd Hm]].
      * rewrite Hbits in Hb by done. apply andb_true_iff in Hb as [Hb Hne%bool_decide_eq_true].
        split; [lia|]. exists x. by rewrite Hd.
      * split; [|done]. intros ->. apply Hd. by apply bit_position.
    + intros [Hne Hm]. destruct (decide (v / 64 = i)) as [Hd|]; [left|by right]. split; [done|].
      rewrite Hbits by done. destruct Hm as (y & Hy & Hb). rewrite Hd, Hx in Hy. injection Hy as <-.
      rewrite Hb, bool_decide_true; [done|]. lia.
Qed.

Lemma clear_run b w : bm_ok b -> w < bit_count b ->
  exists f b', bm_clear w b = Some (f, b') /\ bm_ok b' /\ (f = true <-> member b w) /\
    forall v, member b' v <-> v <> w /\ member b v.
Proof.
  intros Hok Hw. destruct (word_at b (w / 64) Hok) as (x & Hx & Hr); [by apply word_lt|].
  unfold bm_clear, word_of. rewrite decide_False by lia. rewrite Hx. simpl.
  destruct (member_split w) as [Hws Hk].
  destruct (clear_word_run b (w / 64) x (Init.Nat.modulo w 64) Hok Hx Hk) as [Hok' Hm].
  rewrite <- Hws in Hm. eexists _, _. split; [done|]. split; [done|]. split; [|done].
  by rewrite <- (flag_member b w x Hx), bool_decide_eq_true.
Qed.

Lemma test_run b w : bm_ok b ->
  exists f, bm_test w b = Some f /\ (f = true <-> member b w).
Proof.
  intros Hok. unfold bm_test, word_of. case_decide as Hw.
  - exists false. split; [done|]. split; [done|]. intros Hm. apply member_lt in Hm; [lia|done].
  - destruct (word_at b (w / 64) Hok) as (x & Hx & Hr); [apply word_lt; [done|lia]|].
    rewrite Hx. simpl. eexists. split; [done|].
    by rewrite <- (flag_member b w x Hx), bool_decide_eq_true.
Qed.

(** ** Searching *)

(** A found bit of a masked word. *)
Lemma masked_found b i x m : bm_ok b -> words b !! i = Some x -> (0 <= m)%Z -> Z.land x m <> 0%Z ->
  member b (i * 64 + countr_zero (Z.land x m)) /\
  i * 64 + countr_zero (Z.land x m) < bit_count b /\
  countr_zero (Z.land x m) < 64 /\ Z.testbit m (Z.of_nat (countr_zero (Z.land x m))) = true.
Proof.
  intros Hok Hx Hm Hn. pose proof (bo_range b Hok i x Hx) as Hr.
  destruct (countr_zero_spec (Z.land x m) (land_range _ _ Hr Hm) Hn) as [Hk Hb].
  rewrite Z.land_spec in Hb. apply andb_true_iff in Hb as [Hb1 Hb2].
  split; [by apply (member_at b i _ x)|]. split; [by apply (bo_tail b Hok i x)|done].
Qed.

(** A masked word that is zero has no member at the mask's positions. *)
Lemma masked_none b i x m w : words b !! i = Some x -> Z.land x m = 0%Z -> w / 64 = i ->
  Z.testbit m (Z.of_nat (Init.Nat.modulo w 64)) = true -> ~ member b w.
Proof.
  intros Hx Hz Hw Hm (y & Hy & Hb). rewrite Hw, Hx in Hy. injection Hy as <-.
  rewrite land_zero in Hz. specialize (Hz (Z.of_nat (Init.Nat.modulo w 64)) ltac:(lia)).
  by rewrite Hb, Hm in Hz.
Qed.

Lemma mask_nonneg n : (0 <= high_mask n)%Z /\ (0 <= low_mask n)%Z /\ (0 <= all_ones)%Z.
Proof.
  unfold high_mask, low_mask, all_ones. split; [apply Z.land_nonneg; right; lia|].
  split; [|lia]. rewrite Z.shiftl_1_l. pose proof (Z.pow_pos_nonneg 2 (Z.of_nat n)). lia.
Qed.

Lemma land_ones x : in_range 64 x -> Z.land x all_ones = x.
Proof. intros [H1 H2]. change all_ones with (Z.ones 64). rewrite Z.land_ones by lia. apply Z.mod_small. lia. Qed.

(** Every word but the first is visited in a rotation. *)
Lemma rotation fw i n : fw < n -> i < n -> i <> fw ->
  exists o, 1 <= o <= n - 1 /\ Init.Nat.modulo (fw + o) n = i.
Proof.
  intros Hf Hi Hne. destruct (decide (fw < i)).
  - exists (i - fw). split; [lia|]. rewrite Nat.mod_small; lia.
  - exists (i + n - fw). split; [lia|]. replace (fw + (i + n - fw)) with (i + 1 * n) by lia.
    rewrite Nat.Div0.mod_add. by apply Nat.mod_small.
Qed.

Lemma find_others_run b fw n : forall o, bm_ok b -> fw < word_count b ->
  exists r, find_others n o fw b = Some r /\
    match r with
    | Some w => member b w
    | None => forall w k, o <= k < o + n -> w / 64 = Init.Nat.modulo (fw + k) (word_count b) -> ~ member b w
    end.
Proof.
  induction n as [|n IH]; intros o Hok Hf; simpl.
  { exists None. split; [done|]. intros w k Hk. lia. }
  set (i := Init.Nat.modulo (fw + o) (word_count b)).
  assert (Hi : i < word_count b) by (apply Nat.mod_upper_bound; lia).
  destruct (word_at b i Hok Hi) as (x & Hx & Hr). rewrite Hx. simpl.
  case_decide as Hz.
  - destruct (IH (S o) Hok Hf) as (r & -> & Hspec). exists r. split; [done|].
    destruct r as [w|]; [done|]. intros w k Hk Hw. destruct (decide (k = o)) as [->|].
    + apply (masked_none b i x all_ones); [done|by rewrite Hz, Z.land_0_l|done|].
      rewrite all_ones_bits, bool_decide_true; [done| |lia].
      pose proof (Nat.mod_upper_bound w 64). lia.
    + apply (Hspec w k); [lia|done].
  - destruct (masked_found b i x all_ones Hok Hx) as (Hm & Hlt & _);
      [apply (mask_nonneg 0)|by rewrite land_ones|]. rewrite land_ones in Hm, Hlt by done.
    rewrite decide_True by done. eexists. split; [done|]. done.
Qed.

Lemma start_word b s : 0 < bit_count b ->
  Init.Nat.modulo s (bit_count b) / 64 < word_count b.
Proof.
  intros Hb. pose proof (Nat.mod_upper_bound s (bit_count b) ltac:(lia)).
  unfold word_count. apply Nat.div_lt_upper_bound; [lia|].
  pose proof (Nat.div_mod_eq (bit_count b + 63) 64).
  pose proof (Nat.mod_upper_bound (bit_count b + 63) 64). lia.
Qed.

(** The three searched parts cover the bitmap. *)
Lemma search_covers b fw fb x w :
  bm_ok b -> fw < word_count b -> words b !! fw = Some x ->
  Z.land x (high_mask fb) = 0%Z ->
  (forall v k, 1 <= k < 1 + (word_count b - 1) -> v / 64 = Init.Nat.modulo (fw + k) (word_count b) -> ~ member b v) ->
  ~ (fb <> 0 /\ Z.land x (low_mask fb) <> 0%Z) -> ~ member b w.
Proof.
  intros Hok Hf Hx Hhi Hoth Hlo Hm. pose proof (member_lt b w Hok Hm) as Hw.
  pose proof (word_lt b w Hok Hw) as Hwd. destruct (decide (w / 64 = fw)) as [Hd|Hne].
  - assert (Hk : Init.Nat.modulo w 64 < 64) by (apply Nat.mod_upper_bound; lia).
    destruct (decide (fb <= Init.Nat.modulo w 64)).
    + apply (masked_none b fw x (high_mask fb) w Hx Hhi Hd); [|done].
      rewrite high_mask_bits by lia. apply bool_decide_true. lia.
    + destruct (decide (Z.land x (low_mask fb) = 0%Z)) as [Hz|Hz]; [|apply Hlo; split; [lia|done]].
      apply (masked_none b fw x (low_mask fb) w Hx Hz Hd); [|done].
      rewrite low_mask_bits by lia. apply bool_decide_true. lia.
  - destruct (rotation fw (w / 64) (word_count b) Hf Hwd Hne) as (o & Ho & E).
    by apply (Hoth w o); [lia|..].
Qed.

Lemma find_from_run s b : bm_ok b ->
  exists r, find_from s b = Some r /\
    match r with Some w => member b w /\ w < bit_count b | None => forall w, ~ member b w end.
Proof.
  intros Hok. unfold find_from. case_decide as H0.
  { exists None. split; [done|]. intros w Hm. apply member_lt in Hm; [lia|done]. }
  set (st := Init.Nat.modulo s (bit_count b)). set (fw := st / 64). set (fb := Init.Nat.modulo st 64).
  assert (Hf : fw < word_count b) by (apply start_word; lia).
  destruct (word_at b fw Hok Hf) as (x & Hx & Hr). rewrite Hx. simpl.
  destruct (mask_nonneg fb) as (Hn1 & Hn2 & _).
  case_decide as Hhi.
  { destruct (masked_found b fw x _ Hok Hx Hn1 Hhi) as (? & ? & _). eexists. split; [done|]. done. }
  destruct (find_others_run b fw (word_count b - 1) 1 Hok Hf) as (r & -> & Hspec). simpl.
  destruct r as [w|]; [exists (Some w); split; [done|]; split; [done|by apply member_lt]|].
  case_decide as Hlo.
  - destruct Hlo as [_ Hlo]. destruct (masked_found b fw x _ Hok Hx Hn2 Hlo) as (? & ? & _).
    eexists. split; [done|]. done.
  - exists None. split; [done|]. intros w. by apply (search_covers b fw fb x w).
Qed.

(** ** Claiming *)

(** What a claim returns: a member that it removed, or nothing. *)
Definition claimed b (r : option worker_id) b' : Prop :=
  match r with
  | Some w => member b w /\ bm_ok b' /\ forall v, member b' v <-> v <> w /\ member b v
  | None => b' = b
  end.

Lemma claim_word_run b i m : bm_ok b -> i < word_count b -> (0 <= m)%Z ->
  exists r b', claim_from_word i m b = Some (r, b') /\ claimed b r b' /\
    (r = None -> exists x, words b !! i = Some x /\ Z.land x m = 0%Z).
Proof.
  intros Hok Hi Hm. destruct (word_at b i Hok Hi) as (x & Hx & Hr).
  unfold claim_from_word. rewrite Hx. simpl. case_decide as Hz.
  - exists None, b. split; [done|]. split; [done|]. eauto.
  - destruct (masked_found b i x m Hok Hx Hm Hz) as (Hmem & Hlt & Hk & _).
    rewrite decide_True by done.
    destruct (clear_word_run b i x _ Hok Hx Hk) as [Hok' Hv].
    eexists (Some _), _. split; [done|]. split; [done|]. done.
Qed.

Lemma claim_others_run b fw n : forall o, bm_ok b -> fw < word_count b ->
  exists r b', claim_others n o fw b = Some (r, b') /\ claimed b r b' /\
    (r = None -> forall w k, o <= k < o + n ->
       w / 64 = Init.Nat.modulo (fw + k) (word_count b) -> ~ member b w).
Proof.
  induction n as [|n IH]; intros o Hok Hf; simpl.
  { exists None, b. split; [done|]. split; [done|]. lia. }
  set (i := Init.Nat.modulo (fw + o) (word_count b)).
  assert (Hi : i < word_count b) by (apply Nat.mod_upper_bound; lia).
  destruct (claim_word_run b i all_ones Hok Hi) as (r & b' & -> & Hc & Hnone); [apply (mask_nonneg 0)|].
  simpl. destruct r as [w|].
  { rewrite decide_True by done. exists (Some w), b'. split; [done|]. split; [done|]. done. }
  rewrite decide_False by (intros Hn; by apply Hn). simpl in Hc. subst b'.
  destruct (Hnone eq_refl) as (x & Hx & Hz).
  destruct (IH (S o) Hok Hf) as (r & b' & -> & Hc & Hrest). exists r, b'. split; [done|]. split; [done|].
  intros -> w k Hk Hw. destruct (decide (k = o)) as [->|].
  - apply (masked_none b i x all_ones); [done|done|done|].
    rewrite all_ones_bits, bool_decide_true; [done| |lia].
    pose proof (Nat.mod_upper_bound w 64). lia.
  - apply (Hrest eq_refl w k); [lia|done].
Qed.

Lemma claim_from_run s b : bm_ok b ->
  exists r b', claim_from s b = Some (r, b') /\ claimed b r b' /\
    (r = None -> forall w, ~ member b w).
Proof.
  intros Hok. unfold claim_from. case_decide as H0.
  { exists None, b. split; [done|]. split; [done|]. intros _ w Hm.
    apply member_lt in Hm; [lia|done]. }
  set (st := Init.Nat.modulo s (bit_count b)). set (fw := st / 64). set (fb := Init.Nat.modulo st 64).
  assert (Hf : fw < word_count b) by (apply start_word; lia).
  destruct (mask_nonneg fb) as (Hn1 & Hn2 & _).
  destruct (claim_word_run b fw _ Hok Hf Hn1) as (r1 & b1 & -> & Hc1 & Hnone1). simpl.
  destruct r1 as [w|]; [rewrite decide_True by done; by exists (Some w), b1|].
  rewrite decide_False by (intros Hn; by apply Hn). simpl in Hc1. subst b1.
  destruct (Hnone1 eq_refl) as (x & Hx & Hz1).
  destruct (claim_others_run b fw (word_count b - 1) 1 Hok Hf) as (r2 & b2 & -> & Hc2 & Hnone2). simpl.
  destruct r2 as [w|]; [rewrite decide_True by done; by exists (Some w), b2|].
  rewrite decide_False by (intros Hn; by apply Hn). simpl in Hc2. subst b2.
  case_decide as Hfb.
  - destruct (claim_word_run b fw _ Hok Hf Hn2) as (r3 & b3 & -> & Hc3 & Hnone3).
    exists r3, b3. split; [done|]. split; [done|]. intros -> w.
    destruct (Hnone3 eq_refl) as (y & Hy & Hz3). assert (y = x) as -> by congruence.
    apply (search_covers b fw fb x w Hok Hf Hx Hz1); [by apply Hnone2|]. intros [_ ?]. done.
  - exists None, b. split; [done|]. split; [done|]. intros _ w.
    apply (search_covers b fw fb x w Hok Hf Hx Hz1); [by apply Hnone2|]. intros [? _]. done.
Qed.

Lemma new_bitmap_ok n : bm_ok (new_bitmap n) /\ forall w, ~ member (new_bitmap n) w.
Proof.
  assert (Hz : forall i x, words (new_bitmap n) !! i = Some x -> x = 0%Z).
  { intros i x Hx. by apply lookup_replicate in Hx as [-> _]. }
  split.
  - split.
    + simpl. by rewrite length_replicate.
    + intros i x ->%Hz. unfold in_range. lia.
    + intros i x k ->%Hz. by rewrite Z.bits_0.
  - intros w (x & ->%Hz & Hb). by rewrite Z.bits_0 in Hb.
Qed.
