(* ===== verification/GlobalQueue.v ===== *)
(** * The global run queue (include/cio/detail/queue.hpp)

    [GlobalRunQueue]: a deque under a mutex with a size counter beside it. The
    producers count an item only after they dropped the lock. *)

From S2P Require Import Prelude RunQueue.

Set Default Proof Using "Type".

Record GlobalRunQueue := mkGlobal {
  size_ : Z;
  queue_ : list item
}.

Definition new_global : GlobalRunQueue := mkGlobal 0 [].

(** The locked part of [push] / [push_batch], and the count that follows it. *)
Definition g_enqueue (xs : list item) (g : GlobalRunQueue) : GlobalRunQueue :=
  mkGlobal (size_ g) (queue_ g ++ xs).
Definition g_count (n : Z) (g : GlobalRunQueue) : GlobalRunQueue :=
  mkGlobal (u32 (size_ g + n)) (queue_ g).

Definition g_push (x : item) (g : GlobalRunQueue) : GlobalRunQueue := g_count 1 (g_enqueue [x] g).
Definition g_push_batch (xs : list item) (g : GlobalRunQueue) : GlobalRunQueue :=
  if decide (xs = []) then g else g_count (Z.of_nat (length xs)) (g_enqueue xs g).

Definition g_size (g : GlobalRunQueue) : Z := size_ g.
Definition g_empty (g : GlobalRunQueue) : bool := bool_decide (size_ g = 0%Z).

(** The locked part of [pop], after [empty()] was false. *)
Definition g_pop_locked (g : GlobalRunQueue) : option item * GlobalRunQueue :=
  match queue_ g with
  | [] => (None, g)
  | x :: q => (Some x, mkGlobal (u32 (size_ g - 1)) q)
  end.

Definition g_pop (g : GlobalRunQueue) : option item * GlobalRunQueue :=
  if g_empty g then (None, g) else g_pop_locked g.

(** How many items a batch takes. *)
Definition batch_size (available max share : Z) : Z :=
  let n := u32 (available / (if decide (share = 0%Z) then 1 else share) + 1) in
  let n := Z.min n available in
  Z.min n max.

Definition g_pop_batch_locked (max share : Z) (g : GlobalRunQueue) : list item * GlobalRunQueue :=
  let available := u32 (Z.of_nat (length (queue_ g))) in
  if decide (available = 0%Z) then ([], g)
  else let n := batch_size available max share in
       (take (Z.to_nat n) (queue_ g), mkGlobal (u32 (size_ g - n)) (drop (Z.to_nat n) (queue_ g))).

Definition g_pop_batch (max share : Z) (g : GlobalRunQueue) : list item * GlobalRunQueue :=
  if g_empty g then ([], g) else g_pop_batch_locked max share g.

(** ** Concurrent use

    [uncounted] is the number of items pushed whose producer has not yet added
    them to [size_]; [enqueued] and [dequeued] log the traffic. *)
Record GSys := mkGSys {
  global : GlobalRunQueue;
  uncounted : list nat;
  enqueued : list item;
  dequeued : list item
}.

Inductive g_step : GSys -> GSys -> Prop :=
  | gs_enqueue g un en de xs :
      xs <> [] -> (Z.of_nat (length (queue_ g) + length xs) < 2 ^ 32)%Z ->
      g_step (mkGSys g un en de) (mkGSys (g_enqueue xs g) (un ++ [length xs]) (en ++ xs) de)
  | gs_count g un1 n un2 en de :
      g_step (mkGSys g (un1 ++ n :: un2) en de) (mkGSys (g_count (Z.of_nat n) g) (un1 ++ un2) en de)
  | gs_pop g un en de x g' :
      g_pop_locked g = (Some x, g') ->
      g_step (mkGSys g un en de) (mkGSys g' un en (de ++ [x]))
  | gs_batch g un en de max share xs g' :
      (0 <= max)%Z -> (0 <= share)%Z -> g_pop_batch_locked max share g = (xs, g') ->
      g_step (mkGSys g un en de) (mkGSys g' un en (de ++ xs)).

Definition g_init (s : GSys) : Prop := s = mkGSys new_global [] [] [].

Definition g_inv (s : GSys) : Prop :=
  enqueued s = dequeued s ++ queue_ (global s) /\
  (Z.of_nat (length (queue_ (global s))) < 2 ^ 32)%Z /\
  size_ (global s) = u32 (Z.of_nat (length (queue_ (global s))) - Z.of_nat (sum_list (uncounted s))).

Lemma batch_size_bounds available max share :
  (0 < available < 2 ^ 32)%Z -> (0 <= max)%Z -> (0 <= share)%Z ->
  (0 <= batch_size available max share <= Z.min available max)%Z.
Proof.
  intros Ha Hm Hs. unfold batch_size.
  set (d := if decide (share = 0%Z) then 1%Z else share).
  pose proof (wrap_range 32 (available / d + 1) ltac:(lia)) as Hr. unfold in_range in Hr. lia.
Qed.

Lemma g_step_inv s s' : g_inv s -> g_step s s' -> g_inv s'.
Proof.
  intros (Hl & Hsm & Hsz) Hst. unfold g_inv. destruct Hst as
    [g un en de xs Hxs Hb|g un1 n un2 en de|g un en de x g' Hp|g un en de max share xs g' Hm Hsh Hp];
    simpl in *.
  - split; [by rewrite Hl, app_assoc|]. rewrite length_app. split; [lia|].
    rewrite Hsz, sum_list_with_app. simpl. f_equal. lia.
  - split; [done|]. split; [done|]. rewrite Hsz, wrap_add_l.
    rewrite !sum_list_with_app. simpl. f_equal. lia.
  - unfold g_pop_locked in Hp. destruct (queue_ g) as [|y q] eqn:E; [done|]. injection Hp as <- <-.
    simpl in *. split; [by rewrite Hl, <- app_assoc|]. split; [lia|].
    rewrite Hsz, wrap_sub_l. f_equal. lia.
  - unfold g_pop_batch_locked in Hp. rewrite wrap_small in Hp by (unfold in_range; lia).
    case_decide as H0; injection Hp as <- <-; [by rewrite app_nil_r|]. simpl.
    pose proof (batch_size_bounds (Z.of_nat (length (queue_ g))) max share ltac:(lia) Hm Hsh) as Hbs.
    set (k := batch_size _ max share) in *.
    split; [by rewrite Hl, <- app_assoc, take_drop|]. rewrite length_drop. split; [lia|].
    rewrite Hsz, wrap_sub_l. f_equal. lia.
Qed.

Lemma g_reachable_inv s : reachable g_init g_step s -> g_inv s.
Proof.
  apply (reachable_invariant g_inv); [|intros ? ? _; apply g_step_inv]. by intros s0 ->.
Qed.
