(* ===== verification/QueueProps.v ===== *)
(** * What the run queues and the bitmap promise *)

From S2P Require Import Prelude RunQueue Inbox GlobalQueue Bitmap.

Set Default Proof Using "Type".

(** C14: as long as no consumer sleeps, between its snapshot of the head and its
    CAS, while [2 ^ 32] further items are pushed, any interleaving of the owner's
    push steps with the snapshot, copy and CAS steps of any number of consumers
    keeps the local ring a FIFO queue from which nothing is lost or taken twice:
    the items taken so far, in the order of the successful CASes, are exactly the
    first ones pushed, and the ring holds the remaining ones, at most a capacity.
    The counters may wrap any number of times; [full_turn_duplicates] shows that
    the condition is needed. *)
Theorem local_queue_linearizable s :
  reachable q_init (fun s s' => q_step s s' /\ no_full_turn s) s ->
  pushed s = taken s ++ drop (length (taken s)) (pushed s) /\
  lrep (queue s) (drop (length (taken s)) (pushed s)) /\
  (Z.of_nat (length (pushed s)) <= Z.of_nat (length (taken s)) + kLocalQueueCapacity)%Z.
Proof.
  intros Hr%q_reachable_inv. pose proof (taken_bound _ Hr). destruct Hr as [Hf _ Hrep _ _].
  split; [rewrite Hf at 1; by rewrite take_drop|]. split; [done|].
  pose proof (lr_fits _ _ Hrep) as Hfit. rewrite length_drop in Hfit. lia.
Qed.

Lemma lrep_fresh : lrep fresh_local [].
Proof. split; simpl; try done. Qed.

(** The owner pushes [x] with nothing queued. *)
Lemma push_reachable_q q ps tk ts x :
  reachable q_init q_step (mkQSys q ps tk OIdle ts) -> lrep q [] ->
  exists q', reachable q_init q_step (mkQSys q' (ps ++ [x]) tk OIdle ts) /\
    lrep q' [x] /\ head_ctr q' = head_ctr q.
Proof.
  intros Hr Hq. exists (publish (write_slot x q)). pose proof (lrep_count _ _ Hq) as Hc. simpl in Hc.
  split; [|split; [by apply (lrep_push q []); [|done]|done]].
  eapply reachable_step; [|by apply q_publish]. eapply reachable_step; [|by apply q_write].
  eapply reachable_step; [exact Hr|]. apply q_check. unfold local_full. by rewrite Hc.
Qed.

(** Consumer [i] copies the only item, up to its CAS. *)
Lemma copy_reachable q ps tk o ts i x :
  reachable q_init q_step (mkQSys q ps tk o ts) -> lrep q [x] -> ts !! i = Some TIdle ->
  reachable q_init q_step (mkQSys q ps tk o (<[i := TCopy (head_ctr q) 1 [x] (length tk)]> ts)).
Proof.
  intros Hr Hq Hi. pose proof (lookup_lt_Some _ _ _ Hi) as Hlt.
  pose proof (lrep_count _ _ Hq) as Hc. simpl in Hc. pose proof (lr_slots _ _ Hq 0 x eq_refl) as Hs.
  rewrite Z.add_0_r in Hs.
  assert (H1 := reachable_step _ _ _ _ Hr (q_head q ps tk o ts i plan_pop Hi cp_pop)).
  assert (Hplan : plan_pop (head_ctr q) (tail_ctr q) = Take 1).
  { unfold plan_pop. rewrite decide_False; [done|]. intros E. by rewrite E, Z.sub_diag in Hc. }
  assert (H2 := reachable_step _ _ _ _ H1 (q_tail q ps tk o _ i _ _ _ 1 (list_lookup_insert_eq _ _ _ Hlt) Hplan)).
  rewrite list_insert_insert_eq in H2.
  assert (Hslot : buf q !! slot_of (u32 (head_ctr q + 0)) = Some x) by by rewrite Z.add_0_r.
  assert (H3 := reachable_step _ _ _ _ H2 (q_copy q ps tk o _ i (head_ctr q) 1 [] (length tk) x (list_lookup_insert_eq _ _ _ Hlt) ltac:(done) Hslot)).
  by rewrite list_insert_insert_eq in H3.
Qed.

(** ... and with it. *)
Lemma pop_reachable q ps tk o ts i x :
  reachable q_init q_step (mkQSys q ps tk o ts) -> lrep q [x] -> ts !! i = Some TIdle ->
  exists q', reachable q_init q_step (mkQSys q' ps (tk ++ [x]) o ts) /\
    lrep q' [] /\ head_ctr q' = u32 (head_ctr q + 1).
Proof.
  intros Hr Hq Hi. pose proof (lookup_lt_Some _ _ _ Hi) as Hlt.
  exists (mkLocal (u32 (head_ctr q + 1)) (tail_ctr q) (buf q)).
  split; [|split; [by apply (lrep_drop q [x] 1 Hq); simpl|done]].
  pose proof (copy_reachable _ _ _ _ _ _ _ Hr Hq Hi) as H1.
  assert (Hcas : cas_head (head_ctr q) 1 q = Some (mkLocal (u32 (head_ctr q + 1)) (tail_ctr q) (buf q))) by
    (unfold cas_head; by rewrite decide_True by done).
  assert (H2 := reachable_step _ _ _ _ H1 (q_cas q ps tk o _ i (head_ctr q) 1 [x] (length tk) _ (list_lookup_insert_eq _ _ _ Hlt) eq_refl Hcas)).
  by rewrite list_insert_insert_eq, list_insert_id in H2.
Qed.

(** With consumer 0 asleep since it copied the first item, any number of turns
    by consumer 1. *)
Lemma turns_reachable k : exists q,
  reachable q_init q_step (mkQSys q (replicate (S k) 1) (replicate (S k) 1) OIdle [TCopy 0 1 [1] 0; TIdle]) /\
  lrep q [] /\ head_ctr q = u32 (Z.of_nat (S k)).
Proof.
  induction k as [|k (q & Hr & Hq & Hh)].
  - assert (H0 : reachable q_init q_step (mkQSys fresh_local [] [] OIdle [TIdle; TIdle])) by
      (apply reachable_init; by exists 2).
    destruct (push_reachable_q _ _ _ _ 1 H0 lrep_fresh) as (q & Hr & Hq & Hh).
    pose proof (copy_reachable _ _ _ _ _ 0 1 Hr Hq eq_refl) as H1.
    destruct (pop_reachable _ _ _ _ _ 1 1 H1 Hq eq_refl) as (q' & Hr' & Hq' & Hh').
    exists q'. rewrite Hh in *. by split_and!.
  - destruct (push_reachable_q _ _ _ _ 1 Hr Hq) as (q1 & Hr1 & Hq1 & Hh1).
    destruct (pop_reachable _ _ _ _ _ 1 1 Hr1 Hq1 eq_refl) as (q' & Hr' & Hq' & Hh').
    exists q'. rewrite <- !replicate_S_end in Hr'. split; [exact Hr'|]. split; [exact Hq'|].
    rewrite Hh', Hh1, Hh, wrap_add_l. f_equal. lia.
Qed.

(** Beyond a full turn of the counters the CAS of [pop] succeeds although the
    head has moved: consumer 0, asleep for [2 ^ 32] pushes, takes the first item
    a second time and the one at the head is lost. *)
Theorem full_turn_duplicates : exists s l,
  reachable q_init q_step s /\ pushed s = l ++ [2] /\ taken s = l ++ [1] /\ takers s = [TIdle; TIdle].
Proof.
  assert (exists k, Z.of_nat (S k) = 2 ^ 32)%Z as [k Hk].
  { exists (Z.to_nat (2 ^ 32 - 1)). rewrite Nat2Z.inj_succ, Z2Nat.id; lia. }
  destruct (turns_reachable k) as (q & Hr & Hq & Hh). rewrite Hk in Hh. change (u32 (2 ^ 32)) with 0%Z in Hh.
  set (l := replicate (S k) 1) in Hr.
  destruct (push_reachable_q _ _ _ _ 2 Hr Hq) as (q' & Hr' & _ & Hh').
  eexists (mkQSys _ (l ++ [2]) (l ++ [1]) OIdle [TIdle; TIdle]), l. split; [|done].
  eapply reachable_step; [exact Hr'|].
  apply (q_cas q' (l ++ [2]) l OIdle [TCopy 0 1 [1] 0; TIdle] 0 0 1 [1] 0); [done|done|].
  unfold cas_head. rewrite Hh', Hh. by rewrite decide_True by done.
Qed.

(** Without interference the ring operations act on the queue they
    represent: [push] appends unless a capacity is queued, [pop] takes the
    oldest item, [grab] the older half rounded up (at most [max]) and [pop_half]
    the older half rounded down; [size] is the length. *)
Theorem local_queue_refines q l mode max x :
  lrep q l -> (0 < max)%Z ->
  (exists ok mode' q', local_push x mode q = (ok, mode', q') /\
     lrep q' (if ok then l ++ [x] else l) /\
     (ok = true <-> (Z.of_nat (length l) < kLocalQueueCapacity)%Z)) /\
  (l <> [] -> exists q', local_pop q = Some (Take 1, take 1 l, q') /\ lrep q' (drop 1 l)) /\
  (l <> [] -> let n := Z.min ((Z.of_nat (length l) + 1) / 2) max in
     exists q', local_grab max q = Some (Take n, take (Z.to_nat n) l, q') /\ lrep q' (drop (Z.to_nat n) l)) /\
  (2 <= length l -> let n := (Z.of_nat (length l) / 2)%Z in
     exists q', local_pop_half q = Some (Take n, take (Z.to_nat n) l, q') /\ lrep q' (drop (Z.to_nat n) l)) /\
  local_size q = Z.of_nat (length l) /\ local_empty q = bool_decide (l = []).
Proof.
  intros Hr Hmax. pose proof (lrep_count _ _ Hr) as Hc. pose proof (lr_fits _ _ Hr) as Hfit.
  unfold kLocalQueueCapacity in Hfit.
  assert (Hsz : local_size q = Z.of_nat (length l)).
  { unfold local_size, size_of. rewrite Hc. unfold kLocalQueueCapacity. by rewrite decide_False by lia. }
  split; [|split; [|split; [|split; [|split; [done|]]]]].
  - unfold local_push. destruct (local_full q) eqn:E; eexists _, _, _; (split; [done|]).
    + split; [done|]. split; [done|]. unfold local_full in E. rewrite Hc in E.
      apply bool_decide_eq_true in E. lia.
    + split; [apply lrep_push; [done|by eapply not_full]|]. split; [intros _; by eapply not_full|done].
  - intros Hne. apply (take_turn_run plan_pop q l 1 Hr); [|destruct l; simpl; [done|lia]].
    unfold plan_pop. rewrite decide_False; [done|]. intros E. rewrite E, Z.sub_diag in Hc.
    destruct l; [done|]. simpl in Hc. change (u32 0) with 0%Z in Hc. lia.
  - intros Hne n. assert (Hlen : 0 < length l) by (destruct l; simpl; [done|lia]).
    pose proof (Z.div_mod (Z.of_nat (length l) + 1) 2). pose proof (Z.mod_pos_bound (Z.of_nat (length l) + 1) 2).
    pose proof (Z.div_mod (Z.of_nat (length l)) 2). pose proof (Z.mod_pos_bound (Z.of_nat (length l)) 2).
    replace (Take n) with (Take (Z.of_nat (Z.to_nat n))) by (rewrite Z2Nat.id; [done|unfold n; lia]).
    apply (take_turn_run (plan_grab max) q l (Z.to_nat n) Hr); [|unfold n; lia].
    unfold plan_grab. rewrite Hc, (wrap_small 32) by (unfold in_range; lia).
    unfold kLocalQueueCapacity. change (256 / 2)%Z with 128%Z.
    rewrite !decide_False by lia. f_equal. rewrite Z2Nat.id by (unfold n; lia). unfold n. lia.
  - intros Hlen n. pose proof (Z.div_mod (Z.of_nat (length l)) 2).
    pose proof (Z.mod_pos_bound (Z.of_nat (length l)) 2).
    replace (Take n) with (Take (Z.of_nat (Z.to_nat n))) by (rewrite Z2Nat.id; [done|unfold n; lia]).
    apply (take_turn_run plan_half q l (Z.to_nat n) Hr); [|unfold n; lia].
    unfold plan_half. rewrite Hc, decide_False by lia. f_equal. by rewrite Z2Nat.id by (unfold n; lia).
  - unfold local_empty. rewrite Hsz. apply bool_decide_ext. destruct l; simpl; split; (done || lia).
Qed.

(** The remote inbox delivers every frame exactly once and in order of
    reservation: in every reachable state of any number of concurrent producers
    and the owner, what the owner popped is a prefix of what producers reserved,
    at most one capacity is outstanding, a published slot always holds the frame
    of its reservation, and no slot is owned by two producers. *)
Theorem inbox_delivers_in_order s :
  reachable i_init i_step s ->
  reserved s = consumed s ++ drop (length (consumed s)) (reserved s) /\
  length (reserved s) <= length (consumed s) + Z.to_nat kRemoteInboxCapacity /\
  (forall p t, length (consumed s) <= p < length (reserved s) ->
     slots (inbox s) !! inbox_slot (Z.of_nat p) = Some t -> sequence t = Z.of_nat (S p) ->
     reserved s !! p = Some (frame t)) /\
  (forall i j p x y, in_flight (producers s) i p x -> in_flight (producers s) j p y -> i = j).
Proof.
  intros Hi%i_reachable_inv. pose proof (consumed_le _ Hi). destruct Hi as [Hf Hb _ _ _ _ Hw _ Hu _].
  split; [rewrite Hf at 1; by rewrite take_drop|]. split; [exact Hb|]. split; [|exact Hu].
  intros p t Hp Ht Hs. destruct (Hw p ltac:(unfold in_window; lia)) as (t' & Ht' & Ha & _).
  assert (t' = t) as -> by congruence. destruct (Ha ltac:(lia)) as [[E _]|[_ ?]]; [lia|done].
Qed.

(** A producer that turns away saw a genuinely full inbox: whenever the
    sequence it read is behind its position, a whole capacity of frames is
    reserved and not consumed. *)
Theorem inbox_full_only_when_full s i pos x v :
  reachable i_init i_step s -> producers s !! i = Some (PLoaded pos x) ->
  sequence_at (inbox s) pos = Some v -> (difference v pos < 0)%Z ->
  length (reserved s) = length (consumed s) + Z.to_nat kRemoteInboxCapacity.
Proof.
  intros Hr%i_reachable_inv Hi Hv Hd. pose proof (consumed_le _ Hr) as Hle.
  destruct (ii_producers _ Hr i _ Hi) as (p & -> & Hp).
  eapply (full_is_full (inbox s) _ _ (producers s) p v); try done; apply Hr.
Qed.

(** The global queue is FIFO under concurrent pushes and (batch) pops, and
    its counter, which producers update after releasing the lock, is the queue's
    length minus what is still uncounted, so it is exact when no producer is in
    between; a batch never exceeds its limit nor the fair share plus one. *)
Theorem global_queue_fifo s :
  reachable g_init g_step s ->
  enqueued s = dequeued s ++ queue_ (global s) /\
  (uncounted s = [] -> g_size (global s) = Z.of_nat (length (queue_ (global s)))) /\
  forall max share, (0 <= max)%Z -> (0 < share)%Z ->
    let n := Z.of_nat (length (g_pop_batch_locked max share (global s)).1) in
    (n <= max /\ n <= Z.of_nat (length (queue_ (global s))) / share + 1)%Z.
Proof.
  intros (Hl & Hsm & Hsz)%g_reachable_inv. split; [done|]. split.
  - intros E. unfold g_size. rewrite Hsz, E. simpl. rewrite Z.sub_0_r. apply wrap_small.
    unfold in_range. lia.
  - intros max share Hm Hsh n. unfold n, g_pop_batch_locked.
    assert (Hd : (0 <= Z.of_nat (length (queue_ (global s))) / share <= Z.of_nat (length (queue_ (global s))))%Z).
    { split; [apply Z.div_pos; lia|]. apply Z.div_le_upper_bound; [lia|]. nia. }
    rewrite (wrap_small 32 (Z.of_nat _)) by (unfold in_range; lia).
    case_decide as H0; simpl; [lia|].
    pose proof (batch_size_bounds (Z.of_nat (length (queue_ (global s)))) max share ltac:(lia) Hm ltac:(lia)) as Hb.
    rewrite length_take. unfold batch_size in *. rewrite decide_False in * by lia.
    destruct (decide (Z.of_nat (length (queue_ (global s))) / share + 1 < 2 ^ 32)%Z) as [Hs|Hs].
    + rewrite (wrap_small 32 (_ + 1)) in * by (unfold in_range; lia). lia.
    + lia.
Qed.

(** The bitmap is a set of workers: [set] and [clear] change exactly their
    worker and report whether they did, [test] is membership, [find_from] returns
    a member exactly when there is one, wherever the search starts, and
    [claim_from] removes the member it returns, so that one bit is never claimed
    twice, and gives up only on an empty set. *)
Theorem bitmap_is_worker_set b w s :
  bm_ok b -> w < bit_count b ->
  (exists f b', bm_set w b = Some (f, b') /\ bm_ok b' /\ (f = true <-> ~ member b w) /\
     forall v, member b' v <-> v = w \/ member b v) /\
  (exists f b', bm_clear w b = Some (f, b') /\ bm_ok b' /\ (f = true <-> member b w) /\
     forall v, member b' v <-> v <> w /\ member b v) /\
  (exists f, bm_test w b = Some f /\ (f = true <-> member b w)) /\
  (exists r, find_from s b = Some r /\
     match r with Some v => member b v /\ v < bit_count b | None => forall v, ~ member b v end) /\
  (exists r b', claim_from s b = Some (r, b') /\
     match r with
     | Some v => member b v /\ bm_ok b' /\ forall u, member b' u <-> u <> v /\ member b u
     | None => b' = b /\ forall v, ~ member b v
     end).
Proof.
  intros Hok Hw. split; [by apply set_run|]. split; [by apply clear_run|]. split; [by apply test_run|].
  split; [by apply find_from_run|].
  destruct (claim_from_run s b Hok) as (r & b' & Hr & Hc & Hn). exists r, b'. split; [done|].
  destruct r; [done|]. split; [done|]. by apply Hn.
Qed.

(** ** Witnesses *)

(** One consumer takes its snapshot before the push and copies after it. *)
Definition ex_q : LocalRunQueue := publish (write_slot 7 fresh_local).

Lemma local_queue_linearizable_witness :
  reachable q_init (fun s s' => q_step s s' /\ no_full_turn s)
    (mkQSys ex_q ([] ++ [7]) [] OIdle [TRead 0 0 plan_pop]) /\ lrep ex_q [7].
Proof.
  assert (H4 : reachable q_init (fun s s' => q_step s s' /\ no_full_turn s)
    (mkQSys ex_q ([] ++ [7]) [] OIdle [TRead 0 0 plan_pop])).
  { assert (Hsoon : forall q o, no_full_turn (mkQSys q [] [] o [TRead 0 0 plan_pop])).
    { intros q o [|i] pc seen; [|done]. intros [= <-] [= <-]. reflexivity. }
    eapply reachable_step; [|split; [by apply q_publish|apply Hsoon]].
    eapply reachable_step; [|split; [by apply q_write|apply Hsoon]].
    eapply reachable_step; [|split; [by apply q_check|apply Hsoon]].
    apply (reachable_step _ _ (mkQSys fresh_local [] [] OIdle [TIdle])); [apply reachable_init; by exists 1|].
    split; [by apply (q_head fresh_local [] [] OIdle [TIdle] 0 plan_pop); [|constructor]|].
    intros [|i] pc seen; [|done]. by intros [= <-]. }
  split; [exact H4|]. destruct (local_queue_linearizable _ H4) as (_ & Hr & _). exact Hr.
Defined.

Lemma local_queue_refines_witness :
  lrep fresh_local [] /\ exists ok mode q', local_push 5 0 fresh_local = (ok, mode, q') /\
    lrep q' (if ok then [] ++ [5] else []).
Proof.
  split; [exact lrep_fresh|].
  destruct (local_queue_refines fresh_local [] 0 1 5 lrep_fresh) as ((ok & mode & q' & H & Hr & _) & _); [lia|].
  by exists ok, mode, q'.
Defined.

Definition isys0 : ISys := mkISys new_inbox [] [] None [PIdle].
Definition isys1 : ISys := mkISys new_inbox [] [] None [PLoaded 0 9].
Definition isys2 : ISys := mkISys new_inbox [] [] None [PReserve 0 9].

Lemma reachable_isys2 : reachable i_init i_step isys2.
Proof.
  apply (reachable_step _ _ isys1); [apply (reachable_step _ _ isys0)|].
  - apply reachable_init. by exists 1.
  - by apply (i_load new_inbox [] [] None [PIdle] 0 9).
  - by apply (i_fits new_inbox [] [] None [PLoaded 0 9] 0 0 9 0).
Qed.

Lemma inbox_delivers_in_order_witness :
  exists s, reachable i_init i_step s /\ length (reserved s) = 1 /\
    length (reserved s) <= length (consumed s) + Z.to_nat kRemoteInboxCapacity.
Proof.
  assert (H3 : reachable i_init i_step
    (mkISys (mkInbox 1 0 (slots new_inbox)) ([] ++ [9]) [] None [PReserved 0 9])).
  { eapply reachable_step; [exact reachable_isys2|].
    by apply (i_cas new_inbox [] [] None [PReserve 0 9] 0 0 9 (mkInbox 1 0 (slots new_inbox))). }
  eexists. split; [exact H3|]. split; [done|].
  destruct (inbox_delivers_in_order _ H3) as (_ & Hb & _). exact Hb.
Defined.

(** One uncontended push of 9 by producer 0, through all its steps. *)
Lemma push_reachable q rs :
  reachable i_init i_step (mkISys q rs [] None [PIdle]) -> length rs < 256 ->
  exists q', reachable i_init i_step (mkISys q' (rs ++ [9]) [] None [PIdle]).
Proof.
  intros Hr Hlt. pose proof (i_reachable_inv _ Hr) as Hi.
  pose proof (ii_producer _ Hi) as Hp. simpl in Hp.
  destruct (ii_window _ Hi (length rs)) as (t & Ht & _ & Hs); [unfold in_window; simpl; lia|].
  specialize (Hs ltac:(simpl; lia)). simpl in Ht, Hs.
  set (n := Z.of_nat (length rs)) in *.
  set (q1 := mkInbox (u64 (n + 1)) (consumer_pos q) (slots q)).
  exists (store_sequence n (u64 (n + 1)) (store_frame n 9 q1)).
  assert (H1 : reachable i_init i_step (mkISys q rs [] None [PLoaded n 9])).
  { eapply reachable_step; [exact Hr|]. rewrite <- Hp. by apply (i_load q rs [] None [PIdle] 0 9). }
  assert (H2 : reachable i_init i_step (mkISys q rs [] None [PReserve n 9])).
  { eapply reachable_step; [exact H1|].
    apply (i_fits q rs [] None [PLoaded n 9] 0 n 9 n); [done| |rewrite difference_small; unfold n; lia].
    unfold sequence_at. rewrite Ht. simpl. by rewrite Hs. }
  assert (H3 : reachable i_init i_step (mkISys q1 (rs ++ [9]) [] None [PReserved n 9])).
  { eapply reachable_step; [exact H2|].
    apply (i_cas q rs [] None [PReserve n 9] 0 n 9 q1); [done| |unfold n in *; lia].
    unfold reserve. by rewrite decide_True. }
  assert (H4 : reachable i_init i_step (mkISys (store_frame n 9 q1) (rs ++ [9]) [] None [PWritten n 9])).
  { eapply reachable_step; [exact H3|]. by apply (i_write q1 (rs ++ [9]) [] None [PReserved n 9] 0 n 9). }
  eapply reachable_step; [exact H4|].
  by apply (i_publish (store_frame n 9 q1) (rs ++ [9]) [] None [PWritten n 9] 0 n 9).
Qed.

Lemma pushes_reachable k : k <= 256 ->
  exists q rs, reachable i_init i_step (mkISys q rs [] None [PIdle]) /\ length rs = k.
Proof.
  induction k as [|k IH]; intros Hk.
  - exists new_inbox, []. split; [|done]. apply reachable_init. by exists 1.
  - destruct (IH ltac:(lia)) as (q & rs & Hr & Hl).
    destruct (push_reachable q rs Hr ltac:(lia)) as (q' & Hr'). exists q', (rs ++ [9]).
    split; [done|]. rewrite length_app. simpl. lia.
Qed.

(** The ring filled by one producer, which then tries once more. *)
Lemma full_reachable : exists q rs v,
  reachable i_init i_step (mkISys q rs [] None [PLoaded (Z.of_nat 256) 9]) /\
  length rs = 256 /\ sequence_at q (Z.of_nat 256) = Some v /\ (difference v (Z.of_nat 256) < 0)%Z.
Proof.
  destruct (pushes_reachable 256 ltac:(lia)) as (q & rs & Hr & Hl).
  pose proof (i_reachable_inv _ Hr) as Hi. pose proof (ii_producer _ Hi) as Hp. simpl in Hp.
  destruct (ii_window _ Hi 0) as (t & Ht & Ha & _); [unfold in_window; simpl; lia|].
  simpl in Ht, Ha. exists q, rs, (sequence t). rewrite Hl in Hp. split; [|split; [done|split]].
  - eapply reachable_step; [exact Hr|]. rewrite <- Hp. apply (i_load q rs [] None [PIdle] 0 9). done.
  - unfold sequence_at. replace (inbox_slot (Z.of_nat 256)) with (inbox_slot (Z.of_nat 0)) by done. by rewrite Ht.
  - assert (0 <= sequence t <= 1)%Z as Hs.
    { destruct (Ha ltac:(lia)) as [[-> _]|[-> _]]; lia. }
    rewrite difference_small by lia. lia.
Qed.

Lemma inbox_full_only_when_full_witness :
  exists s, reachable i_init i_step s /\
    length (reserved s) = length (consumed s) + Z.to_nat kRemoteInboxCapacity.
Proof.
  destruct full_reachable as (q & rs & v & Hr & _ & Hv & Hd). eexists. split; [exact Hr|].
  exact (inbox_full_only_when_full _ 0 (Z.of_nat 256) 9 v Hr eq_refl Hv Hd).
Defined.

Lemma global_queue_fifo_witness :
  exists s, reachable g_init g_step s /\ enqueued s = [4] /\ enqueued s = dequeued s ++ queue_ (global s).
Proof.
  assert (H1 : reachable g_init g_step (mkGSys (g_enqueue [4] new_global) ([] ++ [1]) ([] ++ [4]) [])).
  { eapply reachable_step; [by apply reachable_init|]. by apply (gs_enqueue new_global [] [] [] [4]). }
  eexists. split; [exact H1|]. split; [done|]. by destruct (global_queue_fifo _ H1) as [H _].
Defined.

Lemma bitmap_is_worker_set_witness :
  bm_ok (new_bitmap 70) /\ exists f b', bm_set 66 (new_bitmap 70) = Some (f, b') /\ bm_ok b'.
Proof.
  destruct (new_bitmap_ok 70) as [Hok _]. split; [exact Hok|].
  destruct (bitmap_is_worker_set (new_bitmap 70) 66 3 Hok) as ((f & b' & Hr & Hok' & _) & _);
    [apply Nat.ltb_lt; reflexivity|].
  by exists f, b'.
Defined.
