(* ===== verification/Bytes.v ===== *)
(** * Byte strings

    [std::string], [std::string_view] and [std::span<const std::byte>] as lists
    of byte values, with the searches the sources use. *)

From S2P Require Import Prelude.

Set Default Proof Using "Type".

Abbreviation byte := Z.
Abbreviation bytes := (list Z).

Definition bytes_ok (s : bytes) : Prop := Forall (in_range 8) s.

Definition cTab : byte := 9.
Definition cSpace : byte := 32.
Definition cHash : byte := 35.
Definition cPercent : byte := 37.
Definition cDot : byte := 46.
Definition cSlash : byte := 47.
Definition cColon : byte := 58.
Definition cSemicolon : byte := 59.
Definition cAt : byte := 64.
Definition cOpen : byte := 91.
Definition cClose : byte := 93.

(** Position of the first byte from [at] on that satisfies [p]; [None] is
    [npos]. *)
Fixpoint find_if (p : byte -> bool) (s : bytes) : option nat :=
  match s with
  | [] => None
  | c :: s => if p c then Some 0 else S <$> find_if p s
  end.

Definition find_from_if (p : byte -> bool) (at_ : nat) (s : bytes) : option nat :=
  (fun i => at_ + i) <$> find_if p (drop at_ s).

Definition is_byte (c : byte) : byte -> bool := fun x => bool_decide (x = c).
Definition one_of (set : bytes) : byte -> bool := fun x => bool_decide (x ∈ set).

Definition find (c : byte) (at_ : nat) (s : bytes) : option nat := find_from_if (is_byte c) at_ s.
Definition find_first_of (set : bytes) (at_ : nat) (s : bytes) : option nat :=
  find_from_if (one_of set) at_ s.
Definition find_first_not_of (set : bytes) (at_ : nat) (s : bytes) : option nat :=
  find_from_if (fun x => negb (one_of set x)) at_ s.

(** [rfind]: the last occurrence. *)
Fixpoint rfind (c : byte) (s : bytes) : option nat :=
  match s with
  | [] => None
  | x :: s =>
      match rfind c s with
      | Some i => Some (S i)
      | None => if is_byte c x then Some 0 else None
      end
  end.

(** [substr(at, n)]. *)
Definition substr (at_ n : nat) (s : bytes) : bytes := take n (drop at_ s).

Lemma find_if_Some p s i :
  find_if p s = Some i ->
  i < length s /\ (exists c, s !! i = Some c /\ p c = true) /\
  forall j c, j < i -> s !! j = Some c -> p c = false.
Proof.
  revert i. induction s as [|c s IH]; intros i; simpl; [done|].
  destruct (p c) eqn:E.
  - intros [= <-]. split; [lia|]. split; [by exists c|]. lia.
  - destruct (find_if p s) as [k|] eqn:Ek; [|done]. intros [= <-].
    destruct (IH k eq_refl) as (H1 & H2 & H3). split; [lia|]. split; [done|].
    intros [|j] d Hj Hd; [by injection Hd as <-|]. apply (H3 j d); [lia|done].
Qed.

Lemma find_if_None p s : find_if p s = None <-> forall c, c ∈ s -> p c = false.
Proof.
  induction s as [|c s IH]; simpl.
  - split; [intros _ c Hc; by apply not_elem_of_nil in Hc|done].
  - destruct (p c) eqn:E.
    + split; [done|]. intros H. rewrite (H c) in E; [done|left].
    + destruct (find_if p s); simpl; split; try done.
      * intros H. exfalso. assert (Some n = None) as ?; [|done].
        apply IH. intros d Hd. apply H. by right.
      * intros _ d [->|Hd]%elem_of_cons; [done|]. by apply IH.
Qed.

(** The first occurrence splits the string. *)
Lemma find_if_app p s1 c s2 :
  (forall d, d ∈ s1 -> p d = false) -> p c = true ->
  find_if p (s1 ++ c :: s2) = Some (length s1).
Proof.
  intros H Hc. induction s1 as [|d s1 IH]; simpl; [by rewrite Hc|].
  rewrite (H d) by left. rewrite IH; [done|]. intros e He. apply H. by right.
Qed.

Lemma is_byte_true c x : is_byte c x = true <-> x = c.
Proof. unfold is_byte. apply bool_decide_eq_true. Qed.

Lemma is_byte_false c x : is_byte c x = false <-> x <> c.
Proof. unfold is_byte. apply bool_decide_eq_false. Qed.

Lemma rfind_app c s1 s2 :
  c ∉ s2 -> rfind c (s1 ++ c :: s2) = Some (length s1).
Proof.
  intros Hn. assert (Hs : rfind c s2 = None).
  { induction s2 as [|x s2 IH]; [done|]. simpl. rewrite IH by set_solver.
    rewrite (proj2 (is_byte_false c x)); [done|]. intros ->. apply Hn. left. }
  induction s1 as [|x s1 IH]; simpl; [|by rewrite IH].
  rewrite Hs. by rewrite (proj2 (is_byte_true c c)).
Qed.
