(* ===== verification/Net.v ===== *)
(** * Addresses (src/net.cpp, include/cio/net.hpp)

    Socket addresses, host:port strings and Unix socket names. [inet_pton] and
    [inet_ntop] are the C library's and are parameters. *)

From S2P Require Import Prelude Result Bytes.

Set Default Proof Using "Type".

(** [c_str]: what the C library sees of a string, up to the first NUL. *)
Fixpoint c_str (s : bytes) : bytes :=
  match s with [] => [] | c :: s => if decide (c = 0%Z) then [] else c :: c_str s end.

(** [SocketAddr]: the default is an address of length zero. *)
Inductive SocketAddr :=
  | AddrNone
  | AddrV4 (raw : bytes) (port : Z)
  | AddrV6 (raw : bytes) (port : Z).

#[global] Instance SocketAddr_eq_dec : EqDecision SocketAddr.
Proof. solve_decision. Defined.

Inductive Family := AF_UNSPEC | AF_INET | AF_INET6.
#[global] Instance Family_eq_dec : EqDecision Family.
Proof. solve_decision. Defined.

Definition family (a : SocketAddr) : Family :=
  match a with AddrNone => AF_UNSPEC | AddrV4 _ _ => AF_INET | AddrV6 _ _ => AF_INET6 end.
Definition addr_port (a : SocketAddr) : Z :=
  match a with AddrNone => 0 | AddrV4 _ p => p | AddrV6 _ p => p end.
(** [sizeof(sockaddr_in)] and [sizeof(sockaddr_in6)]. *)
Definition addr_length (a : SocketAddr) : Z :=
  match a with AddrNone => 0 | AddrV4 _ _ => 16 | AddrV6 _ _ => 28 end.
Definition addr_valid (a : SocketAddr) : bool := bool_decide (addr_length a <> 0%Z).

Definition any_v4 (port : Z) : SocketAddr := AddrV4 [0; 0; 0; 0]%Z port.
Definition loopback_v4 (port : Z) : SocketAddr := AddrV4 [127; 0; 0; 1]%Z port.
Definition any_v6 (port : Z) : SocketAddr := AddrV6 (replicate 16 0%Z) port.
Definition loopback_v6 (port : Z) : SocketAddr := AddrV6 (replicate 15 0%Z ++ [1%Z]) port.

(** [std::to_string] of an unsigned number. *)
Fixpoint dec_digits (fuel : nat) (n : Z) (acc : bytes) : bytes :=
  match fuel with
  | O => acc
  | S fuel =>
      let acc := (48 + n mod 10)%Z :: acc in
      if decide (n / 10 = 0)%Z then acc else dec_digits fuel (n / 10) acc
  end.
(** Twenty digits hold any 64-bit number. *)
Definition std_to_string (n : Z) : bytes := dec_digits 20 n [].

Definition starts_with (c : byte) (s : bytes) : bool :=
  match s with x :: _ => is_byte c x | [] => false end.

Definition split_host_port (host_port : bytes) : Result (bytes * bytes) :=
  if decide (host_port = []) then Err (of_errno EINVAL)
  else if starts_with cOpen host_port then
    match find cClose 0 host_port with
    | None => Err (of_errno EINVAL)
    | Some close =>
        if decide (length host_port <= close + 1 \/ host_port !! (close + 1) <> Some cColon)
        then Err (of_errno EINVAL)
        else
          let host := substr 1 (close - 1) host_port in
          let port := drop (close + 2) host_port in
          if decide (host = [] \/ port = []) then Err (of_errno EINVAL) else Ok (host, port)
    end
  else
    match rfind cColon host_port with
    | None => Err (of_errno EINVAL)
    | Some colon =>
        if decide (find cColon 0 host_port <> Some colon) then Err (of_errno EINVAL)
        else
          let host := take colon host_port in
          let port := drop (colon + 1) host_port in
          if decide (port = []) then Err (of_errno EINVAL) else Ok (host, port)
    end.

Definition join_host_port (host port : bytes) : bytes :=
  match find cColon 0 host with
  | Some _ => [cOpen] ++ host ++ [cClose; cColon] ++ port
  | None => host ++ [cColon] ++ port
  end.

Definition join_host_port_u16 (host : bytes) (port : Z) : bytes :=
  join_host_port host (std_to_string port).

Section libc.
Context (inet_pton : Family -> bytes -> option bytes) (inet_ntop : Family -> bytes -> bytes).

(** [SocketAddr::parse]. *)
Definition addr_parse (host : bytes) (port : Z) : Result SocketAddr :=
  match inet_pton AF_INET (c_str host) with
  | Some raw => Ok (AddrV4 raw port)
  | None =>
      match inet_pton AF_INET6 (c_str host) with
      | Some raw => Ok (AddrV6 raw port)
      | None => Err (of_errno EINVAL)
      end
  end.

(** The literal "<unspecified>". *)
Definition unspecified : bytes := [60; 117; 110; 115; 112; 101; 99; 105; 102; 105; 101; 100; 62]%Z.

Definition ip (a : SocketAddr) : bytes :=
  match a with
  | AddrV4 raw _ => inet_ntop AF_INET raw
  | AddrV6 raw _ => inet_ntop AF_INET6 raw
  | AddrNone => []
  end.

Definition to_string (a : SocketAddr) : bytes :=
  match a with
  | AddrV4 raw _ => inet_ntop AF_INET raw ++ [cColon] ++ std_to_string (addr_port a)
  | AddrV6 raw _ => [cOpen] ++ inet_ntop AF_INET6 raw ++ [cClose; cColon] ++ std_to_string (addr_port a)
  | AddrNone => unspecified
  end.
End libc.

(** ** Unix socket names *)

Record UnixAddr := mkUnixAddr { path_ : bytes; abstract_ : bool }.

Definition sun_path_size : nat := 108.
Definition sun_path_offset : nat := 2.

Definition unix_parse (path : bytes) : Result UnixAddr :=
  match path with
  | [] => Err (of_errno EINVAL)
  | c :: rest =>
      let addr := if decide (c = cAt) then mkUnixAddr rest true else mkUnixAddr path false in
      if decide (abstract_ addr = true /\ path_ addr = []) then Err (of_errno EINVAL)
      else if decide (sun_path_size < length (path_ addr) + 1) then Err (of_errno ENAMETOOLONG)
      else Ok addr
  end.

Definition unix_valid (a : UnixAddr) : bool := bool_decide (path_ a <> []).
Definition unix_path (a : UnixAddr) : bytes := if abstract_ a then path_ a else path_ a.

(** [memcpy] into a fixed array; [None] is a write outside it. *)
Definition write_at (at_ : nat) (data buf : bytes) : option bytes :=
  if decide (at_ + length data <= length buf)
  then Some (take at_ buf ++ data ++ drop (at_ + length data) buf) else None.

(** [sun_path] of the filled address and the length for bind and connect. *)
Definition fill_unix_addr (addr : UnixAddr) (sun_path : bytes) : option (Result nat * bytes) :=
  let path := unix_path addr in
  if decide (path = []) then Some (Err (of_errno EINVAL), sun_path)
  else if abstract_ addr then
    if decide (length sun_path < length path + 1) then Some (Err (of_errno ENAMETOOLONG), sun_path)
    else
      out ← write_at 0 [0%Z] sun_path;
      out ← write_at 1 path out;
      Some (Ok (sun_path_offset + 1 + length path), out)
  else if decide (length sun_path < length path + 1) then Some (Err (of_errno ENAMETOOLONG), sun_path)
  else
    out ← write_at 0 (path ++ [0%Z]) sun_path;
    Some (Ok (sun_path_offset + length out), out).
