(* ===== verification/NetProps.v ===== *)
(** * Properties of addresses

    The host:port round trip in both directions, the textual form of a socket
    address, and Unix socket names. *)

From S2P Require Import Prelude Result Bytes Net.

Set Default Proof Using "Type".

(** ** host:port *)

(** The pairs whose joined form names them. *)
Definition joinable (host port : bytes) : Prop :=
  port <> [] /\ if decide (cColon ∈ host) then cClose ∉ host
                else cColon ∉ port /\ starts_with cOpen host = false.

Lemma find_colon_None s : cColon ∉ s -> find cColon 0 s = None.
Proof.
  intros H. unfold find, find_from_if. rewrite drop_0.
  rewrite (proj2 (find_if_None _ _)); [done|].
  intros c Hc. apply is_byte_false. by intros ->.
Qed.

Lemma find_colon_Some s : cColon ∈ s -> exists i, find cColon 0 s = Some i.
Proof.
  intros H. unfold find, find_from_if. rewrite drop_0.
  destruct (find_if (is_byte cColon) s) as [i|] eqn:E; [by exists i|].
  apply (proj1 (find_if_None _ _)) with (c := cColon) in E; [|done].
  by rewrite (proj2 (is_byte_true cColon cColon)) in E.
Qed.

Lemma find_app c s1 s2 : c ∉ s1 -> find c 0 (s1 ++ c :: s2) = Some (length s1).
Proof.
  intros H. unfold find, find_from_if. rewrite drop_0.
  rewrite find_if_app; [done| |by apply is_byte_true].
  intros d Hd. apply is_byte_false. by intros ->.
Qed.

Lemma find_sound c s i : find c 0 s = Some i -> s !! i = Some c /\ c ∉ take i s.
Proof.
  unfold find, find_from_if. rewrite drop_0.
  destruct (find_if (is_byte c) s) as [j|] eqn:E; [|done]. intros [= <-].
  destruct (find_if_Some _ _ _ E) as (_ & (d & Hd & Hp) & Hb). apply is_byte_true in Hp as ->.
  split; [done|]. intros [k Hk]%list_elem_of_lookup.
  apply lookup_take_Some in Hk as [Hk ?]. pose proof (Hb k c ltac:(lia) Hk) as Hf.
  by rewrite (proj2 (is_byte_true c c)) in Hf.
Qed.

Lemma rfind_None c s : rfind c s = None -> c ∉ s.
Proof.
  induction s as [|x s IH]; simpl; [intros _; apply not_elem_of_nil|].
  destruct (rfind c s); [done|]. destruct (is_byte c x) eqn:E; [done|].
  intros _ [->|H]%elem_of_cons; [|by apply IH]. by rewrite (proj2 (is_byte_true x x)) in E.
Qed.

Lemma rfind_sound c s i : rfind c s = Some i -> c ∉ drop (S i) s.
Proof.
  revert i. induction s as [|x s IH]; intros i; simpl; [done|].
  destruct (rfind c s) as [k|] eqn:E; [intros [= <-]; by apply IH|].
  destruct (is_byte c x); [|done]. intros [= <-]. rewrite drop_0. by apply rfind_None.
Qed.

Lemma split_bracketed host port :
  cClose ∉ host -> host <> [] -> port <> [] ->
  split_host_port ([cOpen] ++ host ++ [cClose; cColon] ++ port) = Ok (host, port).
Proof.
  intros Hc Hh Hp. unfold split_host_port.
  rewrite decide_False by done. simpl starts_with. cbn iota.
  replace (find cClose 0 ([cOpen] ++ host ++ [cClose; cColon] ++ port)) with (Some (S (length host))).
  2: { symmetry. apply (find_app cClose (cOpen :: host) (cColon :: port)).
       intros [E|E]%elem_of_cons; [discriminate E|done]. }
  rewrite decide_False.
  2: { rewrite !length_app. simpl. intros [?|H]; [lia|]. apply H.
       rewrite Nat.add_1_r. rewrite (lookup_app_r host) by lia.
       by replace (S (length host) - length host) with 1 by lia. }
  assert (E1 : substr 1 (S (length host) - 1) ([cOpen] ++ host ++ [cClose; cColon] ++ port) = host).
  { unfold substr. simpl. rewrite Nat.sub_0_r. apply take_app_length. }
  assert (E2 : drop (S (length host) + 2) ([cOpen] ++ host ++ [cClose; cColon] ++ port) = port).
  { exact (drop_app_add (cOpen :: host) ([cClose; cColon] ++ port) 2). }
  rewrite E1, E2. rewrite decide_False by naive_solver. done.
Qed.

Lemma split_plain host port :
  cColon ∉ host -> cColon ∉ port -> starts_with cOpen host = false -> port <> [] ->
  split_host_port (host ++ [cColon] ++ port) = Ok (host, port).
Proof.
  intros Hh Hp Hs Hne. change ([cColon] ++ port) with (cColon :: port). unfold split_host_port.
  rewrite decide_False by (by destruct host).
  assert (starts_with cOpen (host ++ cColon :: port) = false) as -> by (by destruct host).
  rewrite (rfind_app cColon host port) by done. rewrite (find_app cColon host port) by done.
  rewrite decide_False by naive_solver.
  rewrite take_app_length. rewrite Nat.add_1_r.
  replace (drop (S (length host)) (host ++ cColon :: port)) with port.
  2: { rewrite <- Nat.add_1_r, drop_app_add. done. }
  by rewrite decide_False by done.
Qed.

(** The shapes that [split_host_port] accepts. *)
Inductive split_shape (s host port : bytes) : Prop :=
  | shape_bracketed : s = [cOpen] ++ host ++ [cClose; cColon] ++ port -> cClose ∉ host -> host <> [] ->
      split_shape s host port
  | shape_plain : s = host ++ [cColon] ++ port -> cColon ∉ host -> cColon ∉ port ->
      starts_with cOpen host = false -> split_shape s host port.

Lemma starts_with_cons c s : starts_with c s = true -> exists t, s = c :: t.
Proof. destruct s as [|x t]; [done|]. simpl. intros ->%is_byte_true. by exists t. Qed.

Lemma split_host_port_sound s host port :
  split_host_port s = Ok (host, port) -> port <> [] /\ split_shape s host port.
Proof.
  unfold split_host_port. case_decide as Hne; [done|].
  destruct (starts_with cOpen s) eqn:Es.
  - destruct (starts_with_cons _ _ Es) as [t ->].
    destruct (find cClose 0 (cOpen :: t)) as [cl|] eqn:Ef; [|done].
    destruct (find_sound _ _ _ Ef) as [Hcl Hbefore].
    destruct (decide (length (cOpen :: t) <= cl + 1 \/ (cOpen :: t) !! (cl + 1) <> Some cColon)) as [|Hlen]; [done|].
    case_decide as Hemp; [done|].
    intros [= <- <-]. split; [tauto|].
    destruct cl as [|cl]; [discriminate Hcl|]. simpl in Hcl.
    apply shape_bracketed; [|unfold substr; simpl; rewrite Nat.sub_0_r; simpl in Hbefore|tauto].
    + unfold substr. simpl. rewrite Nat.sub_0_r. f_equal.
      rewrite <- (take_drop cl t) at 1. f_equal. rewrite (drop_S t cClose cl) by done. f_equal.
      assert (Hcol : t !! S cl = Some cColon).
      { destruct (decide (t !! S cl = Some cColon)); [done|]. exfalso. apply Hlen. right.
        replace (S cl + 1) with (S (S cl)) by lia. done. }
      rewrite (drop_S t cColon (S cl)) by done. do 2 f_equal. lia.
    + intros Hin. apply Hbefore. by right.
  - destruct (rfind cColon s) as [i|] eqn:Er; [|done].
    case_decide as Hf; [done|]. assert (Hfind : find cColon 0 s = Some i).
    { destruct (decide (find cColon 0 s = Some i)); [done|tauto]. }
    case_decide as Hport; [done|]. intros [= <- <-]. split; [done|].
    destruct (find_sound _ _ _ Hfind) as [Hi Hbefore]. apply shape_plain.
    + rewrite <- (take_drop i s) at 1. f_equal. rewrite (drop_S s cColon i Hi). by rewrite Nat.add_1_r.
    + done.
    + rewrite Nat.add_1_r. by apply rfind_sound.
    + destruct s as [|x s']; [done|]. destruct i; [done|]. done.
Qed.

Lemma join_with_colon host port :
  cColon ∈ host -> join_host_port host port = [cOpen] ++ host ++ [cClose; cColon] ++ port.
Proof. intros H. unfold join_host_port. by destruct (find_colon_Some _ H) as [i ->]. Qed.

Lemma join_without_colon host port :
  cColon ∉ host -> join_host_port host port = host ++ [cColon] ++ port.
Proof. intros H. unfold join_host_port. by rewrite find_colon_None. Qed.

Lemma split_join host port : joinable host port -> split_host_port (join_host_port host port) = Ok (host, port).
Proof.
  intros [Hp Hj]. destruct (decide (cColon ∈ host)) as [Hc|Hc].
  - rewrite join_with_colon by done. apply split_bracketed; [done| |done].
    intros ->. by apply not_elem_of_nil in Hc.
  - destruct Hj. rewrite join_without_colon by done. by apply split_plain.
Qed.

Lemma join_split s host port : split_shape s host port ->
  (starts_with cOpen s = true -> cColon ∈ host) -> join_host_port host port = s.
Proof.
  intros [E _ _|E Hc _ _] Hb; subst s; [apply join_with_colon; by apply Hb|by apply join_without_colon].
Qed.

Lemma split_host_port_err s e : split_host_port s = Err e -> e = of_errno EINVAL.
Proof. unfold split_host_port. repeat (case_match || case_decide); congruence. Qed.

(** Host:port strings round trip. Joining a host and a port and splitting
    the result gives both back, IPv6 literals included; a string that splits
    has one of the two documented shapes with a non-empty port, and joins back
    to itself unless it brackets a host that needs no brackets; every other
    string is refused with EINVAL. *)
Theorem host_port_roundtrip s host port :
  (joinable host port -> split_host_port (join_host_port host port) = Ok (host, port)) /\
  match split_host_port s with
  | Err e => e = of_errno EINVAL
  | Ok (h, p) =>
      p <> [] /\ split_shape s h p /\
      ((starts_with cOpen s = true -> cColon ∈ h) -> join_host_port h p = s)
  end.
Proof.
  split; [apply split_join|]. destruct (split_host_port s) as [[h p]|e] eqn:E.
  - destruct (split_host_port_sound _ _ _ E) as [Hp Hs]. split; [done|]. split; [done|]. by apply join_split.
  - by eapply split_host_port_err.
Qed.

(** ** Textual socket addresses *)

Lemma dec_digits_bytes fuel : forall n acc, (0 <= n)%Z ->
  Forall (fun c => 48 <= c <= 57)%Z acc -> Forall (fun c => 48 <= c <= 57)%Z (dec_digits fuel n acc).
Proof.
  induction fuel as [|fuel IH]; intros n acc Hn Hacc; simpl; [done|].
  assert (H : Forall (fun c => 48 <= c <= 57)%Z ((48 + n mod 10)%Z :: acc)).
  { constructor; [|done]. pose proof (Z.mod_pos_bound n 10 ltac:(lia)). lia. }
  case_decide; [done|]. apply IH; [|done]. apply Z.div_pos; lia.
Qed.

Lemma dec_digits_length fuel n acc : length acc <= length (dec_digits fuel n acc).
Proof.
  revert n acc. induction fuel as [|fuel IH]; intros n acc; simpl; [lia|].
  case_decide; [simpl; lia|]. etrans; [|apply IH]. simpl. lia.
Qed.

Lemma dec_digits_nonempty fuel n : dec_digits (S fuel) n [] <> [].
Proof.
  intros E. cbn [dec_digits] in E. case_decide; [done|].
  pose proof (dec_digits_length fuel (n / 10) [(48 + n mod 10)%Z]) as Hl.
  rewrite E in Hl. simpl in Hl. lia.
Qed.

Lemma std_to_string_nonempty n : std_to_string n <> [].
Proof. apply (dec_digits_nonempty 19). Qed.

Lemma std_to_string_no_colon n : (0 <= n)%Z -> cColon ∉ std_to_string n.
Proof.
  intros Hn Hin. pose proof (dec_digits_bytes 20 n [] Hn ltac:(done)) as H.
  rewrite Forall_forall in H. specialize (H _ Hin). unfold cColon in H. lia.
Qed.

(** What the C library's conversions promise of one address: the printed form
    parses back as its own family, and IPv6 forms are the ones with colons. *)
Class Prints (pton : Family -> bytes -> option bytes) (ntop : Family -> bytes -> bytes)
  (f : Family) (raw : bytes) : Prop := {
  prints_parses : pton f (c_str (ntop f raw)) = Some raw;
  prints_family : f = AF_INET6 -> pton AF_INET (c_str (ntop f raw)) = None;
  prints_colon : f = AF_INET6 <-> cColon ∈ ntop f raw;
  prints_no_brackets : cClose ∉ ntop f raw /\ starts_with cOpen (ntop f raw) = false
}.

Definition addr_raw (a : SocketAddr) : bytes :=
  match a with AddrNone => [] | AddrV4 raw _ => raw | AddrV6 raw _ => raw end.

(** [SocketAddr::to_string] is the joined form of the address's [ip] and
    port, so [split_host_port] takes it apart again, and parsing the host part
    gives the address back. *)
Theorem addr_text_roundtrip pton ntop a (P : Prints pton ntop (family a) (addr_raw a))
  (Ha : a <> AddrNone) (Hp : (0 <= addr_port a)%Z) :
  to_string ntop a = join_host_port_u16 (ip ntop a) (addr_port a) /\
  split_host_port (to_string ntop a) = Ok (ip ntop a, std_to_string (addr_port a)) /\
  addr_parse pton (ip ntop a) (addr_port a) = Ok a.
Proof.
  destruct P as [P1 P2 P3 [P4 P5]].
  assert (E : to_string ntop a = join_host_port_u16 (ip ntop a) (addr_port a)).
  { unfold join_host_port_u16. destruct a as [|raw p|raw p]; [done| |]; simpl in *.
    - rewrite join_without_colon; [done|]. intros H. by apply P3 in H.
    - rewrite join_with_colon; [done|]. by apply P3. }
  split; [done|]. rewrite E. split.
  - apply split_join. split; [apply std_to_string_nonempty|].
    destruct a as [|raw p|raw p]; [done| |]; simpl in *; case_decide as Hc; try done.
    + split; [by apply std_to_string_no_colon|done].
    + exfalso. apply Hc. by apply P3.
  - unfold addr_parse. destruct a as [|raw p|raw p]; [done| |]; simpl in *.
    + by rewrite P1.
    + by rewrite (P2 eq_refl), P1.
Qed.

(** ** Unix socket names *)

Lemma write_at_ok at_ data buf : at_ + length data <= length buf ->
  write_at at_ data buf = Some (take at_ buf ++ data ++ drop (at_ + length data) buf).
Proof. intros H. unfold write_at. by rewrite decide_True. Qed.

Lemma write_at_length at_ data buf out : write_at at_ data buf = Some out -> length out = length buf.
Proof.
  unfold write_at. case_decide; [|done]. intros [= <-].
  rewrite !length_app, length_take, length_drop. lia.
Qed.

Lemma c_str_app_nul s t : c_str (s ++ 0%Z :: t) = c_str s.
Proof. induction s as [|c s IH]; simpl; [done|]. case_decide; [done|by rewrite IH]. Qed.

(** The name the kernel reads from a [sockaddr_un] of this length. *)
Definition kernel_name (len : nat) (sun_path : bytes) : bytes * bool :=
  if starts_with 0%Z sun_path then (take (len - sun_path_offset - 1) (drop 1 sun_path), true)
  else (c_str sun_path, false).

Lemma fill_unix_addr_ok a buf :
  length buf = sun_path_size -> path_ a <> [] -> length (path_ a) + 1 <= sun_path_size ->
  (abstract_ a = false -> starts_with 0%Z (path_ a) = false) ->
  exists len out, fill_unix_addr a buf = Some (Ok len, out) /\ length out = sun_path_size /\
    len <= sun_path_offset + sun_path_size /\
    kernel_name len out = (if abstract_ a then path_ a else c_str (path_ a), abstract_ a).
Proof.
  intros Hbuf Hne Hlen Hnul. unfold fill_unix_addr, unix_path.
  destruct a as [path ab]. simpl in *.
  replace (if ab then path else path) with path by (by destruct ab). rewrite decide_False by done.
  destruct ab.
  - rewrite decide_False by lia. rewrite (write_at_ok 0) by (simpl; lia).
    cbn [mbind option_bind]. rewrite write_at_ok.
    2: { rewrite !length_app, length_take, length_drop. simpl. lia. }
    cbn [mbind option_bind]. destruct buf as [|b buf]; [unfold sun_path_size in Hbuf; discriminate|].
    eexists _, _. split; [done|]. unfold kernel_name, sun_path_offset. simpl in *. split; [|split; [lia|]].
    + rewrite length_app, length_drop, drop_0. lia.
    + rewrite drop_0. f_equal.
      rewrite Nat.sub_0_r. apply take_app_length.
  - rewrite decide_False by lia. rewrite write_at_ok by (rewrite length_app; simpl; lia).
    cbn [mbind option_bind]. eexists _, _. split; [done|].
    unfold kernel_name, sun_path_offset. simpl.
    assert (Hl : length ((path ++ [0%Z]) ++ drop (length (path ++ [0%Z])) buf) = sun_path_size).
    { rewrite !length_app, length_drop. simpl. lia. }
    split; [done|]. split; [lia|]. destruct path as [|c path]; [done|]. specialize (Hnul eq_refl). simpl in Hnul.
    cbn [app starts_with]. rewrite Hnul. f_equal. rewrite <- app_assoc.
    exact (c_str_app_nul (c :: path) _).
Qed.

(** a Unix address that [UnixAddr::parse] accepts always fits its
    [sockaddr_un]: filling it writes inside [sun_path], the length handed to
    the kernel is at most the structure's, and the kernel reads back the name
    that was parsed, in the namespace it asked for. A path without a NUL is
    refused exactly when it is empty, a bare "@", or too long. *)
Theorem unix_addr_roundtrip p buf (Hbuf : length buf = sun_path_size) (Hnul : 0%Z ∉ p) :
  match unix_parse p with
  | Ok a =>
      (exists len out, fill_unix_addr a buf = Some (Ok len, out) /\ length out = sun_path_size /\
        len <= sun_path_offset + sun_path_size /\
        kernel_name len out = (path_ a, abstract_ a)) /\
      p = (if abstract_ a then [cAt] else []) ++ path_ a /\ unix_valid a = true
  | Err e =>
      (p = [] \/ p = [cAt]) /\ e = of_errno EINVAL \/
      sun_path_size <= length p /\ e = of_errno ENAMETOOLONG
  end.
Proof.
  destruct p as [|c rest]; [simpl; by left; split; [left|]|]. unfold unix_parse.
  assert (Hcs : forall s, 0%Z ∉ s -> c_str s = s).
  { induction s as [|x s IH]; [done|]. intros [Hx Hs]%not_elem_of_cons. simpl.
    rewrite decide_False by done. by rewrite IH. }
  apply not_elem_of_cons in Hnul as [Hc Hrest].
  destruct (decide (c = cAt)) as [->|Hat]; simpl.
  - case_decide as Hemp. { left. destruct Hemp as [_ ->]. split; [by right|done]. }
    case_decide as Hlong. { right. split; [lia|done]. }
    assert (rest <> []) by naive_solver.
    split; [|split; [done|by apply bool_decide_eq_true]].
    apply fill_unix_addr_ok; simpl; [done|done|lia|done].
  - case_decide as Hlong. { right. split; [lia|done]. }
    split; [|split; [done|by apply bool_decide_eq_true]].
    destruct (fill_unix_addr_ok (mkUnixAddr (c :: rest) false) buf) as (len & out & H1 & H2 & H3 & H4);
      simpl; [done|done|lia|intros _; by apply is_byte_false|].
    exists len, out. split; [done|]. split; [done|]. split; [done|]. rewrite H4. cbn [abstract_ path_].
    rewrite (Hcs (c :: rest)); [done|]. by apply not_elem_of_cons.
Qed.

(** ** Witnesses *)

(** "::1" and port 80. *)
Lemma host_port_roundtrip_witness :
  joinable [58; 58; 49]%Z [56; 48]%Z /\
  split_host_port (join_host_port [58; 58; 49]%Z [56; 48]%Z) = Ok ([58; 58; 49]%Z, [56; 48]%Z).
Proof.
  assert (H : joinable [58; 58; 49]%Z [56; 48]%Z).
  { split; [done|]. rewrite decide_True by left. by apply (bool_decide_unpack _). }
  split; [exact H|]. exact (proj1 (host_port_roundtrip [] [58; 58; 49]%Z [56; 48]%Z) H).
Defined.

(** A C library that knows one address of each family. *)
Definition one_pton (f : Family) (s : bytes) : option bytes :=
  match f with
  | AF_INET => if decide (s = [49; 46; 48]%Z) then Some [1; 0; 0; 0]%Z else None
  | AF_INET6 => if decide (s = [58; 58; 49]%Z) then Some (replicate 15 0%Z ++ [1%Z]) else None
  | AF_UNSPEC => None
  end.
Definition one_ntop (f : Family) (raw : bytes) : bytes :=
  match f with AF_INET => [49; 46; 48]%Z | _ => [58; 58; 49]%Z end.

Lemma addr_text_roundtrip_witness :
  split_host_port (to_string one_ntop (loopback_v6 8080)) = Ok ([58; 58; 49]%Z, std_to_string 8080).
Proof.
  assert (P : Prints one_pton one_ntop (family (loopback_v6 8080)) (addr_raw (loopback_v6 8080))).
  { split; [done|done|split; [intros _; left|done]|split; [by apply (bool_decide_unpack _)|done]]. }
  apply (addr_text_roundtrip one_pton one_ntop (loopback_v6 8080) P); [done|simpl; lia].
Defined.

Lemma unix_addr_roundtrip_witness :
  length (replicate sun_path_size 0%Z) = sun_path_size /\
  exists len out, fill_unix_addr (mkUnixAddr [97%Z] true) (replicate sun_path_size 0%Z) = Some (Ok len, out) /\
    kernel_name len out = ([97%Z], true).
Proof.
  split; [done|].
  assert (Hn : 0%Z ∉ [cAt; 97%Z]) by by apply (bool_decide_unpack _).
  destruct (unix_addr_roundtrip [cAt; 97%Z] (replicate sun_path_size 0%Z) eq_refl Hn) as [(len & out & H1 & _ & _ & H2) _].
  exists len, out. split; [exact H1|exact H2].
Defined.
