(* ===== verification/Dns.v ===== *)
(** * The DNS wire codec and resolver (src/dns.cpp, include/cio/dns.hpp)

    Messages are byte lists; [None] is a read outside the message, which the
    theorems exclude, and a [Result] is the outcome the code returns. *)

From S2P Require Import Prelude Result Bytes Net.

Set Default Proof Using "Type".

Definition kHeaderBytes : nat := 12.
Definition kMaxUdpMessage : nat := 4096.
Definition kMaxPointerHops : nat := 64.

Definition read_u16 (m : bytes) (at_ : nat) : option Z :=
  hi ← m !! at_; lo ← m !! (at_ + 1); Some (Z.lor (Z.shiftl hi 8) lo).

Definition push_u16 (out : bytes) (value : Z) : bytes :=
  out ++ [Z.land (Z.shiftr value 8) 255; Z.land value 255].

Definition bad_msg {A} : option (Result A) := Some (Err (of_errno EBADMSG)).
Definition invalid {A} : Result A := Err (of_errno EINVAL).

(** The loop of [skip_name] with [hops] turns taken. *)
Fixpoint skip_labels (fuel hops : nat) (m : bytes) (at_ : nat) : option (Result nat) :=
  match fuel with
  | O => None
  | S fuel =>
      if decide (length m <= at_) then bad_msg
      else
        len ← m !! at_;
        if decide (len = 0%Z) then Some (Ok (at_ + 1))
        else if decide (Z.land len 0xC0 = 0xC0%Z) then
          if decide (length m <= at_ + 1) then bad_msg else Some (Ok (at_ + 2))
        else if decide (Z.land len 0xC0 <> 0%Z) then bad_msg
        else if decide (kMaxPointerHops < hops + 1) then bad_msg
        else skip_labels fuel (hops + 1) m (at_ + (1 + Z.to_nat len))
  end.

(** One turn per label, and the label after the last permitted one fails. *)
Definition skip_name (m : bytes) (at_ : nat) : option (Result nat) :=
  skip_labels (kMaxPointerHops + 1) 0 m at_.

(** The loop of [encode_name] on what is left of the name. *)
Fixpoint encode_labels (fuel : nat) (rest : bytes) (out : bytes) : option (Result bytes) :=
  match fuel with
  | O => None
  | S fuel =>
      let dot := find cDot 0 rest in
      let end_ := match dot with Some i => i | None => length rest end in
      if decide (end_ = 0 \/ 63 < end_) then Some invalid
      else
        let out := out ++ Z.of_nat end_ :: take end_ rest in
        match dot with
        | None => Some (Ok (out ++ [0%Z]))
        | Some i => encode_labels fuel (drop (i + 1) rest) out
        end
  end.

Definition strip_root (name : bytes) : bytes :=
  match last name with
  | Some c => if decide (c = cDot) then take (length name - 1) name else name
  | None => name
  end.

Definition encode_name (name out : bytes) : option (Result bytes) :=
  if decide (253 < length name) then Some invalid
  else
    let name := strip_root name in
    if decide (name = []) then Some invalid
    else encode_labels (S (length name)) name out.

Inductive RecordType := A | AAAA.
Definition record_code (t : RecordType) : Z := match t with A => 1 | AAAA => 28 end.

Definition build_query (name : bytes) (type : RecordType) (id : Z) : option (Result bytes) :=
  let out := push_u16 [] id in
  let out := push_u16 out 0x0100 in
  let out := push_u16 out 1 in
  let out := push_u16 out 0 in
  let out := push_u16 out 0 in
  let out := push_u16 out 0 in
  encoded ← encode_name name out;
  match encoded with
  | Err e => Some (Err e)
  | Ok out => Some (Ok (push_u16 (push_u16 out (record_code type)) 1))
  end.

Record Answer := mkAnswer { addresses : list SocketAddr; truncated : bool }.

Fixpoint skip_questions (n : nat) (m : bytes) (at_ : nat) : option (Result nat) :=
  match n with
  | O => Some (Ok at_)
  | S n =>
      next ← skip_name m at_;
      match next with
      | Err e => Some (Err e)
      | Ok next =>
          let at_ := next + 4 in
          if decide (length m < at_) then bad_msg else skip_questions n m at_
      end
  end.

(** [memcpy] of [n] bytes. *)
Definition read_bytes (m : bytes) (at_ n : nat) : option bytes :=
  if decide (at_ + n <= length m) then Some (substr at_ n m) else None.

Fixpoint read_answers (n : nat) (m : bytes) (at_ : nat) (port : Z) (acc : list SocketAddr)
  : option (Result (list SocketAddr)) :=
  match n with
  | O => Some (Ok acc)
  | S n =>
      next ← skip_name m at_;
      match next with
      | Err e => Some (Err e)
      | Ok at_ =>
          if decide (length m < at_ + 10) then bad_msg
          else
            type ← read_u16 m at_;
            klass ← read_u16 m (at_ + 2);
            len ← read_u16 m (at_ + 8);
            let length_ := Z.to_nat len in
            let at_ := at_ + 10 in
            if decide (length m < at_ + length_) then bad_msg
            else
              acc ← (if decide (klass = 1%Z /\ type = record_code A /\ length_ = 4)
                     then raw ← read_bytes m at_ 4; Some (acc ++ [AddrV4 raw port])
                     else if decide (klass = 1%Z /\ type = record_code AAAA /\ length_ = 16)
                     then raw ← read_bytes m at_ 16; Some (acc ++ [AddrV6 raw port])
                     else Some acc);
              read_answers n m (at_ + length_) port acc
      end
  end.

Definition parse_response (m : bytes) (expected_id port : Z) : option (Result Answer) :=
  if decide (length m < kHeaderBytes) then bad_msg
  else
    id ← read_u16 m 0;
    if decide (id <> expected_id) then bad_msg
    else
      flags ← read_u16 m 2;
      let tc := bool_decide (Z.land flags 0x0200 <> 0%Z) in
      let rcode := Z.land flags 0x000F in
      if decide (rcode = 3%Z) then Some (Err (of_errno ENOENT))
      else if decide (rcode <> 0%Z /\ tc = false) then bad_msg
      else
        questions ← read_u16 m 4;
        answers ← read_u16 m 6;
        q ← skip_questions (Z.to_nat questions) m kHeaderBytes;
        match q with
        | Err e => Some (Err e)
        | Ok at_ =>
            r ← read_answers (Z.to_nat answers) m at_ port [];
            match r with
            | Err e => Some (Err e)
            | Ok addrs => Some (Ok (mkAnswer addrs tc))
            end
        end.

(** The id mixer of [next_query_id] and the counter it leaves. *)
Definition next_query_id (counter : Z) : Z * Z :=
  let x := u32 counter in
  let x := Z.lxor x (Z.shiftr x 16) in
  let x := u32 (x * 0x7FEB352D) in
  let x := Z.lxor x (Z.shiftr x 15) in
  (Z.land x 0xFFFF, u32 (counter + 0x9E3779B9)).

(** The two-byte length prefix of [query_tcp_once]. *)
Definition tcp_frame (request : bytes) : bytes :=
  push_u16 [] (u16 (Z.of_nat (length request))) ++ request.

(** * Correctness of the DNS codec

    Totality of the parser on hostile input, the wire form of names, and the
    round trip of queries and responses. *)

Lemma read_u16_ok m at_ : at_ + 1 < length m -> exists v, read_u16 m at_ = Some v.
Proof.
  intros H. unfold read_u16. destruct (lookup_lt_is_Some_2 m at_ ltac:(lia)) as [a ->].
  destruct (lookup_lt_is_Some_2 m (at_ + 1) ltac:(lia)) as [b ->]. by eexists.
Qed.

(** ** Totality *)

Definition bounded_skip (m : bytes) (at_ : nat) (r : option (Result nat)) : Prop :=
  exists x, r = Some x /\ forall n, x = Ok n -> at_ < n <= length m.

Lemma skip_labels_total fuel : forall hops m at_,
  hops <= kMaxPointerHops -> kMaxPointerHops < hops + fuel ->
  bounded_skip m at_ (skip_labels fuel hops m at_).
Proof.
  induction fuel as [|fuel IH]; intros hops m at_ Hh Hf; simpl; [lia|].
  assert (Hbad : bounded_skip m at_ bad_msg) by (eexists; split; [done|]; intros n Hn; discriminate).
  case_decide; [done|]. destruct (lookup_lt_is_Some_2 m at_ ltac:(lia)) as [len ->]. simpl.
  case_decide; [eexists; split; [done|]; intros n [= <-]; lia|].
  case_decide.
  { case_decide; [done|]. eexists. split; [done|]. intros n [= <-]. lia. }
  case_decide; [done|]. case_decide; [done|].
  destruct (IH (hops + 1) m (at_ + S (Z.to_nat len))) as (x & -> & Hx); [lia|lia|].
  exists x. split; [done|]. intros n Hn. specialize (Hx n Hn). lia.
Qed.

Lemma skip_name_total m at_ : bounded_skip m at_ (skip_name m at_).
Proof. apply skip_labels_total; unfold kMaxPointerHops; lia. Qed.

Lemma skip_questions_total n : forall m at_, at_ <= length m ->
  exists r, skip_questions n m at_ = Some r /\ forall k, r = Ok k -> at_ <= k <= length m.
Proof.
  induction n as [|n IH]; intros m at_ Hat; simpl.
  { eexists. split; [done|]. intros k [= <-]. lia. }
  destruct (skip_name_total m at_) as (x & -> & Hx). simpl. destruct x as [next|e].
  - specialize (Hx next eq_refl). case_decide; [eexists; split; [done|]; discriminate|].
    destruct (IH m (next + 4)) as (r & -> & Hr); [lia|]. exists r. split; [done|].
    intros k Hk. specialize (Hr k Hk). lia.
  - eexists. split; [done|]. discriminate.
Qed.

(** An address record carries as many bytes as its family has. *)
Definition addr_ok (a : SocketAddr) : Prop :=
  match a with AddrNone => False | AddrV4 raw _ => length raw = 4 | AddrV6 raw _ => length raw = 16 end.

Definition good_answers (n : nat) (acc : list SocketAddr) (r : Result (list SocketAddr)) : Prop :=
  match r with
  | Ok l => length l <= length acc + n /\ (Forall addr_ok acc -> Forall addr_ok l)
  | Err e => e = of_errno EBADMSG
  end.

Lemma read_bytes_ok m at_ n : at_ + n <= length m ->
  read_bytes m at_ n = Some (substr at_ n m) /\ length (substr at_ n m) = n.
Proof.
  intros H. unfold read_bytes. rewrite decide_True by done. split; [done|].
  unfold substr. rewrite length_take, length_drop. lia.
Qed.

Lemma skip_labels_err fuel : forall hops m at_ e,
  skip_labels fuel hops m at_ = Some (Err e) -> e = of_errno EBADMSG.
Proof.
  induction fuel as [|fuel IH]; intros hops m at_ e; simpl; [done|]. unfold bad_msg.
  case_decide; [congruence|]. destruct (m !! at_); simpl; [|done].
  repeat case_decide; try congruence; apply IH.
Qed.

Lemma skip_questions_err n : forall m at_ e,
  skip_questions n m at_ = Some (Err e) -> e = of_errno EBADMSG.
Proof.
  induction n as [|n IH]; intros m at_ e; simpl; [done|].
  destruct (skip_name m at_) as [[next|e']|] eqn:E; simpl; [|intros [= <-]; by eapply skip_labels_err|done].
  unfold bad_msg. case_decide; [congruence|apply IH].
Qed.

Lemma read_answers_total n : forall m at_ port acc,
  exists r, read_answers n m at_ port acc = Some r /\ good_answers n acc r.
Proof.
  induction n as [|n IH]; intros m at_ port acc; simpl.
  { eexists. split; [done|]. simpl. split; [lia|done]. }
  assert (Hbad : exists r, bad_msg = Some r /\ good_answers (S n) acc r) by by eexists.
  destruct (skip_name_total m at_) as (x & E & Hx). rewrite E. simpl. destruct x as [next|e].
  2: { eexists. split; [done|]. by eapply skip_labels_err. }
  case_decide; [done|].
  destruct (read_u16_ok m next ltac:(lia)) as [type ->]. simpl.
  destruct (read_u16_ok m (next + 2) ltac:(lia)) as [klass ->]. simpl.
  destruct (read_u16_ok m (next + 8) ltac:(lia)) as [len ->]. simpl.
  case_decide; [done|].
  assert (Hstep : forall acc', length acc' <= length acc + 1 -> (Forall addr_ok acc -> Forall addr_ok acc') ->
    exists r, read_answers n m (next + 10 + Z.to_nat len) port acc' = Some r /\ good_answers (S n) acc r).
  { intros acc' Hl Hf. destruct (IH m (next + 10 + Z.to_nat len) port acc') as (r & -> & Hr).
    exists r. split; [done|]. destruct r as [l|e]; simpl in *; [|done].
    destruct Hr as [H1 H2]. split; [lia|auto]. }
  case_decide as H4.
  { destruct H4 as (_ & _ & H4). destruct (read_bytes_ok m (next + 10) 4 ltac:(lia)) as [-> Hl]. simpl.
    apply Hstep; [rewrite length_app; simpl; lia|]. intros Hf. apply Forall_app. split; [done|].
    by constructor. }
  case_decide as H16.
  { destruct H16 as (_ & _ & H16). destruct (read_bytes_ok m (next + 10) 16 ltac:(lia)) as [-> Hl]. simpl.
    apply Hstep; [rewrite length_app; simpl; lia|]. intros Hf. apply Forall_app. split; [done|].
    by constructor. }
  apply Hstep; [lia|done].
Qed.

Lemma parse_response_total m id port :
  exists r, parse_response m id port = Some r /\
    match r with
    | Ok a => kHeaderBytes <= length m /\ Forall addr_ok (addresses a)
    | Err e => e = of_errno EBADMSG \/ e = of_errno ENOENT
    end.
Proof.
  assert (Hbad : exists r : Result Answer, bad_msg = Some r /\ match r with
    | Ok a => kHeaderBytes <= length m /\ Forall addr_ok (addresses a)
    | Err e => e = of_errno EBADMSG \/ e = of_errno ENOENT end) by (eexists; split; [done|by left]).
  unfold parse_response. case_decide as Hlen; [done|]. unfold kHeaderBytes in Hlen.
  destruct (read_u16_ok m 0 ltac:(lia)) as [v ->]. simpl. case_decide; [done|].
  destruct (read_u16_ok m 2 ltac:(lia)) as [flags ->]. simpl.
  case_decide; [eexists; split; [done|by right]|]. case_decide; [done|].
  destruct (read_u16_ok m 4 ltac:(lia)) as [qs ->]. simpl.
  destruct (read_u16_ok m 6 ltac:(lia)) as [ans ->]. simpl.
  destruct (skip_questions_total (Z.to_nat qs) m kHeaderBytes) as (r & E & _);
    [unfold kHeaderBytes; lia|]. rewrite E. simpl. destruct r as [at_|e].
  2: { eexists. split; [done|]. left. by eapply skip_questions_err. }
  destruct (read_answers_total (Z.to_nat ans) m at_ port []) as (r & -> & Hr). simpl.
  destruct r as [l|e]; simpl in Hr; (eexists; split; [done|]); simpl; [|by left].
  split; [unfold kHeaderBytes; lia|]. by apply Hr.
Qed.

(** ** Names on the wire *)

Definition label_ok (l : bytes) : Prop := 0 < length l <= 63.
#[global] Instance label_ok_dec l : Decision (label_ok l).
Proof. unfold label_ok. apply _. Defined.

(** The labels of a name: its parts between dots. *)
Fixpoint split_dots (s : bytes) : list bytes :=
  match s with
  | [] => [[]]
  | c :: s =>
      if decide (c = cDot) then [] :: split_dots s
      else match split_dots s with l :: ls => (c :: l) :: ls | [] => [[c]] end
  end.

Definition wire_label (l : bytes) : bytes := Z.of_nat (length l) :: l.
Definition wire (ls : list bytes) : bytes := concat (map wire_label ls) ++ [0%Z].

Lemma split_dots_nil s : split_dots s <> [].
Proof. destruct s as [|c s]; simpl; [done|]. case_decide; [done|]. by destruct (split_dots s). Qed.

Lemma split_dots_find s :
  match find cDot 0 s with
  | Some i => split_dots s = take i s :: split_dots (drop (i + 1) s) /\ i < length s
  | None => split_dots s = [s]
  end.
Proof.
  unfold find, find_from_if. rewrite drop_0.
  induction s as [|c s IH]; simpl; [done|]. unfold is_byte at 1.
  destruct (decide (c = cDot)) as [->|Hc].
  - rewrite bool_decide_true by done. simpl. rewrite drop_0. split; [done|lia].
  - rewrite bool_decide_false by done.
    destruct (find_if (is_byte cDot) s) as [i|]; simpl in *.
    + destruct IH as [-> ?]. split; [done|lia].
    + by rewrite IH.
Qed.

Lemma encode_labels_run fuel : forall rest out, length rest < fuel ->
  encode_labels fuel rest out =
  Some (if decide (Forall label_ok (split_dots rest)) then Ok (out ++ wire (split_dots rest)) else invalid).
Proof.
  induction fuel as [|fuel IH]; intros rest out Hf; [lia|]. simpl.
  pose proof (split_dots_find rest) as Hs. destruct (find cDot 0 rest) as [i|].
  - destruct Hs as [-> Hi].
    assert (Hl : length (take i rest) = i) by (rewrite length_take; lia).
    case_decide as Hbad.
    { rewrite decide_False; [done|]. intros H%Forall_cons. destruct H as [H _].
      unfold label_ok in H. lia. }
    rewrite IH by (rewrite length_drop; lia).
    assert (Hok : label_ok (take i rest)) by (unfold label_ok; lia).
    case_decide as Hrest.
    + rewrite decide_True by by constructor. f_equal. f_equal.
      unfold wire. simpl. unfold wire_label at 1. rewrite Hl. by rewrite <- !app_assoc.
    + rewrite decide_False; [done|]. by intros [_ ?]%Forall_cons.
  - rewrite Hs. case_decide as Hbad.
    { rewrite decide_False; [done|]. intros H%Forall_cons. destruct H as [H _].
      unfold label_ok in H. lia. }
    rewrite decide_True by (constructor; [unfold label_ok; lia|done]).
    rewrite take_ge by lia. unfold wire, wire_label. simpl. by rewrite app_nil_r, <- app_assoc.
Qed.

(** The names that [encode_name] accepts. *)
Definition name_ok (name : bytes) : Prop :=
  length name <= 253 /\ strip_root name <> [] /\ Forall label_ok (split_dots (strip_root name)).
#[global] Instance name_ok_dec name : Decision (name_ok name).
Proof. unfold name_ok. apply _. Defined.

Lemma encode_name_run name out :
  encode_name name out =
  Some (if decide (name_ok name) then Ok (out ++ wire (split_dots (strip_root name))) else invalid).
Proof.
  unfold encode_name, name_ok. case_decide as H1.
  { rewrite decide_False by (intros [? _]; lia). done. }
  case_decide as H2.
  { rewrite decide_False by (intros (_ & ? & _); done). done. }
  rewrite encode_labels_run by lia. do 2 f_equal. apply decide_ext. split; [|tauto].
  intros. split; [lia|done].
Qed.

(** ** Reading what was written *)

Lemma read_u16_app pre v post :
  in_range 16 v -> read_u16 (pre ++ push_u16 [] v ++ post) (length pre) = Some v.
Proof.
  intros Hv. unfold read_u16, push_u16. simpl.
  rewrite (list_lookup_middle pre _ _ (length pre)) by done. simpl.
  rewrite lookup_app_r by lia. replace (length pre + 1 - length pre) with 1 by lia. simpl. f_equal.
  unfold in_range in Hv. apply Z.bits_inj'. intros n Hn.
  rewrite Z.lor_spec, Z.shiftl_spec by lia.
  change 255%Z with (Z.ones 8). rewrite !Z.land_spec, (Z.testbit_ones_nonneg 8 n) by lia.
  destruct (decide (n < 8)%Z).
  - rewrite (Z.testbit_neg_r _ (n - 8)) by lia. simpl.
    rewrite (proj2 (Z.ltb_lt _ _)) by lia. apply andb_true_r.
  - rewrite Z.testbit_ones_nonneg by lia. rewrite Z.shiftr_spec by lia.
    replace (n - 8 + 8)%Z with n by lia. rewrite (proj2 (Z.ltb_ge n 8)) by lia.
    rewrite andb_false_r, orb_false_r.
    destruct (decide (n < 16)%Z).
    + rewrite (proj2 (Z.ltb_lt _ _)) by lia. apply andb_true_r.
    + rewrite (proj2 (Z.ltb_ge _ _)) by lia. rewrite andb_false_r.
      symmetry. apply Z.bits_above_log2; [lia|].
      destruct (decide (v = 0)%Z) as [->|]; [simpl; lia|].
      apply Z.log2_lt_pow2; [lia|]. apply Z.lt_le_trans with (2 ^ 16)%Z; [lia|].
      apply Z.pow_le_mono_r; lia.
Qed.

(** The same at an offset given otherwise. *)
Lemma read_u16_at m at_ pre v post :
  m = pre ++ push_u16 [] v ++ post -> at_ = length pre -> in_range 16 v -> read_u16 m at_ = Some v.
Proof. intros -> ->. apply read_u16_app. Qed.

Lemma length_push_u16 v : length (push_u16 [] v) = 2.
Proof. done. Qed.

Lemma label_len_bits l : label_ok l -> Z.land (Z.of_nat (length l)) 0xC0 = 0%Z.
Proof.
  unfold label_ok. generalize (length l) as n. intros n Hn.
  do 64 (destruct n as [|n]; [try lia; reflexivity|]). lia.
Qed.

(** [skip_name] over a written name counts its labels. *)
Lemma skip_labels_wire fuel : forall ls hops pre post,
  Forall label_ok ls -> hops <= kMaxPointerHops -> kMaxPointerHops < hops + fuel ->
  skip_labels fuel hops (pre ++ wire ls ++ post) (length pre) =
  Some (if decide (hops + length ls <= kMaxPointerHops) then Ok (length pre + length (wire ls))
        else Err (of_errno EBADMSG)).
Proof.
  induction fuel as [|fuel IH]; intros ls hops pre post Hls Hh Hf; [lia|]. cbn [skip_labels].
  rewrite decide_False by (unfold wire; rewrite !length_app; simpl; lia).
  destruct ls as [|l ls].
  - unfold wire. simpl. rewrite list_lookup_middle by done. simpl.
    rewrite decide_True by (unfold kMaxPointerHops in *; lia). done.
  - apply Forall_cons in Hls as [Hl Hls].
    assert (Hw : pre ++ wire (l :: ls) ++ post = (pre ++ wire_label l) ++ wire ls ++ post).
    { unfold wire. simpl. by rewrite <- !app_assoc. }
    assert (Hlen : length (wire (l :: ls)) = 1 + length l + length (wire ls)).
    { unfold wire. simpl. rewrite !length_app. simpl. lia. }
    replace ((pre ++ wire (l :: ls) ++ post) !! length pre) with (Some (Z.of_nat (length l))).
    2: { unfold wire, wire_label. simpl. by rewrite list_lookup_middle by done. }
    cbn [mbind option_bind]. pose proof (label_len_bits l Hl) as Hb. unfold label_ok in Hl.
    rewrite (decide_False (P := Z.of_nat (length l) = 0%Z)) by lia. rewrite Hb.
    rewrite (decide_False (P := 0%Z = 0xC0%Z)) by lia.
    rewrite (decide_False (P := 0%Z <> 0%Z)) by lia.
    case_decide as Hbig.
    { rewrite decide_False; [done|]. simpl. lia. }
    rewrite Hw. replace (length pre + (1 + Z.to_nat (Z.of_nat (length l)))) with (length (pre ++ wire_label l)).
    2: { rewrite length_app. simpl. lia. }
    rewrite IH by (done || lia). f_equal.
    replace (hops + 1 + length ls) with (hops + length (l :: ls)) by (simpl; lia).
    case_decide; [|done]. f_equal. rewrite length_app, Hlen. simpl. lia.
Qed.

Lemma skip_name_wire m at_ ls pre post :
  m = pre ++ wire ls ++ post -> at_ = length pre -> Forall label_ok ls ->
  skip_name m at_ =
  Some (if decide (length ls <= kMaxPointerHops) then Ok (at_ + length (wire ls)) else Err (of_errno EBADMSG)).
Proof.
  intros -> -> Hls. unfold skip_name. rewrite skip_labels_wire by (unfold kMaxPointerHops; done || lia).
  done.
Qed.

(** ** Messages a server writes *)

(** A resource record; the owner name is a compression pointer or labels. *)
Record RR := mkRR {
  rr_name : option (list bytes);
  rr_type : Z;
  rr_class : Z;
  rr_ttl : bytes;
  rr_data : bytes
}.

Definition rr_ok (r : RR) : Prop :=
  match rr_name r with
  | Some ls => Forall label_ok ls /\ length ls <= kMaxPointerHops
  | None => True
  end /\
  in_range 16 (rr_type r) /\ in_range 16 (rr_class r) /\ length (rr_ttl r) = 4 /\
  in_range 16 (Z.of_nat (length (rr_data r))).

#[global] Instance rr_ok_dec r : Decision (rr_ok r).
Proof. unfold rr_ok. destruct (rr_name r); apply _. Defined.

Definition wire_name (n : option (list bytes)) : bytes :=
  match n with Some ls => wire ls | None => [0xC0; 0x0C]%Z end.

Definition wire_rr (r : RR) : bytes :=
  wire_name (rr_name r) ++ push_u16 [] (rr_type r) ++ push_u16 [] (rr_class r) ++ rr_ttl r ++
  push_u16 [] (Z.of_nat (length (rr_data r))) ++ rr_data r.

(** The address a record contributes. *)
Definition rr_addr (port : Z) (r : RR) : list SocketAddr :=
  if decide (rr_class r = 1%Z /\ rr_type r = record_code A /\ length (rr_data r) = 4)
  then [AddrV4 (rr_data r) port]
  else if decide (rr_class r = 1%Z /\ rr_type r = record_code AAAA /\ length (rr_data r) = 16)
  then [AddrV6 (rr_data r) port]
  else [].

Definition header (id flags questions answers : Z) (rest : bytes) : bytes :=
  push_u16 [] id ++ push_u16 [] flags ++ push_u16 [] questions ++ push_u16 [] answers ++ rest.

(** A response: the header, the echoed question, the answers, then anything. *)
Definition response (id flags : Z) (counts : bytes) (qname : list bytes) (qtype : Z) (rrs : list RR)
  (trailer : bytes) : bytes :=
  header id flags 1 (Z.of_nat (length rrs))
    (counts ++ wire qname ++ push_u16 [] qtype ++ push_u16 [] 1 ++ concat (map wire_rr rrs) ++ trailer).

Lemma skip_name_owner m at_ n pre post :
  m = pre ++ wire_name n ++ post -> at_ = length pre ->
  match n with Some ls => Forall label_ok ls /\ length ls <= kMaxPointerHops | None => True end ->
  skip_name m at_ = Some (Ok (at_ + length (wire_name n))).
Proof.
  intros Hm Hat Hn. destruct n as [ls|].
  - destruct Hn as [Hls Hlen]. rewrite (skip_name_wire m at_ ls pre post Hm Hat Hls).
    by rewrite decide_True.
  - unfold wire_name in *. subst. unfold skip_name. rewrite Nat.add_1_r. cbn [skip_labels].
    rewrite decide_False by (rewrite length_app; simpl; lia). cbn [app].
    rewrite (list_lookup_middle pre _ _ (length pre)) by done. simpl.
    rewrite decide_False by (rewrite length_app; simpl; lia). done.
Qed.

Lemma substr_app pre d post : substr (length pre) (length d) (pre ++ d ++ post) = d.
Proof.
  unfold substr. rewrite drop_app_length. apply take_app_length.
Qed.

Lemma read_bytes_app m at_ pre d post n :
  m = pre ++ d ++ post -> at_ = length pre -> n = length d -> read_bytes m at_ n = Some d.
Proof.
  intros -> -> ->. unfold read_bytes. rewrite decide_True by (rewrite !length_app; lia).
  by rewrite substr_app.
Qed.

(** Every answer is read, and it contributes its address. *)
Lemma read_answers_wire rrs : forall m at_ port acc pre post,
  m = pre ++ concat (map wire_rr rrs) ++ post -> at_ = length pre -> Forall rr_ok rrs ->
  read_answers (length rrs) m at_ port acc = Some (Ok (acc ++ concat (map (rr_addr port) rrs))).
Proof.
  induction rrs as [|r rrs IH]; intros m at_ port acc pre post Hm Hat Hok; simpl.
  { by rewrite app_nil_r. }
  apply Forall_cons in Hok as [(Hn & Ht & Hc & Httl & Hd) Hok].
  simpl in Hm. unfold wire_rr in Hm at 1. rewrite <- !app_assoc in Hm.
  set (tail := concat (map wire_rr rrs) ++ post) in Hm.
  rewrite (skip_name_owner m at_ (rr_name r) pre _ Hm Hat Hn). simpl.
  set (nl := length (wire_name (rr_name r))).
  assert (Hlen : length m = at_ + nl + 10 + length (rr_data r) + length tail).
  { rewrite Hm, !length_app, !length_push_u16. unfold nl. lia. }
  rewrite decide_False by lia.
  rewrite (read_u16_at m (at_ + nl) (pre ++ wire_name (rr_name r)) (rr_type r)
    (push_u16 [] (rr_class r) ++ rr_ttl r ++ push_u16 [] (Z.of_nat (length (rr_data r))) ++ rr_data r ++ tail));
    [|by rewrite Hm, <- !app_assoc|by rewrite length_app, Hat|done]. simpl.
  rewrite (read_u16_at m (at_ + nl + 2) (pre ++ wire_name (rr_name r) ++ push_u16 [] (rr_type r)) (rr_class r)
    (rr_ttl r ++ push_u16 [] (Z.of_nat (length (rr_data r))) ++ rr_data r ++ tail));
    [|by rewrite Hm, <- !app_assoc|rewrite !length_app, length_push_u16; unfold nl; lia|done]. simpl.
  rewrite (read_u16_at m (at_ + nl + 8)
    (pre ++ wire_name (rr_name r) ++ push_u16 [] (rr_type r) ++ push_u16 [] (rr_class r) ++ rr_ttl r)
    (Z.of_nat (length (rr_data r))) (rr_data r ++ tail));
    [|by rewrite Hm, <- !app_assoc|rewrite !length_app, !length_push_u16; unfold nl; lia|done]. simpl.
  rewrite Nat2Z.id. rewrite decide_False by lia.
  set (pre' := pre ++ wire_name (rr_name r) ++ push_u16 [] (rr_type r) ++ push_u16 [] (rr_class r) ++
    rr_ttl r ++ push_u16 [] (Z.of_nat (length (rr_data r)))).
  assert (Hpre' : at_ + nl + 10 = length pre').
  { unfold pre'. rewrite !length_app, !length_push_u16. unfold nl. lia. }
  assert (Hm' : m = pre' ++ rr_data r ++ tail) by (unfold pre'; by rewrite Hm, <- !app_assoc).
  assert (Hnext : forall acc', read_answers (length rrs) m (at_ + nl + 10 + length (rr_data r)) port acc' =
    Some (Ok (acc' ++ concat (map (rr_addr port) rrs)))).
  { intros acc'. apply (IH m _ port acc' (pre' ++ rr_data r) post); [|rewrite length_app; lia|done].
    by rewrite Hm', <- app_assoc. }
  unfold rr_addr at 1. change (record_code A) with 1%Z. change (record_code AAAA) with 28%Z.
  case_decide as H4.
  { rewrite (read_bytes_app m _ pre' (rr_data r) tail 4) by (done || symmetry; apply H4). simpl.
    by rewrite Hnext, <- app_assoc. }
  case_decide as H16.
  { rewrite (read_bytes_app m _ pre' (rr_data r) tail 16) by (done || symmetry; apply H16). simpl.
    by rewrite Hnext, <- app_assoc. }
  simpl. apply Hnext.
Qed.

(** What [parse_response] makes of a response, from its flags and records. *)
Definition parsed (flags port : Z) (rrs : list RR) : Result Answer :=
  let tc := bool_decide (Z.land flags 0x0200 <> 0%Z) in
  let rcode := Z.land flags 0x000F in
  if decide (rcode = 3%Z) then Err (of_errno ENOENT)
  else if decide (rcode <> 0%Z /\ tc = false) then Err (of_errno EBADMSG)
  else Ok (mkAnswer (concat (map (rr_addr port) rrs)) tc).

Record response_ok (id flags : Z) (counts : bytes) (qname : list bytes) (rrs : list RR) : Prop := {
  ro_id : in_range 16 id;
  ro_flags : in_range 16 flags;
  ro_counts : length counts = 4;
  ro_qname : Forall label_ok qname;
  ro_answers : in_range 16 (Z.of_nat (length rrs));
  ro_rrs : Forall rr_ok rrs
}.

Section header_fields.
Context (id flags qs ans : Z) (rest : bytes).
Context (Hid : in_range 16 id) (Hflags : in_range 16 flags) (Hqs : in_range 16 qs) (Hans : in_range 16 ans).

Lemma header_id : read_u16 (header id flags qs ans rest) 0 = Some id.
Proof using Hid. by eapply (read_u16_at _ 0 []). Qed.
Lemma header_flags : read_u16 (header id flags qs ans rest) 2 = Some flags.
Proof using Hflags. by eapply (read_u16_at _ 2 (push_u16 [] id)). Qed.
Lemma header_questions : read_u16 (header id flags qs ans rest) 4 = Some qs.
Proof using Hqs. by eapply (read_u16_at _ 4 (push_u16 [] id ++ push_u16 [] flags)). Qed.
Lemma header_answers : read_u16 (header id flags qs ans rest) 6 = Some ans.
Proof using Hans. by eapply (read_u16_at _ 6 (push_u16 [] id ++ push_u16 [] flags ++ push_u16 [] qs)). Qed.
End header_fields.

Lemma in_range_1 : in_range 16 1.
Proof. unfold in_range. lia. Qed.

Lemma skip_questions_S n m at_ : skip_questions (S n) m at_ =
  (next ← skip_name m at_;
   match next with
   | Err e => Some (Err e)
   | Ok next => if decide (length m < next + 4) then bad_msg else skip_questions n m (next + 4)
   end).
Proof. done. Qed.

Lemma response_length id flags counts qname qtype rrs trailer :
  length (response id flags counts qname qtype rrs trailer) =
  8 + length counts + length (wire qname) + 4 + length (concat (map wire_rr rrs)) + length trailer.
Proof. unfold response, header. rewrite !length_app, !length_push_u16. lia. Qed.

Lemma parse_response_wire id flags counts qname qtype rrs trailer port :
  response_ok id flags counts qname rrs -> length qname <= kMaxPointerHops ->
  parse_response (response id flags counts qname qtype rrs trailer) id port = Some (parsed flags port rrs).
Proof.
  intros [Hid Hflags Hcounts Hq Hans Hrrs] Hlen. unfold parse_response.
  pose proof (response_length id flags counts qname qtype rrs trailer) as Hl.
  rewrite decide_False by (unfold kHeaderBytes; lia).
  rewrite (header_id id flags 1 (Z.of_nat (length rrs)) _ Hid : read_u16 (response id flags counts qname qtype rrs trailer) 0 = Some id). cbn [mbind option_bind]. rewrite decide_False by tauto.
  rewrite (header_flags id flags 1 (Z.of_nat (length rrs)) _ Hflags : read_u16 (response id flags counts qname qtype rrs trailer) 2 = Some flags). cbn [mbind option_bind]. unfold parsed.
  case_decide; [done|]. case_decide; [done|].
  rewrite (header_questions id flags 1 (Z.of_nat (length rrs)) _ in_range_1 : read_u16 (response id flags counts qname qtype rrs trailer) 4 = Some 1%Z). cbn [mbind option_bind].
  rewrite (header_answers id flags 1 (Z.of_nat (length rrs)) _ Hans : read_u16 (response id flags counts qname qtype rrs trailer) 6 = Some (Z.of_nat (length rrs))). cbn [mbind option_bind].
  change (Z.to_nat 1) with 1. rewrite skip_questions_S.
  set (pre := push_u16 [] id ++ push_u16 [] flags ++ push_u16 [] 1 ++ push_u16 [] (Z.of_nat (length rrs)) ++ counts).
  assert (Hpre : length pre = kHeaderBytes).
  { unfold pre, kHeaderBytes. rewrite !length_app, !length_push_u16. lia. }
  set (m := response id flags counts qname qtype rrs trailer) in *.
  assert (Hm : m = pre ++ wire qname ++ push_u16 [] qtype ++ push_u16 [] 1 ++ concat (map wire_rr rrs) ++ trailer).
  { unfold m, response, header, pre. by rewrite <- !app_assoc. }
  rewrite (skip_name_wire m kHeaderBytes qname pre _ Hm) by done.
  rewrite decide_True by done. cbn [mbind option_bind skip_questions].
  rewrite decide_False by (unfold kHeaderBytes; lia). cbn [mbind option_bind]. rewrite Nat2Z.id.
  rewrite (read_answers_wire rrs m _ port [] (pre ++ wire qname ++ push_u16 [] qtype ++ push_u16 [] 1) trailer).
  - done.
  - by rewrite Hm, <- !app_assoc.
  - rewrite !length_app, !length_push_u16. lia.
  - done.
Qed.

(** A question of more labels than [skip_name] takes fails the message. *)
Lemma parse_response_long id flags counts qname qtype rrs trailer port :
  response_ok id flags counts qname rrs -> kMaxPointerHops < length qname ->
  Z.land flags 0x000F = 0%Z ->
  parse_response (response id flags counts qname qtype rrs trailer) id port = Some (Err (of_errno EBADMSG)).
Proof.
  intros [Hid Hflags Hcounts Hq Hans Hrrs] Hlen Hrc. unfold parse_response.
  pose proof (response_length id flags counts qname qtype rrs trailer) as Hl.
  rewrite decide_False by (unfold kHeaderBytes; lia).
  rewrite (header_id id flags 1 (Z.of_nat (length rrs)) _ Hid : read_u16 (response id flags counts qname qtype rrs trailer) 0 = Some id). cbn [mbind option_bind]. rewrite decide_False by tauto.
  rewrite (header_flags id flags 1 (Z.of_nat (length rrs)) _ Hflags : read_u16 (response id flags counts qname qtype rrs trailer) 2 = Some flags). cbn [mbind option_bind]. rewrite Hrc.
  rewrite decide_False by lia. rewrite decide_False by tauto.
  rewrite (header_questions id flags 1 (Z.of_nat (length rrs)) _ in_range_1 : read_u16 (response id flags counts qname qtype rrs trailer) 4 = Some 1%Z). cbn [mbind option_bind].
  rewrite (header_answers id flags 1 (Z.of_nat (length rrs)) _ Hans : read_u16 (response id flags counts qname qtype rrs trailer) 6 = Some (Z.of_nat (length rrs))). cbn [mbind option_bind].
  change (Z.to_nat 1) with 1. rewrite skip_questions_S.
  rewrite (skip_name_wire _ kHeaderBytes qname (push_u16 [] id ++ push_u16 [] flags ++ push_u16 [] 1 ++
    push_u16 [] (Z.of_nat (length rrs)) ++ counts)
    (push_u16 [] qtype ++ push_u16 [] 1 ++ concat (map wire_rr rrs) ++ trailer)).
  - by rewrite decide_False by lia.
  - unfold response, header. by rewrite <- !app_assoc.
  - unfold kHeaderBytes. rewrite !length_app, !length_push_u16. lia.
  - done.
Qed.
