(* ===== verification/Resolver.v ===== *)
(** * The DNS stub resolver (src/dns.cpp)

    The hosts file and resolv.conf readers, one UDP or TCP query, the retry
    loop over the configured servers and the lookups. The sockets the queries
    run on are the interface [Transport]; the files are their contents. *)

From S2P Require Import Prelude Result Bytes Net Dns.

Set Default Proof Using "Type".

Definition blanks : bytes := [cSpace; cTab].
Definition nameserver : bytes := [110; 97; 109; 101; 115; 101; 114; 118; 101; 114]%Z.

(** ** Files as lines *)

(** [std::getline] over a whole file: a final newline starts no line. *)
Fixpoint getlines (s : bytes) : list bytes :=
  match s with
  | [] => []
  | c :: s =>
      if decide (c = 10%Z) then [] :: getlines s
      else match s with
           | [] => [[c]]
           | _ => match getlines s with l :: ls => (c :: l) :: ls | [] => [[c]] end
           end
  end.

(** [line.resize(hash)] at the first [c]. *)
Definition cut_at (c : byte) (line : bytes) : bytes :=
  match find c 0 line with Some i => take i line | None => line end.

(** [tolower] of the C locale. *)
Definition to_lower (c : byte) : byte := if decide (65 <= c <= 90)%Z then (c + 32)%Z else c.

(** [strncasecmp(a, b, n) == 0]; the end of a string is its NUL. *)
Fixpoint strncasecmp_eq (n : nat) (a b : bytes) : bool :=
  match n with
  | O => true
  | S n =>
      match a, b with
      | x :: a, y :: b =>
          bool_decide (to_lower x = to_lower y) &&
          (if decide (x = 0%Z) then true else strncasecmp_eq n a b)
      | x :: _, [] => bool_decide (x = 0%Z)
      | [], y :: _ => bool_decide (y = 0%Z)
      | [], [] => true
      end
  end.

(** The loop over the names of a hosts line, from position [field]. *)
Fixpoint names_match (fuel : nat) (line name : bytes) (field : nat) : bool :=
  match fuel with
  | O => false
  | S fuel =>
      match find_first_not_of blanks field line with
      | None => false
      | Some field =>
          let end_ := find_first_of blanks field line in
          let length_ := match end_ with None => length line - field | Some e => e - field end in
          if bool_decide (length_ = length name) && strncasecmp_eq length_ (drop field line) name then true
          else match end_ with None => false | Some e => names_match fuel line name e end
      end
  end.

Section libc.
Context (inet_pton : Family -> bytes -> option bytes).

Definition host_line (line name : bytes) (port : Z) : list SocketAddr :=
  let line := cut_at cHash line in
  match find_first_not_of blanks 0 line with
  | None => []
  | Some at_ =>
      match find_first_of blanks at_ line with
      | None => []
      | Some address_end =>
          let address := substr at_ (address_end - at_) line in
          if names_match (S (length line)) line name address_end then
            match addr_parse inet_pton address port with Ok a => [a] | Err _ => [] end
          else []
      end
  end.

(** [None] is a file that does not open. *)
Definition hosts_file_lookup (file : option bytes) (name : bytes) (port : Z) : list SocketAddr :=
  match file with
  | None => []
  | Some text => concat (map (fun line => host_line line name port) (getlines text))
  end.

Definition server_line (line : bytes) (port : Z) : list SocketAddr :=
  let line := cut_at cSemicolon (cut_at cHash line) in
  match find_first_not_of blanks 0 line with
  | None => []
  | Some at_ =>
      if decide (substr at_ 10 line <> nameserver) then []
      else
        match find_first_not_of blanks (at_ + 10) line with
        | None => []
        | Some at_ =>
            let host := match find_first_of (blanks ++ [cPercent]) at_ line with
                        | None => drop at_ line
                        | Some e => substr at_ (e - at_) line
                        end in
            match addr_parse inet_pton host port with Ok a => [a] | Err _ => [] end
        end
  end.

Definition system_servers (file : option bytes) (port : Z) : list SocketAddr :=
  match file with
  | None => []
  | Some text => concat (map (fun line => server_line line port) (getlines text))
  end.
End libc.

(** ** Queries *)

(** What the resolver asks of the network: the sockets of the net component,
    the clock and the caller's token. *)
Class Transport (W : Type) := {
  udp_socket : Type;
  tcp_stream : Type;
  (** [UdpConn::listen] on the any address of the server's family. *)
  udp_listen : bool -> ST W (Result udp_socket);
  udp_set_cancel : udp_socket -> ST W unit;
  udp_set_deadline : udp_socket -> Z -> ST W unit;
  udp_write_to : udp_socket -> bytes -> SocketAddr -> ST W (Result nat);
  (** The datagram received, at most [kMaxUdpMessage] bytes. *)
  udp_read_from : udp_socket -> nat -> ST W (Result bytes);
  (** [TcpConn::dial] under a token that the deadline or the caller cancels,
      and that token's cause. *)
  tcp_dial : SocketAddr -> Z -> ST W (Result tcp_stream);
  attempt_err : Z -> ST W Error;
  tcp_set_deadline : tcp_stream -> Z -> ST W unit;
  tcp_set_cancel : tcp_stream -> ST W unit;
  tcp_write : tcp_stream -> bytes -> ST W (Result nat);
  (** [io::read_full]. *)
  tcp_read_full : tcp_stream -> nat -> ST W (Result bytes);
  clock_now : ST W Z;
  token_cancelled : ST W bool
}.

Section queries.
Context {W : Type} `{!Transport W}.
(** Whether the caller gave a token. *)
Context (cancel : bool).

Definition when (b : bool) (m : ST W unit) : ST W unit := if b then m else st_ret tt.

(** The receive loop of [query_udp_once]; every turn reads one datagram. *)
Fixpoint udp_loop (fuel : nat) (socket : udp_socket) (id port : Z) : ST W (Result Answer) :=
  match fuel with
  | O => st_fail
  | S fuel =>
      received <-- udp_read_from socket kMaxUdpMessage;
      match received with
      | Err e => st_ret (Err e)
      | Ok data =>
          answer <-- st_lift (fun _ => parse_response data id port);
          match answer with
          | Ok a => st_ret (Ok a)
          | Err e => if is_code e EBADMSG then udp_loop fuel socket id port else st_ret (Err e)
          end
      end
  end.

Definition query_udp_once (fuel : nat) (server : SocketAddr) (request : bytes) (id port deadline : Z)
  : ST W (Result Answer) :=
  socket <-- udp_listen (bool_decide (family server = AF_INET6));
  match socket with
  | Err e => st_ret (Err e)
  | Ok socket =>
      when cancel (udp_set_cancel socket);;;
      udp_set_deadline socket deadline;;;
      sent <-- udp_write_to socket request server;
      match sent with
      | Err e => st_ret (Err e)
      | Ok _ => udp_loop fuel socket id port
      end
  end.

(** The part of [query_tcp_once] after the dial. *)
Definition tcp_exchange (stream : tcp_stream) (request : bytes) (id port : Z) : ST W (Result Answer) :=
  written <-- tcp_write stream (tcp_frame request);
  match written with
  | Err e => st_ret (Err e)
  | Ok _ =>
      read <-- tcp_read_full stream 2;
      match read with
      | Err e => st_ret (Err e)
      | Ok length_bytes =>
          length_ <-- st_lift (fun _ => read_u16 length_bytes 0);
          if decide (length_ < Z.of_nat kHeaderBytes)%Z then st_ret (Err (of_errno EBADMSG))
          else
            read <-- tcp_read_full stream (Z.to_nat length_);
            match read with
            | Err e => st_ret (Err e)
            | Ok response => st_lift (fun _ => parse_response response id port)
            end
      end
  end.

Definition query_tcp_once (server : SocketAddr) (request : bytes) (id port deadline : Z)
  : ST W (Result Answer) :=
  stream <-- tcp_dial server deadline;
  match stream with
  | Err e =>
      if is_cancelled e then
        cause <-- attempt_err deadline;
        if error_bool cause then st_ret (Err cause) else st_ret (Err e)
      else st_ret (Err e)
  | Ok stream =>
      tcp_set_deadline stream deadline;;;
      when cancel (tcp_set_cancel stream);;;
      tcp_exchange stream request id port
  end.

(** A definitive failure is not retried. *)
Definition definitive (e : Error) : bool := is_code e ENOENT || is_errc e cancelled.

(** What one turn of the server loop does: return, or go on with [last]. *)
Definition Turn : Type := (Result (list SocketAddr)) + Error.

Definition one_server (fuel : nat) (name : bytes) (type : RecordType) (port timeout : Z)
  (server : SocketAddr) (counter : Z) : ST W (Turn * Z) :=
  stop <-- (if cancel then token_cancelled else st_ret false);
  if stop : bool then st_ret (inl (Err (of_errc cancelled)), counter)
  else
    let '(id, counter) := next_query_id counter in
    request <-- st_lift (fun _ => build_query name type id);
    match request with
    | Err e => st_ret (inl (Err e), counter)
    | Ok request =>
        now <-- clock_now;
        let deadline := (now + timeout)%Z in
        answer <-- query_udp_once fuel server request id port deadline;
        match answer with
        | Ok a =>
            if truncated a then
              complete <-- query_tcp_once server request id port deadline;
              match complete with
              | Ok c => st_ret (inl (Ok (addresses c)), counter)
              | Err last =>
                  if definitive last then st_ret (inl (Err last), counter)
                  else st_ret (inr last, counter)
              end
            else st_ret (inl (Ok (addresses a)), counter)
        | Err last =>
            if definitive last then st_ret (inl (Err last), counter) else st_ret (inr last, counter)
        end
    end.

Section retry.
(** One turn of the loop body, and the query id counter it leaves. *)
Context (turn : SocketAddr -> Z -> ST W (Turn * Z)).

Fixpoint try_servers (servers : list SocketAddr) (last : Error) (counter : Z) : ST W (Turn * Z) :=
  match servers with
  | [] => st_ret (inr last, counter)
  | server :: servers =>
      r <-- turn server counter;
      match r with
      | (inl r, counter) => st_ret (inl r, counter)
      | (inr last, counter) => try_servers servers last counter
      end
  end.

Fixpoint try_attempts (attempts : nat) (servers : list SocketAddr) (last : Error) (counter : Z)
  : ST W (Result (list SocketAddr) * Z) :=
  match attempts with
  | O => st_ret (Err last, counter)
  | S attempts =>
      r <-- try_servers servers last counter;
      match r with
      | (inl r, counter) => st_ret (r, counter)
      | (inr last, counter) => try_attempts attempts servers last counter
      end
  end.
End retry.
End queries.

(** ** Lookups *)

Record Config := mkConfig {
  servers : list SocketAddr;
  timeout : Z;
  attempts : nat;
  ipv4 : bool;
  ipv6 : bool;
  use_hosts_file : bool
}.

(** Two seconds, in nanoseconds. *)
Definition kDefaultTimeout : Z := 2000000000.

Section lookups.
Context {W : Type} `{!Transport W} (cancel : bool).
Context (inet_pton : Family -> bytes -> option bytes) (hosts resolv_conf : option bytes).

Definition server_list (config : Config) : list SocketAddr :=
  match servers config with [] => system_servers inet_pton resolv_conf 53 | l => l end.
Definition effective_timeout (config : Config) : Z :=
  if decide (0 < timeout config)%Z then timeout config else kDefaultTimeout.
Definition effective_attempts (config : Config) : nat :=
  if decide (attempts config = 0) then 1 else attempts config.

Definition resolve_type (fuel : nat) (config : Config) (name : bytes) (port : Z) (type : RecordType)
  (counter : Z) : ST W (Result (list SocketAddr) * Z) :=
  let servers := server_list config in
  if decide (servers = []) then st_ret (Err (of_errno ECONNREFUSED), counter)
  else
    try_attempts (one_server cancel fuel name type port (effective_timeout config))
      (effective_attempts config) servers (of_errno ETIMEDOUT) counter.

(** The hosts file, for the families the lookup asked for. *)
Definition from_hosts (config : Config) (wanted : SocketAddr -> bool) (host : bytes) (port : Z)
  : list SocketAddr :=
  if use_hosts_file config
  then List.filter wanted (hosts_file_lookup inet_pton hosts host port) else [].

Definition want_type (type : RecordType) (a : SocketAddr) : bool :=
  bool_decide (family a = match type with AAAA => AF_INET6 | A => AF_INET end).

Definition lookup_type (fuel : nat) (config : Config) (host : bytes) (port : Z) (type : RecordType)
  (counter : Z) : ST W (Result (list SocketAddr) * Z) :=
  stop <-- (if cancel then token_cancelled else st_ret false);
  if stop : bool then st_ret (Err (of_errc cancelled), counter)
  else
    match addr_parse inet_pton host port with
    | Ok literal => st_ret (Ok [literal], counter)
    | Err _ =>
        match from_hosts config (want_type type) host port with
        | [] => resolve_type fuel config host port type counter
        | a :: found => st_ret (Ok (a :: found), counter)
        end
    end.

Definition want_family (config : Config) (a : SocketAddr) : bool :=
  if decide (family a = AF_INET6) then ipv6 config else ipv4 config.

(** [Resolver::lookup] up to its queries: an answer, or the record types that
    are resolved, concurrently when there are two. *)
Definition lookup_plan (config : Config) (cancelled_now : bool) (host : bytes) (port : Z)
  : Result (list SocketAddr) + list RecordType :=
  if cancelled_now then inl (Err (of_errc cancelled))
  else
    match addr_parse inet_pton host port with
    | Ok literal => inl (Ok [literal])
    | Err _ =>
        if negb (ipv4 config) && negb (ipv6 config) then inl (Err (of_errno EINVAL))
        else
          match from_hosts config (want_family config) host port with
          | a :: found => inl (Ok (a :: found))
          | [] =>
              if negb (ipv6 config) then inr [A]
              else if negb (ipv4 config) then inr [AAAA]
              else inr [AAAA; A]
          end
    end.
End lookups.

(** The merge of the two concurrent queries. *)
Definition merge_answers (v6 v4 : Result (list SocketAddr)) : Result (list SocketAddr) :=
  let merged := value_or v6 [] ++ value_or v4 [] in
  match merged with
  | [] =>
      if negb (has_value v4) && is_errc (error v4) cancelled then Err (error v4)
      else if negb (has_value v6) && is_errc (error v6) cancelled then Err (error v6)
      else Err (of_errno ENOENT)
  | _ => Ok merged
  end.

(** The answer of a lookup, given what its queries return. *)
Definition lookup_finish (answers : RecordType -> Result (list SocketAddr))
  (plan : Result (list SocketAddr) + list RecordType) : Result (list SocketAddr) :=
  match plan with
  | inl r => r
  | inr [t] => answers t
  | inr _ => merge_answers (answers AAAA) (answers A)
  end.

(** * Correctness of the resolver's readers and loops

    The hosts file reader against a tokenizer, the receive loop of a query
    and the retry loop over the servers. *)

(** ** Fields of a line *)

Definition blank (c : byte) : bool := one_of blanks c.

Fixpoint fields_go (cur s : bytes) : list bytes :=
  match s with
  | [] => if decide (cur = []) then [] else [cur]
  | c :: s =>
      if blank c then
        if decide (cur = []) then fields_go [] s else cur :: fields_go [] s
      else fields_go (cur ++ [c]) s
  end.
(** The maximal runs of non-blank bytes. *)
Definition fields (s : bytes) : list bytes := fields_go [] s.

Lemma fields_go_cur cur s : cur <> [] ->
  fields_go cur s = match find_if blank s with
                    | None => [cur ++ s]
                    | Some j => (cur ++ take j s) :: fields (drop j s)
                    end.
Proof.
  revert cur. induction s as [|c s IH]; intros cur Hc; simpl.
  { rewrite decide_False by done. by rewrite app_nil_r. }
  destruct (blank c) eqn:E; simpl.
  - rewrite decide_False by done. rewrite app_nil_r. unfold fields at 1. simpl. rewrite E. done.
  - rewrite IH by (by destruct cur). destruct (find_if blank s) as [j|]; simpl.
    + by rewrite <- app_assoc.
    + by rewrite <- app_assoc.
Qed.

(** A field starts at the first non-blank byte and ends at the next blank. *)
Lemma fields_unfold s :
  fields s = match find_if (fun c => negb (blank c)) s with
             | None => []
             | Some i =>
                 match find_if blank (drop i s) with
                 | None => [drop i s]
                 | Some j => take j (drop i s) :: fields (drop j (drop i s))
                 end
             end.
Proof.
  unfold fields at 1. induction s as [|c s IH]; [done|].
  cbn [fields_go find_if]. destruct (blank c) eqn:E; cbn [negb].
  - rewrite decide_True by done. rewrite IH.
    destruct (find_if (fun c => negb (blank c)) s); done.
  - rewrite drop_0. rewrite fields_go_cur by done. cbn [find_if]. rewrite E.
    by destruct (find_if blank s).
Qed.

Lemma find_from_drop p at_ s : find_from_if p at_ s = (fun i => at_ + i) <$> find_if p (drop at_ s).
Proof. done. Qed.

Lemma strncasecmp_eq_app n : forall a rest b, n <= length a ->
  strncasecmp_eq n (a ++ rest) b = strncasecmp_eq n a b.
Proof.
  induction n as [|n IH]; intros a rest b Hn; [done|]. destruct a as [|x a]; [simpl in Hn; lia|].
  simpl. destruct b as [|y b]; [done|]. by rewrite IH by (simpl in Hn; lia).
Qed.

Definition eq_nocase (a b : bytes) : bool := bool_decide (length a = length b) && strncasecmp_eq (length a) a b.

Lemma names_match_fields fuel : forall line name field, field <= length line -> length line - field < fuel ->
  names_match fuel line name field = existsb (fun n => eq_nocase n name) (fields (drop field line)).
Proof.
  induction fuel as [|fuel IH]; intros line name field Hl Hf; [lia|].
  cbn [names_match]. rewrite fields_unfold.
  unfold find_first_not_of, find_first_of. rewrite find_from_drop.
  change (fun x => negb (one_of blanks x)) with (fun c => negb (blank c)).
  destruct (find_if (fun c => negb (blank c)) (drop field line)) as [i|] eqn:Ei; [|done].
  destruct (find_if_Some _ _ _ Ei) as (Hi & (c & Hc & Hnb) & _). rewrite length_drop in Hi.
  cbn [fmap option_fmap option_map]. rewrite find_from_drop. rewrite !drop_drop.
  change (one_of blanks) with blank. rewrite lookup_drop in Hc.
  destruct (find_if blank (drop (field + i) line)) as [j|] eqn:Ej; cbn [fmap option_fmap option_map existsb].
  - destruct (find_if_Some _ _ _ Ej) as (Hj & _ & _). rewrite length_drop in Hj.
    assert (Hj0 : j <> 0).
    { intros ->. destruct (drop (field + i) line) as [|d r] eqn:Ed; [done|]. simpl in Ej.
      pose proof (lookup_drop line (field + i) 0) as H0. rewrite Ed, Nat.add_0_r in H0. simpl in H0.
      rewrite Hc in H0. injection H0 as ->. destruct (blank c); [done|]. by destruct (find_if blank r). }
    replace (field + i + j - (field + i)) with j by lia.
    assert (Ht : eq_nocase (take j (drop (field + i) line)) name =
      bool_decide (j = length name) && strncasecmp_eq j (drop (field + i) line) name).
    { unfold eq_nocase. rewrite length_take, length_drop. rewrite Nat.min_l by lia. f_equal.
      rewrite <- (take_drop j (drop (field + i) line)) at 2. symmetry. apply strncasecmp_eq_app.
      rewrite length_take, length_drop. lia. }
    rewrite Ht. destruct (bool_decide (j = length name) && _); [done|]. cbn [orb].
    rewrite IH by lia. rewrite drop_drop. do 3 f_equal; lia.
  - assert (Ht : eq_nocase (drop (field + i) line) name =
      bool_decide (length line - (field + i) = length name) &&
      strncasecmp_eq (length line - (field + i)) (drop (field + i) line) name).
    { unfold eq_nocase. by rewrite length_drop. }
    rewrite Ht. by destruct (bool_decide _ && _).
Qed.

Section hosts.
Context (inet_pton : Family -> bytes -> option bytes).

(** The meaning of a hosts line: an address, then its names. *)
Definition host_entry (line name : bytes) (port : Z) : list SocketAddr :=
  match fields (cut_at cHash line) with
  | [] => []
  | address :: names =>
      if existsb (fun n => eq_nocase n name) names then
        match addr_parse inet_pton address port with Ok a => [a] | Err _ => [] end
      else []
  end.

Lemma host_line_entry line name port : host_line inet_pton line name port = host_entry line name port.
Proof.
  unfold host_line, host_entry. set (l := cut_at cHash line). rewrite fields_unfold.
  unfold find_first_not_of, find_first_of. rewrite find_from_drop, drop_0.
  change (fun x => negb (one_of blanks x)) with (fun c => negb (blank c)).
  destruct (find_if (fun c => negb (blank c)) l) as [i|] eqn:Ei; [|done].
  destruct (find_if_Some _ _ _ Ei) as (Hi & _ & _).
  cbn [fmap option_fmap option_map]. rewrite find_from_drop. change (one_of blanks) with blank.
  rewrite Nat.add_0_l.
  destruct (find_if blank (drop i l)) as [j|] eqn:Ej; cbn [fmap option_fmap option_map]; [|done].
  destruct (find_if_Some _ _ _ Ej) as (Hj & _ & _). rewrite length_drop in Hj.
  rewrite names_match_fields by lia. rewrite drop_drop. unfold substr.
  replace (i + j - i) with j by lia. done.
Qed.
End hosts.

(** ** Loops *)

Section loops.
Context {W : Type} `{!Transport W}.

(** A datagram that does not end the attempt. *)
Definition rejected (id port : Z) (d : bytes) : Prop :=
  parse_response d id port = Some (Err (of_errno EBADMSG)).

(** The socket delivers these datagrams, in order. *)
Inductive delivers (s : udp_socket) : W -> list bytes -> W -> Prop :=
  | delivers_nil w : delivers s w [] w
  | delivers_cons w d w' ds w'' :
      udp_read_from s kMaxUdpMessage w = Some (Ok d, w') -> delivers s w' ds w'' ->
      delivers s w (d :: ds) w''.

(** What the loop makes of the receive that ends it. *)
Definition answer_of (id port : Z) (r : Result bytes) : option (Result Answer) :=
  match r with Err e => Some (Err e) | Ok d => parse_response d id port end.

Lemma udp_loop_run id port s ds r w w' w'' fuel :
  delivers s w ds w' -> Forall (rejected id port) ds ->
  udp_read_from s kMaxUdpMessage w' = Some (r, w'') ->
  (forall d, r = Ok d -> ~ rejected id port d) -> length ds < fuel ->
  exists a, answer_of id port r = Some a /\ udp_loop fuel s id port w = Some (a, w'').
Proof.
  intros Hd. revert fuel. induction Hd as [w|w d w1 ds w2 Hread _ IH]; intros fuel Hrej Hlast Hnot Hf.
  - destruct fuel as [|fuel]; [simpl in Hf; lia|]. cbn [udp_loop]. rewrite (st_bind_eq _ _ _ _ _ Hlast).
    destruct r as [d|e]; [|by eexists]. specialize (Hnot d eq_refl). cbn [answer_of].
    destruct (parse_response_total d id port) as (a & Ha & _). exists a. split; [done|].
    unfold st_bind, st_lift. rewrite Ha. destruct a as [a|e]; [done|].
    destruct (is_code e EBADMSG) eqn:E; [|done]. exfalso. apply Hnot. unfold rejected. rewrite Ha.
    unfold is_code in E. apply bool_decide_eq_true in E. destruct e as [c]. simpl in E. by subst.
  - destruct fuel as [|fuel]; [simpl in Hf; lia|]. cbn [udp_loop]. rewrite (st_bind_eq _ _ _ _ _ Hread).
    apply Forall_cons in Hrej as [Hr Hrej]. destruct (IH fuel Hrej Hlast Hnot) as (a & Ha & Hl); [simpl in Hf; lia|].
    exists a. split; [done|]. unfold st_bind, st_lift. rewrite Hr. by rewrite <- Hl.
Qed.

(** ... and it ends only so. *)
Lemma udp_loop_inv id port s fuel : forall w a w'', udp_loop fuel s id port w = Some (a, w'') ->
  exists ds r w', delivers s w ds w' /\ Forall (rejected id port) ds /\ length ds < fuel /\
    udp_read_from s kMaxUdpMessage w' = Some (r, w'') /\ (forall d, r = Ok d -> ~ rejected id port d) /\
    answer_of id port r = Some a.
Proof.
  induction fuel as [|fuel IH]; intros w a w''; [done|]. cbn [udp_loop]. unfold st_bind at 1.
  destruct (udp_read_from s kMaxUdpMessage w) as [[[d|e] w1]|] eqn:Hread; [| |done].
  2: { intros [= <- <-]. exists [], (Err e), w. split_and!; try done; [constructor|cbn; lia]. }
  unfold st_bind, st_lift. destruct (parse_response d id port) as [[x|e]|] eqn:Hp; [| |done].
  { intros [= <- <-]. exists [], (Ok d), w. split_and!; try done; [constructor|cbn; lia|].
    intros ? [= <-]. unfold rejected. congruence. }
  unfold is_code. case_bool_decide as He.
  - intros (ds & r & w' & Hd & Hrej & Hl & Hr & Hn & Ha)%IH. exists (d :: ds), r, w'.
    split; [by econstructor|]. split; [|split; [cbn; lia|done]]. constructor; [|done].
    unfold rejected. rewrite Hp. destruct e as [c]. cbn in He. by subst.
  - intros [= <- <-]. exists [], (Ok d), w. split_and!; try done; [constructor|cbn; lia|].
    intros ? [= <-]. unfold rejected. rewrite Hp. intros [= ->]. by apply He.
Qed.

Section retry.
Context (turn : SocketAddr -> Z -> ST W (Turn * Z)).

(** Trying these servers ends with no answer, only a last error. *)
Inductive goes_on : list SocketAddr -> Error * Z * W -> Error * Z * W -> Prop :=
  | goes_on_nil st : goes_on [] st st
  | goes_on_cons s l last c w last' c' w' st :
      turn s c w = Some ((inr last', c'), w') -> goes_on l (last', c', w') st ->
      goes_on (s :: l) (last, c, w) st.

Lemma try_servers_app l1 l2 last c : forall w,
  try_servers turn (l1 ++ l2) last c w =
  st_bind (fun r => match r with
                    | (inl r, c) => st_ret (inl r, c)
                    | (inr last, c) => try_servers turn l2 last c
                    end) (try_servers turn l1 last c) w.
Proof.
  revert last c. induction l1 as [|s l1 IH]; intros last c w; [done|].
  cbn [app try_servers]. unfold st_bind.
  destruct (turn s c w) as [[[[r|last'] c'] w']|]; [done| |done]. rewrite IH. by unfold st_bind.
Qed.

Lemma try_attempts_flat n servers last c : forall w,
  try_attempts turn n servers last c w =
  st_bind (fun r => match r with
                    | (inl r, c) => st_ret (r, c)
                    | (inr last, c) => st_ret (Err last, c)
                    end) (try_servers turn (concat (replicate n servers)) last c) w.
Proof.
  revert last c. induction n as [|n IH]; intros last c w; [done|].
  cbn [replicate concat try_attempts]. unfold st_bind at 1. unfold st_bind at 1. rewrite try_servers_app.
  unfold st_bind. destruct (try_servers turn servers last c w) as [[[[r|last'] c'] w']|]; [done| |done].
  rewrite IH. done.
Qed.

Lemma goes_on_servers l1 l2 st st' : goes_on l1 st st' ->
  try_servers turn (l1 ++ l2) (fst (fst st)) (snd (fst st)) (snd st) =
  try_servers turn l2 (fst (fst st')) (snd (fst st')) (snd st').
Proof.
  induction 1 as [st|s l last c w last' c' w' st Ht _ IH]; [done|].
  cbn [app try_servers fst snd]. rewrite (st_bind_eq _ _ _ _ _ Ht). done.
Qed.
End retry.
End loops.
