(* ===== verification/DnsProps.v ===== *)
(** * Properties of the DNS resolver

    The codec on any input and on well-formed messages, the query attempts,
    the retry order and the hosts file. *)

From S2P Require Import Prelude Result Bytes Net Dns Resolver.

Set Default Proof Using "Type".

(** [parse_response] is total: whatever bytes a server sends, every read
    is inside the message, the loops end, and the outcome is either EBADMSG,
    ENOENT or an answer whose address records have the 4 or 16 bytes of their
    family. *)
Theorem dns_parse_total m id port :
  exists r, parse_response m id port = Some r /\
    match r with
    | Ok a => kHeaderBytes <= length m /\ Forall addr_ok (addresses a)
    | Err e => e = of_errno EBADMSG \/ e = of_errno ENOENT
    end.
Proof. apply parse_response_total. Qed.

(** The message that asks for a name. *)
Definition query_wire (labels : list bytes) (type : RecordType) (id : Z) : bytes :=
  header id 0x0100 1 0 (push_u16 [] 0 ++ push_u16 [] 0 ++ wire labels ++ push_u16 [] (record_code type) ++
    push_u16 [] 1).

(** C21: [build_query] accepts exactly the names of at most 253 bytes whose
    labels, but for one trailing dot, have 1 to 63 bytes, and encodes them as
    one standard question in wire form; every other name is EINVAL. A name of
    at most 64 labels round trips: any response that echoes the question and
    carries well-formed records, compressed or not, parses to exactly the
    addresses of its A and AAAA records in order, or to the failure its flags
    announce. *)
Theorem dns_codec_roundtrip name type id :
  build_query name type id =
    Some (if decide (length name <= 253 /\ strip_root name <> [] /\
                     Forall (fun l => 1 <= length l <= 63) (split_dots (strip_root name)))
          then Ok (query_wire (split_dots (strip_root name)) type id)
          else Err (of_errno EINVAL)) /\
  (forall flags counts rrs trailer port,
     response_ok id flags counts (split_dots (strip_root name)) rrs ->
     length (split_dots (strip_root name)) <= kMaxPointerHops ->
     parse_response (response id flags counts (split_dots (strip_root name)) (record_code type) rrs trailer) id port =
       Some (parsed flags port rrs)).
Proof.
  split; [|intros; by apply parse_response_wire]. unfold build_query. rewrite encode_name_run.
  cbn [mbind option_bind]. change (name_ok name) with (length name <= 253 /\ strip_root name <> [] /\
    Forall (fun l => 1 <= length l <= 63) (split_dots (strip_root name))).
  destruct (decide (name_ok name)) as [Hn|Hn]; (destruct (decide (_ /\ _)) as [Hn'|Hn'];
    [|try by destruct Hn']); [|by destruct Hn|done]. unfold push_u16, query_wire, header. simpl.
  by rewrite <- app_assoc.
Qed.

(** a name of more than 64 labels is accepted and sent, but no response
    that echoes its question is ever accepted: [skip_name] counts labels
    against its pointer bound and answers EBADMSG, which the query loop takes
    for a stray datagram. *)
Theorem dns_long_name_unanswerable name type id flags counts rrs trailer port
  (Hn : name_ok name) (Hlong : kMaxPointerHops < length (split_dots (strip_root name)))
  (Hr : response_ok id flags counts (split_dots (strip_root name)) rrs) (Hrc : Z.land flags 0x000F = 0%Z) :
  (exists q, build_query name type id = Some (Ok q)) /\
  rejected id port (response id flags counts (split_dots (strip_root name)) (record_code type) rrs trailer).
Proof.
  split; [|by apply parse_response_long]. unfold build_query. rewrite encode_name_run.
  cbn [mbind option_bind]. rewrite decide_True by done. by eexists.
Qed.

(** C22: what ends a UDP attempt. It goes on reading over every datagram that
    [parse_response] answers with EBADMSG, and ends with the outcome of the first
    receive that is not of that kind, and only so: the answer of a datagram that
    parses, its NXDOMAIN, or the error of the receive itself, such as the deadline of
    the socket; while only datagrams of that kind arrive it does not end. A datagram
    with another id, or shorter than a header, is of that kind, so it cannot end the
    attempt; so are a malformed one and a refusal ([rcode] neither 0 nor 3, not
    truncated) under the right id, although a comment of the loop says that a
    malformed answer fails the attempt. A datagram with the right id, from whoever
    sent it, does end it once it parses, or says NXDOMAIN in its flags, whatever
    else it holds. *)
Theorem udp_attempt_outcome {W} `{!Transport W} id port (s : udp_socket) (w w'' : W) fuel a :
  (udp_loop fuel s id port w = Some (a, w'') <->
   exists ds r w', delivers s w ds w' /\ Forall (fun d => parse_response d id port = Some (Err (of_errno EBADMSG))) ds /\
     length ds < fuel /\ udp_read_from s kMaxUdpMessage w' = Some (r, w'') /\
     match r with
     | Err e => a = Err e
     | Ok d => parse_response d id port = Some a /\ a <> Err (of_errno EBADMSG)
     end) /\
  (forall d, length d < kHeaderBytes -> parse_response d id port = Some (Err (of_errno EBADMSG))) /\
  (forall d v, kHeaderBytes <= length d -> read_u16 d 0 = Some v -> v <> id ->
     parse_response d id port = Some (Err (of_errno EBADMSG))) /\
  (forall d flags, kHeaderBytes <= length d -> read_u16 d 0 = Some id -> read_u16 d 2 = Some flags ->
     (Z.land flags 0x000F = 3%Z -> parse_response d id port = Some (Err (of_errno ENOENT))) /\
     (Z.land flags 0x000F <> 0%Z -> Z.land flags 0x000F <> 3%Z -> Z.land flags 0x0200 = 0%Z ->
        parse_response d id port = Some (Err (of_errno EBADMSG)))).
Proof.
  split; [|split; [|split]].
  - split.
    + intros (ds & r & w' & Hd & Hrej & Hl & Hr & Hn & Ha)%udp_loop_inv. exists ds, r, w'. split_and!; try done.
      destruct r as [d|e]; cbn in Ha; [|congruence]. split; [done|]. intros ->. by apply (Hn d).
    + intros (ds & r & w' & Hd & Hrej & Hl & Hr & Ha).
      destruct (udp_loop_run id port s ds r w w' w'' fuel Hd Hrej Hr) as (a' & Ha' & Hrun); [|done|].
      * intros d ->. unfold rejected. destruct Ha as [-> Ha]. congruence.
      * rewrite Hrun. destruct r; cbn in Ha'; destruct_and?; congruence.
  - intros d Hl. unfold parse_response. by rewrite decide_True.
  - intros d v Hl Hv Hne. unfold parse_response. rewrite decide_False by lia. rewrite Hv. cbn [mbind option_bind].
    by rewrite decide_True.
  - intros d flags Hl Hid Hf. unfold parse_response. rewrite decide_False by lia. rewrite Hid. cbn [mbind option_bind].
    rewrite decide_False by auto. rewrite Hf. cbn [mbind option_bind]. split; [intros H3; by rewrite decide_True|].
    intros H0 H3 Htc. rewrite decide_False by done. rewrite decide_True; [done|]. split; [done|]. by rewrite Htc.
Qed.

(** the retry loop queries the servers round robin: [attempts] rounds
    over the whole list, in order. The first turn that returns decides the
    result; when every turn goes on, the result is the last error. *)
Theorem retry_round_robin {W} `{!Transport W} (turn : SocketAddr -> Z -> ST W (Turn * Z)) n servers
  pre last c (w : W) last' c' w' (Hpre : goes_on turn pre (last, c, w) (last', c', w')) :
  (concat (replicate n servers) = pre ->
    try_attempts turn n servers last c w = Some ((Err last', c'), w')) /\
  (forall s post r c'' w'', concat (replicate n servers) = pre ++ s :: post ->
    turn s c' w' = Some ((inl r, c''), w'') ->
    try_attempts turn n servers last c w = Some ((r, c''), w'')).
Proof.
  pose proof (goes_on_servers turn pre [] _ _ Hpre) as Hend. rewrite app_nil_r in Hend. cbn [fst snd] in Hend.
  split.
  - intros Hl. rewrite try_attempts_flat, Hl. unfold st_bind. by rewrite Hend.
  - intros s post r c'' w'' Hl Ht. rewrite try_attempts_flat, Hl.
    pose proof (goes_on_servers turn pre (s :: post) _ _ Hpre) as Hs. cbn [fst snd] in Hs.
    unfold st_bind. rewrite Hs. cbn [try_servers]. by rewrite (st_bind_eq _ _ _ _ _ Ht).
Qed.

(** the hosts file means what its lines say: an entry contributes its
    address exactly when one of the names after it, split at blanks and before
    any comment, is the name looked up in any letter case. *)
Theorem hosts_file_entries pton text name port :
  hosts_file_lookup pton (Some text) name port =
  concat (map (fun line => host_entry pton line name port) (getlines text)).
Proof.
  unfold hosts_file_lookup. f_equal. apply map_ext. intros line. apply host_line_entry.
Qed.

(** the outcome of a lookup. A literal or a hosts entry is answered
    without a query; a dual-stack lookup returns the IPv6 addresses before the
    IPv4 ones and never an empty list: no address at all is the caller's
    cancellation or ENOENT. A single-family lookup is its one query, whose
    empty answer is passed on as an empty list. *)
Theorem lookup_outcome pton hosts config host port answers :
  (forall a, addr_parse pton host port = Ok a ->
    lookup_plan pton hosts config false host port = inl (Ok [a])) /\
  (forall r, lookup_plan pton hosts config false host port = inl r -> r <> Ok []) /\
  (forall types, lookup_plan pton hosts config false host port = inr types ->
    match types with
    | [A] => ipv6 config = false /\ lookup_finish answers (inr types) = answers A
    | [AAAA] => ipv4 config = false /\ lookup_finish answers (inr types) = answers AAAA
    | _ => types = [AAAA; A] /\ ipv4 config = true /\ ipv6 config = true /\
        match lookup_finish answers (inr types) with
        | Ok l => l <> [] /\ l = value_or (answers AAAA) [] ++ value_or (answers A) []
        | Err e => value_or (answers AAAA) [] ++ value_or (answers A) [] = [] /\
            (e = of_errc cancelled \/ e = of_errno ENOENT)
        end
    end).
Proof.
  unfold lookup_plan. split; [intros a ->; done|].
  destruct (addr_parse pton host port) as [a|e]; [split; [intros r [= <-]; done|done]|].
  destruct (ipv4 config) eqn:E4, (ipv6 config) eqn:E6; cbn [negb andb];
    try (split; [intros r [= <-]; done|done]);
    destruct (from_hosts _ _ _ _ _ _) as [|x l]; (split; [intros r Hr; congruence|]); intros types [= <-];
    try (by split).
  split; [done|]. split; [done|]. split; [done|]. unfold lookup_finish, merge_answers.
  destruct (value_or (answers AAAA) [] ++ value_or (answers A) []) as [|y l]; [|done].
  assert (Hc : forall r : Result (list SocketAddr), negb (has_value r) && is_errc (error r) cancelled = true ->
    error r = of_errc cancelled).
  { intros r [_ H]%andb_true_iff. unfold is_errc in H. apply bool_decide_eq_true in H.
    destruct (error r) as [k]. simpl in H. by subst. }
  destruct (negb (has_value (answers A)) && _) eqn:EA; [split; [done|]; left; by apply Hc|].
  destruct (negb (has_value (answers AAAA)) && _) eqn:EB; [split; [done|]; left; by apply Hc|].
  by split; [|right].
Qed.

(** ** Witnesses *)

(** "a.b", answered by an A record under a compression pointer and a record of
    another type under its full name. *)
Definition ex_name : bytes := [97; 46; 98]%Z.
Definition ex_rrs : list RR :=
  [mkRR None 1 1 [0; 0; 0; 60]%Z [10; 0; 0; 1]%Z;
   mkRR (Some [[97]; [98]]%Z) 16 1 [0; 0; 0; 60]%Z [1; 120]%Z].

Lemma ex_response_ok : response_ok 7 0x8180 [0; 0; 0; 0]%Z (split_dots (strip_root ex_name)) ex_rrs.
Proof.
  split; [done|done|done| |done|]; apply (bool_decide_unpack _); by vm_compute.
Qed.

Lemma dns_codec_roundtrip_witness :
  name_ok ex_name /\
  parse_response (response 7 0x8180 [0; 0; 0; 0]%Z [[97]; [98]]%Z 1 ex_rrs []) 7 80 =
    Some (Ok (mkAnswer [AddrV4 [10; 0; 0; 1]%Z 80] false)).
Proof.
  split; [apply (bool_decide_unpack _); by vm_compute|].
  assert (Hl : length (split_dots (strip_root ex_name)) <= kMaxPointerHops)
    by (apply (bool_decide_unpack _); by vm_compute).
  exact (proj2 (dns_codec_roundtrip ex_name A 7) 0x8180%Z [0; 0; 0; 0]%Z ex_rrs [] 80%Z ex_response_ok Hl).
Defined.

(** Sixty-five labels of one byte. *)
Definition long_name : bytes := concat (replicate 64 [97; 46]%Z) ++ [97%Z].

Lemma long_name_ok : name_ok long_name.
Proof. apply (bool_decide_unpack _). by vm_compute. Qed.

Lemma long_response_ok : response_ok 7 0x8180 [0; 0; 0; 0]%Z (split_dots (strip_root long_name)) [].
Proof. split; [done|done|done| |done|done]. apply (bool_decide_unpack _). by vm_compute. Qed.

Lemma dns_long_name_unanswerable_witness :
  name_ok long_name /\
  rejected 7 80 (response 7 0x8180 [0; 0; 0; 0]%Z (split_dots (strip_root long_name)) 1 [] []).
Proof.
  split; [exact long_name_ok|].
  assert (Hl : kMaxPointerHops < length (split_dots (strip_root long_name)))
    by (apply (bool_decide_unpack _); by vm_compute).
  exact (proj2 (dns_long_name_unanswerable long_name A 7 0x8180 [0; 0; 0; 0]%Z [] [] 80
    long_name_ok Hl long_response_ok eq_refl)).
Defined.

(** A network that plays back a script of receives. *)
Definition Script : Type := list (Result bytes).
#[local] Instance script_transport : Transport Script := {|
  udp_socket := unit; tcp_stream := unit;
  udp_listen := fun _ => st_ret (Ok tt);
  udp_set_cancel := fun _ => st_ret tt;
  udp_set_deadline := fun _ _ => st_ret tt;
  udp_write_to := fun _ data _ => st_ret (Ok (length data));
  udp_read_from := fun _ _ s => match s with [] => None | r :: s => Some (r, s) end;
  tcp_dial := fun _ _ => st_ret (Err (of_errno ECONNREFUSED));
  attempt_err := fun _ => st_ret no_error;
  tcp_set_deadline := fun _ _ => st_ret tt;
  tcp_set_cancel := fun _ => st_ret tt;
  tcp_write := fun _ data => st_ret (Ok (length data));
  tcp_read_full := fun _ _ => st_ret (Err (of_errno ECONNRESET));
  clock_now := st_ret 0%Z;
  token_cancelled := st_ret false
|}.

(** Two forged datagrams, then the deadline. *)
Definition forged : bytes := replicate 12 0%Z.

Lemma udp_attempt_outcome_witness :
  @udp_loop Script script_transport 3 tt 7 80 [Ok forged; Ok []; Err (of_errc timed_out)] = Some (Err (of_errc timed_out), []).
Proof.
  assert (Hd : @delivers Script script_transport tt [Ok forged; Ok []; Err (of_errc timed_out)] [forged; []] [Err (of_errc timed_out)]).
  { apply (@delivers_cons Script script_transport tt _ forged [Ok []; Err (of_errc timed_out)]); [done|].
    apply (@delivers_cons Script script_transport tt _ [] [Err (of_errc timed_out)]); [done|]. apply delivers_nil. }
  assert (Hrej : Forall (rejected 7 80) [forged; []]) by (repeat constructor).
  apply (proj1 (@udp_attempt_outcome Script script_transport 7 80 tt _ [] 3 (Err (of_errc timed_out)))).
  exists [forged; []], (Err (of_errc timed_out)), [Err (of_errc timed_out)].
  split_and!; try done. cbn. lia.
Defined.

(** Two servers and two rounds; the third turn answers. *)
Definition ex_turn (server : SocketAddr) (c : Z) : ST nat (Turn * Z) :=
  fun n => Some ((if decide (n = 2) then inl (Ok [server]) else inr (of_errc timed_out), (c + 1)%Z), S n).

#[local] Instance counting_transport : Transport nat := {|
  udp_socket := unit; tcp_stream := unit;
  udp_listen := fun _ => st_ret (Ok tt);
  udp_set_cancel := fun _ => st_ret tt;
  udp_set_deadline := fun _ _ => st_ret tt;
  udp_write_to := fun _ data _ => st_ret (Ok (length data));
  udp_read_from := fun _ _ => st_ret (Err (of_errc timed_out));
  tcp_dial := fun _ _ => st_ret (Err (of_errno ECONNREFUSED));
  attempt_err := fun _ => st_ret no_error;
  tcp_set_deadline := fun _ _ => st_ret tt;
  tcp_set_cancel := fun _ => st_ret tt;
  tcp_write := fun _ data => st_ret (Ok (length data));
  tcp_read_full := fun _ _ => st_ret (Err (of_errno ECONNRESET));
  clock_now := st_ret 0%Z;
  token_cancelled := st_ret false
|}.

Lemma retry_round_robin_witness :
  try_attempts ex_turn 2 [any_v4 1; any_v4 2] (of_errno ETIMEDOUT) 0 0 = Some ((Ok [any_v4 1], 3%Z), 3).
Proof.
  assert (Hpre : goes_on ex_turn [any_v4 1; any_v4 2] (of_errno ETIMEDOUT, 0%Z, 0) (of_errc timed_out, 2%Z, 2)).
  { apply (goes_on_cons ex_turn (any_v4 1) _ _ _ _ (of_errc timed_out) 1%Z 1); [done|].
    apply (goes_on_cons ex_turn (any_v4 2) _ _ _ _ (of_errc timed_out) 2%Z 2); [done|].
    apply goes_on_nil. }
  exact (proj2 (retry_round_robin ex_turn 2 [any_v4 1; any_v4 2] _ _ _ _ _ _ _ Hpre)
    (any_v4 1) [any_v4 2] (Ok [any_v4 1]) 3%Z 3 eq_refl eq_refl).
Defined.

Lemma lookup_outcome_witness :
  addr_parse (fun f s => match f with AF_INET => Some s | _ => None end) [1; 2; 3; 4]%Z 80 =
    Ok (AddrV4 [1; 2; 3; 4]%Z 80) /\
  lookup_plan (fun f s => match f with AF_INET => Some s | _ => None end) None
    (mkConfig [] 0 0 true true true) false [1; 2; 3; 4]%Z 80 = inl (Ok [AddrV4 [1; 2; 3; 4]%Z 80]).
Proof.
  split; [done|].
  by apply (proj1 (lookup_outcome (fun f s => match f with AF_INET => Some s | _ => None end) None
    (mkConfig [] 0 0 true true true) [1; 2; 3; 4]%Z 80 (fun _ => Err no_error))).
Defined.
