(* ===== verification/Mutex.v ===== *)
(** * The task mutex (include/cio/sync.hpp, class Mutex)

    The lock word, the queue of waiters, and the interleavings of the
    lock-free paths with the critical sections of the queue lock. A task is a
    number; the intrusive list [head_]..[tail_] is the list of its nodes. *)

From S2P Require Import Prelude.

Set Default Proof Using "Type".

Definition kLocked : Z := 1.
Definition kContended : Z := 2.

Record MutexState := mkMutex {
  state_ : Z;
  waiters_ : list nat
}.

Definition new_mutex : MutexState := mkMutex 0 [].

(** [try_acquire]: the compare-exchange from exactly zero. *)
Definition try_acquire (m : MutexState) : bool * MutexState :=
  if decide (state_ m <> 0%Z) then (false, m) else (true, mkMutex kLocked (waiters_ m)).

(** The publication of waiter intent in [await_suspend]: the previous word. *)
Definition publish_intent (m : MutexState) : Z * MutexState :=
  let previous := state_ m in
  if decide (Z.land previous kContended = 0%Z)
  then (previous, mkMutex (Z.lor previous kContended) (waiters_ m)) else (previous, m).

(** The rest of [await_suspend]: [false] means that the task goes on as the
    owner. *)
Definition settle_waiter (t : nat) (previous : Z) (m : MutexState) : bool * MutexState :=
  if decide (Z.land previous kLocked = 0%Z) then (false, mkMutex (Z.lor kLocked kContended) (waiters_ m))
  else (true, mkMutex (state_ m) (waiters_ m ++ [t])).

Definition lock_suspend (t : nat) (m : MutexState) : bool * MutexState :=
  let '(previous, m) := publish_intent m in settle_waiter t previous m.

(** The lock-free path of [unlock]. *)
Definition unlock_fast (m : MutexState) : bool * MutexState :=
  if decide (Z.land (state_ m) kContended = 0%Z) then
    if decide (state_ m = kLocked) then (true, mkMutex 0 (waiters_ m)) else (false, m)
  else (false, m).

(** [unlock_contended]: the task that is handed the lock, if any. *)
Definition unlock_contended (m : MutexState) : option nat * MutexState :=
  match waiters_ m with
  | next :: rest => (Some next, mkMutex (state_ m) rest)
  | [] => (None, mkMutex 0 [])
  end.

Definition unlock (m : MutexState) : option nat * MutexState :=
  let '(ok, m) := unlock_fast m in if ok : bool then (None, m) else unlock_contended m.

(** A [Guard] carries the contended tag of the acquisition that made it. *)
Record Guard := mkGuard { g_held : bool; g_contended : bool }.
Definition empty_guard : Guard := mkGuard false false.
Definition make_guard (contended : bool) : Guard := mkGuard true contended.
Definition guard_release (g : Guard) (m : MutexState) : option nat * MutexState * Guard :=
  if g_held g then
    let '(next, m) := if g_contended g then unlock_contended m else unlock m in (next, m, empty_guard)
  else (None, m, empty_guard).

(** ** Interleavings *)

(** The owners of the lock, who is inside the queue lock between publishing
    and settling, and the log of queued waiters: those that joined and those
    that were handed the lock. *)
Record MSys := mkMSys {
  m_mutex : MutexState;
  m_owners : list nat;
  m_settling : option (nat * Z);
  m_joined : list nat;
  m_granted : list nat
}.

Definition m_init : MSys -> Prop := fun s => s = mkMSys new_mutex [] None [] [].

Inductive m_step : MSys -> MSys -> Prop :=
  | m_try m own set j g t ok m' : try_acquire m = (ok, m') ->
      m_step (mkMSys m own set j g) (mkMSys m' (if ok : bool then t :: own else own) set j g)
  | m_publish m own j g t previous m' : publish_intent m = (previous, m') ->
      m_step (mkMSys m own None j g) (mkMSys m' own (Some (t, previous)) j g)
  | m_settle m own j g t previous parked m' : settle_waiter t previous m = (parked, m') ->
      m_step (mkMSys m own (Some (t, previous)) j g)
        (mkMSys m' (if parked : bool then own else t :: own) None (if parked : bool then j ++ [t] else j) g)
  | m_unlock_fast m own1 t own2 set j g m' : unlock_fast m = (true, m') ->
      m_step (mkMSys m (own1 ++ t :: own2) set j g) (mkMSys m' (own1 ++ own2) set j g)
  | m_unlock_contended m own1 t own2 j g next m' : unlock_contended m = (next, m') ->
      m_step (mkMSys m (own1 ++ t :: own2) None j g)
        (mkMSys m' (option_list next ++ own1 ++ own2) None j (g ++ option_list next)).

(** One owner exactly while the word says locked; waiters only behind a locked
    and contended word. *)
Definition m_inv (s : MSys) : Prop :=
  m_joined s = m_granted s ++ waiters_ (m_mutex s) /\
  match m_settling s with
  | None =>
      (state_ (m_mutex s) = 0%Z /\ m_owners s = [] /\ waiters_ (m_mutex s) = []) \/
      (state_ (m_mutex s) = kLocked /\ length (m_owners s) = 1 /\ waiters_ (m_mutex s) = []) \/
      (state_ (m_mutex s) = 3%Z /\ length (m_owners s) = 1)
  | Some (_, previous) =>
      (state_ (m_mutex s) = kContended /\ previous = 0%Z /\ m_owners s = [] /\ waiters_ (m_mutex s) = []) \/
      (state_ (m_mutex s) = 3%Z /\ (previous = kLocked \/ previous = 3%Z) /\ length (m_owners s) = 1)
  end.

Lemma m_step_inv s s' : m_inv s -> m_step s s' -> m_inv s'.
Proof.
  unfold m_inv. intros [Hlog Hi] Hs.
  destruct Hs as [m own set j g t ok m' H|m own j g t previous m' H|m own j g t previous parked m' H
    |m own1 t own2 set j g m' H|m own1 t own2 j g next m' H]; cbn [m_mutex m_owners m_settling m_joined m_granted] in *.
  - unfold try_acquire in H. case_decide as Hz; inversion H; subst; [done|]. simpl in *. split; [done|].
    assert (Hz0 : state_ m = 0%Z) by lia. rewrite Hz0 in *. destruct set as [[? ?]|].
    + by destruct Hi as [(? & _)|(? & _)].
    + destruct Hi as [(_ & -> & ->)|[(? & _)|(? & _)]]; [|done|done]. right. left. done.
  - unfold publish_intent in H. cbv zeta in H.
    destruct Hi as [(E & Ho & Hw)|[(E & Ho & Hw)|(E & Ho)]]; rewrite E in H; simpl in H;
      inversion H; subst; simpl; (split; [done|]).
    + left. done.
    + right. split; [done|]. split; [by left|done].
    + right. split; [done|]. split; [by right|done].
  - unfold settle_waiter in H. destruct Hi as [(E & -> & -> & Hw)|(E & Hp & Ho)].
    + simpl in H. inversion H; subst. simpl. split; [done|]. right. right. done.
    + assert (Hl : Z.land previous kLocked <> 0%Z) by (destruct Hp as [-> | ->]; done).
      rewrite decide_False in H by done. inversion H; subst. simpl. split; [by rewrite app_assoc|].
      right. right. done.
  - unfold unlock_fast in H. destruct (decide (Z.land (state_ m) kContended = 0%Z)); [|by inversion H].
    case_decide as Hk; [|by inversion H]. inversion H; subst. simpl. split; [done|].
    rewrite Hk in Hi. rewrite length_app in Hi. simpl in Hi. destruct set as [[? ?]|].
    + by destruct Hi as [(? & _)|(? & _)].
    + destruct Hi as [(? & _)|[(_ & Hl & Hw)|(? & _)]]; [done| |done]. left. split; [done|]. split; [|done].
      apply nil_length_inv. rewrite length_app. lia.
  - unfold unlock_contended in H. rewrite length_app in Hi. simpl in Hi.
    assert (Hl : length own1 + length own2 = 0 /\ (waiters_ m <> [] -> state_ m = 3%Z)).
    { destruct Hi as [(_ & E & _)|[(_ & E & ->)|(E & Hl)]].
      - by destruct own1.
      - split; [lia|done].
      - split; [lia|done]. }
    destruct Hl as [Hl Hst]. assert (own1 = []) as -> by (apply nil_length_inv; lia).
    assert (own2 = []) as -> by (apply nil_length_inv; lia).
    destruct (waiters_ m) as [|x rest] eqn:Ew; inversion H; subst; simpl.
    + split; [by rewrite !app_nil_r|]. left. done.
    + split; [by rewrite <- app_assoc|]. right. right. split; [by apply Hst|done].
Qed.

(** C23: the task mutex excludes, hands over in order and strands nobody. In
    every interleaving of the lock-free paths with the critical sections at
    most one task owns the lock; waiters are granted it in the order in which
    they joined the queue; and while a waiter is queued there is an owner,
    whose unlock cannot take the lock-free path and so hands the lock to the
    oldest waiter. *)
Theorem mutex_excludes_fifo s (Hr : reachable m_init m_step s) :
  length (m_owners s) <= 1 /\
  (exists waiting, m_joined s = m_granted s ++ waiting /\ waiting = waiters_ (m_mutex s)) /\
  (forall t rest, waiters_ (m_mutex s) = t :: rest ->
    m_owners s <> [] /\ unlock (m_mutex s) = (Some t, mkMutex (state_ (m_mutex s)) rest)).
Proof.
  assert (Hi : m_inv s).
  { apply (reachable_invariant (init := m_init) (step := m_step) m_inv); [| |done].
    - intros x ->. split; [done|]. by left.
    - intros x y _. apply m_step_inv. }
  destruct Hi as [Hlog Hi]. split; [|split; [by eexists|]].
  - destruct (m_settling s) as [[? ?]|]; destruct Hi as [Hi|Hi]; destruct_and?; try (destruct Hi; destruct_and?);
      try lia; match goal with H : m_owners s = [] |- _ => rewrite H; simpl; lia end.
  - intros t rest Hw.
    assert (Hst : state_ (m_mutex s) = 3%Z /\ length (m_owners s) = 1).
    { destruct (m_settling s) as [[? ?]|]; destruct Hi as [Hi|Hi]; destruct_and?; try (destruct Hi; destruct_and?);
        try congruence; done. }
    destruct Hst as [Hst Hl]. split; [by destruct (m_owners s)|].
    unfold unlock, unlock_fast. rewrite Hst. simpl. unfold unlock_contended. by rewrite Hw, Hst.
Qed.

Lemma mutex_excludes_fifo_witness :
  exists s, reachable m_init m_step s /\ waiters_ (m_mutex s) = [2] /\ unlock (m_mutex s) = (Some 2, mkMutex 3 []).
Proof.
  set (s1 := mkMSys (mkMutex 1 []) [1] None [] []).
  set (s2 := mkMSys (mkMutex 3 []) [1] (Some (2, 1%Z)) [] []).
  set (s3 := mkMSys (mkMutex 3 [2]) [1] None [2] []).
  assert (H1 : reachable m_init m_step s1).
  { apply (reachable_step _ _ (mkMSys new_mutex [] None [] [])); [by apply reachable_init|].
    by apply (m_try new_mutex [] None [] [] 1 true). }
  assert (H2 : reachable m_init m_step s2).
  { apply (reachable_step _ _ s1); [exact H1|]. by apply (m_publish _ [1] [] [] 2 1%Z). }
  assert (H3 : reachable m_init m_step s3).
  { apply (reachable_step _ _ s2); [exact H2|]. by apply (m_settle _ [1] [] [] 2 1%Z true). }
  exists s3. split; [exact H3|]. split; [reflexivity|].
  apply (proj2 (proj2 (mutex_excludes_fifo s3 H3)) 2 [] eq_refl).
Defined.
