(* ===== verification/RWMutex.v ===== *)
(** * The readers-writer mutex (include/cio/sync.hpp, class RWMutex)

    One word holds the writer bit, the pending bit and the reader count; the
    queues are under a lock, whose critical sections interleave with the
    lock-free paths. A task is a number, an intrusive list of waiters is the
    list of its nodes. *)

From S2P Require Import Prelude.

Set Default Proof Using "Type".

Local Open Scope Z_scope.

Definition kWriter : Z := 1.
Definition kWriterPending : Z := 2.
Definition kReaderOne : Z := 4.
(** [~size_t{3}] as the bits a mask clears. *)
Definition mask_readers (x : Z) : Z := Z.ldiff x 3.

Record RW := mkRW {
  rw_state : Z;
  waiting_writers : Z;
  read_waiters : list nat;
  write_waiters : list nat
}.

Definition new_rw : RW := mkRW 0 0 [] [].
Definition set_state (x : Z) (m : RW) : RW := mkRW x (waiting_writers m) (read_waiters m) (write_waiters m).

(** Each loop of compare-exchanges is its successful turn. *)
Definition try_acquire_read (m : RW) : bool * RW :=
  if decide (Z.land (rw_state m) (Z.lor kWriter kWriterPending) = 0)
  then (true, set_state (rw_state m + kReaderOne) m) else (false, m).

Definition try_acquire_write (m : RW) : bool * RW :=
  if decide (rw_state m = 0) then (true, set_state kWriter m) else (false, m).

Definition acquire_read_or_publish_pending (m : RW) : bool * RW :=
  if decide (Z.land (rw_state m) (Z.lor kWriter kWriterPending) = 0)
  then (true, set_state (rw_state m + kReaderOne) m)
  else if decide (Z.land (rw_state m) kWriterPending <> 0) then (false, m)
  else (false, set_state (Z.lor (rw_state m) kWriterPending) m).

Definition acquire_write_or_publish_pending (m : RW) : bool * RW :=
  if decide (rw_state m = 0) then (true, set_state kWriter m)
  else (false, set_state (Z.lor (rw_state m) kWriterPending) m).

Definition enqueue_reader (t : nat) (m : RW) : RW :=
  mkRW (rw_state m) (waiting_writers m) (t :: read_waiters m) (write_waiters m).
Definition enqueue_writer (t : nat) (m : RW) : RW :=
  mkRW (rw_state m) (waiting_writers m + 1) (read_waiters m) (t :: write_waiters m).

(** [await_suspend] of the two awaiters; [false] means acquired. *)
Definition rlock_suspend (t : nat) (m : RW) : bool * RW :=
  let '(ok, m) := acquire_read_or_publish_pending m in
  if ok : bool then (false, m) else (true, enqueue_reader t m).
Definition lock_suspend (t : nat) (m : RW) : bool * RW :=
  let '(ok, m) := acquire_write_or_publish_pending m in
  if ok : bool then (false, m) else (true, enqueue_writer t m).

Definition publish_writer_handoff (m : RW) : RW :=
  let has_waiters := bool_decide (waiting_writers m <> 0) || bool_decide (read_waiters m <> []) in
  set_state (Z.lor kWriter (if has_waiters then kWriterPending else 0)) m.

Definition take_next_writer_locked (m : RW) : option nat * RW :=
  match write_waiters m with
  | [] => (None, m)
  | next :: rest => (Some next, mkRW (rw_state m) (waiting_writers m - 1) (read_waiters m) rest)
  end.

(** The atomic decrement of [runlock]: [Some true] goes on to the hand-off. *)
Definition runlock_fast (m : RW) : option bool * RW :=
  if decide (Z.land (rw_state m) kWriter <> 0 \/ mask_readers (rw_state m) = 0) then (None, m)
  else
    let next := rw_state m - kReaderOne in
    (Some (bool_decide (next = kWriterPending)), set_state next m).

(** The critical section of [runlock]: the writer that is handed the lock. *)
Definition runlock_slow (m : RW) : option nat * RW :=
  match take_next_writer_locked m with
  | (None, m) => (None, set_state 0 m)
  | (Some t, m) => (Some t, publish_writer_handoff m)
  end.

Definition unlock_fast (m : RW) : bool * RW :=
  if decide (rw_state m = kWriter) then (true, set_state 0 m) else (false, m).

(** Who is handed the lock. *)
Inductive Handoff := ToWriter (t : nat) | ToReaders (ts : list nat).

(** The critical section of [unlock]; [None] when no writer holds the lock. *)
Definition unlock_slow (m : RW) : option Handoff * RW :=
  if decide (Z.land (rw_state m) kWriter = 0) then (None, m)
  else
    match take_next_writer_locked m with
    | (Some t, m) => (Some (ToWriter t), publish_writer_handoff m)
    | (None, m) =>
        (Some (ToReaders (read_waiters m)),
         mkRW (Z.of_nat (length (read_waiters m)) * kReaderOne) (waiting_writers m) [] (write_waiters m))
    end.

Definition unlock (m : RW) : option Handoff * RW :=
  let '(ok, m) := unlock_fast m in if ok : bool then (None, m) else unlock_slow m.

(** ** Interleavings *)

(** What a task that holds the queue lock has left to do. *)
Inductive Pending := EnqueueReader (t : nat) | EnqueueWriter (t : nat).

(** The holders, the task inside the queue lock after it published, and the
    last reader that has left and not yet handed over. *)
Record RWSys := mkRWSys {
  s_rw : RW;
  s_readers : list nat;
  s_writers : list nat;
  s_inside : option Pending;
  s_leaving : bool
}.

Definition rw_init : RWSys -> Prop := fun s => s = mkRWSys new_rw [] [] None false.

Inductive rw_step : RWSys -> RWSys -> Prop :=
  | r_try_read m rs ws i l t ok m' : try_acquire_read m = (ok, m') ->
      rw_step (mkRWSys m rs ws i l) (mkRWSys m' (if ok : bool then t :: rs else rs) ws i l)
  | r_try_write m rs ws i l t ok m' : try_acquire_write m = (ok, m') ->
      rw_step (mkRWSys m rs ws i l) (mkRWSys m' rs (if ok : bool then t :: ws else ws) i l)
  | r_publish_read m rs ws l t ok m' : acquire_read_or_publish_pending m = (ok, m') ->
      rw_step (mkRWSys m rs ws None l)
        (mkRWSys m' (if ok : bool then t :: rs else rs) ws (if ok then None else Some (EnqueueReader t)) l)
  | r_publish_write m rs ws l t ok m' : acquire_write_or_publish_pending m = (ok, m') ->
      rw_step (mkRWSys m rs ws None l)
        (mkRWSys m' rs (if ok : bool then t :: ws else ws) (if ok then None else Some (EnqueueWriter t)) l)
  | r_enqueue_read m rs ws l t :
      rw_step (mkRWSys m rs ws (Some (EnqueueReader t)) l) (mkRWSys (enqueue_reader t m) rs ws None l)
  | r_enqueue_write m rs ws l t :
      rw_step (mkRWSys m rs ws (Some (EnqueueWriter t)) l) (mkRWSys (enqueue_writer t m) rs ws None l)
  | r_runlock m rs1 t rs2 ws i l last m' : runlock_fast m = (Some last, m') ->
      rw_step (mkRWSys m (rs1 ++ t :: rs2) ws i l) (mkRWSys m' (rs1 ++ rs2) ws i (l || last))
  | r_runlock_slow m rs ws next m' : runlock_slow m = (next, m') ->
      rw_step (mkRWSys m rs ws None true) (mkRWSys m' rs (option_list next ++ ws) None false)
  | r_unlock_fast m rs ws1 t ws2 i l m' : unlock_fast m = (true, m') ->
      rw_step (mkRWSys m rs (ws1 ++ t :: ws2) i l) (mkRWSys m' rs (ws1 ++ ws2) i l)
  | r_unlock_slow m rs ws1 t ws2 l next m' : unlock_slow m = (Some next, m') ->
      rw_step (mkRWSys m rs (ws1 ++ t :: ws2) None l)
        (mkRWSys m' (match next with ToReaders ts => ts ++ rs | ToWriter _ => rs end)
           (match next with ToWriter w => w :: ws1 ++ ws2 | ToReaders _ => ws1 ++ ws2 end) None l).

(** The word that says: this many writers, pending, this many readers. *)
Definition encode (w : nat) (p : bool) (r : nat) : Z :=
  Z.of_nat w + (if p then 2 else 0) + 4 * Z.of_nat r.

Definition someone_waits (s : RWSys) : bool :=
  bool_decide (read_waiters (s_rw s) <> []) || bool_decide (write_waiters (s_rw s) <> []) ||
  bool_decide (s_inside s <> None).

(** The word is the holders and whether someone waits. A word without holders
    but with waiters has a reader about to hand over; waiters behind readers
    include a writer. *)
Record rw_inv (s : RWSys) : Prop := {
  ri_state : rw_state (s_rw s) = encode (length (s_writers s)) (someone_waits s) (length (s_readers s));
  ri_one : (length (s_writers s) <= 1)%nat;
  ri_excl : s_writers s <> [] -> s_readers s = [];
  ri_leaving : s_leaving s = true <-> someone_waits s = true /\ s_writers s = [] /\ s_readers s = [];
  ri_writer : someone_waits s = true -> s_writers s = [] ->
    write_waiters (s_rw s) <> [] \/ exists t, s_inside s = Some (EnqueueWriter t);
  ri_count : waiting_writers (s_rw s) = Z.of_nat (length (write_waiters (s_rw s)))
}.

(** ** Words *)

Lemma encode_low w p r : (w <= 1)%nat -> encode w p r mod 4 = Z.of_nat w + (if p then 2 else 0).
Proof.
  intros Hw. unfold encode. rewrite Z.add_mod by lia. rewrite (Z.mul_comm 4), Z_mod_mult, Z.add_0_r.
  rewrite Z.mod_mod by lia. apply Z.mod_small. destruct p; lia.
Qed.

Lemma encode_land3 w p r : (w <= 1)%nat -> Z.land (encode w p r) 3 = Z.of_nat w + (if p then 2 else 0).
Proof. intros Hw. change 3 with (Z.ones 2). rewrite Z.land_ones by lia. by apply encode_low. Qed.

Lemma land_land3 x y : Z.land y 3 = y -> Z.land x y = Z.land (Z.land x 3) y.
Proof. intros H. by rewrite <- Z.land_assoc, (Z.land_comm 3), H. Qed.

Lemma encode_writer w p r : (w <= 1)%nat -> Z.land (encode w p r) kWriter = Z.of_nat w.
Proof.
  intros Hw. rewrite land_land3 by done. rewrite encode_land3 by done.
  destruct w as [|[|]]; [by destruct p..|lia].
Qed.

Lemma encode_pending w p r : (w <= 1)%nat -> Z.land (encode w p r) kWriterPending = if p then 2 else 0.
Proof.
  intros Hw. rewrite land_land3 by done. rewrite encode_land3 by done.
  destruct w as [|[|]]; [by destruct p..|lia].
Qed.

Lemma encode_readers w p r : (w <= 1)%nat -> mask_readers (encode w p r) = 4 * Z.of_nat r.
Proof.
  intros Hw. unfold mask_readers. change 3 with (Z.ones 2). rewrite Z.ldiff_ones_r by lia.
  rewrite Z.shiftr_div_pow2, Z.shiftl_mul_pow2 by lia. unfold encode.
  replace (Z.of_nat w + (if p then 2 else 0) + 4 * Z.of_nat r) with
    (Z.of_nat w + (if p then 2 else 0) + Z.of_nat r * 2 ^ 2) by lia.
  rewrite Z.div_add by lia. rewrite Z.div_small by (destruct p; lia). lia.
Qed.

Lemma encode_set_pending w p r : (w <= 1)%nat -> Z.lor (encode w p r) kWriterPending = encode w true r.
Proof.
  intros Hw. set (x := encode w p r).
  assert (Hr : Z.lor x 2 / 4 = x / 4).
  { change 4 with (2 ^ 2). rewrite <- !Z.shiftr_div_pow2 by lia. rewrite Z.shiftr_lor. apply Z.lor_0_r. }
  assert (Hm : Z.lor x 2 mod 4 = Z.of_nat w + 2).
  { change 4 with (2 ^ 2). rewrite <- Z.land_ones by lia. change (Z.ones 2) with 3.
    rewrite Z.land_lor_distr_l. unfold x. rewrite encode_land3 by done.
    destruct w as [|[|]]; [by destruct p..|lia]. }
  unfold kWriterPending. rewrite (Z.div_mod (Z.lor x 2) 4), Hr, Hm by lia.
  rewrite (Z.div_mod x 4) in Hr at 1 by lia. pose proof (Z.div_mod x 4 ltac:(lia)) as Hx.
  pose proof (encode_low w p r Hw) as Hl. fold x in Hl. unfold encode in *. fold x. unfold x in Hx at 1. lia.
Qed.

Lemma encode_zero w p r : encode w p r = 0 <-> w = 0%nat /\ p = false /\ r = 0%nat.
Proof. unfold encode. destruct p; split; try lia; intros (? & ? & ?); try done; lia. Qed.

(** ** The invariant is preserved *)

Definition waits (m : RW) (i : option Pending) : bool :=
  bool_decide (read_waiters m <> []) || bool_decide (write_waiters m <> []) || bool_decide (i <> None).

Lemma someone_waits_eq m rs ws i l : someone_waits (mkRWSys m rs ws i l) = waits m i.
Proof. done. Qed.

Lemma waits_inside m t : waits m (Some t) = true.
Proof. unfold waits. by rewrite orb_true_r. Qed.

Lemma waits_state x m i : waits (set_state x m) i = waits m i.
Proof. done. Qed.

Lemma nil_iff_length {A} (l : list A) : l = [] <-> length l = 0%nat.
Proof. split; [by intros ->|apply nil_length_inv]. Qed.

(** A hand-off to the next writer publishes whether anybody is left. *)
Lemma take_writer m t rest : write_waiters m = t :: rest -> waiting_writers m = Z.of_nat (length (write_waiters m)) ->
  exists m', take_next_writer_locked m = (Some t, m') /\
    rw_state (publish_writer_handoff m') = encode 1 (waits (publish_writer_handoff m') None) 0 /\
    write_waiters m' = rest /\ waiting_writers m' = Z.of_nat (length rest).
Proof.
  intros Hw Hc. unfold take_next_writer_locked. rewrite Hw. eexists. split; [done|]. cbn [write_waiters waiting_writers].
  assert (Hcr : waiting_writers m - 1 = Z.of_nat (length rest)) by (rewrite Hc, Hw; simpl; lia).
  split; [|done]. unfold publish_writer_handoff, waits. simpl. rewrite Hcr, orb_false_r.
  assert (Hb : bool_decide (Z.of_nat (length rest) <> 0) = bool_decide (rest <> [])).
  { apply bool_decide_ext. rewrite nil_iff_length. lia. }
  rewrite Hb, orb_comm. by destruct (bool_decide (read_waiters m <> []) || bool_decide (rest <> [])).
Qed.

Section preserve.
Context (m : RW) (rs ws : list nat) (i : option Pending) (l : bool).
Context (Hi : rw_inv (mkRWSys m rs ws i l)).

Lemma granted_read t : Z.land (rw_state m) (Z.lor kWriter kWriterPending) = 0 ->
  rw_inv (mkRWSys (set_state (rw_state m + kReaderOne) m) (t :: rs) ws i l).
Proof using Hi.
  intros Hz. destruct Hi as [Hs H1 Hx Hl Hw Hc]. cbn in *. rewrite someone_waits_eq in *.
  rewrite Hs in Hz. change (Z.lor kWriter kWriterPending) with 3 in Hz. rewrite encode_land3 in Hz by done.
  assert (Hp : waits m i = false) by (destruct (waits m i); [lia|done]).
  assert (Hws : ws = []) by (apply nil_iff_length; rewrite Hp in Hz; lia). subst ws.
  split; cbn; rewrite ?someone_waits_eq, ?waits_state, ?Hp in *; try done.
  - rewrite Hs. unfold encode, kReaderOne. simpl. lia.
  - rewrite Hl. by split; intros (? & _).
Qed.

Lemma granted_write t : rw_state m = 0 -> rw_inv (mkRWSys (set_state kWriter m) rs (t :: ws) i l).
Proof using Hi.
  intros Hz. destruct Hi as [Hs H1 Hx Hl Hw Hc]. cbn in *. rewrite someone_waits_eq in *.
  rewrite Hs in Hz. apply encode_zero in Hz as (Hw0 & Hp & Hr0).
  apply nil_iff_length in Hw0 as ->. apply nil_iff_length in Hr0 as ->.
  split; cbn; rewrite ?someone_waits_eq, ?waits_state, ?Hp in *; try done.
  rewrite Hl. by split; intros (? & _).
Qed.

(** Publishing that task [p] waits, on a word that is not free. *)
Lemma published p x : i = None -> rw_state m <> 0 ->
  (x = rw_state m /\ waits m i = true \/ x = Z.lor (rw_state m) kWriterPending) ->
  (waits m i = false -> ws = [] -> exists t, p = EnqueueWriter t) ->
  rw_inv (mkRWSys (set_state x m) rs ws (Some p) l).
Proof using Hi.
  intros -> Hz Hx Hp. destruct Hi as [Hs H1 Hx0 Hl Hw Hc]. cbn in *. rewrite someone_waits_eq in *.
  assert (Hnf : waits m None = false -> ws <> [] \/ rs <> []).
  { intros E. rewrite E in Hs. destruct ws as [|? ?]; [|by left]. destruct rs as [|? ?]; [|by right]. by destruct Hz. }
  split; cbn; rewrite ?someone_waits_eq, ?waits_inside; try done.
  - destruct Hx as [[-> E] | ->]; [by rewrite Hs, E|]. rewrite Hs. by apply encode_set_pending.
  - rewrite Hl. destruct (waits m None); [done|]. split; [by intros [? _]|].
    intros (_ & -> & ->). by destruct (Hnf eq_refl).
  - intros _ ->. destruct (waits m None) eqn:E.
    + destruct (Hw eq_refl eq_refl) as [?|[t ?]]; [by left|done].
    + destruct (Hp eq_refl eq_refl) as [t ->]. right. by exists t.
Qed.
End preserve.

Lemma rw_step_inv s s' : rw_inv s -> rw_step s s' -> rw_inv s'.
Proof.
  intros Hi Hs. destruct Hs as
    [m rs ws i l t ok m' H|m rs ws i l t ok m' H|m rs ws l t ok m' H|m rs ws l t ok m' H|m rs ws l t|m rs ws l t
    |m rs1 t rs2 ws i l last m' H|m rs ws next m' H|m rs ws1 t ws2 i l m' H|m rs ws1 t ws2 l next m' H].
  - unfold try_acquire_read in H. case_decide; inversion H; subst; [by apply granted_read|done].
  - unfold try_acquire_write in H. case_decide; inversion H; subst; [by apply granted_write|done].
  - unfold acquire_read_or_publish_pending in H. pose proof (ri_one _ Hi) as H1. pose proof (ri_state _ Hi) as Hst.
    cbn in H1, Hst. rewrite someone_waits_eq in Hst.
    case_decide as Hz; [inversion H; subst; by apply granted_read|].
    assert (Hne : rw_state m <> 0) by (intros E; rewrite E in Hz; done).
    rewrite Hst in H, Hz. change (Z.lor kWriter kWriterPending) with 3 in Hz.
    rewrite encode_land3 in Hz by done. rewrite encode_pending in H by done.
    case_decide as Hp; inversion H; subst.
    + replace m' with (set_state (rw_state m') m') by (by destruct m').
      assert (Hwt : waits m' None = true) by (destruct (waits m' None); [done|lia]).
      eapply published; [done|done|done|by left|by rewrite Hwt].
    + rewrite <- Hst. eapply published; [done|done|done|by right|].
      intros _ ->. destruct (waits m None); simpl in *; lia.
  - unfold acquire_write_or_publish_pending in H. case_decide; inversion H; subst; [by apply granted_write|].
    eapply published; [done|done|done|by right|]. intros _ _. by exists t.
  - destruct Hi as [Hst H1 Hx Hl Hw Hc]. cbn in *. rewrite someone_waits_eq, waits_inside in *.
    assert (E : waits (enqueue_reader t m) None = true) by done.
    split; cbn; rewrite ?someone_waits_eq, ?E; try done.
    intros _ Hws. destruct (Hw eq_refl Hws) as [?|[? ?]]; [by left|done].
  - destruct Hi as [Hst H1 Hx Hl Hw Hc]. cbn in *. rewrite someone_waits_eq, waits_inside in *.
    assert (E : waits (enqueue_writer t m) None = true) by (unfold waits; simpl; by rewrite orb_true_r).
    split; cbn; rewrite ?someone_waits_eq, ?E; try done; [by left|lia].
  - destruct Hi as [Hst H1 Hx Hl Hw Hc]. cbn in *. rewrite someone_waits_eq in *.
    unfold runlock_fast in H. case_decide as Hg; [done|]. cbv zeta in H. inversion H; subst. clear H.
    assert (ws = []) as -> by (destruct ws; [done|]; specialize (Hx ltac:(done)); by destruct rs1).
    assert (Hst' : rw_state m - kReaderOne = encode 0 (waits m i) (length (rs1 ++ rs2))).
    { rewrite Hst. unfold encode, kReaderOne. rewrite !length_app. simpl. lia. }
    assert (l = false) as ->.
    { destruct l; [|done]. destruct (proj1 Hl eq_refl) as (_ & _ & E). by destruct rs1. }
    split; cbn; rewrite ?someone_waits_eq, ?waits_state; try done.
    rewrite bool_decide_eq_true, Hst'. rewrite (nil_iff_length (rs1 ++ rs2)). unfold encode, kWriterPending.
    destruct (waits m i); split.
    + intros H. split; [done|]. split; [done|lia].
    + intros (_ & _ & H). lia.
    + intros H. lia.
    + by intros (H & _).
  - destruct Hi as [Hst H1 Hx Hl Hw Hc]. cbn in *. rewrite someone_waits_eq in *.
    destruct (proj1 Hl eq_refl) as (Hwt & -> & ->). destruct (Hw Hwt eq_refl) as [Hne|[? ?]]; [|done].
    destruct (write_waiters m) as [|w rest] eqn:Ew; [done|]. rewrite <- Ew in Hc.
    destruct (take_writer m w rest Ew Hc) as (m1 & Ht & Hs1 & Hr1 & Hc1).
    unfold runlock_slow in H. rewrite Ht in H. inversion H; subst.
    split; cbn; rewrite ?someone_waits_eq; try done. split; [done|]. intros (_ & ? & _). done.
  - destruct Hi as [Hst H1 Hx Hl Hw Hc]. cbn in *. rewrite someone_waits_eq in *.
    unfold unlock_fast in H. case_decide as Hk; inversion H; subst. rewrite length_app in H1. simpl in H1.
    assert (ws1 = []) as -> by (apply nil_iff_length; lia). assert (ws2 = []) as -> by (apply nil_iff_length; lia).
    specialize (Hx ltac:(done)). subst rs. rewrite Hk in Hst. unfold encode, kWriter in Hst. simpl in Hst.
    assert (Hp : waits m i = false) by (destruct (waits m i); [lia|done]).
    split; cbn; rewrite ?someone_waits_eq, ?waits_state, ?Hp in *; try done; try lia.
    rewrite Hl. split; intros (? & _); done.
  - destruct Hi as [Hst H1 Hx Hl Hw Hc]. cbn in *. rewrite someone_waits_eq in *.
    rewrite length_app in H1. simpl in H1.
    assert (ws1 = []) as -> by (apply nil_iff_length; lia). assert (ws2 = []) as -> by (apply nil_iff_length; lia).
    specialize (Hx ltac:(done)). subst rs.
    assert (l = false) as -> by (destruct l; [by destruct (proj1 Hl eq_refl) as (_ & ? & _)|done]).
    unfold unlock_slow in H. case_decide; [done|]. destruct (write_waiters m) as [|w rest] eqn:Ew.
    + unfold take_next_writer_locked in H. rewrite Ew in H. inversion H; subst. rewrite app_nil_r.
      split; cbn; rewrite ?someone_waits_eq; try done; try lia.
      * rewrite Ew. unfold encode, kReaderOne, waits. simpl. lia.
      * unfold waits. simpl. rewrite Ew. split; [done|]. by intros (? & _).
      * unfold waits. simpl. by rewrite Ew.
      * by rewrite Ew.
    + rewrite <- Ew in Hc. destruct (take_writer m w rest Ew Hc) as (m1 & Ht & Hs1 & Hr1 & Hc1).
      rewrite Ht in H. inversion H; subst.
      split; cbn; rewrite ?someone_waits_eq; try done. split; [done|]. intros (_ & ? & _). done.
Qed.

Lemma rw_reachable_inv s : reachable rw_init rw_step s -> rw_inv s.
Proof.
  apply (reachable_invariant (init := rw_init) (step := rw_step) rw_inv).
  - intros x ->. split; cbn; try done. { lia. } split; [done|]. by intros [? _].
  - intros x y _. apply rw_step_inv.
Qed.

(** C24: the readers-writer mutex excludes, prefers writers and strands
    nobody. In every interleaving there is at most one writer and no reader
    beside it; while anybody waits no new reader or writer gets in, and some
    holder, or the last reader on its way out, will hand over; a waiting
    writer is then the one that gets the lock, from the last reader as from a
    writer, and with no waiting writer all queued readers get it at once. *)
Theorem rwmutex_excludes s (Hr : reachable rw_init rw_step s) :
  (length (s_writers s) <= 1)%nat /\ (s_writers s <> [] -> s_readers s = []) /\
  (someone_waits s = true ->
    fst (try_acquire_read (s_rw s)) = false /\ fst (try_acquire_write (s_rw s)) = false /\
    (s_readers s <> [] \/ s_writers s <> [] \/ s_leaving s = true)) /\
  (forall t rest, write_waiters (s_rw s) = t :: rest ->
    (s_leaving s = true -> fst (runlock_slow (s_rw s)) = Some t) /\
    (s_writers s <> [] -> fst (unlock (s_rw s)) = Some (ToWriter t))) /\
  (write_waiters (s_rw s) = [] -> s_writers s <> [] -> read_waiters (s_rw s) <> [] ->
    fst (unlock (s_rw s)) = Some (ToReaders (read_waiters (s_rw s)))).
Proof.
  pose proof (rw_reachable_inv s Hr) as Hi. pose proof Hi as [Hst H1 Hx Hl Hw Hc].
  assert (Hwaits : read_waiters (s_rw s) <> [] \/ write_waiters (s_rw s) <> [] -> someone_waits s = true).
  { unfold someone_waits. intros [H|H]; rewrite (bool_decide_true _ H); [done|by rewrite orb_true_r]. }
  assert (Hslow : forall P, someone_waits s = true -> s_writers s <> [] ->
    (forall m', unlock_slow (s_rw s) = (P, m') -> fst (unlock (s_rw s)) = P)).
  { intros P E Hne m' H. unfold unlock, unlock_fast. rewrite Hst, E.
    rewrite decide_False; [by rewrite H|]. unfold encode, kWriter. lia. }
  assert (Hbit : s_writers s <> [] -> Z.land (rw_state (s_rw s)) kWriter <> 0).
  { intros Hne. rewrite Hst, encode_writer by done. destruct (s_writers s); [done|]. simpl. lia. }
  split; [done|]. split; [done|]. split; [|split].
  - intros E. unfold try_acquire_read, try_acquire_write. change (Z.lor kWriter kWriterPending) with 3.
    rewrite Hst, E, encode_land3 by done. rewrite !decide_False by (unfold encode; lia).
    split; [done|]. split; [done|].
    destruct (s_readers s) eqn:Er; [|by left]. destruct (s_writers s) eqn:Ew; [|by right; left].
    right. right. by apply Hl.
  - intros t rest Ew. assert (E : someone_waits s = true) by (apply Hwaits; right; by rewrite Ew).
    destruct (take_writer (s_rw s) t rest Ew Hc) as (m1 & Ht & _). split.
    + intros _. unfold runlock_slow. by rewrite Ht.
    + intros Hne. eapply Hslow; [done|done|]. unfold unlock_slow. rewrite decide_False by auto. by rewrite Ht.
  - intros Ew Hne Hrd. eapply Hslow; [by apply Hwaits; left|done|]. unfold unlock_slow.
    rewrite decide_False by auto. unfold take_next_writer_locked. by rewrite Ew.
Qed.

(** A reader holds the lock, a writer queues, the reader leaves. *)
Lemma rwmutex_excludes_witness :
  exists s, reachable rw_init rw_step s /\ s_leaving s = true /\ fst (runlock_slow (s_rw s)) = Some 2%nat.
Proof.
  set (s1 := mkRWSys (mkRW 4 0 [] []) [1%nat] [] None false).
  set (s2 := mkRWSys (mkRW 6 0 [] []) [1%nat] [] (Some (EnqueueWriter 2)) false).
  set (s3 := mkRWSys (mkRW 6 1 [] [2%nat]) [1%nat] [] None false).
  set (s4 := mkRWSys (mkRW 2 1 [] [2%nat]) [] [] None true).
  assert (H1 : reachable rw_init rw_step s1).
  { apply (reachable_step _ _ (mkRWSys new_rw [] [] None false)); [by apply reachable_init|].
    by apply (r_try_read new_rw [] [] None false 1 true). }
  assert (H2 : reachable rw_init rw_step s2).
  { apply (reachable_step _ _ s1); [exact H1|]. by apply (r_publish_write _ [1%nat] [] false 2 false). }
  assert (H3 : reachable rw_init rw_step s3).
  { apply (reachable_step _ _ s2); [exact H2|]. apply r_enqueue_write. }
  assert (H4 : reachable rw_init rw_step s4).
  { apply (reachable_step _ _ s3); [exact H3|]. by apply (r_runlock _ [] 1 [] [] None false true). }
  exists s4. split; [exact H4|]. split; [reflexivity|].
  apply (proj1 (proj1 (proj2 (proj2 (proj2 (rwmutex_excludes s4 H4)))) 2%nat [] eq_refl)). reflexivity.
Defined.
