(* ===== verification/WaitGroup.v ===== *)
(** * The wait group (include/cio/sync.hpp, class WaitGroup)

    The counter word, where 1 means that the last [done] is finishing and N+1
    means a count of N, the list of waiters or its drained marker, and the
    interleavings of [add], [done] and [wait]. *)

From S2P Require Import Prelude.

Set Default Proof Using "Type".

Local Open Scope Z_scope.

Definition kFinishing : Z := 1.
Definition kMaxCount : Z := 2 ^ 63 - 1.

(** [waiters_]: null is the empty list, or the address of the marker. *)
Inductive Waiters := Drained | Parked (ts : list nat).

Record WG := mkWG { wg_state : Z; wg_waiters : Waiters }.
Definition new_wg : WG := mkWG 0 (Parked []).

(** A throw of [std::logic_error] is [Throw]. *)
Inductive Outcome (A : Type) := Returns (a : A) | Throws.
Arguments Returns {A} a.
Arguments Throws {A}.

(** [add_positive]: the successful turn of its loop. *)
Definition add_positive (amount : Z) (g : WG) : Outcome unit * WG :=
  if decide (wg_state g = kFinishing) then (Throws, g)
  else
    let count := if decide (wg_state g = 0) then 0 else wg_state g - 1 in
    if decide (kMaxCount - count < amount) then (Throws, g)
    else
      let desired := if decide (wg_state g = 0) then amount + 1 else u64 (wg_state g + amount) in
      (Returns tt, mkWG desired (wg_waiters g)).

(** The decrement of [add] with a negative delta: whether this call finishes. *)
Definition sub_count (magnitude : Z) (g : WG) : Outcome bool * WG :=
  if decide (kMaxCount < magnitude) then (Throws, g)
  else
    let prior := wg_state g in
    let g := mkWG (u64 (prior - magnitude)) (wg_waiters g) in
    let prior_count := if decide (kFinishing < prior) then prior - 1 else 0 in
    if decide (magnitude < prior_count) then (Returns false, g)
    else if decide (prior_count < magnitude) then (Throws, g)
    else (Returns true, g).

(** The critical section of the last [done]: whom to wake. *)
Definition extract_waiters (g : WG) : list nat * WG :=
  (match wg_waiters g with Drained => [] | Parked ts => ts end, mkWG (wg_state g) Drained).

Definition publish_zero (g : WG) : WG := mkWG 0 (wg_waiters g).

(** The sole waiter gets the hand-off, several get a plain wake. *)
Inductive Wake := WakeHandoff (t : nat) | WakePlain (t : nat).
Definition wake_all (ts : list nat) : list Wake :=
  match ts with [t] => [WakeHandoff t] | _ => map WakePlain ts end.

(** [add], without interleaving. *)
Definition add (delta : Z) (g : WG) : Outcome (list Wake) * WG :=
  if decide (delta = 0) then (Returns [], g)
  else if decide (0 < delta) then
    let '(o, g) := add_positive delta g in
    (match o with Returns _ => Returns [] | Throws => Throws end, g)
  else
    let '(o, g) := sub_count (- delta) g in
    match o with
    | Throws => (Throws, g)
    | Returns false => (Returns [], g)
    | Returns true =>
        let '(ts, g) := extract_waiters g in (Returns (wake_all ts), publish_zero g)
    end.

Definition count (g : WG) : Z := if decide (kFinishing < wg_state g) then wg_state g - 1 else 0.

(** [await_ready]. *)
Definition wait_ready (g : WG) : bool := bool_decide (wg_state g = 0).

(** [park_wait]: the task is parked, goes on, or spins until the finishing
    [done] has published zero. *)
Inductive ParkResult := ParkedNow | GoesOn | Spins.
Definition park_wait (t : nat) (g : WG) : ParkResult * WG :=
  if decide (wg_state g <= kFinishing) then
    if decide (wg_state g = 0) then (GoesOn, g)
    else
      match wg_waiters g with
      | Parked ts => (ParkedNow, mkWG (wg_state g) (Parked (t :: ts)))
      | Drained => (Spins, g)
      end
  else
    let ts := match wg_waiters g with Drained => [] | Parked ts => ts end in
    (ParkedNow, mkWG (wg_state g) (Parked (t :: ts))).

(** The spin loop leaves as soon as the word is not finishing. *)
Definition spin_done (g : WG) : bool := bool_decide (wg_state g <> kFinishing).

(** ** Interleavings *)

(** Where the last [done] is: it has decremented, or taken the waiters. *)
Inductive Finisher := Decremented | Extracted (ts : list nat).

(** [w_zeros] counts the zero transitions; a parked task is recorded with the
    number of transitions before it parked, a woken one also with the number
    at its wake. *)
Record WGSys := mkWGSys {
  w_group : WG;
  w_finisher : option Finisher;
  w_spinning : list nat;
  w_zeros : nat;
  w_parked_at : list (nat * nat);
  w_woken : list (nat * nat * nat)
}.

Definition wg_init : WGSys -> Prop := fun s => s = mkWGSys new_wg None [] 0 [] [].

(** Wakes the tasks [ts] at transition [z]. *)
Definition woken_now (z : nat) (ts : list nat) (parked : list (nat * nat)) : list (nat * nat * nat) :=
  map (fun p => (fst p, snd p, z)) (filter (fun p => fst p ∈ ts) parked).
Definition still_parked (ts : list nat) (parked : list (nat * nat)) : list (nat * nat) :=
  filter (fun p => fst p ∉ ts) parked.

Inductive wg_step : WGSys -> WGSys -> Prop :=
  | w_add g f sp z pa wo n o g' : 0 < n -> add_positive n g = (o, g') ->
      wg_step (mkWGSys g f sp z pa wo) (mkWGSys g' f sp z pa wo)
  | w_sub g sp z pa wo f n last g' : 0 < n -> sub_count n g = (Returns last, g') ->
      wg_step (mkWGSys g f sp z pa wo) (mkWGSys g' (if last : bool then Some Decremented else f) sp z pa wo)
  | w_extract g sp z pa wo ts g' : extract_waiters g = (ts, g') ->
      wg_step (mkWGSys g (Some Decremented) sp z pa wo) (mkWGSys g' (Some (Extracted ts)) sp z pa wo)
  | w_publish g sp z pa wo ts :
      wg_step (mkWGSys g (Some (Extracted ts)) sp z pa wo)
        (mkWGSys (publish_zero g) None sp (S z) (still_parked ts pa) (wo ++ woken_now (S z) ts pa))
  | w_park g f sp z pa wo t g' : t ∉ map fst pa -> park_wait t g = (ParkedNow, g') ->
      wg_step (mkWGSys g f sp z pa wo) (mkWGSys g' f sp z ((t, z) :: pa) wo)
  | w_spin g f sp z pa wo t g' : park_wait t g = (Spins, g') ->
      wg_step (mkWGSys g f sp z pa wo) (mkWGSys g' f (t :: sp) z pa wo)
  | w_unspin g f sp1 t sp2 z pa wo : spin_done g = true ->
      wg_step (mkWGSys g f (sp1 ++ t :: sp2) z pa wo) (mkWGSys g f (sp1 ++ sp2) z pa wo).

(** The tasks that a wake is still owed to. *)
Definition owed (s : WGSys) : list nat :=
  match w_finisher s with Some (Extracted ts) => ts | _ => [] end ++
  match wg_waiters (w_group s) with Parked ts => ts | Drained => [] end.

Record wg_inv (s : WGSys) : Prop := {
  wi_range : 0 <= wg_state (w_group s) <= kMaxCount + 1;
  wi_finishing : wg_state (w_group s) = kFinishing <-> w_finisher s <> None;
  wi_extracted : (exists ts, w_finisher s = Some (Extracted ts)) -> wg_waiters (w_group s) = Drained;
  wi_parked : map fst (w_parked_at s) ≡ₚ owed s;
  wi_nodup : NoDup (map fst (w_parked_at s));
  wi_zero : wg_state (w_group s) = 0 -> owed s = [];
  wi_before : forall t z, (t, z) ∈ w_parked_at s -> (z <= w_zeros s)%nat;
  wi_woken : forall t z z', (t, z, z') ∈ w_woken s -> (z < z' <= w_zeros s)%nat
}.

Lemma wg_word_small x : 0 <= x <= kMaxCount + 1 -> u64 x = x.
Proof. intros H. apply wrap_small. unfold in_range, kMaxCount in *. lia. Qed.

Lemma still_parked_all ts pa : map fst pa ≡ₚ ts -> still_parked ts pa = [].
Proof.
  intros Hp. unfold still_parked. destruct (filter _ pa) as [|p l] eqn:E; [done|].
  assert (Hin : p ∈ filter (fun p => fst p ∉ ts) pa) by (rewrite E; left).
  apply list_elem_of_filter in Hin as [Hn Hin]. destruct Hn. rewrite <- Hp. by apply list_elem_of_fmap_2.
Qed.

Lemma wg_step_inv s s' : wg_inv s -> wg_step s s' -> wg_inv s'.
Proof.
  intros [Hr Hf Hx Hp Hn Hz Hb Hw] Hs. destruct Hs as
    [g f sp z pa wo n o g' Hpos H|g sp z pa wo f n last g' Hpos H|g sp z pa wo ts g' H|g sp z pa wo ts
    |g f sp z pa wo t g' Ht H|g f sp z pa wo t g' H|g f sp1 t sp2 z pa wo H]; cbn in *.
  - unfold add_positive in H. case_decide as H1; [by inversion H; subst; split|].
    case_decide as H2; [by inversion H; subst; split|]. inversion H; subst. clear H. cbn in *.
    assert (f = None) as -> by (destruct f; [|done]; by destruct H1; apply Hf).
    assert (Hd : 1 < (if decide (wg_state g = 0) then n + 1 else u64 (wg_state g + n)) <= kMaxCount + 1).
    { unfold kFinishing in *. case_decide; [lia|]. rewrite wg_word_small; lia. }
    split; cbn; try done; try lia.
    + unfold kFinishing. split; [lia|done].
  - unfold sub_count in H. case_decide as H1; [done|]. cbv zeta in H. unfold kFinishing in *.
    destruct (decide (1 < wg_state g)) as [H2|H2]; [|repeat (case_decide; [by lia || inversion H|]); inversion H; lia].
    assert (f = None) as -> by (destruct f; [|done]; assert (wg_state g = 1) by (by apply Hf); lia).
    case_decide as H3; [|case_decide as H4; [done|]]; inversion H; subst; clear H; rewrite wg_word_small by lia.
    + split; cbn; unfold kFinishing; try done; try lia. split; [lia|done].
    + split; cbn; unfold kFinishing; try done; try lia.
      * split; [done|lia].
      * intros [ts [=]].
  - unfold extract_waiters in H. inversion H; subst; clear H. split; cbn; try done.
    + by rewrite Hf.
    + unfold owed in *. cbn in *. by rewrite app_nil_r.
    + intros E. specialize (Hz E). unfold owed in *. cbn in *. by rewrite app_nil_r.
  - specialize (Hx ltac:(by eexists)). unfold owed in Hp. cbn in Hp. rewrite Hx, app_nil_r in Hp.
    rewrite (still_parked_all ts pa Hp). split; cbn; try done.
    + by rewrite Hx.
    + constructor.
    + by rewrite Hx.
    + intros t z0 Hin. by apply not_elem_of_nil in Hin.
    + intros t z0 z' [Hin|Hin]%elem_of_app; [specialize (Hw _ _ _ Hin); lia|].
      unfold woken_now in Hin. apply list_elem_of_fmap in Hin as ([t0 z1] & E & Hin).
      apply list_elem_of_filter in Hin as [_ Hin]. simpl in E. injection E as -> -> ->. specialize (Hb _ _ Hin). lia.
  - assert (Hg : exists ts, wg_waiters g' = Parked (t :: ts) /\ wg_state g' = wg_state g /\ wg_state g <> 0 /\
      (forall x, f <> Some (Extracted x)) /\
      ts = match wg_waiters g with Parked ts => ts | Drained => [] end).
    { unfold park_wait, kFinishing in *. case_decide as H1; [case_decide as H2; [done|]|].
      - destruct (wg_waiters g) as [|ts] eqn:E; [done|]. inversion H; subst. exists ts. cbn.
        repeat split; try done. intros x ->. specialize (Hx ltac:(by eexists)). congruence.
      - inversion H; subst. eexists. cbn. repeat split; try done; [lia|]. intros x ->.
        assert (wg_state g = 1) by (by apply Hf). lia. }
    destruct Hg as (ts & Hg & Hst & Hne & Hnx & Hts).
    assert (Hp' : map fst pa ≡ₚ ts).
    { rewrite Hp, Hts. destruct f as [[|x]|]; [done|by destruct (Hnx x)|done]. }
    split; cbn; rewrite ?Hst; try done.
    + intros [x Hx']. by destruct (Hnx x).
    + rewrite Hg, Hp'. destruct f as [[|x]|]; [done|by destruct (Hnx x)|done].
    + by apply NoDup_cons.
    + intros t0 z0 [[= -> ->]|Hin]%elem_of_cons; [done|by eapply Hb].
  - assert (g' = g) as -> by (unfold park_wait in H; repeat case_decide; destruct (wg_waiters g); congruence).
    by split.
  - by split.
Qed.

(** A wait group wakes its waiters exactly at zero. In every interleaving
    of [add], [done] and [wait], a task that parked is woken only by a
    transition to zero that came after it parked; no task is parked while the
    published count is zero; and while tasks are parked either the count is
    positive or the [done] that reached zero still owes them their wake. The
    counter never leaves its range. *)
Theorem waitgroup_wakes_at_zero s (Hr : reachable wg_init wg_step s) :
  (forall t z z', (t, z, z') ∈ w_woken s -> (z < z' <= w_zeros s)%nat) /\
  (wg_state (w_group s) = 0 -> w_parked_at s = []) /\
  (w_parked_at s <> [] -> 0 < count (w_group s) \/ exists f, w_finisher s = Some f) /\
  (forall ts, w_finisher s = Some (Extracted ts) -> map fst (w_parked_at s) ≡ₚ ts) /\
  0 <= count (w_group s) <= kMaxCount.
Proof.
  assert (Hi : wg_inv s).
  { apply (reachable_invariant (init := wg_init) (step := wg_step) wg_inv); [| |done].
    - intros x ->. split; cbn; try done.
      + by intros [ts [=]].
      + constructor.
      + intros t z Hin. by apply not_elem_of_nil in Hin.
      + intros t z z' Hin. by apply not_elem_of_nil in Hin.
    - intros x y _. apply wg_step_inv. }
  destruct Hi as [Hrg Hf Hx Hp Hn Hz Hb Hw].
  assert (Hnil : owed s = [] -> w_parked_at s = []).
  { intros E. rewrite E in Hp. apply Permutation_nil_r in Hp. by destruct (w_parked_at s). }
  split; [done|]. split; [by auto|]. split; [|split].
  - intros Hne. unfold count, kFinishing in *. case_decide; [left; lia|]. right.
    destruct (w_finisher s) as [f|]; [by exists f|]. exfalso. apply Hne, Hnil, Hz.
    destruct (decide (wg_state (w_group s) = 1)) as [E|]; [|lia]. by apply Hf in E.
  - intros ts E. rewrite Hp. unfold owed. rewrite E, Hx by (by eexists). by rewrite app_nil_r.
  - unfold count, kFinishing. case_decide; unfold kMaxCount in *; lia.
Qed.

(** One worker, one waiter. *)
Lemma waitgroup_wakes_at_zero_witness :
  exists s, reachable wg_init wg_step s /\ w_woken s = [(7%nat, 0%nat, 1%nat)] /\ w_parked_at s = [].
Proof.
  set (s1 := mkWGSys (mkWG 2 (Parked [])) None [] 0 [] []).
  set (s2 := mkWGSys (mkWG 2 (Parked [7%nat])) None [] 0 [(7%nat, 0%nat)] []).
  set (s3 := mkWGSys (mkWG 1 (Parked [7%nat])) (Some Decremented) [] 0 [(7%nat, 0%nat)] []).
  set (s4 := mkWGSys (mkWG 1 Drained) (Some (Extracted [7%nat])) [] 0 [(7%nat, 0%nat)] []).
  set (s5 := mkWGSys (mkWG 0 Drained) None [] 1 [] [(7%nat, 0%nat, 1%nat)]).
  assert (H1 : reachable wg_init wg_step s1).
  { apply (reachable_step _ _ (mkWGSys new_wg None [] 0 [] [])); [by apply reachable_init|].
    by apply (w_add _ _ _ _ _ _ 1 (Returns tt)). }
  assert (H2 : reachable wg_init wg_step s2).
  { apply (reachable_step _ _ s1); [exact H1|]. apply (w_park (mkWG 2 (Parked [])) None [] 0 [] [] 7); [|done].
    apply not_elem_of_nil. }
  assert (H3 : reachable wg_init wg_step s3).
  { apply (reachable_step _ _ s2); [exact H2|]. by apply (w_sub (mkWG 2 (Parked [7%nat])) [] 0 _ [] None 1 true). }
  assert (H4 : reachable wg_init wg_step s4).
  { apply (reachable_step _ _ s3); [exact H3|]. by apply w_extract. }
  assert (H5 : reachable wg_init wg_step s5).
  { apply (reachable_step _ _ s4); [exact H4|]. exact (w_publish (mkWG 1 Drained) [] 0 [(7%nat, 0%nat)] [] [7%nat]). }
  exists s5. split; [exact H5|]. split; [reflexivity|].
  apply (proj1 (proj2 (waitgroup_wakes_at_zero s5 H5))). reflexivity.
Defined.
