(* ===== verification/OnceCond.v ===== *)
(** * Once and the condition variable (include/cio/sync.hpp)

    [Once::call] with its gate channel, including an initialiser that throws,
    and the waiter queue of [Cond]. A gate is a channel that is only ever
    closed, so a receive on it returns once it is closed. *)

From S2P Require Import Prelude.

Set Default Proof Using "Type".

(** ** Once *)

Record OnceState := mkOnce {
  done_ : bool;
  running_ : bool;
  (** the gate, if it was made, and whether it is closed *)
  gate_ : option bool
}.

Definition new_once : OnceState := mkOnce false false None.

(** The first critical section of [call_slow]: return, wait at the gate, or
    run the initialiser. *)
Inductive Entry := EntryReturn | EntryWait | EntryRun.
Definition call_enter (o : OnceState) : Entry * OnceState :=
  if done_ o then (EntryReturn, o)
  else if running_ o then
    (EntryWait, mkOnce (done_ o) (running_ o) (match gate_ o with Some g => Some g | None => Some false end))
  else (EntryRun, mkOnce (done_ o) true (gate_ o)).

(** The second critical section. *)
Definition call_publish (o : OnceState) : OnceState := mkOnce true false (gate_ o).
(** [gate.close()], nothing on a null gate. *)
Definition gate_close (o : OnceState) : OnceState :=
  mkOnce (done_ o) (running_ o) (match gate_ o with Some _ => Some true | None => None end).

(** The phases of a call that has not returned: at the gate, inside the
    initialiser, or between publishing and closing the gate. *)
Inductive Phase := AtGate | InFn | Closing.

(** [runs] counts the initialiser's runs, [returned] the calls that returned
    normally, [thrown] those that left with the initialiser's exception. *)
Record OnceSys := mkOnceSys {
  o_state : OnceState;
  o_calls : list (nat * Phase);
  o_runs : nat;
  o_returned : list nat;
  o_thrown : list nat
}.

Definition once_init : OnceSys -> Prop := fun s => s = mkOnceSys new_once [] 0 [] [].

Inductive once_step : OnceSys -> OnceSys -> Prop :=
  | o_fast o cs n r x t : done_ o = true ->
      once_step (mkOnceSys o cs n r x) (mkOnceSys o cs n (t :: r) x)
  | o_enter o cs n r x t e o' : call_enter o = (e, o') ->
      once_step (mkOnceSys o cs n r x)
        (match e with
         | EntryReturn => mkOnceSys o' cs n (t :: r) x
         | EntryWait => mkOnceSys o' ((t, AtGate) :: cs) n r x
         | EntryRun => mkOnceSys o' ((t, InFn) :: cs) (S n) r x
         end)
  | o_publish o c1 t c2 n r x :
      once_step (mkOnceSys o (c1 ++ (t, InFn) :: c2) n r x)
        (mkOnceSys (call_publish o) (c1 ++ (t, Closing) :: c2) n r x)
  | o_close o c1 t c2 n r x :
      once_step (mkOnceSys o (c1 ++ (t, Closing) :: c2) n r x)
        (mkOnceSys (gate_close o) (c1 ++ c2) n (t :: r) x)
  | o_wake o c1 t c2 n r x : gate_ o = Some true ->
      once_step (mkOnceSys o (c1 ++ (t, AtGate) :: c2) n r x) (mkOnceSys o (c1 ++ c2) n (t :: r) x)
  | o_throw o c1 t c2 n r x :
      once_step (mkOnceSys o (c1 ++ (t, InFn) :: c2) n r x) (mkOnceSys o (c1 ++ c2) n r (t :: x)).

(** ** Cond *)

(** The queue of waiters and, oldest first, the gates that were closed. *)
Record CondState := mkCond { c_waiters : list nat; c_closed : list nat }.
Definition new_cond : CondState := mkCond [] [].

(** The registration in [wait], made while the caller's mutex is held. *)
Definition cond_register (t : nat) (c : CondState) : CondState := mkCond (c_waiters c ++ [t]) (c_closed c).
Definition cond_signal (c : CondState) : CondState :=
  match c_waiters c with
  | [] => c
  | next :: rest => mkCond rest (c_closed c ++ [next])
  end.
Definition cond_broadcast (c : CondState) : CondState := mkCond [] (c_closed c ++ c_waiters c).

Inductive CondOp := Register (t : nat) | Signal | Broadcast.
Definition cond_op (op : CondOp) : CondState -> CondState :=
  match op with Register t => cond_register t | Signal => cond_signal | Broadcast => cond_broadcast end.
Definition cond_run (ops : list CondOp) : CondState := foldl (fun c op => cond_op op c) new_cond ops.

(** ** Properties of Once *)

Definition is_phase (p q : Phase) : bool :=
  match p, q with AtGate, AtGate | InFn, InFn | Closing, Closing => true | _, _ => false end.
Definition phase_count (p : Phase) (cs : list (nat * Phase)) : nat :=
  length (List.filter (fun c => is_phase p (snd c)) cs).
#[local] Arguments phase_count : simpl never.
Definition in_phase (p : Phase) (s : OnceSys) : nat := phase_count p (o_calls s).

Lemma phase_cons p (t : nat) q cs : phase_count p ((t, q) :: cs) = phase_count p cs + (if is_phase p q then 1 else 0).
Proof. unfold phase_count. simpl. destruct (is_phase p q); simpl; lia. Qed.

Lemma phase_app p c1 (t : nat) q c2 :
  phase_count p (c1 ++ (t, q) :: c2) = phase_count p (c1 ++ c2) + (if is_phase p q then 1 else 0).
Proof.
  unfold phase_count. rewrite !List.filter_app, !length_app. simpl. destruct (is_phase p q); simpl; lia.
Qed.

Lemma phase_nil p : phase_count p [] = 0.
Proof. done. Qed.

(** Nothing ran yet; someone runs; it published; everything is over; or the
    initialiser threw. *)
Definition once_inv (s : OnceSys) : Prop :=
  let o := o_state s in
  (done_ o = false /\ running_ o = false /\ gate_ o = None /\ o_calls s = [] /\ o_runs s = 0 /\ o_returned s = [] /\
    o_thrown s = []) \/
  (done_ o = false /\ running_ o = true /\ in_phase InFn s = 1 /\ in_phase Closing s = 0 /\ o_runs s = 1 /\
    o_returned s = [] /\ o_thrown s = [] /\ gate_ o <> Some true /\ (gate_ o = None -> in_phase AtGate s = 0)) \/
  (done_ o = true /\ in_phase InFn s = 0 /\ in_phase Closing s = 1 /\ o_runs s = 1 /\ o_thrown s = [] /\
    gate_ o <> Some true /\ (gate_ o = None -> in_phase AtGate s = 0)) \/
  (done_ o = true /\ in_phase InFn s = 0 /\ in_phase Closing s = 0 /\ o_runs s = 1 /\ o_thrown s = [] /\
    (gate_ o = Some true \/ gate_ o = None /\ in_phase AtGate s = 0)) \/
  (done_ o = false /\ running_ o = true /\ in_phase InFn s = 0 /\ in_phase Closing s = 0 /\ o_runs s = 1 /\
    o_returned s = [] /\ length (o_thrown s) = 1 /\ gate_ o <> Some true).

Lemma once_step_inv s s' : once_inv s -> once_step s s' -> once_inv s'.
Proof.
  unfold once_inv, in_phase. intros Hi Hs.
  destruct Hs as [o cs n r x t H|o cs n r x t e o' H|o c1 t c2 n r x|o c1 t c2 n r x|o c1 t c2 n r x H|o c1 t c2 n r x];
    cbn [o_state o_calls o_runs o_returned o_thrown] in *; rewrite ?phase_app in Hi; cbn [is_phase] in Hi;
    destruct Hi as [(D & R & G & C & N & Ret & Th)|[(D & R & I & K & N & Ret & Th & G & GA)
      |[(D & I & K & N & Th & G & GA)|[(D & I & K & N & Th & G)|(D & R & I & K & N & Ret & Th & G)]]]];
    try congruence; try lia; try (by destruct c1).
  - right. right. left. done.
  - right. right. right. left. done.
  - unfold call_enter in H. rewrite D, R in H. inversion H; subst. right. left. cbn. rewrite !phase_cons. cbn.
    split_and!; done || congruence.
  - unfold call_enter in H. rewrite D, R in H. inversion H; subst. right. left. cbn. rewrite !phase_cons. cbn.
    destruct (gate_ o) as [[]|]; split_and!; done || lia || congruence.
  - unfold call_enter in H. rewrite D in H. inversion H; subst. right. right. left. done.
  - unfold call_enter in H. rewrite D in H. inversion H; subst. right. right. right. left. done.
  - unfold call_enter in H. rewrite D, R in H. inversion H; subst. right. right. right. right. cbn. rewrite !phase_cons. cbn.
    destruct (gate_ o) as [[]|]; split_and!; done || lia || congruence.
  - right. right. left. rewrite !phase_app. cbn. split_and!; try done; try lia.
  - right. right. right. left. cbn. split_and!; try done; try lia.
    destruct (gate_ o) eqn:E; [by left|right]. split; [done|]. specialize (GA eq_refl). lia.
  - right. right. right. left. split_and!; try done; try lia. by left.
  - right. right. right. right. cbn. subst. split_and!; done || lia.
Qed.

Lemma once_reachable_inv s : reachable once_init once_step s -> once_inv s.
Proof.
  apply (reachable_invariant (init := once_init) (step := once_step) once_inv).
  - intros x ->. left. done.
  - intros x y _. apply once_step_inv.
Qed.

(** The initialiser of a [Once] runs at most once, every call that
    returns does so after the initialiser has completed and published, and
    unless the initialiser threw, a call that waits at the gate has either the
    initialiser's task still ahead of closing it or the gate already closed. *)
Theorem once_runs_once s (Hr : reachable once_init once_step s) :
  o_runs s <= 1 /\
  (o_returned s <> [] -> done_ (o_state s) = true /\ in_phase InFn s = 0) /\
  (0 < in_phase AtGate s -> o_thrown s = [] ->
    in_phase InFn s + in_phase Closing s = 1 \/ gate_ (o_state s) = Some true).
Proof.
  pose proof (once_reachable_inv s Hr) as Hi. unfold once_inv in Hi.
  destruct Hi as [(D & R & G & C & N & Ret & Th)|[(D & R & I & K & N & Ret & Th & G & GA)
    |[(D & I & K & N & Th & G & GA)|[(D & I & K & N & Th & G)|(D & R & I & K & N & Ret & Th & G)]]]];
    (split; [lia|]); (split; [try (by intros ?); try (intros E; by rewrite Ret in E)|]).
  - intros Hp. unfold in_phase in Hp. rewrite C, phase_nil in Hp. lia.
  - intros _ _. left. lia.
  - intros _ _. left. lia.
  - intros Hp _. destruct G as [G|[_ E]]; [by right|lia].
  - intros _ E. by rewrite E in Th.
Qed.

(** an initialiser that throws strands every other call: the running flag
    stays set and the gate is never closed, so from then on no call of the
    [Once] ever returns and the initialiser is never run again, whatever
    happens next. *)
Theorem once_throw_strands s s' (Hr : reachable once_init once_step s) (Ht : o_thrown s <> [])
  (Hs : rtc once_step s s') :
  o_returned s' = [] /\ o_runs s' = 1 /\ done_ (o_state s') = false /\
  call_enter (o_state s') = (EntryWait, mkOnce false true (match gate_ (o_state s') with Some g => Some g | None => Some false end)) /\
  gate_ (o_state s') <> Some true.
Proof.
  pose proof (reachable_rtc _ _ s s' Hr Hs) as Hr'. pose proof (once_reachable_inv s' Hr') as Hi.
  assert (Ht' : o_thrown s' <> []).
  { clear Hr Hr' Hi. induction Hs as [|x y z Hxy _ IH]; [done|]. apply IH. by destruct Hxy as [| ? ? ? ? ? ? [] | | | |]. }
  unfold once_inv in Hi.
  destruct Hi as [(_ & _ & _ & _ & _ & _ & Th)|[(_ & _ & _ & _ & _ & _ & Th & _)
    |[(_ & _ & _ & _ & Th & _)|[(_ & _ & _ & _ & Th & _)|(D & R & I & K & N & Ret & Th & G)]]]]; try done.
  split; [done|]. split; [done|]. split; [done|]. split; [|done]. unfold call_enter. by rewrite D, R.
Qed.

(** ** Properties of Cond *)

Definition registered (ops : list CondOp) : list nat :=
  omap (fun op => match op with Register t => Some t | _ => None end) ops.

Lemma cond_op_order c ops : c_closed (foldl (fun c op => cond_op op c) c ops) ++ c_waiters (foldl (fun c op => cond_op op c) c ops)
  = c_closed c ++ c_waiters c ++ registered ops.
Proof.
  revert c. induction ops as [|op ops IH]; intros c; simpl; [by rewrite app_nil_r|]. rewrite IH.
  destruct op as [t| |]; simpl.
  - by rewrite <- !app_assoc.
  - unfold cond_signal. destruct (c_waiters c) as [|x rest] eqn:E; simpl; [by rewrite E|]. by rewrite <- app_assoc.
  - by rewrite <- app_assoc.
Qed.

(** a condition variable wakes its waiters in the order in which they
    registered, whatever the sequence of waits, signals and broadcasts: a
    signal wakes the oldest one that is still waiting and nobody else, a
    broadcast wakes them all, and neither wakes a task that registers later. *)
Theorem cond_wakes_in_order ops :
  registered ops = c_closed (cond_run ops) ++ c_waiters (cond_run ops) /\
  c_closed (cond_run (ops ++ [Signal])) = c_closed (cond_run ops) ++ take 1 (c_waiters (cond_run ops)) /\
  c_closed (cond_run (ops ++ [Broadcast])) = c_closed (cond_run ops) ++ c_waiters (cond_run ops) /\
  c_waiters (cond_run (ops ++ [Broadcast])) = [].
Proof.
  split; [symmetry; apply cond_op_order|]. unfold cond_run. rewrite !foldl_app. simpl.
  split; [|done]. unfold cond_signal. set (c := foldl _ _ _).
  destruct (c_waiters c) as [|x rest]; simpl; [by rewrite app_nil_r|done].
Qed.

(** ** Witnesses *)

(** Two calls; the first runs the initialiser. *)
Definition ex_running : OnceSys := mkOnceSys (mkOnce false true (Some false)) [(2, AtGate); (1, InFn)] 1 [] [].

Lemma ex_running_reachable : reachable once_init once_step ex_running.
Proof.
  apply (reachable_step _ _ (mkOnceSys (mkOnce false true None) [(1, InFn)] 1 [] [])).
  - apply (reachable_step _ _ (mkOnceSys new_once [] 0 [] [])); [by apply reachable_init|].
    by apply (o_enter new_once [] 0 [] [] 1 EntryRun).
  - by apply (o_enter (mkOnce false true None) [(1, InFn)] 1 [] [] 2 EntryWait).
Qed.

Lemma once_runs_once_witness :
  o_runs ex_running <= 1 /\ (in_phase InFn ex_running + in_phase Closing ex_running = 1 \/ gate_ (o_state ex_running) = Some true).
Proof.
  split; [apply (once_runs_once ex_running ex_running_reachable)|].
  apply (proj2 (proj2 (once_runs_once ex_running ex_running_reachable))); [vm_compute; lia|reflexivity].
Defined.

(** Then the initialiser throws. *)
Definition ex_thrown : OnceSys := mkOnceSys (mkOnce false true (Some false)) [(2, AtGate)] 1 [] [1].

Lemma ex_thrown_reachable : reachable once_init once_step ex_thrown.
Proof.
  apply (reachable_step _ _ ex_running); [apply ex_running_reachable|].
  exact (o_throw (mkOnce false true (Some false)) [(2, AtGate)] 1 [] 1 [] []).
Qed.

Lemma once_throw_strands_witness :
  o_calls ex_thrown = [(2, AtGate)] /\ o_returned ex_thrown = [] /\ gate_ (o_state ex_thrown) <> Some true.
Proof.
  split; [reflexivity|].
  destruct (once_throw_strands ex_thrown ex_thrown ex_thrown_reachable ltac:(done) (rtc_refl _ _)) as (H1 & _ & _ & _ & H2).
  split; [exact H1|exact H2].
Defined.
