(* ===== verification/Io.v ===== *)
(** * Stream algorithms (include/cio/io.hpp)

    The concepts [Reader] and [Writer] are type classes over the state of the
    world, with their contracts as classes of laws; the algorithms and the
    wrappers are written and proved against these interfaces. *)

From S2P Require Import Prelude Result Bytes.

Set Default Proof Using "Type".

(** ** The interfaces *)

(** [read(buffer)]: the bytes read into a buffer of the given size. *)
Class Reader (W : Type) := r_read : nat -> ST W (Result bytes).

(** [write(buffer)]: how many bytes were taken. *)
Class Writer (W : Type) := w_write : bytes -> ST W (Result nat).

(** The states in which a stream may be used. *)
Class Valid (W : Type) := valid : W -> Prop.

(** The contract of a reader over the bytes [stream] it has still to give: a
    read returns a prefix that fits, empty only at the end of the stream. *)
Class ReaderSpec (W : Type) `{Reader W, Valid W} := {
  stream : W -> bytes;
  read_total n w : valid w -> exists r w', r_read n w = Some (r, w') /\ valid w';
  read_ok n w d w' : valid w -> r_read n w = Some (Ok d, w') ->
    length d <= n /\ stream w = d ++ stream w' /\ (d = [] -> 0 < n -> stream w = [])
}.

(** The contract of a writer over the bytes [sink] it has taken: a full count
    means all of them, in order. *)
Class WriterSpec (W : Type) `{Writer W, Valid W} := {
  sink : W -> bytes;
  write_total d w : valid w -> exists r w', w_write d w = Some (r, w') /\ valid w';
  write_ok d w w' : valid w -> w_write d w = Some (Ok (length d), w') -> sink w' = sink w ++ d
}.

(** Go's contract, which io.hpp states for every writer: no short count
    without an error. *)
Class FullWriter (W : Type) `{Writer W, Valid W} :=
  write_full d w k w' : valid w -> w_write d w = Some (Ok k, w') -> k = length d.

(** The two ends do not share bytes. *)
Class Independent (W : Type) `{ReaderSpec W} `{!Writer W} `{!WriterSpec W} := {
  read_sink n w r w' : valid w -> r_read n w = Some (r, w') -> sink w' = sink w;
  write_stream d w r w' : valid w -> w_write d w = Some (r, w') -> stream w' = stream w
}.

(** ** Algorithms *)

Section algorithms.
Context {W : Type}.

(** [read_full] into [n] bytes; what was read so far is [acc]. *)
Fixpoint read_full `{Reader W} (fuel n : nat) (acc : bytes) : ST W (Result bytes) :=
  if decide (n = 0) then st_ret (Ok acc)
  else
    match fuel with
    | O => st_fail
    | S fuel =>
        r <-- r_read n;
        match r with
        | Err e => st_ret (Err e)
        | Ok d =>
            if decide (length d = 0) then st_ret (Err (of_errc closed))
            else read_full fuel (n - length d) (acc ++ d)
        end
    end.

(** The loop of [copy], with a scratch buffer of [size] bytes. *)
Fixpoint copy_loop `{Reader W, Writer W} (fuel size : nat) (total : Z) : ST W (Result Z) :=
  match fuel with
  | O => st_fail
  | S fuel =>
      r <-- r_read size;
      match r with
      | Err e => st_ret (Err e)
      | Ok d =>
          if decide (length d = 0) then st_ret (Ok total)
          else
            written <-- w_write d;
            match written with
            | Err e => st_ret (Err e)
            | Ok k =>
                if decide (k <> length d) then st_ret (Err (of_errno EIO))
                else copy_loop fuel size (u64 (total + Z.of_nat (length d)))
            end
      end
  end.

Definition copy `{Reader W, Writer W} (fuel size : nat) : ST W (Result Z) :=
  if decide (size = 0) then st_ret (Err (of_errno EINVAL)) else copy_loop fuel size 0.

(** The pooled overload. *)
Definition copy_pooled `{Reader W, Writer W} (fuel : nat) : ST W (Result Z) :=
  copy fuel (64 * 1024).

(** [read_all] with its chunk size and limit. *)
Fixpoint read_all `{Reader W} (fuel chunk limit : nat) (out : bytes) : ST W (Result bytes) :=
  match fuel with
  | O => st_fail
  | S fuel =>
      r <-- r_read chunk;
      match r with
      | Err e => st_ret (Err e)
      | Ok d =>
          if decide (length d = 0) then st_ret (Ok out)
          else if decide (limit < length out + length d) then st_ret (Err (of_errno EMSGSIZE))
          else read_all fuel chunk limit (out ++ d)
      end
  end.
End algorithms.

(** [LimitReader]: the source and the bytes that remain. *)
#[global] Instance limit_read {W} `{Reader W} : Reader (W * nat) := fun n '(w, remaining) =>
  if decide (remaining = 0) then Some (Ok [], (w, remaining))
  else
    let n := if decide (remaining < n) then remaining else n in
    match r_read n w with
    | Some (Ok d, w) => Some (Ok d, (w, remaining - length d))
    | Some (Err e, w) => Some (Err e, (w, remaining))
    | None => None
    end.

(** [TeeReader::read]. *)
Definition tee_read {W} `{Reader W, Writer W} (n : nat) : ST W (Result bytes) :=
  r <-- r_read n;
  match r with
  | Err e => st_ret (Err e)
  | Ok d =>
      if decide (length d = 0) then st_ret (Ok [])
      else
        mirrored <-- w_write d;
        match mirrored with
        | Err e => st_ret (Err e)
        | Ok k => if decide (k <> length d) then st_ret (Err (of_errno EIO)) else st_ret (Ok d)
        end
  end.

(** ** Correctness *)

#[global] Instance limit_valid {W} `{Valid W} : Valid (W * nat) := fun '(w, _) => valid w.

Section reader_correctness.
Context {W : Type} `{HR : ReaderSpec W}.

(** An error that the reader reported. *)
Definition reader_error (e : Error) : Prop := exists n (w w' : W), r_read n w = Some (Err e, w').

(** One read from a valid state, by its outcome. *)
Lemma read_cases n w : valid w ->
  (exists d w', r_read n w = Some (Ok d, w') /\ valid w' /\ length d <= n /\
     stream w = d ++ stream w' /\ (d = [] -> 0 < n -> stream w = [] /\ stream w' = [])) \/
  (exists e w', r_read n w = Some (Err e, w') /\ valid w' /\ reader_error e).
Proof.
  intros Hv. destruct (read_total n w Hv) as ([d|e] & w' & Hr & Hv').
  - left. exists d, w'. destruct (read_ok n w d w' Hv Hr) as (Hl & Hs & Hend). split_and!; try done.
    intros -> Hn. rewrite Hend in Hs |- * by done. done.
  - right. exists e, w'. split_and!; try done. by exists n, w, w'.
Qed.

Lemma read_full_run fuel : forall n acc w, valid w -> n <= fuel ->
  exists r w', read_full fuel n acc w = Some (r, w') /\ valid w' /\
  match r with
  | Ok out => exists d, out = acc ++ d /\ length d = n /\ stream w = d ++ stream w'
  | Err e => e = of_errc closed /\ length (stream w) < n \/ reader_error e
  end.
Proof.
  induction fuel as [|fuel IH]; intros n acc w Hv Hn.
  { assert (n = 0) as -> by lia. exists (Ok acc), w. split_and!; try done. exists []. by rewrite app_nil_r. }
  cbn [read_full]. case_decide as Hn0.
  { subst. exists (Ok acc), w. split_and!; try done. exists []. by rewrite app_nil_r. }
  destruct (read_cases n w Hv) as [(d & w1 & Hr & Hv1 & Hl & Hs & Hend)|(e & w1 & Hr & Hv1 & He)];
    rewrite (st_bind_eq _ _ _ _ _ Hr); [|by eauto 10].
  case_decide as Hd.
  { apply nil_length_inv in Hd as ->. exists (Err (of_errc closed)), w1. split_and!; try done. left.
    split; [done|]. destruct Hend as [-> _]; [done|lia|]. simpl. lia. }
  destruct (IH (n - length d) (acc ++ d) w1 Hv1) as (r & w' & Hrun & Hv' & Hres); [lia|].
  exists r, w'. split_and!; try done. destruct r as [out|e].
  - destruct Hres as (d2 & -> & Hd2 & Hs2). exists (d ++ d2). rewrite <- app_assoc. split; [done|].
    rewrite length_app, Hs, Hs2. split; [lia|by rewrite app_assoc].
  - destruct Hres as [[-> Hlt]|He]; [left|by right]. split; [done|]. rewrite Hs, length_app. lia.
Qed.

Lemma read_all_run fuel chunk limit : forall out w, valid w -> 0 < chunk -> length (stream w) < fuel ->
  length out <= limit ->
  exists r w', read_all fuel chunk limit out w = Some (r, w') /\ valid w' /\
  match r with
  | Ok all => all = out ++ stream w /\ length all <= limit /\ stream w' = []
  | Err e => e = of_errno EMSGSIZE /\ limit < length out + length (stream w) \/ reader_error e
  end.
Proof.
  induction fuel as [|fuel IH]; intros out w Hv Hc Hf Ho; [lia|]. cbn [read_all].
  destruct (read_cases chunk w Hv) as [(d & w1 & Hr & Hv1 & Hl & Hs & Hend)|(e & w1 & Hr & Hv1 & He)];
    rewrite (st_bind_eq _ _ _ _ _ Hr); [|by eauto 10].
  case_decide as Hd.
  { apply nil_length_inv in Hd as ->. exists (Ok out), w1. destruct Hend as [-> ->]; [done..|].
    by rewrite app_nil_r. }
  case_decide as Hlim.
  { exists (Err (of_errno EMSGSIZE)), w1. split_and!; try done. left. split; [done|].
    rewrite Hs, length_app. lia. }
  rewrite Hs, length_app in Hf.
  destruct (IH (out ++ d) w1 Hv1 Hc) as (r & w' & Hrun & Hv' & Hres); [lia|rewrite length_app; lia|].
  exists r, w'. split_and!; try done. destruct r as [all|e].
  - destruct Hres as (-> & Hle & He). by rewrite Hs, app_assoc.
  - destruct Hres as [[-> Hlt]|He]; [left|by right]. split; [done|]. rewrite length_app in Hlt.
    rewrite Hs, length_app. lia.
Qed.

(** The limited reader gives the prefix of its source. *)
#[global] Instance limit_reader_spec : ReaderSpec (W * nat).
Proof using HR.
  refine {| stream := fun '(w, remaining) => take remaining (stream w) |}.
  - intros n [w rem] Hv. change (valid w) in Hv. unfold r_read, limit_read. case_decide; [by eexists _, _|].
    destruct (read_total (if decide (rem < n) then rem else n) w Hv) as (r & w' & -> & Hv').
    destruct r; by eexists _, _.
  - intros n [w rem] d [w' rem'] Hv. change (valid w) in Hv. unfold r_read, limit_read. case_decide as Hn0.
    { intros [= <- <- <-]. subst. simpl. split; [lia|]. by rewrite !take_0. }
    destruct (r_read _ w) as [[[d0|e] w0]|] eqn:Hr; [|done..]. intros [= -> -> <-].
    destruct (read_ok _ w d w' Hv Hr) as (Hl & Hs & Hend).
    assert (Hb : length d <= rem /\ length d <= n) by (case_decide; lia).
    assert (Hd : take rem (stream w) = d ++ take (rem - length d) (stream w')).
    { rewrite Hs, take_app, take_ge by lia. done. }
    assert (He : d = [] -> 0 < n -> take rem (stream w) = []).
    { intros Hd0 Hn. rewrite (Hend Hd0) by (case_decide; lia). by rewrite take_nil. }
    split_and!; [lia|exact Hd|exact He].
Defined.
End reader_correctness.

Section correctness.
Context {W : Type} `{HR : ReaderSpec W} `{HWr : !Writer W} `{HW : !WriterSpec W} `{HI : !Independent W}.

(** An error that the writer reported. *)
Definition writer_error (e : Error) : Prop := exists d (w w' : W), w_write d w = Some (Err e, w').

(** One write of what was just read, by its outcome. *)
Lemma mirror_cases d (w : W) : valid w ->
  (exists w', w_write d w = Some (Ok (length d), w') /\ valid w' /\ sink w' = sink w ++ d /\
     stream w' = stream w) \/
  (exists k w', w_write d w = Some (Ok k, w') /\ valid w' /\ k <> length d) \/
  (exists e w', w_write d w = Some (Err e, w') /\ valid w' /\ writer_error e).
Proof using HW HI.
  intros Hv. destruct (write_total d w Hv) as ([k|e] & w' & Hw & Hv').
  - destruct (decide (k = length d)) as [->|]; [left|right; left; eauto].
    exists w'. split_and!; eauto using write_ok, write_stream.
  - right. right. exists e, w'. split_and!; try done. by exists d, w, w'.
Qed.

Lemma copy_loop_run fuel size : forall total w, valid w -> 0 < size -> length (stream w) < fuel ->
  u64 total = total ->
  exists r w', copy_loop fuel size total w = Some (r, w') /\ valid w' /\
  match r with
  | Ok n => sink w' = sink w ++ stream w /\ stream w' = [] /\
      n = u64 (total + Z.of_nat (length (stream w)))
  | Err e => reader_error e \/ writer_error e \/ e = of_errno EIO
  end.
Proof using HW HI.
  induction fuel as [|fuel IH]; intros total w Hv Hsz Hf Ht; [lia|]. cbn [copy_loop].
  destruct (read_cases size w Hv) as [(d & w1 & Hr & Hv1 & Hl & Hs & Hend)|(e & w1 & Hr & Hv1 & He)];
    rewrite (st_bind_eq _ _ _ _ _ Hr); [|by eauto 10].
  pose proof (read_sink size w _ w1 Hv Hr) as Hk. case_decide as Hd.
  { apply nil_length_inv in Hd as ->. exists (Ok total), w1. destruct Hend as [-> ->]; [done..|].
    rewrite app_nil_r. simpl. by rewrite Z.add_0_r, Ht. }
  destruct (mirror_cases d w1 Hv1) as
    [(w2 & Hw & Hv2 & Hsk & Hst)|[(k & w2 & Hw & Hv2 & Hne)|(e & w2 & Hw & Hv2 & He)]];
    rewrite (st_bind_eq _ _ _ _ _ Hw); [|rewrite decide_True by done; by eauto 10|by eauto 10].
  rewrite decide_False by tauto. rewrite Hs, length_app in Hf.
  destruct (IH (u64 (total + Z.of_nat (length d))) w2 Hv2 Hsz) as (r & w' & Hrun & Hv' & Hres);
    [rewrite Hst; lia|by apply wrap_wrap|].
  exists r, w'. split_and!; try done. destruct r as [n|e]; [|done]. destruct Hres as (Hsk' & He & Hn).
  rewrite Hsk', Hsk, Hk, Hst, Hs, app_assoc. split_and!; try done. rewrite Hn, Hst, length_app, wrap_add_l.
  f_equal. lia.
Qed.

(** A successful teed read put the same bytes into the mirror. *)
Lemma tee_read_run n w : valid w ->
  exists r w', tee_read n w = Some (r, w') /\ valid w' /\
  match r with
  | Ok d => length d <= n /\ stream w = d ++ stream w' /\ sink w' = sink w ++ d
  | Err e => reader_error e \/ writer_error e \/ e = of_errno EIO
  end.
Proof using HW HI.
  intros Hv. unfold tee_read.
  destruct (read_cases n w Hv) as [(d & w1 & Hr & Hv1 & Hl & Hs & Hend)|(e & w1 & Hr & Hv1 & He)];
    rewrite (st_bind_eq _ _ _ _ _ Hr); [|by eauto 10].
  pose proof (read_sink n w _ w1 Hv Hr) as Hk. case_decide as Hd.
  { apply nil_length_inv in Hd as ->. exists (Ok []), w1. rewrite app_nil_r. by auto with lia. }
  destruct (mirror_cases d w1 Hv1) as
    [(w2 & Hw & Hv2 & Hsk & Hst)|[(k & w2 & Hw & Hv2 & Hne)|(e & w2 & Hw & Hv2 & He)]];
    rewrite (st_bind_eq _ _ _ _ _ Hw); [|rewrite decide_True by done; by eauto 10|by eauto 10].
  rewrite decide_False by tauto. exists (Ok d), w2. by rewrite Hsk, Hk, Hst.
Qed.
End correctness.
