(* ===== verification/BufReader.v ===== *)
(** * Buffered reading (include/cio/bufio.hpp, [bufio::Reader])

    The buffer is a block with a window [begin_, end_); the theorems show that
    the window followed by what the source has still to give is one stream,
    which every operation reads from the front of. *)

From S2P Require Import Prelude Result Bytes Io.

Set Default Proof Using "Type".

(** The block, the size in use and the window. *)
Record Buf := mkBuf { storage_ : bytes; capacity_ : nat; begin_ : nat; end_ : nat }.

(** The constructor, over the block that the pool gave. *)
Definition new_reader (block : bytes) (capacity : nat) : Buf :=
  mkBuf block (min (if decide (capacity = 0) then 1 else capacity) (length block)) 0 0.

Definition buffered (b : Buf) : nat := end_ b - begin_ b.

Definition window (b : Buf) : bytes := take (buffered b) (drop (begin_ b) (storage_ b)).

Definition advance (n : nat) (b : Buf) : Buf :=
  mkBuf (storage_ b) (capacity_ b) (begin_ b + n) (end_ b).

(** [fill], up to the source's read. *)
Definition compact (b : Buf) : Buf :=
  if decide (begin_ b = end_ b) then mkBuf (storage_ b) (capacity_ b) 0 0
  else if decide (0 < begin_ b) then
    let held := buffered b in
    mkBuf (take held (drop (begin_ b) (storage_ b)) ++ drop held (storage_ b)) (capacity_ b) 0 held
  else b.

(** The source's bytes land at [end_]. *)
Definition landed (d : bytes) (b : Buf) : Buf :=
  mkBuf (take (end_ b) (storage_ b) ++ d ++ drop (end_ b + length d) (storage_ b))
    (capacity_ b) (begin_ b) (end_ b + length d).

Section operations.
Context {W : Type} `{Reader W}.

Definition fill : ST (W * Buf) ResultVoid := fun '(w, b) =>
  let b := compact b in
  if decide (end_ b = capacity_ b) then Some (ok, (w, b))
  else
    match r_read (capacity_ b - end_ b) w with
    | Some (Ok d, w) => Some (ok, (w, landed d b))
    | Some (Err e, w) => Some (Err e, (w, b))
    | None => None
    end.

(** The bytes handed out of the buffer. *)
Definition take_buffered (n : nat) : ST (W * Buf) (Result bytes) := fun '(w, b) =>
  let n := min n (buffered b) in Some (Ok (take n (window b)), (w, advance n b)).

Definition read (n : nat) : ST (W * Buf) (Result bytes) := fun '(w, b) =>
  if decide (n = 0) then Some (Ok [], (w, b))
  else if decide (buffered b = 0) then
    if decide (capacity_ b <= n) then
      match r_read n w with Some (r, w) => Some (r, (w, b)) | None => None end
    else
      (filled <-- fill;
       match filled with
       | Err e => st_ret (Err e)
       | Ok _ =>
           held <-- st_gets (fun s => buffered (snd s));
           if decide (held = 0) then st_ret (Ok []) else take_buffered n
       end) (w, b)
  else take_buffered n (w, b).

(** The loop of [read_string]. *)
Fixpoint read_string_from (fuel : nat) (delimiter : byte) (limit : nat) (out : bytes)
    : ST (W * Buf) (Result (option bytes)) :=
  match fuel with
  | O => st_fail
  | S fuel => fun '(w, b) =>
      match find_if (is_byte delimiter) (window b) with
      | Some i => Some (Ok (Some (out ++ take (i + 1) (window b))), (w, advance (i + 1) b))
      | None =>
          let out := out ++ window b in
          let b := mkBuf (storage_ b) (capacity_ b) (end_ b) (end_ b) in
          if decide (limit < length out) then Some (Err (of_errno EMSGSIZE), (w, b))
          else
            (filled <-- fill;
             match filled with
             | Err e => st_ret (Err e)
             | Ok _ =>
                 held <-- st_gets (fun s => buffered (snd s));
                 if decide (held = 0) then st_ret (Ok (if decide (out = []) then None else Some out))
                 else read_string_from fuel delimiter limit out
             end) (w, b)
      end
  end.

Definition read_string (fuel : nat) (delimiter : byte) (limit : nat)
    : ST (W * Buf) (Result (option bytes)) :=
  read_string_from fuel delimiter limit [].

Definition cLF : byte := 10.
Definition cCR : byte := 13.

(** [if (!line.empty() && line.back() == c) line.pop_back()]. *)
Definition pop_back_if (c : byte) (line : bytes) : bytes :=
  match last line with
  | Some x => if decide (x = c) then take (length line - 1) line else line
  | None => line
  end.

Definition read_line (fuel limit : nat) : ST (W * Buf) (Result (option bytes)) :=
  chunk <-- read_string fuel cLF limit;
  match chunk with
  | Err e => st_ret (Err e)
  | Ok None => st_ret (Ok None)
  | Ok (Some line) => st_ret (Ok (Some (pop_back_if cCR (pop_back_if cLF line))))
  end.

(** The loop of [peek]: [Ok] once the window is as long as it will get. *)
Fixpoint peek_fill (fuel count : nat) : ST (W * Buf) ResultVoid :=
  match fuel with
  | O => st_fail
  | S fuel =>
      before <-- st_gets (fun s => buffered (snd s));
      if decide (before < count) then
        filled <-- fill;
        match filled with
        | Err e => st_ret (Err e)
        | Ok _ =>
            after <-- st_gets (fun s => buffered (snd s));
            if decide (after = before) then st_ret ok else peek_fill fuel count
        end
      else st_ret ok
  end.

Definition peek (fuel count : nat) : ST (W * Buf) (Result bytes) :=
  cap <-- st_gets (fun s => capacity_ (snd s));
  if decide (cap < count) then st_ret (Err (of_errno EMSGSIZE))
  else
    filled <-- peek_fill fuel count;
    match filled with
    | Err e => st_ret (Err e)
    | Ok _ => view <-- st_gets (fun s => take (min count (buffered (snd s))) (window (snd s)));
        st_ret (Ok view)
    end.

(** The loop of [discard]. *)
Fixpoint discard_from (fuel count dropped : nat) : ST (W * Buf) (Result nat) :=
  match fuel with
  | O => st_fail
  | S fuel =>
      if decide (dropped < count) then
        before <-- st_gets (fun s => buffered (snd s));
        let drop_some :=
          held <-- st_gets (fun s => buffered (snd s));
          let n := min (count - dropped) held in
          st_modify (fun s => (fst s, advance n (snd s))) ;;;
          discard_from fuel count (dropped + n) in
        if decide (before = 0) then
          filled <-- fill;
          match filled with
          | Err e => st_ret (Err e)
          | Ok _ =>
              after <-- st_gets (fun s => buffered (snd s));
              if decide (after = before) then st_ret (Ok dropped) else drop_some
          end
        else drop_some
      else st_ret (Ok dropped)
  end.

Definition discard (fuel count : nat) : ST (W * Buf) (Result nat) := discard_from fuel count 0.
End operations.

(** ** The window *)

Definition buf_wf (b : Buf) : Prop :=
  begin_ b <= end_ b <= capacity_ b /\ capacity_ b <= length (storage_ b) /\ 0 < capacity_ b.

Lemma new_reader_wf block capacity : 0 < length block -> buf_wf (new_reader block capacity).
Proof. unfold buf_wf, new_reader. simpl. case_decide; lia. Qed.

Lemma window_length b : buf_wf b -> length (window b) = buffered b.
Proof. intros (? & ? & _). unfold window, buffered. rewrite length_take, length_drop. lia. Qed.

Lemma advance_wf n b : buf_wf b -> n <= buffered b -> buf_wf (advance n b).
Proof. unfold buf_wf, buffered. simpl. lia. Qed.

Lemma window_advance n b : window (advance n b) = drop n (window b).
Proof.
  unfold window, buffered, advance. simpl. rewrite skipn_firstn_comm, drop_drop.
  f_equal. lia.
Qed.

Lemma compact_spec b : buf_wf b ->
  buf_wf (compact b) /\ window (compact b) = window b /\ begin_ (compact b) = 0 /\
  capacity_ (compact b) = capacity_ b /\ end_ (compact b) = buffered b.
Proof.
  intros (? & ? & ?). unfold compact, buf_wf, window, buffered. case_decide as He; [|case_decide]; simpl.
  - rewrite He, Nat.sub_diag. split_and!; try done; lia.
  - rewrite !length_app, length_take, !length_drop, Nat.sub_0_r.
    split_and!; try done; try lia. rewrite drop_0, take_app_le by (rewrite length_take, length_drop; lia).
    rewrite take_take. f_equal. lia.
  - split_and!; try done; lia.
Qed.

Lemma landed_spec d b : buf_wf b -> length d <= capacity_ b - end_ b ->
  buf_wf (landed d b) /\ window (landed d b) = window b ++ d.
Proof.
  intros (? & ? & ?) Hd. unfold landed, buf_wf, window, buffered. simpl.
  rewrite !length_app, length_take, length_drop. split; [lia|].
  rewrite drop_app_le by (rewrite length_take; lia). rewrite skipn_firstn_comm.
  rewrite take_app, take_take, length_take, length_drop.
  rewrite (Nat.min_r (end_ b + length d - begin_ b)) by lia. f_equal.
  replace (_ - _) with (length d) by lia. by rewrite take_app_length.
Qed.

#[local] Arguments take_buffered : simpl never.
#[local] Arguments fill : simpl never.

(** ** Reading is reading the stream from the front *)

#[global] Instance buf_valid {W} `{Valid W} : Valid (W * Buf) := fun s => valid s.1 /\ buf_wf s.2.

Section correctness.
Context {W : Type} `{HR : ReaderSpec W}.

(** What is still to be read: the window, then the source. *)
Definition pending_bytes (s : W * Buf) : bytes := window s.2 ++ stream s.1.

Lemma fill_cases (w : W) (b : Buf) : valid w -> buf_wf b ->
  (exists d w' b', fill (w, b) = Some (ok, (w', b')) /\ valid (w', b') /\
     capacity_ b' = capacity_ b /\ window b' = window b ++ d /\ stream w = d ++ stream w' /\
     (d = [] -> buffered b < capacity_ b -> stream w = [])) \/
  (exists e w' b', fill (w, b) = Some (Err e, (w', b')) /\ valid (w', b') /\ reader_error (W := W) e).
Proof using HR.
  intros Hv Hwf. destruct (compact_spec b Hwf) as (Hc & Hw & _ & Hcap & He). unfold fill.
  case_decide as Hfull.
  { left. exists [], w, (compact b). rewrite app_nil_r. split_and!; try done. rewrite He, Hcap in Hfull. lia. }
  destruct (read_cases (capacity_ (compact b) - end_ (compact b)) w Hv)
    as [(d & w1 & -> & Hv1 & Hl & Hs & Hend)|(e & w1 & -> & Hv1 & Herr)].
  - left. destruct (landed_spec d (compact b) Hc Hl) as [Hlw Hlwin].
    exists d, w1, (landed d (compact b)). rewrite <- Hw. split_and!; try done.
    intros -> Hlt. apply Hend; [done|]. rewrite Hcap, He. lia.
  - right. by exists e, w1, (compact b).
Qed.

Lemma take_buffered_spec n (s : W * Buf) : valid s ->
  exists d s', take_buffered n s = Some (Ok d, s') /\ valid s' /\ capacity_ s'.2 = capacity_ s.2 /\
    length d = min n (length (window s.2)) /\ pending_bytes s = d ++ pending_bytes s'.
Proof using HR.
  destruct s as [w b]. intros [Hv Hwf]. simpl in *. eexists _, _. split; [done|]. unfold pending_bytes. simpl.
  rewrite window_advance, length_take, window_length by done. split_and!.
  - split; [done|]. apply advance_wf; [done|lia].
  - done.
  - lia.
  - by rewrite app_assoc, take_drop.
Qed.

(** The whole of [read], by its outcome. *)
Lemma read_spec n (s : W * Buf) : valid s ->
  (exists d s', read n s = Some (Ok d, s') /\ valid s' /\ length d <= n /\
     pending_bytes s = d ++ pending_bytes s' /\ (d = [] -> 0 < n -> pending_bytes s = [])) \/
  (exists e s', read n s = Some (Err e, s') /\ valid s' /\ reader_error (W := W) e).
Proof using HR.
  destruct s as [w b]. intros [Hv Hwf]. simpl in *. unfold read. case_decide.
  { left. exists [], (w, b). split_and!; try done; simpl; lia. }
  pose proof (window_length b Hwf) as Hwl. case_decide as Hbuf.
  - rewrite Hbuf in Hwl. apply nil_length_inv in Hwl. case_decide.
    + destruct (read_cases n w Hv) as [(d & w1 & -> & Hv1 & Hl & Hs & Hend)|(e & w1 & -> & Hv1 & Herr)].
      * left. exists d, (w1, b). unfold pending_bytes. simpl. rewrite Hwl. split_and!; try done.
        intros. by apply Hend.
      * right. by exists e, (w1, b).
    + destruct (fill_cases w b Hv Hwf)
        as [(d & w1 & b1 & Hf & Hv1 & Hcap & Hw1 & Hs & Hend)|(e & w1 & b1 & Hf & Hv1 & Herr)];
        rewrite (st_bind_eq _ _ _ _ _ Hf); [left|right; by exists e, (w1, b1)].
      rewrite Hwl in Hw1. simpl in Hw1. unfold st_bind, st_gets. simpl.
      pose proof (window_length b1 (proj2 Hv1)) as Hb1. rewrite Hw1 in Hb1. case_decide as Hz.
      * rewrite Hz in Hb1. apply nil_length_inv in Hb1 as ->. exists [], (w1, b1). unfold pending_bytes. simpl.
        rewrite Hwl, Hw1, (Hend eq_refl) by lia. rewrite (Hend eq_refl) in Hs by lia. split_and!; try done; simpl; lia.
      * destruct (take_buffered_spec n (w1, b1) Hv1) as (d' & s' & -> & Hv' & _ & Hl & Hp).
        exists d', s'. simpl in Hl. rewrite Hw1 in Hl. split_and!; try done; [lia| |].
        -- rewrite <- Hp. unfold pending_bytes. simpl. by rewrite Hwl, Hw1, Hs.
        -- intros ->. simpl in Hl. lia.
  - destruct (take_buffered_spec n (w, b) (conj Hv Hwf)) as (d' & s' & -> & Hv' & _ & Hl & Hp).
    left. exists d', s'. simpl in Hl. split_and!; try done; [lia|]. intros ->. simpl in Hl. lia.
Qed.

(** A buffered reader is a reader of the same stream: everything proved about
    readers holds of it. *)
#[global] Instance buf_reader : Reader (W * Buf) := read.

#[global] Instance buf_reader_spec : ReaderSpec (W * Buf).
Proof using HR.
  refine {| stream := pending_bytes |}.
  - intros n s Hv. unfold r_read, buf_reader.
    destruct (read_spec n s Hv) as [(d & s' & -> & Hv' & _)|(e & s' & -> & Hv' & _)]; eauto.
  - intros n s d s' Hv Hr. unfold r_read, buf_reader in Hr.
    destruct (read_spec n s Hv) as [(d1 & s1 & Hr1 & Hv' & ? & ? & ?)|(e & s1 & Hr1 & Hv' & _)];
      rewrite Hr in Hr1; by simplify_eq.
Defined.
End correctness.

(** ** Delimited chunks *)

(** The first chunk of a stream, its delimiter included, and what follows. *)
Definition chunk_of (c : byte) (s : bytes) : bytes * bytes :=
  match find_if (is_byte c) s with
  | Some i => (take (S i) s, drop (S i) s)
  | None => (s, [])
  end.

Lemma find_if_app_None p (a b : bytes) : find_if p a = None ->
  find_if p (a ++ b) = Nat.add (length a) <$> find_if p b.
Proof.
  induction a as [|x a IH]; simpl; [by destruct (find_if p b)|]. destruct (p x); [done|].
  destruct (find_if p a); [done|]. intros _. rewrite IH by done. by destruct (find_if p b).
Qed.

Lemma find_if_app_Some p (a b : bytes) i : find_if p a = Some i -> find_if p (a ++ b) = Some i /\ i < length a.
Proof.
  revert i. induction a as [|x a IH]; intros i; simpl; [done|]. destruct (p x); [intros [= <-]; auto with lia|].
  destruct (find_if p a) as [j|]; [|done]. intros [= <-]. destruct (IH j eq_refl) as [-> ?]. auto with lia.
Qed.

Lemma chunk_of_app c (a b : bytes) :
  chunk_of c (a ++ b) =
  match find_if (is_byte c) a with
  | Some i => (take (S i) a, drop (S i) a ++ b)
  | None => (a ++ fst (chunk_of c b), snd (chunk_of c b))
  end.
Proof.
  unfold chunk_of. destruct (find_if (is_byte c) a) as [i|] eqn:Ha.
  - destruct (find_if_app_Some _ a b i Ha) as [-> Hi]. rewrite take_app_le, drop_app_le by lia. done.
  - rewrite (find_if_app_None _ a b Ha). destruct (find_if (is_byte c) b) as [j|]; simpl; [|done].
    rewrite <- Nat.add_succ_r. by rewrite take_app_add, drop_app_add.
Qed.

Section chunks.
Context {W : Type} `{HR : ReaderSpec W}.

(** A fill keeps the stream; it adds nothing only when the buffer was full or
    the stream ends with it. *)
Lemma fill_step (s : W * Buf) : valid s ->
  (exists s', fill s = Some (Ok tt, s') /\ valid s' /\ capacity_ s'.2 = capacity_ s.2 /\
     pending_bytes s' = pending_bytes s /\ buffered s.2 <= buffered s'.2 /\
     (buffered s'.2 = buffered s.2 -> buffered s.2 < capacity_ s.2 -> pending_bytes s = window s.2)) \/
  (exists e s', fill s = Some (Err e, s') /\ valid s' /\ reader_error (W := W) e).
Proof using HR.
  destruct s as [w b]. intros [Hv Hwf]. simpl in Hv, Hwf. unfold pending_bytes. cbn [fst snd].
  destruct (fill_cases w b Hv Hwf)
    as [(d & w1 & b1 & Hf & Hv1 & Hcap1 & Hw1 & Hsrc & Hend)|(e & w1 & b1 & Hf & Hv1 & Herr)];
    [left; exists (w1, b1)|right; by exists e, (w1, b1)].
  pose proof (window_length b Hwf) as Hb. pose proof (window_length b1 (proj2 Hv1)) as Hb1.
  rewrite Hw1, length_app in Hb1. cbn [fst snd]. rewrite Hw1, Hsrc, app_assoc. split_and!; try done; [lia|].
  intros Hsame Hlt. assert (Hd : d = []) by (apply nil_length_inv; lia).
  rewrite Hsrc in Hend. by rewrite <- app_assoc, (Hend Hd Hlt), app_nil_r.
Qed.

Lemma chunk_of_nil c : chunk_of c [] = ([], []).
Proof. done. Qed.

(** The answer of [read_string] with [out] gathered so far, the stream [s]
    ahead and [s'] left. *)
Definition string_answer (c : byte) (limit cap : nat) (out s s' : bytes) (r : Result (option bytes)) : Prop :=
  match r with
  | Ok None => out = [] /\ s = [] /\ s' = []
  | Ok (Some line) => (line, s') = (out ++ fst (chunk_of c s), snd (chunk_of c s)) /\
      line <> [] /\ length line <= limit + cap
  | Err e => e = of_errno EMSGSIZE /\ limit < length (out ++ fst (chunk_of c s)) \/
      reader_error (W := W) e
  end.

(** The delimiter is in the window. *)
Lemma string_answer_found c limit cap out i (s : W * Buf) : valid s -> length out <= limit ->
  capacity_ s.2 = cap -> find_if (is_byte c) (window s.2) = Some i ->
  valid (s.1, advance (i + 1) s.2) /\
  string_answer c limit cap out (pending_bytes s) (pending_bytes (s.1, advance (i + 1) s.2))
    (Ok (Some (out ++ take (i + 1) (window s.2)))).
Proof using HR.
  destruct s as [w b]. intros [Hv Hwf] Hout Hcap Hfind. simpl in *. rewrite Nat.add_1_r.
  destruct (find_if_app_Some _ _ [] i Hfind) as [_ Hi]. pose proof (window_length b Hwf) as Hwl.
  split; [split; [done|]; apply advance_wf; [done|lia]|]. unfold pending_bytes. cbn [fst snd].
  rewrite chunk_of_app, Hfind, window_advance. cbn [fst snd]. split; [done|].
  rewrite length_app, length_take. split; [|destruct Hwf; unfold buffered in Hwl; lia].
  intros [_ Hnil]%app_nil. apply (f_equal length) in Hnil. rewrite length_take in Hnil.
  change (length (@nil Z)) with 0 in Hnil. lia.
Qed.

(** [read_string] answers with the next chunk of the stream and leaves what
    follows; it refuses only a chunk that is longer than the limit. *)
Lemma read_string_from_run c limit fuel : forall out (s : W * Buf), valid s -> length out <= limit ->
  length (pending_bytes s) + (if decide (buffered s.2 = 0) then 1 else 0) < fuel ->
  exists r s', read_string_from fuel c limit out s = Some (r, s') /\ valid s' /\
    string_answer c limit (capacity_ s.2) out (pending_bytes s) (pending_bytes s') r.
Proof using HR.
  induction fuel as [|fuel IH]; intros out [w b] Hs Hout Hfuel; [lia|]. cbn [read_string_from fst snd].
  pose proof Hs as [Hv Hwf]. cbn [fst snd] in *. pose proof (window_length b Hwf) as Hwl.
  destruct (find_if (is_byte c) (window b)) as [i|] eqn:Hfind.
  { destruct (string_answer_found c limit (capacity_ b) out i (w, b) Hs Hout eq_refl Hfind). by eexists _, _. }
  assert (Hchunk : chunk_of c (pending_bytes (w, b)) = (window b ++ fst (chunk_of c (stream w)), snd (chunk_of c (stream w)))).
  { unfold pending_bytes. cbn [fst snd]. by rewrite chunk_of_app, Hfind. }
  set (b0 := mkBuf _ _ (end_ b) (end_ b)).
  assert (Hwf0 : valid (w, b0)) by (split; [done|]; destruct Hwf; unfold buf_wf; simpl; lia).
  assert (Hb0 : buffered b0 = 0) by (unfold buffered; simpl; lia).
  assert (Hw0 : pending_bytes (w, b0) = stream w) by (unfold pending_bytes, window; simpl; by rewrite Hb0).
  destruct (decide (limit < length (out ++ window b))) as [Hlim|Hlim].
  { eexists _, _. split; [done|]. split; [done|]. left. split; [done|]. rewrite Hchunk, length_app in *.
    simpl. rewrite !length_app. lia. }
  destruct (fill_step (w, b0) Hwf0) as [([w1 b1] & Hf & Hv1 & Hcap1 & Hp1 & Hle & Hend)|(e & s1 & Hf & Hv1 & Herr)];
    rewrite (st_bind_eq _ _ _ _ _ Hf); cbv beta iota; [|eexists _, s1; split_and!; [done|done|by right]].
  cbn [snd] in *. rewrite Hw0 in Hp1, Hend. unfold st_bind at 1, st_gets at 1. cbn [snd].
  destruct (decide (buffered b1 = 0)) as [Hz|Hz].
  - assert (Hnil : stream w = []).
    { rewrite Hend by (destruct Hwf; rewrite Hb0; simpl; lia). unfold window. by rewrite Hb0. }
    rewrite Hnil in Hp1, Hchunk. eexists _, _. split_and!; [done..|]. unfold string_answer.
    rewrite Hp1, Hchunk, chunk_of_nil, app_nil_r. cbn [fst snd].
    destruct (decide (out ++ window b = [])) as [[-> Hw]%app_nil|Ho]; [|split_and!; [done|done|lia]].
    split_and!; [done| |done]. unfold pending_bytes. cbn [fst snd]. by rewrite Hw, Hnil.
  - destruct (IH (out ++ window b) (w1, b1) Hv1) as (r & s' & Hrun & Hv' & Hres); [lia| |].
    { cbn [snd]. rewrite decide_False by done. rewrite Hp1. unfold pending_bytes in Hfuel. cbn [fst snd] in Hfuel.
      rewrite length_app in Hfuel. destruct (decide (buffered b = 0)); lia. }
    exists r, s'. split_and!; [done|done|]. rewrite Hp1 in Hres. unfold string_answer in *. cbn [snd] in Hres.
    rewrite Hchunk. cbn [fst snd]. rewrite app_assoc. change (capacity_ b0) with (capacity_ b) in Hcap1. rewrite <- Hcap1. destruct r as [[line|]|e]; [done| |done].
    destruct Hres as (_ & Hnil & _). apply (f_equal length) in Hp1. rewrite Hnil in Hp1. unfold pending_bytes in Hp1.
    cbn [fst snd] in Hp1. rewrite length_app, window_length in Hp1 by apply Hv1. simpl in Hp1. lia.
Qed.

(** [peek]'s loop ends with a window that shows all that was asked for, or all
    that there is. *)
Lemma peek_fill_run count fuel : forall (s : W * Buf), valid s -> count <= capacity_ s.2 ->
  count - buffered s.2 < fuel ->
  exists r s', peek_fill fuel count s = Some (r, s') /\ valid s' /\
  match r with
  | Ok _ => pending_bytes s' = pending_bytes s /\ take count (window s'.2) = take count (pending_bytes s)
  | Err e => reader_error (W := W) e
  end.
Proof using HR.
  induction fuel as [|fuel IH]; intros s Hs Hcount Hfuel; [lia|]. cbn [peek_fill].
  pose proof (window_length s.2 (proj2 Hs)) as Hwl. unfold st_bind at 1, st_gets at 1.
  destruct (decide (buffered s.2 < count)) as [Hlt|Hlt].
  2: { eexists _, _. split_and!; [done..|]. unfold pending_bytes. by rewrite take_app_le by lia. }
  destruct (fill_step s Hs) as [(s1 & Hf & Hv1 & Hcap1 & Hp1 & Hle & Hend)|(e & s1 & Hf & Hv1 & Herr)];
    rewrite (st_bind_eq _ _ _ _ _ Hf); cbv beta iota; [|by eexists _, _].
  unfold st_bind at 1, st_gets at 1. destruct (decide (buffered s1.2 = buffered s.2)) as [Hsame|Hsame].
  - eexists _, _. split_and!; [done..|]. split; [done|]. specialize (Hend Hsame ltac:(lia)).
    rewrite Hend. f_equal. rewrite <- Hp1 in Hend. unfold pending_bytes in Hend.
    pose proof (window_length s1.2 (proj2 Hv1)) as Hb1. apply (f_equal (take (buffered s.2))) in Hend.
    rewrite take_app_le, !take_ge in Hend by lia. done.
  - destruct (IH s1 Hv1) as (r & s' & Hrun & Hv' & Hres); [lia|lia|]. exists r, s'. by rewrite Hp1 in Hres.
Qed.

(** What [discard] answers. *)
Definition discard_answer (count dropped : nat) (s s' : bytes) (r : Result nat) : Prop :=
  match r with
  | Ok n => n = min count (dropped + length s) /\ s' = drop (n - dropped) s
  | Err e => reader_error (W := W) e
  end.

Lemma discard_answer_step count dropped m s s' r : m <= count - dropped -> m <= length s ->
  discard_answer count (dropped + m) (drop m s) s' r -> discard_answer count dropped s s' r.
Proof.
  unfold discard_answer. destruct r as [n|]; [|done]. rewrite length_drop, drop_drop. intros Hm Hs [Hn ->].
  split; [lia|]. f_equal. lia.
Qed.

Lemma discard_from_run count fuel : forall dropped (s : W * Buf), valid s -> dropped <= count ->
  count - dropped < fuel ->
  exists r s', discard_from fuel count dropped s = Some (r, s') /\ valid s' /\
    discard_answer count dropped (pending_bytes s) (pending_bytes s') r.
Proof using HR.
  induction fuel as [|fuel IH]; intros dropped s Hs Hle Hfuel; [lia|]. cbn [discard_from].
  destruct (decide (dropped < count)) as [Hlt|Hlt].
  2: { eexists _, _. split_and!; [done..|]. assert (dropped = count) as -> by lia.
       unfold discard_answer. rewrite Nat.sub_diag. split; [lia|done]. }
  assert (Hdrop : forall s1 : W * Buf, valid s1 -> pending_bytes s1 = pending_bytes s -> buffered s1.2 <> 0 ->
    exists r s', (held <-- st_gets (fun s => buffered (snd s));
      (st_modify (fun s : W * Buf => (fst s, advance (min (count - dropped) held) (snd s))) ;;;
       discard_from fuel count (dropped + min (count - dropped) held))) s1 = Some (r, s') /\ valid s' /\
      discard_answer count dropped (pending_bytes s) (pending_bytes s') r).
  { intros [w1 b1] [Hv1 Hwf1] <- Hne. cbn [fst snd] in *. unfold st_bind, st_gets, st_modify. cbn [fst snd].
    set (m := min (count - dropped) (buffered b1)). pose proof (window_length b1 Hwf1) as Hb1.
    assert (Hv2 : valid (w1, advance m b1)) by (split; [done|]; apply advance_wf; [done|cbn [snd]; lia]).
    destruct (IH (dropped + m) (w1, advance m b1) Hv2) as (r & s' & Hrun & Hv' & Hres); [lia|lia|].
    exists r, s'. split_and!; [done..|]. unfold pending_bytes at 1 in Hres. cbn [fst snd] in Hres.
    rewrite window_advance, <- drop_app_le in Hres by lia.
    apply (discard_answer_step _ _ m); [lia| |done]. unfold pending_bytes. simpl. rewrite length_app. lia. }
  unfold st_bind at 1, st_gets at 1. destruct (decide (buffered s.2 = 0)) as [Hz|Hz]; [|by apply Hdrop].
  destruct (fill_step s Hs) as [(s1 & Hf & Hv1 & Hcap1 & Hp1 & Hle1 & Hend)|(e & s1 & Hf & Hv1 & Herr)];
    rewrite (st_bind_eq _ _ _ _ _ Hf); cbv beta iota; [|by eexists _, _].
  unfold st_bind at 1, st_gets at 1. destruct (decide (buffered s1.2 = buffered s.2)) as [Hsame|Hsame].
  - eexists _, _. split_and!; [done..|]. unfold discard_answer. rewrite Hp1, Nat.sub_diag. split; [|done].
    rewrite (Hend Hsame) by (destruct Hs as [_ (_ & _ & ?)]; lia). rewrite window_length by apply Hs. lia.
  - apply Hdrop; [done|done|lia].
Qed.
End chunks.
