(* ===== verification/BufWriter.v ===== *)
(** * Buffered writing (include/cio/bufio.hpp, [bufio::Writer])

    Held bytes sit in a block in front of the sink; the theorems show that the
    sink followed by what is held takes exactly what was written, in order. *)

From S2P Require Import Prelude Result Bytes Io.

Set Default Proof Using "Type".

Record OutBuf := mkOut { storage_ : bytes; capacity_ : nat; held_ : nat }.

(** The constructor, over the block that the pool gave. *)
Definition new_writer (block : bytes) (capacity : nat) : OutBuf :=
  mkOut block (min (if decide (capacity = 0) then 1 else capacity) (length block)) 0.

Definition available (b : OutBuf) : nat := capacity_ b - held_ b.

(** What is held, and the block with [d] copied behind it. *)
Definition held_bytes (b : OutBuf) : bytes := take (held_ b) (storage_ b).

Definition append (d : bytes) (b : OutBuf) : OutBuf :=
  mkOut (take (held_ b) (storage_ b) ++ d ++ drop (held_ b + length d) (storage_ b))
    (capacity_ b) (held_ b + length d).

Section operations.
Context {W : Type} `{Writer W}.

Definition flush : ST (W * OutBuf) ResultVoid := fun '(w, b) =>
  if decide (held_ b = 0) then Some (ok, (w, b))
  else
    let pending := held_bytes b in
    let b := mkOut (storage_ b) (capacity_ b) 0 in
    match w_write pending w with
    | Some (Ok _, w) => Some (ok, (w, b))
    | Some (Err e, w) => Some (Err e, (w, b))
    | None => None
    end.

Definition buffer (d : bytes) : ST (W * OutBuf) (Result nat) := fun '(w, b) =>
  Some (Ok (length d), (w, append d b)).

Definition write (d : bytes) : ST (W * OutBuf) (Result nat) := fun '(w, b) =>
  if decide (capacity_ b <= length d) then
    (flushed <-- flush;
     match flushed with
     | Err e => st_ret (Err e)
     | Ok _ => fun '(w, b) =>
         match w_write d w with Some (r, w) => Some (r, (w, b)) | None => None end
     end) (w, b)
  else if decide (available b < length d) then
    (flushed <-- flush;
     match flushed with
     | Err e => st_ret (Err e)
     | Ok _ => buffer d
     end) (w, b)
  else buffer d (w, b).

(** The bytes of a string view are its bytes. *)
Definition write_string (text : bytes) : ST (W * OutBuf) (Result nat) := write text.
End operations.

(** ** Correctness *)

Definition out_wf (b : OutBuf) : Prop :=
  held_ b <= capacity_ b /\ capacity_ b <= length (storage_ b) /\ 0 < capacity_ b.

Lemma new_writer_wf block capacity : 0 < length block -> out_wf (new_writer block capacity).
Proof. unfold out_wf, new_writer. simpl. case_decide; lia. Qed.

Lemma append_spec d b : out_wf b -> length d <= available b ->
  out_wf (append d b) /\ held_bytes (append d b) = held_bytes b ++ d.
Proof.
  intros (? & ? & ?) Hd. unfold available in Hd. unfold append, out_wf, held_bytes. simpl.
  rewrite !length_app, length_take, length_drop. split; [lia|].
  rewrite take_app, take_take, length_take, (Nat.min_r (held_ b + length d)) by lia. f_equal.
  replace (_ - _) with (length d) by lia. by rewrite take_app_length.
Qed.

#[global] Instance out_valid {W} `{Valid W} : Valid (W * OutBuf) := fun s => valid s.1 /\ out_wf s.2.

#[local] Arguments flush : simpl never.

Section correctness.
Context {W : Type} `{HW : WriterSpec W} `{HF : !FullWriter W}.

(** What was taken: the sink, then what is held. *)
Definition taken (s : W * OutBuf) : bytes := sink s.1 ++ held_bytes s.2.

(** An error that the sink reported. *)
Definition sink_error (e : Error) : Prop := exists d (w w' : W), w_write d w = Some (Err e, w').

(** One write to the sink, by its outcome. *)
Lemma sink_cases d (w : W) : valid w ->
  (exists w', w_write d w = Some (Ok (length d), w') /\ valid w' /\ sink w' = sink w ++ d) \/
  (exists e w', w_write d w = Some (Err e, w') /\ valid w' /\ sink_error e).
Proof using HW HF.
  intros Hv. destruct (write_total d w Hv) as ([k|e] & w' & Hw & Hv').
  - left. pose proof (write_full d w k w' Hv Hw) as ->. exists w'. eauto using write_ok.
  - right. exists e, w'. split_and!; try done. by exists d, w, w'.
Qed.

Lemma flush_spec (s : W * OutBuf) : valid s ->
  (exists s', flush s = Some (Ok tt, s') /\ valid s' /\ held_ s'.2 = 0 /\ capacity_ s'.2 = capacity_ s.2 /\
     sink s'.1 = taken s) \/
  (exists e s', flush s = Some (Err e, s') /\ valid s' /\ held_ s'.2 = 0 /\ sink_error e).
Proof using HW HF.
  destruct s as [w b]. intros [Hv Hwf]. cbn [fst snd] in *. unfold flush, taken. cbn [fst snd].
  destruct (decide (held_ b = 0)) as [Hz|Hz].
  { left. exists (w, b). unfold held_bytes. rewrite Hz, app_nil_r. done. }
  assert (Hwf0 : out_wf (mkOut (storage_ b) (capacity_ b) 0)) by (destruct Hwf; unfold out_wf; simpl; lia).
  destruct (sink_cases (held_bytes b) w Hv) as [(w1 & -> & Hv1 & Hs)|(e & w1 & -> & Hv1 & He)];
    [left|right; exists e]; by eexists.
Qed.

Lemma taken_empty (s : W * OutBuf) : held_ s.2 = 0 -> taken s = sink s.1.
Proof. intros Hz. unfold taken, held_bytes. by rewrite Hz, app_nil_r. Qed.

Lemma buffer_spec d (s : W * OutBuf) : valid s -> length d <= available s.2 ->
  exists s', buffer d s = Some (Ok (length d), s') /\ valid s' /\ taken s' = taken s ++ d.
Proof using HW.
  destruct s as [w b]. intros [Hv Hwf] Hd. cbn [fst snd] in *. destruct (append_spec d b Hwf Hd) as [Hwf' Hh].
  eexists. split; [done|]. split; [done|]. unfold taken. cbn [fst snd]. by rewrite Hh, app_assoc.
Qed.

Lemma write_spec d (s : W * OutBuf) : valid s ->
  (exists s', write d s = Some (Ok (length d), s') /\ valid s' /\ taken s' = taken s ++ d) \/
  (exists e s', write d s = Some (Err e, s') /\ valid s' /\ held_ s'.2 = 0 /\ sink_error e).
Proof using HW HF.
  intros Hs. destruct s as [w b]. unfold write. destruct (decide (capacity_ b <= length d)) as [Hbig|Hsmall].
  - destruct (flush_spec (w, b) Hs) as [([w1 b1] & Hf & Hv1 & Hz & Hcap & Hsk)|(e & s1 & Hf & Hv1 & Hz & He)];
      rewrite (st_bind_eq _ _ _ _ _ Hf); cbv beta iota; [|right; by exists e, s1].
    cbn [fst snd] in *. pose proof Hv1 as [Hv1' Hwf1].
    destruct (sink_cases d w1 Hv1') as [(w2 & -> & Hv2 & Hs2)|(e & w2 & -> & Hv2 & He)].
    + left. exists (w2, b1). rewrite taken_empty by done. cbn [fst]. rewrite Hs2, Hsk. done.
    + right. by exists e, (w2, b1).
  - destruct (decide (available b < length d)) as [Hroom|Hroom].
    + destruct (flush_spec (w, b) Hs) as [([w1 b1] & Hf & Hv1 & Hz & Hcap & Hsk)|(e & s1 & Hf & Hv1 & Hz & He)];
        rewrite (st_bind_eq _ _ _ _ _ Hf); cbv beta iota; [|right; by exists e, s1].
      cbn [fst snd] in *. destruct (buffer_spec d (w1, b1) Hv1) as (s' & Hb & Hv' & Ht).
      { unfold available. cbn [snd]. lia. }
      left. exists s'. rewrite Ht, taken_empty by done. cbn [fst]. by rewrite Hsk.
    + destruct (buffer_spec d (w, b) Hs) as (s' & Hb & Hv' & Ht); [cbn [snd]; lia|]. left. by exists s'.
Qed.

(** A buffered writer is a writer that takes the same bytes. *)
#[global] Instance buf_writer : Writer (W * OutBuf) := write.

#[global] Instance buf_writer_spec : WriterSpec (W * OutBuf).
Proof using HW HF.
  refine {| sink := taken |}.
  - intros d s Hv. unfold w_write, buf_writer.
    destruct (write_spec d s Hv) as [(s' & -> & Hv' & _)|(e & s' & -> & Hv' & _)]; eauto.
  - intros d s s' Hv Hw. unfold w_write, buf_writer in Hw.
    destruct (write_spec d s Hv) as [(s1 & Hw1 & Hv' & ?)|(e & s1 & Hw1 & Hv' & _)];
      rewrite Hw in Hw1; by simplify_eq.
Defined.

#[global] Instance buf_full_writer : FullWriter (W * OutBuf).
Proof using HW HF.
  intros d s k s' Hv Hw. unfold w_write, buf_writer in Hw.
  destruct (write_spec d s Hv) as [(s1 & Hw1 & _)|(e & s1 & Hw1 & _)]; rewrite Hw in Hw1; by simplify_eq.
Qed.

(** A run of writes: the first error ends it. *)
Fixpoint write_each (l : list bytes) : ST (W * OutBuf) (Result nat) :=
  match l with
  | [] => st_ret (Ok 0)
  | d :: l => r <-- write d; match r with Err e => st_ret (Err e) | Ok _ => write_each l end
  end.

Lemma write_each_run l : forall s, valid s ->
  exists r s', write_each l s = Some (r, s') /\ valid s' /\
  match r with
  | Ok _ => taken s' = taken s ++ concat l
  | Err e => sink_error e
  end.
Proof using HW HF.
  induction l as [|d l IH]; intros s Hs; cbn [write_each concat].
  { eexists _, _. split; [done|]. split; [done|]. by rewrite app_nil_r. }
  destruct (write_spec d s Hs) as [(s1 & Hw & Hv1 & Ht)|(e & s1 & Hw & Hv1 & _ & He)];
    rewrite (st_bind_eq _ _ _ _ _ Hw); cbv beta iota; [|by eexists _, _].
  destruct (IH s1 Hv1) as (r & s' & -> & Hv' & Hres). eexists _, _. split; [done|]. split; [done|].
  destruct r; [|done]. by rewrite Hres, Ht, app_assoc.
Qed.
End correctness.
