(* ===== verification/IoProps.v ===== *)
(** * Properties of the stream algorithms and of buffered I/O

    Stated for every reader and writer that keeps the contract of io.hpp, and
    for the buffered ones over them; the witnesses run them on a source that
    dribbles a few bytes at a time. *)

From S2P Require Import Prelude Result Bytes Io.
From S2P Require BufReader BufWriter.
Import BufReader (Buf, mkBuf, read_string, read_line, peek, discard, chunk_of, pop_back_if, pending_bytes, cLF, cCR).
Import BufWriter (OutBuf, mkOut, flush, write_each, taken).

Set Default Proof Using "Type".

(** ** A concrete stream

    A source that gives at most three bytes per read, and a sink. *)

Record Pipe := mkPipe { p_src : bytes; p_dst : bytes }.

#[global] Instance pipe_read : Reader Pipe := fun n p =>
  let n := min n 3 in Some (Ok (take n (p_src p)), mkPipe (drop n (p_src p)) (p_dst p)).
#[global] Instance pipe_write : Writer Pipe := fun d p =>
  Some (Ok (length d), mkPipe (p_src p) (p_dst p ++ d)).
#[global] Instance pipe_valid : Valid Pipe := fun _ => True.

#[global] Instance pipe_reader_spec : ReaderSpec Pipe.
Proof.
  refine {| stream := p_src |}; [by eauto|]. intros n w d w' _ [= <- <-]. simpl.
  rewrite length_take, take_drop. split_and!; [lia|done|]. intros Hd Hn.
  apply (f_equal length) in Hd. rewrite length_take in Hd. apply nil_length_inv. simpl in Hd. lia.
Defined.

#[global] Instance pipe_writer_spec : WriterSpec Pipe.
Proof. refine {| sink := p_dst |}; [by eauto|]. by intros d w w' _ [= <-]. Defined.

#[global] Instance pipe_full : FullWriter Pipe.
Proof. by intros d w k w' _ [= <- <-]. Qed.

#[global] Instance pipe_independent : Independent Pipe.
Proof. split; [by intros n w r w' _ [= <- <-]|by intros d w r w' _ [= <- <-]]. Qed.

(** ** Algorithms *)

(** [copy] moves the whole stream of the source into the sink, in order,
    and answers its length as a 64-bit count; when it fails, the reader or the
    writer failed, or the writer broke its contract with a short count. It
    always returns. *)
Theorem copy_moves_stream {W} `{HR : ReaderSpec W} `{HWr : !Writer W} `{HW : !WriterSpec W}
    `{HI : !Independent W} (fuel size : nat) (w : W) :
  valid w -> 0 < size -> length (stream w) < fuel ->
  exists r w', copy fuel size w = Some (r, w') /\
  match r with
  | Ok n => sink w' = sink w ++ stream w /\ stream w' = [] /\ n = u64 (Z.of_nat (length (stream w)))
  | Err e => reader_error (W := W) e \/ writer_error (W := W) e \/ e = of_errno EIO
  end.
Proof.
  intros Hv Hs Hf. unfold copy. rewrite decide_False by lia.
  destruct (copy_loop_run fuel size 0 w Hv Hs Hf eq_refl) as (r & w' & Hrun & _ & Hres). by exists r, w'.
Qed.

Lemma copy_moves_stream_witness :
  exists r w', copy 8 2 (mkPipe [1; 2; 3; 4; 5]%Z [9]%Z) = Some (r, w') /\
  match r with
  | Ok n => p_dst w' = [9; 1; 2; 3; 4; 5]%Z /\ p_src w' = [] /\ n = 5%Z
  | Err e => reader_error (W := Pipe) e \/ writer_error (W := Pipe) e \/ e = of_errno EIO
  end.
Proof. refine (copy_moves_stream 8 2 (mkPipe [1; 2; 3; 4; 5]%Z [9]%Z) I _ _); simpl; lia. Defined.

(** Framing: [read_full] gives exactly the next [n] bytes, and answers
    closed only on a stream that is shorter; [read_all] over a [LimitReader]
    gives exactly the slice of the stream that the limit allows, and refuses
    with EMSGSIZE only a slice longer than its own bound. Both always return. *)
Theorem framed_reads_exact {W} `{HR : ReaderSpec W} (n chunk bound limit : nat) (w : W) :
  valid w -> 0 < chunk ->
  (exists r w', read_full n n [] w = Some (r, w') /\
   match r with
   | Ok out => length out = n /\ stream w = out ++ stream w'
   | Err e => e = of_errc closed /\ length (stream w) < n \/ reader_error (W := W) e
   end) /\
  (exists r w', read_all (S (length (stream w))) chunk bound [] (w, limit) = Some (r, w') /\
   match r with
   | Ok all => all = take limit (stream w)
   | Err e => e = of_errno EMSGSIZE /\ bound < length (take limit (stream w)) \/ reader_error (W := W * nat) e
   end).
Proof.
  intros Hv Hc. split.
  - destruct (read_full_run n n [] w Hv (le_n n)) as (r & w' & Hrun & _ & Hres). exists r, w'. split; [done|].
    destruct r as [out|e]; [|done]. by destruct Hres as (d & -> & Hd & Hs).
  - destruct (read_all_run (S (length (stream w))) chunk bound [] (w, limit)) as (r & w' & Hrun & _ & Hres);
      [done|done|simpl; rewrite length_take; lia|simpl; lia|].
    exists r, w'. split; [done|]. destruct r as [all|e]; [|done]. by destruct Hres as (-> & _).
Qed.

Lemma framed_reads_exact_witness :
  (exists r w', read_full 4 4 [] (mkPipe [1; 2; 3; 4; 5]%Z []) = Some (r, w') /\
   match r with
   | Ok out => length out = 4 /\ [1; 2; 3; 4; 5]%Z = out ++ p_src w'
   | Err e => e = of_errc closed /\ 5 < 4 \/ reader_error (W := Pipe) e
   end) /\
  (exists r w', read_all 6 2 100 [] (mkPipe [1; 2; 3; 4; 5]%Z [], 4) = Some (r, w') /\
   match r with
   | Ok all => all = [1; 2; 3; 4]%Z
   | Err e => e = of_errno EMSGSIZE /\ 100 < 4 \/ reader_error (W := Pipe * nat) e
   end).
Proof. refine (framed_reads_exact 4 2 100 4 (mkPipe [1; 2; 3; 4; 5]%Z []) I _); lia. Defined.

(** ** Buffered reading *)

(** The line that [read_line] answers for a chunk. *)
Definition stripped (chunk : bytes) : bytes := pop_back_if cCR (pop_back_if cLF chunk).

Lemma pop_back_if_length c l : length (pop_back_if c l) <= length l.
Proof. unfold pop_back_if. destruct (last l); [|done]. case_decide; [|done]. rewrite length_take. lia. Qed.

(** Lines: over any reader and whatever the buffer holds, [read_line]
    answers the next line of the stream without its line end and leaves what
    follows, answers nothing only at the end of the stream, and holds at most
    the limit and one buffer of memory; EMSGSIZE is only for a line longer
    than the limit. It always returns. *)
Theorem read_line_next_line {W} `{HR : ReaderSpec W} (limit : nat) (s : W * Buf) :
  valid s ->
  exists r s', read_line (length (pending_bytes s) + 2) limit s = Some (r, s') /\
  match r with
  | Ok None => pending_bytes s = [] /\ pending_bytes s' = []
  | Ok (Some line) => pending_bytes s <> [] /\
      (line, pending_bytes s') = (stripped (fst (chunk_of cLF (pending_bytes s))), snd (chunk_of cLF (pending_bytes s))) /\
      length line <= limit + BufReader.capacity_ s.2
  | Err e => e = of_errno EMSGSIZE /\ limit < length (fst (chunk_of cLF (pending_bytes s))) \/
      reader_error (W := W) e
  end.
Proof.
  intros Hs. unfold read_line, read_string.
  destruct (BufReader.read_string_from_run cLF limit (length (pending_bytes s) + 2) [] s Hs)
    as (r & s' & Hrun & _ & Hres); [simpl; lia|destruct (decide _); lia|].
  rewrite (st_bind_eq _ _ _ _ _ Hrun). destruct r as [[chunk|]|e]; (eexists _, _; split; [done|]); simpl in Hres.
  - destruct Hres as ([= Hc Hs'] & Hne & Hle). split_and!.
    + intros Hnil. rewrite Hnil in Hc. by apply Hne.
    + unfold stripped. by rewrite <- Hc, <- Hs'.
    + pose proof (pop_back_if_length cLF chunk). pose proof (pop_back_if_length cCR (pop_back_if cLF chunk)). lia.
  - by destruct Hres as (_ & ? & ?).
  - done.
Qed.

Definition a_pipe : Pipe := mkPipe [104; 105; 13; 10; 120]%Z [].
Definition a_buf : Buf := BufReader.new_reader (repeat 0%Z 4) 4.

Lemma read_line_next_line_witness :
  valid (a_pipe, a_buf) /\
  exists r s', read_line 7 100 (a_pipe, a_buf) = Some (r, s') /\
  match r with
  | Ok None => pending_bytes (a_pipe, a_buf) = [] /\ pending_bytes s' = []
  | Ok (Some line) => pending_bytes (a_pipe, a_buf) <> [] /\
      (line, pending_bytes s') = ([104; 105], [120])%Z /\ length line <= 100 + 4
  | Err e => e = of_errno EMSGSIZE /\ 100 < 4 \/ reader_error (W := Pipe) e
  end.
Proof.
  assert (Hv : valid (a_pipe, a_buf)).
  { split; [exact I|]. apply BufReader.new_reader_wf. simpl. lia. }
  split; [exact Hv|]. exact (read_line_next_line 100 (a_pipe, a_buf) Hv).
Defined.

(** [kDefaultMaxLineBytes] and its comment promise that a longer line is an
    error; the check is made only on bytes with no delimiter among them, so a
    line of six bytes passes a limit of two. *)
Example long_line_accepted :
  exists s', read_line 9 2 (mkPipe [97; 97; 97; 97; 97; 97; 10]%Z [],
      mkBuf [97; 97; 97; 97; 97; 97; 10]%Z 7 0 7) = Some (Ok (Some [97; 97; 97; 97; 97; 97]%Z), s').
Proof. eexists. vm_compute. reflexivity. Qed.

(** [peek] answers the next bytes of the stream, all that were asked for
    or all that there are, and takes none; [discard] drops that many and
    answers how many there were; a peek beyond the capacity is EMSGSIZE. Both
    always return. *)
Theorem peek_discard_exact {W} `{HR : ReaderSpec W} (count : nat) (s : W * Buf) :
  valid s ->
  (exists r s', peek (S count) count s = Some (r, s') /\
   match r with
   | Ok view => view = take count (pending_bytes s) /\ pending_bytes s' = pending_bytes s
   | Err e => e = of_errno EMSGSIZE /\ BufReader.capacity_ s.2 < count \/ reader_error (W := W) e
   end) /\
  (exists r s', discard (S count) count s = Some (r, s') /\
   match r with
   | Ok n => n = min count (length (pending_bytes s)) /\ pending_bytes s' = drop n (pending_bytes s)
   | Err e => reader_error (W := W) e
   end).
Proof.
  intros Hs. split.
  - unfold peek. unfold st_bind at 1, st_gets at 1. destruct (decide (BufReader.capacity_ s.2 < count)) as [Hc|Hc].
    { eexists _, _. split; [done|]. by left. }
    destruct (BufReader.peek_fill_run count (S count) s Hs) as (r & s' & Hrun & Hv' & Hres); [lia|lia|].
    rewrite (st_bind_eq _ _ _ _ _ Hrun). destruct r as [u|e]; (eexists _, _; split; [done|]); [|by right].
    destruct Hres as [Hp Hv]. split; [|done]. rewrite <- Hv, <- (BufReader.window_length _ (proj2 Hv')).
    destruct (decide (count <= length (BufReader.window s'.2))) as [Hle|Hgt]; [by rewrite Nat.min_l by lia|].
    by rewrite Nat.min_r, !take_ge by lia.
  - destruct (BufReader.discard_from_run count (S count) 0 s Hs) as (r & s' & Hrun & Hv' & Hres); [lia|lia|].
    exists r, s'. split; [done|]. destruct r as [n|e]; [|done]. destruct Hres as [Hn Hp].
    rewrite Nat.sub_0_r in Hp. by rewrite Nat.add_0_l in Hn.
Qed.

Lemma peek_discard_exact_witness :
  (exists r s', peek 4 3 (a_pipe, a_buf) = Some (r, s') /\
   match r with
   | Ok view => view = [104; 105; 13]%Z /\ pending_bytes s' = p_src a_pipe
   | Err e => e = of_errno EMSGSIZE /\ 4 < 3 \/ reader_error (W := Pipe) e
   end) /\
  (exists r s', discard 4 3 (a_pipe, a_buf) = Some (r, s') /\
   match r with
   | Ok n => n = 3 /\ pending_bytes s' = drop n (p_src a_pipe)
   | Err e => reader_error (W := Pipe) e
   end).
Proof.
  refine (peek_discard_exact 3 (a_pipe, a_buf) (conj I _)). apply BufReader.new_reader_wf. simpl. lia.
Defined.

(** Buffered writing keeps order and loses nothing: any run of writes,
    ended by [flush], leaves in the sink what it had, then what was held, then
    the writes, in order, unless the sink reported an error; and nothing stays
    behind in the buffer. *)
Theorem buffered_writes_in_order {W} `{HW : WriterSpec W} `{HF : !FullWriter W}
    (l : list bytes) (s : W * OutBuf) :
  valid s ->
  exists r s', (r <-- write_each l; match r with Err e => st_ret (Err e) | Ok _ => flush end) s = Some (r, s') /\
  match r with
  | Ok _ => sink s'.1 = taken s ++ concat l /\ BufWriter.held_ s'.2 = 0
  | Err e => BufWriter.sink_error (W := W) e
  end.
Proof.
  intros Hs. destruct (BufWriter.write_each_run l s Hs) as (r & s1 & Hrun & Hv1 & Hres).
  rewrite (st_bind_eq _ _ _ _ _ Hrun). destruct r as [n|e]; [|by eexists _, _].
  destruct (BufWriter.flush_spec s1 Hv1) as [(s2 & Hf & Hv2 & Hz & _ & Hsk)|(e & s2 & Hf & _ & _ & He)];
    rewrite Hf; eexists _, _; (split; [done|]); [|done].
  by rewrite Hsk, Hres.
Qed.

Lemma buffered_writes_in_order_witness :
  exists r s', (r <-- write_each [[1; 2]; [3; 4; 5; 6]; [7]]%Z; match r with Err e => st_ret (Err e) | Ok _ => flush end)
    (mkPipe [] [0]%Z, BufWriter.new_writer (repeat 0%Z 4) 3) = Some (r, s') /\
  match r with
  | Ok _ => p_dst s'.1 = [0; 1; 2; 3; 4; 5; 6; 7]%Z /\ BufWriter.held_ s'.2 = 0
  | Err e => BufWriter.sink_error (W := Pipe) e
  end.
Proof.
  refine (buffered_writes_in_order [[1; 2]; [3; 4; 5; 6]; [7]]%Z
    (mkPipe [] [0]%Z, BufWriter.new_writer (repeat 0%Z 4) 3) (conj I _)).
  apply BufWriter.new_writer_wf. simpl. lia.
Defined.
