(* ===== verification/Pool.v ===== *)
(** * Byte-buffer pools (include/cio/pool.hpp, src/pool.cpp)

    The size classes, the thread caches and the shared lists of every pool, and
    the system of threads that take, return and drop buffers. *)

From stdpp Require Import functions.
From S2P Require Import Prelude.
From S2P Require Bitmap.

Set Default Proof Using "Type".

Import Bitmap (countr_zero).


Local Open Scope Z_scope.

Definition kMinBufferBytes : Z := 512.
Definition kMaxPooledBytes : Z := 2 ^ 20.
Definition kThreadCacheDepth : nat := 8.
Definition kClassCount : nat := 12.
Definition kExactClassThreshold : Z := 64 * 2 ^ 10.

(** ** Size classes *)

Fixpoint class_loop (fuel : nat) (rounded : Z) (index : nat) (n : Z) : nat :=
  match fuel with
  | O => index
  | S fuel =>
      if decide (rounded < n /\ (index + 1 < kClassCount)%nat)
      then class_loop fuel (Z.shiftl rounded 1) (S index) n
      else index
  end.

Definition class_of (n : Z) : nat := class_loop kClassCount kMinBufferBytes 0 n.

Definition class_bytes (index : nat) : Z := Z.shiftl kMinBufferBytes (Z.of_nat index).

(** The class [put] computes for a returned block. *)
Definition put_class (size : Z) : nat :=
  if decide (size < kExactClassThreshold) then class_of size
  else (countr_zero size - countr_zero kMinBufferBytes)%nat.

(** ** State

    A block is an address; the intrusive lists of a thread cache are lists with
    their heads first. [live] holds the size of every allocated block. *)

Abbreviation block := positive.
Abbreviation pool_id := nat.
Abbreviation thread_id := nat.

Record ThreadCache := mkCache { owner : option pool_id; free_list : nat -> list block; cache_count : nat -> nat }.

Definition empty_cache : ThreadCache := mkCache None (fun _ => []) (fun _ => 0%nat).

Record Memory := mkMemory {
  live : gmap block Z;
  caches : thread_id -> ThreadCache;
  central : pool_id -> nat -> list block
}.

Record PooledBuffer := mkBuffer { pool_ : option pool_id; data_ : block; size_ : Z }.

#[global] Instance PooledBuffer_eq_dec : EqDecision PooledBuffer.
Proof. solve_decision. Defined.

Definition set_cache (t : thread_id) (c : ThreadCache) (m : Memory) : Memory :=
  mkMemory (live m) (<[t := c]> (caches m)) (central m).
Definition set_live (l : gmap block Z) (m : Memory) : Memory := mkMemory l (caches m) (central m).
Definition set_central (p : pool_id) (i : nat) (l : list block) (m : Memory) : Memory :=
  mkMemory (live m) (caches m) (<[p := <[i := l]> (central m p)]> (central m)).

Definition free_blocks (l : list block) (m : gmap block Z) : gmap block Z := foldr delete m l.

(** Everything a cache holds. *)
Definition cache_blocks (c : ThreadCache) : list block := concat (map (free_list c) (seq 0 kClassCount)).

(** ** Operations *)

Definition drain_cache (t : thread_id) (m : Memory) : Memory :=
  let c := caches m t in
  mkMemory (free_blocks (cache_blocks c) (live m))
    (<[t := mkCache (owner c) (fun _ => []) (fun _ => 0%nat)]> (caches m)) (central m).

(** [cache()]: the thread's cache, re-homed to the pool. *)
Definition cache (t : thread_id) (p : pool_id) (m : Memory) : Memory :=
  if decide (owner (caches m t) = Some p) then m
  else
    let m := drain_cache t m in
    let c := caches m t in
    set_cache t (mkCache (Some p) (free_list c) (cache_count c)) m.

(** [~ThreadCache], at the thread's exit. *)
Definition thread_exit (t : thread_id) (m : Memory) : Memory :=
  let m := drain_cache t m in
  let c := caches m t in
  set_cache t (mkCache None (free_list c) (cache_count c)) m.

Definition cache_push (i : nat) (b : block) (c : ThreadCache) : ThreadCache :=
  mkCache (owner c) (<[i := b :: free_list c i]> (free_list c)) (<[i := S (cache_count c i)]> (cache_count c)).

(** The head of the class's free list, unlinked. *)
Definition cache_pop (i : nat) (c : ThreadCache) : option (block * ThreadCache) :=
  match free_list c i with
  | [] => None
  | b :: l => Some (b, mkCache (owner c) (<[i := l]> (free_list c)) (<[i := (cache_count c i - 1)%nat]> (cache_count c)))
  end.

(** The refill loop: blocks move from the back of the shared list. *)
Fixpoint refill (move_ : nat) (i : nat) (shared : list block) (c : ThreadCache) : list block * ThreadCache :=
  match move_ with
  | O => (shared, c)
  | S n =>
      match last shared with
      | None => (shared, c)
      | Some b => refill n i (take (length shared - 1) shared) (cache_push i b c)
      end
  end.

(** [get_slow]; [fresh] is what [operator new] returns. *)
Definition get_slow (t : thread_id) (p : pool_id) (i : nat) (size : Z) (fresh : block) (m : Memory)
    : PooledBuffer * Memory :=
  let shared := central m p i in
  let '(shared', c) := refill (min (length shared) kThreadCacheDepth) i shared (caches m t) in
  let m := set_cache t c (set_central p i shared' m) in
  match cache_pop i c with
  | Some (b, c) => (mkBuffer (Some p) b size, set_cache t c m)
  | None => (mkBuffer (Some p) fresh size, set_live (<[fresh := size]> (live m)) m)
  end.

Definition get (t : thread_id) (p : pool_id) (bytes : Z) (fresh : block) (m : Memory) : PooledBuffer * Memory :=
  let bytes := if decide (bytes = 0) then 1 else bytes in
  if decide (kMaxPooledBytes < bytes)
  then (mkBuffer None fresh bytes, set_live (<[fresh := bytes]> (live m)) m)
  else
    let i := class_of bytes in
    let size := class_bytes i in
    let m := cache t p m in
    match cache_pop i (caches m t) with
    | Some (b, c) => (mkBuffer (Some p) b size, set_cache t c m)
    | None => get_slow t p i size fresh m
    end.

Definition put_slow (p : pool_id) (b : block) (i : nat) (m : Memory) : Memory :=
  set_central p i (central m p i ++ [b]) m.

Definition put (t : thread_id) (p : pool_id) (b : block) (size : Z) (m : Memory) : Memory :=
  if decide (kMaxPooledBytes < size) then set_live (delete b (live m)) m
  else
    let i := put_class size in
    let m := cache t p m in
    if decide (cache_count (caches m t) i < kThreadCacheDepth)%nat
    then set_cache t (cache_push i b (caches m t)) m
    else put_slow p b i m.

(** [PooledBuffer::release] of a valid handle. *)
Definition release (t : thread_id) (h : PooledBuffer) (m : Memory) : Memory :=
  match pool_ h with
  | Some p => put t p (data_ h) (size_ h) m
  | None => set_live (delete (data_ h) (live m)) m
  end.

(** [~BufferPool]. *)
Definition destroy_pool (p : pool_id) (m : Memory) : Memory :=
  mkMemory (free_blocks (concat (map (central m p) (seq 0 kClassCount))) (live m)) (caches m)
    (<[p := fun _ => []]> (central m)).

Definition retained (p : pool_id) (m : Memory) : nat :=
  list_sum (map (fun i => length (central m p i)) (seq 0 kClassCount)).

(** ** The system of threads

    Any thread may take a buffer, return any handle, or exit; a pool dies once
    no handle names it. *)

Record PoolSys := mkPoolSys { memory : Memory; handles : list PooledBuffer }.

Definition pool_init : PoolSys -> Prop := fun s =>
  s = mkPoolSys (mkMemory ∅ (fun _ => empty_cache) (fun _ _ => [])) [].

Inductive pool_step : PoolSys -> PoolSys -> Prop :=
  | pool_get m hs t p n fresh h m' : 0 <= n < 2 ^ 64 -> live m !! fresh = None ->
      get t p n fresh m = (h, m') -> pool_step (mkPoolSys m hs) (mkPoolSys m' (h :: hs))
  | pool_release m hs1 h hs2 t :
      pool_step (mkPoolSys m (hs1 ++ h :: hs2)) (mkPoolSys (release t h m) (hs1 ++ hs2))
  | pool_exit m hs t : pool_step (mkPoolSys m hs) (mkPoolSys (thread_exit t m) hs)
  | pool_destroy m hs p : (forall h, h ∈ hs -> pool_ h <> Some p) ->
      pool_step (mkPoolSys m hs) (mkPoolSys (destroy_pool p m) hs).

Local Close Scope Z_scope.

(** * Properties of the buffer pools

    Every block is in exactly one place: a handle, a list of one thread's
    cache, or a shared list of one pool. *)

(** ** Size classes *)

Lemma class_loop_spec fuel : forall r i n, (0 < r)%Z -> r = class_bytes i -> kClassCount <= i + fuel + 1 -> i < kClassCount ->
  (forall j, j < i -> (class_bytes j < n)%Z) -> (n <= class_bytes (kClassCount - 1))%Z ->
  let k := class_loop fuel r i n in
  k < kClassCount /\ (n <= class_bytes k)%Z /\ (forall j, j < k -> (class_bytes j < n)%Z).
Proof.
  induction fuel as [|fuel IH]; intros r i n Hr Hri Hf Hi Hlow Hn; cbn [class_loop].
  { assert (i = kClassCount - 1) as -> by lia. done. }
  destruct (decide ((r < n)%Z /\ i + 1 < kClassCount)) as [[H1 H2]|Hstop].
  - apply IH; [rewrite Z.shiftl_mul_pow2; lia| |lia|lia| |done].
    + subst r. unfold class_bytes. rewrite Z.shiftl_shiftl by lia. f_equal. lia.
    + intros j Hj. destruct (decide (j = i)) as [->|]; [by rewrite <- Hri|apply Hlow; lia].
  - split; [done|]. split; [|done]. destruct (decide (r < n)%Z); [|lia].
    assert (i = kClassCount - 1) as -> by lia. done.
Qed.

Lemma class_of_spec n : (n <= kMaxPooledBytes)%Z ->
  class_of n < kClassCount /\ (n <= class_bytes (class_of n))%Z /\
  (forall j, j < class_of n -> (class_bytes j < n)%Z).
Proof.
  intros Hn. apply class_loop_spec; [done|done|unfold kClassCount; lia|unfold kClassCount; lia|lia|done].
Qed.

Lemma class_bytes_max i : i < kClassCount -> (class_bytes i <= kMaxPooledBytes)%Z.
Proof.
  intros Hi. assert (Hall : forallb (fun i => bool_decide (class_bytes i <= kMaxPooledBytes)%Z) (seq 0 kClassCount) = true) by done.
  rewrite forallb_forall in Hall. specialize (Hall i). rewrite in_seq in Hall. apply (bool_decide_eq_true_1 _), Hall. lia.
Qed.

Lemma put_class_exact i : i < kClassCount -> put_class (class_bytes i) = i.
Proof.
  intros Hi.
  assert (Hall : forallb (fun i => bool_decide (put_class (class_bytes i) = i)) (seq 0 kClassCount) = true) by (vm_compute; done).
  rewrite forallb_forall in Hall. specialize (Hall i). rewrite in_seq in Hall. apply (bool_decide_eq_true_1 _), Hall. lia.
Qed.

(** ** Partitions

    Lists of blocks, one per place, that split the live blocks. *)

Section partition.
Context {P : Type} `{EqDecision P}.

Record partition (C : P -> list block) (L : gmap block Z) : Prop := {
  pt_nodup pl : NoDup (C pl);
  pt_disjoint pl1 pl2 b : b ∈ C pl1 -> b ∈ C pl2 -> pl1 = pl2;
  pt_live b : is_Some (L !! b) <-> exists pl, b ∈ C pl
}.

Lemma partition_ext C C' L : (forall pl, C' pl ≡ₚ C pl) -> partition C L -> partition C' L.
Proof.
  intros He [H1 H2 H3]. split.
  - intros pl. by rewrite He.
  - intros pl1 pl2 b. rewrite !He. apply H2.
  - intros b. rewrite H3. by setoid_rewrite He.
Qed.

Lemma partition_move C C' L b pl1 pl2 : partition C L -> pl1 <> pl2 ->
  C pl1 ≡ₚ b :: C' pl1 -> C' pl2 ≡ₚ b :: C pl2 ->
  (forall pl, pl <> pl1 -> pl <> pl2 -> C' pl ≡ₚ C pl) -> partition C' L.
Proof using EqDecision0.
  intros [H1 H2 H3] Hne Hp1 Hp2 Hrest.
  assert (Hb1 : b ∈ C pl1) by (rewrite Hp1; apply elem_of_cons; auto).
  assert (Hnb : b ∉ C' pl1) by (pose proof (H1 pl1) as Hn; rewrite Hp1, NoDup_cons in Hn; tauto).
  assert (Hin : forall pl x, x ∈ C' pl <-> (x = b /\ pl = pl2) \/ (x <> b /\ x ∈ C pl)).
  { intros pl x. destruct (decide (pl = pl1)) as [->|Hn1]; [|destruct (decide (pl = pl2)) as [->|Hn2]].
    - rewrite Hp1, elem_of_cons. split; [|intros [[? ?]|[? [?|?]]]; congruence || done].
      intros Hx. right. split; [by intros ->|by right].
    - rewrite Hp2, elem_of_cons. destruct (decide (x = b)); [tauto|]. tauto.
    - rewrite Hrest by done. split; [|intros [[? ?]|[? ?]]; congruence || done].
      intros Hx. right. split; [|done]. intros ->. apply Hn1. by apply (H2 _ _ b). }
  split.
  - intros pl. destruct (decide (pl = pl1)) as [->|Hn1]; [|destruct (decide (pl = pl2)) as [->|Hn2]].
    + pose proof (H1 pl1) as Hn. rewrite Hp1, NoDup_cons in Hn. tauto.
    + rewrite Hp2. apply NoDup_cons. split; [|done]. intros Hb2. by apply Hne, (H2 _ _ b).
    + by rewrite Hrest.
  - intros q1 q2 x. rewrite !Hin. intros [[-> ->]|[? Hx1]] [[E ->]|[? Hx2]]; [done|done|done|by apply (H2 _ _ x)].
  - intros x. rewrite H3. split; intros [pl Hx].
    + destruct (decide (x = b)) as [->|]; [exists pl2|exists pl]; rewrite Hin; auto.
    + rewrite Hin in Hx. destruct Hx as [[-> ->]|[? ?]]; eauto.
Qed.

Lemma partition_alloc C C' L b x pl0 : partition C L -> L !! b = None ->
  C' pl0 ≡ₚ b :: C pl0 -> (forall pl, pl <> pl0 -> C' pl ≡ₚ C pl) -> partition C' (<[b := x]> L).
Proof using EqDecision0.
  intros [H1 H2 H3] Hb Hp0 Hrest.
  assert (Hnb : forall pl, b ∉ C pl).
  { intros pl Hin. assert (is_Some (L !! b)) as [? ?]; [|congruence]. rewrite H3. eauto. }
  assert (Hin : forall pl y, y ∈ C' pl <-> (y = b /\ pl = pl0) \/ y ∈ C pl).
  { intros pl y. destruct (decide (pl = pl0)) as [->|Hn]; [rewrite Hp0, elem_of_cons; tauto|].
    rewrite Hrest by done. split; [tauto|]. by intros [[? ?]|?]. }
  split.
  - intros pl. destruct (decide (pl = pl0)) as [->|Hn]; [rewrite Hp0; by apply NoDup_cons|by rewrite Hrest].
  - intros q1 q2 y. rewrite !Hin. intros [[-> ->]|Hx1] [[E ->]|Hx2]; subst; try done.
    + by apply Hnb in Hx2.
    + by apply Hnb in Hx1.
    + by apply (H2 _ _ y).
  - intros y. destruct (decide (y = b)) as [->|Hn].
    + rewrite lookup_insert_eq. split; [|by eauto]. intros _. exists pl0. rewrite Hin. auto.
    + rewrite lookup_insert_ne by done. rewrite H3. setoid_rewrite Hin. split; [naive_solver|].
      intros [pl [[? ?]|?]]; [done|eauto].
Qed.

Lemma free_blocks_lookup l L b : free_blocks l L !! b = if decide (b ∈ l) then None else L !! b.
Proof.
  induction l as [|x l IH]; cbn [free_blocks foldr].
  { by rewrite decide_False by apply not_elem_of_nil. }
  fold (free_blocks l L).
  destruct (decide (b = x)) as [->|Hn].
  - rewrite lookup_delete_eq, decide_True; [done|]. apply elem_of_cons. auto.
  - rewrite lookup_delete_ne, IH by done.
    destruct (decide (b ∈ l)); [rewrite decide_True|rewrite decide_False]; rewrite ?elem_of_cons; tauto.
Qed.

(** Freeing every block of some of the places, or one block of a place. *)
Lemma partition_free_places C C' L (S : list P) : partition C L ->
  (forall pl, pl ∈ S -> C' pl = []) -> (forall pl, pl ∉ S -> C' pl ≡ₚ C pl) ->
  partition C' (free_blocks (concat (map C S)) L).
Proof using EqDecision0.
  intros [H1 H2 H3] Hs Hrest.
  assert (Hcat : forall b, b ∈ concat (map C S) <-> exists pl, pl ∈ S /\ b ∈ C pl).
  { intros b. rewrite list_elem_of_In, in_concat. split.
    - intros (l & Hl & Hb). apply in_map_iff in Hl as (pl & <- & Hpl). exists pl. by rewrite !list_elem_of_In.
    - intros (pl & Hpl%list_elem_of_In & Hb%list_elem_of_In). exists (C pl). rewrite in_map_iff. eauto. }
  assert (Hin : forall pl y, y ∈ C' pl <-> pl ∉ S /\ y ∈ C pl).
  { intros pl y. destruct (decide (pl ∈ S)) as [Hp|Hp]; [rewrite Hs by done|rewrite Hrest by done; tauto].
    split; [by intros ?%not_elem_of_nil|tauto]. }
  split.
  - intros pl. destruct (decide (pl ∈ S)) as [Hp|Hp]; [rewrite Hs by done; constructor|by rewrite Hrest].
  - intros q1 q2 y. rewrite !Hin. intros [_ Hx1] [_ Hx2]. by apply (H2 _ _ y).
  - intros y. rewrite free_blocks_lookup. destruct (decide (y ∈ _)) as [Hy|Hy].
    + split; [by intros []|]. intros (pl & Hx). rewrite Hin in Hx. destruct Hx as [Hns Hx].
      rewrite Hcat in Hy. destruct Hy as (pl' & Hp' & Hx'). by rewrite (H2 _ _ y Hx Hx') in Hns.
    + rewrite H3. setoid_rewrite Hin. split; [|naive_solver]. intros [pl Hx]. exists pl. split; [|done].
      intros Hpl. apply Hy, Hcat. eauto.
Qed.

Lemma partition_free C C' L b pl0 : partition C L -> C pl0 ≡ₚ b :: C' pl0 ->
  (forall pl, pl <> pl0 -> C' pl ≡ₚ C pl) -> partition C' (delete b L).
Proof using EqDecision0.
  intros [H1 H2 H3] Hp0 Hrest. pose proof (H1 pl0) as Hn0. rewrite Hp0, NoDup_cons in Hn0. destruct Hn0 as [Hnb Hn0].
  assert (Hb0 : b ∈ C pl0) by (rewrite Hp0; apply elem_of_cons; auto).
  assert (Hin : forall pl y, y ∈ C' pl <-> y <> b /\ y ∈ C pl).
  { intros pl y. destruct (decide (pl = pl0)) as [->|Hn].
    - rewrite Hp0, elem_of_cons. split; [|tauto]. intros Hy. split; [by intros ->|auto].
    - rewrite Hrest by done. split; [|tauto]. intros Hy. split; [|done]. intros ->. by apply Hn, (H2 _ _ b). }
  split.
  - intros pl. destruct (decide (pl = pl0)) as [->|Hn]; [done|by rewrite Hrest].
  - intros q1 q2 y. rewrite !Hin. intros [_ Hx1] [_ Hx2]. by apply (H2 _ _ y).
  - intros y. destruct (decide (y = b)) as [->|Hn].
    + rewrite lookup_delete_eq. split; [by intros []|]. intros [pl Hx]. rewrite Hin in Hx. tauto.
    + rewrite lookup_delete_ne, H3 by done. setoid_rewrite Hin. naive_solver.
Qed.
End partition.

(** ** The invariant of the threads *)

Inductive Place := Borrowed | Cached (t : thread_id) (i : nat) | Shared (p : pool_id) (i : nat).

#[global] Instance Place_eq_dec : EqDecision Place.
Proof. solve_decision. Defined.

Definition contents (m : Memory) (hs : list PooledBuffer) (pl : Place) : list block :=
  match pl with
  | Borrowed => map data_ hs
  | Cached t i => free_list (caches m t) i
  | Shared p i => central m p i
  end.

(** What a place says of its blocks. *)
Definition place_class (pl : Place) : option nat :=
  match pl with Borrowed => None | Cached _ i | Shared _ i => Some i end.

Record pinv (m : Memory) (hs : list PooledBuffer) : Prop := {
  pv_part : partition (contents m hs) (live m);
  pv_class pl i b : place_class pl = Some i -> b ∈ contents m hs pl ->
    i < kClassCount /\ live m !! b = Some (class_bytes i);
  pv_handle h : h ∈ hs -> live m !! data_ h = Some (size_ h) /\
    (forall p, pool_ h = Some p -> exists i, i < kClassCount /\ size_ h = class_bytes i);
  pv_count t i : cache_count (caches m t) i = length (free_list (caches m t) i) /\
    cache_count (caches m t) i <= kThreadCacheDepth
}.

Lemma pinv_ext m m' hs : live m' = live m ->
  (forall pl, contents m' hs pl = contents m hs pl) ->
  (forall t i, cache_count (caches m' t) i = cache_count (caches m t) i) ->
  pinv m hs -> pinv m' hs.
Proof.
  intros Hl Hc Hn [H1 H2 H3 H4]. split.
  - rewrite Hl. apply (partition_ext (contents m hs)); [|done]. intros pl. by rewrite Hc.
  - intros pl i b. rewrite Hc, Hl. apply H2.
  - intros h. rewrite Hl. apply H3.
  - intros t i. rewrite Hn. specialize (Hc (Cached t i)). simpl in Hc. rewrite Hc. apply H4.
Qed.

(** A block in a list of class [i] or more than eleven cannot be. *)
Lemma contents_class_nil m hs pl i : pinv m hs -> place_class pl = Some i -> kClassCount <= i -> contents m hs pl = [].
Proof.
  intros Hv Hp Hi. destruct (contents m hs pl) as [|b l] eqn:E; [done|].
  destruct (pv_class _ _ Hv pl i b Hp) as [? _]; [rewrite E; apply elem_of_cons; auto|lia].
Qed.

(** Blocks that stay live keep their sizes. *)
Lemma pinv_shrink m m' hs hs' :
  pinv m hs -> partition (contents m' hs') (live m') ->
  (forall b, is_Some (live m' !! b) -> live m' !! b = live m !! b) ->
  (forall pl i b, place_class pl = Some i -> b ∈ contents m' hs' pl -> b ∈ contents m hs pl) ->
  (forall h, h ∈ hs' -> h ∈ hs) ->
  (forall t i, cache_count (caches m' t) i = length (free_list (caches m' t) i) /\
    cache_count (caches m' t) i <= kThreadCacheDepth) -> pinv m' hs'.
Proof.
  intros Hv Hp Hl Hc Hh Hn. split; [done| | |done].
  - intros pl i b Hpl Hb. destruct (pv_class _ _ Hv pl i b Hpl (Hc pl i b Hpl Hb)) as [? Hlv].
    split; [done|]. rewrite Hl; [done|]. apply (pt_live _ _ Hp). eauto.
  - intros h Hin. destruct (pv_handle _ _ Hv h (Hh h Hin)) as [Hlv Hcl]. split; [|done].
    rewrite Hl; [done|]. apply (pt_live _ _ Hp). exists Borrowed. simpl.
    apply list_elem_of_In, in_map_iff. exists h. by rewrite list_elem_of_In in Hin.
Qed.

Lemma free_blocks_keep l L b : is_Some (free_blocks l L !! b) -> free_blocks l L !! b = L !! b.
Proof. rewrite free_blocks_lookup. by destruct (decide (b ∈ l)) as [|]; [intros []|]. Qed.

(** Emptying a thread's lists, whoever owns them afterwards. *)
Lemma drain_inv m hs t o : pinv m hs ->
  pinv (set_cache t (mkCache o (fun _ => []) (fun _ => 0)) (drain_cache t m)) hs.
Proof.
  intros Hv. set (m' := set_cache _ _ _).
  assert (Hc : forall pl, contents m' hs pl = if decide (pl ∈ map (Cached t) (seq 0 kClassCount)) then [] else contents m hs pl).
  { intros pl. destruct (decide (pl ∈ _)) as [Hin|Hout].
    - apply list_elem_of_In, in_map_iff in Hin as (i & <- & _). simpl. by rewrite fn_lookup_insert.
    - destruct pl as [|t' i|p i]; [done| |done]. simpl. destruct (decide (t' = t)) as [->|Hne].
      + rewrite fn_lookup_insert. symmetry. destruct (decide (i < kClassCount)) as [Hi|Hi].
        * destruct Hout. apply list_elem_of_In, in_map_iff. exists i. rewrite in_seq. split; [done|lia].
        * apply (contents_class_nil m hs (Cached t i) i); [done|done|lia].
      + by rewrite !fn_lookup_insert_ne by done. }
  apply (pinv_shrink m m' hs hs Hv).
  - change (live m') with (free_blocks (cache_blocks (caches m t)) (live m)).
    replace (cache_blocks (caches m t)) with (concat (map (contents m hs) (map (Cached t) (seq 0 kClassCount))))
      by (by rewrite map_map).
    apply (partition_free_places (contents m hs)); [apply Hv| |]; intros pl Hpl; rewrite Hc;
      [by rewrite decide_True|by rewrite decide_False].
  - intros b. apply free_blocks_keep.
  - intros pl i b _. rewrite Hc. destruct (decide _); [by intros ?%not_elem_of_nil|done].
  - done.
  - intros t' i. simpl. destruct (decide (t' = t)) as [->|Hne].
    + rewrite fn_lookup_insert. simpl. lia.
    + rewrite !fn_lookup_insert_ne by done. apply Hv.
Qed.

Lemma cache_inv m hs t p : pinv m hs -> pinv (cache t p m) hs.
Proof.
  intros Hv. unfold cache. destruct (decide _); [done|].
  eapply pinv_ext; [| | |apply (drain_inv m hs t (Some p) Hv)]; [done|..].
  - intros [|t' i|p' i]; simpl; [done| |done]. destruct (decide (t' = t)) as [->|Hne];
      [by rewrite !fn_lookup_insert|by rewrite !fn_lookup_insert_ne by done].
  - intros t' i. simpl. destruct (decide (t' = t)) as [->|Hne];
      [by rewrite !fn_lookup_insert|by rewrite !fn_lookup_insert_ne by done].
Qed.

Lemma exit_inv m hs t : pinv m hs -> pinv (thread_exit t m) hs.
Proof.
  intros Hv. unfold thread_exit.
  eapply pinv_ext; [| | |apply (drain_inv m hs t None Hv)]; [done|..].
  - intros [|t' i|p' i]; simpl; [done| |done]. destruct (decide (t' = t)) as [->|Hne];
      [by rewrite !fn_lookup_insert|by rewrite !fn_lookup_insert_ne by done].
  - intros t' i. simpl. destruct (decide (t' = t)) as [->|Hne];
      [by rewrite !fn_lookup_insert|by rewrite !fn_lookup_insert_ne by done].
Qed.

(** ** One block at a time *)

(** A new list of one place, every other place unchanged. *)
Lemma cache_set_contents m t c hs pl :
  (forall i, pl <> Cached t i) -> contents (set_cache t c m) hs pl = contents m hs pl.
Proof.
  intros Hne. destruct pl as [|t' i|p i]; simpl; [done| |done].
  destruct (decide (t' = t)) as [->|]; [by destruct (Hne i)|by rewrite fn_lookup_insert_ne].
Qed.

Lemma cache_set_at m t c hs i : contents (set_cache t c m) hs (Cached t i) = free_list c i.
Proof. simpl. by rewrite fn_lookup_insert. Qed.

(** Counts after a cache is replaced. *)
Lemma count_set m t c :
  (forall t i, cache_count (caches m t) i = length (free_list (caches m t) i) /\ cache_count (caches m t) i <= kThreadCacheDepth) ->
  (forall i, cache_count c i = length (free_list c i) /\ cache_count c i <= kThreadCacheDepth) ->
  forall t' i, cache_count (caches (set_cache t c m) t') i = length (free_list (caches (set_cache t c m) t') i) /\
    cache_count (caches (set_cache t c m) t') i <= kThreadCacheDepth.
Proof.
  intros H1 H2 t' i. simpl. destruct (decide (t' = t)) as [->|]; [rewrite !fn_lookup_insert; apply H2|].
  rewrite !fn_lookup_insert_ne by done. apply H1.
Qed.

(** Taking the head of a class's list into a handle. *)
Lemma pop_inv m hs t p i b c : pinv m hs -> i < kClassCount -> cache_pop i (caches m t) = Some (b, c) ->
  pinv (set_cache t c m) (mkBuffer (Some p) b (class_bytes i) :: hs).
Proof.
  intros Hv Hi. unfold cache_pop. destruct (free_list (caches m t) i) as [|x l] eqn:El; [done|].
  intros [= -> <-]. set (c := mkCache _ _ _). set (h := mkBuffer _ _ _).
  assert (Hb : b ∈ contents m hs (Cached t i)) by (simpl; rewrite El; apply elem_of_cons; auto).
  destruct (pv_class _ _ Hv (Cached t i) i b eq_refl Hb) as [_ Hlive].
  assert (Hsub : forall pl j x, place_class pl = Some j -> x ∈ contents (set_cache t c m) (h :: hs) pl -> x ∈ contents m hs pl).
  { intros [|t' j|p' j] j' x; simpl; [done| |done]. intros _. destruct (decide (t' = t)) as [->|Ht].
    - rewrite fn_lookup_insert. simpl. destruct (decide (j = i)) as [->|Hj].
      + rewrite fn_lookup_insert, El, elem_of_cons. tauto.
      + by rewrite fn_lookup_insert_ne.
    - by rewrite fn_lookup_insert_ne. }
  split.
  - apply (partition_move (contents m hs) _ _ b (Cached t i) Borrowed); [apply Hv|done| |done|].
    + rewrite cache_set_at. simpl. by rewrite fn_lookup_insert, El.
    + intros [|t' j|p' j] Hn1 Hn2; [congruence| |done]. simpl. destruct (decide (t' = t)) as [->|Ht].
      * rewrite fn_lookup_insert. simpl. rewrite fn_lookup_insert_ne; [done|congruence].
      * by rewrite fn_lookup_insert_ne.
  - intros pl j x Hpl Hx. exact (pv_class _ _ Hv pl j x Hpl (Hsub pl j x Hpl Hx)).
  - intros h' [->|Hh]%elem_of_cons; [|by apply Hv]. split; [done|]. intros q _. by exists i.
  - apply count_set; [apply Hv|]. intros j. simpl. pose proof (pv_count _ _ Hv t i) as [Hn Hd].
    destruct (decide (j = i)) as [->|Hj]; [|rewrite !fn_lookup_insert_ne by done; apply Hv].
    rewrite !fn_lookup_insert. rewrite Hn, El in *. simpl in *. lia.
Qed.

(** Both lists of a refill, over a fixed memory. *)
Definition with_lists (m : Memory) (t : thread_id) (c : ThreadCache) (p : pool_id) (i : nat) (l : list block) : Memory :=
  set_cache t c (set_central p i l m).

Lemma with_lists_shared m t c p i l hs : contents (with_lists m t c p i l) hs (Shared p i) = l.
Proof. simpl. by rewrite !fn_lookup_insert. Qed.

Lemma with_lists_other m t c p i l hs pl : (forall j, pl <> Cached t j) -> pl <> Shared p i ->
  contents (with_lists m t c p i l) hs pl = contents m hs pl.
Proof.
  intros H1 H2. unfold with_lists. rewrite cache_set_contents by done. destruct pl as [|t' j|q j]; [done..|]. simpl.
  destruct (decide (q = p)) as [->|]; [|by rewrite fn_lookup_insert_ne].
  rewrite fn_lookup_insert, fn_lookup_insert_ne; [done|congruence].
Qed.

Lemma refill_inv m hs t p i n : forall c l, i < kClassCount ->
  pinv (with_lists m t c p i l) hs -> length (free_list c i) + n <= kThreadCacheDepth ->
  let r := refill n i l c in pinv (with_lists m t r.2 p i r.1) hs.
Proof.
  induction n as [|n IH]; intros c l Hi Hv Hn; cbn [refill]; [done|].
  destruct (last l) as [b|] eqn:El; [|done]. apply IH; [done| |simpl; rewrite fn_lookup_insert; simpl; lia].
  assert (Hl : l ≡ₚ b :: take (length l - 1) l).
  { apply last_Some in El as [l' ->]. rewrite length_app. simpl.
    rewrite take_app_le, take_ge by lia. symmetry; apply Permutation_cons_append. }
  set (m1 := with_lists m t c p i l) in *. set (m2 := with_lists m t _ p i _).
  assert (Hother : forall pl, pl <> Cached t i -> pl <> Shared p i -> contents m2 hs pl = contents m1 hs pl).
  { intros [|t' j|q j] H1 H2; [done| |].
    - simpl. destruct (decide (t' = t)) as [->|]; [|by rewrite !fn_lookup_insert_ne].
      rewrite !fn_lookup_insert. simpl. rewrite fn_lookup_insert_ne; [done|congruence].
    - unfold m1, m2. by rewrite !with_lists_other. }
  assert (Hcached : contents m2 hs (Cached t i) = b :: contents m1 hs (Cached t i)).
  { unfold m1, m2, with_lists. rewrite !cache_set_at. simpl. by rewrite fn_lookup_insert. }
  assert (Hb : b ∈ contents m1 hs (Shared p i)).
  { unfold m1. rewrite with_lists_shared, Hl. apply elem_of_cons. auto. }
  destruct (pv_class _ _ Hv (Shared p i) i b eq_refl Hb) as [_ Hlive]. split.
  - apply (partition_move (contents m1 hs) _ _ b (Shared p i) (Cached t i)); [apply Hv|done| | |].
    + unfold m1, m2. by rewrite !with_lists_shared.
    + by rewrite Hcached.
    + intros pl H1 H2. by rewrite Hother.
  - intros pl j x Hpl Hx. change (live m2) with (live m1). destruct (decide (pl = Cached t i)) as [->|H1].
    + rewrite Hcached, elem_of_cons in Hx. simpl in Hpl. injection Hpl as <-. destruct Hx as [->|Hx]; [done|].
      by apply (pv_class _ _ Hv (Cached t i)).
    + apply (pv_class _ _ Hv pl); [done|]. destruct (decide (pl = Shared p i)) as [->|H2]; [|by rewrite <- Hother].
      unfold m1, m2 in *. rewrite with_lists_shared in *. rewrite Hl. apply elem_of_cons. auto.
  - apply Hv.
  - intros t' j. unfold m2, with_lists. simpl. destruct (decide (t' = t)) as [->|Ht].
    + rewrite fn_lookup_insert. simpl. pose proof (pv_count _ _ Hv t) as Hcnt. unfold m1, with_lists in Hcnt.
      simpl in Hcnt. rewrite fn_lookup_insert in Hcnt. destruct (decide (j = i)) as [->|Hj].
      * rewrite !fn_lookup_insert. simpl. specialize (Hcnt i). lia.
      * rewrite !fn_lookup_insert_ne by done. apply Hcnt.
    + rewrite fn_lookup_insert_ne by done. pose proof (pv_count _ _ Hv t' j) as Hcnt. unfold m1, with_lists in Hcnt.
      simpl in Hcnt. by rewrite fn_lookup_insert_ne in Hcnt by done.
Qed.

(** A block fresh from [operator new] becomes a handle. *)
Lemma alloc_inv m hs o fresh size : pinv m hs -> live m !! fresh = None ->
  (forall p, o = Some p -> exists i, i < kClassCount /\ size = class_bytes i) ->
  pinv (set_live (<[fresh := size]> (live m)) m) (mkBuffer o fresh size :: hs).
Proof.
  intros Hv Hf Ho. split.
  - apply (partition_alloc (contents m hs) _ _ _ _ Borrowed); [apply Hv|done|done|].
    intros [|t i|p i] Hn; done || congruence.
  - intros pl i b Hpl Hb. assert (Hb' : b ∈ contents m hs pl) by (by destruct pl).
    destruct (pv_class _ _ Hv pl i b Hpl Hb') as [? Hlv]. split; [done|]. simpl. rewrite lookup_insert_ne; [done|].
    intros ->. congruence.
  - intros h [->|Hh]%elem_of_cons; simpl; [rewrite lookup_insert_eq; auto|].
    destruct (pv_handle _ _ Hv h Hh) as [Hlv ?]. rewrite lookup_insert_ne; [done|]. intros E. rewrite <- E in Hlv. congruence.
  - apply Hv.
Qed.

(** A handle's block goes to the front of a class's list, to the end of a
    shared list, or back to the allocator. *)
Lemma push_inv m hs t i h : pinv m (h :: hs) -> i < kClassCount -> size_ h = class_bytes i ->
  cache_count (caches m t) i < kThreadCacheDepth ->
  pinv (set_cache t (cache_push i (data_ h) (caches m t)) m) hs.
Proof.
  intros Hv Hi Hs Hn. set (c := cache_push _ _ _).
  destruct (pv_handle _ _ Hv h) as [Hlive _]; [apply elem_of_cons; auto|]. split.
  - apply (partition_move (contents m (h :: hs)) _ _ (data_ h) Borrowed (Cached t i)); [apply Hv|done|done| |].
    + rewrite cache_set_at. simpl. by rewrite fn_lookup_insert.
    + intros [|t' j|p j] H1 H2; [congruence| |done]. simpl. destruct (decide (t' = t)) as [->|Ht].
      * rewrite fn_lookup_insert. simpl. rewrite fn_lookup_insert_ne; [done|congruence].
      * by rewrite fn_lookup_insert_ne.
  - intros pl j x Hpl Hx. change (live (set_cache t c m)) with (live m).
    destruct (decide (pl = Cached t i /\ x = data_ h)) as [[-> ->]|Hold].
    { simpl in Hpl. injection Hpl as <-. by rewrite <- Hs. }
    apply (pv_class _ _ Hv pl); [done|]. destruct pl as [|t' j'|p j']; [done| |done]. simpl in *.
    destruct (decide (t' = t)) as [->|Ht]; [|by rewrite fn_lookup_insert_ne in Hx].
    rewrite fn_lookup_insert in Hx. simpl in Hx. destruct (decide (j' = i)) as [->|Hj].
    + rewrite fn_lookup_insert, elem_of_cons in Hx. destruct Hx as [->|Hx]; [tauto|done].
    + by rewrite fn_lookup_insert_ne in Hx.
  - intros h' Hh. apply Hv. apply elem_of_cons. auto.
  - apply count_set; [apply Hv|]. intros j. simpl. pose proof (pv_count _ _ Hv t i) as [Hc _].
    destruct (decide (j = i)) as [->|Hj]; [rewrite !fn_lookup_insert; simpl; lia|].
    rewrite !fn_lookup_insert_ne by done. apply Hv.
Qed.

Lemma put_slow_inv m hs p i h : pinv m (h :: hs) -> i < kClassCount -> size_ h = class_bytes i ->
  pinv (put_slow p (data_ h) i m) hs.
Proof.
  intros Hv Hi Hs. destruct (pv_handle _ _ Hv h) as [Hlive _]; [apply elem_of_cons; auto|].
  assert (Hat : contents (put_slow p (data_ h) i m) hs (Shared p i) = central m p i ++ [data_ h]).
  { simpl. by rewrite !fn_lookup_insert. }
  assert (Hother : forall pl, pl <> Borrowed -> pl <> Shared p i ->
    contents (put_slow p (data_ h) i m) hs pl = contents m (h :: hs) pl).
  { intros [|t j|q j] H1 H2; [congruence|done|]. simpl. destruct (decide (q = p)) as [->|]; [|by rewrite fn_lookup_insert_ne].
    rewrite fn_lookup_insert, fn_lookup_insert_ne; [done|congruence]. }
  split.
  - apply (partition_move (contents m (h :: hs)) _ _ (data_ h) Borrowed (Shared p i)); [apply Hv|done|done| |].
    + rewrite Hat. simpl. symmetry; apply Permutation_cons_append.
    + intros pl H1 H2. by rewrite Hother.
  - intros pl j x Hpl Hx. change (live (put_slow p (data_ h) i m)) with (live m).
    destruct (decide (pl = Shared p i)) as [->|Hne].
    + simpl in Hpl. injection Hpl as <-. rewrite Hat, elem_of_app, list_elem_of_singleton in Hx.
      destruct Hx as [Hx| ->]; [by apply (pv_class _ _ Hv (Shared p i))|by rewrite <- Hs].
    + apply (pv_class _ _ Hv pl); [done|]. rewrite <- Hother; [done|by intros ->|done].
  - intros h' Hh. apply Hv. apply elem_of_cons. auto.
  - apply Hv.
Qed.

Lemma free_inv m hs h : pinv m (h :: hs) -> pinv (set_live (delete (data_ h) (live m)) m) hs.
Proof.
  intros Hv. assert (Hp : partition (contents (set_live (delete (data_ h) (live m)) m) hs) (delete (data_ h) (live m))).
  { apply (partition_free (contents m (h :: hs)) _ _ _ Borrowed); [apply Hv|done|]. intros [|t i|p i] Hn; done || congruence. }
  apply (pinv_shrink m _ (h :: hs) hs Hv Hp).
  - intros b. simpl. destruct (decide (b = data_ h)) as [->|]; [by rewrite lookup_delete_eq; intros []|].
    by rewrite lookup_delete_ne.
  - intros [|t i|p i] j b; done.
  - intros h' Hh. apply elem_of_cons. auto.
  - apply Hv.
Qed.

(** ** The operations *)

Lemma put_inv m hs t p h : pinv m (h :: hs) -> pool_ h = Some p -> pinv (put t p (data_ h) (size_ h) m) hs.
Proof.
  intros Hv Hp. destruct (pv_handle _ _ Hv h) as [_ Hcl]; [apply elem_of_cons; auto|].
  destruct (Hcl p Hp) as (i & Hi & Hs). unfold put. pose proof (class_bytes_max i Hi).
  rewrite decide_False by lia. rewrite Hs, put_class_exact by done. pose proof (cache_inv m (h :: hs) t p Hv) as Hc.
  destruct (decide _); [by apply push_inv|by apply put_slow_inv].
Qed.

Lemma release_inv m hs1 h hs2 t : pinv m (hs1 ++ h :: hs2) -> pinv (release t h m) (hs1 ++ hs2).
Proof.
  intros Hv. assert (Hv' : pinv m (h :: hs1 ++ hs2)).
  { assert (Hperm : hs1 ++ h :: hs2 ≡ₚ h :: hs1 ++ hs2) by (symmetry; apply Permutation_middle).
    destruct Hv as [H1 H2 H3 H4]. split; [| | |done].
    - apply (partition_ext (contents m (hs1 ++ h :: hs2))); [|done]. intros [|t' i|p i]; [|done..]. simpl.
      by rewrite map_app, <- Permutation_middle, <- map_app.
    - intros [|t' i|p i]; [done|apply (H2 (Cached t' i))|apply (H2 (Shared p i))].
    - intros h'. rewrite <- Hperm. apply H3. }
  unfold release. destruct (pool_ h) as [p|] eqn:Hp; [by apply put_inv|by apply free_inv].
Qed.

Lemma cache_live t p m b : live m !! b = None -> live (cache t p m) !! b = None.
Proof.
  intros Hb. unfold cache. destruct (decide _); [done|]. simpl. rewrite free_blocks_lookup. by destruct (decide _).
Qed.

Lemma get_slow_inv m hs t p i fresh h m' : pinv m hs -> live m !! fresh = None -> i < kClassCount ->
  free_list (caches m t) i = [] -> get_slow t p i (class_bytes i) fresh m = (h, m') -> pinv m' (h :: hs).
Proof.
  intros Hv Hf Hi Hempty. unfold get_slow.
  assert (H0 : pinv (with_lists m t (caches m t) p i (central m p i)) hs).
  { eapply pinv_ext; [| | |exact Hv]; [done|..].
    - intros [|t' j|q j]; simpl; [done| |].
      + destruct (decide (t' = t)) as [->|]; [by rewrite fn_lookup_insert|by rewrite fn_lookup_insert_ne].
      + destruct (decide (q = p)) as [->|]; [rewrite fn_lookup_insert|by rewrite fn_lookup_insert_ne].
        destruct (decide (j = i)) as [->|]; [by rewrite fn_lookup_insert|by rewrite fn_lookup_insert_ne].
    - intros t' j. simpl. destruct (decide (t' = t)) as [->|]; [by rewrite fn_lookup_insert|by rewrite fn_lookup_insert_ne]. }
  pose proof (refill_inv m hs t p i (min (length (central m p i)) kThreadCacheDepth) (caches m t) (central m p i) Hi H0) as H1.
  destruct (refill _ _ _ _) as [shared' c] eqn:Er. cbn [fst snd] in H1.
  specialize (H1 ltac:(rewrite Hempty; simpl; lia)).
  destruct (cache_pop i c) as [[b c']|] eqn:Hpop; intros [= <- <-].
  - assert (Hpop' : cache_pop i (caches (with_lists m t c p i shared') t) = Some (b, c')).
    { unfold with_lists. simpl. by rewrite fn_lookup_insert. }
    pose proof (pop_inv _ hs t p i b c' H1 Hi Hpop') as H2.
    eapply pinv_ext; [| | |exact H2]; [done|..].
    + intros [|t' j|q j]; done.
    + done.
  - apply (alloc_inv (with_lists m t c p i shared') hs); [done|done|]. intros q _. by exists i.
Qed.

Lemma get_inv m hs t p n fresh h m' : pinv m hs -> live m !! fresh = None ->
  get t p n fresh m = (h, m') -> pinv m' (h :: hs).
Proof.
  intros Hv Hf. unfold get. set (n' := if decide (n = 0%Z) then 1%Z else n).
  destruct (decide (kMaxPooledBytes < n')%Z) as [Hbig|Hsmall].
  { intros [= <- <-]. by apply alloc_inv. }
  destruct (class_of_spec n') as (Hi & _ & _); [lia|]. pose proof (cache_inv m hs t p Hv) as Hc.
  destruct (cache_pop _ _) as [[b c]|] eqn:Hpop.
  - intros [= <- <-]. by apply pop_inv.
  - apply get_slow_inv; [done|by apply cache_live|done|].
    unfold cache_pop in Hpop. by destruct (free_list _ _).
Qed.

Lemma destroy_inv m hs p : pinv m hs -> (forall h, h ∈ hs -> pool_ h <> Some p) -> pinv (destroy_pool p m) hs.
Proof.
  intros Hv _. set (m' := destroy_pool p m).
  assert (Hc : forall pl, contents m' hs pl = if decide (pl ∈ map (Shared p) (seq 0 kClassCount)) then [] else contents m hs pl).
  { intros pl. destruct (decide (pl ∈ _)) as [Hin|Hout].
    - apply list_elem_of_In, in_map_iff in Hin as (i & <- & _). simpl. by rewrite fn_lookup_insert.
    - destruct pl as [|t i|q i]; [done..|]. simpl. destruct (decide (q = p)) as [->|Hne]; [|by rewrite fn_lookup_insert_ne].
      rewrite fn_lookup_insert. symmetry. destruct (decide (i < kClassCount)) as [Hi|Hi].
      + destruct Hout. apply list_elem_of_In, in_map_iff. exists i. rewrite in_seq. split; [done|lia].
      + apply (contents_class_nil m hs (Shared p i) i); [done|done|lia]. }
  apply (pinv_shrink m m' hs hs Hv).
  - change (live m') with (free_blocks (concat (map (central m p) (seq 0 kClassCount))) (live m)).
    replace (concat (map (central m p) (seq 0 kClassCount))) with (concat (map (contents m hs) (map (Shared p) (seq 0 kClassCount))))
      by (by rewrite map_map).
    apply (partition_free_places (contents m hs)); [apply Hv| |]; intros pl Hpl; rewrite Hc;
      [by rewrite decide_True|by rewrite decide_False].
  - intros b. apply free_blocks_keep.
  - intros pl i b _. rewrite Hc. destruct (decide _); [by intros ?%not_elem_of_nil|done].
  - done.
  - apply Hv.
Qed.

Lemma pool_reachable_inv s : reachable pool_init pool_step s -> pinv (memory s) (handles s).
Proof.
  apply (reachable_invariant (fun s => pinv (memory s) (handles s))).
  - intros s' ->. split; simpl.
    + split; [intros [|t0 i0|p0 i0]; constructor|intros [|t0 i0|p0 i0] ? b Hb; by apply not_elem_of_nil in Hb|].
      intros b. rewrite lookup_empty. split; [by intros []|]. intros [[|t0 i0|p0 i0] Hb]; by apply not_elem_of_nil in Hb.
    + intros [|t0 i0|p0 i0] i b _ Hb; by apply not_elem_of_nil in Hb.
    + intros h Hh. by apply not_elem_of_nil in Hh.
    + intros t i. split; [done|unfold kThreadCacheDepth; lia].
  - intros s1 s2 _ Hv Hs. destruct Hs as [m hs t p n fresh h m' Hn Hf Hg|m hs1 h hs2 t|m hs t|m hs p Hp]; simpl in *.
    + by apply (get_inv m hs t p n fresh h m').
    + by apply release_inv.
    + by apply exit_inv.
    + by apply destroy_inv.
Qed.

(** ** Properties *)

(** The size [get] gives. *)
Lemma get_size t p n fresh m : (0 <= n)%Z -> (n <= size_ (fst (get t p n fresh m)))%Z /\ (0 < size_ (fst (get t p n fresh m)))%Z.
Proof.
  intros Hn. unfold get. set (n' := if decide (n = 0%Z) then 1%Z else n).
  assert (Hn' : (n <= n' /\ 0 < n')%Z) by (unfold n'; destruct (decide (n = 0)%Z); lia).
  destruct (decide (kMaxPooledBytes < n')%Z) as [Hbig|Hsmall]; [simpl; lia|].
  destruct (class_of_spec n') as (_ & Hle & _); [lia|].
  destruct (cache_pop _ _) as [[b c]|]; [simpl; lia|]. unfold get_slow.
  destruct (refill _ _ _ _) as [shared' c]. destruct (cache_pop _ c) as [[b c']|]; simpl; lia.
Qed.

(** C28: Buffers are exclusive and none is lost: whatever threads take, return,
    re-home their caches, exit or destroy pools, every live block is in exactly
    one place, one handle, one list of one thread's cache or one shared list,
    two handles never name the same block, and a handle's block is live with
    the handle's size. A block in a list of class [i] has that class's size,
    and a cache keeps at most [kThreadCacheDepth] blocks of a class. *)
Theorem pool_blocks_exclusive s :
  reachable pool_init pool_step s ->
  partition (contents (memory s) (handles s)) (live (memory s)) /\
  NoDup (map data_ (handles s)) /\
  (forall h, h ∈ handles s -> live (memory s) !! data_ h = Some (size_ h) /\
    forall t i, data_ h ∉ free_list (caches (memory s) t) i) /\
  (forall t i, length (free_list (caches (memory s) t) i) <= kThreadCacheDepth /\
    forall b, b ∈ free_list (caches (memory s) t) i -> live (memory s) !! b = Some (class_bytes i)).
Proof.
  intros Hr. pose proof (pool_reachable_inv s Hr) as Hv. split_and!.
  - apply Hv.
  - apply (pt_nodup _ _ (pv_part _ _ Hv) Borrowed).
  - intros h Hh. split; [by apply Hv|]. intros t i Hin.
    enough (Borrowed = Cached t i) by done. apply (pt_disjoint _ _ (pv_part _ _ Hv) _ _ (data_ h)); [|done].
    simpl. apply list_elem_of_In, in_map_iff. exists h. by rewrite list_elem_of_In in Hh.
  - intros t i. destruct (pv_count _ _ Hv t i) as [Hc Hd]. split; [lia|]. intros b Hb.
    by apply (pv_class _ _ Hv (Cached t i)).
Qed.

(** Two threads trade a block through the pool. *)
Lemma pool_blocks_exclusive_witness :
  exists s, handles s = [mkBuffer (Some 0) 1%positive 1024%Z] /\
  reachable pool_init pool_step s /\ NoDup (map data_ (handles s)).
Proof.
  set (m0 := mkMemory ∅ (fun _ => empty_cache) (fun _ _ => [])).
  assert (H0 : reachable pool_init pool_step (mkPoolSys m0 [])) by (by apply reachable_init).
  set (r := get 7 0 1000%Z 1%positive m0).
  assert (H1 : reachable pool_init pool_step (mkPoolSys r.2 [r.1])).
  { eapply reachable_step; [exact H0|]. eapply (pool_get m0 [] 7 0 1000%Z 1%positive r.1 r.2); [lia|done|].
    apply surjective_pairing. }
  exists (mkPoolSys r.2 [r.1]). split; [vm_compute; reflexivity|]. split; [exact H1|].
  apply (pool_blocks_exclusive _ H1).
Defined.

(** A buffer is never smaller than asked for, whichever list or allocation
    serves it; a pooled request is rounded to the least size class that holds
    it, and [put] recovers exactly the class a block was served from, by the
    loop below 64 KiB and by the bit trick above. *)
Theorem pool_size_classes (n : Z) :
  (0 <= n)%Z ->
  (forall t p fresh m, (n <= size_ (fst (get t p n fresh m)))%Z /\ (0 < size_ (fst (get t p n fresh m)))%Z) /\
  ((n <= kMaxPooledBytes)%Z -> class_of n < kClassCount /\ (n <= class_bytes (class_of n))%Z /\
    (forall j, j < class_of n -> (class_bytes j < n)%Z) /\ put_class (class_bytes (class_of n)) = class_of n).
Proof.
  intros Hn. split; [intros; by apply get_size|]. intros Hle. destruct (class_of_spec n Hle) as (H1 & H2 & H3).
  split_and!; [done..|by apply put_class_exact].
Qed.

Lemma pool_size_classes_witness :
  class_of 65537 = 8 /\ (65537 <= class_bytes (class_of 65537))%Z /\ put_class (class_bytes (class_of 65537)) = class_of 65537.
Proof.
  destruct (pool_size_classes 65537) as [_ H]; [lia|]. destruct H as (_ & H1 & _ & H2); [unfold kMaxPooledBytes; lia|].
  split; [vm_compute; reflexivity|]. split; [exact H1|exact H2].
Defined.
