(* ===== verification/Join.v ===== *)
(** * Joining a spawned task (include/cio/spawn.hpp)

    The rendezvous word and the reference count of [JoinState], the awaiter of
    [JoinHandle], and the system of a task that finishes, a handle that is
    awaited and dropped, and awaiters that park. Every atomic access is one
    step. *)

From S2P Require Import Prelude.

Set Default Proof Using "Type".

(** ** The shared state *)

Section join.
Context {V E : Type}.

(** [waiter_]: null, a parked joiner, or the done sentinel. *)
Inductive WaiterWord := WNull | WParked (a : nat) | WDone.

#[global] Instance WaiterWord_eq_dec : EqDecision WaiterWord.
Proof. solve_decision. Defined.

(** [slot_]: an optional value; taking it leaves a moved-from value. *)
Inductive ValueSlot := SlotEmpty | SlotValue (v : V) | SlotMoved.

Record JoinState := mkJoin {
  waiter_ : WaiterWord;
  refs_ : Z;
  slot_ : ValueSlot;
  exception_ : option E
}.

Definition new_state (initial_refs : Z) : JoinState := mkJoin WNull initial_refs SlotEmpty None.

Definition completed (j : JoinState) : bool := bool_decide (waiter_ j = WDone).

Definition completed_successfully (j : JoinState) : bool :=
  completed j && match exception_ j with None => true | Some _ => false end.

Inductive ParkResult := kParked | kCompleted | kAlreadyWaiting.

Definition set_waiter (w : WaiterWord) (j : JoinState) : JoinState :=
  mkJoin w (refs_ j) (slot_ j) (exception_ j).
Definition set_refs (n : Z) (j : JoinState) : JoinState :=
  mkJoin (waiter_ j) n (slot_ j) (exception_ j).

Definition try_park (a : nat) (j : JoinState) : ParkResult * JoinState :=
  match waiter_ j with
  | WNull => (kParked, set_waiter (WParked a) j)
  | WDone => (kCompleted, j)
  | WParked _ => (kAlreadyWaiting, j)
  end.

(** [complete]: the exchange, and the joiner to dispatch. *)
Definition complete (j : JoinState) : option nat * JoinState :=
  (match waiter_ j with WParked a => Some a | _ => None end, set_waiter WDone j).

(** [complete_task], up to the exchange: the promise's exception, or its value,
    or the exception that moving the value threw. *)
Definition write_result (promise : V + E) (move_throws : option E) (j : JoinState) : JoinState :=
  match promise, move_throws with
  | inr e, _ => mkJoin (waiter_ j) (refs_ j) (slot_ j) (Some e)
  | inl _, Some e => mkJoin (waiter_ j) (refs_ j) (slot_ j) (Some e)
  | inl v, None => mkJoin (waiter_ j) (refs_ j) (SlotValue v) (exception_ j)
  end.

(** What an awaiter's [await_resume] ends with. *)
Inductive Outcome := OValue (v : V) | OMoved | OThrow (e : E) | ORejected | OInvalid.

(** [take]; undefined on a slot that was never set. *)
Definition take (j : JoinState) : option (Outcome * JoinState) :=
  match exception_ j with
  | Some e => Some (OThrow e, j)
  | None =>
      match slot_ j with
      | SlotValue v => Some (OValue v, mkJoin (waiter_ j) (refs_ j) SlotMoved (exception_ j))
      | SlotMoved => Some (OMoved, j)
      | SlotEmpty => None
      end
  end.

(** [add_ref]; [None] is [std::terminate] at the largest count. *)
Definition add_ref (j : JoinState) : option JoinState :=
  if decide (refs_ j = 2 ^ 32 - 1)%Z then None else Some (set_refs (u32 (refs_ j + 1)) j).

(** [release]: the load, then the decrement; [true] deletes the state. *)
Definition release_load (j : JoinState) : bool := bool_decide (refs_ j = 1%Z).
Definition release_sub (j : JoinState) : bool * JoinState :=
  (bool_decide (refs_ j = 1%Z), set_refs (u32 (refs_ j - 1)) j).

(** ** The awaiter *)

Inductive Status := kNormal | kRejected | kSnapshotSuccess.

#[global] Instance Status_eq_dec : EqDecision Status.
Proof. solve_decision. Defined.

(** [operator co_await]: the awaiter's status and whether it holds the state. *)
Definition co_await_status (is_void : bool) (handle : option JoinState) : Status * bool :=
  match handle with
  | None => (kNormal, false)
  | Some j => if is_void && completed_successfully j then (kSnapshotSuccess, false) else (kNormal, true)
  end.

(** [state] is [None] for an awaiter without a state. *)
Definition await_ready (status : Status) (state : option JoinState) : bool :=
  match state with
  | None => true
  | Some j => bool_decide (status <> kNormal) || completed j
  end.

(** [await_suspend]: whether it parked, the new status, the new state. *)
Definition await_suspend (a : nat) (status : Status) (state : option JoinState) : bool * Status * option JoinState :=
  match state with
  | None => (false, status, state)
  | Some j =>
      if decide (status <> kNormal) then (false, status, state)
      else
        match try_park a j with
        | (kParked, j) => (true, status, Some j)
        | (kCompleted, j) => (false, status, Some j)
        | (kAlreadyWaiting, j) => (false, kRejected, Some j)
        end
  end.

(** [await_resume]; a snapshot of a void success has nothing to give. *)
Definition await_resume (status : Status) (state : option JoinState) : option (Outcome * option JoinState) :=
  match status with
  | kSnapshotSuccess => Some (OMoved, state)
  | kRejected => Some (ORejected, state)
  | kNormal =>
      match state with
      | None => Some (OInvalid, None)
      | Some j => r ← take j; Some (r.1, Some r.2)
      end
  end.

(** ** The system

    Each holder owns one reference: the task at key 0, the handle at key 1,
    awaiters at their own keys. *)

Inductive TaskPhase := TRunning | TWritten | TDone.
Inductive AwaitPhase := ANew | ASuspending | AParked | AResuming (status : Status) | AFinished.
Inductive Holder := HTask (p : TaskPhase) | HHandle | HAwaiter (p : AwaitPhase) | HReleasing.

Record JSys := mkJSys {
  js : JoinState;
  freed : nat;
  holders : gmap nat Holder;
  result : option (V + E);
  outcomes : list (nat * Outcome)
}.

Definition j_init : JSys -> Prop := fun s =>
  s = mkJSys (new_state 2) 0 {[ 0 := HTask TRunning; 1 := HHandle ]} None [].

(** Who may drop its reference now. *)
Definition releasable (h : Holder) : bool :=
  match h with HTask TDone | HHandle | HAwaiter AFinished => true | _ => false end.

(** The effect of [write_result] on the result a joiner is owed. *)
Definition task_result (promise : V + E) (move_throws : option E) : V + E :=
  match promise, move_throws with inl v, Some e => inr e | p, _ => p end.

(** The joiner that [complete] dispatches goes on. *)
Definition dispatch (a : option nat) (h : gmap nat Holder) : gmap nat Holder :=
  match a with Some a => <[a := HAwaiter (AResuming kNormal)]> h | None => h end.

Inductive j_step : JSys -> JSys -> Prop :=
  | j_write j f h r o promise throws : h !! 0 = Some (HTask TRunning) ->
      j_step (mkJSys j f h r o)
        (mkJSys (write_result promise throws j) f (<[0 := HTask TWritten]> h) (Some (task_result promise throws)) o)
  | j_complete j f h r o a j' : h !! 0 = Some (HTask TWritten) -> complete j = (a, j') ->
      j_step (mkJSys j f h r o) (mkJSys j' f (dispatch a (<[0 := HTask TDone]> h)) r o)
  | j_await j f h r o a j' : h !! 1 = Some HHandle -> h !! a = None -> 2 <= a -> add_ref j = Some j' ->
      j_step (mkJSys j f h r o) (mkJSys j' f (<[a := HAwaiter ANew]> h) r o)
  | j_ready j f h r o a : h !! a = Some (HAwaiter ANew) ->
      j_step (mkJSys j f h r o)
        (mkJSys j f (<[a := HAwaiter (if await_ready kNormal (Some j) then AResuming kNormal else ASuspending)]> h) r o)
  | j_suspend j f h r o a parked status j' : h !! a = Some (HAwaiter ASuspending) ->
      await_suspend a kNormal (Some j) = (parked, status, Some j') ->
      j_step (mkJSys j f h r o)
        (mkJSys j' f (<[a := HAwaiter (if parked : bool then AParked else AResuming status)]> h) r o)
  | j_resume j f h r o a status out j' : h !! a = Some (HAwaiter (AResuming status)) ->
      await_resume status (Some j) = Some (out, Some j') ->
      j_step (mkJSys j f h r o) (mkJSys j' f (<[a := HAwaiter AFinished]> h) r (o ++ [(a, out)]))
  | j_release_last j f h r o k x : h !! k = Some x -> releasable x -> release_load j = true ->
      j_step (mkJSys j f h r o) (mkJSys j (S f) (delete k h) r o)
  | j_release_load j f h r o k x : h !! k = Some x -> releasable x -> release_load j = false ->
      j_step (mkJSys j f h r o) (mkJSys j f (<[k := HReleasing]> h) r o)
  | j_release_sub j f h r o k last j' : h !! k = Some HReleasing -> release_sub j = (last, j') ->
      j_step (mkJSys j f h r o) (mkJSys j' (if last : bool then S f else f) (delete k h) r o).

(** ** The invariant *)

Definition pending (h : gmap nat Holder) : Prop :=
  h !! 0 = Some (HTask TRunning) \/ h !! 0 = Some (HTask TWritten).

(** What the slot and the exception hold of the task's result. *)
Definition stored (r : option (V + E)) (j : JoinState) : Prop :=
  match r with
  | None => slot_ j = SlotEmpty /\ exception_ j = None
  | Some (inl v) => exception_ j = None /\ (slot_ j = SlotValue v \/ slot_ j = SlotMoved)
  | Some (inr e) => exception_ j = Some e
  end.

Definition is_value (x : nat * Outcome) : bool := match x.2 with OValue _ => true | _ => false end.

Definition outcome_ok (r : option (V + E)) (o : Outcome) : Prop :=
  match o with
  | OValue v => r = Some (inl v)
  | OMoved => exists v, r = Some (inl v)
  | OThrow e => r = Some (inr e)
  | ORejected => True
  | OInvalid => False
  end.

Record jinv (s : JSys) : Prop := {
  ji_refs : holders s <> ∅ -> freed s = 0 /\ refs_ (js s) = Z.of_nat (size (holders s)) /\ (refs_ (js s) < 2 ^ 32)%Z;
  ji_freed : holders s = ∅ -> freed s = 1;
  ji_done : waiter_ (js s) = WDone <-> ~ pending (holders s);
  ji_task k p : holders s !! k = Some (HTask p) -> k = 0;
  ji_handle k : holders s !! k = Some HHandle -> k = 1;
  ji_parked a : waiter_ (js s) = WParked a <-> holders s !! a = Some (HAwaiter AParked);
  ji_stored : stored (result s) (js s);
  ji_running : holders s !! 0 = Some (HTask TRunning) <-> result s = None;
  ji_resuming a st : holders s !! a = Some (HAwaiter (AResuming st)) ->
    st = kRejected \/ (st = kNormal /\ waiter_ (js s) = WDone);
  ji_outcomes x : x ∈ outcomes s -> outcome_ok (result s) x.2;
  ji_moved : length (List.filter is_value (outcomes s)) = (match slot_ (js s) with SlotMoved => 1 | _ => 0 end)
}.
End join.

Arguments JoinState : clear implicits.
Arguments JSys : clear implicits.
Arguments Outcome : clear implicits.

(** * Properties of joining a spawned task *)

Section join_props.
Context {V E : Type}.
Implicit Types (j : JoinState V E) (s : JSys V E) (h : gmap nat Holder).

(** ** The references *)

(** Counting part of the invariant, for a state, its frees and its holders. *)
Definition counted j (f : nat) h : Prop :=
  (h <> ∅ -> f = 0 /\ refs_ j = Z.of_nat (size h) /\ (refs_ j < 2 ^ 32)%Z) /\ (h = ∅ -> f = 1).

Lemma held_nonempty h k (x : Holder) : h !! k = Some x -> h <> ∅.
Proof. intros Hk ->. by rewrite lookup_empty in Hk. Qed.

(** A holder changes its phase: the count stays. *)
Lemma counted_update j j' f h k x y : counted j f h -> refs_ j' = refs_ j -> h !! k = Some x ->
  counted j' f (<[k := y]> h).
Proof.
  intros [H1 H2] Hr Hk. destruct (H1 (held_nonempty h k x Hk)) as (Hf & Hn & Hb). split.
  - intros _. rewrite Hr, map_size_insert_Some by eauto. done.
  - intros He. by apply insert_non_empty in He.
Qed.

Lemma counted_dispatch j j' f h a : counted j f h -> refs_ j' = refs_ j ->
  (forall w, a = Some w -> is_Some (h !! w)) -> counted j' f (dispatch a h).
Proof.
  intros Hc Hr Ha. destruct a as [w|]; simpl.
  - destruct (Ha w eq_refl) as [x Hx]. by apply (counted_update j _ _ _ _ x).
  - unfold counted. by rewrite Hr.
Qed.

Lemma counted_add j f h a y : counted j f h -> h <> ∅ -> h !! a = None -> (refs_ j <> 2 ^ 32 - 1)%Z ->
  counted (set_refs (u32 (refs_ j + 1)) j) f (<[a := y]> h).
Proof.
  intros [H1 _] Hne Ha Hmax. destruct (H1 Hne) as (Hf & Hn & Hb). split; [|by intros ?%insert_non_empty].
  intros _. simpl. rewrite map_size_insert_None by done. rewrite wrap_small by (unfold in_range; lia). lia.
Qed.

Lemma size_one_delete h k (x : Holder) : h !! k = Some x -> size h = 1 -> delete k h = ∅.
Proof.
  intros Hk Hs. apply map_size_empty_iff. rewrite map_size_delete_Some by eauto. lia.
Qed.

Lemma size_more_delete h k (x : Holder) : h !! k = Some x -> size h <> 1 -> delete k h <> ∅.
Proof.
  intros Hk Hs He. apply map_size_empty_iff in He. rewrite map_size_delete_Some in He by eauto.
  pose proof (held_nonempty h k x Hk) as Hne. rewrite <- map_size_empty_iff in Hne. lia.
Qed.

(** The load that sees one is the last holder's. *)
Lemma counted_last j f h k x : counted j f h -> h !! k = Some x -> release_load j = true ->
  counted j (S f) (delete k h).
Proof.
  intros [H1 _] Hk Hl. destruct (H1 (held_nonempty h k x Hk)) as (-> & Hn & _).
  apply (bool_decide_eq_true_1 _) in Hl. assert (Hs : size h = 1) by lia.
  pose proof (size_one_delete h k x Hk Hs) as He. split; [intros []|]; done.
Qed.

Lemma counted_sub j f h k x last j' : counted j f h -> h !! k = Some x -> release_sub j = (last, j') ->
  counted j' (if last : bool then S f else f) (delete k h).
Proof.
  intros [H1 _] Hk. unfold release_sub. intros [= <- <-].
  destruct (H1 (held_nonempty h k x Hk)) as (-> & Hn & Hb). case_bool_decide as Hl.
  - assert (Hs : size h = 1) by lia. pose proof (size_one_delete h k x Hk Hs) as He. split; [intros []|]; done.
  - assert (Hs : size h <> 1) by lia. pose proof (size_more_delete h k x Hk Hs) as He.
    split; [|done]. intros _. simpl. rewrite map_size_delete_Some by eauto.
    pose proof (held_nonempty h k x Hk) as Hne. rewrite <- map_size_empty_iff in Hne.
    rewrite wrap_small by (unfold in_range; lia). lia.
Qed.

Lemma jinv_counted s : jinv s -> counted (js s) (freed s) (holders s).
Proof. intros Hi. split; apply Hi. Qed.

(** ** The rendezvous *)

(** The rest of the invariant. *)
Record met j h (r : option (V + E)) (o : list (nat * Outcome V E)) : Prop := {
  mt_done : waiter_ j = WDone <-> ~ pending h;
  mt_task k p : h !! k = Some (HTask p) -> k = 0;
  mt_handle k : h !! k = Some HHandle -> k = 1;
  mt_parked a : waiter_ j = WParked a <-> h !! a = Some (HAwaiter AParked);
  mt_stored : stored r j;
  mt_running : h !! 0 = Some (HTask TRunning) <-> r = None;
  mt_resuming a st : h !! a = Some (HAwaiter (AResuming st)) -> st = kRejected \/ (st = kNormal /\ waiter_ j = WDone);
  mt_outcomes x : x ∈ o -> outcome_ok r x.2;
  mt_moved : length (List.filter is_value o) = (match slot_ j with SlotMoved => 1 | _ => 0 end)
}.

Lemma jinv_split s : jinv s <-> counted (js s) (freed s) (holders s) /\ met (js s) (holders s) (result s) (outcomes s).
Proof.
  split.
  - intros Hi. split; [by apply jinv_counted|]. destruct Hi. by constructor.
  - intros [[H1 H2] []]. by constructor.
Qed.

(** Holders outside the rendezvous may come, go and change. *)
Definition inert (x : option Holder) : Prop :=
  match x with
  | Some (HTask TRunning) | Some (HTask TWritten) | Some (HAwaiter AParked) | Some (HAwaiter (AResuming _)) => False
  | _ => True
  end.

Lemma met_inert j j' h h' r o k : met j h r o ->
  waiter_ j' = waiter_ j -> slot_ j' = slot_ j -> exception_ j' = exception_ j ->
  (forall i, i <> k -> h' !! i = h !! i) -> inert (h !! k) -> inert (h' !! k) ->
  (forall p, h' !! k = Some (HTask p) -> k = 0) -> (h' !! k = Some HHandle -> k = 1) ->
  met j' h' r o.
Proof.
  intros [M1 M2 M3 M4 M5 M6 M7 M8 M9] Hw Hs He Hother Hk Hk' Ht Hh.
  assert (Hsame : forall i x, ~ inert (Some x) -> h' !! i = Some x <-> h !! i = Some x).
  { intros i x Hx. destruct (decide (i = k)) as [->|Hi]; [|by rewrite Hother].
    split; intros Hl; [rewrite Hl in Hk'|rewrite Hl in Hk]; done. }
  assert (Hpend : pending h' <-> pending h) by (unfold pending; rewrite !Hsame by (simpl; tauto); done).
  split.
  - by rewrite Hw, Hpend.
  - intros i p Hl. destruct (decide (i = k)) as [->|Hi]; [by eauto|]. rewrite Hother in Hl by done. eauto.
  - intros i Hl. destruct (decide (i = k)) as [->|Hi]; [by eauto|]. rewrite Hother in Hl by done. eauto.
  - intros a. rewrite Hw, (M4 a), (Hsame a (HAwaiter AParked)) by (simpl; tauto). done.
  - unfold stored in *. by rewrite Hs, He.
  - rewrite Hsame by (simpl; tauto). done.
  - intros a st Hl. rewrite Hw. apply (M7 a). rewrite Hsame in Hl by (simpl; tauto). done.
  - done.
  - by rewrite Hs.
Qed.

(** The phase of one awaiter, or of the task, moves on. *)
Lemma lookup_phase h k (x y : Holder) i : (<[k := x]> h) !! i = Some y -> (i = k /\ x = y) \/ (i <> k /\ h !! i = Some y).
Proof. destruct (decide (i = k)) as [->|]; [rewrite lookup_insert_eq|rewrite lookup_insert_ne by done]; naive_solver. Qed.

Lemma pending_other h k x : k <> 0 -> pending (<[k := x]> h) <-> pending h.
Proof. intros Hk. unfold pending. by rewrite !lookup_insert_ne. Qed.

Lemma met_write j h r o promise throws : met j h r o -> h !! 0 = Some (HTask TRunning) ->
  met (write_result promise throws j) (<[0 := HTask TWritten]> h) (Some (task_result promise throws)) o.
Proof.
  intros [M1 M2 M3 M4 M5 M6 M7 M8 M9] H0. assert (Hr : r = None) by (by apply M6). subst r. destruct M5 as [Hs He].
  assert (Hw : waiter_ (write_result promise throws j) = waiter_ j) by (by destruct promise, throws).
  split; rewrite ?Hw.
  - split; [|unfold pending; rewrite lookup_insert_eq; tauto]. intros Hd. rewrite M1 in Hd. destruct Hd. by left.
  - intros k p [[-> _]|[? ?]]%lookup_phase; eauto.
  - intros k [[_ ?]|[? ?]]%lookup_phase; [done|eauto].
  - intros a. rewrite (M4 a). destruct (decide (a = 0)) as [->|]; [rewrite lookup_insert_eq, H0; split; discriminate|].
    by rewrite lookup_insert_ne.
  - destruct promise as [v|e], throws as [e'|]; simpl; auto.
  - rewrite lookup_insert_eq. split; discriminate.
  - intros a st [[_ ?]|[? ?]]%lookup_phase; [done|eauto].
  - intros [a out] Hx. specialize (M8 _ Hx). simpl in *. destruct out; try done. by destruct M8.
  - rewrite M9, Hs. by destruct promise as [v|e], throws as [e'|]; simpl; rewrite ?Hs.
Qed.

Lemma met_complete j h r o a j' : met j h r o -> h !! 0 = Some (HTask TWritten) -> complete j = (a, j') ->
  met j' (dispatch a (<[0 := HTask TDone]> h)) r o.
Proof.
  intros [M1 M2 M3 M4 M5 M6 M7 M8 M9] H0. unfold complete. intros [= <- <-].
  set (h1 := <[0 := HTask TDone]> h). set (a := match waiter_ j with WParked _ => _ | _ => _ end).
  assert (Ha : forall w, a = Some w <-> h !! w = Some (HAwaiter AParked)).
  { intros w. rewrite <- (M4 w). unfold a. destruct (waiter_ j); split; congruence. }
  assert (Hlook : forall i y, dispatch a h1 !! i = Some y ->
    (i = 0 /\ y = HTask TDone) \/ (a = Some i /\ y = HAwaiter (AResuming kNormal)) \/ (i <> 0 /\ a <> Some i /\ h !! i = Some y)).
  { intros i y. destruct a as [w|] eqn:Ea; simpl.
    - intros [[-> <-]|[Hne [[-> <-]|[? ?]]%lookup_phase]]%lookup_phase; auto. right. right. split_and!; congruence.
    - intros [[-> <-]|[? ?]]%lookup_phase; auto. }
  assert (Hnp : forall i, dispatch a h1 !! i <> Some (HAwaiter AParked)).
  { intros i [[_ ?]|[[_ ?]|(? & Hn & Hp)]]%Hlook; [done..|]. by rewrite <- Ha in Hp. }
  assert (H0' : dispatch a h1 !! 0 = Some (HTask TDone)).
  { unfold h1. destruct a as [w|] eqn:Ea; simpl; [|by rewrite lookup_insert_eq]. rewrite lookup_insert_ne; [by rewrite lookup_insert_eq|].
    intros ->. assert (Hc : h !! 0 = Some (HAwaiter AParked)) by (by apply Ha). congruence. }
  split; simpl.
  - split; [|done]. intros _ [Hp|Hp]; congruence.
  - intros k p [[-> _]|[[_ ?]|(? & _ & ?)]]%Hlook; [done|done|eauto].
  - intros k [[_ ?]|[[_ ?]|(? & _ & ?)]]%Hlook; [done|done|eauto].
  - intros w. split; [done|]. intros Hp. by apply Hnp in Hp.
  - done.
  - rewrite H0', <- M6, H0. split; discriminate.
  - intros i st [[_ ?]|[[_ [= <-]]|(? & _ & Hp)]]%Hlook; [done|auto|]. destruct (M7 i st Hp) as [|[? _]]; auto.
  - done.
  - done.
Qed.

(** An awaiter changes phase; [P] is what the word says once it has. *)
Lemma met_awaiter j j' h r o a x p : met j h r o -> h !! a = Some (HAwaiter x) ->
  slot_ j' = slot_ j -> exception_ j' = exception_ j ->
  (waiter_ j' = WDone <-> waiter_ j = WDone) ->
  (waiter_ j' = WParked a <-> p = AParked) ->
  (forall b, b <> a -> waiter_ j' = WParked b <-> waiter_ j = WParked b) ->
  (forall st, p = AResuming st -> st = kRejected \/ (st = kNormal /\ waiter_ j = WDone)) ->
  met j' (<[a := HAwaiter p]> h) r o.
Proof.
  intros [M1 M2 M3 M4 M5 M6 M7 M8 M9] Ha Hs He Hd Hpa Hpb Hres.
  assert (Hsame : forall i y, (forall q, y <> HAwaiter q) -> (<[a := HAwaiter p]> h) !! i = Some y <-> h !! i = Some y).
  { intros i y Hy. destruct (decide (i = a)) as [->|]; [|by rewrite lookup_insert_ne].
    rewrite lookup_insert_eq, Ha. split; intros [= <-]; by edestruct Hy. }
  assert (Hpend : pending (<[a := HAwaiter p]> h) <-> pending h) by (unfold pending; by rewrite !Hsame).
  split.
  - by rewrite Hd, Hpend.
  - intros k q Hl. rewrite Hsame in Hl by done. eauto.
  - intros k Hl. rewrite Hsame in Hl by done. eauto.
  - intros b. destruct (decide (b = a)) as [->|Hb].
    + rewrite lookup_insert_eq, Hpa. split; [by intros ->|]. by intros [= ->].
    + rewrite lookup_insert_ne by done. rewrite (Hpb b Hb). apply M4.
  - unfold stored in *. by rewrite Hs, He.
  - by rewrite Hsame.
  - intros b st [[-> [= Hp]]|[? Hl]]%lookup_phase; [rewrite Hd; auto|]. rewrite Hd. eauto.
  - done.
  - by rewrite Hs.
Qed.

Lemma met_suspend j h r o a parked status j' : met j h r o -> h !! a = Some (HAwaiter ASuspending) ->
  await_suspend a kNormal (Some j) = (parked, status, Some j') ->
  met j' (<[a := HAwaiter (if parked : bool then AParked else AResuming status)]> h) r o /\ refs_ j' = refs_ j.
Proof.
  intros Hm Ha. unfold await_suspend. rewrite decide_False by (intros Hn; by destruct Hn).
  unfold try_park. destruct (waiter_ j) as [|b|] eqn:Ew; intros [= <- <- <-]; (split; [|done]).
  - apply (met_awaiter j _ h r o a ASuspending); simpl; rewrite ?Ew; try done. intros b Hb. split; congruence.
  - apply (met_awaiter j _ h r o a ASuspending); simpl; rewrite ?Ew; try done.
    + split; [intros [= ->]|done]. apply (mt_parked _ _ _ _ Hm) in Ew. congruence.
    + intros st [= <-]. auto.
  - apply (met_awaiter j _ h r o a ASuspending); simpl; rewrite ?Ew; try done. intros st [= <-]. auto.
Qed.

(** An awaiter takes its outcome. *)
Lemma met_resume j h r o a status out j' : met j h r o -> h !! a = Some (HAwaiter (AResuming status)) ->
  await_resume status (Some j) = Some (out, Some j') ->
  met j' (<[a := HAwaiter AFinished]> h) r (o ++ [(a, out)]) /\ refs_ j' = refs_ j.
Proof.
  intros Hm Ha Hr. pose proof (mt_resuming _ _ _ _ Hm a status Ha) as Hst.
  assert (Hfin : forall j1, slot_ j1 = slot_ j -> exception_ j1 = exception_ j -> waiter_ j1 = waiter_ j ->
    met j1 (<[a := HAwaiter AFinished]> h) r o).
  { intros j1 Hs He Hw. apply (met_awaiter j _ h r o a (AResuming status)); rewrite ?Hw; try done.
    split; [|done]. intros Hp. apply (mt_parked _ _ _ _ Hm) in Hp. congruence. }
  assert (Hlog : forall x, out = x -> outcome_ok r x -> forall y, y ∈ o ++ [(a, out)] -> outcome_ok r y.2).
  { intros x -> Hx y [Hy|Hy]%elem_of_app; [by apply (mt_outcomes _ _ _ _ Hm)|].
    apply list_elem_of_singleton in Hy as ->. done. }
  destruct Hst as [->|[-> Hd]]; simpl in Hr.
  { injection Hr as <- <-. split; [|done]. destruct (Hfin j eq_refl eq_refl eq_refl). split; try done.
    - by apply (Hlog ORejected).
    - rewrite List.filter_app, length_app. simpl. lia. }
  assert (Hrun : r <> None).
  { rewrite <- (mt_running _ _ _ _ Hm). intros H0. apply (mt_done _ _ _ _ Hm) in Hd. apply Hd. by left. }
  unfold take in Hr. pose proof (mt_stored _ _ _ _ Hm) as Hstored. pose proof (mt_moved _ _ _ _ Hm) as Hmoved.
  destruct (exception_ j) as [e|] eqn:He.
  - injection Hr as <- <-. split; [|done]. destruct (Hfin j eq_refl He eq_refl). split; try done.
    + apply (Hlog (OThrow e) eq_refl). destruct r as [[v|e']|]; simpl in Hstored |- *; [destruct Hstored; congruence|congruence|by destruct Hrun].
    + rewrite List.filter_app, length_app. simpl. lia.
  - destruct r as [[v|e']|]; simpl in Hstored; [|congruence|by destruct Hrun]. destruct Hstored as [_ [Hs|Hs]]; rewrite Hs in Hr, Hmoved.
    + injection Hr as <- <-. split; [|done].
      assert (Hm1 : met j (<[a := HAwaiter AFinished]> h) (Some (inl v)) o) by (by apply Hfin).
      destruct Hm1. split; try done.
      * simpl. auto.
      * apply (Hlog (OValue v) eq_refl). done.
      * rewrite List.filter_app, length_app. simpl. lia.
    + injection Hr as <- <-. split; [|done]. destruct (Hfin j eq_refl He eq_refl). split; try done.
      * apply (Hlog OMoved eq_refl). by exists v.
      * rewrite List.filter_app, length_app. simpl. lia.
Qed.

(** ** Every step *)

Lemma j_step_inv s s' : jinv s -> j_step s s' -> jinv s'.
Proof.
  intros [Hc Hm]%jinv_split Hs. apply jinv_split.
  destruct Hs as [j f h r o promise throws H0|j f h r o a j' H0 Hcom|j f h r o a j' H1 Ha H2 Hadd|j f h r o a Ha
    |j f h r o a parked status j' Ha Hsus|j f h r o a status out j' Ha Hres|j f h r o k x Hk Hx Hl
    |j f h r o k x Hk Hx Hl|j f h r o k last j' Hk Hsub]; simpl in *.
  - split; [|by apply (met_write j h r)]. apply (counted_update j _ _ _ _ (HTask TRunning)); [done| |done].
    by destruct promise, throws.
  - split; [|by apply (met_complete j)]. unfold complete in Hcom. injection Hcom as <- <-.
    apply (counted_dispatch j); [by apply (counted_update j _ _ _ _ (HTask TWritten))|done|].
    intros w Hw. destruct (waiter_ j) as [|b|] eqn:Eb; try done. injection Hw as ->.
    apply (mt_parked _ _ _ _ Hm) in Eb. destruct (decide (w = 0)) as [->|]; [congruence|].
    rewrite lookup_insert_ne by done. eauto.
  - unfold add_ref in Hadd. case_decide as Hmax; [done|]. injection Hadd as <-. split.
    + apply counted_add; [done|by eapply held_nonempty|done|done].
    + apply (met_inert j _ h _ _ _ a Hm); simpl; try done.
      * intros i Hi. by rewrite lookup_insert_ne.
      * by rewrite Ha.
      * by rewrite lookup_insert_eq.
      * intros p. by rewrite lookup_insert_eq.
      * by rewrite lookup_insert_eq.
  - split; [by apply (counted_update j _ _ _ _ (HAwaiter ANew))|].
    apply (met_awaiter j _ h r o a ANew); try done.
    + split; [intros Hp; apply (mt_parked _ _ _ _ Hm) in Hp; congruence|]. by destruct (completed j).
    + intros st. unfold completed. case_bool_decide as Hd; simpl; [|done]. intros [= <-]. auto.
  - destruct (met_suspend j h r o a parked status j' Hm Ha Hsus) as [Hm' Hr]. split; [|done].
    by apply (counted_update j _ _ _ _ (HAwaiter ASuspending)).
  - destruct (met_resume j h r o a status out j' Hm Ha Hres) as [Hm' Hr]. split; [|done].
    by apply (counted_update j _ _ _ _ (HAwaiter (AResuming status))).
  - split; [by apply (counted_last j f h k x)|]. apply (met_inert j _ h _ _ _ k Hm); try done.
    + intros i Hi. by rewrite lookup_delete_ne.
    + rewrite Hk. destruct x as [[]| |[]|]; done.
    + by rewrite lookup_delete_eq.
    + intros p. by rewrite lookup_delete_eq.
    + by rewrite lookup_delete_eq.
  - split; [by apply (counted_update j _ _ _ _ x)|]. apply (met_inert j _ h _ _ _ k Hm); try done.
    + intros i Hi. by rewrite lookup_insert_ne.
    + rewrite Hk. destruct x as [[]| |[]|]; done.
    + by rewrite lookup_insert_eq.
    + intros p. by rewrite lookup_insert_eq.
    + by rewrite lookup_insert_eq.
  - split; [by apply (counted_sub j f h k HReleasing)|]. unfold release_sub in Hsub. injection Hsub as <- <-.
    apply (met_inert j _ h _ _ _ k Hm); try done.
    + intros i Hi. by rewrite lookup_delete_ne.
    + by rewrite Hk.
    + by rewrite lookup_delete_eq.
    + intros p. by rewrite lookup_delete_eq.
    + by rewrite lookup_delete_eq.
Qed.

Lemma j_init_inv s : j_init s -> jinv s.
Proof.
  intros ->. apply jinv_split. split; simpl.
  - split; [|by intros ?%map_non_empty_singleton%Is_true_true || intros ?%insert_non_empty]. intros _. done.
  - split; simpl; try done.
    + split; [done|]. intros Hn. destruct Hn. by left.
    + intros k p [[-> _]|[_ Hl]]%lookup_phase; [done|]. apply lookup_singleton_Some in Hl as [? ?]. done.
    + intros k [[_ ?]|[_ Hl]]%lookup_phase; [done|]. by apply lookup_singleton_Some in Hl as [<- _].
    + intros a. split; [done|]. intros [[_ ?]|[_ Hl]]%lookup_phase; [done|]. by apply lookup_singleton_Some in Hl as [_ ?].
    + intros a st [[_ ?]|[_ Hl]]%lookup_phase; [done|]. by apply lookup_singleton_Some in Hl as [_ ?].
    + intros x Hx. by apply not_elem_of_nil in Hx.
Qed.

Lemma j_reachable_inv s : reachable j_init j_step s -> jinv s.
Proof. apply (reachable_invariant jinv); [apply j_init_inv|]. intros s1 s2 _. apply j_step_inv. Qed.

(** A resuming awaiter has something to resume with. *)
Lemma resume_defined s a st : jinv s -> holders s !! a = Some (HAwaiter (AResuming st)) ->
  exists out j', await_resume st (Some (js s)) = Some (out, Some j') /\ outcome_ok (result s) out.
Proof.
  intros Hi Ha. destruct (ji_resuming _ Hi a st Ha) as [->|[-> Hd]]; simpl; [by eexists _, _|].
  assert (Hrun : result s <> None).
  { rewrite <- (ji_running _ Hi). intros H0. apply (ji_done _ Hi) in Hd. apply Hd. by left. }
  pose proof (ji_stored _ Hi) as Hst. unfold take. destruct (result s) as [[v|e]|]; simpl in Hst; [| |done].
  - destruct Hst as [-> [-> | ->]]; (eexists _, _; split; [done|]); simpl; eauto.
  - rewrite Hst. eexists _, _. split; [done|]. done.
Qed.

(** ** Properties *)

(** C25: The state of a spawned task lives exactly as long as somebody holds
    it: while the task, the handle or an awaiter has its reference the state
    is not freed and the count is their number; once the last one is gone it
    was freed once, although [release] skips the decrement when it loads one. *)
Theorem join_state_freed_once s :
  reachable j_init j_step s ->
  (holders s <> ∅ -> freed s = 0 /\ refs_ (js s) = Z.of_nat (size (holders s))) /\
  (holders s = ∅ -> freed s = 1).
Proof.
  intros Hi%j_reachable_inv. split; [|apply Hi]. intros Hne. by destruct (ji_refs _ Hi Hne) as (? & ? & _).
Qed.

(** A parked awaiter waits for a task that is still to complete. *)
Lemma join_delivers_aux s : jinv s ->
  (forall a, holders s !! a = Some (HAwaiter AParked) -> pending (holders s)) /\
  (forall a, holders s !! a = Some (HAwaiter AParked) -> waiter_ (js s) = WParked a).
Proof.
  intros Hi. split; intros a Ha; rewrite <- (ji_parked _ Hi) in Ha; [|done].
  pose proof (ji_done _ Hi) as Hd. rewrite Ha in Hd. unfold pending in *.
  destruct (holders s !! 0) as [[[]| | |]|]; tauto || (exfalso; destruct Hd as [_ Hd]; by specialize (Hd ltac:(intros [?|?]; done))).
Qed.

(** A join delivers the task's own result: an awaiter is parked exactly
    while the word names it and the task is not done, so completion strands
    nobody; an awaiter that resumes always finds a result; every outcome is the
    task's value, its exception, or the rejection of a second concurrent
    joiner; and the value itself is moved out once. *)
Theorem join_delivers_result s :
  reachable j_init j_step s ->
  (forall a, holders s !! a = Some (HAwaiter AParked) -> waiter_ (js s) = WParked a /\ pending (holders s)) /\
  (forall a st, holders s !! a = Some (HAwaiter (AResuming st)) ->
    exists out j', await_resume st (Some (js s)) = Some (out, Some j') /\ outcome_ok (result s) out) /\
  (forall x, x ∈ outcomes s -> outcome_ok (result s) x.2) /\
  length (List.filter is_value (outcomes s)) <= 1.
Proof.
  intros Hi%j_reachable_inv. split_and!.
  - intros a Ha. destruct (join_delivers_aux s Hi) as [H1 H2]. eauto.
  - intros a st. by apply resume_defined.
  - apply Hi.
  - rewrite (ji_moved _ Hi). destruct (slot_ (js s)); lia.
Qed.

(** No parked joiner is left behind: from any reachable state in which an
    awaiter is parked, the task's own remaining steps, at most two, wake it,
    with the task's result to take. *)
Theorem join_wakes_parked s a (promise : V + E) (throws : option E) :
  reachable j_init j_step s -> holders s !! a = Some (HAwaiter AParked) ->
  exists s', rtc j_step s s' /\ holders s' !! a = Some (HAwaiter (AResuming kNormal)) /\
    exists out j', await_resume kNormal (Some (js s')) = Some (out, Some j') /\ outcome_ok (result s') out.
Proof.
  intros Hr Ha.
  assert (Hwritten : forall s1, reachable j_init j_step s1 -> holders s1 !! a = Some (HAwaiter AParked) ->
    holders s1 !! 0 = Some (HTask TWritten) ->
    exists s', rtc j_step s1 s' /\ holders s' !! a = Some (HAwaiter (AResuming kNormal)) /\
    exists out j', await_resume kNormal (Some (js s')) = Some (out, Some j') /\ outcome_ok (result s') out).
  { intros s1 Hr1 Ha1 H0. pose proof (j_reachable_inv s1 Hr1) as Hi.
    assert (Hw : waiter_ (js s1) = WParked a) by (by apply (ji_parked _ Hi)).
    destruct s1 as [j f h r o]. simpl in *. assert (Hs : j_step (mkJSys j f h r o)
      (mkJSys (set_waiter WDone j) f (dispatch (Some a) (<[0 := HTask TDone]> h)) r o)).
    { apply j_complete; [done|]. unfold complete. by rewrite Hw. }
    eexists. split; [by apply rtc_once|]. assert (Ha2 : dispatch (Some a) (<[0 := HTask TDone]> h) !! a =
      Some (HAwaiter (AResuming kNormal))) by (simpl; by rewrite lookup_insert_eq). split; [exact Ha2|].
    exact (resume_defined _ a kNormal (j_reachable_inv _ (reachable_step _ _ _ _ Hr1 Hs)) Ha2). }
  destruct (proj1 (join_delivers_aux s (j_reachable_inv s Hr)) a Ha) as [Hrun|Hwr]; [|by apply Hwritten].
  destruct s as [j f h r o]. simpl in *.
  pose proof (j_write j f h r o promise throws Hrun) as Hs.
  destruct (Hwritten _ (reachable_step _ _ _ _ Hr Hs)) as (s' & Hrtc & Hrest); simpl.
  - rewrite lookup_insert_ne; [done|congruence].
  - by rewrite lookup_insert_eq.
  - exists s'. split; [by eapply rtc_l|done].
Qed.
End join_props.

(** ** A run

    A task, an awaiter that parks, and a second one that is turned away. *)

Definition ex_parked : JSys nat nat :=
  mkJSys (mkJoin (WParked 2) 3 SlotEmpty None) 0
    (<[2 := HAwaiter AParked]> (<[2 := HAwaiter ASuspending]> (<[2 := HAwaiter ANew]> {[ 0 := HTask TRunning; 1 := HHandle ]}))) None [].

Lemma ex_parked_reachable : reachable j_init j_step ex_parked.
Proof.
  eapply reachable_step; [|by apply (j_suspend (mkJoin WNull 3 SlotEmpty None) 0
    (<[2 := HAwaiter ASuspending]> (<[2 := HAwaiter ANew]> {[ 0 := HTask TRunning; 1 := HHandle ]})) None [] 2 true kNormal)].
  eapply reachable_step; [|by apply (j_ready (mkJoin WNull 3 SlotEmpty None) 0
    (<[2 := HAwaiter ANew]> {[ 0 := HTask TRunning; 1 := HHandle ]}) None [] 2)].
  eapply reachable_step; [|by apply (j_await (mkJoin WNull 2 SlotEmpty None) 0
    {[ 0 := HTask TRunning; 1 := HHandle ]} None [] 2)].
  by apply reachable_init.
Qed.

Lemma join_state_freed_once_witness :
  reachable j_init j_step ex_parked /\
  (holders ex_parked <> ∅ -> freed ex_parked = 0 /\ refs_ (js ex_parked) = Z.of_nat (size (holders ex_parked))).
Proof. split; [apply ex_parked_reachable|]. apply (join_state_freed_once ex_parked ex_parked_reachable). Defined.

Lemma join_delivers_result_witness :
  holders ex_parked !! 2 = Some (HAwaiter AParked) /\
  (waiter_ (js ex_parked) = WParked 2 /\ pending (holders ex_parked)).
Proof.
  split; [reflexivity|]. apply (join_delivers_result ex_parked ex_parked_reachable). reflexivity.
Defined.

Lemma join_wakes_parked_witness :
  exists s', rtc j_step ex_parked s' /\ holders s' !! 2 = Some (HAwaiter (AResuming kNormal)) /\
    exists out j', await_resume kNormal (Some (js s')) = Some (out, Some j') /\ outcome_ok (result s') out.
Proof. apply (join_wakes_parked ex_parked 2 (inl 5) None ex_parked_reachable). reflexivity. Defined.
