(* ===== verification/Group.v ===== *)
(** * Task groups (include/cio/group.hpp, [GroupState])

    The count of outstanding children with its finishing sentinel, the parked
    joiners and the first failure, and the system of tasks that start children,
    children that fail and finish, and joiners. Every atomic access outside a
    critical section is one step. *)

From S2P Require Import Prelude.

Set Default Proof Using "Type".

Local Open Scope Z_scope.

Definition kFinishing : Z := 2 ^ 64 - 1.

(** [waiters] is a stack of parked joiners; an exception is a number. *)
Record GroupState := mkGroup {
  outstanding : Z;
  waiters : list nat;
  first_exception : option nat;
  has_exception : bool;
  cancel_requested : bool
}.

Definition new_group : GroupState := mkGroup 0 [] None false false.

Definition set_outstanding (n : Z) (g : GroupState) : GroupState :=
  mkGroup n (waiters g) (first_exception g) (has_exception g) (cancel_requested g).

(** ** [child_started]

    The result of a start is the 0 -> 1 hint. *)

(** The compare-exchange on a count that was read; [None] when the sentinel was
    read. *)
Definition start_cas (g : GroupState) : option (bool * GroupState) :=
  if decide (outstanding g = kFinishing) then None
  else Some (bool_decide (outstanding g = 0), set_outstanding (u64 (outstanding g + 1)) g).

(** The locked block up to its load: the existing generation is kept alive, or
    a [fetch_add] is still to come. *)
Definition start_locked (g : GroupState) : option (bool * GroupState) :=
  if decide (outstanding g = kFinishing) then Some (true, set_outstanding 1 g) else None.

Definition start_fetch_add (g : GroupState) : bool * GroupState :=
  (bool_decide (outstanding g = 0), set_outstanding (u64 (outstanding g + 1)) g).

(** ** [child_failed] *)

Definition child_failed (e : nat) (g : GroupState) : GroupState :=
  match first_exception g with
  | Some _ => g
  | None => mkGroup (outstanding g) (waiters g) (Some e) true true
  end.

(** ** [child_finished] *)

(** The hinted child's claim of one. *)
Definition direct_claim (g : GroupState) : option GroupState :=
  if decide (outstanding g = 1) then Some (set_outstanding kFinishing g) else None.

(** The decrement; [true] when others remain. *)
Definition finish_sub (g : GroupState) : bool * GroupState :=
  (bool_decide (1 < outstanding g), set_outstanding (u64 (outstanding g - 1)) g).

(** The claim of zero. *)
Definition zero_claim (g : GroupState) : option GroupState :=
  if decide (outstanding g = 0) then Some (set_outstanding kFinishing g) else None.

(** [finish_generation]: the joiners to wake. *)
Definition finish_generation (g : GroupState) : list nat * GroupState :=
  if decide (outstanding g <> kFinishing) then ([], g)
  else (waiters g, mkGroup 0 [] (first_exception g) (has_exception g) (cancel_requested g)).

(** ** [join] *)

Definition join_ready (g : GroupState) : bool := bool_decide (outstanding g = 0).

(** [park_join]: [false] when there is nothing to wait for. *)
Definition park_join (j : nat) (g : GroupState) : bool * GroupState :=
  if decide (outstanding g = 0) then (false, g)
  else (true, mkGroup (outstanding g) (j :: waiters g) (first_exception g) (has_exception g) (cancel_requested g)).

(** [await_resume]: the failure to rethrow. *)
Definition join_resume (g : GroupState) : option nat :=
  if has_exception g then first_exception g else None.

(** ** The system

    A starter is past the read of the sentinel ([SWaiting]) or holds the lock
    before its [fetch_add] ([SAdding]). A child runs with its hint, is past a
    failed direct claim, saw its decrement reach zero, or owns a claim. *)

Inductive Starter := SWaiting | SAdding.
Inductive Child := CRunning (hint : bool) | CSub | CZero | CClaimed.

#[global] Instance Starter_eq_dec : EqDecision Starter.
Proof. solve_decision. Defined.
#[global] Instance Child_eq_dec : EqDecision Child.
Proof. solve_decision. Defined.

Record GSys := mkGSys {
  group : GroupState;
  starters : list Starter;
  children : list Child;
  released : list nat
}.

Definition g_init : GSys -> Prop := fun s => s = mkGSys new_group [] [] [].

(** The mutex is held by a starter before its [fetch_add]. *)
Definition unlocked (st : list Starter) : Prop := SAdding ∉ st.

(** Two restrictions of the interleavings: [serial] lets a task start a child
    only while no other start is under way; [quiet] keeps claims of the count,
    which take no lock, out of the window between the locked load and the
    [fetch_add]. *)
Definition may_start (serial : bool) (st : list Starter) : Prop := serial = true -> st = [].
Definition may_claim (quiet : bool) (st : list Starter) : Prop := quiet = true -> unlocked st.

(** A group holds fewer than 2^63 children. *)
Definition room (cs : list Child) : Prop := Z.of_nat (length cs) < 2 ^ 63.

Inductive g_step (serial quiet : bool) : GSys -> GSys -> Prop :=
  | g_start g st cs rel hint g' : may_start serial st -> room cs -> start_cas g = Some (hint, g') ->
      g_step serial quiet (mkGSys g st cs rel) (mkGSys g' st (CRunning hint :: cs) rel)
  | g_start_slow g st cs rel : may_start serial st -> start_cas g = None ->
      g_step serial quiet (mkGSys g st cs rel) (mkGSys g (SWaiting :: st) cs rel)
  | g_start_keep g st1 st2 cs rel hint g' : unlocked (st1 ++ st2) -> start_locked g = Some (hint, g') ->
      g_step serial quiet (mkGSys g (st1 ++ SWaiting :: st2) cs rel) (mkGSys g' (st1 ++ st2) (CRunning hint :: cs) rel)
  | g_start_lock g st1 st2 cs rel : unlocked (st1 ++ st2) -> start_locked g = None ->
      g_step serial quiet (mkGSys g (st1 ++ SWaiting :: st2) cs rel) (mkGSys g (st1 ++ SAdding :: st2) cs rel)
  | g_start_add g st1 st2 cs rel hint g' : room cs -> start_fetch_add g = (hint, g') ->
      g_step serial quiet (mkGSys g (st1 ++ SAdding :: st2) cs rel) (mkGSys g' (st1 ++ st2) (CRunning hint :: cs) rel)
  | g_fail g st cs1 cs2 rel hint e : unlocked st ->
      g_step serial quiet (mkGSys g st (cs1 ++ CRunning hint :: cs2) rel)
        (mkGSys (child_failed e g) st (cs1 ++ CRunning hint :: cs2) rel)
  | g_claim_one g st cs1 cs2 rel g' : may_claim quiet st -> direct_claim g = Some g' ->
      g_step serial quiet (mkGSys g st (cs1 ++ CRunning true :: cs2) rel) (mkGSys g' st (cs1 ++ CClaimed :: cs2) rel)
  | g_claim_one_lost g st cs1 cs2 rel : direct_claim g = None ->
      g_step serial quiet (mkGSys g st (cs1 ++ CRunning true :: cs2) rel) (mkGSys g st (cs1 ++ CSub :: cs2) rel)
  | g_sub g st cs1 c cs2 rel others g' : c = CRunning false \/ c = CSub -> finish_sub g = (others, g') ->
      g_step serial quiet (mkGSys g st (cs1 ++ c :: cs2) rel)
        (mkGSys g' st (if others : bool then cs1 ++ cs2 else cs1 ++ CZero :: cs2) rel)
  | g_claim_zero g st cs1 cs2 rel g' : may_claim quiet st -> zero_claim g = Some g' ->
      g_step serial quiet (mkGSys g st (cs1 ++ CZero :: cs2) rel) (mkGSys g' st (cs1 ++ CClaimed :: cs2) rel)
  | g_claim_zero_lost g st cs1 cs2 rel : zero_claim g = None ->
      g_step serial quiet (mkGSys g st (cs1 ++ CZero :: cs2) rel) (mkGSys g st (cs1 ++ cs2) rel)
  | g_finish g st cs1 cs2 rel woken g' : unlocked st -> finish_generation g = (woken, g') ->
      g_step serial quiet (mkGSys g st (cs1 ++ CClaimed :: cs2) rel) (mkGSys g' st (cs1 ++ cs2) (rel ++ woken))
  | g_join_ready g st cs rel j : join_ready g = true ->
      g_step serial quiet (mkGSys g st cs rel) (mkGSys g st cs (rel ++ [j]))
  | g_join_park g st cs rel j parked g' : unlocked st -> park_join j g = (parked, g') ->
      g_step serial quiet (mkGSys g st cs rel) (mkGSys g' st cs (if parked : bool then rel else rel ++ [j])).

(** ** The invariant while claims stay out of the window *)

(** A child that still owes its decrement. *)
Definition counts (c : Child) : bool := match c with CRunning _ | CSub => true | _ => false end.
Definition live_children (cs : list Child) : nat := length (List.filter counts cs).

Lemma live_app cs1 cs2 : live_children (cs1 ++ cs2) = (live_children cs1 + live_children cs2)%nat.
Proof. unfold live_children. by rewrite List.filter_app, length_app. Qed.

Lemma live_cons c cs : live_children (c :: cs) = ((if counts c then 1 else 0) + live_children cs)%nat.
Proof. unfold live_children. simpl. by destruct (counts c). Qed.

Lemma live_le cs : (live_children cs <= length cs)%nat.
Proof. unfold live_children. apply filter_length_le. Qed.

Record ginv (s : GSys) : Prop := {
  gi_adding : SAdding ∈ starters s -> outstanding (group s) <> kFinishing;
  gi_count : (outstanding (group s) = kFinishing /\ live_children (children s) = 0%nat /\ CClaimed ∈ children s) \/
             (outstanding (group s) = Z.of_nat (live_children (children s)) /\ outstanding (group s) <= 2 ^ 63);
  gi_waiters : waiters (group s) <> [] -> outstanding (group s) <> 0 \/ CZero ∈ children s;
  gi_exception : has_exception (group s) = bool_decide (first_exception (group s) <> None) /\
    cancel_requested (group s) = has_exception (group s)
}.

(** ** Preservation *)

Lemma elem_middle {A} (x y : A) l1 l2 : x ∈ l1 ++ y :: l2 <-> x = y \/ x ∈ l1 ++ l2.
Proof. rewrite !elem_of_app, elem_of_cons. tauto. Qed.

(** Replacing a child keeps the other ones. *)
Lemma elem_swap (x c c' : Child) l1 l2 : x <> c -> x ∈ l1 ++ c :: l2 -> x ∈ l1 ++ c' :: l2.
Proof. rewrite !elem_middle. tauto. Qed.

Lemma elem_drop (x c : Child) l1 l2 : x <> c -> x ∈ l1 ++ c :: l2 -> x ∈ l1 ++ l2.
Proof. rewrite elem_middle. tauto. Qed.

Lemma live_middle c l1 l2 : live_children (l1 ++ c :: l2) = ((if counts c then 1 else 0) + live_children (l1 ++ l2))%nat.
Proof. rewrite !live_app, live_cons. lia. Qed.

Lemma group_step_inv serial s s' : ginv s -> g_step serial true s s' -> ginv s'.
Proof.
  intros [G1 G2 G3 G4] Hs.
  destruct Hs as [g st cs rel hint g' _ Hroom Hc|g st cs rel _ Hc|g st1 st2 cs rel hint g' Hu Hk|g st1 st2 cs rel Hu Hk
    |g st1 st2 cs rel hint g' Hroom Ha|g st cs1 cs2 rel hint e Hu|g st cs1 cs2 rel g' Hq Hc|g st cs1 cs2 rel Hc
    |g st cs1 c cs2 rel others g' Hcc Hf|g st cs1 cs2 rel g' Hq Hc|g st cs1 cs2 rel Hc|g st cs1 cs2 rel woken g' Hu Hf
    |g st cs rel j Hj|g st cs rel j parked g' Hu Hp]; cbn [group starters children released] in *.
  - unfold start_cas in Hc. case_decide as Hn; [done|]. injection Hc as <- <-. destruct G2 as [(? & _)|[Hc Hb]]; [done|].
    pose proof (live_le cs). unfold room in Hroom. rewrite u64_small by lia.
    split; cbn [group starters children set_outstanding outstanding waiters first_exception has_exception cancel_requested].
    + unfold kFinishing. lia.
    + right. rewrite live_cons. simpl. lia.
    + lia.
    + done.
  - split; cbn [group starters children]; [|done..]. intros [?|?]%elem_of_cons; [done|auto].
  - unfold start_locked in Hk. case_decide as Hn; [|done]. injection Hk as <- <-.
    destruct G2 as [(_ & Hl & _)|[Hc Hb]]; [|unfold kFinishing in Hn; lia].
    split; cbn [group starters children set_outstanding outstanding waiters first_exception has_exception cancel_requested]; [done| |lia|done].
    right. rewrite live_cons, Hl. simpl. lia.
  - unfold start_locked in Hk. case_decide as Hn; [done|]. split; cbn [group starters children]; done.
  - unfold start_fetch_add in Ha. injection Ha as <- <-.
    assert (Hn : outstanding g <> kFinishing) by (apply G1, elem_middle; auto).
    destruct G2 as [(? & _)|[Hc Hb]]; [done|]. pose proof (live_le cs). unfold room in Hroom. rewrite u64_small by lia.
    split; cbn [group starters children set_outstanding outstanding waiters first_exception has_exception cancel_requested].
    + unfold kFinishing. lia.
    + right. rewrite live_cons. simpl. lia.
    + lia.
    + done.
  - assert (Ho : outstanding (child_failed e g) = outstanding g /\ waiters (child_failed e g) = waiters g)
      by (unfold child_failed; by destruct (first_exception g)). destruct Ho as [Ho Hw].
    split; cbn [group starters children]; rewrite ?Ho, ?Hw; [done..|]. unfold child_failed.
    destruct (first_exception g) eqn:E; [|done]. by rewrite E.
  - unfold direct_claim in Hc. case_decide as Hn; [|done]. injection Hc as <-.
    split; cbn [group starters children set_outstanding outstanding waiters first_exception has_exception cancel_requested].
    + intros Hin. by destruct (Hq eq_refl).
    + left. rewrite live_middle in *. simpl in *. unfold kFinishing in *. split_and!; [done|lia|]. rewrite elem_middle. auto.
    + unfold kFinishing. lia.
    + done.
  - split; cbn [group starters children]; [done| | |done].
    + rewrite live_middle in *. simpl in *. destruct G2 as [(? & ? & ?)|?]; [lia|auto].
    + intros Hw. destruct (G3 Hw) as [?|Hz]; [auto|]. right. by apply (elem_swap _ (CRunning true)).
  - unfold finish_sub in Hf. injection Hf as <- <-.
    assert (Hcount : counts c = true) by (by destruct Hcc as [-> | ->]).
    rewrite live_middle, Hcount in G2. destruct G2 as [(_ & ? & _)|[Hc Hb]]; [lia|]. rewrite u64_small by lia.
    split; cbn [group starters children set_outstanding outstanding waiters first_exception has_exception cancel_requested].
    + unfold kFinishing. lia.
    + right. destruct (bool_decide (1 < outstanding g)); rewrite ?live_middle; simpl; lia.
    + intros Hw. destruct (bool_decide (1 < outstanding g)) eqn:E; [left; apply bool_decide_eq_true in E; lia|].
      right. rewrite elem_middle. auto.
    + done.
  - unfold zero_claim in Hc. case_decide as Hn; [|done]. injection Hc as <-.
    split; cbn [group starters children set_outstanding outstanding waiters first_exception has_exception cancel_requested].
    + intros Hin. by destruct (Hq eq_refl).
    + left. rewrite live_middle in *. simpl in *. unfold kFinishing in *. split_and!; [done|lia|]. rewrite elem_middle. auto.
    + unfold kFinishing. lia.
    + done.
  - unfold zero_claim in Hc. case_decide as Hn; [done|]. split; cbn [group starters children]; [done| |auto|done].
    rewrite live_middle in G2. simpl in G2. destruct G2 as [(? & ? & Hin)|?]; [left|auto]. split_and!; [done..|].
    by apply (elem_drop _ CZero).
  - unfold finish_generation in Hf. case_decide as Hn; injection Hf as <- <-.
    + split; cbn [group starters children]; [done| | |done].
      * rewrite live_middle in G2. simpl in G2. destruct G2 as [(? & _)|?]; [done|auto].
      * intros Hw. destruct (G3 Hw) as [?|Hz]; [auto|]. right. by apply (elem_drop _ CClaimed).
    + assert (Hn' : outstanding g = kFinishing) by (destruct (decide (outstanding g = kFinishing)); tauto).
      rewrite live_middle in G2. simpl in G2. destruct G2 as [(_ & Hl & _)|[Hc Hb]]; [|unfold kFinishing in *; lia].
      split; cbn [group starters children outstanding waiters first_exception has_exception cancel_requested]; [done| |done|done].
      right. rewrite Hl. done.
  - done.
  - unfold park_join in Hp. case_decide as Hn; injection Hp as <- <-; [done|].
    split; cbn [group starters children outstanding waiters first_exception has_exception cancel_requested]; auto.
Qed.

Lemma group_reachable_inv serial s : reachable g_init (g_step serial true) s -> ginv s.
Proof.
  apply (reachable_invariant ginv); [|intros s1 s2 _; apply group_step_inv].
  intros s' ->. split; simpl; [by intros ?%not_elem_of_nil| |done|done]. right. done.
Qed.

(** * Properties of task groups *)

Local Open Scope Z_scope.

(** A step that releases a joiner is taken with no child left. *)
Lemma release_idle serial s s' : ginv s -> g_step serial true s s' -> released s' <> released s ->
  live_children (children s) = 0%nat.
Proof.
  intros [G1 G2 G3 G4] Hs Hrel.
  destruct Hs as [| | | | | | | | | | |g st cs1 cs2 rel woken g' Hu Hf|g st cs rel j Hj|g st cs rel j parked g' Hu Hp];
    cbn [group starters children released] in *; try done.
  - unfold finish_generation in Hf. case_decide as Hn; injection Hf as <- <-; [by rewrite app_nil_r in Hrel|].
    assert (Hn' : outstanding g = kFinishing) by (destruct (decide (outstanding g = kFinishing)); tauto).
    destruct G2 as [(_ & Hl & _)|[Hc Hb]]; [done|unfold kFinishing in *; lia].
  - unfold join_ready in Hj. apply bool_decide_eq_true in Hj. destruct G2 as [(? & _)|[Hc Hb]]; [unfold kFinishing in *; lia|lia].
  - unfold park_join in Hp. case_decide as Hn; injection Hp as <- <-; [|done].
    destruct G2 as [(? & _)|[Hc Hb]]; [unfold kFinishing in *; lia|lia].
Qed.

(** No step replaces a recorded failure. *)
Lemma failure_kept serial quiet s s' e : g_step serial quiet s s' ->
  first_exception (group s) = Some e -> first_exception (group s') = Some e.
Proof.
  intros Hs. destruct Hs as [g st cs rel hint g' _ _ Hc|g st cs rel _ Hc|g st1 st2 cs rel hint g' Hu Hk|g st1 st2 cs rel Hu Hk
    |g st1 st2 cs rel hint g' _ Ha|g st cs1 cs2 rel hint x Hu|g st cs1 cs2 rel g' Hq Hc|g st cs1 cs2 rel Hc
    |g st cs1 c cs2 rel others g' Hcc Hf|g st cs1 cs2 rel g' Hq Hc|g st cs1 cs2 rel Hc|g st cs1 cs2 rel woken g' Hu Hf
    |g st cs rel j Hj|g st cs rel j parked g' Hu Hp]; cbn [group]; try done.
  - unfold start_cas in Hc. case_decide; [done|]. by injection Hc as <- <-.
  - unfold start_locked in Hk. case_decide; [|done]. by injection Hk as <- <-.
  - by injection Ha as <- <-.
  - unfold child_failed. intros E. by rewrite E.
  - unfold direct_claim in Hc. case_decide; [|done]. by injection Hc as <-.
  - by injection Hf as <- <-.
  - unfold zero_claim in Hc. case_decide; [|done]. by injection Hc as <-.
  - unfold finish_generation in Hf. case_decide; by injection Hf as <- <-.
  - unfold park_join in Hp. case_decide; by injection Hp as <- <-.
Qed.

(** C26: Structured joining: as long as no claim of the count falls into the
    window of a start between its locked load and its [fetch_add], and however
    starts, children, failures and joins interleave otherwise, a joiner is let
    go only when every started child has finished; once all children are gone
    nobody is parked and the count is zero; and [join] reports the first
    failure, which no later one replaces. *)
Theorem group_join_waits_for_all serial s :
  reachable g_init (g_step serial true) s ->
  (forall s', g_step serial true s s' -> released s' <> released s -> live_children (children s) = 0%nat) /\
  (children s = [] -> waiters (group s) = [] /\ outstanding (group s) = 0) /\
  join_resume (group s) = first_exception (group s) /\
  (forall s' e, g_step serial true s s' -> first_exception (group s) = Some e -> first_exception (group s') = Some e).
Proof.
  intros Hi%group_reachable_inv. split_and!.
  - intros s'. by apply release_idle.
  - intros Hc. destruct Hi as [_ G2 G3 _]. rewrite Hc in *.
    destruct G2 as [(_ & _ & Hin)|[Ho _]]; [by apply not_elem_of_nil in Hin|]. simpl in Ho. split; [|done].
    destruct (waiters (group s)) as [|j l]; [done|]. destruct G3 as [?|Hin]; [done|done|by apply not_elem_of_nil in Hin].
  - unfold join_resume. destruct (gi_exception _ Hi) as [-> _]. by destruct (first_exception (group s)).
  - intros s' e. apply failure_kept.
Qed.

(** ** Runs *)

Definition at_ (n : Z) (ws : list nat) (st : list Starter) (cs : list Child) : GSys :=
  mkGSys (mkGroup n ws None false false) st cs [].

Lemma ex_two_children : forall serial quiet, reachable g_init (g_step serial quiet) (at_ 1 [] [] [CRunning true]).
Proof.
  intros serial quiet. eapply reachable_step; [by apply reachable_init|].
  by apply (g_start serial quiet new_group [] [] [] true).
Qed.

Lemma group_join_waits_for_all_witness :
  reachable g_init (g_step false true) (at_ 1 [5%nat] [] [CRunning true]) /\
  (forall s', g_step false true (at_ 1 [5%nat] [] [CRunning true]) s' ->
    released s' <> [] -> live_children [CRunning true] = 0%nat).
Proof.
  assert (Hr : reachable g_init (g_step false true) (at_ 1 [5%nat] [] [CRunning true])).
  { eapply reachable_step; [apply ex_two_children|].
    apply (g_join_park false true (mkGroup 1 [] None false false) [] [CRunning true] [] 5 true); [by intros ?%not_elem_of_nil|done]. }
  split; [exact Hr|]. apply (group_join_waits_for_all false _ Hr).
Defined.

(** ** The window of a start *)

(** One task starts three children in turn; a sibling's completion is still
    between its decrement and its claim when the last start is in its window. *)
Lemma window_run : reachable g_init (g_step true false) (at_ 0 [] [] [CRunning false; CClaimed]).
Proof.
  assert (Hu : unlocked []) by (by intros ?%not_elem_of_nil).
  eapply reachable_step; [|by apply (g_start_add true false (mkGroup kFinishing [] None false false) [] [] [CClaimed] [] false)].
  eapply reachable_step; [|by apply (g_claim_zero true false (mkGroup 0 [] None false false) [SAdding] [] [] [])].
  eapply reachable_step; [|by apply (g_start_lock true false (mkGroup 0 [] None false false) [] [] [CZero] [])].
  eapply reachable_step; [|by apply (g_finish true false (mkGroup kFinishing [] None false false) [SWaiting] [] [CZero] [] []);
    [intros ?%elem_of_cons; destruct_or!; [done|by apply not_elem_of_nil in H]|]].
  eapply reachable_step; [|by apply (g_start_slow true false (mkGroup kFinishing [] None false false) [] [CClaimed; CZero] [])].
  eapply reachable_step; [|by apply (g_claim_one true false (mkGroup 1 [] None false false) [] [] [CZero] [])].
  eapply reachable_step; [|by apply (g_start true false (mkGroup 0 [] None false false) [] [CZero] [] true)].
  eapply reachable_step; [|by apply (g_sub true false (mkGroup 1 [] None false false) [] [] CSub [] [] false); [right|]].
  eapply reachable_step; [|by apply (g_sub true false (mkGroup 2 [] None false false) [] [] (CRunning false) [CSub] [] true); [left|]].
  eapply reachable_step; [|by apply (g_claim_one_lost true false (mkGroup 2 [] None false false) [] [CRunning false] [] [])].
  eapply reachable_step; [|by apply (g_start true false (mkGroup 1 [] None false false) [] [CRunning true] [] false)].
  apply ex_two_children.
Qed.

(** A start's window loses the count: [child_started] re-reads the count
    under the lock and then adds to it unconditionally, but completions claim
    the count without that lock. With a single task starting its children one
    after the other, a claim that falls into the window makes the addition
    wrap the sentinel to zero. A joiner is then let go at once although a child
    runs; and once that child finishes too, the count stays at the sentinel
    with no child left, so a joiner that parks is never woken. *)
Theorem group_start_window_breaks :
  (exists s, reachable g_init (g_step true false) s /\ starters s = [] /\
    live_children (children s) = 1%nat /\ join_ready (group s) = true) /\
  (exists s, reachable g_init (g_step true false) s /\ starters s = [] /\
    children s = [] /\ waiters (group s) = [7%nat] /\ outstanding (group s) = kFinishing).
Proof.
  split; [exists (at_ 0 [] [] [CRunning false; CClaimed]); split; [apply window_run|done]|].
  exists (at_ kFinishing [7%nat] [] []). split; [|done]. assert (Hu : unlocked []) by (by intros ?%not_elem_of_nil).
  eapply reachable_step; [|by apply (g_join_park true false (mkGroup kFinishing [] None false false) [] [] [] 7 true)].
  eapply reachable_step; [|by apply (g_claim_zero_lost true false (mkGroup kFinishing [] None false false) [] [] [] [])].
  eapply reachable_step; [|by apply (g_sub true false (mkGroup 0 [] None false false) [] [] (CRunning false) [] [] false); [left|]].
  eapply reachable_step; [|by apply (g_finish true false (mkGroup 0 [] None false false) [] [CRunning false] [] [] [])].
  apply window_run.
Qed.
