(* ===== verification/Cancel.v ===== *)
(** * Cancellation scopes (include/cio/group.hpp, include/cio/context.hpp, src/context.cpp)

    [CancelState] with its hooks and its done channel, the scopes that
    [with_cancel] and [with_deadline] link to their parents, and the system of
    threads that cancel them. Each critical section and each atomic access is
    one step; a thread is the stack of the calls it is in. *)

From S2P Require Import Prelude Result.

Set Default Proof Using "Type".

Abbreviation scope_id := nat.

(** A hook is the link to a child scope, or another waiter's. *)
Inductive Hook := HChild (c : scope_id) | HOther (k : nat).

#[global] Instance Hook_eq_dec : EqDecision Hook.
Proof. solve_decision. Defined.

(** [CancelState]; the done channel is whether it exists and whether it is
    closed. [parent] is the token the scope was made from. *)
Record CancelState := mkCancel {
  cancelled : bool;
  fired : bool;
  hooks : list Hook;
  done_ready : bool;
  done_closed : bool;
  deadline_ns : Z;
  parent : option scope_id
}.

Definition new_cancel_state (deadline : Z) (p : option scope_id) : CancelState :=
  mkCancel false false [] false false deadline p.

(** ** Operations of one state *)

(** [done_channel]. *)
Definition done_channel (x : CancelState) : CancelState :=
  if done_ready x then x
  else mkCancel (cancelled x) (fired x) (hooks x) true (fired x) (deadline_ns x) (parent x).

Definition add_hook (h : Hook) (x : CancelState) : bool * CancelState :=
  if fired x then (false, x)
  else (true, mkCancel (cancelled x) (fired x) (hooks x ++ [h]) (done_ready x) (done_closed x) (deadline_ns x) (parent x)).

(** Erases the first occurrence. *)
Fixpoint erase (h : Hook) (l : list Hook) : list Hook :=
  match l with
  | [] => []
  | x :: l => if decide (x = h) then l else x :: erase h l
  end.

Definition remove_hook (h : Hook) (x : CancelState) : CancelState :=
  mkCancel (cancelled x) (fired x) (erase h (hooks x)) (done_ready x) (done_closed x) (deadline_ns x) (parent x).

(** [cancel], in its three parts: the exchange, the locked block, the close. *)
Definition cancel_exchange (x : CancelState) : bool * CancelState :=
  (cancelled x, mkCancel true (fired x) (hooks x) (done_ready x) (done_closed x) (deadline_ns x) (parent x)).

Definition cancel_detach (x : CancelState) : list Hook * bool * CancelState :=
  (hooks x, done_ready x, mkCancel (cancelled x) true [] (done_ready x) (done_closed x) (deadline_ns x) (parent x)).

Definition close_done (x : CancelState) : CancelState :=
  mkCancel (cancelled x) (fired x) (hooks x) (done_ready x) true (deadline_ns x) (parent x).

(** ** Tokens *)

(** [CancelToken::err]; [None] is a token without a state. *)
Definition token_err (now : Z) (state : option CancelState) : Error :=
  match state with
  | None => no_error
  | Some x =>
      if negb (cancelled x) then no_error
      else if decide (deadline_ns x <> 0 /\ deadline_ns x <= now)%Z then of_errc timed_out
      else of_errc Result.cancelled
  end.

Definition token_deadline (state : option CancelState) : option Z :=
  match state with
  | None => None
  | Some x => if decide (deadline_ns x = 0)%Z then None else Some (deadline_ns x)
  end.

(** The clamp of [make_scope]. *)
Definition clamp_deadline (parent_deadline : option Z) (deadline : Z) : Z :=
  match parent_deadline with
  | Some at_ => if decide (deadline = 0 \/ at_ < deadline)%Z then at_ else deadline
  | None => deadline
  end.

(** ** The system *)

(** Where a thread is: in [cancel] before its exchange, before its locked
    block, firing what it detached, or in [link_to_parent]. *)
Inductive Frame :=
  | FCancel (s : scope_id)
  | FDetach (s : scope_id)
  | FFire (s : scope_id) (l : list Hook) (close : bool)
  | FLink (c p : scope_id).

#[global] Instance Frame_eq_dec : EqDecision Frame.
Proof. solve_decision. Defined.

Record CSys := mkCSys {
  scopes : gmap scope_id CancelState;
  threads : gmap nat (list Frame);
  ran : list nat;
  registered : list (scope_id * nat)
}.

Definition c_init : CSys -> Prop := fun s => s = mkCSys ∅ ∅ [] [].

Definition stack_of (ths : gmap nat (list Frame)) (t : nat) : list Frame := default [] (ths !! t).

Inductive c_step : CSys -> CSys -> Prop :=
  (* a source without a parent, a scope with one *)
  | c_source sc th ran reg s d : sc !! s = None ->
      c_step (mkCSys sc th ran reg) (mkCSys (<[s := new_cancel_state d None]> sc) th ran reg)
  | c_scope sc th ran reg t c p y d : sc !! c = None -> sc !! p = Some y ->
      c_step (mkCSys sc th ran reg)
        (mkCSys (<[c := new_cancel_state (clamp_deadline (token_deadline (Some y)) d) (Some p)]> sc)
           (<[t := FLink c p :: stack_of th t]> th) ran reg)
  | c_link sc th ran reg t c p rest y ok y' : th !! t = Some (FLink c p :: rest) -> sc !! p = Some y ->
      add_hook (HChild c) y = (ok, y') ->
      c_step (mkCSys sc th ran reg)
        (mkCSys (<[p := y']> sc) (<[t := if ok : bool then rest else FCancel c :: rest]> th) ran reg)
  (* cancel, from anywhere, also from within a hook *)
  | c_call sc th ran reg t s : is_Some (sc !! s) ->
      c_step (mkCSys sc th ran reg) (mkCSys sc (<[t := FCancel s :: stack_of th t]> th) ran reg)
  | c_gone sc th ran reg t s rest : th !! t = Some (FCancel s :: rest) -> sc !! s = None ->
      c_step (mkCSys sc th ran reg) (mkCSys sc (<[t := rest]> th) ran reg)
  | c_exchange sc th ran reg t s rest x old x' : th !! t = Some (FCancel s :: rest) -> sc !! s = Some x ->
      cancel_exchange x = (old, x') ->
      c_step (mkCSys sc th ran reg)
        (mkCSys (<[s := x']> sc) (<[t := if old : bool then rest else FDetach s :: rest]> th) ran reg)
  | c_detach sc th ran reg t s rest x l b x' : th !! t = Some (FDetach s :: rest) -> sc !! s = Some x ->
      cancel_detach x = (l, b, x') ->
      c_step (mkCSys sc th ran reg) (mkCSys (<[s := x']> sc) (<[t := FFire s l b :: rest]> th) ran reg)
  | c_fire_child sc th ran reg t s c l b rest : th !! t = Some (FFire s (HChild c :: l) b :: rest) ->
      c_step (mkCSys sc th ran reg) (mkCSys sc (<[t := FCancel c :: FFire s l b :: rest]> th) ran reg)
  | c_fire_other sc th ran reg t s k l b rest : th !! t = Some (FFire s (HOther k :: l) b :: rest) ->
      c_step (mkCSys sc th ran reg) (mkCSys sc (<[t := FFire s l b :: rest]> th) (k :: ran) reg)
  | c_close sc th ran reg t s b rest x : th !! t = Some (FFire s [] b :: rest) -> sc !! s = Some x ->
      c_step (mkCSys sc th ran reg)
        (mkCSys (<[s := if b : bool then close_done x else x]> sc) (<[t := rest]> th) ran reg)
  (* the other operations *)
  | c_done sc th ran reg s x : sc !! s = Some x ->
      c_step (mkCSys sc th ran reg) (mkCSys (<[s := done_channel x]> sc) th ran reg)
  | c_add_hook sc th ran reg s x k ok x' : sc !! s = Some x -> add_hook (HOther k) x = (ok, x') ->
      c_step (mkCSys sc th ran reg)
        (mkCSys (<[s := x']> sc) th ran (if ok : bool then (s, k) :: reg else reg))
  | c_remove_hook sc th ran reg s x k : sc !! s = Some x ->
      c_step (mkCSys sc th ran reg)
        (mkCSys (<[s := remove_hook (HOther k) x]> sc) th ran (filter (fun r => r <> (s, k)) reg))
  (* the last token of a scope without children goes: its keepalive unlinks it *)
  | c_drop sc th ran reg c x : sc !! c = Some x ->
      (forall t f, f ∈ stack_of th t -> match f with FDetach s | FFire s _ _ => s <> c | FLink a b => a <> c /\ b <> c | FCancel _ => True end) ->
      (forall d z, sc !! d = Some z -> parent z <> Some c) ->
      c_step (mkCSys sc th ran reg)
        (mkCSys (delete c (match parent x with
                           | Some p => match sc !! p with Some y => <[p := remove_hook (HChild c) y]> sc | None => sc end
                           | None => sc end)) th ran (filter (fun r => r.1 <> c) reg)).

(** * Properties of cancellation scopes *)

(** ** Frames *)

Definition inf (f : Frame) (th : gmap nat (list Frame)) : Prop := exists t, f ∈ stack_of th t.

Lemma stack_insert th t st t' : stack_of (<[t := st]> th) t' = if decide (t' = t) then st else stack_of th t'.
Proof.
  unfold stack_of. destruct (decide (t' = t)) as [->|Hn]; [by rewrite lookup_insert_eq|by rewrite lookup_insert_ne].
Qed.

Lemma inf_new f th t st : f ∈ st -> inf f (<[t := st]> th).
Proof. intros Hf. exists t. by rewrite stack_insert, decide_True. Qed.

(** A thread's stack changes; frames that stay, stay. *)
Lemma inf_keep f th t st : (f ∈ stack_of th t -> f ∈ st) -> inf f th -> inf f (<[t := st]> th).
Proof.
  intros Hst [t' Hf]. destruct (decide (t' = t)) as [->|Hn]; [apply inf_new; auto|].
  exists t'. by rewrite stack_insert, decide_False.
Qed.

Lemma inf_inv f th t st : inf f (<[t := st]> th) -> f ∈ st \/ inf f th.
Proof.
  intros [t' Hf]. rewrite stack_insert in Hf. destruct (decide (t' = t)); [by left|]. right. by exists t'.
Qed.

Lemma inf_inv_pop f th t g rest : th !! t = Some (g :: rest) -> inf f (<[t := rest]> th) -> inf f th.
Proof.
  intros Ht [Hf|?]%inf_inv; [|done]. exists t. unfold stack_of. rewrite Ht. apply elem_of_cons. auto.
Qed.

(** The top frame goes; the frames below stay. *)
Lemma inf_pop f g th t rest st : th !! t = Some (g :: rest) -> f <> g -> rest ⊆ st -> inf f th -> inf f (<[t := st]> th).
Proof.
  intros Ht Hne Hsub. apply inf_keep. unfold stack_of. rewrite Ht. simpl. intros [->|Hf]%elem_of_cons; [done|auto].
Qed.

Lemma inf_top f th t rest : th !! t = Some (f :: rest) -> inf f th.
Proof. intros Ht. exists t. unfold stack_of. rewrite Ht. apply elem_of_cons. auto. Qed.

Lemma sub_refl (l : list Frame) : l ⊆ l.
Proof. done. Qed.
Lemma sub_cons (f : Frame) l : l ⊆ f :: l.
Proof. intros x Hx. apply elem_of_cons. auto. Qed.
Lemma sub_cons2 (f g : Frame) l : l ⊆ f :: g :: l.
Proof. intros x Hx. rewrite !elem_of_cons. auto. Qed.
#[local] Hint Resolve sub_refl sub_cons sub_cons2 : core.

(** ** The invariant *)

(** A hook of [p] is registered, or detached and about to run. *)
Definition carried (sc : gmap scope_id CancelState) th (p : scope_id) (h : Hook) : Prop :=
  (exists y, sc !! p = Some y /\ h ∈ hooks y) \/ (exists l b, inf (FFire p l b) th /\ h ∈ l).

(** A cancellation of [p] will still reach its child [c]. *)
Definition reaches sc th (c p : scope_id) : Prop :=
  inf (FCancel c) th \/ inf (FLink c p) th \/ carried sc th p (HChild c).

Record cinv (s : CSys) : Prop := {
  ci_local i x : scopes s !! i = Some x -> fired x = true -> hooks x = [] /\ cancelled x = true;
  ci_detach i x : scopes s !! i = Some x -> cancelled x = true -> fired x = true \/ inf (FDetach i) (threads s);
  ci_cancelled i : inf (FDetach i) (threads s) -> exists x, scopes s !! i = Some x /\ cancelled x = true;
  ci_done i x : scopes s !! i = Some x -> done_ready x = true -> fired x = true ->
    done_closed x = true \/ exists l, inf (FFire i l true) (threads s);
  ci_parent c x p : scopes s !! c = Some x -> parent x = Some p ->
    (exists y, scopes s !! p = Some y /\ (deadline_ns y <> 0 -> deadline_ns x <> 0 /\ deadline_ns x <= deadline_ns y)%Z) /\
    (cancelled x = true \/ reaches (scopes s) (threads s) c p);
  ci_hooks i k : (i, k) ∈ registered s ->
    is_Some (scopes s !! i) /\ (carried (scopes s) (threads s) i (HOther k) \/ k ∈ ran s)
}.

(** ** Steps of a thread alone *)

Lemma cinv_threads sc th ran0 reg th' ran' : cinv (mkCSys sc th ran0 reg) ->
  (forall i, inf (FDetach i) th <-> inf (FDetach i) th') ->
  (forall i l, inf (FFire i l true) th -> exists l', inf (FFire i l' true) th') ->
  (forall c x p, sc !! c = Some x -> reaches sc th c p -> cancelled x = true \/ reaches sc th' c p) ->
  (forall i k, carried sc th i (HOther k) -> carried sc th' i (HOther k) \/ k ∈ ran') ->
  ran0 ⊆ ran' -> cinv (mkCSys sc th' ran' reg).
Proof.
  intros [I1 I2 I6 I3 I4 I5] H1 H2 H3 H4 H5; simpl in *. split; simpl.
  - done.
  - intros i x Hi Hx. rewrite <- H1. by apply (I2 i x).
  - intros i Hf. apply I6. by apply H1.
  - intros i x Hi Hr Hf. destruct (I3 i x Hi Hr Hf) as [?|[l Hl]]; [auto|]. right. eauto.
  - intros c x p Hc Hp. destruct (I4 c x p Hc Hp) as [Hd [?|Hr]]; (split; [done|]); [auto|]. eauto.
  - intros i k Hr. destruct (I5 i k Hr) as [Hs [Hc|Hk]]; (split; [done|]); [auto|right; auto].
Qed.

(** Frames and hooks that a change of stacks keeps. *)
Lemma carried_keep sc th th' p h : (forall l b, inf (FFire p l b) th -> h ∈ l -> carried sc th' p h) ->
  carried sc th p h -> carried sc th' p h.
Proof. intros Hk [Hy|(l & b & Hl & Hh)]; [by left|eauto]. Qed.

Lemma stack_push_inv sc th ran0 reg t st : cinv (mkCSys sc th ran0 reg) -> stack_of th t ⊆ st ->
  (forall i, FDetach i ∈ st -> inf (FDetach i) th) -> cinv (mkCSys sc (<[t := st]> th) ran0 reg).
Proof.
  intros Hi Hst Hnd. assert (Hkeep : forall f, inf f th -> inf f (<[t := st]> th)) by (intros f; apply inf_keep; auto).
  assert (Hc : forall p h, carried sc th p h -> carried sc (<[t := st]> th) p h).
  { intros p h. apply carried_keep. intros l b Hl Hh. right. eauto. }
  apply (cinv_threads sc th ran0); [done|split; [auto|]|eauto| |auto|done].
  - intros Hf%inf_inv. destruct Hf as [Hf|?]; [|done]. by apply Hnd in Hf.
  - intros c x p Hx [?|[?|?]]; right; unfold reaches; auto.
Qed.

Lemma gone_inv sc th ran0 reg t s rest : cinv (mkCSys sc th ran0 reg) -> th !! t = Some (FCancel s :: rest) ->
  sc !! s = None -> cinv (mkCSys sc (<[t := rest]> th) ran0 reg).
Proof.
  intros Hi Ht Hs. assert (Hkeep : forall f, f <> FCancel s -> inf f th -> inf f (<[t := rest]> th)).
  { intros f Hf. by apply (inf_pop f (FCancel s) th t rest). }
  assert (Hc : forall p h, carried sc th p h -> carried sc (<[t := rest]> th) p h).
  { intros p h. apply carried_keep. intros l b Hl Hh. right. exists l, b. auto. }
  apply (cinv_threads sc th ran0); [done|split; [auto|by apply (inf_inv_pop _ _ _ (FCancel s))]|eauto| |auto|done].
  intros c x p Hx Hr. right. destruct (decide (c = s)) as [->|Hne]; [congruence|].
  destruct Hr as [?|[?|?]]; unfold reaches; [left; apply Hkeep; congruence|right; left; by apply Hkeep|auto].
Qed.

Lemma fire_inv sc th ran0 reg t s h l b rest st ran' : cinv (mkCSys sc th ran0 reg) ->
  th !! t = Some (FFire s (h :: l) b :: rest) -> FFire s l b ∈ st -> rest ⊆ st -> ran0 ⊆ ran' ->
  (forall i, FDetach i ∈ st -> FDetach i ∈ rest) ->
  (forall c, h = HChild c -> FCancel c ∈ st) -> (forall k, h = HOther k -> k ∈ ran') ->
  cinv (mkCSys sc (<[t := st]> th) ran' reg).
Proof.
  intros Hi Ht Hst Hsub Hran Hnd Hchild Hother.
  assert (Hkeep : forall f, f <> FFire s (h :: l) b -> inf f th -> inf f (<[t := st]> th)).
  { intros f Hf. by apply (inf_pop f (FFire s (h :: l) b) th t rest). }
  assert (Hnew : inf (FFire s l b) (<[t := st]> th)) by (by apply inf_new).
  assert (Hc : forall p h', h' <> h -> carried sc th p h' -> carried sc (<[t := st]> th) p h').
  { intros p h' Hne. apply carried_keep. intros l' b' Hl Hh. right.
    destruct (decide (FFire p l' b' = FFire s (h :: l) b)) as [E|E]; [|exists l', b'; auto].
    injection E as -> -> ->. exists l, b. split; [done|]. apply elem_of_cons in Hh as [?|?]; done. }
  apply (cinv_threads sc th ran0); [done| | | | |done].
  - intros i. split; [by apply Hkeep|]. intros [Hf|?]%inf_inv; [|done]. exists t. unfold stack_of. rewrite Ht.
    apply elem_of_cons. auto.
  - intros i l' Hl. destruct (decide (FFire i l' true = FFire s (h :: l) b)) as [E|E]; [|exists l'; auto].
    injection E as -> -> <-. eauto.
  - intros c x p Hx Hr. right. destruct (decide (h = HChild c)) as [->|Hne].
    { left. apply inf_new. auto. }
    destruct Hr as [?|[?|?]]; unfold reaches; [left; by apply Hkeep|right; left; by apply Hkeep|right; right; apply Hc; congruence].
  - intros i k Hk. destruct (decide (h = HOther k)) as [->|Hne]; [right; auto|left; apply Hc; congruence].
Qed.

(** ** Steps that change one scope *)

Lemma cinv_update sc th ran0 reg s x x' th' reg' : cinv (mkCSys sc th ran0 reg) -> sc !! s = Some x ->
  parent x' = parent x -> deadline_ns x' = deadline_ns x ->
  (fired x' = true -> hooks x' = [] /\ cancelled x' = true) ->
  (cancelled x = true -> cancelled x' = true) ->
  (cancelled x' = true -> fired x' = true \/ inf (FDetach s) th') ->
  (forall i, inf (FDetach i) th' -> inf (FDetach i) th \/ (i = s /\ cancelled x' = true)) ->
  (done_ready x' = true -> fired x' = true -> done_closed x' = true \/ exists l, inf (FFire s l true) th') ->
  (forall i, i <> s -> inf (FDetach i) th -> inf (FDetach i) th') ->
  (forall i l, i <> s -> inf (FFire i l true) th -> exists l', inf (FFire i l' true) th') ->
  (forall c z p, sc !! c = Some z -> reaches sc th c p ->
    (c = s /\ cancelled x' = true) \/ reaches (<[s := x']> sc) th' c p) ->
  (forall i k, (i, k) ∈ reg' -> is_Some (sc !! i) /\ (carried (<[s := x']> sc) th' i (HOther k) \/ k ∈ ran0)) ->
  cinv (mkCSys (<[s := x']> sc) th' ran0 reg').
Proof.
  intros [I1 I2 I6 I3 I4 I5] Hs Hpar Hdl L C D G E F1 F2 R K; simpl in *. split; simpl.
  - intros i y [[<- <-]|[Hne Hi]]%lookup_insert_Some; [done|eauto].
  - intros i y [[<- <-]|[Hne Hi]]%lookup_insert_Some; [done|]. intros Hy. destruct (I2 i y Hi Hy); auto.
  - intros i Hf. destruct (G i Hf) as [Hold|[-> Hx]]; [|exists x'; by rewrite lookup_insert_eq].
    destruct (I6 i Hold) as (y & Hy & Hcy). destruct (decide (i = s)) as [->|Hne]; [|exists y; by rewrite lookup_insert_ne].
    exists x'. rewrite lookup_insert_eq. split; [done|]. apply C. congruence.
  - intros i y [[<- <-]|[Hne Hi]]%lookup_insert_Some; [done|]. intros Hr Hf.
    destruct (I3 i y Hi Hr Hf) as [?|[l Hl]]; [auto|right; eauto].
  - assert (Hdead : forall p (d : Z), (exists y, sc !! p = Some y /\ (deadline_ns y <> 0 -> d <> 0 /\ d <= deadline_ns y)%Z) ->
      exists y, <[s := x']> sc !! p = Some y /\ (deadline_ns y <> 0 -> d <> 0 /\ d <= deadline_ns y)%Z).
    { intros p d (y & Hy & Hd). destruct (decide (p = s)) as [->|Hne]; [|exists y; by rewrite lookup_insert_ne].
      exists x'. rewrite lookup_insert_eq, Hdl. split; [done|]. assert (y = x) as -> by congruence. done. }
    intros c y p [[<- <-]|[Hne Hc]]%lookup_insert_Some Hp.
    + rewrite Hpar in Hp. destruct (I4 s x p Hs Hp) as [Hd Hr]. rewrite Hdl. split; [auto|].
      destruct Hr as [?|Hr]; [auto|]. destruct (R s x p Hs Hr) as [[_ ?]|?]; auto.
    + destruct (I4 c y p Hc Hp) as [Hd Hr]. split; [auto|].
      destruct Hr as [?|Hr]; [auto|]. destruct (R c y p Hc Hr) as [[-> _]|?]; [congruence|auto].
  - intros i k Hk. destruct (K i k Hk) as [Hi Hc]. split; [|done].
    destruct (decide (i = s)) as [->|Hne]; [rewrite lookup_insert_eq; eauto|by rewrite lookup_insert_ne].
Qed.

(** A hook stays with its scope when the scope keeps its hooks and no frame
    goes. *)
Lemma carried_update sc th th' s x x' p h : sc !! s = Some x -> (h ∈ hooks x -> h ∈ hooks x') ->
  (forall l b, h ∈ l -> inf (FFire p l b) th -> exists l' b', h ∈ l' /\ inf (FFire p l' b') th') ->
  carried sc th p h -> carried (<[s := x']> sc) th' p h.
Proof.
  intros Hs Hh Hf [(y & Hy & Hin)|(l & b & Hl & Hin)].
  - left. destruct (decide (p = s)) as [->|Hne]; [|exists y; by rewrite lookup_insert_ne].
    exists x'. rewrite lookup_insert_eq. split; [done|]. apply Hh. congruence.
  - right. destruct (Hf l b Hin Hl) as (l' & b' & ? & ?). eauto.
Qed.

Lemma done_inv sc th ran0 reg s x : cinv (mkCSys sc th ran0 reg) -> sc !! s = Some x ->
  cinv (mkCSys (<[s := done_channel x]> sc) th ran0 reg).
Proof.
  intros Hi Hs. assert (Hc : forall p h, carried sc th p h -> carried (<[s := done_channel x]> sc) th p h).
  { intros p h. apply (carried_update sc th th s x); [done| |eauto]. unfold done_channel. by destruct (done_ready x). }
  apply (cinv_update sc th ran0 reg s x); [done|done|..]; try (unfold done_channel; by destruct (done_ready x)); try done; eauto.
  - intros Hf. pose proof (ci_local _ Hi s x Hs) as Hl. unfold done_channel in *. destruct (done_ready x); auto.
  - intros Hx. pose proof (ci_detach _ Hi s x Hs) as Hl. unfold done_channel in *. destruct (done_ready x); auto.
  - pose proof (ci_done _ Hi s x Hs) as Hl. simpl in Hl. unfold done_channel in *. destruct (done_ready x); simpl; auto.
  - intros c z p _ [?|[?|?]]; right; unfold reaches; auto.
  - intros i k Hk. destruct (ci_hooks _ Hi i k Hk) as [? [?|?]]; (split; [done|]); auto.
Qed.

Lemma add_hook_fields h x ok x' : add_hook h x = (ok, x') ->
  parent x' = parent x /\ deadline_ns x' = deadline_ns x /\ cancelled x' = cancelled x /\ fired x' = fired x /\
  done_ready x' = done_ready x /\ done_closed x' = done_closed x /\
  hooks x' = (if ok then hooks x ++ [h] else hooks x) /\ (ok = negb (fired x)).
Proof. unfold add_hook. destruct (fired x) eqn:E; intros [= <- <-]; simpl; rewrite ?E; done. Qed.

Lemma add_hook_inv sc th ran0 reg s x k ok x' : cinv (mkCSys sc th ran0 reg) -> sc !! s = Some x ->
  add_hook (HOther k) x = (ok, x') ->
  cinv (mkCSys (<[s := x']> sc) th ran0 (if ok : bool then (s, k) :: reg else reg)).
Proof.
  intros Hi Hs (Hp & Hd & Hcn & Hf & Hr & Hcl & Hh & Hok)%add_hook_fields.
  assert (Hsub : hooks x ⊆ hooks x') by (rewrite Hh; destruct ok; [apply list_subseteq_app_l|]; done).
  assert (Hc : forall p h, carried sc th p h -> carried (<[s := x']> sc) th p h).
  { intros p h. apply (carried_update sc th th s x); [done|auto|eauto]. }
  apply (cinv_update sc th ran0 reg s x); try done; rewrite ?Hcn, ?Hf, ?Hr, ?Hcl; eauto.
  - intros Hfx. destruct (ci_local _ Hi s x Hs Hfx) as [Hl ?]. rewrite Hh, Hok, Hfx. done.
  - apply (ci_detach _ Hi s x Hs).
  - apply (ci_done _ Hi s x Hs).
  - intros c z p _ [?|[?|?]]; right; unfold reaches; auto.
  - intros i k' Hk. assert (Hold : (i, k') ∈ reg -> is_Some (sc !! i) /\ (carried (<[s := x']> sc) th i (HOther k') \/ k' ∈ ran0)).
    { intros Hin. destruct (ci_hooks _ Hi i k' Hin) as [? [?|?]]; (split; [done|]); auto. }
    destruct ok; [|auto]. apply elem_of_cons in Hk as [[= -> ->]|Hk]; [|auto]. split; [eauto|]. left. left.
    exists x'. rewrite lookup_insert_eq. split; [done|]. rewrite Hh. apply elem_of_app. right. by apply list_elem_of_singleton.
Qed.

Lemma erase_other h h' l : h' <> h -> h' ∈ l -> h' ∈ erase h l.
Proof.
  intros Hne. induction l as [|y l IH]; simpl; [done|]. rewrite elem_of_cons. case_decide as Hy; [|rewrite elem_of_cons].
  - intros [->|?]; [congruence|done].
  - intros [->|?]; auto.
Qed.

Lemma remove_hook_inv sc th ran0 reg s x k : cinv (mkCSys sc th ran0 reg) -> sc !! s = Some x ->
  cinv (mkCSys (<[s := remove_hook (HOther k) x]> sc) th ran0 (filter (fun r => r <> (s, k)) reg)).
Proof.
  intros Hi Hs.
  assert (Hc : forall p h, (p, h) <> (s, HOther k) -> carried sc th p h -> carried (<[s := remove_hook (HOther k) x]> sc) th p h).
  { intros p h Hne [(y & Hy & Hin)|?]; [left|by right]. destruct (decide (p = s)) as [->|Hps]; [|exists y; by rewrite lookup_insert_ne].
    eexists. rewrite lookup_insert_eq. split; [done|]. simpl. assert (y = x) as -> by congruence.
    apply erase_other; [congruence|done]. }
  apply (cinv_update sc th ran0 reg s x); try done; eauto.
  - intros Hf. destruct (ci_local _ Hi s x Hs Hf) as [Hl ?]. simpl. by rewrite Hl.
  - apply (ci_detach _ Hi s x Hs).
  - apply (ci_done _ Hi s x Hs).
  - intros c z p _ [?|[?|?]]; right; unfold reaches; auto.
  - intros i k' [Hne Hin]%list_elem_of_filter. destruct (ci_hooks _ Hi i k' Hin) as [? [?|?]]; (split; [done|]); [left|auto].
    apply Hc; [congruence|done].
Qed.

(** ** The steps of [cancel] and of [link_to_parent] *)

(** A top frame that holds no hooks goes, with hooks of every scope kept. *)
Lemma carried_pop sc th s x x' p h t f rest st : sc !! s = Some x -> (h ∈ hooks x -> h ∈ hooks x') ->
  th !! t = Some (f :: rest) -> rest ⊆ st -> (forall i l b, f = FFire i l b -> l = []) ->
  carried sc th p h -> carried (<[s := x']> sc) (<[t := st]> th) p h.
Proof.
  intros Hs Hh Ht Hst Hf. apply (carried_update sc th _ s x); [done|done|]. intros l b Hl Hin. exists l, b. split; [done|].
  apply (inf_pop _ f th t rest); [done| |done|done]. intros E. rewrite (Hf p l b (eq_sym E)) in Hl. by apply not_elem_of_nil in Hl.
Qed.

Lemma link_inv sc th ran0 reg t c p rest y ok y' : cinv (mkCSys sc th ran0 reg) ->
  th !! t = Some (FLink c p :: rest) -> sc !! p = Some y -> add_hook (HChild c) y = (ok, y') ->
  cinv (mkCSys (<[p := y']> sc) (<[t := if ok : bool then rest else FCancel c :: rest]> th) ran0 reg).
Proof.
  intros Hi Ht Hs (Hp & Hd & Hcn & Hf & Hr & Hcl & Hh & Hok)%add_hook_fields.
  set (st := if ok then rest else FCancel c :: rest).
  assert (Hst : rest ⊆ st) by (unfold st; destruct ok; auto).
  assert (Hkeep : forall f, f <> FLink c p -> inf f th -> inf f (<[t := st]> th)).
  { intros f Hne. by apply (inf_pop f (FLink c p) th t rest). }
  assert (Hsub : hooks y ⊆ hooks y') by (rewrite Hh; destruct ok; [apply list_subseteq_app_l|]; done).
  assert (Hc : forall q h, carried sc th q h -> carried (<[p := y']> sc) (<[t := st]> th) q h).
  { intros q h. apply (carried_pop sc th p y y' q h t (FLink c p) rest); auto. done. }
  apply (cinv_update sc th ran0 reg p y); try done; rewrite ?Hcn, ?Hf, ?Hr, ?Hcl; auto.
  - intros Hfx. destruct (ci_local _ Hi p y Hs Hfx) as [Hl ?]. rewrite Hh, Hok, Hfx. done.
  - intros Hx. destruct (ci_detach _ Hi p y Hs Hx); [auto|]. right. by apply Hkeep.
  - intros i [Hin|?]%inf_inv; [left|auto]. exists t. unfold stack_of. rewrite Ht. unfold st in Hin.
    apply elem_of_cons. destruct ok; [by right|]. apply elem_of_cons in Hin as [?|?]; [done|by right].
  - intros H1 H2. destruct (ci_done _ Hi p y Hs H1 H2) as [?|[l ?]]; [auto|]. right. exists l. by apply Hkeep.
  - intros i l _ Hl. exists l. by apply Hkeep.
  - intros c' z q _ [?|[Hl|?]]; right; unfold reaches; [left; by apply Hkeep| |auto].
    destruct (decide (FLink c' q = FLink c p)) as [E|E]; [|right; left; by apply Hkeep].
    injection E as -> ->. destruct ok; [|left; apply inf_new; unfold st; apply elem_of_cons; auto].
    right. right. left. exists y'. rewrite lookup_insert_eq. split; [done|]. rewrite Hh. apply elem_of_app. right.
    by apply list_elem_of_singleton.
  - intros i k Hk. destruct (ci_hooks _ Hi i k Hk) as [? [?|?]]; (split; [done|]); auto.
Qed.

Lemma exchange_inv sc th ran0 reg t s rest x old x' : cinv (mkCSys sc th ran0 reg) ->
  th !! t = Some (FCancel s :: rest) -> sc !! s = Some x -> cancel_exchange x = (old, x') ->
  cinv (mkCSys (<[s := x']> sc) (<[t := if old : bool then rest else FDetach s :: rest]> th) ran0 reg).
Proof.
  intros Hi Ht Hs. unfold cancel_exchange. intros [= <- <-]. set (x' := mkCancel _ _ _ _ _ _ _).
  set (st := if cancelled x then rest else FDetach s :: rest).
  assert (Hst : rest ⊆ st) by (unfold st; destruct (cancelled x); auto).
  assert (Hkeep : forall f, f <> FCancel s -> inf f th -> inf f (<[t := st]> th)).
  { intros f Hne. by apply (inf_pop f (FCancel s) th t rest). }
  assert (Hc : forall q h, carried sc th q h -> carried (<[s := x']> sc) (<[t := st]> th) q h).
  { intros q h. apply (carried_pop sc th s x x' q h t (FCancel s) rest); auto. done. }
  apply (cinv_update sc th ran0 reg s x); try done; auto.
  - intros Hf. destruct (ci_local _ Hi s x Hs Hf) as [? _]. done.
  - intros _. simpl. destruct (cancelled x) eqn:Ex.
    + destruct (ci_detach _ Hi s x Hs Ex); [auto|]. right. by apply Hkeep.
    + right. apply inf_new. unfold st. apply elem_of_cons. auto.
  - intros i [Hf|?]%inf_inv; [|auto]. unfold st in Hf. assert (Hr : FDetach i ∈ rest -> inf (FDetach i) th).
    { intros Hin. exists t. unfold stack_of. rewrite Ht. apply elem_of_cons. auto. }
    destruct (cancelled x); [auto|]. apply elem_of_cons in Hf as [[= ->]|?]; auto.
  - intros H1 H2. destruct (ci_done _ Hi s x Hs H1 H2) as [?|[l ?]]; [auto|]. right. exists l. by apply Hkeep.
  - intros i l _ Hl. exists l. by apply Hkeep.
  - intros c' z q _ [Hl|[?|?]]; [|right; unfold reaches; right; left; by apply Hkeep|right; unfold reaches; auto].
    destruct (decide (c' = s)) as [->|E]; [by left|]. right. left. apply Hkeep; congruence.
  - intros i k Hk. destruct (ci_hooks _ Hi i k Hk) as [? [?|?]]; (split; [done|]); auto.
Qed.

Lemma detach_inv sc th ran0 reg t s rest x l b x' : cinv (mkCSys sc th ran0 reg) ->
  th !! t = Some (FDetach s :: rest) -> sc !! s = Some x -> cancel_detach x = (l, b, x') ->
  cinv (mkCSys (<[s := x']> sc) (<[t := FFire s l b :: rest]> th) ran0 reg).
Proof.
  intros Hi Ht Hs. unfold cancel_detach. intros [= <- <- <-].
  assert (Hcx : cancelled x = true).
  { destruct (ci_cancelled _ Hi s) as (z & Hz & Hcz); [by eapply inf_top|]. simpl in Hz. congruence. }
  set (x' := mkCancel _ _ _ _ _ _ _).
  set (st := FFire s _ _ :: rest). assert (Hst : rest ⊆ st) by (unfold st; auto).
  assert (Hkeep : forall f, f <> FDetach s -> inf f th -> inf f (<[t := st]> th)).
  { intros f Hne. by apply (inf_pop f (FDetach s) th t rest). }
  assert (Hnew : inf (FFire s (hooks x) (done_ready x)) (<[t := st]> th)) by (apply inf_new; apply elem_of_cons; auto).
  assert (Hc : forall q h, carried sc th q h -> carried (<[s := x']> sc) (<[t := st]> th) q h).
  { intros q h [(y & Hy & Hin)|(l & b & Hl & Hin)].
    - destruct (decide (q = s)) as [->|Hne]; [|left; exists y; by rewrite lookup_insert_ne].
      right. exists (hooks x), (done_ready x). split; [done|]. congruence.
    - right. exists l, b. split; [by apply Hkeep|done]. }
  apply (cinv_update sc th ran0 reg s x); try done; auto.
  - intros i [Hf|?]%inf_inv; [|auto]. apply elem_of_cons in Hf as [?|?]; [done|]. left. exists t. unfold stack_of.
    rewrite Ht. apply elem_of_cons. auto.
  - intros H1 _. simpl in H1. right. exists (hooks x). by rewrite <- H1.
  - intros i Hne. apply Hkeep. congruence.
  - intros i l _ Hl. exists l. by apply Hkeep.
  - intros c' z q _ [?|[?|?]]; right; unfold reaches; [left; by apply Hkeep|right; left; by apply Hkeep|auto].
  - intros i k Hk. destruct (ci_hooks _ Hi i k Hk) as [? [?|?]]; (split; [done|]); auto.
Qed.

Lemma close_inv sc th ran0 reg t s b rest x : cinv (mkCSys sc th ran0 reg) ->
  th !! t = Some (FFire s [] b :: rest) -> sc !! s = Some x ->
  cinv (mkCSys (<[s := if b : bool then close_done x else x]> sc) (<[t := rest]> th) ran0 reg).
Proof.
  intros Hi Ht Hs. set (x' := if b then close_done x else x).
  assert (Hx : parent x' = parent x /\ deadline_ns x' = deadline_ns x /\ cancelled x' = cancelled x /\ fired x' = fired x /\
    done_ready x' = done_ready x /\ hooks x' = hooks x /\ done_closed x' = (b || done_closed x)) by (unfold x'; by destruct b).
  destruct Hx as (Hp & Hd & Hcn & Hf & Hr & Hh & Hcl).
  assert (Hkeep : forall f, f <> FFire s [] b -> inf f th -> inf f (<[t := rest]> th)).
  { intros f Hne. by apply (inf_pop f (FFire s [] b) th t rest). }
  assert (Hc : forall q h, carried sc th q h -> carried (<[s := x']> sc) (<[t := rest]> th) q h).
  { intros q h. apply (carried_pop sc th s x x' q h t (FFire s [] b) rest); [done|by rewrite Hh|done|done|]. by intros i l b' [= <- <- <-]. }
  apply (cinv_update sc th ran0 reg s x); try done; rewrite ?Hcn, ?Hf, ?Hr, ?Hh; auto.
  - apply (ci_local _ Hi s x Hs).
  - intros H1. destruct (ci_detach _ Hi s x Hs H1); [auto|]. right. by apply Hkeep.
  - intros i Hin. left. by apply (inf_inv_pop _ _ _ (FFire s [] b) _ Ht).
  - intros H1 H2. rewrite Hcl. destruct b; [auto|]. destruct (ci_done _ Hi s x Hs H1 H2) as [?|[l ?]]; [auto|].
    right. exists l. by apply Hkeep.
  - intros i l Hne Hl. exists l. apply Hkeep; [congruence|done].
  - intros c' z q _ [?|[?|?]]; right; unfold reaches; [left; by apply Hkeep|right; left; by apply Hkeep|auto].
  - intros i k Hk. destruct (ci_hooks _ Hi i k Hk) as [? [?|?]]; (split; [done|]); auto.
Qed.

(** ** New scopes and dropped ones *)

Lemma new_inv sc th ran0 reg c par d : cinv (mkCSys sc th ran0 reg) -> sc !! c = None ->
  (forall p, par = Some p -> inf (FLink c p) th /\
    exists y, sc !! p = Some y /\ (deadline_ns y <> 0 -> d <> 0 /\ d <= deadline_ns y)%Z) ->
  cinv (mkCSys (<[c := new_cancel_state d par]> sc) th ran0 reg).
Proof.
  intros [I1 I2 I6 I3 I4 I5] Hc Hpar; simpl in *.
  assert (Hl : forall i z, sc !! i = Some z -> <[c := new_cancel_state d par]> sc !! i = Some z).
  { intros i z Hi. rewrite lookup_insert_ne; [done|congruence]. }
  assert (Hk : forall p h, carried sc th p h -> carried (<[c := new_cancel_state d par]> sc) th p h).
  { intros p h [(y & Hy & Hin)|?]; [left; eauto|by right]. }
  split; simpl.
  - intros i x [[<- <-]|[Hne Hi]]%lookup_insert_Some; [done|eauto].
  - intros i x [[<- <-]|[Hne Hi]]%lookup_insert_Some; [done|eauto].
  - intros i Hi. destruct (I6 i Hi) as (x & Hx & ?). eauto.
  - intros i x [[<- <-]|[Hne Hi]]%lookup_insert_Some; [done|eauto].
  - intros i x p [[<- <-]|[Hne Hi]]%lookup_insert_Some Hp.
    + destruct (Hpar p Hp) as (Hf & y & Hy & Hd). split; [eauto|]. right. right. by left.
    + destruct (I4 i x p Hi Hp) as [(y & Hy & Hd) Hr]. split; [eauto|].
      destruct Hr as [?|[?|[?|?]]]; unfold reaches; auto.
  - intros i k Hr. destruct (I5 i k Hr) as [[z Hz] Hor]. split; [eauto|]. destruct Hor; auto.
Qed.

Lemma drop_inv sc th ran0 reg c x : cinv (mkCSys sc th ran0 reg) -> sc !! c = Some x ->
  (forall t f, f ∈ stack_of th t -> match f with FDetach s | FFire s _ _ => s <> c | FLink a b => a <> c /\ b <> c | FCancel _ => True end) ->
  (forall d z, sc !! d = Some z -> parent z <> Some c) ->
  cinv (mkCSys (delete c (match parent x with
                          | Some p => match sc !! p with Some y => <[p := remove_hook (HChild c) y]> sc | None => sc end
                          | None => sc end)) th ran0 (filter (fun r => r.1 <> c) reg)).
Proof.
  intros [I1 I2 I6 I3 I4 I5] Hc Hfr Hnop; simpl in *. set (sc' := delete c _).
  assert (Hback : forall i z', sc' !! i = Some z' -> i <> c /\ exists z, sc !! i = Some z /\ (z' = z \/ z' = remove_hook (HChild c) z)).
  { intros i z' Hi. apply lookup_delete_Some in Hi as [Hne Hi]. split; [done|].
    destruct (parent x) as [p|]; [|eauto]. destruct (sc !! p) as [y|] eqn:Hp; [|eauto].
    apply lookup_insert_Some in Hi as [[<- <-]|[_ Hi]]; eauto. }
  assert (Hfwd : forall i z, i <> c -> sc !! i = Some z -> exists z', sc' !! i = Some z' /\ deadline_ns z' = deadline_ns z /\
    cancelled z' = cancelled z /\ forall h, h <> HChild c -> h ∈ hooks z -> h ∈ hooks z').
  { intros i z Hne Hi. unfold sc'. rewrite lookup_delete_ne by done. destruct (parent x) as [p|]; [|eauto].
    destruct (sc !! p) as [y|] eqn:Hp; [|eauto]. destruct (decide (p = i)) as [->|]; [|rewrite lookup_insert_ne by done; eauto].
    rewrite lookup_insert_eq. assert (y = z) as -> by congruence. eexists. split; [done|]. split_and!; [done|done|].
    intros h Hh. by apply erase_other. }
  assert (Hk : forall p h, p <> c -> h <> HChild c -> carried sc th p h -> carried sc' th p h).
  { intros p h Hp Hh [(y & Hy & Hin)|?]; [left|by right]. destruct (Hfwd p y Hp Hy) as (z' & Hz & _ & _ & Hin'). eauto. }
  split; simpl.
  - intros i z' (Hne & z & Hz & [-> | ->])%Hback Hf; [eauto|]. simpl in *. destruct (I1 i z Hz Hf) as [-> ?]. done.
  - intros i z' (Hne & z & Hz & [-> | ->])%Hback Hx; exact (I2 i z Hz Hx).
  - intros i Hi. destruct (I6 i Hi) as (z & Hz & Hcz). assert (Hne : i <> c) by (destruct Hi as [t Ht]; apply (Hfr t _ Ht)).
    destruct (Hfwd i z Hne Hz) as (z' & Hz' & _ & Hcz' & _). exists z'. by rewrite Hcz'.
  - intros i z' (Hne & z & Hz & [-> | ->])%Hback Hr Hf; exact (I3 i z Hz Hr Hf).
  - assert (Hpar : forall i z p, i <> c -> sc !! i = Some z -> parent z = Some p ->
      (exists y, sc' !! p = Some y /\ (deadline_ns y <> 0 -> deadline_ns z <> 0 /\ deadline_ns z <= deadline_ns y)%Z) /\
      (cancelled z = true \/ reaches sc' th i p)).
    { intros i z p Hne Hz Hp. assert (Hpc : p <> c) by (intros ->; by apply (Hnop i z Hz)).
      destruct (I4 i z p Hz Hp) as [(y & Hy & Hd) Hr]. destruct (Hfwd p y Hpc Hy) as (y' & Hy' & Hdy & _). split.
      - exists y'. by rewrite Hdy.
      - destruct Hr as [?|[?|[?|?]]]; unfold reaches; auto. right. right. right. apply Hk; [done|congruence|done]. }
    intros i z' p (Hne & z & Hz & [-> | ->])%Hback Hp; exact (Hpar i z p Hne Hz Hp).
  - intros i k [Hne Hr]%list_elem_of_filter. simpl in Hne. destruct (I5 i k Hr) as [[z Hz] Hor].
    destruct (Hfwd i z Hne Hz) as (z' & Hz' & _). split; [eauto|]. destruct Hor; [left; by apply Hk|auto].
Qed.

Lemma c_step_inv s s' : cinv s -> c_step s s' -> cinv s'.
Proof.
  intros Hi Hs.
  destruct Hs as [sc th ran reg s d Hs|sc th ran reg t c p y d Hc Hp|sc th ran reg t c p rest y ok y' Ht Hp Ha
    |sc th ran reg t s Hs|sc th ran reg t s rest Ht Hs|sc th ran reg t s rest x old x' Ht Hs He
    |sc th ran reg t s rest x l b x' Ht Hs Hd|sc th ran reg t s c l b rest Ht|sc th ran reg t s k l b rest Ht
    |sc th ran reg t s b rest x Ht Hs|sc th ran reg s x Hs|sc th ran reg s x k ok x' Hs Ha|sc th ran reg s x k Hs
    |sc th ran reg c x Hc Hf Hn].
  - apply new_inv; [done|done|]. done.
  - apply new_inv; [|done|].
    + apply stack_push_inv; [done|auto|]. intros i Hin. apply elem_of_cons in Hin as [?|?]; [done|]. by exists t.
    + intros q [= <-]. split; [apply inf_new, elem_of_cons; auto|]. exists y. split; [done|]. intros Hy.
      unfold token_deadline. rewrite decide_False by done. unfold clamp_deadline. case_decide; lia.
  - by eapply link_inv.
  - apply stack_push_inv; [done|auto|]. intros i Hin. apply elem_of_cons in Hin as [?|?]; [done|]. by exists t.
  - by eapply gone_inv.
  - by eapply exchange_inv.
  - by eapply detach_inv.
  - eapply fire_inv; [exact Hi|exact Ht|rewrite !elem_of_cons; auto|auto|done| | |done].
    + intros i Hin. rewrite !elem_of_cons in Hin. destruct Hin as [?|[?|?]]; done.
    + intros c' [= <-]. apply elem_of_cons. auto.
  - eapply fire_inv; [exact Hi|exact Ht|rewrite !elem_of_cons; auto|auto| | |done|].
    + intros z Hz. apply elem_of_cons. auto.
    + intros i Hin. apply elem_of_cons in Hin as [?|?]; done.
    + intros k' [= <-]. apply elem_of_cons. auto.
  - by eapply close_inv.
  - by apply done_inv.
  - by eapply add_hook_inv.
  - by apply remove_hook_inv.
  - by apply drop_inv.
Qed.

Lemma c_reachable_inv s : reachable c_init c_step s -> cinv s.
Proof.
  apply (reachable_invariant cinv); [|intros s1 s2 _; apply c_step_inv].
  intros s' ->. split; simpl; try (by intros i x Hi; rewrite lookup_empty in Hi);
    try (by intros i x p Hi; rewrite lookup_empty in Hi); try (by intros i k Hk; apply not_elem_of_nil in Hk).
  - intros i [t Ht]. unfold stack_of in Ht. rewrite lookup_empty in Ht. by apply not_elem_of_nil in Ht.
Qed.

(** ** Properties *)

Definition quiet (s : CSys) : Prop := forall t, stack_of (threads s) t = [].

(** [c] was made from the token of [p]. *)
Definition child_of (sc : gmap scope_id CancelState) (p c : scope_id) : Prop :=
  exists x, sc !! c = Some x /\ parent x = Some p.

Definition is_cancelled (sc : gmap scope_id CancelState) (i : scope_id) : Prop :=
  exists x, sc !! i = Some x /\ cancelled x = true.

Lemma quiet_inf s f : quiet s -> ~ inf f (threads s).
Proof. intros Hq [t Ht]. rewrite Hq in Ht. by apply not_elem_of_nil in Ht. Qed.

Lemma quiet_fired s i x : cinv s -> quiet s -> scopes s !! i = Some x -> cancelled x = true -> fired x = true /\ hooks x = [].
Proof.
  intros Hi Hq Hx Hc. destruct (ci_detach _ Hi i x Hx Hc) as [Hf|Hf]; [|by apply quiet_inf in Hf].
  split; [done|]. by apply (ci_local _ Hi i x Hx).
Qed.

Lemma quiet_carried s p y h : cinv s -> quiet s -> scopes s !! p = Some y -> cancelled y = true ->
  ~ carried (scopes s) (threads s) p h.
Proof.
  intros Hi Hq Hy Hc [(z & Hz & Hin)|(l & b & Hl & _)]; [|by apply quiet_inf in Hl].
  assert (z = y) as -> by congruence. destruct (quiet_fired s p y Hi Hq Hy Hc) as [_ E]. rewrite E in Hin.
  by apply not_elem_of_nil in Hin.
Qed.

(** C27: Cancellation reaches everything: when no thread is in the middle of
    [cancel] or of making a scope, every scope made under a cancelled one, at
    any depth and however the linking raced with the cancelling, is cancelled;
    a cancelled scope's done channel, if anybody asked for it before or after,
    is closed; and every hook that [add_hook] accepted on it has run. *)
Theorem cancel_reaches_descendants s :
  reachable c_init c_step s -> quiet s ->
  (forall a d, rtc (child_of (scopes s)) a d -> is_cancelled (scopes s) a -> is_cancelled (scopes s) d) /\
  (forall i x, scopes s !! i = Some x -> cancelled x = true ->
    fired x = true /\ hooks x = [] /\ (done_ready x = true -> done_closed x = true)) /\
  (forall i x k, (i, k) ∈ registered s -> scopes s !! i = Some x -> cancelled x = true -> k ∈ ran s).
Proof.
  intros Hi%c_reachable_inv Hq. split_and!.
  - intros a d Had. induction Had as [|p c d (x & Hx & Hp) _ IH]; [done|]. intros (y & Hy & Hc). apply IH.
    exists x. split; [done|]. destruct (ci_parent _ Hi c x p Hx Hp) as [_ [?|[Hf|[Hf|Hf]]]]; [done|..].
    + by apply quiet_inf in Hf.
    + by apply quiet_inf in Hf.
    + by apply (quiet_carried s p y) in Hf.
  - intros i x Hx Hc. destruct (quiet_fired s i x Hi Hq Hx Hc) as [Hf Hh]. split_and!; [done..|]. intros Hr.
    destruct (ci_done _ Hi i x Hx Hr Hf) as [?|[l Hl]]; [done|]. by apply quiet_inf in Hl.
  - intros i x k Hr Hx Hc. destruct (ci_hooks _ Hi i k Hr) as [_ [Hk|?]]; [|done]. by apply (quiet_carried s i x) in Hk.
Qed.

(** A scope never outlives the budget it was given: whatever deadline it
    asks for, a scope made under one with a deadline has a deadline, not after
    its ancestor's, at any depth; and [err] reports a cancellation before the
    deadline as cancelled, then as timed out once the deadline has passed. *)
Theorem scope_deadline_within_parent s :
  reachable c_init c_step s ->
  (forall a d y, rtc (child_of (scopes s)) a d -> scopes s !! a = Some y -> deadline_ns y <> 0%Z ->
    exists z, scopes s !! d = Some z /\ deadline_ns z <> 0%Z /\ (deadline_ns z <= deadline_ns y)%Z) /\
  (forall i x now, scopes s !! i = Some x -> cancelled x = true -> deadline_ns x <> 0%Z ->
    token_err now (Some x) = (if decide (now < deadline_ns x)%Z then of_errc Result.cancelled else of_errc timed_out)).
Proof.
  intros Hi%c_reachable_inv. split.
  - intros a d y Had. revert y. induction Had as [|p c d (x & Hx & Hp) _ IH]; intros y Hy Hd; [eauto with lia|].
    destruct (ci_parent _ Hi c x p Hx Hp) as [(y' & Hy' & Hle) _]. assert (y' = y) as -> by congruence.
    destruct (Hle Hd) as [Hd' Hle']. destruct (IH x Hx Hd') as (z & ? & ? & ?). exists z. split_and!; [done..|lia].
  - intros i x now _ Hc Hd. unfold token_err. rewrite Hc. simpl.
    destruct (decide (now < deadline_ns x)%Z); [rewrite decide_False by lia|rewrite decide_True by lia]; done.
Qed.

(** ** A run

    A source with a deadline, a child scope, and the cancellation of the
    source. *)

Definition ex_root : CancelState := new_cancel_state 50 None.
Definition ex_child : CancelState := new_cancel_state 50 (Some 0).

#[local] Tactic Notation "forward" hyp(R) uconstr(c) :=
  match type of R with
  | reachable ?i ?st ?s =>
      let s' := open_constr:(_) in let H := fresh in
      assert (H : st s s') by (eapply c; first [reflexivity|eexists; reflexivity]);
      apply (reachable_step i st s s' R) in H; clear R; rename H into R
  end.

Lemma ex_cancelled_reachable :
  exists s, reachable c_init c_step s /\ quiet s /\ is_cancelled (scopes s) 0 /\ child_of (scopes s) 0 1 /\
    exists y, scopes s !! 0 = Some y /\ deadline_ns y = 50%Z.
Proof.
  pose proof (reachable_init c_init c_step (mkCSys ∅ ∅ [] []) eq_refl) as R.
  forward R (c_source _ _ _ _ 0 50%Z).
  forward R (c_scope _ _ _ _ 3 1 0 ex_root 80%Z).
  forward R (c_link _ _ _ _ 3 1 0).
  forward R (c_call _ _ _ _ 9 0).
  forward R (c_exchange _ _ _ _ 9 0).
  forward R (c_detach _ _ _ _ 9 0).
  forward R (c_fire_child _ _ _ _ 9 0 1).
  forward R (c_exchange _ _ _ _ 9 1).
  forward R (c_detach _ _ _ _ 9 1).
  forward R (c_close _ _ _ _ 9 1).
  forward R (c_close _ _ _ _ 9 0).
  eexists. split; [exact R|]. split_and!; [|eexists; split; reflexivity..].
  intros t. cbn [threads]. rewrite !stack_insert. repeat (case_decide; [done|]). done.
Qed.

Lemma cancel_reaches_descendants_witness :
  exists s, is_cancelled (scopes s) 0 /\ is_cancelled (scopes s) 1.
Proof.
  destruct ex_cancelled_reachable as (s & Hr & Hq & Hc & Hp & _).
  exists s. split; [exact Hc|].
  exact (proj1 (cancel_reaches_descendants s Hr Hq) 0 1 (rtc_once _ _ Hp) Hc).
Defined.

Lemma scope_deadline_within_parent_witness :
  exists s z, scopes s !! 1 = Some z /\ deadline_ns z <> 0%Z /\ (deadline_ns z <= 50)%Z.
Proof.
  destruct ex_cancelled_reachable as (s & Hr & _ & _ & Hp & y & Hy & Hd).
  assert (Hne : deadline_ns y <> 0%Z) by (rewrite Hd; discriminate).
  destruct (proj1 (scope_deadline_within_parent s Hr) 0 1 y (rtc_once _ _ Hp) Hy Hne) as (z & Hz & Hz' & Hle).
  exists s, z. rewrite Hd in Hle. exact (conj Hz (conj Hz' Hle)).
Defined.
