(* ===== verification/Sched.v ===== *)
(** * The scheduler's state and its atomic accesses (include/cio/detail/scheduler.hpp)

    The workers with their slots and queues, the shared queue, the two worker
    bitmaps, and every atomic access of the scheduler's operations as an event.
    The operations (file SchedOps) are programs over these events; a program
    runs one event at a time, so the operations of all threads interleave. *)

From S2P Require Import Prelude.
From S2P Require RunQueue GlobalQueue Bitmap.
Export RunQueue (item, LocalRunQueue, kLocalQueueCapacity).
Export GlobalQueue (GlobalRunQueue).
Export Bitmap (Bitmap, worker_id).

Set Default Proof Using "Type".

(** ** State *)

(** What a worker thread keeps for itself; [budget] is the thread's
    [t_cooperative_io_budget]. *)
Record Own := mkOwn {
  tick : Z;
  fair_cursor : Z;
  rng : Z;
  has_published_stealable : bool;
  next_publish_epoch : Z;
  seen_clear_epoch : Z;
  local_grace : bool;
  budget : Z
}.

(** What peers read beside a worker's queues. *)
Record Hints := mkHints {
  own : Own;
  searcher_credit : bool;
  publish_epoch : Z;
  clear_epoch : Z
}.

(** A worker's runnable frames. An inbox entry is reserved first and visible
    once it is published; [wake_token] is the reactor's pending wake. *)
Record Worker := mkWorker {
  runnext : option item;
  queue : LocalRunQueue;
  inbox : list (item * bool);
  wake_token : bool
}.

(** [suspended] are the frames that wait outside the scheduler. *)
Record Scheduler := mkSched {
  workers : list Worker;
  hints : list Hints;
  global : GlobalRunQueue;
  idle_workers : Bitmap;
  stealable_workers : Bitmap;
  placement_next : Z;
  wake_cursor : Z;
  stop : bool;
  suspended : list item
}.

Definition kRemoteInboxCapacity : nat := 256.

Definition new_own (i : nat) : Own :=
  mkOwn 0 0 (Z.lxor 0x9E3779B97F4A7C15 (u64 (u32 (Z.of_nat i + 1) * 0xBF58476D1CE4E5B9))) false 0 0 false 0.
Definition new_worker : Worker := mkWorker None RunQueue.fresh_local [] false.
Definition new_scheduler (worker_count : nat) (frames : list item) : Scheduler :=
  mkSched (replicate worker_count new_worker)
    (map (fun i => mkHints (new_own i) false 0 0) (seq 0 worker_count))
    GlobalQueue.new_global (Bitmap.new_bitmap worker_count) (Bitmap.new_bitmap worker_count) 0 0 false frames.

(** ** Changes of one part *)

Definition set_workers (ws : list Worker) (s : Scheduler) : Scheduler :=
  mkSched ws (hints s) (global s) (idle_workers s) (stealable_workers s) (placement_next s) (wake_cursor s) (stop s) (suspended s).
Definition set_hints (hs : list Hints) (s : Scheduler) : Scheduler :=
  mkSched (workers s) hs (global s) (idle_workers s) (stealable_workers s) (placement_next s) (wake_cursor s) (stop s) (suspended s).
Definition set_global (g : GlobalRunQueue) (s : Scheduler) : Scheduler :=
  mkSched (workers s) (hints s) g (idle_workers s) (stealable_workers s) (placement_next s) (wake_cursor s) (stop s) (suspended s).
Definition set_idle (b : Bitmap) (s : Scheduler) : Scheduler :=
  mkSched (workers s) (hints s) (global s) b (stealable_workers s) (placement_next s) (wake_cursor s) (stop s) (suspended s).
Definition set_stealable (b : Bitmap) (s : Scheduler) : Scheduler :=
  mkSched (workers s) (hints s) (global s) (idle_workers s) b (placement_next s) (wake_cursor s) (stop s) (suspended s).
Definition set_cursors (p w : Z) (s : Scheduler) : Scheduler :=
  mkSched (workers s) (hints s) (global s) (idle_workers s) (stealable_workers s) p w (stop s) (suspended s).
Definition set_suspended (l : list item) (s : Scheduler) : Scheduler :=
  mkSched (workers s) (hints s) (global s) (idle_workers s) (stealable_workers s) (placement_next s) (wake_cursor s) (stop s) l.
Definition set_stop (s : Scheduler) : Scheduler :=
  mkSched (workers s) (hints s) (global s) (idle_workers s) (stealable_workers s) (placement_next s) (wake_cursor s) true (suspended s).

Definition set_runnext (v : option item) (w : Worker) : Worker := mkWorker v (queue w) (inbox w) (wake_token w).
Definition set_queue (q : LocalRunQueue) (w : Worker) : Worker := mkWorker (runnext w) q (inbox w) (wake_token w).
Definition set_inbox (l : list (item * bool)) (w : Worker) : Worker := mkWorker (runnext w) (queue w) l (wake_token w).
Definition set_token (b : bool) (w : Worker) : Worker := mkWorker (runnext w) (queue w) (inbox w) b.

Definition set_own (o : Own) (h : Hints) : Hints := mkHints o (searcher_credit h) (publish_epoch h) (clear_epoch h).
Definition set_credit (b : bool) (h : Hints) : Hints := mkHints (own h) b (publish_epoch h) (clear_epoch h).
Definition set_publish (v : Z) (h : Hints) : Hints := mkHints (own h) (searcher_credit h) v (clear_epoch h).
Definition set_clear (v : Z) (h : Hints) : Hints := mkHints (own h) (searcher_credit h) (publish_epoch h) v.

(** ** Events *)

(** What a poll or a timer pass made runnable: frames with the worker their
    waiters prefer. *)
Abbreviation completions := (list (item * option worker_id)).
Abbreviation batches := (list (list item * option worker_id)).

(** An access of one shared location, or of the worker's own fields, indexed by
    the type of its answer. [me] is the worker that makes it. *)
Inductive Event : Type -> Type :=
  | EOwn (me : worker_id) (f : Own -> Own) : Event Own
  (* the worker's slot and queues *)
  | ERunnextLoad (me : worker_id) : Event (option item)
  | ERunnextStore (me : worker_id) (v : option item) : Event unit
  | EPush (me : worker_id) (x : item) : Event bool
  | EPop (me : worker_id) : Event (option item)
  | EPopHalf (me : worker_id) : Event (list item)
  | EGrab (victim : worker_id) (max : Z) : Event (list item)
  | ENonempty (w : worker_id) : Event bool
  | EInboxReserve (w : worker_id) (x : item) : Event bool
  | EInboxPublish (w : worker_id) (x : item) : Event unit
  | EInboxPop (me : worker_id) : Event (option item)
  | EInboxEmpty (me : worker_id) : Event bool
  (* the global queue *)
  | EGlobalEnqueue (xs : list item) : Event unit
  | EGlobalCount (n : nat) : Event unit
  | EGlobalEmpty : Event bool
  | EGlobalPop : Event (option item)
  | EGlobalPopBatch (max share : Z) : Event (list item)
  (* the bitmaps *)
  | EIdleSet (me : worker_id) : Event bool
  | EIdleClear (w : worker_id) : Event bool
  | EIdleClaim (start : worker_id) : Event (option worker_id)
  | EIdleFind (start : worker_id) : Event (option worker_id)
  | EIdleAny : Event bool
  | EStealTest (w : worker_id) : Event bool
  | EStealSet (w : worker_id) : Event bool
  | EStealClear (w : worker_id) : Event bool
  | EStealAny : Event bool
  | EStealFind (start : worker_id) : Event (option worker_id)
  (* the publication handshake and the search credit *)
  | EPublishStore (me : worker_id) (v : Z) : Event unit
  | EPublishLoad (w : worker_id) : Event Z
  | EClearLoad (me : worker_id) : Event Z
  | EClearBump (w : worker_id) : Event Z
  | ECreditStore (w : worker_id) : Event unit
  | ECreditLoad (me : worker_id) : Event bool
  | ECreditExchange (me : worker_id) : Event bool
  (* counters and flags *)
  | EWakeCursor : Event Z
  | EPlacement : Event Z
  | EStopping : Event bool
  (* the reactor and the timers *)
  | EToken (w : worker_id) : Event unit
  | ERegistered (w : worker_id) : Event bool
  | ETicket (w : worker_id) : Event bool
  | EPoll (w : worker_id) : Event (option completions)
  | EWait (me : worker_id) : Event (option completions)
  | EDue (w : worker_id) : Event bool
  | EFire (w : worker_id) : Event (nat * batches)
  (* a dispatch after shutdown leaves its frame suspended *)
  | EAbandon (x : item) : Event unit.

(** What the outside decides: a flag, a number, completions and fired timers. *)
Record Input := mkInput { in_flag : bool; in_count : nat; in_ready : completions; in_fired : batches }.

(** ** The effect of an event *)

Definition at_worker {R} (w : worker_id) (f : Worker -> option (R * Worker)) (s : Scheduler) : option (R * Scheduler) :=
  x ← workers s !! w; r ← f x; Some (r.1, set_workers (<[w := r.2]> (workers s)) s).
Definition at_hints {R} (w : worker_id) (f : Hints -> R * Hints) (s : Scheduler) : option (R * Scheduler) :=
  x ← hints s !! w; Some ((f x).1, set_hints (<[w := (f x).2]> (hints s)) s).
Definition at_idle {R} (r : option (R * Bitmap)) (s : Scheduler) : option (R * Scheduler) :=
  x ← r; Some (x.1, set_idle x.2 s).
Definition at_stealable {R} (r : option (R * Bitmap)) (s : Scheduler) : option (R * Scheduler) :=
  x ← r; Some (x.1, set_stealable x.2 s).
Definition look {R} (r : option R) (s : Scheduler) : option (R * Scheduler) := x ← r; Some (x, s).

(** Removes frames from a list; undefined when one is missing. *)
Fixpoint remove_one (x : item) (l : list item) : option (list item) :=
  match l with
  | [] => None
  | y :: l => if decide (y = x) then Some l else l' ← remove_one x l; Some (y :: l')
  end.
Fixpoint remove_all (xs l : list item) : option (list item) :=
  match xs with
  | [] => Some l
  | x :: xs => l' ← remove_one x l; remove_all xs l'
  end.

(** Suspended frames become runnable in the hands of the thread. *)
Definition take_suspended (xs : list item) (s : Scheduler) : option Scheduler :=
  l ← remove_all xs (suspended s); Some (set_suspended l s).

Definition publish_entry (x : item) (l : list (item * bool)) : list (item * bool) :=
  map (fun e => if decide (e.1 = x) then (x, true) else e) l.

Definition pop_inbox (l : list (item * bool)) : option item * list (item * bool) :=
  match l with (x, true) :: l => (Some x, l) | _ => (None, l) end.
Definition empty_inbox (l : list (item * bool)) : bool :=
  match l with (_, true) :: _ => false | _ => true end.

Definition ready_frames (cs : completions) : list item := map fst cs.
Definition fired_frames (bs : batches) : list item := concat (map fst bs).

Definition local_push (x : item) (w : Worker) : option (bool * Worker) :=
  let r := RunQueue.local_push x 0 (queue w) in Some (r.1.1, set_queue r.2 w).
Definition local_take (turn : LocalRunQueue -> option (RunQueue.Plan * list item * LocalRunQueue)) (w : Worker)
    : option (list item * Worker) :=
  r ← turn (queue w); Some (r.1.2, set_queue r.2 w).
Definition local_nonempty (i : Input) (w : Worker) : bool := in_flag i || negb (RunQueue.local_empty (queue w)).

Definition reserve_inbox (x : item) (w : Worker) : bool * Worker :=
  if decide (length (inbox w) < kRemoteInboxCapacity) then (true, set_inbox (inbox w ++ [(x, false)]) w) else (false, w).

(** A poll by the shard's owner takes the wake token; [None] is a poll that
    found another thread polling. *)
Definition poll_result (i : Input) (s : Scheduler) : option (option completions * Scheduler) :=
  if in_flag i then Some (None, s)
  else s ← take_suspended (ready_frames (in_ready i)) s; Some (Some (in_ready i), s).

(** A blocking poll returns when the token is there, when something became
    ready, at its timeout ([in_count]) or when another thread polls. *)
Definition wait_returns (i : Input) (w : Worker) : bool :=
  wake_token w || bool_decide (in_ready i <> []) || bool_decide (in_count i <> 0) || in_flag i.

(** [self] is the worker whose thread makes the access, if it is one. *)
Definition exec {R} (i : Input) (self : option worker_id) (e : Event R) (s : Scheduler) : option (R * Scheduler) :=
  match e in Event R return option (R * Scheduler) with
  | EOwn me f => at_hints me (fun h => (own h, set_own (f (own h)) h)) s
  | ERunnextLoad me => look (runnext <$> workers s !! me) s
  | ERunnextStore me v => at_worker me (fun w => Some (tt, set_runnext v w)) s
  | EPush me x => at_worker me (local_push x) s
  | EPop me => at_worker me (fun w => r ← local_take RunQueue.local_pop w; Some (head r.1, r.2)) s
  | EPopHalf me => at_worker me (local_take RunQueue.local_pop_half) s
  | EGrab v max => at_worker v (local_take (RunQueue.local_grab max)) s
  | ENonempty w => look (local_nonempty i <$> workers s !! w) s
  | EInboxReserve w x => at_worker w (fun w => Some (reserve_inbox x w)) s
  | EInboxPublish w x => at_worker w (fun w => Some (tt, set_inbox (publish_entry x (inbox w)) w)) s
  | EInboxPop me => at_worker me (fun w => let r := pop_inbox (inbox w) in Some (r.1, set_inbox r.2 w)) s
  | EInboxEmpty me => look ((fun w => empty_inbox (inbox w)) <$> workers s !! me) s
  | EGlobalEnqueue xs => Some (tt, set_global (GlobalQueue.g_enqueue xs (global s)) s)
  | EGlobalCount n => Some (tt, set_global (GlobalQueue.g_count (Z.of_nat n) (global s)) s)
  | EGlobalEmpty => Some (GlobalQueue.g_empty (global s), s)
  | EGlobalPop => let r := GlobalQueue.g_pop_locked (global s) in Some (r.1, set_global r.2 s)
  | EGlobalPopBatch max share =>
      let r := GlobalQueue.g_pop_batch_locked max share (global s) in Some (r.1, set_global r.2 s)
  | EIdleSet me => at_idle (Bitmap.bm_set me (idle_workers s)) s
  | EIdleClear w => at_idle (Bitmap.bm_clear w (idle_workers s)) s
  | EIdleClaim start => at_idle (Bitmap.claim_from start (idle_workers s)) s
  | EIdleFind start => look (Bitmap.find_from start (idle_workers s)) s
  | EIdleAny => Some (Bitmap.bm_any (idle_workers s), s)
  | EStealTest w => look (Bitmap.bm_test w (stealable_workers s)) s
  | EStealSet w => at_stealable (Bitmap.bm_set w (stealable_workers s)) s
  | EStealClear w => at_stealable (Bitmap.bm_clear w (stealable_workers s)) s
  | EStealAny => Some (Bitmap.bm_any (stealable_workers s), s)
  | EStealFind start => look (Bitmap.find_from start (stealable_workers s)) s
  | EPublishStore me v => at_hints me (fun h => (tt, set_publish v h)) s
  | EPublishLoad w => at_hints w (fun h => (publish_epoch h, h)) s
  | EClearLoad me => at_hints me (fun h => (clear_epoch h, h)) s
  | EClearBump w => at_hints w (fun h => (clear_epoch h, set_clear (u64 (clear_epoch h + 1)) h)) s
  | ECreditStore w => at_hints w (fun h => (tt, set_credit true h)) s
  | ECreditLoad me => at_hints me (fun h => (searcher_credit h, h)) s
  | ECreditExchange me => at_hints me (fun h => (searcher_credit h, set_credit false h)) s
  | EWakeCursor => Some (wake_cursor s, set_cursors (placement_next s) (u32 (wake_cursor s + 1)) s)
  | EPlacement => Some (placement_next s, set_cursors (u32 (placement_next s + 1)) (wake_cursor s) s)
  | EStopping => Some (stop s, s)
  | EToken w => at_worker w (fun w => Some (tt, set_token true w)) s
  | ERegistered _ | ETicket _ | EDue _ => Some (in_flag i, s)
  | EPoll w =>
      r ← at_worker w (fun x => Some (tt, if decide (self = Some w /\ in_flag i = false) then set_token false x else x)) s;
      poll_result i r.2
  | EWait me =>
      r ← at_worker me (fun w => if wait_returns i w then Some (tt, if in_flag i then w else set_token false w) else None) s;
      poll_result i r.2
  | EFire w => s ← take_suspended (fired_frames (in_fired i)) s; Some ((in_count i, in_fired i), s)
  | EAbandon x => Some (tt, set_suspended (x :: suspended s) s)
  end.

(** ** Programs *)

(** A program makes an access and goes on with its answer. *)
Inductive Prog (A : Type) : Type :=
  | Ret (a : A)
  | Vis {R : Type} (e : Event R) (k : R -> Prog A).
Arguments Ret {A} a.
Arguments Vis {A R} e k.

Definition vis {R} (e : Event R) : Prog R := Vis e Ret.

Fixpoint prog_bind {A B} (f : A -> Prog B) (p : Prog A) : Prog B :=
  match p with
  | Ret a => f a
  | Vis e k => Vis e (fun r => prog_bind f (k r))
  end.

#[global] Instance Prog_ret : MRet Prog := @Ret.
#[global] Instance Prog_bind : MBind Prog := @prog_bind.

(** Runs a program alone, with the outside's answers to its accesses. *)
Fixpoint run {A} (self : option worker_id) (inputs : list Input) (p : Prog A) (s : Scheduler) : option (A * Scheduler) :=
  match p with
  | Ret a => Some (a, s)
  | Vis e k =>
      let i := default (mkInput false 0 [] []) (head inputs) in
      r ← exec i self e s; run self (tail inputs) (k r.1) r.2
  end.
