(* ===== verification/SchedOps.v ===== *)
(** * The scheduler's operations (src/scheduler.cpp)

    Every operation is a program over the accesses of file Sched, in the order
    the code makes them. [self] is the worker of the calling thread ([t_worker]),
    [me] a worker that calls its own operations, [count] the number of
    workers. *)

From S2P Require Import Prelude Sched.

Set Default Proof Using "Type".

Definition kInboxDrainBatch : nat := 32.
Definition kLocalServiceInterval : Z := 32.
Definition kGlobalQueueInterval : Z := 61.
Definition kCooperativeIoBudget : Z := 128.

Inductive IoCompletionRoute := kRunnext | kLocalFifo | kSharedFallback.

Definition set_tick (v : Z) (o : Own) : Own :=
  mkOwn v (fair_cursor o) (rng o) (has_published_stealable o) (next_publish_epoch o) (seen_clear_epoch o) (local_grace o) (budget o).
Definition set_fair_cursor (v : Z) (o : Own) : Own :=
  mkOwn (tick o) v (rng o) (has_published_stealable o) (next_publish_epoch o) (seen_clear_epoch o) (local_grace o) (budget o).
Definition set_rng (v : Z) (o : Own) : Own :=
  mkOwn (tick o) (fair_cursor o) v (has_published_stealable o) (next_publish_epoch o) (seen_clear_epoch o) (local_grace o) (budget o).
Definition set_published (b : bool) (o : Own) : Own :=
  mkOwn (tick o) (fair_cursor o) (rng o) b (next_publish_epoch o) (seen_clear_epoch o) (local_grace o) (budget o).
Definition next_epoch (o : Own) : Own :=
  mkOwn (tick o) (fair_cursor o) (rng o) true (u64 (next_publish_epoch o + 1)) (seen_clear_epoch o) (local_grace o) (budget o).
Definition set_seen (v : Z) (o : Own) : Own :=
  mkOwn (tick o) (fair_cursor o) (rng o) (has_published_stealable o) (next_publish_epoch o) v (local_grace o) (budget o).
Definition set_grace (b : bool) (o : Own) : Own :=
  mkOwn (tick o) (fair_cursor o) (rng o) (has_published_stealable o) (next_publish_epoch o) (seen_clear_epoch o) b (budget o).
Definition set_budget (v : Z) (o : Own) : Own :=
  mkOwn (tick o) (fair_cursor o) (rng o) (has_published_stealable o) (next_publish_epoch o) (seen_clear_epoch o) (local_grace o) v.

(** [if (void* item = p) return item;], then [q]. *)
Definition or_else (p q : Prog (option item)) : Prog (option item) :=
  r ← p; match r with Some x => mret (Some x) | None => q end.

Definition when (b : bool) (p : Prog unit) : Prog unit := if b then p else mret tt.

(** Drops an answer. *)
Definition void {A} (p : Prog A) : Prog unit := _ ← p; mret tt.

(** ** The random start of a steal *)

Definition xorshift (r : Z) : Z :=
  let r := Z.lxor r (u64 (Z.shiftl r 13)) in
  let r := Z.lxor r (Z.shiftr r 7) in
  Z.lxor r (u64 (Z.shiftl r 17)).

Definition rand_up_to (me : worker_id) (n : Z) : Prog Z :=
  o ← vis (EOwn me (fun o => set_rng (xorshift (rng o)) o));
  mret (if decide (n = 0)%Z then 0%Z else Z.shiftr (Z.shiftr (xorshift (rng o)) 32 * n) 32).

Section ops.
Context (count : nat).

(** [valid_worker_id]. *)
Definition valid_worker (w : option worker_id) : option worker_id :=
  match w with Some w => if decide (w < count) then Some w else None | None => None end.

Definition choose_worker : Prog worker_id :=
  if decide (count <= 1) then mret 0
  else v ← vis EPlacement; mret (Z.to_nat (v mod Z.of_nat count)).

(** ** The global queue *)

Definition global_push (xs : list item) : Prog unit :=
  if decide (xs = []) then mret tt else vis (EGlobalEnqueue xs);; vis (EGlobalCount (length xs)).

Definition global_pop : Prog (option item) :=
  empty ← vis EGlobalEmpty; if (empty : bool) then mret None else vis EGlobalPop.

Definition global_pop_batch (max share : Z) : Prog (list item) :=
  empty ← vis EGlobalEmpty; if (empty : bool) then mret [] else vis (EGlobalPopBatch max share).

(** ** Waking *)

Definition wake_worker (w : worker_id) : Prog unit :=
  if decide (w < count) then b ← vis (EIdleClear w); when b (vis (EToken w)) else mret tt.

Definition wake_one_idle (start : nat) : Prog bool :=
  if decide (count = 0) then mret false
  else
    r ← vis (EIdleClaim (Init.Nat.modulo start count));
    match r with Some w => vis (EToken w);; mret true | None => mret false end.

Fixpoint searcher_loop (tries start : nat) : Prog bool :=
  match tries with
  | O => mret false
  | S tries =>
      r ← vis (EIdleFind start);
      match r with
      | None => mret false
      | Some w =>
          vis (ECreditStore w);;
          b ← vis (EIdleClear w);
          if (b : bool) then vis (EToken w);; mret true
          else searcher_loop tries (Init.Nat.modulo (w + 1) count)
      end
  end.

Definition wake_one_searcher (start : nat) : Prog bool :=
  if decide (count = 0) then mret false else searcher_loop count (Init.Nat.modulo start count).

Fixpoint wake_searchers (n : nat) : Prog unit :=
  match n with
  | O => mret tt
  | S n => start ← vis EWakeCursor; b ← wake_one_searcher (Z.to_nat start);
           if (b : bool) then wake_searchers n else mret tt
  end.

Definition notify : Prog unit := start ← vis EWakeCursor; void (wake_one_idle (Z.to_nat start)).

Fixpoint notify_batch (n : nat) : Prog unit :=
  match n with
  | O => mret tt
  | S n => start ← vis EWakeCursor; b ← wake_one_idle (Z.to_nat start);
           if (b : bool) then notify_batch n else mret tt
  end.

(** ** Publication of a worker's FIFO *)

Definition publish_stealable (me : worker_id) (wake_count : nat) : Prog unit :=
  if decide (count <= 1) then mret tt
  else
    o ← vis (EOwn me next_epoch);
    vis (EPublishStore me (u64 (next_publish_epoch o + 1)));;
    clear ← vis (EClearLoad me);
    became ← (if negb (has_published_stealable o) || bool_decide (clear <> seen_clear_epoch o)
              then vis (EOwn me (set_seen clear));; vis (EStealSet me) else mret false);
    if negb became && bool_decide (wake_count <= 1) then mret tt else wake_searchers wake_count.

(** [Scheduler::repair_stealable] of worker [w], by any thread. *)
Definition repair_stealable (w : worker_id) : Prog bool :=
  set ← vis (EStealTest w);
  if negb set then mret false
  else
    nonempty ← vis (ENonempty w);
    if (nonempty : bool) then mret true
    else
      cleared ← vis (EStealClear w);
      if negb cleared then mret false
      else
        vis (EClearBump w);;
        vis (EPublishLoad w);;
        nonempty ← vis (ENonempty w);
        if (nonempty : bool) then vis (EStealSet w);; wake_one_searcher (w + 1);; mret true else mret false.

(** [Worker::repair_stealable]. *)
Definition repair_own (me : worker_id) : Prog unit :=
  o ← vis (EOwn me id);
  if negb (has_published_stealable o) then mret tt
  else b ← repair_stealable me; void (vis (EOwn me (set_published b))).

(** ** The worker's queues *)

Definition push_overflow (me : worker_id) (x : item) : Prog unit :=
  batch ← vis (EPopHalf me);
  global_push (batch ++ [x]);;
  nonempty ← vis (ENonempty me);
  when nonempty (publish_stealable me 1);;
  void (wake_one_idle (me + 1)).

Definition push (me : worker_id) (x : item) (publish : bool) : Prog bool :=
  ok ← vis (EPush me x);
  if (ok : bool) then when publish (publish_stealable me 1);; mret true
  else push_overflow me x;; mret false.

(** Pushes without publishing; how many the ring kept. *)
Fixpoint push_all (me : worker_id) (xs : list item) : Prog nat :=
  match xs with
  | [] => mret 0
  | x :: xs => ok ← push me x false; n ← push_all me xs; mret (if (ok : bool) then S n else n)
  end.

Definition publish_retained (me : worker_id) (n : nat) : Prog unit :=
  when (bool_decide (0 < n)) (publish_stealable me n).

Definition push_next (me : worker_id) (x : item) : Prog unit :=
  previous ← vis (ERunnextLoad me);
  vis (ERunnextStore me (Some x));;
  match previous with Some y => void (push me y false) | None => mret tt end.

Fixpoint drain_loop (fuel : nat) (me : worker_id) : Prog nat :=
  match fuel with
  | O => mret 0
  | S fuel =>
      frame ← vis (EInboxPop me);
      match frame with
      | None => mret 0
      | Some x => ok ← push me x false; n ← drain_loop fuel me; mret (if (ok : bool) then S n else n)
      end
  end.

Definition drain_inbox (me : worker_id) : Prog (option item) :=
  first ← vis (EInboxPop me);
  match first with
  | None => mret None
  | Some x => n ← drain_loop (kInboxDrainBatch - 1) me; publish_retained me n;; mret (Some x)
  end.

(** [queue_.pop()] with the repair that follows it. *)
Definition pop_local (me : worker_id) : Prog (option item) :=
  r ← vis (EPop me);
  match r with Some x => repair_own me;; mret (Some x) | None => mret None end.

Definition take_local (me : worker_id) : Prog (option item) :=
  r ← vis (ERunnextLoad me);
  match r with
  | Some x => vis (ERunnextStore me None);; mret (Some x)
  | None => pop_local me
  end.

Definition stage_fairness_item (me : worker_id) (x : item) : Prog unit :=
  displaced ← vis (ERunnextLoad me);
  vis (ERunnextStore me (Some x));;
  match displaced with
  | Some y => void (push me y true)
  | None => nonempty ← vis (ENonempty me); when nonempty (publish_stealable me 1)
  end.

(** ** Submissions *)

Definition enqueue_remote (target : option worker_id) (x : item) (wake : bool) : Prog unit :=
  target ← (match valid_worker target with Some w => mret w | None => choose_worker end);
  ok ← vis (EInboxReserve target x);
  if (ok : bool) then vis (EInboxPublish target x);; when wake (wake_worker target)
  else global_push [x];; void (wake_one_idle (target + 1)).

Definition schedule_completion_fallback (x : item) (preferred : option worker_id) : Prog unit :=
  preferred ← (match valid_worker preferred with Some w => mret w | None => choose_worker end);
  global_push [x];;
  void (wake_one_idle preferred).

Definition schedule_frame (self : option worker_id) (x : item) : Prog unit :=
  match self with
  | Some me => void (push me x true)
  | None => schedule_completion_fallback x None
  end.

Definition schedule_to_frame (self : option worker_id) (x : item) (target : option worker_id) : Prog unit :=
  match valid_worker target, self with
  | None, _ => schedule_frame self x
  | Some w, Some me => if decide (w = me) then void (push me x true) else enqueue_remote (Some w) x true
  | Some w, None => enqueue_remote (Some w) x true
  end.

(** A completion on one of the scheduler's own workers. *)
Definition place_completion (me : worker_id) (x : item) : Prog IoCompletionRoute :=
  r ← vis (ERunnextLoad me);
  match r with
  | None => vis (ERunnextStore me (Some x));; mret kRunnext
  | Some _ => ok ← push me x false; mret (if (ok : bool) then kLocalFifo else kSharedFallback)
  end.

Definition schedule_io_completion (self : option worker_id) (x : item) (preferred : option worker_id)
    : Prog IoCompletionRoute :=
  match self with
  | Some me => place_completion me x
  | None => schedule_completion_fallback x preferred;; mret kSharedFallback
  end.

Definition schedule_completion_wake (self : option worker_id) (x : item) (preferred : option worker_id) : Prog unit :=
  match self with
  | Some me =>
      if decide (valid_worker preferred = None \/ preferred = Some me) then void (push me x true)
      else schedule_completion_fallback x preferred
  | None => schedule_completion_fallback x preferred
  end.

Definition finish_io_batch (self : option worker_id) (unpublished : nat) : Prog unit :=
  match self with
  | Some me =>
      if decide (unpublished = 0) then mret tt
      else nonempty ← vis (ENonempty me); when nonempty (publish_stealable me unpublished)
  | None => mret tt
  end.

Definition reschedule_self (self : option worker_id) (x : item) : Prog unit :=
  match self with
  | Some me => void (push me x false)
  | None => schedule_frame None x
  end.

Definition schedule_next_frame (self : option worker_id) (x : item) : Prog unit :=
  match self with
  | Some me => push_next me x
  | None => schedule_completion_fallback x None
  end.

Definition schedule_batch_to (self : option worker_id) (xs : list item) (target : option worker_id) : Prog unit :=
  match xs with
  | [] => mret tt
  | x :: rest =>
      target ← (match valid_worker target with Some w => mret w | None => choose_worker end);
      if decide (self = Some target) then
        r ← vis (ERunnextLoad target);
        n ← (match r with
             | None => vis (ERunnextStore target (Some x));; push_all target rest
             | Some _ => push_all target xs
             end);
        publish_retained target n
      else
        global_push xs;;
        let wake_count := min (length xs) count in
        if decide (0 < wake_count) then
          b ← wake_one_idle target; when b (notify_batch (wake_count - 1))
        else mret tt
  end.

Definition schedule_batch (self : option worker_id) (xs : list item) : Prog unit :=
  if decide (xs = []) then mret tt
  else match self with
       | Some me => n ← push_all me xs; publish_retained me n
       | None => schedule_batch_to None xs None
       end.

(** The dispatch functions of [SchedulerTarget]: the caller's own scheduler, or
    the leased one while it has not stopped. *)
Definition leased (x : item) (p : Prog unit) : Prog unit :=
  stopping ← vis EStopping; if (stopping : bool) then vis (EAbandon x) else p.

Definition dispatch (self : option worker_id) (x : item) (preferred : option worker_id) : Prog unit :=
  match self with
  | Some me => void (push me x true)
  | None => leased x (schedule_completion_wake None x preferred)
  end.

Definition dispatch_next (self : option worker_id) (x : item) : Prog unit :=
  match self with
  | Some me => push_next me x
  | None => leased x (schedule_next_frame None x)
  end.

Definition dispatch_completion (self : option worker_id) (x : item) (preferred : option worker_id) : Prog unit :=
  match self with
  | Some me =>
      if decide (valid_worker preferred = None \/ preferred = Some me) then void (push me x true)
      else schedule_completion_fallback x preferred
  | None => leased x (schedule_completion_wake None x preferred)
  end.

Definition dispatch_io (self : option worker_id) (x : item) (preferred : option worker_id) : Prog (option IoCompletionRoute) :=
  match self with
  | Some me => r ← place_completion me x; mret (Some r)
  | None =>
      stopping ← vis EStopping;
      if (stopping : bool) then vis (EAbandon x);; mret None
      else r ← schedule_io_completion None x preferred; mret (Some r)
  end.

(** ** Polling and timers *)

Definition poller_returned (self : option worker_id) (shard : worker_id) : Prog unit :=
  if decide (self = Some shard) then void (vis (EIdleClear shard)) else mret tt.

(** Dispatches a batch; how many frames wait unpublished in the local FIFO. *)
Fixpoint dispatch_ready (self : option worker_id) (cs : completions) : Prog nat :=
  match cs with
  | [] => mret 0
  | (x, preferred) :: cs =>
      r ← dispatch_io self x preferred;
      n ← dispatch_ready self cs;
      mret (match r with Some kLocalFifo => S n | _ => n end)
  end.

(** What [Reactor::poll] does once its wait returned. *)
Definition after_wait (self : option worker_id) (shard : worker_id) (r : option completions) : Prog unit :=
  match r with
  | None => mret tt
  | Some cs =>
      poller_returned self shard;;
      n ← dispatch_ready self cs;
      when (bool_decide (n <> 0)) (finish_io_batch self n)
  end.

Definition reactor_poll (self : option worker_id) (shard : worker_id) : Prog unit :=
  r ← vis (EPoll shard); after_wait self shard r.

Definition reactor_wait (me : worker_id) : Prog unit :=
  r ← vis (EWait me); after_wait (Some me) me r.

Fixpoint schedule_fired (self : option worker_id) (bs : batches) : Prog unit :=
  match bs with
  | [] => mret tt
  | (xs, target) :: bs => schedule_batch_to self xs target;; schedule_fired self bs
  end.

Definition run_expired (self : option worker_id) (w : worker_id) : Prog nat :=
  r ← vis (EFire w); schedule_fired self r.2;; mret r.1.

(** ** Selecting work *)

Definition service_fairness (me : worker_id) : Prog (option item) :=
  inbox_item ← drain_inbox me;
  (match inbox_item with Some x => stage_fairness_item me x | None => mret tt end);;
  protect ← (match inbox_item with
             | Some _ => mret false
             | None => r ← vis (ERunnextLoad me);
                       match r with Some _ => mret false | None => vis (ENonempty me) end
             end);
  registered ← vis (ERegistered me);
  when registered (reactor_poll (Some me) me);;
  due ← vis (EDue me);
  when due (void (run_expired (Some me) me));;
  (if (protect : bool) then
     r ← vis (ERunnextLoad me);
     match r with Some _ => publish_stealable me 1 | None => mret tt end
   else mret tt);;
  take_local me.

Fixpoint fairness_sources (sources : list Z) (me : worker_id) : Prog (option item) :=
  match sources with
  | [] => o ← vis (EOwn me (fun o => set_fair_cursor ((fair_cursor o + 1) mod 2) o)); mret None
  | source :: sources =>
      r ← (if decide (source = 0)%Z then global_pop else pop_local me);
      match r with
      | Some x =>
          vis (EOwn me (set_fair_cursor ((source + 1) mod 2)));;
          stage_fairness_item me x;;
          take_local me
      | None => fairness_sources sources me
      end
  end.

Definition service_global_fairness (me : worker_id) : Prog (option item) :=
  o ← vis (EOwn me id);
  fairness_sources [(fair_cursor o mod 2)%Z; ((fair_cursor o + 1) mod 2)%Z] me.

Definition next_local (me : worker_id) : Prog (option item) :=
  o ← vis (EOwn me (fun o => set_tick (u32 (tick o + 1)) o));
  let tick := u32 (tick o + 1) in
  or_else (if decide (tick mod kLocalServiceInterval = 0)%Z
           then vis (ETicket me);; service_fairness me else mret None)
 (or_else (if decide (tick mod kGlobalQueueInterval = 0)%Z
           then service_global_fairness me else mret None)
  (take_local me)).

Definition find_other (me : worker_id) (from : nat) : Prog (option worker_id) :=
  candidate ← vis (EStealFind from);
  if decide (candidate <> Some me) then mret candidate
  else
    candidate ← vis (EStealFind (me + 1));
    mret (if decide (candidate = Some me) then None else candidate).

Fixpoint steal_loop (attempts : nat) (me : worker_id) (start : nat) : Prog (option item) :=
  match attempts with
  | O => mret None
  | S attempts =>
      victim ← find_other me start;
      match victim with
      | None => mret None
      | Some v =>
          batch ← vis (EGrab v (kLocalQueueCapacity / 2));
          still ← repair_stealable v;
          match batch with
          | [] => steal_loop attempts me (v + 1)
          | x :: rest =>
              n ← push_all me rest;
              publish_retained me n;;
              when still (void (wake_one_searcher (v + 1)));;
              mret (Some x)
          end
      end
  end.

Definition steal_from_peers (me : worker_id) : Prog (option item) :=
  if decide (count <= 1) then mret None
  else start ← rand_up_to me (Z.of_nat count); steal_loop count me (Z.to_nat start).

Definition consume_searcher_credit (me : worker_id) : Prog (option item) :=
  armed ← vis (ECreditLoad me);
  armed ← (if (armed : bool) then vis (ECreditExchange me) else mret false);
  if negb armed then mret None
  else
    or_else (steal_from_peers me)
      (any ← vis EStealAny;
       when any (void (wake_one_searcher (me + 1)));;
       mret None).

Definition find_work (me : worker_id) : Prog (option item) :=
  or_else (drain_inbox me)
 (batch ← global_pop_batch (kLocalQueueCapacity / 2) (Z.of_nat count);
  match batch with
  | x :: rest => n ← push_all me rest; publish_retained me n;; mret (Some x)
  | [] =>
      registered ← vis (ERegistered me);
      any ← (if (registered : bool) then vis EStealAny else mret false);
      or_else (if (any : bool) then reactor_poll (Some me) me;; or_else (take_local me) (drain_inbox me) else mret None)
     (due ← vis (EDue me);
      fired ← (if (due : bool) then run_expired (Some me) me else mret 0);
      or_else (if decide (0 < fired) then or_else (take_local me) (drain_inbox me) else mret None)
        (steal_from_peers me))
  end).

(** ** Parking and the worker's loop *)

Definition worker_has_work (me : worker_id) : Prog bool :=
  r ← vis (ERunnextLoad me);
  if decide (r <> None) then mret true
  else
    nonempty ← vis (ENonempty me);
    if (nonempty : bool) then mret true
    else
      empty ← vis (EInboxEmpty me);
      if negb empty then mret true
      else
        empty ← vis EGlobalEmpty;
        if negb empty then mret true
        else
          due ← vis (EDue me);
          if (due : bool) then mret true else vis EStealAny.

Definition leave_park (me : worker_id) : Prog unit :=
  vis (EIdleClear me);;
  any ← vis EStealAny;
  when any (vis (ECreditStore me)).

Definition park (me : worker_id) : Prog unit :=
  b ← repair_stealable me;
  vis (EOwn me (set_published b));;
  vis (EIdleSet me);;
  stopping ← vis EStopping;
  work ← (if (stopping : bool) then mret true else worker_has_work me);
  if (work : bool) then leave_park me
  else
    reactor_wait me;;
    leave_park me;;
    void (run_expired (Some me) me).

(** One turn of [Worker::run]: what the loop does next. *)
Inductive Turn := TRun (x : item) | TParked | TStop.

Definition run_turn (me : worker_id) (returned_from_park : bool) : Prog Turn :=
  stopping ← vis EStopping;
  if (stopping : bool) then vis (EIdleClear me);; vis (EOwn me (set_budget 0));; mret TStop
  else
    r ← or_else (if returned_from_park then consume_searcher_credit me else mret None)
          (or_else (next_local me) (find_work me));
    match r with
    | Some x => vis (EOwn me (fun o => set_grace false (set_budget (kCooperativeIoBudget + 1) o)));; mret (TRun x)
    | None => park me;; mret TParked
    end.

(** ** The cooperative I/O checkpoint *)

Definition kDebtNone : Z := 0.
Definition kDebtLocal : Z := 1.
Definition kDebtInbox : Z := 2.
Definition kDebtGlobal : Z := 4.
Definition kDebtStop : Z := 8.

Definition runnable_debt (me : worker_id) : Prog Z :=
  r ← vis (ERunnextLoad me);
  local ← (if decide (r <> None) then mret true else vis (ENonempty me));
  inbox_empty ← vis (EInboxEmpty me);
  global_empty ← vis EGlobalEmpty;
  mret (Z.lor (if (local : bool) then kDebtLocal else 0)
         (Z.lor (if (inbox_empty : bool) then 0 else kDebtInbox) (if (global_empty : bool) then 0 else kDebtGlobal))).

Definition yield_with (me : worker_id) (debt : Z) : Prog Z := vis (EOwn me (set_grace false));; mret debt.

(** After the opportunistic poll and timer pass. *)
Definition checkpoint_end (me : worker_id) : Prog Z :=
  stopping ← vis EStopping;
  if (stopping : bool) then yield_with me kDebtStop
  else vis (EOwn me (set_grace false));; mret kDebtNone.

Definition checkpoint_timers (me : worker_id) : Prog Z :=
  due ← vis (EDue me);
  if (due : bool) then
    run_expired (Some me) me;;
    debt ← runnable_debt me;
    if decide (debt <> kDebtNone) then yield_with me debt else checkpoint_end me
  else checkpoint_end me.

Definition prepare_cooperative_io_checkpoint (self : option worker_id) : Prog Z :=
  match self with
  | None => mret kDebtNone
  | Some me =>
      stopping ← vis EStopping;
      if (stopping : bool) then yield_with me kDebtStop
      else
        debt ← runnable_debt me;
        if decide (debt <> kDebtNone) then
          o ← vis (EOwn me id);
          if decide (debt = kDebtLocal /\ local_grace o = false)
          then vis (EOwn me (set_grace true));; mret kDebtNone
          else yield_with me debt
        else
          ticket ← vis (ETicket me);
          registered ← (if (ticket : bool) then vis (ERegistered me) else mret false);
          if (registered : bool) then
            reactor_poll (Some me) me;;
            debt ← runnable_debt me;
            if decide (debt <> kDebtNone) then yield_with me debt else checkpoint_timers me
          else checkpoint_timers me
  end.

(** [cooperative_io_return_debt], with its cold half; a thread without a
    worker has a budget of its own that never reaches zero. *)
Definition cooperative_io_return_debt (self : option worker_id) : Prog Z :=
  match self with
  | None => mret kDebtNone
  | Some me =>
      o ← vis (EOwn me (fun o => set_budget (u64 (budget o - 1)) o));
      if decide (u64 (budget o - 1) <> 0)%Z then mret kDebtNone
      else
        vis (EOwn me (set_budget 0));;
        debt ← prepare_cooperative_io_checkpoint self;
        when (bool_decide (debt = kDebtNone)) (void (vis (EOwn me (set_budget (kCooperativeIoBudget + 1)))));;
        mret debt
  end.

Definition has_debt (debt bit : Z) : bool := bool_decide (Z.land debt bit <> 0%Z).

Definition reschedule_self_for_cooperative_io (self : option worker_id) (x : item) (debt : Z) : Prog unit :=
  match self with
  | None => schedule_frame None x
  | Some me =>
      staged_global ← (if has_debt debt kDebtGlobal then
         r ← global_pop;
         match r with
         | Some y => vis (EOwn me (set_fair_cursor 1));; stage_fairness_item me y;; mret true
         | None => mret false
         end else mret false);
      staged_inbox ← (if has_debt debt kDebtInbox then
         r ← drain_inbox me;
         match r with Some y => stage_fairness_item me y;; mret true | None => mret false end else mret false);
      publish_parent ← (if staged_global || staged_inbox then mret true
         else if has_debt debt kDebtLocal then vis EIdleAny else mret false);
      void (push me x publish_parent)
  end.

(** ** The reactor's deadline and the monitor *)

(** [nudge_poller]; whether the reactor's own nudge writes a token is the
    reactor's decision. *)
Definition reactor_nudge (w : worker_id) : Prog unit :=
  b ← vis (EDue w); when b (vis (EToken w)).

Definition nudge_poller (self : option worker_id) (w : option worker_id) : Prog unit :=
  let w := match valid_worker w with Some w => w | None => 0 end in
  if decide (self = Some w) then reactor_nudge w
  else b ← vis (EIdleClear w); if (b : bool) then vis (EToken w) else reactor_nudge w.

(** The monitor's direct poll of a stale shard, and its timer pass. *)
Definition monitor_worker (w : worker_id) : Prog unit :=
  stale ← vis (ERegistered w);
  when stale (reactor_poll None w);;
  due ← vis (EDue w);
  when due (void (run_expired None w)).

(** The wakes of [shutdown]. *)
Definition wake_all (w : nat) : Prog unit := foldr (fun w p => vis (EToken w);; p) (mret tt) (seq 0 w).
End ops.
