(* ===== verification/SchedLogic.v ===== *)
(** * A program logic for the scheduler's operations

    What a thread knows and owes between two accesses ([Local]), the weakest
    precondition of a program over it, and the specification of every operation
    of file SchedOps. Frames a thread holds in its variables and the wakes it
    still has to send are resources: an operation must place every frame and
    send every wake. Files SchedSound and SchedInv show that the logic is
    sound for all threads together. *)

From S2P Require Import Prelude Sched SchedOps.

Set Default Proof Using "Type".

(** ** What a thread owes and knows *)

(** A reserved inbox entry to publish, a wake of an inbox's owner, a global push
    to count, a wake of some idle worker, a token for a claimed worker. *)
Inductive Obl :=
  | OPublish (w : worker_id) (x : item)
  | OWake (w : worker_id)
  | OCount (n : nat)
  | OWakeIdle
  | OToken (w : worker_id).

#[global] Instance Obl_eq_dec : EqDecision Obl.
Proof. solve_decision. Defined.

(** What a worker that published itself idle has found empty since. *)
Record Checks := mkChecks { ck_local : bool; ck_inbox : bool; ck_global : bool }.
Definition no_checks : Checks := mkChecks false false false.
Definition all_checks : Checks := mkChecks true true true.

Record Local := mkLocal {
  hand : list item;
  owes : list Obl;
  rn : option item;
  parked : option Checks
}.

(** Outside park. *)
Abbreviation awake h o r := (mkLocal h o r None).

Definition with_hand (h : list item) (g : Local) : Local := mkLocal h (owes g) (rn g) (parked g).
Definition with_owes (o : list Obl) (g : Local) : Local := mkLocal (hand g) o (rn g) (parked g).
Definition with_parked (p : option Checks) (g : Local) : Local := mkLocal (hand g) (owes g) (rn g) p.
Definition with_check (f : Checks -> Checks) (g : Local) : Local := with_parked (f <$> parked g) g.

Definition see_local (c : Checks) : Checks := mkChecks true (ck_inbox c) (ck_global c).
Definition see_inbox (c : Checks) : Checks := mkChecks (ck_local c) true (ck_global c).
Definition see_global (c : Checks) : Checks := mkChecks (ck_local c) (ck_inbox c) true.

(** One debt less, if it is there. *)
Fixpoint discharge (o : Obl) (l : list Obl) : list Obl :=
  match l with
  | [] => []
  | p :: l => if decide (p = o) then l else p :: discharge o l
  end.

(** ** Weakest preconditions *)

Section logic.
Context (count : nat) (self : option worker_id).

(** A worker thread's access to its own parts. *)
Definition mine (me : worker_id) : Prop := self = Some me /\ me < count.

(** A claim of another worker's idle bit owes it a token. *)
Definition claimed_by (w : worker_id) (o : list Obl) : list Obl := if decide (self = Some w) then o else OToken w :: o.

Definition ewp {R} (e : Event R) (g : Local) (K : R -> Local -> Prop) : Prop :=
  match e in Event R return (R -> Local -> Prop) -> Prop with
  | EOwn me f => fun K => mine me /\ forall o, K o g
  | ERunnextLoad me => fun K => mine me /\ K (rn g) g
  | ERunnextStore me v => fun K => mine me /\ parked g = None /\
      exists h, hand g ≡ₚ option_list v ++ h /\ K tt (mkLocal (option_list (rn g) ++ h) (owes g) v None)
  | EPush me x => fun K => mine me /\ parked g = None /\
      exists h, hand g ≡ₚ x :: h /\ K true (with_hand h g) /\ K false g
  | EPop me => fun K => mine me /\ K None g /\ forall x, K (Some x) (with_hand (x :: hand g) g)
  | EPopHalf me => fun K => mine me /\ forall l, K l (with_hand (l ++ hand g) g)
  | EGrab v max => fun K => v < count /\ (0 < max)%Z /\ forall l, K l (with_hand (l ++ hand g) g)
  | ENonempty w => fun K => w < count /\ K true g /\ K false (if decide (self = Some w) then with_check see_local g else g)
  | EInboxReserve w x => fun K => w < count /\
      exists h, hand g ≡ₚ x :: h /\ K true (with_owes (OPublish w x :: owes g) (with_hand h g)) /\ K false g
  | EInboxPublish w x => fun K => w < count /\
      exists o, owes g ≡ₚ OPublish w x :: o /\ K tt (with_owes (OWake w :: o) g)
  | EInboxPop me => fun K => mine me /\ K None g /\ forall x, K (Some x) (with_hand (x :: hand g) g)
  | EInboxEmpty me => fun K => mine me /\ K false g /\ K true (with_check see_inbox g)
  | EGlobalEnqueue xs => fun K => xs <> [] /\
      exists h, hand g ≡ₚ xs ++ h /\ K tt (with_owes (OCount (length xs) :: owes g) (with_hand h g))
  | EGlobalCount n => fun K =>
      exists o, owes g ≡ₚ OCount n :: o /\ K tt (with_owes (OWakeIdle :: o) g)
  | EGlobalEmpty => fun K => K false g /\ K true (with_check see_global g)
  | EGlobalPop => fun K => K None g /\ forall x, K (Some x) (with_hand (x :: hand g) g)
  | EGlobalPopBatch max share => fun K => (0 <= max)%Z /\ (0 <= share)%Z /\ forall l, K l (with_hand (l ++ hand g) g)
  | EIdleSet me => fun K => mine me /\ parked g = None /\ forall b, K b (with_parked (Some no_checks) g)
  | EIdleClear w => fun K => w < count /\
      let o := discharge (OWake w) (owes g) in
      if decide (self = Some w) then forall b, K b (with_parked None (with_owes o g))
      else K true (with_owes (OToken w :: o) g) /\ K false (with_owes o g)
  | EIdleClaim start => fun K => parked g = None /\
      let o := discharge OWakeIdle (owes g) in
      K None (with_owes o g) /\ forall w, w < count -> K (Some w) (with_owes (claimed_by w o) g)
  | EIdleFind start | EStealFind start => fun K => K None g /\ forall w, w < count -> K (Some w) g
  | EIdleAny | EStealAny | EStopping => fun K => forall b, K b g
  | EStealTest w | EStealSet w | EStealClear w => fun K => w < count /\ forall b, K b g
  | EPublishStore me v => fun K => mine me /\ K tt g
  | EPublishLoad w | EClearBump w => fun K => w < count /\ forall v, K v g
  | EClearLoad me => fun K => mine me /\ forall v, K v g
  | ECreditStore w => fun K => w < count /\ K tt g
  | ECreditLoad me | ECreditExchange me => fun K => mine me /\ forall b, K b g
  | EWakeCursor | EPlacement => fun K => forall v, K v g
  | EToken w => fun K => w < count /\ K tt (with_owes (discharge (OToken w) (owes g)) g)
  | ERegistered w | ETicket w | EDue w => fun K => forall b, K b g
  | EPoll w => fun K => w < count /\ parked g = None /\ K None g /\
      forall cs, K (Some cs) (with_hand (ready_frames cs ++ hand g) g)
  | EWait me => fun K => mine me /\ g = mkLocal [] [] None (Some all_checks) /\ K None (with_parked None g) /\
      forall cs, K (Some cs) (with_parked None (with_hand (ready_frames cs ++ hand g) g))
  | EFire w => fun K => parked g = None /\ forall n bs, K (n, bs) (with_hand (fired_frames bs ++ hand g) g)
  | EAbandon x => fun K => exists h, hand g ≡ₚ x :: h /\ K tt (with_hand h g)
  end K.

Fixpoint wp {A} (p : Prog A) (Q : A -> Local -> Prop) (g : Local) : Prop :=
  match p with
  | Ret a => Q a g
  | Vis e k => ewp e g (fun r g' => wp (k r) Q g')
  end.

Lemma ewp_mono {R} (e : Event R) g (K K' : R -> Local -> Prop) :
  (forall r g', K r g' -> K' r g') -> ewp e g K -> ewp e g K'.
Proof.
  intros HK He. destruct e; cbn in *; repeat case_decide; naive_solver.
Qed.

Lemma wp_mono {A} (p : Prog A) (Q Q' : A -> Local -> Prop) g :
  wp p Q g -> (forall a g', Q a g' -> Q' a g') -> wp p Q' g.
Proof.
  intros Hp HQ. revert g Hp. induction p as [a|R e k IH]; intros g Hp; simpl in *; [auto|].
  revert Hp. apply ewp_mono. intros r g'. apply IH.
Qed.

Lemma wp_bind {A B} (p : Prog A) (f : A -> Prog B) Q g :
  wp p (fun a g' => wp (f a) Q g') g -> wp (p ≫= f) Q g.
Proof.
  revert g. induction p as [a|R e k IH]; intros g Hp; simpl in *; [done|].
  revert Hp. apply ewp_mono. intros r g'. apply IH.
Qed.

Lemma wp_ret {A} (a : A) Q g : Q a g -> wp (mret a) Q g.
Proof. done. Qed.

Lemma wp_vis {R A} (e : Event R) (f : R -> Prog A) Q g :
  ewp e g (fun r g' => wp (f r) Q g') -> wp (vis e ≫= f) Q g.
Proof. done. Qed.

Lemma wp_when (b : bool) p (Q : unit -> Local -> Prop) g : (if b then wp p Q g else Q tt g) -> wp (when b p) Q g.
Proof. by destruct b. Qed.

Lemma wp_void {A} (p : Prog A) (Q : unit -> Local -> Prop) g : wp p (fun _ => Q tt) g -> wp (void p) Q g.
Proof. intros H. apply wp_bind. exact H. Qed.

(** ** Specifications

    Outside park a thread is [awake]. In between, it owes nothing, or the wake of
    an idle worker after a global push. *)

Inductive calm : Local -> Prop :=
  | calm_nil h r : calm (awake h [] r)
  | calm_idle h r : calm (awake h [OWakeIdle] r).
#[local] Hint Constructors calm : core.
#[local] Hint Resolve Permutation_refl : core.

(** An operation that changes nothing the thread holds or owes. *)
Definition neutral {A} (p : Prog A) : Prop := forall Q g, calm g -> (forall a, Q a g) -> wp p Q g.

Lemma calm_parked g : calm g -> parked g = None.
Proof. by intros []. Qed.

Lemma calm_discharge g o : calm g -> o <> OWakeIdle -> with_owes (discharge o (owes g)) g = g.
Proof.
  intros [] Ho; [done|]. unfold with_owes. cbn. by rewrite decide_False by congruence.
Qed.

(** A claim of a bit and the token that follows it. *)
Definition claimed (w : worker_id) (g : Local) : Local := with_owes (claimed_by w (owes g)) g.

Lemma claimed_self w g : self = Some w -> claimed w g = g.
Proof. intros E. unfold claimed, claimed_by. rewrite decide_True by done. by destruct g. Qed.

Lemma clear_calm w g K : calm g -> w < count -> K false g -> K true (claimed w g) -> (self = Some w -> K true g) ->
  ewp (EIdleClear w) g K.
Proof.
  intros Hg Hw Hf Ht Hs. cbn. split; [done|].
  assert (E : with_owes (discharge (OWake w) (owes g)) g = g) by (by apply calm_discharge).
  case_decide.
  - intros b. replace (with_parked None _) with g; [destruct b; auto|]. rewrite E. by destruct Hg.
  - rewrite E. split; [|done]. unfold claimed, claimed_by in Ht. rewrite decide_False in Ht by done.
    assert (E' : discharge (OWake w) (owes g) = owes g) by (apply (f_equal owes) in E; exact E). by rewrite E'.
Qed.

Lemma token_claimed w g K : calm g -> w < count -> K tt g -> ewp (EToken w) (claimed w g) K.
Proof.
  intros Hg Hw HK. cbn. split; [done|]. unfold claimed, claimed_by. case_decide.
  - change (with_owes (owes g) g) with (mkLocal (hand g) (owes g) (rn g) (parked g)).
    replace (with_owes _ _) with (with_owes (discharge (OToken w) (owes g)) g) by done. by rewrite calm_discharge.
  - cbn. rewrite decide_True by done. by destruct g.
Qed.

Lemma calm_check f g : calm g -> with_check f g = g.
Proof. by intros []. Qed.

Lemma nonempty_calm w g K : calm g -> w < count -> K true g -> K false g -> ewp (ENonempty w) g K.
Proof. intros Hg Hw Ht Hf. cbn. split; [done|]. split; [done|]. case_decide; [by rewrite calm_check|done]. Qed.

Lemma inbox_empty_calm me g K : calm g -> mine me -> K true g -> K false g -> ewp (EInboxEmpty me) g K.
Proof. intros Hg Hm Ht Hf. cbn. by rewrite calm_check. Qed.

Lemma global_empty_calm g K : calm g -> K true g -> K false g -> ewp EGlobalEmpty g K.
Proof. intros Hg Ht Hf. cbn. by rewrite calm_check. Qed.

Lemma token_calm w g K : calm g -> w < count -> K tt g -> ewp (EToken w) g K.
Proof. intros Hg Hw HK. cbn. split; [done|]. by rewrite calm_discharge. Qed.
End logic.

(** Walks through a program: accesses by their rule, branches by cases. *)
Ltac wp_go :=
  repeat match goal with
  | |- forall _, _ => intro
  | |- _ /\ _ => split
  | |- _ _ (with_hand _ _) => cbv beta iota delta [hand owes rn parked with_hand with_owes with_parked]
  | |- _ _ (with_owes _ _) => cbv beta iota delta [hand owes rn parked with_hand with_owes with_parked]
  | |- _ _ (with_parked _ _) => cbv beta iota delta [hand owes rn parked with_hand with_owes with_parked]
  | |- wp _ _ (mret _) _ _ => apply wp_ret
  | |- wp _ _ (vis _ ≫= _) _ _ => apply wp_vis
  | |- wp _ _ (vis _) _ _ => cbn [vis wp]
  | |- ewp _ _ (EIdleClear _) _ _ => apply clear_calm; [solve [auto]|..]
  | |- ewp _ _ (EToken _) (claimed _ _ _) _ => apply token_claimed; [solve [auto]|..]
  | |- ewp _ _ (EToken _) _ _ => apply token_calm; [solve [auto]|..]
  | |- ewp _ _ (ENonempty _) _ _ => apply nonempty_calm; [solve [auto]|..]
  | |- ewp _ _ (EInboxEmpty _) _ _ => apply inbox_empty_calm; [solve [auto]|..]
  | |- ewp _ _ EGlobalEmpty _ _ => apply global_empty_calm; [solve [auto]|..]
  | |- ewp _ _ _ _ _ => progress cbn [ewp hand owes rn parked with_hand with_owes with_parked]
  | |- wp _ _ (_ ≫= _) _ _ => apply wp_bind
  | |- wp _ _ (when _ _) _ _ => apply wp_when
  | |- wp _ _ (void _) _ _ => apply wp_void
  | |- wp _ _ (if decide ?P then _ else _) _ _ => case_decide; try (exfalso; done)
  | |- wp _ _ (if ?b then _ else _) _ _ => destruct b eqn:?
  | |- if ?b then wp _ _ _ _ _ else _ => destruct b eqn:?
  | |- wp _ _ (match ?x with Some _ => _ | None => _ end) _ _ => is_var x; destruct x
  end.

(** Uses the specification of a neutral call. *)
Ltac wp_call lem := first [apply lem; [solve [auto]|solve [auto]|] | apply lem; [solve [auto]|]]; wp_go.


Section specs.
Context (count : nat) (self : option worker_id).
Abbreviation wp := (wp count self).
Abbreviation mine := (mine count self).
Abbreviation neutral := (neutral count self).
#[local] Hint Constructors calm : core.
#[local] Hint Resolve Permutation_refl : core.
#[local] Hint Resolve calm_parked : core.

Lemma mine_lt me : mine me -> me < count.
Proof. by intros []. Qed.
#[local] Hint Resolve mine_lt : core.

Lemma neutral_rand me n : mine me -> neutral (rand_up_to me n).
Proof. intros Hm Q g Hg HQ. unfold rand_up_to. wp_go; auto. Qed.

Lemma neutral_searcher_loop tries : forall start, neutral (searcher_loop count tries start).
Proof.
  induction tries as [|n IH]; intros start Q g Hg HQ; cbn [searcher_loop]; wp_go; auto.
  by apply IH.
Qed.

Lemma neutral_wake_one_searcher start : neutral (wake_one_searcher count start).
Proof.
  intros Q g Hg HQ. unfold wake_one_searcher. wp_go; [auto|]. by apply neutral_searcher_loop.
Qed.

Lemma neutral_wake_searchers n : neutral (wake_searchers count n).
Proof.
  induction n as [|n IH]; intros Q g Hg HQ; cbn [wake_searchers]; wp_go; auto.
  wp_call neutral_wake_one_searcher; auto.
Qed.

Lemma neutral_publish_stealable me n : mine me -> neutral (publish_stealable count me n).
Proof.
  intros Hm Q g Hg HQ. unfold publish_stealable.
  wp_go; auto.
  all: try (by apply neutral_wake_searchers). Qed.

Lemma neutral_repair_stealable w : w < count -> neutral (repair_stealable count w).
Proof.
  intros Hw Q g Hg HQ. unfold repair_stealable. wp_go; auto.
  all: try (wp_call neutral_wake_one_searcher; auto). Qed.

Lemma neutral_repair_own me : mine me -> neutral (repair_own count me).
Proof.
  intros Hm Q g Hg HQ. unfold repair_own. wp_go; auto.
  apply neutral_repair_stealable; [auto..|]. wp_go; auto. Qed.


(** ** Placing frames *)

Lemma claim_idle start h o r K : (o = [] \/ o = [OWakeIdle]) -> K None (awake h [] r) ->
  (forall w, w < count -> K (Some w) (claimed self w (awake h [] r))) -> ewp count self (EIdleClaim start) (awake h o r) K.
Proof. intros [-> | ->] Hn Hs; cbn; (split; [done|]); (split; [done|exact Hs]). Qed.

Lemma wake_one_idle_spec start h o r Q : (o = [] \/ o = [OWakeIdle]) -> 0 < count ->
  (forall b, Q b (awake h [] r)) -> wp (wake_one_idle count start) Q (awake h o r).
Proof.
  intros Ho Hc HQ. unfold wake_one_idle. rewrite decide_False by lia. apply wp_vis, claim_idle; [done|by apply wp_ret|].
  intros w Hw. wp_go; auto. Qed.

Lemma notify_batch_spec n h r Q : 0 < count -> (forall u, Q u (awake h [] r)) -> wp (notify_batch count n) Q (awake h [] r).
Proof.
  intros Hc HQ. induction n as [|n IH]; cbn [notify_batch]; wp_go; auto.
  apply wake_one_idle_spec; auto. wp_go; auto. Qed.

Lemma global_push_spec xs h h' r Q : xs <> [] -> h ≡ₚ xs ++ h' -> Q tt (awake h' [OWakeIdle] r) ->
  wp (global_push xs) Q (awake h [] r).
Proof.
  intros Hx Hp HQ. unfold global_push. rewrite decide_False by done. wp_go; [done|]. exists h'. wp_go; [done|].
  exists []. wp_go; done. Qed.

Lemma push_spec me x b h h' r Q : mine me -> h ≡ₚ x :: h' -> (forall ok, Q ok (awake h' [] r)) ->
  wp (push count me x b) Q (awake h [] r).
Proof.
  intros Hm Hp HQ. assert (0 < count) by (apply mine_lt in Hm; lia). unfold push, push_overflow.
  wp_go; auto. exists h'. wp_go; [done|auto..| ].
  - wp_call neutral_publish_stealable; auto.
  - apply global_push_spec with (h' := h'); [by destruct l|rewrite <- app_assoc; cbn; rewrite Hp; solve_Permutation|].
    wp_go; auto.
    + apply neutral_publish_stealable; auto. wp_go. apply wake_one_idle_spec; auto. wp_go; auto.
    + apply wake_one_idle_spec; auto. wp_go; auto. Qed.

(** Pushes and the publication that follows, once or more often. *)
Lemma push_all_spec me xs : forall h h' r Q, mine me -> h ≡ₚ xs ++ h' ->
  (forall n h'', h'' ≡ₚ h' -> Q n (awake h'' [] r)) -> wp (push_all count me xs) Q (awake h [] r).
Proof.
  induction xs as [|x xs IH]; intros h h' r Q Hm Hp HQ; cbn [push_all]; wp_go; [by apply HQ|].
  apply push_spec with (h' := (xs ++ h')); [done..|]. wp_go.
  apply (IH _ h'); [done..|]. wp_go. by apply HQ.
Qed.

Lemma publish_retained_spec me n g Q : mine me -> calm g -> (forall u, Q u g) -> wp (publish_retained count me n) Q g.
Proof. intros Hm Hg HQ. unfold publish_retained. wp_go; [|auto]. by apply neutral_publish_stealable. Qed.

Lemma push_next_spec me x h h' r Q : mine me -> h ≡ₚ x :: h' -> (forall r', Q tt (awake h' [] r')) ->
  wp (push_next count me x) Q (awake h [] r).
Proof.
  intros Hm Hp HQ. unfold push_next. wp_go; auto.
  exists h'. wp_go; [done| |auto]. by apply push_spec with (h' := h').
Qed.

Lemma stage_spec me x h h' r Q : mine me -> h ≡ₚ x :: h' -> (forall r', Q tt (awake h' [] r')) ->
  wp (stage_fairness_item count me x) Q (awake h [] r).
Proof.
  intros Hm Hp HQ. unfold stage_fairness_item. wp_go; auto. exists h'. wp_go; auto.
  - by apply push_spec with (h' := h').
  - apply neutral_publish_stealable; auto. intros []. auto.
Qed.

Lemma pop_local_spec me h r Q : mine me -> (forall v, Q v (awake (option_list v ++ h) [] r)) ->
  wp (pop_local count me) Q (awake h [] r).
Proof.
  intros Hm HQ. unfold pop_local. wp_go; auto; try apply (HQ None).
  apply neutral_repair_own; auto. intros _. wp_go. apply (HQ (Some _)).
Qed.

Lemma take_local_spec me h r Q : mine me -> (forall v r', Q v (awake (option_list v ++ h) [] r')) ->
  wp (take_local count me) Q (awake h [] r).
Proof.
  intros Hm HQ. unfold take_local. wp_go; auto.
  - exists h. wp_go; [done|]. apply (HQ (Some _)).
  - apply pop_local_spec; auto.
Qed.

Lemma drain_loop_spec me n : forall h r Q, mine me -> (forall k, Q k (awake h [] r)) ->
  wp (drain_loop count n me) Q (awake h [] r).
Proof.
  induction n as [|n IH]; intros h r Q Hm HQ; cbn [drain_loop]; wp_go; auto.
  apply push_spec with (h' := h); [auto|done|]. wp_go. apply IH; [auto|]. wp_go. auto.
Qed.

Lemma drain_inbox_spec me h r Q : mine me -> (forall v, Q v (awake (option_list v ++ h) [] r)) ->
  wp (drain_inbox count me) Q (awake h [] r).
Proof.
  intros Hm HQ. unfold drain_inbox. wp_go; auto; try apply (HQ None).
  apply drain_loop_spec; [auto|]. wp_go. apply publish_retained_spec; auto. wp_go. apply (HQ (Some _)).
Qed.

Lemma choose_worker_spec g Q : 0 < count -> (forall w, w < count -> Q w g) -> wp (choose_worker count) Q g.
Proof.
  intros Hc HQ. unfold choose_worker. wp_go; [by apply HQ|]. apply HQ.
  pose proof (Z.mod_pos_bound v (Z.of_nat count)). lia.
Qed.

Lemma valid_lt w v : valid_worker count w = Some v -> v < count.
Proof. unfold valid_worker. destruct w; [|done]. case_decide; naive_solver. Qed.

Lemma target_spec w g Q : 0 < count -> (forall v, v < count -> Q v g) ->
  wp (match valid_worker count w with Some v => mret v | None => choose_worker count end) Q g.
Proof.
  intros Hc HQ. destruct (valid_worker count w) eqn:E; [|by apply choose_worker_spec].
  wp_go. apply HQ. by eapply valid_lt.
Qed.

(** An operation that takes the frames [xs] from the thread's hands. *)
Definition places {A} (p : Prog A) (xs : list item) : Prop := forall h h' r Q,
  h ≡ₚ xs ++ h' -> (forall a h'' r', h'' ≡ₚ h' -> Q a (awake h'' [] r')) -> wp p Q (awake h [] r).

Lemma push_places me x b : mine me -> places (push count me x b) [x].
Proof. intros Hm h h' r Q Hp HQ. apply push_spec with (h' := h'); auto. Qed.

Lemma void_places {A} (p : Prog A) xs : places p xs -> places (void p) xs.
Proof. intros Hp h h' r Q Hh HQ. apply wp_void. apply (Hp h h'); auto. Qed.

Lemma push_next_places me x : mine me -> places (push_next count me x) [x].
Proof. intros Hm h h' r Q Hp HQ. apply push_next_spec with (h' := h'); auto. Qed.

End specs.

(** From here on there is a worker, and the calling thread's worker exists. *)
Section calls.
Context (count : nat) (self : option worker_id).
Context (Hcount : 0 < count) (Hself : forall me, self = Some me -> me < count).
Abbreviation wp := (wp count self).
Abbreviation mine := (mine count self).
Abbreviation neutral := (neutral count self).
Abbreviation places := (places count self).
#[local] Hint Constructors calm : core.
#[local] Hint Resolve Permutation_refl : core.
#[local] Hint Resolve calm_parked mine_lt : core.
#[local] Set Default Proof Using "All".

Lemma mine_self me : self = Some me -> mine me.
Proof. intros E. split; auto. Qed.
#[local] Hint Resolve mine_self : core.

Lemma fallback_places x w : places (schedule_completion_fallback count x w) [x].
Proof.
  intros h h' r Q Hp HQ. unfold schedule_completion_fallback. wp_go.
  apply target_spec; [done|]. wp_go. apply global_push_spec with (h' := h'); [done..|]. wp_go.
  apply wake_one_idle_spec; auto.
Qed.

Lemma wake_worker_spec w h r Q : w < count -> (forall u, Q u (awake h [] r)) ->
  wp (wake_worker count w) Q (awake h [OWake w] r).
Proof.
  intros Hw HQ. unfold wake_worker. rewrite decide_True by done. apply wp_vis. split; [done|].
  cbn [owes discharge]. rewrite (decide_True (P := OWake w = OWake w)) by done. case_decide as E.
  - intros b. wp_go; auto.
  - split; wp_go; auto. cbn. rewrite decide_True by done. apply HQ.
Qed.

Lemma enqueue_remote_places w x : places (enqueue_remote count w x true) [x].
Proof.
  intros h h' r Q Hp HQ. unfold enqueue_remote. wp_go. apply target_spec; [done|]. wp_go; [done|].
  exists h'. wp_go; [done|done| |].
  - exists []. wp_go; [done|]. apply wake_worker_spec; auto.
  - apply global_push_spec with (h' := h'); [done..|]. wp_go. apply wake_one_idle_spec; auto.
Qed.

Lemma schedule_frame_places s x : s = self -> places (schedule_frame count s x) [x].
Proof.
  intros E. unfold schedule_frame. destruct s; [apply void_places, push_places; auto|apply fallback_places].
Qed.

Lemma schedule_to_places s x w : s = self -> places (schedule_to_frame count s x w) [x].
Proof.
  intros E. unfold schedule_to_frame. pose proof (schedule_frame_places s x E).
  destruct (valid_worker count w); [|done]. destruct s; [|apply enqueue_remote_places].
  case_decide; [apply void_places, push_places; auto|apply enqueue_remote_places].
Qed.

Lemma place_completion_places me x : mine me -> places (place_completion count me x) [x].
Proof.
  intros Hm h h' r Q Hp HQ. unfold place_completion. wp_go; auto.
  - apply push_spec with (h' := h'); auto. wp_go. auto.
  - exists h'. wp_go; auto.
Qed.

Lemma io_completion_places s x w : s = self -> places (schedule_io_completion count s x w) [x].
Proof.
  intros E. destruct s; [apply place_completion_places; auto|]. intros h h' r Q Hp HQ.
  cbn [schedule_io_completion]. wp_go. apply (fallback_places x w h h'); auto. wp_go. auto.
Qed.

Lemma completion_wake_places s x w : s = self -> places (schedule_completion_wake count s x w) [x].
Proof.
  intros E. unfold schedule_completion_wake. destruct s; [|apply fallback_places].
  case_decide; [apply void_places, push_places; auto|apply fallback_places].
Qed.

Lemma schedule_next_places s x : s = self -> places (schedule_next_frame count s x) [x].
Proof. intros E. destruct s; [apply push_next_places; auto|apply fallback_places]. Qed.

Lemma reschedule_places s x : s = self -> places (reschedule_self count s x) [x].
Proof. intros E. destruct s; [apply void_places, push_places; auto|apply fallback_places]. Qed.

Lemma finish_io_batch_neutral s n : s = self -> neutral (finish_io_batch count s n).
Proof.
  intros E Q g Hg HQ. destruct s; cbn [finish_io_batch]; wp_go; auto.
  apply neutral_publish_stealable; auto.
Qed.

Lemma leased_places x p : places p [x] -> places (leased x p) [x].
Proof.
  intros Hp h h' r Q Hh HQ. unfold leased. wp_go; [exists h'; wp_go; auto|by apply (Hp h h')].
Qed.

Lemma dispatch_places s x w : s = self -> places (dispatch count s x w) [x].
Proof.
  intros E. destruct s; [apply void_places, push_places; auto|]. apply leased_places. exact (fallback_places x w).
Qed.

Lemma dispatch_next_places s x : s = self -> places (dispatch_next count s x) [x].
Proof. intros E. destruct s; [apply push_next_places; auto|]. apply leased_places. exact (fallback_places x None). Qed.

Lemma dispatch_completion_places s x w : s = self -> places (dispatch_completion count s x w) [x].
Proof.
  intros E. destruct s; [exact (completion_wake_places _ x w E)|]. apply leased_places. exact (fallback_places x w).
Qed.

Lemma dispatch_io_places s x w : s = self -> places (dispatch_io count s x w) [x].
Proof.
  intros E h h' r Q Hp HQ. pose proof (io_completion_places s x w E) as Hi.
  destruct s as [me|]; cbn [dispatch_io]; wp_go.
  - apply (place_completion_places me x (mine_self _ (eq_sym E)) h h'); auto. wp_go. auto.
  - exists h'. wp_go; auto.
  - apply (Hi h h'); auto. wp_go. auto.
Qed.

Lemma batch_to_places s xs w : s = self -> places (schedule_batch_to count s xs w) xs.
Proof.
  intros E h h' r Q Hp HQ. destruct xs as [|x rest]; cbn [schedule_batch_to].
  - wp_go. by apply HQ.
  - wp_go. apply target_spec; [done|]. intros v Hv. destruct (decide (s = Some v)) as [Ev|Ev].
    + assert (Hm : mine v) by (apply mine_self; congruence). wp_go; auto.
      * apply push_all_spec with (h' := h'); [done..|]. wp_go. apply publish_retained_spec; auto.
      * exists (rest ++ h'). wp_go; [done|]. apply push_all_spec with (h' := h'); [done..|]. wp_go.
        apply publish_retained_spec; auto.
    + wp_go. apply global_push_spec with (h' := h'); [done..|]. wp_go.
      * apply wake_one_idle_spec; auto. wp_go; auto. apply notify_batch_spec; auto.
      * exfalso. match goal with H : ~ _ |- _ => apply H end. apply Nat.min_glb_lt; [cbn; lia|done].
Qed.

Lemma batch_places s xs : s = self -> places (schedule_batch count s xs) xs.
Proof.
  intros E h h' r Q Hp HQ. pose proof (batch_to_places s xs None E) as Hb. unfold schedule_batch. case_decide as Hx.
  - subst xs. wp_go. by apply HQ.
  - destruct s as [me|]; [|by apply (Hb h h')]. wp_go. apply push_all_spec with (h' := h'); [auto|done|].
    wp_go. apply publish_retained_spec; auto.
Qed.

Lemma dispatch_ready_places s cs : s = self -> places (dispatch_ready count s cs) (ready_frames cs).
Proof.
  intros E. induction cs as [|[x w] cs IH]; intros h h' r Q Hp HQ; cbn [dispatch_ready]; wp_go.
  - by apply HQ.
  - apply (dispatch_io_places s x w E h (ready_frames cs ++ h')); [done|]. wp_go.
    apply (IH _ h'); [done|]. wp_go. by apply HQ.
Qed.

Lemma poller_returned_neutral s w : s = self -> neutral (poller_returned s w).
Proof.
  intros E Q g Hg HQ. unfold poller_returned. case_decide as Ew; [|wp_go; auto].
  wp_go; auto; [apply Hself; congruence|]. rewrite claimed_self by congruence. auto.
Qed.

Lemma after_wait_places s w cs : s = self -> places (after_wait count s w (Some cs)) (ready_frames cs).
Proof.
  intros E h h' r Q Hp HQ. cbn [after_wait]. wp_go. apply poller_returned_neutral; auto. wp_go.
  apply (dispatch_ready_places s cs E h h'); [done|]. wp_go; auto.
  apply finish_io_batch_neutral; auto.
Qed.

(** Polls and timer passes put what they find in the queues. *)
Lemma reactor_poll_spec s w h r Q : s = self -> w < count -> (forall u h' r', h' ≡ₚ h -> Q u (awake h' [] r')) ->
  wp (reactor_poll count s w) Q (awake h [] r).
Proof.
  intros E Hw HQ. unfold reactor_poll. wp_go; auto.
  - cbn [after_wait]. wp_go. auto.
  - by apply (after_wait_places s w _ E _ h).
Qed.

Lemma schedule_fired_places s bs : s = self -> places (schedule_fired count s bs) (fired_frames bs).
Proof.
  intros E. induction bs as [|[xs w] bs IH]; intros h h' r Q Hp HQ; cbn [schedule_fired]; wp_go.
  - by apply HQ.
  - apply (batch_to_places s xs w E h (fired_frames bs ++ h')).
    + rewrite Hp. unfold fired_frames. cbn. by rewrite <- app_assoc.
    + wp_go. apply (IH _ h'); [done|]. wp_go. by apply HQ.
Qed.

Lemma run_expired_spec s w h r Q : s = self -> (forall k h' r', h' ≡ₚ h -> Q k (awake h' [] r')) ->
  wp (run_expired count s w) Q (awake h [] r).
Proof.
  intros E HQ. unfold run_expired. wp_go; [done|]. apply (schedule_fired_places s bs E _ h); [done|]. wp_go. auto.
Qed.

(** ** Selecting work

    A selection leaves the thread with what it held and the frame selected. *)

Definition selects (p : Prog (option item)) : Prop := forall h r Q,
  (forall v h' r', h' ≡ₚ option_list v ++ h -> Q v (awake h' [] r')) -> wp p Q (awake h [] r).

Lemma selects_none : selects (mret None).
Proof. intros h r Q HQ. wp_go. by apply HQ. Qed.

Lemma selects_perm p h h0 r Q : selects p -> h0 ≡ₚ h ->
  (forall v h' r', h' ≡ₚ option_list v ++ h -> Q v (awake h' [] r')) -> wp p Q (awake h0 [] r).
Proof. intros Hp E HQ. apply Hp. intros v h' r' E'. apply HQ. by rewrite E', E. Qed.

Lemma or_else_selects p q : selects p -> selects q -> selects (or_else p q).
Proof.
  intros Hp Hq h r Q HQ. unfold or_else. wp_go. apply Hp. intros [x|] h' r' E; wp_go; [by apply HQ|].
  by apply (selects_perm q h).
Qed.

Lemma take_local_selects me : mine me -> selects (take_local count me).
Proof. intros Hm h r Q HQ. apply take_local_spec; auto. Qed.

Lemma pop_local_selects me : mine me -> selects (pop_local count me).
Proof. intros Hm h r Q HQ. apply pop_local_spec; auto. Qed.

Lemma drain_inbox_selects me : mine me -> selects (drain_inbox count me).
Proof. intros Hm h r Q HQ. apply drain_inbox_spec; auto. Qed.

Lemma global_pop_selects : selects global_pop.
Proof. intros h r Q HQ. unfold global_pop. wp_go; auto; try (by apply (HQ None)). Qed.

(** An operation that leaves the thread what it held. *)
Abbreviation keeps p := (places p []).

Lemma keeps_ret {A} (a : A) : keeps (mret a).
Proof. intros h h' r Q Hp HQ. wp_go. by apply HQ. Qed.

Lemma keeps_bind {A B} (p : Prog A) (k : A -> Prog B) : keeps p -> (forall a, keeps (k a)) -> keeps (p ≫= k).
Proof.
  intros Hp Hk h h' r Q E HQ. apply wp_bind. apply (Hp h h' r _ E). intros a h'' r' E'. by apply (Hk a h'' h').
Qed.

Lemma keeps_selects {A} (p : Prog A) (k : A -> Prog (option item)) :
  keeps p -> (forall a, selects (k a)) -> selects (p ≫= k).
Proof.
  intros Hp Hk h r Q HQ. apply wp_bind. apply (Hp h h); [done|]. intros a h' r' E. by apply (selects_perm (k a) h).
Qed.

Lemma keeps_when b p : keeps p -> keeps (when b p).
Proof. destruct b; [done|]. intros _. apply keeps_ret. Qed.

Lemma keeps_neutral {A} (p : Prog A) : neutral p -> keeps p.
Proof. intros Hp h h' r Q E HQ. apply Hp; [auto|]. by intros a; apply HQ. Qed.

(** An access that only looks, or changes what no frame depends on. *)
Lemma keeps_vis {R} (e : Event R) :
  (forall h r (Q : R -> Local -> Prop), (forall a, Q a (awake h [] r)) -> ewp count self e (awake h [] r) Q) -> keeps (vis e).
Proof. intros He h h' r Q E HQ. cbn. apply He. intros a. by apply HQ. Qed.

Lemma keeps_run_expired me : mine me -> keeps (run_expired count (Some me) me).
Proof. intros [Hs Hm] h h' r Q E HQ. apply run_expired_spec; [done|]. intros k h1 r' E'. apply HQ. by rewrite E', E. Qed.

Lemma keeps_reactor_poll me : mine me -> keeps (reactor_poll count (Some me) me).
Proof. intros [Hs Hm] h h' r Q E HQ. apply reactor_poll_spec; [done..|]. intros k h1 r' E'. apply HQ. by rewrite E', E. Qed.

(** The frame selected is put back first, so that it runs next. *)
Lemma stage_selected me x (p : Prog (option item)) : mine me -> selects p ->
  forall h h0 r Q, h0 ≡ₚ x :: h -> (forall v h' r', h' ≡ₚ option_list v ++ h -> Q v (awake h' [] r')) ->
  wp (stage_fairness_item count me x;; p) Q (awake h0 [] r).
Proof.
  intros Hm Hp h h0 r Q E HQ. wp_go. apply stage_spec with (h' := h); [done..|]. intros r'. by apply Hp.
Qed.

Ltac keeps_go :=
  repeat first [apply keeps_ret | apply keeps_when | apply void_places | apply keeps_run_expired | apply keeps_reactor_poll
    | apply keeps_neutral, neutral_publish_stealable | apply keeps_bind; [|intros] | done | case_match
    | apply keeps_vis; intros; wp_go; by eauto ].

Lemma service_fairness_selects me : mine me -> selects (service_fairness count me).
Proof.
  intros Hm h r Q HQ. unfold service_fairness. wp_go. apply drain_inbox_selects; [done|]. intros v h' r' E.
  destruct v as [x|].
  - apply (stage_selected me x _ Hm) with (h := h); [|done|done].
    repeat first [by apply take_local_selects|apply keeps_selects; [solve [keeps_go]|intros ?]].
  - apply wp_bind, wp_ret. cbn beta iota. apply (selects_perm _ h); [|done|done].
    repeat first [by apply take_local_selects|apply keeps_selects; [solve [keeps_go]|intros ?]].
Qed.

Lemma fairness_sources_selects me sources : mine me -> selects (fairness_sources count sources me).
Proof.
  intros Hm. induction sources as [|source sources IH]; cbn [fairness_sources].
  - apply keeps_selects; [keeps_go|]. intros _. apply selects_none.
  - intros h r Q HQ. apply wp_bind. destruct (decide (source = 0)%Z); [apply global_pop_selects|apply pop_local_selects; [done|]].
    all: intros [x|] h' r' E; [|by apply (selects_perm _ h)].
    all: apply wp_vis; (split; [done|]); intros _; by apply (stage_selected me x _ Hm (take_local_selects me Hm) h).
Qed.

Lemma next_local_selects me : mine me -> selects (next_local count me).
Proof.
  intros Hm. unfold next_local. apply keeps_selects; [keeps_go|]. intros o.
  repeat apply or_else_selects; try case_decide; try apply selects_none.
  - apply keeps_selects; [keeps_go|]. intros _. by apply service_fairness_selects.
  - unfold service_global_fairness. apply keeps_selects; [keeps_go|]. intros c. by apply fairness_sources_selects.
  - by apply take_local_selects.
Qed.

(** The first frame of a batch is selected, the others are pushed. *)
Lemma spread_batch me x rest h h0 r Q : mine me -> h0 ≡ₚ x :: rest ++ h ->
  (forall v h' r', h' ≡ₚ option_list v ++ h -> Q v (awake h' [] r')) ->
  wp (n ← push_all count me rest; publish_retained count me n;; mret (Some x)) Q (awake h0 [] r).
Proof.
  intros Hm E HQ. wp_go. apply push_all_spec with (h' := x :: h); [done|rewrite E; solve_Permutation|].
  intros n h' E'. wp_go. apply publish_retained_spec; auto. wp_go. by apply (HQ (Some x)).
Qed.

Lemma find_other_spec me from g Q : mine me -> Q None g -> (forall w, w < count -> Q (Some w) g) ->
  wp (find_other me from) Q g.
Proof. intros Hm Hn Hw. unfold find_other. wp_go; repeat case_decide; auto. Qed.

Lemma steal_loop_selects me attempts : mine me -> forall start, selects (steal_loop count attempts me start).
Proof.
  intros Hm. induction attempts as [|n IH]; intros start; cbn [steal_loop]; [apply selects_none|].
  intros h r Q HQ. wp_go. apply find_other_spec; [done|wp_go; by apply (HQ None)|]. intros v Hv. wp_go; [done|done|].
  apply neutral_repair_stealable; auto. intros still. destruct l as [|x rest]; [by apply IH|].
  apply wp_bind. apply push_all_spec with (h' := x :: h); [done|solve_Permutation|]. intros k h' E.
  apply wp_bind. apply publish_retained_spec; auto. intros _. wp_go; [|by apply (HQ (Some x))].
  apply neutral_wake_one_searcher; auto. intros _. wp_go. by apply (HQ (Some x)).
Qed.

Lemma keeps_rand me n : mine me -> keeps (rand_up_to me n).
Proof. intros Hm. by apply keeps_neutral, neutral_rand. Qed.

Lemma steal_selects me : mine me -> selects (steal_from_peers count me).
Proof.
  intros Hm. unfold steal_from_peers. case_decide; [apply selects_none|].
  apply keeps_selects; [by apply keeps_rand|]. intros start. by apply steal_loop_selects.
Qed.

Lemma keeps_wake_searcher start : keeps (wake_one_searcher count start).
Proof. apply keeps_neutral, neutral_wake_one_searcher. Qed.

Lemma credit_selects me : mine me -> selects (consume_searcher_credit count me).
Proof.
  intros Hm. unfold consume_searcher_credit. apply keeps_selects; [keeps_go|]. intros armed.
  apply keeps_selects; [keeps_go|]. intros armed'. destruct armed'; [|apply selects_none].
  apply or_else_selects; [by apply steal_selects|].
  apply keeps_selects; [keeps_go|]. intros any.
  apply keeps_selects; [apply keeps_when, void_places, keeps_wake_searcher|]. intros _. apply selects_none.
Qed.

Lemma find_work_selects me : mine me -> selects (find_work count me).
Proof.
  intros Hm. unfold find_work. pose proof (drain_inbox_selects me Hm) as Hd. pose proof (take_local_selects me Hm) as Ht.
  apply or_else_selects; [done|]. intros h r Q HQ. apply wp_bind. unfold global_pop_batch.
  assert (Hrest : selects (
      registered ← vis (ERegistered me);
      any ← (if (registered : bool) then vis EStealAny else mret false);
      or_else (if (any : bool) then reactor_poll count (Some me) me;; or_else (take_local count me) (drain_inbox count me) else mret None)
     (due ← vis (EDue me);
      fired ← (if (due : bool) then run_expired count (Some me) me else mret 0);
      or_else (if decide (0 < fired) then or_else (take_local count me) (drain_inbox count me) else mret None)
        (steal_from_peers count me)))).
  { apply keeps_selects; [keeps_go|]. intros registered. apply keeps_selects; [keeps_go|]. intros any.
    apply or_else_selects.
    - destruct any; [|apply selects_none]. apply keeps_selects; [keeps_go|]. intros _. by apply or_else_selects.
    - apply keeps_selects; [keeps_go|]. intros due. apply keeps_selects; [keeps_go|]. intros fired.
      apply or_else_selects; [|by apply steal_selects]. case_decide; [by apply or_else_selects|apply selects_none]. }
  apply wp_vis, global_empty_calm; [auto|by apply Hrest|]. cbn. split; [done|]. split; [lia|].
  intros [|x rest]; [by apply Hrest|]. by apply (spread_batch me x rest h).
Qed.

(** ** Parking *)

Lemma leave_park_spec me h r p Q : mine me -> (forall u, Q u (awake h [] r)) ->
  wp (leave_park me) Q (mkLocal h [] r p).
Proof.
  intros Hm HQ. destruct (Hm) as [Hs Hlt]. unfold leave_park. apply wp_vis. split; [done|].
  rewrite decide_True by done. intros b. cbn [owes discharge with_owes with_parked hand rn].
  change (wp (any ← vis EStealAny; when any (vis (ECreditStore me))) Q (awake h [] r)). wp_go; auto.
Qed.

(** The checks before the wait: if all are negative, all were made. *)
Lemma has_work_spec me h r Q : mine me ->
  (forall p, Q true (mkLocal h [] r p)) -> (r = None -> Q false (mkLocal h [] r (Some all_checks))) ->
  wp (worker_has_work me) Q (mkLocal h [] r (Some no_checks)).
Proof.
  intros Hm Ht Hf. destruct (Hm) as [Hs Hlt]. unfold worker_has_work. apply wp_vis. split; [done|]. cbn [rn].
  case_decide as Hr; [apply wp_ret, Ht|].
  assert (Htrue : forall f g, g = mkLocal h [] r f -> wp (mret true) Q g) by (intros f g ->; apply wp_ret, Ht).
  apply wp_vis. split; [done|]. split; [by eapply Htrue|]. rewrite decide_True by done.
  apply wp_vis. split; [done|]. split; [by eapply Htrue|].
  apply wp_vis. split; [by eapply Htrue|]. cbn [negb].
  apply wp_vis. intros []; [by eapply Htrue|]. cbn. intros []; [apply Ht|]. apply Hf.
  destruct r; [|done]. by destruct Hr.
Qed.

Lemma reactor_wait_spec me Q : mine me -> (forall u h' r', h' ≡ₚ [] -> Q u (awake h' [] r')) ->
  wp (reactor_wait count me) Q (mkLocal [] [] None (Some all_checks)).
Proof.
  intros Hm HQ. unfold reactor_wait. apply wp_vis. split; [done|]. split; [done|]. split.
  - apply wp_ret. by apply HQ.
  - intros cs. destruct Hm as [Hs Hm]. by apply (after_wait_places (Some me) me cs (eq_sym Hs) _ []).
Qed.

Lemma park_spec me r Q : mine me -> (forall u r', Q u (awake [] [] r')) -> wp (park count me) Q (awake [] [] r).
Proof.
  intros Hm HQ. destruct (Hm) as [Hs Hlt]. unfold park. apply wp_bind. apply neutral_repair_stealable; auto. intros b.
  apply wp_vis. split; [done|]. intros o. apply wp_vis. split; [done|]. split; [done|]. intros b'.
  cbn [with_parked hand owes rn]. apply wp_vis. intros stopping. apply wp_bind.
  assert (Hend : forall p, wp (leave_park me) Q (mkLocal [] [] r p)) by (intros p; apply leave_park_spec; auto).
  destruct stopping; [apply wp_ret, Hend|]. apply has_work_spec; [done|exact Hend|]. intros ->.
  apply wp_bind, reactor_wait_spec; [done|]. intros _ h' r' ->%Permutation_nil_r. apply wp_bind, leave_park_spec; [done|].
  intros _. apply wp_void, run_expired_spec; [done|]. intros k h' r'' ->%Permutation_nil_r. apply HQ.
Qed.

(** A turn of the worker's loop ends with the selected frame in its hands. *)
Definition turn_post (t : Turn) (g : Local) : Prop :=
  parked g = None /\ owes g = [] /\ hand g = match t with TRun x => [x] | _ => [] end.

Lemma run_turn_spec me back r : mine me -> wp (run_turn count me back) turn_post (awake [] [] r).
Proof.
  intros Hm. destruct (Hm) as [Hs Hlt]. unfold run_turn. apply wp_vis. intros [].
  - apply wp_vis. split; [done|]. rewrite decide_True by done. intros b. cbn.
    split; [done|]. intros _. done.
  - apply wp_bind. apply or_else_selects.
    + destruct back; [by apply credit_selects|apply selects_none].
    + apply or_else_selects; [by apply next_local_selects|by apply find_work_selects].
    + intros [x|] h' r' E; cbn in E.
      * apply Permutation_singleton_r in E as ->. apply wp_vis. split; [done|]. intros o. apply wp_ret. done.
      * apply Permutation_nil_r in E as ->. apply wp_bind, park_spec; [done|]. intros u r''. by apply wp_ret.
Qed.

(** ** The cooperative checkpoint and the monitor *)

Lemma keeps_debt me : mine me -> keeps (runnable_debt me).
Proof. intros Hm. unfold runnable_debt. keeps_go. Qed.

Lemma keeps_checkpoint s : s = self -> keeps (prepare_cooperative_io_checkpoint count s).
Proof.
  intros E. unfold prepare_cooperative_io_checkpoint, checkpoint_timers, checkpoint_end, yield_with.
  destruct s as [me|]; [|apply keeps_ret]. assert (Hm : mine me) by auto.
  pose proof (keeps_debt me Hm). keeps_go.
Qed.

Lemma keeps_return_debt s : s = self -> keeps (cooperative_io_return_debt count s).
Proof.
  intros E. pose proof (keeps_checkpoint s E) as Hc. unfold cooperative_io_return_debt. destruct s as [me|]; [|apply keeps_ret].
  assert (Hm : mine me) by auto. keeps_go.
Qed.

(** A frame taken out and staged stays with the worker. *)
Lemma keeps_staged me p : mine me -> selects p ->
  keeps (r ← p; match r with Some y => stage_fairness_item count me y;; mret true | None => mret false end).
Proof.
  intros Hm Hp h h' r Q E HQ. apply wp_bind, Hp. intros [y|] h1 r' E1.
  - apply wp_bind, stage_spec with (h' := h); [done..|]. intros r''. by apply wp_ret, HQ.
  - apply wp_ret, HQ. by rewrite E1.
Qed.

Lemma cooperative_places s x debt : s = self -> places (reschedule_self_for_cooperative_io count s x debt) [x].
Proof.
  intros E. unfold reschedule_self_for_cooperative_io. destruct s as [me|]; [|exact (fallback_places x None)].
  assert (Hm : mine me) by auto. intros h h' r Q Hp HQ.
  assert (Hg : keeps (if has_debt debt kDebtGlobal then
         r ← global_pop;
         match r with
         | Some y => vis (EOwn me (set_fair_cursor 1));; stage_fairness_item count me y;; mret true
         | None => mret false
         end else mret false)).
  { destruct (has_debt debt kDebtGlobal); [|apply keeps_ret]. intros h0 h0' r0 Q0 E0 HQ0. apply wp_bind, global_pop_selects.
    intros [y|] h1 r' E1; [|by apply wp_ret, HQ0; rewrite E1].
    apply wp_vis. split; [done|]. intros o. apply wp_bind, stage_spec with (h' := h0); [done..|].
    intros r''. by apply wp_ret, HQ0. }
  assert (Hi : keeps (if has_debt debt kDebtInbox then
         r ← drain_inbox count me;
         match r with Some y => stage_fairness_item count me y;; mret true | None => mret false end else mret false)).
  { destruct (has_debt debt kDebtInbox); [|apply keeps_ret]. by apply keeps_staged, drain_inbox_selects. }
  apply wp_bind, (Hg h h); [done|]. intros a h1 r1 E1. apply wp_bind, (Hi h1 h); [done|]. intros b h2 r2 E2.
  apply wp_bind. assert (Hlast : forall c, wp (void (push count me x c)) Q (awake h2 [] r2)).
  { intros c. apply wp_void, push_spec with (h' := h'); [done|by rewrite E2|]. intros ok. by apply HQ. }
  destruct (a || b); [by apply wp_ret|]. destruct (has_debt debt kDebtLocal); [|by apply wp_ret]. cbn. done.
Qed.

(** A wake sent for no reason harms nothing. *)
Lemma nudge_neutral s w : s = self -> neutral (nudge_poller count s w).
Proof.
  intros E Q g Hg HQ. unfold nudge_poller, reactor_nudge.
  assert (Hw : match valid_worker count w with Some v => v | None => 0 end < count).
  { destruct (valid_worker count w) eqn:Ev; [by eapply valid_lt|done]. }
  wp_go; auto.
Qed.

Lemma keeps_monitor w : self = None -> w < count -> keeps (monitor_worker count w).
Proof.
  intros Hs Hw h h' r Q E HQ. unfold monitor_worker.
  assert (Hend : forall h0 r0, h0 ≡ₚ h' -> wp (due ← vis (EDue w); when due (void (run_expired count None w))) Q (awake h0 [] r0)).
  { intros h0 r0 E0. wp_go; [|by apply HQ]. apply run_expired_spec; [done|]. intros k h1 r1 E1. apply HQ. by rewrite E1. }
  apply wp_vis. intros stale. apply wp_bind, wp_when. destruct stale; [|by apply Hend].
  apply reactor_poll_spec; [done..|]. intros u h1 r1 E1. apply Hend. by rewrite E1.
Qed.

Lemma keeps_notify : keeps (notify count).
Proof.
  intros h h' r Q E HQ. unfold notify. wp_go. apply wake_one_idle_spec; auto.
Qed.

Lemma keeps_notify_batch n : keeps (notify_batch count n).
Proof. intros h h' r Q E HQ. apply notify_batch_spec; [done|]. intros u. by apply HQ. Qed.

Lemma wake_all_neutral n : n <= count -> neutral (wake_all n).
Proof.
  intros Hn Q g Hg HQ. unfold wake_all. assert (Hall : Forall (fun w => w < count) (seq 0 n)).
  { apply Forall_forall. intros w Hw%elem_of_seq. lia. }
  induction Hall; cbn [foldr]; wp_go; auto.
Qed.
End calls.
