(* ===== verification/SchedSystem.v ===== *)
(** * All threads together

    The system of the workers' loops and any number of foreign threads, each at
    some access of some operation, and the invariant that the logic of file
    SchedLogic maintains. *)

From S2P Require Import Prelude Sched SchedOps SchedLogic.
From S2P Require RunQueue QueueProps Bitmap.
Import RunQueue (lrep).
Import Bitmap (bm_ok, member, bit_count).

Set Default Proof Using "Type".

(** ** Operations that other parts call *)

Inductive Call :=
  | CSchedule (x : item)
  | CScheduleTo (x : item) (w : option worker_id)
  | CScheduleNext (x : item)
  | CReschedule (x : item)
  | CCooperative (x : item) (debt : Z)
  | CDispatch (x : item) (w : option worker_id)
  | CDispatchNext (x : item)
  | CDispatchCompletion (x : item) (w : option worker_id)
  | CBatch (xs : list item)
  | CBatchTo (xs : list item) (w : option worker_id)
  | CCheckpoint
  | CNotify
  | CNotifyBatch (n : nat)
  | CNudge (w : option worker_id)
  | CMonitor (w : worker_id)
  | CWakeAll.

Definition call_prog (count : nat) (self : option worker_id) (c : Call) : Prog unit :=
  match c with
  | CSchedule x => schedule_frame count self x
  | CScheduleTo x w => schedule_to_frame count self x w
  | CScheduleNext x => schedule_next_frame count self x
  | CReschedule x => reschedule_self count self x
  | CCooperative x debt => reschedule_self_for_cooperative_io count self x debt
  | CDispatch x w => dispatch count self x w
  | CDispatchNext x => dispatch_next count self x
  | CDispatchCompletion x w => dispatch_completion count self x w
  | CBatch xs => schedule_batch count self xs
  | CBatchTo xs w => schedule_batch_to count self xs w
  | CCheckpoint => void (cooperative_io_return_debt count self)
  | CNotify => notify count
  | CNotifyBatch n => notify_batch count n
  | CNudge w => nudge_poller count self w
  | CMonitor w => monitor_worker count w
  | CWakeAll => wake_all count
  end.

(** The suspended frames a call makes runnable. *)
Definition call_frames (c : Call) : list item :=
  match c with
  | CSchedule x | CScheduleTo x _ | CScheduleNext x | CReschedule x | CCooperative x _
  | CDispatch x _ | CDispatchNext x | CDispatchCompletion x _ => [x]
  | CBatch xs | CBatchTo xs _ => xs
  | _ => []
  end.

(** The monitor's pass runs on a thread of its own. *)
Definition call_allowed (count : nat) (self : option worker_id) (c : Call) : Prop :=
  match c with CMonitor w => self = None /\ w < count | _ => True end.

(** ** Threads *)

(** A worker is at some point of a turn of its loop, or runs a task, which may
    be inside a call; a foreign thread only makes calls. *)
Inductive Code :=
  | CTurn (p : Prog Turn)
  | CTask (x : option item) (p : Prog unit)
  | CStopped.

Record Sys := mkSys { sched : Scheduler; code : list Code; finished : list item }.

Section system.
Context (count : nat).

Definition self_of (t : nat) : option worker_id := if decide (t < count) then Some t else None.

Definition first_code (t : nat) : Code := if decide (t < count) then CTurn (run_turn count t false) else CTask None (Ret tt).

Definition sys_init (threads : nat) (frames : list item) : Sys -> Prop := fun s =>
  s = mkSys (new_scheduler count frames) (map first_code (seq 0 threads)) [].

Inductive s_step : Sys -> Sys -> Prop :=
  (* one access *)
  | s_turn s cs fin t R (e : Event R) k i r s' : cs !! t = Some (CTurn (Vis e k)) ->
      exec i (self_of t) e s = Some (r, s') ->
      s_step (mkSys s cs fin) (mkSys s' (<[t := CTurn (k r)]> cs) fin)
  | s_task s cs fin t x R (e : Event R) k i r s' : cs !! t = Some (CTask x (Vis e k)) ->
      exec i (self_of t) e s = Some (r, s') ->
      s_step (mkSys s cs fin) (mkSys s' (<[t := CTask x (k r)]> cs) fin)
  (* the worker's loop *)
  | s_run s cs fin t x : cs !! t = Some (CTurn (Ret (TRun x))) ->
      s_step (mkSys s cs fin) (mkSys s (<[t := CTask (Some x) (Ret tt)]> cs) fin)
  | s_parked s cs fin t : cs !! t = Some (CTurn (Ret TParked)) ->
      s_step (mkSys s cs fin) (mkSys s (<[t := CTurn (run_turn count t true)]> cs) fin)
  | s_stopped s cs fin t : cs !! t = Some (CTurn (Ret TStop)) ->
      s_step (mkSys s cs fin) (mkSys s (<[t := CStopped]> cs) fin)
  | s_return s cs fin t : cs !! t = Some (CTask None (Ret tt)) -> t < count ->
      s_step (mkSys s cs fin) (mkSys s (<[t := CTurn (run_turn count t false)]> cs) fin)
  (* the task suspends, finishes, or calls the scheduler *)
  | s_suspend s cs fin t x : cs !! t = Some (CTask (Some x) (Ret tt)) ->
      s_step (mkSys s cs fin) (mkSys (set_suspended (x :: suspended s) s) (<[t := CTask None (Ret tt)]> cs) fin)
  | s_finish s cs fin t x : cs !! t = Some (CTask (Some x) (Ret tt)) ->
      s_step (mkSys s cs fin) (mkSys s (<[t := CTask None (Ret tt)]> cs) (x :: fin))
  | s_call s cs fin t x c s' : cs !! t = Some (CTask x (Ret tt)) -> call_allowed count (self_of t) c ->
      take_suspended (call_frames c) s = Some s' ->
      s_step (mkSys s cs fin) (mkSys s' (<[t := CTask x (call_prog count (self_of t) c)]> cs) fin)
  (* shutdown *)
  | s_shutdown s cs fin : s_step (mkSys s cs fin) (mkSys (set_stop s) cs fin).

(** ** Where the frames are *)

(** The frames of a ring, oldest first. *)
Definition local_items (q : LocalRunQueue) : list item :=
  default [] (RunQueue.read_slots (Z.to_nat (RunQueue.local_size q)) (RunQueue.head_ctr q) q).

Definition worker_frames (w : Worker) : list item := option_list (runnext w) ++ local_items (queue w) ++ map fst (inbox w).

(** The frames that some worker will find. *)
Definition queued (s : Scheduler) : list item := concat (map worker_frames (workers s)) ++ GlobalQueue.queue_ (global s).

Definition sched_frames (s : Scheduler) : list item := queued s ++ suspended s.

Definition code_frames (c : Code) : list item := match c with CTask (Some x) _ => [x] | _ => [] end.
End system.

Lemma local_items_rep q l : lrep q l -> local_items q = l.
Proof.
  intros Hr. unfold local_items. pose proof (QueueProps.local_queue_refines q l 0 1 0 Hr ltac:(lia)) as (_ & _ & _ & _ & Hs & _).
  rewrite Hs, Nat2Z.id. pose proof (RunQueue.read_slots_run q l (length l) 0 Hr ltac:(lia)) as E.
  rewrite Z.add_0_r, wrap_small in E by apply Hr. rewrite E. by rewrite drop_0, firstn_all.
Qed.

(** ** Counting frames *)

Definition occ (x : item) (l : list item) : nat := count_occ Nat.eq_dec l x.
#[global] Arguments occ : simpl never.

Lemma occ_app x l k : occ x (l ++ k) = occ x l + occ x k.
Proof. apply count_occ_app. Qed.

Lemma occ_cons x y l : occ x (y :: l) = occ x [y] + occ x l.
Proof. by rewrite <- (occ_app x [y] l). Qed.

Lemma occ_nil x : occ x [] = 0.
Proof. done. Qed.

Lemma occ_perm x l k : l ≡ₚ k -> occ x l = occ x k.
Proof. intros E. by apply (Permutation_count_occ Nat.eq_dec). Qed.

Lemma perm_occ l k : (forall x, occ x l = occ x k) -> l ≡ₚ k.
Proof. intros H. by apply (Permutation_count_occ Nat.eq_dec). Qed.

Lemma occ_concat_insert {A} (f : A -> list item) (l : list A) i a b x : l !! i = Some a ->
  occ x (concat (map f (<[i := b]> l))) + occ x (f a) = occ x (concat (map f l)) + occ x (f b).
Proof.
  revert i. induction l as [|y l IH]; intros [|i] Hi; simpl in *; [done..| |].
  - injection Hi as ->. rewrite !occ_app. lia.
  - rewrite !occ_app. specialize (IH i Hi). lia.
Qed.

(** ** The invariant *)

Definition token_of (s : Scheduler) (w : nat) : Prop := exists W, workers s !! w = Some W /\ wake_token W = true.
Definition head_visible (s : Scheduler) (w : nat) : Prop := exists W, workers s !! w = Some W /\ empty_inbox (inbox W) = false.
Definition reserved (s : Scheduler) (w : nat) (x : item) : Prop := exists W, workers s !! w = Some W /\ (x, false) ∈ inbox W.
Definition ring_empty (s : Scheduler) (w : nat) : Prop := forall W, workers s !! w = Some W -> lrep (queue W) [].
Definition rn_of (s : Scheduler) (w : nat) : option (option item) := runnext <$> workers s !! w.
Definition idle_bit (s : Scheduler) (w : nat) : Prop := member (idle_workers s) w.

Definition count_of (o : Obl) : nat := match o with OCount n => n | _ => 0 end.
Definition uncounted (g : Local) : nat := sum_list (map count_of (owes g)).
Definition all_uncounted (gs : list Local) : nat := sum_list (map uncounted gs).

(** Some thread owes [o]. *)
Definition owed (gs : list Local) (o : Obl) : Prop := exists (t : nat) g, gs !! t = Some g /\ o ∈ owes g.

(** Worker [w] has not found the global queue empty since it went idle. *)
Definition looks_global (g : Local) : Prop := forall c, parked g = Some c -> ck_global c = false.

Section invariant.
Context (count : nat) (frames : list item).

Record well_formed (s : Scheduler) : Prop := {
  wf_workers : length (workers s) = count;
  wf_hints : length (hints s) = count;
  wf_idle : bm_ok (idle_workers s) /\ bit_count (idle_workers s) = count;
  wf_steal : bm_ok (stealable_workers s) /\ bit_count (stealable_workers s) = count;
  wf_queue : forall (w : nat) W, workers s !! w = Some W -> exists l, lrep (queue W) l
}.

(** Somebody will look at the global queue. *)
Definition global_seen (s : Scheduler) (gs : list Local) : Prop :=
  (exists n, owed gs (OCount n)) \/ owed gs OWakeIdle \/ (exists w, owed gs (OToken w)) \/ (exists w, token_of s w) \/
  (exists (w : nat) g, w < count /\ gs !! w = Some g /\ looks_global g).

(** [rest]: the frames that run or are finished. *)
Record core (s : Scheduler) (gs : list Local) (rest : list item) : Prop := {
  co_wf : well_formed s;
  co_threads : count <= length gs;
  co_rn : forall (w : nat) g, w < count -> gs !! w = Some g -> rn_of s w = Some (rn g);
  co_frames : forall x, occ x (sched_frames s) + occ x (concat (map hand gs)) + occ x rest = occ x frames;
  co_size : GlobalQueue.size_ (global s) =
    u32 (Z.of_nat (length (GlobalQueue.queue_ (global s))) - Z.of_nat (all_uncounted gs));
  co_reserved : forall w x, reserved s w x -> owed gs (OPublish w x);
  co_wake : forall (w : nat) g c, gs !! w = Some g -> parked g = Some c ->
    w < count /\ (idle_bit s w \/ token_of s w \/ owed gs (OToken w));
  co_inbox : forall (w : nat) g c, gs !! w = Some g -> parked g = Some c -> ck_inbox c = true -> head_visible s w ->
    token_of s w \/ owed gs (OToken w) \/ owed gs (OWake w);
  co_global : GlobalQueue.queue_ (global s) <> [] -> global_seen s gs;
  co_local : forall (w : nat) g c, gs !! w = Some g -> parked g = Some c -> ck_local c = true -> ring_empty s w
}.

(** What a step of thread [t] has to keep, in terms of its own ghost. *)
Definition alive s g w : Prop := idle_bit s w \/ token_of s w \/ OToken w ∈ owes g.
Definition called s g w : Prop := token_of s w \/ OToken w ∈ owes g \/ OWake w ∈ owes g.
Definition responsible s g : Prop :=
  (exists n, OCount n ∈ owes g) \/ OWakeIdle ∈ owes g \/ (exists w, OToken w ∈ owes g) \/ (exists w, token_of s w).
Definition awake_here (t : nat) g : Prop := t < count /\ looks_global g.

Record move (t : nat) (s : Scheduler) (g : Local) (s' : Scheduler) (g' : Local) : Prop := {
  mv_wf : well_formed s';
  mv_rn : t < count -> rn_of s' t = Some (rn g');
  mv_rn_other : forall w, w <> t -> rn_of s' w = rn_of s w;
  mv_frames : forall x, occ x (sched_frames s') + occ x (hand g') = occ x (sched_frames s) + occ x (hand g);
  mv_size : forall N, GlobalQueue.size_ (global s) =
      u32 (Z.of_nat (length (GlobalQueue.queue_ (global s))) - Z.of_nat (N + uncounted g)) ->
    GlobalQueue.size_ (global s') =
      u32 (Z.of_nat (length (GlobalQueue.queue_ (global s'))) - Z.of_nat (N + uncounted g'));
  mv_reserved : forall w x, reserved s' w x ->
    OPublish w x ∈ owes g' \/ (reserved s w x /\ (OPublish w x ∈ owes g -> OPublish w x ∈ owes g'));
  mv_wake : forall w, alive s g w -> alive s' g' w \/ (w = t /\ parked g' = None);
  mv_wake_new : parked g' <> None -> t < count /\ (parked g <> None \/ alive s' g' t);
  mv_inbox : forall w, head_visible s' w -> called s' g' w \/ (w = t /\ parked g' = None) \/
    (head_visible s w /\ (called s g w -> called s' g' w \/ ~ idle_bit s' w));
  mv_inbox_new : forall c', parked g' = Some c' -> ck_inbox c' = true ->
    (exists c, parked g = Some c /\ ck_inbox c = true) \/ ~ head_visible s' t;
  mv_global : GlobalQueue.queue_ (global s') <> [] ->
    responsible s' g' \/ awake_here t g' \/ (exists w, w < count /\ ~ idle_bit s' w) \/ GlobalQueue.size_ (global s') = 0%Z \/
    (GlobalQueue.queue_ (global s) <> [] /\ (responsible s g -> responsible s' g') /\ (awake_here t g -> awake_here t g'));
  mv_local : forall w, w <> t -> ring_empty s w -> ring_empty s' w;
  mv_local_new : forall c', parked g' = Some c' -> ck_local c' = true ->
    ring_empty s' t \/ (exists c, parked g = Some c /\ ck_local c = true /\ (ring_empty s t -> ring_empty s' t))
}.

Lemma owed_here gs (t : nat) g' o : t < length gs -> o ∈ owes g' -> owed (<[t := g']> gs) o.
Proof. intros Ht Ho. exists t, g'. by rewrite list_lookup_insert_eq. Qed.

(** A debt of another thread, or of this one. *)
Lemma owed_split gs (t : nat) g g' o : gs !! t = Some g -> owed gs o ->
  o ∈ owes g \/ owed (<[t := g']> gs) o.
Proof.
  intros Hg (u & h & Hu & Ho). destruct (decide (u = t)) as [->|Hne].
  - left. by replace g with h by congruence.
  - right. exists u, h. by rewrite list_lookup_insert_ne by done.
Qed.

Lemma lookup_split (gs : list Local) (t : nat) g g' (w : nat) h : gs !! t = Some g -> <[t := g']> gs !! w = Some h ->
  (w = t /\ h = g') \/ (w <> t /\ gs !! w = Some h).
Proof.
  intros Hg Hw. apply list_lookup_insert_Some in Hw as [(-> & -> & _)|[Hne Hw]]; [by left|by right].
Qed.

Lemma uncounted_owed gs : all_uncounted gs <> 0 -> exists n, owed gs (OCount n).
Proof.
  unfold all_uncounted. intros Hs. induction gs as [|g gs IH]; [done|]. simpl in Hs.
  destruct (decide (uncounted g = 0)) as [Hz|Hz].
  - destruct IH as (n & t & h & Ht & Ho); [lia|]. by exists n, (S t), h.
  - assert (Hx : exists n, OCount n ∈ owes g).
    { unfold uncounted in Hz. induction (owes g) as [|o l IHl]; [done|]. simpl in Hz.
      destruct o as [| |n| |]; try (destruct IHl as [m Hm]; [done|]; exists m; by right). exists n. by left. }
    destruct Hx as [n Hn]. by exists n, 0, g.
Qed.

Context (Hbound : (Z.of_nat (length frames) < 2 ^ 32)%Z).

Lemma core_perm s gs rest : core s gs rest -> sched_frames s ++ concat (map hand gs) ++ rest ≡ₚ frames.
Proof. intros Hc. apply perm_occ. intros x. rewrite !occ_app, <- (co_frames _ _ _ Hc x). lia. Qed.

Section core_move.
Context (s s' : Scheduler) (gs : list Local) (rest : list item) (t : nat) (g g' : Local).
Context (Hc : core s gs rest) (Hg : gs !! t = Some g) (Hm : move t s g s' g').
#[local] Set Default Proof Using "Type*".
Abbreviation gs' := (<[t := g']> gs).

Lemma t_lt : t < length gs.
Proof. by apply lookup_lt_Some in Hg. Qed.

Lemma cm_here o : o ∈ owes g' -> owed gs' o.
Proof. apply owed_here, t_lt. Qed.

Lemma cm_wake (w : nat) h c : gs' !! w = Some h -> parked h = Some c ->
  w < count /\ (idle_bit s' w \/ token_of s' w \/ owed gs' (OToken w)).
Proof.
  intros Hw Hp.
  assert (Hold : forall h0 c0, gs !! w = Some h0 -> parked h0 = Some c0 -> (w = t -> parked g' <> None) ->
    w < count /\ (idle_bit s' w \/ token_of s' w \/ owed gs' (OToken w))).
  { intros h0 c0 Hw0 Hp0 Hne. destruct (co_wake _ _ _ Hc w h0 c0 Hw0 Hp0) as [Hlt Ha]. split; [done|].
    assert (Hk : alive s g w -> idle_bit s' w \/ token_of s' w \/ owed gs' (OToken w)).
    { intros [[Hi|[Ht|Ho]]|[-> Hn]]%(mv_wake _ _ _ _ _ Hm); auto; [|by destruct Hne]. right; right. by apply cm_here. }
    destruct Ha as [Hi|[Ht|Ho]]; [apply Hk; left; done|apply Hk; right; left; done|].
    destruct (owed_split gs t g g' _ Hg Ho) as [Ho'|Ho']; [apply Hk; right; right; done|auto]. }
  destruct (lookup_split gs t g g' w h Hg Hw) as [[-> ->]|[Hne Hw0]]; [|by apply (Hold h c)].
  destruct (mv_wake_new _ _ _ _ _ Hm) as [Hlt [Hpg|Ha]]; [by rewrite Hp| |].
  - destruct (parked g) as [c0|] eqn:E; [|done]. apply (Hold g c0 Hg E). intros _. by rewrite Hp.
  - split; [done|]. destruct Ha as [?|[?|Ho]]; auto. right; right. by apply cm_here.
Qed.

Lemma cm_inbox (w : nat) h c : gs' !! w = Some h -> parked h = Some c -> ck_inbox c = true -> head_visible s' w ->
  token_of s' w \/ owed gs' (OToken w) \/ owed gs' (OWake w).
Proof.
  intros Hw Hp Hck Hv. destruct (cm_wake w h c Hw Hp) as [Hlt Ha].
  assert (Hcall : called s' g' w -> token_of s' w \/ owed gs' (OToken w) \/ owed gs' (OWake w)).
  { intros [?|[Ho|Ho]]; [auto|right; left|right; right]; by apply cm_here. }
  destruct (mv_inbox _ _ _ _ _ Hm w Hv) as [?|[[-> Hn]|[Hv0 Hk]]]; [by apply Hcall| |].
  { destruct (lookup_split gs t g g' t h Hg Hw) as [[_ ->]|[? _]]; congruence. }
  assert (Hold : forall h0 c0, gs !! w = Some h0 -> parked h0 = Some c0 -> ck_inbox c0 = true ->
    token_of s' w \/ owed gs' (OToken w) \/ owed gs' (OWake w)).
  { intros h0 c0 Hw0 Hp0 Hck0.
    assert (Hk' : called s g w -> token_of s' w \/ owed gs' (OToken w) \/ owed gs' (OWake w)).
    { intros [?|Hni]%Hk; [by apply Hcall|]. destruct Ha as [?|[?|?]]; auto; done. }
    destruct (co_inbox _ _ _ Hc w h0 c0 Hw0 Hp0 Hck0 Hv0) as [Ht|[Ho|Ho]]; [apply Hk'; left; done|..].
    - destruct (owed_split gs t g g' _ Hg Ho); [apply Hk'; right; left; done|auto].
    - destruct (owed_split gs t g g' _ Hg Ho); [apply Hk'; right; right; done|auto]. }
  destruct (lookup_split gs t g g' w h Hg Hw) as [[-> ->]|[Hne Hw0]]; [|by apply (Hold h c)].
  destruct (mv_inbox_new _ _ _ _ _ Hm c Hp Hck) as [(c0 & Hp0 & Hck0)|?]; [by apply (Hold g c0)|done].
Qed.

Lemma cm_responsible : responsible s' g' -> global_seen s' gs'.
Proof.
  intros [[n Ho]|[Ho|[[w Ho]|Ht]]]; unfold global_seen.
  - left. exists n. by apply cm_here.
  - right; left. by apply cm_here.
  - right; right; left. exists w. by apply cm_here.
  - auto.
Qed.

Lemma cm_awake : awake_here t g' -> global_seen s' gs'.
Proof.
  intros [Hlt Ha]. right; right; right; right. exists t, g'. rewrite list_lookup_insert_eq by apply t_lt. done.
Qed.

Lemma cm_keep : (responsible s g -> responsible s' g') -> (awake_here t g -> awake_here t g') ->
  global_seen s gs -> global_seen s' gs'.
Proof.
  intros Hr Ha [[n Ho]|[Ho|[[w Ho]|[[w Ht]|(w & h & Hlt & Hw & Hl)]]]].
  - destruct (owed_split gs t g g' _ Hg Ho); [apply cm_responsible, Hr; left; eauto|left; eauto].
  - destruct (owed_split gs t g g' _ Hg Ho); [apply cm_responsible, Hr; right; left; done|right; left; done].
  - destruct (owed_split gs t g g' _ Hg Ho); [apply cm_responsible, Hr; right; right; left; eauto|right; right; left; eauto].
  - apply cm_responsible, Hr. right; right; right. eauto.
  - destruct (decide (w = t)) as [->|Hne]; [apply cm_awake, Ha; assert (h = g) as -> by congruence; done|].
    right; right; right; right. exists w, h. rewrite list_lookup_insert_ne by done. done.
Qed.

Lemma core_move : core s' gs' rest.
Proof.
  assert (Hframes : forall x, occ x (sched_frames s') + occ x (concat (map hand gs')) + occ x rest = occ x frames).
  { intros x. pose proof (co_frames _ _ _ Hc x). pose proof (mv_frames _ _ _ _ _ Hm x).
    pose proof (occ_concat_insert hand gs t g g' x Hg). lia. }
  assert (Hsize : GlobalQueue.size_ (global s') =
    u32 (Z.of_nat (length (GlobalQueue.queue_ (global s'))) - Z.of_nat (all_uncounted gs'))).
  { destruct (sum_insert uncounted gs t g Hg) as (N & E & E'). unfold all_uncounted. rewrite E'.
    apply (mv_size _ _ _ _ _ Hm). rewrite (co_size _ _ _ Hc). unfold all_uncounted. by rewrite E. }
  assert (Hglobal : GlobalQueue.queue_ (global s') <> [] -> global_seen s' gs').
  { intros Hq. destruct (mv_global _ _ _ _ _ Hm Hq) as [Hr|[Ha|[(w & Hlt & Hn)|[Hz|(Hq0 & Hr & Ha)]]]].
    - by apply cm_responsible.
    - by apply cm_awake.
    - destruct (lookup_lt_is_Some_2 gs' w) as [h Hh].
      { rewrite length_insert. pose proof (co_threads _ _ _ Hc). lia. }
      destruct (parked h) as [c|] eqn:Hp.
      + destruct (cm_wake w h c Hh Hp) as [_ [?|[?|?]]]; [done|..].
        * right; right; right; left. eauto.
        * right; right; left. eauto.
      + right; right; right; right. exists w, h. split_and!; [done..|]. intros c. by rewrite Hp.
    - left. apply uncounted_owed. intros E. rewrite Hz, E, Z.sub_0_r in Hsize.
      assert (Hl : length (GlobalQueue.queue_ (global s')) <= length frames).
      { assert (Hperm : sched_frames s' ++ concat (map hand gs') ++ rest ≡ₚ frames).
        { apply perm_occ. intros x. rewrite !occ_app, <- (Hframes x). lia. }
        apply Permutation_length in Hperm. unfold sched_frames, queued in Hperm. rewrite !length_app in Hperm. lia. }
      rewrite wrap_small in Hsize by (unfold in_range; lia). destruct (GlobalQueue.queue_ (global s')); [done|].
      simpl in Hsize. lia.
    - apply cm_keep; [done..|]. by apply (co_global _ _ _ Hc). }
  split; [apply (mv_wf _ _ _ _ _ Hm)| | |done|done| |exact cm_wake|exact cm_inbox|done|].
  - rewrite length_insert. apply Hc.
  - intros w h Hlt Hw. destruct (lookup_split gs t g g' w h Hg Hw) as [[-> ->]|[Hne Hw0]].
    + by apply (mv_rn _ _ _ _ _ Hm).
    + rewrite (mv_rn_other _ _ _ _ _ Hm w Hne). by apply (co_rn _ _ _ Hc).
  - intros w x Hr. destruct (mv_reserved _ _ _ _ _ Hm w x Hr) as [Ho|[Hr0 Hk]]; [by apply cm_here|].
    destruct (owed_split gs t g g' _ Hg (co_reserved _ _ _ Hc w x Hr0)); [by apply cm_here, Hk|done].
  - intros w h c Hw Hp Hck. destruct (lookup_split gs t g g' w h Hg Hw) as [[-> ->]|[Hne Hw0]].
    + destruct (mv_local_new _ _ _ _ _ Hm c Hp Hck) as [?|(c0 & Hp0 & Hck0 & Hk)]; [done|].
      by apply Hk, (co_local _ _ _ Hc t g c0).
    + apply (mv_local _ _ _ _ _ Hm w Hne). by apply (co_local _ _ _ Hc w h c).
Qed.
End core_move.

End invariant.
