(* ===== verification/SchedSound.v ===== *)
(** * Soundness of the scheduler's logic

    Every access keeps the invariant of file SchedSystem, with the effect on the
    thread's ghost that the logic gives it. *)

From S2P Require Import Prelude Sched SchedOps SchedLogic SchedSystem.
From S2P Require RunQueue QueueProps Bitmap GlobalQueue.
Import RunQueue (lrep).
Import Bitmap (bm_ok, member, bit_count).

Set Default Proof Using "Type".

Section moves.
Context (count : nat).
Abbreviation move := (move count).
Abbreviation well_formed := (well_formed count).

(** What a step may assume of its thread. *)
Definition thread_ok (t : nat) (s : Scheduler) (g : Local) : Prop :=
  well_formed s /\ (t < count -> rn_of s t = Some (rn g)) /\ (parked g <> None -> t < count).

Lemma core_thread frames s gs rest t g : core count frames s gs rest -> gs !! t = Some g -> thread_ok t s g.
Proof.
  intros Hc Hg. split_and!; [apply Hc|intros Ht; by apply (co_rn _ _ _ _ _ Hc)|].
  intros Hp. destruct (parked g) as [c|] eqn:E; [|done]. by apply (co_wake _ _ _ _ _ Hc t g c).
Qed.

(** ** Views of a changed state *)

Lemma worker_at s w W W' v V : workers s !! w = Some W ->
  workers (set_workers (<[w := W']> (workers s)) s) !! v = Some V -> (v = w /\ V = W') \/ (v <> w /\ workers s !! v = Some V).
Proof. intros Hw Hv. cbn in Hv. apply list_lookup_insert_Some in Hv as [(<- & <- & _)|[? ?]]; [by left|right; by split; [congruence|]]. Qed.

Lemma frames_at s w W W' x : workers s !! w = Some W ->
  occ x (sched_frames (set_workers (<[w := W']> (workers s)) s)) + occ x (worker_frames W) =
  occ x (sched_frames s) + occ x (worker_frames W').
Proof.
  intros Hw. unfold sched_frames, queued. cbn. rewrite !occ_app.
  pose proof (occ_concat_insert worker_frames (workers s) w W W' x Hw). lia.
Qed.

Lemma worker_eq s w W W' : workers s !! w = Some W -> workers (set_workers (<[w := W']> (workers s)) s) !! w = Some W'.
Proof. intros Hw. cbn. apply list_lookup_insert_eq. by apply lookup_lt_Some in Hw. Qed.

Lemma worker_ne s w W' v : v <> w -> workers (set_workers (<[w := W']> (workers s)) s) !! v = workers s !! v.
Proof. intros Hne. cbn. by apply list_lookup_insert_ne. Qed.

Section at_worker.
Context (t : nat) (s : Scheduler) (g g' : Local) (w : nat) (W W' : Worker).
Context (Hok : thread_ok t s g) (Hw : workers s !! w = Some W).
Abbreviation s' := (set_workers (<[w := W']> (workers s)) s).

(** The step leaves its thread awake. *)
Abbreviation up := (w = t /\ parked g' = None /\ t < count).

Lemma move_worker :
  (exists l, lrep (queue W') l) ->
  (w = t -> runnext W' = rn g') -> (w <> t -> runnext W' = runnext W /\ rn g' = rn g) ->
  (forall x, occ x (worker_frames W') + occ x (hand g') = occ x (worker_frames W) + occ x (hand g)) ->
  uncounted g' = uncounted g ->
  (forall o, o ∈ owes g -> o ∈ owes g' \/ (exists x, o = OPublish w x) \/ (o = OToken w /\ wake_token W' = true)) ->
  (forall x, (x, false) ∈ inbox W' -> OPublish w x ∈ owes g' \/ ((x, false) ∈ inbox W /\ (OPublish w x ∈ owes g -> OPublish w x ∈ owes g'))) ->
  (empty_inbox (inbox W') = false -> empty_inbox (inbox W) = false \/ up \/ OWake w ∈ owes g') ->
  (wake_token W = true -> wake_token W' = true \/ up) ->
  (up \/ (lrep (queue W) [] -> lrep (queue W') [])) ->
  (parked g' = parked g \/ (parked g' = None)) ->
  move t s g s' g'.
Proof using Hok Hw.
  intros Hq Hrn Hrn' Hf Hu Ho Hres Hhead Htok Hloc Hp. destruct Hok as (Hwf & Hrnt & Hpk).
  pose proof (worker_eq s w W W' Hw) as Heq.
  assert (Htokof : forall v, token_of s v -> token_of s' v \/ (v = w /\ up)).
  { intros v (V & HV & Ht). destruct (decide (v = w)) as [->|Hne].
    - assert (V = W) as -> by congruence. destruct (Htok Ht); [left; by exists W'|auto].
    - left. exists V. by rewrite worker_ne. }
  assert (Howes : forall o, o ∈ owes g -> o ∈ owes g' \/ (exists x, o = OPublish w x) \/ (o = OToken w /\ token_of s' w)).
  { intros o [?|[?|[-> Ht]]]%Ho; auto. right; right. split; [done|]. by exists W'. }
  split.
  - split; cbn; try apply Hwf; [rewrite length_insert; apply Hwf|]. intros v V HV.
    destruct (worker_at s w W W' v V Hw HV) as [[-> ->]|[_ HV']]; [done|]. by apply (wf_queue _ _ Hwf v).
  - intros Ht. unfold rn_of. destruct (decide (w = t)) as [->|Hne]; [by rewrite Heq, <- Hrn|].
    rewrite worker_ne by done. destruct (Hrn' Hne) as [_ ->]. by apply Hrnt.
  - intros v Hv. unfold rn_of. destruct (decide (v = w)) as [->|Hne]; [|by rewrite worker_ne].
    rewrite Heq, Hw. cbn. by destruct (Hrn' Hv) as [-> _].
  - intros x. pose proof (frames_at s w W W' x Hw). specialize (Hf x). lia.
  - intros N. cbn. by rewrite Hu.
  - intros v x (V & HV & Hx). destruct (worker_at s w W W' v V Hw HV) as [[-> ->]|[Hne HV']].
    + destruct (Hres x Hx) as [?|[? ?]]; [auto|]. right. split; [by exists W|done].
    + right. split; [by exists V|]. intros [?|[[y [= ? _]]|[? _]]]%Ho; done.
  - intros v [Hi|[Ht|Hot]]; [left; by left|..].
    + destruct (Htokof v Ht) as [?|(-> & -> & Hn & _)]; [left; right; by left|by right].
    + destruct (Howes _ Hot) as [?|[[y ?]|[[= ->] ?]]]; [left; right; by right|done|left; right; by left].
  - intros Hn. destruct Hp as [Hp|Hp]; [|congruence]. rewrite Hp in Hn. split; [by apply Hpk|by left].
  - intros v (V & HV & Hv).
    assert (Hcall : called s g v -> called s' g' v \/ (v = w /\ up)).
    { intros [Ht|[Hot|Hot]].
      - destruct (Htokof v Ht); [left; by left|auto].
      - destruct (Howes _ Hot) as [?|[[y ?]|[[= ->] ?]]]; [left; right; by left|done|left; by left].
      - destruct (Howes _ Hot) as [?|[[y ?]|[? _]]]; [left; right; by right|done|done]. }
    destruct (worker_at s w W W' v V Hw HV) as [[-> ->]|[Hne HV']].
    + destruct (Hhead Hv) as [Hv0|[(-> & Hn & _)|Hot]]; [|auto|left; right; by right].
      destruct (decide (w = t /\ parked g' = None)) as [[-> ?]|Hnup]; [auto|]. right; right. split; [by exists W|].
      intros [?|(_ & -> & ? & _)]%Hcall; [auto|]. by destruct Hnup.
    + right; right. split; [by exists V|]. intros [?|[? _]]%Hcall; [auto|done].
  - intros c' Hc' Hck. destruct Hp as [Hp|Hp]; [|congruence]. left. exists c'. split; [congruence|done].
  - cbn. intros Hne. destruct (decide (w = t /\ parked g' = None /\ t < count)) as [(-> & Hn & Hlt)|Hnup].
    + right; left. split; [done|]. intros c. congruence.
    + right; right; right; right. split; [done|]. split.
      * intros [[n Hot]|[Hot|[[v Hot]|[v Ht]]]].
        -- destruct (Howes _ Hot) as [?|[[y ?]|[? _]]]; [left; eauto|done|done].
        -- destruct (Howes _ Hot) as [?|[[y ?]|[? _]]]; [right; left; done|done|done].
        -- destruct (Howes _ Hot) as [?|[[y ?]|[[= ->] ?]]]; [right; right; left; eauto|done|right; right; right; eauto].
        -- destruct (Htokof v Ht) as [?|[_ ?]]; [right; right; right; eauto|done].
      * intros [Hlt Hl]. split; [done|]. intros c Hc. destruct Hp as [Hp|Hp]; [apply Hl; congruence|congruence].
  - intros v Hv He V HV. destruct (worker_at s w W W' v V Hw HV) as [[-> ->]|[Hne HV']]; [|by apply He].
    destruct Hloc as [[-> _]|Hk]; [done|]. by apply Hk, He.
  - intros c' Hc' Hck. destruct Hp as [Hp|Hp]; [|congruence]. right. exists c'. split; [congruence|]. split; [done|].
    intros He V HV. destruct (worker_at s w W W' t V Hw HV) as [[-> ->]|[Hne HV']]; [|by apply He].
    destruct Hloc as [(_ & Hn & _)|Hk]; [congruence|]. by apply Hk, He.
Qed.
End at_worker.

(** ** The other parts of the state *)

(** Only hints, cursors or the stop flag change. *)
Lemma move_same t s g s' : thread_ok t s g -> well_formed s' -> workers s' = workers s -> global s' = global s ->
  idle_workers s' = idle_workers s -> suspended s' = suspended s -> move t s g s' g.
Proof.
  intros (Hwf & Hrn & Hpk) Hwf' Ew Eg Ei Es.
  assert (Et : forall w, token_of s' w <-> token_of s w) by (intros w; unfold token_of; by rewrite Ew).
  assert (Ev : forall w, head_visible s' w <-> head_visible s w) by (intros w; unfold head_visible; by rewrite Ew).
  assert (Er : forall w x, reserved s' w x <-> reserved s w x) by (intros w x; unfold reserved; by rewrite Ew).
  assert (El : forall w, ring_empty s' w <-> ring_empty s w) by (intros w; unfold ring_empty; by rewrite Ew).
  split; try done.
  - unfold rn_of. by rewrite Ew.
  - intros w _. unfold rn_of. by rewrite Ew.
  - intros x. unfold sched_frames, queued. by rewrite Ew, Eg, Es.
  - intros N. by rewrite Eg.
  - intros w x Hr. right. split; [by apply Er|done].
  - intros w. unfold alive, idle_bit. rewrite Et, Ei. auto.
  - intros Hn. auto.
  - intros w Hv. right; right. split; [by apply Ev|]. unfold called. rewrite Et. auto.
  - intros c Hc Hck. left. by exists c.
  - rewrite Eg. intros Hq. right; right; right; right. split; [done|]. split; [|done]. unfold responsible. by setoid_rewrite Et.
  - intros w _. by rewrite El.
  - intros c Hc Hck. right. exists c. by rewrite El.
Qed.

(** Only what the thread knows about being parked changes. *)
Lemma move_parked t s g p : thread_ok t s g ->
  (p <> None -> t < count /\ (parked g <> None \/ alive s g t)) ->
  (forall c', p = Some c' -> ck_inbox c' = true -> (exists c, parked g = Some c /\ ck_inbox c = true) \/ ~ head_visible s t) ->
  (forall c', p = Some c' -> ck_local c' = true -> (exists c, parked g = Some c /\ ck_local c = true) \/ ring_empty s t) ->
  (awake_here count t g -> awake_here count t (with_parked p g) \/ GlobalQueue.size_ (global s) = 0%Z) ->
  move t s g s (with_parked p g).
Proof.
  intros (Hwf & Hrn & Hpk) H1 H2 H3 H4. split; try done.
  - intros w x Hr. by right.
  - intros w Ha. by left.
  - intros w Hv. right; right. split; [done|]. intros Hc. by left.
  - intros Hq. destruct (decide (GlobalQueue.size_ (global s) = 0%Z)); [auto|].
    right; right; right; right. split; [done|]. split; [done|]. intros Ha. by destruct (H4 Ha).
  - intros c Hc Hck. destruct (H3 c Hc Hck) as [(c0 & ? & ?)|?]; [|by left]. right. by exists c0.
Qed.

(** The thread wakes up. *)
Lemma move_up t s g : thread_ok t s g -> move t s g s (with_parked None g).
Proof.
  intros Hok. apply move_parked; [done|done|done|done|]. intros [Hlt _]. left. by split.
Qed.

(** Suspended frames and those in the thread's hands. *)
Lemma move_suspended t s g l h : thread_ok t s g ->
  (forall x, occ x l + occ x h = occ x (suspended s) + occ x (hand g)) ->
  move t s g (set_suspended l s) (with_hand h g).
Proof.
  intros (Hwf & Hrn & Hpk) Hf. split; try done; try (destruct Hwf; by split).
  - intros x. specialize (Hf x). unfold sched_frames, queued. cbn. rewrite !occ_app. lia.
  - intros w x Hr. by right.
  - intros w Ha. by left.
  - intros Hn. auto.
  - intros w Hv. right; right. split; [done|]. intros Hc. by left.
  - intros c Hc Hck. left. by exists c.
  - intros Hq. right; right; right; right. done.
  - intros c Hc Hck. right. by exists c.
Qed.

Lemma move_global t s g G h o : thread_ok t s g ->
  (forall x, occ x (GlobalQueue.queue_ G) + occ x h = occ x (GlobalQueue.queue_ (global s)) + occ x (hand g)) ->
  (forall N, GlobalQueue.size_ (global s) =
      u32 (Z.of_nat (length (GlobalQueue.queue_ (global s))) - Z.of_nat (N + uncounted g)) ->
    GlobalQueue.size_ G = u32 (Z.of_nat (length (GlobalQueue.queue_ G)) - Z.of_nat (N + uncounted (with_owes o g)))) ->
  (forall p, p ∈ owes g -> p ∈ o \/ exists n, p = OCount n) ->
  (GlobalQueue.queue_ G <> [] -> (exists n, OCount n ∈ o) \/ OWakeIdle ∈ o \/ (GlobalQueue.queue_ (global s) <> [] /\ o = owes g)) ->
  move t s g (set_global G s) (with_owes o (with_hand h g)).
Proof.
  intros (Hwf & Hrn & Hpk) Hf Hs Ho Hq.
  assert (Hkeep : forall p, p ∈ owes g -> (forall n, p <> OCount n) -> p ∈ o).
  { intros p Hp Hn. destruct (Ho p Hp) as [?|[n ?]]; [done|]. by destruct (Hn n). }
  split; try done; try (destruct Hwf; by split).
  - intros x. specialize (Hf x). unfold sched_frames, queued. cbn. rewrite !occ_app. lia.
  - intros w x Hr. right. split; [done|]. intros ?. by apply Hkeep.
  - intros w [?|[?|?]]; left; [by left|right; by left|right; right]. by apply Hkeep.
  - intros Hn. auto.
  - intros w Hv. right; right. split; [done|]. intros [?|[?|?]]; left; [by left|right; left|right; right]; by apply Hkeep.
  - intros c Hc Hck. left. by exists c.
  - intros Hne. destruct (Hq Hne) as [?|[?|[? ->]]]; [left; by left|left; right; by left|].
    right; right; right; right. done.
  - intros c Hc Hck. right. by exists c.
Qed.

Lemma move_idle t s g b o : thread_ok t s g -> bm_ok b -> bit_count b = count ->
  (forall v, idle_bit s v -> member b v \/ OToken v ∈ o \/ (v = t /\ parked g = None)) ->
  (forall p, p ∈ owes g -> p ∈ o \/ (exists v, p = OWake v /\ ~ member b v) \/
     (p = OWakeIdle /\ ((exists w, w < count /\ ~ member b w) \/ exists v, OToken v ∈ o))) ->
  uncounted (with_owes o g) = uncounted g ->
  move t s g (set_idle b s) (with_owes o g).
Proof.
  intros (Hwf & Hrn & Hpk) Hb Hn Hi Ho Hu. split; try done; try (destruct Hwf; by split).
  - intros N. by rewrite Hu.
  - intros w x Hr. right. split; [done|]. intros [?|[[v [? _]]|[? _]]]%Ho; done.
  - intros w [[?|[?|?]]%Hi|[?|[?|[[v [? _]]|[? _]]]%Ho]]; try done; auto.
    + left; by left.
    + left; right; by right.
    + left; right; by left.
    + left; right; by right.
  - intros Hp. auto.
  - intros w Hv. right; right. split; [done|].
    intros [?|[[?|[[v [? _]]|[? _]]]%Ho|[?|[[v [[= ->] ?]]|[? _]]]%Ho]]; try done; auto.
    + left; by left.
    + left; right; by left.
    + left; right; by right.
  - intros c Hc Hck. left. by exists c.
  - intros Hq. destruct (decide (OWakeIdle ∈ owes g)) as [Hw|Hw].
    { destruct (Ho _ Hw) as [?|[[v [? _]]|[_ [?|?]]]]; [left; right; by left|done|right; right; by left|left; right; right; by left]. }
    right; right; right; right. split; [done|]. split; [|done].
    intros [[n Hc]|[Hc|[[v Hc]|?]]]; [|done| |right; right; by right].
    + destruct (Ho _ Hc) as [?|[[v [? _]]|[? _]]]; [left; by exists n|done|done].
    + destruct (Ho _ Hc) as [?|[[u [? _]]|[? _]]]; [right; right; left; by exists v|done|done].
  - intros c Hc Hck. right. by exists c.
Qed.

(** ** Debts *)

Lemma discharge_in p o l : p ∈ l -> p = o \/ p ∈ discharge o l.
Proof.
  induction l as [|q l IH]; cbn; [by intros ?%not_elem_of_nil|]. intros [->|Hp]%elem_of_cons; case_decide; auto.
  - right. apply elem_of_cons. by left.
  - destruct (IH Hp); [by left|right; apply elem_of_cons; by right].
Qed.

Lemma discharge_sum o l : count_of o = 0 -> sum_list (map count_of (discharge o l)) = sum_list (map count_of l).
Proof.
  intros Ho. induction l as [|q l IH]; cbn; [done|]. case_decide as E; [by rewrite E, Ho|]. cbn. by rewrite IH.
Qed.

Lemma owes_sum (l k : list Obl) : l ≡ₚ k -> sum_list (map count_of l) = sum_list (map count_of k).
Proof. intros E. by rewrite E. Qed.

(** ** Every access is sound *)

(** One move or more. *)
Inductive moves (t : nat) : Scheduler -> Local -> Scheduler -> Local -> Prop :=
  | move_one s g s' g' : move t s g s' g' -> moves t s g s' g'
  | move_more s g s1 g1 s' g' : move t s g s1 g1 -> moves t s1 g1 s' g' -> moves t s g s' g'.

Lemma move_ok t s g s' g' : move t s g s' g' -> thread_ok t s' g'.
Proof.
  intros Hm. split_and!; [apply Hm|apply (mv_rn _ _ _ _ _ _ Hm)|]. intros Hp. by apply (mv_wake_new _ _ _ _ _ _ Hm).
Qed.

Lemma moves_cons t s g s1 g1 s' g' : move t s g s1 g1 -> (thread_ok t s1 g1 -> moves t s1 g1 s' g') -> moves t s g s' g'.
Proof. intros Hm Hk. eapply move_more; [exact Hm|]. by eapply Hk, move_ok. Qed.

Definition sound {R} (e : Event R) : Prop := forall t s g i r s' K, thread_ok t s g ->
  ewp count (self_of count t) e g K -> exec i (self_of count t) e s = Some (r, s') ->
  exists g', K r g' /\ moves t s g s' g'.

Lemma mine_inv t me : mine count (self_of count t) me -> me = t /\ t < count.
Proof. unfold mine, self_of. intros [E Hlt]. case_decide; [|done]. injection E as ->. done. Qed.

(** *** Accesses that move no frame *)

Definition preserves_views (s s' : Scheduler) : Prop :=
  (well_formed s -> well_formed s') /\ workers s' = workers s /\ global s' = global s /\
  idle_workers s' = idle_workers s /\ suspended s' = suspended s.

Lemma views_move t s g s' : thread_ok t s g -> preserves_views s s' -> moves t s g s' g.
Proof. intros Hok (Hwf & ? & ? & ? & ?). apply move_one, move_same; try done. apply Hwf, Hok. Qed.

Lemma hints_views {R} w (f : Hints -> R * Hints) s r s' : at_hints w f s = Some (r, s') -> preserves_views s s'.
Proof.
  unfold at_hints. destruct (hints s !! w) as [h|]; [|done]. intros [= _ <-]. split; [|done].
  intros []. split; try done. cbn. by rewrite length_insert.
Qed.

Lemma look_views {R} (v : option R) s r s' : look v s = Some (r, s') -> preserves_views s s'.
Proof. destruct v; [|done]. by intros [= _ <-]. Qed.

Lemma cursors_views p w s : preserves_views s (set_cursors p w s).
Proof. split; [|done]. intros []. by split. Qed.

Lemma steal_views s b : bm_ok b -> bit_count b = count -> preserves_views s (set_stealable b s).
Proof. intros Hb Hn. split; [|done]. intros []. by split. Qed.

Lemma bm_count w b f b' : Bitmap.bm_set w b = Some (f, b') \/ Bitmap.bm_clear w b = Some (f, b') -> bit_count b' = bit_count b.
Proof.
  unfold Bitmap.bm_set, Bitmap.bm_clear. intros [H|H]; case_decide; try (by injection H as _ <-).
  all: destruct (Bitmap.word_of b w); [|done]; by injection H as _ <-.
Qed.

Lemma steal_set_views s w r s' : w < count -> well_formed s ->
  at_stealable (Bitmap.bm_set w (stealable_workers s)) s = Some (r, s') -> preserves_views s s'.
Proof.
  intros Hw Hwf H. destruct (wf_steal _ _ Hwf) as [Hb Hn].
  destruct (Bitmap.set_run _ w Hb ltac:(lia)) as (f & b' & E & Hb' & _). rewrite E in H. injection H as <- <-.
  apply steal_views; [done|]. cbn. rewrite <- Hn. by apply (bm_count w _ f); left.
Qed.

Lemma steal_clear_views s w r s' : w < count -> well_formed s ->
  at_stealable (Bitmap.bm_clear w (stealable_workers s)) s = Some (r, s') -> preserves_views s s'.
Proof.
  intros Hw Hwf H. destruct (wf_steal _ _ Hwf) as [Hb Hn].
  destruct (Bitmap.clear_run _ w Hb ltac:(lia)) as (f & b' & E & Hb' & _). rewrite E in H. injection H as <- <-.
  apply steal_views; [done|]. cbn. rewrite <- Hn. by apply (bm_count w _ f); right.
Qed.

(** The answer of a search names a worker. *)
Lemma found_lt start b v : bm_ok b -> Bitmap.find_from start b = Some (Some v) -> v < bit_count b.
Proof. intros Hb E. destruct (Bitmap.find_from_run start b Hb) as (r & E' & Hr). rewrite E in E'. injection E' as <-. apply Hr. Qed.

(** Accesses whose effect the scheduler's correctness does not depend on. *)
Definition silent {R} (e : Event R) : Prop := forall t s g i r s' K, thread_ok t s g ->
  ewp count (self_of count t) e g K -> exec i (self_of count t) e s = Some (r, s') ->
  K r g /\ preserves_views s s'.

Lemma silent_sound {R} (e : Event R) : silent e -> sound e.
Proof.
  intros He t s g i r s' K Hok Hw Hx. destruct (He t s g i r s' K Hok Hw Hx) as [HK Hv]. exists g. split; [done|].
  by apply views_move.
Qed.

#[local] Ltac quiet :=
  intros t s g i r s' K Hok Hw Hx; cbn in Hw, Hx;
  split; [first [apply Hw | destruct r; apply Hw | idtac] | first [by eapply hints_views | by eapply look_views
    | by injection Hx as _ <- | by injection Hx as _ <-; apply cursors_views | idtac]].

Lemma silent_own me f : silent (EOwn me f).
Proof. quiet. Qed.
Lemma silent_publish_store me v : silent (EPublishStore me v).
Proof. quiet. Qed.
Lemma silent_publish_load w : silent (EPublishLoad w).
Proof. quiet. Qed.
Lemma silent_clear_load me : silent (EClearLoad me).
Proof. quiet. Qed.
Lemma silent_clear_bump w : silent (EClearBump w).
Proof. quiet. Qed.
Lemma silent_credit_store w : silent (ECreditStore w).
Proof. quiet. Qed.
Lemma silent_credit_load me : silent (ECreditLoad me).
Proof. quiet. Qed.
Lemma silent_credit_exchange me : silent (ECreditExchange me).
Proof. quiet. Qed.
Lemma silent_wake_cursor : silent EWakeCursor.
Proof. quiet. Qed.
Lemma silent_placement : silent EPlacement.
Proof. quiet. Qed.
Lemma silent_stopping : silent EStopping.
Proof. quiet. Qed.
Lemma silent_registered w : silent (ERegistered w).
Proof. quiet. Qed.
Lemma silent_ticket w : silent (ETicket w).
Proof. quiet. Qed.
Lemma silent_due w : silent (EDue w).
Proof. quiet. Qed.
Lemma silent_idle_any : silent EIdleAny.
Proof. quiet. Qed.
Lemma silent_steal_any : silent EStealAny.
Proof. quiet. Qed.
Lemma silent_steal_test w : silent (EStealTest w).
Proof. quiet. Qed.
Lemma silent_steal_set w : silent (EStealSet w).
Proof. quiet. eapply steal_set_views; [apply Hw|apply Hok|done]. Qed.
Lemma silent_steal_clear w : silent (EStealClear w).
Proof. quiet. eapply steal_clear_views; [apply Hw|apply Hok|done]. Qed.

(** A search answers with a worker. *)
Lemma look_found start b s r s' (K : option worker_id -> Local -> Prop) g : bm_ok b -> bit_count b = count ->
  look (Bitmap.find_from start b) s = Some (r, s') -> K None g /\ (forall w, w < count -> K (Some w) g) -> K r g.
Proof.
  intros Hb Hn Hx [HN HS]. destruct (Bitmap.find_from start b) as [v|] eqn:E; [|done]. injection Hx as <- _.
  destruct v as [w|]; [|done]. apply HS. rewrite <- Hn. by eapply found_lt.
Qed.

Lemma silent_idle_find start : silent (EIdleFind start).
Proof.
  intros t s g i r s' K (Hwf & _) Hw Hx. split; [eapply look_found; [eapply wf_idle, Hwf|eapply wf_idle, Hwf|exact Hx|exact Hw]|by eapply look_views].
Qed.
Lemma silent_steal_find start : silent (EStealFind start).
Proof.
  intros t s g i r s' K (Hwf & _) Hw Hx. split; [eapply look_found; [eapply wf_steal, Hwf|eapply wf_steal, Hwf|exact Hx|exact Hw]|by eapply look_views].
Qed.

Lemma silent_runnext_load me : silent (ERunnextLoad me).
Proof.
  quiet. destruct Hw as [Hm HK]. destruct (mine_inv t me Hm) as [-> Hlt]. destruct Hok as (_ & Hrn & _).
  specialize (Hrn Hlt). unfold rn_of in Hrn. destruct (workers s !! t); [|done]. cbn in *. congruence.
Qed.

(** *** Checks of a parked worker *)

Lemma parked_check t s g f : thread_ok t s g ->
  (forall c, parked g = Some c -> ck_inbox (f c) = true -> ck_inbox c = true \/ ~ head_visible s t) ->
  (forall c, parked g = Some c -> ck_local (f c) = true -> ck_local c = true \/ ring_empty s t) ->
  (forall c, parked g = Some c -> ck_global (f c) = true -> ck_global c = true \/ GlobalQueue.size_ (global s) = 0%Z) ->
  move t s g s (with_check f g).
Proof.
  intros Hok H1 H2 H3. destruct (Hok) as (_ & _ & Hpk). unfold with_check. destruct (parked g) as [c|] eqn:E; cbn.
  - apply move_parked; [done|by rewrite E; auto|..].
    + intros c' [= <-] Hc. destruct (H1 c eq_refl Hc); [left; by exists c|by right].
    + intros c' [= <-] Hc. destruct (H2 c eq_refl Hc); [left; by exists c|by right].
    + intros [Hlt Hl]. destruct (ck_global (f c)) eqn:Eg.
      * destruct (H3 c eq_refl Eg) as [Hc|?]; [|by right]. specialize (Hl c E). congruence.
      * left. split; [done|]. intros c' [= <-]. done.
  - replace (with_parked None g) with g by (destruct g; cbn in *; by subst). by apply move_same; [|apply Hok|..].
Qed.

Lemma sound_nonempty w : sound (ENonempty w).
Proof.
  intros t s g i r s' K Hok (Hlt & Ht & Hf) Hx. cbn in Hx. destruct (workers s !! w) as [W|] eqn:Ew; [|done].
  cbn in Hx. injection Hx as <- <-. destruct (local_nonempty i W) eqn:E.
  - exists g. split; [done|]. by apply views_move; [|split].
  - eexists. split; [exact Hf|]. case_decide as Hs; [|by apply views_move; [|split]].
    assert (t = w) as -> by (unfold self_of in Hs; case_decide; congruence).
    apply move_one, parked_check; [done|by intros; left|intros c _ _; right|by intros; left].
    intros W' HW'. assert (W' = W) as -> by congruence. destruct Hok as (Hwf & _).
    destruct (wf_queue _ _ Hwf w W Ew) as [l Hl]. unfold local_nonempty in E. apply orb_false_iff in E as [_ E].
    pose proof (QueueProps.local_queue_refines _ _ 0 1 0 Hl ltac:(lia)) as (_ & _ & _ & _ & _ & He).
    rewrite He in E. apply negb_false_iff, bool_decide_eq_true in E. by subst l.
Qed.

Lemma sound_inbox_empty me : sound (EInboxEmpty me).
Proof.
  intros t s g i r s' K Hok (Hm & Hf & Ht) Hx. destruct (mine_inv t me Hm) as [-> Hlt]. cbn in Hx.
  destruct (workers s !! t) as [W|] eqn:Ew; [|done]. cbn in Hx. injection Hx as <- <-.
  destruct (empty_inbox (inbox W)) eqn:E; [|exists g; split; [done|by apply views_move; [|split]]].
  eexists. split; [exact Ht|]. apply move_one, parked_check; [done|intros c _ _; right|by intros; left..].
  intros (W' & HW' & Hv). congruence.
Qed.

Lemma sound_global_empty : sound EGlobalEmpty.
Proof.
  intros t s g i r s' K Hok (Hf & Ht) Hx. cbn in Hx. injection Hx as <- <-. unfold GlobalQueue.g_empty.
  case_bool_decide as E; [|exists g; split; [done|by apply views_move; [|split]]].
  eexists. split; [exact Ht|]. apply move_one, parked_check; [done|by intros; left..|]. intros c _ _. by right.
Qed.

(** *** A worker's slot and ring *)

Lemma worker_lt s w W : well_formed s -> workers s !! w = Some W -> w < count.
Proof. intros Hwf Hw%lookup_lt_Some. by rewrite (wf_workers _ _ Hwf) in Hw. Qed.

Lemma rn_here t s g W : thread_ok t s g -> workers s !! t = Some W -> runnext W = rn g.
Proof.
  intros (Hwf & Hrn & _) Hw. specialize (Hrn (worker_lt s t W Hwf Hw)). unfold rn_of in Hrn. rewrite Hw in Hrn.
  by injection Hrn.
Qed.

Lemma at_worker_inv {R} w (f : Worker -> option (R * Worker)) s r s' : at_worker w f s = Some (r, s') ->
  exists W W', workers s !! w = Some W /\ f W = Some (r, W') /\ s' = set_workers (<[w := W']> (workers s)) s.
Proof.
  unfold at_worker. intros H. destruct (workers s !! w) as [W|]; [|done]. cbn in H.
  destruct (f W) as [[r0 W']|] eqn:E; [|done]. injection H as <- <-. by exists W, W'.
Qed.

(** A change that keeps the slot, the flag and the debts. *)
Lemma move_contents t s g w W W' h : thread_ok t s g -> workers s !! w = Some W ->
  (exists l, lrep (queue W') l) -> runnext W' = runnext W -> wake_token W' = wake_token W ->
  (forall x, occ x (worker_frames W') + occ x h = occ x (worker_frames W) + occ x (hand g)) ->
  (forall x, (x, false) ∈ inbox W' -> (x, false) ∈ inbox W) ->
  (empty_inbox (inbox W') = false -> empty_inbox (inbox W) = false \/ (w = t /\ parked g = None /\ t < count)) ->
  ((w = t /\ parked g = None /\ t < count) \/ (lrep (queue W) [] -> lrep (queue W') [])) ->
  moves t s g (set_workers (<[w := W']> (workers s)) s) (with_hand h g).
Proof.
  intros Hok Hw Hq Hr Ht Hf Hres Hhead Hloc. apply move_one, (move_worker t s g _ w W W' Hok Hw); cbn; try done; auto.
  - intros ->. rewrite Hr. by eapply rn_here.
  - intros Hv. destruct (Hhead Hv) as [?|?]; auto.
  - rewrite Ht. auto.
Qed.

Lemma ring_nil q l : lrep q l -> lrep q [] -> l = [].
Proof.
  intros H1%RunQueue.lrep_count H2%RunQueue.lrep_count. destruct l; [done|]. cbn in *. lia.
Qed.

(** A consumer's turn takes a part of the ring from its head. *)
Lemma turn_takes plan q l : lrep q l ->
  (forall n, plan (RunQueue.head_ctr q) (RunQueue.tail_ctr q) = RunQueue.Take n -> (0 <= n <= Z.of_nat (length l))%Z) ->
  exists P xs q' l', RunQueue.take_turn plan q = Some (P, xs, q') /\ l = xs ++ l' /\ lrep q' l'.
Proof.
  intros Hr Hp. destruct (plan _ _) as [| |n] eqn:E.
  1-2: unfold RunQueue.take_turn; rewrite E; by eexists _, [], q, l.
  specialize (Hp n eq_refl). destruct (RunQueue.take_turn_run plan q l (Z.to_nat n) Hr) as (q' & E' & Hr').
  - by rewrite Z2Nat.id by lia.
  - lia.
  - eexists _, _, q', _. split; [exact E'|]. by rewrite take_drop.
Qed.

Lemma pop_plan q l n : lrep q l ->
  RunQueue.plan_pop (RunQueue.head_ctr q) (RunQueue.tail_ctr q) = RunQueue.Take n -> (0 <= n <= Z.of_nat (length l))%Z.
Proof.
  intros Hr. unfold RunQueue.plan_pop. case_decide as H; [done|]. intros [= <-]. destruct l; [|cbn; lia].
  destruct H. rewrite (RunQueue.lr_tail _ _ Hr). cbn. rewrite Z.add_0_r. apply wrap_small, Hr.
Qed.

Lemma half_plan q l n : lrep q l ->
  RunQueue.plan_half (RunQueue.head_ctr q) (RunQueue.tail_ctr q) = RunQueue.Take n -> (0 <= n <= Z.of_nat (length l))%Z.
Proof.
  intros Hr. unfold RunQueue.plan_half. rewrite (RunQueue.lrep_count _ _ Hr).
  pose proof (Z.div_mod (Z.of_nat (length l)) 2). pose proof (Z.mod_pos_bound (Z.of_nat (length l)) 2). case_decide; [done|]. intros [= <-]. lia.
Qed.

Lemma grab_plan max q l n : lrep q l -> (0 < max)%Z ->
  RunQueue.plan_grab max (RunQueue.head_ctr q) (RunQueue.tail_ctr q) = RunQueue.Take n -> (0 <= n <= Z.of_nat (length l))%Z.
Proof.
  intros Hr Hm. unfold RunQueue.plan_grab. pose proof (RunQueue.lr_fits _ _ Hr). unfold RunQueue.kLocalQueueCapacity in *.
  rewrite (RunQueue.lrep_count _ _ Hr).
  pose proof (Z.div_mod (Z.of_nat (length l)) 2). pose proof (Z.mod_pos_bound (Z.of_nat (length l)) 2).
  rewrite (wrap_small 32) by (unfold in_range; lia).
  case_decide; [done|]. case_decide; [done|]. intros [= <-]. lia.
Qed.

Lemma turn_moves plan t s g w r s' : thread_ok t s g ->
  (forall q l n, lrep q l -> plan (RunQueue.head_ctr q) (RunQueue.tail_ctr q) = RunQueue.Take n -> (0 <= n <= Z.of_nat (length l))%Z) ->
  at_worker w (local_take (RunQueue.take_turn plan)) s = Some (r, s') -> moves t s g s' (with_hand (r ++ hand g) g).
Proof.
  intros Hok Hp (W & W' & Hw & Hf & ->)%at_worker_inv. destruct (wf_queue _ _ (proj1 Hok) w W Hw) as [l Hl].
  destruct (turn_takes plan (queue W) l Hl (fun n => Hp _ _ n Hl)) as (P & xs & q' & l' & E & -> & Hl').
  unfold local_take in Hf. rewrite E in Hf. injection Hf as <- <-. cbn.
  apply (move_contents t s g w W); try done; cbn; [by exists l'| | |].
  - intros x. unfold worker_frames. cbn. rewrite !occ_app, (local_items_rep _ _ Hl), (local_items_rep _ _ Hl'), occ_app. lia.
  - auto.
  - right. intros [-> ->]%(ring_nil _ _ Hl)%app_nil. done.
Qed.

Lemma sound_pop me : sound (EPop me).
Proof.
  intros t s g i r s' K Hok (Hm & HN & HS) Hx. cbn in Hx. destruct (mine_inv t me Hm) as [-> Hlt].
  apply at_worker_inv in Hx as (W & W' & Hw & Hf & ->).
  destruct (local_take RunQueue.local_pop W) as [[xs W1]|] eqn:E; [|done]. injection Hf as <- <-.
  assert (Hx : at_worker t (local_take (RunQueue.take_turn RunQueue.plan_pop)) s = Some (xs, set_workers (<[t := W1]> (workers s)) s)).
  { unfold at_worker. rewrite Hw. cbn. unfold RunQueue.local_pop in E. by rewrite E. }
  pose proof (turn_moves RunQueue.plan_pop t s g t xs _ Hok pop_plan Hx) as Hmv.
  assert (Hlen : xs = [] \/ exists x, xs = [x]).
  { unfold local_take in E. destruct (RunQueue.local_pop (queue W)) as [[[P ys] q']|] eqn:E1; [|done]. injection E as <- _. cbn.
    unfold RunQueue.local_pop, RunQueue.take_turn, RunQueue.plan_pop in E1. case_decide; [injection E1 as _ <- _; by left|].
    change (Z.to_nat 1) with 1 in E1. cbn in E1. destruct (RunQueue.buf (queue W) !! _) as [x|]; [|done]. cbn in E1.
    destruct (RunQueue.cas_head _ _ _); [|done]. injection E1 as _ <- _. right. by exists x. }
  destruct Hlen as [-> | [x ->]]; eexists; (split; [|exact Hmv]).
  - cbn. by replace (with_hand (hand g) g) with g by (by destruct g).
  - apply HS.
Qed.

Lemma sound_pop_half me : sound (EPopHalf me).
Proof.
  intros t s g i r s' K Hok (Hm & HK) Hx. eexists. split; [apply HK|]. by apply (turn_moves _ t s g me r s' Hok half_plan).
Qed.

Lemma sound_grab v max : sound (EGrab v max).
Proof.
  intros t s g i r s' K Hok (Hlt & Hm & HK) Hx. eexists. split; [apply HK|].
  eapply (turn_moves _ t s g v r s' Hok); [|exact Hx]. intros. by eapply grab_plan.
Qed.

Lemma sound_runnext_store me v : sound (ERunnextStore me v).
Proof.
  intros t s g i r s' K Hok (Hm & Hp & h & Hh & HK) Hx. destruct (mine_inv t me Hm) as [-> Hlt].
  apply at_worker_inv in Hx as (W & W' & Hw & [= <- <-] & ->). eexists. split; [exact HK|].
  pose proof (rn_here t s g W Hok Hw) as Hr.
  apply move_one, (move_worker t s g _ t W); cbn; try done; auto; [by apply (wf_queue _ _ (proj1 Hok) t)|].
  intros x. unfold worker_frames. cbn. rewrite (occ_perm x _ _ Hh), !occ_app, Hr. lia.
Qed.

Lemma sound_push me x : sound (EPush me x).
Proof.
  intros t s g i r s' K Hok (Hm & Hp & h & Hh & HT & HF) Hx. destruct (mine_inv t me Hm) as [-> Hlt].
  apply at_worker_inv in Hx as (W & W' & Hw & [= <- <-] & ->). destruct (wf_queue _ _ (proj1 Hok) t W Hw) as [l Hl].
  destruct (QueueProps.local_queue_refines _ _ 0 1 x Hl ltac:(lia)) as ((ok & mode & q' & E & Hl' & _) & _).
  rewrite E. cbn. exists (if ok then with_hand h g else g). split; [by destruct ok|].
  assert (Hmv : moves t s g (set_workers (<[t := set_queue q' W]> (workers s)) s) (with_hand (if ok then h else hand g) g)).
  { apply (move_contents t s g t W); try done; cbn; [eauto| |auto..].
    intros y. unfold worker_frames. cbn. rewrite (local_items_rep _ _ Hl), (local_items_rep _ _ Hl').
    rewrite (occ_perm y _ _ Hh), (occ_cons y x h). destruct ok; rewrite !occ_app; [lia|].
    rewrite (occ_perm y _ _ Hh), (occ_cons y x h). lia. }
  destruct ok; [exact Hmv|]. by replace (with_hand (hand g) g) with g in Hmv by (by destruct g).
Qed.

(** *** The inbox *)

Lemma sound_inbox_reserve w x : sound (EInboxReserve w x).
Proof.
  intros t s g i r s' K Hok (Hlt & h & Hh & HT & HF) Hx.
  apply at_worker_inv in Hx as (W & W' & Hw & E & ->). injection E as E. unfold reserve_inbox in E.
  case_decide; injection E as <- <-; eexists; (split; [eassumption|]).
  - apply move_one, (move_worker t s g _ w W); cbn; try done; auto.
    + by apply (wf_queue _ _ (proj1 Hok) w).
    + intros ->. by eapply rn_here.
    + intros y. unfold worker_frames. cbn. rewrite (occ_perm y _ _ Hh), map_app, !occ_app. cbn. rewrite (occ_cons y x h). lia.
    + intros o Ho. left. by right.
    + intros y [Hy|[= ->]%list_elem_of_singleton]%elem_of_app; [|left; by left]. right. split; [done|]. intros Ho. by right.
    + intros Hv. left. by destruct (inbox W).
  - replace (set_workers _ s) with s; [by apply views_move; [|split]|].
    rewrite list_insert_id by done. by destruct s.
Qed.

Lemma publish_entry_reserved x y l : (y, false) ∈ publish_entry x l -> y <> x /\ (y, false) ∈ l.
Proof.
  unfold publish_entry. intros ([z b] & E & Hz)%list_elem_of_fmap. cbn in E. case_decide; [done|]. injection E as -> <-. done.
Qed.

Lemma publish_entry_fst x l : map fst (publish_entry x l) = map fst l.
Proof. unfold publish_entry. rewrite map_map. apply map_ext. intros [y b]. cbn. by case_decide. Qed.

Lemma sound_inbox_publish w x : sound (EInboxPublish w x).
Proof.
  intros t s g i r s' K Hok (Hlt & o & Ho & HK) Hx. apply at_worker_inv in Hx as (W & W' & Hw & [= <- <-] & ->).
  eexists. split; [exact HK|]. apply move_one, (move_worker t s g _ w W); cbn; try done; auto.
  - by apply (wf_queue _ _ (proj1 Hok) w).
  - intros ->. by eapply rn_here.
  - intros y. unfold worker_frames. cbn. by rewrite publish_entry_fst.
  - unfold uncounted. cbn. by rewrite (owes_sum _ _ Ho).
  - intros p Hp. rewrite Ho in Hp. apply elem_of_cons in Hp as [->|Hp]; [right; left; by exists x|left; by right].
  - intros y [Hne Hy]%publish_entry_reserved. right. split; [done|]. rewrite Ho.
    intros [[= ?]|Hp]%elem_of_cons; [done|by right].
  - right; right. by left.
Qed.

Lemma sound_inbox_pop me : sound (EInboxPop me).
Proof.
  intros t s g i r s' K Hok (Hm & HN & HS) Hx. destruct (mine_inv t me Hm) as [-> Hlt].
  apply at_worker_inv in Hx as (W & W' & Hw & E & ->). injection E as <- <-.
  pose proof (wf_queue _ _ (proj1 Hok) t W Hw) as Hq.
  assert (Hmv : forall l' v, pop_inbox (inbox W) = (v, l') ->
    moves t s g (set_workers (<[t := set_inbox l' W]> (workers s)) s) (with_hand (option_list v ++ hand g) g)).
  { intros l' v E. unfold pop_inbox in E. apply (move_contents t s g t W); try done; cbn.
    - intros x. unfold worker_frames. cbn. destruct (inbox W) as [|[y []] k]; injection E as <- <-; cbn; rewrite ?occ_app; try lia.
      rewrite (occ_cons x y (map fst k)), (occ_cons x y (hand g)). lia.
    - intros x Hx. destruct (inbox W) as [|[y []] k]; injection E as _ <-; [done|by right|done].
    - intros Hv. destruct (inbox W) as [|[y []] k]; injection E as _ <-; auto.
    - by right. }
  destruct (pop_inbox (inbox W)) as [v l'] eqn:E. specialize (Hmv l' v eq_refl). cbn. eexists. split; [|exact Hmv].
  destruct v; [apply HS|]. cbn. by replace (with_hand (hand g) g) with g by (by destruct g).
Qed.

Lemma token_move t s g w W o : thread_ok t s g -> workers s !! w = Some W ->
  (forall p, p ∈ owes g -> p = OToken w \/ p ∈ o) -> uncounted (with_owes o g) = uncounted g ->
  move t s g (set_workers (<[w := set_token true W]> (workers s)) s) (with_owes o g).
Proof.
  intros Hok Hw Ho Hu. apply (move_worker t s g _ w W); cbn; try done; auto.
  - by apply (wf_queue _ _ (proj1 Hok) w).
  - intros ->. by eapply rn_here.
  - intros p Hp. destruct (Ho p Hp) as [->|?]; auto.
  - intros y Hy. right. split; [done|]. intros Hp. by destruct (Ho _ Hp).
Qed.

Lemma sound_token w : sound (EToken w).
Proof.
  intros t s g i r s' K Hok (Hlt & HK) Hx. apply at_worker_inv in Hx as (W & W' & Hw & [= <- <-] & ->).
  eexists. split; [exact HK|]. apply move_one, token_move; [done|done|intros p; apply discharge_in|by apply discharge_sum].
Qed.

(** *** The global queue *)

Lemma sound_global_enqueue xs : sound (EGlobalEnqueue xs).
Proof.
  intros t s g i r s' K Hok (Hne & h & Hh & HK) [= <- <-]. eexists. split; [exact HK|].
  apply move_one, (move_global t s g _ h (OCount (length xs) :: owes g)); cbn; try done.
  - intros x. rewrite (occ_perm x _ _ Hh), !occ_app. lia.
  - intros N ->. unfold uncounted. cbn. rewrite length_app. f_equal. lia.
  - intros p Hp. left. by right.
  - intros _. left. exists (length xs). by left.
Qed.

Lemma sound_global_count n : sound (EGlobalCount n).
Proof.
  intros t s g i r s' K Hok (o & Ho & HK) [= <- <-]. eexists. split; [exact HK|].
  replace (with_owes (OWakeIdle :: o) g) with (with_owes (OWakeIdle :: o) (with_hand (hand g) g)) by (by destruct g).
  apply move_one, (move_global t s g _ (hand g) (OWakeIdle :: o)); cbn; try done.
  - intros N ->. rewrite wrap_add_l. unfold uncounted. rewrite (owes_sum _ _ Ho). cbn. f_equal. lia.
  - intros p Hp. rewrite Ho in Hp. apply elem_of_cons in Hp as [->|Hp]; [right; by exists n|left; by right].
  - intros _. right; left. by left.
Qed.

(** A consumer takes the first [n] frames and counts them off. *)
Lemma global_moves t s g n : thread_ok t s g -> (0 <= n <= Z.of_nat (length (GlobalQueue.queue_ (global s))))%Z ->
  let q := GlobalQueue.queue_ (global s) in
  moves t s g (set_global (GlobalQueue.mkGlobal (u32 (GlobalQueue.size_ (global s) - n)) (drop (Z.to_nat n) q)) s)
    (with_hand (take (Z.to_nat n) q ++ hand g) g).
Proof.
  intros Hok Hn q. subst q.
  apply move_one, (move_global t s g _ (take (Z.to_nat n) (GlobalQueue.queue_ (global s)) ++ hand g) (owes g)); cbn; auto.
  - intros x. rewrite occ_app. rewrite <- (take_drop (Z.to_nat n) (GlobalQueue.queue_ (global s))) at 3. rewrite occ_app. lia.
  - intros N ->. rewrite wrap_sub_l, length_drop. unfold uncounted. cbn. f_equal. lia.
  - intros Hq. right; right. split; [|done]. intros E. by rewrite E, drop_nil in Hq.
Qed.

Lemma same_global s : set_global (global s) s = s.
Proof. by destruct s. Qed.

Lemma sound_global_pop : sound EGlobalPop.
Proof.
  intros t s g i r s' K Hok (HN & HS) Hx. cbn in Hx. unfold GlobalQueue.g_pop_locked in Hx.
  destruct (GlobalQueue.queue_ (global s)) as [|x q] eqn:E; injection Hx as <- <-.
  - exists g. split; [done|]. cbn. rewrite same_global. by apply views_move; [|split].
  - eexists. split; [apply HS|]. pose proof (global_moves t s g 1 Hok ltac:(rewrite E; cbn; lia)) as Hmv.
    by rewrite E in Hmv.
Qed.

Lemma sound_global_pop_batch max share : sound (EGlobalPopBatch max share).
Proof.
  intros t s g i r s' K Hok (Hm & Hs & HK) Hx. cbn in Hx. eexists. split; [apply HK|].
  unfold GlobalQueue.g_pop_batch_locked in Hx. pose proof (wrap_range 32 (Z.of_nat (length (GlobalQueue.queue_ (global s)))) ltac:(lia)) as Hr.
  unfold in_range in Hr. case_decide as Hz; injection Hx as <- <-.
  - cbn. rewrite same_global. replace (with_hand (hand g) g) with g by (by destruct g). by apply views_move; [|split].
  - cbn. apply global_moves; [done|].
    pose proof (GlobalQueue.batch_size_bounds _ max share ltac:(split; [|apply Hr]; lia) Hm Hs).
    assert (u32 (Z.of_nat (length (GlobalQueue.queue_ (global s)))) <= Z.of_nat (length (GlobalQueue.queue_ (global s))))%Z.
    { apply Z.mod_le; lia. }
    lia.
Qed.

(** *** The idle bitmap *)

Lemma claim_word_count i m b r b' : Bitmap.claim_from_word i m b = Some (r, b') -> bit_count b' = bit_count b.
Proof.
  unfold Bitmap.claim_from_word. destruct (Bitmap.words b !! i); [|done]. cbn. case_decide; by intros [= _ <-].
Qed.

Lemma claim_others_count n : forall o fw b r b', Bitmap.claim_others n o fw b = Some (r, b') -> bit_count b' = bit_count b.
Proof.
  induction n as [|n IH]; intros o fw b r b' E; cbn [Bitmap.claim_others] in E; [by injection E as _ <-|].
  destruct (Bitmap.claim_from_word _ _ b) as [[r1 b1]|] eqn:E1; [|done]. apply claim_word_count in E1. cbn in E.
  case_decide; [injection E as _ <-; done|]. rewrite <- E1. by eapply IH.
Qed.

Lemma claim_count start b r b' : Bitmap.claim_from start b = Some (r, b') -> bit_count b' = bit_count b.
Proof.
  unfold Bitmap.claim_from. case_decide; [by intros [= _ <-]|].
  destruct (Bitmap.claim_from_word _ _ b) as [[r1 b1]|] eqn:E1; [|done]. apply claim_word_count in E1. cbn.
  case_decide; [by intros [= _ <-]|]. destruct (Bitmap.claim_others _ _ _ b1) as [[r2 b2]|] eqn:E2; [|done].
  apply claim_others_count in E2. cbn. case_decide; [intros [= _ <-]; congruence|]. case_decide.
  - intros E%claim_word_count. congruence.
  - intros [= _ <-]. congruence.
Qed.

Lemma self_eq t w : self_of count t = Some w -> w = t.
Proof. unfold self_of. case_decide; congruence. Qed.

Lemma self_ne t w : self_of count t <> Some w -> w < count -> w <> t.
Proof. unfold self_of. intros H Hw ->. by rewrite decide_True in H. Qed.

Lemma sound_idle_set me : sound (EIdleSet me).
Proof.
  intros t s g i r s' K Hok (Hm & Hp & HK) Hx. destruct (mine_inv t me Hm) as [-> Hlt]. cbn in Hx.
  destruct (wf_idle _ _ (proj1 Hok)) as [Hb Hn].
  destruct (Bitmap.set_run _ t Hb ltac:(lia)) as (f & b' & E & Hb' & Hf & Hin). rewrite E in Hx. injection Hx as <- <-.
  eexists. split; [apply HK|]. apply moves_cons with (s1 := set_idle b' s) (g1 := g).
  - replace g with (with_owes (owes g) g) at 2 by (by destruct g). apply move_idle; [done|done| |..|done].
    + rewrite <- Hn. by apply (bm_count t (idle_workers s) f); left.
    + intros v Hv. left. apply Hin. by right.
    + by left.
  - intros Hok'. apply move_one, move_parked; [done| |by intros ? [= <-]|by intros ? [= <-]|].
    + intros _. split; [done|]. right; left. apply Hin. by left.
    + intros [_ _]. left. split; [done|]. by intros c [= <-].
Qed.

Lemma sound_idle_clear w : sound (EIdleClear w).
Proof.
  intros t s g i r s' K Hok (Hlt & HK) Hx. cbn in Hx. destruct (wf_idle _ _ (proj1 Hok)) as [Hb Hn].
  destruct (Bitmap.clear_run _ w Hb ltac:(lia)) as (f & b' & E & Hb' & Hf & Hin). rewrite E in Hx. injection Hx as <- <-.
  assert (Hn' : bit_count b' = count) by (rewrite <- Hn; by apply (bm_count w _ f); right).
  assert (Hout : ~ member b' w) by (intros [? _]%Hin; done).
  assert (Hdebt : forall o : list Obl, (forall p, p ∈ discharge (OWake w) (owes g) -> p ∈ o) -> forall p, p ∈ owes g ->
    p ∈ o \/ (exists v, p = OWake v /\ ~ member b' v) \/
    (p = OWakeIdle /\ ((exists v, v < count /\ ~ member b' v) \/ exists v, OToken v ∈ o))).
  { intros o Ho p [->|?]%(discharge_in p (OWake w)); [right; left; by exists w|left; by apply Ho]. }
  assert (Hsum : uncounted (with_owes (discharge (OWake w) (owes g)) g) = uncounted g) by (by apply discharge_sum).
  cbn in HK. destruct (decide (self_of count t = Some w)) as [Hs|Hs].
  - apply self_eq in Hs as ->. eexists. split; [apply HK|]. apply moves_cons with (s1 := s) (g1 := with_parked None g); [by apply move_up|].
    intros Hok'. apply move_one, (move_idle t s (with_parked None g)); [done|done|done| |by apply Hdebt|done].
    intros v Hv. destruct (decide (v = t)); [right; right; done|left; by apply Hin].
  - destruct HK as [HT HF]. destruct f; eexists; (split; [eassumption|]); apply move_one, move_idle; try done.
    + intros v Hv. destruct (decide (v = w)) as [->|]; [right; left; by left|left; by apply Hin].
    + apply Hdebt. intros p Hp. by right.
    + intros v Hv. left. apply Hin. split; [|done]. intros ->. apply Hf in Hv. done.
    + by apply Hdebt.
Qed.

Lemma sound_idle_claim start : 0 < count -> sound (EIdleClaim start).
Proof.
  intros Hcount t s g i r s' K Hok (Hp & HN & HS) Hx. cbn in Hx. destruct (wf_idle _ _ (proj1 Hok)) as [Hb Hn].
  destruct (Bitmap.claim_from_run start _ Hb) as (v & b' & E & Hc & Hnone). rewrite E in Hx. injection Hx as <- <-.
  assert (Hn' : bit_count b' = count) by (rewrite <- Hn; by eapply claim_count).
  assert (Hdebt : forall (o : list Obl) w, (forall p, p ∈ discharge OWakeIdle (owes g) -> p ∈ o) -> w < count -> ~ member b' w ->
    forall p, p ∈ owes g -> p ∈ o \/ (exists v, p = OWake v /\ ~ member b' v) \/
    (p = OWakeIdle /\ ((exists v, v < count /\ ~ member b' v) \/ exists v, OToken v ∈ o))).
  { intros o w Ho Hw Hni p [->|?]%(discharge_in p OWakeIdle); [right; right; split; [done|left; by exists w]|left; by apply Ho]. }
  assert (Hsum : uncounted (with_owes (discharge OWakeIdle (owes g)) g) = uncounted g) by (by apply discharge_sum).
  destruct v as [w|]; cbn in Hc.
  - destruct Hc as (Hw & Hb' & Hin). assert (Hlt : w < count) by (rewrite <- Hn; by apply Bitmap.member_lt).
    assert (Hout : ~ member b' w) by (intros [? _]%Hin; done).
    eexists. split; [by apply HS|]. apply move_one, move_idle; try done.
    + intros v Hv. destruct (decide (v = w)) as [->|]; [|left; by apply Hin]. right. unfold claimed_by.
      case_decide as Hs; [right; split; [by apply self_eq|done]|left; by left].
    + apply (Hdebt _ w); [|done|done]. intros p Hp'. unfold claimed_by. case_decide; [done|by right].
    + unfold claimed_by. case_decide; [done|]. done.
  - subst b'. eexists. split; [exact HN|]. apply move_one, move_idle; try done.
    + intros v Hv. destruct (Hnone eq_refl v Hv).
    + apply (Hdebt _ 0); [done|lia|by apply Hnone].
Qed.

(** *** Polls, timers and suspended frames *)

Lemma remove_one_perm x l : forall l', remove_one x l = Some l' -> l ≡ₚ x :: l'.
Proof.
  induction l as [|y l IH]; intros l' E; cbn in E; [done|]. case_decide as H; [injection E as <-; by rewrite H|].
  destruct (remove_one x l) as [k|]; [|done]. injection E as <-. rewrite (IH k eq_refl). apply perm_swap.
Qed.

Lemma remove_all_perm xs : forall l l', remove_all xs l = Some l' -> l ≡ₚ xs ++ l'.
Proof.
  induction xs as [|x xs IH]; intros l l' E; cbn in E; [by injection E as <-|].
  destruct (remove_one x l) as [k|] eqn:E1; [|done]. rewrite (remove_one_perm _ _ _ E1). cbn. constructor. by apply IH.
Qed.

Lemma take_move t s g xs s' : thread_ok t s g -> take_suspended xs s = Some s' ->
  move t s g s' (with_hand (xs ++ hand g) g).
Proof.
  unfold take_suspended. intros Hok H. destruct (remove_all xs (suspended s)) as [l|] eqn:E; [|done]. injection H as <-.
  apply move_suspended; [done|]. intros x. rewrite (occ_perm x _ _ (remove_all_perm _ _ _ E)), !occ_app. lia.
Qed.

(** An awake worker takes its own wake. *)
Lemma untoken_move t s g W (b : bool) : thread_ok t s g -> t < count -> workers s !! t = Some W -> parked g = None ->
  move t s g (set_workers (<[t := if b then W else set_token false W]> (workers s)) s) g.
Proof.
  intros Hok Hlt Hw Hp. apply (move_worker t s g _ t W); try (by destruct b); try done; auto.
  - destruct b; by apply (wf_queue _ _ (proj1 Hok) t W).
  - intros _. rewrite <- (rn_here t s g W Hok Hw). by destruct b.
  - intros x Hx. right. destruct b; by split.
Qed.

(** What a poll brings goes to the thread's hands. *)
Lemma poll_moves t s g i r s' (K : option completions -> Local -> Prop) : thread_ok t s g ->
  poll_result i s = Some (r, s') -> K None g -> (forall cs, K (Some cs) (with_hand (ready_frames cs ++ hand g) g)) ->
  exists g', K r g' /\ moves t s g s' g'.
Proof.
  intros Hok Hx HN HS. unfold poll_result in Hx. destruct (in_flag i).
  - injection Hx as <- <-. exists g. split; [done|]. by apply views_move; [|split].
  - destruct (take_suspended _ s) as [s1|] eqn:E; [|done]. injection Hx as <- <-. eexists. split; [apply HS|].
    by apply move_one, take_move.
Qed.

Lemma sound_poll w : sound (EPoll w).
Proof.
  intros t s g i r s' K Hok (Hlt & Hp & HN & HS) Hx. cbn in Hx.
  destruct (at_worker w _ s) as [[[] s1]|] eqn:E; [|done]. cbn in Hx.
  apply at_worker_inv in E as (W & W' & Hw & [= <-] & ->).
  assert (Hm : move t s g (set_workers (<[w := if decide (self_of count t = Some w /\ in_flag i = false) then set_token false W else W]> (workers s)) s) g).
  { case_decide as Hd; [destruct Hd as [->%self_eq _]; by apply (untoken_move t s g W false)|].
    replace (set_workers _ s) with s; [by apply move_same; [|apply Hok|..]|]. rewrite list_insert_id by done. by destruct s. }
  destruct (poll_moves t _ g i r s' K (move_ok _ _ _ _ _ Hm) Hx HN HS) as (g' & HK & Hmv).
  exists g'. split; [done|]. by eapply move_more.
Qed.

Lemma sound_wait me : sound (EWait me).
Proof.
  intros t s g i r s' K Hok (Hm & Hg & HN & HS) Hx. destruct (mine_inv t me Hm) as [-> Hlt]. cbn in Hx.
  destruct (at_worker t _ s) as [[[] s1]|] eqn:E; [|done]. cbn in Hx.
  apply at_worker_inv in E as (W & W' & Hw & E & ->). destruct (wait_returns i W); [|done]. injection E as <-.
  pose proof (move_up t s g Hok) as Hup.
  pose proof (untoken_move t s _ W (in_flag i) (move_ok _ _ _ _ _ Hup) Hlt Hw eq_refl) as Htok.
  destruct (poll_moves t _ _ i r s' K (move_ok _ _ _ _ _ Htok) Hx HN HS) as (g' & HK & Hmv).
  exists g'. split; [done|]. eapply move_more; [exact Hup|]. by eapply move_more.
Qed.

Lemma sound_fire w : sound (EFire w).
Proof.
  intros t s g i r s' K Hok (Hp & HK) Hx. cbn in Hx.
  destruct (take_suspended _ s) as [s1|] eqn:E; [|done]. injection Hx as <- <-. eexists. split; [apply HK|].
  by apply move_one, take_move.
Qed.

Lemma sound_abandon x : sound (EAbandon x).
Proof.
  intros t s g i r s' K Hok (h & Hh & HK) [= <- <-]. eexists. split; [exact HK|].
  apply move_one, move_suspended; [done|]. intros y. rewrite (occ_perm y _ _ Hh), (occ_cons y x h), (occ_cons y x (suspended s)). lia.
Qed.

(** *** All of them *)

Lemma sound_all {R} (e : Event R) : 0 < count -> sound e.
Proof.
  intros Hcount. destruct e; first
    [ by apply sound_idle_claim | apply sound_runnext_store | apply sound_push | apply sound_pop
    | apply sound_pop_half | apply sound_grab | apply sound_nonempty | apply sound_inbox_reserve | apply sound_inbox_publish
    | apply sound_inbox_pop | apply sound_inbox_empty | apply sound_global_enqueue | apply sound_global_count
    | apply sound_global_empty | apply sound_global_pop | apply sound_global_pop_batch | apply sound_idle_set
    | apply sound_idle_clear | apply sound_token | apply sound_poll | apply sound_wait | apply sound_fire
    | apply sound_abandon | apply silent_sound ].
  - apply silent_own.
  - apply silent_runnext_load.
  - apply silent_idle_find.
  - apply silent_idle_any.
  - apply silent_steal_test.
  - apply silent_steal_set.
  - apply silent_steal_clear.
  - apply silent_steal_any.
  - apply silent_steal_find.
  - apply silent_publish_store.
  - apply silent_publish_load.
  - apply silent_clear_load.
  - apply silent_clear_bump.
  - apply silent_credit_store.
  - apply silent_credit_load.
  - apply silent_credit_exchange.
  - apply silent_wake_cursor.
  - apply silent_placement.
  - apply silent_stopping.
  - apply silent_registered.
  - apply silent_ticket.
  - apply silent_due.
Qed.
End moves.
