(* ===== verification/SchedInv.v ===== *)
(** * The invariant of the scheduler's system

    Every thread's program meets its specification from the ghost the invariant
    gives it; every step of the system of file SchedSystem keeps this. *)

From S2P Require Import Prelude Sched SchedOps SchedLogic SchedSystem SchedSound.
From S2P Require RunQueue QueueProps Bitmap GlobalQueue.

Set Default Proof Using "Type".

Import Bitmap (bm_ok, member, bit_count).


Section invariant.
Context (count : nat) (frames : list item).
Context (Hcount : 0 < count).
Context (Hbound : (Z.of_nat (length frames) < 2 ^ 32)%Z).
#[local] Set Default Proof Using "Hcount Hbound".
Abbreviation core := (core count frames).
Abbreviation self_of := (self_of count).

(** Between two operations. *)
Definition at_rest (g : Local) : Prop := hand g = [] /\ owes g = [] /\ parked g = None.

Lemma rest_awake g : at_rest g -> g = awake [] [] (rn g).
Proof. destruct g as [h o r p]. intros (E1 & E2 & E3). cbn in *. by subst. Qed.

(** What the rest of a thread's program promises from its ghost. *)
Definition code_ok (t : nat) (c : Code) (g : Local) : Prop :=
  match c with
  | CTurn p => t < count /\ wp count (self_of t) p turn_post g
  | CTask _ p => wp count (self_of t) p (fun _ => at_rest) g
  | CStopped => at_rest g
  end.

Definition outside (cs : list Code) (fin : list item) : list item := concat (map code_frames cs) ++ fin.

#[local] Arguments outside : simpl never.

Definition code_all (cs : list Code) (gs : list Local) : Prop :=
  length gs = length cs /\ forall t c g, cs !! t = Some c -> gs !! t = Some g -> code_ok t c g.

Definition sys_inv (S : Sys) : Prop := exists gs,
  core (sched S) gs (outside (code S) (finished S)) /\ code_all (code S) gs.

(** ** Accesses *)

Lemma moves_core rest t s g s' g' : moves count t s g s' g' -> forall gs, core s gs rest -> gs !! t = Some g ->
  core s' (<[t := g']> gs) rest.
Proof.
  intros Hm. induction Hm as [s g s' g' Hm|s g s1 g1 s' g' Hm _ IH]; intros gs Hc Hg; [by eapply core_move|].
  assert (Hc' : core s1 (<[t := g1]> gs) rest) by (by eapply core_move).
  apply IH in Hc'; [by rewrite list_insert_insert_eq in Hc'|]. apply list_lookup_insert_eq. by apply lookup_lt_Some in Hg.
Qed.

Lemma access_core {R} (e : Event R) i t s s' r g gs rest K : core s gs rest -> gs !! t = Some g ->
  ewp count (self_of t) e g K -> exec i (self_of t) e s = Some (r, s') ->
  exists g', K r g' /\ core s' (<[t := g']> gs) rest.
Proof.
  intros Hc Hg Hw Hx. destruct (sound_all count e Hcount t s g i r s' K) as (g' & HK & Hm); try done.
  - by eapply core_thread.
  - exists g'. split; [done|]. by eapply moves_core.
Qed.

(** ** Changes outside the accesses *)

(** Frames move between a thread's hands and the running and finished ones. *)
Lemma core_hand s gs rest rest' t g h : core s gs rest -> gs !! t = Some g ->
  (forall x, occ x h + occ x rest' = occ x (hand g) + occ x rest) -> core s (<[t := with_hand h g]> gs) rest'.
Proof.
  intros Hc Hg Hf.
  assert (Hback : forall (w : nat) k, <[t := with_hand h g]> gs !! w = Some k ->
    exists k', gs !! w = Some k' /\ owes k' = owes k /\ rn k' = rn k /\ parked k' = parked k).
  { intros w k Hk. destruct (lookup_split gs t g _ w k Hg Hk) as [[-> ->]|[_ ?]]; [by exists g|by exists k]. }
  assert (Howed : forall o, owed gs o -> owed (<[t := with_hand h g]> gs) o).
  { intros o Ho. destruct (owed_split gs t g (with_hand h g) o Hg Ho); [|done]. apply owed_here; [by apply lookup_lt_Some in Hg|done]. }
  assert (Hsum : all_uncounted (<[t := with_hand h g]> gs) = all_uncounted gs).
  { unfold all_uncounted. destruct (sum_insert uncounted gs t g Hg) as (N & -> & ->). done. }
  destruct Hc. split; try done.
  - by rewrite length_insert.
  - intros w k Hlt Hk. destruct (Hback w k Hk) as (k' & Hk' & _ & <- & _). by apply co_rn.
  - intros x. specialize (co_frames x). specialize (Hf x). pose proof (occ_concat_insert hand gs t g (with_hand h g) x Hg).
    cbn in *. lia.
  - by rewrite Hsum.
  - intros w x Hr. by apply Howed, co_reserved.
  - intros w k c Hk Hp. destruct (Hback w k Hk) as (k' & Hk' & _ & _ & Hp'). destruct (co_wake w k' c Hk') as [? [?|[?|?]]]; [congruence|..]; auto 6.
  - intros w k c Hk Hp Hck Hv. destruct (Hback w k Hk) as (k' & Hk' & _ & _ & Hp').
    destruct (co_inbox w k' c Hk') as [?|[?|?]]; [congruence|done|done|..]; auto.
  - intros Hq. destruct (co_global Hq) as [[n ?]|[?|[[w ?]|[?|(w & k & Hlt & Hk & Hl)]]]]; unfold global_seen; eauto 6.
    right; right; right; right. destruct (decide (w = t)) as [->|Hne].
    + exists t, (with_hand h g). rewrite list_lookup_insert_eq by (by apply lookup_lt_Some in Hg).
      split; [done|]. split; [done|]. assert (k = g) as -> by congruence. done.
    + exists w, k. by rewrite list_lookup_insert_ne.
  - intros w k c Hk Hp Hck. destruct (Hback w k Hk) as (k' & Hk' & _ & _ & Hp'). apply (co_local w k' c); congruence.
Qed.

(** A call takes suspended frames in its hands. *)
Lemma core_take s gs rest t g xs s' : core s gs rest -> gs !! t = Some g -> take_suspended xs s = Some s' ->
  core s' (<[t := with_hand (xs ++ hand g) g]> gs) rest.
Proof. intros Hc Hg Hx. eapply core_move; [done|exact Hc|done|]. apply take_move; [by eapply core_thread|done]. Qed.

(** A task suspends. *)
Lemma core_suspend s gs rest t g x h : core s gs rest -> gs !! t = Some g -> hand g = x :: h ->
  core (set_suspended (x :: suspended s) s) (<[t := with_hand h g]> gs) rest.
Proof.
  intros Hc Hg Hh. eapply core_move; [done|exact Hc|done|]. apply move_suspended; [by eapply core_thread|].
  intros y. rewrite Hh, (occ_cons y x h), (occ_cons y x (suspended s)). lia.
Qed.

Lemma core_stop s gs rest : core s gs rest -> core (set_stop s) gs rest.
Proof.
  intros Hc. destruct (lookup_lt_is_Some_2 gs 0) as [g Hg]; [pose proof (co_threads _ _ _ _ _ Hc); lia|].
  rewrite <- (list_insert_id gs 0 g Hg). eapply core_move; [done|exact Hc|done|].
  apply move_same; [by eapply core_thread|..]; try done. destruct (co_wf _ _ _ _ _ Hc). by split.
Qed.

(** ** Calls *)

Lemma call_spec t c r : call_allowed count (self_of t) c ->
  wp count (self_of t) (call_prog count (self_of t) c) (fun _ => at_rest) (awake (call_frames c) [] r).
Proof.
  intros Hc. assert (Hself : forall me, self_of t = Some me -> me < count).
  { intros me. unfold self_of. case_decide; congruence. }
  assert (Hp : forall p : Prog unit, places count (self_of t) p (call_frames c) ->
    wp count (self_of t) p (fun _ => at_rest) (awake (call_frames c) [] r)).
  { intros p H. apply (H _ []); [by rewrite app_nil_r|]. by intros a h r' ->%Permutation_nil_r. }
  destruct c; apply Hp; cbn [call_prog call_frames].
  - by apply schedule_frame_places.
  - by apply schedule_to_places.
  - by apply schedule_next_places.
  - by apply reschedule_places.
  - by apply cooperative_places.
  - by apply dispatch_places.
  - by apply dispatch_next_places.
  - by apply dispatch_completion_places.
  - by apply batch_places.
  - by apply batch_to_places.
  - by apply void_places, keeps_return_debt.
  - by apply keeps_notify.
  - by apply keeps_notify_batch.
  - by apply keeps_neutral, nudge_neutral.
  - destruct Hc. by apply keeps_monitor.
  - by apply keeps_neutral, wake_all_neutral.
Qed.

(** ** Steps *)

Lemma outside_at cs fin t c c' x : cs !! t = Some c ->
  occ x (outside (<[t := c']> cs) fin) + occ x (code_frames c) = occ x (outside cs fin) + occ x (code_frames c').
Proof.
  intros Hc. unfold outside. rewrite !occ_app. pose proof (occ_concat_insert code_frames cs t c c' x Hc). lia.
Qed.

Lemma outside_same cs fin t c c' : cs !! t = Some c -> code_frames c' = code_frames c -> outside (<[t := c']> cs) fin = outside cs fin.
Proof.
  intros Hc Hf. unfold outside. do 2 f_equal. change (map code_frames) with (fmap (M := list) code_frames).
  rewrite list_fmap_insert, Hf. apply list_insert_id. by rewrite list_lookup_fmap, Hc.
Qed.

Lemma code_all_insert cs gs t c' g' : code_all cs gs -> code_ok t c' g' -> code_all (<[t := c']> cs) (<[t := g']> gs).
Proof.
  intros [Hl Ha] Hok. split; [by rewrite !length_insert|]. intros u c g Hc Hg.
  apply list_lookup_insert_Some in Hc as [(-> & -> & _)|[Hne Hc]].
  - apply list_lookup_insert_Some in Hg as [(_ & -> & _)|[? _]]; done.
  - rewrite list_lookup_insert_ne in Hg by done. by apply Ha.
Qed.

Lemma next_inv s cs fin gs t c c' g' : code_all cs gs -> cs !! t = Some c -> code_frames c' = code_frames c ->
  code_ok t c' g' -> core s (<[t := g']> gs) (outside cs fin) -> sys_inv (mkSys s (<[t := c']> cs) fin).
Proof.
  intros Ha Hc Hf Hok Hco. exists (<[t := g']> gs). cbn. split; [by rewrite (outside_same cs fin t c c' Hc Hf)|by apply code_all_insert].
Qed.

Lemma code_ghost cs gs t c : code_all cs gs -> cs !! t = Some c -> exists g, gs !! t = Some g /\ code_ok t c g.
Proof using Type.
  intros [Hl Ha] Hc. destruct (lookup_lt_is_Some_2 gs t) as [g Hg]; [rewrite Hl; by apply lookup_lt_Some in Hc|].
  exists g. split; [done|]. by apply Ha.
Qed.

Lemma turn_ok t r : t < count -> forall back, code_ok t (CTurn (run_turn count t back)) (awake [] [] r).
Proof using Hcount.
  intros Hlt back. assert (E : self_of t = Some t) by (unfold self_of; by rewrite decide_True).
  split; [done|]. apply run_turn_spec; [done|congruence|done].
Qed.

Lemma sys_step_inv S S' : sys_inv S -> s_step count S S' -> sys_inv S'.
Proof.
  intros (gs & Hco & Ha) Hst. destruct Hst as
    [s cs fin t R e k i r s' Hc Hx|s cs fin t x R e k i r s' Hc Hx|s cs fin t x Hc|s cs fin t Hc|s cs fin t Hc
    |s cs fin t Hc Hlt|s cs fin t x Hc|s cs fin t x Hc|s cs fin t x c s' Hc Hal Hx|s cs fin]; cbn in Hco, Ha;
    try (destruct (code_ghost cs gs t _ Ha Hc) as (g & Hg & Hok)).
  - destruct Hok as [Hlt Hw]. destruct (access_core e i t s s' r g gs _ _ Hco Hg Hw Hx) as (g' & HK & Hco').
    by eapply (next_inv s' cs fin gs t).
  - destruct (access_core e i t s s' r g gs _ _ Hco Hg Hok Hx) as (g' & HK & Hco'). by eapply (next_inv s' cs fin gs t).
  - destruct Hok as (Hlt & Hp & Ho & Hh). exists (<[t := with_hand [] g]> gs). split; [|by apply code_all_insert].
    eapply core_hand; [exact Hco|done|]. intros y. pose proof (outside_at cs fin t _ (CTask (Some x) (Ret tt)) y Hc) as E.
    cbn in E |- *. rewrite Hh. cbn in E. rewrite occ_nil in E |- *. lia.
  - destruct Hok as (Hlt & Hp & Ho & Hh). eapply (next_inv s cs fin gs t _ _ g); [done|done|done| |by rewrite list_insert_id].
    rewrite (rest_awake g) by done. by apply turn_ok.
  - destruct Hok as (Hlt & Hp & Ho & Hh). eapply (next_inv s cs fin gs t _ _ g); [done|done|done|done|by rewrite list_insert_id].
  - eapply (next_inv s cs fin gs t _ _ g); [done|done|done| |by rewrite list_insert_id].
    rewrite (rest_awake g) by done. by apply turn_ok.
  - destruct Hok as (Hh & Ho & Hp).
    assert (Hx : core s (<[t := with_hand [x] g]> gs) (outside (<[t := CTask None (Ret tt)]> cs) fin)).
    { eapply core_hand; [exact Hco|done|]. intros y. pose proof (outside_at cs fin t _ (CTask None (Ret tt)) y Hc) as E.
      cbn in E |- *. rewrite Hh. rewrite occ_nil in E |- *. lia. }
    exists (<[t := with_hand [] g]> gs). split; [|by apply code_all_insert].
    apply (core_suspend _ _ _ t (with_hand [x] g) x []) in Hx; [by rewrite list_insert_insert_eq in Hx|by apply list_lookup_insert_eq; apply lookup_lt_Some in Hg|done].
  - destruct Hok as (Hh & Ho & Hp). exists (<[t := with_hand (hand g) g]> gs). split; [|by apply code_all_insert].
    eapply core_hand; [exact Hco|done|]. intros y. cbn. f_equal.
    pose proof (outside_at cs (x :: fin) t _ (CTask None (Ret tt)) y Hc) as E. unfold outside in E |- *. cbn in E |- *.
    rewrite !occ_app, !(occ_cons y x fin) in E |- *. rewrite occ_nil in E. lia.
  - eapply (next_inv s' cs fin gs t); [done|done|done| |by eapply core_take]. cbn.
    rewrite (rest_awake g Hok). cbn. rewrite app_nil_r. by apply call_spec.
  - exists gs. split; [by apply core_stop|done].
Qed.
End invariant.

(** ** The initial state *)

Lemma replicate_lookup {A} n (a : A) i b : replicate n a !! i = Some b -> b = a.
Proof. by intros [-> _]%lookup_replicate. Qed.

Lemma fresh_worker count frames w W : workers (new_scheduler count frames) !! w = Some W -> W = new_worker.
Proof. apply replicate_lookup. Qed.

Lemma new_well_formed count frames : well_formed count (new_scheduler count frames).
Proof.
  split.
  - apply length_replicate.
  - cbn. by rewrite length_map, length_seq.
  - split; [apply Bitmap.new_bitmap_ok|done].
  - split; [apply Bitmap.new_bitmap_ok|done].
  - intros w W ->%fresh_worker. exists []. apply QueueProps.lrep_fresh.
Qed.

Lemma occ_concat_nil {A} (f : A -> list item) (l : list A) x : (forall a, a ∈ l -> f a = []) -> occ x (concat (map f l)) = 0.
Proof.
  induction l as [|a l IH]; intros Hf; [done|]. cbn. rewrite occ_app, IH, (Hf a); [done|by left|].
  intros b Hb. apply Hf. by right.
Qed.

Lemma init_inv count threads frames S : 0 < count -> count <= threads -> sys_init count threads frames S ->
  sys_inv count frames S.
Proof.
  intros Hcount Hthreads ->. exists (replicate threads (awake [] [] None)).
  assert (Hnone : forall (w : nat) g, replicate threads (awake [] [] None) !! w = Some g -> g = awake [] [] None)
    by (intros w g; apply replicate_lookup).
  assert (Hsum : all_uncounted (replicate threads (awake [] [] None)) = 0).
  { unfold all_uncounted. induction threads as [|n IH]; [done|]. clear. by induction n. }
  split.
  - split; cbn [sched code finished].
    + apply new_well_formed.
    + by rewrite length_replicate.
    + intros w g Hlt ->%Hnone. unfold rn_of. cbn. by rewrite (lookup_replicate_2 _ _ _ Hlt).
    + intros x. unfold sched_frames, queued. cbn. rewrite !occ_app. unfold outside. rewrite occ_app, !occ_concat_nil; cbn.
      * rewrite occ_nil. lia.
      * intros c (t & -> & _)%list_elem_of_fmap. unfold first_code. by case_decide.
      * by intros g [-> _]%elem_of_replicate.
      * intros W [-> _]%elem_of_replicate. unfold worker_frames. cbn. by rewrite (local_items_rep _ [] QueueProps.lrep_fresh).
    + cbn. by rewrite Hsum.
    + intros w x (W & ->%fresh_worker & Hx). cbn in Hx. by apply not_elem_of_nil in Hx.
    + by intros w g c ->%Hnone.
    + by intros w g c ->%Hnone.
    + done.
    + by intros w g c ->%Hnone.
  - split; [cbn; by rewrite length_replicate, length_map, length_seq|]. intros t c g Hc ->%Hnone.
    apply list_lookup_fmap_Some in Hc as (u & -> & Hu). apply lookup_seq in Hu as [-> _]. unfold first_code.
    case_decide as Ht; [by apply turn_ok|done].
Qed.

Lemma reachable_sys_inv count threads frames S : 0 < count -> count <= threads -> (Z.of_nat (length frames) < 2 ^ 32)%Z ->
  reachable (sys_init count threads frames) (s_step count) S -> sys_inv count frames S.
Proof.
  intros Hc Ht Hb. apply (reachable_invariant (sys_inv count frames)).
  - intros S0. by apply init_inv.
  - intros S0 S1 _. by apply sys_step_inv.
Qed.

(** * Runs of the scheduler's system, computed

    [step_of] makes one chosen step of the system of file SchedSystem; with it
    whole histories of the workers and foreign threads evaluate. *)

(** A thread's next access, or a step between two operations. *)
Inductive Move :=
  | MAccess (t : nat) (i : Input)
  | MLoop (t : nat)
  | MSuspend (t : nat)
  | MFinish (t : nat)
  | MCall (t : nat) (c : Call)
  | MShutdown.

Definition allowed (count : nat) (self : option worker_id) (c : Call) : bool :=
  match c with CMonitor w => bool_decide (self = None) && bool_decide (w < count) | _ => true end.

Lemma allowed_ok count self c : allowed count self c = true -> call_allowed count self c.
Proof. destruct c; try done. cbn. intros [H1%bool_decide_eq_true H2%bool_decide_eq_true]%andb_true_iff. done. Qed.

(** At its blocking poll. *)
Definition waits_at (t : nat) (c : Code) : bool :=
  match c with
  | CTurn (Vis e _) => match e with EWait me => bool_decide (me = t) | _ => false end
  | _ => false
  end.

(** Between two operations, or at its blocking poll. *)
Definition settled (t : nat) (c : Code) : bool :=
  match c with
  | CTurn (Ret _) | CTask _ (Ret _) | CStopped => true
  | _ => waits_at t c
  end.

(** A worker that waits and has no wake pending. *)
Definition blocked (S : Sys) (t : nat) : bool :=
  match code S !! t, workers (sched S) !! t with
  | Some c, Some w => waits_at t c && negb (wake_token w)
  | _, _ => false
  end.

Definition all_settled (S : Sys) : bool :=
  forallb (fun x => settled x.1 x.2) (imap pair (code S)).

Section run.
Context (count : nat).

Definition to (s : Scheduler) (S : Sys) (t : nat) (c : Code) : Sys := mkSys s (<[t := c]> (code S)) (finished S).

Definition step_of (m : Move) (S : Sys) : option Sys :=
  let s := sched S in
  match m with
  | MAccess t i =>
      c ← code S !! t;
      match c with
      | CTurn (Vis e k) => r ← exec i (self_of count t) e s; Some (to r.2 S t (CTurn (k r.1)))
      | CTask x (Vis e k) => r ← exec i (self_of count t) e s; Some (to r.2 S t (CTask x (k r.1)))
      | _ => None
      end
  | MLoop t =>
      c ← code S !! t;
      match c with
      | CTurn (Ret (TRun x)) => Some (to s S t (CTask (Some x) (Ret tt)))
      | CTurn (Ret TParked) => Some (to s S t (CTurn (run_turn count t true)))
      | CTurn (Ret TStop) => Some (to s S t CStopped)
      | CTask None (Ret tt) => if decide (t < count) then Some (to s S t (CTurn (run_turn count t false))) else None
      | _ => None
      end
  | MSuspend t =>
      c ← code S !! t;
      match c with
      | CTask (Some x) (Ret tt) => Some (to (set_suspended (x :: suspended s) s) S t (CTask None (Ret tt)))
      | _ => None
      end
  | MFinish t =>
      c ← code S !! t;
      match c with
      | CTask (Some x) (Ret tt) => Some (mkSys s (<[t := CTask None (Ret tt)]> (code S)) (x :: finished S))
      | _ => None
      end
  | MCall t a =>
      c ← code S !! t;
      match c with
      | CTask x (Ret tt) =>
          if allowed count (self_of count t) a then
            s' ← take_suspended (call_frames a) s; Some (to s' S t (CTask x (call_prog count (self_of count t) a)))
          else None
      | _ => None
      end
  | MShutdown => Some (mkSys (set_stop s) (code S) (finished S))
  end.

Lemma step_of_sound m S S' : step_of m S = Some S' -> s_step count S S'.
Proof.
  destruct S as [s cs fin]. destruct m as [t i|t|t|t|t a|]; cbn; intros H.
  all: try (destruct (cs !! t) as [c|] eqn:Hc; [cbn in H|done]).
  - destruct c as [[|R e k]|x [|R e k]|]; try done; destruct (exec i _ e s) as [[r s1]|] eqn:E; try done; injection H as <-.
    + by eapply s_turn.
    + by eapply s_task.
  - destruct c as [[[x| |]|]|[x|] [[]|]|]; try done; try (injection H as <-).
    + by apply s_run.
    + by apply s_parked.
    + by apply s_stopped.
    + case_decide; [|done]. injection H as <-. by apply s_return.
  - destruct c as [|[x|] [[]|]|]; try done. injection H as <-. by apply s_suspend.
  - destruct c as [|[x|] [[]|]|]; try done. injection H as <-. by apply s_finish.
  - destruct c as [|x [[]|]|]; try done. destruct (allowed _ _ a) eqn:Ea; [|done].
    destruct (take_suspended _ s) as [s1|] eqn:E; [|done]. injection H as <-. eapply s_call; [done| |done]. by apply allowed_ok.
  - injection H as <-. apply s_shutdown.
Qed.

(** Lets thread [t] run until it is settled, with the same outside for each
    access. *)
Fixpoint go (fuel t : nat) (i : Input) (S : Sys) : Sys :=
  match fuel with
  | O => S
  | S n =>
      match code S !! t with
      | Some c => if settled t c then S else match step_of (MAccess t i) S with Some S' => go n t i S' | None => S end
      | None => S
      end
  end.

Lemma go_sound fuel t i : forall S, rtc (s_step count) S (go fuel t i S).
Proof.
  induction fuel as [|n IH]; intros S; [apply rtc_refl|]. cbn [go]. destruct (code S !! t); [|apply rtc_refl].
  destruct (settled t c); [apply rtc_refl|]. destruct (step_of _ S) as [S'|] eqn:E; [|apply rtc_refl].
  eapply rtc_l; [by eapply step_of_sound|]. apply IH.
Qed.

(** A history: each step is followed by a run of its thread. *)
Definition thread_of (m : Move) : nat :=
  match m with MAccess t _ | MLoop t | MSuspend t | MFinish t | MCall t _ => t | MShutdown => 0 end.

Definition quiet_input : Input := mkInput false 0 [] [].

Fixpoint play (ms : list Move) (S : Sys) : option Sys :=
  match ms with
  | [] => Some S
  | m :: ms => S' ← step_of m S; play ms (go 5000 (thread_of m) quiet_input S')
  end.

Lemma play_sound ms : forall S S', play ms S = Some S' -> rtc (s_step count) S S'.
Proof.
  induction ms as [|m ms IH]; intros S S' E; cbn [play] in E; [injection E as <-; apply rtc_refl|].
  destruct (step_of m S) as [S1|] eqn:E1; [|done]. eapply rtc_l; [by eapply step_of_sound|].
  etrans; [apply go_sound|]. by apply IH.
Qed.

Lemma play_reachable threads frames ms S :
  play ms (mkSys (new_scheduler count frames) (map (first_code count) (seq 0 threads)) []) = Some S ->
  reachable (sys_init count threads frames) (s_step count) S.
Proof. intros E%play_sound. eapply reachable_rtc; [|exact E]. by apply reachable_init. Qed.
End run.
