(* ===== verification/SchedProps.v ===== *)
(** * What the scheduler guarantees

    The workers of src/scheduler.cpp and any number of foreign threads, in any
    interleaving of their accesses: frames are conserved, a worker that blocks
    has nothing to run, and no runnable frame is left when every thread rests. *)

From S2P Require Import Prelude Sched SchedOps SchedLogic SchedSystem SchedSound SchedInv.
From S2P Require RunQueue QueueProps Bitmap GlobalQueue.
Import RunQueue (lrep).
Import Bitmap (bm_ok, member, bit_count).

Set Default Proof Using "Type".

(** What a thread between two operations has in its variables: the frame its
    turn selected. *)
Definition holds (c : Code) : list item := match c with CTurn (Ret (TRun x)) => [x] | _ => [] end.

(** The frames the tasks of the threads run. *)
Definition running (S : Sys) : list item := concat (map code_frames (code S)).

(** Every worker waits without a wake. *)
Definition all_blocked (count : nat) (S : Sys) : bool := forallb (blocked S) (seq 0 count).

(** ** Settled and waiting threads *)

Lemma waits_inv t c : waits_at t c = true -> exists k, c = CTurn (Vis (EWait t) k).
Proof.
  destruct c as [[|R e k]|x p|]; try done. destruct e; try done. cbn. intros ->%bool_decide_eq_true. by exists k.
Qed.

Lemma waits_ghost count t c g : waits_at t c = true -> code_ok count t c g -> g = mkLocal [] [] None (Some all_checks).
Proof. intros [k ->]%waits_inv (_ & _ & Hg & _). done. Qed.

Lemma settled_ghost count t c g : settled t c = true -> code_ok count t c g -> hand g = holds c /\ owes g = [].
Proof.
  intros Hs Hok. destruct (waits_at t c) eqn:Hw.
  - rewrite (waits_ghost count t c g Hw Hok). by apply waits_inv in Hw as [k ->].
  - destruct c as [[v|R e k]|x [[]|R e k]|]; cbn in Hs, Hw; try congruence.
    + destruct Hok as (_ & _ & Ho & Hh). split; [|done]. rewrite Hh. by destruct v.
    + by destruct Hok as (Hh & Ho & _).
    + by destruct Hok as (Hh & Ho & _).
Qed.

Section props.
Context (count threads : nat) (frames : list item).
Abbreviation reach := (reachable (sys_init count threads frames) (s_step count)).

Lemma blocked_inv S t : blocked S t = true -> exists c W, code S !! t = Some c /\ waits_at t c = true /\
  workers (sched S) !! t = Some W /\ wake_token W = false.
Proof.
  unfold blocked. destruct (code S !! t) as [c|]; [|done]. destruct (workers (sched S) !! t) as [W|]; [|done].
  intros [H1 H2%negb_true_iff]%andb_true_iff. by exists c, W.
Qed.

Lemma all_settled_owe S gs : code_all count (code S) gs -> all_settled S = true -> forall o, ~ owed gs o.
Proof.
  intros Ha Hs o (t & g & Hg & Ho). destruct Ha as [Hl Ha].
  destruct (lookup_lt_is_Some_2 (code S) t) as [c Hc]; [rewrite <- Hl; by apply lookup_lt_Some in Hg|].
  unfold all_settled in Hs. rewrite forallb_forall in Hs.
  assert (Hin : settled t c = true).
  { apply (Hs (t, c)). apply list_elem_of_In. apply list_elem_of_lookup_2 with t. by rewrite list_lookup_imap, Hc. }
  destruct (settled_ghost count t c g Hin (Ha t c g Hc Hg)) as [_ E]. rewrite E in Ho. by apply not_elem_of_nil in Ho.
Qed.

(** The ghost of a blocked worker, and what it means for its parts. *)
Lemma blocked_parts S gs w : code_all count (code S) gs -> core count frames (sched S) gs (outside (code S) (finished S)) ->
  blocked S w = true -> gs !! w = Some (mkLocal [] [] None (Some all_checks)) /\ ~ token_of (sched S) w.
Proof.
  intros Ha Hc Hb. destruct (blocked_inv S w Hb) as (c & W & Hcw & Hw & HW & Ht).
  destruct (code_ghost count _ gs w c Ha Hcw) as (g & Hg & Hok). rewrite (waits_ghost count w c g Hw Hok) in Hg.
  split; [done|]. intros (W' & HW' & Ht'). congruence.
Qed.

Lemma blocked_empty S gs w : code_all count (code S) gs -> core count frames (sched S) gs (outside (code S) (finished S)) ->
  blocked S w = true -> exists W, workers (sched S) !! w = Some W /\ runnext W = None /\ local_items (queue W) = [] /\
    (all_settled S = true -> inbox W = []).
Proof.
  intros Ha Hco Hbl. destruct (blocked_parts S gs w Ha Hco Hbl) as [Hg Hnt].
  destruct (blocked_inv S w Hbl) as (c & W & _ & _ & HW & _).
  pose proof (co_wake _ _ _ _ _ Hco w _ _ Hg eq_refl) as [Hlt _]. exists W. split; [done|]. split_and!.
  - pose proof (co_rn _ _ _ _ _ Hco w _ Hlt Hg) as E. unfold rn_of in E. rewrite HW in E. by injection E.
  - apply local_items_rep. by apply (co_local _ _ _ _ _ Hco w _ _ Hg eq_refl eq_refl).
  - intros Hs. pose proof (all_settled_owe S gs Ha Hs) as Hno. destruct (inbox W) as [|[x b] l] eqn:E; [done|].
    destruct b.
    + destruct (co_inbox _ _ _ _ _ Hco w _ _ Hg eq_refl eq_refl) as [?|[?|?]]; [|done|by edestruct Hno..].
      exists W. by rewrite E.
    + destruct (Hno (OPublish w x)). apply (co_reserved _ _ _ _ _ Hco). exists W. split; [done|]. rewrite E. by left.
Qed.

(** When all workers are blocked and nobody is in an operation, nobody would look
    at the global queue: it is empty. *)
Lemma blocked_global S gs : code_all count (code S) gs -> core count frames (sched S) gs (outside (code S) (finished S)) ->
  all_settled S = true -> (forall w, w < count -> blocked S w = true) -> GlobalQueue.queue_ (global (sched S)) = [].
Proof.
  intros Ha Hco Hs Hall. pose proof (all_settled_owe S gs Ha Hs) as Hno.
  destruct (GlobalQueue.queue_ (global (sched S))) as [|x q] eqn:E; [done|].
  destruct (co_global _ _ _ _ _ Hco) as [[n Ho]|[Ho|[[w Ho]|[[w Htok]|(w & g & Hlt & Hg & Hl)]]]]; [by rewrite E|..].
  1-3: by edestruct Hno.
  - assert (Hlt : w < count).
    { destruct Htok as (W & HW & _). rewrite <- (wf_workers _ _ (co_wf _ _ _ _ _ Hco)). by apply lookup_lt_Some in HW. }
    by destruct (blocked_parts S gs w Ha Hco (Hall w Hlt)).
  - destruct (blocked_parts S gs w Ha Hco (Hall w Hlt)) as [Hg' _].
    rewrite Hg in Hg'. injection Hg' as ->. by specialize (Hl _ eq_refl).
Qed.
End props.

(** ** No access is out of range *)

Definition in_operation (c : Code) : bool := match c with CTurn (Vis _ _) | CTask _ (Vis _ _) => true | _ => false end.

(** The outside that delivers nothing. *)
Definition nothing : Input := mkInput true 0 [] [].

Section defined.
Context (count : nat) (t : nat) (s : Scheduler) (g : Local).
Context (Hok : thread_ok count t s g).
#[local] Set Default Proof Using "Hok".

Lemma worker_defined {R} w (f : Worker -> option (R * Worker)) : w < count ->
  (forall W l, lrep (queue W) l -> is_Some (f W)) -> is_Some (at_worker w f s).
Proof.
  intros Hw Hf. destruct (lookup_lt_is_Some_2 (workers s) w) as [W HW]; [by rewrite (wf_workers _ _ (proj1 Hok))|].
  destruct (wf_queue _ _ (proj1 Hok) w W HW) as [l Hl]. destruct (Hf W l Hl) as [r E].
  unfold at_worker. rewrite HW. cbn. rewrite E. by eexists.
Qed.

Lemma look_defined {R} w (f : Worker -> R) : w < count -> is_Some (look (f <$> workers s !! w) s).
Proof.
  intros Hw. destruct (lookup_lt_is_Some_2 (workers s) w) as [W HW]; [by rewrite (wf_workers _ _ (proj1 Hok))|].
  rewrite HW. by eexists.
Qed.

Lemma hints_defined {R} w (f : Hints -> R * Hints) : w < count -> is_Some (at_hints w f s).
Proof.
  intros Hw. destruct (lookup_lt_is_Some_2 (hints s) w) as [h Hh]; [by rewrite (wf_hints _ _ (proj1 Hok))|].
  unfold at_hints. rewrite Hh. by eexists.
Qed.

Lemma turn_defined plan W l : lrep (queue W) l ->
  (forall q k n, lrep q k -> plan (RunQueue.head_ctr q) (RunQueue.tail_ctr q) = RunQueue.Take n -> (0 <= n <= Z.of_nat (length k))%Z) ->
  is_Some (local_take (RunQueue.take_turn plan) W).
Proof using Type.
  intros Hl Hp. destruct (turn_takes plan (queue W) l Hl (fun n => Hp _ _ n Hl)) as (P & xs & q' & l' & E & _).
  unfold local_take. rewrite E. by eexists.
Qed.

Lemma poll_defined w (f : Worker -> option (unit * Worker)) : w < count -> (forall W, is_Some (f W)) ->
  is_Some (r ← at_worker w f s; poll_result nothing r.2).
Proof.
  intros Hw Hf. destruct (worker_defined w f Hw) as [r E]; [auto|]. rewrite E. by eexists.
Qed.

Lemma exec_defined {R} (e : Event R) K : ewp count (self_of count t) e g K -> is_Some (exec nothing (self_of count t) e s).
Proof.
  intros Hw. destruct (wf_idle _ _ (proj1 Hok)) as [Hib Hin]. destruct (wf_steal _ _ (proj1 Hok)) as [Hsb Hsn].
  assert (Hmine : forall me, mine count (self_of count t) me -> me < count) by (by intros me [_ ?]).
  destruct e; cbn in Hw |- *; try (by eexists); try (by apply hints_defined; auto; apply Hmine, Hw || apply Hw);
    try (by apply look_defined; auto; apply Hmine, Hw || apply Hw).
  all: try (apply worker_defined; [by apply Hmine, Hw || apply Hw|intros W l Hl; try by eexists]).
  - destruct (turn_defined RunQueue.plan_pop W l Hl pop_plan) as [r E]. unfold RunQueue.local_pop. rewrite E. by eexists.
  - by apply (turn_defined _ W l Hl half_plan).
  - eapply (turn_defined _ W l Hl). intros q k n Hq. apply grab_plan; [done|apply Hw].
  - destruct (Bitmap.set_run (idle_workers s) me Hib) as (f & b' & E & _); [rewrite Hin; by apply Hmine, Hw|]. rewrite E. by eexists.
  - destruct (Bitmap.clear_run (idle_workers s) w Hib) as (f & b' & E & _); [rewrite Hin; apply Hw|]. rewrite E. by eexists.
  - destruct (Bitmap.claim_from_run start _ Hib) as (v & b' & E & _). rewrite E. by eexists.
  - destruct (Bitmap.find_from_run start _ Hib) as (v & E & _). rewrite E. by eexists.
  - destruct (Bitmap.test_run _ w Hsb) as (f & E & _). rewrite E. by eexists.
  - destruct (Bitmap.set_run (stealable_workers s) w Hsb) as (f & b' & E & _); [rewrite Hsn; apply Hw|]. rewrite E. by eexists.
  - destruct (Bitmap.clear_run (stealable_workers s) w Hsb) as (f & b' & E & _); [rewrite Hsn; apply Hw|]. rewrite E. by eexists.
  - destruct (Bitmap.find_from_run start _ Hsb) as (v & E & _). rewrite E. by eexists.
  - apply poll_defined; [apply Hw|]. intros W. by eexists.
  - apply poll_defined; [by apply Hmine, Hw|]. intros W. unfold wait_returns. cbn. rewrite !orb_true_r. by eexists.
Qed.
End defined.

(** C2: No frame is ever lost or duplicated: in every state that any
    interleaving of workers and foreign threads reaches, the queued and the
    suspended frames, those in the variables of the threads, those that run and
    the finished ones are together the program's frames, each exactly once, and a
    thread between two operations has none in its variables but the frame its
    turn has selected. *)
Theorem frames_conserved count threads frames S :
  0 < count -> count <= threads -> (Z.of_nat (length frames) < 2 ^ 32)%Z ->
  reachable (sys_init count threads frames) (s_step count) S ->
  exists hands : list (list item), length hands = length (code S) /\
    queued (sched S) ++ suspended (sched S) ++ concat hands ++ running S ++ finished S ≡ₚ frames /\
    forall t c h, code S !! t = Some c -> hands !! t = Some h -> settled t c = true -> h = holds c.
Proof.
  intros Hc Ht Hb (gs & Hco & Ha)%reachable_sys_inv; [|done..]. exists (map hand gs). split_and!.
  - rewrite length_map. apply Ha.
  - pose proof (core_perm _ _ _ _ _ Hco) as Hp. unfold sched_frames, outside in Hp. by rewrite <- app_assoc in Hp.
  - intros t c h Hct Hh Hs. apply list_lookup_fmap_Some in Hh as (g & -> & Hg).
    destruct Ha as [_ Ha]. by destruct (settled_ghost count t c g Hs (Ha t c g Hct Hg)).
Qed.

(** A worker that blocks in its reactor without a pending wake has nothing
    to run: its next-frame slot and its ring are empty, whatever the other
    threads do, and its inbox is empty or some thread is still in the middle of
    an operation. *)
Theorem blocked_worker_is_empty count threads frames S w :
  0 < count -> count <= threads -> (Z.of_nat (length frames) < 2 ^ 32)%Z ->
  reachable (sys_init count threads frames) (s_step count) S -> blocked S w = true ->
  exists W, workers (sched S) !! w = Some W /\ runnext W = None /\ local_items (queue W) = [] /\
    (all_settled S = true -> inbox W = []).
Proof.
  intros Hc Ht Hb (gs & Hco & Ha)%reachable_sys_inv Hbl; [|done..]. by eapply blocked_empty.
Qed.

(** C1: No wake is lost: when every worker is blocked in its reactor without a
    pending wake and every other thread has finished its operation, no frame is
    queued anywhere, neither in a slot, a ring, an inbox nor in the global
    queue: the program waits only for its suspended frames. *)
Theorem no_stranded_work count threads frames S :
  0 < count -> count <= threads -> (Z.of_nat (length frames) < 2 ^ 32)%Z ->
  reachable (sys_init count threads frames) (s_step count) S ->
  all_settled S = true -> all_blocked count S = true -> queued (sched S) = [].
Proof.
  intros Hc Ht Hb Hr Hs Hbl.
  assert (Hall : forall w, w < count -> blocked S w = true).
  { intros w Hw. unfold all_blocked in Hbl. rewrite forallb_forall in Hbl. apply Hbl, in_seq. lia. }
  destruct (reachable_sys_inv count threads frames S Hc Ht Hb Hr) as (gs & Hco & Ha).
  unfold queued. rewrite (blocked_global _ _ S gs Ha Hco Hs Hall), app_nil_r.
  apply concat_nil_Forall, Forall_fmap, Forall_lookup. intros w W HW.
  assert (Hlt : w < count) by (rewrite <- (wf_workers _ _ (co_wf _ _ _ _ _ Hco)); by apply lookup_lt_Some in HW).
  destruct (blocked_empty _ _ S gs w Ha Hco (Hall w Hlt)) as (W' & HW' & H1 & H2 & H3). assert (W' = W) as -> by congruence.
  cbn. unfold worker_frames. by rewrite H1, H2, (H3 Hs).
Qed.

(** C3: No access of an operation is out of range: in every reachable state a
    thread in the middle of an operation can make its next access, whichever
    worker, word or slot that names. *)
Theorem operations_never_stuck count threads frames S t c :
  0 < count -> count <= threads -> (Z.of_nat (length frames) < 2 ^ 32)%Z ->
  reachable (sys_init count threads frames) (s_step count) S ->
  code S !! t = Some c -> in_operation c = true -> exists S', step_of count (MAccess t nothing) S = Some S'.
Proof.
  intros Hcount Ht Hb (gs & Hco & Ha)%reachable_sys_inv Hc Ho; [|done..].
  destruct (code_ghost count _ gs t c Ha Hc) as (g & Hg & Hok). pose proof (core_thread _ _ _ _ _ t g Hco Hg) as Hth.
  cbn. rewrite Hc. cbn. destruct c as [[v|R e k]|x [v|R e k]|]; try done.
  - destruct Hok as [_ Hw]. destruct (exec_defined count t _ g Hth e _ Hw) as [r E]. rewrite E. by eexists.
  - destruct (exec_defined count t _ g Hth e _ Hok) as [r E]. rewrite E. by eexists.
Qed.

(** ** A history *)

Definition ex_init : Sys := mkSys (new_scheduler 2 [7; 8]) (map (first_code 2) (seq 0 3)) [].

(** Both workers park; thread 2 sends frame 7 to worker 0, which schedules frame 8
    before the task finishes and frame 8 suspends again. *)
Definition ex_moves : list Move :=
  [ MAccess 0 quiet_input; MAccess 1 quiet_input; MCall 2 (CScheduleTo 7 (Some 0)); MAccess 0 quiet_input; MLoop 0;
    MLoop 0; MCall 0 (CSchedule 8); MFinish 0; MLoop 0; MLoop 0; MSuspend 0; MLoop 0;
    MAccess 1 quiet_input; MLoop 1 ].

(** What a history ends in. *)
Definition ends (ms : list Move) (f : Sys -> bool) : bool :=
  match play 2 ms ex_init with Some T => f T | None => false end.

Lemma ends_reachable ms f : ends ms f = true -> exists S, reachable (sys_init 2 3 [7; 8]) (s_step 2) S /\ f S = true.
Proof.
  unfold ends. destruct (play 2 ms ex_init) as [S|] eqn:E; [|done]. intros Hf. exists S. split; [|done].
  by eapply play_reachable.
Qed.

Lemma frames_conserved_witness : exists S, reachable (sys_init 2 3 [7; 8]) (s_step 2) S /\
  exists hands, length hands = length (code S) /\
  queued (sched S) ++ suspended (sched S) ++ concat hands ++ running S ++ finished S ≡ₚ [7; 8] /\
  forall t c h, code S !! t = Some c -> hands !! t = Some h -> settled t c = true -> h = holds c.
Proof.
  destruct (ends_reachable ex_moves (fun S => bool_decide (finished S = [7]))) as (S & Hr & Hf); [by vm_compute|].
  exists S. split; [done|]. apply (frames_conserved 2 3 [7; 8] S); [lia|lia|vm_compute; reflexivity|exact Hr].
Defined.

Lemma blocked_worker_is_empty_witness : exists S, reachable (sys_init 2 3 [7; 8]) (s_step 2) S /\ blocked S 1 = true /\
  running S = [7] /\
  exists W, workers (sched S) !! 1 = Some W /\ runnext W = None /\ local_items (queue W) = [] /\
  (all_settled S = true -> inbox W = []).
Proof.
  destruct (ends_reachable (take 6 ex_moves) (fun S => blocked S 1 && bool_decide (running S = [7])))
    as (S & Hr & [Hb Hf%bool_decide_eq_true]%andb_true_iff); [by vm_compute|].
  exists S. split; [done|]. split; [done|]. split; [done|].
  apply (blocked_worker_is_empty 2 3 [7; 8] S 1); [lia|lia|vm_compute; reflexivity|exact Hr|exact Hb].
Defined.

Lemma no_stranded_work_witness : exists S, reachable (sys_init 2 3 [7; 8]) (s_step 2) S /\
  all_settled S = true /\ all_blocked 2 S = true /\ finished S = [7] /\ queued (sched S) = [].
Proof.
  destruct (ends_reachable ex_moves (fun S => all_settled S && (all_blocked 2 S && bool_decide (finished S = [7]))))
    as (S & Hr & [Hs [Hb Hf%bool_decide_eq_true]%andb_true_iff]%andb_true_iff); [by vm_compute|].
  exists S. split; [done|]. split; [done|]. split; [done|]. split; [done|].
  apply (no_stranded_work 2 3 [7; 8] S); [lia|lia|vm_compute; reflexivity|exact Hr|exact Hs|exact Hb].
Defined.

Lemma operations_never_stuck_witness : exists S', step_of 2 (MAccess 0 nothing) ex_init = Some S'.
Proof.
  apply (operations_never_stuck 2 3 [7; 8] ex_init 0 (first_code 2 0)); [lia|lia|vm_compute; reflexivity| |done|done].
  by apply reachable_init.
Defined.
