(* ===== verification/Reactor.v ===== *)
(** * The reactor's descriptors (include/cio/detail/reactor.hpp, src/reactor_common.cpp, src/reactor_epoll.cpp)

    One node of the descriptor slab through all its incarnations: the readiness
    slots, the readiness hints, the system call leases, the reference count and
    the generation, with the operations that run on it: reads and writes of
    src/net.cpp, pollers that dispatch events, deadline and cancellation
    callbacks, and the socket that attaches and detaches. Every atomic access
    outside the lifecycle lock is one step; so is a section of the lock, except
    that the slot is shared with code that does not take it. *)

From S2P Require Import Prelude Result.
From stdpp Require Import functions.

Set Default Proof Using "Type".

Inductive Dir := kRead | kWrite.

#[global] Instance Dir_eq_dec : EqDecision Dir.
Proof. solve_decision. Defined.

(** [nullptr], [kIoReady] or the awaiter of a thread. *)
Inductive Slot := Idle | IoReady | Waiting (t : nat).

#[global] Instance Slot_eq_dec : EqDecision Slot.
Proof. solve_decision. Defined.

Record IoDesc := mkDesc {
  slot : Dir -> Slot;
  generation : Z;
  refs : Z;
  closing : bool;
  syscall_active : Dir -> bool;
  ready_hint : Dir -> bool;
  lifecycle_lock : bool
}.

Definition new_desc : IoDesc := mkDesc (fun _ => Idle) 0 0 false (fun _ => false) (fun _ => true) false.

Definition set_slot (d : Dir) (v : Slot) (x : IoDesc) : IoDesc :=
  mkDesc (<[d := v]> (slot x)) (generation x) (refs x) (closing x) (syscall_active x) (ready_hint x) (lifecycle_lock x).
Definition set_refs (v : Z) (x : IoDesc) : IoDesc :=
  mkDesc (slot x) (generation x) v (closing x) (syscall_active x) (ready_hint x) (lifecycle_lock x).
Definition set_closing (x : IoDesc) : IoDesc :=
  mkDesc (slot x) (generation x) (refs x) true (syscall_active x) (ready_hint x) (lifecycle_lock x).
Definition set_active (d : Dir) (v : bool) (x : IoDesc) : IoDesc :=
  mkDesc (slot x) (generation x) (refs x) (closing x) (<[d := v]> (syscall_active x)) (ready_hint x) (lifecycle_lock x).
Definition set_hint (d : Dir) (v : bool) (x : IoDesc) : IoDesc :=
  mkDesc (slot x) (generation x) (refs x) (closing x) (syscall_active x) (<[d := v]> (ready_hint x)) (lifecycle_lock x).
Definition set_lock (v : bool) (x : IoDesc) : IoDesc :=
  mkDesc (slot x) (generation x) (refs x) (closing x) (syscall_active x) (ready_hint x) v.

(** ** Operations on the descriptor *)

(** [io_error]; [env] is what the clock, the stop flag and a bound cancellation
    say. *)
Definition io_error (g : Z) (env : option Error) (x : IoDesc) : option Error :=
  if decide (generation x <> g \/ closing x = true) then Some (of_errc closed) else env.

Definition begin_syscall (d : Dir) (g : Z) (env : option Error) (x : IoDesc) : option Error * IoDesc :=
  if decide (generation x <> g \/ closing x = true) then (Some (of_errc closed), x)
  else
    match env with
    | Some e => (Some e, x)
    | None => if syscall_active x d then (Some (of_errc broken), x) else (None, set_active d true x)
    end.

Definition end_syscall (d : Dir) (x : IoDesc) : IoDesc := set_active d false x.
Definition note_would_block (d : Dir) (x : IoDesc) : IoDesc := set_hint d false x.
Definition note_readable (d : Dir) (x : IoDesc) : IoDesc := set_hint d true x.

(** The successful turn of [unblock_impl]'s loop, and the waiter it took. *)
Definition unblock_slot (d : Dir) (x : IoDesc) : option nat * IoDesc :=
  match slot x d with
  | IoReady => (None, x)
  | Idle => (None, set_slot d IoReady x)
  | Waiting t => (Some t, set_slot d Idle x)
  end.

(** The first part of [await_suspend] under the lock, and the turn of its slot
    loop that ends it. *)
Definition suspend_enter (g : Z) (env : option Error) (x : IoDesc) : option Error * IoDesc :=
  match io_error g env x with
  | Some e => (Some e, x)
  | None => (None, set_lock true (set_refs (u32 (refs x + 1)) x))
  end.

Inductive Suspend := SReady | SBroken | SParked.

Definition suspend_slot (t : nat) (d : Dir) (x : IoDesc) : Suspend * IoDesc :=
  match slot x d with
  | IoReady => (SReady, set_lock false (set_slot d Idle x))
  | Waiting _ => (SBroken, set_lock false x)
  | Idle => (SParked, set_lock false (set_slot d (Waiting t) x))
  end.

(** [dispatch]'s pin. *)
Definition pin (x : IoDesc) : option IoDesc :=
  if decide (refs x = 0 \/ refs x = 2 ^ 32 - 1)%Z then None else Some (set_refs (u32 (refs x + 1)) x).

(** [release_desc]: whether the last reference went. *)
Definition release_ref (x : IoDesc) : bool * IoDesc := (bool_decide (refs x = 1%Z), set_refs (u32 (refs x - 1)) x).

(** [free_desc] under the lock, and [attach] under the lock. *)
Definition recycle (x : IoDesc) : IoDesc :=
  mkDesc (fun _ => Idle) (u32 (generation x + 1)) (refs x) true (syscall_active x) (ready_hint x) false.
Definition attach_init (x : IoDesc) : IoDesc :=
  mkDesc (fun _ => Idle) (generation x) 1 false (fun _ => false) (fun _ => true) false.

(** ** The kernel's side of a direction

    What a call can move now, whether the peer has ended the stream, and an
    edge that epoll has still to report. *)
Record Kern := mkKern { avail : nat; hangup : bool; event : bool }.

(** The answer of the kernel to a call for [size] bytes. *)
Inductive Native := NFull | NShort | NBlock | NIntr | NError.

Inductive Asked := AskBytes (size : nat) | AskIntr | AskError.

Definition native_call (a : Asked) (k : Kern) : Native * Kern :=
  match a with
  | AskIntr => (NIntr, k)
  | AskError => (NError, k)
  | AskBytes size =>
      if decide (size <= avail k) then (NFull, mkKern (avail k - size) (hangup k) (event k))
      else if decide (avail k = 0 /\ hangup k = false) then (NBlock, k)
      else (NShort, mkKern 0 (hangup k) (event k))
  end.

(** ** Threads *)

(** What an operation does after its call. *)
Inductive After := Again | Await | Done.

(** Where a thread is. An operation of incarnation [g] in direction [d]: at the
    top of its loop, about to begin a call ([wait]: the awaiting form), in the
    call, at [note_would_block], at the end of the lease, before [await_suspend],
    in its slot loop, parked, before [await_resume]. A poller: with a token, past
    the generation check, pinned, before the hint and the slot of a direction. A
    callback: before the lock, and inside. Then the release of a reference. *)
Inductive Pc :=
  | Rest
  | OpTop (g : Z) (d : Dir)
  | OpLease (wait : bool) (g : Z) (d : Dir)
  | OpCall (wait : bool) (g : Z) (d : Dir)
  | OpNote (g : Z) (d : Dir) (next : After)
  | OpEnd (g : Z) (d : Dir) (next : After)
  | OpAwait (g : Z) (d : Dir)
  | OpSlot (g : Z) (d : Dir)
  | OpParked (g : Z) (d : Dir)
  | OpResume (g : Z) (d : Dir) (err : option Error)
  | PToken (g : Z) (ds : list Dir)
  | PPin (g : Z) (ds : list Dir)
  | PCheck (g : Z) (ds : list Dir)
  | PHint (g : Z) (ds : list Dir)
  | PSlot (g : Z) (d : Dir) (ds : list Dir)
  | CStart (g : Z) (d : Dir) (e : Error)
  | CSlot (d : Dir) (e : Error)
  | Release (retry : option (Z * Dir))
  | Freeing (retry : option (Z * Dir))
  | Pushing (retry : option (Z * Dir)).

(** Where the socket of the descriptor is: none, attached by [attach] step by
    step, open, in [detach] step by step, gone while others still hold
    references, or recycling the node itself. *)
Inductive Phase :=
  | NoSocket | Attaching | Adding | Attached
  | Closing | Unblocking (ds : list Dir) | WaitCalls (ds : list Dir) | ReleaseOwner
  | Released | FreeOwner | PushOwner.

#[global] Instance Phase_eq_dec : EqDecision Phase.
Proof. solve_decision. Defined.

(** [lost] marks a direction whose readiness an operation consumed and then
    returned a deadline, cancellation or shutdown error for; [incarnations]
    counts the recycled ones. Both are only observed. *)
Record Reactor := mkReactor {
  desc : IoDesc;
  kern : Dir -> Kern;
  phase : Phase;
  threads : list Pc;
  lost : Dir -> bool;
  incarnations : nat
}.

Definition set_desc (x : IoDesc) (s : Reactor) : Reactor := mkReactor x (kern s) (phase s) (threads s) (lost s) (incarnations s).
Definition set_kern (d : Dir) (k : Kern) (s : Reactor) : Reactor :=
  mkReactor (desc s) (<[d := k]> (kern s)) (phase s) (threads s) (lost s) (incarnations s).
Definition set_phase (p : Phase) (s : Reactor) : Reactor := mkReactor (desc s) (kern s) p (threads s) (lost s) (incarnations s).
Definition goto (t : nat) (pc : Pc) (s : Reactor) : Reactor :=
  mkReactor (desc s) (kern s) (phase s) (<[t := pc]> (threads s)) (lost s) (incarnations s).
Definition set_lost (d : Dir) (s : Reactor) : Reactor :=
  mkReactor (desc s) (kern s) (phase s) (threads s) (<[d := true]> (lost s)) (incarnations s).

(** The node is recycled under a new generation. *)
Definition next_incarnation (s : Reactor) : Reactor :=
  mkReactor (recycle (desc s)) (kern s) (phase s) (threads s) (lost s) (S (incarnations s)).

(** The fd is in the epoll set. *)
Definition registered (p : Phase) : bool := match p with Attached | Closing => true | _ => false end.

(** The operation a thread is in. *)
Definition op_of (pc : Pc) : option (Z * Dir) :=
  match pc with
  | OpTop g d | OpLease _ g d | OpCall _ g d | OpNote g d _ | OpEnd g d _ | OpAwait g d | OpSlot g d | OpParked g d
  | OpResume g d _ => Some (g, d)
  | Release r | Freeing r | Pushing r => r
  | _ => None
  end.

(** The operation guard admits one operation per direction. *)
Definition op_free (x : Z * Dir) (s : Reactor) : bool := forallb (fun pc => bool_decide (op_of pc <> Some x)) (threads s).

Definition resume_at (r : option (Z * Dir)) : Pc := match r with Some (g, d) => OpTop g d | None => Rest end.

(** The waiter that was taken out of the slot is scheduled with [err]; its frame
    must be there. *)
Definition wake_waiter (w : option nat) (err : option Error) (ths : list Pc) : option (list Pc) :=
  match w with
  | None => Some ths
  | Some t =>
      pc ← ths !! t;
      match pc with OpParked g d => Some (<[t := OpResume g d err]> ths) | _ => None end
  end.

(** [unblock] of one direction from its slot loop on. *)
Definition unblock (d : Dir) (err : option Error) (s : Reactor) : option Reactor :=
  let r := unblock_slot d (desc s) in
  ths ← wake_waiter r.1 err (threads s);
  Some (mkReactor r.2 (kern s) (phase s) ths (lost s) (incarnations s)).

(** ** Steps *)

(** What a thread at rest starts, and what the outside answers. *)
Inductive Choice :=
  | Go
  | StartOp (wait : bool) (d : Dir)
  | StartPoll (ds : list Dir)
  | StartCallback (d : Dir) (e : Error)
  | Env (e : option Error)
  | Ask (a : Asked).

Definition unlocked (s : Reactor) (r : option Reactor) : option Reactor :=
  if lifecycle_lock (desc s) then None else r.

Definition taken (ds : list Dir) (ks : Dir -> Kern) : Dir -> Kern :=
  fun d => if decide (d ∈ ds) then mkKern (avail (ks d)) (hangup (ks d)) false else ks d.

(** An operation's step. *)
Definition op_step (t : nat) (c : Choice) (pc : Pc) (s : Reactor) : option Reactor :=
  let x := desc s in
  match pc, c with
  | OpTop g d, Go => Some (goto t (if ready_hint x d then OpLease true g d else OpAwait g d) s)
  | OpLease w g d, Env env => unlocked s (
      let r := begin_syscall d g env x in
      Some (goto t (match r.1 with Some _ => Rest | None => OpCall w g d end) (set_desc r.2 s)))
  | OpCall w g d, Ask a =>
      let r := native_call a (kern s d) in
      let next := match r.1 with
                  | NFull => OpEnd g d Done
                  | NShort => OpNote g d Done
                  | NBlock => OpNote g d (if w then Await else Done)
                  | NIntr => OpEnd g d (if w then Again else Done)
                  | NError => OpEnd g d Done
                  end in
      Some (goto t next (set_kern d r.2 s))
  | OpNote g d n, Go => Some (goto t (OpEnd g d n) (set_desc (note_would_block d x) s))
  | OpEnd g d n, Go =>
      let next := match n with Again => OpTop g d | Await => OpAwait g d | Done => Rest end in
      Some (goto t next (set_desc (end_syscall d x) s))
  | OpAwait g d, Env env => unlocked s (
      let r := suspend_enter g env x in
      Some (goto t (match r.1 with Some _ => Rest | None => OpSlot g d end) (set_desc r.2 s)))
  | OpSlot g d, Go =>
      let r := suspend_slot t d x in
      let next := match r.1 with
                  | SReady => OpResume g d None
                  | SBroken => OpResume g d (Some (of_errc broken))
                  | SParked => OpParked g d
                  end in
      Some (goto t next (set_desc r.2 s))
  | OpResume g d (Some e), Go => Some (goto t (Release None) s)
  | OpResume g d None, Env env =>
      match io_error g env x with
      | Some e => Some (goto t (Release None) (set_lost d s))
      | None => Some (goto t (Release (Some (g, d))) (set_desc (note_readable d x) s))
      end
  | _, _ => None
  end.

(** A poller's step: [dispatch] of a token. *)
Definition poll_step (t : nat) (pc : Pc) (s : Reactor) : option Reactor :=
  let x := desc s in
  match pc with
  | PToken g ds => Some (goto t (if decide (generation x = g) then PPin g ds else Rest) s)
  | PPin g ds =>
      match pin x with
      | Some x' => Some (goto t (PCheck g ds) (set_desc x' s))
      | None => Some (goto t Rest s)
      end
  | PCheck g ds =>
      Some (goto t (if decide (generation x <> g \/ closing x = true) then Release None else PHint g ds) s)
  | PHint g (d :: ds) => Some (goto t (PSlot g d ds) (set_desc (note_readable d x) s))
  | PHint g [] => Some (goto t (Release None) s)
  | PSlot g d ds => unblock d None (goto t (PHint g ds) s)
  | _ => None
  end.

(** [on_deadline] and [cancel_waiters]. *)
Definition callback_step (t : nat) (pc : Pc) (s : Reactor) : option Reactor :=
  let x := desc s in
  match pc with
  | CStart g d e => unlocked s (
      if decide (generation x = g /\ closing x = false)
      then Some (goto t (CSlot d e) (set_desc (set_lock true x) s)) else Some (goto t Rest s))
  | CSlot d e => s' ← unblock d (Some e) (goto t Rest s); Some (set_desc (set_lock false (desc s')) s')
  | _ => None
  end.

(** [release_desc] and [free_desc] by a thread. *)
Definition release_step (t : nat) (pc : Pc) (s : Reactor) : option Reactor :=
  let x := desc s in
  match pc with
  | Release r =>
      let v := release_ref x in
      Some (goto t (if v.1 then Freeing r else resume_at r) (set_desc v.2 s))
  | Freeing r => unlocked s (Some (goto t (Pushing r) (next_incarnation s)))
  | Pushing r => Some (goto t (resume_at r) (set_phase NoSocket s))
  | _ => None
  end.

Definition start_step (t : nat) (c : Choice) (s : Reactor) : option Reactor :=
  let g := generation (desc s) in
  if registered (phase s) then
    match c with
    | StartOp w d =>
        if op_free (g, d) s then Some (goto t (if w then OpTop g d else OpLease false g d) s) else None
    | StartPoll ds =>
        Some (goto t (PToken g ds) (mkReactor (desc s) (taken ds (kern s)) (phase s) (threads s) (lost s) (incarnations s)))
    | StartCallback d e => Some (goto t (CStart g d e) s)
    | _ => None
    end
  else None.

Definition act (t : nat) (c : Choice) (s : Reactor) : option Reactor :=
  pc ← threads s !! t;
  match pc with
  | Rest => start_step t c s
  | PToken _ _ | PPin _ _ | PCheck _ _ | PHint _ _ | PSlot _ _ _ => poll_step t pc s
  | CStart _ _ _ | CSlot _ _ => callback_step t pc s
  | Release _ | Freeing _ | Pushing _ => release_step t pc s
  | _ => op_step t c pc s
  end.

(** [attach] of a socket, with what the kernel has for it, and [detach]. *)
Definition attach_step (add_fails : bool) (ks : Dir -> Kern) (s : Reactor) : option Reactor :=
  let x := desc s in
  match phase s with
  | NoSocket => Some (set_phase Attaching s)
  | Attaching => unlocked s (Some (mkReactor (attach_init x) ks Adding (threads s) (fun _ => false) (incarnations s)))
  | Adding =>
      if add_fails then Some (mkReactor (set_closing x) (kern s) ReleaseOwner (threads s) (lost s) (incarnations s))
      else Some (mkReactor x (fun d => mkKern (avail (kern s d)) (hangup (kern s d)) (bool_decide (0 < avail (kern s d)) || hangup (kern s d))) Attached (threads s) (lost s) (incarnations s))
  | _ => None
  end.

Definition detach_step (s : Reactor) : option Reactor :=
  let x := desc s in
  match phase s with
  | Attached => unlocked s (Some (set_phase Closing (set_desc (set_closing x) s)))
  | Closing => Some (set_phase (Unblocking [kRead; kWrite]) s)
  | Unblocking (d :: ds) => unblock d (Some (of_errc closed)) (set_phase (Unblocking ds) s)
  | Unblocking [] => Some (set_phase (WaitCalls [kRead; kWrite]) s)
  | WaitCalls (d :: ds) => if syscall_active x d then None else Some (set_phase (WaitCalls ds) s)
  | WaitCalls [] => Some (set_phase ReleaseOwner s)
  | ReleaseOwner =>
      let v := release_ref x in
      Some (set_phase (if v.1 then FreeOwner else Released) (set_desc v.2 s))
  | FreeOwner => unlocked s (Some (set_phase PushOwner (next_incarnation s)))
  | PushOwner => Some (set_phase NoSocket s)
  | _ => None
  end.

(** Bytes or the end of the stream arrive; epoll reports an edge once. *)
Definition arrive (d : Dir) (n : nat) (fin : bool) (s : Reactor) : Reactor :=
  let k := kern s d in set_kern d (mkKern (avail k + n) (hangup k || fin) (registered (phase s) && (bool_decide (0 < n) || fin) || event k)) s.

Inductive r_step : Reactor -> Reactor -> Prop :=
  | rs_act t c s s' : act t c s = Some s' -> r_step s s'
  | rs_attach b ks s s' : attach_step b ks s = Some s' -> r_step s s'
  | rs_detach s s' : detach_step s = Some s' -> r_step s s'
  | rs_arrive d n fin s : r_step s (arrive d n fin s).

Definition r_init (count : nat) (s : Reactor) : Prop :=
  s = mkReactor new_desc (fun _ => mkKern 0 false false) NoSocket (replicate count Rest) (fun _ => false) 0.
