(* ===== verification/ReactorInv.v ===== *)
(** * The invariant of a descriptor

    The reference count is exact, a node is recycled only when no thread uses it,
    and what threads hold names the node's current incarnation. *)

From S2P Require Import Prelude Result Reactor.
From stdpp Require Import functions.

Set Default Proof Using "Type".

(** ** What a thread has *)

Definition holds (pc : Pc) : nat :=
  match pc with
  | OpSlot _ _ | OpParked _ _ | OpResume _ _ _ | PCheck _ _ | PHint _ _ | PSlot _ _ _ | Release _ => 1
  | _ => 0
  end.
Definition frees (pc : Pc) : nat := match pc with Freeing _ | Pushing _ => 1 | _ => 0 end.
Definition pushes (pc : Pc) : nat := match pc with Pushing _ => 1 | _ => 0 end.
Definition locks (pc : Pc) : nat := match pc with OpSlot _ _ | CSlot _ _ => 1 | _ => 0 end.
Definition is_op (x : Z * Dir) (pc : Pc) : nat := if decide (op_of pc = Some x) then 1 else 0.

(** The generation a thread remembers. *)
Definition gen_of (pc : Pc) : option Z :=
  match pc with
  | PToken g _ | PPin g _ | PCheck g _ | PHint g _ | PSlot g _ _ | CStart g _ _ => Some g
  | _ => fst <$> op_of pc
  end.

(** The direction of a native call in progress. *)
Definition lease_of (pc : Pc) : option (Z * Dir) :=
  match pc with OpCall _ g d | OpNote g d _ | OpEnd g d _ => Some (g, d) | _ => None end.

(** The generation of a reference that was validated. *)
Definition pinned_gen (pc : Pc) : option Z :=
  match pc with
  | OpSlot g _ | OpParked g _ | OpResume g _ _ | PHint g _ | PSlot g _ _ => Some g
  | _ => fst <$> lease_of pc
  end.

Definition total (f : Pc -> nat) (s : Reactor) : nat := sum_list (map f (threads s)).

(** ** What the socket's progress allows *)

Definition owner_ref (p : Phase) : nat :=
  match p with Adding | Attached | Closing | Unblocking _ | WaitCalls _ | ReleaseOwner => 1 | _ => 0 end.
(** A call of direction [d] may be in progress, a waiter may be parked. *)
Definition leaseable (p : Phase) (d : Dir) : Prop :=
  match p with Attached | Closing | Unblocking _ => True | WaitCalls ds => d ∈ ds | _ => False end.
Definition waitable (p : Phase) (d : Dir) : Prop :=
  match p with Attached | Closing => True | Unblocking ds => d ∈ ds | _ => False end.
(** No thread can know the node's generation yet. *)
Definition unknown (p : Phase) : bool := match p with NoSocket | Attaching | Adding | PushOwner => true | _ => false end.
(** [closing] as the socket's progress determines it. *)
Definition shut (p : Phase) : option bool :=
  match p with Adding | Attached => Some false | NoSocket | Attaching => None | _ => Some true end.

Definition pc_ok (s : Reactor) (t : nat) (pc : Pc) : Prop :=
  (forall g, gen_of pc = Some g -> (g <= generation (desc s))%Z /\
     (g = generation (desc s) -> unknown (phase s) = false /\ total pushes s = 0)) /\
  (forall g, pinned_gen pc = Some g -> g = generation (desc s)) /\
  (forall g d, lease_of pc = Some (g, d) -> syscall_active (desc s) d = true /\ leaseable (phase s) d) /\
  (forall g d, pc = OpParked g d -> slot (desc s) d = Waiting t /\ waitable (phase s) d) /\
  (locks pc = 1 -> phase s = Attached).

Record inv (s : Reactor) : Prop := {
  i_count : (Z.of_nat (length (threads s)) < 2 ^ 32 - 2)%Z;
  i_generation : generation (desc s) = Z.of_nat (incarnations s);
  i_refs : refs (desc s) = Z.of_nat (owner_ref (phase s) + total holds s);
  i_frees : total frees s = if decide (phase s = Released /\ refs (desc s) = 0%Z) then 1 else 0;
  i_unused : match phase s with NoSocket | Attaching | FreeOwner | PushOwner => refs (desc s) = 0%Z | _ => True end;
  i_locks : total locks s = if lifecycle_lock (desc s) then 1 else 0;
  i_shut : forall b, shut (phase s) = Some b -> closing (desc s) = b;
  i_ops : forall x, total (is_op x) s <= 1;
  i_slot : forall d t, slot (desc s) d = Waiting t -> exists g, threads s !! t = Some (OpParked g d);
  i_pc : forall t pc, threads s !! t = Some pc -> pc_ok s t pc
}.

(** ** Sums *)

Lemma total_at f s t pc : threads s !! t = Some pc -> exists N, total f s = N + f pc /\
  forall pc' x ks p lo inc, total f (mkReactor x ks p (<[t := pc']> (threads s)) lo inc) = N + f pc'.
Proof. intros Ht. destruct (sum_insert f (threads s) t pc Ht) as (N & E & E'). exists N. split; [done|]. intros. apply E'. Qed.

Lemma total_zero f s : total f s = 0 <-> forall t pc, threads s !! t = Some pc -> f pc = 0.
Proof. apply sum_zero. Qed.

Lemma total_le f h s : (forall pc, f pc <= h pc) -> total f s <= total h s.
Proof. intros Hf. unfold total. induction (threads s) as [|pc l IH]; simpl; [done|]. specialize (Hf pc). lia. Qed.

Lemma total_bound s : total holds s <= length (threads s).
Proof.
  unfold total. induction (threads s) as [|pc l IH]; simpl; [done|]. assert (holds pc <= 1) by (destruct pc; simpl; lia). lia.
Qed.

Lemma total_two f s t u pc qc : threads s !! t = Some pc -> threads s !! u = Some qc -> t <> u -> f pc + f qc <= total f s.
Proof. apply sum_two. Qed.

Lemma op_free_sum x s : op_free x s = true <-> total (is_op x) s = 0.
Proof.
  unfold op_free, total, is_op. induction (threads s) as [|pc l IH]; simpl; [done|]. rewrite andb_true_iff, IH.
  case_decide as Hx; case_bool_decide; split; try (intros [? ?]); try done; try lia; intros; exfalso; lia.
Qed.

Lemma op_unique s t u pc qc x : inv s -> threads s !! t = Some pc -> threads s !! u = Some qc ->
  op_of pc = Some x -> op_of qc = Some x -> t = u.
Proof.
  intros Hi Ht Hu Hp Hq. destruct (decide (t = u)) as [|Hne]; [done|].
  pose proof (total_two (is_op x) s t u pc qc Ht Hu Hne) as H. pose proof (i_ops _ Hi x).
  unfold is_op in *. rewrite !decide_True in H by done. lia.
Qed.

(** ** A thread moves *)

Definition freeing (p : Phase) (r : Z) : nat := if decide (p = Released /\ r = 0%Z) then 1 else 0.
Definition b2n (b : bool) : nat := if b then 1 else 0.

(** What a step of one thread has to keep. *)
Record fine (s : Reactor) (t : nat) (pc pc' : Pc) (x' : IoDesc) : Prop := {
  f_refs : (refs x' + Z.of_nat (holds pc) = refs (desc s) + Z.of_nat (holds pc'))%Z;
  f_frees : frees pc' + freeing (phase s) (refs (desc s)) = frees pc + freeing (phase s) (refs x');
  f_unused : match phase s with NoSocket | Attaching | FreeOwner | PushOwner => refs x' = 0%Z | _ => True end;
  f_pushes : pushes pc' <= pushes pc;
  f_locks : locks pc + b2n (lifecycle_lock x') = locks pc' + b2n (lifecycle_lock (desc s));
  f_generation : generation x' = generation (desc s);
  f_closing : closing x' = closing (desc s);
  f_op : forall y, op_of pc' = Some y -> op_of pc = Some y \/ op_free y s = true;
  f_gen : forall g, gen_of pc' = Some g -> gen_of pc = Some g \/ (g = generation (desc s) /\ registered (phase s) = true);
  f_pinned : forall g, pinned_gen pc' = Some g -> pinned_gen pc = Some g \/ g = generation (desc s);
  f_active : forall d, syscall_active (desc s) d = true -> syscall_active x' d = true \/ op_of pc = Some (generation (desc s), d);
  f_lease : forall g d, lease_of pc' = Some (g, d) -> syscall_active x' d = true /\ leaseable (phase s) d;
  f_parked : forall g d, pc' = OpParked g d -> slot x' d = Waiting t /\ waitable (phase s) d;
  f_locked : locks pc' = 1 -> phase s = Attached;
  f_waiting : forall d u, slot (desc s) d = Waiting u -> u <> t -> slot x' d = Waiting u;
  f_waiter : forall d u, slot x' d = Waiting u -> slot (desc s) d = Waiting u \/ (u = t /\ exists g, pc' = OpParked g d);
  f_leaves : forall g d, pc = OpParked g d -> forall d', slot x' d' <> Waiting t
}.

Lemma pushes_none s : inv s -> phase s <> Released -> total pushes s = 0.
Proof.
  intros Hi Hp. pose proof (i_frees _ Hi) as Hf. rewrite decide_False in Hf by naive_solver.
  assert (total pushes s <= total frees s) by (apply total_le; intros []; simpl; lia). lia.
Qed.

Lemma lease_op pc x : lease_of pc = Some x -> op_of pc = Some x.
Proof. by destruct pc. Qed.

Lemma move_inv s t pc pc' x' ks lo : inv s -> threads s !! t = Some pc ->
  fine s t pc pc' x' -> inv (mkReactor x' ks (phase s) (<[t := pc']> (threads s)) lo (incarnations s)).
Proof.
  intros Hi Ht Hf.
  assert (Hsum : forall f, exists N, total f s = N + f pc /\
    total f (mkReactor x' ks (phase s) (<[t := pc']> (threads s)) lo (incarnations s)) = N + f pc').
  { intros f. destruct (total_at f s t pc Ht) as (N & E & E'). exists N. by rewrite E'. }
  assert (Hgood : forall g, g = generation (desc s) -> registered (phase s) = true ->
    unknown (phase s) = false /\ total pushes s = 0).
  { intros g _ Hr. split; [by destruct (phase s)|]. apply pushes_none; [done|]. by intros E; rewrite E in Hr. }
  assert (Hpush : total pushes s = 0 ->
    total pushes (mkReactor x' ks (phase s) (<[t := pc']> (threads s)) lo (incarnations s)) = 0).
  { destruct (Hsum pushes) as (N & -> & ->). pose proof (f_pushes _ _ _ _ _ Hf). lia. }
  split; cbn [desc phase threads incarnations kern lost].
  - rewrite length_insert. apply Hi.
  - rewrite (f_generation _ _ _ _ _ Hf). apply Hi.
  - destruct (Hsum holds) as (N & E & ->). pose proof (i_refs _ Hi) as Hr. pose proof (f_refs _ _ _ _ _ Hf). lia.
  - destruct (Hsum frees) as (N & E & ->). pose proof (i_frees _ Hi) as Hr. pose proof (f_frees _ _ _ _ _ Hf) as Hx.
    unfold freeing in Hx. lia.
  - apply (f_unused _ _ _ _ _ Hf).
  - destruct (Hsum locks) as (N & E & ->). pose proof (i_locks _ Hi) as Hr. pose proof (f_locks _ _ _ _ _ Hf) as Hx.
    unfold b2n in Hx. lia.
  - intros b Hb. rewrite (f_closing _ _ _ _ _ Hf). by apply Hi.
  - intros y. destruct (Hsum (is_op y)) as (N & E & ->). pose proof (i_ops _ Hi y). unfold is_op in *.
    destruct (decide (op_of pc' = Some y)) as [Ho|]; [|lia].
    destruct (f_op _ _ _ _ _ Hf y Ho) as [Ho'|Ho']; [rewrite decide_True in E by done; lia|].
    apply op_free_sum in Ho'. unfold is_op in *. lia.
  - intros d u Hs. destruct (f_waiter _ _ _ _ _ Hf d u Hs) as [Hs'|[-> [g ->]]].
    + destruct (i_slot _ Hi d u Hs') as [g Hu]. exists g. rewrite list_lookup_insert_ne; [done|].
      intros ->. rewrite Ht in Hu. injection Hu as ->. by apply (f_leaves _ _ _ _ _ Hf g d eq_refl d).
    + exists g. apply list_lookup_insert_eq. by apply lookup_lt_Some in Ht.
  - intros u qc Hu. apply list_lookup_insert_Some in Hu as [(<- & <- & _)|[Hne Hu]].
    + destruct (i_pc _ Hi t pc Ht) as (G1 & G2 & G3 & G4 & G5). split_and!; cbn [desc phase].
      * intros g Hg. rewrite (f_generation _ _ _ _ _ Hf). destruct (f_gen _ _ _ _ _ Hf g Hg) as [Hg'|[Hg' Hr]].
        -- destruct (G1 g Hg') as [? Hk]. split; [done|]. intros ?. destruct (Hk ltac:(done)). auto.
        -- split; [lia|]. intros _. destruct (Hgood g Hg' Hr). auto.
      * intros g Hg. rewrite (f_generation _ _ _ _ _ Hf). destruct (f_pinned _ _ _ _ _ Hf g Hg); auto.
      * apply (f_lease _ _ _ _ _ Hf).
      * apply (f_parked _ _ _ _ _ Hf).
      * apply (f_locked _ _ _ _ _ Hf).
    + destruct (i_pc _ Hi u qc Hu) as (G1 & G2 & G3 & G4 & G5). split_and!; cbn [desc phase].
      * intros g Hg. rewrite (f_generation _ _ _ _ _ Hf). destruct (G1 g Hg) as [? Hk]. split; [done|].
        intros ?. destruct (Hk ltac:(done)). auto.
      * intros g Hg. rewrite (f_generation _ _ _ _ _ Hf). auto.
      * intros g d Hl. destruct (G3 g d Hl) as [Ha Hp]. split; [|done].
        destruct (f_active _ _ _ _ _ Hf d Ha) as [?|Ho]; [done|].
        assert (g = generation (desc s)) as -> by (apply G2; unfold pinned_gen; destruct qc; cbn in Hl |- *; by simplify_eq).
        destruct Hne. by eapply (op_unique s t u pc qc); [done..|apply lease_op].
      * intros g d Hp. destruct (G4 g d Hp) as [Hs Hw]. split; [|done]. apply (f_waiting _ _ _ _ _ Hf); [done|congruence].
      * done.
Qed.

(** ** Unblocking *)

Lemma wake_inv s t g d err : inv s -> slot (desc s) d = Waiting t -> threads s !! t = Some (OpParked g d) ->
  inv (mkReactor (set_slot d Idle (desc s)) (kern s) (phase s) (<[t := OpResume g d err]> (threads s)) (lost s) (incarnations s)).
Proof.
  intros Hi Hs Ht. apply (move_inv s t (OpParked g d)); [done|done|].
  destruct (i_pc _ Hi t _ Ht) as (G1 & G2 & _).
  assert (Hone : forall d', d' <> d -> slot (desc s) d' <> Waiting t).
  { intros d' Hne E. destruct (i_slot _ Hi d' t E) as [g' E']. congruence. }
  split; cbn; try done; try lia; auto.
  - apply (i_unused _ Hi).
  - intros d' u E Hne. rewrite fn_lookup_insert_ne; [done|]. intros <-. congruence.
  - intros d' u E. left. destruct (decide (d' = d)) as [->|]; [by rewrite fn_lookup_insert in E|by rewrite fn_lookup_insert_ne in E].
  - intros g' d' _ d2. destruct (decide (d2 = d)) as [->|]; [by rewrite fn_lookup_insert|rewrite fn_lookup_insert_ne by done; auto].
Qed.

(** [desc] changes in a way no thread depends on. *)
Lemma desc_inv s x' : inv s -> generation x' = generation (desc s) -> refs x' = refs (desc s) -> closing x' = closing (desc s) ->
  lifecycle_lock x' = lifecycle_lock (desc s) -> syscall_active x' = syscall_active (desc s) ->
  (forall d u, slot x' d = Waiting u <-> slot (desc s) d = Waiting u) -> inv (set_desc x' s).
Proof.
  intros [] Hg Hr Hc Hl Ha Hs. split; cbn; try done.
  - by rewrite Hg.
  - by rewrite Hr.
  - by rewrite Hr.
  - by rewrite Hr.
  - by rewrite Hl.
  - by rewrite Hc.
  - intros d t. rewrite Hs. by apply i_slot0.
  - intros t pc Ht. destruct (i_pc0 t pc Ht) as (G1 & G2 & G3 & G4 & G5). split_and!; cbn; rewrite ?Hg, ?Ha; try done.
    intros g d E. rewrite Hs. by apply (G4 g).
Qed.

Lemma unblock_inv s d err : inv s -> exists s', unblock d err s = Some s' /\ inv s'.
Proof.
  intros Hi. unfold unblock, unblock_slot. destruct (slot (desc s) d) as [| |t] eqn:E; cbn.
  - eexists. split; [done|]. apply (desc_inv s); try done. intros d' u. cbn. destruct (decide (d' = d)) as [->|].
    + rewrite fn_lookup_insert. rewrite E. by split.
    + by rewrite fn_lookup_insert_ne.
  - eexists. split; [done|]. by apply (desc_inv s).
  - destruct (i_slot _ Hi d t E) as [g Ht]. rewrite Ht. cbn. eexists. split; [done|]. by eapply wake_inv.
Qed.

(** ** Steps *)

(** A thread that finds its incarnation open runs while the socket is attached. *)
Lemma live_attached s t pc g : inv s -> threads s !! t = Some pc -> gen_of pc = Some g ->
  generation (desc s) = g -> closing (desc s) = false -> phase s = Attached.
Proof.
  intros Hi Ht Hg E Hc. destruct (i_pc _ Hi t pc Ht) as (G1 & _). destruct (G1 g Hg) as [_ Hk].
  destruct (Hk (eq_sym E)) as [Hu _]. pose proof (i_shut _ Hi) as Hs.
  destruct (phase s); try done; specialize (Hs _ eq_refl); congruence.
Qed.

Lemma io_error_none g env x : io_error g env x = None -> generation x = g /\ closing x = false /\ env = None.
Proof.
  unfold io_error. case_decide as H; [done|]. intros ->. apply Decidable.not_or in H as [H1 H2].
  split; [by apply dec_stable|]. by destruct (closing x).
Qed.

Lemma begin_none d g env x r : begin_syscall d g env x = r -> r.1 = None ->
  generation x = g /\ closing x = false /\ syscall_active x d = false /\ r.2 = set_active d true x.
Proof.
  unfold begin_syscall. intros <-. case_decide as H; [done|]. apply Decidable.not_or in H as [H1 H2].
  destruct env; [done|]. destruct (syscall_active x d); [done|]. intros _. split; [by apply dec_stable|].
  by destruct (closing x).
Qed.

Lemma begin_some d g env x r e : begin_syscall d g env x = r -> r.1 = Some e -> r.2 = x.
Proof. unfold begin_syscall. intros <-. case_decide; [done|]. destruct env; [done|]. by destruct (syscall_active x d). Qed.

Lemma unlocked_inv s r s' : unlocked s r = Some s' -> lifecycle_lock (desc s) = false /\ r = Some s'.
Proof. unfold unlocked. by destruct (lifecycle_lock (desc s)). Qed.

Lemma refs_bound s : inv s -> (0 <= refs (desc s) <= Z.of_nat (length (threads s)) + 1)%Z /\ (refs (desc s) + 1 < 2 ^ 32)%Z.
Proof.
  intros Hi. pose proof (total_bound s). pose proof (i_refs _ Hi). pose proof (i_count _ Hi).
  assert (owner_ref (phase s) <= 1) by (destruct (phase s); simpl; lia). lia.
Qed.

Lemma locked_by s t pc : inv s -> threads s !! t = Some pc -> locks pc = 1 -> lifecycle_lock (desc s) = true.
Proof.
  intros Hi Ht Hl. pose proof (i_locks _ Hi) as E. pose proof (sum_ge locks (threads s) t pc Ht). unfold total in E.
  destruct (lifecycle_lock (desc s)); [done|lia].
Qed.

(** The step changes no reference, lock, lease or slot. *)
Lemma plain_fine s t pc pc' : inv s -> threads s !! t = Some pc -> holds pc' = holds pc -> frees pc' = frees pc ->
  pushes pc' = pushes pc -> locks pc' = 0 -> locks pc = 0 ->
  (forall y, op_of pc' = Some y -> op_of pc = Some y \/ op_free y s = true) ->
  (forall g, gen_of pc' = Some g -> gen_of pc = Some g \/ (g = generation (desc s) /\ registered (phase s) = true)) ->
  (forall g, pinned_gen pc' = Some g -> pinned_gen pc = Some g \/ g = generation (desc s)) ->
  (forall g d, lease_of pc' = Some (g, d) -> lease_of pc = Some (g, d)) ->
  (forall g d, pc' <> OpParked g d) -> (forall g d, pc <> OpParked g d) ->
  forall x', refs x' = refs (desc s) -> lifecycle_lock x' = lifecycle_lock (desc s) -> generation x' = generation (desc s) ->
  closing x' = closing (desc s) -> syscall_active x' = syscall_active (desc s) -> slot x' = slot (desc s) -> fine s t pc pc' x'.
Proof.
  intros Hi Ht H1 H2 H3 H4 H5 H6 H7 H8 H9 H10 H11 x' E1 E2 E3 E4 E5 E6.
  split; rewrite ?E1, ?E2, ?E3, ?E4, ?E5, ?E6; try done; try lia; auto.
  - apply (i_unused _ Hi).
  - intros g d Hl. destruct (i_pc _ Hi t pc Ht) as (_ & _ & G3 & _). by apply (G3 g), H9.
  - intros g d E. by destruct (H10 g d).
  - intros g d E. by destruct (H11 g d).
Qed.

Ltac plain := eapply plain_fine; cbn; try done; auto.

Lemma op_inv t c pc s s' : inv s -> threads s !! t = Some pc -> op_step t c pc s = Some s' -> inv s'.
Proof.
  intros Hi Ht H. pose proof (i_pc _ Hi t pc Ht) as (G1 & G2 & G3 & G4 & G5).
  destruct pc as [|g d|w g d|w g d|g d n|g d n|g d|g d|g d|g d err| | | | | | | | | |]; try done; cbn [op_step] in H.
  - destruct c; try done. injection H as <-. eapply (move_inv s t (OpTop g d)); [done|done|].
    destruct (ready_hint (desc s) d); plain.
  - destruct c as [| | | |env|]; try done. apply unlocked_inv in H as [Hl [= <-]].
    destruct (begin_syscall d g env (desc s)) as [[e|] x'] eqn:E; cbn.
    + apply (begin_some _ _ _ _ _ e) in E; [|done]. cbn in E. subst x'. eapply (move_inv s t (OpLease w g d)); [done|done|]. plain.
    + apply begin_none in E as (Eg & Ec & Ea & E); [|done]. cbn in E. subst x'.
      pose proof (live_attached s t _ g Hi Ht eq_refl Eg Ec) as Hp.
      eapply (move_inv s t (OpLease w g d)); [done|done|]. split; cbn; try done; try lia; auto.
      * rewrite Hp. done.
      * intros g' [= ->]. auto.
      * intros d' Ha. left. destruct (decide (d' = d)) as [->|]; [by rewrite fn_lookup_insert|by rewrite fn_lookup_insert_ne].
      * intros g' d' [= -> ->]. rewrite fn_lookup_insert, Hp. done.
  - destruct c as [| | | | |a]; try done. injection H as <-. eapply (move_inv s t (OpCall w g d)); [done|done|].
    destruct (native_call a (kern s d)) as [[] k]; cbn; try destruct w; plain.
  - destruct c; try done. injection H as <-. eapply (move_inv s t (OpNote g d n)); [done|done|]. plain.
  - destruct c; try done. injection H as <-. eapply (move_inv s t (OpEnd g d n)); [done|done|].
    assert (g = generation (desc s)) as -> by (by apply G2).
    split; cbn; try done; try lia; auto; try (by destruct n); try (destruct n; cbn; by auto).
    * apply (i_unused _ Hi).
    * intros d' Ha. destruct (decide (d' = d)) as [->|]; [by right|left; by rewrite fn_lookup_insert_ne].
  - destruct c as [| | | |env|]; try done. apply unlocked_inv in H as [Hl [= <-]]. unfold suspend_enter.
    eapply (move_inv s t (OpAwait g d)); [done|done|]. destruct (io_error g env (desc s)) as [e|] eqn:E; cbn; [plain|].
    apply io_error_none in E as (Eg & Ec & _). pose proof (live_attached s t _ g Hi Ht eq_refl Eg Ec) as Hp.
    pose proof (refs_bound s Hi) as [Hr1 Hr2].
    assert (E1 : u32 (refs (desc s) + 1) = (refs (desc s) + 1)%Z) by (apply wrap_small; unfold in_range; lia).
    split; cbn; rewrite ?E1, ?Hp, ?Hl; try done; try lia; auto. intros g' [= ->]. auto.
  - destruct c; try done. injection H as <-. assert (g = generation (desc s)) as -> by (by apply G2).
    pose proof (locked_by s t _ Hi Ht eq_refl) as Hl. specialize (G5 eq_refl). unfold suspend_slot.
    eapply (move_inv s t (OpSlot _ d)); [done|done|].
    destruct (slot (desc s) d) as [| |u] eqn:E; split; cbn; rewrite ?G5, ?Hl; try done; try lia; auto.
    + intros g' d' [= <- <-]. by rewrite fn_lookup_insert.
    + intros d' u Hu Hne. destruct (decide (d' = d)) as [->|]; [congruence|by rewrite fn_lookup_insert_ne].
    + intros d' u Hu. destruct (decide (d' = d)) as [->|]; [|rewrite fn_lookup_insert_ne in Hu by done; by left].
      rewrite fn_lookup_insert in Hu. injection Hu as <-. right. split; [done|]. by eexists.
    + intros d' u Hu Hne. destruct (decide (d' = d)) as [->|]; [congruence|by rewrite fn_lookup_insert_ne].
    + intros d' u Hu. destruct (decide (d' = d)) as [->|]; [by rewrite fn_lookup_insert in Hu|].
      rewrite fn_lookup_insert_ne in Hu by done. by left.
  - assert (g = generation (desc s)) as -> by (by apply G2). destruct err as [e|].
    + destruct c; try done. injection H as <-. eapply (move_inv s t (OpResume _ d _)); [done|done|]. plain.
    + destruct c as [| | | |env|]; try done. destruct (io_error _ env (desc s)) as [e|]; injection H as <-;
        eapply (move_inv s t (OpResume _ d _)); try done; plain.
Qed.

(** [unblock] touches neither the lock nor the phase. *)
Lemma unblock_lock d e v s : unblock d e (set_desc (set_lock v (desc s)) s) =
  (fun s' => set_desc (set_lock v (desc s')) s') <$> unblock d e s.
Proof.
  unfold unblock, unblock_slot. cbn. destruct (slot (desc s) d) as [| |t]; cbn; [done..|].
  destruct (threads s !! t) as [[]|]; done.
Qed.

Lemma unblock_phase d e p s : unblock d e (set_phase p s) = set_phase p <$> unblock d e s.
Proof.
  unfold unblock, unblock_slot. cbn. destruct (slot (desc s) d) as [| |t]; cbn; [done..|].
  destruct (threads s !! t) as [[]|]; done.
Qed.

Lemma unblock_keeps d e s s' : unblock d e s = Some s' ->
  phase s' = phase s /\ incarnations s' = incarnations s /\ (forall t, slot (desc s') d <> Waiting t) /\
  refs (desc s') = refs (desc s) /\ generation (desc s') = generation (desc s) /\ closing (desc s') = closing (desc s) /\
  lifecycle_lock (desc s') = lifecycle_lock (desc s) /\ syscall_active (desc s') = syscall_active (desc s).
Proof.
  unfold unblock, unblock_slot. destruct (slot (desc s) d) as [| |t] eqn:E; cbn.
  - intros [= <-]. cbn. split_and!; try done. intros t. by rewrite fn_lookup_insert.
  - intros [= <-]. cbn. split_and!; try done. intros t. by rewrite E.
  - destruct (threads s !! t) as [[]|]; try done. cbn. intros [= <-]. cbn. split_and!; try done. intros u. by rewrite fn_lookup_insert.
Qed.

Lemma slotted_inv s t g d ds : inv s -> threads s !! t = Some (PSlot g d ds) -> inv (goto t (PHint g ds) s).
Proof.
  intros Hi Ht. destruct (i_pc _ Hi t _ Ht) as (G1 & G2 & _). eapply (move_inv s t (PSlot g d ds)); [done|done|]. plain.
Qed.

Lemma poll_inv t pc s s' : inv s -> threads s !! t = Some pc -> poll_step t pc s = Some s' -> inv s'.
Proof.
  intros Hi Ht H. pose proof (i_pc _ Hi t pc Ht) as (G1 & G2 & G3 & G4 & G5).
  destruct pc as [| | | | | | | | | |g ds|g ds|g ds|g ds|g d ds| | | | |]; try done; cbn [poll_step] in H.
  - injection H as <-. eapply (move_inv s t (PToken g ds)); [done|done|]. case_decide; plain.
  - unfold pin in H. case_decide as Hr; injection H as <-; eapply (move_inv s t (PPin g ds)); try done; [plain|].
    apply Decidable.not_or in Hr as [Hr1 Hr2]. pose proof (refs_bound s Hi).
    assert (E1 : u32 (refs (desc s) + 1) = (refs (desc s) + 1)%Z) by (apply wrap_small; unfold in_range; lia).
    pose proof (i_unused _ Hi) as Hun. split; cbn; rewrite ?E1; try done; try lia; auto.
    + unfold freeing. rewrite !decide_False by lia. lia.
    + by destruct (phase s).
  - injection H as <-. eapply (move_inv s t (PCheck g ds)); [done|done|]. case_decide as Hc; [plain|].
    apply Decidable.not_or in Hc as [Hc _]. plain. intros g' [= <-]. right. symmetry. by apply dec_stable.
  - destruct ds as [|d ds]; injection H as <-; eapply (move_inv s t (PHint g _)); try done; plain.
  - destruct (unblock_inv _ d None (slotted_inv s t g d ds Hi Ht)) as (s1 & E & Hi1). congruence.
Qed.

Lemma callback_inv t pc s s' : inv s -> threads s !! t = Some pc -> callback_step t pc s = Some s' -> inv s'.
Proof.
  intros Hi Ht H. pose proof (i_pc _ Hi t pc Ht) as (G1 & G2 & G3 & G4 & G5).
  destruct pc as [| | | | | | | | | | | | | | |g d e|d e| | |]; try done; cbn [callback_step] in H.
  - apply unlocked_inv in H as [Hl H]. case_decide as Hc; injection H as <-; eapply (move_inv s t (CStart g d e)); try done; [|plain].
    destruct Hc as [Eg Ec]. pose proof (live_attached s t _ g Hi Ht eq_refl Eg Ec) as Hp.
    split; cbn; rewrite ?Hl, ?Hp; try done; try lia; auto.
  - pose proof (locked_by s t _ Hi Ht eq_refl) as Hl. specialize (G5 eq_refl).
    assert (Hi' : inv (set_desc (set_lock false (desc s)) (goto t Rest s))).
    { eapply (move_inv s t (CSlot d e)); [done|done|]. split; cbn; rewrite ?Hl, ?G5; try done; try lia; auto. }
    destruct (unblock_inv _ d (Some e) Hi') as (s1 & E & Hi1).
    change (desc s) with (desc (goto t Rest s)) in E. rewrite unblock_lock in E.
    destruct (unblock d (Some e) (goto t Rest s)) as [s2|]; [|done]. cbn in E, H. congruence.
Qed.

Lemma frees_released s t pc : inv s -> threads s !! t = Some pc -> frees pc = 1 -> phase s = Released /\ refs (desc s) = 0%Z.
Proof.
  intros Hi Ht Hf. pose proof (i_frees _ Hi) as E. pose proof (sum_ge frees (threads s) t pc Ht). unfold total in E.
  case_decide; [done|lia].
Qed.

(** No thread has a validated hold on a node without references, unless its socket lives. *)
Lemma unheld s t pc : inv s -> threads s !! t = Some pc -> refs (desc s) = 0%Z ->
  (forall d, ~ leaseable (phase s) d) -> phase s <> Attached -> pinned_gen pc = None /\ locks pc = 0 /\ holds pc = 0.
Proof.
  intros Hi Ht Hr Hl Hp. pose proof (i_pc _ Hi t pc Ht) as (G1 & G2 & G3 & G4 & G5).
  assert (Hh : holds pc = 0).
  { pose proof (i_refs _ Hi). pose proof (sum_ge holds (threads s) t pc Ht). unfold total in *. lia. }
  split; [|split; [|done]].
  - destruct (lease_of pc) as [[g d]|] eqn:E; [destruct (G3 g d eq_refl) as [_ Hn]; by destruct (Hl d)|].
    by destruct pc.
  - destruct (locks pc) eqn:E; [done|]. exfalso. apply Hp, G5. destruct pc; simpl in *; lia.
Qed.

(** Recycling: the old pcs stay behind the new generation. *)
Lemma recycle_pc s s2 t pc : inv s -> threads s !! t = Some pc -> refs (desc s) = 0%Z ->
  (forall d, ~ leaseable (phase s) d) -> phase s <> Attached -> generation (desc s2) = (generation (desc s) + 1)%Z -> pc_ok s2 t pc.
Proof.
  intros Hi Ht Hr Hl Hp Hg. destruct (unheld s t pc Hi Ht Hr Hl Hp) as (E1 & E2 & E3).
  pose proof (i_pc _ Hi t pc Ht) as (G1 & _). split_and!.
  - intros g E. destruct (G1 g E). split; lia.
  - intros g E. congruence.
  - intros g d E. unfold pinned_gen in E1. destruct pc; cbn in E1, E; congruence.
  - intros g d ->. done.
  - lia.
Qed.

Lemma gen_next s : inv s -> (Z.of_nat (S (incarnations s)) < 2 ^ 32)%Z ->
  u32 (generation (desc s) + 1) = (generation (desc s) + 1)%Z.
Proof. intros Hi Hb. rewrite (i_generation _ Hi). apply wrap_small. unfold in_range. lia. Qed.

Lemma no_waiter s : inv s -> refs (desc s) = 0%Z -> forall d t, slot (desc s) d <> Waiting t.
Proof.
  intros Hi Hr d t E. destruct (i_slot _ Hi d t E) as [g Ht]. pose proof (i_refs _ Hi).
  pose proof (sum_ge holds (threads s) t _ Ht) as Hh. unfold total in *. simpl in Hh. lia.
Qed.

Lemma recycle_thread_inv s t r : inv s -> threads s !! t = Some (Freeing r) -> lifecycle_lock (desc s) = false ->
  (Z.of_nat (S (incarnations s)) < 2 ^ 32)%Z -> inv (goto t (Pushing r) (next_incarnation s)).
Proof.
  intros Hi Ht Hl Hb. destruct (frees_released s t _ Hi Ht eq_refl) as [Hp Hr]. pose proof (gen_next s Hi Hb) as Hg.
  assert (Hsum : forall f, exists N, total f s = N + f (Freeing r) /\ total f (goto t (Pushing r) (next_incarnation s)) = N + f (Pushing r)).
  { intros f. destruct (total_at f s t _ Ht) as (N & E & E'). exists N. split; [done|]. apply E'. }
  split; cbn [goto next_incarnation desc phase threads incarnations recycle generation refs closing slot lifecycle_lock].
  - rewrite length_insert. apply Hi.
  - rewrite Hg, (i_generation _ Hi). lia.
  - destruct (Hsum holds) as (N & E & ->). pose proof (i_refs _ Hi). simpl in *. lia.
  - destruct (Hsum frees) as (N & E & ->). pose proof (i_frees _ Hi). simpl in *. lia.
  - by rewrite Hp.
  - destruct (Hsum locks) as (N & E & ->). pose proof (i_locks _ Hi) as El. rewrite Hl in El. simpl in *. lia.
  - intros b. rewrite Hp. by intros [= <-].
  - intros y. destruct (Hsum (is_op y)) as (N & E & ->). pose proof (i_ops _ Hi y). unfold is_op in *. cbn in *. lia.
  - done.
  - intros u qc Hu. apply list_lookup_insert_Some in Hu as [(<- & <- & _)|[Hne Hu]].
    + pose proof (i_pc _ Hi t _ Ht) as (G1 & _). split_and!; try done. intros g Eg. destruct (G1 g Eg).
      cbn [goto next_incarnation desc recycle generation]. split; lia.
    + eapply recycle_pc; [done|done|done|rewrite Hp; by intros d []|by rewrite Hp|done].
Qed.

(** The socket's progress, with changes of the node that no thread depends on. *)
Record phase_fine (s : Reactor) (p : Phase) (x' : IoDesc) : Prop := {
  p_refs : (refs x' + Z.of_nat (owner_ref (phase s)) = refs (desc s) + Z.of_nat (owner_ref p))%Z;
  p_frees : freeing p (refs x') = freeing (phase s) (refs (desc s));
  p_unused : match p with NoSocket | Attaching | FreeOwner | PushOwner => refs x' = 0%Z | _ => True end;
  p_lock : lifecycle_lock x' = lifecycle_lock (desc s);
  p_shut : forall b, shut p = Some b -> closing x' = b;
  p_slot : forall d t, slot x' d = Waiting t <-> slot (desc s) d = Waiting t;
  p_generation : generation x' = generation (desc s);
  p_unknown : unknown p = true -> unknown (phase s) = true;
  p_leases : forall d, syscall_active (desc s) d = true -> leaseable (phase s) d -> syscall_active x' d = true /\ leaseable p d;
  p_waits : forall d t, slot (desc s) d = Waiting t -> waitable (phase s) d -> waitable p d;
  p_attached : lifecycle_lock (desc s) = true -> phase s = Attached -> p = Attached
}.

Lemma phase_inv s p x' ks lo : inv s -> phase_fine s p x' ->
  inv (mkReactor x' ks p (threads s) lo (incarnations s)).
Proof.
  intros Hi Hf. split; cbn [desc phase threads incarnations].
  - apply Hi.
  - rewrite (p_generation _ _ _ Hf). apply Hi.
  - pose proof (i_refs _ Hi). pose proof (p_refs _ _ _ Hf). unfold total in *. cbn [threads]. lia.
  - pose proof (i_frees _ Hi) as E. pose proof (p_frees _ _ _ Hf) as E'. unfold freeing, total in *. cbn [threads]. lia.
  - apply (p_unused _ _ _ Hf).
  - rewrite (p_lock _ _ _ Hf). apply Hi.
  - apply (p_shut _ _ _ Hf).
  - apply Hi.
  - intros d t E. apply (i_slot _ Hi). by apply (p_slot _ _ _ Hf).
  - intros t pc Ht. pose proof (i_pc _ Hi t pc Ht) as (G1 & G2 & G3 & G4 & G5). split_and!; cbn [desc phase].
    + intros g E. rewrite (p_generation _ _ _ Hf). destruct (G1 g E) as [? Hk]. split; [done|].
      intros ?. destruct (Hk ltac:(done)) as [Hu ?]. split; [|done]. pose proof (p_unknown _ _ _ Hf) as Hn.
      destruct (unknown p); [|done]. rewrite Hn in Hu by done. done.
    + intros g E. rewrite (p_generation _ _ _ Hf). auto.
    + intros g d E. destruct (G3 g d E). by apply (p_leases _ _ _ Hf).
    + intros g d E. destruct (G4 g d E) as [Hs Hw]. split; [by apply (p_slot _ _ _ Hf)|by apply (p_waits _ _ _ Hf d t)].
    + intros E. apply (p_attached _ _ _ Hf); [|auto]. by eapply locked_by.
Qed.

Lemma recycle_owner_inv s : inv s -> phase s = FreeOwner -> lifecycle_lock (desc s) = false ->
  (Z.of_nat (S (incarnations s)) < 2 ^ 32)%Z -> inv (set_phase PushOwner (next_incarnation s)).
Proof.
  intros Hi Hp Hl Hb. pose proof (i_unused _ Hi) as Hr. rewrite Hp in Hr. pose proof (gen_next s Hi Hb) as Hg.
  split; cbn [set_phase next_incarnation desc phase threads incarnations recycle generation refs closing slot lifecycle_lock].
  - apply Hi.
  - rewrite Hg, (i_generation _ Hi). lia.
  - pose proof (i_refs _ Hi). rewrite Hp in *. unfold total in *. simpl in *. lia.
  - pose proof (i_frees _ Hi) as E. rewrite Hp in E. rewrite decide_False in * by naive_solver. exact E.
  - done.
  - pose proof (i_locks _ Hi) as E. by rewrite Hl in E.
  - by intros b [= <-].
  - apply Hi.
  - done.
  - intros u qc Hu. eapply recycle_pc; [done|exact Hu|done|rewrite Hp; by intros d []|by rewrite Hp|done].
Qed.

(** What a thread that released its reference goes on with. *)
Lemma resume_plain r : holds (resume_at r) = 0 /\ frees (resume_at r) = 0 /\ pushes (resume_at r) = 0 /\
  locks (resume_at r) = 0 /\ op_of (resume_at r) = r /\ lease_of (resume_at r) = None /\ pinned_gen (resume_at r) = None /\
  gen_of (resume_at r) = fst <$> r /\ forall g d, resume_at r <> OpParked g d.
Proof. by destruct r as [[]|]. Qed.

Lemma pushing_step_inv s t r : inv s -> threads s !! t = Some (Pushing r) -> inv (goto t (resume_at r) (set_phase NoSocket s)).
Proof.
  intros Hi Ht. destruct (frees_released s t _ Hi Ht eq_refl) as [Hp Hr].
  destruct (resume_plain r) as (R1 & R2 & R3 & R4 & R5 & R6 & R7 & R8 & R9). revert R1 R2 R3 R4 R5 R6 R7 R8 R9.
  generalize (resume_at r) as pc'. intros pc' R1 R2 R3 R4 R5 R6 R7 R8 R9.
  assert (Hstrict : forall u qc g, threads s !! u = Some qc -> gen_of qc = Some g -> (g < generation (desc s))%Z).
  { intros u qc g Hu E. destruct (i_pc _ Hi u qc Hu) as (K1 & _). destruct (K1 g E) as [Hle K].
    destruct (decide (g = generation (desc s))) as [Eg|]; [|lia]. destruct (K Eg) as [_ Hz].
    pose proof (sum_ge pushes (threads s) t _ Ht) as Hs. unfold total in Hz. simpl in Hs. lia. }
  assert (Hsum : forall f, exists N, total f s = N + f (Pushing r) /\ total f (goto t pc' (set_phase NoSocket s)) = N + f pc').
  { intros f. destruct (total_at f s t _ Ht) as (N & E & E'). exists N. split; [done|]. apply E'. }
  split; cbn [goto set_phase desc phase threads incarnations].
  - rewrite length_insert. apply Hi.
  - apply Hi.
  - destruct (Hsum holds) as (N & E & ->). pose proof (i_refs _ Hi) as Ei. rewrite Hp in Ei. simpl in *. lia.
  - destruct (Hsum frees) as (N & E & ->). pose proof (i_frees _ Hi) as Ei. rewrite decide_True in Ei by done.
    rewrite decide_False by naive_solver. simpl in *. lia.
  - done.
  - destruct (Hsum locks) as (N & E & ->). pose proof (i_locks _ Hi). simpl in *. lia.
  - done.
  - intros y. destruct (Hsum (is_op y)) as (N & E & ->). pose proof (i_ops _ Hi y). unfold is_op in *. rewrite R5. simpl in *. lia.
  - intros d u E. by destruct (no_waiter s Hi Hr d u).
  - intros u qc Hu. apply list_lookup_insert_Some in Hu as [(<- & <- & _)|[Hne Hu]].
    + split_and!; cbn; [|by intros; congruence|by intros; congruence|intros g d E; by destruct (R9 g d)|lia].
      intros g E. rewrite R8 in E. pose proof (Hstrict t _ g Ht E). split; lia.
    + destruct (unheld s u qc Hi Hu Hr) as (U1 & U2 & U3); [rewrite Hp; by intros d []|by rewrite Hp|].
      split_and!; cbn.
      * intros g E. pose proof (Hstrict u qc g Hu E). split; lia.
      * intros g E. congruence.
      * intros g d E. unfold pinned_gen in U1. destruct qc; cbn in U1, E; congruence.
      * intros g d ->. done.
      * lia.
Qed.

Lemma release_step_inv t pc s s' : inv s -> threads s !! t = Some pc -> (Z.of_nat (incarnations s') < 2 ^ 32)%Z ->
  release_step t pc s = Some s' -> inv s'.
Proof.
  intros Hi Ht Hb H. destruct pc as [| | | | | | | | | | | | | | | | |r|r|r]; try done; cbn [release_step] in H.
  - injection H as <-. unfold release_ref. cbn [fst snd]. pose proof (sum_ge holds (threads s) t _ Ht) as Hh. cbn in Hh.
    pose proof (i_refs _ Hi) as Hr. pose proof (refs_bound s Hi). unfold total in Hr.
    assert (E1 : u32 (refs (desc s) - 1) = (refs (desc s) - 1)%Z) by (apply wrap_small; unfold in_range; lia).
    eapply (move_inv s t (Release r)); [done|done|]. pose proof (i_unused _ Hi) as Hun. rewrite E1. case_bool_decide as E2.
    + assert (Hp : phase s = Released) by (destruct (phase s); simpl in *; try done; lia).
      split; cbn; rewrite ?Hp; try done; try lia; auto.
      unfold freeing. rewrite decide_False by (intros [_ ?]; lia). rewrite decide_True by (split; [done|lia]). lia.
    + destruct (resume_plain r) as (R1 & R2 & R3 & R4 & R5 & R6 & R7 & R8 & R9). revert R1 R2 R3 R4 R5 R6 R7 R8 R9.
      generalize (resume_at r) as pc'. intros pc' R1 R2 R3 R4 R5 R6 R7 R8 R9.
      split; cbn; rewrite ?R1, ?R2, ?R3, ?R4, ?R6, ?R7, ?R8; try done; try lia; auto.
      * unfold freeing. rewrite !decide_False by lia. lia.
      * destruct (phase s); try done; lia.
      * intros y. rewrite R5. auto.
      * intros g d E. by destruct (R9 g d).
  - apply unlocked_inv in H as [Hl [= <-]]. by apply recycle_thread_inv.
  - injection H as <-. by apply pushing_step_inv.
Qed.

Lemma kern_inv s ks lo : inv s -> inv (mkReactor (desc s) ks (phase s) (threads s) lo (incarnations s)).
Proof. intros []. by split. Qed.

Lemma start_inv t c s s' : inv s -> threads s !! t = Some Rest -> start_step t c s = Some s' -> inv s'.
Proof.
  intros Hi Ht H. unfold start_step in H. destruct (registered (phase s)) eqn:Hr; [|done].
  destruct c as [|w d|ds|d e| |]; try done.
  - destruct (op_free (generation (desc s), d) s) eqn:Ho; [|done]. injection H as <-.
    eapply (move_inv s t Rest); [done|done|]. destruct w; plain; intros y [= <-]; auto.
  - injection H as <-.
    eapply (move_inv (mkReactor (desc s) (taken ds (kern s)) (phase s) (threads s) (lost s) (incarnations s)) t Rest);
      [by apply kern_inv|done|]. eapply plain_fine; cbn; try done; auto; [by apply kern_inv|]. intros y [= <-]. auto.
  - injection H as <-. eapply (move_inv s t Rest); [done|done|]. plain. intros y [= <-]. auto.
Qed.

Lemma act_inv t c s s' : inv s -> (Z.of_nat (incarnations s') < 2 ^ 32)%Z -> act t c s = Some s' -> inv s'.
Proof.
  intros Hi Hb H. unfold act in H. destruct (threads s !! t) as [pc|] eqn:Ht; [|done]. cbn [mbind option_bind] in H.
  destruct pc; first [by apply (start_inv t c s)|by eapply (poll_inv t _ s)|by eapply (callback_inv t _ s)|by eapply (release_step_inv t _ s)|by eapply (op_inv t c _ s)].
Qed.

Lemma freeing_off p r : p <> Released -> freeing p r = 0.
Proof. intros Hp. unfold freeing. by rewrite decide_False by (by intros [? _]). Qed.

(** A step of the socket; what [cbn] and [auto] do not settle is left. *)
Ltac socket Hp :=
  split; rewrite ?Hp; rewrite ?freeing_off by done; cbn; try done; try (by intros ? [= <-]); try lia; auto.

Lemma attach_inv b ks s s' : inv s -> attach_step b ks s = Some s' -> inv s'.
Proof.
  intros Hi H. unfold attach_step in H. destruct (phase s) eqn:Hp; try done; pose proof (i_unused _ Hi) as Hr; rewrite Hp in Hr.
  - injection H as <-. apply (phase_inv s Attaching); [done|]. by split; rewrite ?Hp.
  - apply unlocked_inv in H as [Hl [= <-]]. apply (phase_inv s Adding); [done|].
    socket Hp.
    intros d t. split; [done|]. intros E. by destruct (no_waiter s Hi Hr d t).
  - pose proof (i_shut _ Hi) as Hs. rewrite Hp in Hs. destruct b; injection H as <-.
    + apply (phase_inv s ReleaseOwner); [done|]. socket Hp.
    + apply (phase_inv s Attached); [done|]. socket Hp.
Qed.

Lemma detach_step_inv s s' : inv s -> (Z.of_nat (incarnations s') < 2 ^ 32)%Z -> detach_step s = Some s' -> inv s'.
Proof.
  intros Hi Hb H. unfold detach_step in H. pose proof (i_shut _ Hi) as Hs.
  destruct (phase s) as [| | | | |[|d ds]|[|d ds]| | | |] eqn:Hp; try done.
  - apply unlocked_inv in H as [Hl [= <-]]. apply (phase_inv s Closing); [done|].
    socket Hp. by rewrite Hl.
  - injection H as <-. apply (phase_inv s (Unblocking [kRead; kWrite])); [done|].
    socket Hp. intros [] _ _ _; set_solver.
  - injection H as <-. apply (phase_inv s (WaitCalls [kRead; kWrite])); [done|].
    socket Hp.
    + intros [] ?; (split; [done|set_solver]).
    + intros d t _ []%not_elem_of_nil.
  - rewrite unblock_phase in H. destruct (unblock_inv s d (Some (of_errc closed)) Hi) as (s1 & E & Hi1). rewrite E in H.
    injection H as <-. destruct (unblock_keeps _ _ _ _ E) as (K1 & K2 & K3 & K4 & K5 & K6 & K7 & K8).
    apply (phase_inv s1 (Unblocking ds)); [done|]. rewrite Hp in K1. socket K1.
    + intros b [= <-]. rewrite K6. by apply Hs.
    + intros d' t Hw [->|?]%elem_of_cons; [by destruct (K3 t)|done].
  - injection H as <-. apply (phase_inv s ReleaseOwner); [done|]. socket Hp. by intros d _ []%not_elem_of_nil.
  - destruct (syscall_active (desc s) d) eqn:Ea; [done|]. injection H as <-. apply (phase_inv s (WaitCalls ds)); [done|].
    socket Hp. intros d' Ha [->|?]%elem_of_cons; [congruence|done].
  - injection H as <-. unfold release_ref. cbn [fst snd]. pose proof (i_refs _ Hi) as Hr. pose proof (refs_bound s Hi). rewrite Hp in Hr. cbn in Hr.
    assert (E1 : u32 (refs (desc s) - 1) = (refs (desc s) - 1)%Z) by (apply wrap_small; unfold in_range; lia).
    rewrite E1. case_bool_decide as E2.
    + apply (phase_inv s FreeOwner); [done|]. socket Hp.
    + apply (phase_inv s Released); [done|]. socket Hp. unfold freeing. rewrite !decide_False; [done|by intros [? _]|intros [_ ?]; lia].
  - apply unlocked_inv in H as [Hl [= <-]]. by apply recycle_owner_inv.
  - injection H as <-. pose proof (i_unused _ Hi) as Hr. rewrite Hp in Hr. apply (phase_inv s NoSocket); [done|].
    socket Hp.
Qed.

Lemma arrive_inv d n fin s : inv s -> inv (arrive d n fin s).
Proof. apply kern_inv. Qed.

(** ** Reachable states *)

Lemma unblock_incarnations d err s s' : unblock d err s = Some s' -> incarnations s' = incarnations s.
Proof. unfold unblock. intros H. by destruct (wake_waiter _ err (threads s)); simplify_eq/=. Qed.

Lemma act_incarnations t c s s' : act t c s = Some s' -> incarnations s <= incarnations s'.
Proof.
  unfold act. destruct (threads s !! t) as [pc|]; [|done]. cbn [mbind option_bind].
  destruct pc; cbn [start_step op_step poll_step callback_step release_step]; unfold start_step, unlocked; intros H;
    try (destruct (unblock _ _ _) eqn:E in H; [apply unblock_incarnations in E|]); simplify_eq/=; repeat (case_match; simplify_eq/=); lia.
Qed.

Lemma attach_incarnations b ks s s' : attach_step b ks s = Some s' -> incarnations s <= incarnations s'.
Proof. unfold attach_step, unlocked. intros H. repeat (case_match; simplify_eq/=); lia. Qed.

Lemma detach_incarnations s s' : detach_step s = Some s' -> incarnations s <= incarnations s'.
Proof.
  unfold detach_step, unlocked. intros H.
  repeat (case_match; simplify_eq/=); try apply unblock_incarnations in H; simplify_eq/=; lia.
Qed.

Lemma r_step_incarnations s s' : r_step s s' -> incarnations s <= incarnations s'.
Proof. intros []; eauto using act_incarnations, attach_incarnations, detach_incarnations. Qed.

Lemma r_step_inv s s' : inv s -> r_step s s' -> (Z.of_nat (incarnations s') < 2 ^ 32)%Z -> inv s'.
Proof.
  intros Hi Hs Hb. destruct Hs; eauto using act_inv, attach_inv, detach_step_inv, arrive_inv.
Qed.

Lemma r_init_inv count s : (Z.of_nat count < 2 ^ 32 - 2)%Z -> r_init count s -> inv s.
Proof.
  intros Hc ->.
  assert (Hz : forall f, f Rest = 0 -> sum_list (map f (replicate count Rest)) = 0).
  { intros f Hf. induction count as [|n IH]; simpl; [done|]. rewrite Hf, IH; [done|lia]. }
  split; cbn; unfold total; cbn [threads]; rewrite ?length_replicate, ?Hz; try done; auto.
  - intros x. rewrite Hz; [lia|]. done.
  - intros t pc [-> _]%lookup_replicate. by repeat split.
Qed.

(** Runs of [count] threads. *)
Definition reachable (count : nat) (s : Reactor) : Prop := exists s0, r_init count s0 /\ rtc r_step s0 s.

(** The generation has not wrapped. *)
Definition unwrapped (s : Reactor) : Prop := (Z.of_nat (incarnations s) < 2 ^ 32)%Z.

Lemma reachable_rinv count s : (Z.of_nat count < 2 ^ 32 - 2)%Z -> reachable count s -> unwrapped s -> inv s.
Proof.
  intros Hc (s0 & H0 & Hr) Hb. pose proof (r_init_inv count s0 Hc H0) as Hi. clear H0. unfold unwrapped in Hb.
  induction Hr as [s|s s1 s2 Hs Hr IH]; [done|]. apply IH; [done|]. apply (r_step_inv s); [done|done|].
  assert (incarnations s1 <= incarnations s2) as Hle.
  { clear -Hr. induction Hr as [|x y z Hxy _ IH]; [done|]. apply r_step_incarnations in Hxy. lia. }
  lia.
Qed.
