(* ===== verification/ReactorEdges.v ===== *)
(** * Readiness is not lost

    A socket with bytes to read (or room to write) has an edge on its way: it is
    still to be reported, a poller carries it, it is recorded in the slot, it
    is being consumed, or the hint lets the next operation try at once. *)

From S2P Require Import Prelude Result Reactor ReactorInv.
From stdpp Require Import functions.

Set Default Proof Using "Type".

(** The thread has an edge of direction [d] of incarnation [g] in hand. *)
Definition carries (g : Z) (d : Dir) (pc : Pc) : Prop :=
  match pc with
  | PToken g' ds | PPin g' ds | PCheck g' ds | PHint g' ds => g' = g /\ d ∈ ds
  | PSlot g' d' ds => g' = g /\ (d' = d \/ d ∈ ds)
  | OpResume g' d' None => g' = g /\ d' = d
  | _ => False
  end.

(** The operation has decided to wait. *)
Definition late (pc : Pc) : option (Z * Dir) :=
  match pc with
  | OpEnd g d Await | OpAwait g d | OpSlot g d | OpParked g d => Some (g, d)
  | _ => None
  end.

Definition some_thread (s : Reactor) (P : Pc -> Prop) : Prop := exists t pc, threads s !! t = Some pc /\ P pc.

Definition hinted (s : Reactor) (d : Dir) : Prop :=
  ready_hint (desc s) d = true /\ forall t n, threads s !! t <> Some (OpNote (generation (desc s)) d n).

Definition covered (s : Reactor) (d : Dir) : Prop :=
  event (kern s d) = true \/ slot (desc s) d = IoReady \/ some_thread s (carries (generation (desc s)) d) \/ hinted s d.

(** Something can be moved in direction [d], and no error took the edge. *)
Definition ready (s : Reactor) (d : Dir) : Prop := 0 < avail (kern s d) /\ hangup (kern s d) = false /\ lost s d = false.

Definition slotting (g : Z) (d : Dir) (pc : Pc) : Prop := exists ds, pc = PSlot g d ds.

Record edges (s : Reactor) : Prop := {
  e_covered : phase s = Attached -> forall d, ready s d -> covered s d;
  e_late : forall t pc d, threads s !! t = Some pc -> late pc = Some (generation (desc s), d) ->
    ready_hint (desc s) d = true -> slot (desc s) d = IoReady \/ some_thread s (slotting (generation (desc s)) d)
}.

Lemma late_op pc x : late pc = Some x -> op_of pc = Some x.
Proof. by destruct pc as [| | | | |g d []| | | | | | | | | | | | | |]. Qed.

Lemma some_thread_move s t pc pc' x' ks p lo inc (P : Pc -> Prop) : threads s !! t = Some pc -> some_thread s P ->
  P pc \/ some_thread (mkReactor x' ks p (<[t := pc']> (threads s)) lo inc) P.
Proof.
  intros Ht (u & qc & Hu & HP). destruct (decide (u = t)) as [->|Hne].
  - left. congruence.
  - right. exists u, qc. cbn. by rewrite list_lookup_insert_ne.
Qed.

Lemma some_thread_at s t pc pc' x' ks p lo inc (P : Pc -> Prop) : threads s !! t = Some pc -> P pc' ->
  some_thread (mkReactor x' ks p (<[t := pc']> (threads s)) lo inc) P.
Proof. intros Ht HP. exists t, pc'. split; [|done]. cbn. apply list_lookup_insert_eq. by apply lookup_lt_Some in Ht. Qed.

(** ** A thread moves *)

(** What a step of one thread has to keep. *)
Record edge_fine (s : Reactor) (t : nat) (pc pc' : Pc) (x' : IoDesc) (ks : Dir -> Kern) (lo : Dir -> bool) : Prop := {
  ef_generation : generation x' = generation (desc s);
  ef_event : forall d, event (kern s d) = true -> event (ks d) = true \/ carries (generation (desc s)) d pc';
  ef_slot : forall d, slot (desc s) d = IoReady ->
    slot x' d = IoReady \/ (carries (generation (desc s)) d pc' /\ op_of pc = Some (generation (desc s), d));
  ef_carry : phase s = Attached -> forall d, carries (generation (desc s)) d pc -> lo d = false ->
    carries (generation (desc s)) d pc' \/
    (op_of pc = Some (generation (desc s), d) /\ ready_hint x' d = true /\ forall n, pc' <> OpNote (generation (desc s)) d n);
  ef_ready : phase s = Attached -> forall d, 0 < avail (ks d) -> hangup (ks d) = false -> lo d = false ->
    ready s d /\ (ready_hint (desc s) d = true -> (forall n, pc <> OpNote (generation (desc s)) d n) ->
      ready_hint x' d = true /\ forall n, pc' <> OpNote (generation (desc s)) d n);
  ef_hint : forall d, ready_hint x' d = true ->
    ready_hint (desc s) d = true \/ slotting (generation (desc s)) d pc' \/ op_of pc = Some (generation (desc s), d);
  ef_slotting : forall d, ~ slotting (generation (desc s)) d pc;
  ef_late : forall d, late pc' = Some (generation (desc s), d) -> ready_hint x' d = true ->
    late pc = Some (generation (desc s), d) /\ ready_hint (desc s) d = true /\ (slot (desc s) d = IoReady -> slot x' d = IoReady)
}.

Lemma hinted_move s t pc pc' x' ks lo d : threads s !! t = Some pc -> generation x' = generation (desc s) -> hinted s d ->
  ready_hint x' d = true -> (forall n, pc' <> OpNote (generation (desc s)) d n) ->
  hinted (mkReactor x' ks (phase s) (<[t := pc']> (threads s)) lo (incarnations s)) d.
Proof.
  intros Ht Hg [_ Hn] Hh Hp. split; [done|]. cbn. rewrite Hg. intros u n E.
  apply list_lookup_insert_Some in E as [(_ & E & _)|[_ E]]; [by apply (Hp n)|by apply (Hn u n)].
Qed.

Lemma hinted_by_op s t pc pc' x' ks lo d : inv s -> threads s !! t = Some pc -> generation x' = generation (desc s) ->
  op_of pc = Some (generation (desc s), d) -> ready_hint x' d = true -> (forall n, pc' <> OpNote (generation (desc s)) d n) ->
  hinted (mkReactor x' ks (phase s) (<[t := pc']> (threads s)) lo (incarnations s)) d.
Proof.
  intros Hi Ht Hg Ho Hh Hp. split; [done|]. cbn. rewrite Hg. intros u n E.
  apply list_lookup_insert_Some in E as [(_ & E & _)|[Hne E]]; [by apply (Hp n)|].
  destruct Hne. by eapply (op_unique s t u).
Qed.

Lemma edges_move s t pc pc' x' ks lo : inv s -> edges s -> threads s !! t = Some pc -> edge_fine s t pc pc' x' ks lo ->
  edges (mkReactor x' ks (phase s) (<[t := pc']> (threads s)) lo (incarnations s)).
Proof.
  intros Hi [He Hl] Ht [F1 F2 F3 F4 F5 F6 F7 F8]. split.
  - intros Hp d (Ha & Hh & Hlo). cbn in Hp, Ha, Hh, Hlo. destruct (F5 Hp d Ha Hh Hlo) as [Hr Hhint].
    assert (Hat : carries (generation (desc s)) d pc' -> covered (mkReactor x' ks (phase s) (<[t := pc']> (threads s)) lo (incarnations s)) d).
    { intros Hc. right. right. left. cbn. rewrite F1. by apply (some_thread_at s t pc). }
    destruct (He Hp d Hr) as [Hc|[Hc|[Hc|Hc]]].
    + destruct (F2 d Hc) as [?|?]; [by left|auto].
    + destruct (F3 d Hc) as [?|[? _]]; [by right; left|auto].
    + eapply (some_thread_move s t pc pc' x' ks (phase s) lo (incarnations s)) in Hc as [Hc|Hc]; [| |done].
      * destruct (F4 Hp d Hc Hlo) as [?|(Ho & Hx & Hn)]; [auto|]. right. right. right. by apply (hinted_by_op s t pc).
      * right. right. left. cbn. by rewrite F1.
    + destruct (Hhint (proj1 Hc)) as [Hx Hn]; [intros n ->; by apply (proj2 Hc t n)|].
      right. right. right. by apply (hinted_move s t pc).
  - cbn. rewrite F1. intros u qc d Hu Hlate Hx.
    assert (Hold : forall v rc, threads s !! v = Some rc -> late rc = Some (generation (desc s), d) -> ready_hint (desc s) d = true ->
      (slot (desc s) d = IoReady -> slot x' d = IoReady) ->
      slot x' d = IoReady \/ some_thread (mkReactor x' ks (phase s) (<[t := pc']> (threads s)) lo (incarnations s)) (slotting (generation (desc s)) d)).
    { intros v rc Hv Hlr Hhr Hs. destruct (Hl v rc d Hv Hlr Hhr) as [?|Hc]; [auto|].
      eapply (some_thread_move s t pc pc' x' ks (phase s) lo (incarnations s)) in Hc as [Hc|Hc]; [by destruct (F7 d)|auto|done]. }
    apply list_lookup_insert_Some in Hu as [(<- & <- & _)|[Hne Hu]].
    + destruct (F8 d Hlate Hx) as (H1 & H2 & H3). by eapply Hold.
    + assert (Hno : op_of pc <> Some (generation (desc s), d)).
      { intros Ho. destruct Hne. by eapply (op_unique s t u); [done..|apply late_op]. }
      destruct (F6 d Hx) as [Hh|[Hh|Hh]]; [|by right; apply (some_thread_at s t pc)|done].
      eapply Hold; [done..|]. intros Hs. by destruct (F3 d Hs) as [?|[_ ?]].
Qed.

(** The step leaves the node, the kernel and the observations alone. *)
Lemma still_fine s t pc pc' : (forall g d n, pc' <> OpNote g d n) ->
  (phase s = Attached -> forall d, carries (generation (desc s)) d pc -> carries (generation (desc s)) d pc') ->
  (forall d, ~ slotting (generation (desc s)) d pc) ->
  (forall d, late pc' = Some (generation (desc s), d) -> ready_hint (desc s) d = true -> late pc = Some (generation (desc s), d)) ->
  edge_fine s t pc pc' (desc s) (kern s) (lost s).
Proof.
  intros H1 H2 H3 H4. split; try by auto.
  all: intros _ d Ha Hh Hlo; split; [by split_and!|auto].
Qed.

Ltac still := cbn; apply still_fine; cbn; try done; auto; try (by intros ? []); try (by intros d' [ds' ?]).

Ltac edge :=
  split; cbn; auto; try (by intros ? []); try (by intros d' [ds' ?]); try done; try (by intros _ d' Ha Hh Hlo; split; [by split_and!|auto]).

Ltac dirs d' d :=
  destruct (decide (d' = d)) as [->|?]; rewrite ?fn_lookup_insert, ?fn_lookup_insert_ne by done.

Lemma native_call_keeps a k : hangup (native_call a k).2 = hangup k /\ event (native_call a k).2 = event k /\
  avail (native_call a k).2 <= avail k /\ ((native_call a k).1 = NShort \/ (native_call a k).1 = NBlock -> avail (native_call a k).2 = 0).
Proof. destruct a as [size| |]; cbn; [repeat case_decide; cbn|..]; split_and!; try done; try lia; try (by intros []); naive_solver. Qed.

Lemma call_fine s t w g d a (r := native_call a (kern s d)) :
  edge_fine s t (OpCall w g d)
    match r.1 with
    | NFull | NError => OpEnd g d Done
    | NShort => OpNote g d Done
    | NBlock => OpNote g d (if w then Await else Done)
    | NIntr => OpEnd g d (if w then Again else Done)
    end (desc s) (<[d := r.2]> (kern s)) (lost s).
Proof.
  destruct (native_call_keeps a (kern s d)) as (K1 & K2 & K3 & K4). fold r in K1, K2, K3, K4.
  split; try done; try (by intros d' [ds' ?]); try (by intros _ d' []); auto.
  - intros d'. left. by dirs d' d; [rewrite K2|].
  - intros _ d'. dirs d' d.
    + rewrite K1. intros Ha Hh Hlo. split; [split_and!; [lia|done..]|]. intros Hx _. split; [done|].
      destruct r.1; try done; try (destruct w; done); rewrite K4 in Ha by auto; lia.
    + intros Ha Hh Hlo. split; [by split_and!|]. intros Hx _. split; [done|]. destruct r.1, w; naive_solver.
  - intros d'. destruct r.1, w; done.
Qed.

Lemma op_edges t c pc s s' : inv s -> edges s -> threads s !! t = Some pc -> op_step t c pc s = Some s' -> edges s'.
Proof.
  intros Hi He Ht H. pose proof (i_pc _ Hi t pc Ht) as (G1 & G2 & G3 & G4 & G5).
  destruct pc as [|g d|w g d|w g d|g d n|g d n|g d|g d|g d|g d err| | | | | | | | | |]; try done; cbn [op_step] in H.
  - destruct c; try done. injection H as <-. eapply (edges_move s t (OpTop g d)); [done..|].
    destruct (ready_hint (desc s) d) eqn:Eh; still. intros d' [= -> ->]. congruence.
  - destruct c as [| | | |env|]; try done. apply unlocked_inv in H as [Hl [= <-]].
    destruct (begin_syscall d g env (desc s)) as [[e|] x'] eqn:E; cbn.
    + apply (begin_some _ _ _ _ _ e) in E; [|done]. cbn in E. subst x'. eapply (edges_move s t (OpLease w g d)); [done..|]. still.
    + apply begin_none in E as (Eg & Ec & Ea & E); [|done]. cbn in E. subst x'.
      eapply (edges_move s t (OpLease w g d)); [done..|]. edge.
  - destruct c as [| | | | |a]; try done. injection H as <-. eapply (edges_move s t (OpCall w g d)); [done..|]. exact (call_fine s t w g d a).
  - assert (g = generation (desc s)) as -> by (by apply G2).
    destruct c; try done. injection H as <-. eapply (edges_move s t (OpNote _ d n)); [done..|]. edge.
    + intros _ d' Ha Hh Hlo. split; [by split_and!|]. dirs d' d; [|auto]. intros _ Hn. by destruct (Hn n).
    + intros d'. dirs d' d; auto.
    + intros d'. dirs d' d; [done|]. destruct n; naive_solver.
  - destruct c; try done. injection H as <-. eapply (edges_move s t (OpEnd g d n)); [done..|]. destruct n; edge.
  - destruct c as [| | | |env|]; try done. apply unlocked_inv in H as [Hl [= <-]]. unfold suspend_enter.
    destruct (io_error g env (desc s)) as [e|] eqn:E; cbn; eapply (edges_move s t (OpAwait g d)); try done; edge.
  - assert (g = generation (desc s)) as -> by (by apply G2). destruct c; try done. injection H as <-. unfold suspend_slot.
    destruct (slot (desc s) d) as [| |u] eqn:Es; cbn; eapply (edges_move s t (OpSlot _ d)); try done; edge.
    + intros d'. dirs d' d; [congruence|auto].
    + intros d' Hd Hx. split_and!; [done..|]. dirs d' d; [congruence|auto].
    + intros d'. dirs d' d; auto.
  - assert (g = generation (desc s)) as -> by (by apply G2). destruct err as [e|].
    + destruct c; try done. injection H as <-. eapply (edges_move s t (OpResume _ d _)); [done..|]. edge.
    + destruct c as [| | | |env|]; try done. destruct (io_error _ env (desc s)) as [e|] eqn:E; injection H as <-;
        eapply (edges_move s t (OpResume _ d _)); try done; edge.
      * intros _ d' [_ ->]. by rewrite fn_lookup_insert.
      * intros _ d' Ha Hh. dirs d' d; [done|]. intros Hlo. split; [by split_and!|auto].
      * intros _ d' [_ ->] _. right. by rewrite fn_lookup_insert.
      * intros _ d' Ha Hh Hlo. split; [by split_and!|]. dirs d' d; auto.
      * intros d'. dirs d' d; auto.
Qed.

(** ** Unblocking *)

Lemma unblock_frame d err s s' : unblock d err s = Some s' ->
  kern s' = kern s /\ lost s' = lost s /\ phase s' = phase s /\ generation (desc s') = generation (desc s) /\
  ready_hint (desc s') = ready_hint (desc s).
Proof.
  unfold unblock, unblock_slot. destruct (slot (desc s) d) as [| |t]; cbn; [by intros [= <-]..|].
  destruct (threads s !! t) as [[]|]; try done. by intros [= <-].
Qed.

(** A waiter is in the slot, or nobody is woken. *)
Lemma unblock_cases d err s s' : inv s -> unblock d err s = Some s' ->
  (exists t, threads s !! t = Some (OpParked (generation (desc s)) d) /\
    threads s' = <[t := OpResume (generation (desc s)) d err]> (threads s) /\ slot (desc s') = <[d := Idle]> (slot (desc s)) /\
    slot (desc s) d = Waiting t) \/
  (threads s' = threads s /\ slot (desc s') d = IoReady /\ forall d', d' <> d -> slot (desc s') d' = slot (desc s) d').
Proof.
  intros Hi. unfold unblock, unblock_slot. destruct (slot (desc s) d) as [| |t] eqn:E; cbn.
  - intros [= <-]. right. cbn. rewrite fn_lookup_insert. split_and!; [done..|]. intros d' Hne. by rewrite fn_lookup_insert_ne.
  - intros [= <-]. right. by split_and!.
  - destruct (i_slot _ Hi d t E) as [g Ht]. rewrite Ht. cbn. intros [= <-]. left. exists t.
    destruct (i_pc _ Hi t _ Ht) as (_ & G2 & _). by rewrite <- (G2 g eq_refl).
Qed.

Lemma unblock_thread d err s s' (P : Pc -> Prop) : inv s -> unblock d err s = Some s' -> (forall g, ~ P (OpParked g d)) ->
  some_thread s P -> some_thread s' P.
Proof.
  intros Hi H HP (u & qc & Hu & Hq). exists u, qc. split; [|done].
  destruct (unblock_cases d err s s' Hi H) as [(t & Ht & -> & _)|(-> & _)]; [|done].
  rewrite list_lookup_insert_ne; [done|]. intros ->. rewrite Ht in Hu. injection Hu as <-. by apply HP in Hq.
Qed.

Lemma unblock_covered d err s s' d' : inv s -> unblock d err s = Some s' -> covered s d' -> covered s' d'.
Proof.
  intros Hi H Hc. destruct (unblock_frame _ _ _ _ H) as (K1 & K2 & K3 & K4 & K5). unfold covered, hinted. rewrite K1, K4, K5.
  destruct Hc as [?|[Hs|[Hc|[Hh Hn]]]]; [by left|..]; right.
  - left. destruct (unblock_cases d err s s' Hi H) as [(t & _ & _ & -> & Hw)|(_ & Hr & Hk)].
    + rewrite fn_lookup_insert_ne; [done|]. intros ->. congruence.
    + destruct (decide (d' = d)) as [->|]; [done|]. by rewrite Hk.
  - right. left. eapply unblock_thread; [done..| |done]. by intros g [].
  - right. right. split; [done|]. intros u n E.
    destruct (unblock_cases d err s s' Hi H) as [(t & _ & Ht & _)|(Ht & _)]; rewrite Ht in E; [|by apply (Hn u n)].
    apply list_lookup_insert_Some in E as [(_ & [=] & _)|[_ E]]. by apply (Hn u n).
Qed.

(** An edge is recorded or handed to the waiter. *)
Lemma unblock_edge d s s' : inv s -> unblock d None s = Some s' -> covered s' d.
Proof.
  intros Hi H. destruct (unblock_frame _ _ _ _ H) as (_ & _ & _ & K & _). unfold covered. rewrite K.
  destruct (unblock_cases d None s s' Hi H) as [(t & Ht & E & _)|(_ & Hr & _)]; [|by right; left].
  right. right. left. exists t, (OpResume (generation (desc s)) d None). split; [|done]. rewrite E.
  apply list_lookup_insert_eq. by apply lookup_lt_Some in Ht.
Qed.

Lemma unblock_late d err s s' u qc d' : inv s -> unblock d err s = Some s' -> threads s' !! u = Some qc ->
  late qc = Some (generation (desc s), d') ->
  threads s !! u = Some qc /\ (slot (desc s) d' = IoReady -> slot (desc s') d' = IoReady) /\ (d' = d -> slot (desc s') d = IoReady).
Proof.
  intros Hi H Hu Hl. destruct (unblock_cases d err s s' Hi H) as [(t & Ht & E & Es & Hw)|(E & Hr & Hk)]; rewrite E in Hu.
  - apply list_lookup_insert_Some in Hu as [(_ & <- & _)|[Hne Hu]]; [done|]. rewrite Es. split; [done|]. split.
    + intros Hs. rewrite fn_lookup_insert_ne; [done|]. intros ->. congruence.
    + intros ->. destruct Hne. eapply (op_unique s t u); [done..|]. by apply late_op.
  - split; [done|]. split; [|done]. intros Hs. destruct (decide (d' = d)) as [->|]; [done|]. by rewrite Hk.
Qed.

Lemma unblock_edges d err s s' : inv s -> edges s -> unblock d err s = Some s' -> edges s'.
Proof.
  intros Hi [He Hl] H. destruct (unblock_frame _ _ _ _ H) as (K1 & K2 & K3 & K4 & K5). split.
  - intros Hp d' Hr. eapply unblock_covered; [done..|]. apply He; [congruence|]. unfold ready in *. by rewrite K1, K2 in Hr.
  - rewrite K4, K5. intros u qc d' Hu Hla Hh. destruct (unblock_late d err s s' u qc d') as (Hu' & Hs & _); [done..|].
    destruct (Hl u qc d' Hu' Hla Hh) as [?|Hc]; [left; auto|right]. eapply unblock_thread; [done..| |done]. by intros g [? ?].
Qed.

(** ** The other steps *)

Lemma slotted_covered s t g d ds d' : threads s !! t = Some (PSlot g d ds) -> d' <> d -> covered s d' ->
  covered (goto t (PHint g ds) s) d'.
Proof.
  intros Ht Hne [?|[?|[Hc|[Hh Hn]]]]; [by left|by right; left|..].
  - right. right. left.
    destruct (some_thread_move s t _ (PHint g ds) (desc s) (kern s) (phase s) (lost s) (incarnations s) _ Ht Hc) as [[-> [->|Hin]]|Hc'];
      [done| |exact Hc'].
    by apply (some_thread_at s t (PSlot (generation (desc s)) d ds)).
  - right. right. right. split; [done|]. intros u n E. apply list_lookup_insert_Some in E as [(_ & [=] & _)|[_ E]]. by apply (Hn u n).
Qed.

Lemma slotted_edges s s' t g d ds : inv s -> edges s -> threads s !! t = Some (PSlot g d ds) ->
  unblock d None (goto t (PHint g ds) s) = Some s' -> edges s'.
Proof.
  intros Hi [He Hl] Ht H. pose proof (slotted_inv s t g d ds Hi Ht) as Hi'.
  assert (g = generation (desc s)) as -> by (by apply (i_pc _ Hi t _ Ht)).
  destruct (unblock_frame _ _ _ _ H) as (K1 & K2 & K3 & K4 & K5). split.
  - intros Hp d' Hr. destruct (decide (d' = d)) as [->|Hne]; [by eapply unblock_edge|].
    eapply unblock_covered; [done..|]. eapply slotted_covered; [done..|]. apply He; [cbn in K3; congruence|].
    unfold ready in *. by rewrite K1, K2 in Hr.
  - rewrite K4, K5. intros u qc d' Hu Hla Hh.
    destruct (unblock_late d None _ s' u qc d' Hi' H Hu Hla) as (Hu' & Hs & Hd).
    apply list_lookup_insert_Some in Hu' as [(_ & <- & _)|[Hne Hu']]; [done|].
    destruct (Hl u qc d' Hu' Hla Hh) as [?|Hc]; [left; auto|].
    destruct (some_thread_move s t _ (PHint (generation (desc s)) ds) (desc s) (kern s) (phase s) (lost s) (incarnations s) _ Ht Hc)
      as [[ds' [= <- <-]]|Hc']; [left; auto|].
    right. eapply unblock_thread; [exact Hi'|exact H|by intros g' [? ?]|exact Hc'].
Qed.

Lemma poll_edges t pc s s' : inv s -> edges s -> threads s !! t = Some pc -> poll_step t pc s = Some s' -> edges s'.
Proof.
  intros Hi He Ht H. pose proof (i_pc _ Hi t pc Ht) as (G1 & G2 & G3 & G4 & G5).
  destruct pc as [| | | | | | | | | |g ds|g ds|g ds|g ds|g d ds| | | | |]; try done; cbn [poll_step] in H.
  - injection H as <-. eapply (edges_move s t (PToken g ds)); [done..|]. case_decide as Hg; still. by intros _ d' [-> _].
  - unfold pin in H. case_decide as Hr; injection H as <-; eapply (edges_move s t (PPin g ds)); try done; [|edge].
    still. intros Hp. pose proof (i_refs _ Hi) as Hrefs. pose proof (refs_bound s Hi). rewrite Hp in Hrefs. cbn in Hrefs. lia.
  - injection H as <-. eapply (edges_move s t (PCheck g ds)); [done..|]. case_decide as Hc; still.
    intros Hp d' [-> _]. pose proof (i_shut _ Hi) as Hs. rewrite Hp in Hs. specialize (Hs _ eq_refl). destruct Hc; congruence.
  - assert (g = generation (desc s)) as -> by (by apply G2).
    destruct ds as [|d ds]; injection H as <-; eapply (edges_move s t (PHint _ _)); try done.
    + still. by intros _ d' [_ []%not_elem_of_nil].
    + edge.
      * intros _ d' [_ [->|?]%elem_of_cons] _; auto.
      * intros _ d' Ha Hh Hlo. split; [by split_and!|]. dirs d' d; auto.
      * intros d'. dirs d' d; [|auto]. right. left. by exists ds.
  - by eapply slotted_edges.
Qed.

(** The claim reads only part of the state. *)
Lemma edges_same s s' : edges s -> (phase s' = Attached -> phase s = Attached) -> (forall d, ready s' d -> ready s d) ->
  threads s' = threads s -> generation (desc s') = generation (desc s) -> slot (desc s') = slot (desc s) ->
  ready_hint (desc s') = ready_hint (desc s) -> (forall d, event (kern s d) = true -> event (kern s' d) = true) -> edges s'.
Proof.
  intros [He Hl] Hp Hr Ht Hg Hs Hh Hk. split; unfold covered, hinted, some_thread in *; rewrite Hg, Hh, Hs, Ht.
  - intros Ha d Hd. destruct (He (Hp Ha) d (Hr d Hd)) as [?|?]; [left|right]; auto.
  - done.
Qed.

(** No thread knows the incarnation. *)
Lemma edges_fresh s : inv s -> phase s <> Attached -> (unknown (phase s) = true \/ ReactorInv.total pushes s <> 0) -> edges s.
Proof.
  intros Hi Hp Hu. split; [done|]. intros t pc d Ht Hl _. apply late_op in Hl.
  assert (Hg : gen_of pc = Some (generation (desc s))) by (destruct pc as [| | | | | | | | | | | | | | | | |[[]|]|[[]|]|[[]|]]; cbn in Hl; simplify_eq/=; done).
  destruct (i_pc _ Hi t pc Ht) as (G1 & _). destruct (G1 _ Hg) as [_ Hk]. destruct (Hk eq_refl) as [? ?]. destruct Hu; congruence.
Qed.

Lemma callback_edges t pc s s' : inv s -> edges s -> threads s !! t = Some pc -> callback_step t pc s = Some s' -> edges s'.
Proof.
  intros Hi He Ht H. destruct pc as [| | | | | | | | | | | | | | |g d e|d e| | |]; try done; cbn [callback_step] in H.
  - apply unlocked_inv in H as [Hl H]. case_decide as Hc; injection H as <-; eapply (edges_move s t (CStart g d e)); try done; [edge|still].
  - pose proof (locked_by s t _ Hi Ht eq_refl) as Hl. destruct (i_pc _ Hi t _ Ht) as (_ & _ & _ & _ & G5). specialize (G5 eq_refl).
    set (s0 := set_desc (set_lock false (desc s)) (goto t Rest s)).
    assert (Hi0 : inv s0).
    { eapply (move_inv s t (CSlot d e)); [done|done|]. split; cbn; rewrite ?Hl, ?G5; try done; try lia; auto. }
    assert (He0 : edges s0) by (eapply (edges_move s t (CSlot d e)); [done..|]; edge).
    destruct (unblock d (Some e) s0) as [s1|] eqn:E; [|by destruct (unblock_inv s0 d (Some e) Hi0) as (? & ? & _); congruence].
    pose proof (unblock_edges _ _ _ _ Hi0 He0 E) as He1. unfold s0 in E.
    change (desc s) with (desc (goto t Rest s)) in E. rewrite unblock_lock in E.
    destruct (unblock d (Some e) (goto t Rest s)) as [s2|]; [|done]. cbn in E, H. congruence.
Qed.

Lemma release_edges t pc s s' : inv s -> inv s' -> edges s -> threads s !! t = Some pc -> release_step t pc s = Some s' -> edges s'.
Proof.
  intros Hi Hi' He Ht H. destruct pc as [| | | | | | | | | | | | | | | | |r|r|r]; try done; cbn [release_step] in H.
  - injection H as <-. eapply (edges_move s t (Release r)); [done..|]. unfold release_ref. cbn [fst snd].
    case_bool_decide; [edge|]. destruct r as [[g d]|]; edge.
  - apply unlocked_inv in H as [Hl [= <-]]. destruct (frees_released s t _ Hi Ht eq_refl) as [Hp _].
    apply edges_fresh; [done|cbn; congruence|]. right. cbn.
    pose proof (sum_ge pushes (<[t := Pushing r]> (threads s)) t (Pushing r)) as Hge. unfold ReactorInv.total. cbn [threads goto].
    specialize (Hge (list_lookup_insert_eq _ _ _ ltac:(by apply lookup_lt_Some in Ht))). cbn in Hge |- *. lia.
  - injection H as <-. apply edges_fresh; [done|done|by left].
Qed.

Lemma start_edges t c s s' : inv s -> edges s -> threads s !! t = Some Rest -> start_step t c s = Some s' -> edges s'.
Proof.
  intros Hi He Ht H. unfold start_step in H. destruct (registered (phase s)) eqn:Hr; [|done].
  destruct c as [|w d|ds|d e| |]; try done.
  - destruct (op_free (generation (desc s), d) s) eqn:Ho; [|done]. injection H as <-.
    eapply (edges_move s t Rest); [done..|]. destruct w; still.
  - injection H as <-. eapply (edges_move s t Rest); [done..|]. edge.
    + intros d. unfold taken. case_decide; [by right|by left].
    + intros _ d Ha Hh Hlo. unfold taken in Ha, Hh. split; [|auto]. by case_decide.
  - injection H as <-. eapply (edges_move s t Rest); [done..|]. still.
Qed.

Lemma act_edges t c s s' : inv s -> inv s' -> edges s -> act t c s = Some s' -> edges s'.
Proof.
  intros Hi Hi' He H. unfold act in H. destruct (threads s !! t) as [pc|] eqn:Ht; [|done]. cbn [mbind option_bind] in H.
  destruct pc; first [by apply (start_edges t c s)|by eapply (poll_edges t _ s)|by eapply (callback_edges t _ s)
    |by eapply (release_edges t _ s)|by eapply (op_edges t c _ s)].
Qed.

Lemma attach_edges b ks s s' : inv s -> inv s' -> edges s -> attach_step b ks s = Some s' -> edges s'.
Proof.
  intros Hi Hi' He H. unfold attach_step in H. destruct (phase s) eqn:Hp; try done.
  - injection H as <-. apply edges_fresh; [done|done|by left].
  - apply unlocked_inv in H as [Hl [= <-]]. apply edges_fresh; [done|done|by left].
  - destruct b; injection H as <-.
    + by apply (edges_same s).
    + assert (Hf : edges s) by (apply edges_fresh; [done|by rewrite Hp|left; by rewrite Hp]). destruct Hf as [_ Hl]. split.
      * intros _ d (Ha & _ & _). left. cbn in Ha |- *. by rewrite bool_decide_true by lia.
      * exact Hl.
Qed.

Lemma detach_edges s s' : inv s -> inv s' -> edges s -> detach_step s = Some s' -> edges s'.
Proof.
  intros Hi Hi' He H. unfold detach_step in H. destruct (phase s) as [| | | | |[|d ds]|[|d ds]| | | |] eqn:Hp; try done.
  - apply unlocked_inv in H as [Hl [= <-]]. by apply (edges_same s).
  - injection H as <-. by apply (edges_same s).
  - injection H as <-. by apply (edges_same s).
  - rewrite unblock_phase in H. destruct (unblock_inv s d (Some (of_errc closed)) Hi) as (s1 & E & Hi1). rewrite E in H.
    injection H as <-. apply (edges_same s1); try done. by apply (unblock_edges d _ s s1 Hi He E).
  - injection H as <-. by apply (edges_same s).
  - destruct (syscall_active (desc s) d); [done|]. injection H as <-. by apply (edges_same s).
  - injection H as <-. unfold release_ref. cbn [fst snd]. apply (edges_same s); try done. by destruct (bool_decide _).
  - apply unlocked_inv in H as [Hl [= <-]]. apply edges_fresh; [done|done|by left].
  - injection H as <-. apply edges_fresh; [done|done|by left].
Qed.

Lemma arrive_edges d n fin s : edges s -> edges (arrive d n fin s).
Proof.
  intros [He Hl]. split; [|exact Hl]. intros Hp d' (Ha & Hh & Hlo). unfold arrive in Hp, Ha, Hh, Hlo |- *.
  cbn [phase set_kern kern lost desc] in Hp, Ha, Hh, Hlo. destruct (decide (d' = d)) as [->|Hne].
  - rewrite fn_lookup_insert in Ha, Hh. cbn in Ha, Hh. apply orb_false_iff in Hh as [Hh ->].
    destruct n as [|n].
    + destruct (He Hp d) as [Hc|Hc]; [split_and!; [lia|done..]| |by right].
      left. cbn. rewrite fn_lookup_insert. cbn. by rewrite Hc, orb_true_r.
    + left. cbn. rewrite fn_lookup_insert, Hp. done.
  - rewrite fn_lookup_insert_ne in Ha, Hh by done. destruct (He Hp d') as [Hc|Hc]; [by split_and!| |by right].
    left. cbn. by rewrite fn_lookup_insert_ne.
Qed.

Lemma r_step_edges s s' : inv s -> inv s' -> edges s -> r_step s s' -> edges s'.
Proof. intros Hi Hi' He Hs. destruct Hs; eauto using act_edges, attach_edges, detach_edges, arrive_edges. Qed.

Lemma rtc_incarnations s s' : rtc r_step s s' -> incarnations s <= incarnations s'.
Proof. induction 1 as [|x y z Hxy _ IH]; [done|]. apply r_step_incarnations in Hxy. lia. Qed.

Lemma reachable_edges count s : (Z.of_nat count < 2 ^ 32 - 2)%Z -> reachable count s -> unwrapped s -> inv s /\ edges s.
Proof.
  intros Hc (s0 & H0 & Hr) Hb. pose proof (r_init_inv count s0 Hc H0) as Hi.
  assert (He : edges s0) by (rewrite H0; split; [done|by intros t pc d [-> _]%lookup_replicate]).
  clear H0. unfold unwrapped in Hb. induction Hr as [s|s s1 s2 Hs Hr IH]; [done|]. pose proof (rtc_incarnations _ _ Hr).
  assert (Hi1 : inv s1) by (apply (r_step_inv s); [done..|lia]). apply IH; [done..|]. by apply (r_step_edges s).
Qed.
