(* ===== verification/ReactorProps.v ===== *)
(** * What the descriptors promise

    A node is recycled only when nobody uses it, a closed socket leaves no call
    and no waiter behind, and a waiter whose bytes have arrived is woken; with
    the two runs in which readiness is lost. *)

From S2P Require Import Prelude Result Reactor ReactorInv ReactorEdges.
From stdpp Require Import functions.

Set Default Proof Using "Type".

(** ** Runs *)

Inductive Move := MAct (t : nat) (c : Choice) | MAttach (ks : Dir -> Kern) | MDetach | MArrive (d : Dir) (n : nat) (fin : bool).

Definition move (m : Move) (s : Reactor) : option Reactor :=
  match m with
  | MAct t c => act t c s
  | MAttach ks => attach_step false ks s
  | MDetach => detach_step s
  | MArrive d n fin => Some (arrive d n fin s)
  end.

Fixpoint moves (ms : list Move) (s : Reactor) : option Reactor :=
  match ms with [] => Some s | m :: ms => s' ← move m s; moves ms s' end.

Lemma moves_steps ms s s' : moves ms s = Some s' -> rtc r_step s s'.
Proof.
  revert s. induction ms as [|m ms IH]; intros s H; simpl in H; [by injection H as ->|].
  destruct (move m s) as [s1|] eqn:E; [|done]. eapply rtc_l; [|by apply IH].
  destruct m; simpl in E; [by eapply rs_act|by eapply rs_attach|by eapply rs_detach|injection E as <-; apply rs_arrive].
Qed.

Definition initial (count : nat) : Reactor :=
  mkReactor new_desc (fun _ => mkKern 0 false false) NoSocket (replicate count Rest) (fun _ => false) 0.

Definition run (count : nat) (ms : list Move) : Reactor := default (initial count) (moves ms (initial count)).

Lemma run_reachable count ms : reachable count (run count ms).
Proof.
  exists (initial count). split; [done|]. unfold run. destruct (moves ms (initial count)) as [s|] eqn:E; [by eapply moves_steps|done].
Qed.

(** Steps of one thread alone. *)
Definition solo (u : nat) (s s' : Reactor) : Prop := exists c, act u c s = Some s'.

(** ** Wakeups *)

Lemma slot_step u t g d d' ds s : inv s -> threads s !! u = Some (PSlot g d' ds) -> threads s !! t = Some (OpParked g d) ->
  exists s', solo u s s' /\ inv s' /\ threads s' !! u = Some (PHint g ds) /\
    threads s' !! t = Some (if decide (d' = d) then OpResume g d None else OpParked g d).
Proof.
  intros Hi Hu Ht. assert (Hne : u <> t) by congruence. pose proof (slotted_inv _ _ _ _ _ Hi Hu) as Hi1.
  destruct (unblock_inv _ d' None Hi1) as (s' & E & Hi'). exists s'.
  assert (Ht1 : threads (goto u (PHint g ds) s) !! t = Some (OpParked g d)) by (cbn; by rewrite list_lookup_insert_ne).
  assert (Hu1 : threads (goto u (PHint g ds) s) !! u = Some (PHint g ds)).
  { cbn. apply list_lookup_insert_eq. by apply lookup_lt_Some in Hu. }
  split; [exists Go; unfold act; by rewrite Hu|]. split; [done|].
  destruct (i_pc _ Hi1 t _ Ht1) as (_ & G2 & _ & G4 & _). destruct (G4 g d eq_refl) as [Hs _]. specialize (G2 g eq_refl).
  destruct (unblock_cases d' None _ s' Hi1 E) as [(w & Hw & Ew & _ & Hsw)|(Ew & Hr & Hk)]; rewrite Ew.
  - rewrite list_lookup_insert_ne by congruence. split; [done|]. case_decide as Hd.
    + assert (w = t) as -> by congruence. rewrite <- G2, Hd. apply list_lookup_insert_eq. by apply lookup_lt_Some in Ht1.
    + rewrite list_lookup_insert_ne; [done|]. intros ->. congruence.
  - split; [done|]. rewrite Ht1. case_decide as Hd; [|done]. subst d'. exfalso.
    destruct (i_pc _ Hi' t (OpParked g d)) as (_ & _ & _ & G4' & _); [by rewrite Ew|]. destruct (G4' g d eq_refl). congruence.
Qed.

Lemma hint_step u t g d' ds pc s : inv s -> threads s !! u = Some (PHint g (d' :: ds)) -> threads s !! t = Some pc -> u <> t ->
  exists s', solo u s s' /\ inv s' /\ threads s' !! u = Some (PSlot g d' ds) /\ threads s' !! t = Some pc.
Proof.
  intros Hi Hu Ht Hne. exists (goto u (PSlot g d' ds) (set_desc (note_readable d' (desc s)) s)).
  split; [exists Go; unfold act; by rewrite Hu|]. split; [by eapply (poll_inv u _ s); [done|exact Hu|]|]. cbn.
  split; [apply list_lookup_insert_eq; by apply lookup_lt_Some in Hu|by rewrite list_lookup_insert_ne].
Qed.

Lemma hint_delivers u t g d ds s : inv s -> threads s !! u = Some (PHint g ds) -> d ∈ ds -> threads s !! t = Some (OpParked g d) ->
  exists s', rtc (solo u) s s' /\ threads s' !! t = Some (OpResume g d None).
Proof.
  revert s. induction ds as [|d' ds IH]; intros s Hi Hu Hd Ht; [by apply not_elem_of_nil in Hd|].
  destruct (hint_step u t g d' ds _ s Hi Hu Ht) as (s1 & R1 & Hi1 & Hu1 & Ht1); [congruence|].
  destruct (slot_step u t g d d' ds s1 Hi1 Hu1 Ht1) as (s2 & R2 & Hi2 & Hu2 & Ht2). case_decide as E.
  - exists s2. split; [eapply rtc_l; [done|by apply rtc_once]|done].
  - destruct (IH s2) as (s3 & R3 & Ht3); [done|done|set_solver|done|]. exists s3. split; [by eapply rtc_l; [|eapply rtc_l]|done].
Qed.

Lemma poller_move u t pc pc' qc s s' : inv s -> threads s !! u = Some pc -> poll_step u pc s = Some s' -> u <> t ->
  threads s !! t = Some qc -> threads s' = <[u := pc']> (threads s) -> act u Go s = Some s' ->
  solo u s s' /\ inv s' /\ threads s' !! u = Some pc' /\ threads s' !! t = Some qc.
Proof.
  intros Hi Hu Hp Hne Ht E Ha. split; [by exists Go|]. split; [by eapply (poll_inv u pc s)|]. rewrite E.
  split; [apply list_lookup_insert_eq; by apply lookup_lt_Some in Hu|by rewrite list_lookup_insert_ne].
Qed.

Lemma check_delivers u t g d ds s : inv s -> generation (desc s) = g -> closing (desc s) = false -> threads s !! u = Some (PCheck g ds) ->
  d ∈ ds -> u <> t -> threads s !! t = Some (OpParked g d) -> exists s', rtc (solo u) s s' /\ threads s' !! t = Some (OpResume g d None).
Proof.
  intros Hi Hg Hc Hu Hd Hne Ht. assert (E : poll_step u (PCheck g ds) s = Some (goto u (PHint g ds) s)).
  { cbn. rewrite decide_False; [done|]. intros [?|?]; congruence. }
  destruct (poller_move u t _ (PHint g ds) _ s _ Hi Hu E Hne Ht eq_refl) as (R & Hi2 & Hu2 & Ht2); [unfold act; by rewrite Hu|].
  destruct (hint_delivers u t g d ds _ Hi2 Hu2 Hd Ht2) as (s3 & R3 & Ht3). exists s3. split; [by eapply rtc_l|done].
Qed.

Lemma pin_delivers u t g d ds s : inv s -> generation (desc s) = g -> phase s = Attached -> threads s !! u = Some (PPin g ds) ->
  d ∈ ds -> u <> t -> threads s !! t = Some (OpParked g d) -> exists s', rtc (solo u) s s' /\ threads s' !! t = Some (OpResume g d None).
Proof.
  intros Hi Hg Hp Hu Hd Hne Ht. pose proof (i_refs _ Hi) as Hr. rewrite Hp in Hr. cbn in Hr. pose proof (refs_bound s Hi).
  pose proof (i_shut _ Hi) as Hs. rewrite Hp in Hs. specialize (Hs _ eq_refl).
  set (s2 := goto u (PCheck g ds) (set_desc (set_refs (u32 (refs (desc s) + 1)) (desc s)) s)).
  assert (E : poll_step u (PPin g ds) s = Some s2) by (cbn; unfold pin; by rewrite decide_False by lia).
  destruct (poller_move u t _ (PCheck g ds) _ s s2 Hi Hu E Hne Ht eq_refl) as (R & Hi2 & Hu2 & Ht2); [unfold act; by rewrite Hu|].
  destruct (check_delivers u t g d ds s2) as (s3 & R3 & Ht3); try done. exists s3. split; [by eapply rtc_l|done].
Qed.

(** A poller with the edge wakes the waiter by itself. *)
Lemma carrier_delivers u t d pc s (g := generation (desc s)) : inv s -> phase s = Attached -> threads s !! u = Some pc -> carries g d pc ->
  threads s !! t = Some (OpParked g d) -> exists s', rtc (solo u) s s' /\ threads s' !! t = Some (OpResume g d None).
Proof.
  intros Hi Hp Hu Hc Ht. assert (Hne : u <> t) by (intros ->; rewrite Ht in Hu; injection Hu as <-; done).
  pose proof (i_shut _ Hi) as Hs. rewrite Hp in Hs. specialize (Hs _ eq_refl).
  destruct pc as [| | | | | | | | |g' d' []|g' ds|g' ds|g' ds|g' ds|g' d' ds| | | | |]; try done; destruct Hc as [-> Hc].
  - exfalso. subst d'. apply Hne. by eapply (op_unique s u t).
  - assert (E : poll_step u (PToken g ds) s = Some (goto u (PPin g ds) s)) by (cbn; by rewrite decide_True).
    destruct (poller_move u t _ (PPin g ds) _ s _ Hi Hu E Hne Ht eq_refl) as (R & Hi2 & Hu2 & Ht2); [unfold act; by rewrite Hu|].
    destruct (pin_delivers u t g d ds _ Hi2) as (s3 & R3 & Ht3); try done. exists s3. split; [by eapply rtc_l|done].
  - by apply (pin_delivers u t g d ds s).
  - by apply (check_delivers u t g d ds s).
  - by eapply hint_delivers.
  - destruct (slot_step u t g d d' ds s Hi Hu Ht) as (s2 & R2 & Hi2 & Hu2 & Ht2). case_decide as E.
    + exists s2. split; [by apply rtc_once|done].
    + destruct (hint_delivers u t g d ds s2) as (s3 & R3 & Ht3); try done; [by destruct Hc|]. exists s3. split; [by eapply rtc_l|done].
Qed.

(** Only a node without references is recycled. *)
Lemma recycles_at s s' : r_step s s' -> incarnations s' <> incarnations s ->
  (exists t r, threads s !! t = Some (Freeing r)) \/ phase s = FreeOwner.
Proof.
  intros Hs Hn. destruct Hs as [t c s s' H|b ks s s' H|s s' H|d n fin s].
  - left. unfold act in H. destruct (threads s !! t) as [pc|] eqn:Ht; [|done]. exists t. cbn [mbind option_bind] in H.
    destruct pc; cbn [start_step op_step poll_step callback_step release_step] in H; unfold start_step, unlocked in H;
      try (destruct (unblock _ _ _) eqn:E in H; [apply unblock_incarnations in E|]); simplify_eq/=; repeat (case_match; simplify_eq/=); eauto.
  - destruct Hn. unfold attach_step, unlocked in H. by repeat (case_match; simplify_eq/=).
  - unfold detach_step, unlocked in H. destruct (phase s) as [| | | | |[|d ds]|[|d ds]| | | |] eqn:Hp; auto; left; destruct Hn;
      repeat (case_match; simplify_eq/=); try apply unblock_incarnations in H; simplify_eq/=; done.
  - done.
Qed.

(** ** Properties *)

(** C5: a thread that has validated its reference or its native call holds the
    node's incarnation, however the socket closes and the node is reused; and the
    node is recycled under a new generation only when its count of references is
    zero and no thread holds a reference, is in a native call on the descriptor
    or waits in one of its slots. *)
Theorem recycled_node_unused count s s' : (Z.of_nat count < 2 ^ 32 - 2)%Z -> reachable count s -> r_step s s' -> unwrapped s' ->
  (forall t pc g, threads s !! t = Some pc -> pinned_gen pc = Some g -> g = generation (desc s)) /\
  (generation (desc s') <> generation (desc s) ->
    refs (desc s) = 0%Z /\ forall t pc, threads s !! t = Some pc -> holds pc = 0 /\ pinned_gen pc = None).
Proof.
  intros Hc Hr Hs Hu. pose proof (r_step_incarnations s s' Hs) as Hle. unfold unwrapped in Hu.
  assert (Hi : inv s) by (apply (reachable_rinv count); [done..|unfold unwrapped; lia]).
  pose proof (r_step_inv s s' Hi Hs Hu) as Hi'. split; [intros t pc g Ht Hg; by apply (i_pc _ Hi t pc Ht)|].
  rewrite (i_generation _ Hi), (i_generation _ Hi'). intros Hg.
  assert (Hz : refs (desc s) = 0%Z /\ (phase s = Released \/ phase s = FreeOwner)).
  { destruct (recycles_at s s' Hs) as [(t & r & Ht)|Hp]; [lia|destruct (frees_released s t _ Hi Ht eq_refl); auto|].
    pose proof (i_unused _ Hi) as E. rewrite Hp in E. auto. }
  destruct Hz as [Hz Hp]. split; [done|]. intros t pc Ht.
  destruct (unheld s t pc Hi Ht Hz) as (H1 & _ & H2); [intros d; destruct Hp as [-> | ->]; cbn; tauto|by destruct Hp as [-> | ->]|done].
Qed.

(** A socket past the waits of [detach]. *)
Definition detached (p : Phase) : bool := match p with ReleaseOwner | Released | FreeOwner => true | _ => false end.

(** C6: once [detach] has waited for the native calls, no thread is in a native
    call on the descriptor, none is parked in its slots, and whoever comes later
    with the old incarnation is refused with [closed], before its call and
    before it waits. *)
Theorem detached_socket_idle count s : (Z.of_nat count < 2 ^ 32 - 2)%Z -> reachable count s -> unwrapped s -> detached (phase s) = true ->
  (forall t pc, threads s !! t = Some pc -> lease_of pc = None /\ forall g d, pc <> OpParked g d) /\
  (forall d t, slot (desc s) d <> Waiting t) /\
  forall g d env, begin_syscall d g env (desc s) = (Some (of_errc closed), desc s) /\
    suspend_enter g env (desc s) = (Some (of_errc closed), desc s).
Proof.
  intros Hc Hr Hu Hp. pose proof (reachable_rinv count s Hc Hr Hu) as Hi.
  assert (Hcl : closing (desc s) = true) by (apply (i_shut _ Hi); by destruct (phase s)).
  assert (Hpark : forall t g d, threads s !! t <> Some (OpParked g d)).
  { intros t g d Ht. destruct (i_pc _ Hi t _ Ht) as (_ & _ & _ & G & _). destruct (G g d eq_refl) as [_ W]. by destruct (phase s). }
  split_and!.
  - intros t pc Ht. split; [|intros g d ->; by apply (Hpark t g d)]. destruct (lease_of pc) as [[g d]|] eqn:E; [|done].
    destruct (i_pc _ Hi t pc Ht) as (_ & _ & G & _). destruct (G g d E) as [_ W]. by destruct (phase s).
  - intros d t E. destruct (i_slot _ Hi d t E) as [g Ht]. by apply (Hpark t g d).
  - intros g d env. unfold begin_syscall, suspend_enter, io_error. rewrite !decide_True by auto. by split.
Qed.

(** C4: no wakeup is lost. A thread parked in a direction in which something can
    be moved, on an attached socket, while the peer has not ended the stream and
    no error has taken an edge, will be woken: the kernel has still to report
    the edge, or a poller has it in hand and wakes the thread without error,
    running alone. *)
Theorem ready_waiter_wakes count s t g d : (Z.of_nat count < 2 ^ 32 - 2)%Z -> reachable count s -> unwrapped s ->
  phase s = Attached -> threads s !! t = Some (OpParked g d) -> ready s d ->
  event (kern s d) = true \/
  exists u pc s', threads s !! u = Some pc /\ carries g d pc /\ rtc (solo u) s s' /\ threads s' !! t = Some (OpResume g d None).
Proof.
  intros Hc Hr Hu Hp Ht Hready. destruct (reachable_edges count s Hc Hr Hu) as [Hi [He Hl]].
  destruct (i_pc _ Hi t _ Ht) as (_ & G2 & _ & G4 & _). destruct (G4 g d eq_refl) as [Hs _]. specialize (G2 g eq_refl). subst g.
  assert (Hcarry : some_thread s (carries (generation (desc s)) d) -> exists u pc s', threads s !! u = Some pc /\
    carries (generation (desc s)) d pc /\ rtc (solo u) s s' /\ threads s' !! t = Some (OpResume (generation (desc s)) d None)).
  { intros (u & pc & Hup & Hcp). destruct (carrier_delivers u t d pc s Hi Hp Hup Hcp Ht) as (s' & R & E). by exists u, pc, s'. }
  destruct (He Hp d Hready) as [?|[?|[?|[Hh _]]]]; [by left|congruence|by right; apply Hcarry|right].
  destruct (Hl t _ d Ht eq_refl Hh) as [?|(u & pc & Hup & ds & ->)]; [congruence|].
  apply Hcarry. exists u, (PSlot (generation (desc s)) d ds). split; [done|]. by split; [|left].
Qed.

(** ** Runs of the properties *)

Definition quiet : Dir -> Kern := fun _ => mkKern 0 false false.
Definition open_moves : list Move := [MAttach quiet; MAttach quiet; MAttach quiet].
(** A reader that finds nothing, up to its hint, and on to the slot. *)
Definition try_moves : list Move := [MAct 0 (StartOp true kRead); MAct 0 Go; MAct 0 (Env None); MAct 0 (Ask (AskBytes 10))].
Definition park_moves : list Move := [MAct 0 Go; MAct 0 Go; MAct 0 (Env None); MAct 0 Go].
(** A poller that pins, and one that delivers. *)
Definition pin_moves : list Move := [MAct 1 (StartPoll [kRead]); MAct 1 Go; MAct 1 Go].
Definition poll_moves : list Move := pin_moves ++ [MAct 1 Go; MAct 1 Go; MAct 1 Go; MAct 1 Go; MAct 1 Go].
Definition close_moves : list Move := replicate 9 MDetach.

Lemma recycled_node_unused_witness :
  let s := run 2 (open_moves ++ pin_moves ++ close_moves ++ [MAct 1 Go; MAct 1 Go]) in
  threads s = [Rest; Freeing None] /\ refs (desc s) = 0%Z.
Proof.
  set (s := run 2 _). split; [by vm_compute|].
  destruct (recycled_node_unused 2 s (run 2 (open_moves ++ pin_moves ++ close_moves ++ [MAct 1 Go; MAct 1 Go; MAct 1 Go]))) as [_ H].
  - done.
  - apply run_reachable.
  - apply (rs_act 1 Go). by vm_compute.
  - by vm_compute.
  - destruct H as [H _]; [by vm_compute|exact H].
Defined.

Lemma detached_socket_idle_witness :
  let s := run 2 (open_moves ++ pin_moves ++ close_moves) in
  detached (phase s) = true /\ forall d t, slot (desc s) d <> Waiting t.
Proof.
  set (s := run 2 _). split; [by vm_compute|].
  destruct (detached_socket_idle 2 s) as (_ & H & _); [done|apply run_reachable|by vm_compute|by vm_compute|exact H].
Defined.

Lemma ready_waiter_wakes_witness :
  let s := run 2 (open_moves ++ try_moves ++ park_moves ++ [MArrive kRead 3 false; MAct 1 (StartPoll [kRead])]) in
  event (kern s kRead) = false /\ exists u s', rtc (solo u) s s' /\ threads s' !! 0 = Some (OpResume 0 kRead None).
Proof.
  set (s := run 2 _). assert (He : event (kern s kRead) = false) by (by vm_compute). split; [exact He|].
  destruct (ready_waiter_wakes 2 s 0 0 kRead) as [H|(u & pc & s' & _ & _ & R & T)].
  - done.
  - apply run_reachable.
  - by vm_compute.
  - by vm_compute.
  - by vm_compute.
  - unfold ready. vm_compute. split_and!; [lia|done..].
  - rewrite H in He. discriminate.
  - by exists u, s'.
Defined.

(** ** Where readiness is lost *)

(** Bytes and the end of the stream in one edge: the read takes the bytes, its
    short count clears the hint, and the next read parks although a call would
    return the end of the stream at once; nothing is left to wake it. *)
Lemma end_of_stream_missed :
  let s := run 2 (open_moves ++ try_moves ++ park_moves ++ [MArrive kRead 3 true] ++ poll_moves ++
    [MAct 0 (Env None); MAct 0 Go; MAct 0 Go; MAct 0 (Env None); MAct 0 (Ask (AskBytes 10)); MAct 0 Go; MAct 0 Go] ++
    [MAct 0 (StartOp true kRead); MAct 0 Go; MAct 0 (Env None); MAct 0 Go]) in
  phase s = Attached /\ threads s = [OpParked 0 kRead; Rest] /\ event (kern s kRead) = false /\
  (native_call (AskBytes 10) (kern s kRead)).1 = NShort.
Proof. by vm_compute. Qed.

(** A read that consumes an edge and reports its deadline leaves the hint as its
    own [note_would_block] cleared it: a later read parks before bytes that
    nothing will announce. *)
Lemma deadline_takes_edge :
  let s := run 2 (open_moves ++ try_moves ++ [MArrive kRead 3 false] ++ poll_moves ++
    [MAct 0 Go; MAct 0 Go; MAct 0 (Env None); MAct 0 Go; MAct 0 (Env (Some (of_errc timed_out))); MAct 0 Go] ++
    [MAct 0 (StartOp true kRead); MAct 0 Go; MAct 0 (Env None); MAct 0 Go]) in
  phase s = Attached /\ threads s = [OpParked 0 kRead; Rest] /\ event (kern s kRead) = false /\ avail (kern s kRead) = 3.
Proof. by vm_compute. Qed.
