(* ===== verification/IoQueue.v ===== *)
(** * The operation queue of a descriptor (include/cio/detail/reactor.hpp, src/reactor_common.cpp)

    One direction of one descriptor node: the word that names the owning
    operation, the queue behind it, the references both hold and the lifetime of
    a foreign runtime, through the incarnations of the node. A section under the
    lifecycle lock is one step: nothing it reads before the word's last access
    changes outside the lock. *)

From S2P Require Import Prelude Result.

Set Default Proof Using "Type".

(** [operation_tag], and the word of an owner on the slow path. *)
Definition operation_tag (g : Z) : Z := wrap 64 (Z.shiftl (wrap 64 (g + 1)) 1).
Definition slow_tag (g : Z) : Z := Z.lor (operation_tag g) 1.

(** The socket of the node: none, attached, [detach] begun, its reference gone. *)
Inductive Life := Free | Open | Shut | Gone.

#[global] Instance Life_eq_dec : EqDecision Life.
Proof. solve_decision. Defined.

(** [others] counts the references of readiness waiters and pollers. *)
Record Node := mkNode {
  node_generation : Z;
  node_refs : Z;
  life : Life;
  others : nat;
  operation_owner : Z;
  operation_pinned : bool;
  operation_queue : list nat;
  operation_lifetime : bool
}.

Definition set_owner (v : Z) (n : Node) : Node :=
  mkNode (node_generation n) (node_refs n) (life n) (others n) v (operation_pinned n) (operation_queue n) (operation_lifetime n).
Definition set_queue (q : list nat) (n : Node) : Node :=
  mkNode (node_generation n) (node_refs n) (life n) (others n) (operation_owner n) (operation_pinned n) q (operation_lifetime n).
Definition more_refs (v : Z) (n : Node) : Node :=
  mkNode (node_generation n) (node_refs n + v) (life n) (others n) (operation_owner n) (operation_pinned n) (operation_queue n) (operation_lifetime n).
Definition set_pinned (b : bool) (n : Node) : Node :=
  mkNode (node_generation n) (node_refs n) (life n) (others n) (operation_owner n) b (operation_queue n) (operation_lifetime n).
Definition set_lifetime (b : bool) (n : Node) : Node :=
  mkNode (node_generation n) (node_refs n) (life n) (others n) (operation_owner n) (operation_pinned n) (operation_queue n) b.

(** A reference more; a count that is full ends the process. *)
Definition retain (n : Node) : option Node := if decide (node_refs n = 2 ^ 32 - 1)%Z then None else Some (more_refs 1 n).

Definition pin_operation (n : Node) : option Node :=
  if operation_pinned n then Some n else set_pinned true <$> retain n.

Definition publish_operation_lifetime (g : Z) (foreign : bool) (n : Node) : option Node :=
  if foreign then (fun n => set_owner (slow_tag g) (set_lifetime true n)) <$> pin_operation n else Some n.

(** [io_error] with what the clock, the stop flag and a cancellation say. *)
Definition op_error (g : Z) (env : option Error) (n : Node) : option Error :=
  if decide (node_generation n <> g \/ life n <> Open) then Some (of_errc closed) else env.

(** [validate_operation_owner]. *)
Definition validate (g : Z) (foreign : bool) (env : option Error) (n : Node) : option (option Error * Node) :=
  if foreign then
    match op_error g env n with
    | Some e => Some (Some e, n)
    | None =>
        if decide (operation_owner n <> operation_tag g /\ operation_owner n <> slow_tag g) then Some (Some (of_errc closed), n)
        else n ← publish_operation_lifetime g true n; Some (None, n)
    end
  else Some (op_error g env n, n).

(** [IoOperationAwaiter::await_suspend] by thread [t]: refused, the owner at
    once, or queued. *)
Inductive Entry := Refused (e : Error) | Owner | Queued.

Definition op_suspend (t : nat) (g : Z) (foreign : bool) (env : option Error) (n : Node) : option (Entry * Node) :=
  match op_error g env n with
  | Some e => Some (Refused e, n)
  | None =>
      if decide (operation_owner n = 0%Z) then
        n ← publish_operation_lifetime g foreign (set_owner (operation_tag g) n); Some (Owner, n)
      else if decide (operation_owner n <> operation_tag g /\ operation_owner n <> slow_tag g) then
        Some (Refused (of_errc closed), n)
      else
        n ← pin_operation (set_owner (slow_tag g) n);
        n ← publish_operation_lifetime g foreign n;
        n ← retain n;
        Some (Queued, set_queue (operation_queue n ++ [t]) n)
  end.

(** The section of [release_operation]: whether the pin is to be released, and
    the waiter that owns the direction now. *)
Definition release_operation (g : Z) (n : Node) : bool * option nat * Node :=
  if decide (node_generation n <> g) then (false, None, n)
  else
    match operation_queue n with
    | t :: q => (operation_pinned n, Some t, set_queue q n)
    | [] => (operation_pinned n, None, set_lifetime false (set_pinned false (set_owner 0 n)))
    end.

(** ** Threads *)

(** Where an operation of incarnation [g] is: before its first attempt ([wait]:
    the awaiting form, else [try_lock_io_operation]), owner and about to be
    validated, about to queue, queued, at work, giving the word back, releasing
    on the slow path, then releasing the pin and waking the next owner. *)
Inductive QPc :=
  | QRest
  | QTry (wait : bool) (g : Z) (foreign : bool)
  | QCheck (g : Z) (foreign : bool)
  | QSuspend (g : Z) (foreign : bool)
  | QQueued (g : Z) (foreign : bool)
  | QHold (g : Z) (foreign : bool)
  | QReset (g : Z)
  | QRelease (g : Z)
  | QUnref (unpin : bool) (next : option nat)
  | QDispatch (next : option nat).

(** The threads that queued, and those the queue was handed to, in order. *)
Record OpSys := mkOpSys { node : Node; ops : list QPc; entered : list nat; granted : list nat }.

Definition q_set (t : nat) (pc : QPc) (n : Node) (s : OpSys) : OpSys := mkOpSys n (<[t := pc]> (ops s)) (entered s) (granted s).

(** One step of thread [t]; [env] is what [io_error] finds beyond the node. *)
Definition q_act (t : nat) (wait foreign : bool) (env : option Error) (s : OpSys) : option OpSys :=
  let n := node s in
  pc ← ops s !! t;
  match pc with
  | QRest => match life n with Open | Shut => Some (q_set t (QTry wait (node_generation n) foreign) n s) | _ => None end
  | QTry w g f =>
      if decide (operation_owner n = 0%Z) then Some (q_set t (QCheck g f) (set_owner (operation_tag g) n) s)
      else Some (q_set t (if w then QSuspend g f else QRest) n s)
  | QCheck g f =>
      r ← validate g f env n;
      Some (q_set t (match r.1 with Some _ => QReset g | None => QHold g f end) r.2 s)
  | QSuspend g f =>
      r ← op_suspend t g f env n;
      match r.1 with
      | Refused _ => Some (q_set t QRest r.2 s)
      | Owner => Some (q_set t (QHold g f) r.2 s)
      | Queued => Some (mkOpSys r.2 (<[t := QQueued g f]> (ops s)) (entered s ++ [t]) (granted s))
      end
  | QQueued _ _ => None
  | QHold g f => Some (q_set t (QReset g) n s)
  | QReset g =>
      if decide (operation_owner n = operation_tag g) then Some (q_set t QRest (set_owner 0 n) s)
      else Some (q_set t (QRelease g) n s)
  | QRelease g =>
      let '(unpin, next, n') := release_operation g n in
      Some (mkOpSys n' (<[t := QUnref unpin next]> (ops s)) (entered s) (granted s ++ option_list next))
  | QUnref unpin next => Some (q_set t (QDispatch next) (if unpin then more_refs (-1) n else n) s)
  | QDispatch None => Some (q_set t QRest n s)
  | QDispatch (Some u) =>
      qc ← ops s !! u;
      match qc with
      | QQueued g f => Some (mkOpSys n (<[t := QRest]> (<[u := QHold g f]> (ops s))) (entered s) (granted s))
      | _ => None
      end
  end.

(** [attach], [detach] up to its release, that release, the other users of the
    node, and [free_desc] of a node nobody refers to. *)
Inductive Around := Attach | CloseNode | DropOwner | PinOther | UnpinOther | Recycle.

Definition around (a : Around) (n : Node) : option Node :=
  match a, life n with
  | Attach, Free => Some (mkNode (node_generation n) 1 Open 0 (operation_owner n) (operation_pinned n) (operation_queue n) (operation_lifetime n))
  | CloseNode, Open => Some (mkNode (node_generation n) (node_refs n) Shut (others n) (operation_owner n) (operation_pinned n) (operation_queue n) (operation_lifetime n))
  | DropOwner, Shut => Some (mkNode (node_generation n) (node_refs n - 1) Gone (others n) (operation_owner n) (operation_pinned n) (operation_queue n) (operation_lifetime n))
  | PinOther, (Open | Shut | Gone) =>
      if decide (0 < node_refs n < 2 ^ 32 - 1)%Z
      then Some (mkNode (node_generation n) (node_refs n + 1) (life n) (S (others n)) (operation_owner n) (operation_pinned n) (operation_queue n) (operation_lifetime n)) else None
  | UnpinOther, (Open | Shut | Gone) =>
      match others n with
      | S k => Some (mkNode (node_generation n) (node_refs n - 1) (life n) k (operation_owner n) (operation_pinned n) (operation_queue n) (operation_lifetime n))
      | 0 => None
      end
  | Recycle, Gone =>
      if decide (node_refs n = 0%Z)
      then Some (mkNode (u32 (node_generation n + 1)) (node_refs n) Free (others n) 0 (operation_pinned n) (operation_queue n) (operation_lifetime n)) else None
  | _, _ => None
  end.

Inductive iq_step : OpSys -> OpSys -> Prop :=
  | qs_act t wait foreign env s s' : q_act t wait foreign env s = Some s' -> iq_step s s'
  | qs_around a s n : around a (node s) = Some n -> iq_step s (mkOpSys n (ops s) (entered s) (granted s)).

Definition q_init (count : nat) : OpSys := mkOpSys (mkNode 0 0 Free 0 0 false [] false) (replicate count QRest) [] [].
