(* ===== verification/IoQueueInv.v ===== *)
(** * The invariant of an operation queue

    The word names one owner, the queue hangs behind a pinned one, the references
    are exact, and a waiter is in the queue or being handed the direction. *)

From S2P Require Import Prelude Result IoQueue.

Set Default Proof Using "Type".

(** ** Words *)

Lemma tag_eq g : (0 <= g < 2 ^ 32)%Z -> operation_tag g = (2 * (g + 1))%Z.
Proof.
  intros Hg. unfold operation_tag. rewrite !(wrap_small 64); [|unfold in_range|unfold in_range]; rewrite ?Z.shiftl_mul_pow2 by lia; try lia.
  rewrite (wrap_small 64) by (unfold in_range; lia). lia.
Qed.

Lemma slow_eq g : (0 <= g < 2 ^ 32)%Z -> slow_tag g = (2 * (g + 1) + 1)%Z.
Proof. intros Hg. unfold slow_tag. rewrite tag_eq by done. by destruct (g + 1)%Z as [|p|p] eqn:E; [lia| |lia]. Qed.

Definition gen_ok (n : Node) : Prop := (0 <= node_generation n < 2 ^ 32)%Z.

(** ** What a thread has *)

Definition token (g : Z) (pc : QPc) : nat :=
  match pc with
  | QCheck g' _ | QHold g' _ | QReset g' | QRelease g' => if decide (g' = g) then 1 else 0
  | QUnref _ (Some _) | QDispatch (Some _) => 1
  | _ => 0
  end.
Definition unrefs (pc : QPc) : nat := match pc with QUnref true _ => 1 | _ => 0 end.
Definition hands (t : nat) (pc : QPc) : nat :=
  match pc with QUnref _ (Some u) | QDispatch (Some u) => if decide (u = t) then 1 else 0 | _ => 0 end.
Definition queued (pc : QPc) : nat := match pc with QQueued _ _ => 1 | _ => 0 end.
Definition qgen (pc : QPc) : option Z :=
  match pc with
  | QTry _ g _ | QCheck g _ | QSuspend g _ | QQueued g _ | QHold g _ | QReset g | QRelease g => Some g
  | _ => None
  end.

Definition times (t : nat) (q : list nat) : nat := sum_list (map (fun u => if decide (u = t) then 1 else 0) q).
Definition qtotal (f : QPc -> nat) (s : OpSys) : nat := sum_list (map f (ops s)).
Definition owned (n : Node) : nat :=
  if decide (operation_owner n = operation_tag (node_generation n) \/ operation_owner n = slow_tag (node_generation n)) then 1 else 0.
Definition bit01 (b : bool) : nat := if b then 1 else 0.
Definition socket_ref (l : Life) : nat := match l with Open | Shut => 1 | _ => 0 end.

Definition q_pc_ok (n : Node) (pc : QPc) : Prop :=
  (forall g, qgen pc = Some g -> (0 <= g <= node_generation n)%Z) /\
  match pc with
  | QQueued g f => g = node_generation n /\ (f = true -> operation_lifetime n = true)
  | QHold g f => g = node_generation n -> f = true -> operation_lifetime n = true
  | QRelease g => g = node_generation n -> operation_owner n = slow_tag g
  | QUnref b (Some _) => b = true /\ operation_pinned n = true
  | QDispatch (Some _) => operation_pinned n = true
  | _ => True
  end.

Record node_ok (n : Node) : Prop := {
  n_generation : gen_ok n;
  n_queue : operation_queue n <> [] -> operation_pinned n = true;
  n_pinned : operation_pinned n = true <-> operation_owner n = slow_tag (node_generation n);
  n_lifetime : operation_lifetime n = true -> operation_pinned n = true;
  n_free : life n = Free -> node_refs n = 0%Z;
  n_owner : operation_owner n = 0%Z \/ (exists g, (0 <= g <= node_generation n)%Z /\ operation_owner n = operation_tag g) \/
    operation_owner n = slow_tag (node_generation n)
}.

Record q_inv (s : OpSys) : Prop := {
  q_node : node_ok (node s);
  q_refs : node_refs (node s) = Z.of_nat (socket_ref (life (node s)) + others (node s) + bit01 (operation_pinned (node s)) +
    length (operation_queue (node s)) + qtotal unrefs s);
  q_tokens : qtotal (token (node_generation (node s))) s = owned (node s);
  q_hands : forall t, times t (operation_queue (node s)) + qtotal (hands t) s =
    match ops s !! t with Some pc => queued pc | None => 0 end;
  q_pcs : forall t pc, ops s !! t = Some pc -> q_pc_ok (node s) pc;
  q_log : entered s = granted s ++ operation_queue (node s)
}.

(** ** A thread moves *)

Record q_fine (s : OpSys) (t : nat) (pc pc' : QPc) (n' : Node) (ent gr : list nat) : Prop := {
  qf_node : node_ok n';
  qf_generation : node_generation n' = node_generation (node s);
  qf_life : life n' = life (node s);
  qf_others : others n' = others (node s);
  qf_refs : (node_refs n' - Z.of_nat (bit01 (operation_pinned n') + length (operation_queue n') + unrefs pc') =
    node_refs (node s) - Z.of_nat (bit01 (operation_pinned (node s)) + length (operation_queue (node s)) + unrefs pc))%Z;
  qf_tokens : token (node_generation (node s)) pc' + owned (node s) = token (node_generation (node s)) pc + owned n';
  qf_hands : forall u, times u (operation_queue n') + hands u pc' + (if decide (u = t) then queued pc else 0) =
    times u (operation_queue (node s)) + hands u pc + (if decide (u = t) then queued pc' else 0);
  qf_self : q_pc_ok n' pc';
  qf_rest : forall u qc, u <> t -> ops s !! u = Some qc -> q_pc_ok (node s) qc -> q_pc_ok n' qc;
  qf_log : ent = gr ++ operation_queue n'
}.

Lemma q_move s t pc pc' n' ent gr : q_inv s -> ops s !! t = Some pc -> q_fine s t pc pc' n' ent gr ->
  q_inv (mkOpSys n' (<[t := pc']> (ops s)) ent gr).
Proof.
  intros Hi Ht [F1 F2 F3 F4 F5 F6 F7 F8 F9 F10].
  assert (Hsum : forall f, exists N, qtotal f s = N + f pc /\ qtotal f (mkOpSys n' (<[t := pc']> (ops s)) ent gr) = N + f pc').
  { intros f. destruct (sum_insert f (ops s) t pc Ht) as (N & E & E'). exists N. split; [done|apply E']. }
  split; cbn [node ops entered granted].
  - done.
  - destruct (Hsum unrefs) as (N & E & ->). pose proof (q_refs _ Hi). rewrite F3, F4. lia.
  - rewrite F2. destruct (Hsum (token (node_generation (node s)))) as (N & E & ->). pose proof (q_tokens _ Hi). lia.
  - intros u. destruct (Hsum (hands u)) as (N & E & ->). pose proof (q_hands _ Hi u) as Hu. specialize (F7 u).
    destruct (decide (u = t)) as [->|Hne].
    + rewrite Ht in Hu. rewrite list_lookup_insert_eq by (by apply lookup_lt_Some in Ht). lia.
    + rewrite list_lookup_insert_ne by done. lia.
  - intros u qc Hu. apply list_lookup_insert_Some in Hu as [(_ & <- & _)|[Hne Hu]]; [done|].
    apply (F9 u); [done..|]. by apply (q_pcs _ Hi u).
  - done.
Qed.

(** ** Lemmas on the words *)

(** Words of incarnations in range are told apart by arithmetic. *)
Ltac words :=
  exfalso; repeat match goal with
    | H : context [operation_tag ?g] |- _ => rewrite (tag_eq g) in H by lia
    | H : context [slow_tag ?g] |- _ => rewrite (slow_eq g) in H by lia
    end; lia.

Lemma not_pinned n : node_ok n -> operation_owner n <> slow_tag (node_generation n) ->
  operation_pinned n = false /\ operation_queue n = [] /\ operation_lifetime n = false.
Proof.
  intros Hn Ho. assert (Hp : operation_pinned n = false).
  { destruct (operation_pinned n) eqn:E; [|done]. by apply (n_pinned _ Hn) in E. }
  split; [done|]. split.
  - destruct (operation_queue n) eqn:E; [done|]. pose proof (n_queue _ Hn). rewrite E, Hp in *. by discriminate (H ltac:(done)).
  - destruct (operation_lifetime n) eqn:E; [|done]. apply (n_lifetime _ Hn) in E. congruence.
Qed.

Lemma owned_iff n : owned n = 1 <-> operation_owner n = operation_tag (node_generation n) \/ operation_owner n = slow_tag (node_generation n).
Proof. unfold owned. by case_decide. Qed.

Lemma pin_spec n n' : pin_operation n = Some n' -> n' = if operation_pinned n then n else set_pinned true (more_refs 1 n).
Proof. unfold pin_operation, retain. destruct (operation_pinned n); [by intros [= <-]|]. case_decide; [done|]. by intros [= <-]. Qed.

Lemma publish_spec g f n n' : publish_operation_lifetime g f n = Some n' ->
  n' = if f then set_owner (slow_tag g) (set_lifetime true (if operation_pinned n then n else set_pinned true (more_refs 1 n))) else n.
Proof.
  unfold publish_operation_lifetime. destruct f; [|by intros [= <-]]. destruct (pin_operation n) as [n1|] eqn:E; [|done].
  intros [= <-]. by rewrite (pin_spec _ _ E).
Qed.

Lemma op_error_none g env n : op_error g env n = None -> node_generation n = g /\ life n = Open.
Proof. unfold op_error. case_decide as H; [done|]. intros _. apply Decidable.not_or in H as [H1 H2]. split; by apply dec_stable. Qed.

Lemma token_unique s t u pc qc : q_inv s -> ops s !! t = Some pc -> ops s !! u = Some qc -> t <> u ->
  token (node_generation (node s)) pc = 1 -> token (node_generation (node s)) qc = 1 -> False.
Proof.
  intros Hi Ht Hu Hne Hp Hq. pose proof (q_tokens _ Hi) as H. unfold qtotal in H.
  pose proof (sum_two (token (node_generation (node s))) (ops s) t u pc qc Ht Hu Hne). unfold owned in H. case_decide; lia.
Qed.

Lemma token_owned s t pc : q_inv s -> ops s !! t = Some pc -> token (node_generation (node s)) pc = 1 -> owned (node s) = 1.
Proof.
  intros Hi Ht Hp. pose proof (q_tokens _ Hi) as H. unfold qtotal in H. pose proof (sum_ge (token (node_generation (node s))) (ops s) t pc Ht).
  unfold owned in *. case_decide; lia.
Qed.

(** Who hands the direction over owns it. *)
Lemma hands_token g u pc : 0 < hands u pc -> token g pc = 1.
Proof. destruct pc as [| | | | | | | |b [v|]|[v|]]; cbn; lia. Qed.

Lemma empty_waiters s t pc : q_inv s -> ops s !! t = Some pc -> token (node_generation (node s)) pc = 1 -> (forall u, hands u pc = 0) ->
  operation_queue (node s) = [] -> forall u qc, ops s !! u = Some qc -> queued qc = 0 /\ forall v, hands v qc = 0.
Proof.
  intros Hi Ht Hp Hh Hq.
  assert (Hnone : forall v u qc, ops s !! v = Some qc -> hands u qc = 0).
  { intros v u qc Hv. destruct (decide (0 < hands u qc)) as [Hpos|]; [|lia]. exfalso.
    assert (Hne : t <> v) by (intros ->; specialize (Hh u); rewrite Ht in Hv; injection Hv as <-; lia).
    apply (token_unique s t v pc qc); try done. by apply hands_token with u. }
  intros u qc Hu. split; [|intros v; by apply (Hnone u)]. pose proof (q_hands _ Hi u) as H. rewrite Hu, Hq in H. cbn in H.
  assert (qtotal (hands u) s = 0) by (apply sum_zero; intros v rc Hv; by apply (Hnone v)). lia.
Qed.

(** ** Steps *)

(** The thread moves and the node stays. *)
Lemma q_still s t pc pc' : q_inv s -> ops s !! t = Some pc ->
  token (node_generation (node s)) pc' = token (node_generation (node s)) pc -> unrefs pc' = unrefs pc -> queued pc' = queued pc ->
  (forall u, hands u pc' = hands u pc) -> q_pc_ok (node s) pc' -> q_inv (q_set t pc' (node s) s).
Proof.
  intros Hi Ht H1 H2 H3 H4 H5. apply (q_move s t pc); [done..|]. split; try done; try lia; try apply Hi.
  - intros u. rewrite H3, H4. lia.
Qed.

(** The node gains an owner, a pin or a lifetime. *)
Lemma rest_grows n n' : node_generation n' = node_generation n -> (operation_lifetime n = true -> operation_lifetime n' = true) ->
  (operation_pinned n = true -> operation_pinned n' = true) ->
  (operation_owner n = slow_tag (node_generation n) -> operation_owner n' = slow_tag (node_generation n)) ->
  forall qc, q_pc_ok n qc -> q_pc_ok n' qc.
Proof.
  intros Hg Hl Hp Ho qc [H1 H2]. split; [by rewrite Hg|]. rewrite Hg.
  destruct qc as [| | | |g f|g f| |g|b [v|]|[v|]]; try done; naive_solver.
Qed.

Lemma try_inv s t w g f : q_inv s -> ops s !! t = Some (QTry w g f) -> operation_owner (node s) = 0%Z ->
  q_inv (q_set t (QCheck g f) (set_owner (operation_tag g) (node s)) s).
Proof.
  intros Hi Ht Ho. pose proof (q_node _ Hi) as Hn. pose proof (n_generation _ Hn) as Hg. unfold gen_ok in Hg.
  destruct (q_pcs _ Hi t _ Ht) as [G _]. specialize (G g eq_refl).
  destruct (not_pinned _ Hn) as (P1 & P2 & P3); [rewrite Ho; intros E; words|].
  apply (q_move s t (QTry w g f)); [done..|]. split; cbn; rewrite ?P1, ?P2, ?P3; try done; try lia.
  - split; cbn; rewrite ?P1, ?P2, ?P3; try done; try apply Hn.
    + split; [done|]. intros E. words.
    + right. left. by exists g.
  - unfold owned. cbn. rewrite Ho. rewrite (decide_False (P := 0%Z = _ \/ _)) by (intros [E|E]; words).
    case_decide as E; case_decide as E'; try done; exfalso.
    + apply E'. left. by rewrite E.
    + destruct E' as [E'|E']; [|words]. apply E. rewrite !tag_eq in E' by lia. lia.
  - split; [by intros g' [= <-]|done].
  - intros u qc _ _. apply rest_grows; try done. rewrite Ho. intros E. words.
  - rewrite (q_log _ Hi), P2. done.
Qed.

(** The slow path of a direction that is owned. *)
Definition slowed (lt : bool) (n : Node) : Node :=
  mkNode (node_generation n) (node_refs n + (if operation_pinned n then 0 else 1)) (life n) (others n) (slow_tag (node_generation n))
    true (operation_queue n) lt.

Lemma slowed_ok lt n : node_ok n -> life n <> Free -> node_ok (slowed lt n).
Proof. intros [] Hl. split; cbn; try done. by right; right. Qed.

Lemma slowed_rest lt n : (operation_lifetime n = true -> lt = true) -> forall qc, q_pc_ok n qc -> q_pc_ok (slowed lt n) qc.
Proof. intros Hlt. by apply rest_grows. Qed.

Lemma slowed_owned lt n : owned (slowed lt n) = 1.
Proof. apply owned_iff. by right. Qed.

Lemma pin_slowed n : set_owner (slow_tag (node_generation n)) (set_lifetime true (if operation_pinned n then n else set_pinned true (more_refs 1 n))) =
  slowed true n.
Proof. destruct n as [g r l o w [] q lt]; cbn; [|done]. unfold set_owner, set_lifetime, slowed. cbn. by rewrite Z.add_0_r. Qed.

Lemma check_inv s t g f env r : q_inv s -> ops s !! t = Some (QCheck g f) -> validate g f env (node s) = Some r ->
  q_inv (q_set t (match r.1 with Some _ => QReset g | None => QHold g f end) r.2 s).
Proof.
  intros Hi Ht H. pose proof (q_node _ Hi) as Hn. destruct (q_pcs _ Hi t _ Ht) as [G _]. unfold validate in H.
  assert (Hsame : forall e : option Error, q_inv (q_set t (QReset g) (node s) s) /\ (f = false -> q_inv (q_set t (match e with Some _ => QReset g | None => QHold g f end) (node s) s))).
  { intros e. assert (q_inv (q_set t (QReset g) (node s) s)) by (by apply (q_still s t (QCheck g f))). split; [done|].
    intros ->. destruct e; [done|]. by apply (q_still s t (QCheck g false)). }
  destruct f; [|by injection H as <-; apply (Hsame _)].
  destruct (op_error g env (node s)) as [e|] eqn:E; [injection H as <-; by apply (Hsame None)|].
  case_decide as Ho; [injection H as <-; by apply (Hsame None)|].
  destruct (publish_operation_lifetime g true (node s)) as [n'|] eqn:Ep; [|done]. injection H as <-. cbn.
  apply op_error_none in E as [Eg El]. subst g. rewrite (publish_spec _ _ _ _ Ep), pin_slowed.
  assert (Ho1 : owned (node s) = 1) by (apply (token_owned s t _ Hi Ht); cbn; by rewrite decide_True).
  apply (q_move s t (QCheck (node_generation (node s)) true)); [done..|]. split; cbn -[token times]; try done.
  - apply slowed_ok; [done|]. by rewrite El.
  - destruct (operation_pinned (node s)); cbn; lia.
  - rewrite slowed_owned, Ho1. done.
  - intros u qc _ _. by apply slowed_rest.
  - apply Hi.
Qed.

Lemma times_cons u v q : times u (v :: q) = (if decide (v = u) then 1 else 0) + times u q.
Proof. done. Qed.

Lemma times_app u q q' : times u (q ++ q') = times u q + times u q'.
Proof. unfold times. induction q as [|v q IH]; cbn; [done|]. rewrite IH. lia. Qed.

Lemma suspend_inv s t g f env r : q_inv s -> ops s !! t = Some (QSuspend g f) -> op_suspend t g f env (node s) = Some r ->
  q_inv match r.1 with
        | Refused _ => q_set t QRest r.2 s
        | Owner => q_set t (QHold g f) r.2 s
        | Queued => mkOpSys r.2 (<[t := QQueued g f]> (ops s)) (entered s ++ [t]) (granted s)
        end.
Proof.
  intros Hi Ht H. pose proof (q_node _ Hi) as Hn. pose proof (n_generation _ Hn) as Hg. unfold gen_ok in Hg.
  destruct (q_pcs _ Hi t _ Ht) as [G _]. unfold op_suspend in H.
  assert (Hsame : q_inv (q_set t QRest (node s) s)) by (by apply (q_still s t (QSuspend g f))).
  destruct (op_error g env (node s)) as [e|] eqn:E; [by injection H as <-|]. apply op_error_none in E as [Eg El]. subst g.
  case_decide as Ho.
  - destruct (publish_operation_lifetime _ f _) as [n'|] eqn:Ep; [|done]. injection H as <-. cbn.
    apply publish_spec in Ep. destruct (not_pinned _ Hn) as (P1 & P2 & P3); [rewrite Ho; intros E; words|].
    set (n1 := set_owner (operation_tag (node_generation (node s))) (node s)) in *.
    assert (Hn1 : node_ok n1).
    { split; cbn; rewrite ?P1, ?P2, ?P3; try done; try apply Hn.
      - split; [done|]. intros E. words.
      - right. left. exists (node_generation (node s)). split; [lia|done]. }
    assert (Ho0 : owned (node s) = 0) by (unfold owned; rewrite Ho, decide_False; [done|intros [E|E]; words]).
    assert (Hr : forall n2, operation_queue n2 = operation_queue (node s) -> node_generation n2 = node_generation (node s) ->
      forall u qc, u <> t -> ops s !! u = Some qc -> q_pc_ok (node s) qc -> q_pc_ok n2 qc).
    { intros n2 _ E2 u qc _ Hu. apply rest_grows; [done|by rewrite P3|by rewrite P1|]. rewrite Ho. intros E. words. }
    destruct f.
    + change (slow_tag (node_generation (node s))) with (slow_tag (node_generation n1)) in Ep. rewrite pin_slowed in Ep. subst n'. apply (q_move s t (QSuspend (node_generation (node s)) true)); [done..|].
      split; cbn -[token times]; rewrite ?P1, ?P2; try done.
      * apply (slowed_ok true n1); [done|]. cbn. by rewrite El.
      * cbn. lia.
      * rewrite slowed_owned, Ho0. cbn. by rewrite decide_True.
      * by apply Hr.
      * by rewrite (q_log _ Hi), P2.
    + subst n'. apply (q_move s t (QSuspend (node_generation (node s)) false)); [done..|].
      split; cbn -[token times]; rewrite ?P1, ?P2; try done.
      * cbn. rewrite (proj2 (owned_iff n1)) by (by left). rewrite Ho0. by rewrite decide_True.
      * by apply Hr.
      * by rewrite (q_log _ Hi), P2.
  - case_decide as Hw; [by injection H as <-|].
    destruct (pin_operation _) as [n1|] eqn:Ep; [|done]. cbn [mbind option_bind] in H.
    destruct (publish_operation_lifetime _ f n1) as [n2|] eqn:Eq; [|done]. cbn [mbind option_bind] in H.
    destruct (retain n2) as [n3|] eqn:Er; [|done]. injection H as <-. cbn.
    assert (E2 : n2 = slowed (f || operation_lifetime (node s)) (node s)).
    { apply pin_spec in Ep. apply publish_spec in Eq. subst n2 n1. unfold slowed. destruct (node s) as [? ? ? ? ? [] ? ?], f; cbn; rewrite ?Z.add_0_r; done. }
    assert (E3 : n3 = more_refs 1 n2) by (unfold retain in Er; case_decide; [done|by injection Er as <-]). subst n3 n2.
    assert (Hlo : forall lt, node_ok (slowed lt (node s))) by (intros lt; apply slowed_ok; [done|by rewrite El]).
    assert (Ho1 : owned (node s) = 1).
    { apply owned_iff. destruct (decide (operation_owner (node s) = operation_tag (node_generation (node s)))); [by left|].
      destruct (decide (operation_owner (node s) = slow_tag (node_generation (node s)))); [by right|]. by destruct Hw. }
    apply (q_move s t (QSuspend (node_generation (node s)) f)); [done..|]. split; cbn -[token times]; try done.
    + destruct (Hlo (f || operation_lifetime (node s))) as [L1 L2 L3 L4 L5 L6]. split; cbn in *; try done. by rewrite El.
    + rewrite length_app. cbn. destruct (operation_pinned (node s)); cbn; lia.
    + rewrite Ho1. cbn. symmetry. apply (slowed_owned (f || operation_lifetime (node s)) (node s)).
    + intros u. rewrite times_app. cbn. repeat case_decide; subst; try done; lia.
    + split; [exact G|]. cbn. split; [done|]. by intros ->.
    + intros u qc _ _ Hq. destruct (slowed_rest (f || operation_lifetime (node s)) (node s)) with qc as [R1 R2]; [by intros ->; destruct f|done|].
      by split.
    + by rewrite (q_log _ Hi), app_assoc.
Qed.

Lemma reset_inv s t g : q_inv s -> ops s !! t = Some (QReset g) ->
  q_inv (if decide (operation_owner (node s) = operation_tag g) then q_set t QRest (set_owner 0 (node s)) s
         else q_set t (QRelease g) (node s) s).
Proof.
  intros Hi Ht. pose proof (q_node _ Hi) as Hn. pose proof (n_generation _ Hn) as Hg. unfold gen_ok in Hg.
  destruct (q_pcs _ Hi t _ Ht) as [G _]. specialize (G g eq_refl). case_decide as Ho.
  - destruct (not_pinned _ Hn) as (P1 & P2 & P3); [rewrite Ho; intros E; words|].
    apply (q_move s t (QReset g)); [done..|]. split; cbn -[token times]; rewrite ?P1, ?P2; try done; try lia.
    + split; cbn; rewrite ?P1, ?P2, ?P3; try done; try apply Hn; [|by left]. split; [done|]. intros E. words.
    + cbn. unfold owned. cbn. rewrite Ho. rewrite (decide_False (P := 0%Z = _ \/ _)) by (intros [E|E]; words).
      case_decide as Eg; case_decide as E'; try done; exfalso.
      * destruct Eg as [Eg|Eg]; [|words]. apply E'. rewrite !tag_eq in Eg by lia. lia.
      * apply Eg. left. by rewrite E'.
    + intros u qc _ _. apply rest_grows; try done. rewrite Ho. intros E. words.
    + by rewrite (q_log _ Hi), P2.
  - apply (q_still s t (QReset g)); try done. split; [by intros g' [= <-]|]. intros ->.
    pose proof (token_owned s t _ Hi Ht) as Hw. cbn in Hw. rewrite decide_True in Hw by done.
    apply owned_iff in Hw as [?|?]; done.
Qed.

Lemma release_op_inv s t g b next n' : q_inv s -> ops s !! t = Some (QRelease g) -> release_operation g (node s) = (b, next, n') ->
  q_inv (mkOpSys n' (<[t := QUnref b next]> (ops s)) (entered s) (granted s ++ option_list next)).
Proof.
  intros Hi Ht H. pose proof (q_node _ Hi) as Hn. pose proof (n_generation _ Hn) as Hg. unfold gen_ok in Hg.
  destruct (q_pcs _ Hi t _ Ht) as [_ Gs]. unfold release_operation in H. case_decide as Eg.
  - injection H as <- <- <-. cbn [option_list]. rewrite app_nil_r. apply (q_still s t (QRelease g)); try done. cbn. by rewrite decide_False by congruence.
  - subst g. specialize (Gs eq_refl). pose proof (proj2 (n_pinned _ Hn) Gs) as Hp.
    assert (Htok : token (node_generation (node s)) (QRelease (node_generation (node s))) = 1) by (cbn; by rewrite decide_True).
    pose proof (token_owned s t _ Hi Ht Htok) as Ho. destruct (operation_queue (node s)) as [|v q] eqn:Eq; injection H as <- <- <-; rewrite Hp.
    + apply (q_move s t (QRelease (node_generation (node s)))); [done..|]. split; cbn -[token times]; rewrite ?Hp, ?Eq; try done; try lia.
      * split; cbn; try done; try apply Hn; [|by left]. split; [done|]. intros E. words.
      * rewrite Htok, Ho. cbn. unfold owned. cbn. rewrite decide_False; [done|]. intros [E|E]; words.
      * intros u qc Hne Hu [R1 R2]. split; [done|]. cbn.
        destruct (empty_waiters s t _ Hi Ht Htok ltac:(done) Eq u qc Hu) as [Hq Hh].
        assert (Hnt : token (node_generation (node s)) qc <> 1) by (intros E; by apply (token_unique s t u _ _ Hi Ht Hu)).
        destruct qc as [| | | |g f|g f| |g|b [v|]|[v|]]; cbn in *; try done.
        -- intros ->. by rewrite decide_True in Hnt by done.
        -- intros ->. by rewrite decide_True in Hnt by done.
      * by rewrite (q_log _ Hi), Eq, !app_nil_r.
    + apply (q_move s t (QRelease (node_generation (node s)))); [done..|]. split; cbn -[token times]; rewrite ?Hp, ?Eq; try done; try lia.
      * destruct Hn as [N1 N2 N3 N4 N5 N6]. split; cbn; try done.
      * cbn. lia.
      * rewrite Htok. done.
      * intros u. rewrite times_cons. cbn -[times]. repeat case_decide; subst; lia.
      * by rewrite (q_log _ Hi), Eq, <- app_assoc.
Qed.

Lemma unref_inv s t b next : q_inv s -> ops s !! t = Some (QUnref b next) ->
  q_inv (q_set t (QDispatch next) (if b then more_refs (-1) (node s) else node s) s).
Proof.
  intros Hi Ht. destruct (q_pcs _ Hi t _ Ht) as [_ G]. pose proof (q_node _ Hi) as Hn. destruct b.
  - apply (q_move s t (QUnref true next)); [done..|]. split; cbn -[token times]; try done; try lia.
    + destruct Hn as [N1 N2 N3 N4 N5 N6]. split; cbn; try done. intros El. specialize (N5 El).
      pose proof (q_refs _ Hi) as Hr. pose proof (sum_ge unrefs (ops s) t _ Ht). unfold qtotal in Hr. cbn in *. lia.
    + split; [done|]. destruct next; [apply G|done].
    + apply Hi.
  - apply (q_still s t (QUnref false next)); try done. split; [done|]. destruct next; [apply G|done].
Qed.

Lemma dispatch_inv s t u g f : q_inv s -> ops s !! t = Some (QDispatch (Some u)) -> ops s !! u = Some (QQueued g f) ->
  q_inv (mkOpSys (node s) (<[t := QRest]> (<[u := QHold g f]> (ops s))) (entered s) (granted s)).
Proof.
  intros Hi Ht Hu. assert (Hne : t <> u) by congruence. pose proof (q_node _ Hi) as Hn.
  destruct (q_pcs _ Hi u _ Hu) as [G1 [-> G2]].
  assert (Hsum : forall h, exists N, qtotal h s = N + h (QDispatch (Some u)) + h (QQueued (node_generation (node s)) f) /\
    sum_list (map h (<[t := QRest]> (<[u := QHold (node_generation (node s)) f]> (ops s)))) = N + h QRest + h (QHold (node_generation (node s)) f)).
  { intros h. destruct (sum_insert h (ops s) u _ Hu) as (N & E & E').
    destruct (sum_insert h (<[u := QHold (node_generation (node s)) f]> (ops s)) t (QDispatch (Some u))) as (N' & F & F').
    { by rewrite list_lookup_insert_ne. }
    rewrite E' in F. exists (N - h (QDispatch (Some u))). unfold qtotal. rewrite E, F'.
    assert (h (QDispatch (Some u)) <= N); [|lia].
    pose proof (sum_two h (ops s) t u _ _ Ht Hu Hne). lia. }
  split; cbn [node ops entered granted]; try apply Hi.
  - destruct (Hsum unrefs) as (N & E & E'). pose proof (q_refs _ Hi). unfold qtotal in *. cbn [ops]. rewrite E'. cbn in *. lia.
  - destruct (Hsum (token (node_generation (node s)))) as (N & E & E'). rewrite <- (q_tokens _ Hi), E. unfold qtotal. cbn [ops]. rewrite E'.
    cbn. rewrite decide_True by done. lia.
  - intros v. destruct (Hsum (hands v)) as (N & E & E'). pose proof (q_hands _ Hi v) as Hv. unfold qtotal in *. cbn [ops]. rewrite E'. cbn in *.
    destruct (decide (v = t)) as [->|Hvt].
    + rewrite list_lookup_insert_eq by (rewrite length_insert; by apply lookup_lt_Some in Ht). rewrite Ht in Hv. cbn in *. rewrite decide_False in E by done. lia.
    + rewrite list_lookup_insert_ne by done. destruct (decide (v = u)) as [->|Hvu].
      * rewrite list_lookup_insert_eq by (by apply lookup_lt_Some in Hu). rewrite Hu in Hv. cbn in *. rewrite decide_True in E by done. lia.
      * rewrite list_lookup_insert_ne by done. rewrite decide_False in E by done. lia.
  - intros v qc Hv. apply list_lookup_insert_Some in Hv as [(_ & <- & _)|[_ Hv]]; [done|].
    apply list_lookup_insert_Some in Hv as [(_ & <- & _)|[_ Hv]]; [|by apply (q_pcs _ Hi v)]. split; [done|]. by intros _.
Qed.

(** The node changes around the operations. *)
Lemma around_same s n' : q_inv s -> node_generation n' = node_generation (node s) -> operation_owner n' = operation_owner (node s) ->
  operation_pinned n' = operation_pinned (node s) -> operation_queue n' = operation_queue (node s) ->
  operation_lifetime n' = operation_lifetime (node s) -> (life n' = Free -> node_refs n' = 0%Z) ->
  (node_refs n' - Z.of_nat (socket_ref (life n') + others n') = node_refs (node s) - Z.of_nat (socket_ref (life (node s)) + others (node s)))%Z ->
  q_inv (mkOpSys n' (ops s) (entered s) (granted s)).
Proof.
  intros [[N1 N2 N3 N4 N5 N6] H2 H3 H4 H5 H6] Eg Eo Ep Eq El Hf Hr.
  split; unfold owned, qtotal in *; cbn [node ops entered granted]; rewrite ?Eg, ?Eo, ?Ep, ?Eq; try done.
  - split; unfold gen_ok; rewrite ?Eg, ?Eo, ?Ep, ?Eq, ?El; done.
  - lia.
  - intros t pc Ht. destruct (H5 t pc Ht) as [G1 G2]. split; [by rewrite Eg|]. destruct pc; by rewrite ?Eg, ?Eo, ?Ep, ?El.
Qed.

(** Nobody refers to the node: nothing is queued or handed over. *)
Lemma unreferenced s : q_inv s -> node_refs (node s) = 0%Z ->
  operation_pinned (node s) = false /\ operation_queue (node s) = [] /\ operation_lifetime (node s) = false /\ others (node s) = 0 /\
  forall t pc, ops s !! t = Some pc -> unrefs pc = 0 /\ queued pc = 0 /\ forall g, token g pc = match pc with QUnref _ _ | QDispatch _ => 0 | _ => token g pc end.
Proof.
  intros Hi Hz. pose proof (q_refs _ Hi) as Hr. rewrite Hz in Hr. pose proof (q_node _ Hi) as Hn.
  assert (Hp : operation_pinned (node s) = false) by (destruct (operation_pinned (node s)); [cbn in Hr; lia|done]).
  assert (Hno : forall t pc, ops s !! t = Some pc -> forall u, hands u pc = 0).
  { intros t pc Ht u. destruct (q_pcs _ Hi t pc Ht) as [_ G]. destruct pc as [| | | | | | | |b [v|]|[v|]]; try done; cbn.
    - destruct G; congruence.
    - congruence. }
  assert (Hq : operation_queue (node s) = []) by (destruct (operation_queue (node s)); [done|cbn in Hr; lia]).
  split; [done|]. split; [done|]. split; [destruct (operation_lifetime (node s)) eqn:E; [apply (n_lifetime _ Hn) in E; congruence|done]|].
  split; [lia|]. intros t pc Ht. pose proof (sum_ge unrefs (ops s) t pc Ht) as Hu. unfold qtotal in Hr. split; [lia|]. split.
  - pose proof (q_hands _ Hi t) as Hh. rewrite Ht, Hq in Hh. cbn in Hh.
    assert (qtotal (hands t) s = 0) by (apply sum_zero; intros v rc Hv; by apply (Hno v)). lia.
  - intros g. destruct (q_pcs _ Hi t pc Ht) as [_ G]. destruct pc as [| | | | | | | |b [v|]|[v|]]; try done; cbn in *; [destruct G|]; congruence.
Qed.

Lemma recycle_inv s : q_inv s -> node_refs (node s) = 0%Z -> (node_generation (node s) <= u32 (node_generation (node s) + 1))%Z ->
  q_inv (mkOpSys (mkNode (u32 (node_generation (node s) + 1)) (node_refs (node s)) Free (others (node s)) 0 (operation_pinned (node s))
    (operation_queue (node s)) (operation_lifetime (node s))) (ops s) (entered s) (granted s)).
Proof.
  intros Hi Hz Hle. pose proof (n_generation _ (q_node _ Hi)) as Hg. unfold gen_ok in Hg.
  assert (Eg : u32 (node_generation (node s) + 1) = (node_generation (node s) + 1)%Z /\ (node_generation (node s) + 1 < 2 ^ 32)%Z).
  { destruct (decide (node_generation (node s) + 1 < 2 ^ 32)%Z) as [|E]; [split; [apply wrap_small; unfold in_range; lia|done]|].
    assert (node_generation (node s) = 2 ^ 32 - 1)%Z as E1 by lia. rewrite E1 in Hle. by vm_compute in Hle. }
  destruct Eg as [-> Hlt]. destruct (unreferenced s Hi Hz) as (P1 & P2 & P3 & P4 & P5).
  destruct Hi as [_ H2 H3 H4 H5 H6]. split; unfold qtotal in *; cbn [node ops entered granted]; rewrite ?P1, ?P2, ?P3, ?P4, ?Hz.
  - split; cbn; try done; [unfold gen_ok; cbn; lia| |by left]. split; [done|]. intros E. words.
  - cbn. symmetry. assert (E : sum_list (map unrefs (ops s)) = 0) by (apply sum_zero; intros t pc Ht; by apply (P5 t)). by rewrite E.
  - cbn. unfold owned. cbn. rewrite decide_False by (intros [E|E]; words). apply sum_zero. intros t pc Ht.
    destruct (P5 t pc Ht) as (_ & _ & E). rewrite E. destruct (H5 t pc Ht) as [G _].
    destruct pc; try done; cbn; rewrite decide_False; try done; specialize (G _ eq_refl); lia.
  - intros t. cbn. specialize (H4 t). rewrite P2 in H4. exact H4.
  - intros t pc Ht. destruct (H5 t pc Ht) as [G1 G2]. destruct (P5 t pc Ht) as (U1 & U2 & U3). split; cbn.
    + intros g E. specialize (G1 g E). lia.
    + destruct pc as [| | | |g f|g f| |g|b [v|]|[v|]]; try done; cbn in *.
      * specialize (G1 g eq_refl). lia.
      * specialize (G1 g eq_refl). lia.
      * destruct G2. congruence.
      * congruence.
  - by rewrite H6, P2.
Qed.

Lemma around_inv s a n : q_inv s -> around a (node s) = Some n -> (node_generation (node s) <= node_generation n)%Z ->
  q_inv (mkOpSys n (ops s) (entered s) (granted s)).
Proof.
  intros Hi H Hle. unfold around in H. pose proof (q_refs _ Hi) as Hr. pose proof (q_node _ Hi) as Hn.
  destruct a, (life (node s)) eqn:El; try done; try (case_decide as Hd; [|done]); try (destruct (others (node s)) eqn:Eo; [done|]); injection H as <-;
    try (by apply recycle_inv); apply (around_same s); cbn; rewrite ?El, ?Eo; cbn [socket_ref]; try done; try lia.
  pose proof (n_free _ Hn El) as Hz. destruct (unreferenced s Hi Hz) as (_ & _ & _ & -> & _). lia.
Qed.

(** ** Reachable states *)

(** A step in which the generation does not wrap. *)
Definition q_forward (s s' : OpSys) : Prop := iq_step s s' /\ (node_generation (node s) <= node_generation (node s'))%Z.

Lemma q_act_inv s t w f env s' : q_inv s -> q_act t w f env s = Some s' -> q_inv s'.
Proof.
  intros Hi H. unfold q_act in H. destruct (ops s !! t) as [pc|] eqn:Ht; [|done]. cbn [mbind option_bind] in H.
  destruct pc as [|w' g f'|g f'|g f'|g f'|g f'|g|g|b next|[u|]]; try done.
  - assert (Hq : q_inv (q_set t (QTry w (node_generation (node s)) f) (node s) s)).
    { apply (q_still s t QRest); try done. split; [|done]. intros g [= <-]. pose proof (n_generation _ (q_node _ Hi)) as Hg. unfold gen_ok in Hg. lia. }
    destruct (life (node s)); try done; by injection H as <-.
  - case_decide as Ho; injection H as <-; [by eapply try_inv|]. destruct (q_pcs _ Hi t _ Ht) as [G _].
    destruct w'; [by apply (q_still s t (QTry true g f'))|by apply (q_still s t (QTry false g f'))].
  - destruct (validate g f' env (node s)) as [r|] eqn:E; [|done]. injection H as <-. by eapply check_inv.
  - destruct (op_suspend t g f' env (node s)) as [r|] eqn:E; [|done]. cbn [mbind option_bind] in H.
    pose proof (suspend_inv s t g f' env r Hi Ht E) as Hs. destruct (r.1); by injection H as <-.
  - injection H as <-. destruct (q_pcs _ Hi t _ Ht) as [G _]. by apply (q_still s t (QHold g f')).
  - pose proof (reset_inv s t g Hi Ht) as Hs. case_decide; by injection H as <-.
  - destruct (release_operation g (node s)) as [[b next] n'] eqn:E. injection H as <-. by eapply release_op_inv.
  - injection H as <-. by eapply unref_inv.
  - destruct (ops s !! u) as [qc|] eqn:Hu; [|done]. cbn [mbind option_bind] in H. destruct qc; try done. injection H as <-. by eapply dispatch_inv.
  - injection H as <-. by apply (q_still s t (QDispatch None)).
Qed.

Lemma q_forward_inv s s' : q_inv s -> q_forward s s' -> q_inv s'.
Proof. intros Hi [Hs Hle]. destruct Hs as [t w f env s s' H|a s n H]; [by apply (q_act_inv s t w f env s')|by apply (around_inv s a n)]. Qed.

Definition q_reachable (count : nat) (s : OpSys) : Prop := rtc q_forward (q_init count) s.

Lemma iq_reachable_inv count s : q_reachable count s -> q_inv s.
Proof.
  intros H. assert (H0 : q_inv (q_init count)).
  { assert (Hz : forall f, f QRest = 0 -> sum_list (map f (replicate count QRest)) = 0).
    { intros f Hf. apply sum_zero. by intros t pc [-> _]%lookup_replicate. }
    split; cbn; unfold qtotal; cbn [ops q_init]; rewrite ?Hz; try done.
    - split; cbn; try done; by left.
    - intros t. rewrite Hz by done. destruct (replicate count QRest !! t) as [pc|] eqn:E; [|done]. by apply lookup_replicate in E as [-> _].
    - intros t pc [-> _]%lookup_replicate. by split. }
  unfold q_reachable in H. revert H0. generalize dependent (q_init count). intros s0 H H0.
  induction H as [s|s s1 s2 Hs _ IH]; [done|]. apply IH. by apply (q_forward_inv s).
Qed.

(** * What the operation queue promises

    One operation of an incarnation at a time, in the order of arrival; an
    operation that ends hands the direction to the next; and a run in which an
    operation of a socket that is gone refuses one of the socket that took its
    node. *)

(** C7: complete operations of one incarnation and direction exclude each other
    and are admitted in the order in which they queued, none twice; a queue always
    hangs behind an owner whose reference keeps the node from being recycled,
    and that owner is at work or handing the direction over to a waiter that is
    there; an operation from another runtime keeps the descriptor's runtime
    alive; and a node without references has no queue and no pin. *)
Theorem operations_exclusive_fifo count s (n := node s) : q_reachable count s ->
  (forall t u f f', ops s !! t = Some (QHold (node_generation n) f) -> ops s !! u = Some (QHold (node_generation n) f') -> t = u) /\
  (forall t, ops s !! t = Some (QHold (node_generation n) true) -> operation_lifetime n = true) /\
  entered s = granted s ++ operation_queue n /\
  (operation_queue n <> [] -> (0 < node_refs n)%Z /\ exists t pc, ops s !! t = Some pc /\ token (node_generation n) pc = 1) /\
  (forall t u, ops s !! t = Some (QDispatch (Some u)) -> exists f, ops s !! u = Some (QQueued (node_generation n) f)) /\
  (node_refs n = 0%Z -> operation_queue n = [] /\ operation_pinned n = false /\ operation_lifetime n = false).
Proof.
  intros Hr. pose proof (iq_reachable_inv count s Hr) as Hi. pose proof (q_node _ Hi) as Hn. subst n. split_and!.
  - intros t u f f' Ht Hu. destruct (decide (t = u)) as [|Hne]; [done|]. exfalso.
    apply (token_unique s t u _ _ Hi Ht Hu Hne); cbn; by rewrite decide_True.
  - intros t Ht. destruct (q_pcs _ Hi t _ Ht) as [_ G]. by apply G.
  - apply Hi.
  - intros Hq. pose proof (n_queue _ Hn Hq) as Hp. pose proof (q_refs _ Hi) as Hrf. rewrite Hp in Hrf. cbn in Hrf. split; [lia|].
    apply (n_pinned _ Hn) in Hp. pose proof (q_tokens _ Hi) as Ht. rewrite (proj2 (owned_iff _)) in Ht by (by right).
    destruct (sum_pos (token (node_generation (node s))) (ops s)) as (t & pc & Hpc & Hpos); [unfold qtotal in Ht; lia|].
    exists t, pc. split; [done|]. pose proof (sum_ge (token (node_generation (node s))) (ops s) t pc Hpc). unfold qtotal in Ht. lia.
  - intros t u Ht. pose proof (q_hands _ Hi u) as Hh. pose proof (sum_ge (hands u) (ops s) t _ Ht) as Hg. unfold qtotal in Hh. cbn in Hg.
    rewrite decide_True in Hg by done. destruct (ops s !! u) as [pc|] eqn:Hu; [|lia].
    destruct pc; cbn in Hh; try lia. destruct (q_pcs _ Hi u _ Hu) as [_ [-> _]]. by eexists.
  - intros Hz. by destruct (unreferenced s Hi Hz) as (? & ? & ? & _).
Qed.

(** Steps of thread [t] alone. *)
Definition q_solo (t : nat) (s s' : OpSys) : Prop := exists w f env, q_act t w f env s = Some s'.

(** An operation that ends hands the direction to the waiter at the head of
    its queue: running alone it gives the word back, releases its pin and makes
    that waiter the owner, whoever the waiter is and however the socket has
    closed meanwhile; the waiters behind it keep their order. *)
Theorem operation_hands_over count s t f u q (g := node_generation (node s)) : q_reachable count s ->
  ops s !! t = Some (QHold g f) -> operation_queue (node s) = u :: q ->
  exists s' f', rtc (q_solo t) s s' /\ ops s' !! u = Some (QHold g f') /\ ops s' !! t = Some QRest /\ operation_queue (node s') = q.
Proof.
  intros Hr Ht Hq. pose proof (iq_reachable_inv count s Hr) as Hi. pose proof (q_node _ Hi) as Hn. pose proof (n_generation _ Hn) as Hg.
  unfold gen_ok in Hg. assert (Hp : operation_pinned (node s) = true) by (apply (n_queue _ Hn); by rewrite Hq).
  pose proof (proj1 (n_pinned _ Hn) Hp) as Ho. pose proof (lookup_lt_Some _ _ _ Ht) as Hlt.
  assert (Hu : exists f', ops s !! u = Some (QQueued g f')).
  { pose proof (q_hands _ Hi u) as Hh. rewrite Hq, times_cons, decide_True in Hh by done.
    destruct (ops s !! u) as [pc|] eqn:Hu; [|lia]. destruct pc; cbn in Hh; try lia. destruct (q_pcs _ Hi u _ Hu) as [_ [-> _]]. by eexists. }
  destruct Hu as [f' Hu]. assert (Hne : u <> t) by congruence. pose proof (lookup_lt_Some _ _ _ Hu) as Hlu.
  set (s1 := q_set t (QReset g) (node s) s). set (s2 := q_set t (QRelease g) (node s) s1).
  set (n3 := set_queue q (node s)). set (s3 := mkOpSys n3 (<[t := QUnref true (Some u)]> (ops s2)) (entered s) (granted s ++ [u])).
  set (s4 := q_set t (QDispatch (Some u)) (more_refs (-1) n3) s3).
  set (s5 := mkOpSys (node s4) (<[t := QRest]> (<[u := QHold g f']> (ops s4))) (entered s4) (granted s4)).
  assert (L1 : ops s1 !! t = Some (QReset g)) by (by apply list_lookup_insert_eq).
  assert (L2 : ops s2 !! t = Some (QRelease g)) by (apply list_lookup_insert_eq; cbn; by rewrite ?length_insert).
  assert (L3 : ops s3 !! t = Some (QUnref true (Some u))) by (apply list_lookup_insert_eq; cbn; by rewrite ?length_insert).
  assert (L4 : ops s4 !! t = Some (QDispatch (Some u))) by (apply list_lookup_insert_eq; cbn; by rewrite ?length_insert).
  assert (L4' : ops s4 !! u = Some (QQueued g f')) by (cbn; by rewrite !list_lookup_insert_ne by done).
  exists s5, f'. split_and!.
  - apply (rtc_l _ s s1); [exists false, false, None; unfold q_act; by rewrite Ht|].
    apply (rtc_l _ s1 s2); [exists false, false, None; unfold q_act; rewrite L1; cbn; rewrite decide_False; [done|]; intros E; rewrite Ho in E; words|].
    apply (rtc_l _ s2 s3).
    { exists false, false, None. unfold q_act. rewrite L2. cbn. unfold release_operation. by rewrite decide_False, Hq, Hp by (by intros []). }
    apply (rtc_l _ s3 s4); [exists false, false, None; unfold q_act; by rewrite L3|].
    apply rtc_once. exists false, false, None. unfold q_act. rewrite L4. cbn [mbind option_bind]. by rewrite L4'.
  - cbn. rewrite list_lookup_insert_ne by done. apply list_lookup_insert_eq. by rewrite !length_insert.
  - cbn. apply list_lookup_insert_eq. by rewrite !length_insert.
  - done.
Qed.

(** ** Runs *)

Inductive QMove := QAct (t : nat) (wait foreign : bool) | QAround (a : Around).

Definition q_go (t : nat) : QMove := QAct t true false.

Definition q_move_of (m : QMove) (s : OpSys) : option OpSys :=
  match m with
  | QAct t w f => q_act t w f None s
  | QAround a => n ← around a (node s); Some (mkOpSys n (ops s) (entered s) (granted s))
  end.

Fixpoint q_moves (ms : list QMove) (s : OpSys) : option OpSys :=
  match ms with
  | [] => Some s
  | m :: ms =>
      s' ← q_move_of m s;
      if decide (node_generation (node s) <= node_generation (node s'))%Z then q_moves ms s' else None
  end.

Lemma q_moves_steps ms s s' : q_moves ms s = Some s' -> rtc q_forward s s'.
Proof.
  revert s. induction ms as [|m ms IH]; intros s H; simpl in H; [by injection H as ->|].
  destruct (q_move_of m s) as [s1|] eqn:E; [|done]. cbn [mbind option_bind] in H. case_decide as Hle; [|done].
  eapply rtc_l; [|by apply IH]. split; [|done]. destruct m as [t w f|a]; cbn in E; [by eapply qs_act|].
  destruct (around a (node s)) as [n|] eqn:Ea; [|done]. injection E as <-. by eapply qs_around.
Qed.

Definition q_run (count : nat) (ms : list QMove) : OpSys := default (q_init count) (q_moves ms (q_init count)).

Lemma q_run_reachable count ms : q_reachable count (q_run count ms).
Proof. unfold q_reachable, q_run. destruct (q_moves ms (q_init count)) as [s|] eqn:E; [by eapply q_moves_steps|done]. Qed.

(** Thread 0 owns the direction, threads 1 and 2 queue behind it. *)
Definition q_contended : OpSys :=
  q_run 3 ([QAround Attach; q_go 0; q_go 0; q_go 0] ++ [QAct 1 true true; q_go 1; q_go 1] ++ [q_go 2; q_go 2; q_go 2]).

Lemma operations_exclusive_fifo_witness :
  ops q_contended = [QHold 0 false; QQueued 0 true; QQueued 0 false] /\ entered q_contended = [1; 2] /\
  entered q_contended = granted q_contended ++ operation_queue (node q_contended).
Proof.
  split; [by vm_compute|]. split; [by vm_compute|].
  destruct (operations_exclusive_fifo 3 q_contended (q_run_reachable _ _)) as (_ & _ & H & _). exact H.
Defined.

Lemma operation_hands_over_witness :
  operation_queue (node q_contended) = [1; 2] /\
  exists s' f', rtc (q_solo 0) q_contended s' /\ ops s' !! 1 = Some (QHold 0 f').
Proof.
  split; [by vm_compute|].
  destruct (operation_hands_over 3 q_contended 0 false 1 [2]) as (s' & f' & R & H & _);
    [apply q_run_reachable|by vm_compute|by vm_compute|by exists s', f'].
Defined.

(** An operation of a socket that is closed takes the word of the free node
    with its old tag; before its own check refuses it, the node is attached to
    another socket, whose operation finds a foreign tag and fails with [closed],
    although its socket is open. *)
Lemma stale_operation_refuses :
  let s := q_run 2 ([QAround Attach; q_go 0; QAround CloseNode; QAround DropOwner; QAround Recycle] ++
    [QAround Attach; q_go 1; q_go 0; q_go 1]) in
  life (node s) = Open /\ ops s !! 1 = Some (QSuspend (node_generation (node s)) false) /\
  op_suspend 1 (node_generation (node s)) false None (node s) = Some (Refused (of_errc closed), node s).
Proof. by vm_compute. Qed.
