(* ===== verification/BlockingPool.v ===== *)
(** * The blocking pool (include/cio/detail/blocking_pool.hpp, src/blocking_pool.cpp)

    Jobs for real threads: a run queue, a queue per class of jobs that wait for
    admission, threads that come and go, and the shutdown. Every section under
    the mutex is one step; a condition variable wakes a waiting thread of the
    scheduler's choice, may wake one for nothing and times out. *)

From S2P Require Import Prelude.
From stdpp Require Import functions.

Set Default Proof Using "Type".

Inductive BlockingClass := generic | file | resolver.

#[global] Instance BlockingClass_eq_dec : EqDecision BlockingClass.
Proof. solve_decision. Defined.

(** [has_fail]: [fail] is not null. *)
Record BlockingJob := mkJob { job_id : nat; klass : BlockingClass; has_fail : bool }.

#[global] Instance BlockingJob_eq_dec : EqDecision BlockingJob.
Proof. solve_decision. Defined.

Record BlockingLimits := mkLimits {
  max_threads : Z;
  max_queue : Z;
  max_file_operations : Z;
  max_resolver_operations : Z
}.

Inductive SubmitResult := accepted | overloaded | shutdown.

(** Where a thread of the pool is: started, in its wait, woken and after the
    mutex, running a job, back from one, gone. *)
Inductive WPc :=
  | WStart
  | WWait
  | WWoken (timed_out : bool)
  | WRun (job : BlockingJob)
  | WBack (k : BlockingClass)
  | WGone.

#[global] Instance WPc_eq_dec : EqDecision WPc.
Proof. solve_decision. Defined.

(** How a job ended. *)
Inductive Outcome := Ran | Failed | Dropped.

Record BPool := mkPool {
  limits : BlockingLimits;
  run_queue : list BlockingJob;
  queued : Z;
  idle : Z;
  stopping : bool;
  class_inflight : BlockingClass -> Z;
  admission : BlockingClass -> list BlockingJob;
  class_waiting : BlockingClass -> Z;
  admission_queued : Z;
  pool_threads : Z;
  workers : list WPc;
  ended : list (BlockingJob * Outcome)
}.

Definition set_run_queue (q : list BlockingJob) (n : Z) (p : BPool) : BPool :=
  mkPool (limits p) q n (idle p) (stopping p) (class_inflight p) (admission p) (class_waiting p) (admission_queued p) (pool_threads p) (workers p) (ended p).
Definition set_idle (n : Z) (p : BPool) : BPool :=
  mkPool (limits p) (run_queue p) (queued p) n (stopping p) (class_inflight p) (admission p) (class_waiting p) (admission_queued p) (pool_threads p) (workers p) (ended p).
Definition set_inflight (k : BlockingClass) (n : Z) (p : BPool) : BPool :=
  mkPool (limits p) (run_queue p) (queued p) (idle p) (stopping p) (<[k := n]> (class_inflight p)) (admission p) (class_waiting p) (admission_queued p) (pool_threads p) (workers p) (ended p).
Definition set_admission (k : BlockingClass) (q : list BlockingJob) (n m : Z) (p : BPool) : BPool :=
  mkPool (limits p) (run_queue p) (queued p) (idle p) (stopping p) (class_inflight p) (<[k := q]> (admission p)) (<[k := n]> (class_waiting p)) m (pool_threads p) (workers p) (ended p).
Definition set_workers (n : Z) (ws : list WPc) (p : BPool) : BPool :=
  mkPool (limits p) (run_queue p) (queued p) (idle p) (stopping p) (class_inflight p) (admission p) (class_waiting p) (admission_queued p) n ws (ended p).
Definition end_job (j : BlockingJob) (o : Outcome) (p : BPool) : BPool :=
  mkPool (limits p) (run_queue p) (queued p) (idle p) (stopping p) (class_inflight p) (admission p) (class_waiting p) (admission_queued p) (pool_threads p) (workers p) (ended p ++ [(j, o)]).

(** The constructor. *)
Definition new_pool (l : BlockingLimits) : BPool :=
  mkPool (mkLimits (if decide (max_threads l = 0%Z) then 512 else max_threads l) (if decide (max_queue l = 0%Z) then 1024 else max_queue l)
      (max_file_operations l) (max_resolver_operations l))
    [] 0 0 false (fun _ => 0%Z) (fun _ => []) (fun _ => 0%Z) 0 0 [] [].

(** [class_limit_]; zero is no limit. *)
Definition class_limit (p : BPool) (k : BlockingClass) : Z :=
  match k with generic => 0 | file => max_file_operations (limits p) | resolver => max_resolver_operations (limits p) end.

Definition try_spawn_thread (launches : bool) (p : BPool) : bool * BPool :=
  let p1 := set_workers (u64 (pool_threads p + 1)) (workers p) p in
  if launches then (true, set_workers (pool_threads p1) (workers p1 ++ [WStart]) p1)
  else (false, set_workers (u64 (pool_threads p1 - 1)) (workers p1) p1).

Definition enqueue (launches : bool) (job : BlockingJob) (p : BPool) : bool * BPool :=
  let need_thread := bool_decide (idle p < u64 (queued p + 1))%Z && bool_decide (pool_threads p < max_threads (limits p))%Z in
  let r := if need_thread then try_spawn_thread launches p else (true, p) in
  let p1 := r.2 in
  if negb r.1 && bool_decide (pool_threads p1 = 0%Z) then (false, p1)
  else (true, set_run_queue (run_queue p1 ++ [job]) (u64 (queued p1 + 1)) p1).

(** [cv_.notify_one], which wakes thread [w] if any thread waits. *)
Definition notify_one (w : nat) (p : BPool) : option BPool :=
  if decide (WWait ∈ workers p) then
    if decide (workers p !! w = Some WWait) then Some (set_workers (pool_threads p) (<[w := WWoken false]> (workers p)) p) else None
  else Some p.

Definition notify_all (p : BPool) : BPool :=
  set_workers (pool_threads p) (map (fun pc => if decide (pc = WWait) then WWoken false else pc) (workers p)) p.

Definition release_admission (launches : bool) (w : nat) (k : BlockingClass) (p : BPool) : option BPool :=
  if decide (class_limit p k = 0%Z) then Some p
  else
    let p := set_inflight k (u64 (class_inflight p k - 1)) p in
    match admission p k with
    | [] => Some p
    | next :: q =>
        let p := set_admission k q (u64 (class_waiting p k - 1)) (u64 (admission_queued p - 1)) p in
        let p := set_inflight k (u64 (class_inflight p k + 1)) p in
        let r := enqueue launches next p in
        if r.1 then notify_one w r.2
        else
          let p := set_inflight k (u64 (class_inflight r.2 k - 1)) r.2 in
          Some (end_job next (if has_fail next then Failed else Dropped) p)
    end.

(** The section of [submit]: the result, and whether [cv_.notify_one] follows. *)
Definition submit (launches : bool) (job : BlockingJob) (p : BPool) : SubmitResult * bool * BPool :=
  if stopping p then (shutdown, false, p)
  else if decide (max_queue (limits p) <= u64 (queued p + admission_queued p))%Z then (overloaded, false, p)
  else
    let k := klass job in
    if decide (class_limit p k <> 0%Z /\ (class_limit p k <= class_inflight p k)%Z) then
      (accepted, false, set_admission k (admission p k ++ [job]) (u64 (class_waiting p k + 1)) (u64 (admission_queued p + 1)) p)
    else
      let p1 := if decide (class_limit p k <> 0%Z) then set_inflight k (u64 (class_inflight p k + 1)) p else p in
      let r := enqueue launches job p1 in
      if r.1 then (accepted, true, r.2)
      else (overloaded, false, if decide (class_limit p k <> 0%Z) then set_inflight k (u64 (class_inflight r.2 k - 1)) r.2 else r.2).

(** [worker_main] with the mutex, from the test of its loop to the next wait,
    job or return; thread [t]. *)
Definition retire (t : nat) (p : BPool) : BPool := set_workers (u64 (pool_threads p - 1)) (<[t := WGone]> (workers p)) p.

Definition worker_turn (t : nat) (p : BPool) : BPool :=
  match run_queue p with
  | [] =>
      if stopping p then retire t p
      else let p := set_idle (u64 (idle p + 1)) p in set_workers (pool_threads p) (<[t := WWait]> (workers p)) p
  | job :: q =>
      let p := set_run_queue q (u64 (queued p - 1)) p in
      set_workers (pool_threads p) (<[t := WRun job]> (workers p)) p
  end.

Definition worker_woken (t : nat) (timed_out : bool) (p : BPool) : BPool :=
  let p := set_idle (u64 (idle p - 1)) p in
  if timed_out && bool_decide (run_queue p = []) && negb (stopping p) then retire t p else worker_turn t p.

(** ** The system *)

(** The thread in [shutdown]: not begun, failing what waited for admission,
    back under the mutex, waiting for the threads, returned. *)
Inductive Stopper := SNone | SFailing (pending : list BlockingJob) | SLocking | SWaiting | SReturned.

(** [notifies] counts the submitters before their [cv_.notify_one]; [taken] are
    the jobs that were accepted. *)
Record BSys := mkBSys { pool : BPool; stopper : Stopper; notifies : nat; taken : list BlockingJob }.

(** The section of [shutdown] that begins it. *)
Definition pending_jobs (p : BPool) : list BlockingJob :=
  reverse (admission p resolver) ++ reverse (admission p file) ++ reverse (admission p generic).

Definition shutdown_begin (p : BPool) : list BlockingJob * BPool :=
  (pending_jobs p,
   mkPool (limits p) (run_queue p) (queued p) (idle p) true (class_inflight p) (fun _ => []) (fun _ => 0%Z) 0 (pool_threads p) (workers p) (ended p)).

(** A thread of the pool; [launches] and [w] as above, [timed_out] for a wait
    that ends by itself. *)
Definition worker_step (t : nat) (launches timed_out : bool) (w : nat) (p : BPool) : option BPool :=
  pc ← workers p !! t;
  match pc with
  | WStart => Some (worker_turn t p)
  | WWait => Some (set_workers (pool_threads p) (<[t := WWoken timed_out]> (workers p)) p)
  | WWoken b => Some (worker_woken t b p)
  | WRun job => Some (set_workers (pool_threads p) (<[t := WBack (klass job)]> (workers p)) (end_job job Ran p))
  | WBack k => worker_turn t <$> release_admission launches w k p
  | WGone => None
  end.

Definition shutdown_step (s : BSys) : option BSys :=
  let p := pool s in
  match stopper s with
  | SNone =>
      let r := shutdown_begin p in
      Some (match r.1 with
            | [] => mkBSys (notify_all r.2) SWaiting (notifies s) (taken s)
            | _ => mkBSys r.2 (SFailing r.1) (notifies s) (taken s)
            end)
  | SFailing (j :: js) => Some (mkBSys (end_job j (if has_fail j then Failed else Dropped) p) (SFailing js) (notifies s) (taken s))
  | SFailing [] => Some (mkBSys p SLocking (notifies s) (taken s))
  | SLocking => Some (mkBSys (notify_all p) SWaiting (notifies s) (taken s))
  | SWaiting => if decide (pool_threads p = 0%Z) then Some (mkBSys p SReturned (notifies s) (taken s)) else None
  | SReturned => None
  end.

Inductive b_step : BSys -> BSys -> Prop :=
  | bs_submit launches job s r n p : submit launches job (pool s) = (r, n, p) ->
      b_step s (mkBSys p (stopper s) (notifies s + (if n then 1 else 0))
        (match r with accepted => taken s ++ [job] | _ => taken s end))
  | bs_notify w s p : 0 < notifies s -> notify_one w (pool s) = Some p ->
      b_step s (mkBSys p (stopper s) (notifies s - 1) (taken s))
  | bs_worker t launches timed_out w s p : worker_step t launches timed_out w (pool s) = Some p ->
      b_step s (mkBSys p (stopper s) (notifies s) (taken s))
  | bs_shutdown s s' : shutdown_step s = Some s' -> b_step s s'.

Definition b_init (l : BlockingLimits) : BSys := mkBSys (new_pool l) SNone 0 [].
