(* ===== verification/BlockingPoolInv.v ===== *)
(** * The invariant of the blocking pool

    Counters equal what they count, admission is exact and a class waits only at
    its limit, a queue has a thread. *)

From S2P Require Import Prelude BlockingPool.
From stdpp Require Import functions.

Set Default Proof Using "Type".

(** ** Counting *)

Definition live (pc : WPc) : nat := match pc with WGone => 0 | _ => 1 end.
Definition waits (pc : WPc) : nat := match pc with WWait | WWoken _ => 1 | _ => 0 end.
Definition busy (k : BlockingClass) (pc : WPc) : nat :=
  match pc with WRun j => if decide (klass j = k) then 1 else 0 | WBack k' => if decide (k' = k) then 1 else 0 | _ => 0 end.
Definition of_class (k : BlockingClass) (j : BlockingJob) : nat := if decide (klass j = k) then 1 else 0.

Definition over {A} (f : A -> nat) (l : list A) : nat := sum_list (map f l).

#[global] Arguments over : simpl never.

Lemma over_one {A} (f : A -> nat) a : over f [a] = f a.
Proof. unfold over. simpl. lia. Qed.

Lemma over_nil {A} (f : A -> nat) : over f [] = 0.
Proof. done. Qed.

Lemma over_cons {A} (f : A -> nat) a l : over f (a :: l) = f a + over f l.
Proof. done. Qed.

Lemma over_app {A} (f : A -> nat) l l' : over f (l ++ l') = over f l + over f l'.
Proof. unfold over. induction l as [|a l IH]; simpl; [done|]. rewrite IH. lia. Qed.

Lemma over_move {A} (f : A -> nat) l i a b : l !! i = Some a -> (Z.of_nat (over f (<[i := b]> l)) = Z.of_nat (over f l) - Z.of_nat (f a) + Z.of_nat (f b))%Z.
Proof. intros Hi. destruct (sum_insert f l i a Hi) as (N & E & E'). unfold over. rewrite E, E'. lia. Qed.

Lemma over_at {A} (f : A -> nat) l i a : l !! i = Some a -> f a <= over f l.
Proof. apply sum_ge. Qed.

Lemma over_le {A} (f h : A -> nat) l : (forall a, f a <= h a) -> over f l <= over h l.
Proof. intros Hf. unfold over. induction l as [|a l IH]; simpl; [done|]. specialize (Hf a). lia. Qed.

(** ** The invariant *)

Definition limits_ok (l : BlockingLimits) : Prop :=
  (0 < max_threads l < 2 ^ 64 /\ 0 < max_queue l < 2 ^ 64 /\ 0 <= max_file_operations l < 2 ^ 64 /\ 0 <= max_resolver_operations l < 2 ^ 64)%Z.

Definition waiting_jobs (p : BPool) : list BlockingJob := admission p generic ++ admission p file ++ admission p resolver.

#[global] Arguments waiting_jobs : simpl never.

(** [x] is a job that has been admitted and is not yet queued. *)
Definition transit (x : option BlockingJob) : list BlockingJob := option_list x.

Record pool_inv (x : option BlockingJob) (p : BPool) : Prop := {
  b_limits : limits_ok (limits p);
  b_queued : queued p = Z.of_nat (length (run_queue p));
  b_admission : admission_queued p = Z.of_nat (length (waiting_jobs p));
  b_waiting : forall k, class_waiting p k = Z.of_nat (length (admission p k));
  b_room : (Z.of_nat (length (transit x)) + queued p + admission_queued p <= max_queue (limits p))%Z;
  b_threads : pool_threads p = Z.of_nat (over live (workers p));
  b_max : (pool_threads p <= max_threads (limits p))%Z;
  b_idle : idle p = Z.of_nat (over waits (workers p));
  b_inflight : forall k, class_limit p k <> 0%Z ->
    class_inflight p k = Z.of_nat (over (of_class k) (transit x) + over (of_class k) (run_queue p) + over (busy k) (workers p));
  b_limit : forall k, class_limit p k <> 0%Z -> (class_inflight p k <= class_limit p k)%Z;
  b_unlimited : forall k, class_limit p k = 0%Z -> admission p k = [];
  b_class : forall k j, j ∈ admission p k -> klass j = k;
  b_full : forall k, admission p k <> [] -> class_inflight p k = class_limit p k;
  b_stopping : stopping p = true -> forall k, admission p k = [];
  b_served : run_queue p <> [] -> (0 < pool_threads p)%Z
}.

Lemma limit_range x p k : pool_inv x p -> (0 <= class_limit p k < 2 ^ 64)%Z.
Proof. intros Hi. destruct (b_limits _ _ Hi) as (? & ? & ? & ?). destruct k; cbn; lia. Qed.

Lemma u64_in y : (0 <= y < 2 ^ 64)%Z -> u64 y = y.
Proof. intros Hy. by apply wrap_small. Qed.

Lemma waits_live pc : waits pc <= live pc.
Proof. by destruct pc; cbn; lia. Qed.

(** ** Threads come and go *)

Lemma try_spawn_spec x launches p r : pool_inv x p -> try_spawn_thread launches p = r ->
  (pool_threads p < max_threads (limits p))%Z ->
  r = (launches, if launches then set_workers (pool_threads p + 1) (workers p ++ [WStart]) p else p).
Proof.
  intros Hi <- Hm. destruct (b_limits _ _ Hi) as ([? ?] & _). pose proof (b_threads _ _ Hi). unfold try_spawn_thread. cbn.
  rewrite !(u64_in (pool_threads p + 1)) by lia. destruct launches; [done|]. rewrite u64_in by lia.
  replace (pool_threads p + 1 - 1)%Z with (pool_threads p) by lia. by destruct p.
Qed.

Lemma spawned_inv x p : pool_inv x p -> (pool_threads p < max_threads (limits p))%Z ->
  pool_inv x (set_workers (pool_threads p + 1) (workers p ++ [WStart]) p).
Proof.
  intros [] Hm. split; cbn; rewrite ?over_app, ?over_one; cbn; try done; try lia.
  intros k Hk. rewrite over_app, over_one. cbn. rewrite (b_inflight0 k Hk). lia.
Qed.

Lemma waits_threads x p : pool_inv x p -> (idle p <= pool_threads p)%Z.
Proof. intros Hi. rewrite (b_idle _ _ Hi), (b_threads _ _ Hi). pose proof (over_le waits live (workers p) waits_live). lia. Qed.

(** The job in transit is queued, or there is no thread at all. *)
Lemma enqueue_inv launches job p r : pool_inv (Some job) p -> enqueue launches job p = r ->
  if r.1 then pool_inv None r.2 /\ exists p1, pool_inv (Some job) p1 /\ r.2 = set_run_queue (run_queue p ++ [job]) (queued p + 1) p1 /\
      (p1 = p \/ p1 = set_workers (pool_threads p + 1) (workers p ++ [WStart]) p)
  else r.2 = p /\ pool_threads p = 0%Z.
Proof.
  intros Hi <-. unfold enqueue. pose proof (b_room _ _ Hi) as Hroom. pose proof (b_queued _ _ Hi) as Hq. pose proof (b_admission _ _ Hi) as Ha.
  destruct (b_limits _ _ Hi) as (Hmt & Hmq & _). cbn in Hroom. rewrite (u64_in (queued p + 1)) by lia.
  assert (Hput : forall p1, pool_inv (Some job) p1 -> (0 < pool_threads p1)%Z -> queued p1 = queued p -> run_queue p1 = run_queue p ->
    pool_inv None (set_run_queue (run_queue p1 ++ [job]) (u64 (queued p1 + 1)) p1) /\
    set_run_queue (run_queue p1 ++ [job]) (u64 (queued p1 + 1)) p1 = set_run_queue (run_queue p ++ [job]) (queued p + 1) p1).
  { intros p1 Hi1 Ht Eq Er. assert (u64 (queued p1 + 1) = queued p + 1)%Z as E by (rewrite Eq; apply u64_in; lia). split; [|by rewrite E, Er].
    rewrite E, <- Eq. pose proof (b_room _ _ Hi1) as Hr1. cbn in Hr1. destruct Hi1. split; cbn; rewrite ?length_app; cbn; try assumption; try done; try lia.
    intros k Hk. rewrite over_app, over_one, over_nil, (b_inflight0 k Hk). cbn. rewrite over_one. lia. }
  case_bool_decide as H1; case_bool_decide as H2; cbn [andb].
  - rewrite (try_spawn_spec _ _ _ _ Hi eq_refl H2). cbn. destruct launches; cbn.
    + pose proof (spawned_inv _ _ Hi H2) as Hi1. destruct (Hput _ Hi1) as [G E]; [cbn; rewrite (b_threads _ _ Hi); lia|done..|].
      split; [exact G|]. eexists. split; [exact Hi1|]. split; [exact E|by right].
    + case_bool_decide as H3; cbn; [done|]. pose proof (b_threads _ _ Hi). destruct (Hput _ Hi) as [G E]; [lia|done..|].
      split; [exact G|]. exists p. auto.
  - cbn. pose proof (b_max _ _ Hi). destruct (Hput _ Hi) as [G E]; [lia|done..|]. split; [exact G|]. exists p. auto.
  - cbn. pose proof (waits_threads _ _ Hi). destruct (Hput _ Hi) as [G E]; [lia|done..|]. split; [exact G|]. exists p. auto.
  - cbn. pose proof (waits_threads _ _ Hi). destruct (Hput _ Hi) as [G E]; [lia|done..|]. split; [exact G|]. exists p. auto.
Qed.

(** ** Submission *)

(** The class of the job has room: it is admitted. *)
Lemma admit_inv job p k : klass job = k -> pool_inv None p -> (queued p + admission_queued p < max_queue (limits p))%Z ->
  ~ (class_limit p k <> 0%Z /\ (class_limit p k <= class_inflight p k)%Z) ->
  pool_inv (Some job) (if decide (class_limit p k <> 0%Z) then set_inflight k (u64 (class_inflight p k + 1)) p else p).
Proof.
  intros Ejk Hi Hroom Hlim. pose proof (limit_range _ p k Hi) as Hr. case_decide as Hk.
  - assert (Hlt : (class_inflight p k < class_limit p k)%Z).
    { destruct (decide (class_limit p k <= class_inflight p k)%Z); [by destruct Hlim|lia]. }
    pose proof (b_inflight _ _ Hi k Hk) as Hf. rewrite u64_in by lia. destruct Hi. split; cbn; try assumption; try done; try lia.
    + intros k'. change (class_limit (set_inflight k (class_inflight p k + 1) p) k') with (class_limit p k').
      intros Hk'. rewrite over_one. unfold of_class at 1. destruct (decide (k' = k)) as [->|Hne].
      * rewrite fn_lookup_insert, decide_True by done. rewrite (b_inflight0 k Hk). cbn. rewrite over_nil. lia.
      * rewrite fn_lookup_insert_ne, decide_False by congruence. rewrite (b_inflight0 k' Hk'). cbn. rewrite over_nil. lia.
    + intros k'. change (class_limit (set_inflight k (class_inflight p k + 1) p) k') with (class_limit p k').
      intros Hk'. destruct (decide (k' = k)) as [->|]; [rewrite fn_lookup_insert; lia|rewrite fn_lookup_insert_ne by done; auto].
    + intros k'. change (class_limit (set_inflight k (class_inflight p k + 1) p) k') with (class_limit p k').
      intros Ha. destruct (decide (k' = k)) as [->|]; [|rewrite fn_lookup_insert_ne by done; auto]. specialize (b_full0 k Ha). lia.
  - destruct Hi. split; cbn; try assumption; try done; try lia.
    intros k' Hk'. rewrite over_one. unfold of_class at 1. rewrite decide_False by congruence.
    rewrite (b_inflight0 k' Hk'). cbn. rewrite over_nil. lia.
Qed.

(** The job waits for admission. *)
Lemma defer_inv job p k : klass job = k -> pool_inv None p -> (queued p + admission_queued p < max_queue (limits p))%Z -> stopping p = false ->
  class_limit p k <> 0%Z -> (class_limit p k <= class_inflight p k)%Z ->
  pool_inv None (set_admission k (admission p k ++ [job]) (u64 (class_waiting p k + 1)) (u64 (admission_queued p + 1)) p).
Proof.
  intros Ejk Hi Hroom Hst Hk Hlim. destruct (b_limits _ _ Hi) as (_ & Hmq & _). pose proof (b_limit _ _ Hi k Hk) as Hle.
  pose proof (b_queued _ _ Hi) as Hq. pose proof (b_admission _ _ Hi) as Ha. pose proof (b_waiting _ _ Hi k) as Hw.
  assert (Hkw : (class_waiting p k <= admission_queued p)%Z).
  { rewrite Hw, Ha. unfold waiting_jobs. rewrite !length_app. destruct k; lia. }
  rewrite !u64_in by lia. destruct Hi. split; cbn; try assumption; try done; try lia.
  - rewrite Ha. unfold waiting_jobs. cbn. rewrite !length_app. clear.
    destruct k; rewrite ?fn_lookup_insert, ?fn_lookup_insert_ne, ?length_app by done; cbn; lia.
  - intros k'. destruct (decide (k' = k)) as [->|]; [rewrite !fn_lookup_insert, length_app; cbn; lia|by rewrite !fn_lookup_insert_ne].
  - intros k'. change (class_limit (set_admission k (admission p k ++ [job]) (class_waiting p k + 1) (admission_queued p + 1) p) k') with (class_limit p k').
    intros Hz. rewrite fn_lookup_insert_ne by congruence. auto.
  - intros k' j. destruct (decide (k' = k)) as [->|]; [|rewrite fn_lookup_insert_ne by done; apply b_class0].
    rewrite fn_lookup_insert. intros [Hin| ->%list_elem_of_singleton]%elem_of_app; [by apply b_class0|done].
  - intros k'. change (class_limit (set_admission k (admission p k ++ [job]) (class_waiting p k + 1) (admission_queued p + 1) p) k') with (class_limit p k').
    destruct (decide (k' = k)) as [->|]; [lia|rewrite fn_lookup_insert_ne by done; auto].
  - congruence.
Qed.

(** A job in transit that no thread takes is given up. *)
Lemma withdraw_inv job p k : klass job = k -> pool_inv (Some job) p -> admission p k = [] \/ class_limit p k = 0%Z ->
  pool_inv None (if decide (class_limit p k <> 0%Z) then set_inflight k (u64 (class_inflight p k - 1)) p else p).
Proof.
  intros Ejk Hi Hnone. pose proof (limit_range _ p k Hi) as Hr. pose proof (b_room _ _ Hi) as Hroom. cbn in Hroom. case_decide as Hk.
  - destruct Hnone as [Hnone|]; [|done]. pose proof (b_inflight _ _ Hi k Hk) as Hf. pose proof (b_limit _ _ Hi k Hk).
    cbn in Hf. rewrite over_one in Hf. unfold of_class in Hf at 1. rewrite decide_True in Hf by done.
    rewrite u64_in by lia. destruct Hi. split; cbn; try assumption; try done; try lia.
    + intros k'. change (class_limit (set_inflight k (class_inflight p k - 1) p) k') with (class_limit p k').
      intros Hk'. rewrite over_nil. destruct (decide (k' = k)) as [->|Hne].
      * rewrite fn_lookup_insert. lia.
      * rewrite fn_lookup_insert_ne by done. rewrite (b_inflight0 k' Hk'). cbn. rewrite over_one. unfold of_class at 1. rewrite decide_False by congruence. lia.
    + intros k'. change (class_limit (set_inflight k (class_inflight p k - 1) p) k') with (class_limit p k').
      intros Hk'. destruct (decide (k' = k)) as [->|]; [rewrite fn_lookup_insert; lia|rewrite fn_lookup_insert_ne by done; auto].
    + intros k'. change (class_limit (set_inflight k (class_inflight p k - 1) p) k') with (class_limit p k').
      intros Ha. destruct (decide (k' = k)) as [->|]; [done|rewrite fn_lookup_insert_ne by done; auto].
  - destruct Hi. split; cbn; try assumption; try done; try lia.
    intros k' Hk'. rewrite (b_inflight0 k' Hk'). cbn. rewrite over_one, over_nil. unfold of_class at 1.
    rewrite decide_False by congruence. lia.
Qed.

Definition running_job (pc : WPc) : option BlockingJob := match pc with WRun j => Some j | _ => None end.
Definition running (ws : list WPc) : list BlockingJob := omap running_job ws.

Lemma running_move ws t pc pc' : ws !! t = Some pc ->
  option_list (running_job pc) ++ running (<[t := pc']> ws) ≡ₚ option_list (running_job pc') ++ running ws.
Proof.
  revert t. induction ws as [|qc ws IH]; intros [|t] Ht; cbn in *; [done..| |].
  - injection Ht as ->. destruct (running_job pc), (running_job pc'); cbn; solve_Permutation.
  - specialize (IH t Ht). destruct (running_job qc); cbn; [|done]. rewrite <- !Permutation_middle. by f_equiv.
Qed.

Lemma running_app ws ws' : running (ws ++ ws') = running ws ++ running ws'.
Proof. apply omap_app. Qed.

Lemma running_still ws t pc pc' : ws !! t = Some pc -> running_job pc = None -> running_job pc' = None -> running (<[t := pc']> ws) ≡ₚ running ws.
Proof. intros Ht H1 H2. pose proof (running_move ws t pc pc' Ht) as H. by rewrite H1, H2 in H. Qed.

Definition all_jobs (p : BPool) : list BlockingJob := run_queue p ++ waiting_jobs p.

Lemma sum_in_range x p : pool_inv x p -> u64 (queued p + admission_queued p) = (queued p + admission_queued p)%Z.
Proof.
  intros Hi. destruct (b_limits _ _ Hi) as (_ & Hmq & _). pose proof (b_room _ _ Hi). pose proof (b_queued _ _ Hi). pose proof (b_admission _ _ Hi).
  apply u64_in. lia.
Qed.

(** What a submission does to the pool. *)
Lemma submit_spec launches job p r n p' : pool_inv None p -> submit launches job p = (r, n, p') ->
  pool_inv None p' /\ ended p' = ended p /\ stopping p' = stopping p /\ limits p' = limits p /\
  (r = shutdown <-> stopping p = true) /\
  match r with
  | accepted => all_jobs p' ≡ₚ all_jobs p ++ [job] /\ (n = false -> workers p' = workers p /\ run_queue p' = run_queue p) /\
      (workers p' = workers p \/ workers p' = workers p ++ [WStart])
  | _ => all_jobs p' = all_jobs p /\ workers p' = workers p /\ run_queue p' = run_queue p /\ n = false
  end.
Proof.
  intros Hi H. unfold submit in H. pose proof (sum_in_range _ _ Hi) as Hsum. destruct (stopping p) eqn:Hst.
  { injection H as <- <- <-. by split_and!. }
  rewrite Hsum in H. case_decide as Hroom; [injection H as <- <- <-; by split_and!|].
  assert (Hlt : (queued p + admission_queued p < max_queue (limits p))%Z) by lia. set (k := klass job) in *. case_decide as Hlim.
  - injection H as <- <- <-. destruct Hlim as [Hk Hle]. split_and!; try done; [by apply (defer_inv job p k)| |by left].
    unfold all_jobs. rewrite <- app_assoc. cbn. f_equiv. unfold waiting_jobs. cbn. clearbody k. clear.
    destruct k; rewrite ?fn_lookup_insert, ?fn_lookup_insert_ne by done; rewrite <- ?app_assoc; try done; solve_Permutation.
  - pose proof (admit_inv job p k eq_refl Hi Hlt Hlim) as Hi1.
    set (p1 := if decide (class_limit p k <> 0%Z) then set_inflight k (u64 (class_inflight p k + 1)) p else p) in *.
    assert (Hp1 : ended p1 = ended p /\ stopping p1 = stopping p /\ limits p1 = limits p /\ all_jobs p1 = all_jobs p /\ workers p1 = workers p /\ run_queue p1 = run_queue p /\
      class_limit p1 k = class_limit p k /\ admission p1 = admission p) by (unfold p1; by case_decide).
    destruct Hp1 as (E1 & E2 & E3 & E4 & E5 & E8 & E6 & E7).
    destruct (enqueue launches job p1) as [b p2] eqn:E. pose proof (enqueue_inv _ _ _ _ Hi1 E) as Hq. cbn [fst snd] in Hq, H. destruct b.
    + injection H as <- <- <-. destruct Hq as [Hi2 (p3 & _ & -> & Hp3)].
      assert (Hp3' : ended p3 = ended p /\ stopping p3 = stopping p /\ limits p3 = limits p /\ waiting_jobs p3 = waiting_jobs p1 /\ (workers p3 = workers p \/ workers p3 = workers p ++ [WStart])).
      { destruct Hp3 as [-> | ->]; cbn; rewrite ?E1, ?E2, ?E3, ?E5; split_and!; auto. }
      destruct Hp3' as (F1 & F2 & F3 & F4 & F5). cbn. rewrite F1, F2, F3, Hst. split_and!; try done.
      rewrite <- E4. unfold all_jobs. cbn. change (waiting_jobs (set_run_queue (run_queue p1 ++ [job]) (queued p1 + 1) p3)) with (waiting_jobs p3).
      rewrite F4. solve_Permutation.
    + destruct Hq as [-> Ht]. injection H as <- <- <-.
      assert (Hnone : admission p1 k = [] \/ class_limit p1 k = 0%Z).
      { rewrite E6, E7. destruct (decide (class_limit p k = 0%Z)) as [|Hk]; [by right|left].
        destruct (admission p k) eqn:Ea; [done|]. pose proof (b_full _ _ Hi k) as Hf. rewrite Ea in Hf. specialize (Hf ltac:(done)).
        destruct Hlim. split; [done|lia]. }
      pose proof (withdraw_inv job p1 k eq_refl Hi1 Hnone) as Hi2. rewrite E6 in Hi2. split; [exact Hi2|].
      split_and!; try (case_decide; cbn; congruence); case_decide; split; try done; congruence.
Qed.

(** ** Threads *)

Definition at_pc (t : nat) (pc : WPc) (p : BPool) : BPool := set_workers (pool_threads p) (<[t := pc]> (workers p)) p.

Lemma over_keep (f : WPc -> nat) l t pc pc' : l !! t = Some pc -> f pc' = f pc -> over f (<[t := pc']> l) = over f l.
Proof. intros Ht E. pose proof (over_move f l t pc pc' Ht). lia. Qed.

Lemma at_inv x p t pc pc' : pool_inv x p -> workers p !! t = Some pc -> live pc' = live pc -> waits pc' = waits pc ->
  (forall k, busy k pc' = busy k pc) -> pool_inv x (at_pc t pc' p).
Proof.
  intros [] Ht H1 H2 H3. split; cbn; try assumption; rewrite ?(over_keep _ _ t pc pc') by done; try done.
  intros k Hk. rewrite (over_keep _ _ t pc pc') by done. by apply b_inflight0.
Qed.

Lemma turn_at t pc p : worker_turn t (at_pc t pc p) = worker_turn t p.
Proof. unfold worker_turn, retire, at_pc. destruct p as [? [] ? ? [] ? ? ? ? ? ? ?]; cbn; by rewrite list_insert_insert_eq. Qed.

Lemma turn_inv t p : pool_inv None p -> workers p !! t = Some WStart -> pool_inv None (worker_turn t p).
Proof.
  intros Hi Ht. pose proof (b_queued _ _ Hi) as Hq. pose proof (b_room _ _ Hi) as Hroom. pose proof (b_admission _ _ Hi) as Ha.
  pose proof (waits_threads _ _ Hi). pose proof (b_max _ _ Hi) as Hm. pose proof (b_idle _ _ Hi) as Hidle. pose proof (b_threads _ _ Hi) as Hth.
  destruct (b_limits _ _ Hi) as (Hmt & Hmq & _). pose proof (over_at live _ t _ Ht) as Hl. cbn in Hl.
  unfold worker_turn. destruct (run_queue p) as [|job q] eqn:Eq; [destruct (stopping p) eqn:Es|].
  - unfold retire. rewrite u64_in by lia. destruct Hi. split; cbn; try assumption; try done; rewrite ?(over_move _ _ t WStart) by done; cbn; try lia.
    + intros k Hk. rewrite (over_keep (busy k) _ t WStart WGone) by done. by apply b_inflight0.
  - pose proof (over_le waits live (<[t := WWait]> (workers p)) waits_live) as Hone.
    pose proof (over_move waits _ t WStart WWait Ht) as E1. pose proof (over_move live _ t WStart WWait Ht) as E2. cbn in E1, E2.
    cbn. rewrite u64_in by lia. destruct Hi. split; cbn; try assumption; try done; rewrite ?(over_move _ _ t WStart) by done; cbn; try lia.
    intros k Hk. rewrite (over_keep (busy k) _ t WStart WWait) by done. by apply b_inflight0.
  - cbn in Hq. rewrite Hq, u64_in by lia. destruct Hi. split; cbn; try assumption; try done; rewrite ?(over_keep _ _ t WStart) by done; try done; try lia.
    intros k Hk. specialize (b_inflight0 k Hk). rewrite Eq, over_cons in b_inflight0.
      pose proof (over_move (busy k) (workers p) t WStart (WRun job) Ht) as E.
      change (busy k (WRun job)) with (of_class k job) in E. change (busy k WStart) with 0 in E.
      change (over (of_class k) (transit None)) with 0 in b_inflight0. rewrite over_nil. lia.
Qed.

Lemma woken_inv t b p : pool_inv None p -> workers p !! t = Some (WWoken b) -> pool_inv None (worker_woken t b p).
Proof.
  intros Hi Ht. unfold worker_woken. pose proof (over_at waits _ t _ Ht) as Hw. cbn in Hw. pose proof (b_idle _ _ Hi) as Hidle.
  pose proof (waits_threads _ _ Hi). pose proof (b_max _ _ Hi). destruct (b_limits _ _ Hi) as (Hmt & _). rewrite u64_in by lia.
  assert (Hi1 : pool_inv None (at_pc t WStart (set_idle (idle p - 1) p))).
  { destruct Hi. split; cbn; try assumption; try done; rewrite ?(over_keep live _ t (WWoken b) WStart), ?(over_move waits _ t (WWoken b)) by done; cbn; try lia.
    intros k Hk. rewrite (over_keep (busy k) _ t (WWoken b) WStart) by done. by apply b_inflight0. }
  assert (Ht1 : workers (at_pc t WStart (set_idle (idle p - 1) p)) !! t = Some WStart) by (apply list_lookup_insert_eq; by apply lookup_lt_Some in Ht).
  pose proof (turn_inv t _ Hi1 Ht1) as Hturn. rewrite turn_at in Hturn.
  case_bool_decide as Eq; [|by rewrite andb_false_r]. destruct b; cbn; [|done]. destruct (stopping p) eqn:Es; [done|]. cbn in Eq.
  unfold retire. cbn. pose proof (b_threads _ _ Hi) as Hth. pose proof (over_at live _ t _ Ht) as Hl. cbn in Hl. rewrite u64_in by lia.
  destruct Hi1. split; cbn in *; try assumption; try done; rewrite ?(over_keep live _ t (WWoken true) WStart), ?(over_keep waits _ t (WWoken true) WGone),
    ?(over_move live _ t (WWoken true) WGone), ?(over_move waits _ t (WWoken true) WGone) by done; cbn; try lia.
  intros k Hk. rewrite (over_keep (busy k) _ t (WWoken true) WGone) by done. specialize (b_inflight0 k Hk). by rewrite (over_keep (busy k) _ t (WWoken true) WStart) in b_inflight0.
Qed.

Lemma notify_cases w p p' : notify_one w p = Some p' ->
  (p' = p /\ WWait ∉ workers p) \/ (workers p !! w = Some WWait /\ p' = at_pc w (WWoken false) p).
Proof.
  unfold notify_one. case_decide as Hw; [|intros [= <-]; by left]. case_decide as Hl; [|done]. intros [= <-]. by right.
Qed.

Lemma notify_inv x w p p' : pool_inv x p -> notify_one w p = Some p' -> pool_inv x p'.
Proof. intros Hi [[-> _]|[Hw ->]]%notify_cases; [done|]. by apply (at_inv x p w WWait). Qed.

Lemma enqueue_at t pc launches job p : t < length (workers p) ->
  enqueue launches job (at_pc t pc p) = ((enqueue launches job p).1, at_pc t pc (enqueue launches job p).2).
Proof.
  intros Ht. unfold enqueue, try_spawn_thread, at_pc. cbn.
  destruct (bool_decide _ && bool_decide _); [destruct launches|]; cbn; try (destruct (bool_decide _)); cbn; try done.
  by rewrite insert_app_l.
Qed.

Lemma enqueue_frame launches job p b p' : enqueue launches job p = (b, p') ->
  run_queue p' = (if b then run_queue p ++ [job] else run_queue p) /\ admission p' = admission p /\ ended p' = ended p /\
  stopping p' = stopping p /\ limits p' = limits p /\ (workers p' = workers p \/ workers p' = workers p ++ [WStart]).
Proof.
  unfold enqueue, try_spawn_thread. destruct (bool_decide _ && bool_decide _); [destruct launches|]; cbn; try (destruct (bool_decide _)); cbn;
    intros [= <- <-]; cbn; split_and!; auto.
Qed.

(** A freed slot of a class goes to the first job that waits for it. *)
Lemma release_spec launches w t k p p' : pool_inv None p -> workers p !! t = Some (WBack k) -> release_admission launches w k p = Some p' ->
  pool_inv None (at_pc t WStart p') /\ workers p' !! t = Some (WBack k) /\ all_jobs p' ≡ₚ all_jobs p /\ ended p' = ended p /\
  stopping p' = stopping p /\ limits p' = limits p /\ (stopping p = true -> workers p' = workers p /\ run_queue p' = run_queue p) /\ running (workers p') ≡ₚ running (workers p).
Proof.
  intros Hi Ht H. pose proof (lookup_lt_Some _ _ _ Ht) as Hlt. unfold release_admission in H. pose proof (limit_range _ _ k Hi) as Hlr.
  assert (Hkeep : forall f : WPc -> nat, f WStart = f (WBack k) -> over f (<[t := WStart]> (workers p)) = over f (workers p)).
  { intros f E. by apply (over_keep f _ t (WBack k)). }
  case_decide as Hk.
  { injection H as <-. split_and!; try done. destruct Hi. split; cbn; try assumption; rewrite ?Hkeep by done; try done.
    intros k' Hk'. rewrite Hkeep; [by apply b_inflight0|]. cbn. by rewrite decide_False by (by intros ->). }
  pose proof (b_inflight _ _ Hi k Hk) as Hf. pose proof (b_limit _ _ Hi k Hk) as Hle. pose proof (over_at (busy k) _ t _ Ht) as Hb.
  change (over (of_class k) (transit None)) with 0 in Hf.
  cbn in Hb. rewrite decide_True in Hb by done. pose proof (over_move (busy k) _ t _ WStart Ht) as Hmv. cbn in Hmv. rewrite decide_True in Hmv by done.
  rewrite u64_in in H by lia. cbn in H. destruct (admission p k) as [|next q] eqn:Ea.
  { injection H as <-. split_and!; try done. destruct Hi. split; cbn; try assumption; rewrite ?Hkeep by done; try done.
    - intros k' Hk'. destruct (decide (k' = k)) as [->|Hne]; [rewrite fn_lookup_insert, over_nil; lia|].
      rewrite fn_lookup_insert_ne by done. rewrite Hkeep; [by apply b_inflight0|]. cbn. by rewrite decide_False by congruence.
    - intros k' Hk'. change (class_limit _ k') with (class_limit p k'). destruct (decide (k' = k)) as [->|]; [rewrite fn_lookup_insert; lia|rewrite fn_lookup_insert_ne by done; auto].
    - intros k'. change (class_limit _ k') with (class_limit p k'). intros Ha.
      destruct (decide (k' = k)) as [->|]; [congruence|rewrite fn_lookup_insert_ne by done; auto]. }
  pose proof (b_waiting _ _ Hi k) as Hw. rewrite Ea in Hw. cbn in Hw. pose proof (b_admission _ _ Hi) as Hadm.
  pose proof (b_room _ _ Hi) as Hroom. pose proof (b_queued _ _ Hi) as Hqd. destruct (b_limits _ _ Hi) as (_ & Hmq & _).
  assert (Hlen : (Z.of_nat (S (length q)) <= admission_queued p)%Z).
  { rewrite Hadm. unfold waiting_jobs. rewrite !length_app. replace (S (length q)) with (length (admission p k)) by (by rewrite Ea). destruct k; lia. }
  rewrite fn_lookup_insert in H. rewrite !u64_in in H by lia.
  set (p1 := set_inflight k (class_inflight p k - 1 + 1) (set_admission k q (class_waiting p k - 1) (admission_queued p - 1) (set_inflight k (class_inflight p k - 1) p))) in *.
  assert (Hnk : klass next = k) by (apply (b_class _ _ Hi k); rewrite Ea; by left).
  assert (Hst : stopping p = false) by (destruct (stopping p) eqn:E; [pose proof (b_stopping _ _ Hi E k); congruence|done]).
  assert (Hi1 : pool_inv (Some next) (at_pc t WStart p1)).
  { destruct Hi. split; cbn; try assumption; rewrite ?Hkeep by done; try done; try lia.
    - rewrite Hadm. unfold waiting_jobs. cbn. rewrite !length_app. clear -Ea.
      destruct k; rewrite ?fn_lookup_insert, ?fn_lookup_insert_ne, ?Ea by done; cbn; lia.
    - intros k'. destruct (decide (k' = k)) as [->|]; [rewrite !fn_lookup_insert; lia|by rewrite !fn_lookup_insert_ne].
    - intros k' Hk'. rewrite over_one. unfold of_class at 1. destruct (decide (k' = k)) as [->|Hne].
      + rewrite fn_lookup_insert, decide_True by done. lia.
      + rewrite !fn_lookup_insert_ne, decide_False by congruence. rewrite Hkeep; [by apply b_inflight0|]. cbn. by rewrite decide_False by congruence.
    - intros k' Hk'. change (class_limit _ k') with (class_limit p k').
      destruct (decide (k' = k)) as [->|]; [rewrite fn_lookup_insert; lia|rewrite !fn_lookup_insert_ne by done; auto].
    - intros k'. change (class_limit _ k') with (class_limit p k'). intros Hz. rewrite fn_lookup_insert_ne by congruence. auto.
    - intros k' j. destruct (decide (k' = k)) as [->|]; [|rewrite fn_lookup_insert_ne by done; apply b_class0].
      rewrite fn_lookup_insert. intros Hj. apply b_class0. rewrite Ea. by right.
    - intros k'. change (class_limit _ k') with (class_limit p k'). destruct (decide (k' = k)) as [->|].
      + rewrite !fn_lookup_insert. intros _. assert (class_inflight p k = class_limit p k) by (apply b_full0; by rewrite Ea). lia.
      + rewrite !fn_lookup_insert_ne by done. auto.
    - congruence. }
  destruct (enqueue launches next p1) as [b p2] eqn:E.
  assert (E' : enqueue launches next (at_pc t WStart p1) = (b, at_pc t WStart p2)) by (by rewrite enqueue_at, E).
  pose proof (enqueue_inv _ _ _ _ Hi1 E') as Hq. cbn [fst snd] in Hq, H. destruct b; [|exfalso].
  2:{ destruct Hq as [_ Hq]. cbn in Hq. rewrite (b_threads _ _ Hi) in Hq. pose proof (over_at live _ t _ Ht). cbn in *. lia. }
  destruct Hq as [Hi2 _]. destruct (enqueue_frame _ _ _ _ _ E) as (F1 & F2 & F3 & F4 & F5 & F6).
  assert (Hjobs : all_jobs p2 ≡ₚ all_jobs p).
  { unfold all_jobs, waiting_jobs. rewrite F1, F2. cbn. clear -Ea.
    destruct k; rewrite ?fn_lookup_insert, ?fn_lookup_insert_ne, ?Ea by done; solve_Permutation. }
  assert (Ht2 : workers p2 !! t = Some (WBack k)).
  { destruct F6 as [-> | ->]; [done|]. by rewrite lookup_app_l. }
  assert (Hrun : running (workers p2) ≡ₚ running (workers p)).
  { destruct F6 as [-> | ->]; [done|]. by rewrite running_app, app_nil_r. }
  destruct (notify_cases _ _ _ H) as [[-> _]|[Hw2 ->]].
  - split_and!; try done. by rewrite Hst.
  - assert (Hwt : t <> w) by congruence. split_and!; try done; [|cbn; by rewrite list_lookup_insert_ne|by rewrite Hst|cbn; by rewrite (running_still _ w WWait)].
    assert (Hcomm : at_pc t WStart (at_pc w (WWoken false) p2) = at_pc w (WWoken false) (at_pc t WStart p2)).
    { unfold at_pc. cbn. by rewrite list_insert_insert_ne. }
    rewrite Hcomm. apply (at_inv None _ w WWait); try done. cbn. by rewrite list_lookup_insert_ne.
Qed.

(** ** The system *)

Definition pending_of (st : Stopper) : list BlockingJob := match st with SFailing js => js | _ => [] end.
Definition active (pc : WPc) : Prop := match pc with WWait | WGone => False | _ => True end.
Definition notified (st : Stopper) : Prop := match st with SWaiting | SReturned => True | _ => False end.

(** The jobs in the pool and those that have left it. *)
Definition jobs_of (s : BSys) : list BlockingJob :=
  all_jobs (pool s) ++ running (workers (pool s)) ++ pending_of (stopper s) ++ map fst (ended (pool s)).

Record sys_inv (s : BSys) : Prop := {
  y_pool : pool_inv None (pool s);
  y_jobs : jobs_of s ≡ₚ taken s;
  y_active : run_queue (pool s) <> [] -> 0 < notifies s \/ exists t pc, workers (pool s) !! t = Some pc /\ active pc;
  y_stopping : stopping (pool s) = true <-> stopper s <> SNone;
  y_notified : notified (stopper s) -> WWait ∉ workers (pool s);
  y_returned : stopper s = SReturned -> pool_threads (pool s) = 0%Z;
  y_outcomes : forall j o, (j, o) ∈ ended (pool s) -> o <> Ran -> stopping (pool s) = true /\ (o = Failed <-> has_fail j = true)
}.

Lemma live_active s : pool_inv None (pool s) -> (0 < pool_threads (pool s))%Z -> WWait ∉ workers (pool s) ->
  exists t pc, workers (pool s) !! t = Some pc /\ active pc.
Proof.
  intros Hi Ht Hw. rewrite (b_threads _ _ Hi) in Ht. unfold over in Ht.
  assert (Hp : exists t pc, workers (pool s) !! t = Some pc /\ 0 < live pc).
  { clear -Ht. induction (workers (pool s)) as [|qc ws IH]; cbn in Ht; [lia|]. destruct (decide (0 < live qc)) as [|Hq]; [by exists 0, qc|].
    destruct IH as (t & pc & E & Hl); [lia|]. by exists (S t), pc. }
  destruct Hp as (t & pc & E & Hl). exists t, pc. split; [done|]. destruct pc; cbn in *; try done; [|lia].
  apply Hw. by apply list_elem_of_lookup_2 in E.
Qed.

Lemma insert_no_wait t pc (ws : list WPc) : WWait ∉ ws -> pc <> WWait -> WWait ∉ <[t := pc]> ws.
Proof. intros Hw Hne (u & Hu)%list_elem_of_lookup. apply list_lookup_insert_Some in Hu as [(_ & E & _)|[_ Hu]]; [congruence|]. apply Hw. by apply list_elem_of_lookup_2 in Hu. Qed.

Definition work_of (p : BPool) : list BlockingJob := all_jobs p ++ running (workers p).

Record turned (p p' : BPool) : Prop := {
  tn_work : work_of p' ≡ₚ work_of p;
  tn_ended : ended p' = ended p;
  tn_stopping : stopping p' = stopping p;
  tn_active : run_queue p' <> [] -> exists u pc, workers p' !! u = Some pc /\ active pc;
  tn_notified : stopping p = true -> WWait ∉ workers p -> WWait ∉ workers p'
}.

Lemma turn_spec t p pc : workers p !! t = Some pc -> running_job pc = None -> turned p (worker_turn t p).
Proof.
  intros Ht Hr. pose proof (lookup_lt_Some _ _ _ Ht) as Hlt. unfold worker_turn. destruct (run_queue p) as [|job q] eqn:Eq; [destruct (stopping p) eqn:Es|].
  - split; cbn -[work_of]; try done; [|by intros _ ?; apply insert_no_wait].
    unfold work_of. cbn. change (all_jobs (retire t p)) with (all_jobs p). by rewrite (running_still _ t pc).
  - split; cbn -[work_of]; try done; [|by rewrite Es].
    unfold work_of. cbn. change (all_jobs _) with (all_jobs p). by rewrite (running_still _ t pc).
  - split; cbn -[work_of]; try done.
    + unfold work_of, all_jobs. cbn. change (waiting_jobs (set_workers _ _ _)) with (waiting_jobs p). rewrite Eq.
      pose proof (running_move (workers p) t pc (WRun job) Ht) as H. rewrite Hr in H. cbn in H. rewrite H. solve_Permutation.
    + intros _. exists t, (WRun job). split; [by apply list_lookup_insert_eq|done].
    + intros _ Hw. by apply insert_no_wait.
Qed.

Lemma turned_from p1 p p' : work_of p1 ≡ₚ work_of p -> ended p1 = ended p -> stopping p1 = stopping p -> (WWait ∉ workers p -> stopping p = true -> WWait ∉ workers p1) ->
  turned p1 p' -> turned p p'.
Proof. intros H1 H2 H3 H4 []. split; try congruence; [by rewrite tn_work0|done|]. intros Hs Hw. apply tn_notified0; [congruence|auto]. Qed.

Lemma woken_spec t b p : workers p !! t = Some (WWoken b) -> turned p (worker_woken t b p).
Proof.
  intros Ht. unfold worker_woken. destruct (b && _ && _) eqn:E.
  - apply andb_prop in E as [[_ Eq]%andb_prop Es]. apply bool_decide_eq_true in Eq. cbn in Eq, Es.
    split; cbn -[work_of]; try done; [|by intros _ ?; apply insert_no_wait].
    unfold work_of. cbn. change (all_jobs (retire _ _)) with (all_jobs p). by rewrite (running_still _ t (WWoken b)).
  - eapply (turned_from (set_idle (u64 (idle p - 1)) p)); try done. by eapply turn_spec.
Qed.

(** What a step of a thread does to the pool. *)
Lemma worker_step_spec t launches timed_out w p p' : pool_inv None p -> worker_step t launches timed_out w p = Some p' ->
  pool_inv None p' /\ (0 < pool_threads p)%Z /\ stopping p' = stopping p /\
  work_of p' ++ map fst (ended p') ≡ₚ work_of p ++ map fst (ended p) /\
  (run_queue p' <> [] -> exists u pc, workers p' !! u = Some pc /\ active pc) /\
  (stopping p = true -> WWait ∉ workers p -> WWait ∉ workers p') /\
  (forall j o, (j, o) ∈ ended p' -> (j, o) ∈ ended p \/ o = Ran).
Proof.
  intros Hi H. unfold worker_step in H. destruct (workers p !! t) as [pc|] eqn:Ht; [|done]. cbn [mbind option_bind] in H.
  pose proof (lookup_lt_Some _ _ _ Ht) as Hlt. pose proof (over_at live _ t pc Ht) as Hl. pose proof (b_threads _ _ Hi) as Hth.
  assert (Hturned : forall q, turned p q -> pool_inv None q -> pc <> WGone -> pool_inv None q /\ (0 < pool_threads p)%Z /\ stopping q = stopping p /\
    work_of q ++ map fst (ended q) ≡ₚ work_of p ++ map fst (ended p) /\ (run_queue q <> [] -> exists u qc, workers q !! u = Some qc /\ active qc) /\
    (stopping p = true -> WWait ∉ workers p -> WWait ∉ workers q) /\ (forall j o, (j, o) ∈ ended q -> (j, o) ∈ ended p \/ o = Ran)).
  { intros q [T1 T2 T3 T4 T5] Hq Hne. split_and!; try done; [destruct pc; cbn in Hl; try done; lia|by rewrite T1, T2|]. rewrite T2. auto. }
  destruct pc as [| |b|job|k|]; try done.
  - injection H as <-. apply Hturned; [by eapply turn_spec|by apply turn_inv|done].
  - injection H as <-. assert (Hi' : pool_inv None (at_pc t (WWoken timed_out) p)) by (by apply (at_inv None p t WWait)).
    apply Hturned; [|exact Hi'|done]. split; try done; cbn -[work_of].
    + unfold work_of. cbn. change (all_jobs _) with (all_jobs p). by rewrite (running_still _ t WWait).
    + intros _. exists t, (WWoken timed_out). split; [by apply list_lookup_insert_eq|done].
    + intros _ Hw. by apply insert_no_wait.
  - injection H as <-. apply Hturned; [by apply woken_spec|by apply woken_inv|done].
  - injection H as <-. assert (Hi' : pool_inv None (at_pc t (WBack (klass job)) p)).
    { apply (at_inv None p t (WRun job)); done. }
    split; [destruct Hi'; split; assumption|]. split; [cbn in Hl; lia|]. split; [done|]. split_and!.
    + unfold work_of. cbn. change (all_jobs _) with (all_jobs p). rewrite map_app. cbn.
      pose proof (running_move (workers p) t _ (WBack (klass job)) Ht) as Hm. cbn in Hm. rewrite <- Hm. solve_Permutation.
    + intros _. exists t, (WBack (klass job)). split; [by apply list_lookup_insert_eq|done].
    + intros _ Hw. by apply insert_no_wait.
    + cbn. intros j o [Hin|[= -> ->]%list_elem_of_singleton]%elem_of_app; auto.
  - destruct (release_admission launches w k p) as [p1|] eqn:E; [|done]. injection H as <-.
destruct (release_spec _ _ _ _ _ _ Hi Ht E) as (Hi1 & Ht1 & Hj & He & Hs & _ & Hw & Hrun). pose proof (lookup_lt_Some _ _ _ Ht1) as Hlt1.
    apply Hturned; [|rewrite <- (turn_at t WStart); apply turn_inv; [done|by apply list_lookup_insert_eq]|done].
    apply (turned_from p1); try done; [unfold work_of; by rewrite Hj, Hrun| |by eapply turn_spec].
    intros Hno Hst. by destruct (Hw Hst) as [-> _].
Qed.

(** * What the blocking pool promises

    Admission is exact and bounded, a queued job always has a thread that will
    come to it, and a shutdown leaves no accepted job behind. *)

(** ** Every interleaving *)

Lemma pending_waiting p : pending_jobs p ≡ₚ waiting_jobs p.
Proof. unfold pending_jobs, waiting_jobs. rewrite !reverse_Permutation. solve_Permutation. Qed.

Lemma map_no_wait ws : WWait ∉ map (fun pc => if decide (pc = WWait) then WWoken false else pc) ws.
Proof. intros (pc & E & _)%list_elem_of_In%in_map_iff. by case_decide. Qed.

Lemma notify_all_inv x p : pool_inv x p -> pool_inv x (notify_all p).
Proof.
  intros Hi. assert (Hover : forall f : WPc -> nat, f (WWoken false) = f WWait -> over f (workers (notify_all p)) = over f (workers p)).
  { intros f E. unfold notify_all, over. cbn. induction (workers p) as [|pc ws IH]; cbn; [done|]. rewrite IH. case_decide as Hd; [subst; lia|done]. }
  unfold notify_all in *. cbn in Hover. destruct Hi. split; cbn; try assumption; rewrite ?Hover by done; try done.
  intros k Hk. rewrite Hover by done. by apply b_inflight.
Qed.

Lemma running_notify_all p : running (workers (notify_all p)) = running (workers p).
Proof. unfold notify_all, running. cbn. induction (workers p) as [|pc ws IH]; cbn; [done|]. rewrite IH. by destruct pc. Qed.

Lemma jobs_split s : jobs_of s ≡ₚ (work_of (pool s) ++ map fst (ended (pool s))) ++ pending_of (stopper s).
Proof. unfold jobs_of, work_of. solve_Permutation. Qed.

Lemma submit_sys s launches job r n p : sys_inv s -> submit launches job (pool s) = (r, n, p) ->
  sys_inv (mkBSys p (stopper s) (notifies s + (if n then 1 else 0)) (match r with accepted => taken s ++ [job] | _ => taken s end)).
Proof.
  intros [Hi Hj Ha Hs Hn Hr Ho] H. destruct (submit_spec _ _ _ _ _ _ Hi H) as (Hi' & E1 & E2 & _ & E3 & E4).
  assert (Hws : workers p = workers (pool s) \/ workers p = workers (pool s) ++ [WStart]) by (destruct r; [by destruct E4 as (_ & _ & ?)|left; by destruct E4 as (_ & ? & _)..]).
  assert (Hrun : running (workers p) = running (workers (pool s))).
  { destruct Hws as [-> | ->]; [done|]. by rewrite running_app, app_nil_r. }
  split; cbn; rewrite ?E1, ?E2; try done.
  - unfold jobs_of in *. cbn. rewrite E1, Hrun. destruct r; [destruct E4 as (-> & _)|destruct E4 as (-> & _); exact Hj..].
    rewrite <- Hj. solve_Permutation.
  - intros Hq. destruct n; [left; lia|]. assert (Eq : run_queue p = run_queue (pool s)).
    { destruct r; [by destruct E4 as (_ & E4 & _); apply E4|by destruct E4 as (_ & _ & ? & _)..]. }
    rewrite Eq in Hq. destruct (Ha Hq) as [?|(t & pc & Ht & Hpc)]; [left; lia|right]. exists t, pc. split; [|done].
    destruct Hws as [-> | ->]; [done|]. apply lookup_app_l_Some. done.
  - intros Hst Hin. apply (Hn Hst). destruct Hws as [E|E]; rewrite E in Hin; [done|]. apply elem_of_app in Hin as [?|Hin]; [done|].
    by apply list_elem_of_singleton in Hin.
  - intros Hst. specialize (Hr Hst). assert (Hstop : stopping (pool s) = true) by (apply Hs; by rewrite Hst).
    apply E3 in Hstop. subst r. destruct E4 as (_ & E4 & _). by rewrite (b_threads _ _ Hi'), E4, <- (b_threads _ _ Hi).
Qed.

Lemma notify_sys s w p : sys_inv s -> 0 < notifies s -> notify_one w (pool s) = Some p ->
  sys_inv (mkBSys p (stopper s) (notifies s - 1) (taken s)).
Proof.
  intros [Hi Hj Ha Hs Hn Hr Ho] Hpos H. pose proof (notify_inv _ _ _ _ Hi H) as Hi'.
  destruct (notify_cases _ _ _ H) as [[-> Hw]|[Hw ->]].
  - split; try done. intros Hq. right. apply (live_active (mkBSys (pool s) (stopper s) (notifies s) (taken s))); [done| |done]. by apply (b_served _ _ Hi).
  - split; cbn -[at_pc]; try done.
    + unfold jobs_of in *. cbn. change (all_jobs (at_pc w (WWoken false) (pool s))) with (all_jobs (pool s)). by rewrite (running_still _ w WWait).
    + intros _. right. exists w, (WWoken false). split; [|done]. apply list_lookup_insert_eq. by apply lookup_lt_Some in Hw.
    + intros Hst. cbn. apply insert_no_wait; [by apply Hn|done].
Qed.

Lemma worker_sys s t launches timed_out w p : sys_inv s -> worker_step t launches timed_out w (pool s) = Some p ->
  sys_inv (mkBSys p (stopper s) (notifies s) (taken s)).
Proof.
  intros [Hi Hj Ha Hs Hn Hr Ho] H. destruct (worker_step_spec _ _ _ _ _ _ Hi H) as (Hi' & Hpos & E1 & E2 & E3 & E4 & E5).
  split; cbn; rewrite ?E1; try done.
  - rewrite jobs_split in Hj. rewrite jobs_split. cbn. by rewrite E2.
  - intros Hq. right. auto.
  - intros Hst. apply E4; [|auto]. apply Hs. by destruct (stopper s).
  - intros Hst. specialize (Hr Hst). lia.
  - intros j o Hin Hne. destruct (E5 j o Hin) as [?|?]; [auto|done].
Qed.

Lemma shutdown_sys s s' : sys_inv s -> shutdown_step s = Some s' -> sys_inv s'.
Proof.
  intros [Hi Hj Ha Hs Hn Hr Ho] H. unfold shutdown_step in H. destruct (stopper s) as [|[|j js]| | |] eqn:Est; try done.
  - assert (Hbegin : pool_inv None (shutdown_begin (pool s)).2).
    { destruct Hi. split; cbn; try assumption; try done; try lia. by intros k j []%not_elem_of_nil. }
    assert (Hjobs : all_jobs (pool s) ≡ₚ all_jobs (shutdown_begin (pool s)).2 ++ (shutdown_begin (pool s)).1).
    { unfold all_jobs, shutdown_begin. cbn. rewrite pending_waiting. change (waiting_jobs (mkPool _ _ _ _ _ _ (fun _ => []) _ _ _ _ _)) with (@nil BlockingJob). by rewrite app_nil_r. }
    destruct (shutdown_begin (pool s)).1 as [|j js] eqn:Ep; injection H as <-.
    + split; cbn -[notify_all shutdown_begin]; try done.
      * by apply notify_all_inv.
      * rewrite jobs_split in Hj. rewrite jobs_split. cbn -[notify_all shutdown_begin]. rewrite Est in Hj. rewrite <- Hj. unfold work_of.
        rewrite running_notify_all. change (all_jobs (notify_all _)) with (all_jobs (shutdown_begin (pool s)).2). rewrite Hjobs. by rewrite !app_nil_r.
      * intros Hq. right. apply (live_active (mkBSys (notify_all (shutdown_begin (pool s)).2) SWaiting 0 [])); [by apply notify_all_inv| |apply map_no_wait].
        by apply (b_served _ _ Hi).
      * intros _. apply map_no_wait.
      * intros j o Hin Hne. split; [done|]. by apply (Ho j o).
    + split; cbn -[shutdown_begin jobs_of]; try done.
      * rewrite jobs_split in Hj. rewrite jobs_split. cbn -[shutdown_begin]. rewrite Est in Hj. rewrite <- Hj. unfold work_of.
        rewrite Hjobs. cbn -[shutdown_begin]. change (workers (shutdown_begin (pool s)).2) with (workers (pool s)).
        change (ended (shutdown_begin (pool s)).2) with (ended (pool s)). solve_Permutation.
      * intros j' o Hin Hne. split; [done|]. by apply (Ho j' o).
  - injection H as <-. split; cbn; try done; [unfold jobs_of in *; by rewrite Est in Hj|]. split; [done|]. intros _. by apply Hs.
  - injection H as <-. assert (Hst : stopping (pool s) = true) by (apply Hs; done). split; cbn; try done.
    + destruct Hi. split; assumption.
    + unfold jobs_of in *. cbn. rewrite Est in Hj. rewrite <- Hj, map_app. cbn. change (all_jobs (end_job _ _ _)) with (all_jobs (pool s)). solve_Permutation.
    + intros j' o [Hin|[= -> ->]%list_elem_of_singleton]%elem_of_app Hne; [by apply (Ho j' o)|]. split; [done|]. by destruct (has_fail j).
  - injection H as <-. assert (Hst : stopping (pool s) = true) by (apply Hs; done). split; cbn -[notify_all]; try done.
    + by apply notify_all_inv.
    + unfold jobs_of in *. cbn -[notify_all]. rewrite running_notify_all. by rewrite Est in Hj.
    + intros Hq. right. apply (live_active (mkBSys (notify_all (pool s)) SWaiting 0 [])); [by apply notify_all_inv| |apply map_no_wait]. by apply (b_served _ _ Hi).
    + intros _. apply map_no_wait.
  - case_decide as Hz; [|done]. injection H as <-.
    split; cbn; try done; [unfold jobs_of in *; by rewrite Est in Hj|]. split; [done|]. intros _. by apply Hs.
Qed.

Definition b_reachable (l : BlockingLimits) (s : BSys) : Prop := rtc b_step (b_init l) s.

(** Sizes as the program can write them; zero threads or jobs mean the default. *)
Definition sizes (l : BlockingLimits) : Prop :=
  (0 <= max_threads l < 2 ^ 64 /\ 0 <= max_queue l < 2 ^ 64 /\ 0 <= max_file_operations l < 2 ^ 64 /\ 0 <= max_resolver_operations l < 2 ^ 64)%Z.

Lemma b_reachable_inv l s : sizes l -> b_reachable l s -> sys_inv s.
Proof.
  intros Hl H. assert (H0 : sys_inv (b_init l)).
  { unfold sizes in Hl. split; cbn; try done; try (by intros j o []%not_elem_of_nil).
    split; cbn; try done; try lia; try (by intros k j []%not_elem_of_nil); unfold limits_ok; cbn; repeat case_decide; try lia; by intros []; cbn; lia. }
  unfold b_reachable in H. revert H0. generalize dependent (b_init l). intros s0 H H0.
  induction H as [s|s s1 s2 Hs _ IH]; [done|]. apply IH.
  destruct Hs; [by eapply submit_sys|by eapply notify_sys|by eapply worker_sys|by eapply shutdown_sys].
Qed.

(** ** Properties *)

(** C30: the counters of the pool are exact and its limits hold, in every
    interleaving of submissions, threads and shutdown: queued and waiting jobs
    together never exceed [max_queue], threads never exceed [max_threads], a
    limited class has at most its limit of jobs admitted, queued or running,
    and a job waits for admission only while its class is at its limit. *)
Theorem blocking_admission_exact l s (p := pool s) : sizes l -> b_reachable l s ->
  queued p = Z.of_nat (length (run_queue p)) /\ admission_queued p = Z.of_nat (length (waiting_jobs p)) /\
  (queued p + admission_queued p <= max_queue (limits p))%Z /\
  pool_threads p = Z.of_nat (over live (workers p)) /\ (pool_threads p <= max_threads (limits p))%Z /\
  idle p = Z.of_nat (over waits (workers p)) /\
  forall k, class_limit p k <> 0%Z ->
    class_inflight p k = Z.of_nat (over (of_class k) (run_queue p) + over (busy k) (workers p)) /\
    (class_inflight p k <= class_limit p k)%Z /\
    (admission p k <> [] -> class_inflight p k = class_limit p k).
Proof.
  intros Hl Hr. pose proof (y_pool _ (b_reachable_inv l s Hl Hr)) as Hi. subst p. pose proof (b_room _ _ Hi) as Hroom. cbn in Hroom.
  split_and!; try apply Hi. intros k Hk. split_and!; by apply Hi.
Qed.

(** An active thread of the pool can take its step. *)
Lemma active_steps p t pc : workers p !! t = Some pc -> active pc -> exists launches w p', worker_step t launches false w p = Some p'.
Proof.
  intros Ht Ha. unfold worker_step. destruct pc as [| |b|job|k|]; try done; try (exists false, 0; rewrite Ht; by eexists).
  assert (Hr : exists w p', release_admission false w k p = Some p').
  { unfold release_admission. case_decide; [by exists 0; eexists|]. destruct (admission _ k); [by exists 0; eexists|].
    destruct (enqueue _ _ _) as [[] p2]; cbn; [|by exists 0; eexists]. unfold notify_one. case_decide as Hw; [|by exists 0; eexists].
    apply list_elem_of_lookup in Hw as [w Hw]. exists w. rewrite decide_True by done. by eexists. }
  destruct Hr as (w & p' & E). exists false, w. rewrite Ht. cbn. rewrite E. by eexists.
Qed.

(** No accepted job is stranded. While a job is queued the pool has a
    thread, and some thread that is not asleep can take its next step, or a
    submitter is about to wake one, which it then does; a pool that is shutting
    down has no thread asleep, so it too goes on until its threads are gone. *)
Theorem queued_job_served l s (p := pool s) : sizes l -> b_reachable l s ->
  (run_queue p <> [] -> (0 < pool_threads p)%Z /\
    ((0 < notifies s /\ exists w p', notify_one w p = Some p' /\ exists t pc, workers p' !! t = Some pc /\ active pc) \/
     exists t launches w p', worker_step t launches false w p = Some p')) /\
  (stopper s = SWaiting -> (0 < pool_threads p)%Z -> exists t launches w p', worker_step t launches false w p = Some p').
Proof.
  intros Hl Hr. pose proof (b_reachable_inv l s Hl Hr) as Hy. pose proof (y_pool _ Hy) as Hi. subst p. split.
  - intros Hq. pose proof (b_served _ _ Hi Hq) as Hpos. split; [done|]. destruct (y_active _ Hy Hq) as [Hn|(t & pc & Ht & Ha)].
    + left. split; [done|]. unfold notify_one. case_decide as Hw.
      * apply list_elem_of_lookup in Hw as [w Hw]. exists w, (at_pc w (WWoken false) (pool s)). split; [by rewrite decide_True|].
        exists w, (WWoken false). split; [|done]. apply list_lookup_insert_eq. by apply lookup_lt_Some in Hw.
      * exists 0, (pool s). split; [done|]. by apply live_active.
    + right. exists t. by eapply active_steps.
  - intros Hst Hpos. destruct (live_active s Hi Hpos) as (t & pc & Ht & Ha); [apply (y_notified _ Hy); by rewrite Hst|].
    exists t. by eapply active_steps.
Qed.

(** C29: every accepted job is at any time in exactly one place: queued, waiting
    for admission, running, about to be failed by the shutdown, or ended; it is
    failed (or dropped, if it has no [fail]) only once the pool is stopping, and
    when [shutdown] has returned every accepted job has ended. *)
Theorem accepted_jobs_end l s : sizes l -> b_reachable l s ->
  jobs_of s ≡ₚ taken s /\
  (forall j o, (j, o) ∈ ended (pool s) -> o <> Ran -> stopping (pool s) = true /\ (o = Failed <-> has_fail j = true)) /\
  (stopper s = SReturned -> map fst (ended (pool s)) ≡ₚ taken s).
Proof.
  intros Hl Hr. pose proof (b_reachable_inv l s Hl Hr) as Hy. pose proof (y_pool _ Hy) as Hi. split_and!; [apply Hy|apply Hy|].
  intros Hst. pose proof (y_returned _ Hy Hst) as Hz. rewrite <- (y_jobs _ Hy). unfold jobs_of, all_jobs, waiting_jobs. rewrite Hst. cbn.
  assert (Hstop : stopping (pool s) = true) by (apply (y_stopping _ Hy); by rewrite Hst).
  rewrite !(b_stopping _ _ Hi Hstop).
  destruct (run_queue (pool s)) eqn:Eq; [|pose proof (b_served _ _ Hi); rewrite Eq in *; specialize (H ltac:(done)); lia].
  assert (Hrun : running (workers (pool s)) = []).
  { rewrite (b_threads _ _ Hi) in Hz. assert (Hz' : over live (workers (pool s)) = 0) by lia. clear -Hz'.
    induction (workers (pool s)) as [|pc ws IH]; [done|]. rewrite over_cons in Hz'. unfold running in *. cbn. rewrite IH by lia. destruct pc; cbn in Hz'; done || lia. }
  by rewrite Hrun.
Qed.

(** ** Runs *)

Inductive BMove := BSubmit (launches : bool) (job : BlockingJob) | BNotify (w : nat) | BWorker (t : nat) | BShutdown.

Definition b_move (m : BMove) (s : BSys) : option BSys :=
  match m with
  | BSubmit launches job =>
      let '(r, n, p) := submit launches job (pool s) in
      Some (mkBSys p (stopper s) (notifies s + (if n then 1 else 0)) (match r with accepted => taken s ++ [job] | _ => taken s end))
  | BNotify w =>
      if decide (0 < notifies s) then p ← notify_one w (pool s); Some (mkBSys p (stopper s) (notifies s - 1) (taken s)) else None
  | BWorker t => p ← worker_step t true false 0 (pool s); Some (mkBSys p (stopper s) (notifies s) (taken s))
  | BShutdown => shutdown_step s
  end.

Fixpoint b_moves (ms : list BMove) (s : BSys) : option BSys :=
  match ms with [] => Some s | m :: ms => s' ← b_move m s; b_moves ms s' end.

Lemma b_moves_steps ms s s' : b_moves ms s = Some s' -> rtc b_step s s'.
Proof.
  revert s. induction ms as [|m ms IH]; intros s H; simpl in H; [by injection H as ->|].
  destruct (b_move m s) as [s1|] eqn:E; [|done]. eapply rtc_l; [|by apply IH]. destruct m; simpl in E.
  - destruct (submit launches job (pool s)) as [[r n] p] eqn:Es. injection E as <-. by eapply bs_submit.
  - case_decide as Hn; [|done]. destruct (notify_one w (pool s)) as [p|] eqn:En; [|done]. injection E as <-. by eapply bs_notify.
  - destruct (worker_step t true false 0 (pool s)) as [p|] eqn:En; [|done]. injection E as <-. by eapply bs_worker.
  - by eapply bs_shutdown.
Qed.

Definition b_run (l : BlockingLimits) (ms : list BMove) : BSys := default (b_init l) (b_moves ms (b_init l)).

Lemma b_run_reachable l ms : b_reachable l (b_run l ms).
Proof. unfold b_reachable, b_run. destruct (b_moves ms (b_init l)) as [s|] eqn:E; [by eapply b_moves_steps|done]. Qed.

Definition two_threads : BlockingLimits := mkLimits 2 4 1 0.
Definition a_file : BlockingJob := mkJob 1 file true.
Definition b_file : BlockingJob := mkJob 2 file true.

(** One file job runs, the next waits for its slot. *)
Definition busy_moves : list BMove := [BSubmit true a_file; BNotify 0; BWorker 0; BSubmit true b_file].

Lemma blocking_admission_exact_witness :
  let p := pool (b_run two_threads busy_moves) in
  class_limit p file = 1%Z /\ admission p file = [b_file] /\ class_inflight p file = class_limit p file.
Proof.
  set (s := b_run _ _). intros p. split; [done|]. split; [by vm_compute|].
  destruct (blocking_admission_exact two_threads s) as (_ & _ & _ & _ & _ & _ & H); [by unfold sizes; cbn; lia|apply b_run_reachable|].
  destruct (H file) as (_ & _ & F); [by vm_compute|]. apply F. by vm_compute.
Defined.

Lemma queued_job_served_witness :
  let s := b_run two_threads [BSubmit true a_file] in run_queue (pool s) = [a_file] /\ (0 < pool_threads (pool s))%Z.
Proof.
  intros s. split; [by vm_compute|]. destruct (queued_job_served two_threads s) as [H _]; [by unfold sizes; cbn; lia|apply b_run_reachable|].
  apply H. by vm_compute.
Defined.

Lemma accepted_jobs_end_witness :
  let s := b_run two_threads (busy_moves ++ [BShutdown; BShutdown; BShutdown; BShutdown; BWorker 0; BWorker 0; BShutdown]) in
  stopper s = SReturned /\ ended (pool s) = [(b_file, Failed); (a_file, Ran)] /\ map fst (ended (pool s)) ≡ₚ taken s.
Proof.
  intros s. split; [by vm_compute|]. split; [by vm_compute|].
  destruct (accepted_jobs_end two_threads s) as (_ & _ & H); [by unfold sizes; cbn; lia|apply b_run_reachable|]. apply H. by vm_compute.
Defined.
