(* ===== verification/Endpoint.v ===== *)
(** * The completion endpoint (src/scheduler.cpp, include/cio/detail/completion.hpp)

    The word that counts the leases of a scheduler and closes it: locking a
    target, releasing a lease, and the retirement that a shutdown waits for. Every
    atomic access is a step; a thread in [atomic::wait] sleeps until it is
    notified (or wakes for nothing) and then reads the word again. *)

From S2P Require Import Prelude.

Set Default Proof Using "Type".

Definition kClosed : Z := Z.shiftl 1 63.
Definition kCountMask : Z := kClosed - 1.

Definition closed_bit (v : Z) : bool := negb (bool_decide (Z.land v kClosed = 0%Z)).
Definition lease_count (v : Z) : Z := Z.land v kCountMask.

(** [target] is the scheduler pointer: not null. *)
Record CompletionEndpoint := mkEndpoint { ep_state : Z; ep_scheduler : bool }.

(** A thread that locks the target: at rest, before the load, before the
    exchange, counted and before the pointer, with a lease, before [notify_all]. *)
Inductive LPc := LRest | LLoad | LCas (observed : Z) | LCounted | LHeld | LNotify.

(** The retirement: not begun, with a value just read, in [wait] for a value
    to change, before the load, before it clears the pointer, done. *)
Inductive Retire := RIdle | RSeen (observed : Z) | RAsleep (observed : Z) | RLoad | RClear | RDone.

Record EpSys := mkEpSys { ep : CompletionEndpoint; lockers : list LPc; retirement : Retire }.

Definition ep_go (t : nat) (pc : LPc) (v : Z) (s : EpSys) : EpSys :=
  mkEpSys (mkEndpoint v (ep_scheduler (ep s))) (<[t := pc]> (lockers s)) (retirement s).

(** [release_completion_endpoint]: the subtraction, and whether it notifies. *)
Definition release_lease (v : Z) : Z * bool :=
  (u64 (v - 1), closed_bit v && bool_decide (lease_count v = 1%Z)).

(** [SchedulerTarget::lock] and the release of its lease; [weak] is an exchange
    that fails for nothing. *)
Definition lock_step (t : nat) (weak : bool) (s : EpSys) : option EpSys :=
  let v := ep_state (ep s) in
  let release := let r := release_lease v in Some (ep_go t (if r.2 then LNotify else LRest) r.1 s) in
  pc ← lockers s !! t;
  match pc with
  | LRest => Some (ep_go t LLoad v s)
  | LLoad => Some (ep_go t (LCas v) v s)
  | LCas observed =>
      if closed_bit observed || bool_decide (lease_count observed = kCountMask) then Some (ep_go t LRest v s)
      else if decide (v = observed /\ weak = false) then Some (ep_go t LCounted (u64 (observed + 1)) s)
      else Some (ep_go t (LCas v) v s)
  | LCounted => if ep_scheduler (ep s) then Some (ep_go t LHeld v s) else release
  | LHeld => release
  | LNotify =>
      Some (mkEpSys (ep s) (<[t := LRest]> (lockers s)) (match retirement s with RAsleep _ => RLoad | r => r end))
  end.

(** [retire_completion_target]; [spurious] ends a wait for nothing. *)
Definition retire_step (spurious : bool) (s : EpSys) : option EpSys :=
  let v := ep_state (ep s) in
  let at_ r := Some (mkEpSys (ep s) (lockers s) r) in
  match retirement s with
  | RIdle =>
      let v' := Z.lor v kClosed in
      Some (mkEpSys (mkEndpoint v' (ep_scheduler (ep s))) (lockers s) (RSeen v'))
  | RSeen observed =>
      if decide (lease_count observed <> 0%Z) then at_ (if decide (v = observed) then RAsleep observed else RLoad) else at_ RClear
  | RAsleep observed => if spurious then at_ RLoad else None
  | RLoad => at_ (RSeen v)
  | RClear => Some (mkEpSys (mkEndpoint v false) (lockers s) RDone)
  | RDone => None
  end.

Inductive ep_step : EpSys -> EpSys -> Prop :=
  | eps_lock t weak s s' : lock_step t weak s = Some s' -> ep_step s s'
  | eps_retire spurious s s' : retire_step spurious s = Some s' -> ep_step s s'.

Definition ep_init (count : nat) : EpSys := mkEpSys (mkEndpoint 0 true) (replicate count LRest) RIdle.

(** ** Words *)

Definition word (closed : bool) (n : Z) : Z := (if closed then kClosed else 0) + n.

#[global] Arguments word : simpl never.
#[global] Arguments kClosed : simpl never.
#[global] Arguments lease_count : simpl never.
#[global] Arguments Z.lor : simpl never.

Lemma kClosed_eq : kClosed = (2 ^ 63)%Z.
Proof. done. Qed.

Lemma word_count c n : (0 <= n < 2 ^ 63)%Z -> lease_count (word c n) = n.
Proof.
  intros Hn. unfold lease_count, kCountMask. replace (kClosed - 1)%Z with (Z.ones 63) by done. rewrite Z.land_ones by lia.
  unfold word. rewrite kClosed_eq. destruct c; [|by apply Z.mod_small].
  replace (2 ^ 63 + n)%Z with (n + 1 * 2 ^ 63)%Z by lia. rewrite Z.mod_add by lia. by apply Z.mod_small.
Qed.

Lemma word_bit c n : (0 <= n < 2 ^ 63)%Z -> Z.testbit (word c n) 63 = c.
Proof.
  intros Hn. rewrite Z.testbit_odd, Z.shiftr_div_pow2 by lia. unfold word. rewrite kClosed_eq.
  assert ((if c then 2 ^ 63 else 0) + n = (if c then 1 else 0) * 2 ^ 63 + n)%Z as -> by (destruct c; lia).
  rewrite Z.div_add_l by lia. rewrite (Z.div_small n) by done. by destruct c.
Qed.

Lemma word_closed c n : (0 <= n < 2 ^ 63)%Z -> closed_bit (word c n) = c.
Proof.
  intros Hn. unfold closed_bit.
  assert (Z.land (word c n) kClosed = if c then kClosed else 0)%Z as ->; [|by destruct c].
  apply Z.bits_inj'. intros i Hi. rewrite Z.land_spec, kClosed_eq, Z.pow2_bits_eqb by lia.
  destruct (Z.eqb_spec 63 i) as [<-|Hne].
  - rewrite (word_bit c n Hn). by destruct c.
  - rewrite andb_false_r. destruct c; [|by rewrite Z.bits_0]. by rewrite Z.pow2_bits_false.
Qed.

Lemma word_close n : (0 <= n < 2 ^ 63)%Z -> Z.lor (word false n) kClosed = word true n.
Proof.
  intros Hn. unfold word. rewrite <-Z.lxor_lor, <-Z.add_nocarry_lxor; [lia| |].
  all: pose proof (word_closed false n Hn) as Hc; unfold closed_bit, word in Hc; by case_bool_decide.
Qed.

Lemma word_inc n : (0 <= n < kCountMask)%Z -> u64 (word false n + 1) = word false (n + 1).
Proof. unfold kCountMask. rewrite kClosed_eq. intros Hn. rewrite u64_small by (unfold word; lia). unfold word. lia. Qed.

Lemma word_dec c n : (0 < n < 2 ^ 63)%Z -> u64 (word c n - 1) = word c (n - 1).
Proof. intros Hn. unfold word. rewrite kClosed_eq. rewrite u64_small by (destruct c; lia). lia. Qed.

Lemma release_word c n : (0 < n < 2 ^ 63)%Z ->
  release_lease (word c n) = (word c (n - 1), c && bool_decide (n = 1%Z)).
Proof. intros Hn. unfold release_lease. by rewrite word_dec, word_closed, word_count by lia. Qed.

(** ** The invariant *)

Definition holds_lease (pc : LPc) : nat := match pc with LCounted | LHeld => 1 | _ => 0 end.
Definition leases (s : EpSys) : nat := sum_list (map holds_lease (lockers s)).
#[global] Arguments leases : simpl never.
Definition begun (s : EpSys) : bool := match retirement s with RIdle => false | _ => true end.
Definition retired (s : EpSys) : bool := match retirement s with RDone => true | _ => false end.

(** The value that the retirement read counts at least today's leases. *)
Definition observed_covers (v : Z) (s : EpSys) : Prop :=
  exists k, v = word true k /\ (Z.of_nat (leases s) <= k < 2 ^ 63)%Z.

Definition retire_inv (s : EpSys) : Prop :=
  match retirement s with
  | RIdle | RLoad => True
  | RSeen v => observed_covers v s
  | RAsleep v => observed_covers v s /\ (leases s = 0 -> exists t, lockers s !! t = Some LNotify)
  | RClear | RDone => leases s = 0
  end.

Record ep_inv (s : EpSys) : Prop := {
  ei_count : (Z.of_nat (leases s) < 2 ^ 63)%Z;
  ei_word : ep_state (ep s) = word (begun s) (Z.of_nat (leases s));
  ei_pointer : ep_scheduler (ep s) = negb (retired s);
  ei_retire : retire_inv s }.

Lemma ep_init_inv count : ep_inv (ep_init count).
Proof.
  assert (leases (ep_init count) = 0) as E.
  { apply sum_zero. intros i pc Hpc. cbn in Hpc. by apply lookup_replicate in Hpc as [-> _]. }
  split; try done; by rewrite E.
Qed.

Lemma leases_go t pc v s : leases (ep_go t pc v s) = sum_list (map holds_lease (<[t := pc]> (lockers s))).
Proof. done. Qed.

(** A thread that moves without touching the count, to any place but [LNotify]'s. *)
Lemma locker_moves s t pc pc' : ep_inv s -> lockers s !! t = Some pc -> holds_lease pc' = holds_lease pc -> pc <> LNotify ->
  ep_inv (ep_go t pc' (ep_state (ep s)) s).
Proof.
  intros [Hc Hw Hp Hr] Ht E Hn. destruct (sum_insert holds_lease _ _ _ Ht) as (N & E1 & E2).
  assert (leases (ep_go t pc' (ep_state (ep s)) s) = leases s) as EL.
  { rewrite leases_go, E2, E, <-E1. done. }
  split; [by rewrite EL|by rewrite EL|done|]. unfold retire_inv, observed_covers in *. rewrite EL. cbn.
  destruct (retirement s); try done. destruct Hr as [Hr1 Hr2]. split; [done|].
  intros H0. destruct (Hr2 H0) as [u Hu]. exists u. rewrite list_lookup_insert_ne; [done|]. congruence.
Qed.

Lemma count_inv s t : ep_inv s -> lockers s !! t = Some (LCas (ep_state (ep s))) ->
  closed_bit (ep_state (ep s)) = false -> lease_count (ep_state (ep s)) <> kCountMask ->
  ep_inv (ep_go t LCounted (u64 (ep_state (ep s) + 1)) s).
Proof.
  intros [Hc Hw Hp Hr] Ht Hcl Hm. destruct (sum_insert holds_lease _ _ _ Ht) as (N & E1 & E2). cbn in E1.
  rewrite Hw, word_closed in Hcl by lia. rewrite Hw, word_count in Hm by lia.
  assert (leases (ep_go t LCounted (u64 (ep_state (ep s) + 1)) s) = S (leases s)) as EL.
  { rewrite leases_go, E2. unfold leases. rewrite E1. cbn. lia. }
  unfold begun in *. destruct (retirement s) eqn:Er; try done.
  unfold kCountMask in Hm. rewrite kClosed_eq in Hm.
  split; [rewrite EL; lia| | |].
  - rewrite EL. unfold begun. cbn. rewrite Er. rewrite Hw, word_inc; [f_equal; lia|]. unfold kCountMask. rewrite kClosed_eq. lia.
  - unfold retired in *. cbn. by rewrite Er in *.
  - unfold retire_inv. cbn. by rewrite Er.
Qed.

(** Who gives the last lease back after the close notifies. *)
Lemma release_inv_ep s t pc : ep_inv s -> lockers s !! t = Some pc -> holds_lease pc = 1 ->
  let r := release_lease (ep_state (ep s)) in ep_inv (ep_go t (if r.2 then LNotify else LRest) r.1 s).
Proof.
  intros [Hc Hw Hp Hr] Ht E. destruct (sum_insert holds_lease _ _ _ Ht) as (N & E1 & E2). rewrite E in E1.
  fold (leases s) in E1. rewrite Hw, release_word by lia. cbn [fst snd].
  set (pc' := if begun s && bool_decide _ then LNotify else LRest).
  assert (holds_lease pc' = 0) as E0 by (unfold pc'; by case_match).
  set (s' := ep_go _ _ _ s). assert (leases s' = N) as EL by (unfold s'; rewrite leases_go, E2, E0; lia).
  assert (begun s' = begun s /\ retired s' = retired s) as [Eb Ed] by done.
  split; [rewrite EL; lia|rewrite EL, Eb; cbn; f_equal; lia|by rewrite Ed|].
  unfold retire_inv, observed_covers in *. rewrite EL. cbn. destruct (retirement s) eqn:Er; try done; try lia.
  - destruct Hr as (k & -> & Hk). exists k. split; [done|lia].
  - destruct Hr as [(k & -> & Hk) _]. split; [exists k; split; [done|lia]|]. intros ->. exists t.
    rewrite list_lookup_insert_eq by (by eapply lookup_lt_Some). unfold pc', begun. rewrite Er, bool_decide_true by lia. done.
Qed.

Lemma ep_notify_inv s t : ep_inv s -> lockers s !! t = Some LNotify ->
  ep_inv (mkEpSys (ep s) (<[t := LRest]> (lockers s)) (match retirement s with RAsleep _ => RLoad | r => r end)).
Proof.
  intros [Hc Hw Hp Hr] Ht. destruct (sum_insert holds_lease _ _ _ Ht) as (N & E1 & E2). cbn in E1.
  assert (sum_list (map holds_lease (<[t := LRest]> (lockers s))) = leases s) as E.
  { rewrite E2. unfold leases. by rewrite E1. }
  destruct s as [e ls r]. unfold retire_inv, observed_covers, leases, begun, retired in *. cbn in *. rewrite <-E in *.
  destruct r; split; cbn; try done; by destruct Hr.
Qed.

Lemma lock_step_inv t weak s s' : ep_inv s -> lock_step t weak s = Some s' -> ep_inv s'.
Proof.
  intros Hi Hs. unfold lock_step in Hs. destruct (lockers s !! t) as [pc|] eqn:Ht; simpl in Hs; [|done].
  destruct pc as [| |observed| | |].
  - invc Hs. by apply (locker_moves s t LRest).
  - invc Hs. by apply (locker_moves s t LLoad).
  - destruct (_ || _) eqn:Hg; [invc Hs; by apply (locker_moves s t (LCas observed))|].
    apply orb_false_iff in Hg as [Hg1 Hg2%bool_decide_eq_false].
    case_decide as Hd; invc Hs; [|by apply (locker_moves s t (LCas observed))]. destruct Hd as [<- _]. by apply count_inv.
  - destruct (ep_scheduler (ep s)); invc Hs; [by apply (locker_moves s t LCounted)|]. by apply (release_inv_ep s t LCounted).
  - invc Hs. by apply (release_inv_ep s t LHeld).
  - invc Hs. by apply ep_notify_inv.
Qed.

(** The same threads, counted alike. *)
Lemma same_leases e e' ls r r' : leases (mkEpSys e ls r) = leases (mkEpSys e' ls r').
Proof. done. Qed.

Lemma retire_step_inv spurious s s' : ep_inv s -> retire_step spurious s = Some s' -> ep_inv s'.
Proof.
  intros [Hc Hw Hp Hr] Hs. unfold retire_step in Hs. unfold retire_inv, observed_covers, begun, retired in *.
  destruct s as [e ls r]. destruct e as [st sch]. cbn in Hw, Hp, Hr, Hs.
  rewrite (same_leases _ (mkEndpoint 0 true) ls _ RIdle) in *. subst st sch.
  set (n := leases (mkEpSys (mkEndpoint 0 true) ls RIdle)) in *.
  assert (forall e r, leases (mkEpSys e ls r) = n) as En by done.
  destruct r as [|v|v| | |]; cbn in Hr, Hs; try (destruct spurious; [|done]).
  - rewrite word_close in Hs by lia. invc Hs. split; rewrite ?En; try done. exists (Z.of_nat n). rewrite En. split; [done|lia].
  - destruct Hr as (k & -> & Hk). rewrite word_count in Hs by lia. case_decide as H0.
    + case_decide as Hv; invc Hs; split; rewrite ?En; try done. split; [exists k; by rewrite En|]. rewrite En. intros H1. exfalso.
      apply (f_equal lease_count) in Hv. rewrite !word_count in Hv by lia. lia.
    + invc Hs. split; rewrite ?En; try done. unfold retire_inv. cbn. rewrite En. lia.
  - by invc Hs.
  - invc Hs. split; rewrite ?En; try done. exists (Z.of_nat n). rewrite En. split; [done|lia].
  - by invc Hs.
  - done.
Qed.

Lemma ep_step_inv s s' : ep_inv s -> ep_step s s' -> ep_inv s'.
Proof. intros Hi Hs. invc Hs; [by eapply lock_step_inv|by eapply retire_step_inv]. Qed.

Lemma ep_reachable_inv count s : reachable (fun s => s = ep_init count) ep_step s -> ep_inv s.
Proof.
  apply (reachable_invariant ep_inv); [intros ? ->; apply ep_init_inv|]. intros s1 s2 _. apply ep_step_inv.
Qed.

(** ** Properties *)

(** The retirement running alone, woken for nothing by no one. *)
Fixpoint retire_alone (fuel : nat) (s : EpSys) : EpSys :=
  match fuel with
  | O => s
  | S fuel => match retire_step false s with Some s' => retire_alone fuel s' | None => s end
  end.

Lemma lease_count_pos s t pc : lockers s !! t = Some pc -> holds_lease pc = 1 -> 0 < leases s.
Proof. intros Ht E. pose proof (sum_ge holds_lease _ _ _ Ht). unfold leases. lia. Qed.

(** From every reachable state in which each thread that
    counts or owes a notification has gone on, the retirement, alone and without
    a spurious wake, returns within four steps with the pointer cleared: it is
    never left asleep. *)
Lemma retirement_ends s : ep_inv s ->
  (forall t pc, lockers s !! t = Some pc -> holds_lease pc = 0 /\ pc <> LNotify) ->
  let s' := retire_alone 4 s in retirement s' = RDone /\ ep_scheduler (ep s') = false /\ lockers s' = lockers s.
Proof.
  intros Hi Hq. destruct Hi as [Hc Hw Hp Hr].
  assert (leases s = 0) as E0 by (apply sum_zero; intros i pc Hpc; by apply (Hq i pc)).
  assert (~ exists t, lockers s !! t = Some LNotify) as Hn by (intros [t Ht]; by apply (Hq t _ Ht)).
  destruct s as [e ls r]. destruct e as [st sch]. unfold retire_inv, observed_covers, begun, retired in *. cbn in Hw, Hp, Hr, Hn.
  rewrite E0 in *. clear E0 Hq. subst st sch.
  destruct r as [|v|v| | |].
  - by vm_compute.
  - destruct Hr as (k & -> & Hk). cbn [retire_alone retire_step retirement ep_state ep lockers ep_scheduler].
    rewrite word_count by lia. case_decide as H0; [|vm_compute; done].
    rewrite decide_False; [vm_compute; done|].
    intros Hv%(f_equal lease_count). rewrite !word_count in Hv by lia. lia.
  - destruct Hr as [_ Hr]. by destruct Hn; apply Hr.
  - by vm_compute.
  - by vm_compute.
  - by vm_compute.
Qed.

(** A lease keeps the scheduler. In every interleaving of threads that lock
    the target and release, with one retirement, the count of the word is the
    number of leases and never overflows into the closing bit; while a thread
    counts, the pointer it reads is live and the retirement has not returned, so
    [lock] never hands out a dead scheduler; once the retirement has begun no
    load leads to a new lease, and once every thread that counts or owes a
    notification has gone on, the retirement alone, without a spurious wake, returns
    within four steps with the pointer cleared: it is never left asleep. *)
Theorem lease_keeps_scheduler count s : reachable (fun s => s = ep_init count) ep_step s ->
  lease_count (ep_state (ep s)) = Z.of_nat (leases s) /\
  closed_bit (ep_state (ep s)) = begun s /\
  (forall t pc, lockers s !! t = Some pc -> holds_lease pc = 1 -> ep_scheduler (ep s) = true /\ retirement s <> RDone) /\
  (forall t, lockers s !! t = Some LCounted -> lock_step t false s = Some (ep_go t LHeld (ep_state (ep s)) s)) /\
  (begun s = true -> forall t weak, lockers s !! t = Some (LCas (ep_state (ep s))) ->
     lock_step t weak s = Some (ep_go t LRest (ep_state (ep s)) s)) /\
  ((forall t pc, lockers s !! t = Some pc -> holds_lease pc = 0 /\ pc <> LNotify) ->
     retirement (retire_alone 4 s) = RDone /\ ep_scheduler (ep (retire_alone 4 s)) = false).
Proof.
  intros Hi%ep_reachable_inv. pose proof (retirement_ends s Hi) as Hret. destruct Hi as [Hc Hw Hp Hr].
  assert (forall t pc, lockers s !! t = Some pc -> holds_lease pc = 1 -> ep_scheduler (ep s) = true /\ retirement s <> RDone) as HL.
  { intros t pc Ht E. pose proof (lease_count_pos s t pc Ht E). rewrite Hp. unfold retired, retire_inv in *.
    destruct (retirement s); try done. lia. }
  rewrite Hw, word_count, word_closed by lia. split_and!; try done; [| |intros Hq; by destruct (Hret Hq) as (? & ? & _)].
  - intros t Ht. unfold lock_step. rewrite Ht. simpl. destruct (HL t LCounted Ht eq_refl) as [-> _]. by rewrite Hw.
  - intros Hb t weak Ht. unfold lock_step. rewrite Ht. simpl. rewrite Hw, word_closed, Hb by lia. done.
Qed.

Lemma lease_keeps_scheduler_witness :
  let s := mkEpSys (mkEndpoint 1 true) [LCounted] RIdle in lock_step 0 false s = Some (ep_go 0 LHeld 1 s).
Proof.
  intros s. refine (proj1 (proj2 (proj2 (proj2 (lease_keeps_scheduler 1 s _)))) 0 eq_refl).
  eapply reachable_step; [|apply (eps_lock 0 false (mkEpSys (mkEndpoint 0 true) [LCas 0] RIdle)); vm_compute; reflexivity].
  eapply reachable_step; [|apply (eps_lock 0 false (mkEpSys (mkEndpoint 0 true) [LLoad] RIdle)); vm_compute; reflexivity].
  eapply reachable_step; [|apply (eps_lock 0 false (ep_init 1)); vm_compute; reflexivity].
  by apply reachable_init.
Defined.
