(* ===== verification/Roots.v ===== *)
(** * Runtime roots (src/scheduler.cpp, src/runtime.cpp)

    The tasks that a graceful shutdown waits for: [register_runtime_root] on a
    worker and from outside, [complete_runtime_root], [begin_graceful_shutdown],
    [wait_for_runtime_roots] and the two lines of [shutdown] that they race with.
    Every atomic access and every access under [graceful_mutex_] is a step. *)

From S2P Require Import Prelude.

Set Default Proof Using "Type".

(** Where an actor stands. An actor registers a root and, when that succeeds, is
    this root until it completes; another closes admission, waits, stops. *)
Inductive RPc :=
  | RRest
  | RStop1 | RAdd | RStop2                                  (* registers on a worker *)
  | RLock | RFlag | RStopLocked | RAddLocked | RUnlock (registered : bool)  (* from outside *)
  | RLive                                                   (* a registered root *)
  | RSub | RNotifyLock | RNotify                            (* completes *)
  | GCloseLock | GClose | GCheck | GWaitLock | GTest | GSleeping | GAsleep | GDone   (* graceful shutdown *)
  | SCloseLock | SClose | SStop.                            (* shutdown *)

Record Roots := mkRoots {
  external_admission_closed : bool; stop : bool; runtime_roots : Z;
  graceful_mutex : option nat; actors : list RPc }.

Definition goes (t : nat) (pc : RPc) (s : Roots) : Roots :=
  mkRoots (external_admission_closed s) (stop s) (runtime_roots s) (graceful_mutex s) (<[t := pc]> (actors s)).
Definition counts (v : Z) (s : Roots) : Roots :=
  mkRoots (external_admission_closed s) (stop s) (u64 v) (graceful_mutex s) (actors s).
Definition locks (m : option nat) (s : Roots) : Roots :=
  mkRoots (external_admission_closed s) (stop s) (runtime_roots s) m (actors s).
Definition closes (s : Roots) : Roots :=
  mkRoots true (stop s) (runtime_roots s) (graceful_mutex s) (actors s).
Definition stops (s : Roots) : Roots :=
  mkRoots (external_admission_closed s) true (runtime_roots s) (graceful_mutex s) (actors s).

(** Takes the mutex when it is free. *)
Definition enter (t : nat) (pc : RPc) (s : Roots) : option Roots :=
  match graceful_mutex s with None => Some (locks (Some t) (goes t pc s)) | Some _ => None end.

(** [graceful_cv_.notify_all]: who sleeps goes for the mutex. *)
Definition rouse (pc : RPc) : RPc := match pc with GAsleep => GWaitLock | _ => pc end.
Definition notify_waiters (s : Roots) : Roots :=
  mkRoots (external_admission_closed s) (stop s) (runtime_roots s) (graceful_mutex s) (rouse <$> actors s).

(** [register_runtime_root]; a registered root is [RLive]. *)
Definition register_step (t : nat) (pc : RPc) (s : Roots) : option Roots :=
  match pc with
  | RStop1 => Some (goes t (if stop s then RRest else RAdd) s)
  | RAdd => Some (goes t RStop2 (counts (runtime_roots s + 1) s))
  | RStop2 => Some (goes t (if stop s then RSub else RLive) s)
  | RLock => enter t RFlag s
  | RFlag => Some (goes t (if external_admission_closed s then RUnlock false else RStopLocked) s)
  | RStopLocked => Some (goes t (if stop s then RUnlock false else RAddLocked) s)
  | RAddLocked => Some (goes t (RUnlock true) (counts (runtime_roots s + 1) s))
  | RUnlock registered => Some (locks None (goes t (if registered then RLive else RRest) s))
  | _ => None
  end.

(** [complete_runtime_root], by a root that ends or by a refused worker. *)
Definition complete_step (t : nat) (pc : RPc) (s : Roots) : option Roots :=
  match pc with
  | RLive => Some (goes t RSub s)
  | RSub => Some (goes t (if decide (runtime_roots s <> 1%Z) then RRest else RNotifyLock) (counts (runtime_roots s - 1) s))
  | RNotifyLock => enter t RNotify s
  | RNotify => Some (locks None (notify_waiters (goes t RRest s)))
  | _ => None
  end.

(** After [begin_graceful_shutdown]: the return of a scheduler that has stopped. *)
Definition graceful_check (stopping : bool) : RPc := if stopping then RRest else GWaitLock.

(** [Runtime::graceful_shutdown]: [begin_graceful_shutdown], the return of a stopped
    scheduler, and [wait_for_runtime_roots]; [spurious] is a wake of the condition
    variable for nothing. *)
Definition graceful_step (t : nat) (spurious : bool) (pc : RPc) (s : Roots) : option Roots :=
  match pc with
  | GCloseLock => enter t GClose s
  | GClose => Some (locks None (goes t GCheck (closes s)))
  | GCheck => Some (goes t (graceful_check (stop s)) s)
  | GWaitLock => enter t GTest s
  | GTest => if decide (runtime_roots s = 0%Z) then Some (locks None (goes t GDone s)) else Some (goes t GSleeping s)
  | GSleeping => Some (locks None (goes t GAsleep s))
  | GAsleep => if spurious then Some (goes t GWaitLock s) else None
  | GDone => Some (goes t SCloseLock s)
  | _ => None
  end.

(** The beginning of [Scheduler::shutdown]. *)
Definition stop_step (t : nat) (pc : RPc) (s : Roots) : option Roots :=
  match pc with
  | SCloseLock => enter t SClose s
  | SClose => Some (locks None (goes t SStop (closes s)))
  | SStop => Some (goes t RRest (stops s))
  | _ => None
  end.

Definition roots_begin (pc : RPc) : bool :=
  match pc with RStop1 | RLock | GCloseLock | SCloseLock => true | _ => false end.

Inductive roots_step : Roots -> Roots -> Prop :=
  | rs_begin t pc s : actors s !! t = Some RRest -> roots_begin pc = true -> roots_step s (goes t pc s)
  | rs_register t pc s s' : actors s !! t = Some pc -> register_step t pc s = Some s' -> roots_step s s'
  | rs_complete t pc s s' : actors s !! t = Some pc -> complete_step t pc s = Some s' -> roots_step s s'
  | rs_graceful t spurious pc s s' : actors s !! t = Some pc -> graceful_step t spurious pc s = Some s' -> roots_step s s'
  | rs_stop t pc s s' : actors s !! t = Some pc -> stop_step t pc s = Some s' -> roots_step s s'.

Definition roots_init (count : nat) : Roots := mkRoots false false 0 None (replicate count RRest).

(** ** The invariant *)

(** The actor's part of [runtime_roots_]. *)
Definition rooted (pc : RPc) : nat := match pc with RStop2 | RUnlock true | RLive | RSub => 1 | _ => 0 end.
(** It holds [graceful_mutex_]. *)
Definition inside (pc : RPc) : bool :=
  match pc with
  | RFlag | RStopLocked | RAddLocked | RUnlock _ | RNotify | GClose | GTest | GSleeping | SClose => true
  | _ => false
  end.
(** It has read [external_admission_closed_] as false, under the mutex. *)
Definition admitted_pc (pc : RPc) : bool := match pc with RStopLocked | RAddLocked => true | _ => false end.
Definition dozes (pc : RPc) : bool := match pc with GSleeping | GAsleep => true | _ => false end.
Definition owes_notify (pc : RPc) : bool := match pc with RNotifyLock | RNotify => true | _ => false end.

Definition rooted_count (s : Roots) : nat := sum_list (map rooted (actors s)).
#[global] Arguments rooted_count : simpl never.

Record roots_inv (s : Roots) : Prop := {
  ri_count : runtime_roots s = Z.of_nat (rooted_count s);
  ri_mutex : forall t pc, actors s !! t = Some pc -> inside pc = true <-> graceful_mutex s = Some t;
  ri_admitted : forall t pc, actors s !! t = Some pc -> admitted_pc pc = true -> external_admission_closed s = false;
  ri_notified : forall t pc, actors s !! t = Some pc -> dozes pc = true -> runtime_roots s = 0%Z ->
    exists u pu, actors s !! u = Some pu /\ owes_notify pu = true }.

Lemma rooted_le pc : rooted pc <= 1.
Proof. unfold rooted. repeat case_match; lia. Qed.

Lemma rooted_bound s : rooted_count s <= length (actors s).
Proof.
  unfold rooted_count. induction (actors s) as [|pc l IH]; simpl; [lia|]. pose proof (rooted_le pc). lia.
Qed.

(** With fewer actors than a [size_t] counts. *)
Definition roots_ok (s : Roots) : Prop := (Z.of_nat (length (actors s)) < 2 ^ 64)%Z /\ roots_inv s.

Lemma roots_range s : roots_ok s -> (0 <= runtime_roots s < 2 ^ 64)%Z.
Proof. intros [Hl [Hc _ _ _]]. pose proof (rooted_bound s). lia. Qed.

(** One actor moves from [pc] to [pc'], with what it writes. *)
Lemma actor_moves s t pc pc' cl st v m : roots_ok s -> actors s !! t = Some pc ->
  v = (runtime_roots s + Z.of_nat (rooted pc') - Z.of_nat (rooted pc))%Z ->
  (inside pc' = true <-> m = Some t) ->
  (m = graceful_mutex s \/ (m = Some t /\ graceful_mutex s = None) \/ (m = None /\ inside pc = true)) ->
  (admitted_pc pc' = true -> cl = false) -> (cl = external_admission_closed s \/ inside pc = true) ->
  (dozes pc' = true -> dozes pc = true \/ v <> 0%Z) -> (owes_notify pc = true -> owes_notify pc' = true) ->
  (v = 0%Z -> runtime_roots s = 0%Z \/ owes_notify pc' = true) ->
  roots_ok (mkRoots cl st v m (<[t := pc']> (actors s))).
Proof.
  intros [Hl [Hc Hm Ha Hn]] Ht Hv Hm1 Hm2 Ha1 Ha2 Hn1 Hn2 Hn3.
  pose proof (lookup_lt_Some _ _ _ Ht) as Hlt.
  assert (forall u pu, <[t := pc']> (actors s) !! u = Some pu ->
    (u = t /\ pu = pc') \/ (u <> t /\ actors s !! u = Some pu)) as Hcase.
  { intros u pu Hu. destruct (decide (u = t)) as [->|Hne].
    - rewrite list_lookup_insert_eq in Hu by done. left. by simplify_eq.
    - rewrite list_lookup_insert_ne in Hu by done. by right. }
  split; [cbn; by rewrite length_insert|]. split; cbn.
  - destruct (sum_insert rooted _ _ _ Ht) as (N & E1 & E2). unfold rooted_count in *. cbn. rewrite E2. lia.
  - intros u pu [[-> ->]|[Hne Hu]]%Hcase; [done|]. rewrite (Hm u pu Hu).
    destruct Hm2 as [->|[[-> ->]|[-> Hin]]]; [done|split; congruence|].
    apply (Hm t pc Ht) in Hin. split; congruence.
  - intros u pu [[-> ->]|[Hne Hu]]%Hcase Hp; [by apply Ha1|]. destruct Ha2 as [->|Hin]; [by apply (Ha u pu)|].
    apply (Hm t pc Ht) in Hin. assert (inside pu = true) as Hiu by (by destruct pu). apply (Hm u pu Hu) in Hiu. congruence.
  - intros u pu Hu Hd H0. destruct (Hn3 H0) as [Hz|Ho].
    + assert (exists w pw, actors s !! w = Some pw /\ owes_notify pw = true) as (w & pw & Hw & How).
      { destruct (Hcase u pu Hu) as [[-> ->]|[Hne Hu']]; [|by apply (Hn u pu)].
        destruct (Hn1 Hd) as [Hd'|?]; [by apply (Hn t pc)|done]. }
      destruct (decide (w = t)) as [->|Hne].
      * exists t, pc'. rewrite list_lookup_insert_eq by done. split; [done|]. apply Hn2. congruence.
      * exists w, pw. by rewrite list_lookup_insert_ne.
    + exists t, pc'. by rewrite list_lookup_insert_eq.
Qed.

(** A notification leaves nobody asleep. *)
Lemma notify_ok s t : roots_ok s -> actors s !! t = Some RNotify -> roots_ok (locks None (notify_waiters (goes t RRest s))).
Proof.
  intros [Hl [Hc Hm Ha Hn]] Ht. pose proof (proj1 (Hm t _ Ht) eq_refl) as Hmt.
  assert (forall u pu, (rouse <$> <[t := RRest]> (actors s)) !! u = Some pu ->
    pu = RRest \/ exists p, u <> t /\ actors s !! u = Some p /\ pu = rouse p) as Hcase.
  { intros u pu Hu. rewrite list_lookup_fmap in Hu. destruct (decide (u = t)) as [->|Hne].
    - rewrite list_lookup_insert_eq in Hu by (by eapply lookup_lt_Some). left. by simplify_eq/=.
    - rewrite list_lookup_insert_ne in Hu by done. destruct (actors s !! u) as [p|]; simplify_eq/=. right. by exists p. }
  assert (forall u p, u <> t -> actors s !! u = Some p -> inside p = false) as Hout.
  { intros u p Hne Hu. apply not_true_is_false. intros Hin. apply (Hm u p Hu) in Hin. congruence. }
  split; [cbn; by rewrite length_fmap, length_insert|]. split; cbn.
  - rewrite Hc. destruct (sum_insert rooted _ _ _ Ht) as (N & E1 & E2). specialize (E2 RRest).
    assert (sum_list (map rooted (rouse <$> <[t := RRest]> (actors s))) = sum_list (map rooted (<[t := RRest]> (actors s)))) as E3.
    { generalize (<[t := RRest]> (actors s)). intros l. induction l as [|p l IH]; [done|]. rewrite fmap_cons. cbn [map sum_list]. rewrite IH. f_equal. by destruct p. }
    unfold rooted_count in *. cbn in *. rewrite E3. lia.
  - intros u pu [->|(p & Hne & Hu & ->)]%Hcase; [done|]. pose proof (Hout u p Hne Hu). by destruct p.
  - intros u pu [->|(p & Hne & Hu & ->)]%Hcase Hp; [done|]. pose proof (Hout u p Hne Hu). by destruct p.
  - intros u pu [->|(p & Hne & Hu & ->)]%Hcase Hp; [done|]. pose proof (Hout u p Hne Hu). by destruct p.
Qed.

Lemma roots_init_ok count : (Z.of_nat count < 2 ^ 64)%Z -> roots_ok (roots_init count).
Proof.
  intros Hb. assert (forall t pc, actors (roots_init count) !! t = Some pc -> pc = RRest) as Hr.
  { intros t pc Ht. cbn in Ht. by apply lookup_replicate in Ht as [-> _]. }
  split; [cbn; by rewrite length_replicate|]. split.
  - assert (rooted_count (roots_init count) = 0) as ->; [|done]. apply sum_zero. intros i pc Hi. by rewrite (Hr i pc Hi).
  - by intros t pc ->%Hr.
  - done.
  - by intros t pc ->%Hr.
Qed.

(** Closes the side conditions of [actor_moves]. *)
Ltac moves Hi Ht :=
  unfold goes, counts, locks, closes, stops; cbn;
  refine (actor_moves _ _ _ _ _ _ _ _ Hi Ht _ _ _ _ _ _ _ _); cbn; rewrite ?u64_small by lia; try done; try lia; eauto.

Lemma mutex_of s t pc : roots_ok s -> actors s !! t = Some pc -> (inside pc = true <-> graceful_mutex s = Some t).
Proof. intros [_ Hi] Ht. by apply Hi. Qed.

Lemma admission_of s t pc : roots_ok s -> actors s !! t = Some pc -> admitted_pc pc = true ->
  external_admission_closed s = false.
Proof. intros [_ Hi] Ht. by apply (ri_admitted s Hi t pc). Qed.

Lemma counted_of s t pc : roots_ok s -> actors s !! t = Some pc -> (Z.of_nat (rooted pc) <= runtime_roots s)%Z.
Proof. intros [_ [-> _ _ _]] Ht. pose proof (sum_ge rooted _ _ _ Ht). unfold rooted_count. lia. Qed.

(** A root more is still below the bound: its actor was not counted. *)
Lemma room_of s t pc : roots_ok s -> actors s !! t = Some pc -> rooted pc = 0 -> (0 <= runtime_roots s + 1 < 2 ^ 64)%Z.
Proof.
  intros [Hl [-> _ _ _]] Ht E. unfold rooted_count.
  destruct (sum_insert rooted _ _ _ Ht) as (N & E1 & E2). specialize (E2 RLive).
  pose proof (rooted_bound (mkRoots false false 0 None (<[t := RLive]> (actors s)))) as Hb.
  unfold rooted_count in Hb. cbn in Hb. rewrite length_insert in Hb. cbn in E2. lia.
Qed.

Lemma register_ok s t pc s' : roots_ok s -> actors s !! t = Some pc -> register_step t pc s = Some s' -> roots_ok s'.
Proof.
  intros Hi Ht Hs. pose proof (mutex_of s t pc Hi Ht) as Hm. pose proof (admission_of s t pc Hi Ht) as Ha.
  pose proof (counted_of s t pc Hi Ht) as Hc. pose proof (room_of s t pc Hi Ht) as Hb.
  destruct pc; cbn in *; try done; unfold enter in *; repeat case_match; simplify_eq.
  all: moves Hi Ht.
Qed.

Lemma complete_ok s t pc s' : roots_ok s -> actors s !! t = Some pc -> complete_step t pc s = Some s' -> roots_ok s'.
Proof.
  intros Hi Ht Hs. pose proof (mutex_of s t pc Hi Ht) as Hm. pose proof (counted_of s t pc Hi Ht) as Hc.
  pose proof (roots_range s Hi) as Hb.
  destruct pc; cbn in *; try done; unfold enter in *; repeat case_match; simplify_eq; try (by apply notify_ok).
  all: moves Hi Ht.
Qed.

Lemma graceful_ok s t spurious pc s' : roots_ok s -> actors s !! t = Some pc -> graceful_step t spurious pc s = Some s' ->
  roots_ok s'.
Proof.
  intros Hi Ht Hs. pose proof (mutex_of s t pc Hi Ht) as Hm.
  destruct pc; cbn in *; try done; unfold enter, graceful_check in *; repeat case_match; simplify_eq.
  all: moves Hi Ht.
Qed.

Lemma stop_ok s t pc s' : roots_ok s -> actors s !! t = Some pc -> stop_step t pc s = Some s' -> roots_ok s'.
Proof.
  intros Hi Ht Hs. pose proof (mutex_of s t pc Hi Ht) as Hm.
  destruct pc; cbn in *; try done; unfold enter in *; repeat case_match; simplify_eq.
  all: moves Hi Ht.
Qed.

Lemma begin_ok s t pc : roots_ok s -> actors s !! t = Some RRest -> roots_begin pc = true -> roots_ok (goes t pc s).
Proof.
  intros Hi Ht Hs. pose proof (mutex_of s t RRest Hi Ht) as Hm.
  destruct pc; try done. all: moves Hi Ht.
Qed.

Lemma roots_reachable_ok count s : (Z.of_nat count < 2 ^ 64)%Z ->
  reachable (fun s => s = roots_init count) roots_step s -> roots_ok s.
Proof.
  intros Hb. apply (reachable_invariant roots_ok); [intros ? ->; by apply roots_init_ok|].
  intros s1 s2 _ Hi Hs. destruct Hs; eauto using begin_ok, register_ok, complete_ok, graceful_ok, stop_ok.
Qed.

(** ** Properties *)

(** The steps of an actor that need nothing of the others but the mutex. *)
Definition roots_rest (pc : RPc) : bool := match pc with RRest | RLive | GAsleep | GDone => true | _ => false end.

(** C31: a graceful shutdown waits for exactly the roots. In every interleaving of
    registrations on workers and from outside, completions, waits and stops: the
    counter is the number of roots that are registered and not completed, without
    overflow; the wait ends only when that number is zero; once admission is closed
    a registration from outside fails and none is still under way; a waiter sleeps
    only while a root lives or its notification is due, so when all else is at rest
    a sleeping waiter means a live root. *)
Theorem graceful_wait_exact count s : (Z.of_nat count < 2 ^ 64)%Z ->
  reachable (fun s => s = roots_init count) roots_step s ->
  runtime_roots s = Z.of_nat (rooted_count s) /\
  (forall t spurious s', actors s !! t = Some GTest -> graceful_step t spurious GTest s = Some s' ->
     actors s' !! t = Some GDone <-> rooted_count s = 0) /\
  (external_admission_closed s = true -> forall t pc, actors s !! t = Some pc -> admitted_pc pc = false /\
     (pc = RFlag -> register_step t RFlag s = Some (goes t (RUnlock false) s))) /\
  (forall t, actors s !! t = Some GAsleep -> rooted_count s = 0 ->
     exists u pu, actors s !! u = Some pu /\ owes_notify pu = true) /\
  (forall t, actors s !! t = Some GAsleep -> (forall u pu, actors s !! u = Some pu -> roots_rest pu = true) ->
     exists u, actors s !! u = Some RLive).
Proof.
  intros Hb Hr. pose proof (roots_reachable_ok count s Hb Hr) as [_ [Hc Hm Ha Hn]].
  assert (forall t, actors s !! t = Some GAsleep -> rooted_count s = 0 ->
     exists u pu, actors s !! u = Some pu /\ owes_notify pu = true) as Hs.
  { intros t Ht H0. apply (Hn t _ Ht eq_refl). lia. }
  split_and!; try done.
  - intros t spurious s' Ht Hs'. pose proof (lookup_lt_Some _ _ _ Ht). cbn in Hs'.
    case_decide as Hd; simplify_eq; cbn; rewrite list_lookup_insert_eq by done; rewrite Hc in Hd; split; intros; try done; lia.
  - intros Hcl t pc Ht. split; [|intros ->; cbn; by rewrite Hcl].
    apply not_true_is_false. intros Hp. apply (Ha t pc Ht) in Hp. congruence.
  - intros t Ht Hq. destruct (decide (rooted_count s = 0)) as [H0|H0].
    + destruct (Hs t Ht H0) as (u & pu & Hu & Ho). apply Hq in Hu. by destruct pu.
    + destruct (sum_pos rooted (actors s)) as (u & pu & Hu & Hp); [unfold rooted_count in H0; lia|].
      exists u. pose proof (Hq u pu Hu). destruct pu as [| | | | | | | |[]| | | | | | | | | | | | | | |]; cbn in *; try done; lia.
Qed.

(** A waiter asleep beside a live root. *)
Definition waiting_roots : Roots := mkRoots true false 1 None [RLive; GAsleep].

Lemma waiting_roots_reachable : reachable (fun s => s = roots_init 2) roots_step waiting_roots.
Proof.
  assert (reachable (fun s => s = roots_init 2) roots_step (mkRoots false false 1 None [RLive; RRest])) as H1.
  { eapply reachable_step; [|by eapply (rs_register 0 RStop2 (mkRoots false false 1 None [RStop2; RRest]))].
    eapply reachable_step; [|by eapply (rs_register 0 RAdd (mkRoots false false 0 None [RAdd; RRest]))].
    eapply reachable_step; [|by eapply (rs_register 0 RStop1 (mkRoots false false 0 None [RStop1; RRest]))].
    eapply reachable_step; [|by apply (rs_begin 0 RStop1 (roots_init 2))]. by apply reachable_init. }
  eapply reachable_step; [|by eapply (rs_graceful 1 false GSleeping (mkRoots true false 1 (Some 1) [RLive; GSleeping]))].
  eapply reachable_step; [|by eapply (rs_graceful 1 false GTest (mkRoots true false 1 (Some 1) [RLive; GTest]))].
  eapply reachable_step; [|by eapply (rs_graceful 1 false GWaitLock (mkRoots true false 1 None [RLive; GWaitLock]))].
  eapply reachable_step; [|by eapply (rs_graceful 1 false GCheck (mkRoots true false 1 None [RLive; GCheck]))].
  eapply reachable_step; [|by eapply (rs_graceful 1 false GClose (mkRoots false false 1 (Some 1) [RLive; GClose]))].
  eapply reachable_step; [|by eapply (rs_graceful 1 false GCloseLock (mkRoots false false 1 None [RLive; GCloseLock]))].
  eapply reachable_step; [|by eapply (rs_begin 1 GCloseLock (mkRoots false false 1 None [RLive; RRest]))]. done.
Qed.

Lemma graceful_wait_exact_witness : exists u, actors waiting_roots !! u = Some RLive.
Proof.
  apply (proj2 (proj2 (proj2 (proj2 (graceful_wait_exact 2 waiting_roots eq_refl waiting_roots_reachable)))) 1 eq_refl).
  intros [|[|u]] pu Hu; cbn in Hu; by simplify_eq.
Defined.
