(* ===== verification/Driver.v ===== *)
(** * The driver of a reactor (src/scheduler.cpp, include/cio/detail/reactor.hpp)

    When no worker has polled a reactor for a while the monitor asks the owner for
    a poll, and when the owner does not answer it resumes the reactor's driver, a
    coroutine that any worker may run, and polls itself when that takes too long.
    Requests carry epochs: requested, attempted, covered. Every atomic access of
    [monitor_pass] and of the driver is a step; the monitor is the only writer of
    [driver_requested_epoch_] and [driver_requested_at_ns_], so its own loads of
    these two are part of the step that uses them. *)

From S2P Require Import Prelude.

Set Default Proof Using "Type".

Definition kMonitorPollStaleNs : Z := 200000.
Definition kMonitorDriverGraceNs : Z := 200000.

Inductive DriverPhase := kSuspended | kQueued | kRunning.
#[global] Instance DriverPhase_eq_dec : EqDecision DriverPhase.
Proof. solve_decision. Defined.

(** [observe_driver_coverage], by the driver or the monitor. *)
Inductive Obs := O1 | O2 (r : Z) | O3 (r : Z) | O4 (r a : Z) | O5 (r a : Z) | OCover (r : Z) | OEnd.

(** A worker and the driver's frame. *)
Inductive DPc :=
  | DNone | DResumed | DCap1 | DCap2 (r : Z) | DCap3 (r a : Z) | DAttempt (r a : Z) | DCovered (r a : Z) | DFresh (r a : Z)
  | DStop (r : Z) | DRegistered (r : Z) | DPoll (r : Z) | DWait (r : Z) | DUnpoll (r : Z) | DCover (r : Z)
  | DObserve (o : Obs) | DSuspend.

(** The monitor in the pass that began at [now]; a poll without an epoch is that
    of a runtime with one worker. *)
Inductive MPc :=
  | MIdle | MPolling (now : Z) | MRegistered (now : Z) | MStale (now : Z) | MTicket (now : Z)
  | MObserve (now : Z) (o : Obs) | MOutstanding (now : Z) | MAt (now : Z) | MEpoch (now : Z)
  | MQueue (now : Z) | MAttempted (now : Z) | MPhase (now : Z) | MPush (now : Z) | MGrace (now : Z)
  | MPoll (r : option Z) | MWait (r : option Z) | MUnpoll (r : option Z) | MCover (r : Z) | MLast (o : Obs).

Record Epochs := mkEpochs {
  driver_phase : DriverPhase; driver_requested : Z; driver_attempted : Z; driver_covered : Z; driver_requested_at : Z }.

(** What polls leave behind, the owner's ticket, and what else is read;
    [other_polls]: a thread that is neither the driver nor the monitor polls. *)
Record Polls := mkPolls {
  polling : bool; last_poll : Z; owner_ticket : Z; any_registered : bool; is_stopping : bool; clock : Z; other_polls : bool }.

(** [queued] counts the driver's entries in the global queue. [published] has the
    time of every request, oldest first, and [excused] the last epoch that the
    driver covered because the runtime stops or nothing is registered: both only
    record what happened. *)
Record DShard := mkShard {
  ee : Epochs; pp : Polls; queued : nat; monitor : MPc; workers : list DPc; published : list Z; excused : Z }.

Definition on_epochs (f : Epochs -> Epochs) (s : DShard) : DShard :=
  mkShard (f (ee s)) (pp s) (queued s) (monitor s) (workers s) (published s) (excused s).
Definition on_polls (f : Polls -> Polls) (s : DShard) : DShard :=
  mkShard (ee s) (f (pp s)) (queued s) (monitor s) (workers s) (published s) (excused s).
Definition monitor_at (m : MPc) (s : DShard) : DShard :=
  mkShard (ee s) (pp s) (queued s) m (workers s) (published s) (excused s).
Definition worker_at (t : nat) (d : DPc) (s : DShard) : DShard :=
  mkShard (ee s) (pp s) (queued s) (monitor s) (<[t := d]> (workers s)) (published s) (excused s).
Definition queued_by (f : nat -> nat) (s : DShard) : DShard :=
  mkShard (ee s) (pp s) (f (queued s)) (monitor s) (workers s) (published s) (excused s).
Definition excuse (r : Z) (s : DShard) : DShard :=
  mkShard (ee s) (pp s) (queued s) (monitor s) (workers s) (published s) (excused s `max` r)%Z.

Definition set_driver_phase (p : DriverPhase) (e : Epochs) : Epochs :=
  mkEpochs p (driver_requested e) (driver_attempted e) (driver_covered e) (driver_requested_at e).
Definition set_attempted (r : Z) (e : Epochs) : Epochs :=
  mkEpochs (driver_phase e) (driver_requested e) (driver_attempted e `max` r) (driver_covered e) (driver_requested_at e).
(** [cover_driver_epoch]: the loop leaves the larger epoch. *)
Definition cover_driver_epoch (r : Z) (e : Epochs) : Epochs :=
  mkEpochs (driver_phase e) (driver_requested e) (driver_attempted e) (driver_covered e `max` r) (driver_requested_at e).
Definition set_requested_at (now : Z) (e : Epochs) : Epochs :=
  mkEpochs (driver_phase e) (driver_requested e) (driver_attempted e) (driver_covered e) now.
Definition set_requested (r : Z) (e : Epochs) : Epochs :=
  mkEpochs (driver_phase e) r (driver_attempted e) (driver_covered e) (driver_requested_at e).

Definition set_polling (b : bool) (p : Polls) : Polls :=
  mkPolls b (last_poll p) (owner_ticket p) (any_registered p) (is_stopping p) (clock p) (other_polls p).
(** The kernel's wait has returned. *)
Definition poll_returned (p : Polls) : Polls :=
  mkPolls (polling p) (clock p) (owner_ticket p) (any_registered p) (is_stopping p) (clock p) (other_polls p).
Definition set_ticket (t : Z) (p : Polls) : Polls :=
  mkPolls (polling p) (last_poll p) t (any_registered p) (is_stopping p) (clock p) (other_polls p).

(** Another thread begins or ends a poll. *)
Definition set_other (b : bool) (p : Polls) : Polls :=
  mkPolls b (last_poll p) (owner_ticket p) (any_registered p) (is_stopping p) (clock p) b.

Definition observe_step (o : Obs) (s : DShard) : Obs * DShard :=
  match o with
  | O1 => (O2 (driver_requested (ee s)), s)
  | O2 r => (if decide (r <= driver_covered (ee s))%Z then OEnd else O3 r, s)
  | O3 r => (O4 r (driver_requested_at (ee s)), s)
  | O4 r a => (if decide (driver_requested (ee s) = r) then O5 r a else O1, s)
  | O5 r a => (if decide (a <= last_poll (pp s))%Z then OCover r else OEnd, s)
  | OCover r => (OEnd, on_epochs (cover_driver_epoch r) s)
  | OEnd => (OEnd, s)
  end.

(** [run_driver_once], then the suspension that publishes the frame again. *)
Definition driver_step (t : nat) (d : DPc) (s : DShard) : option DShard :=
  let e := ee s in
  let p := pp s in
  match d with
  | DNone => match queued s with O => None | S _ => Some (worker_at t DResumed (queued_by Nat.pred s)) end
  | DResumed => Some (worker_at t DCap1 (on_epochs (set_driver_phase kRunning) s))
  | DCap1 => Some (worker_at t (DCap2 (driver_requested e)) s)
  | DCap2 r => Some (worker_at t (DCap3 r (driver_requested_at e)) s)
  | DCap3 r a => Some (worker_at t (if decide (driver_requested e = r) then DAttempt r a else DCap1) s)
  | DAttempt r a => Some (worker_at t (DCovered r a) (on_epochs (set_attempted r) s))
  | DCovered r a => Some (worker_at t (if decide (r <= driver_covered e)%Z then DCover r else DFresh r a) s)
  | DFresh r a => Some (worker_at t (if decide (a <= last_poll p)%Z then DCover r else DStop r) s)
  | DStop r => Some (if is_stopping p then worker_at t (DCover r) (excuse r s) else worker_at t (DRegistered r) s)
  | DRegistered r => Some (if any_registered p then worker_at t (DPoll r) s else worker_at t (DCover r) (excuse r s))
  | DPoll r =>
      Some (if polling p then worker_at t (DObserve O1) s else worker_at t (DWait r) (on_polls (set_polling true) s))
  | DWait r => Some (worker_at t (DUnpoll r) (on_polls poll_returned s))
  | DUnpoll r => Some (worker_at t (DCover r) (on_polls (set_polling false) s))
  | DCover r => Some (worker_at t DSuspend (on_epochs (cover_driver_epoch r) s))
  | DObserve o =>
      match o with
      | OEnd => Some (worker_at t DSuspend s)
      | _ => let r := observe_step o s in Some (worker_at t (DObserve r.1) r.2)
      end
  | DSuspend => Some (worker_at t DNone (on_epochs (set_driver_phase kSuspended) s))
  end.

(** [request_driver_at], called with the time of the pass. *)
Definition request_driver_step (m : MPc) (s : DShard) : option DShard :=
  let e := ee s in
  let to m := Some (monitor_at m s) in
  match m with
  | MObserve now o =>
      match o with
      | OEnd => to (MOutstanding now)
      | _ => let r := observe_step o s in Some (monitor_at (MObserve now r.1) r.2)
      end
  | MOutstanding now => to (if decide (driver_covered e < driver_requested e)%Z then MQueue now else MAt now)
  | MAt now => Some (monitor_at (MEpoch now) (on_epochs (set_requested_at now) s))
  | MEpoch now =>
      let s' := on_epochs (set_requested (u64 (driver_requested e + 1))) s in
      Some (mkShard (ee s') (pp s') (queued s') (MQueue now) (workers s') (published s' ++ [now]) (excused s'))
  | _ => None
  end.

(** [queue_driver]; the wake after the push is the scheduler's. *)
Definition queue_driver_step (m : MPc) (s : DShard) : option DShard :=
  let e := ee s in
  let to m := Some (monitor_at m s) in
  match m with
  | MQueue now => to (if decide (driver_requested e <= driver_covered e)%Z then MGrace now else MAttempted now)
  | MAttempted now => to (if decide (driver_requested e <= driver_attempted e)%Z then MGrace now else MPhase now)
  | MPhase now =>
      if decide (driver_phase e = kSuspended) then Some (monitor_at (MPush now) (on_epochs (set_driver_phase kQueued) s))
      else to (MGrace now)
  | MPush now => Some (monitor_at (MGrace now) (queued_by S s))
  | _ => None
  end.

(** [monitor_pass] for one shard; [single] tells a runtime with one worker. *)
Definition monitor_step (single : bool) (s : DShard) : option DShard :=
  let e := ee s in
  let p := pp s in
  let to m := Some (monitor_at m s) in
  match monitor s with
  | MIdle => to (MPolling (clock p))
  | MPolling now => to (if polling p then MIdle else MRegistered now)
  | MRegistered now => to (if any_registered p then MStale now else MIdle)
  | MStale now => to (if decide (now - last_poll p > kMonitorPollStaleNs)%Z then MTicket now else MIdle)
  | MTicket now =>
      if decide (owner_ticket p = 0%Z) then Some (monitor_at MIdle (on_polls (set_ticket now) s))
      else to (if single then MPoll None else MObserve now O1)
  | MObserve _ _ | MOutstanding _ | MAt _ | MEpoch _ => request_driver_step (monitor s) s
  | MQueue _ | MAttempted _ | MPhase _ | MPush _ => queue_driver_step (monitor s) s
  | MGrace now =>
      to (if decide (driver_covered e < driver_requested e /\ kMonitorDriverGraceNs <= now - driver_requested_at e)%Z
          then MPoll (Some (driver_requested e)) else MIdle)
  | MPoll r =>
      if polling p then to (if r then MLast O1 else MIdle)
      else Some (monitor_at (MWait r) (on_polls (set_polling true) s))
  | MWait r => Some (monitor_at (MUnpoll r) (on_polls poll_returned s))
  | MUnpoll r => Some (monitor_at (if r is Some r then MCover r else MIdle) (on_polls (set_polling false) s))
  | MCover r => Some (monitor_at MIdle (on_epochs (cover_driver_epoch r) s))
  | MLast o =>
      match o with
      | OEnd => to MIdle
      | _ => let r := observe_step o s in Some (monitor_at (MLast r.1) r.2)
      end
  end.

(** The rest of the runtime: the clock, the registrations, the stop, the owner
    that takes its ticket and polls (and whoever else polls). *)
Inductive env_step : DShard -> DShard -> Prop :=
  | env_clock d s : (0 <= d)%Z ->
      env_step s (on_polls (fun p => mkPolls (polling p) (last_poll p) (owner_ticket p) (any_registered p) (is_stopping p) (clock p + d) (other_polls p)) s)
  | env_flags reg st s :
      env_step s (on_polls (fun p => mkPolls (polling p) (last_poll p) (owner_ticket p) reg (is_stopping p || st) (clock p) (other_polls p)) s)
  | env_ticket ticket s : env_step s (on_polls (set_ticket ticket) s)
  | env_poll s : polling (pp s) = false -> env_step s (on_polls (set_other true) s)
  | env_returned s : other_polls (pp s) = true -> env_step s (on_polls poll_returned s)
  | env_unpoll s : other_polls (pp s) = true -> env_step s (on_polls (set_other false) s).

Inductive shard_step (single : bool) : DShard -> DShard -> Prop :=
  | sh_env s s' : env_step s s' -> shard_step single s s'
  | sh_monitor s s' : monitor_step single s = Some s' -> shard_step single s s'
  | sh_driver t d s s' : workers s !! t = Some d -> driver_step t d s = Some s' -> shard_step single s s'.

(** After [initialize_driver]. *)
Definition shard_init (count : nat) (now : Z) : DShard :=
  mkShard (mkEpochs kSuspended 0 0 0 0) (mkPolls false now 0 false false now false) 0 MIdle (replicate count DNone) [] 0.

(** ** The invariant *)

Section epochs.
Local Open Scope Z_scope.

(** Every request of the first [r] epochs is no later than [a]. *)
Definition requests_by (r a : Z) (s : DShard) : Prop :=
  r <= driver_requested (ee s) /\ forall i x, published s !! i = Some x -> Z.of_nat i < r -> x <= a.

(** Every one of the first [r] epochs is excused, or a poll's wait has returned
    since its request. *)
Definition settled (r : Z) (s : DShard) : Prop :=
  r <= driver_requested (ee s) /\
  forall i x, published s !! i = Some x -> Z.of_nat i < r -> Z.of_nat i < excused s \/ x <= last_poll (pp s).

Definition known (r : Z) (s : DShard) : Prop := r <= driver_requested (ee s).

Definition obs_ok (o : Obs) (s : DShard) : Prop :=
  match o with
  | O1 | OEnd => True
  | O2 r | O3 r => known r s
  | O4 r a | O5 r a => requests_by r a s
  | OCover r => settled r s
  end.

Definition driver_ok (d : DPc) (s : DShard) : Prop :=
  match d with
  | DNone | DResumed | DCap1 | DSuspend => True
  | DCap2 r | DStop r | DRegistered r | DPoll r | DWait r => known r s
  | DCap3 r a | DAttempt r a | DCovered r a | DFresh r a => requests_by r a s
  | DUnpoll r | DCover r => settled r s
  | DObserve o => obs_ok o s
  end.

(** The pass's time is no later than the clock and no earlier than any request. *)
Definition pass_time (now : Z) (s : DShard) : Prop := now <= clock (pp s) /\ Forall (fun x => x <= now) (published s).

Definition monitor_ok (m : MPc) (s : DShard) : Prop :=
  match m with
  | MIdle | MQueue _ | MAttempted _ | MPhase _ | MPush _ | MGrace _ | MPoll None | MWait None | MUnpoll None => True
  | MPolling now | MRegistered now | MStale now | MTicket now | MOutstanding now => pass_time now s
  | MObserve now o => pass_time now s /\ obs_ok o s
  | MAt now => pass_time now s /\ driver_requested (ee s) <= driver_covered (ee s)
  | MEpoch now => pass_time now s /\ driver_requested (ee s) <= driver_covered (ee s) /\ driver_requested_at (ee s) = now
  | MPoll (Some r) | MWait (Some r) => known r s
  | MUnpoll (Some r) | MCover r => settled r s
  | MLast o => obs_ok o s
  end.

Record epochs_inv (s : DShard) : Prop := {
  ev_requested : driver_requested (ee s) = Z.of_nat (length (published s));
  ev_outstanding : driver_requested (ee s) - 1 <= driver_covered (ee s);
  ev_attempted : driver_attempted (ee s) <= driver_requested (ee s);
  ev_covered : settled (driver_covered (ee s)) s;
  ev_last : last_poll (pp s) <= clock (pp s);
  ev_at : driver_requested_at (ee s) <= clock (pp s) /\ Forall (fun x => x <= driver_requested_at (ee s)) (published s);
  ev_driver : forall t d, workers s !! t = Some d -> driver_ok d s;
  ev_monitor : monitor_ok (monitor s) s }.

(** What every step keeps or grows. *)
Record grows (s s' : DShard) : Prop := {
  gr_published : published s `prefix_of` published s';
  gr_requested : driver_requested (ee s) = Z.of_nat (length (published s));
  gr_known : driver_requested (ee s) <= driver_requested (ee s');
  gr_covered : driver_covered (ee s) <= driver_covered (ee s');
  gr_poll : last_poll (pp s) <= last_poll (pp s');
  gr_clock : clock (pp s) <= clock (pp s');
  gr_excused : excused s <= excused s' }.

(** An entry below a known epoch is as it was. *)
Lemma grows_lookup s s' r i x : grows s s' -> known r s -> published s' !! i = Some x -> Z.of_nat i < r ->
  published s !! i = Some x.
Proof.
  intros [[l Hp] Hr _ _ _ _ _] Hk Hi Hlt. unfold known in Hk. rewrite Hp, lookup_app_l in Hi by lia. done.
Qed.

Lemma known_grows s s' r : grows s s' -> known r s -> known r s'.
Proof. intros [_ _ Hk _ _ _ _] H. unfold known in *. lia. Qed.

Lemma requests_by_grows s s' r a : grows s s' -> requests_by r a s -> requests_by r a s'.
Proof.
  intros Hg [Hk H]. split; [by eapply known_grows|]. intros i x Hi Hlt. eapply H; [|done]. by eapply grows_lookup.
Qed.

Lemma settled_grows s s' r : grows s s' -> settled r s -> settled r s'.
Proof.
  intros Hg [Hk H]. split; [by eapply known_grows|]. intros i x Hi Hlt.
  pose proof (H i x (grows_lookup s s' r i x Hg Hk Hi Hlt) Hlt) as Hs. destruct Hg. lia.
Qed.

Lemma obs_ok_grows s s' o : grows s s' -> obs_ok o s -> obs_ok o s'.
Proof. destruct o; cbn; eauto using known_grows, requests_by_grows, settled_grows. Qed.

Lemma driver_ok_grows s s' d : grows s s' -> driver_ok d s -> driver_ok d s'.
Proof. destruct d; cbn; eauto using known_grows, requests_by_grows, settled_grows, obs_ok_grows. Qed.

(** The monitor's own part, while no request is published. *)
Lemma monitor_ok_grows s s' m : grows s s' -> published s' = published s -> driver_requested (ee s') = driver_requested (ee s) ->
  driver_requested_at (ee s') = driver_requested_at (ee s) -> monitor_ok m s -> monitor_ok m s'.
Proof.
  intros Hg Ep Er Ea. pose proof (gr_clock _ _ Hg) as Hc. pose proof (gr_covered _ _ Hg) as Hcv.
  assert (forall now, pass_time now s -> pass_time now s') as Ht.
  { intros now [H1 H2]. split; [lia|by rewrite Ep]. }
  destruct m as [|now|now|now|now|now o|now|now|now|now|now|now|now|now|[r|]|[r|]|[r|]|r|o]; cbn; try done;
    eauto using known_grows, settled_grows, obs_ok_grows.
  - intros [H1 H2]. split; eauto using obs_ok_grows.
  - intros [H1 H2]. split; [by apply Ht|lia].
  - intros (H1 & H2 & H3). split; [by apply Ht|]. split; lia.
Qed.
Lemma grows_refl s : epochs_inv s -> grows s s.
Proof. intros [Hr _ _ _ _ _ _ _]. by split. Qed.

(** A step that publishes no request. *)
Lemma evolve s s' : epochs_inv s -> grows s s' -> published s' = published s ->
  driver_requested (ee s') = driver_requested (ee s) -> driver_requested_at (ee s') = driver_requested_at (ee s) ->
  driver_attempted (ee s') <= driver_requested (ee s) -> settled (driver_covered (ee s')) s' ->
  last_poll (pp s') <= clock (pp s') ->
  (forall t d, workers s' !! t = Some d -> workers s !! t = Some d \/ driver_ok d s') ->
  (monitor s' = monitor s \/ monitor_ok (monitor s') s') -> epochs_inv s'.
Proof.
  intros [Hr Ho Hat Hc Hl Ha Hd Hm] Hg Ep Er Ea H1 H2 H3 H4 H5. pose proof (gr_covered _ _ Hg). pose proof (gr_clock _ _ Hg).
  split; try done; rewrite ?Ep, ?Er, ?Ea; try done; try lia.
  - destruct Ha. split; [lia|done].
  - intros t d Ht. destruct (H4 t d Ht) as [Ht'|]; [|done]. eapply driver_ok_grows; [done|]. by apply (Hd t).
  - destruct H5 as [->|]; [|done]. by eapply monitor_ok_grows.
Qed.

(** Only the worker [t] moves. *)
Lemma worker_moves t d s s' : (forall u, u <> t -> workers s' !! u = workers s !! u) ->
  (forall d', workers s' !! t = Some d' -> d' = d) -> driver_ok d s' ->
  forall u d', workers s' !! u = Some d' -> workers s !! u = Some d' \/ driver_ok d' s'.
Proof.
  intros Hne He Hd u d' Hu. destruct (decide (u = t)) as [->|H]; [right; by rewrite (He d' Hu)|left; by rewrite <-Hne].
Qed.

Lemma insert_moves t d (ws : list DPc) : (forall u, u <> t -> <[t := d]> ws !! u = ws !! u) /\
  (forall d', <[t := d]> ws !! t = Some d' -> d' = d).
Proof.
  split; [intros; by apply list_lookup_insert_ne|]. intros d' Hd. apply list_lookup_insert_Some in Hd. naive_solver.
Qed.

Lemma known_requested s : known (driver_requested (ee s)) s.
Proof. unfold known. lia. Qed.

Lemma settled_below r r' s : settled r s -> r' <= r -> settled r' s.
Proof. intros [H1 H2] Hle. split; [lia|]. intros i x Hi Hlt. apply (H2 i x Hi). lia. Qed.

Lemma settled_max r r' s : settled r s -> settled r' s -> settled (r `max` r') s.
Proof. intros H1 H2. destruct (Z.max_spec r r') as [[_ ->]|[_ ->]]; done. Qed.

Lemma settled_polled r a s : requests_by r a s -> a <= last_poll (pp s) -> settled r s.
Proof. intros [H1 H2] Hle. split; [done|]. intros i x Hi Hlt. right. pose proof (H2 i x Hi Hlt). lia. Qed.

Lemma settled_excused r s : known r s -> r <= excused s -> settled r s.
Proof. intros H1 Hle. split; [done|]. intros i x Hi Hlt. left. lia. Qed.

(** A wait that has returned is later than every request. *)
Lemma settled_returned r s : epochs_inv s -> known r s -> settled r (on_polls poll_returned s).
Proof.
  intros Hi Hk. split; [done|]. intros i x Hx Hlt. right. cbn in *. destruct (ev_at s Hi) as [Ha Hf].
  rewrite Forall_lookup in Hf. specialize (Hf i x Hx). cbn in Hf. lia.
Qed.

Lemma requests_by_now r s : epochs_inv s -> known r s -> requests_by r (driver_requested_at (ee s)) s.
Proof.
  intros Hi Hk. split; [done|]. intros i x Hx Hlt. destruct (ev_at s Hi) as [_ Hf].
  rewrite Forall_lookup in Hf. by apply (Hf i x).
Qed.

Lemma observe_ok o s : epochs_inv s -> obs_ok o s -> obs_ok (observe_step o s).1 s.
Proof.
  intros Hi Ho. destruct o as [|r|r|r a|r a|r|]; cbn in *; try done.
  - apply known_requested.
  - by case_decide.
  - by apply requests_by_now.
  - by case_decide.
  - case_decide; [|done]. by eapply settled_polled.
Qed.

(** What [observe_step] writes. *)
Lemma observe_epochs o s : exists c, (c <= driver_covered (ee s) \/ o = OCover c) /\
  (observe_step o s).2 = on_epochs (cover_driver_epoch c) s.
Proof.
  assert (s = on_epochs (cover_driver_epoch (driver_covered (ee s))) s) as E.
  { destruct s as [[? ? ? c ?] ? ? ? ? ? ?]. unfold on_epochs, cover_driver_epoch. cbn. by rewrite Z.max_id. }
  destruct o as [|r|r|r a|r a|r|]; cbn; try (exists (driver_covered (ee s)); split; [lia|done]). exists r. eauto.
Qed.

(** A change of the shared words that keeps the invariant whoever makes it. *)
Record calm (s X : DShard) : Prop := {
  ca_grows : grows s X;
  ca_published : published X = published s;
  ca_requested : driver_requested (ee X) = driver_requested (ee s);
  ca_at : driver_requested_at (ee X) = driver_requested_at (ee s);
  ca_attempted : driver_attempted (ee X) <= driver_requested (ee s);
  ca_covered : settled (driver_covered (ee X)) X;
  ca_poll : last_poll (pp X) <= clock (pp X);
  ca_threads : workers X = workers s /\ monitor X = monitor s }.

Lemma calm_worker t d s X : epochs_inv s -> calm s X -> driver_ok d X -> epochs_inv (worker_at t d X).
Proof.
  intros Hi [Hg Hp Hr Ha Hat Hc Hl [Hw Hm]] Hd. destruct (insert_moves t d (workers s)) as [H1 H2].
  apply (evolve s); try done; [by destruct Hg|apply (worker_moves t d); [|by cbn; rewrite Hw|done]|by left].
  cbn. by rewrite Hw.
Qed.

Lemma calm_monitor m s X : epochs_inv s -> calm s X -> monitor_ok m X -> epochs_inv (monitor_at m X).
Proof.
  intros Hi [Hg Hp Hr Ha Hat Hc Hl [Hw Hm]] Hd.
  apply (evolve s); try done; [by destruct Hg|intros t d Ht; left; by rewrite <-Hw|by right].
Qed.

Lemma calm_env s X : epochs_inv s -> calm s X -> epochs_inv X.
Proof.
  intros Hi [Hg Hp Hr Ha Hat Hc Hl [Hw Hm]].
  apply (evolve s); try done; [intros t d Ht; left; by rewrite <-Hw|by left].
Qed.

Lemma calm_refl s : epochs_inv s -> calm s s.
Proof. intros Hi. pose proof (grows_refl s Hi). destruct Hi. by split. Qed.

(** Settles a field that a setter leaves alone. *)
Ltac calmly Hi := let G := fresh in
  pose proof (ev_requested _ Hi); pose proof (ev_last _ Hi); pose proof (ev_attempted _ Hi);
  split; [split| | | | | | |]; cbn; try done; try lia; try (apply (ev_covered _ Hi)).

Lemma calm_phase p s : epochs_inv s -> calm s (on_epochs (set_driver_phase p) s).
Proof. intros Hi. calmly Hi. Qed.

Lemma calm_queued f s : epochs_inv s -> calm s (queued_by f s).
Proof. intros Hi. calmly Hi. Qed.

Lemma calm_polling b s : epochs_inv s -> calm s (on_polls (set_polling b) s).
Proof. intros Hi. calmly Hi. Qed.

Lemma calm_other b s : epochs_inv s -> calm s (on_polls (set_other b) s).
Proof. intros Hi. calmly Hi. Qed.

Lemma calm_ticket b s : epochs_inv s -> calm s (on_polls (set_ticket b) s).
Proof. intros Hi. calmly Hi. Qed.

Lemma calm_attempted r s : epochs_inv s -> known r s -> calm s (on_epochs (set_attempted r) s).
Proof. intros Hi Hk. unfold known in Hk. calmly Hi. Qed.

Lemma calm_covers r s : epochs_inv s -> (r <= driver_covered (ee s) \/ settled r s) ->
  calm s (on_epochs (cover_driver_epoch r) s).
Proof.
  intros Hi Hs. calmly Hi. pose proof (ev_covered _ Hi) as Hc.
  destruct Hs as [Hle|Hs]; [by rewrite Z.max_l by lia|]. by apply settled_max.
Qed.

Lemma calm_excuse r s : epochs_inv s -> calm s (excuse r s).
Proof.
  intros Hi. assert (grows s (excuse r s)) as Hg by (pose proof (ev_requested _ Hi); split; cbn; try done; lia).
  calmly Hi. eapply settled_grows; [done|]. apply (ev_covered _ Hi).
Qed.

Lemma calm_returned s : epochs_inv s -> calm s (on_polls poll_returned s).
Proof.
  intros Hi. assert (grows s (on_polls poll_returned s)) as Hg
    by (pose proof (ev_requested _ Hi); pose proof (ev_last _ Hi); split; cbn; try done; lia).
  calmly Hi. eapply settled_grows; [done|]. apply (ev_covered _ Hi).
Qed.

Lemma calm_observe o s : epochs_inv s -> obs_ok o s -> calm s (observe_step o s).2.
Proof.
  intros Hi Ho. destruct (observe_epochs o s) as (c & Hc & ->). apply calm_covers; [done|].
  destruct Hc as [?| ->]; [by left|by right].
Qed.

Lemma settled_covered r s : epochs_inv s -> r <= driver_covered (ee s) -> settled r s.
Proof. intros Hi. apply settled_below, (ev_covered s Hi). Qed.

Lemma excused_settled r s : known r s -> settled r (excuse r s).
Proof. intros Hk. apply settled_excused; [done|]. cbn. lia. Qed.

Lemma requests_by_known r a s : requests_by r a s -> known r s.
Proof. by intros [Hk _]. Qed.

Create HintDb shard.
Hint Resolve settled_covered excused_settled requests_by_known settled_polled : shard.
Hint Resolve calm_refl calm_phase calm_queued calm_polling calm_other calm_ticket calm_attempted calm_covers calm_excuse
  calm_returned calm_observe known_requested requests_by_now settled_returned : shard.

Lemma observe_next o s : epochs_inv s -> obs_ok o s ->
  calm s (observe_step o s).2 /\ obs_ok (observe_step o s).1 (observe_step o s).2.
Proof.
  intros Hi Ho. pose proof (calm_observe o s Hi Ho) as Hc. split; [done|].
  eapply obs_ok_grows; [apply Hc|]. by apply observe_ok.
Qed.

Lemma driver_step_inv t d s s' : epochs_inv s -> workers s !! t = Some d -> driver_step t d s = Some s' -> epochs_inv s'.
Proof.
  intros Hi Ht Hs. pose proof (ev_driver s Hi t d Ht) as Hd.
  destruct d as [| | |r|r a|r a|r a|r a|r|r|r|r|r|r|o|]; cbn -[observe_step] in Hs, Hd.
  15: { destruct (observe_next o s Hi Hd). destruct o; invc Hs; apply calm_worker with (s := s); eauto with shard. }
  all: repeat case_match; repeat case_decide; invc Hs; apply calm_worker with (s := s); cbn; eauto with shard.
Qed.

(** A pass has its time from the clock. *)
Lemma pass_time_now s : epochs_inv s -> pass_time (clock (pp s)) s.
Proof.
  intros Hi. split; [lia|]. destruct (ev_at s Hi) as [Ha Hf]. eapply Forall_impl; [exact Hf|]. cbn. lia.
Qed.

Hint Resolve pass_time_now : shard.

(** The two writes of a request: its time, then its epoch. *)
Lemma request_at_inv now s : epochs_inv s -> pass_time now s -> driver_requested (ee s) <= driver_covered (ee s) ->
  epochs_inv (monitor_at (MEpoch now) (on_epochs (set_requested_at now) s)).
Proof. intros [Hr Ho Hat Hc Hl Ha Hd Hm] [Ht Hf] Hcov. by split. Qed.

Lemma request_epoch_inv now s : Z.of_nat (length (published s ++ [now])) < 2 ^ 64 -> epochs_inv s -> pass_time now s ->
  driver_requested (ee s) <= driver_covered (ee s) -> driver_requested_at (ee s) = now ->
  let e := set_requested (u64 (driver_requested (ee s) + 1)) (ee s) in
  epochs_inv (mkShard e (pp s) (queued s) (MQueue now) (workers s) (published s ++ [now]) (excused s)).
Proof.
  intros Hb [Hr Ho Hat Hc Hl Ha Hd Hm] [Ht Hf] Hcov Hnow e. rewrite length_app in Hb. cbn in Hb.
  set (s' := mkShard _ _ _ _ _ _ _).
  assert (driver_requested e = driver_requested (ee s) + 1) as Ee by (cbn; rewrite u64_small; lia).
  assert (grows s s') as Hg.
  { split; cbn [s' published ee pp excused driver_requested driver_covered]; rewrite ?Ee; try done; try lia. by apply prefix_app_r. }
  split; cbn [s' published ee pp excused workers monitor]; rewrite ?Ee, ?length_app; cbn -[u64]; try lia.
  - by eapply settled_grows.
  - split; [lia|]. apply Forall_app. split; [by rewrite Hnow|]. apply Forall_singleton. cbn. lia.
  - intros t d Hw. eapply driver_ok_grows; [done|]. by apply (Hd t).
Qed.

Lemma monitor_step_inv single s s' : Z.of_nat (length (published s')) < 2 ^ 64 -> epochs_inv s ->
  monitor_step single s = Some s' -> epochs_inv s'.
Proof.
  intros Hb Hi Hs. pose proof (ev_monitor s Hi) as Hm. unfold monitor_step in Hs.
  destruct (monitor s) as [|now|now|now|now|now o|now|now|now|now|now|now|now|now|r|r|r|r|o]; cbn -[observe_step] in Hs, Hm.
  6: { destruct Hm as [Ht Ho]. destruct (observe_next o s Hi Ho) as [Hc Hn].
    assert (pass_time now (observe_step o s).2) by (split; [|rewrite (ca_published _ _ Hc)]; destruct Hc, ca_grows0, Ht; try done; lia).
    destruct o; invc Hs; apply calm_monitor with (s := s); cbn; eauto with shard. }
  18: { destruct (observe_next o s Hi Hm). destruct o; invc Hs; apply calm_monitor with (s := s); cbn; eauto with shard. }
  all: try (repeat case_match; repeat case_decide; invc Hs; apply calm_monitor with (s := s); cbn; eauto with shard; fail).
  - case_decide; invc Hs; apply calm_monitor with (s := s); cbn; eauto with shard. split; [done|lia].
  - destruct Hm. invc Hs. by apply request_at_inv.
  - destruct Hm as (? & ? & ?). invc Hs. by apply request_epoch_inv.
Qed.

Lemma env_step_inv s s' : epochs_inv s -> env_step s s' -> epochs_inv s'.
Proof.
  intros Hi Hs. destruct Hs; apply calm_env with (s := s); eauto with shard; calmly Hi.
Qed.

Lemma shard_step_inv single s s' : Z.of_nat (length (published s')) < 2 ^ 64 -> epochs_inv s ->
  shard_step single s s' -> epochs_inv s'.
Proof. intros Hb Hi Hs. destruct Hs; eauto using env_step_inv, monitor_step_inv, driver_step_inv. Qed.
End epochs.

(** ** The frame *)

Definition in_frame (d : DPc) : nat := match d with DNone => 0 | _ => 1 end.
Definition running (s : DShard) : nat := sum_list (map in_frame (workers s)).
#[global] Arguments running : simpl never.
Definition pushing (s : DShard) : nat := match monitor s with MPush _ => 1 | _ => 0 end.
Definition claimed (s : DShard) : nat := if decide (driver_phase (ee s) = kSuspended) then 0 else 1.

(** The claim of the frame is in the monitor's hand, in the queue, or a worker's. *)
Definition frame_inv (s : DShard) : Prop := pushing s + queued s + running s = claimed s.

Lemma running_worker t d d' s X : workers s !! t = Some d -> workers X = workers s ->
  running s + in_frame d' = running (worker_at t d' X) + in_frame d.
Proof.
  intros Ht Hw. unfold running. cbn. rewrite Hw. destruct (sum_insert in_frame _ _ _ Ht) as (N & E1 & E2).
  rewrite E1, E2. lia.
Qed.

Lemma observe_frame o s : driver_phase (ee (observe_step o s).2) = driver_phase (ee s) /\
  queued (observe_step o s).2 = queued s /\ workers (observe_step o s).2 = workers s /\ monitor (observe_step o s).2 = monitor s.
Proof. by destruct o. Qed.

Lemma driver_step_frame t d s s' : frame_inv s -> workers s !! t = Some d -> driver_step t d s = Some s' -> frame_inv s'.
Proof.
  intros Hi Ht Hs.
  assert (exists X d', s' = worker_at t d' X /\ workers X = workers s /\ monitor X = monitor s /\
    queued X + in_frame d' = queued s + in_frame d /\
    (driver_phase (ee X) = driver_phase (ee s) \/ (d = DResumed /\ driver_phase (ee X) = kRunning))
    \/ d = DSuspend /\ s' = worker_at t DNone (on_epochs (set_driver_phase kSuspended) s)) as Hx.
  { destruct d as [| | |r|r a|r a|r a|r a|r|r|r|r|r|r|o|]; cbn -[observe_step] in Hs.
    15: { destruct (observe_frame o s) as (E1 & E2 & E3 & E4). destruct o; invc Hs; eexists _, _; left; (split; [done|]); auto. }
    all: repeat case_match; repeat case_decide; invc Hs.
    all: try (by exists s, DNone; right).
    all: eexists _, _; left; split; [reflexivity|]; cbn; repeat split; auto; lia. }
  pose proof (sum_ge in_frame _ _ _ Ht) as Hge. fold (running s) in Hge.
  destruct Hx as (X & d' & [(-> & Hw & Hm & Hq & Hp)|[-> ->]]).
  - pose proof (running_worker t d d' s X Ht Hw) as Hr. unfold frame_inv in *.
    assert (pushing (worker_at t d' X) = pushing s) as -> by (unfold pushing; cbn; by rewrite Hm).
    change (queued (worker_at t d' X)) with (queued X).
    assert (claimed (worker_at t d' X) = claimed s) as ->; [|lia].
    unfold claimed in *. cbn in *. destruct Hp as [->|[-> ->]]; [done|]. cbn in *.
    repeat case_decide; try done; lia.
  - pose proof (running_worker t DSuspend DNone s (on_epochs (set_driver_phase kSuspended) s) Ht eq_refl) as Hr.
    unfold frame_inv in *. change (pushing (worker_at t DNone _)) with (pushing s).
    change (queued (worker_at t DNone _)) with (queued s).
 change (claimed (worker_at t DNone _)) with 0. unfold claimed in Hi. rewrite decide_False in Hi.
 + cbn in Hr. lia.
 + intros E. rewrite decide_True in Hi by done. cbn in *. lia.
Qed.

Lemma monitor_step_frame single s s' : frame_inv s -> monitor_step single s = Some s' -> frame_inv s'.
Proof.
  intros Hi Hs. unfold monitor_step in Hs. unfold frame_inv, pushing in Hi.
  destruct (monitor s) as [|now|now|now|now|now o|now|now|now|now|now|now|now|now|r|r|r|r|o]; cbn -[observe_step] in Hs.
  6, 19: destruct (observe_frame o s) as (E1 & E2 & E3 & E4); destruct o; invc Hs;
    unfold frame_inv, pushing, running, claimed in *; cbn -[observe_step] in *; rewrite ?E1, ?E2, ?E3; done.
  all: repeat case_match; repeat case_decide; invc Hs; unfold frame_inv, pushing, running, claimed in *; cbn in *; try lia.
  all: repeat case_decide; simplify_eq; lia.
Qed.

Lemma frame_reachable single count now s : reachable (fun s => s = shard_init count now) (shard_step single) s -> frame_inv s.
Proof.
  apply (reachable_invariant frame_inv).
  - intros ? ->. assert (running (shard_init count now) = 0) as E; [|unfold frame_inv; by rewrite E].
    apply sum_zero. intros i d Hd. cbn in Hd. by apply lookup_replicate in Hd as [-> _].
  - intros s1 s2 _ Hi Hs. destruct Hs as [s1 s2 He|s1 s2 Hs|t d s1 s2 Ht Hs];
      eauto using monitor_step_frame, driver_step_frame. by destruct He.
Qed.

Lemma published_grows single s s' : shard_step single s s' -> length (published s) <= length (published s').
Proof.
  intros Hs. destruct Hs as [s1 s2 He|s1 s2 Hs|t d s1 s2 Ht Hs]; [by destruct He| |].
  - unfold monitor_step, request_driver_step, queue_driver_step in Hs.
    destruct (monitor s1) as [| | | | |? o| | | | | | | | | | | | |o]; try destruct o;
      repeat case_match; repeat case_decide; invc Hs; cbn; rewrite ?length_app; lia.
  - unfold driver_step in Hs. destruct d as [| | | | | | | | | | | | | |o|]; try destruct o;
      repeat case_match; repeat case_decide; invc Hs; cbn; lia.
Qed.

Lemma shard_init_inv count now : (0 <= now)%Z -> epochs_inv (shard_init count now).
Proof.
  intros Hn. split; cbn; try done.
  intros t d Ht. by apply lookup_replicate in Ht as [-> _].
Qed.

Lemma shard_reachable_inv single count now s : (0 <= now)%Z ->
  reachable (fun s => s = shard_init count now) (shard_step single) s ->
  (Z.of_nat (length (published s)) < 2 ^ 64)%Z -> epochs_inv s.
Proof.
  intros Hn Hr. induction Hr as [s ->|s1 s2 _ IH Hs]; intros Hb; [by apply shard_init_inv|].
  eapply shard_step_inv; [done| |done]. apply IH. pose proof (published_grows single s1 s2 Hs). lia.
Qed.

(** ** Properties *)

(** The monitor running alone. *)
Fixpoint monitor_alone (single : bool) (fuel : nat) (s : DShard) : option DShard :=
  match fuel with
  | O => Some s
  | S fuel => s' ← monitor_step single s; monitor_alone single fuel s'
  end.

(** The driver's frame is resumed by one worker at a time. However the monitor
    queues it, workers take it from the global queue and the rest of the runtime
    runs, at most one of these holds, and exactly while the phase is not suspended:
    the monitor is about to push the frame, the frame is in the queue once, one
    worker is inside it. A worker inside the frame is never joined by another, and
    it is not queued again before its suspension has been published. *)
Theorem driver_resumed_once single count now s :
  reachable (fun s => s = shard_init count now) (shard_step single) s ->
  pushing s + queued s + running s = claimed s /\
  (forall t u d d', workers s !! t = Some d -> workers s !! u = Some d' -> d <> DNone -> d' <> DNone -> t = u) /\
  (forall t d, workers s !! t = Some d -> d <> DNone -> queued s = 0 /\ driver_phase (ee s) <> kSuspended /\
     forall now', monitor s = MPhase now' -> monitor_step single s = Some (monitor_at (MGrace now') s)).
Proof.
  intros Hi%frame_reachable. unfold frame_inv in Hi.
  assert (claimed s <= 1) as Hc by (unfold claimed; case_decide; lia).
  assert (forall d, d <> DNone -> in_frame d = 1) as Hin by (by intros []).
  split; [done|]. split.
  - intros t u d d' Ht Hu Hd Hd'. destruct (decide (t = u)) as [|Hne]; [done|].
    pose proof (sum_two in_frame _ _ _ _ _ Ht Hu Hne) as H2. rewrite !Hin in H2 by done. unfold running in Hi. lia.
  - intros t d Ht Hd. pose proof (sum_ge in_frame _ _ _ Ht) as H1. rewrite Hin in H1 by done. fold (running s) in H1.
    assert (driver_phase (ee s) <> kSuspended) as Hp.
    { intros E. unfold claimed in Hi. rewrite decide_True in Hi by done. lia. }
    split_and!; [lia|done|]. intros now' Hm. unfold monitor_step, queue_driver_step. by rewrite Hm, decide_False.
Qed.

(** C32: no request for a poll is forgotten or taken as met too early. In every
    interleaving at most one request is outstanding; an epoch counts as covered only
    when some poll's wait has returned since its request, or when the driver saw
    that the runtime stops or has no descriptor; the driver's late or mixed reads of
    epoch and time change nothing of this. When a request has waited for the grace
    time and nobody polls, the monitor alone covers it within five steps. *)
Theorem driver_epochs_covered single count now s : (0 <= now)%Z ->
  reachable (fun s => s = shard_init count now) (shard_step single) s ->
  (Z.of_nat (length (published s)) < 2 ^ 64)%Z ->
  driver_requested (ee s) = Z.of_nat (length (published s)) /\
  (driver_requested (ee s) - 1 <= driver_covered (ee s) <= driver_requested (ee s))%Z /\
  (forall i x, published s !! i = Some x -> (Z.of_nat i < driver_covered (ee s))%Z ->
     (Z.of_nat i < excused s)%Z \/ (x <= last_poll (pp s))%Z) /\
  (forall t, monitor s = MGrace t -> polling (pp s) = false ->
     (driver_covered (ee s) < driver_requested (ee s))%Z -> (kMonitorDriverGraceNs <= t - driver_requested_at (ee s))%Z ->
     exists s', monitor_alone single 5 s = Some s' /\ monitor s' = MIdle /\
       driver_covered (ee s') = driver_requested (ee s) /\ polling (pp s') = false).
Proof.
  intros Hn Hr Hb. pose proof (shard_reachable_inv single count now s Hn Hr Hb) as Hi. destruct Hi as [H1 H2 H3 [H4 H5] _ _ _ _].
  split_and!; try done. intros t Hm Hp Hc Hg.
  destruct s as [e [pl lp ot ar st cl op] q m ws pb ex]. cbn in Hm, Hp, Hc, Hg |- *. subst m pl.
  cbn [monitor_alone monitor_step monitor ee pp polling]. rewrite decide_True by done.
  eexists. split; [reflexivity|]. cbn. split_and!; try done. lia.
Qed.

(** ** A run: a request is published, the driver queued, and no worker takes it *)

Definition tick (d : Z) (s : DShard) : DShard :=
  on_polls (fun p => mkPolls (polling p) (last_poll p) (owner_ticket p) (any_registered p) (is_stopping p) (clock p + d) (other_polls p)) s.

Definition one_request : DShard :=
  mkShard (mkEpochs kQueued 1 0 0 300000) (mkPolls false 0 1 true false 600000 false) 1 (MGrace 600000) [DNone] [300000%Z] 0.

Lemma monitor_alone_reachable single init fuel s s' : reachable init (shard_step single) s ->
  monitor_alone single fuel s = Some s' -> reachable init (shard_step single) s'.
Proof.
  revert s. induction fuel as [|fuel IH]; cbn; intros s Hr Hs; [by simplify_eq|].
  destruct (monitor_step single s) as [s1|] eqn:E; [|done]. apply (IH s1); [|done]. eapply reachable_step; [done|]. by apply sh_monitor.
Qed.

Lemma one_request_reachable : reachable (fun s => s = shard_init 1 0) (shard_step false) one_request.
Proof.
  set (s0 := on_polls (set_ticket 1) (on_polls (fun p => mkPolls (polling p) (last_poll p) (owner_ticket p) true (is_stopping p || false) (clock p) (other_polls p)) (tick 300000 (shard_init 1 0)))).
  assert (reachable (fun s => s = shard_init 1 0) (shard_step false) s0) as H0.
  { eapply reachable_step; [|apply sh_env, env_ticket]. eapply reachable_step; [|apply sh_env, env_flags].
    eapply reachable_step; [by apply reachable_init|]. apply sh_env, env_clock. lia. }
  destruct (monitor_alone false 16 s0) as [s1|] eqn:E1; [|by vm_compute in E1].
  pose proof (monitor_alone_reachable false _ 16 s0 s1 H0 E1) as H1.
  vm_compute in E1. injection E1 as E1.
  apply (monitor_alone_reachable false _ 15 (tick 300000 s1)); [|by subst s1].
  eapply reachable_step; [done|]. apply sh_env, env_clock. lia.
Qed.

Lemma driver_resumed_once_witness : pushing one_request + queued one_request + running one_request = claimed one_request.
Proof. exact (proj1 (driver_resumed_once false 1 0 one_request one_request_reachable)). Defined.

Lemma driver_epochs_covered_witness : exists s', monitor_alone false 5 one_request = Some s' /\ driver_covered (ee s') = 1%Z.
Proof.
  destruct (proj2 (proj2 (proj2 (driver_epochs_covered false 1 0 one_request (Z.le_refl 0) one_request_reachable eq_refl)))
    600000%Z eq_refl eq_refl eq_refl ltac:(vm_compute; discriminate)) as (s' & H1 & _ & H2 & _).
  by exists s'.
Defined.
