(* ===== verification/Sock.v ===== *)
(** * Socket operations (src/net.cpp)

    The loops of [tcp_read_some], [tcp_write_some], [TcpConn], [UnixConn],
    [UdpConn], the listeners and [await_connect], written against an interface:
    the kernel's calls, the operation queue of a direction ([o_lock], [o_unlock]),
    the lease of the descriptor ([o_use], [o_unuse]), the readiness hint and the
    wait of the reactor. [None] is a use of the interface out of order. The queue
    and the wait may never answer ([Parked]); an operation in one of them stays
    there. *)

From S2P Require Import Prelude Result Bytes Io.

Set Default Proof Using "Type".

Inductive Dir := kRead | kWrite.
#[global] Instance Dir_eq_dec : EqDecision Dir.
Proof. solve_decision. Defined.

(** What a system call gives: a value, or [errno]. *)
Inductive Sys (A : Type) := Done (a : A) | Errno (e : Z).
Arguments Done {A} a.
Arguments Errno {A} e.

Definition ECONNABORTED : Z := 103.
Definition EINPROGRESS : Z := 115.
Definition ENOTCONN : Z := 107.

(** How an operation that may wait ends: it returns, or it stays parked for ever
    since nothing wakes it. *)
Inductive Fate (A : Type) := Returned (r : Result A) | Parked.
Arguments Returned {A} r.
Arguments Parked {A}.

(** ** The interface *)

Class Native (W Addr Fd : Type) := {
  o_capture : ST W (Result unit);              (* capture_operation *)
  o_lock : Dir -> ST W (Fate unit);            (* IoOperationAwaiter *)
  o_try_lock : Dir -> ST W (Result unit);      (* try_lock_io_operation *)
  o_unlock : Dir -> ST W unit;                 (* ~IoOperationGuard *)
  o_use : Dir -> ST W (Result unit);           (* FdUseGuard *)
  o_unuse : Dir -> ST W unit;                  (* ~FdUseGuard *)
  o_ready : Dir -> W -> bool;                  (* may_be_ready *)
  o_would_block : Dir -> ST W unit;            (* note_would_block *)
  o_wait : Dir -> ST W (Fate unit);            (* IoAwaiter *)
  s_recv : nat -> ST W (Sys bytes);
  s_send : bytes -> ST W (Sys nat);
  s_recvfrom : nat -> ST W (Sys (bytes * Addr));
  s_sendto : bytes -> Addr -> ST W (Sys nat);
  s_accept : ST W (Sys Fd);
  s_so_error : ST W (Sys Z);                   (* getsockopt SO_ERROR *)
  s_getpeername : ST W (Sys unit);
  o_adopt : Fd -> ST W (Result unit) }.        (* Socket::adopt *)

Section operations.
Context {W Addr Fd : Type} `{Native W Addr Fd}.

Definition would_block_errno (e : Z) : bool := bool_decide (e = EAGAIN) || bool_decide (e = EWOULDBLOCK).
Definition interrupted (e : Z) : bool := bool_decide (e = EINTR).
Definition aborted (e : Z) : bool := interrupted e || bool_decide (e = ECONNABORTED).

(** Runs [k] when [r] is a success. *)
Definition on_ok {A B} (r : Result A) (k : A -> ST W (Result B)) : ST W (Result B) :=
  match r with Ok a => k a | Err e => st_ret (Err e) end.

(** The same among operations that may wait; nothing runs after one that parks. *)
Definition on_fate {A B} (r : Fate A) (k : A -> ST W (Fate B)) : ST W (Fate B) :=
  match r with
  | Returned (Ok a) => k a
  | Returned (Err e) => st_ret (Returned (Err e))
  | Parked => st_ret Parked
  end.

(** The loop around a system call: skip it while the hint is down ([hint]), make
    it under the descriptor's lease, again when [retry], wait when it would block. *)
Fixpoint io_loop {A} (hint late : bool) (retry : Z -> bool) (d : Dir) (call : ST W (Sys A)) (after : A -> ST W unit)
    (fuel : nat) : ST W (Fate A) :=
  match fuel with
  | O => st_fail
  | S fuel =>
      let again := io_loop hint late retry d call after fuel in
      let wait := (ready <-- o_wait d; on_fate ready (fun _ => again)) in
      ready <-- st_gets (o_ready d);
      if negb hint || ready then
        u <-- o_use d;
        on_fate (Returned u) (fun _ =>
          r <-- call;
          match r with
          | Done a => after a;;; o_unuse d;;; st_ret (Returned (Ok a))
          | Errno e =>
              if retry e then o_unuse d;;; again
              else if would_block_errno e then (if late then o_unuse d;;; o_would_block d else o_would_block d;;; o_unuse d);;; wait
              else o_unuse d;;; st_ret (Returned (Err (of_errno e)))
          end)
      else wait
  end.

(** A short count drains the direction. *)
Definition note_short (d : Dir) (n size : nat) : ST W unit :=
  if decide (n < size) then o_would_block d else st_ret tt.

Definition tcp_read_some (fuel n : nat) : ST W (Fate bytes) :=
  io_loop true false interrupted kRead (s_recv n) (fun b => note_short kRead (length b) n) fuel.

Definition tcp_write_some (fuel : nat) (buffer : bytes) : ST W (Fate nat) :=
  io_loop true false interrupted kWrite (s_send buffer) (fun k => note_short kWrite k (length buffer)) fuel.

(** An operation: the capture, the direction's queue, and its release. *)
Definition operation {A} (d : Dir) (body : ST W (Fate A)) : ST W (Fate A) :=
  c <-- o_capture;
  on_fate (Returned c) (fun _ =>
    g <-- o_lock d;
    on_fate g (fun _ =>
      r <-- body;
      match r with
      | Returned r => o_unlock d;;; st_ret (Returned r)
      | Parked => st_ret Parked
      end)).

(** [TcpConn::read], [UnixConn::read]. *)
Definition tcp_read (fuel n : nat) : ST W (Fate bytes) := operation kRead (tcp_read_some fuel n).

(** The loop of [TcpConn::write]; [rounds] bounds it, [fuel] each round. *)
Fixpoint write_loop (rounds fuel : nat) (buffer : bytes) : ST W (Fate unit) :=
  if decide (buffer = []) then st_ret (Returned (Ok tt))
  else
    match rounds with
    | O => st_fail
    | S rounds =>
        n <-- tcp_write_some fuel buffer;
        on_fate n (fun n => write_loop rounds fuel (drop n buffer))
    end.

Definition tcp_write (rounds fuel : nat) (buffer : bytes) : ST W (Fate nat) :=
  operation kWrite (r <-- write_loop rounds fuel buffer; on_fate r (fun _ => st_ret (Returned (Ok (length buffer))))).

(** One attempt under the non-suspending guard. *)
Definition try_io {A} (d : Dir) (call : ST W (Sys A)) (after : A -> ST W unit) : ST W (Result A) :=
  c <-- o_capture;
  on_ok c (fun _ =>
    g <-- o_try_lock d;
    on_ok g (fun _ =>
      u <-- o_use d;
      r <-- on_ok u (fun _ =>
        s <-- call;
        match s with
        | Done a => after a;;; o_unuse d;;; st_ret (Ok a)
        | Errno e => (if would_block_errno e then o_would_block d else st_ret tt);;; o_unuse d;;; st_ret (Err (of_errno e))
        end);
      o_unlock d;;; st_ret r)).

Definition try_read (n : nat) : ST W (Result bytes) :=
  try_io kRead (s_recv n) (fun b => note_short kRead (length b) n).
Definition try_write (buffer : bytes) : ST W (Result nat) :=
  try_io kWrite (s_send buffer) (fun k => note_short kWrite k (length buffer)).

(** [UnixConn] has copies of the four. *)
Definition unix_read := tcp_read.
Definition unix_write := tcp_write.
Definition unix_try_read := try_read.
Definition unix_try_write := try_write.

(** [UdpConn]: no hint, and a short datagram says nothing. *)
Definition read_from (fuel n : nat) : ST W (Fate (bytes * Addr)) :=
  operation kRead (io_loop false false interrupted kRead (s_recvfrom n) (fun _ => st_ret tt) fuel).
Definition write_to (fuel : nat) (buffer : bytes) (to : Addr) : ST W (Fate nat) :=
  operation kWrite (io_loop false false interrupted kWrite (s_sendto buffer to) (fun _ => st_ret tt) fuel).

(** The listeners: [TcpListener::accept] with the hint, [UnixListener::accept]
    without; the connection is adopted after the lease, on the worker that is to
    serve it (the move between workers is the scheduler's). *)
Definition accept_loop (hint : bool) (fuel : nat) : ST W (Fate Fd) :=
  operation kRead (
    r <-- io_loop hint (negb hint) aborted kRead s_accept (fun _ => st_ret tt) fuel;
    on_fate r (fun fd => a <-- o_adopt fd; on_fate (Returned a) (fun _ => st_ret (Returned (Ok fd))))).
Definition tcp_accept := accept_loop true.
Definition unix_accept := accept_loop false.

(** [TcpConn::await_connect]. *)
Fixpoint await_connect (fuel : nat) : ST W (Fate unit) :=
  match fuel with
  | O => st_fail
  | S fuel =>
      ready <-- o_wait kWrite;
      on_fate ready (fun _ =>
        e <-- s_so_error;
        match e with
        | Errno e => st_ret (Returned (Err (of_errno e)))
        | Done error =>
            if decide (error <> 0%Z) then st_ret (Returned (Err (of_errno error)))
            else
              p <-- s_getpeername;
              match p with
              | Done _ => st_ret (Returned (Ok tt))
              | Errno e =>
                  if decide (e <> ENOTCONN) then st_ret (Returned (Err (of_errno e)))
                  else o_would_block kWrite;;; await_connect fuel
              end
        end)
  end.
End operations.
