(* ===== verification/SockProps.v ===== *)
(** * The contract of the socket operations

    What the kernel and the reactor promise ([NativeSpec]), and what the loops of
    Sock make of it: the interface of io.hpp ([ReaderSpec], [WriterSpec],
    [FullWriter]), whole datagrams, and connections that have a peer. *)

From S2P Require Import Prelude Result Bytes Io Sock.

Set Default Proof Using "Type".

(** A direction: free, with its operation queue held, with the lease too. *)
Inductive Hold := HFree | HOwned | HUsing.
#[global] Instance Hold_eq_dec : EqDecision Hold.
Proof. solve_decision. Defined.

(** The ends of a socket: the bytes still to be received, those sent, the
    datagrams queued and sent, the connections to accept. *)
Record Ends (Addr Fd : Type) := mkEnds {
  rx : bytes; tx : bytes; inbound : list (bytes * Addr); outbound : list (bytes * Addr); backlog : list Fd }.
Arguments mkEnds {Addr Fd}.
Arguments rx {Addr Fd}.
Arguments tx {Addr Fd}.
Arguments inbound {Addr Fd}.
Arguments outbound {Addr Fd}.
Arguments backlog {Addr Fd}.

Definition is_ok {A} (r : Result A) : bool := match r with Ok _ => true | Err _ => false end.
Definition fate_ok {A} (r : Fate A) : bool := match r with Returned r => is_ok r | Parked => false end.

Section contract.
Context {W Addr Fd : Type} `{Native W Addr Fd}.

(** How a system call moved the ends. *)
Definition Effect (A : Type) := Ends Addr Fd -> A -> Ends Addr Fd -> Prop.

Definition recv_effect (n : nat) : Effect bytes := fun e b e' =>
  e = mkEnds (b ++ rx e') (tx e') (inbound e') (outbound e') (backlog e') /\ length b <= n /\ (b = [] -> 0 < n -> rx e = []).
Definition send_effect (d : bytes) : Effect nat := fun e k e' =>
  e' = mkEnds (rx e) (tx e ++ take k d) (inbound e) (outbound e) (backlog e) /\ k <= length d /\ (d <> [] -> 0 < k).
(** A datagram is taken whole; what does not fit is lost. *)
Definition recvfrom_effect (n : nat) : Effect (bytes * Addr) := fun e r e' =>
  exists p, e = mkEnds (rx e') (tx e') ((p, r.2) :: inbound e') (outbound e') (backlog e') /\ r.1 = take n p.
Definition sendto_effect (d : bytes) (to : Addr) : Effect nat := fun e k e' =>
  e' = mkEnds (rx e) (tx e) (inbound e) (outbound e ++ [(d, to)]) (backlog e) /\ k = length d.
Definition accept_effect : Effect Fd := fun e fd e' =>
  e = mkEnds (rx e') (tx e') (inbound e') (outbound e') (fd :: backlog e').

(** ** What is relied on

    [patience] bounds how often a call is still interrupted and a wait still ends
    without progress: a signal or a spurious edge comes finitely often. A wait or
    a queue may also never answer. A direction is [dry] when its hint was found
    down or taken down: after a call that would block, or a short count. *)
Class NativeSpec := {
  ends : W -> Ends Addr Fd;
  held : W -> Dir -> Hold;
  patience : W -> nat;
  peered : W -> Prop;
  dry : W -> Dir -> Prop;

  (** The direction [d] goes to [h], the ends stay. *)
  moved (d : Dir) (h : Hold) (w w' : W) : Prop :=
    ends w' = ends w /\ patience w' <= patience w /\ held w' d = h /\ (forall d', d' <> d -> held w' d' = held w d');

  capture_spec w : exists r w', o_capture w = Some (r, w') /\ forall d, moved d (held w d) w w';
  lock_spec d w : held w d = HFree ->
    exists r w', o_lock d w = Some (r, w') /\ moved d (if fate_ok r then HOwned else HFree) w w';
  try_lock_spec d w : held w d = HFree ->
    exists r w', o_try_lock d w = Some (r, w') /\ moved d (if is_ok r then HOwned else HFree) w w';
  unlock_spec d w : held w d = HOwned -> exists w', o_unlock d w = Some (tt, w') /\ moved d HFree w w';
  use_spec d w : held w d = HOwned ->
    exists r w', o_use d w = Some (r, w') /\ moved d (if is_ok r then HUsing else HOwned) w w';
  unuse_spec d w : held w d = HUsing -> exists w', o_unuse d w = Some (tt, w') /\ moved d HOwned w w' /\
    (dry w d -> dry w' d);
  ready_spec d w : o_ready d w = false -> dry w d;
  would_block_spec d w : exists w', o_would_block d w = Some (tt, w') /\ moved d (held w d) w w' /\ dry w' d;
  (** Nobody waits with the lease of the descriptor. *)
  wait_spec d w : held w d <> HUsing ->
    exists r w', o_wait d w = Some (r, w') /\ moved d (held w d) w w' /\ (fate_ok r = true -> patience w' < patience w);

  (** A system call needs the lease. It moves the ends, or fails and does not. *)
  sys_called {A} (d : Dir) (call : ST W (Sys A)) (retry : Z -> bool) (eff : Effect A) : Prop :=
    forall w, held w d = HUsing -> exists r w', call w = Some (r, w') /\ (forall d', held w' d' = held w d') /\
      patience w' <= patience w /\
      match r with
      | Done a => eff (ends w) a (ends w')
      | Errno e => ends w' = ends w /\ (retry e = true -> patience w' < patience w)
      end;
  recv_spec n : sys_called kRead (s_recv n) interrupted (recv_effect n);
  send_spec d : sys_called kWrite (s_send d) interrupted (send_effect d);
  recvfrom_spec n : sys_called kRead (s_recvfrom n) interrupted (recvfrom_effect n);
  sendto_spec d to : sys_called kWrite (s_sendto d to) interrupted (sendto_effect d to);
  accept_spec : sys_called kRead s_accept aborted accept_effect;

  so_error_spec w : exists r w', s_so_error w = Some (r, w') /\ forall d, moved d (held w d) w w';
  getpeername_spec w : exists r w', s_getpeername w = Some (r, w') /\ (forall d, moved d (held w d) w w') /\
    (match r with Done _ => peered w' | _ => True end);
  adopt_spec fd w : exists r w', o_adopt fd w = Some (r, w') /\ forall d, moved d (held w d) w w' }.

(** ** The loops *)

Context `{NS : !NativeSpec}.

(** What an operation did to the ends; a [strict] one nothing unless it succeeds. *)
Definition Outcome (A : Type) := Ends Addr Fd -> Fate A -> Ends Addr Fd -> Prop.
Definition strict {A} (eff : Effect A) : Outcome A := fun e r e' =>
  match r with Returned (Ok a) => eff e a e' | _ => e' = e end.

(** Parked for ever: behind another operation of the direction, or in a wait made
    because the direction was dry, in neither case with the lease. *)
Definition stuck (d : Dir) (w' : W) : Prop := held w' d <> HUsing /\ exists w,
  (o_lock d w = Some (Parked, w') /\ held w d = HFree) \/
  (o_wait d w = Some (Parked, w') /\ held w d = HOwned /\ dry w d).

(** An operation that returns leaves the direction as it was found. *)
Definition ran {A} (d : Dir) (R : Outcome A) (w : W) (r : Fate A) (w' : W) : Prop :=
  (forall d', d' <> d -> held w' d' = held w d') /\ patience w' <= patience w /\ R (ends w) r (ends w') /\
  match r with Returned _ => held w' d = held w d | Parked => stuck d w' end.

Lemma moved_trans d h h' w w1 w2 : moved d h w w1 -> moved d h' w1 w2 -> moved d h' w w2.
Proof.
  intros (E1 & P1 & _ & O1) (E2 & P2 & H2 & O2). split; [congruence|]. split; [lia|]. split; [done|].
  intros d' Hd. rewrite O2, O1; done.
Qed.

Lemma ran_after {A} d (R : Outcome A) w w1 r w' : moved d (held w d) w w1 -> ran d R w1 r w' -> ran d R w r w'.
Proof.
  intros (E & P & Hd & Ho) (Hh & Hp & Hr & Hf). split; [intros d' Hd'; by rewrite Hh, Ho|]. split; [lia|].
  split; [by rewrite <-E|]. destruct r; [congruence|done].
Qed.

(** Fails when nothing moved. *)
Lemma ran_err {A} d (R : Outcome A) w e w' : (forall a, R a (Returned (Err e)) a) -> moved d (held w d) w w' ->
  ran d R w (Returned (Err e)) w'.
Proof. intros HR (E & P & Hh & O). split; [done|]. split; [done|]. split; [rewrite E; apply HR|done]. Qed.

(** Parks when nothing moved. *)
Lemma ran_parked {A} d (R : Outcome A) w w' : (forall a, R a Parked a) -> moved d (held w d) w w' -> stuck d w' ->
  ran d R w Parked w'.
Proof. intros HR (E & P & Hh & O) Hs. split; [done|]. split; [done|]. split; [rewrite E; apply HR|done]. Qed.

Lemma moved_refl d w : moved d (held w d) w w.
Proof. by split. Qed.

(** A system call that failed leaves all as it was. *)
Lemma sys_failed d w w1 w2 : moved d HUsing w w1 -> (forall d', held w2 d' = held w1 d') -> patience w2 <= patience w1 ->
  ends w2 = ends w1 -> moved d HUsing w w2.
Proof.
  intros (E & P & Hh & O) Hh2 Hp He. split; [congruence|]. split; [lia|]. split; [by rewrite Hh2|].
  intros d' Hd. rewrite Hh2. by apply O.
Qed.

Section loop.
Context {A : Type} (hint late : bool) (retry : Z -> bool) (d : Dir) (call : ST W (Sys A)) (after : A -> ST W unit).
Context (eff : Effect A) (Hcall : sys_called d call retry eff)
  (Hafter : forall a w, exists w', after a w = Some (tt, w') /\ moved d (held w d) w w').

(** The end of an attempt that made no call count: the lease is given back. *)
Lemma released w w1 : moved d HUsing w w1 -> exists w', o_unuse d w1 = Some (tt, w') /\ moved d HOwned w w' /\ (dry w1 d -> dry w' d).
Proof using NS.
  intros Hm. destruct (unuse_spec d w1) as (w' & Hu & Hm' & Hd); [apply Hm|]. exists w'. split; [done|]. split; [|done].
  by eapply moved_trans.
Qed.

(** The hint falls, and the lease is given back. *)
Lemma drained w w1 : moved d HUsing w w1 ->
  exists w', (if late then o_unuse d;;; o_would_block d else o_would_block d;;; o_unuse d) w1 = Some (tt, w') /\
    moved d HOwned w w' /\ dry w' d.
Proof using NS.
  intros Hm. destruct late.
  - destruct (released w w1 Hm) as (w2 & Hu & Hm2 & _). rewrite (st_bind_eq _ _ _ _ _ Hu).
    destruct (would_block_spec d w2) as (w3 & Hb & Hm3 & Hd). exists w3. split; [done|]. split; [|done].
    eapply moved_trans; [done|]. by destruct Hm2 as (_ & _ & <- & _).
  - destruct (would_block_spec d w1) as (w2 & Hb & Hm2 & Hd). rewrite (st_bind_eq _ _ _ _ _ Hb).
    destruct (released w w2) as (w3 & Hu & Hm3 & Hd3); [|by exists w3; auto].
    eapply moved_trans; [done|]. by destruct Hm as (_ & _ & <- & _).
Qed.

Lemma io_loop_spec fuel w : held w d = HOwned -> patience w < fuel ->
  exists r w', io_loop hint late retry d call after fuel w = Some (r, w') /\ ran d (strict eff) w r w'.
Proof using Hcall Hafter NS.
  revert w. induction fuel as [|fuel IH]; intros w Hw Hp; [lia|]. cbn [io_loop].
  set (again := io_loop _ _ _ _ _ _ fuel) in *.
  set (wait := st_bind _ (o_wait d)).
  assert (forall w1, moved d HOwned w w1 -> dry w1 d -> exists r w', wait w1 = Some (r, w') /\ ran d (strict eff) w r w') as Hwait.
  { intros w1 Hm Hdry. pose proof Hm as (_ & P1 & H1 & _).
    destruct (wait_spec d w1) as (r & w2 & Hr & Hm2 & Hlt); [by rewrite H1|]. unfold wait. rewrite (st_bind_eq _ _ _ _ _ Hr).
    rewrite H1 in Hm2. pose proof (moved_trans _ _ _ _ _ _ Hm Hm2) as Hm3. rewrite <-Hw in Hm3.
    destruct r as [[[]|e]|].
    - destruct (IH w2) as (r & w' & Hr' & Hran); [destruct Hm3 as (_ & _ & -> & _); by rewrite Hw|specialize (Hlt eq_refl); lia|].
      exists r, w'. split; [done|]. by eapply ran_after.
    - exists (Returned (Err e)), w2. split; [done|by apply ran_err].
    - exists Parked, w2. split; [done|]. apply ran_parked; [done|done|].
      split; [by destruct Hm2 as (_ & _ & -> & _)|]. exists w1. right. by rewrite H1. }
  unfold st_bind at 1. unfold st_gets at 1. destruct (negb hint || o_ready d w) eqn:Hhint.
  2: { apply Hwait; [rewrite <-Hw; apply moved_refl|]. apply ready_spec. by destruct (o_ready d w), hint. }
  destruct (use_spec d w Hw) as (u & w1 & Hu & Hm1). rewrite (st_bind_eq _ _ _ _ _ Hu).
  destruct u as [[]|e]; cbn [is_ok on_fate] in *; [|exists (Returned (Err e)), w1; split; [done|apply ran_err; [done|by rewrite Hw]]].
  destruct (Hcall w1) as (r & w2 & Hr & Hh2 & Hp2 & He); [apply Hm1|]. rewrite (st_bind_eq _ _ _ _ _ Hr).
  assert (moved d HUsing w w1) as Hm1' by exact Hm1. clear Hm1.
  destruct r as [a|e].
  - destruct (Hafter a w2) as (w3 & Ha & Hm3). rewrite (st_bind_eq _ _ _ _ _ Ha).
    destruct (unuse_spec d w3) as (w4 & Hu4 & Hm4 & _); [destruct Hm3 as (_ & _ & -> & _); rewrite Hh2; apply Hm1'|].
    rewrite (st_bind_eq _ _ _ _ _ Hu4). exists (Returned (Ok a)), w4. split; [done|].
    destruct Hm1' as (E1 & P1 & H1 & O1), Hm3 as (E3 & P3 & H3 & O3), Hm4 as (E4 & P4 & H4 & O4).
    split; [|split; [lia|split; [cbn; rewrite E4, E3, <-E1; exact He|congruence]]].
    intros d' Hd. rewrite O4, O3, Hh2, O1; done.
  - destruct He as [He Hlt]. pose proof (sys_failed d w w1 w2 Hm1' Hh2 Hp2 He) as Hm2.
    destruct (retry e).
    { destruct (released w w2 Hm2) as (w3 & Hu3 & Hm3 & _). rewrite (st_bind_eq _ _ _ _ _ Hu3).
      destruct (IH w3) as (r & w' & Hr' & Hran).
      - apply Hm3.
      - destruct Hm1' as (_ & P1 & _). destruct (unuse_spec d w2) as (w3' & Hu3' & (_ & P3 & _) & _); [apply Hm2|].
        assert (w3' = w3) as -> by congruence. specialize (Hlt eq_refl). lia.
      - exists r, w'. split; [done|]. eapply ran_after; [|done]. by rewrite Hw. }
    destruct (would_block_errno e).
    { destruct (drained w w2 Hm2) as (w3 & Hu3 & Hm3 & Hdry). rewrite (st_bind_eq _ _ _ _ _ Hu3). by apply Hwait. }
    destruct (released w w2 Hm2) as (w3 & Hu3 & Hm3 & _). rewrite (st_bind_eq _ _ _ _ _ Hu3).
    exists (Returned (Err (of_errno e))), w3. split; [done|]. apply ran_err; [done|]. by rewrite Hw.
Qed.
End loop.

Lemma note_short_spec d n size w : exists w', note_short d n size w = Some (tt, w') /\ moved d (held w d) w w'.
Proof using NS.
  unfold note_short. case_decide; [|exists w; split; [done|apply moved_refl]].
  destruct (would_block_spec d w) as (w' & Hb & Hm & _). by exists w'.
Qed.

Lemma ret_spec d w : exists w', st_ret tt w = Some (tt, w') /\ moved d (held w d) w w'.
Proof. exists w. split; [done|apply moved_refl]. Qed.

(** An operation around a body that needs the direction's queue. *)
Lemma operation_spec {A} d (R : Outcome A) (body : ST W (Fate A)) w :
  (forall e a, R a (Returned (Err e)) a) -> (forall a, R a Parked a) -> held w d = HFree ->
  (forall w1, patience w1 <= patience w -> held w1 d = HOwned -> exists r w', body w1 = Some (r, w') /\ ran d R w1 r w') ->
  exists r w', operation d body w = Some (r, w') /\ ran d R w r w'.
Proof using NS.
  intros HR HRp Hw Hbody. unfold operation.
  destruct (capture_spec w) as (c & w1 & Hc & Hm1). rewrite (st_bind_eq _ _ _ _ _ Hc). specialize (Hm1 d).
  destruct c as [[]|e]; [cbn [on_fate]|exists (Returned (Err e)), w1; split; [done|by apply ran_err]].
  destruct (lock_spec d w1) as (g & w2 & Hg & Hm2); [destruct Hm1 as (_ & _ & -> & _); done|].
  rewrite (st_bind_eq _ _ _ _ _ Hg). pose proof (moved_trans _ _ _ _ _ _ Hm1 Hm2) as Hm.
  destruct g as [[[]|e]|]; cbn [is_ok fate_ok on_fate] in *.
  - destruct (Hbody w2) as (r & w3 & Hr & O3 & Hp3 & HR3 & Hf); [apply Hm|apply Hm|]. rewrite (st_bind_eq _ _ _ _ _ Hr).
    destruct Hm as (E & P & H2 & O). destruct r as [r|].
    + destruct (unlock_spec d w3) as (w4 & Hu & E4 & P4 & H4 & O4); [congruence|]. rewrite (st_bind_eq _ _ _ _ _ Hu).
      exists (Returned r), w4. split; [done|]. split; [|split; [lia|split; [by rewrite E4, <-E|congruence]]].
      intros d' Hd. rewrite O4, O3, O; done.
    + exists Parked, w3. split; [done|]. split; [|split; [lia|split; [by rewrite <-E|done]]].
      intros d' Hd. rewrite O3, O; done.
  - exists (Returned (Err e)), w2. split; [done|]. apply ran_err; [done|]. by rewrite Hw.
  - exists Parked, w2. split; [done|]. apply ran_parked; [done|by rewrite Hw|].
    split; [by destruct Hm as (_ & _ & -> & _)|]. exists w1. left. split; [done|]. destruct Hm1 as (_ & _ & -> & _). done.
Qed.

(** ** Writing everything *)

(** All of the buffer is sent, or a prefix of it and an error or a wait. *)
Definition write_outcome {A} (buffer : bytes) (full : A) : Outcome A := fun e r e' =>
  exists k, k <= length buffer /\ e' = mkEnds (rx e) (tx e ++ take k buffer) (inbound e) (outbound e) (backlog e) /\
    match r with Returned (Ok a) => a = full /\ k = length buffer | _ => True end.

Lemma write_outcome_nothing {A} buffer (full : A) (r : Fate A) e : fate_ok r = false -> write_outcome buffer full e r e.
Proof.
  intros Hr. exists 0. split; [lia|]. rewrite take_0, app_nil_r. split; [by destruct e|]. by destruct r as [[]|].
Qed.

Lemma write_loop_spec rounds fuel buffer w : length buffer <= rounds -> patience w < fuel -> held w kWrite = HOwned ->
  exists r w', write_loop rounds fuel buffer w = Some (r, w') /\ ran kWrite (write_outcome buffer tt) w r w'.
Proof using NS.
  revert buffer w. induction rounds as [|rounds IH]; intros buffer w Hl Hp Hw.
  { destruct buffer; [|cbn in Hl; lia]. exists (Returned (Ok tt)), w. split; [done|]. split; [done|]. split; [done|].
    split; [|done]. exists 0. rewrite app_nil_r. split; [done|]. by destruct (ends w). }
  cbn [write_loop]. case_decide as Hb.
  { subst. exists (Returned (Ok tt)), w. split; [done|]. split; [done|]. split; [done|]. split; [|done]. exists 0.
    rewrite app_nil_r. split; [done|]. by destruct (ends w). }
  destruct (io_loop_spec true false interrupted kWrite (s_send buffer) (fun k => note_short kWrite k (length buffer))
    (send_effect buffer) (send_spec buffer) (fun k w => note_short_spec kWrite k (length buffer) w) fuel w Hw Hp)
    as (n & w1 & Hn & Hh1 & Hp1 & HR1 & Hf1).
  rewrite (st_bind_eq _ _ _ _ _ Hn).
  destruct n as [[k|e]|]; cbn [on_fate strict] in *.
  2-3: eexists _, w1; split; [done|]; split; [done|]; split; [done|]; split; [rewrite HR1; by apply write_outcome_nothing|done].
  destruct HR1 as (E1 & Hk & Hpos). specialize (Hpos Hb).
  destruct (IH (drop k buffer) w1) as (r & w' & Hr & Hh & Hp' & (j & Hj & E' & Hres) & Hf).
  - rewrite length_drop. lia.
  - lia.
  - by rewrite Hf1.
  - exists r, w'. split; [done|]. split; [intros d' Hd; by rewrite Hh, Hh1|]. split; [lia|].
    split; [|destruct r; [congruence|done]].
    rewrite length_drop in *. exists (k + j). split; [lia|]. split.
    + rewrite E', E1. cbn. by rewrite <-app_assoc, take_take_drop.
    + destruct r as [[]|]; [|done..]. destruct Hres. split; [done|lia].
Qed.

(** ** Properties *)

Definition enough (w : W) : nat := S (patience w).

Theorem tcp_reads_prefix n w : held w kRead = HFree ->
  exists r w', tcp_read (enough w) n w = Some (r, w') /\ ran kRead (strict (recv_effect n)) w r w'.
Proof using NS.
  intros Hw. apply operation_spec; [done..|]. intros w1 Hp H1.
  apply (io_loop_spec true false interrupted kRead _ _ _ (recv_spec n)); [|done|unfold enough; lia].
  intros b w2. apply note_short_spec.
Qed.

Theorem tcp_writes_all buffer w : held w kWrite = HFree ->
  exists r w', tcp_write (length buffer) (enough w) buffer w = Some (r, w') /\
    ran kWrite (write_outcome buffer (length buffer)) w r w'.
Proof using NS.
  intros Hw. apply operation_spec; [intros; by apply write_outcome_nothing..|done|]. intros w1 Hp H1.
  destruct (write_loop_spec (length buffer) (enough w) buffer w1) as (r & w' & Hr & Hran); [done|unfold enough; lia|done|].
  rewrite (st_bind_eq _ _ _ _ _ Hr). destruct Hran as (Hh & Hp' & (k & Hk & E & Hres) & Hf).
  destruct r as [[[]|e]|]; cbn [on_fate]; eexists _, w'; (split; [done|]); (split; [done|]); (split; [done|]); (split; [|done]);
    exists k; split_and!; try done. by destruct Hres.
Qed.

Definition idle (w : W) : Prop := forall d, held w d = HFree.

Lemma ran_idle {A} d (R : Outcome A) w r w' : ran d R w (Returned r) w' -> idle w -> idle w'.
Proof.
  intros (Ho & _ & _ & Hf) Hi d'. destruct (decide (d' = d)) as [->|Hd]; [by rewrite Hf|]. by rewrite Ho.
Qed.

(** ** The interface of io.hpp

    A socket whose waits and queues always answer is a stream. *)

Definition answered : Prop := forall d w w', o_lock d w <> Some (Parked, w') /\ o_wait d w <> Some (Parked, w').

Definition returned {A} (m : option (Fate A * W)) : option (Result A * W) :=
  match m with Some (Returned r, w') => Some (r, w') | _ => None end.

Section streams.
Context (Hlive : answered).

Lemma ran_returned {A} d (R : Outcome A) w r w' : ran d R w r w' -> exists r', r = Returned r'.
Proof using Hlive.
  intros (_ & _ & _ & Hf). destruct r as [r|]; [by exists r|]. destruct Hf as (_ & w1 & [[H1 _]|[H1 _]]); by apply Hlive in H1.
Qed.

#[local] Instance sock_read : Reader W := fun n w => returned (tcp_read (enough w) n w).
#[local] Instance sock_write : Writer W := fun d w => returned (tcp_write (length d) (enough w) d w).
#[local] Instance sock_valid : Valid W := idle.

Lemma sock_read_run n w : idle w -> exists r w', r_read n w = Some (r, w') /\
  ran kRead (strict (recv_effect n)) w (Returned r) w'.
Proof using Hlive NS.
  intros Hv. destruct (tcp_reads_prefix n w (Hv kRead)) as (r & w' & Hr & Hran).
  destruct (ran_returned _ _ _ _ _ Hran) as [r' ->]. exists r', w'. unfold r_read, sock_read. by rewrite Hr.
Qed.

Lemma sock_write_run b w : idle w -> exists r w', w_write b w = Some (r, w') /\
  ran kWrite (write_outcome b (length b)) w (Returned r) w'.
Proof using Hlive NS.
  intros Hv. destruct (tcp_writes_all b w (Hv kWrite)) as (r & w' & Hr & Hran).
  destruct (ran_returned _ _ _ _ _ Hran) as [r' ->]. exists r', w'. unfold w_write, sock_write. by rewrite Hr.
Qed.

#[local] Instance sock_reader_spec : ReaderSpec W.
Proof using Hlive NS.
  refine {| stream := fun w => rx (ends w) |}.
  - intros n w Hv. destruct (sock_read_run n w Hv) as (r & w' & Hr & Hran). exists r, w'. split; [done|]. by eapply ran_idle.
  - intros n w d w' Hv Hr. destruct (sock_read_run n w Hv) as (r & w1 & Hr' & Hran).
    rewrite Hr in Hr'. injection Hr' as <- <-. destruct Hran as (_ & _ & (E & Hl & He) & _).
    split; [done|]. split; [|done]. by rewrite E.
Defined.

#[local] Instance sock_writer_spec : WriterSpec W.
Proof using Hlive NS.
  refine {| sink := fun w => tx (ends w) |}.
  - intros d w Hv. destruct (sock_write_run d w Hv) as (r & w' & Hr & Hran). exists r, w'. split; [done|]. by eapply ran_idle.
  - intros d w w' Hv Hr. destruct (sock_write_run d w Hv) as (r & w1 & Hr' & Hran).
    rewrite Hr in Hr'. injection Hr' as <- <-. destruct Hran as (_ & _ & (k & Hk & -> & _ & ->) & _).
    cbn. by rewrite take_ge.
Defined.

#[local] Instance sock_independent : Independent W.
Proof using Hlive NS.
  split.
  - intros n w r w' Hv Hr. destruct (sock_read_run n w Hv) as (r' & w1 & Hr' & Hran).
    rewrite Hr in Hr'. injection Hr' as <- <-. destruct Hran as (_ & _ & E & _).
    change (tx (ends w') = tx (ends w)). destruct r; cbn in E; [destruct E as [-> _]|rewrite E]; done.
  - intros d w r w' Hv Hr. destruct (sock_write_run d w Hv) as (r' & w1 & Hr' & Hran).
    rewrite Hr in Hr'. injection Hr' as <- <-.
    change (rx (ends w') = rx (ends w)). by destruct Hran as (_ & _ & (k & _ & -> & _) & _).
Qed.

Lemma copy_moves_all size w : idle w -> 0 < size ->
  exists r w', copy (S (length (rx (ends w)))) size w = Some (r, w') /\
    (is_ok r = true -> tx (ends w') = tx (ends w) ++ rx (ends w) /\ rx (ends w') = []).
Proof using Hlive NS.
  intros Hi Hs. unfold copy. rewrite decide_False by lia.
  destruct (copy_loop_run (HR := sock_reader_spec) (HW := sock_writer_spec) (HI := sock_independent)
    (S (length (rx (ends w)))) size 0 w Hi Hs (Nat.lt_succ_diag_r _) eq_refl) as (r & w' & Hrun & _ & Hres).
  exists r, w'. split; [done|]. destruct r; [|done]. intros _. by destruct Hres as (? & ? & _).
Qed.
End streams.

(** ** The other operations *)

Lemma try_io_spec {A} d (call : ST W (Sys A)) after retry (eff : Effect A) w : sys_called d call retry eff ->
  (forall a w, exists w', after a w = Some (tt, w') /\ moved d (held w d) w w') -> held w d = HFree ->
  exists r w', try_io d call after w = Some (r, w') /\ ran d (strict eff) w (Returned r) w'.
Proof using NS.
  intros Hcall Hafter Hw. unfold try_io.
  destruct (capture_spec w) as (c & w1 & Hc & Hm1). rewrite (st_bind_eq _ _ _ _ _ Hc). specialize (Hm1 d). rewrite Hw in Hm1.
  destruct c as [[]|e]; [cbn [on_ok]|exists (Err e), w1; split; [done|by apply ran_err; rewrite ?Hw]].
  destruct (try_lock_spec d w1) as (g & w2 & Hg & Hm2); [by destruct Hm1 as (_ & _ & -> & _)|].
  rewrite (st_bind_eq _ _ _ _ _ Hg). pose proof (moved_trans _ _ _ _ _ _ Hm1 Hm2) as Hm.
  destruct g as [[]|e]; cbn [is_ok on_ok] in *; [|exists (Err e), w2; split; [done|apply ran_err; [done|by rewrite Hw]]].
  destruct (use_spec d w2) as (u & w3 & Hu & Hm3); [by destruct Hm as (_ & _ & -> & _)|]. rewrite (st_bind_eq _ _ _ _ _ Hu).
  pose proof (moved_trans _ _ _ _ _ _ Hm Hm3) as Hm'. 
  set (attempt := on_ok u _).
  assert (exists r w4, attempt w3 = Some (r, w4) /\ held w4 d = HOwned /\ (forall d', d' <> d -> held w4 d' = held w d') /\
    patience w4 <= patience w /\ strict eff (ends w) (Returned r) (ends w4)) as (r & w4 & Hr & H4 & O4 & P4 & R4).
  { unfold attempt. destruct u as [[]|e]; cbn [is_ok on_ok] in *.
    2: { exists (Err e), w3. destruct Hm' as (E & P & Hh & O). by split_and!. }
    destruct (Hcall w3) as (r & w4 & Hr & Hh4 & Hp4 & He); [by destruct Hm' as (_ & _ & -> & _)|].
    rewrite (st_bind_eq _ _ _ _ _ Hr). destruct r as [a|e].
    - destruct Hm' as (E & P & Hh & O).
      destruct (Hafter a w4) as (w5 & Ha & E5 & P5 & H5 & O5). rewrite (st_bind_eq _ _ _ _ _ Ha).
      destruct (unuse_spec d w5) as (w6 & Hu6 & (E6 & P6 & H6 & O6) & _); [by rewrite H5, Hh4|]. rewrite (st_bind_eq _ _ _ _ _ Hu6).
      exists (Ok a), w6. split_and!; try done; [|lia|cbn; by rewrite E6, E5, <-E]. intros d' Hd. rewrite O6, O5, Hh4, O; done.
    - destruct He as [He _]. pose proof (sys_failed d w w3 w4 Hm' Hh4 Hp4 He) as Hm4.
      assert (exists w5, (if would_block_errno e then o_would_block d else st_ret tt) w4 = Some (tt, w5) /\ moved d HUsing w w5) as (w5 & Hb & Hm5).
      { destruct (would_block_errno e); [|by exists w4]. destruct (would_block_spec d w4) as (w5 & Hb & Hm5 & _). exists w5. split; [done|].
        eapply moved_trans; [done|]. by destruct Hm4 as (_ & _ & <- & _). }
      rewrite (st_bind_eq _ _ _ _ _ Hb). destruct (released d w w5 Hm5) as (w6 & Hu6 & (E6 & P6 & H6 & O6) & _).
      rewrite (st_bind_eq _ _ _ _ _ Hu6). by exists (Err (of_errno e)), w6. }
  rewrite (st_bind_eq _ _ _ _ _ Hr). destruct (unlock_spec d w4 H4) as (w5 & Hu5 & E5 & P5 & H5 & O5).
  rewrite (st_bind_eq _ _ _ _ _ Hu5). exists r, w5. split; [done|]. split; [|split; [lia|split; [by rewrite E5|congruence]]].
  intros d' Hd. rewrite O5, O4; done.
Qed.

(** [await_connect]: it answers ok only for a socket that has a peer. *)
Lemma await_connect_spec fuel w : held w kWrite <> HUsing -> patience w < fuel ->
  exists r w', await_connect fuel w = Some (r, w') /\ ends w' = ends w /\ (forall d, held w' d = held w d) /\
    (fate_ok r = true -> peered w').
Proof using NS.
  assert (forall w w1 w2, (forall d, moved d (held w d) w w1) -> (forall d, moved d (held w1 d) w1 w2) ->
    forall d, moved d (held w d) w w2) as Htrans.
  { intros a b c H1 H2 d. destruct (H1 d) as (E1 & P1 & X1 & O1), (H2 d) as (E2 & P2 & X2 & O2).
    split; [congruence|]. split; [lia|]. split; [congruence|]. intros d' Hd. rewrite O2, O1; done. }
  assert (forall w w1, (forall d, moved d (held w d) w w1) -> ends w1 = ends w /\ forall d, held w1 d = held w d) as Hout.
  { intros a b Hm. split; [by destruct (Hm kRead)|]. intros d. by destruct (Hm d) as (_ & _ & Hh & _). }
  revert w. induction fuel as [|fuel IH]; intros w Hw Hp; [lia|]. cbn [await_connect].
  destruct (wait_spec kWrite w Hw) as (r & w1 & Hr & Hm1 & Hlt). rewrite (st_bind_eq _ _ _ _ _ Hr).
  assert (forall d, moved d (held w d) w w1) as Hw1.
  { intros d. destruct Hm1 as (E & P & Hh & O). split; [done|]. split; [done|]. split.
    - destruct (decide (d = kWrite)) as [->|Hd]; [done|by apply O].
    - intros d' Hd. destruct (decide (d' = kWrite)) as [->|Hd']; [done|by apply O]. }
  destruct r as [[[]|e]|]; cbn [on_fate]; [specialize (Hlt eq_refl)|eexists _, w1; destruct (Hout w w1 Hw1); by split_and!..].
  destruct (so_error_spec w1) as (r & w2 & Hr2 & Hm2). rewrite (st_bind_eq _ _ _ _ _ Hr2).
  pose proof (Htrans w w1 w2 Hw1 Hm2) as Hw2. destruct (Hout w w2 Hw2) as [E2 H2].
  destruct r as [error|e]; [|by exists (Returned (Err (of_errno e))), w2].
  case_decide; [by exists (Returned (Err (of_errno error))), w2|].
  destruct (getpeername_spec w2) as (r & w3 & Hr3 & Hm3 & Hpeer). rewrite (st_bind_eq _ _ _ _ _ Hr3).
  pose proof (Htrans w w2 w3 Hw2 Hm3) as Hw3. destruct (Hout w w3 Hw3) as [E3 H3].
  destruct r as [[]|e]; [by exists (Returned (Ok tt)), w3|]. case_decide; [by exists (Returned (Err (of_errno e))), w3|].
  destruct (would_block_spec kWrite w3) as (w4 & Hb & Hm4). rewrite (st_bind_eq _ _ _ _ _ Hb).
  destruct Hm4 as ((E4 & P4 & H4 & O4) & _).
  destruct (IH w4) as (r & w5 & Hr5 & E5 & H5 & Hpeer5).
  - by rewrite H4, H3.
  - destruct (Hm2 kRead) as (_ & P2 & _), (Hm3 kRead) as (_ & P3 & _). lia.
  - exists r, w5. split; [done|]. split; [congruence|]. split; [|done]. intros d. rewrite H5.
    destruct (decide (d = kWrite)) as [->|Hd]; [by rewrite H4, H3|by rewrite O4, H3].
Qed.

Lemma accept_loop_spec hint w : held w kRead = HFree ->
  exists r w', accept_loop hint (enough w) w = Some (r, w') /\ ran kRead (fun e r e' =>
    match r with
    | Returned (Ok fd) => accept_effect e fd e'
    | Returned (Err _) => e' = e \/ exists fd, accept_effect e fd e'
    | Parked => e' = e
    end) w r w'.
Proof using NS.
  intros Hw. apply operation_spec; [by left|done|done|]. intros w1 Hp H1.
  destruct (io_loop_spec hint (negb hint) aborted kRead s_accept (fun _ => st_ret tt) accept_effect accept_spec
    (fun _ w => ret_spec kRead w) (enough w) w1 H1 ltac:(unfold enough; lia)) as (r & w2 & Hr & Hh & Hp2 & HR & Hf).
  rewrite (st_bind_eq _ _ _ _ _ Hr). destruct r as [[fd|e]|]; cbn [on_fate].
  2: { eexists _, w2. split; [done|]. split; [done|]. split; [done|]. split; [by left|done]. }
  2: { eexists _, w2. split; [done|]. split; [done|]. split; [done|]. done. }
  destruct (adopt_spec fd w2) as (a & w3 & Ha & Hm). rewrite (st_bind_eq _ _ _ _ _ Ha). cbn in HR.
  assert (ends w3 = ends w2 /\ patience w3 <= patience w2 /\ forall d, held w3 d = held w2 d) as (E & P & Hh3).
  { split; [by destruct (Hm kRead)|]. split; [by destruct (Hm kRead) as (_ & ? & _)|]. intros d. by destruct (Hm d) as (_ & _ & ? & _). }
  destruct a as [[]|e]; cbn [on_fate]; eexists _, w3; (split; [done|]); (split; [intros d Hd; by rewrite Hh3, Hh|]);
    (split; [lia|]); rewrite E, Hh3.
  - done.
  - split; [right; by exists fd|done].
Qed.

(** C15: sockets are streams of io.hpp. From a state in which neither direction is
    in use, and if the kernel interrupts and the reactor wakes for nothing only
    finitely often: a read that returns gives the next bytes of the peer, none only
    at their end, or an error and takes nothing; a write that returns has sent every
    byte in order, or a prefix of them and gives an error, never a short count. Both
    return unless they stay parked: behind another operation of the direction, or in
    a wait of the reactor that nothing ends, which they make only when the direction
    was dry (the hint down, or a call that would block), without the lease of the
    descriptor, having taken nothing, or sent a prefix. Whether the reactor ends the
    wait is its own matter ([ready_waiter_wakes], and [end_of_stream_missed] for a
    wait it does not end). The attempts that do not wait always return and do what
    their one call did. Every path that returns gives the lease and the direction
    back. Where every wait is answered, [copy] moves all of a socket's input. *)
Theorem socket_streams w : idle w ->
  (forall n, exists r w', tcp_read (enough w) n w = Some (r, w') /\ tx (ends w') = tx (ends w) /\ held w' kWrite = HFree /\
     match r with
     | Returned (Ok b) => idle w' /\ rx (ends w) = b ++ rx (ends w') /\ length b <= n /\ (b = [] -> 0 < n -> rx (ends w) = [])
     | Returned (Err _) => idle w' /\ rx (ends w') = rx (ends w)
     | Parked => stuck kRead w' /\ rx (ends w') = rx (ends w)
     end) /\
  (forall b, exists r w', tcp_write (length b) (enough w) b w = Some (r, w') /\ rx (ends w') = rx (ends w) /\ held w' kRead = HFree /\
     match r with
     | Returned (Ok k) => idle w' /\ k = length b /\ tx (ends w') = tx (ends w) ++ b
     | Returned (Err _) => idle w' /\ exists k, k <= length b /\ tx (ends w') = tx (ends w) ++ take k b
     | Parked => stuck kWrite w' /\ exists k, k <= length b /\ tx (ends w') = tx (ends w) ++ take k b
     end) /\
  (forall n, exists r w', try_read n w = Some (r, w') /\ idle w' /\ strict (recv_effect n) (ends w) (Returned r) (ends w')) /\
  (forall b, exists r w', try_write b w = Some (r, w') /\ idle w' /\ strict (send_effect b) (ends w) (Returned r) (ends w')) /\
  ((forall d w1 w2, o_lock d w1 <> Some (Parked, w2) /\ o_wait d w1 <> Some (Parked, w2)) ->
   forall size, 0 < size -> exists r w',
     @copy W sock_read sock_write (S (length (rx (ends w)))) size w = Some (r, w') /\
     (is_ok r = true -> tx (ends w') = tx (ends w) ++ rx (ends w) /\ rx (ends w') = [])).
Proof using NS.
  intros Hi. split_and!.
  - intros n. destruct (tcp_reads_prefix n w (Hi kRead)) as (r & w' & Hr & Hran). exists r, w'. split; [done|].
    pose proof Hran as (Ho & _ & E & Hf). split; [by destruct r as [[]|]; cbn in E; [destruct E as (-> & _)|rewrite E..]|].
    split; [rewrite Ho by done; apply Hi|].
    destruct r as [[b|e]|]; [|split; [by eapply ran_idle|cbn in E; by rewrite E]|split; [done|cbn in E; by rewrite E]].
    split; [by eapply ran_idle|]. by destruct E as (-> & ? & ?).
  - intros b. destruct (tcp_writes_all b w (Hi kWrite)) as (r & w' & Hr & Hran). exists r, w'. split; [done|].
    pose proof Hran as (Ho & _ & (k & Hk & E & Hres) & Hf). rewrite E. split; [done|]. split; [rewrite Ho by done; apply Hi|].
    destruct r as [[j|e]|]; [|split; [by eapply ran_idle|by exists k]|split; [done|by exists k]].
    split; [by eapply ran_idle|]. destruct Hres as [-> ->]. cbn. by rewrite take_ge.
  - intros n. destruct (try_io_spec kRead (s_recv n) (fun b => note_short kRead (length b) n) interrupted _ w (recv_spec n)) as (r & w' & Hr & Hran).
    + intros b w1. apply note_short_spec.
    + apply Hi.
    + exists r, w'. split; [done|]. split; [by eapply ran_idle|apply Hran].
  - intros b. destruct (try_io_spec kWrite (s_send b) (fun k => note_short kWrite k (length b)) interrupted _ w (send_spec b)) as (r & w' & Hr & Hran).
    + intros k w1. apply note_short_spec.
    + apply Hi.
    + exists r, w'. split; [done|]. split; [by eapply ran_idle|apply Hran].
  - intros Hlive size Hs. by apply copy_moves_all.
Qed.

(** Messages and connections. A datagram is received whole or cut to the buffer,
    with its sender, in order of arrival, and an error or a wait without end takes
    none; a datagram is sent whole or not at all; accepting answers with the next
    connection, on either kind of listener, and loses one only when it cannot be
    adopted; connecting answers ok only when the kernel has named the peer. Those
    that return give back what they hold. *)
Theorem socket_messages w to : idle w ->
  (forall n, exists r w', read_from (enough w) n w = Some (r, w') /\ ran kRead (strict (recvfrom_effect n)) w r w') /\
  (forall b, exists r w', write_to (enough w) b to w = Some (r, w') /\ ran kWrite (strict (sendto_effect b to)) w r w') /\
  (forall hint, exists r w', accept_loop hint (enough w) w = Some (r, w') /\
     match r with
     | Returned (Ok fd) => idle w' /\ backlog (ends w) = fd :: backlog (ends w')
     | Returned (Err _) => idle w' /\ (ends w' = ends w \/ exists fd, backlog (ends w) = fd :: backlog (ends w'))
     | Parked => stuck kRead w' /\ ends w' = ends w
     end) /\
  (exists r w', await_connect (enough w) w = Some (r, w') /\ idle w' /\ ends w' = ends w /\ (fate_ok r = true -> peered w')).
Proof using NS.
  intros Hi. split_and!.
  - intros n. apply operation_spec; [done|done|apply Hi|].
    intros w1 Hp H1. apply io_loop_spec; [apply recvfrom_spec|intros _; apply ret_spec|done|unfold enough; lia].
  - intros b. apply operation_spec; [done|done|apply Hi|].
    intros w1 Hp H1. apply io_loop_spec; [apply sendto_spec|intros _; apply ret_spec|done|unfold enough; lia].
  - intros hint. destruct (accept_loop_spec hint w (Hi kRead)) as (r & w' & Hr & Hran). exists r, w'. split; [done|].
    pose proof Hran as (_ & _ & HR & Hf). destruct r as [[fd|e]|]; [split; [by eapply ran_idle|by rewrite HR]| |done].
    split; [by eapply ran_idle|]. destruct HR as [?|(fd & HR)]; [by left|right]. exists fd. by rewrite HR.
  - destruct (await_connect_spec (enough w) w) as (r & w' & Hr & E & Hh & Hp); [by rewrite Hi|unfold enough; lia|].
    exists r, w'. split; [done|]. split; [|done]. intros d. by rewrite Hh.
Qed.
End contract.

(** ** A concrete socket: two directions with their hints, a script of errors
    for the calls to report and a number of edges still to come. [live] tells
    whether a wait after the last edge is answered with a timeout or stays parked. *)

Record World := mkWorld { w_ends : Ends nat nat; w_read : Hold; w_write_ : Hold; w_down : list Dir; w_script : list Z; w_edges : nat; w_peer : bool }.

Definition w_patience (w : World) : nat := length (w_script w) + w_edges w.
Definition w_held (w : World) (d : Dir) : Hold := match d with kRead => w_read w | kWrite => w_write_ w end.
Definition w_hold (d : Dir) (h : Hold) (w : World) : World :=
  match d with
  | kRead => mkWorld (w_ends w) h (w_write_ w) (w_down w) (w_script w) (w_edges w) (w_peer w)
  | kWrite => mkWorld (w_ends w) (w_read w) h (w_down w) (w_script w) (w_edges w) (w_peer w)
  end.
(** From one state of a direction to another, and nothing from elsewhere. *)
Definition w_go (d : Dir) (h h' : Hold) : ST World unit := fun w =>
  if decide (w_held w d = h) then Some (tt, w_hold d h' w) else None.
Definition w_ok (d : Dir) (h h' : Hold) : ST World (Result unit) := _ <-- w_go d h h'; st_ret (Ok tt).
(** A call: the next error of the script, or the answer. *)
Definition w_call {A} (d : Dir) (f : Ends nat nat -> option (A * Ends nat nat)) : ST World (Sys A) := fun w =>
  if decide (w_held w d = HUsing) then
    match w_script w, f (w_ends w) with
    | e :: rest, _ => Some (Errno e, mkWorld (w_ends w) (w_read w) (w_write_ w) (w_down w) rest (w_edges w) (w_peer w))
    | [], Some (a, e') => Some (Done a, mkWorld e' (w_read w) (w_write_ w) (w_down w) [] (w_edges w) (w_peer w))
    | [], None => Some (Errno EIO, w)
    end
  else None.
(** A wait: the next edge, which raises the hint. *)
Definition w_wait (live : bool) (d : Dir) : ST World (Fate unit) := fun w =>
  if decide (w_held w d = HUsing) then None
  else match w_edges w with
       | O => Some (if live then Returned (Err (of_errc timed_out)) else Parked, w)
       | S k => Some (Returned (Ok tt),
           mkWorld (w_ends w) (w_read w) (w_write_ w) (filter (fun d' => d' <> d) (w_down w)) (w_script w) k true)
       end.

#[local] Instance world_native (live : bool) : Native World nat nat := {|
  o_capture := st_ret (Ok tt);
  o_lock d := r <-- w_ok d HFree HOwned; st_ret (Returned r);
  o_try_lock d := w_ok d HFree HOwned;
  o_unlock d := w_go d HOwned HFree;
  o_use d := w_ok d HOwned HUsing;
  o_unuse d := w_go d HUsing HOwned;
  o_ready d w := bool_decide (d ∉ w_down w);
  o_would_block d := st_modify (fun w => mkWorld (w_ends w) (w_read w) (w_write_ w) (d :: w_down w) (w_script w) (w_edges w) (w_peer w));
  o_wait := w_wait live;
  s_recv n := w_call kRead (fun e =>
    Some (take n (rx e), mkEnds (drop n (rx e)) (tx e) (inbound e) (outbound e) (backlog e)));
  s_send b := w_call kWrite (fun e =>
    let k := Nat.min 2 (length b) in Some (k, mkEnds (rx e) (tx e ++ take k b) (inbound e) (outbound e) (backlog e)));
  s_recvfrom n := w_call kRead (fun e =>
    match inbound e with
    | (p, a) :: rest => Some ((take n p, a), mkEnds (rx e) (tx e) rest (outbound e) (backlog e))
    | [] => None
    end);
  s_sendto b to := w_call kWrite (fun e => Some (length b, mkEnds (rx e) (tx e) (inbound e) (outbound e ++ [(b, to)]) (backlog e)));
  s_accept := w_call kRead (fun e =>
    match backlog e with fd :: rest => Some (fd, mkEnds (rx e) (tx e) (inbound e) (outbound e) rest) | [] => None end);
  s_so_error := st_ret (Done 0%Z);
  s_getpeername := fun w => Some (if w_peer w then Done tt else Errno ENOTCONN, w);
  o_adopt _ := st_ret (Ok tt) |}.

Lemma w_hold_held d h w d' : w_held (w_hold d h w) d' = if decide (d' = d) then h else w_held w d'.
Proof. by destruct d, d'. Qed.

Lemma w_hold_ends d h w : w_ends (w_hold d h w) = w_ends w /\ w_patience (w_hold d h w) = w_patience w /\ w_down (w_hold d h w) = w_down w.
Proof. by destruct d. Qed.

Lemma w_go_spec d h h' w : w_held w d = h -> exists w', w_go d h h' w = Some (tt, w') /\ w_down w' = w_down w /\
  w_ends w' = w_ends w /\ w_patience w' <= w_patience w /\ w_held w' d = h' /\
  (forall d', d' <> d -> w_held w' d' = w_held w d').
Proof.
  intros Hw. exists (w_hold d h' w). unfold w_go. rewrite decide_True by done. destruct (w_hold_ends d h' w) as (-> & -> & ->).
  split_and!; try done; [by rewrite w_hold_held, decide_True|]. intros d' Hd. by rewrite w_hold_held, decide_False.
Qed.

Lemma w_ok_spec d h h' w : w_held w d = h -> exists w', w_ok d h h' w = Some (Ok tt, w') /\
  w_ends w' = w_ends w /\ w_patience w' <= w_patience w /\ w_held w' d = h' /\
  (forall d', d' <> d -> w_held w' d' = w_held w d').
Proof.
  intros Hw. destruct (w_go_spec d h h' w Hw) as (w' & Hg & _ & Hr). exists w'. unfold w_ok. by rewrite (st_bind_eq _ _ _ _ _ Hg).
Qed.

(** A call of the script does what its function says, or fails and does nothing. *)
Lemma w_call_spec {A} d (f : Ends nat nat -> option (A * Ends nat nat)) retry (eff : Ends nat nat -> A -> Ends nat nat -> Prop) :
  retry EIO = false -> (forall e a e', f e = Some (a, e') -> eff e a e') ->
  forall w, w_held w d = HUsing -> exists r w', w_call d f w = Some (r, w') /\ (forall d', w_held w' d' = w_held w d') /\
    w_patience w' <= w_patience w /\
    match r with
    | Done a => eff (w_ends w) a (w_ends w')
    | Errno e => w_ends w' = w_ends w /\ (retry e = true -> w_patience w' < w_patience w)
    end.
Proof.
  intros Hr Hf w Hw. unfold w_call. rewrite decide_True by done. destruct w as [e hr hw dn sc ed pr]. unfold w_patience. cbn in *.
  destruct sc as [|e0 rest].
  - destruct (f e) as [[a e']|] eqn:E; eexists _, _; (split; [done|]); cbn; split_and!; try done; eauto; congruence.
  - eexists _, _; (split; [done|]); cbn. split_and!; try done; lia.
Qed.

#[local] Instance world_spec (live : bool) : NativeSpec (H := world_native live).
Proof.
  refine {| ends := w_ends; held := w_held; patience := w_patience; peered w := w_peer w = true;
    dry w d := d ∈ w_down w |}.
  - intros w. exists (Ok tt), w. split; [done|]. by intros d.
  - intros d w Hw. destruct (w_ok_spec d HFree HOwned w Hw) as (w' & Hr & Hm). exists (Returned (Ok tt)), w'.
    split; [|done]. cbn. by rewrite (st_bind_eq _ _ _ _ _ Hr).
  - intros d w Hw. destruct (w_ok_spec d HFree HOwned w Hw) as (w' & Hr & Hm). by exists (Ok tt), w'.
  - intros d w Hw. destruct (w_go_spec d HOwned HFree w Hw) as (w' & Hg & _ & Hr). by exists w'.
  - intros d w Hw. destruct (w_ok_spec d HOwned HUsing w Hw) as (w' & Hr & Hm). by exists (Ok tt), w'.
  - intros d w Hw. destruct (w_go_spec d HUsing HOwned w Hw) as (w' & Hg & Hd & Hr). exists w'. by rewrite Hd.
  - intros d w Hr. cbn in Hr. apply bool_decide_eq_false in Hr. destruct (decide (d ∈ w_down w)); [done|]. by destruct Hr.
  - intros d w. eexists. split; [done|]. cbn. split; [by destruct d|]. by left.
  - intros d w Hw. cbn. unfold w_wait. rewrite decide_False by done. destruct w as [e hr hw dn sc [|k] pr]; unfold w_patience; cbn;
      eexists _, _; (split; [done|]); cbn; split_and!; try done; try (by destruct d); destruct live; cbn; intros; (done || lia).
  - intros n. apply w_call_spec; [done|]. intros e a e' [= <- <-]. unfold recv_effect. cbn.
    rewrite take_drop, length_take. split_and!; [by destruct e|lia|]. intros Hd Hn. apply (f_equal length) in Hd.
    rewrite length_take in Hd. apply nil_length_inv. cbn in Hd. lia.
  - intros b. apply w_call_spec; [done|]. intros e a e' [= <- <-]. unfold send_effect. split_and!; [done| |];
      destruct b as [|x [|y b]]; cbn; try done; lia.
  - intros n. apply w_call_spec; [done|]. intros e a e' Hf. destruct e as [r t [|[p fr] ib] ob bl]; [done|]. injection Hf as <- <-. by exists p.
  - intros b to. apply w_call_spec; [done|]. by intros e a e' [= <- <-].
  - apply w_call_spec; [done|]. intros e a e' Hf. destruct e as [r t ib ob [|fd bl]]; [done|]. by injection Hf as <- <-.
  - intros w. exists (Done 0%Z), w. split; [done|]. by intros d.
  - intros w. eexists _, w. split; [done|]. split; [by intros d|]. by destruct (w_peer w).
  - intros fd w. exists (Ok tt), w. split; [done|]. by intros d.
Defined.

(** Five bytes to receive, a signal and a full buffer on the way. *)
Definition some_world : World :=
  mkWorld (mkEnds [1; 2; 3; 4; 5]%Z [9]%Z [([7; 7; 7]%Z, 4)] [] [12]) HFree HFree [] [EINTR; EAGAIN; EINTR] 4 false.

Lemma socket_streams_witness :
  idle (NS := world_spec true) some_world /\
  exists r w', @copy World (sock_read (NS := world_spec true)) (sock_write (NS := world_spec true)) 6 2 some_world = Some (r, w') /\
    (is_ok r = true -> tx (w_ends w') = [9; 1; 2; 3; 4; 5]%Z /\ rx (w_ends w') = []).
Proof.
  assert (Hi : idle (NS := world_spec true) some_world) by (by intros []).
  split; [exact Hi|].
  refine (proj2 (proj2 (proj2 (proj2 (socket_streams (NS := world_spec true) some_world Hi)))) _ 2 _); [|lia].
  intros d w1 w2. split.
  - cbn. unfold w_ok, w_go, st_bind, st_ret. by case_decide.
  - cbn. unfold w_wait. case_decide; [done|]. by destruct (w_edges w1).
Defined.

Lemma socket_messages_witness : exists r w', read_from (H := world_native false) (enough (NS := world_spec false) some_world) 2 some_world = Some (r, w') /\
  ran (NS := world_spec false) kRead (strict (recvfrom_effect 2)) some_world r w'.
Proof.
  assert (idle (NS := world_spec false) some_world) as Hi by (by intros []).
  exact (proj1 (socket_messages (NS := world_spec false) some_world 3 Hi) 2).
Defined.

(** The read of five bytes in two; the short count takes the hint down, and with no
    edge to come a third read stays parked, as in
    [ReactorProps.end_of_stream_missed]. *)
Example some_world_reads :
  let read n w := tcp_read (H := world_native false) (enough (NS := world_spec false) w) n w in
  match read 3 (mkWorld (w_ends some_world) HFree HFree [] [EINTR] 0 false) with
  | Some (Returned (Ok a), w1) =>
      match read 9 w1 with
      | Some (Returned (Ok b), w2) => a = [1; 2; 3]%Z /\ b = [4; 5]%Z /\ option_map fst (read 9 w2) = Some Parked
      | _ => False
      end
  | _ => False
  end /\
  (option_map (fun p => (p.1, tx (w_ends p.2))) (tcp_write (H := world_native false) 5 (enough (NS := world_spec false) some_world) [1; 2; 3; 4; 5]%Z some_world) = Some (Returned (Ok 5), [9; 1; 2; 3; 4; 5]%Z)).
Proof. vm_compute. done. Qed.
