(* ===== verification/Dial.v ===== *)
(** * Dialing (src/net.cpp)

    [interleave_families], and the race of [Dialer::dial_tcp]: an attempt per
    address, started one stagger delay after the other or when one fails, until
    one connects, the deadline passes or the caller cancels. *)

From S2P Require Import Prelude Result Bytes Net.

Set Default Proof Using "Type".

(** ** The order of the addresses *)

Definition is_v6 (a : SocketAddr) : bool := bool_decide (family a = AF_INET6).

(** The loop that takes one address of each family in turn. *)
Fixpoint alternate (primary secondary : list SocketAddr) : list SocketAddr :=
  match primary, secondary with
  | x :: xs, y :: ys => x :: y :: alternate xs ys
  | _, _ => primary ++ secondary
  end.

Definition interleave_families (addresses : list SocketAddr) : list SocketAddr :=
  let v6 := filter is_v6 addresses in
  let v4 := filter (fun a => negb (is_v6 a)) addresses in
  let v6_first := match addresses with [] => true | a :: _ => is_v6 a end in
  if v6_first then alternate v6 v4 else alternate v4 v6.

Definition kDefaultFallbackDelay : Z := 300000000.
Definition effective_fallback_delay (configured : Z) : Z :=
  if decide (configured > 0)%Z then configured else kDefaultFallbackDelay.

(** ** The race *)

Definition EHOSTUNREACH : Z := 113.
Definition unreachable : Error := of_errno EHOSTUNREACH.

(** A connection is a number. [received] are the attempts whose results were taken
    from the channel, latest first; [attempts] those spawned, in order. *)
Record Race := mkRace {
  started : nat; finished : nat; attempts : list nat; received : list nat;
  winner : Result nat; last : Result nat; racing : bool }.

(** What the select of a turn gives: a result, the stagger tick, the deadline. *)
Inductive RaceTurn := TResult (i : nat) | TTick | TDeadline.

(** The race under the clock; [turn_at] is when the select of this turn began. *)
Record Clocked := mkClocked { race : Race; now : Z; turn_at : Z }.

Section race.
Context (targets : nat) (stagger_delay : Z) (has_overall_timeout : bool) (overall_deadline : Z) (outcome : nat -> Result nat).

(** The head of the loop: its condition, and the spawn of the next attempt. *)
Definition turn_head (s : Race) : Race :=
  if decide (finished s < targets) then
    if decide (started s < targets) then
      mkRace (S (started s)) (finished s) (attempts s ++ [started s]) (received s) (winner s) (last s) true
    else s
  else mkRace (started s) (finished s) (attempts s) (received s) (winner s) (last s) false.

Definition stop_race (s : Race) : Race :=
  mkRace (started s) (finished s) (attempts s) (received s) (winner s) (last s) false.

(** The rest of a turn. *)
Definition turn_tail (t : RaceTurn) (s : Race) : Race :=
  match t with
  | TTick => turn_head s
  | TDeadline => stop_race s
  | TResult i =>
      let s := mkRace (started s) (S (finished s)) (attempts s) (i :: received s) (winner s) (outcome i) true in
      match last s with
      | Ok c => stop_race (mkRace (started s) (finished s) (attempts s) (received s) (Ok c) (Err unreachable) true)
      | Err e => if is_errc e cancelled then stop_race s else turn_head s
      end
  end.

(** The cases of the select: the tick while addresses remain, once the delay has
    passed; the deadline, when there is one and it has passed; the result of an
    attempt that has not reported. *)
Definition turn_enabled (t : RaceTurn) (c : Clocked) : Prop :=
  match t with
  | TTick => started (race c) < targets /\ (turn_at c + stagger_delay <= now c)%Z
  | TDeadline => has_overall_timeout = true /\ (overall_deadline <= now c)%Z
  | TResult i => i ∈ attempts (race c) /\ i ∉ received (race c)
  end.

(** A turn, or time that passes. *)
Inductive race_step : Clocked -> Clocked -> Prop :=
  | race_turn t c : racing (race c) = true -> turn_enabled t c ->
      race_step c (mkClocked (turn_tail t (race c)) (now c) (now c))
  | race_time later c : (now c <= later)%Z -> race_step c (mkClocked (race c) later (turn_at c)).

Definition race_init (c : Clocked) : Prop :=
  race c = turn_head (mkRace 0 0 [] [] (Err unreachable) (Err unreachable) true) /\ turn_at c = now c.

(** The answer of [dial_tcp] after the attempts are cancelled and joined;
    [cancelled_now] is the caller's token and [later] the clock then. *)
Definition dial_result (cancelled_now : bool) (later : Z) (s : Race) : Result nat :=
  let expired := bool_decide (overall_deadline <= later)%Z in
  match winner s with
  | Ok c => Ok c
  | Err _ =>
      if cancelled_now then Err (of_errc cancelled)
      else
        match last s with
        | Err e => if has_overall_timeout && expired && negb (is_errc e cancelled) then Err (of_errc timed_out) else Err e
        | Ok c => if has_overall_timeout && expired then Err (of_errc timed_out) else Ok c
        end
  end.

(** ** The invariant *)

(** The results received so far, the first [k] of which failed otherwise than by
    cancellation. *)
Definition failed (i : nat) : Prop := exists e, outcome i = Err e.

(** At the time [t]. *)
Record race_inv (t : Z) (s : Race) : Prop := {
  rv_started : started s <= targets;
  rv_attempts : attempts s = seq 0 (started s);
  rv_finished : finished s = length (received s);
  rv_received : NoDup (received s) /\ forall i, i ∈ received s -> i < started s;
  rv_racing : racing s = true -> finished s < targets /\ winner s = Err unreachable /\ finished s < started s /\
    (forall i, i ∈ received s -> exists e, outcome i = Err e /\ is_errc e cancelled = false);
  rv_winner : match winner s with
    | Ok c => exists i rest, received s = i :: rest /\ outcome i = Ok c /\ forall j, j ∈ rest -> failed j
    | Err e => e = unreachable /\ (forall i, i ∈ received s -> failed i) /\
        last s = match received s with [] => Err unreachable | i :: _ => outcome i end
    end;
  rv_stopped : racing s = false -> (exists c, winner s = Ok c) \/
    (has_overall_timeout = true /\ (overall_deadline <= t)%Z) \/
    (exists i rest e, received s = i :: rest /\ outcome i = Err e /\ is_errc e cancelled = true) \/ finished s = targets }.

Lemma seq_snoc n : seq 0 (S n) = seq 0 n ++ [n].
Proof. by rewrite seq_S. Qed.

Lemma seq_elem i n : i ∈ seq 0 n <-> i < n.
Proof. rewrite elem_of_seq. lia. Qed.

Lemma all_received t s : race_inv t s -> finished s = targets -> started s = targets /\ forall i, i < targets -> i ∈ received s.
Proof.
  intros [H1 H2 H3 [Hnd Hlt] _ _ _] Hf.
  assert (received s ⊆+ seq 0 (started s)) as Hsub.
  { apply NoDup_submseteq; [done|]. intros i Hi. apply seq_elem, Hlt, Hi. }
  pose proof (submseteq_length _ _ Hsub) as Hl. rewrite length_seq in Hl. assert (started s = targets) as Es by lia. split; [done|].
  intros i Hi. assert (received s ≡ₚ seq 0 (started s)) as Hp by (apply submseteq_length_Permutation; [done|rewrite length_seq; lia]).
  rewrite Hp, seq_elem. lia.
Qed.

(** The head of a turn, from a state whose results have all failed. *)
Lemma turn_head_inv t s : started s <= targets -> attempts s = seq 0 (started s) -> finished s = length (received s) ->
  NoDup (received s) -> (forall i, i ∈ received s -> i < started s) ->
  (forall i, i ∈ received s -> exists e, outcome i = Err e /\ is_errc e cancelled = false) ->
  winner s = Err unreachable -> last s = match received s with [] => Err unreachable | i :: _ => outcome i end ->
  racing s = true -> race_inv t (turn_head s).
Proof.
  intros H1 H2 H3 H4 H5 H6 H7 H8 H10.
  assert (forall i, i ∈ received s -> failed i) as Hf by (intros i Hi; destruct (H6 i Hi) as (e & He & _); by exists e).
  assert (finished s <= started s) as Hle.
  { rewrite H3. transitivity (length (seq 0 (started s))); [|by rewrite length_seq]. apply submseteq_length, NoDup_submseteq; [done|].
    intros i Hi. apply seq_elem, H5, Hi. }
  unfold turn_head. case_decide as Hd; [case_decide as Hs|].
  - split; cbn; try done; rewrite ?H7, ?H8; try done; try lia.
    + by rewrite H2, <-seq_snoc.
    + split; [done|]. intros i Hi. specialize (H5 i Hi). lia.
    + intros _. split_and!; try done; lia.
  - split; try done; rewrite ?H7; try done; [|by rewrite H10]. intros _. split_and!; try done; lia.
  - split; cbn; try done; rewrite ?H7, ?H8; try done. intros _. right. right. right. lia.
Qed.

Lemma race_init_inv c : race_init c -> race_inv (now c) (race c).
Proof. intros [-> _]. apply turn_head_inv; cbn; try done; try (by intros i Hi%elem_of_nil); [lia|apply NoDup_nil_2]. Qed.

Lemma race_turn_inv t c : race_inv (now c) (race c) -> racing (race c) = true -> turn_enabled t c ->
  race_inv (now c) (turn_tail t (race c)).
Proof.
  destruct c as [s tm at_]. cbn. intros Hi Hr Ht. pose proof Hi as [H1 H2 H3 [Hnd Hlt] Hrun Hw Hst].
  destruct (Hrun Hr) as (Hf & Ew & Hpos & Hfail). rewrite Ew in Hw. destruct Hw as (_ & Hw2 & Hw3).
  destruct t as [i| |]; cbn in Ht |- *.
  - destruct Ht as [Hia Hir]. assert (i < started s) as His by (by rewrite H2, seq_elem in Hia).
    assert (NoDup (i :: received s)) as Hnd' by (by apply NoDup_cons).
    assert (forall j, j ∈ i :: received s -> j < started s) as Hlt' by (intros j [->|Hj]%elem_of_cons; [done|by apply Hlt]).
    destruct (outcome i) as [conn|e] eqn:Eo.
    + split; cbn; try done; [lia| |left; by exists conn]. exists i, (received s). by split_and!.
    + destruct (is_errc e cancelled) eqn:Ec.
      * split; cbn; try done; [lia| |].
        -- rewrite Ew. split; [done|]. split; [|by rewrite Eo]. intros j [->|Hj]%elem_of_cons; [by exists e|by apply Hw2].
        -- intros _. right. right. left. by exists i, (received s), e.
      * apply turn_head_inv; cbn; try done; [lia|].
        intros j [->|Hj]%elem_of_cons; [by exists e|by apply Hfail].
  - by apply turn_head_inv.
  - split; cbn; try done; [by rewrite Ew|]. intros _. right. by left.
Qed.

Lemma race_reachable_inv c0 : reachable race_init race_step c0 -> race_inv (now c0) (race c0).
Proof.
  apply (reachable_invariant (fun c => race_inv (now c) (race c))); [apply race_init_inv|].
  intros c1 c2 _ Hi Hs. destruct Hs as [t c Hr Ht|later c Hl]; [exact (race_turn_inv t c Hi Hr Ht)|].
  destruct Hi as [H1 H2 H3 H4 H5 H6 H7]. split; try done. cbn. intros Hr.
  destruct (H7 Hr) as [?|[[? ?]|?]]; [by left| |by right; right]. right. left. split; [done|lia].
Qed.

(** What is left of a race: a turn starts an attempt or takes a result. *)
Definition race_measure (s : Race) : nat := (targets - started s) + (targets - finished s).

Lemma race_decreases t c : race_inv (now c) (race c) -> racing (race c) = true -> turn_enabled t c ->
  racing (turn_tail t (race c)) = true -> race_measure (turn_tail t (race c)) < race_measure (race c).
Proof.
  destruct c as [s tm at_]. cbn. intros Hi Hr Ht Hr'. pose proof Hi as [H1 _ _ _ Hrun _ _]. destruct (Hrun Hr) as (Hf & _).
  unfold race_measure. destruct t as [i| |]; cbn in *; try done.
  - destruct (outcome i); cbn in *; [done|]. destruct (is_errc e cancelled); [done|].
    unfold turn_head in *. cbn in *. repeat case_decide; cbn in *; try done; lia.
  - unfold turn_head in *. repeat case_decide; cbn in *; try done; lia.
Qed.

(** While it runs, some attempt has yet to report. *)
Lemma race_waits_for_one t s : race_inv t s -> racing s = true -> exists i, i ∈ attempts s /\ i ∉ received s.
Proof.
  intros [_ H2 H3 _ Hrun _ _] Hr. destruct (Hrun Hr) as (_ & _ & Hlt & _). rewrite H2.
  destruct (decide (Forall (fun i => i ∈ received s) (seq 0 (started s)))) as [Hall|Hsome].
  - rewrite Forall_forall in Hall. pose proof (submseteq_length _ _ (NoDup_submseteq _ _ (NoDup_seq 0 (started s)) Hall)) as Hl.
    rewrite length_seq in Hl. lia.
  - apply not_Forall_Exists, Exists_exists in Hsome as (i & Hi & Hn); [by exists i|]. intros i. apply _.
Qed.
End race.

(** ** Properties *)

Lemma alternate_perm p q : alternate p q ≡ₚ p ++ q.
Proof.
  revert q. induction p as [|x p IH]; intros [|y q]; cbn; try done. rewrite IH. by rewrite <-Permutation_middle.
Qed.

Lemma filter_partition (l : list SocketAddr) : filter is_v6 l ++ filter (fun a => negb (is_v6 a)) l ≡ₚ l.
Proof.
  induction l as [|a l IH]; [done|]. rewrite !filter_cons. destruct (is_v6 a) eqn:E.
  - rewrite decide_True, decide_False by (rewrite ?E; auto). cbn. by rewrite IH.
  - rewrite decide_False, decide_True by (rewrite ?E; auto). rewrite <-Permutation_middle. by rewrite IH.
Qed.

(** The addresses are reordered, and none is lost or tried twice. *)
Lemma interleave_families_perm l : interleave_families l ≡ₚ l.
Proof.
  unfold interleave_families. case_match; rewrite alternate_perm; [|rewrite Permutation_app_comm]; apply filter_partition.
Qed.

(** C16: an outgoing connection races its addresses. The attempts are started one by
    one, in the order of the list, none twice; their results are taken at most once
    each; the race ends after at most two turns per address, and while it runs some
    attempt has yet to report. It is won by the first attempt whose result is a
    connection, and then that connection is the answer. Otherwise every result taken
    is a failure, and the race ended because the deadline had passed, because the
    result taken last was a cancellation, or because every address was tried and
    failed. Then the answer, given at some later time, is the cancellation when the
    caller's token has fired by then; else the timeout when the deadline has passed
    by then and the last result was no cancellation; else the failure of the attempt
    that reported last. *)
Theorem dial_race_exact targets stagger_delay has_overall_timeout overall_deadline outcome c : 0 < targets ->
  reachable (race_init targets) (race_step targets stagger_delay has_overall_timeout overall_deadline outcome) c ->
  let s := race c in
  let answer := dial_result has_overall_timeout overall_deadline in
  started s <= targets /\ attempts s = seq 0 (started s) /\ NoDup (received s) /\ (forall i, i ∈ received s -> i < started s) /\
  (racing s = true -> (exists i, i ∈ attempts s /\ i ∉ received s) /\
     forall t, turn_enabled targets stagger_delay has_overall_timeout overall_deadline t c ->
       racing (turn_tail targets outcome t s) = true ->
       race_measure targets (turn_tail targets outcome t s) < race_measure targets s) /\
  (racing s = false ->
     (exists conn i rest, received s = i :: rest /\ outcome i = Ok conn /\ (forall j, j ∈ rest -> failed outcome j) /\
        forall cancelled_now later, answer cancelled_now later s = Ok conn) \/
     ((forall i, i ∈ received s -> failed outcome i) /\
        ((has_overall_timeout = true /\ (overall_deadline <= now c)%Z) \/
         (exists i rest e, received s = i :: rest /\ outcome i = Err e /\ is_errc e cancelled = true) \/
         (forall i, i < targets -> i ∈ received s)) /\
        forall later, (now c <= later)%Z ->
          answer true later s = Err (of_errc cancelled) /\
          ((answer false later s = Err (of_errc timed_out) /\ has_overall_timeout = true /\ (overall_deadline <= later)%Z /\
            (forall i rest e, received s = i :: rest -> outcome i = Err e -> is_errc e cancelled = false)) \/
           ((has_overall_timeout = false \/ (later < overall_deadline)%Z \/
              exists i rest e, received s = i :: rest /\ outcome i = Err e /\ is_errc e cancelled = true) /\
            exists i rest, received s = i :: rest /\ answer false later s = outcome i)))).
Proof.
  intros Htg Hr s answer. pose proof (race_reachable_inv _ _ _ _ _ _ Hr) as Hi.
  pose proof Hi as [H1 H2 H3 [Hnd Hlt] _ Hw Hst]. fold s in H1, H2, H3, Hnd, Hlt, Hw, Hst.
  split_and!; try done.
  { intros Hs. split; [by eapply race_waits_for_one|]. intros t. by apply race_decreases. }
  intros Hs. subst answer. unfold dial_result.
  destruct (winner s) as [conn|e] eqn:Ew.
  { left. destruct Hw as (i & rest & Er & Eo & Hrest). by exists conn, i, rest. }
  right. destruct Hw as (-> & Hf & El). split; [done|].
  split.
  { destruct (Hst Hs) as [[? ?]|[?|[?|Hall]]]; [congruence|by left|by right; left|right; right].
    by apply (all_received _ _ _ _ _ _ Hi Hall). }
  intros later Hlater. split; [done|]. rewrite El.
  destruct (received s) as [|i rest] eqn:Er.
  - destruct (Hst Hs) as [[? ?]|[[Hto Hd]|[(i & rest & e & ? & _)|Hall]]]; [congruence| |done|].
    + left. rewrite Hto, bool_decide_true by lia. cbn. split_and!; [done|done|lia|done].
    + cbn in H3. lia.
  - destruct (Hf i (list_elem_of_here _ _)) as [e He]. rewrite He.
    destruct (has_overall_timeout && bool_decide (overall_deadline <= later)%Z && negb (is_errc e cancelled)) eqn:Eb.
    + left. apply andb_true_iff in Eb as [[-> Hd%bool_decide_eq_true]%andb_true_iff Hc%negb_true_iff].
      split_and!; try done. intros ? ? e' [= <- <-] ?. congruence.
    + right. split; [|by exists i, rest].
      apply andb_false_iff in Eb as [[->|Hd%bool_decide_eq_false]%andb_false_iff|Hc%negb_false_iff]; [by left|right; left; lia|].
      right. right. by exists i, rest, e.
Qed.

(** Two addresses and a deadline at 100 that does not pass: the first fails, the
    second, started at once, connects. *)
Definition two_outcomes (i : nat) : Result nat := match i with 0 => Err (of_errno ECONNREFUSED) | _ => Ok 7 end.
Definition two_raced : Race := mkRace 2 2 [0; 1] [1; 0] (Ok 7) (Err unreachable) false.

Lemma dial_race_exact_witness :
  reachable (race_init 2) (race_step 2 10 true 100 two_outcomes) (mkClocked two_raced 5 5) /\
  started two_raced <= 2.
Proof.
  assert (reachable (race_init 2) (race_step 2 10 true 100 two_outcomes) (mkClocked two_raced 5 5)) as Hr.
  { set (s0 := turn_head 2 (mkRace 0 0 [] [] (Err unreachable) (Err unreachable) true)).
    set (s1 := turn_tail 2 two_outcomes (TResult 0) s0).
    assert (reachable (race_init 2) (race_step 2 10 true 100 two_outcomes) (mkClocked s1 5 5)) as H1.
    { eapply reachable_step; [|apply (race_turn _ _ _ _ _ (TResult 0) (mkClocked s0 5 0)); [done|cbn; set_solver]].
      eapply reachable_step; [|apply (race_time _ _ _ _ _ 5 (mkClocked s0 0 0)); cbn; lia].
      by apply reachable_init. }
    eapply reachable_step; [exact H1|]. apply (race_turn 2 10 true 100 two_outcomes (TResult 1) (mkClocked s1 5 5)); [done|cbn; set_solver]. }
  split; [done|]. exact (proj1 (dial_race_exact 2 10 true 100 two_outcomes (mkClocked two_raced 5 5) (Nat.lt_0_succ 1) Hr)).
Defined.
