(* ===== verification/TimerHandle.v ===== *)
(** * Timer and Ticker handles (src/timer_handle.cpp, include/cio/timer.hpp)

    [drive_timer], the task behind a handle, against [stop] and [reset]: every
    atomic access and every channel operation is a step. The channels hold one
    value; [select] takes any case that is ready. *)

From S2P Require Import Prelude.

Set Default Proof Using "Type".

(** ** The arithmetic of a ticker *)

(** The deadline after [deadline] at the time [current]: missed ones are skipped.
    Signed 64-bit; the theorem says when nothing overflows. *)
Definition next_tick (deadline period current : Z) : Z :=
  let next := i64 (deadline + period) in
  if decide (next <= current)%Z then
    let behind := i64 (current - next) in
    i64 (next + i64 (i64 (behind ÷ period + 1) * period))
  else next.

(** ** The task and the handle *)

Record HandleState := mkTimer {
  deadline_at : Z; period : Z; fired : bool; stopped : bool; cancelled_token : bool;
  rearm : bool; tick : bool; closed_chan : bool; now : Z }.

Inductive DriverPc :=
  | TLoop                                   (* reads the deadline *)
  | TSelect (deadline : Z)
  | TCheck (deadline : Z)                   (* the timer fired: has the deadline moved? *)
  | TPeriod (deadline : Z)
  | TFire | TDeliver                        (* one-shot *)
  | TTick (deadline period : Z) | TNext (deadline period : Z) | TStore (next : Z)
  | TClose | TEnd.

(** A caller of the handle: in [stop], in [reset] with its time, or returned. *)
Inductive HandlePc :=
  | HStop | HFired | HCancel (was_pending : bool)
  | HReset (at_ : Z) | HResetFired (at_ : Z) | HResetStore (at_ : Z) (was_pending : bool) | HNudge (was_pending : bool)
  | HTick (p : Z) | HTickNow (p : Z) | HTickStore (at_ : Z) (* Ticker::reset *)
  | HDone (result : bool).

(** [deliveries] counts the runs of [on_fire] or of [try_send]. *)
Record Handle := mkHandle { ts : HandleState; driver : DriverPc; caller : HandlePc; deliveries : nat }.

(** The case that [select] may take: stopped, rearmed, expired. *)
Inductive TimerCase := CStopped | CRearm | CExpired.

Definition timer_case_ready (c : TimerCase) (deadline : Z) (x : HandleState) : bool :=
  match c with
  | CStopped => cancelled_token x
  | CRearm => rearm x
  | CExpired => bool_decide (deadline <= now x)%Z
  end.

Definition set_rearm (b : bool) (x : HandleState) : HandleState :=
  mkTimer (deadline_at x) (period x) (fired x) (stopped x) (cancelled_token x) b (tick x) (closed_chan x) (now x).
Definition set_fired (x : HandleState) : HandleState :=
  mkTimer (deadline_at x) (period x) true (stopped x) (cancelled_token x) (rearm x) (tick x) (closed_chan x) (now x).
(** [channel.try_send]: dropped when the channel holds a tick. *)
Definition send_tick (x : HandleState) : HandleState :=
  mkTimer (deadline_at x) (period x) (fired x) (stopped x) (cancelled_token x) (rearm x)
    (tick x || negb (closed_chan x)) (closed_chan x) (now x).
Definition set_deadline_at (d : Z) (x : HandleState) : HandleState :=
  mkTimer d (period x) (fired x) (stopped x) (cancelled_token x) (rearm x) (tick x) (closed_chan x) (now x).
Definition set_period (p : Z) (x : HandleState) : HandleState :=
  mkTimer (deadline_at x) p (fired x) (stopped x) (cancelled_token x) (rearm x) (tick x) (closed_chan x) (now x).
Definition close_chan (x : HandleState) : HandleState :=
  mkTimer (deadline_at x) (period x) (fired x) (stopped x) (cancelled_token x) (rearm x) (tick x) true (now x).
Definition set_stopped (x : HandleState) : HandleState :=
  mkTimer (deadline_at x) (period x) (fired x) true (cancelled_token x) (rearm x) (tick x) (closed_chan x) (now x).
Definition cancel_timer (x : HandleState) : HandleState :=
  mkTimer (deadline_at x) (period x) (fired x) (stopped x) true (rearm x) (tick x) (closed_chan x) (now x).

(** [drive_timer]; [after_func] tells a handle with a callback. *)
Definition drive_step (after_func : bool) (c : TimerCase) (h : Handle) : option Handle :=
  let x := ts h in
  let go x pc := Some (mkHandle x pc (caller h) (deliveries h)) in
  match driver h with
  | TLoop => go x (TSelect (deadline_at x))
  | TSelect deadline =>
      if timer_case_ready c deadline x then
        match c with
        | CStopped => go x TClose
        | CRearm => go (set_rearm false x) TLoop
        | CExpired => go x (TCheck deadline)
        end
      else None
  | TCheck deadline => go x (if decide (deadline_at x > now x)%Z then TLoop else TPeriod deadline)
  | TPeriod deadline => go x (if decide (period x = 0%Z) then TFire else TTick deadline (period x))
  | TFire => go (set_fired x) TDeliver
  | TDeliver => Some (mkHandle (if after_func then x else send_tick x) TClose (caller h) (S (deliveries h)))
  | TTick deadline p => Some (mkHandle (send_tick x) (TNext deadline p) (caller h) (S (deliveries h)))
  | TNext deadline p => go x (TStore (next_tick deadline p (now x)))
  | TStore next => go (set_deadline_at next x) TLoop
  | TClose => go (close_chan x) TEnd
  | TEnd => None
  end.

(** [Timer::stop], [Timer::reset], [Ticker::reset]; [Ticker::stop] is [stop] without
    its answer. *)
Definition handle_step (h : Handle) : option Handle :=
  let x := ts h in
  let go x pc := Some (mkHandle x (driver h) pc (deliveries h)) in
  match caller h with
  | HStop => if stopped x then go x (HDone false) else go (set_stopped x) HFired
  | HFired => go x (HCancel (negb (fired x)))
  | HCancel b => go (cancel_timer x) (HDone b)
  | HReset d => if stopped x then go x (HDone false) else go x (HResetFired d)
  | HResetFired d => go x (HResetStore d (negb (fired x)))
  | HResetStore d b => go (set_deadline_at d x) (HNudge b)
  | HNudge b => go (set_rearm true x) (HDone b)
  | HTick p => if decide (p <= 0)%Z then go x (HDone false) else go (set_period p x) (HTickNow p)
  | HTickNow p => go x (HTickStore (i64 (now x + p)))
  | HTickStore d => go (set_deadline_at d x) (HNudge true)
  | HDone _ => None
  end.

(** The clock goes on, a receiver takes the tick, a caller comes. *)
Inductive handle_trans (ticker after_func : bool) : Handle -> Handle -> Prop :=
  | ht_drive c h h' : drive_step after_func c h = Some h' -> handle_trans ticker after_func h h'
  | ht_call h h' : handle_step h = Some h' -> handle_trans ticker after_func h h'
  | ht_clock d h : (0 <= d)%Z ->
      handle_trans ticker after_func h (mkHandle
        (mkTimer (deadline_at (ts h)) (period (ts h)) (fired (ts h)) (stopped (ts h)) (cancelled_token (ts h))
           (rearm (ts h)) (tick (ts h)) (closed_chan (ts h)) (now (ts h) + d)) (driver h) (caller h) (deliveries h))
  | ht_recv h :
      handle_trans ticker after_func h (mkHandle
        (mkTimer (deadline_at (ts h)) (period (ts h)) (fired (ts h)) (stopped (ts h)) (cancelled_token (ts h))
           (rearm (ts h)) false (closed_chan (ts h)) (now (ts h))) (driver h) (caller h) (deliveries h))
  | ht_begin h r c : caller h = HDone r -> c = HStop \/ (exists d, c = (if ticker then HTick d else HReset d)) ->
      handle_trans ticker after_func h (mkHandle (ts h) (driver h) c (deliveries h)).

(** [start]: a one-shot timer has the period zero. *)
Definition start_timer (deadline p now : Z) : Handle :=
  mkHandle (mkTimer deadline p false false false false false false now) TLoop (HDone false) 0.

(** ** What holds *)

(** A tick stays on the grid of its ticker, is in the future, and is the first one
    that is: no drift, and no burst after a slow consumer. *)
Lemma next_tick_on_grid deadline p current : (0 < p)%Z -> (- 2 ^ 63 <= deadline)%Z -> (deadline <= current)%Z ->
  (deadline + p < 2 ^ 63)%Z -> (current + p < 2 ^ 63)%Z -> (current - deadline < 2 ^ 63)%Z ->
  exists k, (0 < k)%Z /\ next_tick deadline p current = (deadline + k * p)%Z /\
    (current < next_tick deadline p current <= current + p)%Z.
Proof.
  intros Hp Hd Hle H1 H2 H3. assert (forall z, (- 2 ^ 63 <= z < 2 ^ 63)%Z -> i64 z = z) as Hi.
  { intros z Hz. unfold sgn, wrap. case_decide as Hc; Z.to_euclidean_division_equations; lia. }
  unfold next_tick. rewrite (Hi (deadline + p)%Z) by lia. case_decide as Hn.
  - rewrite (Hi (current - (deadline + p))%Z) by lia. rewrite Z.quot_div_nonneg by lia.
    set (q := ((current - (deadline + p)) / p)%Z).
    assert (q * p <= current - (deadline + p) < (q + 1) * p)%Z as Hq.
    { unfold q. pose proof (Z.mul_div_le (current - (deadline + p)) p Hp). pose proof (Z.mul_succ_div_gt (current - (deadline + p)) p Hp). nia. }
    assert (0 <= q)%Z as Hq0 by (unfold q; apply Z.div_pos; lia).
    rewrite (Hi (q + 1)%Z) by nia. rewrite (Hi ((q + 1) * p)%Z) by nia. rewrite Hi by nia.
    exists (q + 2)%Z. nia.
  - exists 1%Z. lia.
Qed.

Section one_shot.
Context (after_func : bool) (deadline start : Z).

(** What a one-shot timer has delivered, by the place of its task. *)
Record once_inv (h : Handle) : Prop := {
  on_period : period (ts h) = 0%Z;
  on_caller : match caller h with HTick _ | HTickNow _ | HTickStore _ => False | _ => True end;
  on_driver : match driver h with
    | TTick _ _ | TNext _ _ | TStore _ => False
    | TDeliver => deliveries h = 0 /\ fired (ts h) = true
    | TClose | TEnd => deliveries h = (if fired (ts h) then 1 else 0)
    | _ => deliveries h = 0 /\ fired (ts h) = false
    end;
  on_closed : closed_chan (ts h) = true <-> driver h = TEnd }.

Lemma once_trans h h' : once_inv h -> handle_trans false after_func h h' -> once_inv h'.
Proof.
  intros [Hp Hc Hd Hcl] Ht. destruct Ht as [c h h' Hs|h h' Hs|d h Hd0|h|h r c Hr Hc0].
  - unfold drive_step in Hs. destruct (driver h) eqn:Ed;
      repeat match type of Hs with context [match ?x with _ => _ end] => destruct x eqn:? end; simplify_eq;
      split; cbn in *; try done; try (by rewrite ?Hcl); destruct Hd as [Hd Hf]; by rewrite ?Hf, ?Hd.
  - unfold handle_step in Hs. destruct (caller h) eqn:Ec;
      repeat match type of Hs with context [match ?x with _ => _ end] => destruct x eqn:? end; simplify_eq; by split.
  - by split.
  - by split.
  - split; try done. cbn. by destruct Hc0 as [->|[d ->]].
Qed.

(** A one-shot timer delivers at most once, before its channel closes; it has
    delivered exactly when it says that it fired. *)
Lemma one_shot_fires_once h :
  reachable (fun h => h = start_timer deadline 0 start) (handle_trans false after_func) h ->
  deliveries h <= 1 /\ (driver h = TEnd -> deliveries h = if fired (ts h) then 1 else 0) /\
  (deliveries h = 1 -> fired (ts h) = true).
Proof.
  intros Hr. assert (once_inv h) as [Hp Hc Hd Hcl].
  { revert h Hr. apply (reachable_invariant once_inv); [by intros ? ->|]. intros s1 s2 _. apply once_trans. }
  destruct (driver h); try (destruct Hd as [-> ?]; split_and!; by try lia); try done.
  all: rewrite Hd; destruct (fired (ts h)); split_and!; try done; lia.
Qed.
End one_shot.

(** ** What does not hold *)

(** A state of the runs below, from its deadline, its time and its places. *)
Definition at_ (d p now : Z) (st cs : bool) (pc : DriverPc) (c : HandlePc) (n : nat) : Handle :=
  mkHandle (mkTimer d p false st cs false false false now) pc c n.

(** [stop] answers that it stopped the timer, and then the timer fires: its task
    has looked at the deadline and not yet published that it fired. *)
Theorem stop_true_still_fires : exists h h',
  reachable (fun h => h = start_timer 10 0 0) (handle_trans false true) h /\
  caller h = HDone true /\ stopped (ts h) = true /\ deliveries h = 0 /\
  rtc (handle_trans false true) h h' /\ deliveries h' = 1.
Proof.
  exists (at_ 10 0 10 true true (TPeriod 10) (HDone true) 0).
  exists (mkHandle (mkTimer 10 0 true true true false false false 10) TClose (HDone true) 1). split.
  - eapply reachable_step; [|by eapply (ht_call _ _ (at_ 10 0 10 true false (TPeriod 10) (HCancel true) 0))].
    eapply reachable_step; [|by eapply (ht_call _ _ (at_ 10 0 10 true false (TPeriod 10) HFired 0))].
    eapply reachable_step; [|by eapply (ht_call _ _ (at_ 10 0 10 false false (TPeriod 10) HStop 0))].
    eapply reachable_step; [|by apply (ht_begin _ _ (at_ 10 0 10 false false (TPeriod 10) (HDone false) 0) false HStop); [|left]].
    eapply reachable_step; [|by eapply (ht_drive _ _ CExpired (at_ 10 0 10 false false (TCheck 10) (HDone false) 0))].
    eapply reachable_step; [|by eapply (ht_drive _ _ CExpired (at_ 10 0 10 false false (TSelect 10) (HDone false) 0))].
    eapply reachable_step; [|by apply (ht_clock _ _ 10 (at_ 10 0 0 false false (TSelect 10) (HDone false) 0))].
    eapply reachable_step; [|by eapply (ht_drive _ _ CExpired (start_timer 10 0 0))]. by apply reachable_init.
  - split_and!; try done.
    eapply rtc_l; [by eapply (ht_drive _ _ CExpired)|]. eapply rtc_l; [by eapply (ht_drive _ _ CExpired)|].
    eapply rtc_l; [by eapply (ht_drive _ _ CExpired)|]. apply rtc_refl.
Qed.

Definition ticking (d p : Z) (t : bool) (pc : DriverPc) (c : HandlePc) : Handle :=
  mkHandle (mkTimer d p false false false false t false 1000) pc c 1.
Definition armed_tick (n : Z) (pc : DriverPc) : Handle :=
  mkHandle (mkTimer 1000 1000 false false false false false false n) pc (HDone false) 0.

(** [Ticker::reset] is lost: the task has computed the next tick of the old grid,
    and stores it over the deadline that [reset] has stored. The next tick comes
    a long old period later, although the new one is short. *)
Theorem ticker_reset_lost : exists h,
  reachable (fun h => h = start_timer 1000 1000 0) (handle_trans true false) h /\
  caller h = HDone true /\ period (ts h) = 10%Z /\ now (ts h) = 1000%Z /\ rearm (ts h) = true /\
  driver h = TLoop /\ deadline_at (ts h) = 2000%Z.
Proof.
  exists (mkHandle (mkTimer 2000 10 false false false true true false 1000) TLoop (HDone true) 1). split; [|by split_and!].
  eapply reachable_step; [|by eapply (ht_drive _ _ CExpired (mkHandle (mkTimer 1010 10 false false false true true false 1000) (TStore 2000) (HDone true) 1))].
  eapply reachable_step; [|by eapply (ht_call _ _ (ticking 1010 10 true (TStore 2000) (HNudge true)))].
  eapply reachable_step; [|by eapply (ht_call _ _ (ticking 1000 10 true (TStore 2000) (HTickStore 1010)))].
  eapply reachable_step; [|by eapply (ht_call _ _ (ticking 1000 10 true (TStore 2000) (HTickNow 10)))].
  eapply reachable_step; [|by eapply (ht_call _ _ (ticking 1000 1000 true (TStore 2000) (HTick 10)))].
  eapply reachable_step; [|apply (ht_begin _ _ (ticking 1000 1000 true (TStore 2000) (HDone false)) false (HTick 10)); [done|right; by exists 10%Z]].
  eapply reachable_step; [|by eapply (ht_drive _ _ CExpired (ticking 1000 1000 true (TNext 1000 1000) (HDone false)))].
  eapply reachable_step; [|by eapply (ht_drive _ _ CExpired (armed_tick 1000 (TTick 1000 1000)))].
  eapply reachable_step; [|by eapply (ht_drive _ _ CExpired (armed_tick 1000 (TPeriod 1000)))].
  eapply reachable_step; [|by eapply (ht_drive _ _ CExpired (armed_tick 1000 (TCheck 1000)))].
  eapply reachable_step; [|by eapply (ht_drive _ _ CExpired (armed_tick 1000 (TSelect 1000)))].
  eapply reachable_step; [|by apply (ht_clock _ _ 1000%Z (armed_tick 0 (TSelect 1000)))].
  eapply reachable_step; [|by eapply (ht_drive _ _ CExpired (start_timer 1000 1000 0))]. by apply reachable_init.
Qed.
