(* ===== verification/Wp.v ===== *)
(** * Fallible programs and their weakest preconditions

    The sequencing of functions that return a [Result] ([if (!r) return
    r.error();]), and a total-correctness predicate transformer for the state
    monad: [runs m Q s] says that [m] is defined from [s] and ends in [Q]. *)

From S2P Require Import Prelude Result.

Set Default Proof Using "Type".

Section programs.
Context {S A B : Type}.

Definition st_try (k : A -> ST S (Result B)) (m : ST S (Result A)) : ST S (Result B) :=
  st_bind (fun r => match r with Ok a => k a | Err e => st_ret (Err e) end) m.

Definition runs (m : ST S A) (Q : A -> S -> Prop) (s : S) : Prop :=
  exists a s', m s = Some (a, s') /\ Q a s'.
End programs.

Definition st_ok {S A} (a : A) : ST S (Result A) := st_ret (Ok a).
Definition st_err {S A} (e : Error) : ST S (Result A) := st_ret (Err e).

(** A program over the second part of a state. *)
Definition st_snd {S W A} (m : ST W A) : ST (S * W) A := fun '(s, w) =>
  match m w with Some (a, w) => Some (a, (s, w)) | None => None end.

Notation "x <-? m ; k" := (st_try (fun x => k) m)
  (at level 100, m at next level, k at level 200, right associativity,
   format "x  <-?  m ; '/' k") : cio_scope.
Notation "m ;;? k" := (st_try (fun _ => k) m)
  (at level 100, k at level 200, right associativity,
   format "m ;;? '/' k") : cio_scope.

(** What holds after [m], errors apart. *)
Definition on_ok {S A} (Q : A -> S -> Prop) (QE : Error -> S -> Prop) : Result A -> S -> Prop := fun r s =>
  match r with Ok a => Q a s | Err e => QE e s end.

Section rules.
Context {S : Type}.
Implicit Types s : S.

Lemma runs_ret {A} (a : A) (Q : A -> S -> Prop) s : Q a s -> runs (st_ret a) Q s.
Proof. intros H. by exists a, s. Qed.

Lemma runs_mono {A} (m : ST S A) (Q Q' : A -> S -> Prop) s : runs m Q s -> (forall a s', Q a s' -> Q' a s') -> runs m Q' s.
Proof. intros (a & s' & Hm & HQ) H. exists a, s'. auto. Qed.

(** The result with the fact that it is the program's. *)
Lemma runs_eq {A} (m : ST S A) (Q : A -> S -> Prop) s a s' : runs m Q s -> m s = Some (a, s') -> Q a s'.
Proof. intros (a1 & s1 & Hm & HQ) H. congruence. Qed.

Lemma runs_conj {A} (m : ST S A) (Q Q' : A -> S -> Prop) s : runs m Q s -> runs m Q' s -> runs m (fun a s' => Q a s' /\ Q' a s') s.
Proof. intros (a & s' & Hm & HQ) H. exists a, s'. split; [done|]. split; [done|]. by eapply runs_eq. Qed.

Lemma runs_bind {A B} (m : ST S A) (k : A -> ST S B) (Q : B -> S -> Prop) s :
  runs m (fun a s' => runs (k a) Q s') s -> runs (st_bind k m) Q s.
Proof. intros (a & s' & Hm & b & s'' & Hk & HQ). exists b, s''. by rewrite (st_bind_eq _ _ _ _ _ Hm). Qed.

Lemma runs_try {A B} (m : ST S (Result A)) (k : A -> ST S (Result B)) (Q : Result B -> S -> Prop) s :
  runs m (on_ok (fun a s' => runs (k a) Q s') (fun e s' => Q (Err e) s')) s -> runs (st_try k m) Q s.
Proof. intros H. apply runs_bind. eapply runs_mono; [exact H|]. intros [a|e] s' Hr; [done|]. by apply runs_ret. Qed.

Lemma runs_try_assoc {A B C} (m : ST S (Result A)) (k : A -> ST S (Result B)) (h : B -> ST S (Result C)) s :
  st_try h (st_try k m) s = st_try (fun a => st_try h (k a)) m s.
Proof. unfold st_try, st_bind. destruct (m s) as [[[a|e] s']|]; done. Qed.

Lemma runs_gets {A} (f : S -> A) (Q : A -> S -> Prop) s : Q (f s) s -> runs (st_gets f) Q s.
Proof. intros H. by exists (f s), s. Qed.

Lemma runs_modify (f : S -> S) (Q : unit -> S -> Prop) s : Q tt (f s) -> runs (st_modify f) Q s.
Proof. intros H. by exists tt, (f s). Qed.

Lemma runs_snd {W A} (m : ST W A) (Q : A -> S * W -> Prop) s w : runs m (fun a w' => Q a (s, w')) w -> runs (st_snd m) Q (s, w).
Proof. intros (a & w' & Hm & HQ). exists a, (s, w'). unfold st_snd. by rewrite Hm. Qed.

(** A success came through every step. *)
Lemma try_ok_inv {A B} (m : ST S (Result A)) (k : A -> ST S (Result B)) s b s'' :
  st_try k m s = Some (Ok b, s'') -> exists a s', m s = Some (Ok a, s') /\ k a s' = Some (Ok b, s'').
Proof. unfold st_try, st_bind. destruct (m s) as [[[a|e] s']|]; [|done|done]. intros H. by exists a, s'. Qed.

Lemma bind_inv {A B} (m : ST S A) (k : A -> ST S B) s b s'' :
  st_bind k m s = Some (b, s'') -> exists a s', m s = Some (a, s') /\ k a s' = Some (b, s'').
Proof. unfold st_bind. destruct (m s) as [[a s']|]; [|done]. intros H. by exists a, s'. Qed.
End rules.
