(* ===== verification/TlsCache.v ===== *)
(** * The session cache of a TLS client (src/tls.cpp)

    [SessionCache::Impl]: a list of keys in the order of use, whose nodes have
    an identity (the iterators the entries hold), a map of entries, and the
    reference counts of the sessions behind an interface. [None] is undefined
    behaviour: an iterator of another list, or a freed session. The cache is
    proved to be an LRU map that owns one reference per entry. *)

From S2P Require Import Prelude Bytes.

Set Default Proof Using "Type".

(** [SSL_SESSION*], never null. *)
Abbreviation Session := nat (only parsing).

(** ** The interface: the counts of the sessions *)

Class Refs (W : Type) := {
  up_ref : Session -> ST W unit;      (* SSL_SESSION_up_ref *)
  session_free : Session -> ST W unit (* SSL_SESSION_free *) }.

Definition same (s s' : Session) : Z := if decide (s = s') then 1 else 0.

(** A live session has a positive count, which the calls move by one. *)
Class RefsSpec (W : Type) `{Refs W} := {
  refs : W -> Session -> Z;
  up_ref_spec s w : (0 < refs w s)%Z ->
    exists w', up_ref s w = Some (tt, w') /\ forall t, refs w' t = (refs w t + same s t)%Z;
  session_free_spec s w : (0 < refs w s)%Z ->
    exists w', session_free s w = Some (tt, w') /\ forall t, refs w' t = (refs w t - same s t)%Z }.

(** ** State and operations *)

Module SessionCache.

Record Entry := mkEntry { session : Session; position : nat }.

Record Impl := mkImpl {
  capacity : nat;
  order : list (nat * bytes);       (* front = most recently used *)
  entries : gmap bytes Entry;
  next_node : nat }.

Definition init (cap : nat) : Impl :=
  mkImpl (if decide (cap = 0) then 1 else cap) [] ∅ 0.

(** [order.splice(order.begin(), order, position)]. *)
Definition splice_front (i : nat) (l : list (nat * bytes)) : option (list (nat * bytes)) :=
  '(j, n) ← list_find (fun n => n.1 = i) l; Some (n :: delete j l).

(** [position = order.begin()]. *)
Definition begin_ (l : list (nat * bytes)) : option nat := fst <$> head l.

(** Moves the entry of [key], found as [found], to the front and gives it [s]. *)
Definition touch (key : bytes) (found : Entry) (s : Session) (c : Impl) : option Impl :=
  l ← splice_front (position found) (order c);
  i ← begin_ l;
  Some (mkImpl (capacity c) l (<[key := mkEntry s i]> (entries c)) (next_node c)).

Definition push_front (key : bytes) (s : Session) (c : Impl) : Impl :=
  mkImpl (capacity c) ((next_node c, key) :: order c) (<[key := mkEntry s (next_node c)]> (entries c))
    (S (next_node c)).

Section operations.
Context {W : Type} `{Refs W}.

Definition modify (f : Impl -> option Impl) : ST (Impl * W) unit := fun '(c, w) =>
  c ← f c; Some (tt, (c, w)).
Definition lift (m : ST W unit) : ST (Impl * W) unit := fun '(c, w) =>
  '(_, w) ← m w; Some (tt, (c, w)).
Definition gets {A} (f : Impl -> A) : ST (Impl * W) A := fun st => Some (f st.1, st).

Definition take (key : bytes) : ST (Impl * W) (option Session) :=
  found <-- gets (fun c => entries c !! key);
  match found with
  | None => st_ret None
  | Some found =>
      modify (touch key found (session found));;;
      lift (up_ref (session found));;;
      st_ret (Some (session found))
  end.

(** The eviction of [store]. *)
Definition evict : ST (Impl * W) unit :=
  c <-- gets id;
  match last (order c) with
  | Some (_, oldest) =>
      if decide (capacity c <= size (entries c)) then
        match entries c !! oldest with
        | Some stale =>
            lift (session_free (session stale));;;
            modify (fun c => Some (mkImpl (capacity c) (order c) (delete oldest (entries c)) (next_node c)))
        | None => st_ret tt
        end;;;
        modify (fun c => Some (mkImpl (capacity c) (removelast (order c)) (entries c) (next_node c)))
      else st_ret tt
  | None => st_ret tt
  end.

Definition store (key : bytes) (fresh : Session) : ST (Impl * W) unit :=
  found <-- gets (fun c => entries c !! key);
  match found with
  | Some found =>
      lift (session_free (session found));;;
      modify (touch key found fresh)
  | None => evict;;; modify (fun c => Some (push_front key fresh c))
  end.

(** [~Impl]. *)
Fixpoint free_all (l : list Session) : ST W unit :=
  match l with
  | [] => st_ret tt
  | s :: l => session_free s;;; free_all l
  end.
Definition destroy : ST (Impl * W) unit :=
  c <-- gets id;
  lift (free_all (session ∘ snd <$> map_to_list (entries c))).
End operations.

(** ** The specification: a bounded LRU map, most recent first *)

Definition Lru : Type := list (bytes * Session).

Definition lru_get (key : bytes) (l : Lru) : option Session :=
  snd <$> (snd <$> list_find (fun p => p.1 = key) l).
Definition lru_remove (key : bytes) (l : Lru) : Lru := filter (fun p => p.1 <> key) l.

Definition lru_take (key : bytes) (l : Lru) : option Session * Lru :=
  match lru_get key l with
  | Some s => (Some s, (key, s) :: lru_remove key l)
  | None => (None, l)
  end.

Definition lru_store (cap : nat) (key : bytes) (s : Session) (l : Lru) : Lru :=
  match lru_get key l with
  | Some _ => (key, s) :: lru_remove key l
  | None => (key, s) :: (if decide (cap <= length l) then removelast l else l)
  end.

(** The map a cache holds, and the references it owns. *)
Definition abs_node (es : gmap bytes Entry) (n : nat * bytes) : option (bytes * Session) :=
  (fun e => (n.2, session e)) <$> es !! n.2.
Definition abs (c : Impl) : Lru := omap (abs_node (entries c)) (order c).

Fixpoint count (l : list Session) (s : Session) : Z :=
  match l with [] => 0 | t :: l => same t s + count l s end.
Definition owned (l : Lru) : Session -> Z := count l.*2.

(** Runs of a client: its calls, and what [take] gave. *)
Inductive Op := Take (key : bytes) | Store (key : bytes) (s : Session).

Fixpoint run {W} `{Refs W} (ops : list Op) : ST (Impl * W) (list (option Session)) :=
  match ops with
  | [] => st_ret []
  | Take key :: ops => r <-- take key; rs <-- run ops; st_ret (r :: rs)
  | Store key s :: ops => store key s;;; run ops
  end.

Fixpoint lru_run (cap : nat) (ops : list Op) (l : Lru) : list (option Session) * Lru :=
  match ops with
  | [] => ([], l)
  | Take key :: ops =>
      let '(r, l) := lru_take key l in
      let '(rs, l) := lru_run cap ops l in (r :: rs, l)
  | Store key s :: ops => lru_run cap ops (lru_store cap key s l)
  end.

(** The references the client gave, and those it got. *)
Definition stored (ops : list Op) : Session -> Z :=
  count (omap (fun o => match o with Store _ t => Some t | Take _ => None end) ops).
Definition taken (outs : list (option Session)) : Session -> Z := count (omap id outs).

(** ** The invariant *)

Record Inv (c : Impl) : Prop := {
  inv_cap : 1 <= capacity c;
  inv_size : length (order c) <= capacity c;
  inv_ids : NoDup (order c).*1;
  inv_keys : NoDup (order c).*2;
  inv_fresh i k : (i, k) ∈ order c -> i < next_node c;
  inv_entries k e : entries c !! k = Some e -> (position e, k) ∈ order c;
  inv_nodes i k : (i, k) ∈ order c -> exists s, entries c !! k = Some (mkEntry s i) }.

Lemma fresh_inv cap : Inv (init cap).
Proof.
  unfold init. split; cbn; try done.
  - case_decide; lia.
  - lia.
  - constructor.
  - constructor.
  - intros i k H%elem_of_nil. done.
  - intros i k H%elem_of_nil. done.
Qed.

Lemma splice_front_split i k l1 l2 : i ∉ l1.*1 -> splice_front i (l1 ++ (i, k) :: l2) = Some ((i, k) :: l1 ++ l2).
Proof.
  intros Hi. unfold splice_front.
  assert (list_find (fun n : nat * bytes => n.1 = i) (l1 ++ (i, k) :: l2) = Some (length l1, (i, k))) as ->.
  { apply list_find_Some. split; [by apply list_lookup_middle|]. split; [done|].
    intros j [i' k'] Hj Hlt E. cbn in E. subst i'. apply Hi. apply list_elem_of_fmap. exists (i, k'). split; [done|].
    rewrite lookup_app_l in Hj by done. by eapply list_elem_of_lookup_2. }
  cbn. by rewrite delete_middle.
Qed.

(** A key is in the map exactly at its node. *)
Lemma inv_split c k e : Inv c -> entries c !! k = Some e ->
  exists l1 l2, order c = l1 ++ (position e, k) :: l2 /\ position e ∉ l1.*1 /\ k ∉ l1.*2 /\ k ∉ l2.*2.
Proof.
  intros I H. destruct (list_elem_of_split _ _ (inv_entries c I k e H)) as (l1 & l2 & E). exists l1, l2. split; [done|].
  pose proof (inv_ids c I) as Hi. pose proof (inv_keys c I) as Hk. rewrite E, fmap_app in Hi. rewrite E, fmap_app in Hk. cbn in Hi, Hk.
  apply NoDup_app in Hi as (_ & Hi & _), Hk as (_ & Hk & Hk2). apply NoDup_cons in Hk2 as [Hk2 _].
  split_and!; [|  |done]; intros Hin; [by apply (Hi _ Hin), list_elem_of_here|by apply (Hk _ Hin), list_elem_of_here].
Qed.

(** ** The map it holds *)

Lemma abs_keys es l k : k ∈ (omap (abs_node es) l).*1 -> k ∈ l.*2.
Proof.
  rewrite list_elem_of_fmap. intros ([k' s] & -> & Hin). apply list_elem_of_omap in Hin as ([i k''] & Hin & Hn).
  unfold abs_node in Hn. cbn in Hn. destruct (es !! k''); [|done]. injection Hn as -> <-.
  apply list_elem_of_fmap. by exists (i, k').
Qed.

Lemma abs_other es es' l : (forall k, k ∈ l.*2 -> session <$> es' !! k = session <$> es !! k) ->
  omap (abs_node es') l = omap (abs_node es) l.
Proof.
  intros Hk. induction l as [|[i k] l IH]; [done|]. cbn.
  assert (abs_node es' (i, k) = abs_node es (i, k)) as ->.
  { specialize (Hk k (list_elem_of_here _ _)). unfold abs_node. cbn. destruct (es !! k), (es' !! k); cbn in *; congruence. }
  rewrite IH; [done|]. intros k' Hin. apply Hk. by apply list_elem_of_further.
Qed.

Lemma lru_get_none k l : k ∉ l.*1 -> lru_get k l = None.
Proof.
  intros Hk. unfold lru_get.
  assert (list_find (fun p : bytes * Session => p.1 = k) l = None) as ->; [|done].
  apply list_find_None, Forall_forall. intros p Hp <-. apply Hk, list_elem_of_fmap. by exists p.
Qed.

Lemma lru_get_split k s l1 l2 : k ∉ l1.*1 -> lru_get k (l1 ++ (k, s) :: l2) = Some s.
Proof.
  intros Hk. unfold lru_get.
  assert (list_find (fun p : bytes * Session => p.1 = k) (l1 ++ (k, s) :: l2) = Some (length l1, (k, s))) as ->; [|done].
  apply list_find_Some. split; [by apply list_lookup_middle|]. split; [done|].
  intros j p Hj Hlt <-. apply Hk, list_elem_of_fmap. exists p. split; [done|].
  rewrite lookup_app_l in Hj by done. by eapply list_elem_of_lookup_2.
Qed.

Lemma lru_remove_none k l : k ∉ l.*1 -> lru_remove k l = l.
Proof.
  intros Hk. unfold lru_remove. induction l as [|p l IH]; [done|]. cbn in Hk. apply not_elem_of_cons in Hk as [H1 H2].
  rewrite (filter_cons_True _ p l) by (intros H; by apply H1). f_equal. by apply IH.
Qed.

Lemma lru_remove_split k s l1 l2 : k ∉ l1.*1 -> k ∉ l2.*1 -> lru_remove k (l1 ++ (k, s) :: l2) = l1 ++ l2.
Proof.
  intros H1 H2. unfold lru_remove. rewrite (filter_app _ l1), (filter_cons_False _ (k, s) l2) by (cbn; tauto).
  f_equal; by apply lru_remove_none.
Qed.

(** The entries of a cache, split at a key that is there. *)
Lemma abs_split c k e : Inv c -> entries c !! k = Some e ->
  exists l1 l2, order c = l1 ++ (position e, k) :: l2 /\ position e ∉ l1.*1 /\ k ∉ l1.*2 /\ k ∉ l2.*2 /\
    abs c = omap (abs_node (entries c)) l1 ++ (k, session e) :: omap (abs_node (entries c)) l2 /\
    lru_get k (abs c) = Some (session e) /\
    lru_remove k (abs c) = omap (abs_node (entries c)) (l1 ++ l2).
Proof.
  intros I H. destruct (inv_split c k e I H) as (l1 & l2 & E & Hi & Hk1 & Hk2). exists l1, l2.
  assert (abs c = omap (abs_node (entries c)) l1 ++ (k, session e) :: omap (abs_node (entries c)) l2) as Ha.
  { unfold abs. rewrite E, omap_app. cbn. unfold abs_node at 2. cbn. by rewrite H. }
  split_and!; try done; rewrite Ha.
  - apply lru_get_split. by intros ?%abs_keys.
  - rewrite omap_app. by apply lru_remove_split; intros ?%abs_keys.
Qed.

Lemma abs_absent c k : Inv c -> entries c !! k = None -> k ∉ (order c).*2 /\ lru_get k (abs c) = None.
Proof.
  intros I H. assert (k ∉ (order c).*2) as Hk; [|split; [done|by apply lru_get_none; intros ?%abs_keys]].
  rewrite list_elem_of_fmap. intros ([i k'] & -> & Hin). destruct (inv_nodes c I i k' Hin) as (s & Hs). cbn in H. congruence.
Qed.

(** ** The steps *)

Lemma touch_ok key e s c : Inv c -> entries c !! key = Some e ->
  exists c', touch key e s c = Some c' /\ Inv c' /\ capacity c' = capacity c /\
    abs c' = (key, s) :: lru_remove key (abs c).
Proof.
  intros I H. destruct (abs_split c key e I H) as (l1 & l2 & E & Hi & Hk1 & Hk2 & Ha & _ & Hr). destruct e as [s0 i]. cbn [position session] in *.
  unfold touch. cbn [position]. rewrite E, splice_front_split by done. cbn.
  assert (forall n, n ∈ (i, key) :: l1 ++ l2 <-> n ∈ order c) as Hin.
  { intros n. rewrite E. rewrite !elem_of_cons, !elem_of_app, elem_of_cons. tauto. }
  assert (((i, key) :: l1 ++ l2) ≡ₚ order c) as Hp by (rewrite E; by apply Permutation_middle).
  eexists. split; [done|]. split.
  - split; cbn [capacity order entries next_node].
    + apply I.
    + rewrite Hp. apply I.
    + rewrite Hp. apply I.
    + rewrite Hp. apply I.
    + intros i' k' Hin'. apply Hin in Hin'. by eapply inv_fresh.
    + intros k' e' He'. apply Hin. destruct (decide (k' = key)) as [->|Hne].
      * rewrite lookup_insert_eq in He'. injection He' as <-. cbn. by apply (inv_entries c I key _ H).
      * rewrite lookup_insert_ne in He' by done. by apply inv_entries.
    + intros i' k' Hin'. apply Hin in Hin'. destruct (decide (k' = key)) as [->|Hne].
      * exists s. rewrite lookup_insert_eq. destruct (inv_nodes c I i' key Hin') as (s' & Hs'). congruence.
      * rewrite lookup_insert_ne by done. by apply inv_nodes.
  - split; [done|]. rewrite Hr. unfold abs. cbn [order entries]. cbn. unfold abs_node at 1. cbn. rewrite lookup_insert_eq. cbn. f_equal.
    apply abs_other. intros k' Hk'. rewrite lookup_insert_ne; [done|]. intros <-. rewrite fmap_app in Hk'. by apply elem_of_app in Hk' as [?|?].
Qed.

Lemma push_front_ok key s c : Inv c -> entries c !! key = None -> length (order c) < capacity c ->
  Inv (push_front key s c) /\ abs (push_front key s c) = (key, s) :: abs c.
Proof.
  intros I H Hlt. destruct (abs_absent c key I H) as [Hk _]. unfold push_front. split.
  - split; cbn.
    + apply I.
    + lia.
    + constructor; [|apply I]. rewrite list_elem_of_fmap. intros ([i k] & E & Hin). apply (inv_fresh c I) in Hin. cbn in E. lia.
    + constructor; [done|apply I].
    + intros i k Hin. apply elem_of_cons in Hin as [[= -> ->]|Hin]; [lia|]. apply (inv_fresh c I) in Hin. lia.
    + intros k e He. apply elem_of_cons. destruct (decide (k = key)) as [->|Hne].
      * rewrite lookup_insert_eq in He. injection He as <-. by left.
      * rewrite lookup_insert_ne in He by done. right. by apply inv_entries.
    + intros i k Hin. apply elem_of_cons in Hin as [[= -> ->]|Hin]; [exists s; apply lookup_insert_eq|].
      rewrite lookup_insert_ne; [by apply inv_nodes|]. intros <-. apply Hk, list_elem_of_fmap. by exists (i, key).
  - unfold abs. cbn [order entries]. cbn. unfold abs_node at 1. cbn. rewrite lookup_insert_eq. cbn. f_equal.
    apply abs_other. intros k Hk'. rewrite lookup_insert_ne; [done|]. by intros <-.
Qed.

Lemma abs_order c : Inv c -> (abs c).*1 = (order c).*2.
Proof.
  intros I. unfold abs. assert (forall i k, (i, k) ∈ order c -> exists s, entries c !! k = Some s) as Hn.
  { intros i k Hin. destruct (inv_nodes c I i k Hin) as (s & Hs). by eexists. }
  revert Hn. induction (order c) as [|[i k] l IH]; intros Hn; [done|].
  destruct (Hn i k (list_elem_of_here _ _)) as (e & He).
  change (omap (abs_node (entries c)) ((i, k) :: l)) with
    (match abs_node (entries c) (i, k) with Some y => y :: omap (abs_node (entries c)) l | None => omap (abs_node (entries c)) l end).
  unfold abs_node at 1. cbn. rewrite He. cbn. f_equal. apply IH. intros i' k' Hin. apply (Hn i' k'). by apply list_elem_of_further.
Qed.

Lemma abs_length c : Inv c -> length (abs c) = length (order c).
Proof. intros I. rewrite <-(length_fmap fst), abs_order, length_fmap; done. Qed.

(** The entries of the map, in any order. *)
Lemma entries_abs c : Inv c -> ((fun p : bytes * Entry => (p.1, session p.2)) <$> map_to_list (entries c)) ≡ₚ abs c.
Proof.
  intros I. apply NoDup_Permutation.
  - apply (NoDup_fmap_1 fst). rewrite <-list_fmap_compose. apply (NoDup_fst_map_to_list (entries c)).
  - apply (NoDup_fmap_1 fst). rewrite abs_order by done. apply I.
  - intros [k s]. unfold abs. rewrite list_elem_of_fmap, list_elem_of_omap. split.
    + intros ([k' e] & [= -> ->] & Hin%elem_of_map_to_list). exists (position e, k').
      split; [by apply inv_entries|]. unfold abs_node. cbn. by rewrite Hin.
    + intros ([i k'] & Hin & Hn). unfold abs_node in Hn. cbn in Hn. destruct (entries c !! k') as [e|] eqn:He; [|done].
      injection Hn as -> <-. exists (k, e). split; [done|]. by apply elem_of_map_to_list.
Qed.

Lemma entries_size c : Inv c -> size (entries c) = length (order c).
Proof. intros I. rewrite <-(abs_length c I), <-(entries_abs c I), length_fmap. by rewrite length_map_to_list. Qed.

(** ** The operations refine the LRU map *)

Lemma count_app l1 l2 s : count (l1 ++ l2) s = (count l1 s + count l2 s)%Z.
Proof. induction l1 as [|t l1 IH]; cbn; lia. Qed.

Lemma count_nonneg l s : (0 <= count l s)%Z.
Proof. induction l as [|t l IH]; cbn; [lia|]. unfold same. case_decide; lia. Qed.

#[global] Instance count_perm : Proper (Permutation ==> eq ==> eq) count.
Proof. intros l l' Hl s ? <-. induction Hl; cbn; lia. Qed.

Section refinement.
Context {W : Type} `{RS : RefsSpec W}.

(** The cache stands for [l], and its references are counted. *)
Definition holds (c : Impl) (w : W) : Prop := Inv c /\ forall s, (owned (abs c) s <= refs w s)%Z.

(** The references of the world outside of the cache. *)
Definition outside (c : Impl) (w : W) (s : Session) : Z := (refs w s - owned (abs c) s)%Z.

Lemma take_ok key c w : holds c w ->
  exists c' w', take key (c, w) = Some ((lru_take key (abs c)).1, (c', w')) /\ holds c' w' /\
    capacity c' = capacity c /\ abs c' = (lru_take key (abs c)).2 /\
    forall s, outside c' w' s = (outside c w s + count (option_list (lru_take key (abs c)).1) s)%Z.
Proof using RS.
  intros [I Ho]. unfold take. unfold st_bind at 1. cbn [gets fst]. unfold lru_take.
  destruct (entries c !! key) as [e|] eqn:He.
  - destruct (abs_split c key e I He) as (l1 & l2 & _ & _ & _ & _ & Ha & Hg & Hr). rewrite Hg.
    destruct (touch_ok key e (session e) c I He) as (c' & Ht & I' & Hc & Ha').
    assert (forall t, owned (abs c') t = owned (abs c) t) as Hsame.
    { intros t. rewrite Ha', Hr, Ha. unfold owned. cbn. rewrite omap_app, !fmap_app, !count_app. cbn. lia. }
    assert (0 < refs w (session e))%Z as Hpos.
    { specialize (Ho (session e)). rewrite Ha in Ho. unfold owned in Ho. rewrite fmap_app, count_app in Ho. cbn in Ho.
      pose proof (count_nonneg (omap (abs_node (entries c)) l1).*2 (session e)).
      pose proof (count_nonneg (omap (abs_node (entries c)) l2).*2 (session e)).
      unfold same in Ho. rewrite decide_True in Ho by done. lia. }
    destruct (up_ref_spec (session e) w Hpos) as (w' & Hu & Hw').
    exists c', w'. unfold st_bind. cbn. rewrite Ht. cbn. rewrite Hu. cbn. split; [done|]. split.
    + split; [done|]. intros s. rewrite Hsame, Hw'. specialize (Ho s). unfold same. case_decide; lia.
    + split_and!; [done|done|]. intros s. unfold outside. rewrite Hsame, Hw'. lia.
  - destruct (abs_absent c key I He) as [_ Hg]. rewrite Hg. exists c, w. split; [done|]. split; [done|].
    split_and!; [done|done|]. intros s. cbn. lia.
Qed.

(** The least recently used entry, at the end. *)
Lemma drop_last_ok c l i k e : Inv c -> order c = l ++ [(i, k)] -> entries c !! k = Some e ->
  let c' := mkImpl (capacity c) l (delete k (entries c)) (next_node c) in
  Inv c' /\ abs c = abs c' ++ [(k, session e)].
Proof.
  intros I E He c'. pose proof (inv_ids c I) as Hi. rewrite E, fmap_app in Hi. pose proof (inv_keys c I) as Hk. rewrite E, fmap_app in Hk.
  cbn in Hi, Hk. apply NoDup_app in Hi as (Hi & _ & _), Hk as (Hk & Hkl & _).
  assert (forall k', k' ∈ l.*2 -> k' <> k) as Hne by (intros k' Hin ->; by apply (Hkl _ Hin), list_elem_of_here).
  pose proof (inv_size c I) as Hs. rewrite E, length_app in Hs. cbn in Hs. split.
  - split; cbn.
    + apply I.
    + lia.
    + done.
    + done.
    + intros i' k' Hin. apply (inv_fresh c I i' k'). rewrite E. apply elem_of_app. by left.
    + intros k' e' He'. apply lookup_delete_Some in He' as [Hn He']. apply (inv_entries c I) in He'. rewrite E in He'.
      apply elem_of_app in He' as [?|Hin]; [done|]. apply list_elem_of_singleton in Hin. congruence.
    + intros i' k' Hin. rewrite lookup_delete_ne; [apply (inv_nodes c I); rewrite E; apply elem_of_app; by left|].
      intros <-. apply (Hne k); [|done]. apply list_elem_of_fmap. by exists (i', k).
  - unfold abs. rewrite E, omap_app. cbn. unfold abs_node at 2. cbn. rewrite He. cbn. f_equal. symmetry. apply abs_other.
    intros k' Hin. rewrite lookup_delete_ne; [done|]. intros <-. by apply (Hne k).
Qed.

Lemma evict_ok key c w : holds c w -> entries c !! key = None ->
  exists c' w', evict (c, w) = Some (tt, (c', w')) /\ holds c' w' /\ capacity c' = capacity c /\
    entries c' !! key = None /\ length (order c') < capacity c /\
    abs c' = (if decide (capacity c <= length (abs c)) then removelast (abs c) else abs c) /\
    forall s, outside c' w' s = outside c w s.
Proof using RS.
  intros [I Ho] Hkey. unfold evict. unfold st_bind at 1. cbn [gets fst id]. rewrite (abs_length c I).
  pose proof (inv_cap c I) as Hcap. pose proof (inv_size c I) as Hs.
  destruct (last (order c)) as [[i k]|] eqn:Hl.
  2: { apply last_None in Hl. exists c, w. split; [done|]. rewrite Hl. cbn. rewrite decide_False by lia. split_and!; try done; lia. }
  apply last_Some in Hl as (l & E). rewrite (entries_size c I). case_decide as Hfull.
  - destruct (inv_nodes c I i k) as (s & Hsk); [rewrite E; apply elem_of_app; right; apply list_elem_of_here|]. rewrite Hsk. cbn [session].
    destruct (drop_last_ok c l i k (mkEntry s i) I E Hsk) as [I' Ha]. cbn [session] in Ha.
    set (c' := mkImpl _ _ _ _) in *.
    assert (forall t, owned (abs c) t = owned (abs c') t + same s t)%Z as How.
    { intros t. rewrite Ha. unfold owned. rewrite fmap_app, count_app. cbn. lia. }
    destruct (session_free_spec s w) as (w' & Hf & Hw').
    { specialize (Ho s). rewrite How in Ho. pose proof (count_nonneg (abs c').*2 s). unfold owned in Ho. unfold same in Ho.
      rewrite decide_True in Ho by done. lia. }
    exists c', w'. unfold st_bind. cbn. rewrite Hf. cbn. rewrite E, removelast_last. fold c'. split; [done|].
    split_and!; try done.
    + split; [done|]. intros t. specialize (Ho t). rewrite Hw'. rewrite How in Ho. lia.
    + cbn. by apply lookup_delete_None; right.
    + cbn. rewrite E, length_app in Hs. cbn in Hs. lia.
    + by rewrite Ha, removelast_last.
    + intros t. unfold outside. rewrite Hw', How. lia.
  - exists c, w. split; [done|]. split_and!; try done. lia.
Qed.

Lemma store_ok key fresh c w : holds c w -> (1 <= outside c w fresh)%Z ->
  exists c' w', store key fresh (c, w) = Some (tt, (c', w')) /\ holds c' w' /\ capacity c' = capacity c /\
    abs c' = lru_store (capacity c) key fresh (abs c) /\
    forall s, outside c' w' s = (outside c w s - same fresh s)%Z.
Proof using RS.
  intros [I Ho] Hout. unfold store. unfold st_bind at 1. cbn [gets fst]. unfold lru_store.
  destruct (entries c !! key) as [e|] eqn:He.
  - destruct (abs_split c key e I He) as (l1 & l2 & _ & _ & _ & _ & Ha & Hg & Hr). rewrite Hg.
    destruct (touch_ok key e fresh c I He) as (c' & Ht & I' & Hc & Ha').
    assert (forall t, owned (abs c') t = owned (abs c) t - same (session e) t + same fresh t)%Z as How.
    { intros t. rewrite Ha', Hr, Ha. unfold owned. cbn. rewrite omap_app, !fmap_app, !count_app. cbn. lia. }
    destruct (session_free_spec (session e) w) as (w' & Hf & Hw').
    { specialize (Ho (session e)). rewrite Ha in Ho. unfold owned in Ho. rewrite fmap_app, count_app in Ho. cbn in Ho.
      pose proof (count_nonneg (omap (abs_node (entries c)) l1).*2 (session e)).
      pose proof (count_nonneg (omap (abs_node (entries c)) l2).*2 (session e)).
      unfold same in Ho. rewrite decide_True in Ho by done. lia. }
    exists c', w'. unfold st_bind. cbn. rewrite Hf. cbn. rewrite Ht. split; [done|]. split.
    + split; [done|]. intros s. rewrite How, Hw'. specialize (Ho s). unfold outside in Hout. unfold same. repeat case_decide; subst; lia.
    + split_and!; [done|done|]. intros s. unfold outside. rewrite How, Hw'. lia.
  - destruct (abs_absent c key I He) as [_ Hg]. rewrite Hg.
    destruct (evict_ok key c w (conj I Ho) He) as (c1 & w1 & Hev & [I1 Ho1] & Hc1 & Hk1 & Hlt & Ha1 & Hout1).
    rewrite (st_bind_eq _ _ _ _ _ Hev). destruct (push_front_ok key fresh c1 I1 Hk1) as [I' Ha']; [lia|].
    exists (push_front key fresh c1), w1. split; [done|]. 
    assert (forall t, owned (abs (push_front key fresh c1)) t = owned (abs c1) t + same fresh t)%Z as How.
    { intros t. rewrite Ha'. unfold owned. cbn. lia. }
    split; [split; [done|]|split_and!].
    + intros s. rewrite How. rewrite <-(Hout1 fresh) in Hout. specialize (Ho1 s). unfold outside in Hout. unfold same. destruct (decide (fresh = s)) as [->|]; lia.
    + done.
    + by rewrite Ha', Ha1.
    + intros s. specialize (Hout1 s). unfold outside in *. rewrite How. lia.
Qed.

Lemma free_all_ok l w : (forall s, (count l s <= refs w s)%Z) ->
  exists w', free_all l w = Some (tt, w') /\ forall s, refs w' s = (refs w s - count l s)%Z.
Proof using RS.
  revert w. induction l as [|t l IH]; intros w Hl; [exists w; split; [done|]; cbn; lia|]. cbn [free_all].
  destruct (session_free_spec t w) as (w1 & Hf & Hw1).
  { specialize (Hl t). cbn in Hl. pose proof (count_nonneg l t). unfold same in Hl. rewrite decide_True in Hl by done. lia. }
  rewrite (st_bind_eq _ _ _ _ _ Hf). destruct (IH w1) as (w' & Hr & Hw').
  { intros s. specialize (Hl s). cbn in Hl. rewrite Hw1. lia. }
  exists w'. split; [done|]. intros s. rewrite Hw', Hw1. cbn. lia.
Qed.

Lemma destroy_ok c w : holds c w ->
  exists w', destroy (c, w) = Some (tt, (c, w')) /\ forall s, refs w' s = outside c w s.
Proof using RS.
  intros [I Ho]. unfold destroy, st_bind. cbn [gets fst id].
  assert (forall s, count (session ∘ snd <$> map_to_list (entries c)) s = owned (abs c) s) as Hc.
  { intros s. unfold owned. rewrite <-(entries_abs c I), <-list_fmap_compose. done. }
  destruct (free_all_ok (session ∘ snd <$> map_to_list (entries c)) w) as (w' & Hf & Hw').
  { intros s. rewrite Hc. apply Ho. }
  exists w'. cbn. rewrite Hf. split; [done|]. intros s. rewrite Hw', Hc. done.
Qed.

(** The only call [take] makes. *)
Lemma take_world key c w o c' w' : take key (c, w) = Some (o, (c', w')) -> w' = w \/ exists s u, up_ref s w = Some (u, w').
Proof using Type.
  unfold take. unfold st_bind at 1. cbn [gets fst]. destruct (entries c !! key) as [e|]; [|intros [= _ _ <-]; by left].
  unfold st_bind. cbn. destruct (touch _ _ _ _) as [c2|]; [|done]. cbn.
  destruct (up_ref _ w) as [[u w2]|] eqn:E; [|done]. cbn. intros [= _ _ <-]. right. by eexists _, u.
Qed.

Lemma run_ok ops c w : holds c w -> (forall s, (stored ops s <= outside c w s)%Z) ->
  exists c' w', run ops (c, w) = Some ((lru_run (capacity c) ops (abs c)).1, (c', w')) /\ holds c' w' /\
    capacity c' = capacity c /\ abs c' = (lru_run (capacity c) ops (abs c)).2 /\
    forall s, outside c' w' s = (outside c w s + taken (lru_run (capacity c) ops (abs c)).1 s - stored ops s)%Z.
Proof using RS.
  revert c w. induction ops as [|[key|key t] ops IH]; intros c w Hh Hst; cbn [run lru_run].
  - exists c, w. split_and!; try done. intros s. cbn. lia.
  - destruct (take_ok key c w Hh) as (c1 & w1 & Ht & Hh1 & Hc1 & Ha1 & Ho1). rewrite (st_bind_eq _ _ _ _ _ Ht).
    destruct (lru_take key (abs c)) as [r l] eqn:Hlt. cbn [fst snd] in *.
    destruct (IH c1 w1 Hh1) as (c2 & w2 & Hr & Hh2 & Hc2 & Ha2 & Ho2).
    { intros s. rewrite Ho1. specialize (Hst s). pose proof (count_nonneg (option_list r) s). change (stored (Take key :: ops) s) with (stored ops s) in Hst. lia. }
    rewrite (st_bind_eq _ _ _ _ _ Hr). rewrite Hc1, Ha1 in *. destruct (lru_run (capacity c) ops l) as [rs l'] eqn:Hlr. cbn [fst snd] in *.
    exists c2, w2. split_and!; try done. intros s. rewrite Ho2, Ho1. change (stored (Take key :: ops) s) with (stored ops s).
    unfold taken. cbn. destruct r; cbn; lia.
  - assert (forall s, stored (Store key t :: ops) s = same t s + stored ops s)%Z as Hs by done.
    assert (1 <= outside c w t)%Z as Hout.
    { specialize (Hst t). rewrite Hs in Hst. pose proof (count_nonneg (omap (fun o => match o with Store _ t => Some t | Take _ => None end) ops) t).
      unfold stored in Hst. unfold same in Hst. rewrite decide_True in Hst by done. lia. }
    destruct (store_ok key t c w Hh Hout) as (c1 & w1 & Ht & Hh1 & Hc1 & Ha1 & Ho1). rewrite (st_bind_eq _ _ _ _ _ Ht).
    destruct (IH c1 w1 Hh1) as (c2 & w2 & Hr & Hh2 & Hc2 & Ha2 & Ho2).
    { intros s. rewrite Ho1. specialize (Hst s). rewrite Hs in Hst. lia. }
    rewrite Hc1, Ha1 in *. exists c2, w2. split_and!; try done. intros s. rewrite Ho2, Ho1, Hs. lia.
Qed.

(** C33: The cache of TLS sessions behaves as a bounded LRU map and keeps the
    reference counts. For every sequence of calls by a client that owns what it
    stores: no call meets a dangling iterator or a freed session; [take] gives
    exactly what the LRU map gives; at most [max 1 capacity] sessions are kept;
    and after the destructor each session's count is what it was, less the
    references stored, plus the references taken: none leaks, none is lost. *)
Theorem session_cache_lru (cap : nat) (ops : list Op) (w : W) : (forall s, (stored ops s <= refs w s)%Z) ->
  exists c w1 w2, let lru := lru_run (Nat.max 1 cap) ops [] in
    run ops (init cap, w) = Some (lru.1, (c, w1)) /\ abs c = lru.2 /\
    length (order c) = length lru.2 /\ size (entries c) = length lru.2 /\ length lru.2 <= Nat.max 1 cap /\
    destroy (c, w1) = Some (tt, (c, w2)) /\
    forall s, refs w2 s = (refs w s + taken lru.1 s - stored ops s)%Z.
Proof using RS.
  intros Hst. assert (capacity (init cap) = Nat.max 1 cap) as Hcap by (cbn; case_decide; lia).
  assert (abs (init cap) = []) as Habs by done.
  assert (holds (init cap) w) as Hh.
  { split; [apply fresh_inv|]. intros s. rewrite Habs. specialize (Hst s). pose proof (count_nonneg (omap (fun o => match o with Store _ t => Some t | Take _ => None end) ops) s). unfold stored in Hst. cbn. lia. }
  assert (forall s, outside (init cap) w s = refs w s) as Ho by (intros s; unfold outside; rewrite Habs; cbn; lia).
  destruct (run_ok ops (init cap) w Hh) as (c & w1 & Hr & Hh1 & Hc & Ha & Ho1); [intros s; by rewrite Ho|].
  rewrite Hcap, Habs in *. destruct (destroy_ok c w1 Hh1) as (w2 & Hd & Hw2). destruct Hh1 as [I _].
  exists c, w1, w2. cbn zeta. pose proof (inv_size c I). rewrite <-Ha, (entries_size c I), (abs_length c I). split_and!; try done; [lia|].
  intros s. by rewrite Hw2, Ho1, Ho.
Qed.
End refinement.

(** A concrete count: a map from sessions to positive numbers. *)
Module Counts.

Definition bump (d : Z) (s : Session) : ST (gmap Session Z) unit := fun m =>
  let n := default 0%Z (m !! s) in
  if decide (0 < n)%Z then Some (tt, <[s := (n + d)%Z]> m) else None.

#[global] Instance counts_refs : Refs (gmap Session Z) := {| up_ref := bump 1; session_free := bump (-1) |}.

#[global] Instance counts_spec : RefsSpec (gmap Session Z).
Proof.
  refine {| refs := fun m s => default 0%Z (m !! s) |}; intros s w Hs; cbn; unfold bump; rewrite decide_True by done;
    (eexists; split; [done|]); intros t; cbn; unfold same; case_decide as Hd; subst;
    rewrite ?lookup_insert_eq, ?lookup_insert_ne by done; cbn; lia.
Defined.

Definition script : list Op := [Store [97%Z] 1; Store [98%Z] 2; Take [97%Z]; Store [99%Z] 3; Take [98%Z]; Take [97%Z]].
Definition start : gmap Session Z := {[1 := 1%Z; 2 := 1%Z; 3 := 1%Z]}.

End Counts.

Lemma session_cache_lru_witness : exists c w1 w2, let lru := lru_run (Nat.max 1 2) Counts.script [] in
    run Counts.script (init 2, Counts.start) = Some (lru.1, (c, w1)) /\ abs c = lru.2 /\
    length (order c) = length lru.2 /\ size (entries c) = length lru.2 /\ length lru.2 <= Nat.max 1 2 /\
    destroy (c, w1) = Some (tt, (c, w2)) /\
    forall s, refs w2 s = (refs Counts.start s + taken lru.1 s - stored Counts.script s)%Z.
Proof.
  apply (session_cache_lru 2 Counts.script Counts.start). intros s.
  destruct s as [|[|[|[|s]]]]; [vm_compute; done..|].
  change (0 <= default 0 (Counts.start !! S (S (S (S s)))))%Z. unfold Counts.start.
  rewrite !lookup_insert_ne, lookup_singleton_ne by lia. done.
Defined.

Example evicts_oldest : (lru_run 2 Counts.script []).1 = [Some 1; None; Some 1].
Proof. reflexivity. Qed.

End SessionCache.
