(* ===== verification/TlsConfig.v ===== *)
(** * Configuration of TLS connections (src/tls.cpp)

    [build_alpn_wire], [build_shared] and [configure] as sequences of calls of
    OpenSSL, over an interface that answers them: which calls are made, on which
    context, in which order, and what is freed when one fails. *)

From S2P Require Import Prelude Result Bytes Wp TlsCache.

Set Default Proof Using "Type".

(** ** Configuration *)

Inductive ClientAuth := none | request | require_any | verify_if_given | require_and_verify.
#[global] Instance ClientAuth_eq_dec : EqDecision ClientAuth.
Proof. solve_decision. Defined.

Record Certificate := mkCertificate { certificate_file : bytes; private_key_file : bytes }.

Record Config := mkConfig {
  server_name : bytes;
  verify_peer : bool;
  ca_file : bytes;
  certificate : Certificate;            (* certificate_file, private_key_file *)
  certificates : list Certificate;
  client_auth : ClientAuth;
  client_ca_file : bytes;
  session_tickets_disabled : bool;
  session_ticket_key : bytes;
  session_cache : bool;                 (* set; the cache itself is shared *)
  next_protos : list bytes }.

(** A [SSL_CTX*], [SSL*] or other pointer; 0 is null. *)
Abbreviation Ptr := Z (only parsing).

Record SharedContext := mkShared {
  context : Ptr;
  sni_contexts : list Ptr;
  alpn_wire : bytes }.

Definition no_shared : SharedContext := mkShared 0 [] [].

(** What the copies of a [Config] share: the compiled context ([ConfigState])
    and the session cache. *)
Record Slot := mkSlot { compiled : option SharedContext; cache : option SessionCache.Impl }.

Definition SSL_VERIFY_NONE : Z := 0.
Definition SSL_VERIFY_PEER : Z := 1.
Definition SSL_VERIFY_FAIL_IF_NO_PEER_CERT : Z := 2.
Definition TLS1_2_VERSION : Z := 771.

(** ** The interface: calls of OpenSSL *)

Inductive Call :=
  | SSL_CTX_new (client : bool)         (* TLS_client_method, TLS_server_method *)
  | SSL_CTX_free (ctx : Ptr)
  | SSL_CTX_set_min_proto_version (ctx : Ptr) (v : Z)
  | SSL_CTX_set_verify (ctx : Ptr) (mode : Z) (allow_any : bool)
  | SSL_CTX_set_default_verify_paths (ctx : Ptr)
  | SSL_CTX_load_verify_locations (ctx : Ptr) (file : bytes)
  | SSL_CTX_use_certificate_chain_file (ctx : Ptr) (file : bytes)
  | SSL_CTX_use_PrivateKey_file (ctx : Ptr) (file : bytes)
  | SSL_CTX_check_private_key (ctx : Ptr)
  | SSL_CTX_set_session_cache_mode (ctx : Ptr)
  | SSL_CTX_sess_set_new_cb (ctx : Ptr)
  | SSL_CTX_set_tlsext_servername_callback (ctx : Ptr)
  | SSL_CTX_set_tlsext_servername_arg (ctx : Ptr)
  | SSL_CTX_set_alpn_select_cb (ctx : Ptr)
  | SSL_load_client_CA_file (file : bytes)
  | SSL_CTX_set_client_CA_list (ctx : Ptr) (names : Ptr)
  | SSL_CTX_set_options_NO_TICKET (ctx : Ptr)
  | SSL_CTX_tlsext_ticket_keys_length (ctx : Ptr)
  | SSL_CTX_set_tlsext_ticket_keys (ctx : Ptr) (keys : bytes)
  | EVP_PKEY_CTX_new_id
  | EVP_PKEY_derive_init (kdf : Ptr)
  | EVP_PKEY_CTX_set_hkdf_md (kdf : Ptr)
  | EVP_PKEY_CTX_set1_hkdf_key (kdf : Ptr) (key : bytes)
  | EVP_PKEY_CTX_add1_hkdf_info (kdf : Ptr)
  | EVP_PKEY_derive (kdf : Ptr) (length : Z)
  | EVP_PKEY_CTX_free (kdf : Ptr)
  | SSL_new (ctx : Ptr)
  | SSL_free (ssl : Ptr)
  | SSL_set_ex_data (ssl : Ptr)
  | BIO_new_bio_pair
  | BIO_free (bio : Ptr)
  | SSL_set_bio (ssl : Ptr)
  | SSL_set_tlsext_host_name (ssl : Ptr) (name : bytes)
  | SSL_set1_host (ssl : Ptr) (name : bytes)
  | SSL_set_alpn_protos (ssl : Ptr) (wire : bytes)
  | SSL_set_session (ssl : Ptr) (session : nat)
  | SSL_set_connect_state (ssl : Ptr)
  | SSL_set_accept_state (ssl : Ptr).

(** A call's return code, and the data it writes (the key material of
    [EVP_PKEY_derive], the network end of [BIO_new_bio_pair]). *)
Class OpenSSL (W : Type) := {
  ossl : Call -> W -> (Z * bytes) * W;
  ERR_get_error : W -> Z * W;
  ERR_peek_error : W -> Z }.

Section calls.
Context {W : Type} `{OpenSSL W}.

Definition call (c : Call) : ST W Z := fun w => let '((r, _), w) := ossl c w in Some (r, w).
Definition call_data (c : Call) : ST W (Z * bytes) := fun w => Some (ossl c w).

(** OpenSSL keeps at most [ERR_NUM_ERRORS] entries per thread. *)
Definition ERR_NUM_ERRORS : nat := 16.

(** The loops over the error queue. *)
Fixpoint drain_errors (fuel : nat) : ST W unit :=
  match fuel with
  | O => st_fail
  | S fuel => code <-- (fun w => Some (ERR_get_error w)); if decide (code = 0%Z) then st_ret tt else drain_errors fuel
  end.

Definition discard_openssl_errors : ST W unit := drain_errors (S ERR_NUM_ERRORS).
Definition take_openssl_error {A} : ST W (Result A) := discard_openssl_errors;;; st_err (of_errc broken).

(** [call == 1 && ...]. *)
Fixpoint all_ok (cs : list Call) : ST W bool :=
  match cs with
  | [] => st_ret true
  | c :: cs => r <-- call c; if decide (r = 1%Z) then all_ok cs else st_ret false
  end.

(** [if (call != 1 || ...) return take_openssl_error();]. *)
Definition check_all (cs : list Call) : ST W (Result unit) :=
  b <-- all_ok cs; if b : bool then st_ok tt else take_openssl_error.
Definition check (c : Call) : ST W (Result unit) := check_all [c].

(** A call that returns a pointer. *)
Definition make (c : Call) : ST W (Result Ptr) :=
  r <-- call c; if decide (r = 0%Z) then take_openssl_error else st_ok r.

(** A call whose result is not looked at. *)
Definition do_ (c : Call) : ST W (Result unit) := _ <-- call c; st_ok tt.
End calls.

(** ** ALPN *)

Fixpoint build_alpn_wire (protos : list bytes) : Result bytes :=
  match protos with
  | [] => Ok []
  | proto :: protos =>
      if decide (proto = [] \/ 255 < length proto) then Err (of_errno EINVAL)
      else
        match build_alpn_wire protos with
        | Ok wire => Ok (Z.of_nat (length proto) :: proto ++ wire)
        | Err e => Err e
        end
  end.

(** ** Contexts *)

Definition verify_mode_for (auth : ClientAuth) : Z :=
  match auth with
  | none => SSL_VERIFY_NONE
  | request => SSL_VERIFY_PEER
  | require_any => Z.lor SSL_VERIFY_PEER SSL_VERIFY_FAIL_IF_NO_PEER_CERT
  | verify_if_given => SSL_VERIFY_PEER
  | require_and_verify => Z.lor SSL_VERIFY_PEER SSL_VERIFY_FAIL_IF_NO_PEER_CERT
  end.

Section contexts.
Context {W : Type} `{OpenSSL W}.

Definition derive_ticket_key (secret : bytes) (length_ : Z) : ST W (Result bytes) :=
  kdf <-? make EVP_PKEY_CTX_new_id;
  ready <-- all_ok [EVP_PKEY_derive_init kdf; EVP_PKEY_CTX_set_hkdf_md kdf; EVP_PKEY_CTX_set1_hkdf_key kdf secret;
    EVP_PKEY_CTX_add1_hkdf_info kdf];
  derived <-- (
    if ready : bool then
      r <-- call_data (EVP_PKEY_derive kdf length_);
      st_ret (if decide (r.1 = 1%Z) then Some r.2 else None)
    else st_ret None);
  _ <-- call (EVP_PKEY_CTX_free kdf);
  match derived with
  | Some out => if decide (Z.of_nat (length out) = length_) then st_ok out else take_openssl_error
  | None => take_openssl_error
  end.

(** A certificate and its key on a context. *)
Definition certificate_calls (ctx : Ptr) (cert : Certificate) : list Call :=
  [SSL_CTX_use_certificate_chain_file ctx (certificate_file cert);
   SSL_CTX_use_PrivateKey_file ctx (private_key_file cert);
   SSL_CTX_check_private_key ctx].

Definition make_cert_context (cert : Certificate) (alpn : bytes) : ST W (Result Ptr) :=
  ctx <-? make (SSL_CTX_new false);
  loaded <-- all_ok (SSL_CTX_set_min_proto_version ctx TLS1_2_VERSION :: certificate_calls ctx cert);
  if loaded : bool then
    (if decide (alpn = []) then st_ok tt else do_ (SSL_CTX_set_alpn_select_cb ctx));;? st_ok ctx
  else
    _ <-- call (SSL_CTX_free ctx); take_openssl_error.

(** [~SharedContext]. *)
Fixpoint free_sni (context : Ptr) (l : list Ptr) : ST W unit :=
  match l with
  | [] => st_ret tt
  | ctx :: l => (if decide (ctx = context) then st_ret tt else _ <-- call (SSL_CTX_free ctx); st_ret tt);;; free_sni context l
  end.
Definition destroy_shared (s : SharedContext) : ST W unit :=
  free_sni (context s) (sni_contexts s);;;
  if decide (context s = 0%Z) then st_ret tt else _ <-- call (SSL_CTX_free (context s)); st_ret tt.

(** The roots against which certificates are verified. *)
Definition load_roots (ctx : Ptr) (file : bytes) : ST W (Result unit) :=
  if decide (file = []) then check (SSL_CTX_set_default_verify_paths ctx)
  else check (SSL_CTX_load_verify_locations ctx file).

(** The client's part of [build_shared]. *)
Definition build_client (config : Config) (ctx : Ptr) : ST W (Result unit) :=
  (if verify_peer config then
     do_ (SSL_CTX_set_verify ctx SSL_VERIFY_PEER false);;? load_roots ctx (ca_file config)
   else do_ (SSL_CTX_set_verify ctx SSL_VERIFY_NONE false));;?
  (let cert := default (certificate config) (head (certificates config)) in
   if decide (certificate_file cert = [] \/ private_key_file cert = []) then st_ok tt
   else check_all (certificate_calls ctx cert));;?
  (if session_cache config then do_ (SSL_CTX_set_session_cache_mode ctx);;? do_ (SSL_CTX_sess_set_new_cb ctx)
   else st_ok tt).

Definition client_certificates (config : Config) (ctx : Ptr) : ST W (Result unit) :=
  if decide (client_auth config = none) then st_ok tt
  else
    do_ (SSL_CTX_set_verify ctx (verify_mode_for (client_auth config)) (bool_decide (client_auth config = require_any)));;?
    (if decide (client_ca_file config = []) then check (SSL_CTX_set_default_verify_paths ctx)
     else
       check (SSL_CTX_load_verify_locations ctx (client_ca_file config));;?
       names <-? make (SSL_load_client_CA_file (client_ca_file config));
       do_ (SSL_CTX_set_client_CA_list ctx names)).

Definition session_tickets (config : Config) (ctx : Ptr) : ST W (Result unit) :=
  if session_tickets_disabled config then do_ (SSL_CTX_set_options_NO_TICKET ctx)
  else if decide (session_ticket_key config = []) then st_ok tt
  else if decide (length (session_ticket_key config) < 32) then st_err (of_errno EINVAL)
  else
    needed <-- call (SSL_CTX_tlsext_ticket_keys_length ctx);
    if decide (needed <= 0)%Z then take_openssl_error
    else
      derived <-? derive_ticket_key (session_ticket_key config) needed;
      check (SSL_CTX_set_tlsext_ticket_keys ctx derived).
End contexts.

Section shared.
Context {W : Type} `{OpenSSL W}.

Definition upd_shared (f : SharedContext -> SharedContext) : ST (SharedContext * W) (Result unit) := fun '(s, w) =>
  Some (Ok tt, (f s, w)).
Definition push_sni (ctx : Ptr) : SharedContext -> SharedContext := fun s =>
  mkShared (context s) (sni_contexts s ++ [ctx]) (alpn_wire s).

(** The contexts of the additional certificates. *)
Fixpoint sni_loop (certs : list Certificate) (alpn : bytes) : ST (SharedContext * W) (Result unit) :=
  match certs with
  | [] => st_ok tt
  | cert :: certs => ctx <-? st_snd (make_cert_context cert alpn); upd_shared (push_sni ctx);;? sni_loop certs alpn
  end.

(** The server's part of [build_shared]. *)
Definition build_server (config : Config) (ctx : Ptr) (alpn : bytes) : ST (SharedContext * W) (Result unit) :=
  certs <-?
    match certificates config with
    | [] =>
        if decide (certificate_file (certificate config) = [] \/ private_key_file (certificate config) = [])
        then st_err (of_errno EINVAL)
        else st_ok (certificate config, [])
    | first :: rest => st_ok (first, rest)
    end;
  st_snd (check_all (certificate_calls ctx certs.1));;?
  upd_shared (push_sni ctx);;?
  sni_loop certs.2 alpn;;?
  st_snd (
    (if decide (certs.2 = []) then st_ok tt
     else do_ (SSL_CTX_set_tlsext_servername_callback ctx);;? do_ (SSL_CTX_set_tlsext_servername_arg ctx));;?
    (if decide (alpn = []) then st_ok tt else do_ (SSL_CTX_set_alpn_select_cb ctx));;?
    client_certificates config ctx;;?
    session_tickets config ctx).

Definition build_body (config : Config) (is_client : bool) : ST (SharedContext * W) (Result unit) :=
  match build_alpn_wire (next_protos config) with
  | Err e => st_err e
  | Ok wire =>
      upd_shared (fun s => mkShared (context s) (sni_contexts s) wire);;?
      ctx <-- st_snd (call (SSL_CTX_new is_client));
      upd_shared (fun s => mkShared ctx (sni_contexts s) (alpn_wire s));;?
      st_snd (if decide (ctx = 0%Z) then take_openssl_error else st_ok tt);;?
      st_snd (check (SSL_CTX_set_min_proto_version ctx TLS1_2_VERSION));;?
      if is_client then st_snd (build_client config ctx) else build_server config ctx wire
  end.

(** [build_shared]: on an error the half-built context is released. *)
Definition build_shared (config : Config) (is_client : bool) : ST W (Result SharedContext) := fun w =>
  match build_body config is_client (no_shared, w) with
  | Some (Ok _, (s, w)) => Some (Ok s, w)
  | Some (Err e, (s, w)) => (destroy_shared s;;; st_err e) w
  | None => None
  end.
End shared.

(** ** Connections *)

(** [Conn::State]. *)
Record State := mkState {
  shared : option SharedContext;
  ssl : Ptr;
  network : Ptr;
  config : Config;
  is_client : bool;
  configured : bool;
  handshake_done : bool;
  shutdown_sent : bool }.

Definition new_conn (config : Config) (is_client : bool) : State := mkState None 0 0 config is_client false false false.
Definition client (config : Config) : State := new_conn config true.
Definition server (config : Config) : State := new_conn config false.

Section configure.
Context {W : Type} `{OpenSSL W, Refs W}.

Definition upd (f : State -> State) : ST (State * (Slot * W)) (Result unit) := fun '(st, w) => Some (Ok tt, (f st, w)).

(** The compilation of a [Config], once. *)
Definition compile (config : Config) (is_client : bool) : ST (Slot * W) (Result SharedContext) := fun '(slot, w) =>
  match compiled slot with
  | Some s => Some (Ok s, (slot, w))
  | None =>
      match build_shared config is_client w with
      | Some (Ok s, w) => Some (Ok s, (mkSlot (Some s) (cache slot), w))
      | Some (Err e, w) => Some (Err e, (slot, w))
      | None => None
      end
  end.

(** [session_cache->take] and the reference it gives back. *)
Definition cache_take (key : bytes) : ST (Slot * W) (option nat) := fun '(slot, w) =>
  c ← cache slot;
  '(r, (c, w)) ← SessionCache.take key (c, w);
  Some (r, (mkSlot (compiled slot) (Some c), w)).

Definition offer_session (name : bytes) (ssl : Ptr) : ST (Slot * W) (Result unit) :=
  cached <-- cache_take name;
  match cached with
  | Some s => _ <-- st_snd (call (SSL_set_session ssl s)); st_snd (session_free s);;; st_ok tt
  | None => st_ok tt
  end.

Definition set_shared (s : SharedContext) (st : State) : State :=
  mkState (Some s) (ssl st) (network st) (config st) (is_client st) (configured st) (handshake_done st) (shutdown_sent st).
Definition set_ssl (p : Ptr) (st : State) : State :=
  mkState (shared st) p (network st) (config st) (is_client st) (configured st) (handshake_done st) (shutdown_sent st).
Definition set_network (p : Ptr) (st : State) : State :=
  mkState (shared st) (ssl st) p (config st) (is_client st) (configured st) (handshake_done st) (shutdown_sent st).
Definition set_configured (st : State) : State :=
  mkState (shared st) (ssl st) (network st) (config st) (is_client st) true (handshake_done st) (shutdown_sent st).
Definition set_handshake_done (st : State) : State :=
  mkState (shared st) (ssl st) (network st) (config st) (is_client st) (configured st) true (shutdown_sent st).
Definition set_shutdown_sent (st : State) : State :=
  mkState (shared st) (ssl st) (network st) (config st) (is_client st) (configured st) (handshake_done st) true.

Definition setup_client (config : Config) (alpn : bytes) (ssl : Ptr) : ST (Slot * W) (Result unit) :=
  st_snd (
    (if decide (server_name config = []) then st_ok tt
     else
       check (SSL_set_tlsext_host_name ssl (server_name config));;?
       if verify_peer config then check (SSL_set1_host ssl (server_name config)) else st_ok tt);;?
    (if decide (alpn = []) then st_ok tt
     else
       r <-- call (SSL_set_alpn_protos ssl alpn);
       if decide (r = 0%Z) then st_ok tt else take_openssl_error));;?
  (if session_cache config then offer_session (server_name config) ssl else st_ok tt);;?
  st_snd (do_ (SSL_set_connect_state ssl)).

Definition configure : ST (State * (Slot * W)) (Result unit) :=
  st <-- st_gets fst;
  if configured st then st_ok tt
  else
    s <-? st_snd (compile (config st) (is_client st));
    upd (set_shared s);;?
    ssl <-- st_snd (st_snd (call (SSL_new (context s))));
    upd (set_ssl ssl);;?
    st_snd (st_snd (
      (if decide (ssl = 0%Z) then take_openssl_error else st_ok tt);;?
      do_ (SSL_set_ex_data ssl)));;?
    pair <-- st_snd (st_snd (call_data BIO_new_bio_pair));
    upd (set_network (default 0%Z (head pair.2)));;?
    st_snd (st_snd (
      (if decide (pair.1 = 1%Z) then st_ok tt else take_openssl_error);;?
      do_ (SSL_set_bio ssl)));;?
    st_snd (
      if is_client st then setup_client (config st) (alpn_wire s) ssl
      else st_snd (do_ (SSL_set_accept_state ssl)));;?
    upd set_configured.

(** [new_session_cb]: [dup] is [SSL_SESSION_dup]. *)
Definition new_session_cb (dup : nat -> ST W (option nat)) (st : State) (session : nat) : ST (Slot * W) Z := fun '(slot, w) =>
  if negb (session_cache (config st)) then Some (0%Z, (slot, w))
  else
    '(copy, w) ← dup session w;
    match copy with
    | None => Some (0%Z, (slot, w))
    | Some copy =>
        c ← cache slot;
        '(_, (c, w)) ← SessionCache.store (server_name (config st)) copy (c, w);
        Some (0%Z, (mkSlot (compiled slot) (Some c), w))
    end.

(** [~State]. *)
Definition destroy_state (st : State) : ST W unit :=
  (if decide (ssl st = 0%Z) then st_ret tt else _ <-- call (SSL_free (ssl st)); st_ret tt);;;
  if decide (network st = 0%Z) then st_ret tt else _ <-- call (BIO_free (network st)); st_ret tt.
End configure.

(** ** The server's callbacks *)

(** [alpn_select_cb], with [SSL_select_next_proto] as a parameter: the chosen
    protocol, or [None] for [SSL_TLSEXT_ERR_NOACK]. *)
Definition alpn_select_cb (select : bytes -> bytes -> option bytes) (s : SharedContext) (offered : bytes) : option bytes :=
  select (alpn_wire s) offered.

(** [servername_cb]: the context it switches to. [cert_of] is
    [SSL_CTX_get0_certificate], [check_host] is [X509_check_host]. *)
Fixpoint first_match (cert_of : Ptr -> option Ptr) (check_host : Ptr -> bytes -> Z) (name : bytes) (l : list Ptr) : option Ptr :=
  match l with
  | [] => None
  | ctx :: l =>
      match cert_of ctx with
      | Some cert => if decide (check_host cert name = 1%Z) then Some ctx else first_match cert_of check_host name l
      | None => first_match cert_of check_host name l
      end
  end.
Definition servername_cb (cert_of : Ptr -> option Ptr) (check_host : Ptr -> bytes -> Z) (s : SharedContext)
    (name : option bytes) : option Ptr :=
  match name with
  | Some name => first_match cert_of check_host name (sni_contexts s)
  | None => None
  end.

Definition verify_callback_allow_any (preverify : Z) : Z := 1.
