(* ===== verification/TlsConfigProps.v ===== *)
(** * Theorems on the TLS configuration

    The calls of OpenSSL are logged by the interface's laws; the theorems say
    which calls a successful configuration has made, and that a failed one has
    freed what it had made. *)

From S2P Require Import Prelude Result Bytes Wp TlsCache TlsConfig.

Set Default Proof Using "Type".

(** ** ALPN: the wire form *)

(** The reader of a list of length-prefixed strings. *)
Fixpoint decode_alpn (fuel : nat) (wire : bytes) : option (list bytes) :=
  match fuel, wire with
  | _, [] => Some []
  | S fuel, n :: wire =>
      let n := Z.to_nat n in
      if decide (0 < n <= length wire) then cons (take n wire) <$> decode_alpn fuel (drop n wire) else None
  | O, _ :: _ => None
  end.

(** ALPN lists survive the wire. A list whose names all have 1 to 255 bytes
    is encoded, decoding the encoding gives it back, the encoding is made of
    bytes when the names are, and its length is the sum of the names' lengths
    plus one each; any other list is refused with [EINVAL]. *)
Theorem alpn_roundtrip (protos : list bytes) :
  match build_alpn_wire protos with
  | Ok wire => Forall (fun p => 0 < length p <= 255) protos /\ decode_alpn (length wire) wire = Some protos /\
      (Forall bytes_ok protos -> bytes_ok wire) /\ length wire = sum_list (map (fun p => S (length p)) protos)
  | Err e => e = of_errno EINVAL /\ ~ Forall (fun p => 0 < length p <= 255) protos
  end.
Proof.
  induction protos as [|p protos IH]; [by split_and!; try constructor|]. cbn [build_alpn_wire]. case_decide as Hbad.
  { split; [done|]. intros Hf. apply Forall_cons in Hf as [Hp _]. destruct Hbad as [->|Hl]; cbn in *; lia. }
  assert (0 < length p <= 255) as Hp by (destruct p; [tauto|]; cbn in *; lia).
  destruct (build_alpn_wire protos) as [wire|e]; [|by destruct IH as [-> IH]; split; [done|]; intros Hf; apply Forall_cons in Hf as [_ Hf]].
  destruct IH as (Hf & Hd & Hb & Hl). split_and!.
  - by constructor.
  - cbn [length decode_alpn]. rewrite Nat2Z.id, decide_True by (rewrite length_app; lia).
    rewrite take_app_length, drop_app_length, length_app.
    assert (forall extra, decode_alpn (extra + length wire) wire = Some protos) as Hmore.
    { clear -Hd. assert (forall n m w ps, decode_alpn n w = Some ps -> n <= m -> decode_alpn m w = Some ps) as Hmono.
      { induction n as [|n IH]; intros [|m] [|x w] ps; cbn; try done; [lia|]. intros H Hnm. case_decide; [|done].
        apply fmap_Some in H as (ps' & H & ->). by rewrite (IH m _ _ H) by lia. }
      intros extra. apply (Hmono (length wire)); [done|lia]. }
    by rewrite Hmore.
  - intros Hok. apply Forall_cons in Hok as [Hok1 Hok2]. apply Forall_cons. split; [unfold in_range; lia|].
    apply Forall_app. split; [done|by apply Hb].
  - cbn. rewrite length_app, Hl. lia.
Qed.

(** ** The laws of the interface *)

(** What the calls make and free. *)
Inductive Resource := RCtx | RKdf | RSsl.
#[global] Instance Resource_eq_dec : EqDecision Resource.
Proof. solve_decision. Defined.

Definition made (k : Resource) (c : Call) : bool :=
  match k, c with RCtx, SSL_CTX_new _ | RKdf, EVP_PKEY_CTX_new_id | RSsl, SSL_new _ => true | _, _ => false end.
Definition freed (k : Resource) (c : Call) : option Ptr :=
  match k, c with RCtx, SSL_CTX_free p | RKdf, EVP_PKEY_CTX_free p | RSsl, SSL_free p => Some p | _, _ => None end.

Definition one (b : bool) : Z := if b then 1 else 0.
Definition delta (k : Resource) (p : Ptr) (x : Call * Z) : Z :=
  one (made k x.1 && bool_decide (x.2 = p /\ p <> 0%Z)) - one (bool_decide (freed k x.1 = Some p)).

(** The objects a log leaves behind. *)
Fixpoint balance (k : Resource) (p : Ptr) (l : list (Call * Z)) : Z :=
  match l with [] => 0 | x :: l => delta k p x + balance k p l end.

Class OpenSSLSpec (W : Type) `{OpenSSL W} := {
  calls : W -> list (Call * Z);
  errors : W -> list Z;
  ossl_calls c w : calls (ossl c w).2 = calls w ++ [(c, (ossl c w).1.1)];
  (** A new context is none of those that live. *)
  new_fresh b w : (ossl (SSL_CTX_new b) w).1.1 <> 0%Z -> balance RCtx (ossl (SSL_CTX_new b) w).1.1 (calls w) = 0%Z;
  errors_bounded w : length (errors w) <= ERR_NUM_ERRORS;
  get_error_calls w : calls (ERR_get_error w).2 = calls w;
  get_error_spec w : match errors w with
    | [] => (ERR_get_error w).1 = 0%Z
    | e :: es => (ERR_get_error w).1 = e /\ e <> 0%Z /\ errors (ERR_get_error w).2 = es
    end }.

(** ** Programs and their logs *)

Section logs.
Context {W : Type} `{OW : OpenSSL W} {OS : OpenSSLSpec W}.

(** [m] is defined and its log satisfies [Q]. *)
Definition logs {A} (m : ST W A) (Q : A -> list (Call * Z) -> Prop) (w : W) : Prop :=
  runs m (fun a w' => exists l, calls w' = calls w ++ l /\ Q a l) w.

Lemma logs_ret {A} (a : A) (Q : A -> list (Call * Z) -> Prop) w : Q a [] -> logs (st_ret a) Q w.
Proof. intros HQ. apply runs_ret. exists []. by rewrite app_nil_r. Qed.

Lemma logs_mono {A} (m : ST W A) (Q Q' : A -> list (Call * Z) -> Prop) w :
  logs m Q w -> (forall a l, Q a l -> Q' a l) -> logs m Q' w.
Proof. intros Hm HQ. eapply runs_mono; [exact Hm|]. intros a w' (l & Hl & Ha). exists l. auto. Qed.

Lemma logs_bind {A B} (m : ST W A) (k : A -> ST W B) (P : A -> list (Call * Z) -> Prop) (Q : B -> list (Call * Z) -> Prop) w :
  logs m P w ->
  (forall a l w', calls w' = calls w ++ l -> P a l -> logs (k a) (fun b l2 => Q b (l ++ l2)) w') ->
  logs (st_bind k m) Q w.
Proof.
  intros Hm Hk. apply runs_bind. eapply runs_mono; [exact Hm|]. intros a w' (l & Hl & Ha).
  eapply runs_mono; [by apply Hk|]. intros b w'' (l2 & Hl2 & Hb). exists (l ++ l2). by rewrite Hl2, Hl, app_assoc.
Qed.

Lemma logs_try {A B} (m : ST W (Result A)) (k : A -> ST W (Result B)) (P : Result A -> list (Call * Z) -> Prop)
    (Q : Result B -> list (Call * Z) -> Prop) w :
  logs m P w ->
  (forall a l w', calls w' = calls w ++ l -> P (Ok a) l -> logs (k a) (fun b l2 => Q b (l ++ l2)) w') ->
  (forall e l, P (Err e) l -> Q (Err e) l) ->
  logs (st_try k m) Q w.
Proof.
  intros Hm Hk He. unfold st_try. eapply logs_bind; [exact Hm|]. intros [a|e] l w' Hl HP; [by eapply Hk|].
  apply logs_ret. rewrite app_nil_r. by apply He.
Qed.

Lemma logs_call c w : logs (call c) (fun r l => l = [(c, r)]) w.
Proof using OS.
  unfold call, logs, runs. pose proof (ossl_calls c w) as Hc. destruct (ossl c w) as [[r d] w'] eqn:E. cbn in Hc.
  exists r, w'. split; [done|]. by exists [(c, r)].
Qed.

Lemma logs_call_data c w : logs (call_data c) (fun r l => l = [(c, r.1)]) w.
Proof using OS.
  unfold call_data, logs, runs. pose proof (ossl_calls c w) as Hc. destruct (ossl c w) as [[r d] w'] eqn:E. cbn in Hc.
  exists (r, d), w'. split; [done|]. by exists [(c, r)].
Qed.

Lemma logs_drain n w : length (errors w) < n -> logs (drain_errors n) (fun _ l => l = []) w.
Proof using OS.
  revert w. induction n as [|n IH]; intros w Hn; [lia|]. cbn [drain_errors].
  pose proof (get_error_spec w) as Hs. pose proof (get_error_calls w) as Hc.
  unfold logs, runs, st_bind. destruct (ERR_get_error w) as [code w'] eqn:E. cbn in *.
  case_decide as H0.
  - exists tt, w'. split; [done|]. exists []. by rewrite app_nil_r.
  - destruct (errors w) as [|e es]; [done|]. destruct Hs as (-> & _ & Hes).
    destruct (IH w') as (u & w'' & Hr & l & Hl & ->); [rewrite Hes; cbn in Hn; lia|].
    exists u, w''. split; [done|]. exists []. by rewrite Hl, Hc.
Qed.

Lemma logs_discard w : logs discard_openssl_errors (fun _ l => l = []) w.
Proof using OS. apply logs_drain. pose proof (errors_bounded w). lia. Qed.

Lemma logs_take_error {A} w : logs (take_openssl_error (A := A)) (fun r l => r = Err (of_errc broken) /\ l = []) w.
Proof using OS. eapply logs_bind; [apply logs_discard|]. intros _ l w' _ ->. by apply logs_ret. Qed.

Lemma logs_all_ok cs w : logs (all_ok cs) (fun b l => if b then l = (., 1%Z) <$> cs else l.*1 `prefix_of` cs) w.
Proof using OS.
  revert w. induction cs as [|c cs IH]; intros w; cbn [all_ok]; [by apply logs_ret|].
  eapply logs_bind; [apply logs_call|]. intros r l w' Hl ->. case_decide as Hr.
  - subst. eapply logs_mono; [apply IH|]. intros b l. destruct b; [by intros ->|]. intros Hp. cbn. by apply prefix_cons.
  - apply logs_ret. cbn. apply prefix_cons, prefix_nil.
Qed.

Lemma logs_check_all cs w :
  logs (check_all cs) (fun r l => match r with Ok _ => l = (., 1%Z) <$> cs | Err e => e = of_errc broken /\ l.*1 `prefix_of` cs end) w.
Proof using OS.
  eapply logs_bind; [apply logs_all_ok|]. intros b l w' _ Hb. destruct b; [apply logs_ret; by rewrite app_nil_r|].
  eapply logs_mono; [apply logs_take_error|]. intros r l2 [-> ->]. by rewrite app_nil_r.
Qed.

Lemma logs_make c w :
  logs (make c) (fun r l => match r with Ok p => p <> 0%Z /\ l = [(c, p)] | Err e => e = of_errc broken /\ l = [(c, 0%Z)] end) w.
Proof using OS.
  eapply logs_bind; [apply logs_call|]. intros r l w' _ ->. case_decide as Hr; [|by apply logs_ret].
  subst. eapply logs_mono; [apply logs_take_error|]. by intros r l2 [-> ->].
Qed.

Lemma logs_do c w : logs (do_ c) (fun r l => r = Ok tt /\ exists x, l = [(c, x)]) w.
Proof using OS. eapply logs_bind; [apply logs_call|]. intros r l w' _ ->. apply logs_ret. split; [done|by exists r]. Qed.

(** ** Programs that make only some calls *)

Definition only (p : Call -> bool) {A} (m : ST W A) : Prop := forall w, logs m (fun _ l => Forall (fun x => p x.1 = true) l) w.

Lemma only_ret p {A} (a : A) : only p (st_ret a).
Proof. intros w. by apply logs_ret. Qed.

Lemma only_bind p {A B} (m : ST W A) (k : A -> ST W B) : only p m -> (forall a, only p (k a)) -> only p (st_bind k m).
Proof.
  intros Hm Hk w. eapply logs_bind; [apply Hm|]. intros a l w' _ Hl. eapply logs_mono; [apply Hk|].
  intros b l2 Hl2. by apply Forall_app.
Qed.

Lemma only_try p {A B} (m : ST W (Result A)) (k : A -> ST W (Result B)) : only p m -> (forall a, only p (k a)) -> only p (st_try k m).
Proof. intros Hm Hk. apply only_bind; [done|]. intros [a|e]; [done|apply only_ret]. Qed.

Lemma only_call p c : p c = true -> only p (call c).
Proof using OS. intros Hp w. eapply logs_mono; [apply logs_call|]. intros r l ->. by constructor. Qed.
Lemma only_call_data p c : p c = true -> only p (call_data c).
Proof using OS. intros Hp w. eapply logs_mono; [apply logs_call_data|]. intros r l ->. by constructor. Qed.
Lemma only_do p c : p c = true -> only p (do_ c).
Proof using OS. intros Hp. apply only_bind; [by apply only_call|]. intros r. apply only_ret. Qed.
Lemma only_discard p : only p discard_openssl_errors.
Proof using OS. intros w. eapply logs_mono; [apply logs_discard|]. by intros _ l ->. Qed.
Lemma only_take_error p {A} : only p (take_openssl_error (A := A)).
Proof using OS. apply only_bind; [apply only_discard|]. intros _. apply only_ret. Qed.
Lemma only_make p c : p c = true -> only p (make c).
Proof using OS. intros Hp. apply only_bind; [by apply only_call|]. intros r. case_decide; [apply only_take_error|apply only_ret]. Qed.
Lemma only_all_ok p cs : Forall (fun c => p c = true) cs -> only p (all_ok cs).
Proof using OS.
  induction 1 as [|c cs Hc Hcs IH]; [apply only_ret|]. apply only_bind; [by apply only_call|]. intros r.
  case_decide; [done|apply only_ret].
Qed.
Lemma only_check_all p cs : Forall (fun c => p c = true) cs -> only p (check_all cs).
Proof using OS.
  intros Hp. apply only_bind; [by apply only_all_ok|]. intros [|]; [apply only_ret|apply only_take_error].
Qed.
End logs.

(** Walks through a program that makes only the calls of [p]. *)
Ltac only_step :=
  match goal with
  | |- only _ (match ?x with _ => _ end) => destruct x
  | |- only _ (if ?x then _ else _) => destruct x
  | |- only _ (st_ret _) => apply only_ret
  | |- only _ (st_ok _) => apply only_ret
  | |- only _ (st_err _) => apply only_ret
  | |- only _ (st_try _ _) => apply only_try; [|intros ?]
  | |- only _ (st_bind _ _) => apply only_bind; [|intros ?]
  | |- only _ (call _) => apply only_call; reflexivity
  | |- only _ (call_data _) => apply only_call_data; reflexivity
  | |- only _ (do_ _) => apply only_do; reflexivity
  | |- only _ (make _) => apply only_make; reflexivity
  | |- only _ (check _) => apply only_check_all; repeat constructor
  | |- only _ (check_all _) => apply only_check_all; repeat constructor
  | |- only _ (all_ok _) => apply only_all_ok; repeat constructor
  | |- only _ take_openssl_error => apply only_take_error
  | |- only _ discard_openssl_errors => apply only_discard
  end.
Ltac only_tac := repeat (only_step; cbv beta zeta).

(** ** Nothing is lost *)

Definition neutral (c : Call) : bool :=
  match c with
  | SSL_CTX_new _ | SSL_CTX_free _ | EVP_PKEY_CTX_new_id | EVP_PKEY_CTX_free _ | SSL_new _ | SSL_free _ => false
  | _ => true
  end.

Lemma balance_app k p l1 l2 : balance k p (l1 ++ l2) = (balance k p l1 + balance k p l2)%Z.
Proof. induction l1 as [|x l1 IH]; cbn; lia. Qed.

Lemma neutral_delta k p x : neutral x.1 = true -> delta k p x = 0%Z.
Proof. destruct x as [[] r], k; try done. Qed.

Lemma neutral_balance k p l : Forall (fun x : Call * Z => neutral x.1 = true) l -> balance k p l = 0%Z.
Proof. induction 1 as [|x l Hx Hl IH]; [done|]. cbn. by rewrite neutral_delta, IH. Qed.

Lemma neutral_prefix k p l cs : Forall (fun c => neutral c = true) cs -> l.*1 `prefix_of` cs -> balance k p l = 0%Z.
Proof. intros Hc [cs' ->]. apply Forall_app in Hc as [Hc _]. apply neutral_balance. by apply Forall_fmap in Hc. Qed.

Lemma neutral_ones k p cs : Forall (fun c => neutral c = true) cs -> balance k p ((., 1%Z) <$> cs) = 0%Z.
Proof. intros Hc. apply neutral_balance. by apply Forall_fmap. Qed.

Lemma made_delta k p c r : made k c = true -> delta k p (c, r) = one (bool_decide (r = p /\ p <> 0%Z)).
Proof. unfold delta. cbn. destruct k, c; try done; intros _; cbn; rewrite (bool_decide_false (None = Some p)) by done; cbn; lia. Qed.

Section release.
Context {W : Type} `{OW : OpenSSL W} {OS : OpenSSLSpec W}.

Definition balanced {A} (m : ST W A) : Prop := forall w, logs m (fun _ l => forall k p, balance k p l = 0%Z) w.

Lemma only_balanced {A} (m : ST W A) : only neutral m -> balanced m.
Proof. intros Hm w. eapply logs_mono; [apply Hm|]. intros a l Hl k p. by apply neutral_balance. Qed.

Lemma balanced_try {A B} (m : ST W (Result A)) (k : A -> ST W (Result B)) :
  balanced m -> (forall a, balanced (k a)) -> balanced (st_try k m).
Proof.
  intros Hm Hk w. eapply logs_try; [apply Hm| |done]. intros a l w' _ Hl. eapply logs_mono; [apply Hk|].
  intros b l2 Hl2 k' p. by rewrite balance_app, Hl, Hl2.
Qed.

Lemma balanced_bind {A B} (m : ST W A) (k : A -> ST W B) : balanced m -> (forall a, balanced (k a)) -> balanced (st_bind k m).
Proof.
  intros Hm Hk w. eapply logs_bind; [apply Hm|]. intros a l w' _ Hl. eapply logs_mono; [apply Hk|].
  intros b l2 Hl2 k' p. by rewrite balance_app, Hl, Hl2.
Qed.

Lemma derive_balanced secret n : balanced (derive_ticket_key secret n).
Proof using OS.
  intros w. unfold derive_ticket_key. eapply logs_try; [apply logs_make| |].
  2: { intros e l [_ ->] k p. cbn. unfold delta. destruct k; cbn; try done. case_bool_decide as Hp; [|done]. destruct Hp. by subst. }
  intros kdf l w1 _ [Hk ->].
  eapply (logs_bind _ _ (fun _ l => Forall (fun x : Call * Z => neutral x.1 = true) l)); [apply (only_all_ok neutral); repeat constructor|].
  intros ready l1 w2 _ H1.
  eapply (logs_bind _ _ (fun _ l => Forall (fun x : Call * Z => neutral x.1 = true) l)).
  { assert (only (W := W) neutral (if ready then r <-- call_data (EVP_PKEY_derive kdf n); st_ret (if decide (r.1 = 1%Z) then Some r.2 else None)
      else st_ret None)) as Ho by only_tac. apply Ho. }
  intros derived l2 w3 _ H2. eapply logs_bind; [apply logs_call|]. intros r l3 w4 _ ->.
  eapply (logs_mono _ (fun _ l => Forall (fun x : Call * Z => neutral x.1 = true) l)).
  { assert (only (W := W) neutral (match derived with
      | Some out => if decide (Z.of_nat (length out) = n) then st_ok out else take_openssl_error
      | None => take_openssl_error end)) as Ho by only_tac. apply Ho. }
  intros out l4 H4 k p. rewrite !balance_app, (neutral_balance k p l1), (neutral_balance k p l2), (neutral_balance k p l4) by done.
  cbn. unfold delta. destruct k; cbn; try done. repeat case_bool_decide; cbn; try done; naive_solver.
Qed.

Lemma session_tickets_balanced config ctx : balanced (session_tickets config ctx).
Proof using OS.
  unfold session_tickets. destruct (session_tickets_disabled config); [apply only_balanced; only_tac|].
  case_decide; [apply only_balanced; only_tac|]. case_decide; [apply only_balanced; only_tac|].
  apply balanced_bind; [apply only_balanced; only_tac|]. intros needed. case_decide; [apply only_balanced; only_tac|].
  apply balanced_try; [apply derive_balanced|]. intros key. apply only_balanced. only_tac.
Qed.

(** A context is made, or nothing is. *)
Lemma make_cert_context_log cert alpn w :
  logs (make_cert_context cert alpn) (fun r l => match r with
    | Ok ctx => ctx <> 0%Z /\ balance RCtx ctx (calls w) = 0%Z /\ (forall p, balance RCtx p l = one (bool_decide (ctx = p))) /\
        (forall p, balance RKdf p l = 0%Z) /\ (forall p, balance RSsl p l = 0%Z) /\
        Forall (fun c => (c, 1%Z) ∈ l) (SSL_CTX_set_min_proto_version ctx TLS1_2_VERSION :: certificate_calls ctx cert)
    | Err e => forall k p, balance k p l = 0%Z
    end /\ Forall (fun x => match x.1 with SSL_CTX_set_verify _ _ _ => False | _ => True end) l) w.
Proof using OS.
  unfold make_cert_context.
  assert (logs (make (SSL_CTX_new false)) (fun r l => match r with
    | Ok p => p <> 0%Z /\ balance RCtx p (calls w) = 0%Z /\ l = [(SSL_CTX_new false, p)]
    | Err e => e = of_errc broken /\ l = [(SSL_CTX_new false, 0%Z)] end) w) as Hnew.
  { pose proof (new_fresh false w) as Hf. destruct (logs_make (SSL_CTX_new false) w) as (r & w' & Hr & l & Hl & HP).
    exists r, w'. split; [done|]. exists l. split; [done|]. destruct r as [p|e]; [|done]. destruct HP as [Hp ->]. split_and!; [done| |done].
    pose proof (ossl_calls (SSL_CTX_new false) w) as Hc.
    unfold make, st_bind, call in Hr. destruct (ossl _ w) as [[r d] w1] eqn:E. cbn in *.
    case_decide; [unfold take_openssl_error, st_bind in Hr; destruct (discard_openssl_errors w1) as [[]|]; done|]. injection Hr as <- <-.
    by apply Hf, Hp. }
  eapply logs_try; [exact Hnew| |].
  2: { intros e l [_ ->]. split; [|by constructor]. intros k p. cbn. unfold delta. destruct k; cbn; try done.
    case_bool_decide as Hp; [|done]. destruct Hp. by subst. }
  intros ctx l1 w1 _ (Hctx & Hfresh & ->).
  assert (forall p, delta RCtx p (SSL_CTX_new false, ctx) = one (bool_decide (ctx = p))) as Hd.
  { intros p. rewrite made_delta by done. do 2 case_bool_decide; naive_solver. }
  eapply logs_bind; [apply logs_all_ok|]. intros loaded l2 w2 _ H2. set (cs := _ :: certificate_calls ctx cert) in *.
  assert (Forall (fun c => neutral c = true) cs) as Hn by repeat constructor.
  assert (Forall (fun c => match c with SSL_CTX_set_verify _ _ _ => False | _ => True end) cs) as Hv by repeat constructor.
  destruct loaded.
  - subst l2. eapply (logs_mono _ (fun r l => r = Ok ctx /\ Forall (fun x : Call * Z => neutral x.1 = true) l /\
        Forall (fun x : Call * Z => match x.1 with SSL_CTX_set_verify _ _ _ => False | _ => True end) l)).
    { case_decide; unfold do_, st_try.
      - eapply logs_bind; [by apply (logs_ret _ (fun r l => r = Ok tt /\ l = []))|]. intros r l w3 _ [-> ->]. by apply logs_ret.
      - eapply logs_bind; [apply logs_do|]. intros r l w3 _ [-> [x ->]]. apply logs_ret. split; [done|]. by repeat constructor. }
    intros r l3 (-> & H3 & H3v). split.
    + split_and!; try done.
      * intros p. rewrite !balance_app, neutral_ones by done. cbn. rewrite Hd, (neutral_balance _ _ l3) by done. lia.
      * intros p. rewrite !balance_app, neutral_ones by done. cbn. by rewrite (neutral_balance _ _ l3).
      * intros p. rewrite !balance_app, neutral_ones by done. cbn. by rewrite (neutral_balance _ _ l3).
      * apply Forall_forall. intros c Hc. apply elem_of_cons. right. apply elem_of_app. left. apply list_elem_of_fmap. by exists c.
    + constructor; [done|]. apply Forall_app. split; [by apply Forall_fmap|done].
  - eapply logs_bind; [apply logs_call|]. intros r l3 w3 _ ->.
    eapply logs_mono; [apply logs_take_error|]. intros r' l4 [-> ->]. rewrite app_nil_r. split.
    + intros k p. rewrite !balance_app, (neutral_prefix _ _ l2 _ Hn H2). cbn. unfold delta. destruct k; cbn; try done.
      repeat case_bool_decide; cbn; try done; naive_solver.
    + constructor; [done|]. apply Forall_app. split; [|by repeat constructor]. destruct H2 as [cs' Hcs]. rewrite Hcs in Hv.
      apply Forall_app in Hv as [Hv _]. by apply Forall_fmap in Hv.
Qed.
End release.

(** ** What a compiled context has *)

(** The verification settings a log makes, in order. *)
Definition verify_of (x : Call * Z) : option (Ptr * Z * bool) :=
  match x.1 with SSL_CTX_set_verify ctx mode any => Some (ctx, mode, any) | _ => None end.
Definition verify_modes (l : list (Call * Z)) : list (Ptr * Z * bool) := omap verify_of l.

Definition no_verify (c : Call) : bool := match c with SSL_CTX_set_verify _ _ _ => false | _ => true end.

Lemma verify_modes_app l1 l2 : verify_modes (l1 ++ l2) = verify_modes l1 ++ verify_modes l2.
Proof. apply omap_app. Qed.

Lemma no_verify_modes l : Forall (fun x : Call * Z => no_verify x.1 = true) l -> verify_modes l = [].
Proof.
  induction 1 as [|[c r] l Hx Hl IH]; [done|]. unfold verify_modes in *. cbn. destruct c; done.
Qed.

(** A call was made and gave 1. *)
Definition succeeded (l : list (Call * Z)) (c : Call) : Prop := (c, 1%Z) ∈ l.

Lemma succeeded_l l1 l2 c : succeeded l1 c -> succeeded (l1 ++ l2) c.
Proof. intros Hc. apply elem_of_app. by left. Qed.
Lemma succeeded_r l1 l2 c : succeeded l2 c -> succeeded (l1 ++ l2) c.
Proof. intros Hc. apply elem_of_app. by right. Qed.
Lemma succeeded_ones cs c : c ∈ cs -> succeeded ((., 1%Z) <$> cs) c.
Proof. intros Hc. apply list_elem_of_fmap. by exists c. Qed.

(** TLS 1.2 at least, and the certificate with its key. *)
Definition loaded (l : list (Call * Z)) (ctx : Ptr) (cert : Certificate) : Prop :=
  Forall (succeeded l) (SSL_CTX_set_min_proto_version ctx TLS1_2_VERSION :: certificate_calls ctx cert).

Definition roots (ctx : Ptr) (file : bytes) : Call :=
  if decide (file = []) then SSL_CTX_set_default_verify_paths ctx else SSL_CTX_load_verify_locations ctx file.

Definition client_facts (config : Config) (s : SharedContext) (l : list (Call * Z)) : Prop :=
  succeeded l (SSL_CTX_set_min_proto_version (context s) TLS1_2_VERSION) /\
  (if verify_peer config then
     verify_modes l = [(context s, SSL_VERIFY_PEER, false)] /\ succeeded l (roots (context s) (ca_file config))
   else verify_modes l = [(context s, SSL_VERIFY_NONE, false)]).

Definition server_certificates (config : Config) : list Certificate :=
  match certificates config with [] => [certificate config] | l => l end.

(** What each way to ask for client certificates has to set in OpenSSL: nothing;
    to ask (1); to fail without one (2); and whether the verdict on the certificate
    is overridden. [request] is set as [verify_if_given] is, with OpenSSL's verdict
    left alone, whatever its documentation says. *)
Definition client_auth_settings (auth : ClientAuth) : option (Z * bool) :=
  match auth with
  | none => None
  | request => Some (1%Z, false)
  | require_any => Some (3%Z, true)
  | verify_if_given => Some (1%Z, false)
  | require_and_verify => Some (3%Z, false)
  end.

Definition server_facts (config : Config) (s : SharedContext) (l : list (Call * Z)) : Prop :=
  head (sni_contexts s) = Some (context s) /\
  Forall2 (loaded l) (sni_contexts s) (server_certificates config) /\
  match client_auth_settings (client_auth config) with
  | None => verify_modes l = []
  | Some (mode, any) => verify_modes l = [(context s, mode, any)] /\ succeeded l (roots (context s) (client_ca_file config))
  end /\
  (session_tickets_disabled config = true \/ session_ticket_key config = [] \/ 32 <= length (session_ticket_key config)).

(** What a shared context owns. *)
Fixpoint copies (l : list Ptr) (p : Ptr) : Z :=
  match l with [] => 0 | q :: l => one (bool_decide (q = p)) + copies l p end.
Definition owned_by (s : SharedContext) (p : Ptr) : Z :=
  one (bool_decide (context s = p /\ p <> 0%Z)) + copies (filter (fun q => q <> context s) (sni_contexts s)) p.

Lemma copies_app l1 l2 p : copies (l1 ++ l2) p = (copies l1 p + copies l2 p)%Z.
Proof. induction l1 as [|q l1 IH]; cbn; lia. Qed.

Section build.
Context {W : Type} `{OW : OpenSSL W} {OS : OpenSSLSpec W}.

(** Logs of a program over the context that is built. *)
Definition plogs {A} (m : ST (SharedContext * W) A) (Q : A -> list (Call * Z) -> SharedContext -> Prop) (s : SharedContext) (w : W) : Prop :=
  runs m (fun a st => exists l, calls st.2 = calls w ++ l /\ Q a l st.1) (s, w).

Lemma plogs_ret {A} (a : A) (Q : A -> list (Call * Z) -> SharedContext -> Prop) s w : Q a [] s -> plogs (st_ret a) Q s w.
Proof. intros HQ. apply runs_ret. exists []. by rewrite app_nil_r. Qed.

Lemma plogs_mono {A} (m : ST (SharedContext * W) A) (Q Q' : A -> list (Call * Z) -> SharedContext -> Prop) s w :
  plogs m Q s w -> (forall a l s', Q a l s' -> Q' a l s') -> plogs m Q' s w.
Proof. intros Hm HQ. eapply runs_mono; [exact Hm|]. intros a st (l & Hl & Ha). exists l. auto. Qed.

Lemma plogs_bind {A B} (m : ST (SharedContext * W) A) (k : A -> ST (SharedContext * W) B) (P : A -> list (Call * Z) -> SharedContext -> Prop)
    (Q : B -> list (Call * Z) -> SharedContext -> Prop) s w :
  plogs m P s w ->
  (forall a l s' w', calls w' = calls w ++ l -> P a l s' -> plogs (k a) (fun b l2 => Q b (l ++ l2)) s' w') ->
  plogs (st_bind k m) Q s w.
Proof.
  intros Hm Hk. apply runs_bind. eapply runs_mono; [exact Hm|]. intros a [s' w'] (l & Hl & Ha). cbn in *.
  eapply runs_mono; [by apply Hk|]. intros b st (l2 & Hl2 & Hb). exists (l ++ l2). by rewrite Hl2, Hl, app_assoc.
Qed.

Lemma plogs_try {A B} (m : ST (SharedContext * W) (Result A)) (k : A -> ST (SharedContext * W) (Result B))
    (P : Result A -> list (Call * Z) -> SharedContext -> Prop) (Q : Result B -> list (Call * Z) -> SharedContext -> Prop) s w :
  plogs m P s w ->
  (forall a l s' w', calls w' = calls w ++ l -> P (Ok a) l s' -> plogs (k a) (fun b l2 => Q b (l ++ l2)) s' w') ->
  (forall e l s', P (Err e) l s' -> Q (Err e) l s') ->
  plogs (st_try k m) Q s w.
Proof.
  intros Hm Hk He. eapply plogs_bind; [exact Hm|]. intros [a|e] l s' w' Hl HP; [by eapply Hk|].
  apply plogs_ret. rewrite app_nil_r. by apply He.
Qed.

Lemma plogs_snd {A} (m : ST W A) (P : A -> list (Call * Z) -> Prop) s w : logs m P w -> plogs (st_snd m) (fun a l s' => s' = s /\ P a l) s w.
Proof. intros Hm. apply runs_snd. eapply runs_mono; [exact Hm|]. intros a w' (l & Hl & HP). by exists l. Qed.

Lemma plogs_upd (f : SharedContext -> SharedContext) s w : plogs (upd_shared f) (fun r l s' => r = Ok tt /\ l = [] /\ s' = f s) s w.
Proof. exists (Ok tt), (f s, w). split; [done|]. exists []. by rewrite app_nil_r. Qed.

(** The additional contexts are new, each with its certificate. *)
Lemma sni_loop_log certs alpn s w : balance RCtx (context s) (calls w) = 1%Z ->
  plogs (sni_loop certs alpn) (fun r l s' => exists new, s' = mkShared (context s) (sni_contexts s ++ new) (alpn_wire s) /\
    Forall (fun q => q <> context s) new /\ (forall p, balance RCtx p l = copies new p) /\
    (forall p, balance RKdf p l = 0%Z) /\ (forall p, balance RSsl p l = 0%Z) /\ verify_modes l = [] /\
    (r = Ok tt -> Forall2 (loaded l) new certs)) s w.
Proof using OS.
  revert s w. induction certs as [|cert certs IH]; intros s w Hlive; cbn [sni_loop].
  { apply plogs_ret. exists []. rewrite app_nil_r. destruct s; split_and!; try done; constructor. }
  assert (forall l : list (Call * Z), Forall (fun x => match x.1 with SSL_CTX_set_verify _ _ _ => False | _ => True end) l -> verify_modes l = []) as Hnv.
  { intros l Hl. apply no_verify_modes. eapply Forall_impl; [exact Hl|]. intros [[] r]; done. }
  eapply plogs_try; [apply plogs_snd, make_cert_context_log| |].
  2: { intros e l s' (-> & Hb & Hv). exists []. rewrite app_nil_r. destruct s; split_and!; try done; by apply Hnv. }
  intros ctx l s' w1 Hl1 (-> & (H0 & Hfresh & Hb & Hk & Hs & Hload) & Hv).
  eapply plogs_try; [apply plogs_upd| |by intros ??? [? _]]. intros _ l' s' w2 Hl2 (_ & -> & ->). rewrite app_nil_r in Hl2.
  assert (ctx <> context s) as Hne by (intros ->; lia).
  eapply plogs_mono; [apply IH|].
  - cbn. rewrite Hl2, Hl1, balance_app, Hlive, Hb, bool_decide_false by done. done.
  - intros r l2 s' (new & -> & Hn & Hb2 & Hk2 & Hs2 & Hv2 & Hf). exists (ctx :: new). cbn [context push_sni sni_contexts alpn_wire app] in *.
    split_and!.
    + by rewrite <-app_assoc.
    + by constructor.
    + intros p. by rewrite balance_app, Hb, Hb2.
    + intros p. by rewrite balance_app, Hk, Hk2.
    + intros p. by rewrite balance_app, Hs, Hs2.
    + by rewrite verify_modes_app, (Hnv l), Hv2.
    + intros Hr. constructor.
      * eapply Forall_impl; [exact Hload|]. intros c Hc. by apply succeeded_l.
      * eapply Forall2_impl; [by apply Hf|]. intros q c Hq. eapply Forall_impl; [exact Hq|]. intros c' Hc'. by apply succeeded_r.
Qed.

Lemma logs_conj {A} (m : ST W A) (P Q : A -> list (Call * Z) -> Prop) w :
  logs m P w -> logs m Q w -> logs m (fun a l => P a l /\ Q a l) w.
Proof.
  intros (a & w' & Hm & l & Hl & HP) (a2 & w2 & Hm2 & l2 & Hl2 & HQ). rewrite Hm in Hm2. injection Hm2 as <- <-.
  exists a, w'. split; [done|]. exists l. split; [done|]. split; [done|]. rewrite Hl in Hl2. apply app_inv_head in Hl2. by subst.
Qed.

(** The steps on one context neither make nor free anything but a key
    derivation, which they free; [verify] is what they set. *)
Definition settles {A} (m : ST W (Result A)) (verify : list (Ptr * Z * bool)) (facts : list (Call * Z) -> Prop) : Prop := forall w,
  logs m (fun r l => (forall k p, balance k p l = 0%Z) /\ (has_value r = true -> verify_modes l = verify /\ facts l)) w.

Lemma settles_plain {A} (m : ST W (Result A)) : only neutral m -> only no_verify m -> settles m [] (fun _ => True).
Proof using OS.
  intros Hn Hv w. eapply logs_mono; [apply logs_conj; [apply Hn|apply Hv]|]. intros r l [H1 H2]. split.
  - intros k p. by apply neutral_balance.
  - intros _. split; [by apply no_verify_modes|done].
Qed.

Lemma settles_check c : neutral c = true -> no_verify c = true -> settles (check c) [] (fun l => succeeded l c).
Proof using OS.
  intros Hn Hv w. eapply logs_mono; [apply logs_check_all|]. intros [u|e] l H.
  - subst. split; [intros k p; apply neutral_ones; by constructor|]. intros _. split; [|by apply succeeded_ones, list_elem_of_here].
    apply no_verify_modes. by repeat constructor.
  - destruct H as [_ H]. split; [|done]. intros k p. eapply neutral_prefix; [|done]. by constructor.
Qed.

Lemma settles_check_all cs : Forall (fun c => neutral c = true) cs -> Forall (fun c => no_verify c = true) cs ->
  settles (check_all cs) [] (fun l => Forall (succeeded l) cs).
Proof using OS.
  intros Hn Hv w. eapply logs_mono; [apply logs_check_all|]. intros [u|e] l H.
  - subst. split; [intros k p; by apply neutral_ones|]. intros _. split; [by apply no_verify_modes, Forall_fmap|].
    apply Forall_forall. intros c. apply succeeded_ones.
  - destruct H as [_ H]. split; [|done]. intros k p. by eapply neutral_prefix.
Qed.

Lemma settles_verify ctx mode any : settles (do_ (SSL_CTX_set_verify ctx mode any)) [(ctx, mode, any)] (fun _ => True).
Proof using OS.
  intros w. eapply logs_mono; [apply logs_do|]. intros r l [-> [x ->]]. split; [|done].
  intros k p. apply neutral_balance. by repeat constructor.
Qed.

Lemma settles_try {A B} (m : ST W (Result A)) (k : A -> ST W (Result B)) v1 v2 (f1 f2 f : list (Call * Z) -> Prop) :
  settles m v1 f1 -> (forall a, settles (k a) v2 f2) -> (forall l1 l2, f1 l1 -> f2 l2 -> f (l1 ++ l2)) ->
  settles (st_try k m) (v1 ++ v2) f.
Proof.
  intros Hm Hk Hf w. eapply logs_try; [apply Hm| |by intros e l [Hl _]]. intros a l w' _ [Hb Hv]. destruct (Hv eq_refl) as [Hv1 Hf1].
  eapply logs_mono; [apply Hk|]. intros b l2 [Hb2 Hv2]. split; [intros k' p; by rewrite balance_app, Hb, Hb2|].
  intros Hr. destruct (Hv2 Hr) as [Hv2' Hf2]. split; [by rewrite verify_modes_app, Hv1, Hv2'|by apply Hf].
Qed.

(** Only the later facts matter, or only the earlier ones. *)
Lemma settles_try_l {A B} (m : ST W (Result A)) (k : A -> ST W (Result B)) v f :
  settles m v f -> (forall a, settles (k a) [] (fun _ => True)) -> (forall l1 l2, f l1 -> f (l1 ++ l2)) -> settles (st_try k m) v f.
Proof. intros Hm Hk Hf. rewrite <-(app_nil_r v). eapply settles_try; [exact Hm|exact Hk|]. auto. Qed.

Lemma settles_try_r {A B} (m : ST W (Result A)) (k : A -> ST W (Result B)) f0 v f :
  settles m [] f0 -> (forall a, settles (k a) v f) -> (forall l1 l2, f l2 -> f (l1 ++ l2)) -> settles (st_try k m) v f.
Proof. intros Hm Hk Hf. change v with ([] ++ v). eapply settles_try; [exact Hm|exact Hk|]. auto. Qed.

Lemma settles_roots ctx file : settles (load_roots ctx file) [] (fun l => succeeded l (roots ctx file)).
Proof using OS. unfold load_roots, roots. case_decide; by apply settles_check. Qed.

Lemma settles_client config ctx : settles (build_client config ctx)
  [(ctx, if verify_peer config then SSL_VERIFY_PEER else SSL_VERIFY_NONE, false)]
  (fun l => verify_peer config = true -> succeeded l (roots ctx (ca_file config))).
Proof using OS.
  unfold build_client. apply settles_try_l.
  - destruct (verify_peer config).
    + change [(ctx, SSL_VERIFY_PEER, false)] with ([(ctx, SSL_VERIFY_PEER, false)] ++ []).
      eapply settles_try; [apply settles_verify|intros _; apply settles_roots|]. intros l1 l2 _ Hr _. by apply succeeded_r.
    + intros w. eapply logs_mono; [apply settles_verify|]. intros r l [Hb Hv]. split; [done|]. intros Hr. destruct (Hv Hr). by split.
  - intros _. apply settles_plain; only_tac.
  - intros l1 l2 Hl Hp. by apply succeeded_l, Hl.
Qed.

Lemma settles_client_certificates config ctx : settles (client_certificates config ctx)
  (if decide (client_auth config = none) then []
   else [(ctx, verify_mode_for (client_auth config), bool_decide (client_auth config = require_any))])
  (fun l => client_auth config <> none -> succeeded l (roots ctx (client_ca_file config))).
Proof using OS.
  unfold client_certificates. case_decide as Hn.
  { intros w. eapply logs_mono; [apply (settles_plain (st_ok tt)); only_tac|]. intros r l [Hb Hv]. split; [done|].
    intros Hr. destruct (Hv Hr) as [-> _]. by split. }
  rewrite <-(app_nil_r [_]). eapply settles_try; [apply settles_verify| |intros l1 l2 _ Hr _; by apply succeeded_r, Hr].
  intros _. cbv beta. unfold roots. case_decide.
  - intros w. eapply logs_mono; [by apply (settles_check (SSL_CTX_set_default_verify_paths ctx))|]. intros r l [Hb Hv]. split; [done|].
    intros Hr. by destruct (Hv Hr).
  - apply settles_try_l; [|intros _; apply settles_plain; only_tac|].
    + intros w. eapply logs_mono; [by apply (settles_check (SSL_CTX_load_verify_locations ctx (client_ca_file config)))|].
      intros r l [Hb Hv]. split; [done|]. intros Hr. by destruct (Hv Hr).
    + intros l1 l2. apply succeeded_l.
Qed.

Lemma settles_tickets config ctx : settles (session_tickets config ctx) []
  (fun _ => session_tickets_disabled config = true \/ session_ticket_key config = [] \/ 32 <= length (session_ticket_key config)).
Proof using OS.
  intros w. pose proof (session_tickets_balanced config ctx w) as Hb.
  assert (logs (session_tickets config ctx) (fun r l => has_value r = true -> verify_modes l = [] /\
    (session_tickets_disabled config = true \/ session_ticket_key config = [] \/ 32 <= length (session_ticket_key config))) w) as Hf.
  2: { eapply logs_mono; [apply logs_conj; [apply Hb|apply Hf]|]. intros r l [H1 H2]. by split. }
  assert (only no_verify (session_tickets config ctx)) as Hv by (unfold session_tickets, derive_ticket_key; only_tac).
  unfold session_tickets in *. destruct (session_tickets_disabled config).
  { eapply logs_mono; [apply Hv|]. intros r l Hl _. split; [by apply no_verify_modes|by left]. }
  case_decide; [eapply logs_mono; [apply Hv|]; intros r l Hl _; split; [by apply no_verify_modes|by right; left]|].
  case_decide as Hlen; [by apply logs_ret|].
  eapply logs_mono; [apply Hv|]. intros r l Hl _. split; [by apply no_verify_modes|right; right; lia].
Qed.

Lemma sni_filter ctx new : Forall (fun q : Ptr => q <> ctx) new -> filter (fun q => q <> ctx) new = new.
Proof. induction 1 as [|q new Hq Hn IH]; [done|]. rewrite filter_cons_True by done. by rewrite IH. Qed.

(** The contexts a server has when it stops at [r]. *)
Definition server_state (config : Config) (ctx : Ptr) (s : SharedContext) (r : Result unit) (l : list (Call * Z)) (s' : SharedContext) : Prop :=
  exists new, context s' = context s /\ alpn_wire s' = alpn_wire s /\
    (sni_contexts s' = [] /\ new = [] \/ sni_contexts s' = ctx :: new) /\ Forall (fun q => q <> ctx) new /\
    (forall p, balance RCtx p l = copies new p) /\ (forall p, balance RKdf p l = 0%Z) /\ (forall p, balance RSsl p l = 0%Z) /\
    (has_value r = true -> exists first rest, server_certificates config = first :: rest /\ sni_contexts s' = ctx :: new /\
       Forall (succeeded l) (certificate_calls ctx first) /\ Forall2 (loaded l) new rest /\
       (if decide (client_auth config = none) then verify_modes l = []
        else verify_modes l = [(ctx, verify_mode_for (client_auth config), bool_decide (client_auth config = require_any))] /\
          succeeded l (roots ctx (client_ca_file config))) /\
       (session_tickets_disabled config = true \/ session_ticket_key config = [] \/ 32 <= length (session_ticket_key config))).

(** The last steps of a server. *)
Lemma settles_server_tail config ctx (alpn : bytes) (rest : list Certificate) :
  settles ((if decide (rest = []) then st_ok tt
     else do_ (SSL_CTX_set_tlsext_servername_callback ctx);;? do_ (SSL_CTX_set_tlsext_servername_arg ctx));;?
    (if decide (alpn = []) then st_ok tt else do_ (SSL_CTX_set_alpn_select_cb ctx));;?
    client_certificates config ctx;;?
    session_tickets config ctx)
  (if decide (client_auth config = none) then []
   else [(ctx, verify_mode_for (client_auth config), bool_decide (client_auth config = require_any))])
  (fun l => (client_auth config <> none -> succeeded l (roots ctx (client_ca_file config))) /\
     (session_tickets_disabled config = true \/ session_ticket_key config = [] \/ 32 <= length (session_ticket_key config))).
Proof using OS.
  eapply settles_try_r; [apply settles_plain; only_tac|intros _|].
  2: { intros l1 l2 [H1 H2]. split; [|done]. intros Hn. by apply succeeded_r, H1. }
  eapply settles_try_r; [apply settles_plain; only_tac|intros _|].
  2: { intros l1 l2 [H1 H2]. split; [|done]. intros Hn. by apply succeeded_r, H1. }
  match goal with |- settles _ ?v _ => rewrite <-(app_nil_r v) end.
  eapply settles_try; [apply settles_client_certificates|intros _; apply settles_tickets|]. cbv beta.
  intros l1 l2 H1 H2. split; [|done]. intros Hn. by apply succeeded_l, H1.
Qed.

Lemma build_server_log config ctx alpn s w : context s = ctx -> sni_contexts s = [] -> balance RCtx ctx (calls w) = 1%Z ->
  plogs (build_server config ctx alpn) (server_state config ctx s) s w.
Proof using OS.
  intros Hc Hsni Hlive. unfold build_server.
  set (pick := match certificates config with [] => _ | _ => _ end).
  assert (plogs pick (fun r l s' => l = [] /\ s' = s /\ match r with Ok (first, rest) => server_certificates config = first :: rest | Err _ => True end) s w) as Hpick.
  { unfold pick, server_certificates. destruct (certificates config); [case_decide|]; by apply plogs_ret. }
  eapply plogs_try; [exact Hpick| |].
  2: { intros e l s' (-> & -> & _). exists []. split_and!; try done. by left. }
  clear pick Hpick. intros [first rest] l s' w0 Hl (-> & -> & Hcerts). cbn [fst snd]. rewrite app_nil_r in Hl. cbn [app].
  assert (Forall (fun c => neutral c = true) (certificate_calls ctx first)) as Hn by repeat constructor.
  assert (Forall (fun c => no_verify c = true) (certificate_calls ctx first)) as Hnv by repeat constructor.
  eapply plogs_try; [apply plogs_snd, (settles_check_all _ Hn Hnv)| |].
  2: { intros e l s' (-> & Hb & _). exists []. split_and!; try done; try (by left); intros p; by rewrite Hb. }
  intros [] l1 s' w1 Hl1 (-> & Hb1 & H1). destruct (H1 eq_refl) as [Hv1 Hcert].
  eapply plogs_try; [apply plogs_upd| |by intros ??? [? _]]. intros [] l' s' w2 Hl2 (_ & -> & ->). rewrite app_nil_r in Hl2.
  eapply plogs_try; [apply sni_loop_log| |].
  { cbn. rewrite Hc, Hl2, Hl1, Hl, balance_app, Hlive, Hb1. lia. }
  2: { intros e l s' (new & -> & Hne & Hbal & Hk & Hs & Hv & _). exists new. cbn in Hne |- *. rewrite Hsni, Hc in *. split_and!; try done; try (by right);
    try (intros p; by rewrite balance_app, Hb1, ?Hbal, ?Hk, ?Hs).
  }
  intros [] l2 s' w3 Hl3 (new & -> & Hne & Hbal & Hk & Hs & Hv & Hload). specialize (Hload eq_refl). cbn in Hne. rewrite Hc in Hne.
  eapply plogs_mono; [apply plogs_snd, settles_server_tail|]. intros r l3 s' (-> & Hb3 & H3). exists new. cbn. rewrite Hsni. rewrite Hc. cbn.
  split_and!; try done; try (intros p; rewrite !balance_app, Hb1, Hb3, ?Hbal, ?Hk, ?Hs; lia).
  - by right.
  - intros Hr. destruct (H3 Hr) as (Hv3 & Hr3 & Ht3). exists first, rest. split_and!; try done.
    + eapply Forall_impl; [exact Hcert|]. intros c Hc'. by apply succeeded_l.
    + eapply Forall2_impl; [exact Hload|]. intros q c Hq. eapply Forall_impl; [exact Hq|]. intros c' Hc'. by apply succeeded_r, succeeded_l.
    + rewrite !verify_modes_app, Hv1, Hv, Hv3. cbn. case_decide as Hnone; [done|]. split; [done|]. by apply succeeded_r, succeeded_r, Hr3.
Qed.

(** The half-built context owns what was made. *)
Definition built (config : Config) (client : bool) (r : Result unit) (l : list (Call * Z)) (s : SharedContext) : Prop :=
  (forall p, balance RCtx p l = owned_by s p) /\ (forall p, balance RKdf p l = 0%Z) /\ (forall p, balance RSsl p l = 0%Z) /\
  (has_value r = true -> context s <> 0%Z /\ (if client then client_facts config s l else server_facts config s l)).

Lemma settles_start ctx : settles (check (SSL_CTX_set_min_proto_version ctx TLS1_2_VERSION)) []
  (fun l => succeeded l (SSL_CTX_set_min_proto_version ctx TLS1_2_VERSION)).
Proof using OS. by apply settles_check. Qed.

Lemma build_body_log config client w : plogs (build_body config client) (built config client) no_shared w.
Proof using OS.
  unfold build_body. destruct (build_alpn_wire (next_protos config)) as [wire|e].
  2: { apply plogs_ret. split_and!; try done. intros p. unfold owned_by. cbn. rewrite bool_decide_false; [done|]. by intros [<- ?]. }
  eapply plogs_try; [apply plogs_upd| |by intros ??? [? _]]. intros [] l0 s0 w0 Hl0 (_ & -> & ->). rewrite app_nil_r in Hl0. cbn [app].
  assert (logs (call (SSL_CTX_new client)) (fun r l => l = [(SSL_CTX_new client, r)] /\ (r <> 0%Z -> balance RCtx r (calls w0) = 0%Z)) w0) as Hnew.
  { pose proof (new_fresh client w0) as Hf. destruct (logs_call (SSL_CTX_new client) w0) as (r & w' & Hr & l & Hl & ->).
    exists r, w'. split; [done|]. exists [(SSL_CTX_new client, r)]. split; [done|]. split; [done|].
    unfold call in Hr. destruct (ossl _ w0) as [[r' d] w1]. injection Hr as -> <-. done. }
  eapply plogs_bind; [apply plogs_snd, Hnew|]. intros ctx l1 s1 w1 Hl1 (-> & -> & Hfresh).
  eapply plogs_try; [apply plogs_upd| |by intros ??? [? _]]. intros [] l2 s2 w2 Hl2 (_ & -> & ->). rewrite app_nil_r in Hl2. cbn [app context sni_contexts alpn_wire no_shared].
  set (s := mkShared ctx [] wire).
  assert (forall p, delta RCtx p (SSL_CTX_new client, ctx) = owned_by s p) as Hdelta by (intros p; rewrite made_delta by done; symmetry; apply Z.add_0_r).
  assert (forall r, has_value r = false -> forall l, (forall k p, balance k p l = 0%Z) -> built config client r ((SSL_CTX_new client, ctx) :: l) s) as Hfail.
  { intros r Hr l Hl. split_and!; [| | |by rewrite Hr]; intros p; cbn [balance]; rewrite Hl; [rewrite Hdelta; lia|done|done]. }
  eapply (plogs_try _ _ (fun r l s' => s' = s /\ l = [] /\ (has_value r = true -> ctx <> 0%Z))); [| |by intros e l s' (-> & -> & _); apply Hfail].
  { eapply plogs_mono; [eapply plogs_snd, (logs_mono _ (fun r l => l = [] /\ (has_value r = true -> ctx <> 0%Z)))|].
    - case_decide; [eapply logs_mono; [apply logs_take_error|]; by intros r l [-> ->]|by apply logs_ret].
    - intros r l H; exact H.
    - by intros r l s' (-> & -> & H). }
  intros [] l3 s3 w3 Hl3 (-> & -> & Hctx). specialize (Hctx eq_refl). rewrite app_nil_r in Hl3. cbn [app].
  eapply plogs_try; [apply plogs_snd, settles_start| |by intros e l s' (-> & Hb & _); apply Hfail].
  intros [] l4 s4 w4 Hl4 (-> & Hb4 & H4). destruct (H4 eq_refl) as [Hv4 Hmin]. destruct client.
  - eapply plogs_mono; [apply plogs_snd, settles_client|]. intros r l5 s' (-> & Hb5 & H5). split_and!.
    + intros p. cbn [balance]. rewrite Hdelta, balance_app, Hb4, Hb5. lia.
    + intros p. cbn [balance]. rewrite balance_app, Hb4, Hb5. done.
    + intros p. cbn [balance]. rewrite balance_app, Hb4, Hb5. done.
    + intros Hr. destruct (H5 Hr) as [Hv5 Hr5]. split; [done|]. split; [by apply elem_of_cons; right; apply succeeded_l|].
      change (?x :: ?y) with ([x] ++ y). rewrite !verify_modes_app, Hv4, Hv5. cbn. destruct (verify_peer config); [|done].
      split; [done|]. apply elem_of_cons. right. by apply succeeded_r, Hr5.
  - eapply plogs_mono; [apply build_server_log; [done|done|]|].
    { rewrite Hl4, Hl3, Hl2, Hl1, !balance_app, (Hfresh Hctx), Hb4. cbn [balance]. rewrite made_delta, bool_decide_true by done. done. }
    intros r l5 s' (new & Hcs & Hal & Hsn & Hne & Hb5 & Hk5 & Hs5 & H5). cbn in Hcs.
    assert (forall p, owned_by s' p = owned_by s p + copies new p)%Z as Hown.
    { intros p. unfold owned_by. rewrite Hcs. cbn [context s sni_contexts]. change (copies (filter _ []) p) with 0%Z. destruct Hsn as [[-> ->]| ->].
      - change (copies (filter _ []) p) with 0%Z. cbn. lia.
      - rewrite (filter_cons_False _ ctx) by (intros H; by apply H). rewrite sni_filter by done. lia. }
    split_and!.
    + intros p. cbn [balance]. rewrite Hown, Hdelta, balance_app, Hb4, Hb5. lia.
    + intros p. cbn [balance]. rewrite balance_app, Hb4, Hk5. done.
    + intros p. cbn [balance]. rewrite balance_app, Hb4, Hs5. done.
    + intros Hr. destruct (H5 Hr) as (first & rest & Hcerts & Hsni & Hfirst & Hrest & Hv5 & Ht5). rewrite Hcs. split; [done|]. unfold server_facts.
      rewrite Hsni, Hcerts, Hcs. split_and!; [done| | |done].
      * constructor.
        -- constructor; [by apply elem_of_cons; right; apply succeeded_l|]. eapply Forall_impl; [exact Hfirst|].
           intros c Hc. apply elem_of_cons. right. by apply succeeded_r.
        -- eapply Forall2_impl; [exact Hrest|]. intros q c Hq. eapply Forall_impl; [exact Hq|]. intros c' Hc'.
           apply elem_of_cons. right. by apply succeeded_r.
      * change (?x :: ?y) with ([x] ++ y). rewrite !verify_modes_app, Hv4. cbn.
        destruct (client_auth config); cbn in Hv5 |- *; [done|destruct Hv5 as [-> Hr5]; (split; [done|]);
          apply elem_of_cons; right; by apply succeeded_r..].
Qed.

(** The destructor frees exactly what is owned. *)
Lemma free_sni_log ctx l w : logs (free_sni ctx l) (fun _ lg => (forall p, balance RCtx p lg = - copies (filter (fun q => q <> ctx) l) p)%Z /\
  (forall p, balance RKdf p lg = 0%Z) /\ (forall p, balance RSsl p lg = 0%Z)) w.
Proof using OS.
  revert w. induction l as [|q l IH]; intros w; cbn [free_sni]; [by apply logs_ret|]. case_decide as Hq.
  - eapply logs_bind; [by apply (logs_ret _ (fun _ l => l = []))|]. intros [] l1 w1 _ ->. eapply logs_mono; [apply IH|]. intros [] lg.
    rewrite filter_cons_False by (intros H; by apply H). done.
  - eapply (logs_bind _ _ (fun _ l => exists x, l = [(SSL_CTX_free q, x)])).
    { eapply logs_bind; [apply logs_call|]. intros r l1 w1 _ ->. apply logs_ret. by exists r. }
    intros [] l1 w1 _ [x ->]. eapply logs_mono; [apply IH|]. intros [] lg (H1 & H2 & H3). rewrite filter_cons_True by done. cbn [copies].
    split_and!; intros p; cbn [balance app]; rewrite ?H1, ?H2, ?H3; unfold delta; cbn; [|done|done].
    rewrite (bool_decide_ext (Some q = Some p) (q = p)) by naive_solver. lia.
Qed.

Lemma destroy_shared_log s w : logs (destroy_shared s) (fun _ l => (forall p, balance RCtx p l = - owned_by s p)%Z /\
  (forall p, balance RKdf p l = 0%Z) /\ (forall p, balance RSsl p l = 0%Z)) w.
Proof using OS.
  unfold destroy_shared. eapply logs_bind; [apply free_sni_log|]. intros [] l w1 _ (H1 & H2 & H3). case_decide as Hc.
  - apply logs_ret. rewrite app_nil_r. split_and!; [|done|done]. intros p. rewrite H1. unfold owned_by. rewrite bool_decide_false; [cbn; lia|].
    intros [? ?]. congruence.
  - eapply logs_bind; [apply logs_call|]. intros r l1 w2 _ ->. apply logs_ret. rewrite app_nil_r.
    split_and!; intros p; rewrite balance_app, ?H1, ?H2, ?H3; cbn [balance]; unfold delta; cbn; [|done|done]. unfold owned_by.
    rewrite (bool_decide_ext (Some (context s) = Some p) (context s = p /\ p <> 0%Z)); [lia|]. split; [|naive_solver]. intros [= <-]. done.
Qed.

Definition compiled_from (config : Config) (client : bool) (r : Result SharedContext) (l : list (Call * Z)) : Prop :=
  (forall p, balance RKdf p l = 0%Z) /\ (forall p, balance RSsl p l = 0%Z) /\
  match r with
  | Ok s => (forall p, balance RCtx p l = owned_by s p) /\ context s <> 0%Z /\
      (if client then client_facts config s l else server_facts config s l)
  | Err e => forall p, balance RCtx p l = 0%Z
  end.

Lemma build_shared_log config client w : logs (build_shared config client) (compiled_from config client) w.
Proof using OS.
  destruct (build_body_log config client w) as (r & [s w1] & Hm & l & Hl & Hb & Hk & Hs & Hf). unfold logs, runs, build_shared. rewrite Hm. cbn in Hl.
  destruct r as [[]|e].
  - exists (Ok s), w1. split; [done|]. exists l. split; [done|]. destruct (Hf eq_refl). by split_and!.
  - destruct (destroy_shared_log s w1) as ([] & w2 & Hd & l2 & Hl2 & H1 & H2 & H3). rewrite (st_bind_eq _ _ _ _ _ Hd).
    exists (Err e), w2. split; [done|]. exists (l ++ l2). rewrite Hl2, Hl, app_assoc. split; [done|].
    split_and!; intros p; rewrite balance_app, ?H1, ?H2, ?H3, ?Hb, ?Hk, ?Hs; cbn [fst]; lia.
Qed.
End build.

(** ** A connection's own settings *)

Definition host_facts (config : Config) (ssl : Ptr) (l : list (Call * Z)) : Prop :=
  server_name config <> [] ->
  succeeded l (SSL_set_tlsext_host_name ssl (server_name config)) /\
  (verify_peer config = true -> succeeded l (SSL_set1_host ssl (server_name config))).

(** The two interfaces over one world: a call other than [SSL_free] moves the
    references of the sessions, and counting references is not a call. *)
Class TlsWorld (W : Type) `{OpenSSL W} `{!OpenSSLSpec W} `{Refs W} `{!RefsSpec W} := {
  ossl_refs c w s : freed RSsl c = None -> (refs w s <= refs (ossl c w).2 s)%Z;
  errors_refs w s : refs (ERR_get_error w).2 s = refs w s;
  up_ref_calls s w u w' : up_ref s w = Some (u, w') -> calls w' = calls w;
  free_calls s w u w' : session_free s w = Some (u, w') -> calls w' = calls w }.

(** What every configuration call preserves of the world. *)
Class Preserved {W : Type} `{OpenSSL W} (R : W -> W -> Prop) := {
  pres_refl w : R w w;
  pres_trans w1 w2 w3 : R w1 w2 -> R w2 w3 -> R w1 w3;
  pres_ossl c w : freed RSsl c = None -> R w (ossl c w).2;
  pres_error w : R w (ERR_get_error w).2 }.

Section moves.
Context {W : Type} `{OW : OpenSSL W} (R : W -> W -> Prop) {PR : Preserved R}.

(** [m] moves the world along [R]. *)
Definition moves {S A} (world : S -> W) (m : ST S A) : Prop :=
  forall s a s', m s = Some (a, s') -> R (world s) (world s').

Section rules.
Context {S : Type} (world : S -> W).

Lemma moves_ret {A} (a : A) : moves world (st_ret a).
Proof using PR. intros s b s' [= <- <-]. apply pres_refl. Qed.

Lemma moves_bind {A B} (m : ST S A) (k : A -> ST S B) : moves world m -> (forall a, moves world (k a)) -> moves world (st_bind k m).
Proof using PR.
  intros Hm Hk s b s' (a & s1 & H1 & H2)%bind_inv. eapply pres_trans; [by eapply Hm|by eapply Hk].
Qed.

Lemma moves_try {A B} (m : ST S (Result A)) (k : A -> ST S (Result B)) :
  moves world m -> (forall a, moves world (k a)) -> moves world (st_try k m).
Proof using PR. intros Hm Hk. apply moves_bind; [done|]. intros [a|e]; [done|apply moves_ret]. Qed.
End rules.

Lemma moves_snd {S S0 A} (world : S -> W) (m : ST S A) : moves world m -> moves (fun p : S0 * S => world p.2) (st_snd m).
Proof. intros Hm [s0 s] a [s0' s'] H. unfold st_snd in H. destruct (m s) as [[a1 s1]|] eqn:E; [|done]. injection H as <- <- <-. by eapply Hm. Qed.

Lemma moves_call_data c : freed RSsl c = None -> moves id (call_data c).
Proof using PR. intros Hc w a w' [= H]. pose proof (pres_ossl c w Hc) as Hr. rewrite H in Hr. exact Hr. Qed.

Lemma moves_call c : freed RSsl c = None -> moves id (call c).
Proof using PR.
  intros Hc w a w' H. pose proof (pres_ossl c w Hc) as Hr. unfold call in H. destruct (ossl c w) as [[r d] w1]. by injection H as <- <-.
Qed.

Lemma moves_drain n : moves id (drain_errors n).
Proof using PR.
  induction n as [|n IH]; [done|]. cbn [drain_errors]. apply moves_bind.
  - intros w a w' [= H]. pose proof (pres_error w) as Hr. rewrite H in Hr. exact Hr.
  - intros a. case_decide; [apply moves_ret|done].
Qed.

Lemma moves_take_error {A} : moves id (take_openssl_error (A := A)).
Proof using PR. apply moves_bind; [apply moves_drain|]. intros _. apply moves_ret. Qed.

Lemma moves_do c : freed RSsl c = None -> moves id (do_ c).
Proof using PR. intros Hc. apply moves_bind; [by apply moves_call|]. intros r. apply moves_ret. Qed.

Lemma moves_make c : freed RSsl c = None -> moves id (make c).
Proof using PR. intros Hc. apply moves_bind; [by apply moves_call|]. intros r. case_decide; [apply moves_take_error|apply moves_ret]. Qed.

Lemma moves_all_ok cs : Forall (fun c => freed RSsl c = None) cs -> moves id (all_ok cs).
Proof using PR.
  induction 1 as [|c cs Hc Hcs IH]; [apply moves_ret|]. apply moves_bind; [by apply moves_call|]. intros r.
  case_decide; [done|apply moves_ret].
Qed.

Lemma moves_check_all cs : Forall (fun c => freed RSsl c = None) cs -> moves id (check_all cs).
Proof using PR. intros Hcs. apply moves_bind; [by apply moves_all_ok|]. intros [|]; [apply moves_ret|apply moves_take_error]. Qed.
End moves.

(** Walks through a program without [SSL_free]. *)
Ltac moves_step :=
  match goal with
  | |- moves _ _ (match ?x with _ => _ end) => destruct x
  | |- moves _ _ (if ?x then _ else _) => destruct x
  | |- moves _ _ (st_ret _) => apply moves_ret; exact _
  | |- moves _ _ (st_ok _) => apply moves_ret; exact _
  | |- moves _ _ (st_err _) => apply moves_ret; exact _
  | |- moves _ _ (st_snd _) => apply (moves_snd _ id)
  | |- moves _ _ (st_try _ _) => apply moves_try; [exact _| |intros ?]
  | |- moves _ _ (st_bind _ _) => apply moves_bind; [exact _| |intros ?]
  | |- moves _ _ (call _) => apply moves_call; [exact _|reflexivity]
  | |- moves _ _ (call_data _) => apply moves_call_data; [exact _|reflexivity]
  | |- moves _ _ (do_ _) => apply moves_do; [exact _|reflexivity]
  | |- moves _ _ (make _) => apply moves_make; [exact _|reflexivity]
  | |- moves _ _ (check _) => apply moves_check_all; [exact _|repeat constructor]
  | |- moves _ _ (check_all _) => apply moves_check_all; [exact _|repeat constructor]
  | |- moves _ _ (all_ok _) => apply moves_all_ok; [exact _|repeat constructor]
  | |- moves _ _ take_openssl_error => apply moves_take_error; exact _
  end.
Ltac moves_tac := repeat (moves_step; cbv beta zeta).

Section moves_build.
Context {W : Type} `{OW : OpenSSL W} (R : W -> W -> Prop) {PR : Preserved R}.

Lemma moves_upd f : moves R (fun p : SharedContext * W => id p.2) (upd_shared f).
Proof using PR. intros [s w] a [s' w'] [= <- <- <-]. apply pres_refl. Qed.

Lemma moves_make_cert cert alpn : moves R id (make_cert_context cert alpn).
Proof using PR. unfold make_cert_context. moves_tac. Qed.

Lemma moves_sni_loop certs alpn : moves R (fun p : SharedContext * W => id p.2) (sni_loop certs alpn).
Proof using PR.
  induction certs as [|cert certs IH]; cbn [sni_loop]; moves_tac; first [by apply moves_make_cert|by apply moves_upd|exact IH].
Qed.

Lemma moves_body config client : moves R (fun p : SharedContext * W => id p.2) (build_body config client).
Proof using PR.
  unfold build_body, build_server, build_client, load_roots, client_certificates, session_tickets, derive_ticket_key.
  moves_tac; first [by apply moves_upd | by apply moves_sni_loop].
Qed.

Lemma moves_destroy s : moves R id (destroy_shared s).
Proof using PR.
  unfold destroy_shared. moves_tac. induction (sni_contexts s) as [|q l IH]; cbn [free_sni]; moves_tac; exact IH.
Qed.

Lemma moves_build config client : moves R id (build_shared config client).
Proof using PR.
  intros w r w' H. unfold build_shared in H. destruct (build_body config client (no_shared, w)) as [[[u|e] [s w1]]|] eqn:E; [| |done].
  - injection H as <- <-. exact (moves_body _ _ _ _ _ E).
  - pose proof (moves_body _ _ _ _ _ E) as H1. cbn in H1.
    assert (moves R id (st_bind (fun _ => st_err (A := SharedContext) e) (destroy_shared s))) as Hd by (apply moves_bind; [exact _|apply moves_destroy|intros _; apply moves_ret; exact _]).
    pose proof (Hd _ _ _ H) as H2. by eapply pres_trans.
Qed.
End moves_build.

Section moves_configure.
Context {W : Type} `{OW : OpenSSL W} (R : W -> W -> Prop) {PR : Preserved R} `{RW : Refs W}.
Context (Hup : forall s w u w', up_ref s w = Some (u, w') -> R w w')
  (Hfree : forall s w u w', session_free s w = Some (u, w') -> R w w').

Lemma moves_compile config client : moves R (fun p : Slot * W => p.2) (compile config client).
Proof using PR.
  intros [slot w] r [slot' w'] H. unfold compile in H. destruct (compiled slot); [injection H as <- <- <-; apply pres_refl|].
  destruct (build_shared config client w) as [[[s|e] w1]|] eqn:E; [| |done]; injection H as <- <- <-; exact (moves_build _ _ _ _ _ _ E).
Qed.

Lemma moves_cache_take key : moves R (fun p : Slot * W => p.2) (cache_take key).
Proof using PR Hup.
  intros [slot w] r [slot' w'] H. cbv beta iota delta [cache_take mbind option_bind] in H. destruct (cache slot) as [c|]; [|done].
  destruct (SessionCache.take key (c, w)) as [[o [c1 w1]]|] eqn:E; [|done]. injection H as <- <- <-. cbn.
  destruct (SessionCache.take_world _ _ _ _ _ _ E) as [->|(s & u & Hu)]; [apply pres_refl|by eapply Hup].
Qed.

Lemma moves_offer name p : moves R (fun q : Slot * W => q.2) (offer_session name p).
Proof using PR Hup Hfree.
  unfold offer_session. apply moves_bind; [exact _|apply moves_cache_take|]. intros [s|]; [|apply moves_ret; exact _].
  apply moves_bind; [exact _|apply (moves_snd R id), moves_call; [exact _|done]|]. intros _.
  apply moves_bind; [exact _| |intros _; apply moves_ret; exact _].
  apply (moves_snd R id). intros w u w'. apply Hfree.
Qed.

Lemma moves_setup config alpn p : moves R (fun q : Slot * W => q.2) (setup_client config alpn p).
Proof using PR Hup Hfree.
  unfold setup_client. apply moves_try; [exact _|apply (moves_snd R id); moves_tac|]. intros _.
  apply moves_try; [exact _| |intros _; apply (moves_snd R id); moves_tac].
  destruct (session_cache config); [apply moves_offer|apply moves_ret; exact _].
Qed.

Lemma moves_configure : moves R (fun q : State * (Slot * W) => q.2.2) configure.
Proof using PR Hup Hfree.
  assert (forall f, moves R (fun q : State * (Slot * W) => q.2.2) (upd f)) as Hupd.
  { intros f [st w] r [st' w'] [= <- <- <-]. apply pres_refl. }
  assert (forall A (m : ST W A), moves R id m -> moves R (fun q : State * (Slot * W) => q.2.2) (st_snd (st_snd m))) as Hsnd.
  { intros A m Hm. by apply (moves_snd R (fun q : Slot * W => q.2)), (moves_snd R id). }
  unfold configure. apply moves_bind; [exact _|intros s a s' [= <- <-]; apply pres_refl|]. intros st.
  destruct (configured st); [apply moves_ret; exact _|].
  apply moves_try; [exact _|apply (moves_snd R (fun q : Slot * W => q.2)), moves_compile|]. intros s.
  apply moves_try; [exact _|apply Hupd|]. intros _.
  apply moves_bind; [exact _|apply Hsnd; moves_tac|]. intros p.
  apply moves_try; [exact _|apply Hupd|]. intros _.
  apply moves_try; [exact _|apply Hsnd; moves_tac|]. intros _.
  apply moves_bind; [exact _|apply Hsnd; moves_tac|]. intros pair.
  apply moves_try; [exact _|apply Hupd|]. intros _.
  apply moves_try; [exact _|apply Hsnd; moves_tac|]. intros _.
  apply moves_try; [exact _| |intros _; apply Hupd].
  apply (moves_snd R (fun q : Slot * W => q.2)). destruct (is_client st); [apply moves_setup|apply (moves_snd R id); moves_tac].
Qed.
End moves_configure.

(** The references of the sessions only grow. *)
#[global] Instance refs_preserved {W : Type} `{TW : TlsWorld W} : Preserved (W := W) (fun w w' => forall t, (refs w t <= refs w' t)%Z).
Proof.
  split.
  - intros w t. lia.
  - intros w1 w2 w3 H1 H2 t. specialize (H1 t). specialize (H2 t). lia.
  - intros c w Hc t. by apply ossl_refs.
  - intros w t. rewrite errors_refs. lia.
Qed.

Section connection.
Context {W : Type} `{OW : OpenSSL W} {OS : OpenSSLSpec W} `{RW : Refs W} {RS : RefsSpec W} {TW : TlsWorld W}.

Abbreviation more := (fun w w' : W => forall t, (refs w t <= refs w' t)%Z).

(** The cache of a configuration that has one. *)
Definition cache_ok (config : Config) (slot : Slot) (w : W) : Prop :=
  session_cache config = true -> exists c, cache slot = Some c /\ SessionCache.holds c w.

Lemma holds_mono c (w w' : W) : (forall t, (refs w t <= refs w' t)%Z) -> SessionCache.holds c w -> SessionCache.holds c w'.
Proof. intros Hr [I Ho]. split; [done|]. intros s. specialize (Hr s). specialize (Ho s). lia. Qed.

(** A program over the shared data that leaves the compiled context alone. *)
Definition clogs (config : Config) {A} (m : ST (Slot * W) A) (Q : A -> list (Call * Z) -> Prop) (slot : Slot) (w : W) : Prop :=
  runs m (fun a sw => exists l, calls sw.2 = calls w ++ l /\ cache_ok config sw.1 sw.2 /\ compiled sw.1 = compiled slot /\ Q a l) (slot, w).

Lemma clogs_snd config {A} (m : ST W A) (Q : A -> list (Call * Z) -> Prop) slot w : moves more id m -> logs m Q w -> cache_ok config slot w ->
  clogs config (st_snd m) Q slot w.
Proof.
  intros Hk (a & w' & Hm & l & Hl & HQ) Hc. apply runs_snd. exists a, w'. split; [done|]. exists l. split_and!; try done.
  intros Hs. destruct (Hc Hs) as (c & Hcc & Hh). exists c. split; [done|]. eapply holds_mono; [|done]. by apply (Hk _ _ _ Hm).
Qed.

Lemma clogs_try config {A B} (m : ST (Slot * W) (Result A)) (k : A -> ST (Slot * W) (Result B)) (P : Result A -> list (Call * Z) -> Prop)
    (Q : Result B -> list (Call * Z) -> Prop) slot w :
  clogs config m P slot w ->
  (forall a l slot' w', P (Ok a) l -> cache_ok config slot' w' -> clogs config (k a) (fun b l2 => Q b (l ++ l2)) slot' w') ->
  (forall e l, P (Err e) l -> Q (Err e) l) ->
  clogs config (st_try k m) Q slot w.
Proof.
  intros Hm Hk He. apply runs_try. eapply runs_mono; [exact Hm|]. intros [a|e] [slot' w'] (l & Hl & Hc & Hs & HP); cbn in *.
  - eapply runs_mono; [by apply Hk|]. intros b [slot2 w2] (l2 & Hl2 & Hc2 & Hs2 & HQ). cbn in *. exists (l ++ l2).
    rewrite Hl2, Hl, app_assoc. split_and!; try done. congruence.
  - exists l. split_and!; try done. by apply He.
Qed.

Lemma clogs_mono config {A} (m : ST (Slot * W) A) (P Q : A -> list (Call * Z) -> Prop) slot w :
  clogs config m P slot w -> (forall a l, P a l -> Q a l) -> clogs config m Q slot w.
Proof. intros Hm HQ. eapply runs_mono; [exact Hm|]. intros a sw (l & Hl & Hc & Hs & HP). exists l. split_and!; try done. by apply HQ. Qed.

Lemma offer_session_log config ssl slot w : session_cache config = true -> cache_ok config slot w ->
  clogs config (offer_session (server_name config) ssl) (fun r _ => r = Ok tt) slot w.
Proof using TW.
  intros Hs Hc. destruct (Hc Hs) as (c & Hcc & Hh). unfold offer_session.
  destruct (SessionCache.take_ok (server_name config) c w Hh) as (c1 & w1 & Ht & Hh1 & _ & _ & Ho1).
  destruct (SessionCache.lru_take (server_name config) (SessionCache.abs c)) as [o lru] eqn:Hlru. cbn [fst snd] in *.
  assert (calls w1 = calls w) as Hl1.
  { destruct (SessionCache.take_world _ _ _ _ _ _ Ht) as [->|(s & u & Hu)]; [done|by apply up_ref_calls in Hu]. }
  apply runs_bind. exists o, (mkSlot (compiled slot) (Some c1), w1).
  split; [cbv beta iota delta [cache_take mbind option_bind]; by rewrite Hcc, Ht|].
  destruct o as [s|].
  2: { apply runs_ret. exists []. rewrite app_nil_r. split_and!; try done. intros _. by exists c1. }
  apply runs_bind, runs_snd. destruct (logs_call (SSL_set_session ssl s) w1) as (r & w2 & Hr & l & Hl & ->).
  exists r, w2. split; [done|].
  assert (forall t, (refs w1 t <= refs w2 t)%Z) as Hmono by (intros t; by apply (moves_call more (SSL_set_session ssl s) eq_refl _ _ _ Hr t)).
  destruct (session_free_spec s w2) as (w3 & Hf & Hw3).
  { specialize (Hmono s). destruct Hh1 as [_ Hown1]. specialize (Hown1 s). destruct Hh as [_ Hown]. specialize (Hown s). specialize (Ho1 s).
    pose proof (SessionCache.count_nonneg (SessionCache.abs c1).*2 s). unfold SessionCache.owned in *. unfold SessionCache.outside, same in Ho1.
    cbn in Ho1. unfold same in Ho1. rewrite decide_True in Ho1 by done. unfold SessionCache.owned in Ho1. lia. }
  apply runs_bind, runs_snd. exists tt, w3. split; [done|]. apply runs_ret. exists [(SSL_set_session ssl s, r)]. cbn.
  rewrite (free_calls _ _ _ _ Hf), Hl, Hl1. split_and!; try done. intros _. exists c1. split; [done|].
  destruct Hh1 as [I1 Hown1]. split; [done|]. intros t. specialize (Hmono t). specialize (Hown1 t). specialize (Ho1 t). rewrite Hw3.
  destruct Hh as [_ Hown]. specialize (Hown t). unfold SessionCache.outside in Ho1. cbn in Ho1. unfold same in *. case_decide; lia.
Qed.

Lemma setup_client_log config alpn ssl slot w : cache_ok config slot w ->
  clogs config (setup_client config alpn ssl) (fun r l => has_value r = true -> host_facts config ssl l) slot w.
Proof using TW.
  intros Hc. unfold setup_client.
  eapply (clogs_try _ _ _ (fun r l => has_value r = true -> host_facts config ssl l)); [|intros [] l slot' w' Hf Hc'|by intros e l Hf].
  - apply clogs_snd; [moves_tac| |done].
    eapply (logs_try _ _ (fun r l => has_value r = true -> host_facts config ssl l)); [| |by intros e l Hf].
    + case_decide as Hn; [by apply logs_ret|].
      eapply logs_try; [apply (settles_check (SSL_set_tlsext_host_name ssl (server_name config))); done| |by intros e l _].
      intros [] l w1 _ [_ Hf]. destruct (Hf eq_refl) as [_ Hf1]. destruct (verify_peer config) eqn:Hv.
      * eapply logs_mono; [by apply (settles_check (SSL_set1_host ssl (server_name config)))|]. intros r l2 [_ Hf2] Hr _.
        destruct (Hf2 Hr) as [_ Hs]. split; [by apply succeeded_l|]. intros _. by apply succeeded_r.
      * apply logs_ret. intros _ _. rewrite app_nil_r. by split; [|congruence].
    + intros [] l w1 _ Hf.
      match goal with |- logs ?m _ _ => assert (only (fun _ => true) m) as Ho by only_tac end.
      eapply logs_mono; [apply Ho|]. intros r l2 _ _ Hn. destruct (Hf eq_refl Hn) as [H1 H2]. split; [by apply succeeded_l|].
      intros Hv. by apply succeeded_l, H2.
  - eapply (clogs_try _ _ _ (fun r _ => r = Ok tt)); [|intros [] l2 slot2 w2 _ Hc2|done].
    + destruct (session_cache config) eqn:Hs; [by apply offer_session_log|].
      apply runs_ret. exists []. rewrite app_nil_r. split_and!; try done.
    + apply clogs_snd; [moves_tac| |done]. eapply logs_mono; [apply logs_do|]. intros r l3 _ _ Hn. destruct (Hf eq_refl Hn) as [H1 H2].
      split; [by apply succeeded_l|]. intros Hv. by apply succeeded_l, H2.
Qed.

Lemma compile_log config client slot w : cache_ok config slot w ->
  runs (compile config client) (fun r sw => exists l, calls sw.2 = calls w ++ l /\ cache_ok config sw.1 sw.2 /\
    match r with
    | Ok s => compiled sw.1 = Some s /\
        match compiled slot with
        | Some s0 => s = s0 /\ l = []
        | None => compiled_from config client (Ok s) l
        end
    | Err e => compiled slot = None /\ compiled sw.1 = None /\ forall p, balance RCtx p l = 0%Z
    end) (slot, w).
Proof using TW.
  intros Hc. unfold runs, compile. destruct (compiled slot) as [s|] eqn:Hs.
  - exists (Ok s), (slot, w). split; [done|]. exists []. rewrite app_nil_r. by split_and!.
  - destruct (build_shared_log config client w) as (r & w1 & Hb & l & Hl & HP). rewrite Hb. pose proof (moves_build more _ _ _ _ _ Hb) as Hk.
    assert (forall k, cache_ok config (mkSlot k (cache slot)) w1) as Hc1.
    { intros k Hsc. destruct (Hc Hsc) as (c & Hcc & Hh). exists c. split; [done|]. eapply holds_mono; [exact Hk|done]. }
    destruct r as [s|e].
    + exists (Ok s), (mkSlot (Some s) (cache slot), w1). split; [done|]. exists l. split_and!; try done; apply Hc1.
    + exists (Err e), (slot, w1). split; [done|]. exists l. destruct slot as [k c]. cbn in *. split_and!; try done; first [apply Hc1|apply HP].
Qed.

(** A connection's program over its shared data. *)
Lemma conn_step config {A} (m : ST (Slot * W) A) (P : A -> list (Call * Z) -> Prop) (Q : A -> State * (Slot * W) -> Prop) st slot w :
  clogs config m P slot w ->
  (forall a l slot' w', calls w' = calls w ++ l -> cache_ok config slot' w' -> compiled slot' = compiled slot -> P a l -> Q a (st, (slot', w'))) ->
  runs (st_snd m) Q (st, (slot, w)).
Proof. intros Hm HQ. apply runs_snd. eapply runs_mono; [exact Hm|]. intros a [slot' w'] (l & Hl & Hc & Hs & HP). by eapply HQ. Qed.

Lemma upd_step (f : State -> State) (Q : Result unit -> State * (Slot * W) -> Prop) st sw : Q (Ok tt) (f st, sw) -> runs (upd f) Q (st, sw).
Proof. intros HQ. by exists (Ok tt), (f st, sw). Qed.

Lemma configure_log st slot w : configured st = false -> cache_ok (config st) slot w ->
  runs configure (fun r p => exists l, calls p.2.2 = calls w ++ l /\ config p.1 = config st /\ is_client p.1 = is_client st /\
    handshake_done p.1 = handshake_done st /\ cache_ok (config st) p.2.1 p.2.2 /\ 
    match r with
    | Ok _ => configured p.1 = true /\ exists s l0 l1, l = l0 ++ l1 /\ compiled p.2.1 = Some s /\ shared p.1 = Some s /\
        match compiled slot with
        | Some s0 => s = s0 /\ l0 = []
        | None => compiled_from (config st) (is_client st) (Ok s) l0
        end /\
        (SSL_new (context s), ssl p.1) ∈ l1 /\ ssl p.1 <> 0%Z /\
        (is_client st = true -> host_facts (config st) (ssl p.1) l1)
    | Err e => configured p.1 = false /\ (compiled p.2.1 = None -> forall p, balance RCtx p l = 0%Z)
    end) (st, (slot, w)).
Proof using TW.
  intros Hconf Hc0.
  unfold configure. apply runs_bind, runs_gets. cbn [fst]. rewrite Hconf.
  apply runs_try, runs_snd. eapply runs_mono; [by apply compile_log|]. intros [s|e] [slot1 w1] (l0 & Hl0 & Hc1 & Hs); cbn in Hl0, Hc1, Hs; cbn.
  2: { destruct Hs as (Hs0 & Hs1 & Hb). exists l0. by split_and!. }
  destruct Hs as [Hs1 Hs0].
  apply runs_try, upd_step. cbn [on_ok].
  apply runs_bind. eapply (conn_step (config st)); [apply clogs_snd; [apply moves_call; [exact _|done]|apply logs_call|done]|].
  intros p l1 slot2 w2 Hl1 Hc2 Hs2 ->.
  apply runs_try, upd_step. cbn [on_ok].
  apply runs_try. eapply (conn_step (config st)).
  { apply (clogs_snd _ _ (fun r _ => has_value r = true -> p <> 0%Z)); [moves_tac| |done]. case_decide as Hp.
    - unfold st_try. eapply logs_bind; [apply logs_take_error|]. intros r l w3 _ [-> ->]. by apply logs_ret.
    - unfold st_try. eapply logs_bind; [by apply (logs_ret _ (fun r l => r = Ok tt))|]. intros r l w3 _ ->.
      eapply logs_mono; [apply logs_do|]. done. }
  intros [u|e] l2 slot3 w3 Hl2 Hc3 Hs3 Hp; cbn [on_ok].
  2: { exists (l0 ++ [(SSL_new (context s), p)] ++ l2). cbn. rewrite Hl2, Hl1, Hl0. rewrite <-!app_assoc. split_and!; try done. congruence. }
  specialize (Hp eq_refl).
  apply runs_bind. eapply (conn_step (config st)); [apply clogs_snd; [apply moves_call_data; [exact _|done]|apply logs_call_data|done]|].
  intros pair l3 slot4 w4 Hl3 Hc4 Hs4 _.
  apply runs_try, upd_step. cbn [on_ok].
  apply runs_try. eapply (conn_step (config st)).
  { match goal with |- clogs _ (st_snd ?m) _ _ _ => assert (only (fun _ => true) m) as Ho by only_tac end.
    apply (clogs_snd _ _ (fun r _ => True)); [moves_tac| |done]. eapply logs_mono; [apply Ho|]. done. }
  intros [u'|e] l4 slot5 w5 Hl4 Hc5 Hs5 _; cbn [on_ok].
  2: { eexists. cbn. rewrite Hl4, Hl3, Hl2, Hl1, Hl0. rewrite <-!app_assoc. split; [done|]. split_and!; try done. congruence. }
  apply runs_try. eapply (conn_step (config st)).
  { instantiate (1 := fun r l => has_value r = true -> is_client st = true -> host_facts (config st) p l).
    destruct (is_client st); [eapply clogs_mono; [by apply setup_client_log|]; auto|].
    apply clogs_snd; [moves_tac| |done]. eapply logs_mono; [apply logs_do|]. done. }
  intros [u''|e] l5 slot6 w6 Hl5 Hc6 Hs6 Hf; cbn [on_ok].
  2: { eexists. cbn. rewrite Hl5, Hl4, Hl3, Hl2, Hl1, Hl0. rewrite <-!app_assoc. split; [done|]. split_and!; try done. congruence. }
  apply upd_step. cbn. eexists. rewrite Hl5, Hl4, Hl3, Hl2, Hl1, Hl0. rewrite <-!app_assoc. split; [done|]. split_and!; try done.
  exists s. eexists l0, _. split; [done|]. split_and!; try done; [congruence|by left|].
  intros Hcl Hn. specialize (Hf eq_refl Hcl Hn). destruct Hf as [H1 H2]. rewrite !app_assoc. split; [by apply succeeded_r|].
  intros Hv. by apply succeeded_r, H2.
Qed.

(** Configuring a connection. It always ends. When it succeeds, the
    connection's [SSL] was made from the context of its [Config]: the one
    compiled before, or one compiled now; and a client that has a server name
    has set it for SNI and, when it verifies its peer, as the name the
    certificate must match. When it fails, the connection stays unconfigured, and
    a context whose compilation failed has been released. *)
Theorem tls_configure st slot w : configured st = false -> cache_ok (config st) slot w ->
  exists r st' slot' w' l, configure (st, (slot, w)) = Some (r, (st', (slot', w'))) /\ calls w' = calls w ++ l /\
    config st' = config st /\ is_client st' = is_client st /\ handshake_done st' = handshake_done st /\
    cache_ok (config st) slot' w' /\
    match r with
    | Ok _ => configured st' = true /\ exists s l0 l1, l = l0 ++ l1 /\ compiled slot' = Some s /\ shared st' = Some s /\
        match compiled slot with
        | Some s0 => s = s0 /\ l0 = []
        | None => compiled_from (config st) (is_client st) (Ok s) l0
        end /\
        (SSL_new (context s), ssl st') ∈ l1 /\ ssl st' <> 0%Z /\
        (is_client st = true -> host_facts (config st) (ssl st') l1)
    | Err e => configured st' = false /\ (compiled slot' = None -> forall p, balance RCtx p l = 0%Z)
    end.
Proof using TW.
  intros Hconf Hc0. destruct (configure_log st slot w Hconf Hc0) as (r & [st' [slot' w']] & Hr & l & H).
  exists r, st', slot', w', l. by split.
Qed.

(** C34: Compiling a [Config]. It always ends; when it fails, every context and
    every key derivation it made has been freed, once. When it succeeds, what it
    made is what the context owns, and: each context refuses versions below
    TLS 1.2; a client that verifies its peer asks for it, without an override,
    against the configured roots, and asks for nothing else; a server has one
    context per certificate, in order, the first its default, each with chain and
    key loaded and checked. It sets what it asks of a client once, on the default
    context, with the configured roots: nothing for [none]; to ask, under OpenSSL's
    verdict, for [request] and [verify_if_given]; to demand a certificate for
    [require_any] and [require_and_verify], with the verdict overridden for the
    first only ([client_auth_settings]). So [request] fails a certificate that does
    not verify, against its comment in tls.hpp ([request_verifies]). A ticket secret
    that is used has at least 32 bytes. *)
Theorem tls_compiles config client w :
  exists r w' l, build_shared config client w = Some (r, w') /\ calls w' = calls w ++ l /\
    compiled_from config client r l.
Proof using OS. destruct (build_shared_log config client w) as (r & w' & Hr & l & Hl & HP). by exists r, w', l. Qed.
End connection.

(** ** A concrete library: it gives fresh pointers, and refuses some calls *)

Module Toy.

Record World := mkWorld {
  w_calls : list (Call * Z);
  w_refs : gmap nat Z;
  refused : Call -> bool }.

(** The pointers a log mentions are below this one. *)
Definition id_of (x : Call * Z) : Z := Z.max x.2 (default 0%Z (freed RCtx x.1)).
Fixpoint fresh (l : list (Call * Z)) : Z := match l with [] => 1%Z | x :: l => Z.max (1 + id_of x) (fresh l) end.

Definition answer (c : Call) (w : World) : Z :=
  match c with
  | SSL_CTX_new _ | EVP_PKEY_CTX_new_id | SSL_new _ | SSL_load_client_CA_file _ => if refused w c then 0%Z else fresh (w_calls w)
  | SSL_set_alpn_protos _ _ => if refused w c then 1%Z else 0%Z
  | SSL_CTX_tlsext_ticket_keys_length _ => 80%Z
  | _ => if refused w c then 0%Z else 1%Z
  end.
Definition data (c : Call) (w : World) : bytes :=
  match c with
  | EVP_PKEY_derive _ n => replicate (Z.to_nat n) 7%Z
  | BIO_new_bio_pair => [fresh (w_calls w)]
  | _ => []
  end.

#[global] Instance toy_openssl : OpenSSL World := {|
  ossl c w := ((answer c w, data c w), mkWorld (w_calls w ++ [(c, answer c w)]) (w_refs w) (refused w));
  ERR_get_error w := (0%Z, w);
  ERR_peek_error w := 0%Z |}.

Lemma fresh_pos l : (0 < fresh l)%Z.
Proof. induction l; cbn; lia. Qed.

Lemma fresh_balance l p : (fresh l <= p)%Z -> balance RCtx p l = 0%Z.
Proof.
  induction l as [|x l IH]; intros Hp; [done|]. cbn [fresh] in Hp. cbn [balance]. rewrite IH by lia.
  unfold delta. rewrite bool_decide_false by (unfold id_of in Hp; intros [? _]; lia). rewrite andb_false_r.
  rewrite bool_decide_false; [done|]. intros Hf. unfold id_of in Hp. rewrite Hf in Hp. cbn in Hp. lia.
Qed.

#[global] Instance toy_spec : OpenSSLSpec World.
Proof.
  refine {| calls := w_calls; errors := fun _ => [] |}; try done.
  - intros b w Hr. cbn in *. destruct (refused w (SSL_CTX_new b)); [done|]. by apply fresh_balance.
  - intros w. cbn. lia.
Defined.

Definition count_by (d : Z) (s : nat) : ST World unit := fun w =>
  '(_, m) ← SessionCache.Counts.bump d s (w_refs w); Some (tt, mkWorld (w_calls w) m (refused w)).
#[global] Instance toy_refs : Refs World := {| up_ref := count_by 1; session_free := count_by (-1) |}.

#[global] Instance toy_refs_spec : RefsSpec World.
Proof.
  refine {| refs := fun w s => default 0%Z (w_refs w !! s) |}; intros s w Hs; cbn; unfold count_by, SessionCache.Counts.bump;
    rewrite decide_True by done; cbn; (eexists; split; [done|]); intros t; cbn; unfold same; case_decide as Hd; subst;
    rewrite ?lookup_insert_eq, ?lookup_insert_ne by done; cbn; lia.
Defined.

#[global] Instance toy_world : TlsWorld World.
Proof.
  split; try (intros; cbn; lia).
  - intros s w [] w' H. cbn in H. unfold count_by in H. destruct (SessionCache.Counts.bump _ _ _) as [[u m]|]; [|done]. by injection H as <-.
  - intros s w [] w' H. cbn in H. unfold count_by in H. destruct (SessionCache.Counts.bump _ _ _) as [[u m]|]; [|done]. by injection H as <-.
Qed.

Definition pair : Certificate := mkCertificate [1%Z] [2%Z].
Definition server_config : Config :=
  mkConfig [] true [] pair [pair; mkCertificate [3%Z] [4%Z]] require_any [9%Z] false (replicate 32 5%Z) false [[104; 50]%Z].
Definition client_config : Config := mkConfig [97%Z] true [] (mkCertificate [] []) [] none [] false [] true [].
Definition willing : World := mkWorld [] {[7 := 1%Z]} (fun _ => false).
(** The key of the second certificate does not fit. *)
Definition wrong_key : World := mkWorld [] ∅ (fun c => match c with SSL_CTX_use_PrivateKey_file _ f => bool_decide (f = [4%Z]) | _ => false end).

Definition one_session : SessionCache.Impl := SessionCache.push_front [97%Z] 7 (SessionCache.init 2).

End Toy.

Lemma tls_compiles_witness : exists r w' l, build_shared Toy.server_config false Toy.wrong_key = Some (r, w') /\
  calls w' = calls Toy.wrong_key ++ l /\ compiled_from Toy.server_config false r l.
Proof. apply (tls_compiles Toy.server_config false Toy.wrong_key). Defined.

Lemma tls_configure_witness :
  exists r st' slot' w' l, configure (client Toy.client_config, (mkSlot None (Some Toy.one_session), Toy.willing)) = Some (r, (st', (slot', w'))) /\
    calls w' = calls Toy.willing ++ l /\ config st' = Toy.client_config /\ is_client st' = true /\ handshake_done st' = false /\
    cache_ok Toy.client_config slot' w' /\
    match r with
    | Ok _ => configured st' = true /\ exists s l0 l1, l = l0 ++ l1 /\ compiled slot' = Some s /\ shared st' = Some s /\
        match compiled (mkSlot None (Some Toy.one_session)) with
        | Some s0 => s = s0 /\ l0 = []
        | None => compiled_from Toy.client_config true (Ok s) l0
        end /\
        (SSL_new (context s), ssl st') ∈ l1 /\ ssl st' <> 0%Z /\
        (true = true -> host_facts Toy.client_config (ssl st') l1)
    | Err e => configured st' = false /\ (compiled slot' = None -> forall p, balance RCtx p l = 0%Z)
    end.
Proof.
  apply (tls_configure (client Toy.client_config) (mkSlot None (Some Toy.one_session)) Toy.willing); [done|].
  intros _. exists Toy.one_session. split; [done|]. split.
  - apply (SessionCache.push_front_ok [97%Z] 7 (SessionCache.init 2)); [apply SessionCache.fresh_inv|done|vm_compute; lia].
  - intros s. destruct (decide (s = 7)) as [->|Hs]; [vm_compute; done|].
    change ((same 7 s + 0 <= default 0 ((Toy.w_refs Toy.willing) !! s))%Z). unfold same. rewrite decide_False by done.
    cbn. rewrite lookup_singleton_ne by done. done.
Defined.

(** The failing server frees the two contexts it had made. *)
Example wrong_key_frees : exists w, build_shared Toy.server_config false Toy.wrong_key = Some (Err (of_errc broken), w) /\
  filter (fun x => freed RCtx x.1 <> None) (calls w) = [(SSL_CTX_free 2, 1%Z); (SSL_CTX_free 1, 1%Z)].
Proof. eexists. split; vm_compute; reflexivity. Qed.

(** [request] is documented to accept whatever certificate comes back, but it
    compiles to the same verification as [verify_if_given]. *)
Example request_verifies : verify_mode_for request = verify_mode_for verify_if_given /\
  bool_decide (request = require_any) = bool_decide (verify_if_given = require_any).
Proof. done. Qed.

(** The slot of a [Config] does not say for which role it was compiled: a client
    made from the [Config] of a server gets the server's context. *)
Example slot_ignores_role : exists st1 slot1 w1 st2 slot2 w2,
  configure (server Toy.server_config, (mkSlot None None, Toy.willing)) = Some (Ok tt, (st1, (slot1, w1))) /\
  configure (client Toy.server_config, (slot1, w1)) = Some (Ok tt, (st2, (slot2, w2))) /\
  shared st2 = shared st1 /\ forallb (fun x => match x.1 with SSL_CTX_new true => false | _ => true end) (calls w2) = true.
Proof. do 6 eexists. split; [vm_compute; reflexivity|]. split; [vm_compute; reflexivity|]. split; vm_compute; reflexivity. Qed.

(** A handshake that fails in [configure] after [SSL_new] and is tried again
    loses the first [SSL]: the destructor frees the second one only. *)
Example retry_leaks_ssl : exists st1 sw1 st2 slot2 w2 w3,
  let w := Toy.mkWorld [] ∅ (fun c => match c with SSL_set_tlsext_host_name _ _ => true | _ => false end) in
  configure (client (mkConfig [97%Z] true [] (mkCertificate [] []) [] none [] false [] false []), (mkSlot None None, w)) = Some (Err (of_errc broken), (st1, sw1)) /\
  configure (st1, sw1) = Some (Err (of_errc broken), (st2, (slot2, w2))) /\
  destroy_state st2 w2 = Some (tt, w3) /\ balance RSsl (ssl st1) (calls w3) = 1%Z.
Proof.
  do 6 eexists. split; [vm_compute; reflexivity|]. split; [vm_compute; reflexivity|]. split; vm_compute; reflexivity.
Qed.
