(* ===== verification/TlsConn.v ===== *)
(** * TLS connections (src/tls.cpp)

    [flush_network], [fill_network], [pump] and the operations of [Conn], over
    the engine ([SSL], the memory BIO pair) as an interface and any [Reader] and
    [Writer] as the socket. *)

From S2P Require Import Prelude Result Bytes Wp Io TlsCache TlsConfig TlsConfigProps.

Set Default Proof Using "Type".

Definition SSL_ERROR_SSL : Z := 1.
Definition SSL_ERROR_WANT_READ : Z := 2.
Definition SSL_ERROR_WANT_WRITE : Z := 3.
Definition SSL_ERROR_SYSCALL : Z := 5.
Definition SSL_ERROR_ZERO_RETURN : Z := 6.

(** [State::transfer]. *)
Definition kTransfer : nat := 16 * 1024.

(** The default size of a BIO pair's buffers: what a flush_pending may have to move. *)
Definition kBioPair : nat := 17 * 1024.
#[global] Arguments kTransfer : simpl never.
#[global] Arguments kBioPair : simpl never.

(** ** The interface: one [SSL] over its BIO pair *)

Class Engine (V : Type) := {
  SSL_do_handshake : ST V Z;
  SSL_read : Z -> ST V (Z * bytes);       (* the code, and what it wrote to the buffer *)
  SSL_write : bytes -> Z -> ST V Z;       (* the buffer, and the count passed *)
  SSL_shutdown : ST V Z;
  SSL_get_error : Z -> V -> Z;
  BIO_pending : V -> Z;
  BIO_read : Z -> ST V (Z * bytes);
  BIO_write : bytes -> ST V Z;
  sock_close : ST V unit }.

Section transfer.
Context {V : Type} `{OpenSSL V, Engine V, Reader V, Writer V}.

(** [fuel] bounds the batches. *)
Fixpoint flush_network (fuel : nat) : ST V (Result unit) :=
  match fuel with
  | O => st_fail
  | S fuel =>
      pending <-- st_gets BIO_pending;
      if decide (pending <= 0)%Z then st_ok tt
      else
        r <-- BIO_read (Z.min pending (Z.of_nat kTransfer));
        if decide (r.1 <= 0)%Z then take_openssl_error
        else
          _ <-? w_write r.2;
          flush_network fuel
  end.

Definition flush_pending : ST V (Result unit) := flush_network (S kBioPair).

(** The loop of [fill_network] over what the socket gave. *)
Fixpoint fill_loop (fuel : nat) (d : bytes) : ST V (Result unit) :=
  if decide (d = []) then st_ok tt
  else
    match fuel with
    | O => st_fail
    | S fuel =>
        written <-- BIO_write d;
        if decide (written <= 0)%Z then take_openssl_error else fill_loop fuel (drop (Z.to_nat written) d)
    end.

Definition fill_network : ST V (Result unit) :=
  d <-? r_read kTransfer;
  if decide (length d = 0) then st_err (of_errc closed) else fill_loop (length d) d.

(** [pump]; [fuel] bounds the attempts. *)
Fixpoint pump {A} (attempt : ST V (Z * A)) (fuel : nat) : ST V (Result (Z * A)) :=
  match fuel with
  | O => st_fail
  | S fuel =>
      discard_openssl_errors;;;
      rc <-- attempt;
      if decide (0 < rc.1)%Z then flush_pending;;? st_ok rc
      else
        reason <-- st_gets (SSL_get_error rc.1);
        if decide (reason = SSL_ERROR_WANT_WRITE \/ reason = SSL_ERROR_WANT_READ) then
          flush_pending;;?
          (if decide (reason = SSL_ERROR_WANT_READ) then fill_network else st_ok tt);;?
          pump attempt fuel
        else if decide (reason = SSL_ERROR_ZERO_RETURN) then st_ok (0%Z, rc.2)
        else if decide (reason = SSL_ERROR_SYSCALL) then
          peek <-- st_gets ERR_peek_error;
          if decide (peek = 0%Z) then st_err (of_errc closed) else take_openssl_error
        else take_openssl_error
  end.
End transfer.

(** ** [Conn] *)

(** An attempt without data. *)
Definition plain {V} (m : ST V Z) : ST V (Z * unit) := rc <-- m; st_ret (rc, tt).

(** [static_cast<int>(size)]. *)
Definition int_of_size (n : nat) : Z := sgn 32 (wrap 32 (Z.of_nat n)).

Section conn.
Context {V : Type} `{OpenSSL V, Engine V, Reader V, Writer V, Refs V}.

(** The state of the runtime: the connection ([None] once moved from) and what
    it shares. *)
Definition World : Type := option State * (Slot * V).

Definition on_conn {A} (m : ST (State * (Slot * V)) (Result A)) : ST World (Result A) := fun '(c, w) =>
  match c with
  | None => Some (Err (of_errno EBADF), (None, w))
  | Some st => match m (st, w) with Some (r, (st, w)) => Some (r, (Some st, w)) | None => None end
  end.

Definition state_handshake (fuel : nat) : ST (State * (Slot * V)) (Result unit) :=
  st <-- st_gets fst;
  if handshake_done st then st_ok tt
  else
    configure;;?
    rc <-? st_snd (st_snd (pump (plain SSL_do_handshake) fuel));
    if decide (rc.1 <= 0)%Z then st_err (of_errc closed) else upd set_handshake_done.

Definition handshake (fuel : nat) : ST World (Result unit) := on_conn (state_handshake fuel).

Definition ensure_handshake (fuel : nat) : ST (State * (Slot * V)) (Result unit) :=
  st <-- st_gets fst; if handshake_done st then st_ok tt else state_handshake fuel.

(** The end of [read]: an engine that found the transport closed is reported as
    the end of the stream. *)
Definition read_result (rc : Result (Z * bytes)) : Result bytes :=
  match rc with
  | Err e => if is_errc e closed then Ok [] else Err e
  | Ok rc => if decide (rc.1 <= 0)%Z then Ok [] else Ok rc.2
  end.

Definition state_read (fuel n : nat) : ST (State * (Slot * V)) (Result bytes) :=
  ensure_handshake fuel;;?
  rc <-- st_snd (st_snd (pump (SSL_read (int_of_size n)) fuel));
  st_ret (read_result rc).

Definition read (fuel n : nat) : ST World (Result bytes) :=
  on_conn (if decide (n = 0) then st_ok [] else state_read fuel n).

Definition state_write (fuel : nat) (buffer : bytes) : ST (State * (Slot * V)) (Result Z) :=
  ensure_handshake fuel;;?
  rc <-? st_snd (st_snd (pump (plain (SSL_write buffer (int_of_size (length buffer)))) fuel));
  if decide (rc.1 <= 0)%Z then st_err (of_errc closed) else st_ok rc.1.

Definition write (fuel : nat) (buffer : bytes) : ST World (Result Z) :=
  on_conn (if decide (buffer = []) then st_ok 0%Z else state_write fuel buffer).

(** The close of the underlying socket. *)
Definition close_socket : ST (State * (Slot * V)) unit := st_snd (st_snd sock_close).

Definition state_shutdown : ST (State * (Slot * V)) (Result unit) :=
  st <-- st_gets fst;
  if shutdown_sent st || negb (handshake_done st) then close_socket;;; st_ok tt
  else
    upd set_shutdown_sent;;?
    flushed <-- st_snd (st_snd (discard_openssl_errors;;; _ <-- SSL_shutdown; flush_pending));
    close_socket;;;
    st_ret flushed.

Definition shutdown : ST World (Result unit) := fun w =>
  match w.1 with None => Some (Ok tt, w) | Some _ => on_conn state_shutdown w end.

(** The methods that go to the socket: [local_addr] and [remote_addr] fail
    without a connection; the deadlines, the token and [close] do nothing. *)
Definition address {Addr} (socket_addr : ST V (Result Addr)) : ST World (Result Addr) := on_conn (st_snd (st_snd socket_addr)).
Definition delegate (socket_op : ST V unit) : ST World unit := fun w =>
  match w with
  | (None, _) => Some (tt, w)
  | (Some st, (slot, v)) => '(_, v) ← socket_op v; Some (tt, (Some st, (slot, v)))
  end.

(** What the connection says of its [SSL] ([protocol_version],
    [negotiated_protocol], [did_resume], [server_name]); [unknown] before there is
    one. *)
Definition describe {A} (unknown : A) (of_ssl : Ptr -> V -> A) : World -> A := fun w =>
  match w with
  | (Some st, (_, v)) => if decide (ssl st = 0%Z) then unknown else of_ssl (ssl st) v
  | (None, _) => unknown
  end.
End conn.

(** * Theorems on TLS connections

    Against the laws of the engine and of the socket: what a [Conn] delivers is
    what its peer sent, in order; what it writes reaches the socket whole before
    the call returns; every loop ends. *)

(** ** The laws of the engine *)

(** What an engine stands for: the ciphertext in its two buffers, all the
    ciphertext it has produced, the plaintext its peer has for us, and the
    plaintext it has taken from us. *)
Record Ghost := mkGhost { inbuf : bytes; outbuf : bytes; produced : bytes; incoming : bytes; sealed : bytes }.

Definition wants (reason : Z) : Prop := reason = SSL_ERROR_WANT_WRITE \/ reason = SSL_ERROR_WANT_READ.

Class EngineSpec (V : Type) `{OpenSSL V, !OpenSSLSpec V, Engine V, !Reader V, !Valid V, !ReaderSpec V, !Writer V, !WriterSpec V} := {
  gh : V -> Ghost;
  (** How often the engine still asks for input or output. *)
  turns : V -> nat;

  (** The socket, the engine and everything about the plaintext stay. *)
  still (w w' : V) : Prop :=
    gh w' = gh w /\ stream w' = stream w /\ sink w' = sink w /\ (valid w -> valid w') /\ turns w' <= turns w;
  ossl_still c w : freed RSsl c = None -> still w (ossl c w).2;
  error_still w : still w (ERR_get_error w).2;

  (** The socket is apart from the engine. *)
  sock_read_keeps n w r w' : r_read n w = Some (r, w') -> gh w' = gh w /\ turns w' <= turns w;
  sock_write_keeps d w r w' : w_write d w = Some (r, w') -> gh w' = gh w /\ turns w' <= turns w;
  close_total w : exists w', sock_close w = Some (tt, w') /\ gh w' = gh w /\ sink w' = sink w;

  (** The BIO pair. *)
  out_bounded w : valid w -> length (outbuf (gh w)) <= kBioPair;
  pending_spec w : BIO_pending w = Z.of_nat (length (outbuf (gh w)));
  bio_read_spec n w : valid w -> (0 < n)%Z -> outbuf (gh w) <> [] -> exists d w',
    BIO_read n w = Some ((Z.of_nat (length d), d), w') /\ d <> [] /\ valid w' /\ stream w' = stream w /\ sink w' = sink w /\
    turns w' <= turns w /\ outbuf (gh w) = d ++ outbuf (gh w') /\
    gh w' = mkGhost (inbuf (gh w)) (outbuf (gh w')) (produced (gh w)) (incoming (gh w)) (sealed (gh w));
  bio_write_spec d w : valid w -> d <> [] -> length (inbuf (gh w)) + length d <= kBioPair -> exists k w',
    BIO_write d w = Some (Z.of_nat k, w') /\ 0 < k <= length d /\ valid w' /\ stream w' = stream w /\ sink w' = sink w /\
    turns w' <= turns w /\
    gh w' = mkGhost (inbuf (gh w) ++ take k d) (outbuf (gh w)) (produced (gh w)) (incoming (gh w)) (sealed (gh w));

  (** One call of the engine: it appends to its output; a success has its
      effect, a refusal moves no plaintext, and one that asks for input has used
      all it had. *)
  engine_op {A} (m : ST V (Z * A)) (eff : Z * A -> Ghost -> Ghost -> Prop) : Prop := forall w, valid w ->
    exists x w' ext, m w = Some (x, w') /\ valid w' /\ stream w' = stream w /\ sink w' = sink w /\ turns w' <= turns w /\
      outbuf (gh w') = outbuf (gh w) ++ ext /\ produced (gh w') = produced (gh w) ++ ext /\
      if decide (0 < x.1)%Z then eff x (gh w) (gh w')
      else
        incoming (gh w') = incoming (gh w) /\ sealed (gh w') = sealed (gh w) /\
        (SSL_get_error x.1 w' = SSL_ERROR_WANT_READ -> inbuf (gh w') = []) /\
        (SSL_get_error x.1 w' = SSL_ERROR_ZERO_RETURN -> incoming (gh w') = []) /\
        (wants (SSL_get_error x.1 w') -> turns w' < turns w);
  handshake_op : engine_op (plain SSL_do_handshake) (fun _ g g' => incoming g' = incoming g /\ sealed g' = sealed g);
  shutdown_op : engine_op (plain SSL_shutdown) (fun _ g g' => incoming g' = incoming g /\ sealed g' = sealed g);
  read_op n : (0 < n)%Z -> engine_op (SSL_read n) (fun x g g' =>
    x.1 = Z.of_nat (length x.2) /\ (x.1 <= n)%Z /\ incoming g = x.2 ++ incoming g' /\ sealed g' = sealed g);
  write_op d n : (0 < n <= Z.of_nat (length d))%Z -> engine_op (plain (SSL_write d n)) (fun x g g' =>
    x.1 = n /\ incoming g' = incoming g /\ sealed g' = sealed g ++ take (Z.to_nat n) d) }.

(** ** The transfer of ciphertext *)

Section transfer.
Context {V : Type} `{OV : OpenSSL V} {OS : OpenSSLSpec V} `{EV : Engine V} `{RV : Reader V} `{VV : Valid V} {RS : ReaderSpec V}
  `{WV : Writer V} {WS : WriterSpec V} {FW : FullWriter V} {IN : Independent V} {ES : EngineSpec V}.

(** All the ciphertext is on the socket or in the output buffer, in order. *)
Definition wired (w : V) : Prop := produced (gh w) = sink w ++ outbuf (gh w).

(** Nothing of the plaintext has moved. *)
Definition same_plain (w w' : V) : Prop :=
  incoming (gh w') = incoming (gh w) /\ sealed (gh w') = sealed (gh w).

#[global] Instance still_preserved : Preserved (W := V) still.
Proof using ES.
  split.
  - intros w. by split_and!.
  - intros w1 w2 w3 (A1 & B1 & C1 & D1 & E1) (A2 & B2 & C2 & D2 & E2). split_and!; try congruence; [auto|lia].
  - intros c w Hc. by apply ossl_still.
  - intros w. apply error_still.
Qed.

(** A program of the configuration, total by its log, that moves nothing. *)
Lemma still_wp {A} (m : ST V A) (P : A -> list (Call * Z) -> Prop) w : moves still id m -> logs m P w ->
  runs m (fun a w' => still w w' /\ exists l, P a l) w.
Proof using ES. intros Hk (a & w' & Hm & l & _ & HP). exists a, w'. split; [done|]. split; [by apply (Hk _ _ _ Hm)|by exists l]. Qed.

Lemma take_error_wp {A} w : runs (take_openssl_error (A := A)) (fun r w' => still w w' /\ r = Err (of_errc broken)) w.
Proof using ES.
  eapply runs_mono; [apply still_wp; [apply moves_take_error; exact _|apply logs_take_error]|]. intros r w' [Hs (l & -> & _)]. done.
Qed.

Lemma discard_wp w : runs discard_openssl_errors (fun _ w' => still w w') w.
Proof using ES. eapply runs_mono; [apply still_wp; [apply moves_drain; exact _|apply logs_discard]|]. by intros r w' [Hs _]. Qed.

Lemma still_wired w w' : still w w' -> wired w -> wired w'.
Proof using Type. intros (A1 & _ & C1 & _) Hw. unfold wired. by rewrite A1, C1. Qed.

(** The socket refused to send, and the state is the one it left. *)
Definition send_failed (e : Error) (w' : V) : Prop := exists d w, w_write d w = Some (Err e, w').

(** What a flush does. *)
Definition flushed (w : V) (r : Result unit) (w' : V) : Prop :=
  valid w' /\ stream w' = stream w /\ same_plain w w' /\ inbuf (gh w') = inbuf (gh w) /\ turns w' <= turns w /\
  match r with Ok _ => wired w' /\ outbuf (gh w') = [] | Err e => send_failed e w' end.

Lemma flush_network_wp fuel : forall w, valid w -> wired w -> length (outbuf (gh w)) < fuel -> runs (flush_network fuel) (flushed w) w.
Proof using ES FW IN.
  induction fuel as [|fuel IH]; intros w Hv Hw Hf; [lia|]. cbn [flush_network]. apply runs_bind, runs_gets. rewrite pending_spec.
  case_decide as Hp.
  { apply runs_ret. split_and!; try done. apply nil_length_inv. lia. }
  destruct (bio_read_spec (Z.min (Z.of_nat (length (outbuf (gh w)))) (Z.of_nat kTransfer)) w Hv) as
    (d & w1 & Hr & Hd & Hv1 & Hst1 & Hsk1 & Ht1 & Ho1 & Hg1).
  { change (Z.of_nat kTransfer) with 16384%Z. lia. }
  { intros E. rewrite E in Hp. done. }
  apply runs_bind. eexists _, w1. split; [exact Hr|]. cbn [fst snd]. rewrite decide_False by (destruct d; [done|cbn; lia]).
  destruct (write_total d w1 Hv1) as ([k|e] & w2 & Hwr & Hv2); destruct (sock_write_keeps _ _ _ _ Hwr) as [Hg2 Ht2];
    pose proof (write_stream _ _ _ _ Hv1 Hwr) as Hst2; apply runs_try; eexists _, w2; (split; [exact Hwr|]); cbn [on_ok].
  - pose proof (write_full _ _ _ _ Hv1 Hwr) as Hk. subst k. pose proof (write_ok _ _ _ Hv1 Hwr) as Hsk2.
    eapply runs_mono; [apply IH; [done| |]|].
    + unfold wired. rewrite Hg2, Hg1. cbn [produced outbuf]. rewrite Hsk2, Hsk1, Hw, Ho1, <-app_assoc. done.
    + rewrite Hg2. rewrite Ho1, length_app in Hf. destruct d; [done|]. cbn in Hf. lia.
    + intros r w' (Hv' & Hst' & [Hi' Hs'] & Hib' & Ht' & Hok). rewrite Hg2, Hg1 in Hi', Hs', Hib'. cbn in Hi', Hs', Hib'.
      split_and!; try done; [congruence|lia].
  - split_and!; try done; try congruence; try lia; [split; by rewrite Hg2, Hg1|by rewrite Hg2, Hg1|by exists d, w1].
Qed.

Lemma flush_wp w : valid w -> wired w -> runs flush_pending (flushed w) w.
Proof using ES FW IN. intros Hv Hw. apply flush_network_wp; [done|done|]. pose proof (out_bounded w Hv). lia. Qed.

(** Why no input came: the socket's own error, or its end, which is reported as
    [closed]. *)
Definition receive_failed (e : Error) (w' : V) : Prop :=
  (exists w, r_read kTransfer w = Some (Err e, w')) \/
  (e = of_errc closed /\ stream w' = [] /\ exists w, r_read kTransfer w = Some (Ok [], w')).

(** What a fill does to an engine that had used all its input. *)
Definition filled (w : V) (r : Result unit) (w' : V) : Prop :=
  valid w' /\ same_plain w w' /\ outbuf (gh w') = outbuf (gh w) /\ turns w' <= turns w /\ (wired w -> wired w') /\
  match r with
  | Ok _ => exists d, d <> [] /\ stream w = d ++ stream w' /\ inbuf (gh w') = inbuf (gh w) ++ d
  | Err e => receive_failed e w'
  end.

Lemma fill_loop_wp fuel : forall d w, valid w -> length d <= fuel -> length (inbuf (gh w)) + length d <= kBioPair ->
  runs (fill_loop fuel d) (fun r w' => valid w' /\ same_plain w w' /\ outbuf (gh w') = outbuf (gh w) /\ turns w' <= turns w /\
    stream w' = stream w /\ sink w' = sink w /\ produced (gh w') = produced (gh w) /\
    r = Ok tt /\ inbuf (gh w') = inbuf (gh w) ++ d) w.
Proof using ES.
  induction fuel as [|fuel IH]; intros d w Hv Hl Hb; cbn [fill_loop].
  { destruct d; [|cbn in Hl; lia]. apply runs_ret. by rewrite app_nil_r. }
  case_decide as Hd; [subst; apply runs_ret; by rewrite app_nil_r|].
  destruct (bio_write_spec d w Hv Hd Hb) as (k & w1 & Hr & Hk & Hv1 & Hst1 & Hsk1 & Ht1 & Hg1).
  apply runs_bind. eexists _, w1. split; [exact Hr|]. rewrite decide_False by lia. rewrite Nat2Z.id.
  eapply runs_mono; [apply IH; [done|rewrite length_drop; lia|]|].
  - rewrite Hg1. cbn [inbuf]. rewrite length_app, length_take, length_drop. lia.
  - intros r w' (Hv' & [Hi' Hs'] & Ho' & Ht' & Hst' & Hsk' & Hp' & Hr' & Hib'). rewrite Hg1 in Hi', Hs', Ho', Hp', Hib'. cbn in Hi', Hs', Ho', Hp', Hib'.
    split_and!; try done; try congruence; [lia|]. rewrite Hib', <-app_assoc. by rewrite take_drop.
Qed.

Lemma fill_network_wp w : valid w -> inbuf (gh w) = [] -> runs fill_network (filled w) w.
Proof using ES IN.
  intros Hv Hib. unfold fill_network.
  destruct (read_total kTransfer w Hv) as ([d|e] & w1 & Hr & Hv1); destruct (sock_read_keeps _ _ _ _ Hr) as [Hg1 Ht1];
    pose proof (read_sink _ _ _ _ Hv Hr) as Hsk1; apply runs_try; eexists _, w1; (split; [exact Hr|]); cbn [on_ok].
  2: { split_and!; try done; [split; by rewrite Hg1|by rewrite Hg1| |left; by exists w]. unfold wired. by rewrite Hg1, Hsk1. }
  destruct (read_ok _ _ _ _ Hv Hr) as (Hl & Hs & Hend). case_decide as Hd.
  { apply nil_length_inv in Hd. subst d. apply runs_ret. split_and!; try done; [split; by rewrite Hg1|by rewrite Hg1| |].
    - unfold wired. by rewrite Hg1, Hsk1.
    - right. split; [done|]. split; [|by exists w]. cbn in Hs. rewrite <-Hs. apply Hend; [done|unfold kTransfer; lia]. }
  eapply runs_mono; [apply fill_loop_wp; [done|done|rewrite Hg1, Hib; cbn [length]; unfold kTransfer, kBioPair in *; lia]|].
  intros r w' (Hv' & [Hi' Hse'] & Ho' & Ht' & Hst' & Hsk' & Hp' & Hr' & Hib'). rewrite Hg1 in Hi', Hse', Ho', Hp', Hib'.
  subst r. split_and!; try done; [lia|unfold wired; congruence|].
  exists d. split; [by intros ->|]. split; [congruence|done].
Qed.
End transfer.

(** ** The loop around the engine *)

Section pumping.
Context {V : Type} `{OV : OpenSSL V} {OS : OpenSSLSpec V} `{EV : Engine V} `{RV : Reader V} `{VV : Valid V} {RS : ReaderSpec V}
  `{WV : Writer V} {WS : WriterSpec V} {FW : FullWriter V} {IN : Independent V} {ES : EngineSpec V}.

Lemma same_plain_trans w1 w2 w3 : same_plain w1 w2 -> same_plain w2 w3 -> same_plain w1 w3.
Proof. intros [A B] [C D]. split; congruence. Qed.

(** The effect of a successful attempt, between two states of the connection. *)
Definition effected {A} (eff : Z * A -> Ghost -> Ghost -> Prop) (x : Z * A) (w w' : V) : Prop :=
  exists g g', eff x g g' /\ incoming g = incoming (gh w) /\ sealed g = sealed (gh w) /\
    incoming g' = incoming (gh w') /\ sealed g' = sealed (gh w').

(** Why an attempt failed: OpenSSL's own errors are all [broken]; the socket's are
    passed on; [closed] is also an engine that lost its transport without one. *)
Definition cause (e : Error) (w' : V) : Prop :=
  e = of_errc broken \/ send_failed e w' \/ receive_failed e w' \/
  (e = of_errc closed /\ ERR_peek_error w' = 0%Z /\ exists rc, SSL_get_error rc w' = SSL_ERROR_SYSCALL).

(** How a pump ends: the attempt succeeded and its output is on the socket, the
    peer has closed, or an error; the effect is lost only when its output was not
    sent. *)
Definition pumped {A} (eff : Z * A -> Ghost -> Ghost -> Prop) (w : V) (r : Result (Z * A)) (w' : V) : Prop :=
  valid w' /\ turns w' <= turns w /\
  match r with
  | Ok x =>
      wired w' /\
      if decide (0 < x.1)%Z then outbuf (gh w') = [] /\ effected eff x w w'
      else x.1 = 0%Z /\ incoming (gh w') = [] /\ same_plain w w'
  | Err e => (same_plain w w' /\ cause e w') \/ (send_failed e w' /\ exists x, effected eff x w w')
  end.

Lemma pumped_after {A} (eff : Z * A -> Ghost -> Ghost -> Prop) w w1 r w' :
  turns w1 <= turns w -> same_plain w w1 -> pumped eff w1 r w' -> pumped eff w r w'.
Proof.
  intros Ht [Hi Hs] (Hv & Ht' & Hr).
  assert (forall x, effected eff x w1 w' -> effected eff x w w') as He.
  { intros x (g & g' & He & A1 & A2 & A3 & A4). exists g, g'. split_and!; congruence. }
  split; [done|]. split; [lia|]. destruct r as [x|e].
  - destruct Hr as [Hw Hr]. split; [done|]. case_decide; [destruct Hr; split; [done|by apply He]|].
    destruct Hr as (H0 & Hn & Hsp). split_and!; try done. by eapply same_plain_trans.
  - destruct Hr as [[Hsp Hc]|[Hc [x Hx]]]; [left; split; [by eapply same_plain_trans|done]|right; split; [done|exists x; by apply He]].
Qed.

Lemma pump_wp {A} (attempt : ST V (Z * A)) eff : engine_op attempt eff -> forall fuel w, valid w -> wired w -> turns w < fuel ->
  runs (pump attempt fuel) (pumped eff w) w.
Proof using ES FW IN.
  intros Hop. induction fuel as [|fuel IH]; intros w Hv Hw Hf; [lia|]. cbn [pump].
  apply runs_bind. eapply runs_mono; [apply discard_wp|]. intros [] w1 Hst1.
  pose proof (still_wired _ _ Hst1 Hw) as Hw1. destruct Hst1 as (Hg1 & Hs1 & Hk1 & Hv1 & Ht1). specialize (Hv1 Hv).
  assert (same_plain w w1) as Hsp1 by (split; by rewrite Hg1).
  cut (runs (rc <-- attempt;
    (if decide (0 < rc.1)%Z then flush_pending;;? st_ok rc
     else
      reason <-- st_gets (SSL_get_error rc.1);
      if decide (reason = SSL_ERROR_WANT_WRITE \/ reason = SSL_ERROR_WANT_READ) then
        flush_pending;;? (if decide (reason = SSL_ERROR_WANT_READ) then fill_network else st_ok tt);;? pump attempt fuel
      else if decide (reason = SSL_ERROR_ZERO_RETURN) then st_ok (0%Z, rc.2)
      else if decide (reason = SSL_ERROR_SYSCALL) then
        peek <-- st_gets ERR_peek_error; if decide (peek = 0%Z) then st_err (of_errc closed) else take_openssl_error
      else take_openssl_error)) (pumped eff w1) w1).
  { intros Hm. eapply runs_mono; [exact Hm|]. intros r w'. by apply pumped_after. }
  destruct (Hop w1 Hv1) as (x & w2 & ext & Hx & Hv2 & Hs2 & Hk2 & Ht2 & Ho2 & Hp2 & Hcase).
  assert (wired w2) as Hw2 by (unfold wired; rewrite Hp2, Ho2, Hw1, Hk2; by rewrite app_assoc).
  apply runs_bind. exists x, w2. split; [done|]. case_decide as Hpos.
  { apply runs_try. eapply runs_mono; [by apply flush_wp|]. intros [[]|e] w3 (Hv3 & Hs3 & [Hi3 Hse3] & Hib3 & Ht3 & Hok3); cbn [on_ok].
    - destruct Hok3 as [Hw3 Ho3]. apply runs_ret. split; [done|]. split; [lia|]. split; [done|]. rewrite decide_True by done.
      split; [done|]. exists (gh w1), (gh w2). by split_and!.
    - split; [done|]. split; [lia|]. right. split; [done|]. exists x, (gh w1), (gh w2). by split_and!. }
  destruct Hcase as (Hi2 & Hse2 & Hread & Hzero & Hturns).
  assert (same_plain w1 w2) as Hsp2 by by split.
  assert (forall w3 e, valid w3 -> turns w3 <= turns w2 -> same_plain w2 w3 -> cause e w3 -> pumped eff w1 (Err (T := Z * A) e) w3) as Herr.
  { intros w3 e Hv3 Ht3 Hsp3 Hc3. split; [done|]. split; [lia|]. left. split; [by eapply same_plain_trans|done]. }
  apply runs_bind, runs_gets. case_decide as Hwant.
  { specialize (Hturns Hwant). apply runs_try. eapply runs_mono; [by apply flush_wp|].
    intros [[]|e] w3 (Hv3 & Hs3 & Hsp3 & Hib3 & Ht3 & Hok3); cbn [on_ok]; [|apply Herr; [done..|by right; left]].
    destruct Hok3 as [Hw3 Ho3]. apply runs_try.
    assert (runs (if decide (SSL_get_error x.1 w2 = SSL_ERROR_WANT_READ) then fill_network else st_ok tt)
      (fun r w4 => valid w4 /\ same_plain w3 w4 /\ turns w4 <= turns w3 /\ wired w4 /\ match r with Ok _ => True | Err e => receive_failed e w4 end) w3) as Hfill.
    { case_decide as Hrd; [|by apply runs_ret; split_and!]. eapply runs_mono; [apply fill_network_wp; [done|rewrite Hib3; by apply Hread]|].
      intros r w4 (Hv4 & Hsp4 & _ & Ht4 & Hw4 & Hr4). split_and!; auto. by destruct r. }
    eapply runs_mono; [exact Hfill|]. intros [[]|e] w4 (Hv4 & Hsp4 & Ht4 & Hw4 & Hr4); cbn [on_ok].
    2: { apply Herr; [done|lia|by eapply same_plain_trans|by right; right; left]. }
    eapply runs_mono; [apply IH; [done|done|lia]|]. intros r w5. apply pumped_after; [lia|].
    eapply same_plain_trans; [done|]. by eapply same_plain_trans. }
  case_decide as Hz.
  { apply runs_ret. split; [done|]. split; [lia|]. split; [done|]. rewrite decide_False by (cbn; lia). split_and!; try done. by apply Hzero. }
  assert (runs (take_openssl_error (A := Z * A)) (pumped eff w1) w2) as Htake.
  { eapply runs_mono; [apply take_error_wp|]. intros r w3 [(Hg3 & _ & _ & Hv3 & Ht3) ->]. apply Herr; [auto|lia| |by left]. split; by rewrite Hg3. }
  case_decide; [|done]. apply runs_bind, runs_gets. case_decide; [|done]. apply runs_ret. apply Herr; [done|lia|done|].
  right. right. right. split_and!; [done|done|by exists x.1].
Qed.
End pumping.

(** ** The operations of a connection *)

Section conn.
Context {V : Type} `{OV : OpenSSL V} {OS : OpenSSLSpec V} `{EV : Engine V} `{RV : Reader V} `{VV : Valid V} {RS : ReaderSpec V}
  `{WV : Writer V} {WS : WriterSpec V} {FW : FullWriter V} {IN : Independent V} {ES : EngineSpec V}.


Lemma on_world {S0 S1 A} (m : ST V A) (Q : A -> S0 * (S1 * V) -> Prop) s0 s1 v :
  runs m (fun a v' => Q a (s0, (s1, v'))) v -> runs (st_snd (st_snd m)) Q (s0, (s1, v)).
Proof. intros Hm. by apply runs_snd, runs_snd. Qed.

Section established.
Context `{RfV : Refs V} (st : State) (Hdone : handshake_done st = true).





End established.

Section lifecycle.
Context `{RfV : Refs V} {RsV : RefsSpec V} {TW : TlsWorld V}
  (Hup : forall s (w : V) u w', up_ref s w = Some (u, w') -> still w w')
  (Hfree : forall s (w : V) u w', session_free s w = Some (u, w') -> still w w').

(** The connection is configured, or can be. *)
Definition startable (st : State) (slot : Slot) (v : V) : Prop := configured st = false -> cache_ok (config st) slot v.

Lemma configure_wp st slot v : handshake_done st = false -> startable st slot v ->
  runs configure (fun r p => still v p.2.2 /\ handshake_done p.1 = false /\ (r = Ok tt -> configured p.1 = true)) (st, (slot, v)).
Proof using TW ES Hup Hfree.
  intros Hd Hs. destruct (configured st) eqn:Hc.
  - exists (Ok tt), (st, (slot, v)). unfold configure, st_bind, st_gets. cbn. rewrite Hc. split; [done|]. split; [|by split].
    apply (pres_refl (R := still)).
  - destruct (configure_log st slot v Hc (Hs Hc)) as (r & p & Hr & l & _ & _ & _ & Hd' & _ & Hcase). exists r, p. split; [done|].
    split; [exact (moves_configure still Hup Hfree _ _ _ Hr)|]. split; [by rewrite Hd'|]. intros ->. apply Hcase.
Qed.

Lemma handshake_run fuel st slot v : handshake_done st = false -> startable st slot v -> valid v -> wired v -> turns v < fuel ->
  exists r st' slot' v', handshake fuel (Some st, (slot, v)) = Some (r, (Some st', (slot', v'))) /\ valid v' /\ same_plain v v' /\
    (r = Ok tt <-> handshake_done st' = true) /\ (r = Ok tt -> configured st' = true /\ wired v' /\ outbuf (gh v') = []).
Proof using TW ES FW IN Hup Hfree.
  intros Hd Hs Hv Hw Hf.
  assert (runs (state_handshake fuel) (fun r p => valid p.2.2 /\ same_plain v p.2.2 /\ (r = Ok tt <-> handshake_done p.1 = true) /\
    (r = Ok tt -> configured p.1 = true /\ wired p.2.2 /\ outbuf (gh p.2.2) = [])) (st, (slot, v))) as (r & [st' [slot' v']] & Hr & H).
  2: { exists r, st', slot', v'. unfold handshake, on_conn. rewrite Hr. split; [done|exact H]. }
  unfold state_handshake. apply runs_bind, runs_gets. cbn [fst]. rewrite Hd.
  apply runs_try. eapply runs_mono; [by apply configure_wp|]. intros [[]|e] [st1 [slot1 v1]] (Hst1 & Hd1 & Hc1); cbn [fst snd on_ok] in *;
    pose proof (still_wired _ _ Hst1 Hw) as Hw1; destruct Hst1 as (Hg1 & _ & _ & Hv1 & Ht1); specialize (Hv1 Hv);
    (assert (same_plain v v1) as Hsp1 by (split; by rewrite Hg1)).
  2: { split_and!; try done. split; [done|]. by rewrite Hd1. }
  specialize (Hc1 eq_refl).
  apply runs_try, on_world. eapply runs_mono; [apply (pump_wp _ _ handshake_op fuel v1); [done|done|lia]|].
  intros [x|e] v2 (Hv2 & _ & Hr2); cbn [on_ok].
  - destruct Hr2 as [Hw2 Hr2]. case_decide as Hpos.
    + rewrite decide_False by lia. destruct Hr2 as [Ho2 (g & g' & [Hi Hse] & E1 & E2 & E3 & E4)]. apply upd_step. cbn.
      split_and!; try done. split; destruct Hsp1; congruence.
    + destruct Hr2 as (Hz & _ & Hsp2). rewrite decide_True by lia. apply runs_ret. cbn. split_and!; try done; try (by rewrite Hd1). by eapply same_plain_trans.
  - cbn. split_and!; try done; try (by rewrite Hd1).
    destruct Hr2 as [[Hsp2 _]|(_ & x & g & g' & [Hi Hse] & E1 & E2 & E3 & E4)]; [by eapply same_plain_trans|]. split; destruct Hsp1; congruence.
Qed.
End lifecycle.

Lemma shutdown_run st slot v `{RfV : Refs V} : valid v -> wired v ->
  exists r st' v', shutdown (Some st, (slot, v)) = Some (r, (Some st', (slot, v'))) /\
    shutdown_sent st' = shutdown_sent st || handshake_done st /\ same_plain v v' /\
    (shutdown_sent st || negb (handshake_done st) = true -> r = Ok tt /\ sink v' = sink v) /\
    (r = Ok tt -> shutdown_sent st = false -> handshake_done st = true -> sink v' = produced (gh v')).
Proof using ES FW IN.
  intros Hv Hw.
  assert (runs state_shutdown (fun r p => p.2.1 = slot /\ shutdown_sent p.1 = shutdown_sent st || handshake_done st /\ same_plain v p.2.2 /\
    (shutdown_sent st || negb (handshake_done st) = true -> r = Ok tt /\ sink p.2.2 = sink v) /\
    (r = Ok tt -> shutdown_sent st = false -> handshake_done st = true -> sink p.2.2 = produced (gh p.2.2))) (st, (slot, v)))
    as (r & [st' [slot' v']] & Hr & <- & H).
  2: { exists r, st', v'. unfold shutdown, on_conn. cbn [fst]. by rewrite Hr. }
  unfold state_shutdown. apply runs_bind, runs_gets. cbn [fst].
  assert (forall st0 w0 (Q : unit -> State * (Slot * V) -> Prop), (forall w1, gh w1 = gh w0 -> sink w1 = sink w0 -> Q tt (st0, (slot, w1))) ->
    runs close_socket Q (st0, (slot, w0))) as Hclose.
  { intros st0 w0 Q HQ. apply on_world. destruct (close_total w0) as (w1 & Hc & Hg & Hk). exists tt, w1. split; [done|by apply HQ]. }
  destruct (shutdown_sent st || negb (handshake_done st)) eqn:Hb.
  { apply runs_bind, Hclose. intros w1 Hg Hk. apply runs_ret. cbn. split_and!; try done.
    - destruct (shutdown_sent st), (handshake_done st); done.
    - split; by rewrite Hg.
    - intros _ H1 H2. by rewrite H1, H2 in Hb. }
  apply orb_false_iff in Hb as [Hb1 Hb2]. apply negb_false_iff in Hb2.
  apply runs_try, upd_step. cbn [on_ok]. apply runs_bind, on_world.
  apply runs_bind. eapply runs_mono; [apply discard_wp|]. intros [] w1 Hst1. pose proof (still_wired _ _ Hst1 Hw) as Hw1.
  destruct Hst1 as (Hg1 & Hs1 & Hk1 & Hv1 & Ht1). specialize (Hv1 Hv).
  destruct (shutdown_op w1 Hv1) as (x & w2 & ext & Hx & Hv2 & Hs2 & Hk2 & Ht2 & Ho2 & Hp2 & Hcase).
  assert (same_plain w1 w2) as Hsp2 by (case_decide; [done|by split; apply Hcase]).
  assert (wired w2) as Hw2 by (unfold wired; rewrite Hp2, Ho2, Hw1, Hk2; by rewrite app_assoc).
  apply runs_bind. unfold plain in Hx. apply bind_inv in Hx as (rc & w2' & Hrun & Hret). injection Hret as <- <-.
  exists rc, w2'. split; [done|]. eapply runs_mono; [by apply flush_wp|]. intros r w3 (Hv3 & Hs3 & Hsp3 & _ & _ & Hok3).
  apply runs_bind, Hclose. intros w4 Hg4 Hk4. apply runs_ret. cbn. split_and!; try done.
  - by rewrite Hb1, Hb2.
  - eapply same_plain_trans; [split; [exact (f_equal incoming Hg1)|exact (f_equal sealed Hg1)]|].
    eapply same_plain_trans; [done|]. eapply same_plain_trans; [done|]. split; by rewrite Hg4.
  - intros -> _ _. destruct Hok3 as [Hw3 Ho3]. rewrite Hk4, Hg4, Hw3, Ho3. by rewrite app_nil_r.
Qed.


(** [write] passes its size as an [int]: with 2^32 + k bytes, k below 2^31, it
    reports k bytes taken, and no error. *)
Lemma tls_write_short `{RfV : Refs V} st slot v fuel buffer k : handshake_done st = true -> valid v -> wired v -> turns v < fuel ->
  (0 < k < 2 ^ 31)%Z -> Z.of_nat (length buffer) = (2 ^ 32 + k)%Z ->
  exists r v', write fuel buffer (Some st, (slot, v)) = Some (r, (Some st, (slot, v'))) /\ (forall n, r = Ok n -> n = k).
Proof using ES FW IN.
  intros Hdone Hv Hw Hf Hk Hl. unfold write. rewrite decide_False by (intros ->; cbn in Hl; lia). unfold state_write.
  assert (int_of_size (length buffer) = k) as ->.
  { unfold int_of_size. rewrite Hl. assert (2 ^ 31 < 2 ^ 32)%Z by done.
    assert (wrap 32 (2 ^ 32 + k) = k) as ->.
    { unfold wrap. replace (2 ^ 32 + k)%Z with (k + 1 * 2 ^ 32)%Z by lia. rewrite Z.mod_add, Z.mod_small; lia. }
    unfold sgn. rewrite wrap_small by (unfold in_range; lia). rewrite decide_True; [done|]. change (32 - 1)%Z with 31%Z. lia. }
  destruct (pump_wp _ _ (write_op buffer k ltac:(lia)) fuel v Hv Hw Hf) as (rc & v' & Hm & Hv' & _ & Hr).
  exists (match rc with Ok x => if decide (x.1 <= 0)%Z then Err (of_errc closed) else Ok x.1 | Err e => Err e end), v'. split.
  { unfold on_conn, st_try, st_bind, ensure_handshake, st_gets. cbn. rewrite Hdone. cbn. rewrite Hm. cbn.
    destruct rc as [x|e]; [|done]. cbn. by destruct (decide (x.1 <= 0)%Z). }
  intros n Hn. destruct rc as [x|e]; [|done]. destruct Hr as [_ Hr]. case_decide as Hpos; [done|]. injection Hn as <-.
  rewrite decide_True in Hr by lia. by destruct Hr as [_ (g & g' & (H1 & _) & _)].
Qed.
End conn.

(** ** A concrete engine: the null cipher

    The ciphertext is the plaintext, and 0 is close_notify. [due] is what the
    peer has sent, whether the transport delivers it or not. *)

Module Null.

Record World := mkWorld {
  lib : Toy.World;
  tin : bytes;
  tout : bytes;
  due : bytes;
  ib : bytes;
  ob : bytes;
  made_ : bytes;
  taken : bytes;
  left : nat;
  last_error : Z }.

Fixpoint until_close (l : bytes) : bytes :=
  match l with [] => [] | c :: l => if decide (c = 0%Z) then [] else c :: until_close l end.

#[global] Instance null_openssl : OpenSSL World := {|
  ossl c w := let '(r, l) := ossl c (lib w) in
    (r, mkWorld l (tin w) (tout w) (due w) (ib w) (ob w) (made_ w) (taken w) (left w) (last_error w));
  ERR_get_error w := (0%Z, w);
  ERR_peek_error w := 0%Z |}.

#[global] Instance null_spec : OpenSSLSpec World.
Proof.
  refine {| calls := fun w => calls (lib w); errors := fun _ => [] |}; try done.
  - intros b w Hr. exact (new_fresh b (lib w) Hr).
  - intros w. cbn. lia.
Defined.

#[global] Instance null_reader : Reader World := fun n w =>
  Some (Ok (take n (tin w)), mkWorld (lib w) (drop n (tin w)) (tout w) (due w) (ib w) (ob w) (made_ w) (taken w) (left w) (last_error w)).
#[global] Instance null_writer : Writer World := fun d w =>
  Some (Ok (length d), mkWorld (lib w) (tin w) (tout w ++ d) (due w) (ib w) (ob w) (made_ w) (taken w) (left w) (last_error w)).
#[global] Instance null_valid : Valid World := fun w => length (ob w) <= kBioPair.

#[global] Instance null_reader_spec : ReaderSpec World.
Proof.
  refine {| stream := tin |}.
  - intros n w Hv. eexists _, _. by split.
  - intros n w d w' Hv [= <- <-]. cbn. rewrite length_take, take_drop. split_and!; [lia|done|].
    intros Hd Hn. destruct (tin w); [done|]. destruct n; [lia|done].
Defined.

#[global] Instance null_writer_spec : WriterSpec World.
Proof. refine {| sink := tout |}; [intros d w Hv; eexists _, _; by split|]. by intros d w w' Hv [= <-]. Defined.
#[global] Instance null_full : FullWriter World.
Proof. by intros d w k w' Hv [= <- <-]. Qed.
#[global] Instance null_independent : Independent World.
Proof. split; [by intros n w r w' Hv [= <- <-]|by intros d w r w' Hv [= <- <-]]. Qed.

(** The engine asks for input or output; it gives up when [left] is 0. *)
Definition ask (reason : Z) (ib : bytes) (w : World) : World :=
  mkWorld (lib w) (tin w) (tout w) (due w) ib (ob w) (made_ w) (taken w) (pred (left w))
    (if decide (left w = 0) then SSL_ERROR_SSL else reason).
Definition quiet (reason : Z) (w : World) : World :=
  mkWorld (lib w) (tin w) (tout w) (due w) (ib w) (ob w) (made_ w) (taken w) (left w) reason.

Definition null_read (n : Z) : ST World (Z * bytes) := fun w =>
  match ib w, due w with
  | [], _ => Some (((-1)%Z, []), ask SSL_ERROR_WANT_READ [] w)
  | c :: _, [] => Some ((0%Z, []), quiet (if decide (c = 0%Z) then SSL_ERROR_ZERO_RETURN else SSL_ERROR_SSL) w)
  | _ :: _, _ :: _ =>
      let d := take (Z.to_nat n `min` length (until_close (ib w))) (due w) in
      if decide (d = []) then Some (((-1)%Z, []), quiet SSL_ERROR_SSL w)
      else
        Some ((Z.of_nat (length d), d),
          mkWorld (lib w) (tin w) (tout w) (drop (length d) (due w)) (drop (length d) (ib w)) (ob w) (made_ w) (taken w) (left w) 0)
  end.

Definition null_write (d : bytes) (n : Z) : ST World Z := fun w =>
  let x := take (Z.to_nat n) d in
  if decide (length (ob w) + length x <= kBioPair) then
    Some (n, mkWorld (lib w) (tin w) (tout w) (due w) (ib w) (ob w ++ x) (made_ w ++ x) (taken w ++ x) (left w) 0)
  else Some ((-1)%Z, ask SSL_ERROR_WANT_WRITE (ib w) w).

#[global] Instance null_engine : Engine World := {|
  SSL_do_handshake := fun w => Some (1%Z, w);
  SSL_read := null_read;
  SSL_write := null_write;
  SSL_shutdown := fun w => Some (1%Z, w);
  SSL_get_error _ w := last_error w;
  BIO_pending w := Z.of_nat (length (ob w));
  BIO_read n w := let d := take (Z.to_nat n) (ob w) in
    Some ((Z.of_nat (length d), d),
      mkWorld (lib w) (tin w) (tout w) (due w) (ib w) (drop (Z.to_nat n) (ob w)) (made_ w) (taken w) (left w) (last_error w));
  BIO_write d w := Some (Z.of_nat (length d),
    mkWorld (lib w) (tin w) (tout w) (due w) (ib w ++ d) (ob w) (made_ w) (taken w) (left w) (last_error w));
  sock_close := fun w => Some (tt, w) |}.

Definition ghost (w : World) : Ghost := mkGhost (ib w) (ob w) (made_ w) (due w) (taken w).

(** A call of the engine that is refused. *)
Ltac refused :=
  eexists _, _, []; split; [reflexivity|]; unfold ask, quiet; cbn; rewrite !app_nil_r, (decide_False (P := (0 < _)%Z)) by lia; unfold wants;
  repeat case_decide; split_and!; try done; try lia; intros [?|?]; done.

#[global] Instance null_engine_spec : EngineSpec World.
Proof.
  refine {| gh := ghost; turns := left |}.
  - intros c w Hc. by split_and!.
  - intros w. by split_and!.
  - by intros n w r w' [= _ <-].
  - by intros d w r w' [= _ <-].
  - intros w. by exists w.
  - intros w Hv. exact Hv.
  - intros w. done.
  - intros n w Hv Hn Ho. set (d := take (Z.to_nat n) (ob w)).
    assert (d <> []).
    { subst d. unfold ghost in Ho. cbn in Ho. destruct (ob w); [done|]. destruct (Z.to_nat n) eqn:E; [lia|done]. }
    eexists d, _. split; [reflexivity|]. cbn. unfold ghost, valid, null_valid in *. cbn. rewrite length_drop. subst d. rewrite take_drop.
    split_and!; try done. lia.
  - intros d w Hv Hd _. eexists (length d), _. split; [reflexivity|]. cbn. destruct d; [done|]. rewrite firstn_all. cbn. split_and!; try done; lia.
  - intros w Hv. exists (1%Z, tt), w, []. cbn. rewrite !app_nil_r. by split_and!.
  - intros w Hv. exists (1%Z, tt), w, []. cbn. rewrite !app_nil_r. by split_and!.
  - intros n Hn w Hv. unfold SSL_read. cbn [null_engine]. unfold null_read. destruct (ib w) as [|c b] eqn:Hib.
    { refused. }
    destruct (due w) as [|p ps] eqn:Hdue.
    { refused. }
    set (d := take _ _). case_decide as Hd.
    { refused. }
    eexists _, _, []. split; [reflexivity|]. cbn. rewrite !app_nil_r. split_and!; try done.
    assert (length d <= Z.to_nat n) by (subst d; rewrite length_take; lia).
    rewrite decide_True by (destruct d; [done|cbn; lia]). split_and!; try done; [lia|]. rewrite Hdue. subst d. rewrite length_take.
    rewrite <-(take_drop (Z.to_nat n `min` length (until_close (c :: b))) (p :: ps)) at 1. f_equal.
    set (m := Z.to_nat n `min` _). destruct (decide (m <= length (p :: ps))); [by replace (m `min` length (p :: ps)) with m by lia|].
    replace (m `min` length (p :: ps)) with (length (p :: ps)) by lia. rewrite drop_all. apply drop_ge. lia.
  - intros d n Hn w Hv. unfold plain, st_bind. cbn. unfold null_write. case_decide as Hl.
    + eexists _, _, _. split; [reflexivity|]. cbn. rewrite decide_True by lia. split_and!; try done. unfold valid, null_valid. cbn. rewrite length_app. lia.
    + refused.
Defined.

Definition open : State := mkState None 1 1 Toy.client_config true true true false.
Definition slot : Slot := mkSlot None None.
(** Two of the four bytes arrive, then the transport ends. *)
Definition cut : World := mkWorld Toy.willing [1; 2]%Z [] [1; 2; 3; 4]%Z [] [] [] [] 9 0.
End Null.

#[global] Instance null_refs : Refs Null.World := {|
  up_ref s := fun w => Some (tt, w); session_free s := fun w => Some (tt, w) |}.


(** The comment of [fill_network] says that [closed] moves a truncated stream
    from being mistaken for success; [read] reports it as the end of the stream:
    the reader cannot tell it from the peer's close. *)
Example truncation_is_eof : exists v1 v2,
  read 10 8 (Some Null.open, (Null.slot, Null.cut)) = Some (Ok [1; 2]%Z, (Some Null.open, (Null.slot, v1))) /\
  read 10 8 (Some Null.open, (Null.slot, v1)) = Some (Ok [], (Some Null.open, (Null.slot, v2))) /\
  incoming (gh v2) = [3; 4]%Z.
Proof. do 2 eexists. split; [vm_compute; reflexivity|]. split; vm_compute; reflexivity. Qed.
