(* ===== verification/Fs.v ===== *)
(** * Files (src/fs.cpp)

    Each operation of fs.cpp is one job of the blocking pool: a program over the
    kernel's calls, which are an interface. *)

From S2P Require Import Prelude Result Bytes Sock Wp.

Set Default Proof Using "Type".

(** ** Constants of the kernel *)

Definition O_RDONLY : Z := 0.
Definition O_WRONLY : Z := 1.
Definition O_RDWR : Z := 2.
Definition O_CREAT : Z := 64.
Definition O_EXCL : Z := 128.
Definition O_TRUNC : Z := 512.
Definition O_APPEND : Z := 1024.
Definition O_SYNC : Z := 1052672.
Definition O_CLOEXEC : Z := 524288.

Definition S_IFMT : Z := 61440.
Definition S_IFDIR : Z := 16384.
Definition S_IFREG : Z := 32768.
Definition S_IFLNK : Z := 40960.
Definition S_ISREG (mode : Z) : bool := bool_decide (Z.land mode S_IFMT = S_IFREG).
Definition S_ISDIR (mode : Z) : bool := bool_decide (Z.land mode S_IFMT = S_IFDIR).
Definition S_ISLNK (mode : Z) : bool := bool_decide (Z.land mode S_IFMT = S_IFLNK).

Definition EEXIST : Z := 17.
Definition ENOTDIR : Z := 20.

(** ** Data *)

Inductive Access := read_only | write_only | read_write.

Record OpenOptions := mkOptions {
  access : Access;
  append : bool;
  create_ : bool;
  exclusive : bool;
  truncate_ : bool;
  sync_ : bool;
  permissions : Z }.

Definition default_options : OpenOptions := mkOptions read_only false false false false false 420.

(** [struct stat]: size, mode, and the time of modification in ns. *)
Record Stat := mkStat { st_size : Z; st_mode : Z; st_mtim : Z }.

Record FileInfo := mkInfo { size : Z; mode : Z; modified : Z }.

Definition info_from_stat (st : Stat) : FileInfo := mkInfo (u64 (st_size st)) (u32 (st_mode st)) (st_mtim st).
Definition is_regular (i : FileInfo) : bool := S_ISREG (mode i).
Definition is_dir (i : FileInfo) : bool := S_ISDIR (mode i).

Record DirEntry := mkDirEntry { name : bytes; e_is_dir : bool; e_is_regular : bool; e_is_symlink : bool }.

(** [d_type]. *)
Inductive DType := DT_DIR | DT_REG | DT_LNK | DT_OTHER.

Definition open_flags (o : OpenOptions) : Z :=
  let flags := match access o with read_only => O_RDONLY | write_only => O_WRONLY | read_write => O_RDWR end in
  let flags := if append o then Z.lor flags O_APPEND else flags in
  let flags := if create_ o then Z.lor flags O_CREAT else flags in
  let flags := if exclusive o then Z.lor flags O_EXCL else flags in
  let flags := if truncate_ o then Z.lor flags O_TRUNC else flags in
  let flags := if sync_ o then Z.lor flags O_SYNC else flags in
  Z.lor flags O_CLOEXEC.

(** ** The interface *)

(** [Dir] is a [DIR*]; descriptors are integers. *)
Class Kernel (W Dir : Type) := {
  p_submit : ST W (option Errc);                 (* BlockingPool::submit, file class: why the job is refused, or dropped before it runs *)
  k_open : bytes -> Z -> Z -> ST W (Sys Z);
  k_close : Z -> ST W (Sys unit);
  k_read : Z -> nat -> ST W (Sys bytes);
  k_pread : Z -> nat -> Z -> ST W (Sys bytes);
  k_write : Z -> bytes -> ST W (Sys nat);
  k_pwrite : Z -> bytes -> Z -> ST W (Sys nat);
  k_fsync : Z -> ST W (Sys unit);
  k_fdatasync : Z -> ST W (Sys unit);
  k_ftruncate : Z -> Z -> ST W (Sys unit);
  k_lseek : Z -> Z -> ST W (Sys Z);
  k_fstat : Z -> ST W (Sys Stat);
  k_stat : bytes -> ST W (Sys Stat);
  k_lstat : bytes -> ST W (Sys Stat);
  k_unlink : bytes -> ST W (Sys unit);
  k_rename : bytes -> bytes -> ST W (Sys unit);
  k_mkdir : bytes -> Z -> ST W (Sys unit);
  k_rmdir : bytes -> ST W (Sys unit);
  k_opendir : bytes -> ST W (Sys Dir);
  k_readdir : Dir -> ST W (Sys (option (bytes * DType)));
  k_closedir : Dir -> ST W unit }.

(** What awaiting a job gives: its result, or the exception of a refusal. *)
Inductive Outcome (A : Type) := Returns (a : A) | Throws (e : Error).
Arguments Returns {A} a.
Arguments Throws {A} e.

Section jobs.
Context {W Dir : Type} `{Kernel W Dir}.

Definition on_pool {A} (job : ST W (Result A)) : ST W (Outcome (Result A)) :=
  refused <-- p_submit;
  match refused with
  | Some e => st_ret (Throws (of_errc e))
  | None => r <-- job; st_ret (Returns r)
  end.

(** [if (call < 0) return Error::from_errno();]. *)
Definition sys {A} (call : ST W (Sys A)) : ST W (Result A) :=
  r <-- call; match r with Done a => st_ok a | Errno e => st_err (of_errno e) end.

(** [close], its result ignored. *)
Definition drop_fd (fd : Z) : ST W unit := _ <-- k_close fd; st_ret tt.

(** ** Paths *)

Definition open_job (path : bytes) (o : OpenOptions) : ST W (Result Z) := sys (k_open path (open_flags o) (permissions o)).

Definition create_options (permissions : Z) : OpenOptions := mkOptions read_write false true false true false permissions.
Definition create_job (path : bytes) (permissions : Z) : ST W (Result Z) := open_job path (create_options permissions).

Definition stat_job (path : bytes) : ST W (Result FileInfo) := st <-? sys (k_stat path); st_ok (info_from_stat st).
Definition remove_job (path : bytes) : ST W (Result unit) := sys (k_unlink path).
Definition rename_job (from to : bytes) : ST W (Result unit) := sys (k_rename from to).
Definition mkdir_job (path : bytes) (permissions : Z) : ST W (Result unit) := sys (k_mkdir path permissions).

Definition dot : bytes := [cDot].
Definition dotdot : bytes := [cDot; cDot].
Definition join (path name : bytes) : bytes := path ++ cSlash :: name.

(** One entry of [read_dir]. *)
Definition entry_of (path name : bytes) (t : DType) : ST W DirEntry :=
  match t with
  | DT_DIR => st_ret (mkDirEntry name true false false)
  | DT_REG => st_ret (mkDirEntry name false true false)
  | DT_LNK => st_ret (mkDirEntry name false false true)
  | DT_OTHER =>
      st <-- k_lstat (join path name);
      match st with
      | Done st => st_ret (mkDirEntry name (S_ISDIR (st_mode st)) (S_ISREG (st_mode st)) (S_ISLNK (st_mode st)))
      | Errno _ => st_ret (mkDirEntry name false false false)
      end
  end.

(** The loop of [read_dir]; [fuel] bounds the entries. *)
Fixpoint read_dir_loop (fuel : nat) (path : bytes) (dir : Dir) (entries : list DirEntry) : ST W (list DirEntry * Z) :=
  match fuel with
  | O => st_fail
  | S fuel =>
      e <-- k_readdir dir;
      match e with
      | Errno e => st_ret (entries, e)
      | Done None => st_ret (entries, 0%Z)
      | Done (Some (name, t)) =>
          if decide (name = dot \/ name = dotdot) then read_dir_loop fuel path dir entries
          else entry <-- entry_of path name t; read_dir_loop fuel path dir (entries ++ [entry])
      end
  end.

Definition read_dir_job (fuel : nat) (path : bytes) : ST W (Result (list DirEntry)) :=
  dir <-? sys (k_opendir path);
  r <-- read_dir_loop fuel path dir [];
  k_closedir dir;;;
  if decide (r.2 = 0%Z) then st_ok r.1 else st_err (of_errno r.2).

(** [mkdir] of one prefix: an existing directory is success. *)
Definition ensure_dir (partial : bytes) (permissions : Z) : ST W (Result unit) :=
  r <-- k_mkdir partial permissions;
  match r with
  | Done _ => st_ok tt
  | Errno e =>
      if decide (e <> EEXIST) then st_err (of_errno e)
      else st <-? sys (k_stat partial); if S_ISDIR (st_mode st) then st_ok tt else st_err (of_errno ENOTDIR)
  end.

Fixpoint mkdir_loop (fuel : nat) (path : bytes) (permissions : Z) (at_ : nat) : ST W (Result unit) :=
  if decide (length path < at_) then st_ok tt
  else
    match fuel with
    | O => st_fail
    | S fuel =>
        let slash := find cSlash at_ path in
        let end_ := default (length path) slash in
        let partial := take (if decide (end_ = 0) then 1 else end_) path in
        let next := if slash : option nat then mkdir_loop fuel path permissions (S end_) else st_ok tt in
        if decide (partial = [cSlash] \/ partial = []) then next
        else ensure_dir partial permissions;;? next
    end.

Definition mkdir_all_job (path : bytes) (permissions : Z) : ST W (Result unit) :=
  if decide (path = []) then st_err (of_errno EINVAL) else mkdir_loop (S (length path)) path permissions 0.

(** ** [remove_all] *)

(** The loop over a directory: the first failure of a child, and the error of
    [readdir]; [remove] is the recursive call. *)
Fixpoint remove_entries (remove : bytes -> ST W (Result unit)) (fuel : nat) (target : bytes) (dir : Dir)
    (failure : Result unit) : ST W (Result unit * Z) :=
  match fuel with
  | O => st_fail
  | S fuel =>
      e <-- k_readdir dir;
      match e with
      | Errno e => st_ret (failure, e)
      | Done None => st_ret (failure, 0%Z)
      | Done (Some (name, _)) =>
          if decide (name = dot \/ name = dotdot) then remove_entries remove fuel target dir failure
          else
            child <-- remove (join target name);
            remove_entries remove fuel target dir (match failure with Ok _ => child | Err _ => failure end)
      end
  end.

(** [Walker::remove]; [depth] bounds the nesting, [width] a directory. *)
Fixpoint walker (depth width : nat) (target : bytes) : ST W (Result unit) :=
  match depth with
  | O => st_fail
  | S depth =>
      st <-- k_lstat target;
      match st with
      | Errno e => if decide (e = ENOENT) then st_ok tt else st_err (of_errno e)
      | Done st =>
          if S_ISDIR (st_mode st) then
            dir <-? sys (k_opendir target);
            r <-- remove_entries (walker depth width) width target dir (Ok tt);
            k_closedir dir;;;
            match r.1 with
            | Err e => st_err e
            | Ok _ => if decide (r.2 = 0%Z) then sys (k_rmdir target) else st_err (of_errno r.2)
            end
          else
            u <-- k_unlink target;
            match u with
            | Done _ => st_ok tt
            | Errno e => if decide (e = ENOENT) then st_ok tt else st_err (of_errno e)
            end
      end
  end.

Definition remove_all_job (depth width : nat) (path : bytes) : ST W (Result unit) := walker depth width path.

(** ** Whole files *)

Definition kChunk : nat := 64 * 1024.

(** The loop of [read_file]; the descriptor is closed on every way out. *)
Fixpoint read_file_loop (fuel : nat) (fd : Z) (limit : nat) (out : bytes) : ST W (Result bytes) :=
  match fuel with
  | O => st_fail
  | S fuel =>
      n <-- k_read fd kChunk;
      match n with
      | Errno e =>
          if decide (e = EINTR) then read_file_loop fuel fd limit out
          else drop_fd fd;;; st_err (of_errno e)
      | Done d =>
          if decide (length d = 0) then drop_fd fd;;; st_ok out
          else if decide (limit < length out + length d) then drop_fd fd;;; st_err (of_errno EMSGSIZE)
          else read_file_loop fuel fd limit (out ++ d)
      end
  end.

Definition read_file_job (fuel : nat) (path : bytes) (limit : nat) : ST W (Result bytes) :=
  fd <-? sys (k_open path (Z.lor O_RDONLY O_CLOEXEC) 0);
  _ <-- k_fstat fd;                       (* the size is a hint for the allocation *)
  read_file_loop fuel fd limit [].

(** The writing loops: what is done when a call fails is [fail]. *)
Fixpoint file_write_loop (call : nat -> bytes -> ST W (Sys nat)) (fail : ST W unit) (fuel : nat) (buffer : bytes) (written : nat) : ST W (Result nat) :=
  if decide (length buffer <= written) then st_ok written
  else
    match fuel with
    | O => st_fail
    | S fuel =>
        n <-- call written (drop written buffer);
        match n with
        | Errno e =>
            if decide (e = EINTR) then file_write_loop call fail fuel buffer written
            else fail;;; st_err (of_errno e)
        | Done n =>
            if decide (n = 0) then fail;;; st_err (of_errno ENOSPC)
            else file_write_loop call fail fuel buffer (written + n)
        end
    end.

Definition write_file_job (fuel : nat) (path contents : bytes) (permissions : Z) : ST W (Result unit) :=
  fd <-? sys (k_open path (Z.lor (Z.lor (Z.lor O_WRONLY O_CREAT) O_TRUNC) O_CLOEXEC) permissions);
  _ <-? file_write_loop (fun _ d => k_write fd d) (drop_fd fd) fuel contents 0;
  sys (k_close fd).

(** ** [File] *)

Definition read_job (fd : Z) (n : nat) : ST W (Result bytes) := sys (k_read fd n).

(** [static_cast<off_t>(offset + n)]. *)
Definition off_t (offset : Z) (n : nat) : Z := i64 (u64 (offset + Z.of_nat n)).

Fixpoint read_at_loop (fuel : nat) (fd : Z) (n : nat) (offset : Z) (got : bytes) : ST W (Result bytes) :=
  if decide (n <= length got) then st_ok got
  else
    match fuel with
    | O => st_fail
    | S fuel =>
        r <-- k_pread fd (n - length got) (off_t offset (length got));
        match r with
        | Errno e => if decide (e = EINTR) then read_at_loop fuel fd n offset got else st_err (of_errno e)
        | Done d => if decide (length d = 0) then st_ok got else read_at_loop fuel fd n offset (got ++ d)
        end
    end.

Definition read_at_job (fuel : nat) (fd : Z) (n : nat) (offset : Z) : ST W (Result bytes) := read_at_loop fuel fd n offset [].
Definition write_job (fuel : nat) (fd : Z) (buffer : bytes) : ST W (Result nat) :=
  file_write_loop (fun _ d => k_write fd d) (st_ret tt) fuel buffer 0.
Definition write_at_job (fuel : nat) (fd : Z) (buffer : bytes) (offset : Z) : ST W (Result nat) :=
  file_write_loop (fun written d => k_pwrite fd d (off_t offset written)) (st_ret tt) fuel buffer 0.
Definition sync_job (fd : Z) : ST W (Result unit) := sys (k_fsync fd).
Definition sync_data_job (fd : Z) : ST W (Result unit) := sys (k_fdatasync fd).
Definition truncate_job (fd : Z) (size : Z) : ST W (Result unit) := sys (k_ftruncate fd (i64 size)).
Definition file_stat_job (fd : Z) : ST W (Result FileInfo) := st <-? sys (k_fstat fd); st_ok (info_from_stat st).
Definition seek_job (fd : Z) (offset : Z) : ST W (Result Z) := p <-? sys (k_lseek fd (i64 offset)); st_ok (u64 p).

(** The guards of [File]: a closed file, and an empty buffer. *)
Definition on_file {A} (fd : Z) (job : ST W (Result A)) : ST W (Outcome (Result A)) :=
  if decide (fd < 0)%Z then st_ret (Returns (Err (of_errno EBADF))) else on_pool job.
Definition on_buffer {A} (fd : Z) (n : nat) (none : A) (job : ST W (Result A)) : ST W (Outcome (Result A)) :=
  if decide (fd < 0)%Z then st_ret (Returns (Err (of_errno EBADF)))
  else if decide (n = 0) then st_ret (Returns (Ok none))
  else on_pool job.

Definition file_read (fd : Z) (n : nat) := on_buffer fd n [] (read_job fd n).
Definition file_read_at (fuel : nat) (fd : Z) (n : nat) (offset : Z) := on_buffer fd n [] (read_at_job fuel fd n offset).
Definition file_write (fuel : nat) (fd : Z) (buffer : bytes) := on_buffer fd (length buffer) 0 (write_job fuel fd buffer).
Definition file_write_at (fuel : nat) (fd : Z) (buffer : bytes) (offset : Z) :=
  on_buffer fd (length buffer) 0 (write_at_job fuel fd buffer offset).
Definition file_sync (fd : Z) := on_file fd (sync_job fd).
Definition file_sync_data (fd : Z) := on_file fd (sync_data_job fd).
Definition file_truncate (fd size : Z) := on_file fd (truncate_job fd size).
Definition file_stat (fd : Z) := on_file fd (file_stat_job fd).
Definition file_seek (fd offset : Z) := on_file fd (seek_job fd offset).

(** [File::close]: the descriptor left behind. *)
Definition file_close (fd : Z) : ST W Z := if decide (fd < 0)%Z then st_ret fd else drop_fd fd;;; st_ret (-1)%Z.

(** The functions on paths. *)
Definition fs_open (path : bytes) (o : OpenOptions) := on_pool (open_job path o).
Definition fs_create (path : bytes) (permissions : Z) := fs_open path (create_options permissions).
Definition fs_stat (path : bytes) := on_pool (stat_job path).
Definition fs_remove (path : bytes) := on_pool (remove_job path).
Definition fs_read_dir (fuel : nat) (path : bytes) := on_pool (read_dir_job fuel path).
Definition fs_rename (from to : bytes) := on_pool (rename_job from to).
Definition fs_mkdir (path : bytes) (permissions : Z) := on_pool (mkdir_job path permissions).
Definition fs_mkdir_all (path : bytes) (permissions : Z) := on_pool (mkdir_all_job path permissions).
Definition fs_remove_all (depth width : nat) (path : bytes) := on_pool (remove_all_job depth width path).
Definition fs_read_file (fuel : nat) (path : bytes) (limit : nat) := on_pool (read_file_job fuel path limit).
Definition fs_write_file (fuel : nat) (path contents : bytes) (permissions : Z) := on_pool (write_file_job fuel path contents permissions).
End jobs.

(** * Theorems on files

    Whole files and positioned transfers against the laws of a kernel whose files
    nobody else changes meanwhile. *)

(** ** What the kernel's descriptors stand for *)

(** An open descriptor: its file, its offset, and whether it was opened with
    [O_APPEND]. *)
Record Desc := mkDesc { d_ino : nat; d_off : nat; d_append : bool }.

(** Open descriptors, the bytes of the files, and the files' names. *)
Record Files := mkFiles {
  fds : gmap Z Desc;
  data : gmap nat bytes;
  names : gmap bytes nat }.

Definition content (f : Files) (ino : nat) : bytes := default [] (data f !! ino).
Definition file_of (f : Files) (path : bytes) : option bytes := content f <$> names f !! path.

(** Writing [d] at [off]; a hole is filled with zeros. *)
Definition overwrite (off : nat) (d c : bytes) : bytes :=
  take off c ++ replicate (off - length c) 0%Z ++ d ++ drop (off + length d) c.

Definition has (flags bit : Z) : bool := bool_decide (Z.land flags bit <> 0%Z).

(** Where a write lands: on Linux one through a descriptor with [O_APPEND] goes to
    the end of the file, and so does [pwrite], whatever its offset. *)
Definition lands (f : Files) (x : Desc) (at_ : nat) : nat :=
  if d_append x then length (content f (d_ino x)) else at_.

(** What [open] makes of the files. *)
Definition opened (f : Files) (path : bytes) (flags fd : Z) (f' : Files) : Prop :=
  (0 <= fd)%Z /\ fds f !! fd = None /\ exists ino,
    (names f !! path = Some ino /\ has flags O_CREAT && has flags O_EXCL = false /\
       f' = mkFiles (<[fd := mkDesc ino 0 (has flags O_APPEND)]> (fds f)) (if has flags O_TRUNC then <[ino := []]> (data f) else data f) (names f) \/
     names f !! path = None /\ has flags O_CREAT = true /\
       f' = mkFiles (<[fd := mkDesc ino 0 (has flags O_APPEND)]> (fds f)) (<[ino := []]> (data f)) (<[path := ino]> (names f))).

Class FilesSpec (W Dir : Type) `{Kernel W Dir} := {
  files : W -> Files;
  (** How often a call is still interrupted. *)
  patience : W -> nat;

  open_spec path flags mode w : exists r w', k_open path flags mode w = Some (r, w') /\ patience w' <= patience w /\
    match r with Done fd => opened (files w) path flags fd (files w') | Errno e => files w' = files w end;
  (** On Linux a descriptor is released whatever [close] reports. *)
  close_spec fd w x : fds (files w) !! fd = Some x -> exists r w', k_close fd w = Some (r, w') /\ patience w' <= patience w /\
    files w' = mkFiles (delete fd (fds (files w))) (data (files w)) (names (files w));
  fstat_spec fd w x : fds (files w) !! fd = Some x -> exists r w', k_fstat fd w = Some (r, w') /\ patience w' <= patience w /\
    files w' = files w;
  read_spec fd n w x : fds (files w) !! fd = Some x -> exists r w', k_read fd n w = Some (r, w') /\ patience w' <= patience w /\
    match r with
    | Done d => exists rest, drop (d_off x) (content (files w) (d_ino x)) = d ++ rest /\ length d <= n /\ (d = [] -> 0 < n -> rest = []) /\
        files w' = mkFiles (<[fd := mkDesc (d_ino x) (d_off x + length d) (d_append x)]> (fds (files w))) (data (files w)) (names (files w))
    | Errno e => files w' = files w /\ (e = EINTR -> patience w' < patience w)
    end;
  pread_spec fd n at_ w x : fds (files w) !! fd = Some x -> exists r w', k_pread fd n (Z.of_nat at_) w = Some (r, w') /\
    patience w' <= patience w /\ files w' = files w /\
    match r with
    | Done d => exists rest, drop at_ (content (files w) (d_ino x)) = d ++ rest /\ length d <= n /\ (d = [] -> 0 < n -> rest = [])
    | Errno e => e = EINTR -> patience w' < patience w
    end;
  write_spec fd d w x : fds (files w) !! fd = Some x -> exists r w', k_write fd d w = Some (r, w') /\ patience w' <= patience w /\
    match r with
    | Done k => k <= length d /\ files w' =
        if decide (k = 0) then files w
        else
          let at_ := lands (files w) x (d_off x) in
          mkFiles (<[fd := mkDesc (d_ino x) (at_ + k) (d_append x)]> (fds (files w)))
            (<[d_ino x := overwrite at_ (take k d) (content (files w) (d_ino x))]> (data (files w))) (names (files w))
    | Errno e => files w' = files w /\ (e = EINTR -> patience w' < patience w)
    end;
  pwrite_spec fd d at_ w x : fds (files w) !! fd = Some x -> exists r w', k_pwrite fd d (Z.of_nat at_) w = Some (r, w') /\
    patience w' <= patience w /\
    match r with
    | Done k => k <= length d /\ files w' =
        if decide (k = 0) then files w
        else mkFiles (fds (files w))
          (<[d_ino x := overwrite (lands (files w) x at_) (take k d) (content (files w) (d_ino x))]> (data (files w))) (names (files w))
    | Errno e => files w' = files w /\ (e = EINTR -> patience w' < patience w)
    end }.

(** ** Overwriting *)

Lemma overwrite_nil off c : off <= length c -> overwrite off [] c = c.
Proof. intros H. unfold overwrite. replace (off - length c) with 0 by lia. cbn. by rewrite Nat.add_0_r, take_drop. Qed.

(** Two writes in a row are one. *)
Lemma overwrite_app off d1 d2 c : overwrite (off + length d1) d2 (overwrite off d1 c) = overwrite off (d1 ++ d2) c.
Proof.
  unfold overwrite. set (z := take off c ++ replicate (off - length c) 0%Z). set (R := drop (off + length d1) c).
  assert (length z = off) as Hz by (unfold z; rewrite length_app, length_take, length_replicate; lia).
  assert (take off c ++ replicate (off - length c) 0%Z ++ d1 ++ R = (z ++ d1) ++ R) as -> by (unfold z; by rewrite <-!app_assoc).
  assert (length (z ++ d1) = off + length d1) as Hzd by (rewrite length_app; lia).
  rewrite take_app_length' by done.
  replace (off + length d1 - length ((z ++ d1) ++ R)) with 0 by (rewrite length_app; lia). cbn [replicate app].
  rewrite drop_app_ge by lia. replace (off + length d1 + length d2 - length (z ++ d1)) with (length d2) by lia.
  unfold R. rewrite drop_drop, length_app. unfold z. rewrite <-!app_assoc. do 5 f_equal. lia.
Qed.

Lemma length_overwrite off d c : off <= length c -> length (overwrite off d c) = Nat.max (length c) (off + length d).
Proof. intros H. unfold overwrite. rewrite !length_app, length_take, length_drop, length_replicate. lia. Qed.

Lemma content_insert f ino c l n : content (mkFiles l (<[ino := c]> (data f)) n) ino = c.
Proof. unfold content. cbn. by rewrite lookup_insert_eq. Qed.

Section io.
Context {W Dir : Type} `{KW : Kernel W Dir} {FS : FilesSpec W Dir}.

(** [File::read_at] gives the bytes at the offset, short only at the end. *)
Lemma read_at_run fuel fd n offset x : forall got w, fds (files w) !! fd = Some x -> (0 <= offset)%Z ->
  (offset + Z.of_nat n < 2 ^ 63)%Z -> got = take (length got) (drop (Z.to_nat offset) (content (files w) (d_ino x))) -> length got <= n ->
  (n - length got) + patience w <= fuel ->
  runs (read_at_loop fuel fd n offset got) (fun r w' => files w' = files w /\
    (forall d, r = Ok d -> d = take n (drop (Z.to_nat offset) (content (files w) (d_ino x))))) w.
Proof using FS.
  induction fuel as [|fuel IH]; intros got w Hfd H0 Hb Hgot Hl Hf; cbn [read_at_loop].
  - assert (length got = n) as Hn by lia. rewrite decide_True by lia. apply runs_ret. split; [done|]. intros d [= <-]. by rewrite <-Hn.
  - case_decide as Hn.
    { assert (length got = n) as <- by lia. apply runs_ret. split; [done|]. by intros d [= <-]. }
    assert (off_t offset (length got) = Z.of_nat (Z.to_nat offset + length got)) as ->.
    { unfold off_t. assert (2 ^ 63 < 2 ^ 64)%Z by done. rewrite u64_small by lia. unfold sgn. rewrite u64_small by lia.
      change (64 - 1)%Z with 63%Z. rewrite decide_True by lia. lia. }
    destruct (pread_spec fd (n - length got) (Z.to_nat offset + length got) w x Hfd) as (r & w1 & Hr & Hp & Hfi & Hc).
    apply runs_bind. exists r, w1. split; [exact Hr|]. destruct r as [d|e].
    + destruct Hc as (rest & Hd & Hdl & Hend). case_decide as Hd0.
      * apply runs_ret. split; [done|]. intros d' [= <-]. apply nil_length_inv in Hd0. specialize (Hend Hd0 ltac:(lia)). subst d rest. cbn in Hd.
        rewrite Hgot at 1. rewrite !take_ge; [done|..].
        -- pose proof (f_equal length Hd) as Hd'. rewrite <-drop_drop, length_drop in Hd'. cbn in Hd'. lia.
        -- pose proof (f_equal length Hd) as Hd'. rewrite <-drop_drop, length_drop in Hd'. cbn in Hd'. lia.
      * eapply runs_mono; [apply IH; rewrite ?Hfi; try done|].
        -- rewrite length_app. rewrite <-drop_drop in Hd.
           rewrite <-(take_drop (length got) (drop (Z.to_nat offset) (content (files w) (d_ino x)))), Hd, <-Hgot.
           rewrite app_assoc, take_app_length' by (by rewrite length_app). done.
        -- rewrite length_app. lia.
        -- rewrite length_app. lia.
        -- intros r w' [Hf' Hok]. rewrite Hfi in *. by split.
    + case_decide as He.
      * specialize (Hc He). eapply runs_mono; [apply IH; rewrite ?Hfi; try done; lia|]. intros r w' [Hf' Hok]. rewrite Hfi in *. by split.
      * apply runs_ret. split; [done|]. done.
Qed.

(** A writing loop whose calls keep [I] of what was written; [J] is left by the
    clean-up of a failure. *)
Lemma write_run (call : nat -> bytes -> ST W (Sys nat)) (fail : ST W unit) (buffer : bytes) (I J : nat -> W -> Prop) :
  (forall written w, I written w -> written < length buffer ->
    exists r w', call written (drop written buffer) w = Some (r, w') /\ patience w' <= patience w /\
      match r with Done k => k <= length buffer - written /\ I (written + k) w' | Errno e => I written w' /\ (e = EINTR -> patience w' < patience w) end) ->
  (forall written w, I written w -> runs fail (fun _ w' => J written w') w) ->
  forall fuel written w, I written w -> written <= length buffer -> (length buffer - written) + patience w <= fuel ->
  runs (file_write_loop call fail fuel buffer written) (fun r w' =>
    match r with Ok k => k = length buffer /\ I k w' | Err _ => exists k, k <= length buffer /\ J k w' end) w.
Proof.
  intros Hcall Hfail. induction fuel as [|fuel IH]; intros written w HI Hl Hf; cbn [file_write_loop].
  - rewrite decide_True by lia. apply runs_ret. assert (written = length buffer) as -> by lia. done.
  - case_decide as Hd; [apply runs_ret; by assert (written = length buffer) as -> by lia|].
    destruct (Hcall written w HI ltac:(lia)) as (r & w1 & Hr & Hp & Hc). apply runs_bind. exists r, w1. split; [exact Hr|].
    assert (forall e, I written w1 -> runs (fail;;; st_err e) (fun (r : Result nat) w' =>
      match r with Ok k => k = length buffer /\ I k w' | Err _ => exists k, k <= length buffer /\ J k w' end) w1) as Hbad.
    { intros e HI1. apply runs_bind. eapply runs_mono; [by apply Hfail|]. intros [] w2 HJ. apply runs_ret. exists written. by split. }
    destruct r as [k|e].
    + destruct Hc as [Hk HI1]. case_decide as Hk0; [subst; rewrite Nat.add_0_r in HI1; by apply Hbad|]. apply IH; [done|lia|lia].
    + destruct Hc as [HI1 He]. case_decide as Hi; [|by apply Hbad]. specialize (He Hi). apply IH; [done|lia|lia].
Qed.

(** The file after [k] bytes of [buffer] went to [off]. *)
Definition wrote (c : bytes) (off : nat) (buffer : bytes) (k : nat) : bytes :=
  if decide (k = 0) then c else overwrite off (take k buffer) c.

Lemma wrote_step c off buffer j k : j + k <= length buffer ->
  (if decide (k = 0) then wrote c off buffer j else overwrite (off + j) (take k (drop j buffer)) (wrote c off buffer j)) = wrote c off buffer (j + k).
Proof.
  intros Hl. unfold wrote. case_decide as Hk; [subst; by rewrite Nat.add_0_r|]. rewrite (decide_False (P := j + k = 0)) by lia.
  case_decide as Hj; [subst; by rewrite Nat.add_0_r, drop_0|].
  replace (off + j) with (off + length (take j buffer)) by (rewrite length_take; lia). rewrite overwrite_app. f_equal.
  by rewrite take_take_drop.
Qed.

(** The files with other bytes in one of them. *)
Definition with_data (f : Files) (ino : nat) (c : bytes) : Files := mkFiles (fds f) (<[ino := c]> (data f)) (names f).

(** [f'] is [f], but for the bytes of [ino], which are [c]. *)
Definition only_bytes (f f' : Files) (ino : nat) (c : bytes) : Prop :=
  fds f' = fds f /\ names f' = names f /\ content f' ino = c /\ forall i, i <> ino -> data f' !! i = data f !! i.

(** What is written lands in a row, at the end too. *)
Lemma lands_next f f' x at_ buffer k : k <= length buffer ->
  content f' (d_ino x) = wrote (content f (d_ino x)) (lands f x at_) buffer k -> lands f' x (at_ + k) = lands f x at_ + k.
Proof.
  intros Hk Hc. unfold lands in *. destruct (d_append x); [|done]. rewrite Hc. unfold wrote. case_decide; [lia|].
  rewrite length_overwrite, length_take by lia. lia.
Qed.

Lemma write_at_run fuel fd buffer offset w x : fds (files w) !! fd = Some x -> (0 <= offset)%Z ->
  (offset + Z.of_nat (length buffer) < 2 ^ 63)%Z -> length buffer + patience w <= fuel ->
  runs (write_at_job fuel fd buffer offset) (fun r w' => exists k, k <= length buffer /\ (forall n, r = Ok n -> n = length buffer /\ k = length buffer) /\
    only_bytes (files w) (files w') (d_ino x) (wrote (content (files w) (d_ino x)) (lands (files w) x (Z.to_nat offset)) buffer k)) w.
Proof using FS.
  intros Hfd H0 Hb Hf. set (c := content (files w) (d_ino x)). set (at_ := lands (files w) x (Z.to_nat offset)).
  set (I := fun k w' => k <= length buffer /\ only_bytes (files w) (files w') (d_ino x) (wrote c at_ buffer k)).
  eapply runs_mono; [apply (write_run _ _ buffer I I)|].
  - intros j w1 [Hjl (Hfds & Hn & Hc & Ho)] Hj.
    assert (off_t offset j = Z.of_nat (Z.to_nat offset + j)) as ->.
    { unfold off_t. assert (2 ^ 63 < 2 ^ 64)%Z by done. rewrite u64_small by lia. unfold sgn. rewrite u64_small by lia.
      change (64 - 1)%Z with 63%Z. rewrite decide_True by lia. lia. }
    destruct (pwrite_spec fd (drop j buffer) (Z.to_nat offset + j) w1 x) as (r & w2 & Hr & Hp & Hcase); [by rewrite Hfds|].
    exists r, w2. split; [exact Hr|]. split; [done|]. destruct r as [k|e].
    + destruct Hcase as [Hk Hf2]. rewrite length_drop in Hk. split; [done|]. split; [lia|].
      rewrite (lands_next (files w) (files w1) x (Z.to_nat offset) buffer j) in Hf2 by done. rewrite Hf2.
      rewrite <-wrote_step by lia. rewrite <-Hc. destruct (decide (k = 0)); [by split_and!|]. split; [done|]. split; [done|].
      split; [apply content_insert|]. intros i Hi. cbn. rewrite lookup_insert_ne by done. by apply Ho.
    + destruct Hcase as [Hf2 He]. split; [|done]. unfold I. rewrite Hf2. split; [lia|done].
  - intros j w1 HI. by apply runs_ret.
  - split; [lia|]. by split_and!.
  - lia.
  - lia.
  - intros [n|e] w' Hr.
    + destruct Hr as [-> [_ Hr]]. exists (length buffer). split; [done|]. split; [by intros n [= <-]|done].
    + destruct Hr as (k & Hk & _ & Hr). exists k. by split_and!.
Qed.

(** The same through the descriptor's own offset, which follows. *)
Definition moved_on (f f' : Files) (fd : Z) (x : Desc) (buffer : bytes) (k : nat) : Prop :=
  let at_ := lands f x (d_off x) in
  fds f' = (if decide (k = 0) then fds f else <[fd := mkDesc (d_ino x) (at_ + k) (d_append x)]> (fds f)) /\
  names f' = names f /\ content f' (d_ino x) = wrote (content f (d_ino x)) at_ buffer k /\
  forall i, i <> d_ino x -> data f' !! i = data f !! i.

Lemma moved_on_desc f f' fd x buffer k : fds f !! fd = Some x -> k <= length buffer -> moved_on f f' fd x buffer k ->
  exists x', fds f' !! fd = Some x' /\ d_ino x' = d_ino x /\ d_append x' = d_append x /\
    lands f' x' (d_off x') = lands f x (d_off x) + k.
Proof.
  intros Hfd Hk (Hf & _ & Hc & _). rewrite Hf. case_decide as H0.
  - subst k. exists x. split_and!; try done. unfold wrote in Hc. cbn in Hc. unfold lands. rewrite Hc, decide_True by done. destruct (d_append x); lia.
  - eexists. split; [apply lookup_insert_eq|]. split_and!; try done. unfold lands in *. cbn. destruct (d_append x); [|done].
    rewrite Hc. unfold wrote. rewrite decide_False, length_overwrite, length_take by lia. lia.
Qed.

Lemma write_job_run fuel fd buffer w x : fds (files w) !! fd = Some x -> length buffer + patience w <= fuel ->
  runs (write_job fuel fd buffer) (fun r w' => exists k, k <= length buffer /\ (forall n, r = Ok n -> n = length buffer /\ k = length buffer) /\
    moved_on (files w) (files w') fd x buffer k) w.
Proof using FS.
  intros Hfd Hf. set (I := fun k w' => k <= length buffer /\ moved_on (files w) (files w') fd x buffer k).
  eapply runs_mono; [apply (write_run _ _ buffer I I)|].
  - intros j w1 [Hjl Hm] Hj. destruct (moved_on_desc _ _ _ _ _ _ Hfd Hjl Hm) as (x1 & Hfd1 & Ei & Ea & El).
    destruct (write_spec fd (drop j buffer) w1 x1 Hfd1) as (r & w2 & Hr & Hp & Hcase).
    exists r, w2. split; [exact Hr|]. split; [done|]. destruct r as [k|e].
    + destruct Hcase as [Hk Hf2]. rewrite length_drop in Hk. split; [done|]. split; [lia|]. cbv zeta in Hf2. rewrite El, Ei, Ea in Hf2. rewrite Hf2.
      destruct Hm as (Hf1 & Hn1 & Hc1 & Ho1). unfold moved_on. cbv zeta. rewrite <-wrote_step by lia. rewrite <-Hc1.
      destruct (decide (k = 0)); [subst k; rewrite Nat.add_0_r; by split_and!|].
      rewrite (decide_False (P := j + k = 0)) by lia. cbn [fds names data]. split_and!; try done.
      * rewrite Hf1, Nat.add_assoc. case_decide; [done|]. by rewrite insert_insert_eq.
      * apply content_insert.
      * intros i Hi. rewrite lookup_insert_ne by done. by apply Ho1.
    + destruct Hcase as [Hf2 He]. split; [|done]. unfold I. rewrite Hf2. by split.
  - intros j w1 HI. by apply runs_ret.
  - split; [lia|]. unfold moved_on. cbn. by split_and!.
  - lia.
  - lia.
  - intros [n|e] w' Hr.
    + destruct Hr as [-> [_ Hr]]. exists (length buffer). split; [done|]. split; [by intros n [= <-]|done].
    + destruct Hr as (k & Hk & _ & Hr). exists k. by split_and!.
Qed.

(** Closing what was opened gives back the table of descriptors. *)
Lemma drop_fd_run fd w x : fds (files w) !! fd = Some x ->
  runs (drop_fd fd) (fun _ w' => files w' = mkFiles (delete fd (fds (files w))) (data (files w)) (names (files w))) w.
Proof using FS.
  intros Hfd. destruct (close_spec fd w x Hfd) as (r & w1 & Hr & _ & Hf). apply runs_bind. exists r, w1. split; [exact Hr|]. by apply runs_ret.
Qed.

(** The loop of [read_file], from what it has read. *)
Lemma read_file_loop_run f0 fd limit ino app_ fuel : forall out off w,
  files w = mkFiles (<[fd := mkDesc ino off app_]> (fds f0)) (data f0) (names f0) -> fds f0 !! fd = None ->
  content f0 ino = out ++ drop off (content f0 ino) -> length out <= limit -> length (drop off (content f0 ino)) + patience w < fuel ->
  runs (read_file_loop fuel fd limit out) (fun r w' => files w' = f0 /\
    match r with Ok all => all = content f0 ino /\ length all <= limit | Err e => True end) w.
Proof using FS.
  induction fuel as [|fuel IH]; intros out off w Hfi Hfd Hout Hlim Hf; [lia|]. cbn [read_file_loop].
  destruct (read_spec fd kChunk w (mkDesc ino off app_)) as (r & w1 & Hr & Hp & Hc); [rewrite Hfi; apply lookup_insert_eq|].
  apply runs_bind. exists r, w1. split; [exact Hr|].
  assert (content (files w) ino = content f0 ino) as Hcont by by rewrite Hfi.
  assert (forall (res : Result bytes) off' w2, files w2 = mkFiles (<[fd := mkDesc ino off' app_]> (fds f0)) (data f0) (names f0) ->
    (forall all, res = Ok all -> all = content f0 ino /\ length all <= limit) ->
    runs (drop_fd fd;;; st_ret res) (fun r w' => files w' = f0 /\
      match r with Ok all => all = content f0 ino /\ length all <= limit | Err e => True end) w2) as Hclose.
  { intros res off' w2 Hf2 Hres. apply runs_bind. eapply runs_mono; [eapply drop_fd_run; rewrite Hf2; apply lookup_insert_eq|].
    intros [] w3 Hf3. apply runs_ret. rewrite Hf3, Hf2. cbn. rewrite delete_insert_id by done. split; [by destruct f0|].
    destruct res; [by apply Hres|done]. }
  destruct r as [d|e].
  - destruct Hc as (rest & Hd & Hdl & Hend & Hf1). cbn [d_ino d_off d_append] in Hd, Hf1. rewrite Hfi in Hf1. cbn in Hf1. rewrite insert_insert_eq in Hf1. rewrite Hcont in Hd.
    case_decide as Hd0.
    + eapply Hclose; [exact Hf1|]. intros all [= <-]. apply nil_length_inv in Hd0. subst d.
      rewrite (Hend eq_refl) in Hd by (unfold kChunk; lia). cbn in Hd. rewrite Hd, app_nil_r in Hout. by split.
    + case_decide as Hbig; [by eapply Hclose|].
      assert (drop (off + length d) (content f0 ino) = rest) as Hrest by (rewrite <-drop_drop, Hd; by rewrite drop_app_length).
      apply (IH _ (off + length d)); [exact Hf1|done| |rewrite length_app; lia|].
      * rewrite Hrest, <-app_assoc, <-Hd. done.
      * rewrite Hrest. rewrite Hd, length_app in Hf. lia.
  - destruct Hc as [Hf1 He]. rewrite Hfi in Hf1. case_decide as Hi.
    + specialize (He Hi). apply (IH _ off); try done. lia.
    + by eapply Hclose.
Qed.

Lemma read_file_run fuel path limit w : (forall c, file_of (files w) path = Some c -> length c + patience w < fuel) ->
  runs (read_file_job fuel path limit) (fun r w' => files w' = files w /\
    forall all, r = Ok all -> file_of (files w) path = Some all /\ length all <= limit) w.
Proof using FS.
  intros Hf. unfold read_file_job. destruct (open_spec path (Z.lor O_RDONLY O_CLOEXEC) 0 w) as (r & w1 & Hr & Hp & Hc).
  apply runs_try, runs_bind. exists r, w1. split; [exact Hr|]. destruct r as [fd|e]; apply runs_ret; cbn [on_ok]; [|by split].
  destruct Hc as (_ & Hfd & ino & [(Hn & _ & Hf1)|(_ & Hcr & _)]); [|done]. change (has _ O_TRUNC) with false in Hf1.
  assert (file_of (files w) path = Some (content (files w) ino)) as Hfile by (unfold file_of; by rewrite Hn).
  destruct (fstat_spec fd w1 (mkDesc ino 0 false)) as (st & w2 & Hst & Hp2 & Hf2); [rewrite Hf1; apply lookup_insert_eq|].
  apply runs_bind. exists st, w2. split; [exact Hst|].
  eapply runs_mono; [apply (read_file_loop_run (files w) fd limit ino false fuel [] 0)|].
  - by rewrite Hf2, Hf1.
  - done.
  - by rewrite drop_0.
  - cbn. lia.
  - rewrite drop_0. specialize (Hf _ Hfile). lia.
  - intros r w3 [Hf3 Hres]. split; [done|]. intros all ->. destruct Hres as [-> Hl]. by split.
Qed.

Lemma wrote_empty buffer k : wrote [] 0 buffer k = take k buffer.
Proof. unfold wrote. case_decide; [by subst|]. unfold overwrite. cbn. rewrite drop_nil, app_nil_r. by destruct k. Qed.

Lemma write_file_run fuel path contents permissions w : length contents + patience w <= fuel ->
  runs (write_file_job fuel path contents permissions) (fun r w' => fds (files w') = fds (files w) /\
    (r = Ok tt -> file_of (files w') path = Some contents) /\
    (file_of (files w') path = file_of (files w) path \/ exists k, file_of (files w') path = Some (take k contents)) /\
    (forall i, names (files w') !! path <> Some i -> data (files w') !! i = data (files w) !! i)) w.
Proof using FS.
  intros Hf. unfold write_file_job. set (flags := Z.lor _ O_CLOEXEC).
  destruct (open_spec path flags permissions w) as (r & w1 & Hr & Hp & Hc).
  apply runs_try, runs_bind. exists r, w1. split; [exact Hr|]. destruct r as [fd|e]; apply runs_ret; cbn [on_ok].
  2: { rewrite Hc. split_and!; try done. by left. }
  destruct Hc as (_ & Hfd & ino & Hopen).
  assert (fds (files w1) = <[fd := mkDesc ino 0 false]> (fds (files w)) /\ content (files w1) ino = [] /\ names (files w1) !! path = Some ino /\
    forall i, i <> ino -> data (files w1) !! i = data (files w) !! i) as (Hfds1 & Hc1 & Hn1 & Ho1).
  { change (has flags O_TRUNC) with true in Hopen.
    change (has flags O_APPEND) with false in Hopen.
    destruct Hopen as [(Hn & _ & ->)|(Hn & _ & ->)]; cbn; (split; [done|]); (split; [unfold content; cbn; by rewrite lookup_insert_eq|]);
      (split; [by rewrite ?lookup_insert_eq|]); intros i Hi; by rewrite lookup_insert_ne. }
  clear Hopen.
  set (I := fun k w' => k <= length contents /\ fds (files w') = <[fd := mkDesc ino k false]> (fds (files w)) /\ names (files w') = names (files w1) /\
    content (files w') ino = wrote [] 0 contents k /\ forall i, i <> ino -> data (files w') !! i = data (files w) !! i).
  set (J := fun k w' => k <= length contents /\ fds (files w') = fds (files w) /\ names (files w') = names (files w1) /\
    content (files w') ino = wrote [] 0 contents k /\ forall i, i <> ino -> data (files w') !! i = data (files w) !! i).
  assert (forall k (w2 w3 : W), I k w2 -> files w3 = mkFiles (delete fd (fds (files w2))) (data (files w2)) (names (files w2)) -> J k w3) as HIJ.
  { intros k w2 w3 (Hk & Hfds & Hn & Hcc & Ho) H3. unfold J. rewrite !H3. cbn. split_and!; try done. rewrite Hfds. by rewrite delete_insert_id. }
  assert (forall k w2, J k w2 -> file_of (files w2) path = Some (take k contents) /\
    forall i, names (files w2) !! path <> Some i -> data (files w2) !! i = data (files w) !! i) as HJ.
  { intros k w2 (_ & _ & Hn & Hcc & Ho). rewrite wrote_empty in Hcc. unfold file_of. rewrite Hn, Hn1. cbn. rewrite Hcc. split; [done|].
    intros i Hi. apply Ho. congruence. }
  apply runs_try. eapply runs_mono; [apply (write_run (fun _ d => k_write fd d) (drop_fd fd) contents I J)|].
  - intros j w2 (_ & Hfds & Hn & Hcc & Ho) Hj.
    destruct (write_spec fd (drop j contents) w2 (mkDesc ino j false)) as (r & w3 & Hr3 & Hp3 & Hcase); [rewrite Hfds; apply lookup_insert_eq|].
    exists r, w3. split; [exact Hr3|]. split; [done|]. destruct r as [k|e].
    + destruct Hcase as [Hk Hf3]. rewrite length_drop in Hk. split; [done|]. unfold I. rewrite !Hf3. cbn [d_ino d_off d_append lands].
      split; [lia|]. rewrite <-wrote_step by lia. rewrite <-Hcc.
      destruct (decide (k = 0)); [subst k; rewrite Nat.add_0_r; by split_and!|]. cbn [fds names data].
      split; [rewrite Hfds; by rewrite insert_insert_eq|]. split; [done|].
      split; [apply (content_insert (files w2))|]. intros i Hi. rewrite lookup_insert_ne by done. by apply Ho.
    + destruct Hcase as [Hf3 He]. split; [|done]. unfold I. rewrite Hf3. split_and!; try done. lia.
  - intros j w2 HI. pose proof HI as (_ & Hfds & _). eapply runs_mono; [eapply drop_fd_run; rewrite Hfds; apply lookup_insert_eq|].
    intros [] w3 Hf3. by eapply HIJ.
  - split; [lia|]. split_and!; try done.
  - lia.
  - lia.
  - intros [n|e] w2 Hres; cbn [on_ok].
    + destruct Hres as [-> HI]. pose proof HI as (_ & Hfds & _).
      destruct (close_spec fd w2 (mkDesc ino (length contents) false)) as (rc & w3 & Hr3 & _ & Hf3); [rewrite Hfds; apply lookup_insert_eq|].
      specialize (HIJ _ _ _ HI Hf3). destruct (HJ _ _ HIJ) as [Hfile Hother]. rewrite firstn_all in Hfile.
      apply runs_bind. exists rc, w3. split; [exact Hr3|].
      destruct rc; apply runs_ret; (split; [apply HIJ|]); (split; [done|]); (split; [|done]); right; exists (length contents); by rewrite firstn_all.
    + destruct Hres as (k & Hk & HJk). destruct (HJ _ _ HJk) as [Hfile Hother]. split; [apply HJk|]. split; [done|]. split; [|done]. right. by exists k.
Qed.

(** C36: Files are read and written exactly. With a fuel that covers the bytes and
    the interruptions still to come, every call ends and uses only descriptors
    that are open. [read_file] gives the whole file, within its limit, and
    [write_file] leaves the file with the contents, or on an error with a prefix
    of them, and no other file changed; both leave the table of descriptors as
    they found it, on every path. [read_at] gives the bytes at its offset, short
    only at the end of the file, and changes nothing. [write] writes the whole
    buffer at the shared offset, or on an error a prefix of it, and moves the offset
    over it; [write_at] writes at its own offset and moves none. On a descriptor
    opened with [append] both write at the end of the file: [write_at] ignores its
    offset there, as Linux does ([write_at_appends]). *)
Theorem file_io_exact (w : W) (path contents : bytes) (limit : nat) (permissions fd offset : Z) (n : nat) (x : Desc) (fuel : nat) :
  fds (files w) !! fd = Some x -> (0 <= offset)%Z -> (offset + Z.of_nat (n + length contents) < 2 ^ 63)%Z ->
  length (default [] (file_of (files w) path)) + length contents + n + patience w < fuel ->
  (exists r w', read_file_job fuel path limit w = Some (r, w') /\ files w' = files w /\
     forall all, r = Ok all -> file_of (files w) path = Some all /\ length all <= limit) /\
  (exists r w', write_file_job fuel path contents permissions w = Some (r, w') /\ fds (files w') = fds (files w) /\
     (r = Ok tt -> file_of (files w') path = Some contents) /\
     (file_of (files w') path = file_of (files w) path \/ exists k, file_of (files w') path = Some (take k contents)) /\
     (forall i, names (files w') !! path <> Some i -> data (files w') !! i = data (files w) !! i)) /\
  (exists r w', read_at_job fuel fd n offset w = Some (r, w') /\ files w' = files w /\
     forall d, r = Ok d -> d = take n (drop (Z.to_nat offset) (content (files w) (d_ino x)))) /\
  (exists r w' k, write_job fuel fd contents w = Some (r, w') /\ k <= length contents /\
     (forall m, r = Ok m -> m = length contents /\ k = length contents) /\
     moved_on (files w) (files w') fd x contents k) /\
  (exists r w' k, write_at_job fuel fd contents offset w = Some (r, w') /\ k <= length contents /\
     (forall m, r = Ok m -> m = length contents /\ k = length contents) /\
     only_bytes (files w) (files w') (d_ino x)
       (wrote (content (files w) (d_ino x))
          (if d_append x then length (content (files w) (d_ino x)) else Z.to_nat offset) contents k)).
Proof using FS.
  intros Hfd H0 Hb Hf. split_and!.
  - apply read_file_run. intros c Hc. rewrite Hc in Hf. cbn in Hf. lia.
  - apply write_file_run. lia.
  - unfold read_at_job. destruct (read_at_run fuel fd n offset x [] w Hfd H0) as (r & w' & Hr & H); try (cbn; lia); [done|].
    by exists r, w'.
  - destruct (write_job_run fuel fd contents w x Hfd) as (r & w' & Hr & k & H); [lia|]. by exists r, w', k.
  - destruct (write_at_run fuel fd contents offset w x Hfd H0) as (r & w' & Hr & k & H); [lia|lia|]. by exists r, w', k.
Qed.
End io.
