(* ===== verification/FsTree.v ===== *)
(** * Theorems on directories

    [mkdir_all], [read_dir] and [remove_all] against the laws of a kernel whose
    tree nobody else changes meanwhile. *)

From S2P Require Import Prelude Result Bytes Sock Wp Fs.

Set Default Proof Using "Type".

(** ** The tree *)

Inductive Kind := KDir | KReg | KLink | KOther.
#[global] Instance Kind_eq_dec : EqDecision Kind.
Proof. solve_decision. Defined.

(** The mode bits of a kind. *)
Definition mode_is (mode : Z) (k : Kind) : Prop :=
  S_ISDIR mode = bool_decide (k = KDir) /\ S_ISREG mode = bool_decide (k = KReg) /\ S_ISLNK mode = bool_decide (k = KLink).

Definition dtype_is (t : DType) (k : Kind) : Prop :=
  match t with DT_DIR => k = KDir | DT_REG => k = KReg | DT_LNK => k = KLink | DT_OTHER => True end.

(** [q] is [p] or lies below it. *)
Definition below (p q : bytes) : Prop := (p ++ [cSlash]) `prefix_of` q.
Definition under (p q : bytes) : Prop := q = p \/ below p q.

#[global] Instance below_dec p q : Decision (below p q).
Proof. unfold below. apply _. Defined.
#[global] Instance under_dec p q : Decision (under p q).
Proof. unfold under. apply _. Defined.

Abbreviation Tree := (gmap bytes Kind).

(** A name that [readdir] may give for an entry. *)
Definition name_ok (n : bytes) : Prop := n <> [] /\ cSlash ∉ n /\ n <> dot /\ n <> dotdot.

(** Below [top], what lies under a path lies in a directory, in one of its
    entries. *)
Definition wf (t : Tree) (top : bytes) : Prop := forall p q, under top p -> below p q -> is_Some (t !! q) ->
  t !! p = Some KDir /\ exists n, name_ok n /\ is_Some (t !! join p n) /\ under (join p n) q.

Definition nodes (t : Tree) (p : bytes) : nat := base.size (filter (fun x : bytes * Kind => under p x.1) t).

Class TreeSpec (W Dir : Type) `{Kernel W Dir} := {
  tree : W -> Tree;
  (** What an open directory has still to give. *)
  listing : W -> Dir -> option (list (bytes * DType));
  (** Whether the kernel may fail a call that the tree allows. *)
  may_deny : Prop;
  same (w w' : W) : Prop := tree w' = tree w /\ forall h, listing w' h = listing w h;

  lstat_spec p w : exists r w', k_lstat p w = Some (r, w') /\ same w w' /\
    match r with
    | Done st => exists k, tree w !! p = Some k /\ mode_is (st_mode st) k
    | Errno e => (e = ENOENT -> tree w !! p = None) /\ (~ may_deny -> e = ENOENT)
    end;
  opendir_spec p w : exists r w', k_opendir p w = Some (r, w') /\ tree w' = tree w /\
    match r with
    | Done h => tree w !! p = Some KDir /\ listing w h = None /\ (forall h', h' <> h -> listing w' h' = listing w h') /\
        exists l, listing w' h = Some l /\ length l <= 2 + base.size (tree w) /\ NoDup l.*1 /\
          forall n, n <> dot -> n <> dotdot -> (n ∈ l.*1 <-> name_ok n /\ is_Some (tree w !! join p n)) /\
          forall t, (n, t) ∈ l -> exists k, tree w !! join p n = Some k /\ dtype_is t k
    | Errno e => (forall h, listing w' h = listing w h) /\ e <> 0%Z /\ (~ may_deny -> tree w !! p <> Some KDir)
    end;
  readdir_spec h w l : listing w h = Some l -> exists r w', k_readdir h w = Some (r, w') /\ tree w' = tree w /\
    (forall h', h' <> h -> listing w' h' = listing w h') /\
    match r with
    | Done None => l = [] /\ listing w' h = Some []
    | Done (Some x) => exists l', l = x :: l' /\ listing w' h = Some l'
    | Errno e => e <> 0%Z /\ may_deny /\ is_Some (listing w' h)
    end;
  closedir_spec h w : is_Some (listing w h) -> exists w', k_closedir h w = Some (tt, w') /\ tree w' = tree w /\
    listing w' h = None /\ forall h', h' <> h -> listing w' h' = listing w h';
  unlink_spec p w : exists r w', k_unlink p w = Some (r, w') /\ (forall h, listing w' h = listing w h) /\
    match r with
    | Done _ => (exists k, tree w !! p = Some k /\ k <> KDir) /\ tree w' = delete p (tree w)
    | Errno e => tree w' = tree w /\ (e = ENOENT -> tree w !! p = None) /\
        (~ may_deny -> tree w !! p = None \/ tree w !! p = Some KDir)
    end;
  rmdir_spec p w : exists r w', k_rmdir p w = Some (r, w') /\ (forall h, listing w' h = listing w h) /\
    match r with
    | Done _ => tree w !! p = Some KDir /\ (forall q, below p q -> tree w !! q = None) /\ tree w' = delete p (tree w)
    | Errno e => tree w' = tree w /\ (~ may_deny -> tree w !! p <> Some KDir \/ exists q, below p q /\ is_Some (tree w !! q))
    end;
  (** [stat] follows links. *)
  is_directory : W -> bytes -> Prop;
  mkdir_spec p mode w : exists r w', k_mkdir p mode w = Some (r, w') /\
    (forall q, is_directory w q -> is_directory w' q) /\
    (forall q k, tree w !! q = Some k -> tree w' !! q = Some k) /\
    match r with
    | Done _ => is_directory w' p
    | Errno e => tree w' = tree w /\ (~ may_deny -> is_directory w p -> e = EEXIST)
    end;
  stat_spec p w : exists r w', k_stat p w = Some (r, w') /\ tree w' = tree w /\ (forall q, is_directory w' q <-> is_directory w q) /\
    match r with
    | Done st => S_ISDIR (st_mode st) = true <-> is_directory w p
    | Errno e => ~ may_deny -> ~ is_directory w p
    end }.

(** ** Paths *)

Lemma below_join p n : below p (join p n).
Proof. exists n. unfold join. by rewrite <-app_assoc. Qed.

Lemma below_length p q : below p q -> length p < length q.
Proof. intros [x ->]. rewrite !length_app. cbn. lia. Qed.

Lemma below_trans p q r : below p q -> below q r -> below p r.
Proof. intros [x ->] [y ->]. exists (x ++ cSlash :: y). by rewrite <-!app_assoc. Qed.

Lemma under_below_trans p q r : under p q -> below q r -> below p r.
Proof. intros [->|Hb]; [done|by apply below_trans]. Qed.

Lemma below_under_trans p q r : below p q -> under q r -> below p r.
Proof. intros Hb [->|Hb']; [done|by eapply below_trans]. Qed.

Lemma under_trans p q r : under p q -> under q r -> under p r.
Proof. intros Hu [->|Hb]; [done|right; by eapply under_below_trans]. Qed.

Lemma not_below_self p : ~ below p p.
Proof. intros H%below_length. lia. Qed.

Lemma wf_under t top p : wf t top -> under top p -> wf t p.
Proof. intros Hw Hu q r Hq. apply Hw. by eapply under_trans. Qed.

(** Removing a path with nothing below it. *)
Lemma wf_delete t top p : wf t top -> (forall q, below p q -> t !! q = None) -> wf (delete p t) top.
Proof.
  intros Hw Hp x q Hx Hb [k Hq]. apply lookup_delete_Some in Hq as [Hne Hq].
  destruct (Hw x q Hx Hb (mk_is_Some _ _ Hq)) as (Hd & n & Hn & Hj & Hu).
  assert (forall y, under y q -> is_Some (t !! y) -> is_Some (delete p t !! y)) as Hkeep.
  { intros y Hy [k' Hk']. exists k'. apply lookup_delete_Some. split; [|done]. intros ->. destruct Hy as [->|Hy]; [done|].
    specialize (Hp _ Hy). congruence. }
  split.
  - apply lookup_delete_Some. split; [|done]. intros ->. specialize (Hp _ Hb). congruence.
  - exists n. split; [done|]. split; [by apply Hkeep|done].
Qed.

Lemma nodes_mono t t' p : t' ⊆ t -> nodes t' p <= nodes t p.
Proof. intros Hs. unfold nodes. apply map_subseteq_size. by apply map_filter_subseteq_mono. Qed.

(** A child has fewer nodes. *)
Lemma nodes_child t p n k : t !! p = Some k -> nodes t (join p n) < nodes t p.
Proof.
  intros Hp. unfold nodes. apply map_subset_size.
  assert (forall q, under (join p n) q -> below p q) as Hb by (intros q Hu; eapply below_under_trans; [apply below_join|done]).
  split.
  - apply map_subseteq_spec. intros q k' Hq. apply map_lookup_filter_Some in Hq as [Hq Hu]. apply map_lookup_filter_Some.
    split; [done|]. right. by apply Hb.
  - intros Hs. rewrite map_subseteq_spec in Hs.
    assert (filter (fun x : bytes * Kind => under p x.1) t !! p = Some k) as Hin by (apply map_lookup_filter_Some; split; [done|by left]).
    apply Hs in Hin. apply map_lookup_filter_Some in Hin as [_ Hu]. by apply (not_below_self p), Hb.
Qed.

(** ** [remove_all] *)

Section remove.
Context {W Dir : Type} `{KW : Kernel W Dir} {TS : TreeSpec W Dir} {ED : EqDecision Dir}.

(** What a removal below [top] does to the world. *)
Definition shrunk (top : bytes -> Prop) (w w' : W) : Prop :=
  tree w' ⊆ tree w /\ (forall q, ~ top q -> tree w' !! q = tree w !! q) /\ (forall x, wf (tree w) x -> wf (tree w') x).

Lemma tree_shrunk_refl top w w' : tree w' = tree w -> shrunk top w w'.
Proof. intros E. unfold shrunk. by rewrite E. Qed.

Lemma tree_shrunk_trans top w1 w2 w3 : shrunk top w1 w2 -> shrunk top w2 w3 -> shrunk top w1 w3.
Proof.
  intros (A1 & B1 & C1) (A2 & B2 & C2). split; [by etrans|]. split; [|auto]. intros q Hq. by rewrite B2, B1.
Qed.

Lemma shrunk_weaken (top top' : bytes -> Prop) w w' : (forall q, top q -> top' q) -> shrunk top w w' -> shrunk top' w w'.
Proof. intros Ht (A & B & C). split; [done|]. split; [|done]. intros q Hq. apply B. intros H. by apply Hq, Ht. Qed.

Lemma shrunk_delete p w w' : (forall q, below p q -> tree w !! q = None) -> tree w' = delete p (tree w) -> shrunk (under p) w w'.
Proof.
  intros Hp E. unfold shrunk. rewrite E. split; [apply delete_subseteq|]. split.
  - intros q Hq. apply lookup_delete_ne. intros ->. apply Hq. by left.
  - intros x Hx. by apply wf_delete.
Qed.

Definition listings_same (w w' : W) : Prop := forall h, listing w' h = listing w h.

(** The recursive call, as the loop uses it. *)
Definition removes (target : bytes) (w : W) (r : Result unit) (w' : W) : Prop :=
  shrunk (under target) w w' /\ listings_same w w' /\
  (r = Ok tt -> forall q, under target q -> tree w' !! q = None) /\ (~ may_deny -> r = Ok tt).

Lemma shrunk_none top w w' q : shrunk top w w' -> tree w !! q = None -> tree w' !! q = None.
Proof.
  intros (Hs & _) Hq. destruct (tree w' !! q) as [k|] eqn:E; [|done].
  rewrite map_subseteq_spec in Hs. apply Hs in E. congruence.
Qed.

(** The loop: no child that was listed is left, or something failed. *)
Definition emptied (target : bytes) (h : Dir) (l : list (bytes * DType)) (failure : Result unit) (w : W) (r : Result unit * Z) (w' : W) : Prop :=
  shrunk (below target) w w' /\ (forall h', h' <> h -> listing w' h' = listing w h') /\ is_Some (listing w' h) /\
  (r.1 = Ok tt -> r.2 = 0%Z -> forall n, n ∈ l.*1 -> n <> dot -> n <> dotdot -> forall q, under (join target n) q -> tree w' !! q = None) /\
  (r.1 = Ok tt -> failure = Ok tt) /\
  (~ may_deny -> failure = Ok tt -> r = (Ok tt, 0%Z)).

Lemma remove_entries_run (remove : bytes -> ST W (Result unit)) target h :
  forall fuel l failure w, listing w h = Some l -> length l < fuel ->
  (forall n w1, shrunk (below target) w w1 -> runs (remove (join target n)) (removes (join target n) w1) w1) ->
  runs (remove_entries remove fuel target h failure) (emptied target h l failure w) w.
Proof using TS.
  induction fuel as [|fuel IH]; intros l failure w Hh Hl Hrec; [lia|]. cbn [remove_entries].
  destruct (readdir_spec h w l Hh) as (e & w1 & He & Ht1 & Ho1 & Hc). apply runs_bind. exists e, w1. split; [exact He|].
  pose proof (tree_shrunk_refl (below target) w w1 Ht1) as Hs1.
  destruct e as [[[n t]|]|e].
  - destruct Hc as (l' & -> & Hh1). cbn [length] in Hl.
    assert (forall n1 w2, shrunk (below target) w1 w2 -> runs (remove (join target n1)) (removes (join target n1) w2) w2) as Hrec1.
    { intros n1 w2 Hs2. apply Hrec. by eapply tree_shrunk_trans. }
    case_decide as Hdot.
    + eapply runs_mono; [apply (IH l' failure w1 Hh1); [lia|exact Hrec1]|]. intros r w' (Hs & Ho & Hi & Hok & Hf & Hd).
      split_and!; try done; [by eapply tree_shrunk_trans|intros h' Hh'; by rewrite Ho, Ho1|].
      intros H1 H2 n' Hn' Hn1 Hn2. cbn in Hn'. apply elem_of_cons in Hn' as [->|Hn']; [tauto|]. by apply Hok.
    + apply runs_bind. eapply runs_mono; [apply (Hrec n w1 Hs1)|]. intros child w2 (Hs2 & Hl2 & Hgone & Hdeny).
      assert (shrunk (below target) w1 w2) as Hs2'.
      { eapply shrunk_weaken; [|exact Hs2]. intros q Hq. eapply below_under_trans; [apply below_join|done]. }
      eapply runs_mono; [apply (IH l'); [by rewrite Hl2|lia|intros n1 w3 Hs3; apply Hrec; eapply tree_shrunk_trans; [exact Hs1|by eapply tree_shrunk_trans]]|].
      intros r w' (Hs & Ho & Hi & Hok & Hf & Hd). split_and!; try done.
      * eapply tree_shrunk_trans; [exact Hs1|by eapply tree_shrunk_trans].
      * intros h' Hh'. by rewrite Ho, Hl2, Ho1.
      * intros H1 H2 n' Hn' Hn1 Hn2 q Hq. cbn in Hn'. apply elem_of_cons in Hn' as [->|Hn']; [|by apply (Hok H1 H2 n')].
        eapply shrunk_none; [exact Hs|]. apply Hgone; [|done]. specialize (Hf H1). destruct failure as [[]|]; done.
      * intros H1. specialize (Hf H1). destruct failure as [[]|]; done.
      * intros Hm ->. apply Hd; [done|]. by apply Hdeny.
  - destruct Hc as [-> Hh1]. apply runs_ret. split_and!; try done; [intros _ _ n Hn; cbn in Hn; by apply elem_of_nil in Hn|]. by intros _ ->.
  - destruct Hc as (He0 & Hm & Hi). apply runs_ret. split_and!; try done.
Qed.

Lemma runs_sys {A} (call : ST W (Sys A)) (Q : Result A -> W -> Prop) w r w' : call w = Some (r, w') ->
  Q (match r with Done a => Ok a | Errno e => Err (of_errno e) end) w' -> runs (sys call) Q w.
Proof. intros Hr HQ. apply runs_bind. exists r, w'. split; [done|]. destruct r; by apply runs_ret. Qed.

Lemma walker_run depth width : forall target w, 2 + base.size (tree w) < width -> wf (tree w) target -> nodes (tree w) target < depth ->
  runs (walker depth width target) (removes target w) w.
Proof using TS ED.
  induction depth as [|depth IH]; intros target w Hwidth Hwf Hn; [lia|]. cbn [walker].
  destruct (lstat_spec target w) as (st & w1 & Hst & [Ht1 Hl1] & Hc). apply runs_bind. exists st, w1. split; [exact Hst|].
  assert (tree w !! target = None -> forall q, under target q -> tree w !! q = None) as Hnone.
  { intros H0 q [->|Hb]; [done|]. destruct (tree w !! q) as [k|] eqn:E; [|done].
    destruct (Hwf target q (or_introl eq_refl) Hb) as [Hd _]; [by rewrite E|congruence]. }
  assert (forall w2 e, tree w2 = tree w1 -> listings_same w1 w2 -> may_deny -> removes target w (Err (T := unit) e) w2) as Herr.
  { intros w2 e Ht Hl Hm. split_and!; try done; [apply tree_shrunk_refl; congruence|]. intros h. by rewrite Hl, Hl1. }
  destruct st as [st|e].
  2: { destruct Hc as [He Hm]. case_decide as Hen; apply runs_ret.
    - split_and!; try done; [by apply tree_shrunk_refl|]. intros _ q Hq. rewrite Ht1. apply Hnone; auto.
    - split_and!; try done; [by apply tree_shrunk_refl|]. intros Hd. by apply Hm in Hd. }
  destruct Hc as (k & Hk & Hmode & _). rewrite Hmode. case_bool_decide as Hkd.
  2: { (* not a directory *)
    destruct (unlink_spec target w1) as (u & w2 & Hu & Hl2 & Hc). apply runs_bind. exists u, w2. split; [exact Hu|].
    assert (forall q, below target q -> tree w !! q = None) as Hleaf.
    { intros q Hb. destruct (tree w !! q) as [k'|] eqn:E; [|done].
      destruct (Hwf target q (or_introl eq_refl) Hb) as [Hd _]; [by rewrite E|congruence]. }
    rewrite Ht1 in Hc. destruct u as [[]|e].
    - destruct Hc as [_ Ht2]. apply runs_ret. split_and!; try done.
      + by apply shrunk_delete.
      + intros h. by rewrite Hl2, Hl1.
      + intros _ q [->|Hb]; rewrite Ht2; apply lookup_delete_None; [by left|right; by apply Hleaf].
    - destruct Hc as (Ht2 & He & Hm). case_decide as Hen; apply runs_ret.
      + specialize (He Hen). congruence.
      + split_and!; try done; [by apply tree_shrunk_refl|intros h; by rewrite Hl2, Hl1|]. intros Hd. destruct (Hm Hd); congruence. }
  subst k. destruct (opendir_spec target w1) as (d & w2 & Hd & Ht2 & Hc). apply runs_try. eapply runs_sys; [exact Hd|]. rewrite Ht1 in Hc, Ht2.
  destruct d as [h|e]; cbn [on_ok].
  2: { destruct Hc as (Hl2 & _ & Hm). split_and!; try done; [by apply tree_shrunk_refl|intros q; by rewrite Hl2, Hl1|].
    intros Hdn. by apply Hm in Hdn. }
  destruct Hc as (_ & Hh1 & Ho2 & l & Hh2 & Hlen & _ & Hlist).
  apply runs_bind. eapply runs_mono; [apply (remove_entries_run (walker depth width) target h width l); [done|lia|]|].
  { intros n w3 Hs3. apply IH.
    - destruct Hs3 as (Hsub & _). rewrite Ht2 in Hsub. apply map_subseteq_size in Hsub. lia.
    - apply Hs3. rewrite Ht2. eapply wf_under; [exact Hwf|]. right. apply below_join.
    - pose proof (nodes_child (tree w) target n KDir Hk). destruct Hs3 as (Hsub & _). rewrite Ht2 in Hsub.
      pose proof (nodes_mono _ _ (join target n) Hsub). lia. }
  intros r w3 (Hs3 & Ho3 & Hi3 & Hgone & _ & Hdeny).
  destruct (closedir_spec h w3 Hi3) as (w4 & Hcl & Ht4 & Hh4 & Ho4). apply runs_bind. exists tt, w4. split; [exact Hcl|].
  assert (shrunk (below target) w w4) as Hs4.
  { eapply tree_shrunk_trans; [by apply tree_shrunk_refl|]. eapply tree_shrunk_trans; [exact Hs3|by apply tree_shrunk_refl]. }
  assert (shrunk (under target) w w4) as Hs4' by (eapply shrunk_weaken; [|exact Hs4]; intros q Hq; by right).
  assert (listings_same w w4) as Hl4.
  { intros h'. rewrite <-Hl1. destruct (decide (h' = h)) as [->|Hne]; [congruence|]. by rewrite Ho4, Ho3, Ho2. }
  assert (~ may_deny -> r = (Ok tt, 0%Z)) as Hdeny' by (intros Hm; by apply Hdeny).
  destruct r as [[[]|e] re]; cbn [fst snd] in *.
  2: { apply runs_ret. split_and!; try done. intros Hm. by specialize (Hdeny' Hm). }
  case_decide as Hre.
  2: { apply runs_ret. split_and!; try done. intros Hm. specialize (Hdeny' Hm). congruence. }
  specialize (Hgone eq_refl Hre).
  destruct (rmdir_spec target w4) as (u & w5 & Hu & Hl5 & Hc). eapply runs_sys; [exact Hu|].
  assert (listings_same w w5) as Hl5' by (intros h'; by rewrite Hl5, Hl4).
  destruct u as [[]|e].
  - destruct Hc as (_ & Hb & Ht5). split_and!; try done.
    + eapply tree_shrunk_trans; [exact Hs4'|]. by apply shrunk_delete.
    + intros _ q [->|Hq]; rewrite Ht5; apply lookup_delete_None; [by left|right; by apply Hb].
  - destruct Hc as [Ht5 Hm]. split_and!; try done.
    + eapply tree_shrunk_trans; [exact Hs4'|by apply tree_shrunk_refl].
    + intros Hd'. exfalso. destruct (Hm Hd') as [Hbad|(q & Hb & Hq)].
      * apply Hbad. destruct Hs4 as (_ & Hout & _). rewrite Hout; [done|]. apply not_below_self.
      * destruct Hs4 as (Hsub & _ & Hwf4). destruct (Hwf4 _ Hwf target q (or_introl eq_refl) Hb Hq) as (_ & n & Hnok & [k Hj] & _).
        destruct Hnok as (Hn0 & Hns & Hn1 & Hn2). rewrite map_subseteq_spec in Hsub. pose proof (Hsub _ _ Hj) as Hj0.
        assert (n ∈ l.*1) as Hin by (apply (Hlist n Hn1 Hn2); split; [done|by eexists]).
        rewrite Ht4 in Hj. rewrite (Hgone n Hin Hn1 Hn2 (join target n) (or_introl eq_refl)) in Hj. done.
Qed.
End remove.

(** ** [mkdir_all] *)

Lemma find_slash_Some at_ s i : find cSlash at_ s = Some i ->
  at_ <= i < length s /\ s !! i = Some cSlash /\ forall j, at_ <= j < i -> s !! j <> Some cSlash.
Proof.
  unfold find, find_from_if. intros H. apply fmap_Some in H as (k & Hk & E). cbv beta in E. subst i.
  apply find_if_Some in Hk as (Hl & (c & Hc & Hp) & Hb). rewrite length_drop in Hl. apply is_byte_true in Hp as ->. rewrite lookup_drop in Hc.
  split; [lia|]. split; [done|]. intros j Hj Hs. assert (drop at_ s !! (j - at_) = Some cSlash) as Hd.
  { rewrite lookup_drop. by replace (at_ + (j - at_)) with j by lia. }
  specialize (Hb (j - at_) cSlash ltac:(lia) Hd). by apply is_byte_false in Hb.
Qed.

Lemma find_slash_None at_ s : find cSlash at_ s = None -> forall j, at_ <= j -> s !! j <> Some cSlash.
Proof.
  unfold find, find_from_if. intros H%fmap_None j Hj Hs. pose proof (proj1 (find_if_None _ _) H cSlash) as Hf.
  assert (is_byte cSlash cSlash = false) as Hb; [|by apply is_byte_false in Hb].
  apply Hf. apply list_elem_of_lookup. exists (j - at_). rewrite lookup_drop. by replace (at_ + (j - at_)) with j by lia.
Qed.

(** A prefix that ends before a slash or at the end, other than the root. *)
Definition stage (path : bytes) (i : nat) : Prop :=
  0 < i <= length path /\ (path !! i = Some cSlash \/ i = length path) /\ take i path <> [cSlash].

Section make.
Context {W Dir : Type} `{KW : Kernel W Dir} {TS : TreeSpec W Dir}.

(** What [mkdir_all] may do on the way. *)
Definition grown (w w' : W) : Prop :=
  (forall q, is_directory w q -> is_directory w' q) /\ (forall q k, tree w !! q = Some k -> tree w' !! q = Some k).

Lemma grown_trans w1 w2 w3 : grown w1 w2 -> grown w2 w3 -> grown w1 w3.
Proof. intros [A1 B1] [A2 B2]. split; auto. Qed.

Lemma ensure_dir_run partial mode w : runs (ensure_dir partial mode) (fun r w' => grown w w' /\
  (r = Ok tt -> is_directory w' partial) /\ (~ may_deny -> is_directory w partial -> r = Ok tt)) w.
Proof using TS.
  unfold ensure_dir. destruct (mkdir_spec partial mode w) as (r & w1 & Hr & Hd & Ht & Hc). apply runs_bind. exists r, w1. split; [exact Hr|].
  destruct r as [[]|e]; [by apply runs_ret|]. destruct Hc as [Ht1 He]. case_decide as Hex.
  { apply runs_ret. split; [by split|]. split; [done|]. intros Hm Hp. specialize (He Hm Hp). congruence. }
  destruct (stat_spec partial w1) as (st & w2 & Hst & Ht2 & Hd2 & Hc2). apply runs_try. eapply runs_sys; [exact Hst|].
  assert (grown w w2) as Hg by (split; [intros q Hq; by apply Hd2, Hd|intros q k Hq; rewrite Ht2; by apply Ht]).
  destruct st as [st|e2]; cbn [on_ok].
  - destruct (S_ISDIR (st_mode st)); apply runs_ret; (split; [done|]); (split; [|intros Hm Hp]); try done.
    + intros _. by apply Hd2, Hc2.
    + apply Hd, Hc2 in Hp. done.
  - split; [done|]. split; [done|]. intros Hm Hp. specialize (Hc2 Hm). apply Hd in Hp. tauto.
Qed.

Lemma mkdir_loop_run fuel path mode : forall at_ w, at_ <= length path -> length path < at_ + fuel ->
  runs (mkdir_loop fuel path mode at_) (fun r w' => grown w w' /\
    (r = Ok tt -> forall i, at_ <= i -> stage path i -> is_directory w' (take i path)) /\
    (~ may_deny -> (forall i, stage path i -> is_directory w (take i path)) -> r = Ok tt)) w.
Proof using TS.
  induction fuel as [|fuel IH]; intros at_ w Ha Hf; [lia|]. cbn [mkdir_loop]. rewrite decide_False by lia.
  set (slash := find cSlash at_ path). set (e := default (length path) slash).
  assert (at_ <= e <= length path /\ (path !! e = Some cSlash \/ e = length path) /\ (forall j, at_ <= j < e -> path !! j <> Some cSlash)) as (He & Hend & Hbefore).
  { unfold e. destruct slash as [i|] eqn:Hs; cbn.
    - apply find_slash_Some in Hs as (H1 & H2 & H3). split; [lia|]. split; [by left|done].
    - pose proof (find_slash_None _ _ Hs) as Hn. split; [lia|]. split; [by right|]. intros j Hj. apply Hn. lia. }
  set (next := match slash with Some _ => _ | None => _ end).
  assert (forall w1, runs next (fun r w' => grown w1 w' /\
    (r = Ok tt -> forall i, e < i -> stage path i -> is_directory w' (take i path)) /\
    (~ may_deny -> (forall i, stage path i -> is_directory w1 (take i path)) -> r = Ok tt)) w1) as Hnext.
  { intros w1. unfold next. destruct slash as [i|] eqn:Hs.
    - apply find_slash_Some in Hs as Hs'. subst e. cbn. destruct Hs' as (H1 & _). apply IH; lia.
    - apply runs_ret. subst e. cbn. split; [by split|]. split; [|done]. intros _ i Hi (Hi' & _). lia. }
  assert (forall i, at_ <= i <= e -> stage path i -> i = e) as Hstage.
  { intros i Hi (Hi1 & Hi2 & _). destruct (decide (i = e)) as [|Hne]; [done|]. exfalso. destruct Hi2 as [Hi2|Hi2]; [|lia].
    apply (Hbefore i); [lia|done]. }
  set (partial := take (if decide (e = 0) then 1 else e) path). case_decide as Hroot.
  - eapply runs_mono; [apply Hnext|]. intros r w' (Hg & Hok & Hm). split; [done|]. split; [|done]. intros Hr i Hi Hst.
    destruct (decide (i <= e)) as [Hie|Hie]; [|apply Hok; [done|lia|done]].
    assert (i = e) as -> by (by apply Hstage). destruct Hst as (H1 & _ & H3). unfold partial in Hroot. rewrite decide_False in Hroot by lia.
    destruct Hroot as [|Hroot]; [done|]. apply (f_equal length) in Hroot. rewrite length_take in Hroot. cbn in Hroot. lia.
  - assert (stage path e /\ partial = take e path) as [Hst ->].
    { assert (e <> 0).
      { intros H0. apply Hroot. unfold partial. rewrite H0 in *. rewrite decide_True by done. destruct Hend as [Hend|Hend].
        - destruct path as [|c p]; [done|]. cbn in Hend. injection Hend as ->. by left.
        - right. destruct path; done. }
      unfold partial in *. rewrite decide_False in * by done. split; [|done]. split; [lia|]. split; [done|]. tauto. }
    apply runs_try. eapply runs_mono; [apply ensure_dir_run|]. intros [[]|er] w1 (Hg1 & Hd1 & Hm1); cbn [on_ok].
    + eapply runs_mono; [apply Hnext|]. intros r w' (Hg & Hok & Hm). split; [by eapply grown_trans|]. split.
      * intros Hr i Hi Hsti. destruct (decide (i <= e)) as [Hie|Hie]; [|apply Hok; [done|lia|done]].
        assert (i = e) as -> by (by apply Hstage). by apply Hg, Hd1.
      * intros Hm' Hall. apply Hm; [done|]. intros i Hi. by apply Hg1, Hall.
    + split; [done|]. split; [done|]. intros Hm' Hall. apply Hm1; [done|]. by apply Hall.
Qed.
End make.

(** ** [read_dir] *)

Section list.
Context {W Dir : Type} `{KW : Kernel W Dir} {TS : TreeSpec W Dir} {ED : EqDecision Dir}.

(** What an entry says of the path it names. *)
Definition entry_ok (t : Tree) (path : bytes) (e : DirEntry) : Prop := exists k, t !! join path (name e) = Some k /\
  (e_is_dir e = true -> k = KDir) /\ (e_is_regular e = true -> k = KReg) /\ (e_is_symlink e = true -> k = KLink) /\
  (~ may_deny -> e_is_dir e = bool_decide (k = KDir) /\ e_is_regular e = bool_decide (k = KReg) /\ e_is_symlink e = bool_decide (k = KLink)).

Definition is_entry (n : bytes) : Prop := n <> dot /\ n <> dotdot.
#[global] Instance is_entry_dec n : Decision (is_entry n).
Proof. unfold is_entry. apply _. Defined.

Lemma entry_of_run path n t k w : tree w !! join path n = Some k -> dtype_is t k ->
  runs (entry_of path n t) (fun e w' => same w w' /\ name e = n /\ entry_ok (tree w) path e) w.
Proof using TS.
  intros Hk Ht. destruct t; cbn [entry_of dtype_is] in *; try subst k.
  1-3: apply runs_ret; (split; [by split|]); (split; [done|]); eexists; (split; [exact Hk|]); by split_and!.
  destruct (lstat_spec (join path n) w) as (st & w1 & Hst & Hs & Hc). apply runs_bind. exists st, w1. split; [exact Hst|].
  destruct st as [st|e]; apply runs_ret; (split; [done|]); (split; [done|]).
  - destruct Hc as (k' & Hk' & H1 & H2 & H3). assert (k' = k) as -> by congruence. exists k. cbn. rewrite H1, H2, H3.
    split_and!; try done; intros Hb; by apply bool_decide_eq_true in Hb.
  - exists k. cbn. split_and!; try done. intros Hm. destruct Hc as [He Hm']. specialize (He (Hm' Hm)). congruence.
Qed.

Lemma read_dir_loop_run path h t0 fuel : forall l acc w, listing w h = Some l -> length l < fuel -> tree w = t0 ->
  (forall n t, (n, t) ∈ l -> is_entry n -> exists k, t0 !! join path n = Some k /\ dtype_is t k) ->
  runs (read_dir_loop fuel path h acc) (fun r w' => tree w' = t0 /\ (forall h', h' <> h -> listing w' h' = listing w h') /\ is_Some (listing w' h) /\
    (~ may_deny -> r.2 = 0%Z) /\
    (r.2 = 0%Z -> exists es, r.1 = acc ++ es /\ name <$> es = filter is_entry l.*1 /\ Forall (entry_ok t0 path) es)) w.
Proof using TS.
  induction fuel as [|fuel IH]; intros l acc w Hh Hl Ht Hk; [lia|]. cbn [read_dir_loop].
  destruct (readdir_spec h w l Hh) as (e & w1 & He & Ht1 & Ho1 & Hc). apply runs_bind. exists e, w1. split; [exact He|].
  destruct e as [[[n t]|]|e].
  - destruct Hc as (l' & -> & Hh1). cbn [length] in Hl. case_decide as Hdot.
    + eapply runs_mono; [apply (IH l' acc w1 Hh1); [lia|congruence|intros n' t' Hin; apply Hk; by apply list_elem_of_further]|].
      intros r w' (Ht' & Ho & Hi & Hm & Hok). split_and!; try done; [intros h' Hh'; by rewrite Ho, Ho1|]. intros Hr.
      destruct (Hok Hr) as (es & H1 & H2 & H3). exists es. change ((n, t) :: l').*1 with (n :: l'.*1). rewrite (filter_cons_False _ n) by (unfold is_entry; tauto). by split_and!.
    + assert (is_entry n) as Hn by (split; tauto). destruct (Hk n t (list_elem_of_here _ _) Hn) as (k & Hk1 & Hk2).
      apply runs_bind. eapply runs_mono; [apply (entry_of_run path n t k); [rewrite Ht1, Ht|]; done|].
      intros e w2 ([Ht2 Hl2] & Hname & Hok2). rewrite Ht1, Ht in Hok2.
      eapply runs_mono; [apply (IH l' _ w2); [by rewrite Hl2|lia|congruence|intros n' t' Hin; apply Hk; by apply list_elem_of_further]|].
      intros r w' (Ht' & Ho & Hi & Hm & Hok). split_and!; try done; [intros h' Hh'; by rewrite Ho, Hl2, Ho1|]. intros Hr.
      destruct (Hok Hr) as (es & H1 & H2 & H3). exists (e :: es). change ((n, t) :: l').*1 with (n :: l'.*1). rewrite (filter_cons_True _ n) by done. rewrite H1, <-app_assoc. cbn.
      split_and!; [done|by rewrite Hname, H2|by constructor].
  - destruct Hc as [-> Hh1]. apply runs_ret. split_and!; try done; try congruence. intros _. exists []. by rewrite app_nil_r.
  - destruct Hc as (He0 & Hm & Hi). apply runs_ret. split_and!; try done; try congruence.
Qed.

Lemma read_dir_run fuel path w : 2 + base.size (tree w) < fuel ->
  runs (read_dir_job fuel path) (fun r w' => tree w' = tree w /\ listings_same w w' /\
    (~ may_deny -> tree w !! path = Some KDir -> has_value r = true) /\
    forall es, r = Ok es -> tree w !! path = Some KDir /\ NoDup (name <$> es) /\ Forall (entry_ok (tree w) path) es /\
      forall n, n ∈ name <$> es <-> name_ok n /\ is_Some (tree w !! join path n)) w.
Proof using TS ED.
  intros Hf. unfold read_dir_job. destruct (opendir_spec path w) as (d & w1 & Hd & Ht1 & Hc). apply runs_try. eapply runs_sys; [exact Hd|].
  destruct d as [h|e]; cbn [on_ok].
  2: { destruct Hc as (Hl & _ & Hm). split_and!; try done. intros Hd' Hk. by apply Hm in Hd'. }
  destruct Hc as (Hdir & Hh & Ho1 & l & Hh1 & Hlen & Hnd & Hlist).
  apply runs_bind. eapply runs_mono; [apply (read_dir_loop_run path h (tree w) fuel l [] w1 Hh1); [lia|done|]|].
  { intros n t Hin [Hn1 Hn2]. by apply (Hlist n Hn1 Hn2). }
  intros r w2 (Ht2 & Ho2 & Hi2 & Hm & Hok). destruct (closedir_spec h w2 Hi2) as (w3 & Hcl & Ht3 & Hh3 & Ho3).
  apply runs_bind. exists tt, w3. split; [exact Hcl|].
  assert (listings_same w w3) as Hl3.
  { intros h'. destruct (decide (h' = h)) as [->|Hne]; [congruence|]. by rewrite Ho3, Ho2, Ho1. }
  case_decide as Hr; apply runs_ret; (split; [congruence|]); (split; [done|]); (split; [intros Hd' _; first [done | by specialize (Hm Hd')]|]); try done.
  intros es [= <-]. destruct (Hok Hr) as (es & H1 & H2 & H3). cbn in H1. rewrite H1. split; [done|]. rewrite H2.
  split; [by apply NoDup_filter|]. split; [done|]. intros n. rewrite list_elem_of_filter. split.
  - intros [[Hn1 Hn2] Hin]. by apply (Hlist n Hn1 Hn2).
  - intros [Hn Hk]. assert (n <> dot /\ n <> dotdot) as [Hn1 Hn2] by apply Hn. split; [by split|]. by apply (Hlist n Hn1 Hn2).
Qed.

(** C37: Directories. With fuels that cover the tree, each call ends and leaves
    every directory stream it opened closed. [remove_all] that succeeds leaves
    nothing at or below its path; whatever happens, nothing else changes, so a
    link below the path is removed and never followed, and what is still there is
    as it was; and unless the kernel refuses a call that the tree allows, it
    succeeds. [mkdir_all] that succeeds has made every stage of its path a
    directory, it changes nothing that exists, and it succeeds when all were
    directories. [read_dir] gives each entry once, with its kind, and nothing
    else. *)
Theorem directories_exact (path target : bytes) (mode : Z) (depth width fuel : nat) (w : W) :
  wf (tree w) target -> nodes (tree w) target < depth -> 2 + base.size (tree w) < width -> 2 + base.size (tree w) < fuel ->
  (exists r w', remove_all_job depth width target w = Some (r, w') /\ removes target w r w') /\
  (exists r w', mkdir_all_job path mode w = Some (r, w') /\ grown w w' /\
     (r = Ok tt -> forall i, stage path i -> is_directory w' (take i path)) /\
     (~ may_deny -> path <> [] -> (forall i, stage path i -> is_directory w (take i path)) -> r = Ok tt)) /\
  (exists r w', read_dir_job fuel path w = Some (r, w') /\ tree w' = tree w /\ listings_same w w' /\
     (~ may_deny -> tree w !! path = Some KDir -> has_value r = true) /\
     forall es, r = Ok es -> tree w !! path = Some KDir /\ NoDup (name <$> es) /\ Forall (entry_ok (tree w) path) es /\
       forall n, n ∈ name <$> es <-> name_ok n /\ is_Some (tree w !! join path n)).
Proof using TS ED.
  intros Hwf Hn Hw Hf. split; [by apply walker_run|]. split; [|by apply read_dir_run].
  unfold mkdir_all_job. case_decide as Hp.
  - exists (Err (of_errno EINVAL)), w. split; [done|]. split; [by split|]. split; [done|]. done.
  - destruct (mkdir_loop_run (S (length path)) path mode 0 w ltac:(lia) ltac:(lia)) as (r & w' & Hr & Hg & Hok & Hm).
    exists r, w'. split; [exact Hr|]. split; [done|]. split; [|auto]. intros Hr' i Hi. apply Hok; [done|lia|done].
Qed.
End list.
