(* ===== verification/FsWorld.v ===== *)
(** * A concrete kernel for the theorems on files

    Files with one interruption still to come, and a tree of paths; it fails a
    call only where the tree or the files do not allow it. *)

From S2P Require Import Prelude Result Bytes Sock Wp Fs FsTree.

Set Default Proof Using "Type".

Record World := mkWorld {
  w_files : Files;
  w_tree : Tree;
  w_streams : gmap nat (list (bytes * DType));
  w_signals : nat }.

Definition with_files (f : Files) (w : World) : World := mkWorld f (w_tree w) (w_streams w) (w_signals w).
Definition with_tree (t : Tree) (w : World) : World := mkWorld (w_files w) t (w_streams w) (w_signals w).
Definition with_streams (s : gmap nat (list (bytes * DType))) (w : World) : World := mkWorld (w_files w) (w_tree w) s (w_signals w).
Definition signalled (w : World) : World := mkWorld (w_files w) (w_tree w) (w_streams w) (pred (w_signals w)).

(** A call that a signal may interrupt. *)
Definition interruptible {A} (call : ST World (Sys A)) : ST World (Sys A) := fun w =>
  if decide (w_signals w = 0) then call w else Some (Errno EINTR, signalled w).

Definition with_fd {A} (fd : Z) (k : Desc -> ST World (Sys A)) : ST World (Sys A) := fun w =>
  match fds (w_files w) !! fd with Some x => k x w | None => Some (Errno EBADF, w) end.

Definition toy_open (path : bytes) (flags _ : Z) : ST World (Sys Z) := fun w =>
  let f := w_files w in
  let fd := Z.of_nat (fresh (set_map (C := gset Z) (D := gset nat) Z.to_nat (dom (fds f)))) in
  match names f !! path with
  | Some ino =>
      if has flags O_CREAT && has flags O_EXCL then Some (Errno EEXIST, w)
      else Some (Done fd, with_files (mkFiles (<[fd := mkDesc ino 0 (has flags O_APPEND)]> (fds f)) (if has flags O_TRUNC then <[ino := []]> (data f) else data f) (names f)) w)
  | None =>
      if has flags O_CREAT then
        let ino := fresh (dom (data f)) in
        Some (Done fd, with_files (mkFiles (<[fd := mkDesc ino 0 (has flags O_APPEND)]> (fds f)) (<[ino := []]> (data f)) (<[path := ino]> (names f))) w)
      else Some (Errno ENOENT, w)
  end.

Definition toy_close (fd : Z) : ST World (Sys unit) := with_fd fd (fun _ w =>
  let f := w_files w in Some (Done tt, with_files (mkFiles (delete fd (fds f)) (data f) (names f)) w)).

Definition toy_read (fd : Z) (n : nat) : ST World (Sys bytes) := interruptible (with_fd fd (fun x w =>
  let f := w_files w in
  let d := take n (drop (d_off x) (content f (d_ino x))) in
  Some (Done d, with_files (mkFiles (<[fd := mkDesc (d_ino x) (d_off x + length d) (d_append x)]> (fds f)) (data f) (names f)) w))).
Definition toy_pread (fd : Z) (n : nat) (at_ : Z) : ST World (Sys bytes) := interruptible (with_fd fd (fun x w =>
  Some (Done (take n (drop (Z.to_nat at_) (content (w_files w) (d_ino x)))), w))).

(** A write that [moves] the offset, or does not. *)
Definition put_bytes (fd : Z) (moves : bool) (x : Desc) (at_ : nat) (d : bytes) (f : Files) : Files :=
  if decide (length d = 0) then f
  else
    mkFiles (if moves then <[fd := mkDesc (d_ino x) (lands f x at_ + length d) (d_append x)]> (fds f) else fds f)
      (<[d_ino x := overwrite (lands f x at_) d (content f (d_ino x))]> (data f)) (names f).
Definition toy_write (fd : Z) (d : bytes) : ST World (Sys nat) := interruptible (with_fd fd (fun x w =>
  Some (Done (length d), with_files (put_bytes fd true x (d_off x) d (w_files w)) w))).
Definition toy_pwrite (fd : Z) (d : bytes) (at_ : Z) : ST World (Sys nat) := interruptible (with_fd fd (fun x w =>
  Some (Done (length d), with_files (put_bytes fd false x (Z.to_nat at_) d (w_files w)) w))).

Definition mode_of (k : Kind) : Z := match k with KDir => S_IFDIR | KReg => S_IFREG | KLink => S_IFLNK | KOther => 4096 end.
Definition toy_lstat (p : bytes) : ST World (Sys Stat) := fun w =>
  match w_tree w !! p with Some k => Some (Done (mkStat 0 (mode_of k) 0), w) | None => Some (Errno ENOENT, w) end.

(** The name of [q] in the directory [p]. *)
Definition name_in (p q : bytes) : option bytes :=
  let n := drop (S (length p)) q in
  if decide (below p q /\ n <> [] /\ cSlash ∉ n /\ n <> dot /\ n <> dotdot) then Some n else None.

Definition entries_of (t : Tree) (p : bytes) : list (bytes * DType) :=
  omap (fun x : bytes * Kind => n ← name_in p x.1;
    Some (n, match x.2 with KDir => DT_DIR | KReg => DT_REG | KLink => DT_LNK | KOther => DT_OTHER end)) (map_to_list t).

Definition toy_opendir (p : bytes) : ST World (Sys nat) := fun w =>
  if decide (w_tree w !! p = Some KDir) then
    let h := fresh (dom (w_streams w)) in
    Some (Done h, with_streams (<[h := (dot, DT_DIR) :: (dotdot, DT_DIR) :: entries_of (w_tree w) p]> (w_streams w)) w)
  else Some (Errno ENOTDIR, w).

Definition toy_readdir (h : nat) : ST World (Sys (option (bytes * DType))) := fun w =>
  match w_streams w !! h with
  | Some (x :: l) => Some (Done (Some x), with_streams (<[h := l]> (w_streams w)) w)
  | Some [] => Some (Done None, w)
  | None => Some (Errno EBADF, w)
  end.
Definition toy_closedir (h : nat) : ST World unit := fun w => Some (tt, with_streams (delete h (w_streams w)) w).

Definition toy_unlink (p : bytes) : ST World (Sys unit) := fun w =>
  match w_tree w !! p with
  | Some KDir => Some (Errno 21%Z, w)
  | Some _ => Some (Done tt, with_tree (delete p (w_tree w)) w)
  | None => Some (Errno ENOENT, w)
  end.
Definition toy_rmdir (p : bytes) : ST World (Sys unit) := fun w =>
  if decide (w_tree w !! p = Some KDir) then
    if decide (filter (fun x : bytes * Kind => below p x.1) (w_tree w) = ∅) then Some (Done tt, with_tree (delete p (w_tree w)) w)
    else Some (Errno 39%Z, w)
  else Some (Errno ENOTDIR, w).
Definition toy_mkdir (p : bytes) (_ : Z) : ST World (Sys unit) := fun w =>
  match w_tree w !! p with
  | Some _ => Some (Errno EEXIST, w)
  | None => Some (Done tt, with_tree (<[p := KDir]> (w_tree w)) w)
  end.

Definition fine {A} (a : A) : ST World (Sys A) := fun w => Some (Done a, w).

#[global] Instance toy_kernel : Kernel World nat := {|
  p_submit := fun w => Some (None, w);
  k_open := toy_open; k_close := toy_close; k_read := toy_read; k_pread := toy_pread; k_write := toy_write; k_pwrite := toy_pwrite;
  k_fsync _ := fine tt; k_fdatasync _ := fine tt; k_ftruncate _ _ := fine tt; k_lseek _ o := fine o;
  k_fstat _ := fine (mkStat 0 S_IFREG 0); k_stat := toy_lstat; k_lstat := toy_lstat;
  k_unlink := toy_unlink; k_rename _ _ := fine tt; k_mkdir := toy_mkdir; k_rmdir := toy_rmdir;
  k_opendir := toy_opendir; k_readdir := toy_readdir; k_closedir := toy_closedir |}.

(** ** It satisfies the laws *)

Lemma fresh_fd (m : gmap Z Desc) : m !! Z.of_nat (fresh (set_map (C := gset Z) (D := gset nat) Z.to_nat (dom m))) = None.
Proof.
  apply not_elem_of_dom. intros Hin. apply (is_fresh (set_map (C := gset Z) (D := gset nat) Z.to_nat (dom m))).
  apply elem_of_map. eexists. split; [|exact Hin]. by rewrite Nat2Z.id.
Qed.

(** An interruptible call is the call, or an interruption that is used up. *)
Lemma interruptible_run {A} (call : ST World (Sys A)) w : interruptible call w = call w \/
  exists w', interruptible call w = Some (Errno EINTR, w') /\ w_files w' = w_files w /\ w_signals w' < w_signals w.
Proof. unfold interruptible. case_decide as Hs; [by left|]. right. eexists. split; [done|]. split; [done|]. cbn. lia. Qed.

(** A call on an open descriptor of the script. *)
Lemma with_fd_run {A} fd x (k : Desc -> ST World (Sys A)) w : fds (w_files w) !! fd = Some x ->
  interruptible (with_fd fd k) w = k x w \/
  exists w', interruptible (with_fd fd k) w = Some (Errno EINTR, w') /\ w_files w' = w_files w /\ w_signals w' < w_signals w.
Proof.
  intros Hfd. destruct (interruptible_run (with_fd fd k) w) as [E|E]; [left|by right]. rewrite E. unfold with_fd. by rewrite Hfd.
Qed.

#[global] Instance toy_files : FilesSpec World nat.
Proof.
  refine {| files := w_files; patience := w_signals |}.
  - intros path flags mode w. cbn. unfold toy_open. destruct (names (w_files w) !! path) as [ino|] eqn:Hn.
    + destruct (has flags O_CREAT && has flags O_EXCL) eqn:Hx; [by eexists _, _|].
      eexists _, _. split; [done|]. split; [done|]. split; [lia|]. split; [apply fresh_fd|]. exists ino. left. by split_and!.
    + destruct (has flags O_CREAT) eqn:Hc; [|by eexists _, _]. eexists _, _. split; [done|]. split; [done|]. split; [lia|]. split; [apply fresh_fd|].
      eexists. right. by split_and!.
  - intros fd w x Hfd. eexists _, _. split; [cbn; unfold toy_close, with_fd; by rewrite Hfd|]. by split.
  - intros fd w x Hfd. by eexists _, _.
  - intros fd n w x Hfd. unfold k_read, toy_kernel, toy_read.
    edestruct (with_fd_run (A := bytes) fd x) as [E|(w' & E & Hf & Hs)]; [exact Hfd| |]; (eexists _, _; split; [exact E|]).
    + split; [done|]. exists (drop n (drop (d_off x) (content (w_files w) (d_ino x)))). split; [by rewrite take_drop|].
      split; [rewrite length_take; lia|]. split; [|done].
      intros Hd Hn. destruct (drop (d_off x) (content (w_files w) (d_ino x))); [by rewrite drop_nil|]. destruct n; [lia|done].
    + split; [lia|]. split; [done|]. by intros _.
  - intros fd n at_ w x Hfd. unfold k_pread, toy_kernel, toy_pread.
    edestruct (with_fd_run (A := bytes) fd x) as [E|(w' & E & Hf & Hs)]; [exact Hfd| |]; (eexists _, _; split; [exact E|]).
    + rewrite Nat2Z.id. split; [done|]. split; [done|].
      exists (drop n (drop at_ (content (w_files w) (d_ino x)))). split; [by rewrite take_drop|]. split; [rewrite length_take; lia|].
      intros Hd Hn. destruct (drop at_ (content (w_files w) (d_ino x))); [by rewrite drop_nil|]. destruct n; [lia|done].
    + split; [lia|]. split; [done|]. by intros _.
  - intros fd d w x Hfd. unfold k_write, toy_kernel, toy_write.
    edestruct (with_fd_run (A := nat) fd x) as [E|(w' & E & Hf & Hs)]; [exact Hfd| |]; (eexists _, _; split; [exact E|]).
    + split; [done|]. split; [done|]. rewrite firstn_all. done.
    + split; [lia|]. split; [done|]. by intros _.
  - intros fd d at_ w x Hfd. unfold k_pwrite, toy_kernel, toy_pwrite.
    edestruct (with_fd_run (A := nat) fd x) as [E|(w' & E & Hf & Hs)]; [exact Hfd| |]; (eexists _, _; split; [exact E|]).
    + split; [done|]. split; [done|]. rewrite firstn_all, Nat2Z.id. done.
    + split; [lia|]. split; [done|]. by intros _.
Defined.

(** *** The tree *)

Lemma name_in_Some p q n : name_in p q = Some n <-> name_ok n /\ q = join p n.
Proof.
  unfold name_in, name_ok. split.
  - case_decide as H; [|done]. intros [= <-]. destruct H as ([x ->] & H). rewrite <-app_assoc in *. cbn [app] in *.
    replace (drop (S (length p)) (p ++ cSlash :: x)) with x in *; [done|].
    change (cSlash :: x) with ([cSlash] ++ x). rewrite app_assoc, drop_app_length'; [done|]. rewrite length_app. cbn. lia.
  - intros [H ->]. unfold join. assert (drop (S (length p)) (p ++ cSlash :: n) = n) as E.
    { change (cSlash :: n) with ([cSlash] ++ n). rewrite app_assoc, drop_app_length'; [done|]. rewrite length_app. cbn. lia. }
    rewrite E. rewrite decide_True; [done|]. split; [apply below_join|tauto].
Qed.

Definition dtype_of (k : Kind) : DType := match k with KDir => DT_DIR | KReg => DT_REG | KLink => DT_LNK | KOther => DT_OTHER end.

Lemma elem_of_entries t p n d : (n, d) ∈ entries_of t p <-> name_ok n /\ exists k, t !! join p n = Some k /\ d = dtype_of k.
Proof.
  unfold entries_of. rewrite list_elem_of_omap. split.
  - intros ([q k] & Hin & Hx). cbn in Hx. destruct (name_in p q) as [n'|] eqn:E; [|done]. cbn in Hx. injection Hx as -> <-.
    apply name_in_Some in E as [Hn ->]. apply elem_of_map_to_list in Hin. split; [done|]. by exists k.
  - intros (Hn & k & Hk & ->). exists (join p n, k). split; [by apply elem_of_map_to_list|]. cbn.
    by rewrite (proj2 (name_in_Some p (join p n) n)).
Qed.

Lemma entries_length t p : length (entries_of t p) <= base.size t.
Proof.
  unfold entries_of. rewrite <-length_map_to_list. generalize (map_to_list t). intros l. induction l as [|x l IH]; [done|].
  cbn. destruct (name_in p x.1); cbn; lia.
Qed.

Lemma entries_nodup t p : NoDup (entries_of t p).*1.
Proof.
  unfold entries_of. pose proof (NoDup_fst_map_to_list t) as Hnd. revert Hnd. generalize (map_to_list t). intros l Hnd.
  induction l as [|[q k] l IH]; [constructor|]. cbn in Hnd. apply NoDup_cons in Hnd as [Hq Hnd]. cbn.
  destruct (name_in p q) as [n|] eqn:E; [|by apply IH]. cbn. constructor; [|by apply IH].
  rewrite list_elem_of_fmap. intros ([n' d] & E' & Hin). cbn in E'. subst n'. apply list_elem_of_omap in Hin as ([q' k'] & Hin & Hx). cbn in Hx.
  destruct (name_in p q') as [n'|] eqn:E2; [|done]. injection Hx as -> _. apply name_in_Some in E as [_ ->]. apply name_in_Some in E2 as [_ ->].
  apply Hq, list_elem_of_fmap. by exists (join p n, k').
Qed.

#[global] Instance toy_tree : TreeSpec World nat.
Proof.
  refine {| tree := w_tree; listing := fun w h => w_streams w !! h; may_deny := False;
    is_directory := fun w p => w_tree w !! p = Some KDir |}.
  - intros p w. cbn. unfold toy_lstat. destruct (w_tree w !! p) as [k|] eqn:Hk.
    + eexists _, _. split; [done|]. split; [by split|]. exists k. split; [done|]. by destruct k.
    + eexists _, _. split; [done|]. split; [by split|]. done.
  - intros p w. cbn. unfold toy_opendir. case_decide as Hp.
    + eexists _, _. split; [done|]. split; [done|]. split; [done|]. split; [apply not_elem_of_dom, is_fresh|]. split.
      { intros h' Hh'. cbn. by rewrite lookup_insert_ne. }
      eexists. split; [cbn; apply lookup_insert_eq|]. split; [cbn; pose proof (entries_length (w_tree w) p); lia|]. split.
      { cbn. assert (forall n, n ∈ (entries_of (w_tree w) p).*1 -> name_ok n) as Hok.
        { intros n Hn. apply list_elem_of_fmap in Hn as ([n' d] & -> & Hin). by apply elem_of_entries in Hin as [? _]. }
        repeat constructor; [| |apply entries_nodup].
        - rewrite elem_of_cons. intros [Hd|Hd]; [done|]. by apply Hok in Hd as (_ & _ & ? & _).
        - intros Hd. by apply Hok in Hd as (_ & _ & _ & ?). }
      intros n Hn1 Hn2. split.
      * cbn. rewrite !elem_of_cons, list_elem_of_fmap. split.
        -- intros [?|[?|([n' d] & -> & Hin)]]; [done..|]. apply elem_of_entries in Hin as (Hok & k & Hk & _). split; [done|by exists k].
        -- intros [Hok [k Hk]]. right; right. exists (n, dtype_of k). split; [done|]. apply elem_of_entries. split; [done|by exists k].
      * intros t. rewrite !elem_of_cons. intros [[= -> _]|[[= -> _]|Hin]]; [done..|]. apply elem_of_entries in Hin as (Hok & k & Hk & ->).
        exists k. split; [done|]. by destruct k.
    + eexists _, _. split; [done|]. split; [done|]. by split_and!.
  - intros h w l Hh. cbn. unfold toy_readdir. rewrite Hh. destruct l as [|x l]; (eexists _, _; split; [done|]; split; [done|]); cbn.
    + by split.
    + split; [intros h' Hh'; by rewrite lookup_insert_ne|]. exists l. by rewrite lookup_insert_eq.
  - intros h w Hh. eexists. split; [done|]. cbn. split; [done|]. split; [apply lookup_delete_eq|]. intros h' Hh'. by rewrite lookup_delete_ne.
  - intros p w. cbn. unfold toy_unlink. destruct (w_tree w !! p) as [k|] eqn:Hk.
    + destruct k; (eexists _, _; split; [done|]; split; [done|]); try (split; [eexists; by split|done]). split_and!; try done. by right.
    + eexists _, _. split; [done|]. split; [done|]. split_and!; try done. by left.
  - intros p w. cbn. unfold toy_rmdir. case_decide as Hp; [case_decide as He|].
    + eexists _, _. split; [done|]. split; [done|]. split; [done|]. split; [|done]. intros q Hq. destruct (w_tree w !! q) as [k|] eqn:Hk; [|done].
      assert (filter (fun x : bytes * Kind => below p x.1) (w_tree w) !! q = Some k) as Hf by (apply map_lookup_filter_Some; by split).
      rewrite He, lookup_empty in Hf. done.
    + eexists _, _. split; [done|]. split; [done|]. split; [done|]. intros _. right.
      apply map_choose in He as (q & k & Hq). apply map_lookup_filter_Some in Hq as [Hq Hb]. exists q. split; [done|by exists k].
    + eexists _, _. split; [done|]. split; [done|]. split; [done|]. by left.
  - intros p mode w. cbn. unfold toy_mkdir. destruct (w_tree w !! p) as [k|] eqn:Hk.
    + eexists _, _. split; [done|]. split; [done|]. split; [done|]. by split.
    + eexists _, _. split; [done|]. cbn. assert (forall q k, w_tree w !! q = Some k -> <[p := KDir]> (w_tree w) !! q = Some k) as Hkeep.
      { intros q k Hq. rewrite lookup_insert_ne; [done|]. congruence. }
      split; [intros q; apply Hkeep|]. split; [exact Hkeep|]. apply lookup_insert_eq.
  - intros p w. cbn. unfold toy_lstat. destruct (w_tree w !! p) as [k|] eqn:Hk; (eexists _, _; split; [done|]; split; [done|]; split; [done|]).
    + destruct k; cbn; split; try done; by intros [=].
    + by intros _ ?.
Defined.

(** *** Checking that a tree is well formed *)

(** The first name below [p] on the way to [q]. *)
Definition segment (p q : bytes) : bytes :=
  let x := drop (S (length p)) q in take (default (length x) (find cSlash 0 x)) x.

(** The parent relation at one path and one position in it. *)
Definition node_ok (t : Tree) (top q : bytes) (k : nat) : Prop :=
  let p := take k q in
  ~ (under top p /\ below p q) \/
  t !! p = Some KDir /\ (segment p q <> [] /\ cSlash ∉ segment p q /\ segment p q <> dot /\ segment p q <> dotdot) /\
  is_Some (t !! join p (segment p q)) /\ under (join p (segment p q)) q.

#[global] Instance node_ok_dec t top q k : Decision (node_ok t top q k).
Proof. unfold node_ok. cbn zeta. apply _. Defined.

Definition tree_ok (t : Tree) (top : bytes) : bool :=
  bool_decide (Forall (fun q => Forall (node_ok t top q) (seq 0 (length q))) (map_to_list t).*1).

Lemma tree_ok_wf t top : tree_ok t top = true -> wf t top.
Proof.
  unfold tree_ok. rewrite bool_decide_eq_true, Forall_forall. intros Hok p q Hp Hq [k Hk].
  assert (q ∈ (map_to_list t).*1) as Hin by (apply list_elem_of_fmap; exists (q, k); split; [done|by apply elem_of_map_to_list]).
  specialize (Hok q Hin). rewrite Forall_forall in Hok.
  specialize (Hok (length p)). pose proof (below_length p q Hq) as Hl. rewrite elem_of_seq in Hok. specialize (Hok ltac:(lia)).
  unfold node_ok in Hok. cbn zeta in Hok. assert (take (length p) q = p) as E.
  { destruct Hq as [x ->]. by rewrite <-app_assoc, take_app_length. }
  rewrite E in Hok. destruct Hok as [Hno|(Ht & Hn & Hs & Hu)]; [by exfalso; apply Hno|]. split; [done|]. by exists (segment p q).
Qed.

(** ** Concrete runs *)

(** The file /a with five bytes, open at 3, one interruption to come; and the
    directories /t and /t/d, the file /t/d/f, a link /t/l and a file /o beside. *)
Definition p_a : bytes := [47; 97]%Z.
Definition p_t : bytes := [47; 116]%Z.
Definition p_l : bytes := [47; 116; 47; 108]%Z.
Definition p_d : bytes := [47; 116; 47; 100]%Z.
Definition p_f : bytes := [47; 116; 47; 100; 47; 102]%Z.
Definition p_o : bytes := [47; 111]%Z.

Definition the_files : Files := mkFiles {[3%Z := mkDesc 0 0 false]} {[0 := [1; 2; 3; 4; 5]%Z]} {[p_a := 0]}.
Definition the_tree : Tree := <[p_t := KDir]> (<[p_d := KDir]> (<[p_f := KReg]> (<[p_l := KLink]> {[p_o := KReg]}))).
Definition the_world : World := mkWorld the_files the_tree ∅ 1.

Definition outcome_of {A B} (r : option (A * B)) : option A := fst <$> r.

Example remove_all_run : (fun r => (r.1, (map_to_list (w_tree r.2)).*1)) <$> remove_all_job 6 9 p_t the_world = Some (Ok tt, [p_o]).
Proof. by vm_compute. Qed.

(** A prefix that is a file is refused. *)
Example mkdir_over_file : outcome_of (mkdir_all_job (p_o ++ [47; 120]%Z) 493 the_world) = Some (Err (of_errno ENOTDIR)).
Proof. by vm_compute. Qed.

Example read_file_run_limit : outcome_of (read_file_job 20 p_a 5 the_world) = Some (Ok [1; 2; 3; 4; 5]%Z) /\
  outcome_of (read_file_job 20 p_a 4 the_world) = Some (Err (of_errno EMSGSIZE)).
Proof. by vm_compute. Qed.

(** [read] gives an interruption to the caller, where [read_at] retries. *)
Example read_reports_eintr : outcome_of (read_job 3 2 the_world) = Some (Err (of_errno EINTR)) /\
  outcome_of (read_at_job 20 3 2 1 the_world) = Some (Ok [2; 3]%Z).
Proof. by vm_compute. Qed.

(** [write_at] through a descriptor opened for appending ignores its offset, where
    Go's [WriteAt] refuses; one opened without writes where it is told. *)
Example write_at_appends :
  let run o := match (fd <-? open_job p_a o; write_at_job 20 fd [9; 8]%Z 1) the_world with
               | Some (Ok 2, w) => file_of (w_files w) p_a
               | _ => None
               end in
  run (mkOptions write_only true false false false false 420) = Some [1; 2; 3; 4; 5; 9; 8]%Z /\
  run (mkOptions write_only false false false false false 420) = Some [1; 9; 8; 4; 5]%Z.
Proof. by vm_compute. Qed.

(** The file with a second descriptor, which appends. *)
Definition appending : World :=
  mkWorld (mkFiles {[3%Z := mkDesc 0 0 false; 4%Z := mkDesc 0 0 true]} {[0 := [1; 2; 3; 4; 5]%Z]} {[p_a := 0]}) the_tree ∅ 1.

Lemma file_io_exact_witness :
  (exists r w' k, write_job 20 4 [9; 8]%Z appending = Some (r, w') /\ k <= 2 /\
     (forall m, r = Ok m -> m = 2 /\ k = 2) /\
     moved_on (files appending) (files w') 4 (mkDesc 0 0 true) [9; 8]%Z k) /\
  (exists r w' k, write_at_job 20 4 [9; 8]%Z 1 appending = Some (r, w') /\ k <= 2 /\
     (forall m, r = Ok m -> m = 2 /\ k = 2) /\
     only_bytes (files appending) (files w') 0 (wrote (content (files appending) 0) 5 [9; 8]%Z k)).
Proof.
  refine (proj2 (proj2 (proj2 (file_io_exact appending p_a [9; 8]%Z 5 420 4 1 2 (mkDesc 0 0 true) 20 _ _ _ _)))); [reflexivity|done|reflexivity|].
  apply Nat.ltb_lt. vm_compute. reflexivity.
Defined.

Lemma directories_exact_witness :
  (exists r w', remove_all_job 6 9 p_t the_world = Some (r, w') /\ removes p_t the_world r w') /\
  (exists r w', mkdir_all_job p_d 493 the_world = Some (r, w') /\ grown the_world w' /\
     (r = Ok tt -> forall i, stage p_d i -> is_directory w' (take i p_d)) /\
     (~ may_deny -> p_d <> [] -> (forall i, stage p_d i -> is_directory the_world (take i p_d)) -> r = Ok tt)) /\
  (exists r w', read_dir_job 9 p_d the_world = Some (r, w') /\ tree w' = tree the_world /\ listings_same the_world w' /\
     (~ may_deny -> tree the_world !! p_d = Some KDir -> has_value r = true) /\
     forall es, r = Ok es -> tree the_world !! p_d = Some KDir /\ NoDup (name <$> es) /\ Forall (entry_ok (tree the_world) p_d) es /\
       forall n, n ∈ name <$> es <-> name_ok n /\ is_Some (tree the_world !! join p_d n)).
Proof.
  apply (directories_exact p_d p_t 493 6 9 9 the_world); [apply tree_ok_wf; vm_compute; reflexivity|..];
    apply Nat.ltb_lt; vm_compute; reflexivity.
Defined.
