(* ===== verification/SockLife.v ===== *)
(** * Making, configuring and closing sockets (src/net.cpp, include/cio/scoped.hpp)

    [Socket::adopt] and [Socket::close], the functions that make connections and
    listeners, and the socket options, over the kernel's calls and the reactor's
    registration. [AcceptedFd] and the destructors are written out where they
    run. *)

From S2P Require Import Prelude Result Bytes Net Sock Wp NetProps.

Set Default Proof Using "Type".

(** ** Constants of the kernel *)

Definition SOCK_STREAM : Z := 1.
Definition SOCK_DGRAM : Z := 2.
Definition SOCK_CLOEXEC : Z := 524288.
Definition SOCK_NONBLOCK : Z := 2048.
Definition O_NONBLOCK : Z := 2048.
Definition SOL_SOCKET : Z := 1.
Definition IPPROTO_TCP : Z := 6.
Definition SO_REUSEADDR : Z := 2.
Definition SO_SNDBUF : Z := 7.
Definition SO_RCVBUF : Z := 8.
Definition SO_KEEPALIVE : Z := 9.
Definition SO_LINGER : Z := 13.
Definition TCP_NODELAY : Z := 1.
Definition TCP_KEEPIDLE : Z := 4.
Definition SHUT_WR : Z := 1.

Definition stream_type : Z := Z.lor (Z.lor SOCK_STREAM SOCK_CLOEXEC) SOCK_NONBLOCK.
Definition dgram_type : Z := Z.lor (Z.lor SOCK_DGRAM SOCK_CLOEXEC) SOCK_NONBLOCK.

(** A family of addresses, and a [sockaddr] with its length. *)
Inductive Domain := DInet (f : Family) | DUnix.
Inductive SockName := NInet (a : SocketAddr) | NUnix (sun_path : bytes) (length : nat).
Inductive OptVal := OInt (v : Z) | OLinger (l_onoff l_linger : Z).

(** ** The interface *)

(** Descriptors of the reactor are numbers. *)
Class Host (W : Type) := {
  h_socket : Domain -> Z -> ST W (Sys Z);
  h_getfl : Z -> ST W (Sys Z);
  h_setfl : Z -> Z -> ST W (Sys unit);
  h_close : Z -> ST W (Sys unit);
  h_bind : Z -> SockName -> ST W (Sys unit);
  h_connect : Z -> SockName -> ST W (Sys unit);
  h_listen : Z -> Z -> ST W (Sys unit);
  h_setsockopt : Z -> Z -> Z -> OptVal -> ST W (Sys unit);
  h_shutdown : Z -> Z -> ST W (Sys unit);
  h_getsockname : Z -> ST W (Sys SocketAddr);
  h_getpeername : Z -> ST W (Sys SocketAddr);
  h_so_error : Z -> ST W (Sys Z);
  h_unlink : bytes -> ST W (Sys unit);
  h_read : Z -> nat -> ST W (Sys bytes);
  h_write : Z -> bytes -> ST W (Sys nat);
  h_scheduler : W -> bool;                   (* current_scheduler() *)
  h_attach : Z -> ST W (Result nat);         (* Reactor::attach *)
  h_closing : nat -> ST W unit;              (* closing := true under the lifecycle lock *)
  h_detach : nat -> ST W unit;               (* Reactor::detach *)
  h_wait : nat -> Dir -> ST W (Result unit); (* IoAwaiter *)
  h_would_block : nat -> Dir -> ST W unit }. (* note_would_block *)

Record Socket := mkSocket { fd_ : Z; desc_ : option nat }.
Definition no_socket : Socket := mkSocket (-1) None.
Definition valid_socket (s : Socket) : bool := bool_decide (0 <= fd_ s)%Z.

Record UnixListener := mkListener { l_socket : Socket; bound_ : UnixAddr; owns_path_ : bool }.

Section sockets.
Context {W : Type} `{Host W}.

(** [if (call != 0) return Error::from_errno();] *)
Definition host {A} (call : ST W (Sys A)) : ST W (Result A) :=
  r <-- call; match r with Done a => st_ok a | Errno e => st_err (of_errno e) end.

(** [close], its result ignored. *)
Definition close_fd (fd : Z) : ST W unit := _ <-- h_close fd; st_ret tt.

(** [m], and the descriptor closed when it fails. *)
Definition or_close {A} (fd : Z) (m : ST W (Result A)) : ST W (Result A) :=
  r <-- m; match r with Ok a => st_ok a | Err e => close_fd fd;;; st_err e end.

Definition make_nonblocking (fd : Z) : ST W (Result unit) :=
  flags <-? host (h_getfl fd);
  host (h_setfl fd (Z.lor flags O_NONBLOCK)).

(** ** [Socket] *)

(** On success the socket is replaced, on an error it is as it was. *)
Definition adopt (fd : Z) (already_nonblocking : bool) : ST W (Result Socket) :=
  or_close fd (if already_nonblocking then st_ok tt else make_nonblocking fd);;?
  sched <-- st_gets h_scheduler;
  if negb sched then close_fd fd;;; st_err (of_errc shutdown)
  else
    d <-? or_close fd (h_attach fd);
    st_ok (mkSocket fd (Some d)).

(** [Socket::close] after the cancellation binding, called by one task at a time. *)
Definition socket_close (s : Socket) : ST W Socket :=
  match desc_ s with
  | None => if decide (0 <= fd_ s)%Z then close_fd (fd_ s);;; st_ret no_socket else st_ret no_socket
  | Some d =>
      h_closing d;;;
      h_detach d;;;
      if decide (0 <= fd_ s)%Z then close_fd (fd_ s);;; st_ret no_socket else st_ret no_socket
  end.

Definition local_addr (s : Socket) : ST W (Result SocketAddr) :=
  if decide (fd_ s < 0)%Z then st_err (of_errno EBADF) else host (h_getsockname (fd_ s)).
Definition remote_addr (s : Socket) : ST W (Result SocketAddr) :=
  if decide (fd_ s < 0)%Z then st_err (of_errno EBADF) else host (h_getpeername (fd_ s)).

(** ** [TcpConn] *)

Definition new_socket (d : Domain) (type : Z) : ST W (Result Z) := host (h_socket d type).

(** What [connect] started: whether it has completed, with the socket. *)
Definition start_connect (d : Domain) (name : SockName) : ST W (Result (bool * Socket)) :=
  fd <-? new_socket d stream_type;
  c <-- h_connect fd name;
  match c with
  | Errno e =>
      if decide (e <> EINPROGRESS) then close_fd fd;;; st_err (of_errno e)
      else s <-? adopt fd true; st_ok (false, s)
  | Done _ => s <-? adopt fd true; st_ok (true, s)
  end.

Definition begin_connect (addr : SocketAddr) : ST W (Result (bool * Socket)) :=
  if negb (addr_valid addr) then st_err (of_errno EINVAL)
  else start_connect (DInet (family addr)) (NInet addr).

(** The loop of [await_connect] on a socket. *)
Fixpoint connect_loop (fuel : nat) (fd : Z) (d : nat) : ST W (Result unit) :=
  match fuel with
  | O => st_fail
  | S fuel =>
      h_wait d kWrite;;?
      error <-? host (h_so_error fd);
      if decide (error <> 0%Z) then st_err (of_errno error)
      else
        p <-- h_getpeername fd;
        match p with
        | Done _ => st_ok tt
        | Errno e => if decide (e <> ENOTCONN) then st_err (of_errno e) else h_would_block d kWrite;;; connect_loop fuel fd d
        end
  end.

(** A socket whose function returns an error is destroyed. *)
Definition or_destroy {A} (s : Socket) (m : ST W (Result A)) : ST W (Result A) :=
  r <-- m; match r with Ok a => st_ok a | Err e => _ <-- socket_close s; st_err e end.

Definition with_desc {A} (s : Socket) (k : nat -> ST W A) : ST W A := match desc_ s with Some d => k d | None => st_fail end.

(** [TcpConn::dial] of an address. *)
Definition tcp_dial (fuel : nat) (addr : SocketAddr) : ST W (Result Socket) :=
  r <-? begin_connect addr;
  if r.1 : bool then st_ok r.2
  else or_destroy r.2 (with_desc r.2 (connect_loop fuel (fd_ r.2));;? st_ok r.2).

Definition set_int (s : Socket) (level option value : Z) : ST W (Result unit) := host (h_setsockopt (fd_ s) level option (OInt value)).
Definition set_nodelay (s : Socket) (on : bool) := set_int s IPPROTO_TCP TCP_NODELAY (if on then 1 else 0).
Definition set_keepalive (s : Socket) (on : bool) := set_int s SOL_SOCKET SO_KEEPALIVE (if on then 1 else 0).

(** [duration_cast<seconds>] of nanoseconds truncates. *)
Definition whole_seconds (ns : Z) : Z := Z.quot ns 1000000000.

Definition set_keepalive_period (s : Socket) (idle : Z) : ST W (Result unit) :=
  let seconds := whole_seconds idle in
  set_int s IPPROTO_TCP TCP_KEEPIDLE (sgn 32 (if decide (0 < seconds)%Z then seconds else 1));;?
  set_keepalive s true.

Definition linger_value (timeout : Z) : OptVal :=
  if decide (timeout < 0)%Z then OLinger 0 0 else OLinger 1 (sgn 32 (whole_seconds timeout)).
Definition set_linger (s : Socket) (timeout : Z) : ST W (Result unit) :=
  host (h_setsockopt (fd_ s) SOL_SOCKET SO_LINGER (linger_value timeout)).

Definition set_buffer (s : Socket) (option bytes : Z) : ST W (Result unit) :=
  if decide (bytes <= 0)%Z then st_err (of_errno EINVAL) else set_int s SOL_SOCKET option bytes.
Definition set_read_buffer (s : Socket) (bytes : Z) := set_buffer s SO_RCVBUF bytes.
Definition set_write_buffer (s : Socket) (bytes : Z) := set_buffer s SO_SNDBUF bytes.
Definition close_write (s : Socket) : ST W (Result unit) := host (h_shutdown (fd_ s) SHUT_WR).

(** ** Listeners *)

Definition tcp_listen (addr : SocketAddr) (backlog : Z) : ST W (Result Socket) :=
  if negb (addr_valid addr) then st_err (of_errno EINVAL)
  else
    fd <-? new_socket (DInet (family addr)) stream_type;
    _ <-- h_setsockopt fd SOL_SOCKET SO_REUSEADDR (OInt 1);
    or_close fd (host (h_bind fd (NInet addr)));;?
    or_close fd (host (h_listen fd backlog));;?
    adopt fd true.

Definition udp_listen (addr : SocketAddr) : ST W (Result Socket) :=
  if negb (addr_valid addr) then st_err (of_errno EINVAL)
  else
    fd <-? new_socket (DInet (family addr)) dgram_type;
    or_close fd (host (h_bind fd (NInet addr)));;?
    adopt fd true.

(** [fill_unix_addr] of a zeroed [sockaddr_un]. *)
Definition unix_name (addr : UnixAddr) : ST W (Result SockName) :=
  match fill_unix_addr addr (replicate sun_path_size 0%Z) with
  | None => st_fail
  | Some (Err e, _) => st_err e
  | Some (Ok n, path) => st_ok (NUnix path n)
  end.

Definition unix_dial (fuel : nat) (addr : UnixAddr) : ST W (Result Socket) :=
  name <-? unix_name addr;
  r <-? start_connect DUnix name;
  if r.1 : bool then st_ok r.2
  else
    or_destroy r.2 (
      with_desc r.2 (fun d => h_wait d kWrite);;?
      error <-? host (h_so_error (fd_ r.2));
      if decide (error <> 0%Z) then st_err (of_errno error) else st_ok r.2).

Definition unix_listen (addr : UnixAddr) (backlog : Z) (unlink_existing : bool) : ST W (Result UnixListener) :=
  name <-? unix_name addr;
  (if unlink_existing && negb (abstract_ addr) then _ <-- h_unlink (c_str (unix_path addr)); st_ret tt else st_ret tt);;;
  fd <-? new_socket DUnix stream_type;
  s <-? (or_close fd (host (h_bind fd name));;?
         or_close fd (host (h_listen fd backlog));;?
         adopt fd true);
  st_ok (mkListener s addr (negb (abstract_ addr))).

Definition listener_addr (l : UnixListener) : Result UnixAddr :=
  if unix_valid (bound_ l) then Ok (bound_ l) else Err (of_errno EBADF).

Definition listener_unlink (l : UnixListener) : ST W UnixListener :=
  if negb (owns_path_ l) || negb (unix_valid (bound_ l)) then st_ret l
  else _ <-- h_unlink (c_str (unix_path (bound_ l))); st_ret (mkListener (l_socket l) (bound_ l) false).

(** [UnixListener::close]; the destructor runs [listener_unlink], then
    [Socket::close]. *)
Definition listener_close (l : UnixListener) : ST W UnixListener :=
  l <-- listener_unlink l;
  s <-- socket_close (l_socket l);
  st_ret (mkListener s (bound_ l) (owns_path_ l)).

(** ** [PollableFd] *)

Definition pollable_adopt (fd : Z) (already_nonblocking : bool) : ST W (Result Socket) := adopt fd already_nonblocking.

(** [readable] and [writable]. *)
Definition wait_on (s : Socket) (d : Dir) : ST W (Result unit) :=
  match desc_ s with Some x => h_wait x d | None => st_err (of_errno EBADF) end.

(** A call until it is neither interrupted nor would block. *)
Fixpoint poll_io {A} (fuel : nat) (s : Socket) (d : Dir) (call : ST W (Sys A)) : ST W (Result A) :=
  match fuel with
  | O => st_fail
  | S fuel =>
      r <-- call;
      match r with
      | Done a => st_ok a
      | Errno e =>
          if decide (e = EINTR) then poll_io fuel s d call
          else if would_block_errno e then wait_on s d;;? poll_io fuel s d call
          else st_err (of_errno e)
      end
  end.

Definition pollable_read (fuel : nat) (s : Socket) (n : nat) : ST W (Result bytes) :=
  if negb (valid_socket s) then st_err (of_errno EBADF) else poll_io fuel s kRead (h_read (fd_ s) n).

(** The loop of [PollableFd::write]; [rounds] bounds it, [fuel] each round. *)
Fixpoint pollable_loop (rounds fuel : nat) (s : Socket) (buffer : bytes) : ST W (Result unit) :=
  if decide (buffer = []) then st_ok tt
  else
    match rounds with
    | O => st_fail
    | S rounds =>
        n <-? poll_io fuel s kWrite (h_write (fd_ s) buffer);
        if decide (n = 0) then st_err (of_errc closed) else pollable_loop rounds fuel s (drop n buffer)
    end.

Definition pollable_write (rounds fuel : nat) (s : Socket) (buffer : bytes) : ST W (Result nat) :=
  if negb (valid_socket s) then st_err (of_errno EBADF) else pollable_loop rounds fuel s buffer;;? st_ok (length buffer).
End sockets.

(** * Descriptors and registrations of sockets

    Against a kernel and a reactor that keep account of what is open and what is
    registered, every function that makes a socket hands over exactly one
    descriptor with its registration, or nothing. *)

(** What is relied on. [opened] are the descriptors in use, [registered] what the
    reactor's descriptors stand for; [patience] bounds the waits for a connection
    that still end without one. A use of a descriptor that is not open has no
    law, nor has closing one that is registered. *)
Class HostSpec (W E : Type) `{Host W} := {
  opened : W -> gset Z;
  registered : W -> gmap nat Z;
  patience : W -> nat;
  (** What else there is; no call on sockets touches it. *)
  extra : W -> E;
  kept (w w' : W) : Prop := opened w' = opened w /\ registered w' = registered w /\ extra w' = extra w /\ patience w' <= patience w;
  (** A call on [fd] that keeps the account. *)
  quiet {A} (fd : Z) (call : ST W (Sys A)) : Prop := forall w, fd ∈ opened w -> exists r w', call w = Some (r, w') /\ kept w w';

  socket_spec d t w : exists r w', h_socket d t w = Some (r, w') /\ registered w' = registered w /\ extra w' = extra w /\ patience w' <= patience w /\
    match r with Done fd => (0 <= fd)%Z /\ fd ∉ opened w /\ opened w' = {[fd]} ∪ opened w | Errno e => opened w' = opened w end;
  close_spec fd w : fd ∈ opened w -> (forall d, registered w !! d <> Some fd) ->
    exists r w', h_close fd w = Some (r, w') /\ opened w' = opened w ∖ {[fd]} /\ registered w' = registered w /\ extra w' = extra w /\ patience w' <= patience w;
  attach_spec fd w : fd ∈ opened w -> (forall d, registered w !! d <> Some fd) ->
    exists r w', h_attach fd w = Some (r, w') /\ opened w' = opened w /\ extra w' = extra w /\ patience w' <= patience w /\
    match r with Ok d => registered w !! d = None /\ registered w' = <[d := fd]> (registered w) | Err e => registered w' = registered w end;
  closing_spec d w : is_Some (registered w !! d) -> exists w', h_closing d w = Some (tt, w') /\ kept w w';
  detach_spec d w : is_Some (registered w !! d) ->
    exists w', h_detach d w = Some (tt, w') /\ opened w' = opened w /\ registered w' = delete d (registered w) /\ extra w' = extra w /\ patience w' <= patience w;
  wait_spec d dir w : is_Some (registered w !! d) -> exists r w', h_wait d dir w = Some (r, w') /\ kept w w' /\
    (has_value r = true -> patience w' < patience w);
  would_block_spec d dir w : is_Some (registered w !! d) -> exists w', h_would_block d dir w = Some (tt, w') /\ kept w w';
  unlink_spec p w : exists r w', h_unlink p w = Some (r, w') /\ kept w w';
  getfl_spec fd : quiet fd (h_getfl fd);
  setfl_spec fd v : quiet fd (h_setfl fd v);
  bind_spec fd n : quiet fd (h_bind fd n);
  connect_spec fd n : quiet fd (h_connect fd n);
  listen_spec fd n : quiet fd (h_listen fd n);
  setsockopt_spec fd l o v : quiet fd (h_setsockopt fd l o v);
  so_error_spec fd : quiet fd (h_so_error fd);
  getpeername_spec fd : quiet fd (h_getpeername fd) }.

(** An account: descriptors, registrations, the rest, and a bound on the
    patience. *)
Record Acct (E : Type) := mkAcct { a_fds : gset Z; a_regs : gmap nat Z; a_extra : E; a_patience : nat }.
Arguments mkAcct {E}.
Arguments a_fds {E}.
Arguments a_regs {E}.
Arguments a_extra {E}.
Arguments a_patience {E}.

Section life.
Context {W E : Type} `{HW : Host W} {HS : HostSpec W E}.

Lemma kept_refl w : kept w w.
Proof. by split_and!. Qed.
Lemma kept_trans w1 w2 w3 : kept w1 w2 -> kept w2 w3 -> kept w1 w3.
Proof. intros (A1 & B1 & X1 & C1) (A2 & B2 & X2 & C2). split_and!; [congruence..|lia]. Qed.

Definition acct (w : W) : Acct E := mkAcct (opened w) (registered w) (extra w) (patience w).

(** The world has what the account says. *)
Definition settled (b : Acct E) (w : W) : Prop := opened w = a_fds b /\ registered w = a_regs b /\ extra w = a_extra b /\ patience w <= a_patience b.

(** [fd] is held, not yet registered, beyond the account. *)
Definition holds (b : Acct E) (fd : Z) (w : W) : Prop :=
  (0 <= fd)%Z /\ fd ∉ a_fds b /\ opened w = {[fd]} ∪ a_fds b /\ registered w = a_regs b /\ extra w = a_extra b /\ patience w <= a_patience b.

(** [s] owns one descriptor and one registration beyond the account. *)
Definition owns (b : Acct E) (s : Socket) (w : W) : Prop :=
  extra w = a_extra b /\ patience w <= a_patience b /\ exists d, desc_ s = Some d /\ (0 <= fd_ s)%Z /\ fd_ s ∉ a_fds b /\ a_regs b !! d = None /\
    opened w = {[fd_ s]} ∪ a_fds b /\ registered w = <[d := fd_ s]> (a_regs b).

(** Registered descriptors are open. *)
Definition sound (b : Acct E) : Prop := forall d fd, a_regs b !! d = Some fd -> fd ∈ a_fds b.

Lemma settled_acct w : settled (acct w) w.
Proof. by split_and!. Qed.
Lemma settled_kept b w1 w2 : settled b w1 -> kept w1 w2 -> settled b w2.
Proof. intros (A & B & X & C) (A' & B' & X' & C'). split_and!; [congruence..|lia]. Qed.

Lemma holds_kept b fd w1 w2 : holds b fd w1 -> kept w1 w2 -> holds b fd w2.
Proof. intros (A & B & C & D & X & P) (C' & D' & X' & P'). split_and!; try done; [by rewrite C', C|by rewrite D', D|congruence|lia]. Qed.
Lemma owns_kept b s w1 w2 : owns b s w1 -> kept w1 w2 -> owns b s w2.
Proof. intros (X & P & d & A & B & C & D & O & R) (O' & R' & X' & P'). split; [congruence|]. split; [lia|]. exists d. split_and!; try done; [by rewrite O'|by rewrite R']. Qed.

Lemma holds_open b fd w' : holds b fd w' -> fd ∈ opened w'.
Proof. intros (_ & _ & -> & _). set_solver. Qed.
Lemma holds_unregistered b fd w' : sound b -> holds b fd w' -> forall d, registered w' !! d <> Some fd.
Proof. intros Hs (_ & Hn & _ & -> & _) d Hd. by apply Hn, (Hs d). Qed.
Lemma owns_registered b s w' d : owns b s w' -> desc_ s = Some d -> is_Some (registered w' !! d).
Proof. intros (_ & _ & d' & E0 & _ & _ & _ & _ & ->) E'. replace d' with d by congruence. rewrite lookup_insert_eq. by eexists. Qed.
Lemma owns_open b s w' : owns b s w' -> fd_ s ∈ opened w'.
Proof. intros (_ & _ & d & _ & _ & _ & _ & -> & _). set_solver. Qed.

(** Giving the descriptor back. *)
Lemma close_run b fd w1 : sound b -> holds b fd w1 -> runs (close_fd fd) (fun _ w2 => settled b w2) w1.
Proof.
  intros Hs Hh. destruct (close_spec fd w1 (holds_open _ _ _ Hh) (holds_unregistered _ _ _ Hs Hh)) as (r & w2 & Hr & Ho & Hg & Hx & Hp).
  apply runs_bind. exists r, w2. split; [done|]. apply runs_ret. destruct Hh as (_ & Hn & E0 & E1 & X & P).
  split; [rewrite Ho, E0; set_solver|]. split_and!; [congruence..|lia].
Qed.

(** A quiet call on a descriptor that is held: its error gives it back. *)
Lemma quiet_run {A} (call : ST W (Sys A)) b fd w1 : quiet fd call -> holds b fd w1 ->
  runs (host call) (fun _ w2 => holds b fd w2) w1.
Proof.
  intros Hq Hh. destruct (Hq w1 (holds_open _ _ _ Hh)) as (r & w2 & Hr & Hk). apply runs_bind. exists r, w2. split; [done|].
  destruct r; apply runs_ret; by eapply holds_kept.
Qed.

Lemma or_close_run {A} (m : ST W (Result A)) (Q : A -> W -> Prop) b fd w1 : sound b ->
  runs m (on_ok Q (fun _ w2 => holds b fd w2)) w1 -> runs (or_close fd m) (on_ok Q (fun _ w2 => settled b w2)) w1.
Proof.
  intros Hs Hm. apply runs_bind. eapply runs_mono; [exact Hm|]. intros [a|e] w2 Hr; [by apply runs_ret|].
  apply runs_bind. eapply runs_mono; [by eapply close_run|]. intros [] w3 Hk. by apply runs_ret.
Qed.

(** The call of a chain that closes [fd] when it fails. *)
Lemma chain_run {A B} (call : ST W (Sys A)) (k : A -> ST W (Result B)) (Q : Result B -> W -> Prop) b fd w1 : sound b -> quiet fd call ->
  holds b fd w1 -> (forall a w2, holds b fd w2 -> runs (k a) Q w2) -> (forall e w2, settled b w2 -> Q (Err e) w2) ->
  runs (a <-? or_close fd (host call); k a) Q w1.
Proof.
  intros Hs Hq Hh Hk He. apply runs_try. eapply runs_mono; [eapply (or_close_run _ (fun a w2 => holds b fd w2)); [done|]|].
  - eapply runs_mono; [by eapply quiet_run|]. by intros [a|e] w2 H2.
  - intros [a|e] w2 H2; [by apply Hk|by apply He].
Qed.

(** Adopting a descriptor that is held. *)
Definition made (b : Acct E) (r : Result Socket) (w' : W) : Prop :=
  match r with Ok s => owns b s w' | Err _ => settled b w' end.

Lemma adopt_run b fd w1 nb : sound b -> holds b fd w1 -> runs (adopt fd nb) (fun r w2 => made b r w2 /\ forall s, r = Ok s -> fd_ s = fd) w1.
Proof.
  intros Hs Hh. unfold adopt. apply runs_try. eapply runs_mono; [eapply (or_close_run _ (fun _ w2 => holds b fd w2)); [done|]|].
  - destruct nb; [by apply runs_ret|]. unfold make_nonblocking. apply runs_try. eapply runs_mono; [eapply quiet_run; [apply getfl_spec|done]|].
    intros [flags|e] w2 H2; [|done]. eapply runs_mono; [eapply quiet_run; [apply setfl_spec|done]|]. by intros [?|?] w3 H3.
  - intros [[]|e] w2 H2; cbn; [|by split]. apply runs_bind, runs_gets. destruct (h_scheduler w2); cbn [negb].
    + apply runs_try. eapply runs_mono; [eapply (or_close_run _ (fun d w3 => owns b (mkSocket fd (Some d)) w3)); [done|]|].
      * destruct (attach_spec fd w2 (holds_open _ _ _ H2) (holds_unregistered _ _ _ Hs H2)) as (r & w3 & Hr & Ho & Hex & Hp & Hx).
        exists r, w3. split; [done|]. destruct H2 as (A & B & C & D & X & P). destruct r as [d|e].
        -- destruct Hx as [Hd Hx]. split; [cbn; congruence|]. split; [lia|]. exists d. cbn. split_and!; try done; [congruence|by rewrite Ho, C|by rewrite Hx, D].
        -- split_and!; try done; [by rewrite Ho, C|by rewrite Hx, D|congruence|lia].
      * intros [d|e] w3 H3; [|by split]. apply runs_ret. split; [done|]. by intros s [= <-].
    + apply runs_bind. eapply runs_mono; [by eapply close_run|]. intros [] w3 Hk. apply runs_ret. by split.
Qed.

(** Closing the socket puts back what was, and what is registered stays open. *)
Lemma socket_close_run b s w1 : sound b -> owns b s w1 -> runs (socket_close s) (fun s' w2 => s' = no_socket /\ settled b w2) w1.
Proof.
  intros Hs Ho. pose proof Ho as (X & P & d & Hd & H0 & Hn & Hf & Eo & Er). unfold socket_close. rewrite Hd.
  destruct (closing_spec d w1 (owns_registered _ _ _ _ Ho Hd)) as (w2 & Hc & Hk). apply runs_bind. exists tt, w2. split; [done|].
  pose proof (owns_kept _ _ _ _ Ho Hk) as Ho2.
  destruct (detach_spec d w2 (owns_registered _ _ _ _ Ho2 Hd)) as (w3 & Hdt & E3 & R3 & X3 & P3). apply runs_bind. exists tt, w3. split; [done|].
  rewrite decide_True by done. apply runs_bind. destruct Hk as (Ek & Rk & Xk & Pk).
  eapply runs_mono; [apply (close_run b); [done|]|].
  - split_and!; [done|done| | |congruence|lia]; [by rewrite E3, Ek|]. rewrite R3, Rk, Er. by rewrite delete_insert_id.
  - intros [] w4 Hk4. by apply runs_ret.
Qed.

(** ** The functions that make sockets *)

Lemma new_socket_run b d t w : settled b w -> runs (new_socket d t) (on_ok (fun fd w1 => holds b fd w1) (fun _ w1 => settled b w1)) w.
Proof.
  intros (Wo & Wr & Wx & Wp). destruct (socket_spec d t w) as (r & w1 & Hr & Rg & X & P & Hx). apply runs_bind. exists r, w1. split; [done|].
  destruct r as [fd|e]; apply runs_ret; cbn.
  - destruct Hx as (A & B & C). split_and!; [done|by rewrite <-Wo|by rewrite C, Wo|congruence..|lia].
  - split_and!; [congruence..|lia].
Qed.

Definition started (b : Acct E) (r : Result (bool * Socket)) (w' : W) : Prop :=
  match r with Ok x => owns b x.2 w' | Err _ => settled b w' end.

Lemma adopt_started b fd w1 c : sound b -> holds b fd w1 -> runs (s <-? adopt fd true; st_ok (c, s)) (started b) w1.
Proof.
  intros Hs Hh. apply runs_try. eapply runs_mono; [by apply (adopt_run b)|]. intros [s|e] w2 [Hm _]; [by apply runs_ret|done].
Qed.

Lemma start_connect_run b d n w : sound b -> settled b w -> runs (start_connect d n) (started b) w.
Proof.
  intros Hs Hw. apply runs_try. eapply runs_mono; [by apply (new_socket_run b)|]. intros [fd|e] w1 H1; [|done]. cbn.
  destruct (connect_spec fd n w1 (holds_open _ _ _ H1)) as (c & w2 & Hc & Hk). apply runs_bind. exists c, w2. split; [done|].
  pose proof (holds_kept _ _ _ _ H1 Hk) as H2. destruct c as [[]|e]; [by apply adopt_started|].
  case_decide; [|by apply adopt_started]. apply runs_bind. eapply runs_mono; [by eapply close_run|]. intros [] w3 Hk3. by apply runs_ret.
Qed.

Lemma begin_connect_run b addr w : sound b -> settled b w -> runs (begin_connect addr) (started b) w.
Proof. intros Hs Hw. unfold begin_connect. destruct (addr_valid addr); [by apply start_connect_run|by apply runs_ret]. Qed.

(** A call on a socket that is owned. *)
Lemma owned_run {A} (call : ST W (Sys A)) b s w1 : quiet (fd_ s) call -> owns b s w1 -> runs (host call) (fun _ w2 => owns b s w2) w1.
Proof.
  intros Hq Ho. destruct (Hq w1 (owns_open _ _ _ Ho)) as (r & w2 & Hr & Hk). apply runs_bind. exists r, w2. split; [done|].
  destruct r; apply runs_ret; by eapply owns_kept.
Qed.

Lemma connect_loop_run fuel b s d : forall w1, owns b s w1 -> desc_ s = Some d -> patience w1 < fuel ->
  runs (connect_loop fuel (fd_ s) d) (fun _ w2 => owns b s w2) w1.
Proof.
  induction fuel as [|fuel IH]; intros w1 Ho Hd Hf; [lia|]. cbn [connect_loop].
  destruct (wait_spec d kWrite w1 (owns_registered _ _ _ _ Ho Hd)) as (r & w2 & Hr & Hk & Hp). apply runs_try. exists r, w2. split; [done|].
  pose proof (owns_kept _ _ _ _ Ho Hk) as H2. destruct r as [[]|e]; [|done]. specialize (Hp eq_refl). cbn.
  destruct (so_error_spec (fd_ s) w2 (owns_open _ _ _ H2)) as (r & w3 & Hr3 & Hk3). pose proof (owns_kept _ _ _ _ H2 Hk3) as H3.
  apply runs_try, runs_bind. exists r, w3. split; [done|]. destruct r as [x|e]; apply runs_ret; [|done]. cbn.
  case_decide; [by apply runs_ret|].
  destruct (getpeername_spec (fd_ s) w3 (owns_open _ _ _ H3)) as (r & w4 & Hr4 & Hk4). pose proof (owns_kept _ _ _ _ H3 Hk4) as H4.
  apply runs_bind. exists r, w4. split; [done|]. destruct r as [y|e]; [by apply runs_ret|]. case_decide; [by apply runs_ret|].
  destruct (would_block_spec d kWrite w4 (owns_registered _ _ _ _ H4 Hd)) as (w5 & Hr5 & Hk5). apply runs_bind. exists tt, w5. split; [done|].
  apply IH; [by eapply owns_kept|done|]. destruct Hk3 as (_ & _ & _ & ?), Hk4 as (_ & _ & _ & ?), Hk5 as (_ & _ & _ & ?). lia.
Qed.

(** What is done with a socket before it is handed over; an error destroys it. *)
Lemma or_destroy_run {A} (m : ST W (Result A)) (Q : A -> W -> Prop) b s w1 : sound b ->
  runs m (on_ok Q (fun _ w2 => owns b s w2)) w1 -> runs (or_destroy s m) (on_ok Q (fun _ w2 => settled b w2)) w1.
Proof.
  intros Hs Hm. apply runs_bind. eapply runs_mono; [exact Hm|]. intros [a|e] w2 Hr; [by apply runs_ret|].
  apply runs_bind. eapply runs_mono; [by eapply socket_close_run|]. intros s' w3 [_ Hk]. by apply runs_ret.
Qed.

Lemma made_on_ok b r w' : on_ok (fun s w2 => owns b s w2) (fun _ w2 => settled b w2) r w' -> made b r w'.
Proof. by destruct r. Qed.

Lemma tcp_dial_run b fuel addr w : sound b -> settled b w -> a_patience b < fuel -> runs (tcp_dial fuel addr) (made b) w.
Proof.
  intros Hs Hw Hf. apply runs_try. eapply runs_mono; [by apply begin_connect_run|]. intros [[c s]|e] w1 H1; [|done]. cbn in *.
  destruct c; [by apply runs_ret|]. eapply runs_mono; [|apply made_on_ok]. eapply or_destroy_run; [done|].
  pose proof H1 as (X & P & d & Hd & Hx). unfold with_desc. rewrite Hd. apply runs_try.
  eapply runs_mono; [apply (connect_loop_run fuel b s d w1 H1 Hd); lia|]. intros [[]|e] w2 H2; [by apply runs_ret|done].
Qed.

Lemma listen_tail b fd w1 n backlog : sound b -> holds b fd w1 ->
  runs (or_close fd (host (h_bind fd n));;? or_close fd (host (h_listen fd backlog));;? adopt fd true) (made b) w1.
Proof.
  intros Hs Hh. apply (chain_run _ _ _ b fd w1 Hs (bind_spec fd n) Hh); [|done]. intros [] w2 H2.
  apply (chain_run _ _ _ b fd w2 Hs (listen_spec fd backlog) H2); [|done]. intros [] w3 H3.
  eapply runs_mono; [by apply (adopt_run b)|]. by intros r w4 [Hm _].
Qed.

Lemma tcp_listen_run b addr backlog w : sound b -> settled b w -> runs (tcp_listen addr backlog) (made b) w.
Proof.
  intros Hs Hw. unfold tcp_listen. destruct (addr_valid addr); [|by apply runs_ret]. cbn [negb].
  apply runs_try. eapply runs_mono; [by apply (new_socket_run b)|]. intros [fd|e] w1 H1; [|done]. cbn.
  destruct (setsockopt_spec fd SOL_SOCKET SO_REUSEADDR (OInt 1) w1 (holds_open _ _ _ H1)) as (r & w2 & Hr & Hk).
  apply runs_bind. exists r, w2. split; [done|]. apply listen_tail; [done|by eapply holds_kept].
Qed.

Lemma udp_listen_run b addr w : sound b -> settled b w -> runs (udp_listen addr) (made b) w.
Proof.
  intros Hs Hw. unfold udp_listen. destruct (addr_valid addr); [|by apply runs_ret]. cbn [negb].
  apply runs_try. eapply runs_mono; [by apply (new_socket_run b)|]. intros [fd|e] w1 H1; [|done]. cbn.
  apply (chain_run _ _ _ b fd w1 Hs (bind_spec fd (NInet addr)) H1); [|done]. intros [] w2 H2.
  eapply runs_mono; [by apply (adopt_run b)|]. by intros r w3 [Hm _].
Qed.

(** The name of a socket is computed inside its buffer. *)
Lemma fill_in_bounds addr buf : fill_unix_addr addr buf <> None.
Proof.
  unfold fill_unix_addr. case_decide; [done|]. destruct (abstract_ addr); case_decide; try done.
  - rewrite write_at_ok by (cbn; lia). cbn [mbind option_bind]. rewrite write_at_ok; [done|].
    rewrite !length_app, length_take, length_drop. cbn. lia.
  - rewrite write_at_ok; [done|]. rewrite length_app. cbn. lia.
Qed.

Lemma unix_name_run addr (w : W) : runs (unix_name addr) (fun _ w' => w' = w) w.
Proof.
  unfold unix_name. destruct (fill_unix_addr addr (replicate sun_path_size 0%Z)) as [[[n|e] p]|] eqn:Ef; [by apply runs_ret..|].
  exfalso. by eapply fill_in_bounds.
Qed.

Lemma unix_dial_run b fuel addr w : sound b -> settled b w -> runs (unix_dial fuel addr) (made b) w.
Proof.
  intros Hs Hw. apply runs_try. eapply runs_mono; [apply unix_name_run|]. intros [name|e] w0 ->; [|done]. cbn.
  apply runs_try. eapply runs_mono; [by apply start_connect_run|]. intros [[c s]|e] w1 H1; [|done]. cbn in *.
  destruct c; [by apply runs_ret|]. eapply runs_mono; [|apply made_on_ok]. eapply or_destroy_run; [done|].
  pose proof H1 as (X & P & d & Hd & Hx). unfold with_desc. rewrite Hd. apply runs_try.
  destruct (wait_spec d kWrite w1 (owns_registered _ _ _ _ H1 Hd)) as (r & w2 & Hr & Hk & _). exists r, w2. split; [done|].
  pose proof (owns_kept _ _ _ _ H1 Hk) as H2. destruct r as [[]|e]; [|done]. cbn.
  apply runs_try. eapply runs_mono; [apply (owned_run _ b s); [apply so_error_spec|done]|]. intros [x|e] w3 H3; [|done]. cbn.
  case_decide; by apply runs_ret.
Qed.

Definition made_listener (b : Acct E) (addr : UnixAddr) (r : Result UnixListener) (w' : W) : Prop :=
  match r with Ok l => owns b (l_socket l) w' /\ bound_ l = addr /\ owns_path_ l = negb (abstract_ addr) | Err _ => settled b w' end.

Lemma unix_listen_run b addr backlog u w : sound b -> settled b w -> runs (unix_listen addr backlog u) (made_listener b addr) w.
Proof.
  intros Hs Hw. apply runs_try. eapply runs_mono; [apply unix_name_run|]. intros [name|e] w0 ->; [|done]. cbn.
  apply runs_bind. eapply (runs_mono _ (fun _ w1 => settled b w1)).
  { destruct (u && negb (abstract_ addr)); [|by apply runs_ret].
    destruct (unlink_spec (c_str (unix_path addr)) w) as (r & w1 & Hr & Hk). apply runs_bind. exists r, w1. split; [done|].
    apply runs_ret. by eapply settled_kept. }
  intros [] w1 Hw1. apply runs_try. eapply runs_mono; [by apply (new_socket_run b)|]. intros [fd|e] w2 H2; [|done]. cbn.
  apply runs_try. eapply runs_mono; [by apply (listen_tail b)|]. intros [s|e] w3 H3; [by apply runs_ret|done].
Qed.

(** C17: Sockets own their descriptors. From a world whose registrations are of
    open descriptors, [listen] of each kind of socket and [dial] of an address
    end, given fuel for the waits that are still in vain. They use, close and
    register only descriptors that are theirs. On success the socket has one new
    descriptor and one new registration and nothing else changed; on every error
    path both accounts are as they were. Adopting a descriptor from outside takes
    it over, or closes it. Closing a socket, whatever is held beside it by then, removes its
    registration and then its descriptor, once; closing it again does nothing. *)
Theorem sockets_own_descriptors (w : W) (addr : SocketAddr) (name : UnixAddr) (backlog : Z) (unlink_existing : bool) (fuel : nat) :
  sound (acct w) -> patience w < fuel ->
  runs (tcp_listen addr backlog) (made (acct w)) w /\
  runs (udp_listen addr) (made (acct w)) w /\
  runs (unix_listen name backlog unlink_existing) (made_listener (acct w) name) w /\
  runs (tcp_dial fuel addr) (made (acct w)) w /\
  runs (unix_dial fuel name) (made (acct w)) w /\
  (forall b fd nb w1, sound b -> holds b fd w1 -> runs (pollable_adopt fd nb) (made b) w1) /\
  (forall b s w1, sound b -> owns b s w1 -> runs (socket_close s) (fun s' w2 => s' = no_socket /\ settled b w2) w1) /\
  (forall w1, socket_close no_socket w1 = Some (no_socket, w1)).
Proof using HS.
  intros Hs Hf. pose proof (settled_acct w) as Hw. split; [by apply tcp_listen_run|]. split; [by apply udp_listen_run|].
  split; [by apply unix_listen_run|]. split; [by apply tcp_dial_run|]. split; [by apply unix_dial_run|].
  split; [|split; [intros b s w1; by apply socket_close_run|done]].
  intros b fd nb w1 Hb Hh. eapply runs_mono; [by apply (adopt_run b)|]. by intros r w2 [Hm _].
Qed.

(** [connect_loop] is the loop of [await_connect] on this socket, whose waits answer. *)
Definition native_of (fd : Z) (d : nat) : Native W SocketAddr Z := {|
  o_capture := st_fail; o_lock _ := st_fail; o_try_lock _ := st_fail; o_unlock _ := st_fail; o_use _ := st_fail; o_unuse _ := st_fail;
  o_ready _ _ := true; o_would_block := h_would_block d; o_wait dir := (r <-- h_wait d dir; st_ret (Returned r));
  s_recv _ := st_fail; s_send _ := st_fail; s_recvfrom _ := st_fail; s_sendto _ _ := st_fail; s_accept := st_fail;
  s_so_error := h_so_error fd;
  s_getpeername := (p <-- h_getpeername fd; st_ret (match p with Done _ => Done tt | Errno e => Errno e end));
  o_adopt _ := st_fail |}.

Lemma connect_loop_native fuel fd d w : @await_connect W SocketAddr Z (native_of fd d) fuel w = prod_map Returned id <$> connect_loop fuel fd d w.
Proof.
  revert w. induction fuel as [|fuel IH]; intros w; [done|]. cbn [connect_loop await_connect]. unfold st_try, st_bind, host. cbn. unfold st_bind.
  destruct (h_wait d kWrite w) as [[[[]|e] w1]|]; [|done..]. cbn. unfold st_bind.
  destruct (h_so_error fd w1) as [[[x|e] w2]|]; [|done..]. cbn. case_decide; [done|]. unfold st_bind.
  destruct (h_getpeername fd w2) as [[[y|e] w3]|]; [done| |done]. cbn. case_decide; [done|]. unfold st_bind.
  destruct (h_would_block d kWrite w3) as [[[] w4]|]; [apply IH|done].
Qed.
End life.

(** ** A concrete host: it reports the errors of a script *)

(** For the processes of Proc: the children, the processes that descriptors name,
    the reaper with what it was handed, the numbers closed while not open, and
    the children that read from a descriptor's other end. *)
Record Procs := mkProcs {
  p_children : gset Z; p_names : gmap Z Z; p_keeper : option (option Z); p_handed : gset Z; p_strays : list Z; p_feeds : gmap Z Z }.
Definition no_procs : Procs := mkProcs ∅ ∅ None ∅ [] ∅.

Record World := mkWorld { t_opened : gset Z; t_registered : gmap nat Z; t_script : list Z; t_waits : nat; t_procs : Procs }.

Definition set_opened (o : gset Z) (w : World) : World := mkWorld o (t_registered w) (t_script w) (t_waits w) (t_procs w).
Definition set_registered (r : gmap nat Z) (w : World) : World := mkWorld (t_opened w) r (t_script w) (t_waits w) (t_procs w).
Definition set_script (l : list Z) (w : World) : World := mkWorld (t_opened w) (t_registered w) l (t_waits w) (t_procs w).
Definition set_waits (n : nat) (w : World) : World := mkWorld (t_opened w) (t_registered w) (t_script w) n (t_procs w).

Definition set_procs (p : Procs) (w : World) : World := mkWorld (t_opened w) (t_registered w) (t_script w) (t_waits w) p.
Definition stray (fd : Z) (p : Procs) : Procs :=
  mkProcs (p_children p) (p_names p) (p_keeper p) (p_handed p) (fd :: p_strays p) (p_feeds p).

Definition scripted {A} (f : ST World A) : ST World (Sys A) := fun w =>
  match t_script w with
  | e :: l =>
      let w := set_script l w in
      if decide (e = 0%Z) then match f w with Some (a, w) => Some (Done a, w) | None => None end else Some (Errno e, w)
  | [] => match f w with Some (a, w) => Some (Done a, w) | None => None end
  end.

Definition toy_socket : ST World Z := fun w =>
  let fd := Z.of_nat (fresh (set_map (C := gset Z) (D := gset nat) Z.to_nat (t_opened w))) in
  Some (fd, set_opened ({[fd]} ∪ t_opened w) w).
(** A registered descriptor may not be closed; one that is not open is an error. *)
Definition toy_close (fd : Z) : ST World (Sys unit) := fun w =>
  match scripted (st_ret tt) w with
  | Some (r, w) =>
      if decide (fd ∉ t_opened w) then Some (Errno EBADF, set_procs (stray fd (t_procs w)) w)
      else if decide (map_Forall (fun _ x => x <> fd) (t_registered w)) then Some (r, set_opened (t_opened w ∖ {[fd]}) w)
      else None
  | None => None
  end.
Definition toy_attach (fd : Z) : ST World (Result nat) := fun w =>
  match scripted (st_ret tt) w with
  | Some (Errno e, w) => Some (Err (of_errno e), w)
  | Some (Done _, w) => let d := fresh (dom (t_registered w)) in
      Some (Ok d, set_registered (<[d := fd]> (t_registered w)) w)
  | None => None
  end.
Definition toy_wait (_ : nat) (_ : Dir) : ST World (Result unit) := fun w =>
  match t_waits w with
  | O => Some (Err (of_errc closed), w)
  | S n => Some (Ok tt, set_waits n w)
  end.

(** Reading at the end of a file, while signals come. *)
Definition toy_read : ST World (Sys bytes) := fun w =>
  match t_waits w with O => Some (Done [], w) | S n => Some (Errno EINTR, set_waits n w) end.

#[global] Instance toy_host : Host World := {|
  h_socket _ _ := scripted toy_socket; h_getfl _ := scripted (st_ret 2%Z); h_setfl _ _ := scripted (st_ret tt);
  h_close := toy_close;
  h_bind _ _ := scripted (st_ret tt); h_connect _ _ := scripted (st_ret tt); h_listen _ _ := scripted (st_ret tt);
  h_setsockopt _ _ _ _ := scripted (st_ret tt); h_shutdown _ _ := scripted (st_ret tt);
  h_getsockname _ := scripted (st_ret AddrNone); h_getpeername _ := scripted (st_ret AddrNone); h_so_error _ := scripted (st_ret 0%Z);
  h_unlink _ := scripted (st_ret tt); h_read _ _ := toy_read; h_write _ b := scripted (st_ret (length b));
  h_scheduler _ := true; h_attach := toy_attach; h_closing _ := st_ret tt;
  h_detach d := st_modify (fun w => set_registered (delete d (t_registered w)) w);
  h_wait := toy_wait; h_would_block _ _ := st_ret tt |}.

(** A scripted call fails with the account as it is, or is made. *)
Lemma scripted_run {A} (f : ST World A) w : exists w0, t_opened w0 = t_opened w /\ t_registered w0 = t_registered w /\ t_procs w0 = t_procs w /\ t_waits w0 = t_waits w /\
  ((exists e, scripted f w = Some (Errno e, w0)) \/
   scripted f w = match f w0 with Some (a, w1) => Some (Done a, w1) | None => None end).
Proof.
  unfold scripted. destruct w as [o g [|e l] n P]; cbn.
  - eexists (mkWorld o g [] n P). split_and!; try done. by right.
  - eexists (mkWorld o g l n P). split_and!; try done. case_decide; [by right|]. left. by eexists.
Qed.

(** A call that does nothing, but may fail. *)
Lemma scripted_kept {A} (a : A) w : exists r w', scripted (st_ret a) w = Some (r, w') /\ t_opened w' = t_opened w /\
  t_registered w' = t_registered w /\ t_procs w' = t_procs w /\ t_waits w' <= t_waits w.
Proof.
  destruct (scripted_run (st_ret a) w) as (w0 & Eo & Eg & Ex & Ew & [[e E]|E]); rewrite E; eexists _, _; (split; [done|]);
    split_and!; try done; lia.
Qed.

(** The laws, with whatever is made of the processes as the rest. *)
Definition toy_laws {E} (f : Procs -> E) : HostSpec World E.
Proof.
  assert (forall {A} (a : A) w, exists r w', scripted (st_ret a) w = Some (r, w') /\ t_opened w' = t_opened w /\
    t_registered w' = t_registered w /\ f (t_procs w') = f (t_procs w) /\ t_waits w' <= t_waits w) as Hkept.
  { intros A a w. destruct (scripted_kept a w) as (r & w' & Hr & A1 & A2 & A3 & A4). exists r, w'. split_and!; try done. by rewrite A3. }
  refine {| opened := t_opened; registered := t_registered; patience := t_waits; extra w := f (t_procs w) |}.
  - intros d t w. destruct (scripted_run toy_socket w) as (w0 & Eo & Eg & Ex & Ew & [[e He]|He]); cbn; rewrite He.
    + eexists _, _. split; [done|]. split_and!; try done; try (by rewrite ?Ex); lia.
    + eexists _, _. split; [done|]. cbn. split; [done|]. split; [by rewrite Ex|]. split; [lia|]. split; [lia|]. split; [|by rewrite Eo].
      intros Hin. rewrite Eo in Hin. apply (is_fresh (set_map (C := gset Z) (D := gset nat) Z.to_nat (t_opened w))).
      apply elem_of_map. eexists. split; [|exact Hin]. by rewrite Nat2Z.id.
  - intros fd w Hin Hr. cbn. unfold toy_close. destruct (scripted_run (st_ret tt) w) as (w0 & Eo & Eg & Ex & Ew & [[e He]|He]); rewrite He; cbn [st_ret];
      rewrite decide_False by (rewrite Eo; tauto); (rewrite decide_True by (rewrite Eg; intros d x Hx ->; by apply (Hr d)));
      (eexists _, _; split; [done|]); cbn; split_and!; rewrite ?Eo, ?Eg; try done; try (by rewrite ?Ex); lia.
  - intros fd w Hin Hr. cbn. unfold toy_attach. destruct (scripted_run (st_ret tt) w) as (w0 & Eo & Eg & Ex & Ew & [[e He]|He]); rewrite He; cbn.
    + eexists _, _. split; [done|]. split_and!; try done; try (by rewrite ?Ex); lia.
    + eexists _, _. split; [done|]. cbn. split; [done|]. split; [by rewrite Ex|]. split; [lia|]. split; [|by rewrite Eg].
      rewrite Eg. apply not_elem_of_dom, is_fresh.
  - intros d w _. by eexists.
  - intros d w _. eexists. split; [done|]. by split_and!.
  - intros d dir w _. cbn. unfold toy_wait. destruct (t_waits w) as [|n] eqn:En; (eexists _, _; split; [done|]).
    + split; [split_and!; try done; lia|done].
    + split; [split_and!; try done; cbn; lia|]. intros _. cbn. lia.
  - intros d dir w _. by eexists.
  - intros p w. apply Hkept.
  - intros fd w _. apply Hkept.
  - intros fd v w _. apply Hkept.
  - intros fd n w _. apply Hkept.
  - intros fd n w _. apply Hkept.
  - intros fd n w _. apply Hkept.
  - intros fd l o v w _. apply Hkept.
  - intros fd w _. apply Hkept.
  - intros fd w _. apply Hkept.
Defined.

#[global] Instance toy_host_spec : HostSpec World unit := toy_laws (fun _ => tt).

Definition calm (script : list Z) (waits : nat) : World := mkWorld ∅ ∅ script waits no_procs.

Lemma calm_sound script waits : sound (acct (calm script waits)).
Proof. intros d fd Hd. cbn in Hd. by rewrite lookup_empty in Hd. Qed.

(** A connection that does not come about leaves nothing open. *)
Example failed_dial_closes : (fun r => (r.1, t_opened r.2)) <$> tcp_dial 3 (AddrV4 [127; 0; 0; 1]%Z 80) (calm [0; EINPROGRESS; 0]%Z 0) =
  Some (Err (of_errc closed), ∅).
Proof. by vm_compute. Qed.

(** A linger of half a second is a linger of none, which drops unsent data. *)
Example short_linger_resets : linger_value 500000000 = linger_value 0.
Proof. reflexivity. Qed.

(** A listen that fails gives the descriptor back. *)
Example failed_listen_closes : (fun r => (r.1, t_opened r.2)) <$>
  unix_listen (mkUnixAddr [47; 97]%Z false) 1024 true (calm [0; 0; 0; 98]%Z 0) = Some (Err (of_errno 98), ∅).
Proof. by vm_compute. Qed.

Definition busy : World := calm [0; 0; 98]%Z 1.

Lemma sockets_own_descriptors_witness :
  runs (tcp_listen (AddrV4 [127; 0; 0; 1]%Z 80) 1024) (made (acct busy)) busy /\
  runs (udp_listen (AddrV4 [127; 0; 0; 1]%Z 80)) (made (acct busy)) busy /\
  runs (unix_listen (mkUnixAddr [47; 97]%Z false) 1024 true) (made_listener (acct busy) (mkUnixAddr [47; 97]%Z false)) busy /\
  runs (tcp_dial 2 (AddrV4 [127; 0; 0; 1]%Z 80)) (made (acct busy)) busy /\
  runs (unix_dial 2 (mkUnixAddr [47; 97]%Z false)) (made (acct busy)) busy /\
  (forall b fd nb (w1 : World), sound b -> holds b fd w1 -> runs (pollable_adopt fd nb) (made b) w1) /\
  (forall b s (w1 : World), sound b -> owns b s w1 -> runs (socket_close s) (fun s' w2 => s' = no_socket /\ settled b w2) w1) /\
  (forall w1 : World, socket_close no_socket w1 = Some (no_socket, w1)).
Proof.
  apply (sockets_own_descriptors busy (AddrV4 [127; 0; 0; 1]%Z 80) (mkUnixAddr [47; 97]%Z false) 1024 true 2);
    [apply calm_sound|apply Nat.ltb_lt; reflexivity].
Defined.
