(* ===== verification/Proc.v ===== *)
(** * Child processes (src/process.cpp, include/cio/process.hpp)

    [Command::start] in the parent as a program over the kernel, and in the child
    on its table of descriptors; [Child] with its wait and its destructor;
    and the hand-over of an abandoned child to the reaper, which is made then. *)

From S2P Require Import Prelude Result Bytes Sock Wp SockLife.
From stdpp Require Import functions.

Set Default Proof Using "Type".

(** ** Data *)

Record Command := mkCommand {
  program : bytes;
  args : list bytes;
  argv0 : option bytes;
  env : option (list bytes);
  dir : option bytes;
  stdin_pipe : bool;
  stdout_pipe : bool;
  stderr_pipe : bool }.

Definition build_argv (c : Command) : list bytes := default (program c) (argv0 c) :: args c.

Record Status := mkStatus { exit_code : option Z; signal_ : option Z }.
Definition status_success (s : Status) : bool := bool_decide (exit_code s = Some 0%Z).
Definition signalled (s : Status) : bool := bool_decide (is_Some (signal_ s)).

(** [siginfo_t]. *)
Inductive SiCode := CLD_EXITED | CLD_KILLED | CLD_DUMPED | CLD_OTHER.
Record SigInfo := mkSigInfo { si_code : SiCode; si_status : Z }.

(** The ends of the four pipes of [start]. *)
Inductive End := InR | InW | OutR | OutW | ErrR | ErrW | ExR | ExW.
#[global] Instance End_eq_dec : EqDecision End.
Proof. solve_decision. Defined.

(** Their descriptors, -1 when closed or taken. *)
Abbreviation Pipes := (End -> Z).
Definition no_pipes : Pipes := fun _ => (-1)%Z.

Record Child := mkChild {
  pid_ : Z; pidfd_ : option Socket; stdin_ : option Socket; stdout_ : option Socket; stderr_ : option Socket; status_ : option Status }.

(** ** The child's side of [start] *)

(** A descriptor table: open files, with the close-on-exec flag. *)
Record FdEntry := mkEntry { file : nat; cloexec : bool }.
Abbreviation Table := (gmap Z FdEntry).

Definition redirect (fd target : Z) (t : Table) : bool * Table :=
  match t !! fd with
  | None => (false, t)
  | Some e => (true, <[(if decide (fd = target) then fd else target) := mkEntry (file e) false]> t)
  end.

(** [exec] keeps what is not close-on-exec. *)
Definition exec_table (t : Table) : Table := filter (fun x : Z * FdEntry => cloexec x.2 = false) t.

(** The program runs with this table, or the error goes to the file that the
    report's descriptor then stands for. *)
Inductive ChildEnd := Executes (argv : list bytes) (env : option (list bytes)) (t : Table) | Fails (report : option nat) (errno : Z).

Definition fail_child (ps : Pipes) (e : Z) (t : Table) : ChildEnd := Fails (file <$> t !! ps ExW) e.

Definition redirect_if (want : bool) (ps : Pipes) (e : End) (target : Z) (k : Table -> ChildEnd) (t : Table) : ChildEnd :=
  if want then
    match redirect (ps e) target t with
    | (true, t) => k t
    | (false, t) => fail_child ps EBADF t
    end
  else k t.

(** [chdir] and [exec] are what the calls report, if they fail. *)
Definition child_main (c : Command) (ps : Pipes) (chdir exec : option Z) (t : Table) : ChildEnd :=
  let t := if decide (0 <= ps ExR)%Z then delete (ps ExR) t else t in
  redirect_if (stdin_pipe c) ps InR 0 (
  redirect_if (stdout_pipe c) ps OutW 1 (
  redirect_if (stderr_pipe c) ps ErrW 2 (fun t =>
    match (if dir c then chdir else None) with
    | Some e => fail_child ps e t
    | None =>
        match exec with
        | Some e => fail_child ps e t
        | None => Executes (build_argv c) (env c) (exec_table t)
        end
    end))) t.

(** The kernel gives the lowest free descriptor; [pipe2] with [O_CLOEXEC]. *)
Definition lowest (t : Table) : Z :=
  default 0%Z (list_find (fun fd => t !! fd = None) (Z.of_nat <$> seq 0 (S (base.size t))) ≫= fun x => Some x.2).
Definition open_fd (f : nat) (t : Table) : Z * Table := (lowest t, <[lowest t := mkEntry f true]> t).
Definition pipe_table (r w : End) (f : nat) (s : Pipes * Table) : Pipes * Table :=
  let '(a, t) := open_fd f s.2 in
  let '(b, t) := open_fd (S f) t in
  (<[w := b]> (<[r := a]> s.1), t).

(** The pipes of [start] in the parent's table; [f] and on are new files. *)
Definition pipes_table (c : Command) (f : nat) (t : Table) : Pipes * Table :=
  let s := (no_pipes, t) in
  let s := if stdin_pipe c then pipe_table InR InW f s else s in
  let s := if stdout_pipe c then pipe_table OutR OutW (2 + f) s else s in
  let s := if stderr_pipe c then pipe_table ErrR ErrW (4 + f) s else s in
  pipe_table ExR ExW (6 + f) s.

(** ** The parent's side *)

Class ProcHost (W : Type) := {
  p_pipe : ST W (Sys (Z * Z));                              (* pipe2 *)
  p_fork : Command -> Pipes -> ST W (Sys Z);                (* fork; the child runs [child_main] *)
  p_pidfd_open : Z -> ST W (Sys Z);
  p_waitpid : Z -> ST W (Fate unit);                        (* without WNOHANG *)
  p_waitid : Z -> ST W (Fate SigInfo);                      (* on a pidfd, without WNOHANG *)
  p_waitid_nohang : Z -> ST W (Sys (option SigInfo));       (* on a pidfd *)
  p_read : Z -> nat -> ST W (Fate bytes);                   (* read of a pipe that blocks *)
  p_await : nat -> Dir -> ST W (Fate unit);                 (* IoAwaiter *)
  p_send_signal : Z -> Z -> ST W (Sys unit);
  p_dupfd : Z -> ST W (Sys Z);                              (* F_DUPFD_CLOEXEC *)
  p_instance : ST W (option (option Z));                    (* the static of child_reaper *)
  p_set_instance : option Z -> ST W unit;
  p_epoll_create : ST W (Sys Z);
  p_start_thread : Z -> ST W bool;                          (* std::thread over ChildReaper::run *)
  p_epoll_add : Z -> Z -> ST W (Sys unit) }.                (* EPOLL_CTL_ADD, EPOLLIN *)

Section parent.
Context {W : Type} `{Host W} `{ProcHost W}.

(** A call until it is not interrupted. *)
Fixpoint retried {A} (interrupted : A -> bool) (fuel : nat) (call : ST W A) : ST W A :=
  match fuel with
  | O => st_fail
  | S fuel => r <-- call; if interrupted r then retried interrupted fuel call else st_ret r
  end.
Definition sys_interrupted {A} (r : Sys A) : bool := match r with Errno e => bool_decide (e = EINTR) | Done _ => false end.
Definition fate_interrupted {A} (r : Fate A) : bool := match r with Returned (Err e) => bool_decide (e = of_errno EINTR) | _ => false end.

(** [ChildReaper::ChildReaper] and [child_reaper]: the reaper, known by its
    [epoll_fd_], is made once, and if that fails there is none ever after. *)
Definition make_reaper : ST W (option Z) :=
  e <-- p_epoll_create;
  match e with
  | Errno _ => st_ret None
  | Done fd =>
      started <-- p_start_thread fd;
      if started : bool then st_ret (Some fd) else close_fd fd;;; st_ret None
  end.
Definition child_reaper : ST W (option Z) :=
  i <-- p_instance;
  match i with
  | Some r => st_ret r
  | None => r <-- make_reaper; p_set_instance r;;; st_ret r
  end.

(** Hands a duplicate of the pidfd to the reaper. *)
Definition hand_over (source : Z) : ST W unit :=
  d <-- p_dupfd source;
  match d with
  | Errno _ => st_ret tt
  | Done duplicate =>
      reaper <-- child_reaper;
      match reaper with
      | None => close_fd duplicate
      | Some epoll_fd =>
          adopted <-- p_epoll_add epoll_fd duplicate;
          match adopted with Done _ => st_ret tt | Errno _ => close_fd duplicate end
      end
  end.

(** [Child::release_unwaited]. *)
Definition release_unwaited (fuel : nat) (c : Child) : ST W unit :=
  match status_ c, pidfd_ c with
  | None, Some s =>
      if valid_socket s then
        r <-- retried sys_interrupted fuel (p_waitid_nohang (fd_ s));
        match r with
        | Done (Some _) => st_ret tt
        | _ => hand_over (fd_ s)
        end
      else st_ret tt
  | _, _ => st_ret tt
  end.

Definition close_opt (s : option Socket) : ST W unit :=
  match s with Some s => _ <-- socket_close s; st_ret tt | None => st_ret tt end.

(** The destructor, with those of the members. *)
Definition child_destroy (fuel : nat) (c : Child) : ST W unit :=
  release_unwaited fuel c;;;
  close_opt (stderr_ c);;; close_opt (stdout_ c);;; close_opt (stdin_ c);;; close_opt (pidfd_ c).

Definition child_signal (c : Child) (number : Z) : ST W (Result unit) :=
  match pidfd_ c with
  | Some s => if valid_socket s then host (p_send_signal (fd_ s) number) else st_err (of_errno 3)
  | None => st_err (of_errno 3)
  end.

(** [Child::close_stdin]. *)
Definition close_stdin (c : Child) : ST W Child :=
  close_opt (stdin_ c);;; st_ret (mkChild (pid_ c) (pidfd_ c) None (stdout_ c) (stderr_ c) (status_ c)).

Definition status_of (i : SigInfo) : option Status :=
  match si_code i with
  | CLD_EXITED => Some (mkStatus (Some (si_status i)) None)
  | CLD_KILLED | CLD_DUMPED => Some (mkStatus None (Some (si_status i)))
  | CLD_OTHER => None
  end.

(** [PollableFd::readable]. *)
Definition await_readable (s : Socket) : ST W (Fate unit) :=
  match desc_ s with Some d => p_await d kRead | None => st_ret (Returned (Err (of_errno EBADF))) end.

(** [Child::wait]: the result, if it ends, and the child with its status. *)
Definition child_wait (c : Child) : ST W (Fate Status * Child) :=
  match status_ c, pidfd_ c with
  | Some s, _ => st_ret (Returned (Ok s), c)
  | None, Some s =>
      if valid_socket s then
        ready <-- await_readable s;
        r <-- on_fate ready (fun _ => p_waitid (fd_ s));
        match r with
        | Returned (Err e) => st_ret (Returned (Err e), c)
        | Parked => st_ret (Parked, c)
        | Returned (Ok i) =>
            match status_of i with
            | Some st => st_ret (Returned (Ok st), mkChild (pid_ c) (pidfd_ c) (stdin_ c) (stdout_ c) (stderr_ c) (Some st))
            | None => st_ret (Returned (Err (of_errno EAGAIN)), c)
            end
        end
      else st_ret (Returned (Err (of_errno 3)), c)
  | None, None => st_ret (Returned (Err (of_errno 3)), c)
  end.

(** *** [Command::start] *)

(** [Pipe::open]. *)
Definition open_pipe (r w : End) : ST (Pipes * W) (Result unit) :=
  p <-? st_snd (host p_pipe);
  st_modify (fun s => (<[w := p.2]> (<[r := p.1]> s.1), s.2));;;
  st_ok tt.
Definition open_if (want : bool) (r w : End) : ST (Pipes * W) (Result unit) := if want then open_pipe r w else st_ok tt.

(** [take_read], [take_write]; [close_read], [close_write]. *)
Definition take_end (e : End) : ST (Pipes * W) Z := fun s => Some (s.1 e, (<[e := (-1)%Z]> s.1, s.2)).
Definition close_end (e : End) : ST (Pipes * W) unit :=
  fd <-- st_gets (fun s => s.1 e);
  if decide (0 <= fd)%Z then _ <-- take_end e; st_snd (close_fd fd) else st_ret tt.

(** The destructors of the pipes. *)
Definition drop_pipes : ST (Pipes * W) unit :=
  close_end ExR;;; close_end ExW;;; close_end ErrR;;; close_end ErrW;;; close_end OutR;;; close_end OutW;;; close_end InR;;; close_end InW.

(** [sizeof(int)] bytes, little-endian. *)
Definition int_of (d : bytes) : Z := sgn 32 (foldr (fun b n => b + 256 * n)%Z 0%Z d).

Definition set_stream (e : End) (s : Socket) (c : Child) : Child :=
  match e with
  | InW => mkChild (pid_ c) (pidfd_ c) (Some s) (stdout_ c) (stderr_ c) (status_ c)
  | OutR => mkChild (pid_ c) (pidfd_ c) (stdin_ c) (Some s) (stderr_ c) (status_ c)
  | ErrR => mkChild (pid_ c) (pidfd_ c) (stdin_ c) (stdout_ c) (Some s) (status_ c)
  | _ => c
  end.

(** The streams to attach, in order; an error destroys the child. *)
Fixpoint attach_streams (fuel : nat) (l : list (bool * End)) (c : Child) : ST (Pipes * W) (Result Child) :=
  match l with
  | [] => st_ok c
  | (want, e) :: l =>
      if want : bool then
        fd <-- take_end e;
        r <-- st_snd (pollable_adopt fd false);
        match r with
        | Ok s => attach_streams fuel l (set_stream e s c)
        | Err err => st_snd (child_destroy fuel c);;; st_err err
        end
      else attach_streams fuel l c
  end.

Definition streams_of (c : Command) : list (bool * End) := [(stdin_pipe c, InW); (stdout_pipe c, OutR); (stderr_pipe c, ErrR)].

(** The blocking [waitpid] before an error, its result ignored. *)
Definition await_exit (pid : Z) (e : Error) : ST (Pipes * W) (Fate Child) :=
  r <-- st_snd (p_waitpid pid);
  st_ret (match r with Returned _ => Returned (Err e) | Parked => Parked end).

Definition reap (pidfd pid : Z) (e : Error) : ST (Pipes * W) (Fate Child) := st_snd (close_fd pidfd);;; await_exit pid e.

(** Once the child is past its [exec]. *)
Definition adopt_child (fuel : nat) (c : Command) (pid pidfd : Z) : ST (Pipes * W) (Fate Child) :=
  adopted <-- st_snd (pollable_adopt pidfd false);
  match adopted with
  | Err e => reap pidfd pid e
  | Ok s => r <-- attach_streams fuel (streams_of c) (mkChild pid (Some s) None None None None); st_ret (Returned r)
  end.

(** After the fork. *)
Definition start_parent (fuel : nat) (c : Command) (pid : Z) : ST (Pipes * W) (Fate Child) :=
  close_end ExW;;; close_end InR;;; close_end OutW;;; close_end ErrW;;;
  r <-- st_snd (p_pidfd_open pid);
  match r with
  | Errno e => await_exit pid (of_errno e)
  | Done pidfd =>
      ps <-- st_gets fst;
      got <-- st_snd (retried fate_interrupted fuel (p_read (ps ExR) 4));
      match got with
      | Parked => st_ret Parked
      | Returned (Ok [b0; b1; b2; b3]) => reap pidfd pid (of_errno (int_of [b0; b1; b2; b3]))
      | _ => adopt_child fuel c pid pidfd
      end
  end.

(** The pipes and the fork. *)
Definition prepare (c : Command) : ST (Pipes * W) (Result Z) :=
  open_if (stdin_pipe c) InR InW;;?
  open_if (stdout_pipe c) OutR OutW;;?
  open_if (stderr_pipe c) ErrR ErrW;;?
  open_pipe ExR ExW;;?
  ps <-- st_gets fst;
  st_snd (host (p_fork c ps)).

Definition start_body (fuel : nat) (c : Command) : ST (Pipes * W) (Fate Child) :=
  pid <-- prepare c;
  on_fate (Returned pid) (start_parent fuel c).

(** A call that waits for ever destroys nothing. *)
Definition start (fuel : nat) (c : Command) : ST W (Fate Child) :=
  if decide (program c = []) then st_ret (Returned (Err (of_errno EINVAL)))
  else fun w =>
    match (r <-- start_body fuel c; match r with Returned _ => drop_pipes;;; st_ret r | Parked => st_ret Parked end) (no_pipes, w) with
    | Some (r, (_, w)) => Some (r, w)
    | None => None
    end.

(** [Command::run]: the child is destroyed at the end. *)
Definition command_run (fuel : nat) (c : Command) : ST W (Fate Status) :=
  s <-- start fuel c;
  on_fate s (fun child =>
  r <-- child_wait child;
  match r.1 with Returned _ => child_destroy fuel r.2;;; st_ret r.1 | Parked => st_ret Parked end).
End parent.
