(* ===== verification/ProcProps.v ===== *)
(** * Theorems on child processes

    The descriptors a program is started with, and the account of the parent's
    descriptors, registrations and children through [start], [wait] and the
    destructor. *)

From S2P Require Import Prelude Result Bytes Net Sock Wp SockLife Proc.
From stdpp Require Import functions.

Set Default Proof Using "Type".

(** ** The lowest free descriptor *)

Lemma lowest_spec (t : Table) : (0 <= lowest t)%Z /\ t !! lowest t = None /\ forall fd, (0 <= fd < lowest t)%Z -> is_Some (t !! fd).
Proof.
  unfold lowest. destruct (list_find (fun fd => t !! fd = None) (Z.of_nat <$> seq 0 (S (base.size t)))) as [[i fd]|] eqn:E.
  - apply list_find_Some in E as (Hi & Hn & Hb). cbn. apply list_lookup_fmap_Some in Hi as (j & -> & Hj).
    apply lookup_seq in Hj as [-> Hl]. split; [lia|]. split; [done|]. intros fd Hfd.
    destruct (t !! fd) as [e|] eqn:Ef; [by eexists|]. exfalso.
    apply (Hb (Z.to_nat fd) fd); [|lia|done]. rewrite list_lookup_fmap, lookup_seq_lt by lia. cbn. f_equal. lia.
  - exfalso. apply list_find_None in E. rewrite Forall_fmap, Forall_forall in E.
    assert (list_to_set (C := gset Z) (Z.of_nat <$> seq 0 (S (base.size t))) ⊆ dom t) as Hsub.
    { intros fd Hfd. rewrite elem_of_list_to_set in Hfd. apply list_elem_of_fmap in Hfd as (n & -> & Hn).
      apply elem_of_dom. apply list_elem_of_In in Hn. specialize (E n Hn). cbn in E. destruct (t !! Z.of_nat n); [by eexists|by destruct E]. }
    apply subseteq_size in Hsub. rewrite size_list_to_set in Hsub.
    + rewrite length_fmap, length_seq, size_dom in Hsub. lia.
    + apply NoDup_fmap; [intros ???; lia|apply NoDup_seq].
Qed.

(** Once a descriptor is given, the next one is higher. *)
Lemma lowest_above t f : (lowest t < lowest (<[lowest t := f]> t))%Z.
Proof.
  destruct (lowest_spec t) as (_ & Hn & Hb), (lowest_spec (<[lowest t := f]> t)) as (H0 & Hn' & _).
  destruct (decide (lowest t < lowest (<[lowest t := f]> t))%Z) as [|Hx]; [done|]. exfalso.
  apply lookup_insert_None in Hn' as [Hn' Hne]. destruct (Hb (lowest (<[lowest t := f]> t))) as [e He]; [lia|]. congruence.
Qed.

(** ** The child's descriptors *)

Lemma exec_lookup t fd : exec_table t !! fd = (t !! fd ≫= fun e => if cloexec e then None else Some e).
Proof.
  unfold exec_table. destruct (t !! fd) as [e|] eqn:E; cbn.
  - destruct (cloexec e) eqn:Ec; [apply map_lookup_filter_None; right; intros ? [= <-]%(eq_trans (eq_sym E)); cbn; congruence|].
    apply map_lookup_filter_Some. by split.
  - apply map_lookup_filter_None. by left.
Qed.

(** Two new descriptors in a table. *)
Lemma pipe_table_eq r w f ps t : exists a b, pipe_table r w f (ps, t) = (<[w := b]> (<[r := a]> ps), <[b := mkEntry (S f) true]> (<[a := mkEntry f true]> t)) /\
  a = lowest t /\ b = lowest (<[a := mkEntry f true]> t) /\ (0 <= a < b)%Z /\ t !! a = None /\ t !! b = None /\
  (b < lowest (<[b := mkEntry (S f) true]> (<[a := mkEntry f true]> t)))%Z.
Proof.
  exists (lowest t), (lowest (<[lowest t := mkEntry f true]> t)). split; [done|]. split; [done|]. split; [done|].
  destruct (lowest_spec t) as (H0 & Hn & _). pose proof (lowest_above t (mkEntry f true)).
  split; [lia|]. split; [done|]. split; [|apply lowest_above].
  destruct (lowest_spec (<[lowest t := mkEntry f true]> t)) as (_ & Hn' & _). by apply lookup_insert_None in Hn' as [? _].
Qed.

(** The end of a pipe, by the order in which the pipes were opened. *)
Ltac end_lookup := repeat (rewrite fn_lookup_insert || rewrite fn_lookup_insert_ne by done).

(** An entry of a table with a few descriptors added, by comparison. *)
Ltac table_lookup :=
  repeat match goal with
         | |- context [<[?i := ?x]> ?m !! ?j] => rewrite (lookup_insert m i j x)
         | |- context [delete ?i ?m !! ?j] => rewrite (lookup_delete m i j)
         end;
  repeat (case_decide; try lia); try done.

Lemma redirect_open fd target t e : t !! fd = Some e ->
  exists t', redirect fd target t = (true, t') /\
    forall x, t' !! x = if decide (x = target) then Some (mkEntry (file e) false) else t !! x.
Proof.
  intros He. unfold redirect. rewrite He. eexists. split; [done|]. intros x.
  destruct (decide (fd = target)) as [->|]; rewrite lookup_insert; repeat case_decide; congruence.
Qed.

(** A stream of the child: redirected to the end of its pipe, whose descriptor is
    open and no target of an earlier stream. *)
Lemma redirect_if_run want ps e target k t entry : (want = true -> t !! ps e = Some entry) ->
  exists t', redirect_if want ps e target k t = k t' /\
    forall x, t' !! x = if decide (want = true /\ x = target) then Some (mkEntry (file entry) false) else t !! x.
Proof.
  intros He. unfold redirect_if. destruct want.
  - destruct (redirect_open (ps e) target t entry (He eq_refl)) as (t' & -> & Ht'). exists t'. split; [done|]. intros x. rewrite Ht'.
    repeat case_decide; tauto.
  - exists t. split; [done|]. intros x. by rewrite decide_False by (intros [? _]; done).
Qed.

(** What the pipes of [start] are: new descriptors, each above the ones before. *)
Record pipes_ok (c : Command) (f : nat) (t0 : Table) (ps : Pipes) (t : Table) : Prop := {
  po_in : stdin_pipe c = true -> t !! ps InR = Some (mkEntry f true) /\ (0 <= ps InR < ps InW)%Z /\ (ps InW < ps ExR)%Z /\
    (stdout_pipe c = true -> ps InW < ps OutR)%Z /\ (stderr_pipe c = true -> ps InW < ps ErrR)%Z;
  po_out : stdout_pipe c = true -> t !! ps OutW = Some (mkEntry (3 + f) true) /\ (0 <= ps OutR < ps OutW)%Z /\ (ps OutW < ps ExR)%Z /\
    (stderr_pipe c = true -> ps OutW < ps ErrR)%Z;
  po_err : stderr_pipe c = true -> t !! ps ErrW = Some (mkEntry (5 + f) true) /\ (0 <= ps ErrR < ps ErrW)%Z /\ (ps ErrW < ps ExR)%Z;
  po_ex : t !! ps ExW = Some (mkEntry (7 + f) true) /\ (0 <= ps ExR < ps ExW)%Z /\ t0 !! ps ExR = None;
  po_old fd e : t0 !! fd = Some e -> t !! fd = Some e;
  po_new fd : t0 !! fd = None -> t !! fd = None \/ exists g, t !! fd = Some (mkEntry g true) }.

Ltac open_pipes := repeat match goal with
  | |- context [pipe_table ?r ?w ?f (?ps, ?t)] =>
      let a := fresh "a" in let b := fresh "b" in
      destruct (pipe_table_eq r w f ps t) as (a & b & -> & ? & _ & ? & ? & ? & ?)
  end.

Lemma pipes_table_ok c f t0 : pipes_ok c f t0 (pipes_table c f t0).1 (pipes_table c f t0).2.
Proof.
  unfold pipes_table. destruct (stdin_pipe c) eqn:Ei, (stdout_pipe c) eqn:Eo, (stderr_pipe c) eqn:Ee; open_pipes; cbn [fst snd];
    repeat match goal with H : <[_ := _]> _ !! _ = None |- _ => apply lookup_insert_None in H as [H _] end.
  all: constructor; rewrite ?Ei, ?Eo, ?Ee; try done; intros; end_lookup.
  all: lazymatch goal with
       | |- _ \/ _ => repeat (rewrite lookup_insert; case_decide; [right; by eexists|]); by left
       | |- _ = _ => repeat (rewrite lookup_insert_ne by congruence); done
       | _ => split_and!; try lia; try done; repeat (rewrite lookup_insert_ne by lia); apply lookup_insert_eq
       end.
Qed.

(** C38: The descriptors of a child. Whatever descriptors the parent has open,
    its standard ones among them or not, the redirections of a child succeed, and
    none overwrites what a later one or the report needs. A program that is
    executed has at 0, 1 and 2 the ends of the pipes that were asked for; every
    other descriptor is one the parent had and lets be inherited, so no end of a
    pipe leaks. A child that fails reports the error of [chdir] or of [exec], into
    the pipe that the parent reads. *)
Theorem child_descriptors (c : Command) (f : nat) (t0 : Table) (chdir exec : option Z) :
  match child_main c (pipes_table c f t0).1 chdir exec (pipes_table c f t0).2 with
  | Executes av ev t' =>
      av = build_argv c /\ ev = env c /\ exec = None /\
      t' !! 0%Z = (if stdin_pipe c then Some (mkEntry f false) else exec_table t0 !! 0%Z) /\
      t' !! 1%Z = (if stdout_pipe c then Some (mkEntry (3 + f) false) else exec_table t0 !! 1%Z) /\
      t' !! 2%Z = (if stderr_pipe c then Some (mkEntry (5 + f) false) else exec_table t0 !! 2%Z) /\
      forall fd, (fd < 0 \/ 2 < fd)%Z -> t' !! fd = exec_table t0 !! fd
  | Fails report e => report = Some (7 + f) /\ (is_Some (dir c) /\ chdir = Some e \/ exec = Some e)
  end.
Proof.
  destruct (pipes_table_ok c f t0) as [Hin Hout Herr (Hex & Hxx & Hxr) Hold Hnew].
  set (ps := (pipes_table c f t0).1) in *. set (t := (pipes_table c f t0).2) in *. clearbody ps t. unfold child_main. rewrite decide_True by lia.
  set (t1 := delete (ps ExR) t). assert (forall x, x <> ps ExR -> t1 !! x = t !! x) as H1 by (intros x Hx; unfold t1; by rewrite lookup_delete_ne).
  destruct (redirect_if_run (stdin_pipe c) ps InR 0 (redirect_if (stdout_pipe c) ps OutW 1 (redirect_if (stderr_pipe c) ps ErrW 2 (fun t =>
    match (if dir c then chdir else None) with
    | Some e => fail_child ps e t
    | None => match exec with Some e => fail_child ps e t | None => Executes (build_argv c) (env c) (exec_table t) end
    end))) t1 (mkEntry f true)) as (t2 & -> & H2).
  { intros E. destruct (Hin E) as (? & ? & ? & ?). rewrite H1; [done|lia]. }
  edestruct (redirect_if_run (stdout_pipe c) ps OutW 1) as (t3 & -> & H3).
  { intros E. destruct (Hout E) as (Ho & ? & ? & ?). rewrite H2, decide_False; [rewrite H1; [exact Ho|lia]|].
    intros [Ei ?]. destruct (Hin Ei) as (? & ? & ? & Hlt & ?). specialize (Hlt E). lia. }
  edestruct (redirect_if_run (stderr_pipe c) ps ErrW 2) as (t4 & -> & H4).
  { intros E. destruct (Herr E) as (He & ? & ?). rewrite H3, decide_False; [rewrite H2, decide_False; [rewrite H1; [exact He|lia]|]|].
    - intros [Ei ?]. destruct (Hin Ei) as (? & ? & ? & _ & Hlt). specialize (Hlt E). lia.
    - intros [Eo ?]. destruct (Hout Eo) as (? & ? & ? & Hlt). specialize (Hlt E). lia. }
  assert (t4 !! ps ExW = Some (mkEntry (7 + f) true)) as Hrep.
  { rewrite H4, decide_False, H3, decide_False, H2, decide_False, H1; [exact Hex|lia| | |].
    - intros [E ?]. destruct (Hin E) as (? & ? & ? & _). lia.
    - intros [E ?]. destruct (Hout E) as (? & ? & ? & _). lia.
    - intros [E ?]. destruct (Herr E) as (? & ? & ?). lia. }
  assert (forall e, fail_child ps e t4 = Fails (Some (7 + f)) e) as Hfail by (intros e; unfold fail_child; by rewrite Hrep).
  destruct (if dir c then chdir else None) as [e|] eqn:Ed.
  { rewrite Hfail. split; [done|]. left. destruct (dir c); [by split|done]. }
  destruct exec as [e|]; [rewrite Hfail; split; [done|by right]|].
  split; [done|]. split; [done|]. split; [done|].
  assert (forall fd, (t1 !! fd ≫= fun e => if cloexec e then None else Some e) = exec_table t0 !! fd) as Hrest.
  { intros fd. rewrite exec_lookup. destruct (decide (fd = ps ExR)) as [->|Hne].
    - unfold t1. by rewrite lookup_delete_eq, Hxr.
    - rewrite H1 by done. destruct (t0 !! fd) as [e|] eqn:E0; [by rewrite (Hold _ _ E0)|].
      destruct (Hnew _ E0) as [->|[g ->]]; done. }
  cbn [file] in *. split_and!; [..|intros fd Hfd]; rewrite exec_lookup, H4, H3, H2; repeat case_decide; destruct_and?; try lia;
    repeat match goal with H : _ = true |- context [if ?b then _ else _] => rewrite H; done end;
    try match goal with |- context [if ?b then Some _ else _] => destruct b; [tauto|] end; apply Hrest.
Qed.

(** A program started from a parent without standard descriptors. *)
Example closed_standard_streams :
  match child_main (mkCommand [47; 120]%Z [] None None None true true false) (pipes_table (mkCommand [47; 120]%Z [] None None None true true false) 10 ∅).1
      None None (pipes_table (mkCommand [47; 120]%Z [] None None None true true false) 10 ∅).2 with
  | Executes _ _ t => map_to_list t = [(1%Z, mkEntry 13 false); (0%Z, mkEntry 10 false)]
  | Fails _ _ => False
  end.
Proof. by vm_compute. Qed.

(** ** The parent's account *)

(** The children nobody has reaped yet, the process that a pidfd names, what the
    static of [child_reaper] holds, the pidfds handed to the reaper, and the
    numbers that were closed while no descriptor had them, latest first. *)
Record Family := mkFamily {
  children : gset Z; names : gmap Z Z; keeper : option (option Z); handed : gset Z; strays : list Z }.

Definition born (pid : Z) (x : Family) : Family := mkFamily ({[pid]} ∪ children x) (names x) (keeper x) (handed x) (strays x).
Definition bury (pid : Z) (x : Family) : Family := mkFamily (children x ∖ {[pid]}) (names x) (keeper x) (handed x) (strays x).
Definition named (fd pid : Z) (x : Family) : Family := mkFamily (children x) (<[fd := pid]> (names x)) (keeper x) (handed x) (strays x).
Definition kept_by (r : option Z) (x : Family) : Family := mkFamily (children x) (names x) (Some r) (handed x) (strays x).
Definition hand (d : Z) (x : Family) : Family := mkFamily (children x) (names x) (keeper x) ({[d]} ∪ handed x) (strays x).
Definition strayed (fd : Z) (x : Family) : Family := mkFamily (children x) (names x) (keeper x) (handed x) (fd :: strays x).

(** The descriptors that are the reaper's: its epoll and the pidfds. *)
Definition reapers (x : Family) : gset Z := match keeper x with Some (Some e) => {[e]} | _ => ∅ end ∪ handed x.

Section parent.
Context {W : Type} `{HW : Host W} `{PW : ProcHost W} {HS : HostSpec W Family}.

(** What the kernel and the C++ runtime promise. [running]: the process has not
    exited; [silent]: the descriptor has neither data nor an end; [may_lose]: a
    child may be left unreaped, since a [waitpid] is interrupted or there is no
    descriptor or watch for it. *)
Class ProcSpec := {
  running : W -> Z -> Prop;
  silent : W -> Z -> Prop;
  may_lose : Prop;
  fam (w : W) : Family := extra w;
  (** A call that changes only the family. *)
  only_family (w w' : W) : Prop := opened w' = opened w /\ registered w' = registered w /\ patience w' <= patience w;
  pipe_spec w : exists r w', p_pipe w = Some (r, w') /\ registered w' = registered w /\ extra w' = extra w /\ patience w' <= patience w /\
    match r with
    | Done p => (0 <= p.1)%Z /\ (0 <= p.2)%Z /\ p.1 <> p.2 /\ p.1 ∉ opened w /\ p.2 ∉ opened w /\ opened w' = {[p.2]} ∪ ({[p.1]} ∪ opened w)
    | Errno e => opened w' = opened w
    end;
  fork_spec c ps w : exists r w', p_fork c ps w = Some (r, w') /\ only_family w w' /\
    match r with
    | Done pid => pid ∉ children (fam w) /\ fam w' = born pid (fam w)
    | Errno e => fam w' = fam w
    end;
  pidfd_open_spec pid w : exists r w', p_pidfd_open pid w = Some (r, w') /\ registered w' = registered w /\ patience w' <= patience w /\
    match r with
    | Done fd => (0 <= fd)%Z /\ fd ∉ opened w /\ opened w' = {[fd]} ∪ opened w /\ fam w' = named fd pid (fam w)
    | Errno e => opened w' = opened w /\ fam w' = fam w
    end;
  (** It waits while the process runs. *)
  waitpid_spec pid w : exists r w', p_waitpid pid w = Some (r, w') /\ only_family w w' /\
    match r with
    | Returned (Ok _) => fam w' = bury pid (fam w)
    | Returned (Err _) => fam w' = fam w /\ may_lose
    | Parked => fam w' = fam w /\ running w' pid
    end;
  (** A wait for exits reports an exit, and nothing only when asked not to wait. *)
  waitid_spec fd w pid : fd ∈ opened w -> names (fam w) !! fd = Some pid ->
    exists r w', p_waitid fd w = Some (r, w') /\ only_family w w' /\
    match r with
    | Returned (Ok i) => si_code i <> CLD_OTHER /\ fam w' = bury pid (fam w)
    | _ => fam w' = fam w
    end;
  waitid_nohang_spec fd w pid : fd ∈ opened w -> names (fam w) !! fd = Some pid ->
    exists r w', p_waitid_nohang fd w = Some (r, w') /\ only_family w w' /\
    match r with
    | Done (Some i) => fam w' = bury pid (fam w)
    | Done None => fam w' = fam w
    | Errno e => fam w' = fam w /\ (e = EINTR -> patience w' < patience w)
    end;
  (** Nothing is promised of when it returns. *)
  await_spec d dir w : is_Some (registered w !! d) -> exists r w', p_await d dir w = Some (r, w') /\ kept w w';
  read_spec fd n w : fd ∈ opened w -> exists r w', p_read fd n w = Some (r, w') /\ kept w w' /\
    match r with
    | Returned (Err e) => e = of_errno EINTR -> patience w' < patience w
    | Returned (Ok _) => True
    | Parked => silent w' fd
    end;
  dupfd_spec fd w pid : fd ∈ opened w -> names (fam w) !! fd = Some pid ->
    exists r w', p_dupfd fd w = Some (r, w') /\ registered w' = registered w /\ patience w' <= patience w /\
    match r with
    | Done d => (0 <= d)%Z /\ d ∉ opened w /\ opened w' = {[d]} ∪ opened w /\ fam w' = named d pid (fam w)
    | Errno e => opened w' = opened w /\ fam w' = fam w /\ may_lose
    end;
  instance_spec w : exists w', p_instance w = Some (keeper (fam w), w') /\ kept w w';
  set_instance_spec r w : exists w', p_set_instance r w = Some (tt, w') /\ only_family w w' /\ fam w' = kept_by r (fam w);
  epoll_create_spec w : exists r w', p_epoll_create w = Some (r, w') /\ registered w' = registered w /\ extra w' = extra w /\ patience w' <= patience w /\
    match r with
    | Done fd => (0 <= fd)%Z /\ fd ∉ opened w /\ opened w' = {[fd]} ∪ opened w
    | Errno e => opened w' = opened w
    end;
  start_thread_spec e w : exists r w', p_start_thread e w = Some (r, w') /\ kept w w';
  (** The descriptor stays open, with the reaper. *)
  epoll_add_spec e d w : d ∈ opened w -> keeper (fam w) = Some (Some e) ->
    exists r w', p_epoll_add e d w = Some (r, w') /\ only_family w w' /\
    match r with
    | Done _ => fam w' = hand d (fam w)
    | Errno _ => fam w' = fam w /\ may_lose
    end;
  (** Closing a number that no descriptor has is an error. *)
  close_stray_spec fd w : fd ∉ opened w -> exists r w', h_close fd w = Some (r, w') /\ only_family w w' /\ fam w' = strayed fd (fam w) }.
End parent.
Arguments ProcSpec W {_ _ _}.

Section account.
Context {W : Type} `{HW : Host W} `{PW : ProcHost W} {HS : HostSpec W Family} {PS : ProcSpec W}.
Implicit Types (b B : Acct Family) (F : gset Z) (x y : Family) (ps : Pipes).

(** The account with more descriptors held, and with other children. *)
Definition frame F x b : Acct Family := mkAcct (F ∪ a_fds b) (a_regs b) x (a_patience b).

Lemma apart_mono (F A B : gset Z) : F ## B -> A ⊆ B -> F ## A.
Proof. intros Hd Hs z Hz HA. by apply (Hd z), Hs. Qed.

Lemma swap_union (A B C : gset Z) : A ∪ (B ∪ C) = B ∪ (A ∪ C).
Proof. by rewrite !assoc_L, (comm_L (∪) A) by apply _. Qed.

Lemma sound_frame F x b : sound b -> sound (frame F x b).
Proof. intros Hs d fd Hd. cbn. apply elem_of_union_r. by eapply Hs. Qed.

(** ** The ends of the pipes *)

Definition all_ends : list End := [InR; InW; OutR; OutW; ErrR; ErrW; ExR; ExW].
Lemma all_ends_all e : e ∈ all_ends.
Proof. destruct e; repeat constructor. Qed.

Definition held ps : gset Z := list_to_set (filter (fun fd => (0 <= fd)%Z) (ps <$> all_ends)).

Lemma elem_of_held ps fd : fd ∈ held ps <-> (0 <= fd)%Z /\ exists e, ps e = fd.
Proof.
  unfold held. rewrite elem_of_list_to_set, list_elem_of_filter, list_elem_of_fmap. split.
  - intros [H0 (e & -> & _)]. split; [done|by exists e].
  - intros [H0 [e <-]]. split; [done|]. exists e. split; [done|apply all_ends_all].
Qed.

(** The descriptors of the pipes are held beside the account [b]. *)
Record piped b x ps (w : W) : Prop := {
  pp_settled : settled (frame (held ps) x b) w;
  pp_apart : held ps ## a_fds b;
  pp_distinct : forall e1 e2, (0 <= ps e1)%Z -> ps e1 = ps e2 -> e1 = e2 }.

Lemma held_insert e ps fd : (0 <= fd)%Z -> (ps e < 0)%Z -> held (<[e := fd]> ps) = {[fd]} ∪ held ps.
Proof.
  intros H0 He. apply set_eq. intros z. rewrite elem_of_union, elem_of_singleton, !elem_of_held. split.
  - intros [Hz [e' <-]]. destruct (decide (e' = e)) as [->|Hne]; [rewrite fn_lookup_insert; by left|].
    rewrite fn_lookup_insert_ne in * by done. right. split; [done|by exists e'].
  - intros [->|[Hz [e' <-]]]; [split; [done|]; exists e; by rewrite fn_lookup_insert|]. split; [done|]. exists e'.
    rewrite fn_lookup_insert_ne; [done|]. intros ->. lia.
Qed.

Lemma held_delete e ps : (forall e1 e2, (0 <= ps e1)%Z -> ps e1 = ps e2 -> e1 = e2) -> (0 <= ps e)%Z ->
  held ps = {[ps e]} ∪ held (<[e := (-1)%Z]> ps) /\ ps e ∉ held (<[e := (-1)%Z]> ps).
Proof.
  intros Hd He. split.
  - apply set_eq. intros z. rewrite elem_of_union, elem_of_singleton, !elem_of_held. split.
    + intros [Hz [e' <-]]. destruct (decide (e' = e)) as [->|Hne]; [by left|]. right. split; [done|]. exists e'. by rewrite fn_lookup_insert_ne.
    + intros [->|[Hz [e' He']]]; [split; [done|by exists e]|]. split; [done|]. exists e'. destruct (decide (e' = e)) as [->|Hne].
      * rewrite fn_lookup_insert in He'. lia.
      * by rewrite fn_lookup_insert_ne in He'.
  - rewrite elem_of_held. intros [_ [e' He']]. destruct (decide (e' = e)) as [->|Hne].
    + rewrite fn_lookup_insert in He'. lia.
    + rewrite fn_lookup_insert_ne in He' by done. apply Hne. symmetry. apply Hd; [done|congruence].
Qed.

Lemma distinct_insert e fd ps : (forall e1 e2, (0 <= ps e1)%Z -> ps e1 = ps e2 -> e1 = e2) -> (forall e', ps e' <> fd) ->
  forall e1 e2, (0 <= (<[e := fd]> ps) e1)%Z -> (<[e := fd]> ps) e1 = (<[e := fd]> ps) e2 -> e1 = e2.
Proof.
  intros Hd Hn e1 e2. destruct (decide (e1 = e)) as [->|H1]; [rewrite fn_lookup_insert|rewrite fn_lookup_insert_ne by done];
    (destruct (decide (e2 = e)) as [->|H2]; [rewrite fn_lookup_insert|rewrite fn_lookup_insert_ne by done]); [done| | |apply Hd].
  - intros _ E'. by destruct (Hn e2).
  - intros _ E'. by destruct (Hn e1).
Qed.

Lemma distinct_closed e ps : (forall e1 e2, (0 <= ps e1)%Z -> ps e1 = ps e2 -> e1 = e2) ->
  forall e1 e2, (0 <= (<[e := (-1)%Z]> ps) e1)%Z -> (<[e := (-1)%Z]> ps) e1 = (<[e := (-1)%Z]> ps) e2 -> e1 = e2.
Proof.
  intros Hd e1 e2 H0 H12. destruct (decide (e1 = e)) as [->|H1]; [rewrite fn_lookup_insert in H0; lia|].
  rewrite fn_lookup_insert_ne in * by done. destruct (decide (e2 = e)) as [->|H2]; [rewrite fn_lookup_insert in H12; lia|].
  rewrite fn_lookup_insert_ne in H12 by done. by apply Hd.
Qed.

(** Taking an end leaves its descriptor to be held on its own. *)
Lemma take_holds b x ps w e : piped b x ps w -> (0 <= ps e)%Z ->
  let ps' := <[e := (-1)%Z]> ps in holds (frame (held ps') x b) (ps e) w /\ held ps' ## a_fds b /\
  (forall w', settled (frame (held ps') x b) w' -> piped b x ps' w').
Proof.
  intros [(So & Sr & Sx & Sp) Ha Hd] He ps'. destruct (held_delete e ps Hd He) as [E Hn]. fold ps' in E, Hn. cbn in *.
  rewrite E in Ha. apply disjoint_union_l in Ha as [Hx Ha']. split; [|split; [done|]].
  - split_and!; [done|cbn|cbn|done|done|done].
    + apply not_elem_of_union. split; [done|]. by apply disjoint_singleton_l.
    + by rewrite So, E, assoc_L by apply _.
  - intros w' Hw'. split; [done|done|]. by apply distinct_closed.
Qed.

Lemma runs_snd' {A} (m : ST W A) (Q : A -> Pipes * W -> Prop) s : runs m (fun a w' => Q a (s.1, w')) s.2 -> runs (st_snd m) Q s.
Proof. destruct s as [ps w]. apply runs_snd. Qed.

Lemma close_end_run b x s e : sound b -> piped b x s.1 s.2 ->
  runs (close_end e) (fun _ s' => piped b x s'.1 s'.2 /\ (s'.1 e < 0)%Z /\ forall e', e' <> e -> s'.1 e' = s.1 e') s.
Proof.
  intros Hs Hp. apply runs_bind, runs_gets. case_decide as He; [|apply runs_ret; split; [done|]; split; [lia|done]].
  destruct (take_holds b x s.1 s.2 e Hp He) as (Hh & _ & Hback). apply runs_bind. eexists _, _. split; [done|].
  apply runs_snd'. cbn. eapply runs_mono; [apply (close_run (frame (held (<[e := (-1)%Z]> s.1)) x b)); [by apply sound_frame|done]|].
  intros [] w' Hw'. cbn. split; [by apply Hback|]. split; [by rewrite fn_lookup_insert|]. intros e' Hne. by rewrite fn_lookup_insert_ne.
Qed.

Lemma drop_pipes_run b x s : sound b -> piped b x s.1 s.2 -> runs drop_pipes (fun _ s' => settled (frame ∅ x b) s'.2) s.
Proof.
  intros Hs Hp. unfold drop_pipes.
  apply runs_bind. eapply runs_mono; [by apply (close_end_run b x)|]. intros [] s1 (H1 & N1 & _). clear s Hp.
  apply runs_bind. eapply runs_mono; [by apply (close_end_run b x)|]. intros [] s2 (H2 & N2 & K2).
  apply runs_bind. eapply runs_mono; [by apply (close_end_run b x)|]. intros [] s3 (H3 & N3 & K3).
  apply runs_bind. eapply runs_mono; [by apply (close_end_run b x)|]. intros [] s4 (H4 & N4 & K4).
  apply runs_bind. eapply runs_mono; [by apply (close_end_run b x)|]. intros [] s5 (H5 & N5 & K5).
  apply runs_bind. eapply runs_mono; [by apply (close_end_run b x)|]. intros [] s6 (H6 & N6 & K6).
  apply runs_bind. eapply runs_mono; [by apply (close_end_run b x)|]. intros [] s7 (H7 & N7 & K7).
  eapply runs_mono; [by apply (close_end_run b x)|]. intros [] s8 ([Hw _ _] & N8 & K8).
  replace (∅ : gset Z) with (held s8.1); [done|]. apply set_eq. intros z. rewrite elem_of_held. split; [|set_solver].
  intros [Hz [e <-]]. exfalso. revert Hz. destruct e; rewrite ?K8, ?K7, ?K6, ?K5, ?K4, ?K3, ?K2 by done; lia.
Qed.

Lemma open_pipe_run b x s r w : piped b x s.1 s.2 -> (s.1 r < 0)%Z -> (s.1 w < 0)%Z -> r <> w ->
  runs (open_pipe r w) (on_ok (fun _ s' => piped b x s'.1 s'.2 /\ (0 <= s'.1 r)%Z /\ (0 <= s'.1 w)%Z /\ forall e, e <> r -> e <> w -> s'.1 e = s.1 e)
    (fun _ s' => piped b x s'.1 s'.2)) s.
Proof using PS.
  intros [(So & Sr & Sx & Sp) Ha Hd] Hr Hw Hne. cbn in So, Sr, Sx, Sp. apply runs_try, runs_snd', runs_bind.
  destruct (pipe_spec s.2) as (p & w1 & Hp & Rr & Rx & Rp & Hx). exists p, w1. split; [done|]. destruct p as [p|e]; apply runs_ret; cbn.
  - destruct Hx as (P1 & P2 & P12 & N1 & N2 & Eo). apply runs_bind, runs_modify, runs_ret. cbn. rewrite So in *.
    assert (held (<[w := p.2]> (<[r := p.1]> s.1)) = {[p.2]} ∪ ({[p.1]} ∪ held s.1)) as E.
    { rewrite (held_insert w), (held_insert r); try done. by rewrite fn_lookup_insert_ne. }
    split; [split|split].
    + rewrite E. split_and!; cbn; [|congruence|congruence|lia]. by rewrite Eo, !assoc_L by apply _.
    + rewrite E. apply not_elem_of_union in N1 as [_ N1], N2 as [_ N2]. rewrite !disjoint_union_l, !disjoint_singleton_l. by split_and!.
    + assert (forall e fd, s.1 e = fd -> (0 <= fd)%Z -> fd ∈ held s.1 ∪ a_fds b) as Hin by (intros e fd <- H0; apply elem_of_union_l, elem_of_held; by eauto).
      apply distinct_insert; [apply distinct_insert; [done|]|]; intros e; [intros E'; apply N1; by eapply Hin|].
      destruct (decide (e = r)) as [->|]; [by rewrite fn_lookup_insert|]. rewrite fn_lookup_insert_ne by done. intros E'. apply N2. by eapply Hin.
    + by rewrite fn_lookup_insert_ne, fn_lookup_insert.
    + split; [by rewrite fn_lookup_insert|]. intros e He1 He2. by rewrite !fn_lookup_insert_ne.
  - split; [split_and!; cbn; [congruence..|lia]|done|done].
Qed.

(** ** Sockets of a child *)

(** A socket on top of an account; what makes it one. *)
Definition grow (o : option Socket) b : Acct Family :=
  match o with
  | Some s => mkAcct ({[fd_ s]} ∪ a_fds b) (match desc_ s with Some d => <[d := fd_ s]> (a_regs b) | None => a_regs b end) (a_extra b) (a_patience b)
  | None => b
  end.
Definition new_on b (o : option Socket) : Prop :=
  match o with Some s => (0 <= fd_ s)%Z /\ fd_ s ∉ a_fds b /\ exists d, desc_ s = Some d /\ a_regs b !! d = None | None => True end.

Lemma sound_grow o b : sound b -> new_on b o -> sound (grow o b).
Proof.
  intros Hs. destruct o as [s|]; [|done]. intros (_ & _ & d & Hd & _) d' fd. cbn. rewrite Hd, lookup_insert. case_decide.
  - intros [= <-]. by apply elem_of_union_l, elem_of_singleton.
  - intros Hx. by apply elem_of_union_r, (Hs d').
Qed.

(** Owning a socket beside other descriptors is having it in the account. *)
Lemma owns_grow F x b s w : fd_ s ∉ F -> owns (frame F x b) s w <-> new_on b (Some s) /\ settled (frame F x (grow (Some s) b)) w.
Proof.
  intros HF. split.
  - intros (X & P & d & Hd & H0 & Hn & Hr & Eo & Er). cbn in *. apply not_elem_of_union in Hn as [_ Hn]. split; [split; [done|]; split; [done|by exists d]|].
    split_and!; [|by rewrite Hd|done|done]. by rewrite Eo, swap_union.
  - intros [(H0 & Hn & d & Hd & Hr) (Eo & Er & X & P)]. cbn in *. rewrite Hd in Er. split; [done|]. split; [done|]. exists d.
    split_and!; try done; [cbn; by apply not_elem_of_union|]. by rewrite Eo, swap_union.
Qed.

(** Adopting an end of a pipe. *)
Lemma attach_end_run b x s e : sound b -> piped b x s.1 s.2 -> (0 <= s.1 e)%Z ->
  runs (fd <-- take_end e; st_snd (pollable_adopt fd false)) (fun r s' => s'.1 = <[e := (-1)%Z]> s.1 /\
    match r with Ok k => new_on b (Some k) /\ piped (grow (Some k) b) x s'.1 s'.2 | Err _ => piped b x s'.1 s'.2 end) s.
Proof.
  intros Hs Hp He. destruct (take_holds b x s.1 s.2 e Hp He) as (Hh & Ha & Hback). pose proof Hp as [_ _ Hd].
  destruct (held_delete e s.1 Hd He) as [_ Hnh]. set (ps' := <[e := (-1)%Z]> s.1) in *.
  apply runs_bind. eexists _, _. split; [done|]. apply runs_snd'. cbn. eapply runs_mono; [apply (adopt_run (frame (held ps') x b)); [by apply sound_frame|done]|].
  intros r w' [Hm Hfd]. split; [done|]. destruct r as [k|err]; [|by apply Hback]. cbn in Hm. specialize (Hfd k eq_refl).
  apply owns_grow in Hm as [Hn Hw]; [|by rewrite Hfd]. split; [done|]. split; [done| |by apply distinct_closed]. cbn.
  apply disjoint_union_r. split; [|done]. apply disjoint_singleton_r. by rewrite Hfd.
Qed.

(** Closing a socket of a child. *)
Lemma close_opt_run F x b o w : sound b -> new_on b o -> F ## a_fds (grow o b) -> settled (frame F x (grow o b)) w ->
  runs (close_opt o) (fun _ w' => settled (frame F x b) w') w.
Proof.
  intros Hs Hn HF Hw. destruct o as [s|]; [|by apply runs_ret]. cbn in HF. apply disjoint_union_r in HF as [HF _]. rewrite disjoint_singleton_r in HF.
  apply runs_bind. eapply runs_mono; [apply (socket_close_run (frame F x b)); [by apply sound_frame|by apply owns_grow]|].
  intros s' w' [_ Hw']. by apply runs_ret.
Qed.

(** The account of a child, and that its sockets are new on it. *)
Definition with_child (c : Child) b : Acct Family := grow (stderr_ c) (grow (stdout_ c) (grow (stdin_ c) (grow (pidfd_ c) b))).
Definition new_child (c : Child) b : Prop :=
  new_on b (pidfd_ c) /\ new_on (grow (pidfd_ c) b) (stdin_ c) /\ new_on (grow (stdin_ c) (grow (pidfd_ c) b)) (stdout_ c) /\
  new_on (grow (stdout_ c) (grow (stdin_ c) (grow (pidfd_ c) b))) (stderr_ c).

Lemma grow_fds o b : a_fds b ⊆ a_fds (grow o b).
Proof. destruct o as [s|]; [|done]. cbn. intros z Hz. by apply elem_of_union_r. Qed.

Lemma sound_child c b : sound b -> new_child c b -> sound (with_child c b).
Proof. intros Hs (H1 & H2 & H3 & H4). repeat (apply sound_grow; [|done]). done. Qed.

Lemma retried_run {A} (stop : A -> bool) (call : ST W A) (Q : A -> W -> Prop) (I : W -> Prop) fuel :
  (forall w, I w -> exists r w', call w = Some (r, w') /\ if stop r then I w' /\ patience w' < patience w else Q r w') ->
  forall w, I w -> patience w < fuel -> runs (retried stop fuel call) Q w.
Proof.
  intros Hc. induction fuel as [|fuel IH]; intros w Hw Hf; [lia|]. cbn [retried].
  destruct (Hc w Hw) as (r & w' & Hr & Hi). apply runs_bind. exists r, w'. split; [done|]. destruct (stop r); [|by apply runs_ret].
  destruct Hi as [Hw' Hp]. apply IH; [done|lia].
Qed.

(** ** Abandoning a child *)

Definition with_extra y b : Acct Family := mkAcct (a_fds b) (a_regs b) y (a_patience b).

Definition plus (D : gset Z) b : Acct Family := mkAcct (D ∪ a_fds b) (a_regs b) (a_extra b) (a_patience b).

(** Between [x] and [y] the reaper got the descriptors [D], and the numbers [l]
    were closed while no descriptor had them. *)
Definition moved x y (D : gset Z) (l : list Z) : Prop := reapers y = D ∪ reapers x /\ strays y = l ++ strays x.

(** The reaper has a pidfd of the child, one of [D]. *)
Definition in_custody pid y (D : gset Z) : Prop := exists d, d ∈ D /\ d ∈ handed y /\ names y !! d = Some pid.

(** The call for the reaper failed, or that for one did, once and for all. *)
Definition lost y : Prop := may_lose \/ keeper y = Some None.

(** The child [pid] is reaped, or with the reaper, or lost. *)
Definition let_go (pid : Z) x y (D : gset Z) : Prop :=
  moved x y D [] /\ (children y = children x ∖ {[pid]} /\ D = ∅ \/ children y = children x /\ (in_custody pid y D \/ lost y)).

Lemma remove_new (d : Z) (A : gset Z) : d ∉ A -> ({[d]} ∪ A) ∖ {[d]} = A.
Proof. set_solver. Qed.

Lemma sound_plus D b : sound b -> sound (plus D b).
Proof. intros Hs d fd Hd. cbn. apply elem_of_union_r. by eapply Hs. Qed.
Lemma sound_extra y b : sound b -> sound (with_extra y b).
Proof. done. Qed.

(** The reaper, made if it is not there yet: nothing but its epoll is new. *)
Lemma child_reaper_run A w : sound A -> settled A w ->
  runs child_reaper (fun r w' => exists y D, settled (plus D (with_extra y A)) w' /\ D ## a_fds A /\ moved (a_extra A) y D [] /\
    children y = children (a_extra A) /\ names y = names (a_extra A) /\ keeper y = Some r) w.
Proof using PS.
  intros Hs (Eo & Er & Ex & Ep). remember (a_extra A) as x eqn:Ea in *.
  assert (forall w', kept w w' -> settled (plus ∅ (with_extra x A)) w') as H0.
  { intros w' (O & R & X & P). split_and!; cbn; [by rewrite union_empty_l_L, O|congruence|congruence|lia]. }
  apply runs_bind. destruct (instance_spec w) as (w1 & Hi & Hk). eexists _, w1. split; [done|]. unfold fam in *. rewrite Ex in *.
  destruct (keeper x) as [r|] eqn:Hkp.
  { apply runs_ret. exists x, ∅. split; [by apply H0|]. split; [apply disjoint_empty_l|]. split; [split; [by rewrite union_empty_l_L|done]|].
    by split. }
  assert (reapers x = handed x) as Hre by (unfold reapers; by rewrite Hkp, union_empty_l_L).
  assert (forall r D w', settled (plus D A) w' -> D ## a_fds A -> D = match r with Some e => {[e]} | None => ∅ end ->
    runs (p_set_instance r;;; st_ret r) (fun r w' => exists y D, settled (plus D (with_extra y A)) w' /\ D ## a_fds A /\ moved x y D [] /\
    children y = children x /\ names y = names x /\ keeper y = Some r) w') as Hset.
  { intros r D w' (O & R & X & P) Hd Hr. apply runs_bind. destruct (set_instance_spec r w') as (w2 & H2 & (O2 & R2 & P2) & X2). exists tt, w2. split; [done|].
    apply runs_ret. exists (kept_by r x), D. unfold fam in X2. rewrite X in X2. cbn in *. split; [split_and!; cbn; try congruence; lia|]. split; [done|].
    split; [|by split]. split; [|done]. rewrite Hre. unfold reapers. cbn. by rewrite Hr. }
  pose proof Hk as (O1 & R1 & X1 & P1). apply runs_bind, runs_bind. destruct (epoll_create_spec w1) as (r & w2 & Hr & R2 & X2 & P2 & Hx). exists r, w2. split; [done|].
  assert (forall w', opened w' = a_fds A -> registered w' = registered w2 -> extra w' = extra w2 -> patience w' <= patience w2 -> settled (plus ∅ A) w') as Hnone.
  { intros w' O' R' X' P'. split_and!; cbn; [by rewrite union_empty_l_L|congruence|congruence|lia]. }
  destruct r as [e|n].
  2: { apply runs_ret. apply (Hset None ∅); [apply Hnone; congruence || lia|apply disjoint_empty_l|done]. }
  destruct Hx as (E0 & En & O2). rewrite O1, Eo in *. assert (holds A e w2) as Hh by (split_and!; try congruence; lia).
  apply runs_bind. destruct (start_thread_spec e w2) as (t & w3 & Ht & Hk3). exists t, w3. split; [done|]. pose proof (holds_kept _ _ _ _ Hh Hk3) as Hh3. destruct t.
  - apply runs_ret. destruct Hh3 as (_ & _ & O3 & R3 & X3 & P3). apply (Hset (Some e) {[e]}); [by split_and!|by apply disjoint_singleton_l|done].
  - apply runs_bind. eapply runs_mono; [by apply (close_run A)|]. intros [] w4 (O4 & R4 & X4 & P4). apply runs_ret.
    apply (Hset None ∅); [split_and!; cbn; [by rewrite union_empty_l_L|done..]|apply disjoint_empty_l|done].
Qed.

Lemma hand_over_run A w pid fd : sound A -> settled A w -> fd ∈ a_fds A -> names (a_extra A) !! fd = Some pid ->
  runs (hand_over fd) (fun _ w' => exists y D, settled (plus D (with_extra y A)) w' /\ D ## a_fds A /\ let_go pid (a_extra A) y D) w.
Proof using PS.
  intros Hs (Eo & Er & Ex & Ep) Hin Hnm. remember (a_extra A) as x eqn:Ea in *. apply runs_bind.
  destruct (dupfd_spec fd w pid) as (r & w2 & Hr2 & R2 & P2 & Hx); [by rewrite Eo|unfold fam; by rewrite Ex|].
  exists r, w2. split; [done|]. unfold fam in Hx. rewrite Ex, Eo in Hx. rewrite Er in R2. destruct r as [d|e2].
  2: { destruct Hx as (Ho & Hfx & Hl). apply runs_ret. exists x, ∅.
       split; [split_and!; cbn; [by rewrite union_empty_l_L|congruence|congruence|lia]|]. split; [apply disjoint_empty_l|].
       split; [split; [by rewrite union_empty_l_L|done]|]. right. split; [done|]. right. by left. }
  destruct Hx as (D0 & Dn & Do & Dx). set (A' := plus {[d]} (with_extra (named d pid x) A)).
  assert (settled A' w2) as Hw2 by (split_and!; cbn; try congruence; lia).
  apply runs_bind. eapply runs_mono; [apply (child_reaper_run A' w2); [by apply sound_plus|done]|].
  intros r w3 (y & D & (O3 & R3 & X3 & P3) & Hd & [Hm1 Hm2] & Hc & Hn & Hr). cbn in O3, R3, X3, P3, Hd, Hc, Hn, Hm2.
  assert (d ∉ D /\ D ## a_fds A) as [HdD HDA] by set_solver.
  assert (holds (plus D (with_extra y A)) d w3) as Hh by (split_and!; cbn; [done|set_solver|by rewrite O3, swap_union|done..]).
  assert (forall w3, holds (plus D (with_extra y A)) d w3 -> lost y ->
    runs (close_fd d) (fun _ w' => exists y D, settled (plus D (with_extra y A)) w' /\ D ## a_fds A /\ let_go pid x y D) w3) as Hlose.
  { intros w4 H4 Hl. eapply runs_mono; [apply (close_run (plus D (with_extra y A))); [by apply sound_plus|done]|].
    intros [] w5 Hw5. exists y, D. split; [done|]. split; [done|]. split; [by split|]. right. split; [done|by right]. }
  destruct r as [e|]; [|apply Hlose; [done|by right]].
  apply runs_bind. destruct (epoll_add_spec e d w3) as (r & w4 & Hr4 & (O4 & R4 & P4) & Hx4); [by eapply holds_open|unfold fam; by rewrite X3|].
  exists r, w4. split; [done|]. unfold fam in Hx4. rewrite X3 in Hx4. destruct r as [[]|e4].
  - apply runs_ret. exists (hand d y), ({[d]} ∪ D). split; [split_and!; cbn; [rewrite O4, O3; set_solver|congruence|congruence|lia]|].
    split; [set_solver|]. split; [split; [|done]|].
    + unfold reapers in *. cbn in *. rewrite (swap_union _ {[d]}), Hm1. by rewrite !assoc_L by apply _.
    + right. split; [done|]. left. exists d. split_and!; [set_solver|cbn; set_solver|]. cbn. rewrite Hn. apply lookup_insert_eq.
  - destruct Hx4 as [X4 L4]. apply Hlose; [|by left]. destruct Hh as (A1 & A2 & A3 & A4 & A5 & A6). split_and!; try done; try congruence; cbn in *; lia.
Qed.

Lemma release_run fuel c A w pid s : sound A -> settled A w -> status_ c = None -> pidfd_ c = Some s -> (0 <= fd_ s)%Z -> fd_ s ∈ a_fds A ->
  names (a_extra A) !! fd_ s = Some pid -> a_patience A < fuel ->
  runs (release_unwaited fuel c) (fun _ w' => exists y D, settled (plus D (with_extra y A)) w' /\ D ## a_fds A /\ let_go pid (a_extra A) y D) w.
Proof using PS.
  intros Hs Hw Hst Hpf H0 Hin Hnm Hf. unfold release_unwaited. rewrite Hst, Hpf. unfold valid_socket. rewrite bool_decide_eq_true_2 by done.
  apply runs_bind. eapply runs_mono; [apply (retried_run sys_interrupted _ (fun r w' => match r with Done (Some _) =>
    settled (with_extra (bury pid (a_extra A)) A) w' | _ => settled A w' end) (settled A))|].
  - intros w1 (Eo & Er & Ex & Ep). destruct (waitid_nohang_spec (fd_ s) w1 pid) as (r & w2 & Hr & (Ro & Rr & Rp) & Hx);
      [by rewrite Eo|unfold fam; by rewrite Ex|]. exists r, w2. split; [done|]. unfold fam in Hx. rewrite Ex in Hx.
    destruct r as [[i|]|e]; cbn [sys_interrupted]; [split_and!; cbn; try congruence; lia..|]. destruct Hx as [Hx Hi].
    assert (settled A w2) as H2 by (split_and!; try congruence; lia). case_bool_decide as Hint; [|done]. split; [done|by apply Hi].
  - done.
  - destruct Hw as (_ & _ & _ & Hp). lia.
  - intros [[i|]|e] w1 Hr; [|by apply hand_over_run..]. apply runs_ret. eexists _, ∅. split; [|split; [apply disjoint_empty_l|]].
    + destruct Hr as (Eo & Er & Ex & Ep). split_and!; cbn; [by rewrite union_empty_l_L|done|exact Ex|done].
    + split; [split; [by rewrite union_empty_l_L|done]|by left].
Qed.

Lemma frame_plus D F y x b : plus D (with_extra y (frame F x b)) = frame (D ∪ F) y b.
Proof. unfold plus, with_extra, frame. cbn. by rewrite assoc_L by apply _. Qed.

Lemma destroy_run fuel c F x b w pid s : sound b -> new_child c b -> F ## a_fds (with_child c b) -> settled (frame F x (with_child c b)) w ->
  pidfd_ c = Some s -> names x !! fd_ s = Some pid -> a_patience b < fuel ->
  runs (child_destroy fuel c) (fun _ w' => exists y D, settled (frame (D ∪ F) y b) w' /\ D ## F ∪ a_fds b /\
    (if status_ c then y = x /\ D = ∅ else let_go pid x y D)) w.
Proof using PS.
  intros Hs Hn HF Hw Hpf Hnm Hf. pose proof Hn as (N1 & N2 & N3 & N4). unfold child_destroy.
  assert (runs (release_unwaited fuel c) (fun _ w' => exists y D, settled (frame (D ∪ F) y (with_child c b)) w' /\ D ## F ∪ a_fds (with_child c b) /\
    (if status_ c then y = x /\ D = ∅ else let_go pid x y D)) w) as Hrel.
  { destruct (status_ c) as [st|] eqn:Hst.
    { unfold release_unwaited. rewrite Hst. apply runs_ret. exists x, ∅. split; [by rewrite union_empty_l_L|]. split; [apply disjoint_empty_l|done]. }
    eapply runs_mono; [apply (release_run fuel c (frame F x (with_child c b)) w pid s); try done|].
    - by apply sound_frame, sound_child.
    - rewrite Hpf in N1. apply N1.
    - cbn. apply elem_of_union_r. unfold with_child. do 3 apply grow_fds. rewrite Hpf. cbn. by apply elem_of_union_l, elem_of_singleton.
    - cbn. unfold with_child. by destruct (stderr_ c), (stdout_ c), (stdin_ c), (pidfd_ c).
    - intros [] w1 (y & D & H1 & HD & Hg). exists y, D. rewrite frame_plus in H1. by split_and!. }
  apply runs_bind. eapply runs_mono; [exact Hrel|]. intros [] w1 (y & D & Hw1 & HD & Hy). unfold with_child in Hw1, HD, HF.
  assert (sound (grow (pidfd_ c) b)) as S1 by by apply sound_grow. assert (sound (grow (stdin_ c) (grow (pidfd_ c) b))) as S2 by by apply sound_grow.
  assert (sound (grow (stdout_ c) (grow (stdin_ c) (grow (pidfd_ c) b)))) as S3 by by apply sound_grow.
  assert (forall o B, D ∪ F ## a_fds (grow o B) -> D ∪ F ## a_fds B) as Hsub by (intros o B Hd; eapply apart_mono; [exact Hd|apply grow_fds]).
  apply disjoint_union_r in HD as [HDF HD]. assert (D ∪ F ## a_fds (grow (stderr_ c) (grow (stdout_ c) (grow (stdin_ c) (grow (pidfd_ c) b))))) as F4 by by apply disjoint_union_l.
  pose proof (Hsub _ _ F4) as F3. pose proof (Hsub _ _ F3) as F2. pose proof (Hsub _ _ F2) as F1. pose proof (Hsub _ _ F1) as F0.
  apply runs_bind. eapply runs_mono; [by apply (close_opt_run (D ∪ F) y (grow (stdout_ c) (grow (stdin_ c) (grow (pidfd_ c) b))))|]. intros [] w2 Hw2.
  apply runs_bind. eapply runs_mono; [by apply (close_opt_run (D ∪ F) y (grow (stdin_ c) (grow (pidfd_ c) b)))|]. intros [] w3 Hw3.
  apply runs_bind. eapply runs_mono; [by apply (close_opt_run (D ∪ F) y (grow (pidfd_ c) b))|]. intros [] w4 Hw4.
  eapply runs_mono; [by apply (close_opt_run (D ∪ F) y b)|]. intros [] w5 Hw5. exists y, D. split; [done|]. split; [|done].
  apply disjoint_union_r. split; [done|]. by apply disjoint_union_l in F0 as [? _].
Qed.

(** ** Attaching the streams *)

(** The descriptors that the reaper got, taken into the account. *)
Lemma piped_plus D b y ps w : settled (frame (D ∪ held ps) y b) w -> D ## held ps ∪ a_fds b -> held ps ## a_fds b ->
  (forall e1 e2, (0 <= ps e1)%Z -> ps e1 = ps e2 -> e1 = e2) -> piped (plus D b) y ps w.
Proof.
  intros (Eo & Er & X & P) HD Ha Hd. split; [|cbn; set_solver|done]. split_and!; cbn in *; [|done..]. by rewrite Eo, swap_union, assoc_L by apply _.
Qed.

Lemma attach_step fuel b x pid k0 l want e c s (Q : Result Child -> Pipes * W -> Prop) : sound b -> new_child c b -> piped (with_child c b) x s.1 s.2 ->
  pidfd_ c = Some k0 -> status_ c = None -> names x !! fd_ k0 = Some pid -> a_patience b < fuel -> (want = true -> (0 <= s.1 e)%Z) ->
  (forall k, with_child (set_stream e k c) b = grow (Some k) (with_child c b) /\ (new_on (with_child c b) (Some k) -> new_child (set_stream e k c) b)) ->
  (want = false -> runs (attach_streams fuel l c) Q s) ->
  (forall k s', want = true -> s'.1 = <[e := (-1)%Z]> s.1 -> new_child (set_stream e k c) b -> piped (with_child (set_stream e k c) b) x s'.1 s'.2 ->
    runs (attach_streams fuel l (set_stream e k c)) Q s') ->
  (forall err s' y D, piped (plus D b) y s'.1 s'.2 -> D ## a_fds b -> let_go pid x y D -> Q (Err err) s') ->
  runs (attach_streams fuel ((want, e) :: l) c) Q s.
Proof using PS.
  intros Hs Hn Hp Hpf Hst Hnm Hf He Hset Hskip Hok Herr. cbn [attach_streams]. destruct want; [|by apply Hskip].
  destruct (attach_end_run (with_child c b) x s e (sound_child c b Hs Hn) Hp (He eq_refl)) as (r & s1 & Hr & Hps & Hx).
  unfold st_bind in Hr at 1. apply runs_bind. eexists _, _. split; [reflexivity|]. cbn in Hr. apply runs_bind. exists r, s1. split; [exact Hr|].
  destruct r as [k|err].
  - destruct Hx as [Hnk Hpk]. destruct (Hset k) as [Eg Hnew]. apply Hok; [done|done|by apply Hnew|by rewrite Eg].
  - apply runs_bind, runs_snd'. destruct Hx as [Hw Ha Hd]. eapply runs_mono; [by apply (destroy_run fuel c (held s1.1) x b s1.2 pid k0)|].
    intros [] w' (y & D & Hw' & HD & Hy). rewrite Hst in Hy. apply runs_ret.
    apply (Herr err (s1.1, w') y D); [|by apply disjoint_union_r in HD as [_ ?]|done]. apply piped_plus; [done|done| |done].
    eapply apart_mono; [exact Ha|]. unfold with_child. intros z Hz. by do 4 apply grow_fds.
Qed.

(** A child with the streams that the command asks for. *)
Definition has (o : option Socket) : bool := match o with Some _ => true | None => false end.

Record started_child (c : Command) (k0 : Socket) (pid : Z) b x (ch : Child) (s : Pipes * W) : Prop := {
  sc_new : new_child ch b;
  sc_piped : piped (with_child ch b) x s.1 s.2;
  sc_pidfd : pidfd_ ch = Some k0 /\ names x !! fd_ k0 = Some pid;
  sc_pid : pid_ ch = pid /\ status_ ch = None;
  sc_streams : has (stdin_ ch) = stdin_pipe c /\ has (stdout_ ch) = stdout_pipe c /\ has (stderr_ ch) = stderr_pipe c }.

Definition attached (c : Command) (k0 : Socket) (pid : Z) b x (r : Result Child) (s : Pipes * W) : Prop :=
  match r with Ok ch => started_child c k0 pid b x ch s | Err _ => exists y D, piped (plus D b) y s.1 s.2 /\ D ## a_fds b /\ let_go pid x y D end.

Section streams.
Context (fuel : nat) (b : Acct Family) (x : Family) (pid : Z) (k0 : Socket) (c : Command).
Context (Hs : sound b) (Hnm : names x !! fd_ k0 = Some pid) (Hf : a_patience b < fuel).

(** A child so far. *)
Record partly (ch : Child) (s : Pipes * W) : Prop := {
  py_new : new_child ch b;
  py_piped : piped (with_child ch b) x s.1 s.2;
  py_pidfd : pidfd_ ch = Some k0;
  py_rest : pid_ ch = pid /\ status_ ch = None }.

Lemma attach_err_run ch s : partly ch s -> stderr_ ch = None -> has (stdin_ ch) = stdin_pipe c -> has (stdout_ ch) = stdout_pipe c ->
  (stderr_pipe c = true -> (0 <= s.1 ErrR)%Z) -> runs (attach_streams fuel [(stderr_pipe c, ErrR)] ch) (attached c k0 pid b x) s.
Proof using PS Hs Hnm Hf.
  intros [Hn Hp Hk [Hpid Hst]] E Hi Ho He. apply (attach_step fuel b x pid k0 [] _ _ ch s); try done.
  - intros k. unfold with_child. rewrite E. split; [reflexivity|]. intros Hk'. destruct Hn as (A & B & C & _). by split; [|split; [|split]].
  - intros Ew. apply runs_ret. split; try done. by rewrite Ew, E.
  - intros k s' Ew Es Hnew Hpk. apply runs_ret. by split.
  - intros err s' y D Hy HD Hl. by exists y, D.
Qed.

Lemma attach_out_run ch s : partly ch s -> stdout_ ch = None -> stderr_ ch = None -> has (stdin_ ch) = stdin_pipe c ->
  (stdout_pipe c = true -> (0 <= s.1 OutR)%Z) -> (stderr_pipe c = true -> (0 <= s.1 ErrR)%Z) ->
  runs (attach_streams fuel [(stdout_pipe c, OutR); (stderr_pipe c, ErrR)] ch) (attached c k0 pid b x) s.
Proof using PS Hs Hnm Hf.
  intros Hy E1 E2 Hi Ho He. pose proof Hy as [Hn Hp Hk [Hpid Hst]]. apply (attach_step fuel b x pid k0 _ _ _ ch s); try done.
  - intros k. unfold with_child, new_child. cbn [set_stream pidfd_ stdin_ stdout_ stderr_]. rewrite E1, E2. split; [reflexivity|]. intros Hk'. destruct Hn as (A & B & _). by split; [|split; [|split]].
  - intros Ew. apply attach_err_run; try done. by rewrite Ew, E1.
  - intros k s' Ew Es Hnew Hpk. apply attach_err_run; try done. intros Ee. rewrite Es, fn_lookup_insert_ne by done. by apply He.
  - intros err s' y D Hy' HD Hl. by exists y, D.
Qed.

Lemma attach_all_run s : new_on b (Some k0) -> piped (grow (Some k0) b) x s.1 s.2 ->
  (stdin_pipe c = true -> (0 <= s.1 InW)%Z) -> (stdout_pipe c = true -> (0 <= s.1 OutR)%Z) -> (stderr_pipe c = true -> (0 <= s.1 ErrR)%Z) ->
  runs (attach_streams fuel (streams_of c) (mkChild pid (Some k0) None None None None)) (attached c k0 pid b x) s.
Proof using PS Hs Hnm Hf.
  intros Hn Hp Hi Ho He. assert (new_child (mkChild pid (Some k0) None None None None) b) as Hnc by by split; [|split; [|split]].
  apply (attach_step fuel b x pid k0 _ _ _ _ s); try done.
  - intros Ew. by apply attach_out_run.
  - intros k s' Ew Es Hnew Hpk. apply attach_out_run; try done; intros Ee; rewrite Es, fn_lookup_insert_ne by done; [by apply Ho|by apply He].
  - intros err s' y D Hy' HD Hl. by exists y, D.
Qed.
End streams.

(** ** [start] *)

(** A descriptor held beside the account. *)
Definition hold (fd : Z) b : Acct Family := mkAcct ({[fd]} ∪ a_fds b) (a_regs b) (a_extra b) (a_patience b).

Lemma hold_holds fd b x ps w : piped (hold fd b) x ps w -> (0 <= fd)%Z -> fd ∉ a_fds b ->
  holds (frame (held ps) x b) fd w /\ fd ∉ held ps /\ forall w', settled (frame (held ps) x b) w' -> piped b x ps w'.
Proof.
  intros [(Eo & Er & X & P) Ha Hd] H0 Hn. cbn in *. apply disjoint_union_r in Ha as [Hx Ha]. apply disjoint_singleton_r in Hx.
  split; [|split; [done|done]]. split_and!; try done; cbn; [by apply not_elem_of_union|by rewrite Eo, swap_union].
Qed.

Lemma piped_kept b x ps w w' : piped b x ps w -> kept w w' -> piped b x ps w'.
Proof. intros [Hw Ha Hd] Hk. split; [by eapply settled_kept|done|done]. Qed.

Lemma plus_nothing b : plus ∅ b = b.
Proof. destruct b. unfold plus. cbn. by rewrite union_empty_l_L. Qed.

(** The numbers [start] closes while no descriptor has them: at most the one that
    its pidfd had, once. *)
Definition stray_ok b x y (l : list Z) : Prop :=
  l = [] \/ exists fd pid, l = [fd] /\ fd ∉ a_fds b /\ pid ∉ children x /\ names y !! fd = Some pid.

(** Nothing but the children may differ, and those by one that the reaper has or
    that was lost. *)
Definition left_over x y D l : Prop := moved x y D l /\
  (children y = children x /\ D = ∅ \/
   exists pid, pid ∉ children x /\ children y = {[pid]} ∪ children x /\ (in_custody pid y D \/ lost y)).

(** Ends and the account after an error of [start]. *)
Definition start_failed b x (s : Pipes * W) : Prop :=
  exists y D l, piped (plus D b) y s.1 s.2 /\ D ## a_fds b /\ left_over x y D l /\ stray_ok b x y l.

(** [start] waits, with descriptors [F], for a child that runs or for its report. *)
Definition start_waits b x (w : W) : Prop :=
  exists y F l pid, settled (frame F y b) w /\ F ## a_fds b /\ pid ∉ children x /\ children y = {[pid]} ∪ children x /\ moved x y ∅ l /\
    stray_ok b x y l /\ (running w pid \/ exists fd, fd ∈ F /\ silent w fd).

(** What a started child is, over the account before the start. *)
Definition start_post (c : Command) b x (r : Fate Child) (s : Pipes * W) : Prop :=
  match r with
  | Returned (Ok ch) => exists k pid y, started_child c k pid b y ch s /\ pid ∉ children x /\ children y = {[pid]} ∪ children x /\ moved x y ∅ []
  | Returned (Err _) => start_failed b x s
  | Parked => start_waits b x s.2
  end.

(** The child [pid] is one more. *)
Definition one_more pid x0 x l : Prop := pid ∉ children x0 /\ children x = {[pid]} ∪ children x0 /\ moved x0 x ∅ l.

Lemma only_family_piped b x y ps w w' : piped b x ps w -> only_family w w' -> extra w' = y -> piped b y ps w'.
Proof. intros [(Eo & Er & X & P) Ha Hd] (O & R & P') Hx. split; [|done|done]. split_and!; cbn in *; [congruence..|lia]. Qed.

Lemma await_exit_run c b x0 x pid e l s : piped b x s.1 s.2 -> one_more pid x0 x l -> stray_ok b x0 x l ->
  runs (await_exit pid e) (start_post c b x0) s.
Proof using PS.
  intros Hp (Hn & Hc & Hm) Hl. apply runs_bind, runs_snd'. destruct (waitpid_spec pid s.2) as (r & w' & Hr & Hk & Hx). exists r, w'. split; [done|].
  assert (extra s.2 = x) as X by by destruct Hp as [(_ & _ & ? & _) _ _]. unfold fam in Hx. rewrite X in Hx.
  destruct r as [[[]|e']|]; apply runs_ret; cbn [start_post].
  - exists (bury pid x), ∅, l. rewrite plus_nothing. split; [by eapply only_family_piped|]. split; [apply disjoint_empty_l|]. split; [|done].
    split; [done|]. left. split; [|done]. cbn. rewrite Hc. by apply remove_new.
  - destruct Hx as [Hx Hlose]. exists x, ∅, l. rewrite plus_nothing. split; [by eapply only_family_piped|]. split; [apply disjoint_empty_l|]. split; [|done].
    split; [done|]. right. exists pid. split; [done|]. split; [done|]. right. by left.
  - destruct Hx as [Hx Hrun]. destruct (only_family_piped _ _ _ _ _ _ Hp Hk Hx) as [Hw Ha _]. exists x, (held s.1), l, pid. split_and!; try done; [apply Hm..|by left].
Qed.

Lemma reap_run c b x0 x pidfd pid e s : sound b -> (0 <= pidfd)%Z -> pidfd ∉ a_fds b -> names x !! pidfd = Some pid ->
  piped (hold pidfd b) x s.1 s.2 \/ piped b x s.1 s.2 /\ pidfd ∉ opened s.2 -> one_more pid x0 x [] ->
  runs (reap pidfd pid e) (start_post c b x0) s.
Proof using PS.
  intros Hs H0 Hn Hnm Hp Hone. apply runs_bind, runs_snd'. destruct Hp as [Hp|[Hp Hno]].
  - destruct (hold_holds _ _ _ _ _ Hp H0 Hn) as (Hh & _ & Hback).
    eapply runs_mono; [apply (close_run (frame (held s.1) x b)); [by apply sound_frame|done]|].
    intros [] w1 H1. apply (await_exit_run c b x0 x pid e [] (s.1, w1)); [by apply Hback|done|by left].
  - destruct (close_stray_spec pidfd s.2 Hno) as (r & w1 & Hr & Hk & Hx). apply runs_bind. exists r, w1. split; [done|]. apply runs_ret.
    assert (extra s.2 = x) as X by by destruct Hp as [(_ & _ & ? & _) _ _]. unfold fam in Hx. rewrite X in Hx. destruct Hone as (A & B & M1 & M2).
    apply (await_exit_run c b x0 (strayed pidfd x) pid e [pidfd] (s.1, w1)).
    + by eapply only_family_piped.
    + split; [done|]. split; [done|]. split; [done|]. cbn. by rewrite M2.
    + right. by exists pidfd, pid.
Qed.

(** What destroying the one more child leaves. *)
Lemma let_go_left pid x0 x y D : one_more pid x0 x [] -> let_go pid x y D -> left_over x0 y D [].
Proof.
  intros (Hn & Hc & M1 & M2) [[E1 E2] Hg]. split; [split; cbn in *; [by rewrite E1, M1, union_empty_l_L|congruence]|].
  destruct Hg as [[Hg ->]|[Hg Hg']]; [left; split; [|done]; rewrite Hg, Hc; by apply remove_new|]. right. exists pid. by rewrite Hg.
Qed.

Lemma adopt_child_run fuel c b x0 x pid pidfd s : sound b -> piped (hold pidfd b) x s.1 s.2 -> (0 <= pidfd)%Z -> pidfd ∉ a_fds b ->
  names x !! pidfd = Some pid -> one_more pid x0 x [] -> a_patience b < fuel ->
  (stdin_pipe c = true -> (0 <= s.1 InW)%Z) -> (stdout_pipe c = true -> (0 <= s.1 OutR)%Z) -> (stderr_pipe c = true -> (0 <= s.1 ErrR)%Z) ->
  runs (adopt_child fuel c pid pidfd) (start_post c b x0) s.
Proof using PS.
  intros Hs Hp H0 Hn Hnm Hone Hf Hi Ho He. destruct (hold_holds _ _ _ _ _ Hp H0 Hn) as (Hh & Hnh & Hback). pose proof Hp as [_ Ha Hd].
  cbn in Ha. apply disjoint_union_r in Ha as [_ Ha].
  apply runs_bind, runs_snd'. eapply runs_mono; [apply (adopt_run (frame (held s.1) x b)); [by apply sound_frame|exact Hh]|].
  intros r w1 [Hm Hfd]. destruct r as [k|e].
  - cbn in Hm. specialize (Hfd k eq_refl). apply owns_grow in Hm as [Hnew Hw]; [|by rewrite Hfd]. apply runs_bind.
    eapply runs_mono; [apply (attach_all_run fuel b x pid k c Hs); [by rewrite Hfd|done|done| |done|done|done]|].
    + split; [done| |done]. cbn. apply disjoint_union_r. split; [|done]. apply disjoint_singleton_r. by rewrite Hfd.
    + intros [ch|e] s2 H2; apply runs_ret; [exists k, pid, x; destruct Hone as (? & ? & ?); by split_and!|]. destruct H2 as (y & D & Hy & HD & Hl).
      exists y, D, []. split; [done|]. split; [done|]. split; [by eapply let_go_left|by left].
  - apply (reap_run c b x0 x pidfd pid e (s.1, w1)); try done. right. split; [by apply Hback|]. destruct Hm as (Eo & _). cbn. rewrite Eo. cbn. by apply not_elem_of_union.
Qed.

Lemma start_parent_run fuel c b x0 x pid s : sound b -> piped b x s.1 s.2 -> one_more pid x0 x [] -> a_patience b < fuel ->
  (stdin_pipe c = true -> (0 <= s.1 InW)%Z) -> (stdout_pipe c = true -> (0 <= s.1 OutR)%Z) -> (stderr_pipe c = true -> (0 <= s.1 ErrR)%Z) ->
  (0 <= s.1 ExR)%Z -> runs (start_parent fuel c pid) (start_post c b x0) s.
Proof using PS.
  intros Hs Hp Hone Hf Hi Ho He Hex. unfold start_parent.
  apply runs_bind. eapply runs_mono; [by apply (close_end_run b x)|]. intros [] s1 (H1 & _ & K1).
  apply runs_bind. eapply runs_mono; [by apply (close_end_run b x)|]. intros [] s2 (H2 & _ & K2).
  apply runs_bind. eapply runs_mono; [by apply (close_end_run b x)|]. intros [] s3 (H3 & _ & K3).
  apply runs_bind. eapply runs_mono; [by apply (close_end_run b x)|]. intros [] s4 (H4 & _ & K4).
  assert (forall e, e <> ExW -> e <> InR -> e <> OutW -> e <> ErrW -> s4.1 e = s.1 e) as K by (intros; by rewrite K4, K3, K2, K1).
  rewrite <-!K in Hi, Ho, He, Hex by done. clear H1 H2 H3 K1 K2 K3 K4 K.
  apply runs_bind, runs_snd'. destruct (pidfd_open_spec pid s4.2) as (r & w5 & Hr & R5 & P5 & Hx5). exists r, w5. split; [done|].
  pose proof H4 as [(Eo & Er & X & P) Ha Hd]. cbn in Eo, Er, X, P. unfold fam in Hx5. rewrite X, Eo in Hx5. destruct r as [pidfd|e].
  2: { destruct Hx5 as [O5 X5]. apply (await_exit_run c b x0 x pid _ [] (s4.1, w5)); [|done|by left]. split; [split_and!; cbn; try congruence; lia|done|done]. }
  destruct Hx5 as (D0 & Dn & O5 & X5). apply not_elem_of_union in Dn as [Dh Dn].
  assert (piped (hold pidfd b) (named pidfd pid x) s4.1 w5) as H5.
  { split; [split_and!; cbn; try congruence; [|lia]|cbn; apply disjoint_union_r; split; [by apply disjoint_singleton_r|done]|done]. by rewrite O5, swap_union. }
  assert (one_more pid x0 (named pidfd pid x) []) as Hone' by done. assert (names (named pidfd pid x) !! pidfd = Some pid) as Hnm by apply lookup_insert_eq.
  remember (named pidfd pid x) as x' eqn:Ex'. clear Ex' X5.
  apply runs_bind, runs_gets, runs_bind, runs_snd'. cbn [fst snd].
  eapply runs_mono; [apply (retried_run fate_interrupted _ (fun r w => piped (hold pidfd b) x' s4.1 w /\ (r = Parked -> silent w (s4.1 ExR)))
    (fun w => piped (hold pidfd b) x' s4.1 w)); [|exact H5|]|].
  - intros w Hw. destruct (read_spec (s4.1 ExR) 4 w) as (r & w' & Hr' & Hk & Hi').
    + destruct Hw as [(Eo' & _) _ _]. rewrite Eo'. cbn. apply elem_of_union_l, elem_of_held. split; [done|by eexists].
    + exists r, w'. split; [done|]. pose proof (piped_kept _ _ _ _ _ Hw Hk) as Hw'. destruct r as [[d|e]|]; [by split| |by split].
      cbn. case_bool_decide; [split; [done|by apply Hi']|by split].
  - destruct H5 as [(_ & _ & _ & P') _ _]. cbn in P'. lia.
  - intros got w6 [H6 Hsil]. assert (runs (adopt_child fuel c pid pidfd) (start_post c b x0) (s4.1, w6)) as Hadopt by (by apply (adopt_child_run fuel c b x0 x' pid pidfd (s4.1, w6))).
    destruct got as [[[|b0 [|b1 [|b2 [|b3 [|b4 d]]]]]|e]|]; try exact Hadopt.
    + apply (reap_run c b x0 x' pidfd pid _ (s4.1, w6)); try done. by left.
    + apply runs_ret. destruct (hold_holds _ _ _ _ _ H6 D0 Dn) as (_ & Hnh & _). destruct H6 as [Hw Hp6 _]. destruct Hone' as (A & B & M).
      exists x', (held s4.1 ∪ {[pidfd]}), [], pid. split; [|split; [|split; [done|split; [done|split; [done|split; [by left|]]]]]].
      * destruct Hw as (O6 & R6 & X6 & P6). cbn in *. split_and!; cbn; [|done..]. by rewrite O6, assoc_L by apply _.
      * cbn in Hp6. set_solver.
      * right. exists (s4.1 ExR). split; [|by apply Hsil]. apply elem_of_union_l, elem_of_held. split; [done|by eexists].
Qed.

Lemma open_if_run want b x s r w : piped b x s.1 s.2 -> (s.1 r < 0)%Z -> (s.1 w < 0)%Z -> r <> w ->
  runs (open_if want r w) (on_ok (fun _ s' => piped b x s'.1 s'.2 /\ (want = true -> 0 <= s'.1 r /\ 0 <= s'.1 w)%Z /\ forall e, e <> r -> e <> w -> s'.1 e = s.1 e)
    (fun _ s' => piped b x s'.1 s'.2)) s.
Proof using PS.
  intros Hp Hr Hw Hne. unfold open_if. destruct want; [|by apply runs_ret]. eapply runs_mono; [by apply (open_pipe_run b x)|].
  intros [[]|e] s' Hx; [|done]. destruct Hx as (A & B & C & D). by split; [|split].
Qed.

Lemma prepare_run c b x s : piped b x s.1 s.2 -> (forall e, s.1 e < 0)%Z ->
  runs (prepare c) (on_ok (fun pid s' => pid ∉ children x /\ piped b (born pid x) s'.1 s'.2 /\ (stdin_pipe c = true -> 0 <= s'.1 InW)%Z /\
    (stdout_pipe c = true -> 0 <= s'.1 OutR)%Z /\ (stderr_pipe c = true -> 0 <= s'.1 ErrR)%Z /\ (0 <= s'.1 ExR)%Z) (fun _ s' => piped b x s'.1 s'.2)) s.
Proof using PS.
  intros H0 Hno. unfold prepare. apply runs_try. eapply runs_mono; [by apply (open_if_run _ b x)|]. intros [[]|e] s1 H1; [|done]. destruct H1 as (P1 & N1 & K1).
  apply runs_try. eapply runs_mono; [apply (open_if_run _ b x); [done|by rewrite K1|by rewrite K1|done]|]. intros [[]|e] s2 H2; [|done]. destruct H2 as (P2 & N2 & K2).
  apply runs_try. eapply runs_mono; [apply (open_if_run _ b x); [done|by rewrite K2, K1|by rewrite K2, K1|done]|]. intros [[]|e] s3 H3; [|done]. destruct H3 as (P3 & N3 & K3).
  apply runs_try. eapply runs_mono; [apply (open_pipe_run b x); [done|by rewrite K3, K2, K1|by rewrite K3, K2, K1|done]|]. intros [[]|e] s4 H4; [|done].
  destruct H4 as (P4 & N4r & N4w & K4). apply runs_bind, runs_gets.
  apply runs_snd', runs_bind. destruct (fork_spec c (s4.1) s4.2) as (r & w5 & Hr & Hk & X5). exists r, w5. split; [done|].
  assert (extra s4.2 = x) as X by by destruct P4 as [(_ & _ & ? & _) _ _]. unfold fam in X5. rewrite X in X5. destruct r as [pid|e]; apply runs_ret; cbn.
  - destruct X5 as [Hpid X5]. split; [done|]. split; [by eapply only_family_piped|]. split_and!; [| | |done].
    + intros E. rewrite K4, K3, K2 by done. by apply N1.
    + intros E. rewrite K4, K3 by done. by apply N2.
    + intros E. rewrite K4 by done. by apply N3.
  - by eapply only_family_piped.
Qed.

Lemma start_body_run fuel c b x w : sound b -> piped b x no_pipes w -> a_patience b < fuel -> runs (start_body fuel c) (start_post c b x) (no_pipes, w).
Proof using PS.
  intros Hs H0 Hf. apply runs_bind. eapply runs_mono; [by apply (prepare_run c b x)|]. intros [pid|e] s H; cbn [on_fate].
  - destruct H as (Hpid & Hp & Hi & Ho & He & Hx). apply (start_parent_run fuel c b x (born pid x)); try done. split; [done|]. split; [done|]. split; [by rewrite union_empty_l_L|done].
  - apply runs_ret. exists x, ∅, []. rewrite plus_nothing. split; [done|]. split; [apply disjoint_empty_l|]. split; [|by left]. split; [split; [by rewrite union_empty_l_L|done]|by left].
Qed.

(** ** The theorem *)

(** The account is that of [w] but for descriptors that the reaper got and for a
    child that it has, or that was lost. *)
Definition restored (w w' : W) (l : list Z) : Prop :=
  registered w' = registered w /\ exists D, D ## opened w /\ opened w' = D ∪ opened w /\ left_over (fam w) (fam w') D l.

(** The same after an error of [start]. *)
Definition start_restored (w w' : W) : Prop := exists l, restored w w' l /\ stray_ok (acct w) (fam w) (fam w') l.

(** The child is held beside what [w] had; [alive] while it is not reaped. *)
Definition holds_child (w : W) (ch : Child) (alive : bool) (w' : W) : Prop :=
  new_child ch (acct w) /\ opened w' = a_fds (with_child ch (acct w)) /\ registered w' = a_regs (with_child ch (acct w)) /\ patience w' <= patience w /\
  (exists k, pidfd_ ch = Some k /\ names (fam w') !! fd_ k = Some (pid_ ch)) /\ pid_ ch ∉ children (fam w) /\
  children (fam w') = (if alive then {[pid_ ch]} ∪ children (fam w) else children (fam w)) /\ moved (fam w) (fam w') ∅ [].

Lemma frame_settled F x b w : settled (frame F x b) w <-> opened w = F ∪ a_fds b /\ registered w = a_regs b /\ extra w = x /\ patience w <= a_patience b.
Proof. done. Qed.
Lemma frame_empty x b w : settled (frame ∅ x b) w <-> opened w = a_fds b /\ registered w = a_regs b /\ extra w = x /\ patience w <= a_patience b.
Proof. unfold settled, frame. cbn. by rewrite union_empty_l_L. Qed.

Lemma with_child_rest ch b : a_patience (with_child ch b) = a_patience b.
Proof. unfold with_child. by destruct (stderr_ ch), (stdout_ ch), (stdin_ ch), (pidfd_ ch). Qed.

(** What [start] ends in. *)
Definition started (c : Command) (w : W) (r : Fate Child) (w' : W) : Prop :=
  match r with
  | Returned (Ok ch) => holds_child w ch true w' /\ status_ ch = None /\ has (stdin_ ch) = stdin_pipe c /\ has (stdout_ ch) = stdout_pipe c /\ has (stderr_ ch) = stderr_pipe c
  | Returned (Err _) => start_restored w w'
  | Parked => start_waits (acct w) (fam w) w'
  end.

(** What [start_body] and the destructors of the pipes end in. *)
Definition start_end (c : Command) (w : W) (r : Fate Child) (w' : W) : Prop :=
  match r with
  | Returned (Ok ch) => exists k pid y, new_child ch (acct w) /\ settled (frame ∅ y (with_child ch (acct w))) w' /\ (pidfd_ ch = Some k /\ names y !! fd_ k = Some pid) /\
      (pid_ ch = pid /\ status_ ch = None) /\ one_more pid (fam w) y [] /\
      has (stdin_ ch) = stdin_pipe c /\ has (stdout_ ch) = stdout_pipe c /\ has (stderr_ ch) = stderr_pipe c
  | Returned (Err _) => exists y D l, settled (frame ∅ y (plus D (acct w))) w' /\ D ## opened w /\ left_over (fam w) y D l /\ stray_ok (acct w) (fam w) y l
  | Parked => start_waits (acct w) (fam w) w'
  end.

Lemma start_end_started c w r w' : start_end c w r w' -> started c w r w'.
Proof.
  destruct r as [[ch|e]|]; cbn [start_end started]; [| |done].
  - intros (k & pid & y & Hn & Hw & [Hk Hnm] & [Hpid Hst] & (Hx & Hy & Hm) & Hstr). apply (frame_empty y (with_child ch (acct w))) in Hw as (Eo & Er & X & P). rewrite with_child_rest in P.
    split; [|done]. unfold holds_child. change (fam w') with (extra w'). rewrite X, Hpid. split_and!; try done; [by exists k|apply Hm..].
  - intros (y & D & l & Hw & HD & Hl & Hs). apply (frame_empty y (plus D (acct w))) in Hw as (Eo & Er & X & P). exists l. unfold restored. change (fam w') with (extra w'). rewrite X.
    split; [|done]. split; [done|]. exists D. by split_and!.
Qed.

Lemma start_run fuel c w : sound (acct w) -> patience w < fuel -> runs (start fuel c) (started c w) w.
Proof using PS.
  intros Hs Hf. unfold start. case_decide.
  { apply runs_ret. exists []. split; [|by left]. split; [done|]. exists ∅. rewrite union_empty_l_L. split; [apply disjoint_empty_l|]. split; [done|].
    split; [split; [by rewrite union_empty_l_L|done]|by left]. }
  assert (piped (acct w) (fam w) no_pipes w) as H0.
  { assert (held no_pipes = ∅) as Eh by (apply set_eq; intros z; rewrite elem_of_held; split; [intros [Hz [e <-]]; unfold no_pipes in Hz; lia|set_solver]).
    split; [rewrite Eh; apply frame_empty; by split_and!|rewrite Eh; apply disjoint_empty_l|intros e1 e2 He; unfold no_pipes in He; lia]. }
  assert (runs (r <-- start_body fuel c; match r with Returned _ => drop_pipes;;; st_ret r | Parked => st_ret Parked end)
    (fun r s' => start_end c w r s'.2) (no_pipes, w)) as (r & [ps w'] & Hr & HQ).
  { apply runs_bind. eapply runs_mono; [by apply (start_body_run fuel c (acct w) (fam w))|]. intros [[ch|e]|] s1; cbn [start_post].
    - intros (k & pid & y & [Hn Hp Hk Hpid Hst] & Hone). apply runs_bind. eapply runs_mono; [apply (drop_pipes_run (with_child ch (acct w)) y); [by apply sound_child|done]|].
      intros [] s2 H2. apply runs_ret. by exists k, pid, y.
    - intros (y & D & l & Hp & Hy). apply runs_bind. eapply runs_mono; [apply (drop_pipes_run (plus D (acct w)) y); [by apply sound_plus|done]|]. intros [] s2 H2. apply runs_ret. by exists y, D, l.
    - intros Hw. by apply runs_ret. }
  exists r, w'. rewrite Hr. split; [done|]. by apply start_end_started.
Qed.

Definition waited (ch : Child) : bool := match status_ ch with Some _ => true | None => false end.

Lemma holds_settled w ch alive w1 : holds_child w ch alive w1 -> settled (frame ∅ (fam w1) (with_child ch (acct w))) w1.
Proof. intros (_ & Eo & Er & P & _). apply frame_empty. rewrite with_child_rest. by split_and!. Qed.

Lemma destroy_child fuel w ch w1 : sound (acct w) -> patience w < fuel -> holds_child w ch (negb (waited ch)) w1 ->
  runs (child_destroy fuel ch) (fun _ w2 => restored w w2 []) w1.
Proof using PS.
  intros Hs Hf Hh. pose proof Hh as (Hn & _ & _ & _ & (k & Hk & Hnm) & Hpid & Hx & Hm).
  eapply runs_mono; [apply (destroy_run fuel ch ∅ (fam w1) (acct w) w1 (pid_ ch) k); [done|done|apply disjoint_empty_l|by eapply holds_settled|done|done|done]|].
  intros [] w2 (y & D & Hw2 & HD & Hy). rewrite union_empty_l_L in HD. rewrite union_empty_r_L in Hw2. apply frame_settled in Hw2 as (Eo & Er & X & _).
  split; [done|]. exists D. split; [done|]. split; [done|]. change (fam w2) with (extra w2). rewrite X. unfold waited in Hx.
  destruct (status_ ch); cbn in Hx; [destruct Hy as [-> ->]; split; [done|by left]|]. by apply (let_go_left (pid_ ch) (fam w) (fam w1)).
Qed.

Definition with_status (st : Status) (ch : Child) : Child := mkChild (pid_ ch) (pidfd_ ch) (stdin_ ch) (stdout_ ch) (stderr_ ch) (Some st).

Lemma holds_child_kept w ch alive w1 w2 : holds_child w ch alive w1 -> only_family w1 w2 -> extra w2 = extra w1 -> holds_child w ch alive w2.
Proof.
  intros (Hn & Eo & Er & P & Hk & Hp & Hx) (O2 & R2 & P2) X2. unfold holds_child, fam in *. rewrite O2, R2, X2. split_and!; try done; [lia|apply Hx..].
Qed.

(** What a wait ends in. *)
Definition wait_end (w : W) (ch : Child) (r : Fate Status * Child) (w' : W) : Prop :=
  match r.1 with
  | Returned (Ok st) => r.2 = with_status st ch /\ holds_child w r.2 false w'
  | _ => r.2 = ch /\ holds_child w ch true w'
  end.

Lemma wait_run w ch w1 : holds_child w ch true w1 -> status_ ch = None -> runs (child_wait ch) (wait_end w ch) w1.
Proof using PS.
  intros Hh Hst. pose proof Hh as (Hn & Eo & Er & P & (k & Hk & Hnm) & Hpid & Hx & Hm). unfold child_wait. rewrite Hst, Hk.
  assert (new_on (acct w) (Some k)) as (H0 & Hfd & d & Hd & Hr) by (destruct Hn as [Hn _]; by rewrite Hk in Hn).
  unfold valid_socket. rewrite bool_decide_eq_true_2 by done. unfold await_readable. rewrite Hd.
  assert (is_Some (registered w1 !! d) /\ fd_ k ∈ opened w1) as [Hreg Hopen].
  { rewrite Er, Eo. unfold with_child. split; [|do 3 apply grow_fds; rewrite Hk; cbn; by apply elem_of_union_l, elem_of_singleton].
    assert (forall o b, is_Some (a_regs b !! d) -> is_Some (a_regs (grow o b) !! d)) as Hg.
    { intros [s|] b Hb; [|done]. cbn. destruct (desc_ s) as [d'|]; [|done]. rewrite lookup_insert. by case_decide. }
    do 3 apply Hg. rewrite Hk. cbn. rewrite Hd, lookup_insert_eq. by eexists. }
  destruct (await_spec d kRead w1 Hreg) as (r & w2 & Hr2 & O2 & R2 & X2 & P2).
  assert (only_family w1 w2) as Hk2 by done. pose proof (holds_child_kept _ _ _ _ _ Hh Hk2 X2) as Hh2.
  apply runs_bind. exists r, w2. split; [done|]. apply runs_bind. destruct r as [[[]|e]|]; cbn [on_fate]; [|by do 2 apply runs_ret..].
  destruct (waitid_spec (fd_ k) w2 (pid_ ch)) as (r & w3 & Hr3 & Hk3 & Hx3); [by rewrite O2|unfold fam in *; by rewrite X2|].
  exists r, w3. split; [done|]. assert (extra w3 = extra w2 -> holds_child w ch true w3) as Hsame by (intros; by eapply holds_child_kept).
  destruct r as [[i|e]|]; [|by apply runs_ret; split; [|apply Hsame]..].
  destruct Hx3 as [Hc Hx3]. assert (exists st, status_of i = Some st) as [st Hs] by (unfold status_of; destruct (si_code i); [by eexists..|done]).
  rewrite Hs. apply runs_ret. unfold wait_end. cbn [fst snd]. rewrite <-Hk. fold (with_status st ch). split; [done|].
  destruct Hh2 as (_ & E2 & G2 & Q2 & _ & _ & C2 & M2). destruct Hk3 as (O3 & R3 & P3). unfold holds_child. rewrite Hx3.
  change (with_child (with_status st ch) (acct w)) with (with_child ch (acct w)).
  split_and!; [done|congruence|congruence|lia| |done| |apply M2..].
  - exists k. split; [done|]. cbn. unfold fam in *. by rewrite X2.
  - cbn. unfold fam in *. rewrite C2. by apply remove_new.
Qed.

(** C39: Children are accounted for. When [start] succeeds the parent holds one
    descriptor for the child and one for each stream that was asked for, all
    registered and new, and one more child to reap. On every error path, also after
    the fork, registrations and descriptors are as they were but for those that the
    reaper got, and so are the children, unless the reaper has a pidfd of the one
    started, or it was lost: the [waitpid] failed, or no duplicate, no reaper or no
    watch could be had for it. Only a pidfd whose registration failed has its number
    closed a second time. The one way for [start] not to return is to wait for a
    child that runs, or for a report that has neither data nor an end. [wait] reaps
    the child once and remembers its status, so waiting again gives the same without
    a call; one that fails, or does not return, changes nothing. Destroying a child
    gives back all it held, and the child is reaped, with the reaper or lost; [run]
    leaves what these leave. *)
Theorem children_accounted (fuel : nat) (c : Command) (w : W) : sound (acct w) -> patience w < fuel ->
  runs (start fuel c) (fun r w' => match r with
    | Returned (Ok ch) => holds_child w ch true w' /\ status_ ch = None /\
        has (stdin_ ch) = stdin_pipe c /\ has (stdout_ ch) = stdout_pipe c /\ has (stderr_ ch) = stderr_pipe c
    | Returned (Err _) => start_restored w w'
    | Parked => start_waits (acct w) (fam w) w'
    end) w /\
  (forall ch w1, holds_child w ch true w1 -> status_ ch = None ->
    runs (child_wait ch) (fun r w2 => match r.1 with
      | Returned (Ok st) => r.2 = with_status st ch /\ holds_child w r.2 false w2 /\ forall w3, child_wait r.2 w3 = Some ((Returned (Ok st), r.2), w3)
      | _ => r.2 = ch /\ holds_child w ch true w2 end) w1) /\
  (forall ch w1, holds_child w ch (negb (waited ch)) w1 -> runs (child_destroy fuel ch) (fun _ w2 => restored w w2 []) w1) /\
  runs (command_run fuel c) (fun r w' => match r with
    | Returned _ => start_restored w w'
    | Parked => start_waits (acct w) (fam w) w' \/ exists ch, holds_child w ch true w'
    end) w.
Proof using PS.
  intros Hs Hf. split; [by apply start_run|]. split; [|split].
  - intros ch w1 Hh Hst. eapply runs_mono; [by apply (wait_run w)|]. intros [[[st|e]|] ch'] w2; [|done..]. by intros [-> Hh2].
  - intros ch w1 Hh. by apply destroy_child.
  - assert (forall ch w1, holds_child w ch (negb (waited ch)) w1 -> runs (child_destroy fuel ch) (fun _ w2 => start_restored w w2) w1) as Hdestroy.
    { intros ch w1 Hh. eapply runs_mono; [by apply (destroy_child fuel w)|]. intros [] w2 H2. exists []. split; [done|by left]. }
    apply runs_bind. eapply runs_mono; [by apply start_run|]. intros [[ch|e]|] w1; cbn [started on_fate]; [|by intros; apply runs_ret|intros; apply runs_ret; by left].
    intros (Hh & Hst & _). apply runs_bind. eapply runs_mono; [by apply (wait_run w)|]. intros [[[st|e]|] ch'] w2; cbn.
    + intros [-> Hh2]. apply runs_bind. eapply runs_mono; [by apply Hdestroy|]. intros [] w3 Hw3. by apply runs_ret.
    + intros [-> Hh2]. apply runs_bind. eapply runs_mono; [apply Hdestroy; unfold waited; by rewrite Hst|]. intros [] w3 Hw3. by apply runs_ret.
    + intros [-> Hh2]. apply runs_ret. right. by exists ch.
Qed.
End account.

(** * A concrete host for the theorems on child processes

    The scripted host of SockLife. A child has exited, unless a descriptor that it
    reads the other end of is open. *)

Definition on_procs (f : Procs -> Procs) (w : World) : World := set_procs (f (t_procs w)) w.

Definition fresh_in (s : gset Z) : Z := Z.of_nat (fresh (set_map (C := gset Z) (D := gset nat) Z.to_nat s)).

Lemma fresh_in_new s : (0 <= fresh_in s)%Z /\ fresh_in s ∉ s.
Proof.
  split; [unfold fresh_in; lia|]. intros Hin. apply (is_fresh (set_map (C := gset Z) (D := gset nat) Z.to_nat s)).
  apply elem_of_map. eexists. split; [|exact Hin]. unfold fresh_in. by rewrite Nat2Z.id.
Qed.

Definition fam_of (p : Procs) : Family := mkFamily (p_children p) (p_names p) (p_keeper p) (p_handed p) (p_strays p).
Definition of_fam (x : Family) (p : Procs) : Procs := mkProcs (children x) (names x) (keeper x) (handed x) (strays x) (p_feeds p).
Definition on_fam (f : Family -> Family) : World -> World := on_procs (fun p => of_fam (f (fam_of p)) p).

Definition toy_pipe : ST World (Z * Z) := fun w =>
  let a := fresh_in (t_opened w) in
  let b := fresh_in ({[a]} ∪ t_opened w) in
  Some ((a, b), set_opened ({[b]} ∪ ({[a]} ∪ t_opened w)) w).
Definition feed (fd pid : Z) (p : Procs) : Procs :=
  mkProcs (p_children p) (p_names p) (p_keeper p) (p_handed p) (p_strays p) (<[fd := pid]> (p_feeds p)).
Definition toy_fork (c : Command) (ps : Pipes) : ST World Z := fun w =>
  let pid := fresh_in (p_children (t_procs w)) in
  Some (pid, on_fam (born pid) (if stdin_pipe c then on_procs (feed (ps InW) pid) w else w)).
Definition toy_new : ST World Z := fun w =>
  let fd := fresh_in (t_opened w) in Some (fd, set_opened ({[fd]} ∪ t_opened w) w).
(** A new descriptor that names a process. *)
Definition toy_name (pid : Z) : ST World Z := fd <-- toy_new; st_modify (on_fam (named fd pid));;; st_ret fd.
Definition pid_at (fd : Z) (w : World) : Z := default 0%Z (p_names (t_procs w) !! fd).

Definition toy_running (pid : Z) (w : World) : bool :=
  existsb (fun x : Z * Z => bool_decide (x.1 ∈ t_opened w) && bool_decide (x.2 = pid)) (map_to_list (p_feeds (t_procs w))).
Definition toy_wait_exit {A} (pid : Z) (a : A) : ST World (Fate A) := fun w =>
  if toy_running pid w then Some (Parked, w) else Some (Returned (Ok a), on_fam (bury pid) w).

#[global] Instance toy_procs : ProcHost World := {|
  p_pipe := scripted toy_pipe; p_fork c ps := scripted (toy_fork c ps); p_pidfd_open pid := scripted (toy_name pid);
  p_waitpid pid := toy_wait_exit pid tt;
  p_waitid fd := (fun w => toy_wait_exit (pid_at fd w) (mkSigInfo CLD_EXITED 0) w);
  p_waitid_nohang fd := (fun w => let pid := pid_at fd w in
    if toy_running pid w then Some (Done None, w) else Some (Done (Some (mkSigInfo CLD_EXITED 0)), on_fam (bury pid) w));
  p_read _ _ := (r <-- toy_read; st_ret (Returned (match r with Done d => Ok d | Errno e => Err (of_errno e) end)));
  p_await _ _ := (fun w => match t_waits w with O => Some (Parked, w) | S n => Some (Returned (Ok tt), set_waits n w) end);
  p_send_signal _ _ := scripted (st_ret tt);
  p_dupfd fd := (fun w => match toy_name (pid_at fd w) w with Some (d, w) => Some (Done d, w) | None => None end);
  p_instance := st_gets (fun w => p_keeper (t_procs w));
  p_set_instance r := st_modify (on_fam (kept_by r));
  p_epoll_create := (r <-- toy_new; st_ret (Done r));
  p_start_thread _ := st_ret true;
  p_epoll_add _ d := st_modify (on_fam (hand d));;; st_ret (Done tt) |}.

#[global] Instance toy_family : HostSpec World Family := toy_laws fam_of.

(** A script's error leaves a descriptor call without effect. *)
Lemma scripted_sys {A} (f : ST World A) w : exists w0, t_opened w0 = t_opened w /\ t_registered w0 = t_registered w /\ t_procs w0 = t_procs w /\ t_waits w0 = t_waits w /\
  ((exists e, scripted f w = Some (Errno e, w0)) \/ forall a w1, f w0 = Some (a, w1) -> scripted f w = Some (Done a, w1)).
Proof.
  destruct (scripted_run f w) as (w0 & A1 & A2 & A3 & A4 & [[e E]|E]); exists w0; (do 4 (split; [done|])); [left; by exists e|right].
  intros a w1 H. by rewrite E, H.
Qed.

Lemma toy_wait_exit_run {A} pid (a : A) w : exists r w', toy_wait_exit pid a w = Some (r, w') /\
  (opened w' = opened w /\ registered w' = registered w /\ patience w' <= patience w) /\
  match r with Returned (Ok b) => b = a /\ extra w' = bury pid (extra w) | Returned (Err _) => False | Parked => extra w' = extra w /\ toy_running pid w' = true end.
Proof. unfold toy_wait_exit. destruct (toy_running pid w) eqn:E; eexists _, _; (split; [done|]); by split_and!. Qed.

Lemma toy_new_run w : exists fd w', toy_new w = Some (fd, w') /\ (0 <= fd)%Z /\ fd ∉ t_opened w /\ w' = set_opened ({[fd]} ∪ t_opened w) w.
Proof. destruct (fresh_in_new (t_opened w)) as [H1 H2]. by eexists _, _. Qed.

Lemma toy_name_run pid w : exists fd w', toy_name pid w = Some (fd, w') /\ (0 <= fd)%Z /\ fd ∉ t_opened w /\ w' = on_fam (named fd pid) (set_opened ({[fd]} ∪ t_opened w) w).
Proof. destruct (fresh_in_new (t_opened w)) as [H1 H2]. by eexists _, _. Qed.

#[global] Instance toy_proc_spec : ProcSpec World.
Proof.
  refine {| running := fun w pid => toy_running pid w = true; silent := fun _ _ => False; may_lose := False |}.
  - intros w. cbn. destruct (scripted_sys toy_pipe w) as (w0 & Eo & Eg & Ex & Ew & [[e He]|He]).
    + rewrite He. eexists _, _. split; [done|]. split_and!; try done; [by rewrite Ex|lia].
    + erewrite He by done. eexists _, _. split; [done|]. cbn.
      destruct (fresh_in_new (t_opened w0)) as [A1 N1], (fresh_in_new ({[fresh_in (t_opened w0)]} ∪ t_opened w0)) as [A2 N2].
      apply not_elem_of_union in N2 as [N2 N3]. rewrite not_elem_of_singleton in N2. rewrite Eo in *. split_and!; try done; [by rewrite Ex|lia].
  - intros c ps w. cbn. destruct (scripted_sys (toy_fork c ps) w) as (w0 & Eo & Eg & Ex & Ew & [[e He]|He]).
    + rewrite He. eexists _, _. split; [done|]. split_and!; try done; [lia|by rewrite Ex].
    + erewrite He by done. eexists _, _. split; [done|]. rewrite Ex. destruct (fresh_in_new (p_children (t_procs w))) as [_ N].
      destruct (stdin_pipe c); cbn; rewrite ?Ex; (split; [split_and!; try done; lia|done]).
  - intros pid w. cbn. destruct (scripted_sys (toy_name pid) w) as (w0 & Eo & Eg & Ex & Ew & [[e He]|He]).
    + rewrite He. eexists _, _. split; [done|]. split_and!; try done; [lia|by rewrite Ex].
    + destruct (toy_name_run pid w0) as (fd & w1 & H1 & A & N & ->). rewrite (He _ _ H1). eexists _, _. split; [done|]. cbn. rewrite Ex, Eo in *.
      split_and!; try done. lia.
  - intros pid w. destruct (toy_wait_exit_run pid tt w) as (r & w' & Hr & Hk & Hx). exists r, w'. split; [done|]. split; [done|]. destruct r as [[[]|e]|]; [apply Hx|done|exact Hx].
  - intros fd w pid Hin Hn. cbn in Hn. change (p_waitid fd w) with (toy_wait_exit (pid_at fd w) (mkSigInfo CLD_EXITED 0) w). unfold pid_at. rewrite Hn. cbn [from_option]. unfold id.
    destruct (toy_wait_exit_run pid (mkSigInfo CLD_EXITED 0) w) as (r & w' & Hr & Hk & Hx). exists r, w'. split; [done|]. split; [done|].
    destruct r as [[i|e]|]; [destruct Hx as [-> Hx]; by split|done|by destruct Hx].
  - intros fd w pid Hin Hn. cbn in *. unfold pid_at. rewrite Hn. cbn [from_option]. unfold id. destruct (toy_running pid w); (eexists _, _; split; [done|]); (split; [split_and!; done|done]).
  - intros d dir w _. cbn. destruct (t_waits w) as [|k] eqn:Ek; (eexists _, _; split; [done|]); split_and!; try done; cbn; lia.
  - intros fd n w Hin. cbn. unfold st_bind, toy_read. destruct (t_waits w) as [|k] eqn:Ek; (eexists _, _; split; [done|]); cbn.
    + split; [split_and!; try done; lia|done].
    + split; [split_and!; try done; cbn; lia|]. intros _. lia.
  - intros fd w pid Hin Hn. cbn in Hn. unfold p_dupfd, toy_procs, pid_at. rewrite Hn. cbn [from_option]. unfold id. destruct (toy_name_run pid w) as (d & w1 & H1 & A & N & ->). rewrite H1.
    eexists _, _. split; [done|]. by split_and!.
  - intros w. by eexists.
  - intros r w. eexists. split; [done|]. by split_and!.
  - intros w. unfold p_epoll_create, toy_procs, st_bind. destruct (toy_new_run w) as (d & w1 & H1 & A & N & ->). rewrite H1. eexists _, _. split; [done|]. by split_and!.
  - intros e w. by eexists _, _.
  - intros e d w Hin Hk. eexists _, _. split; [done|]. by split_and!.
  - intros fd w Hn. cbn. unfold toy_close. destruct (scripted_run (st_ret tt) w) as (w0 & Eo & Eg & Ex & Ew & [[e He]|He]); rewrite He; cbn [st_ret];
      (rewrite decide_True by by rewrite Eo); (eexists _, _; split; [done|]); (split; [split_and!; cbn; [done|done|lia]|]); cbn; by rewrite Ex.
Defined.

Definition quiet_world (script : list Z) (waits : nat) : World := mkWorld ∅ ∅ script waits no_procs.
Definition echo : Command := mkCommand [47; 101]%Z [] None None None true true false.

(** A child with two pipes. *)
Example started_echo : match start 3 echo (quiet_world [] 1) with
  | Some (Returned (Ok ch), w) => pid_ ch = 0%Z /\ has (stdin_ ch) = true /\ has (stderr_ ch) = false /\ base.size (t_opened w) = 3
  | _ => False end.
Proof. by vm_compute. Qed.

(** When the pidfd cannot be opened [start] waits for the child while it holds the
    other end of the child's input: a child that reads to the end of its input
    never exits. *)
Example start_waits_for_reader : match start 3 echo (quiet_world [0; 0; 0; 0; 0; 0; 0; 0; 24]%Z 1) with
  | Some (Parked, w) => children (fam w) = {[0%Z]} /\ base.size (t_opened w) = 3
  | _ => False end.
Proof. by vm_compute. Qed.

(** Dropping a child that runs leaves the reaper with its epoll and a pidfd. *)
Example dropped_child_watched : match start 3 echo (quiet_world [] 1) with
  | Some (Returned (Ok ch), w) =>
      match child_destroy 3 ch w with
      | Some (_, w) => base.size (t_opened w) = 2 /\ base.size (handed (fam w)) = 1 /\ children (fam w) = {[0%Z]}
      | None => False
      end
  | _ => False end.
Proof. by vm_compute. Qed.

(** When the registration of the pidfd fails, [adopt] has closed it and [start]
    closes it again. *)
Example pidfd_closed_twice : match start 3 (mkCommand [47; 101]%Z [] None None None false false false) (quiet_world [0; 0; 0; 0; 0; 23]%Z 1) with
  | Some (Returned (Err _), w) => length (strays (fam w)) = 1 /\ t_opened w = ∅
  | _ => False end.
Proof. by vm_compute. Qed.

Lemma quiet_sound script waits : sound (acct (quiet_world script waits)).
Proof. intros d fd Hd. cbn in Hd. by rewrite lookup_empty in Hd. Qed.

Definition failing_world : World := quiet_world [0; 0; 0; 0; 0; 0; 0; 0; 0; 9]%Z 1.

Lemma children_accounted_witness :
  runs (start 3 echo) (fun r w' => match r with
    | Returned (Ok ch) => holds_child failing_world ch true w' /\ status_ ch = None /\
        has (stdin_ ch) = true /\ has (stdout_ ch) = true /\ has (stderr_ ch) = false
    | Returned (Err _) => start_restored failing_world w'
    | Parked => start_waits (acct failing_world) (fam failing_world) w'
    end) failing_world /\
  (forall ch w1, holds_child failing_world ch true w1 -> status_ ch = None ->
    runs (child_wait ch) (fun r w2 => match r.1 with
      | Returned (Ok st) => r.2 = with_status st ch /\ holds_child failing_world r.2 false w2 /\
          forall w3 : World, child_wait r.2 w3 = Some ((Returned (Ok st), r.2), w3)
      | _ => r.2 = ch /\ holds_child failing_world ch true w2 end) w1) /\
  (forall ch w1, holds_child failing_world ch (negb (waited ch)) w1 ->
    runs (child_destroy 3 ch) (fun _ w2 => restored failing_world w2 []) w1) /\
  runs (command_run 3 echo) (fun r w' => match r with
    | Returned _ => start_restored failing_world w'
    | Parked => start_waits (acct failing_world) (fam failing_world) w' \/ exists ch, holds_child failing_world ch true w'
    end) failing_world.
Proof.
  apply (children_accounted 3 echo failing_world); [apply quiet_sound|apply Nat.ltb_lt; reflexivity].
Defined.
