(* ===== verification/ProcIo.v ===== *)
(** * Reading a child's output, and reaping abandoned children (src/process.cpp)

    [Command::output] as a system of the child, its two pipes, the two readers
    and the task that joins them; the loop of [ChildReaper] on the descriptors of
    the process. *)

From S2P Require Import Prelude Result Bytes Sock Proc.
From stdpp Require Import functions list_relations list.

Set Default Proof Using "Type".

(** ** [Command::output] *)

Inductive Stream := Out | Errs.
#[global] Instance Stream_eq_dec : EqDecision Stream.
Proof. solve_decision. Defined.

(** [io::read_all]: reading with what it has, ended, or over the limit. *)
Inductive Draining := Reading (got : bytes) | Drained (got : bytes) | TooLong.

(** Where [output] is: in its own read of standard output, at [co_await
    err_task], at [wait], returned. *)
Inductive OutPc := OReadOut | OJoin | OWait | OReturned (r : Result (bytes * bytes)).

(** The child: the bytes it has still to write, in order, and whether it has
    exited. A pipe holds [cap] bytes. *)
Record OutSys := mkOut { todo : list (Stream * byte); pipe : Stream -> bytes; drain : Stream -> Draining; exited : bool; opc : OutPc }.

Section output.
Context (cap limit : nat).

Definition drained (d : Draining) : bool := match d with Reading _ => false | _ => true end.

(** One turn of [read_all] with [d] from the pipe. *)
Definition take_in (got d : bytes) : Draining := if decide (limit < length got + length d) then TooLong else Reading (got ++ d).

Definition collected (d : Draining) : Result bytes :=
  match d with Reading got | Drained got => Ok got | TooLong => Err (of_errno EMSGSIZE) end.

(** What [output] returns after the child's status. *)
Definition output_result (s : OutSys) : Result (bytes * bytes) :=
  match collected (drain s Out), collected (drain s Errs) with
  | Err e, _ => Err e
  | _, Err e => Err e
  | Ok o, Ok e => Ok (o, e)
  end.

Definition set_opc (p : OutPc) (s : OutSys) : OutSys := mkOut (todo s) (pipe s) (drain s) (exited s) p.

Inductive out_step : OutSys -> OutSys -> Prop :=
  | os_write x b l s : todo s = (x, b) :: l -> length (pipe s x) < cap ->
      out_step s (mkOut l (<[x := pipe s x ++ [b]]> (pipe s)) (drain s) (exited s) (opc s))
  | os_exit s : todo s = [] -> exited s = false -> out_step s (mkOut [] (pipe s) (drain s) true (opc s))
  | os_read x n got s : drain s x = Reading got -> 0 < n -> pipe s x <> [] ->
      out_step s (mkOut (todo s) (<[x := drop n (pipe s x)]> (pipe s)) (<[x := take_in got (take n (pipe s x))]> (drain s)) (exited s) (opc s))
  | os_eof x got s : drain s x = Reading got -> pipe s x = [] -> exited s = true ->
      out_step s (mkOut (todo s) (<[x := []]> (pipe s)) (<[x := Drained got]> (drain s)) (exited s) (opc s))
  | os_out s : opc s = OReadOut -> drained (drain s Out) = true -> out_step s (set_opc OJoin s)
  | os_join s : opc s = OJoin -> drained (drain s Errs) = true -> out_step s (set_opc OWait s)
  | os_wait s : opc s = OWait -> exited s = true -> out_step s (set_opc (OReturned (output_result s)) s).

Definition out_init (l : list (Stream * byte)) : OutSys := mkOut l (fun _ => []) (fun _ => Reading []) false OReadOut.

(** The bytes of a stream among those to write. *)
Definition of_stream (x : Stream) (l : list (Stream * byte)) : bytes := (filter (fun p : Stream * byte => p.1 = x) l).*2.
#[local] Arguments of_stream : simpl never.

Definition got_of (d : Draining) : bytes := match d with Reading got | Drained got => got | TooLong => [] end.

(** ** The invariant: nothing is lost or reordered *)

Record out_inv (l : list (Stream * byte)) (s : OutSys) : Prop := {
  oi_bytes x : drain s x <> TooLong -> got_of (drain s x) ++ pipe s x ++ of_stream x (todo s) = of_stream x l;
  oi_exited : exited s = true -> todo s = [];
  oi_drained x got : drain s x = Drained got -> exited s = true /\ pipe s x = [];
  oi_joined : opc s <> OReadOut -> drained (drain s Out) = true;
  oi_waited : opc s <> OReadOut -> opc s <> OJoin -> drained (drain s Errs) = true;
  oi_returned r : opc s = OReturned r -> exited s = true /\ r = output_result s;
  oi_room x : length (of_stream x l) <= limit -> drain s x <> TooLong }.

Lemma of_stream_cons x y b l : of_stream x ((y, b) :: l) = if decide (y = x) then b :: of_stream x l else of_stream x l.
Proof. unfold of_stream. rewrite filter_cons. cbn. by case_decide. Qed.

Lemma out_inv_init l : out_inv l (out_init l).
Proof. by split. Qed.

(** The moves of a reader leave the child, its other stream and [output] as
    they are; [output] is still waiting for that reader. *)
Lemma out_inv_drain l s x got p d :
  out_inv l s -> drain s x = Reading got ->
  (d <> TooLong -> got_of d ++ p = got ++ pipe s x) ->
  (forall g, d = Drained g -> exited s = true /\ p = []) ->
  (length (of_stream x l) <= limit -> d <> TooLong) ->
  out_inv l (mkOut (todo s) (<[x := p]> (pipe s)) (<[x := d]> (drain s)) (exited s) (opc s)).
Proof.
  intros [Hb He Hd Hj Hw Hr Hl] Hg Hp Hdd Hroom.
  assert (x = Out -> opc s = OReadOut) as Hpc1.
  { intros ->. destruct (opc s) eqn:E; [done|..]; assert (drained (drain s Out) = true) as Hf by (apply Hj; congruence); by rewrite Hg in Hf. }
  assert (x = Errs -> opc s = OReadOut \/ opc s = OJoin) as Hpc2.
  { intros ->. destruct (opc s) eqn:E; [by left|by right|..]; assert (drained (drain s Errs) = true) as Hf by (apply Hw; congruence); by rewrite Hg in Hf. }
  split; cbn; try done.
  - intros y. destruct (decide (y = x)) as [->|Hyx]; [|rewrite !fn_lookup_insert_ne by done; apply Hb].
    rewrite !fn_lookup_insert. intros Hy. rewrite app_assoc, Hp by done. rewrite <-app_assoc.
    specialize (Hb x). rewrite Hg in Hb. by apply Hb.
  - intros y g. destruct (decide (y = x)) as [->|Hyx]; [rewrite !fn_lookup_insert; apply Hdd|rewrite !fn_lookup_insert_ne by done; apply Hd].
  - intros Ho. rewrite fn_lookup_insert_ne; [by apply Hj|]. intros ->. by destruct Ho; apply Hpc1.
  - intros Ho Hjn. rewrite fn_lookup_insert_ne; [by apply Hw|]. intros ->. by destruct (Hpc2 eq_refl).
  - intros r Hor. destruct x; [rewrite Hpc1 in Hor by done; discriminate|destruct (Hpc2 eq_refl); congruence].
  - intros y Hy. destruct (decide (y = x)) as [->|Hyx]; [rewrite fn_lookup_insert; by apply Hroom|rewrite fn_lookup_insert_ne by done; by apply Hl].
Qed.

Lemma take_in_room l s x got d :
  out_inv l s -> drain s x = Reading got -> length d <= length (pipe s x) ->
  length (of_stream x l) <= limit -> take_in got d <> TooLong.
Proof.
  intros [Hb _ _ _ _ _ _] Hg Hd Hr. specialize (Hb x). rewrite Hg in Hb. specialize (Hb ltac:(done)).
  rewrite <-Hb, !length_app in Hr. cbn in Hr. unfold take_in. case_decide; [lia|done].
Qed.

(** Moves of [output] itself. *)
Lemma out_inv_pc l s p :
  out_inv l s ->
  (p <> OReadOut -> drained (drain s Out) = true) ->
  (p <> OReadOut -> p <> OJoin -> drained (drain s Errs) = true) ->
  (forall r, p = OReturned r -> exited s = true /\ r = output_result s) ->
  out_inv l (set_opc p s).
Proof. intros [Hb He Hd Hj Hw Hr Hl] H1 H2 H3. by split. Qed.

Lemma out_inv_step l s s' : out_inv l s -> out_step s s' -> out_inv l s'.
Proof.
  intros Hi Hs. destruct Hs as [x b m s Ht Hc|s Ht Hx|x n got s Hg Hn Hp|x got s Hg Hp Hx|s Hp Ho|s Hp Ho|s Hp Ho].
  - destruct Hi as [Hb He Hd Hj Hw Hr Hl]. assert (exited s = true -> False) as Hne by (intros Hx; specialize (He Hx); congruence).
    split; cbn; try done.
    + intros y Hy. rewrite <-(Hb y Hy), Ht, of_stream_cons. case_decide as Hxy; [subst; by rewrite fn_lookup_insert, <-app_assoc|by rewrite fn_lookup_insert_ne].
    + intros y g Hy. destruct (Hd y g Hy) as [Hx _]. by destruct Hne.
  - destruct Hi as [Hb He Hd Hj Hw Hr Hl]. split; cbn; try done; [intros y Hy; by rewrite <-(Hb y Hy), Ht|intros y g Hy; by destruct (Hd y g Hy)|].
    intros r Hr'. by destruct (Hr r Hr').
  - apply (out_inv_drain l s x got); [done|done|..].
    + unfold take_in. case_decide; [done|]. cbn. by rewrite <-app_assoc, take_drop.
    + unfold take_in. by case_decide.
    + intros Hroom. apply (take_in_room l s x); [done|done| |done]. rewrite length_take. lia.
  - apply (out_inv_drain l s x got); [done|done| |done|done]. by rewrite Hp.
  - apply out_inv_pc; [done|by intros|by intros|done].
  - apply out_inv_pc; [done| |by intros|done]. intros _. apply Hi. congruence.
  - apply out_inv_pc; [done|..].
    + intros _. apply Hi. congruence.
    + intros _ _. apply Hi; congruence.
    + intros r [= <-]. done.
Qed.

Lemma out_inv_reach l s : rtc out_step (out_init l) s -> out_inv l s.
Proof. intros Hr. pose proof (out_inv_init l) as Hi. induction Hr; [done|]. eauto using out_inv_step. Qed.

(** ** Every step works something off *)

Definition drain_work (d : Draining) : nat := if drained d then 0 else 1.

Definition pc_work (p : OutPc) : nat := match p with OReadOut => 3 | OJoin => 2 | OWait => 1 | OReturned _ => 0 end.

Definition stream_work (s : OutSys) (x : Stream) : nat := length (pipe s x) + drain_work (drain s x).

Definition out_work (s : OutSys) : nat :=
  2 * length (todo s) + stream_work s Out + stream_work s Errs + (if exited s then 0 else 1) + pc_work (opc s).

Lemma out_step_works s s' : out_step s s' -> out_work s' < out_work s.
Proof.
  assert (forall got d, drain_work (take_in got d) <= 1) as Hti by (intros got d; unfold take_in; by case_decide; cbn; lia).
  intros Hs. destruct Hs as [x b m s Ht Hc|s Ht Hx|x n got s Hg Hn Hp|x got s Hg Hp Hx|s Hp Ho|s Hp Ho|s Hp Ho];
    unfold out_work, stream_work; cbn; rewrite ?Ht, ?Hx, ?Ho; try rewrite Hp; cbn; try lia.
  - destruct x; rewrite fn_lookup_insert, fn_lookup_insert_ne, length_app by done; cbn; lia.
  - assert (0 < length (pipe s x)) by (destruct (pipe s x); [done|cbn; lia]).
    specialize (Hti got (take n (pipe s x))).
    destruct x; rewrite !fn_lookup_insert, !fn_lookup_insert_ne, Hg, length_drop by done; cbn; lia.
  - destruct x; rewrite !fn_lookup_insert, !fn_lookup_insert_ne, Hg by done; cbn; lia.
Qed.

Lemma out_step_sn s : sn out_step s.
Proof. apply (wf_projected lt out_work); [intros ??; apply out_step_works|apply lt_wf]. Qed.

Lemma reading_steps l s x got : out_inv l s -> drain s x = Reading got -> (pipe s x = [] -> exited s = true) -> red out_step s.
Proof.
  intros Hi Hg He. destruct (decide (pipe s x = [])) as [Hp|Hp]; eexists; [by apply (os_eof x got); auto|by apply (os_read x 1 got); auto; lia].
Qed.

Lemma stuck_returned l s :
  0 < cap -> (forall x, length (of_stream x l) <= limit) -> out_inv l s -> nf out_step s ->
  exited s = true /\ opc s = OReturned (output_result s) /\ (forall x, drain s x = Drained (of_stream x l)).
Proof.
  intros Hc Hroom Hi Hnf.
  assert (todo s = []) as Ht.
  { destruct (todo s) as [|[x b] m] eqn:Ht; [done|]. destruct Hnf.
    destruct (decide (length (pipe s x) < cap)); [eexists; by eapply os_write|].
    assert (pipe s x <> []) as Hp by (intros E; rewrite E in *; cbn in *; lia).
    destruct (drain s x) as [got|got|] eqn:Hg; [by apply (reading_steps l s x got)|..].
    - by destruct (oi_drained _ _ Hi x got Hg).
    - by destruct (oi_room _ _ Hi x (Hroom x)). }
  assert (exited s = true) as He.
  { destruct (exited s) eqn:He; [done|]. destruct Hnf. eexists. by apply os_exit. }
  assert (forall x, drain s x = Drained (of_stream x l)) as Hall.
  { intros x. pose proof (oi_bytes _ _ Hi x) as Hb. destruct (drain s x) as [got|got|] eqn:Hg; cbn in Hb.
    - destruct Hnf. by apply (reading_steps l s x got).
    - destruct (oi_drained _ _ Hi x got Hg) as [_ Hp]. rewrite <-Hb, Hp, Ht by done. cbn. by rewrite app_nil_r.
    - by destruct (oi_room _ _ Hi x (Hroom x)). }
  split_and!; [done| |done].
  destruct (opc s) eqn:Ho.
  - destruct Hnf. eexists. apply os_out; [done|by rewrite Hall].
  - destruct Hnf. eexists. apply os_join; [done|by rewrite Hall].
  - destruct Hnf. eexists. by apply os_wait.
  - by destruct (oi_returned _ _ Hi r Ho) as [_ ->].
Qed.

(** C40: [Command::output] drains both pipes of the child at once, so a child
    whose two streams each fit the limit never blocks it: whatever the child
    writes, in whatever order, and whatever the pipes hold, no run goes on for
    ever, and a run with nothing left to do has returned every byte of each
    stream, in order, with the child exited. *)
Theorem output_complete l :
  0 < cap -> (forall x, length (of_stream x l) <= limit) ->
  sn out_step (out_init l) /\
  forall s, rtc out_step (out_init l) s -> nf out_step s ->
  exited s = true /\ opc s = OReturned (Ok (of_stream Out l, of_stream Errs l)).
Proof.
  intros Hc Hroom. split; [apply out_step_sn|]. intros s Hr Hnf.
  destruct (stuck_returned l s Hc Hroom (out_inv_reach l s Hr) Hnf) as (He & Ho & Hd).
  split; [done|]. rewrite Ho. unfold output_result. by rewrite !Hd.
Qed.

(** ** A stream over the limit *)

Definition left_of (x : Stream) (s : OutSys) : nat := length (pipe s x) + length (of_stream x (todo s)).

(** A reader takes at most what it may keep and one more pipe. *)
Record over_inv (x : Stream) (n : nat) (s : OutSys) : Prop := {
  ov_pipe : length (pipe s x) <= cap;
  ov_left : n <= limit + cap + left_of x s;
  ov_got : drain s x <> TooLong -> length (got_of (drain s x)) <= limit /\ n = length (got_of (drain s x)) + left_of x s }.

Lemma over_inv_init x l : over_inv x (length (of_stream x l)) (out_init l).
Proof. split; unfold left_of; cbn; [lia|lia|intros _; lia]. Qed.

Lemma over_inv_step x n s s' : over_inv x n s -> out_step s s' -> over_inv x n s'.
Proof.
  intros [Hp Hl Hg] Hs. destruct Hs as [y b m s Ht Hc|s Ht Hx|y k got s Hd Hk Hne|y got s Hd He Hx|s Ho Hd|s Ho Hd|s Ho Hd]; unfold left_of in *;
    try (split; unfold left_of; cbn; rewrite ?Ht in *; cbn in *; done).
  - rewrite Ht, of_stream_cons in Hl, Hg. split; unfold left_of; cbn.
    + destruct (decide (x = y)) as [->|Hxy]; [rewrite fn_lookup_insert, length_app; cbn; lia|by rewrite fn_lookup_insert_ne].
    + destruct (decide (y = x)) as [->|Hxy]; [rewrite fn_lookup_insert, length_app; cbn in *; lia|by rewrite fn_lookup_insert_ne].
    + intros Hnt. specialize (Hg Hnt).
      destruct (decide (y = x)) as [->|Hxy]; [rewrite fn_lookup_insert, length_app; cbn in *; lia|by rewrite fn_lookup_insert_ne].
  - destruct (decide (x = y)) as [->|Hxy]; [|split; unfold left_of; cbn; by rewrite ?fn_lookup_insert_ne].
    rewrite Hd in Hg. cbn in Hg. destruct (Hg ltac:(done)) as [Hgl Hn].
    pose proof (length_take (pipe s y) k) as Htk. pose proof (length_drop (pipe s y) k) as Hdr.
    split; unfold left_of; cbn; rewrite !fn_lookup_insert; [lia|lia|].
    unfold take_in. case_decide; [done|]. cbn. rewrite length_app. lia.
  - destruct (decide (x = y)) as [->|Hxy]; [|split; unfold left_of; cbn; by rewrite ?fn_lookup_insert_ne].
    rewrite Hd in Hg. specialize (Hg ltac:(done)). rewrite He in *. cbn in *.
    split; unfold left_of; cbn; rewrite !fn_lookup_insert; cbn; [lia|lia|done].
Qed.

(** A stream longer than the limit and two pipes is never read out: the reader
    gives up and leaves the pipe full, so the child never exits, the other
    stream never ends, and [output] never returns the error it has. *)
Theorem output_hangs_over_limit l x s :
  limit + 2 * cap < length (of_stream x l) -> rtc out_step (out_init l) s ->
  exited s = false /\ (forall r, opc s <> OReturned r) /\ sn out_step s.
Proof.
  intros Hlong Hr. assert (over_inv x (length (of_stream x l)) s) as [Hp Hl _].
  { pose proof (over_inv_init x l) as Ho. induction Hr; [done|]. eauto using over_inv_step. }
  pose proof (out_inv_reach l s Hr) as Hi.
  assert (exited s = false) as He.
  { destruct (exited s) eqn:He; [|done]. pose proof (oi_exited _ _ Hi He) as Ht.
    unfold left_of in Hl. rewrite Ht in Hl. change (of_stream x []) with (@nil byte) in Hl. cbn in Hl. lia. }
  split_and!; [done| |apply out_step_sn]. intros r Ho. destruct (oi_returned _ _ Hi r Ho). congruence.
Qed.
End output.

(** One byte on each stream, in one-byte pipes. *)
Definition two_bytes : list (Stream * byte) := [(Errs, 7%Z); (Out, 8%Z)].

Lemma output_complete_witness :
  sn (out_step 1 4) (out_init two_bytes) /\
  forall s, rtc (out_step 1 4) (out_init two_bytes) s -> nf (out_step 1 4) s ->
  exited s = true /\ opc s = OReturned (Ok ([8%Z], [7%Z])).
Proof. apply (output_complete 1 4 two_bytes); [lia|]. intros []; vm_compute; lia. Defined.

(** ** Children nobody waited for

    [ChildReaper] on the descriptors of the process. An epoll entry belongs to
    a descriptor number and the open file it named when it was added; it goes
    when the last descriptor of that file is closed. *)
Module Reaper.
Inductive OpenFile := PidFile (p : nat) | OtherFile (n : nat).
#[export] Instance OpenFile_eq_dec : EqDecision OpenFile.
Proof. solve_decision. Defined.

(** The descriptors, the interest list of [epoll_fd_], the children that have
    exited and those reaped. *)
Record Reap := mkReap { table : gmap Z OpenFile; watched : list (Z * OpenFile); gone : gset nat; reaped : gset nat }.

(** [close]. *)
Definition shared (f : OpenFile) (t : gmap Z OpenFile) : bool := existsb (fun p : Z * OpenFile => bool_decide (p.2 = f)) (map_to_list t).

Definition close_no (fd : Z) (r : Reap) : Reap :=
  match table r !! fd with
  | None => r
  | Some f =>
      let t := delete fd (table r) in
      mkReap t (if shared f t then watched r else filter (fun p : Z * OpenFile => p.2 <> f) (watched r)) (gone r) (reaped r)
  end.

(** [adopt]: EPOLL_CTL_ADD refuses a closed descriptor and a second entry. *)
Definition reaper_adopt (fd : Z) (r : Reap) : bool * Reap :=
  match table r !! fd with
  | None => (false, r)
  | Some f => if decide ((fd, f) ∈ watched r) then (false, r) else (true, mkReap (table r) (watched r ++ [(fd, f)]) (gone r) (reaped r))
  end.

(** [waitid] with P_PIDFD and WEXITED: None while the child runs. *)
Definition wait_pidfd (fd : Z) (r : Reap) : option Reap :=
  match table r !! fd with
  | Some (PidFile p) => if decide (p ∈ gone r) then Some (mkReap (table r) (watched r) (gone r) ({[p]} ∪ reaped r)) else None
  | _ => Some r
  end.

(** One event of [run]. *)
Definition reap_event (fd : Z) (r : Reap) : option Reap := r ← wait_pidfd fd r; Some (close_no fd r).

(** The events [epoll_wait] has, at most 32; the pass over them. *)
Definition exited_file (r : Reap) (f : OpenFile) : bool := match f with PidFile p => bool_decide (p ∈ gone r) | OtherFile _ => false end.

Definition reaper_events (r : Reap) : list Z := take 32 (filter (fun p : Z * OpenFile => exited_file r p.2) (watched r)).*1.

Definition reaper_pass (r : Reap) : option Reap := foldl (fun acc fd => acc ≫= reap_event fd) (Some r) (reaper_events r).

(** The reaper owns what it watches: each entry still names its file, a child
    that no other descriptor of the process names. *)
Definition owned (r : Reap) : Prop :=
  NoDup (watched r) /\
  forall fd f, (fd, f) ∈ watched r -> table r !! fd = Some f /\ (exists p, f = PidFile p) /\ forall fd', table r !! fd' = Some f -> fd' = fd.

Lemma reap_event_owned r fd p :
  owned r -> (fd, PidFile p) ∈ watched r -> p ∈ gone r ->
  exists r', reap_event fd r = Some r' /\ owned r' /\ gone r' = gone r /\ table r' = delete fd (table r) /\
    reaped r' = {[p]} ∪ reaped r /\ forall e, e ∈ watched r' <-> e ∈ watched r /\ e.1 <> fd.
Proof.
  intros [Hnd Ho] Hw Hg. destruct (Ho _ _ Hw) as (Ht & _ & Hs). unfold reap_event, wait_pidfd. rewrite Ht. cbn.
  rewrite decide_True by done. eexists. split; [done|]. unfold close_no. cbn. rewrite Ht.
  assert (shared (PidFile p) (delete fd (table r)) = false) as ->.
  { apply not_true_iff_false. intros ([fd' f'] & Hin & Hf%bool_decide_eq_true)%existsb_exists. cbn in Hf. subst f'. apply list_elem_of_In in Hin. apply elem_of_map_to_list, lookup_delete_Some in Hin as [Hne Hin]. by destruct Hne; rewrite (Hs fd'). }
  assert (forall e, e ∈ watched r -> e.2 <> PidFile p <-> e.1 <> fd) as Heq.
  { intros [a f] He. cbn. destruct (Ho _ _ He) as (Hta & _ & Hsa). split; intros Hne ?; subst; [by rewrite Ht in Hta; simplify_eq|by rewrite (Hs a) in Hne]. }
  split_and!; [|done|done|done|].
  - split; cbn; [by apply NoDup_filter|]. intros a f Ha. apply list_elem_of_filter in Ha as [Hne Ha]. destruct (Ho _ _ Ha) as (Hta & Hp & Hsa).
    split_and!; [|done|].
    + rewrite lookup_delete_ne; [done|]. intros <-. cbn in Hne. congruence.
    + intros fd' Hl. apply lookup_delete_Some in Hl as [_ Hl]. by apply Hsa.
  - intros e. cbn. rewrite list_elem_of_filter. naive_solver.
Qed.

Lemma reap_events_owned l r :
  owned r -> NoDup l -> (forall fd, fd ∈ l -> exists p, (fd, PidFile p) ∈ watched r /\ p ∈ gone r) ->
  exists r', foldl (fun acc fd => acc ≫= reap_event fd) (Some r) l = Some r' /\ owned r' /\ gone r' = gone r /\
    (forall fd, table r' !! fd = if decide (fd ∈ l) then None else table r !! fd) /\
    (forall p, p ∈ reaped r' <-> p ∈ reaped r \/ exists fd, fd ∈ l /\ (fd, PidFile p) ∈ watched r) /\
    (forall e, e ∈ watched r' <-> e ∈ watched r /\ e.1 ∉ l).
Proof.
  revert r. induction l as [|fd l IH]; intros r Ho Hnd Hl.
  { exists r. cbn. split_and!; [done|done|done|..]; [|set_solver|set_solver]. intros fd. rewrite decide_False; [done|set_solver]. }
  apply NoDup_cons in Hnd as [Hfd Hnd]. destruct (Hl fd ltac:(set_solver)) as (p & Hw & Hg).
  destruct (reap_event_owned r fd p Ho Hw Hg) as (r1 & E1 & Ho1 & Hg1 & Ht1 & Hr1 & Hw1).
  destruct (IH r1 Ho1 Hnd) as (r' & E & Ho' & Hg' & Ht' & Hr' & Hw').
  { intros fd' Hin. destruct (Hl fd') as (p' & Hw'' & Hg''); [set_solver|]. exists p'. rewrite Hg1, Hw1. split_and!; [done| |done]. cbn. set_solver. }
  exists r'. cbn [foldl]. cbn. rewrite E1. split_and!; [done|done|by rewrite Hg', Hg1|..].
  - intros fd'. rewrite Ht', Ht1. destruct (decide (fd' = fd)) as [->|Hne]; [rewrite decide_False by done; rewrite lookup_delete_eq; by rewrite decide_True by set_solver|].
    rewrite lookup_delete_ne by done. repeat case_decide; set_solver.
  - intros q. rewrite Hr', Hr1. destruct (proj2 Ho _ _ Hw) as (Htp & _ & Hs). split.
    + intros [Hq|(fd' & Hin & Hq)]; [|apply Hw1 in Hq as [Hq _]; right; exists fd'; set_solver].
      apply elem_of_union in Hq as [->%elem_of_singleton|Hq]; [right; exists fd; set_solver|by left].
    + intros [Hq|(fd' & Hin & Hq)]; [left; set_solver|]. apply elem_of_cons in Hin as [->|Hin].
      * left. destruct (proj2 Ho _ _ Hq) as (Htq & _). rewrite Htq in Htp. simplify_eq. set_solver.
      * right. exists fd'. split; [done|]. apply Hw1. cbn. set_solver.
  - intros e. rewrite Hw', Hw1. set_solver.
Qed.

(** A pass over children the reaper owns never blocks: it reaps and closes
    exactly those it was told of, and the other descriptors and the other
    children are as before. *)
Theorem reaper_pass_exact r :
  owned r ->
  exists r', reaper_pass r = Some r' /\ owned r' /\
    (forall fd, table r' !! fd = if decide (fd ∈ reaper_events r) then None else table r !! fd) /\
    (forall p, p ∈ reaped r' <-> p ∈ reaped r \/ exists fd, fd ∈ reaper_events r /\ (fd, PidFile p) ∈ watched r) /\
    (forall e, e ∈ watched r' <-> e ∈ watched r /\ e.1 ∉ reaper_events r).
Proof.
  intros Ho. destruct (reap_events_owned (reaper_events r) r Ho) as (r' & E & Ho' & _ & Hrest); [| |by exists r'].
  - unfold reaper_events. eapply sublist_NoDup; [|apply sublist_take]. apply NoDup_fmap_fst.
    + intros a f f' Hf Hf'. apply list_elem_of_filter in Hf as [_ Hf], Hf' as [_ Hf'].
      destruct (proj2 Ho _ _ Hf) as [Ha _], (proj2 Ho _ _ Hf') as [Ha' _]. congruence.
    + apply NoDup_filter, Ho.
  - intros fd Hin. unfold reaper_events in Hin.
    apply elem_of_take in Hin as (i & Hin%list_elem_of_lookup_2 & _).
    apply list_elem_of_fmap in Hin as ([a f] & -> & Hf). apply list_elem_of_filter in Hf as [Hx Hf].
    destruct (proj2 Ho _ _ Hf) as (_ & (p & ->) & _). exists p. split; [done|]. cbn in Hx. by apply bool_decide_unpack in Hx.
Qed.

(** While the child's own descriptor (10) is open the entry of the duplicate
    (11) outlives its close: the event is there again, and the second pass
    closes whatever was opened as 11 in between. *)
Definition source_open : Reap := mkReap {[10%Z := PidFile 0; 11%Z := PidFile 0]} [] {[0]} ∅.

Example reaper_closes_reused_number :
  let '(_, r) := reaper_adopt 11 source_open in
  exists r1, reaper_pass r = Some r1 /\ table r1 !! 11%Z = None /\ reaper_events r1 = [11%Z] /\
  exists r2, reaper_pass (mkReap (<[11%Z := OtherFile 5]> (table r1)) (watched r1) (gone r1) (reaped r1)) = Some r2 /\ table r2 !! 11%Z = None.
Proof. cbn. eexists. split; [vm_compute; reflexivity|]. split; [reflexivity|]. split; [reflexivity|]. eexists. split; [vm_compute; reflexivity|reflexivity]. Qed.
End Reaper.
