(* ===== verification/Signal.v ===== *)
(** * Signals received through a descriptor (src/signal.cpp)

    [block] and [SignalSet] over the kernel's sets of signals and the socket
    layer. A set of signals is the list of its numbers. *)

From S2P Require Import Prelude Result Bytes Net Sock Wp SockLife Proc.

Set Default Proof Using "Type".

(** The signal calls of the kernel and of libc. *)
Class SignalHost (W : Type) := {
  s_valid : Z -> bool;                           (* sigaddset accepts the number *)
  s_blocked : W -> Z -> bool;                    (* the thread's mask *)
  s_sigmask : list Z -> ST W (Sys unit);         (* pthread_sigmask, SIG_BLOCK *)
  s_signalfd : list Z -> ST W (Sys Z) }.

Definition siginfo_size : nat := 128.

Section signals.
Context {W : Type} `{Host W} `{SignalHost W}.

(** [make_set], and the errors of [sigaddset]. *)
Definition make_set (signals : list Z) : Result (list Z) := if forallb s_valid signals then Ok signals else Err (of_errno EINVAL).

Definition st_lift {A} (r : Result A) : ST W (Result A) := st_ret r.

Definition block (signals : list Z) : ST W (Result unit) :=
  mask <-? st_lift (make_set signals);
  host (s_sigmask mask).

(** Every signal is blocked in this thread. *)
Definition all_blocked (signals : list Z) : ST W (Result unit) := fun w =>
  Some (if forallb (s_blocked w) signals then Ok tt else Err (of_errc broken), w).

Definition subscribe (signals : list Z) : ST W (Result Socket) :=
  if decide (signals = []) then st_err (of_errno EINVAL)
  else
    mask <-? st_lift (make_set signals);
    all_blocked signals;;?
    fd <-? host (s_signalfd mask);
    adopt fd true.

(** The loop of [recv]; [ssi_signo] is the first word of the record. *)
Fixpoint recv_loop (fuel : nat) (s : Socket) : ST W (Result Z) :=
  match fuel with
  | O => st_fail
  | S fuel =>
      n <-- h_read (fd_ s) siginfo_size;
      match n with
      | Done d => if decide (length d = siginfo_size) then st_ok (int_of (take 4 d)) else st_err (of_errno EIO)
      | Errno e =>
          if decide (e <> EAGAIN /\ e <> EINTR) then st_err (of_errno e)
          else if decide (e <> EINTR) then wait_on s kRead;;? recv_loop fuel s
          else recv_loop fuel s
      end
  end.

Definition signal_recv (fuel : nat) (s : Socket) : ST W (Result Z) :=
  if negb (valid_socket s) then st_err (of_errno EBADF) else recv_loop fuel s.
End signals.

(** ** What is relied on *)

(** The signals a descriptor is for, and those that are pending. A read takes
    one of both, or reports that there is none; signals arrive at any time.
    [calm] bounds the interruptions and the wake-ups without a signal. *)
Class SignalSpec (W : Type) `{Host W} `{SignalHost W} := {
  masks : W -> gmap Z (gset Z);
  pending : W -> gset Z;
  calm : W -> nat;
  due (fd : Z) (w : W) : gset Z := default ∅ (masks w !! fd) ∩ pending w;
  sig_read_spec fd w : is_Some (masks w !! fd) -> exists r w', h_read fd siginfo_size w = Some (r, w') /\ masks w' = masks w /\
    match r with
    | Done d => length d = siginfo_size /\ int_of (take 4 d) ∈ due fd w /\ pending w ∖ {[int_of (take 4 d)]} ⊆ pending w'
    | Errno e => pending w ⊆ pending w' /\ calm w' <= calm w /\ (e = EAGAIN -> due fd w = ∅) /\ (e = EINTR -> calm w' < calm w)
    end;
  sig_wait_spec d w : exists r w', h_wait d kRead w = Some (r, w') /\ masks w' = masks w /\ pending w ⊆ pending w' /\
    (has_value r = true -> calm w' < calm w) }.

Section received.
Context {W : Type} `{HW : Host W} `{SW : SignalHost W} {SS : SignalSpec W}.

(** What [recv] may end in. *)
Definition received (fd : Z) (w : W) (r : Result Z) (w' : W) : Prop :=
  masks w' = masks w /\
  match r with
  | Ok n => n ∈ default ∅ (masks w !! fd) /\ pending w ∖ {[n]} ⊆ pending w'
  | Err _ => pending w ⊆ pending w'
  end.

Lemma received_later fd w w1 r w' : masks w1 = masks w -> pending w ⊆ pending w1 -> received fd w1 r w' -> received fd w r w'.
Proof. intros Hm Hp [Hm' Hr]. split; [congruence|]. destruct r as [n|e]; [|set_solver]. rewrite <-Hm. destruct Hr as [Hn Hr]. split; [done|set_solver]. Qed.

Lemma recv_loop_received fuel s d : forall w, desc_ s = Some d -> (0 <= fd_ s)%Z -> is_Some (masks w !! fd_ s) -> calm w < fuel ->
  runs (recv_loop fuel s) (received (fd_ s) w) w.
Proof.
  induction fuel as [|fuel IH]; intros w Hd Hfd Hm Hf; [lia|]. cbn [recv_loop]. apply runs_bind.
  destruct (sig_read_spec (fd_ s) w Hm) as (r & w1 & Hr & Hm1 & Hx). exists r, w1. split; [done|]. destruct r as [b|e].
  - destruct Hx as (Hl & Hin & Hp). rewrite decide_True by done. apply runs_ret. split; [done|]. split; [|done]. unfold due in Hin. set_solver.
  - destruct Hx as (Hp & Hc & _ & Hi). case_decide; [apply runs_ret; by split|]. case_decide as Hne.
    + apply runs_try. unfold wait_on. rewrite Hd. destruct (sig_wait_spec d w1) as (r2 & w2 & Hr2 & Hm2 & Hp2 & Hc2).
      exists r2, w2. split; [done|]. destruct r2 as [[]|e2]; cbn.
      * eapply runs_mono; [apply IH; [done|done|by rewrite Hm2, Hm1|specialize (Hc2 eq_refl); lia]|].
        intros r3 w3 H3. eapply received_later; [| |exact H3]; [congruence|set_solver].
      * split; [congruence|set_solver].
    + eapply runs_mono; [apply IH; [done|done|by rewrite Hm1|specialize (Hi Hne); lia]|].
      intros r3 w3 H3. by eapply received_later; [| |exact H3].
Qed.

(** [recv] ends; what it returns is a signal of the set, taken from those
    pending, and no other signal is lost, nor is any on an error. *)
Theorem signals_received fuel s d w : desc_ s = Some d -> is_Some (masks w !! fd_ s) -> calm w < fuel ->
  runs (signal_recv fuel s) (received (fd_ s) w) w.
Proof.
  intros Hd Hm Hf. unfold signal_recv. destruct (valid_socket s) eqn:Hv; cbn [negb]; [|apply runs_ret; by split].
  apply bool_decide_eq_true in Hv. by eapply recv_loop_received.
Qed.
End received.

(** ** Subscriptions *)

Section subscribed.
Context {W E : Type} `{HW : Host W} {HS : HostSpec W E} `{SW : SignalHost W}.

(** The descriptor [signalfd] gives is like any other. *)
Class SignalfdSpec := {
  signalfd_spec l w : exists r w', s_signalfd l w = Some (r, w') /\ registered w' = registered w /\ extra w' = extra w /\ patience w' <= patience w /\
    match r with Done fd => (0 <= fd)%Z /\ fd ∉ opened w /\ opened w' = {[fd]} ∪ opened w | Errno e => opened w' = opened w end }.
Context {FS : SignalfdSpec}.

(** [subscribe] succeeds only on signals that exist and that this thread
    blocks, and then owns one registered descriptor; otherwise nothing is left,
    and a signal that is not blocked is [broken]. *)
Theorem subscribe_checks signals w : sound (acct w) ->
  runs (subscribe signals) (fun r w' => made (acct w) r w' /\
    match r with
    | Ok _ => signals <> [] /\ Forall (fun n => s_valid n = true /\ s_blocked w n = true) signals
    | Err e => signals <> [] -> forallb s_valid signals = true -> forallb (s_blocked w) signals = false -> e = of_errc broken
    end) w.
Proof using FS.
  intros Hs. unfold subscribe. case_decide as Hne; [apply runs_ret; split; [by apply settled_acct|done]|].
  apply runs_try. unfold make_set, st_lift. destruct (forallb s_valid signals) eqn:Hv; (eexists _, _; split; [done|]); cbn; [|split; [by apply settled_acct|done]].
  apply runs_try. unfold all_blocked. eexists _, _. split; [done|]. destruct (forallb (s_blocked w) signals) eqn:Hb; cbn; [|split; [by apply settled_acct|done]].
  apply runs_try. unfold host. apply runs_bind. destruct (signalfd_spec signals w) as (r & w1 & Hr & Hg & Hx & Hp & Ho). exists r, w1. split; [done|].
  destruct r as [fd|e]; apply runs_ret; cbn.
  - destruct Ho as (H0 & Hn & Ho). eapply runs_mono; [apply (adopt_run (acct w)); [done|by split_and!]|].
    intros [s|e] w2 [Hm _]; (split; [done|]); [|done]. split; [done|]. apply Forall_forall. intros n Hn'.
    rewrite forallb_forall in Hv, Hb. split; [apply Hv|apply Hb]; by apply list_elem_of_In.
  - split; [by split_and!|done].
Qed.
End subscribed.
