(* ===== verification/Deadline.v ===== *)
(** * Deadlines of a descriptor (src/reactor_common.cpp, include/cio/detail/reactor.hpp)

    One direction of one slab node: its absolute deadline, the two sequence
    numbers, the timer, the tasks that set the deadline, the timer's callback,
    the waiter in the slot and the socket that attaches and detaches. A section
    of the lifecycle lock is one step. *)

From S2P Require Import Prelude Result Reactor.

Set Default Proof Using "Type".

(** Where a setter that holds [deadline_update_mutex] is: before [disarm], and
    before its second section of the lock. It has a reference on the node. *)
Inductive SetPc := SDisarm (g v : Z) | SCommit (g v : Z).

(** [armed] is the timer in its heap, with [seq] and [deadline_ns]; [firing] the
    callback that the timer service has started and that has not had the lock
    yet. [settings] counts the deadlines of this incarnation. *)
Record Expiry := mkExpiry {
  clock : Z;
  dl_generation : Z;
  dl_closing : bool;
  stopping : bool;
  absolute_deadline_ns : Z;
  deadline_seq : Z;
  expired_seq : Z;
  armed : option (Z * Z);
  firing : option Z;
  setter : option SetPc;
  dl_slot : Slot;
  settings : Z }.

(** A node just attached. *)
Definition dl_attach (x : Expiry) : Expiry :=
  mkExpiry (clock x) (dl_generation x) false (stopping x) 0 1 0 None None None Idle 0.

Definition expired_mark (x : Expiry) : bool := bool_decide (expired_seq x = deadline_seq x).

Definition timed_out_at (x : Expiry) : bool :=
  if decide (absolute_deadline_ns x = 0%Z) then false
  else if decide (absolute_deadline_ns x <= clock x)%Z then true
  else expired_mark x.

(** [io_error], cancellation apart. *)
Definition dl_error (g : Z) (x : Expiry) : option Error :=
  if decide (dl_generation x <> g \/ dl_closing x = true) then Some (of_errc closed)
  else if stopping x then Some (of_errc shutdown)
  else if timed_out_at x then Some (of_errc timed_out) else None.

(** [unblock]: the waiter it takes. *)
Definition dl_unblock (x : Expiry) : option nat * Expiry :=
  let with_slot v := mkExpiry (clock x) (dl_generation x) (dl_closing x) (stopping x) (absolute_deadline_ns x) (deadline_seq x) (expired_seq x) (armed x) (firing x) (setter x) v (settings x) in
  match dl_slot x with
  | IoReady => (None, x)
  | Idle => (None, with_slot IoReady)
  | Waiting t => (Some t, with_slot Idle)
  end.

Definition set_expired (q : Z) (x : Expiry) : Expiry :=
  mkExpiry (clock x) (dl_generation x) (dl_closing x) (stopping x) (absolute_deadline_ns x) (deadline_seq x) q (armed x) (firing x) (setter x) (dl_slot x) (settings x).
Definition set_timer (a : option (Z * Z)) (f : option Z) (x : Expiry) : Expiry :=
  mkExpiry (clock x) (dl_generation x) (dl_closing x) (stopping x) (absolute_deadline_ns x) (deadline_seq x) (expired_seq x) a f (setter x) (dl_slot x) (settings x).
Definition set_setter (p : option SetPc) (x : Expiry) : Expiry :=
  mkExpiry (clock x) (dl_generation x) (dl_closing x) (stopping x) (absolute_deadline_ns x) (deadline_seq x) (expired_seq x) (armed x) (firing x) p (dl_slot x) (settings x).
(** [absolute_deadline_ns := v], [deadline_seq] one further. *)
Definition configure_deadline (v : Z) (x : Expiry) : Expiry :=
  mkExpiry (clock x) (dl_generation x) (dl_closing x) (stopping x) v (u32 (deadline_seq x + 1)) (expired_seq x) (armed x) (firing x) (setter x) (dl_slot x) (settings x + 1).

(** [on_deadline] of a timer stamped [q]. *)
Definition on_deadline (q : Z) (x : Expiry) : option nat * Expiry :=
  if decide (dl_closing x = false /\ q = deadline_seq x) then dl_unblock (set_expired q x) else (None, x).

(** The checks of [set_deadline]: an incarnation that is gone, or the end of
    the runtime. *)
Definition may_set (g : Z) (x : Expiry) : bool := bool_decide (dl_generation x = g /\ dl_closing x = false /\ stopping x = false).

(** Its second section. *)
Definition commit (v : Z) (x : Expiry) : option nat * Expiry :=
  let x1 := configure_deadline v x in
  if decide (v = 0%Z) then (None, x1)
  else if decide (v <= clock x)%Z then dl_unblock (set_expired (deadline_seq x1) x1)
  else (None, set_timer (Some (deadline_seq x1, v)) (firing x1) x1).

(** A step, with the waiter it wakes and the error that one gets. *)
Abbreviation Wake := (option (nat * option Error)).
Definition wakes (e : option Error) (p : option nat * Expiry) : Wake := (fun t => (t, e)) <$> p.1.

Inductive dl_step : Expiry -> Wake -> Expiry -> Prop :=
  | ds_tick n x : (clock x <= n)%Z ->
      dl_step x None (mkExpiry n (dl_generation x) (dl_closing x) (stopping x) (absolute_deadline_ns x) (deadline_seq x) (expired_seq x) (armed x) (firing x) (setter x) (dl_slot x) (settings x))
  | ds_stop x :
      dl_step x None (mkExpiry (clock x) (dl_generation x) (dl_closing x) true (absolute_deadline_ns x) (deadline_seq x) (expired_seq x) (armed x) (firing x) (setter x) (dl_slot x) (settings x))
  (* the timer service *)
  | ds_fire q v x : armed x = Some (q, v) -> (v <= clock x)%Z -> firing x = None -> dl_step x None (set_timer None (Some q) x)
  | ds_callback q x : firing x = Some q ->
      let r := on_deadline q (set_timer (armed x) None x) in dl_step x (wakes (Some (of_errc timed_out)) r) r.2
  (* set_deadline *)
  | ds_set g v x : setter x = None -> may_set g x = true -> dl_step x None (set_setter (Some (SDisarm g v)) x)
  | ds_disarm g v x : setter x = Some (SDisarm g v) -> firing x = None -> dl_step x None (set_setter (Some (SCommit g v)) (set_timer None None x))
  | ds_commit g v x : setter x = Some (SCommit g v) -> may_set g x = true ->
      let r := commit v (set_setter None x) in dl_step x (wakes (Some (of_errc timed_out)) r) r.2
  | ds_give_up g v x : setter x = Some (SCommit g v) -> may_set g x = false -> dl_step x None (set_setter None x)
  (* await_suspend, and readiness *)
  | ds_park g t x : dl_error g x = None -> dl_slot x = Idle ->
      dl_step x None (mkExpiry (clock x) (dl_generation x) (dl_closing x) (stopping x) (absolute_deadline_ns x) (deadline_seq x) (expired_seq x) (armed x) (firing x) (setter x) (Waiting t) (settings x))
  | ds_consume g x : dl_error g x = None -> dl_slot x = IoReady ->
      dl_step x None (mkExpiry (clock x) (dl_generation x) (dl_closing x) (stopping x) (absolute_deadline_ns x) (deadline_seq x) (expired_seq x) (armed x) (firing x) (setter x) Idle (settings x))
  | ds_ready x : let r := dl_unblock x in dl_step x (wakes None r) r.2
  (* close: closing; disarm and the sequence; the waiter; the node is free and attached again *)
  | ds_close x : dl_closing x = false ->
      dl_step x None (mkExpiry (clock x) (dl_generation x) true (stopping x) (absolute_deadline_ns x) (deadline_seq x) (expired_seq x) (armed x) (firing x) (setter x) (dl_slot x) (settings x))
  | ds_detach x : dl_closing x = true -> firing x = None -> dl_step x None (configure_deadline (absolute_deadline_ns x) (set_timer None None x))
  | ds_unblock_closed x : dl_closing x = true -> let r := dl_unblock x in dl_step x (wakes (Some (of_errc closed)) r) r.2
  | ds_reuse x : dl_closing x = true -> firing x = None -> armed x = None -> setter x = None -> (forall t, dl_slot x <> Waiting t) ->
      dl_step x None (dl_attach (mkExpiry (clock x) (u32 (dl_generation x + 1)) true (stopping x) (absolute_deadline_ns x) (deadline_seq x) (expired_seq x) None None None Idle (settings x))).

(** ** The invariant *)

(** The sequence has not come round within the incarnation. *)
Definition fresh_seq (x : Expiry) : Prop := (settings x < 2 ^ 32 - 1)%Z.

Record DlInv (x : Expiry) : Prop := {
  dl_count : (0 <= settings x)%Z /\ deadline_seq x = (1 + settings x)%Z;
  dl_stamp : (0 <= expired_seq x <= deadline_seq x)%Z;
  dl_armed : forall q v, armed x = Some (q, v) -> q = deadline_seq x /\ v = absolute_deadline_ns x /\ v <> 0%Z /\ firing x = None;
  dl_firing : forall q, firing x = Some q -> q = deadline_seq x /\ absolute_deadline_ns x <> 0%Z /\ (absolute_deadline_ns x <= clock x)%Z;
  dl_expired : expired_seq x = deadline_seq x -> absolute_deadline_ns x <> 0%Z /\ (absolute_deadline_ns x <= clock x)%Z;
  dl_held : forall g v, setter x = Some (SCommit g v) -> armed x = None /\ firing x = None;
  dl_setter : forall g v, setter x = Some (SDisarm g v) \/ setter x = Some (SCommit g v) -> g = dl_generation x;
  dl_parked : forall t, dl_slot x = Waiting t -> expired_seq x <> deadline_seq x;
  dl_live : dl_closing x = false -> stopping x = false -> absolute_deadline_ns x <> 0%Z -> (forall g v, setter x <> Some (SCommit g v)) ->
    armed x = Some (deadline_seq x, absolute_deadline_ns x) \/ firing x = Some (deadline_seq x) \/ expired_seq x = deadline_seq x }.

Lemma DlInv_attach x : DlInv (dl_attach x).
Proof. split; cbn; try done; try lia; naive_solver. Qed.

Lemma unblock_spec x : exists v, (forall t, v <> Waiting t) /\
  (dl_unblock x).2 = mkExpiry (clock x) (dl_generation x) (dl_closing x) (stopping x) (absolute_deadline_ns x) (deadline_seq x) (expired_seq x) (armed x) (firing x) (setter x) v (settings x).
Proof. unfold dl_unblock. destruct x as [? ? ? ? ? ? ? ? ? ? sl ?]; cbn. destruct sl; cbn; (eexists; split; [|reflexivity]); done. Qed.

Lemma DlInv_unblock x : DlInv x -> DlInv (dl_unblock x).2.
Proof.
  destruct (unblock_spec x) as (v & Hv & ->). intros [Hc Hs Ha Hf He Hh Hg Hp Hl]. split; cbn in *; try done.
  intros t ->. by destruct (Hv t).
Qed.

(** Stamping the deadline that has passed, and waking who waits for it. *)
Lemma DlInv_expire x :
  DlInv x ->
  absolute_deadline_ns x <> 0%Z -> (absolute_deadline_ns x <= clock x)%Z -> DlInv (dl_unblock (set_expired (deadline_seq x) x)).2.
Proof.
  intros [Hc Hs Ha Hf He Hh Hg Hp Hl] Hne Hle. destruct (unblock_spec (set_expired (deadline_seq x) x)) as (v & Hv & ->).
  split; cbn in *; try done; [lia| |by auto]. intros t ->. by destruct (Hv t).
Qed.

Lemma configure_fresh v x : fresh_seq (configure_deadline v x) -> DlInv x -> deadline_seq (configure_deadline v x) = (2 + settings x)%Z.
Proof. unfold fresh_seq. cbn. intros Hf Hi. destruct (dl_count _ Hi) as [Hn ->]. rewrite wrap_small; [lia|]. split; lia. Qed.

(** A new configuration, with the timer disarmed. *)
Lemma DlInv_configure v x : DlInv x -> fresh_seq (configure_deadline v x) -> armed x = None -> firing x = None ->
  (dl_closing x = true \/ v = 0%Z \/ exists g u, setter x = Some (SCommit g u)) -> DlInv (configure_deadline v x).
Proof.
  intros Hi Hf Ha Hfi Hc. pose proof (configure_fresh v x Hf Hi) as Hq. cbn in Hq.
  destruct Hi as [[Hn Hd] Hs _ _ He Hh Hg Hp Hl]. split; cbn; rewrite ?Hq, ?Ha, ?Hfi; try done; try lia.
  intros Hcl _ Hv Hset. destruct Hc as [?|[->|(g & u & Hu)]]; [congruence|done|by destruct (Hset g u)].
Qed.

Lemma DlInv_commit v x : DlInv x -> fresh_seq (configure_deadline v x) -> armed x = None -> firing x = None -> DlInv (commit v (set_setter None x)).2.
Proof.
  intros Hi Hf Ha Hfi. unfold commit. pose proof (configure_fresh v x Hf Hi) as Hq. cbn in Hq.
  destruct Hi as [[Hn Hd] Hs _ _ He Hh Hg Hp Hl]. case_decide as Hv; [|case_decide as Hle].
  - split; cbn; rewrite ?Hq, ?Ha, ?Hfi; try done; try lia. naive_solver.
  - destruct (unblock_spec (set_expired (deadline_seq (configure_deadline v (set_setter None x))) (configure_deadline v (set_setter None x)))) as (sl & Hsl & ->).
    split; cbn; rewrite ?Hq, ?Ha, ?Hfi; try done; try lia; [naive_solver|]. intros t ->. by destruct (Hsl t).
  - split; cbn; rewrite ?Hq, ?Ha, ?Hfi; try done; try lia. all: naive_solver.
Qed.

Lemma commit_settings v x : settings (commit v x).2 = (settings x + 1)%Z.
Proof. unfold commit, dl_unblock. repeat case_decide; cbn; [done| |done]. by destruct (dl_slot x). Qed.

Lemma DlInv_step x w y : DlInv x -> dl_step x w y -> fresh_seq y -> DlInv y.
Proof.
  intros Hi Hs Hf. destruct Hs as [n x Hn|x|q v x Ha Hv Hfi|q x Hfi|g v x Hn Hm|g v x Hp Hfi|g v x Hp Hm|g v x Hp Hm|g t x He Hsl|g x He Hsl|x|x Hc|x Hc Hfi|x Hc|x Hc Hfi Ha Hs Hsl].
  - destruct Hi as [Jc Jst Jar Jfr Je Jh Jg Jp Jl]. split; cbn; try done.
    + intros q Hq. destruct (Jfr q Hq) as (? & ? & ?). split_and!; [done|done|lia].
    + intros Hx. destruct (Je Hx). split; [done|lia].
  - destruct Hi as [Jc Jst Jar Jfr Je Jh Jg Jp Jl]. by split; cbn.
  - destruct Hi as [Jc Jst Jar Jfr Je Jh Jg Jp Jl]. destruct (Jar _ _ Ha) as (-> & -> & Hz & _). split; cbn; try done; [naive_solver|naive_solver|].
    intros; by right; left.
  - subst r. destruct Hi as [Jc Jst Jar Jfr Je Jh Jg Jp Jl]. destruct (Jfr _ Hfi) as (-> & Hz & Hle).
    assert (armed x = None) as Ha by (destruct (armed x) as [[q v]|]; [by destruct (Jar q v eq_refl) as (_ & _ & _ & ?); congruence|done]).
    unfold on_deadline. cbn. case_decide as Hcl.
    + destruct (unblock_spec (set_expired (deadline_seq x) (set_timer (armed x) None x))) as (sl & Hsl & ->).
      split; cbn; rewrite ?Ha; try done; [lia|intros t ->; by destruct (Hsl t)|by auto].
    + split; cbn; rewrite ?Ha; try done. intros Hop. by destruct Hcl.
  - apply bool_decide_eq_true in Hm as (<- & _ & _). destruct Hi as [Jc Jst Jar Jfr Je Jh Jg Jp Jl]. split; cbn; try done; [by intros ?? [[= -> ->]|?]|]. intros Hcl Hsp Hz _. apply Jl; [done..|congruence].
  - destruct Hi as [Jc Jst Jar Jfr Je Jh Jg Jp Jl]. split; cbn; try done.
    + intros ?? [?|[= <- <-]]; [done|]. apply (Jg g v). by left.
    + intros _ _ _ Hno. by destruct (Hno g v).
  - subst r. destruct (dl_held _ Hi _ _ Hp) as [Ha Hfi]. apply DlInv_commit; [done| |done|done].
    unfold fresh_seq in *. by rewrite commit_settings in Hf.
  - destruct Hi as [Jc Jst Jar Jfr Je Jh Jg Jp Jl]. split; cbn; try done; [naive_solver|]. intros Hcl Hsp. apply bool_decide_eq_false in Hm. destruct Hm. split_and!; [|done|done]. symmetry. apply (Jg g v). by right.
  - assert (expired_seq x <> deadline_seq x) as Hne.
    { intros Hx. destruct (dl_expired _ Hi Hx) as [Hz Hle]. revert He. unfold dl_error, timed_out_at. by repeat (case_decide || case_match). }
    destruct Hi as [Jc Jst Jar Jfr Je Jh Jg Jp Jl]. by split; cbn.
  - destruct Hi as [Jc Jst Jar Jfr Je Jh Jg Jp Jl]. split; cbn; try done.
  - subst r. by apply DlInv_unblock.
  - destruct Hi as [Jc Jst Jar Jfr Je Jh Jg Jp Jl]. split; cbn; try done.
  - apply DlInv_configure; [|done|done|done|by left]. destruct Hi as [Jc Jst Jar Jfr Je Jh Jg Jp Jl]. split; cbn; try done. congruence.
  - subst r. by apply DlInv_unblock.
  - apply DlInv_attach.
Qed.

(** ** Runs in which the sequence of no incarnation comes round *)

Definition dl_next (x y : Expiry) : Prop := exists w, dl_step x w y /\ fresh_seq y.

Definition dl_reach (x : Expiry) : Prop := exists x0, rtc dl_next (dl_attach x0) x.

Lemma dl_reach_inv x : dl_reach x -> DlInv x.
Proof.
  intros (x0 & Hr). pose proof (DlInv_attach x0) as Hi. induction Hr as [|x y z (w & Hs & Hf) _ IH]; [done|].
  apply IH. by eapply DlInv_step.
Qed.

(** The two sequence numbers add nothing to the clock: [timed_out] is the
    comparison with the deadline. *)
Lemma timed_out_clock x : DlInv x -> timed_out_at x = bool_decide (absolute_deadline_ns x <> 0 /\ absolute_deadline_ns x <= clock x)%Z.
Proof.
  intros Hi. unfold timed_out_at, expired_mark. case_decide as Hz; [by rewrite bool_decide_eq_false_2 by naive_solver|].
  case_decide as Hle; [by rewrite bool_decide_eq_true_2|]. rewrite !bool_decide_eq_false_2; [done|naive_solver|].
  intros Hx. by destruct (dl_expired _ Hi Hx).
Qed.

(** A waiter is told of a timeout only when the deadline has passed. *)
Lemma timeout_is_due x t y : DlInv x -> fresh_seq y -> dl_step x (Some (t, Some (of_errc timed_out))) y ->
  (absolute_deadline_ns y <> 0 /\ absolute_deadline_ns y <= clock y)%Z /\ dl_slot x = Waiting t.
Proof.
  intros Hi Hf Hs. inversion Hs; subst; match goal with E : wakes _ _ = _ |- _ => rename E into Hw end; clear Hf Hs; subst r; revert Hw.
  - match goal with Hx : firing x = _ |- _ => destruct (dl_firing _ Hi _ Hx) as (-> & Hz & Hle) end.
    unfold wakes, on_deadline, dl_unblock. cbn. case_decide; [|done]. cbn. destruct (dl_slot x) eqn:Hsl; cbn; [done|done|]. by intros [= <-].
  - unfold wakes, commit, dl_unblock. cbn. repeat case_decide; cbn; [done| |done]. destruct (dl_slot x) eqn:Hsl; cbn; [done|done|]. by intros [= <-].
  - unfold wakes, dl_unblock. destruct (dl_slot x); cbn; done.
  - unfold wakes, dl_unblock. destruct (dl_slot x); cbn; done.
Qed.

(** The timer, or its callback, wakes who waits past the deadline. *)
Lemma due_waiter_wakes x t : DlInv x -> dl_slot x = Waiting t -> dl_closing x = false -> stopping x = false ->
  (forall g v, setter x <> Some (SCommit g v)) -> (absolute_deadline_ns x <> 0 /\ absolute_deadline_ns x <= clock x)%Z ->
  exists x1 y, (x1 = x \/ dl_step x None x1) /\ dl_step x1 (Some (t, Some (of_errc timed_out))) y.
Proof.
  intros Hi Hsl Hc Hst Hset [Hz Hle].
  assert (forall z, firing z = Some (deadline_seq z) -> dl_slot z = Waiting t -> dl_closing z = false -> exists y, dl_step z (Some (t, Some (of_errc timed_out))) y) as Hcb.
  { intros z Hfi Hz' Hcz. eexists. pose proof (ds_callback _ _ Hfi) as Hs. revert Hs. unfold wakes, on_deadline, dl_unblock. cbn. rewrite decide_True by done. cbn. rewrite Hz'. cbn. intros Hs. exact Hs. }
  destruct (dl_live _ Hi Hc Hst Hz Hset) as [Ha|[Hfi|Hx]].
  - destruct (dl_armed _ Hi _ _ Ha) as (_ & _ & _ & Hfi). pose proof (ds_fire _ _ x Ha Hle Hfi) as Hs.
    destruct (Hcb (set_timer None (Some (deadline_seq x)) x)) as [y Hy]; [done..|]. exists (set_timer None (Some (deadline_seq x)) x), y. auto.
  - destruct (Hcb x) as [y Hy]; [done..|]. exists x, y. auto.
  - by destruct (dl_parked _ Hi t Hsl).
Qed.

(** C18: Deadlines of a descriptor. However setters, the timer service, waiters
    and the close interleave, and through every reuse of the node, as long as no
    incarnation sets 2^32-1 deadlines: an operation finds the direction timed out
    exactly when a deadline is set and the clock has reached it; a waiter is woken
    with [timed_out] only then; and one that is parked past the deadline, while no
    setter is between its disarming and its commit, is woken by the timer's
    callback, which is started or due. *)
Theorem deadlines_kept x : dl_reach x ->
  timed_out_at x = bool_decide (absolute_deadline_ns x <> 0 /\ absolute_deadline_ns x <= clock x)%Z /\
  (forall t y, dl_step x (Some (t, Some (of_errc timed_out))) y -> fresh_seq y -> (absolute_deadline_ns y <> 0 /\ absolute_deadline_ns y <= clock y)%Z) /\
  (forall t, dl_slot x = Waiting t -> dl_closing x = false -> stopping x = false -> (forall g v, setter x <> Some (SCommit g v)) ->
    (absolute_deadline_ns x <> 0 /\ absolute_deadline_ns x <= clock x)%Z ->
    exists x1 y, (x1 = x \/ dl_step x None x1) /\ dl_step x1 (Some (t, Some (of_errc timed_out))) y).
Proof.
  intros Hr%dl_reach_inv. split; [by apply timed_out_clock|]. split.
  - intros t y Hs Hf. by eapply timeout_is_due.
  - intros t Hsl Hc Hst Hset Hd. by apply due_waiter_wakes.
Qed.

(** ** The sequence comes round *)

Definition cleared (n : Z) : Expiry := mkExpiry 100 0 false false 0 (1 + n) 0 None None None Idle n.

Lemma clear_once n : (0 <= n < 2 ^ 32 - 2)%Z -> rtc dl_next (cleared n) (cleared (n + 1)).
Proof.
  intros Hn. eapply rtc_l; [exists None; split; [by apply (ds_set 0 0)|unfold fresh_seq; cbn; lia]|].
  eapply rtc_l; [exists None; split; [by apply (ds_disarm 0 0)|unfold fresh_seq; cbn; lia]|].
  eapply rtc_l; [eexists; split; [by apply (ds_commit 0 0)|unfold fresh_seq; rewrite commit_settings; cbn; lia]|].
  unfold commit. rewrite decide_True by done. unfold configure_deadline. cbn.
  rewrite wrap_small by (split; lia). by replace (1 + n + 1)%Z with (1 + (n + 1))%Z by lia.
Qed.

Lemma clear_many (n : nat) : (Z.of_nat n <= 2 ^ 32 - 2)%Z -> rtc dl_next (cleared 0) (cleared (Z.of_nat n)).
Proof.
  induction n as [|n IH]; intros Hn; [done|]. etransitivity; [apply IH; lia|].
  rewrite Nat2Z.inj_succ. apply clear_once. lia.
Qed.

(** A socket whose deadline was set 2^32-2 times and never expired: the next
    deadline, far away, finds the direction timed out at once. *)
Theorem deadline_sequence_wraps : exists x y, dl_reach x /\ dl_step x None y /\
  timed_out_at y = true /\ (clock y < absolute_deadline_ns y)%Z /\ expired_seq y = 0%Z.
Proof.
  set (last := cleared (2 ^ 32 - 2)).
  set (x := set_setter (Some (SCommit 0 1000000)) last).
  assert (rtc dl_next (cleared 0) last) as Hl.
  { pose proof (clear_many (Z.to_nat (2 ^ 32 - 2))) as H. rewrite Z2Nat.id in H by lia. apply H. lia. }
  exists x. eexists. split_and!.
  - exists (cleared 0). change (dl_attach (cleared 0)) with (cleared 0).
    etransitivity; [exact Hl|]. eapply rtc_l; [exists None; split; [by apply (ds_set 0 1000000)|unfold fresh_seq; cbn; lia]|].
    apply rtc_once. exists None. split; [by apply (ds_disarm 0 1000000)|unfold fresh_seq; cbn; lia].
  - by apply (ds_commit 0 1000000).
  - done.
  - done.
  - done.
Qed.

(** ** A concrete deadline *)

(** Set at 100 for 500, waited for, passed at 600. *)
Definition overdue : Expiry := mkExpiry 600 0 false false 500 2 0 (Some (2, 500)%Z) None None (Waiting 7) 1.

Lemma overdue_reached : dl_reach overdue.
Proof.
  exists (cleared 0). change (dl_attach (cleared 0)) with (cleared 0).
  eapply rtc_l; [exists None; split; [by apply (ds_set 0 500)|done]|].
  eapply rtc_l; [exists None; split; [by apply (ds_disarm 0 500)|done]|].
  eapply rtc_l; [eexists; split; [by apply (ds_commit 0 500)|done]|].
  eapply rtc_l; [exists None; split; [by apply (ds_park 0 7)|done]|].
  apply rtc_once. exists None. split; [by apply (ds_tick 600)|done].
Qed.

Lemma deadlines_kept_witness : dl_reach overdue /\ timed_out_at overdue = true /\
  exists x1 y, (x1 = overdue \/ dl_step overdue None x1) /\ dl_step x1 (Some (7, Some (of_errc timed_out))) y.
Proof.
  destruct (deadlines_kept overdue overdue_reached) as (Ht & _ & Hw). split; [exact overdue_reached|]. split; [rewrite Ht; reflexivity|].
  apply Hw; [done|done|done|done|cbn; lia].
Defined.
