(* ===== verification/Scoped.v ===== *)
(** * Scoped deadlines (include/cio/scoped.hpp)

    [Timeout] on a live socket, whose deadlines are those [Deadline] keeps; 0 is
    the default [TimePoint], no deadline. *)

From S2P Require Import Prelude Reactor.
From stdpp Require Import list functions.

Set Default Proof Using "Type".

(** The deadlines of both directions. A socket with both setters is
    directional; a listener has one, of its read direction. *)
Abbreviation Deadlines := (Dir -> Z).
Inductive Shape := Directional | Single.

(** [apply_deadline] on one direction. *)
Definition set_dir (d : Dir) (v : Z) (D : Deadlines) : Deadlines := <[d := v]> D.

Record Timeout := mkTimeout { on_socket : bool; saved_read : Z; saved_write : Z; read_ : bool; write_ : bool }.

Definition tightest (saved requested : Z) : Z := if decide (saved = 0%Z) then requested else Z.min saved requested.

(** The constructor. *)
Definition timeout_make (sh : Shape) (deadline : Z) (read write : bool) (D : Deadlines) : Timeout * Deadlines :=
  match sh with
  | Directional =>
      let sr := if read then D kRead else 0%Z in
      let D1 := if read then set_dir kRead (tightest sr deadline) D else D in
      let sw := if write then D1 kWrite else 0%Z in
      let D2 := if write then set_dir kWrite (tightest sw deadline) D1 else D1 in
      (mkTimeout true sr sw read write, D2)
  | Single =>
      let sr := D kRead in
      (mkTimeout true sr 0 true false, set_dir kRead (tightest sr deadline) D)
  end.

(** [restore]: [clear] where nothing was saved. *)
Definition put_back (d : Dir) (saved : Z) (D : Deadlines) : Deadlines := if decide (saved = 0%Z) then set_dir d 0 D else set_dir d saved D.

Definition timeout_restore (sh : Shape) (t : Timeout) (D : Deadlines) : Timeout * Deadlines :=
  let gone := mkTimeout false (saved_read t) (saved_write t) (read_ t) (write_ t) in
  if negb (on_socket t) then (gone, D)
  else
    match sh with
    | Directional =>
        let D1 := if read_ t then put_back kRead (saved_read t) D else D in
        (gone, if write_ t then put_back kWrite (saved_write t) D1 else D1)
    | Single => (gone, put_back kRead (saved_read t) D)
    end.

(** Move assignment: this scope ends, and takes over the other. *)
Definition timeout_assign (sh : Shape) (t other : Timeout) (D : Deadlines) : Timeout * Timeout * Deadlines :=
  let '(_, D) := timeout_restore sh t D in
  (other, mkTimeout false (saved_read other) (saved_write other) (read_ other) (write_ other), D).

(** ** Blocks with scopes *)

(** A block: an operation on the socket, a sequence, a block under a
    [Timeout] that its end destroys. *)
Inductive Block := Operate | Seq (b c : Block) | Under (deadline : Z) (read write : bool) (b : Block).

(** The deadlines the operations of a block run under, and those it leaves. *)
Fixpoint run_block (sh : Shape) (b : Block) (D : Deadlines) : list Deadlines * Deadlines :=
  match b with
  | Operate => ([D], D)
  | Seq b c => let '(l, D) := run_block sh b D in let '(m, D) := run_block sh c D in (l ++ m, D)
  | Under dl read write b =>
      let '(t, D) := timeout_make sh dl read write D in
      let '(l, D) := run_block sh b D in
      (l, (timeout_restore sh t D).2)
  end.

(** Reference: the deadlines of the enclosing blocks, read off the text. *)
Definition narrowed (sh : Shape) (dl : Z) (read write : bool) (D : Deadlines) : Deadlines := fun d =>
  match sh, d with
  | Directional, kRead => if read then tightest (D kRead) dl else D kRead
  | Directional, kWrite => if write then tightest (D kWrite) dl else D kWrite
  | Single, kRead => tightest (D kRead) dl
  | Single, kWrite => D kWrite
  end.

Fixpoint lexical (sh : Shape) (b : Block) (D : Deadlines) : list Deadlines :=
  match b with
  | Operate => [D]
  | Seq b c => lexical sh b D ++ lexical sh c D
  | Under dl read write b => lexical sh b (narrowed sh dl read write D)
  end.

(** Deadlines are compared direction by direction. *)
Definition same (D E : Deadlines) : Prop := forall d, D d = E d.
#[global] Instance same_equiv : Equivalence same.
Proof. split; [by intros ??|by intros ????|]. intros D E F H1 H2 d. by rewrite H1. Qed.

#[global] Instance set_dir_same d v : Proper (same ==> same) (set_dir d v).
Proof. intros D E H e. unfold set_dir. destruct (decide (d = e)) as [->|Hne]; [by rewrite !fn_lookup_insert|by rewrite !fn_lookup_insert_ne]. Qed.

Lemma set_dir_eq d v D : set_dir d v D d = v.
Proof. apply fn_lookup_insert. Qed.
Lemma set_dir_ne d e v D : d <> e -> set_dir d v D e = D e.
Proof. apply fn_lookup_insert_ne. Qed.

Lemma put_back_set d v D : put_back d v D = set_dir d v D.
Proof. unfold put_back. by case_decide; subst. Qed.

Lemma make_narrows sh dl r w D : same (timeout_make sh dl r w D).2 (narrowed sh dl r w D).
Proof.
  intros d. destruct sh; cbn; [|destruct d; [apply set_dir_eq|by apply set_dir_ne]].
  destruct r, w, d; cbn; rewrite ?set_dir_eq, ?(set_dir_ne kRead kWrite), ?(set_dir_ne kWrite kRead), ?set_dir_eq by done; try done.
Qed.

(** What the constructor changed, the destructor puts back. *)
Lemma restore_make sh dl r w D D' : same D' (timeout_make sh dl r w D).2 -> same (timeout_restore sh (timeout_make sh dl r w D).1 D').2 D.
Proof.
  intros H d. assert (forall e, D' e = narrowed sh dl r w D e) as H' by (intros e; by rewrite H, make_narrows).
  destruct sh, r, w, d; cbn; rewrite ?put_back_set, ?set_dir_eq, ?(set_dir_ne kRead kWrite), ?(set_dir_ne kWrite kRead), ?set_dir_eq, ?(set_dir_ne kRead kWrite) by done; try done; by rewrite H'.
Qed.

#[global] Instance narrowed_same sh dl r w : Proper (same ==> same) (narrowed sh dl r w).
Proof. intros D E H d. destruct sh, d; cbn; by rewrite ?H. Qed.

Lemma lexical_same sh b : forall D E, same D E -> Forall2 same (lexical sh b D) (lexical sh b E).
Proof.
  induction b as [|b IHb c IHc|dl r w b IH]; intros D E H; cbn; [by repeat constructor|apply Forall2_app; auto|].
  apply IH. by rewrite H.
Qed.

Lemma same_list_trans (l m n : list Deadlines) : Forall2 same l m -> Forall2 same m n -> Forall2 same l n.
Proof.
  intros H. revert n. induction H as [|D E l m HDE _ IH]; intros n Hn; inversion Hn as [|? F ? k HEF Hk]; subst; [constructor|].
  constructor; [by rewrite HDE|by apply IH].
Qed.

Lemma run_block_lexical sh b : forall D, Forall2 same (run_block sh b D).1 (lexical sh b D) /\ same (run_block sh b D).2 D.
Proof.
  induction b as [|b IHb c IHc|dl r w b IH]; intros D; cbn [run_block lexical].
  - split; [by repeat constructor|done].
  - destruct (IHb D) as [Hb HDb]. destruct (run_block sh b D) as [l D1]. destruct (IHc D1) as [Hc HDc]. destruct (run_block sh c D1) as [m D2]. cbn in *.
    split; [|by rewrite HDc]. apply Forall2_app; [done|]. eapply same_list_trans; [done|]. by apply lexical_same.
  - pose proof (make_narrows sh dl r w D) as Hn. pose proof (restore_make sh dl r w D) as Hr. destruct (timeout_make sh dl r w D) as [t D1]. cbn in *.
    destruct (IH D1) as [Hb HDb]. destruct (run_block sh b D1) as [l D2]. cbn in *. split; [|by apply Hr].
    eapply same_list_trans; [done|]. by apply lexical_same.
Qed.

(** Every deadline asked for in the block is one. *)
Fixpoint deadlines_set (b : Block) : Prop :=
  match b with Operate => True | Seq b c => deadlines_set b /\ deadlines_set c | Under dl _ _ b => dl <> 0%Z /\ deadlines_set b end.

(** [E] keeps every deadline of [D], at most earlier. *)
Definition within (D E : Deadlines) : Prop := forall d, D d <> 0%Z -> E d <> 0%Z /\ (E d <= D d)%Z.

Lemma narrowed_within sh dl r w D : dl <> 0%Z -> within D (narrowed sh dl r w D).
Proof.
  intros Hdl d Hd. assert (tightest (D d) dl <> 0%Z /\ (tightest (D d) dl <= D d)%Z) as Ht.
  { unfold tightest. rewrite decide_False by done. lia. }
  destruct sh, d; cbn; [destruct r|destruct w| |]; done.
Qed.

Lemma lexical_within sh b : forall D, deadlines_set b -> Forall (within D) (lexical sh b D).
Proof.
  induction b as [|b IHb c IHc|dl r w b IH]; intros D Hs; cbn in *; [by repeat constructor|destruct Hs; apply Forall_app; auto|].
  destruct Hs as [Hdl Hs]. eapply Forall_impl; [|exact (IH (narrowed sh dl r w D) Hs)]. intros E HE d Hd.
  destruct (narrowed_within sh dl r w D Hdl d Hd) as [Hn Hle]. destruct (HE d Hn). split; [done|lia].
Qed.

(** Scoped deadlines nest. Running a block, with scopes on either or both
    directions nested to any depth, is the reference reading: each operation runs
    under the deadlines that the enclosing scopes give in the text, each the
    earliest of those asked for in its direction and the one the socket had; the
    end of the block leaves the socket's deadlines as they were; and no scope
    that asks for a deadline loosens one that is set. *)
Theorem timeouts_nest sh b D :
  Forall2 same (run_block sh b D).1 (lexical sh b D) /\ same (run_block sh b D).2 D /\
  (deadlines_set b -> Forall (within D) (run_block sh b D).1).
Proof.
  destruct (run_block_lexical sh b D) as [Hl Hd]. split; [done|]. split; [done|]. intros Hs.
  pose proof (lexical_within sh b D Hs) as Hw. clear Hd Hs. induction Hl as [|E E' l m Hsame _ IH]; [constructor|].
  apply Forall_cons_iff in Hw as [Hw Hws]. constructor; [|by apply IH].
  intros d Hne. rewrite (Hsame d). by apply Hw.
Qed.

Lemma timeouts_nest_witness : deadlines_set (Under 500 true true (Seq Operate (Under 900 true false Operate))) /\
  Forall (within (fun _ => 700%Z)) (run_block Directional (Under 500 true true (Seq Operate (Under 900 true false Operate))) (fun _ => 700%Z)).1.
Proof. split; [done|]. apply (timeouts_nest Directional); done. Defined.

(** The default [TimePoint] as the deadline of a scope takes the enclosing one
    away. *)
Example unset_scope_loosens :
  let D : Deadlines := fun _ => 700%Z in (fun E => E kRead) <$> (run_block Directional (Under 0 true true Operate) D).1 = [0%Z].
Proof. vm_compute. reflexivity. Qed.

(** Scopes that do not nest: the inner one, ended last, puts a deadline back
    that its owner has ended. *)
Example scopes_out_of_order :
  let D : Deadlines := fun _ => 0%Z in
  let '(outer, D1) := timeout_make Directional 500 true false D in
  let '(inner, D2) := timeout_make Directional 300 true false D1 in
  let '(_, D3) := timeout_restore Directional outer D2 in
  (timeout_restore Directional inner D3).2 kRead = 500%Z.
Proof. vm_compute. reflexivity. Qed.
