(* ===== verification/SockCancel.v ===== *)
(** * Cancellation of sockets (src/net.cpp, include/cio/detail/reactor.hpp)

    [Socket::set_cancel], [SocketCancelHook] and the parts of [close] and
    [attach] that bear on them, over slab nodes that are used again and tokens
    shared by sockets. A call of the socket is one step; a cancellation is its
    exchange, its detaching of the hooks, and each hook's run. *)

From S2P Require Import Prelude Result Cancel.

Set Default Proof Using "Type".

(** What of a node bears on cancellation: [cancel_flag] names the state whose
    flag it points to; [n_parked] a waiter of either direction. *)
Record CancelNode := mkNode { n_gen : Z; n_closing : bool; cancel_flag : option scope_id; n_parked : bool }.

(** [SocketCancelHook]. *)
Record SocketCancelHook := mkHook { h_desc : nat; h_generation : Z; h_active : bool }.
#[global] Instance SocketCancelHook_eq_dec : EqDecision SocketCancelHook.
Proof. solve_decision. Defined.

(** A socket: its node, its token and [cancel_binding_]. *)
Record BoundSocket := mkBound { b_desc : option nat; cancel_token_ : option scope_id; cancel_binding_ : option nat }.

(** [detaching]: states whose cancellation has had its exchange; [to_fire]: hooks
    a cancellation has detached and not yet run. *)
Record CancelSys := mkCS {
  nodes : gmap nat CancelNode;
  states : gmap scope_id CancelState;
  sock_hooks : gmap nat SocketCancelHook;
  socks : gmap nat BoundSocket;
  detaching : list scope_id;
  to_fire : list nat }.

Definition put_node (n : nat) (x : CancelNode) (s : CancelSys) : CancelSys := mkCS (<[n := x]> (nodes s)) (states s) (sock_hooks s) (socks s) (detaching s) (to_fire s).
Definition put_state (k : scope_id) (x : CancelState) (s : CancelSys) : CancelSys := mkCS (nodes s) (<[k := x]> (states s)) (sock_hooks s) (socks s) (detaching s) (to_fire s).
Definition put_hook (h : nat) (x : SocketCancelHook) (s : CancelSys) : CancelSys := mkCS (nodes s) (states s) (<[h := x]> (sock_hooks s)) (socks s) (detaching s) (to_fire s).
Definition put_sock (i : nat) (x : BoundSocket) (s : CancelSys) : CancelSys := mkCS (nodes s) (states s) (sock_hooks s) (<[i := x]> (socks s)) (detaching s) (to_fire s).

(** [capture_operation]: the live node of the socket. *)
Definition capture (b : BoundSocket) (s : CancelSys) : option (nat * CancelNode) :=
  n ← b_desc b; x ← nodes s !! n; if n_closing x then None else Some (n, x).

(** [IoDesc::cancelled]. *)
Definition node_cancelled (x : CancelNode) (s : CancelSys) : bool :=
  match cancel_flag x with None => false | Some k => match states s !! k with Some c => cancelled c | None => false end end.

(** [cancel_waiters]. *)
Definition cancel_waiters (n : nat) (g : Z) (s : CancelSys) : CancelSys :=
  match nodes s !! n with
  | Some x => if decide (n_closing x = false /\ n_gen x = g) then put_node n (mkNode (n_gen x) (n_closing x) (cancel_flag x) false) s else s
  | None => s
  end.

(** [SocketCancelHook::on_cancel]. *)
Definition on_cancel (h : nat) (s : CancelSys) : CancelSys :=
  match sock_hooks s !! h with
  | Some x => if h_active x then cancel_waiters (h_desc x) (h_generation x) s else s
  | None => s
  end.

(** The binding is retired: the hook is inert and no longer on its list. *)
Definition retire_binding (b : BoundSocket) (s : CancelSys) : CancelSys :=
  match cancel_binding_ b with
  | None => s
  | Some h =>
      let s1 := match sock_hooks s !! h with Some x => put_hook h (mkHook (h_desc x) (h_generation x) false) s | None => s end in
      match cancel_token_ b ≫= fun k => (fun c => (k, c)) <$> states s !! k with
      | Some (k, c) => put_state k (remove_hook (HOther h) c) s1
      | None => s1
      end
  end.

(** [set_cancel]; the new hook is [h]. *)
Definition set_cancel (i : nat) (token : option scope_id) (h : nat) (b : BoundSocket) (s : CancelSys) : CancelSys :=
  let s := retire_binding b s in
  match capture b s with
  | None => put_sock i (mkBound (b_desc b) token None) s
  | Some (n, x) =>
      let s := put_node n (mkNode (n_gen x) (n_closing x) token (n_parked x)) s in
      match token ≫= fun k => (fun c => (k, c)) <$> states s !! k with
      | None => put_sock i (mkBound (b_desc b) token None) s
      | Some (k, c) =>
          let s := put_hook h (mkHook n (n_gen x) true) s in
          let '(added, c) := add_hook (HOther h) c in
          if added : bool then put_sock i (mkBound (b_desc b) token (Some h)) (put_state k c s)
          else put_sock i (mkBound (b_desc b) token None) (on_cancel h s)
      end
  end.

(** [close], with the recycling of the node by its last reference. *)
Definition close_bound (i : nat) (b : BoundSocket) (s : CancelSys) : CancelSys :=
  let s := retire_binding b s in
  let s := match b_desc b ≫= fun n => (fun x => (n, x)) <$> nodes s !! n with
           | Some (n, x) => put_node n (mkNode (u32 (n_gen x + 1)) true (cancel_flag x) false) s
           | None => s end in
  put_sock i (mkBound None (cancel_token_ b) None) s.

(** [attach] of a free node to a new socket. *)
Definition attach_socket (i n : nat) (x : CancelNode) (s : CancelSys) : CancelSys :=
  put_sock i (mkBound (Some n) None None) (put_node n (mkNode (n_gen x) false (cancel_flag x) false) s).

(** An operation is admitted. *)
Definition admitted (b : BoundSocket) (s : CancelSys) : option (nat * CancelNode) :=
  p ← capture b s; if node_cancelled p.2 s then None else Some p.



(** A socket closed with its token bound, and its node used again: the new
    socket never had a token, and stops when the old one is cancelled. *)
Example stale_cancel_flag :
  let s0 := mkCS {[0 := mkNode 0 true None false]} {[5 := new_cancel_state 0 None]} ∅ ∅ [] [] in
  let s1 := attach_socket 1 0 (mkNode 0 true None false) s0 in
  let s2 := set_cancel 1 (Some 5) 9 (mkBound (Some 0) None None) s1 in
  let s3 := close_bound 1 (mkBound (Some 0) (Some 5) (Some 9)) s2 in
  let s4 := attach_socket 2 0 (mkNode 1 true (Some 5) false) s3 in
  let s5 := put_state 5 (cancel_exchange (new_cancel_state 0 None)).2 s4 in
  socks s4 !! 2 = Some (mkBound (Some 0) None None) /\
  nodes s3 !! 0 = Some (mkNode 1 true (Some 5) false) /\ (hooks <$> states s3 !! 5) = Some [] /\
  is_Some (admitted (mkBound (Some 0) None None) s4) /\ admitted (mkBound (Some 0) None None) s5 = None.
Proof. vm_compute. split_and!; try reflexivity. by eexists. Qed.

(** ** The invariant *)






(** ** Its preservation *)






























