(* ===== verification/Abandon.v ===== *)
(** * Operations with a token that a caller may leave (src/net.cpp)

    [TcpConn::dial] with its watcher, which closes the socket when the token is
    cancelled, and [cancellable_blocking], whose job runs on and delivers into a
    channel of one place. [select] takes either case that is ready. *)

From S2P Require Import Prelude Result.

Set Default Proof Using "Type".

(** ** [TcpConn::dial] with a token, after [begin_connect] *)
Module WatchedDial.
(** The dial: in [await_connect], at [co_await watcher] with what that gave,
    returned. *)
Inductive DialPc := DConnecting | DJoining (ready : Result unit) | DReturned (r : Result unit).

(** [watcher] is none while it selects, then its result; [open_] that the shared
    stream has not been closed. *)
Record DialSys := mkDial { token : bool; settled : bool; watcher : option bool; open_ : bool; dial_pc : DialPc }.

Definition dial_init (fired : bool) : DialSys := mkDial fired false None true DConnecting.

Definition watched_result (stopped : bool) (ready : Result unit) : Result unit := if stopped then Err (of_errc cancelled) else ready.

Inductive dial_step : DialSys -> DialSys -> Prop :=
  | wd_cancel s : token s = false -> dial_step s (mkDial true (settled s) (watcher s) (open_ s) (dial_pc s))
  (* await_connect: the connection's outcome, or the close of the socket *)
  | wd_outcome r s : dial_pc s = DConnecting -> open_ s = true -> dial_step s (mkDial (token s) true (watcher s) (open_ s) (DJoining r))
  | wd_closed s : dial_pc s = DConnecting -> open_ s = false -> dial_step s (mkDial (token s) true (watcher s) (open_ s) (DJoining (Err (of_errc closed))))
  (* the watcher's select *)
  | wd_watch_cancel s : watcher s = None -> token s = true -> dial_step s (mkDial (token s) (settled s) (Some true) false (dial_pc s))
  | wd_watch_settled s : watcher s = None -> settled s = true -> dial_step s (mkDial (token s) (settled s) (Some false) (open_ s) (dial_pc s))
  | wd_join c r s : watcher s = Some c -> dial_pc s = DJoining r -> dial_step s (mkDial (token s) (settled s) (watcher s) (open_ s) (DReturned (watched_result c r))).

Record DialInv (s : DialSys) : Prop := {
  di_settled : settled s = match dial_pc s with DConnecting => false | _ => true end;
  di_open : open_ s = match watcher s with Some true => false | _ => true end;
  di_token : watcher s = Some true -> token s = true;
  di_watcher : watcher s = Some false -> settled s = true;
  di_returned : forall r, dial_pc s = DReturned r -> watcher s = Some true /\ r = Err (of_errc cancelled) \/ watcher s = Some false }.

Lemma DialInv_step s s' : DialInv s -> dial_step s s' -> DialInv s'.
Proof.
  intros [H1 H2 H3 H4 H5] Hs. destruct Hs as [s Ht|r s Hp Ho|s Hp Ho|s Hw Ht|s Hw Hse|c r s Hw Hp]; split; cbn; rewrite ?Hp, ?Hw in *; try done; try naive_solver.
  destruct c; [left|right]; naive_solver.
Qed.

Definition dial_work (s : DialSys) : nat :=
  (if token s then 0 else 1) + (if watcher s then 0 else 1) + match dial_pc s with DConnecting => 2 | DJoining _ => 1 | DReturned _ => 0 end.

Lemma dial_step_works s s' : dial_step s s' -> dial_work s' < dial_work s.
Proof. intros Hs. destruct Hs as [s Ht|r s Hp Ho|s Hp Ho|s Hw Ht|s Hw Hse|c r s Hw Hp]; unfold dial_work; cbn; rewrite ?Ht, ?Hp, ?Hw; cbn; try lia; destruct (token s); lia. Qed.

(** A dial with a token ends: no run goes on for ever, and one that cannot go on
    has returned, with its watcher finished. A success hands over a stream that
    nobody has closed, or ever will; [cancelled] comes only of a token, and then
    the stream is closed; otherwise the result is the connection's own. *)
Theorem watched_dial_ends fired : sn dial_step (dial_init fired) /\
  forall s, rtc dial_step (dial_init fired) s ->
    (forall r, dial_pc s = DReturned r -> is_Some (watcher s) /\
      (r = Ok tt -> open_ s = true /\ forall s', dial_step s s' -> open_ s' = true) /\
      (watcher s = Some true -> token s = true /\ open_ s = false /\ r = Err (of_errc cancelled))) /\
    (nf dial_step s -> exists r, dial_pc s = DReturned r).
Proof.
  split; [apply (wf_projected lt dial_work); [intros ??; apply dial_step_works|apply lt_wf]|].
  intros s Hr. assert (DialInv s) as [H1 H2 H3 H4 H5].
  { assert (DialInv (dial_init fired)) as Hi by by split. induction Hr; eauto using DialInv_step. }
  split.
  - intros r Hp. destruct (H5 r Hp) as [[Hw ->]|Hw]; rewrite Hw in *; split_and!; try done.
    + intros _. auto.
    + intros ->. split; [done|]. intros s' Hs. inversion Hs; subst; cbn; congruence.
  - intros Hnf. destruct (dial_pc s) eqn:Hp; [|destruct (watcher s) as [c|] eqn:Hw|by eexists].
    + destruct Hnf. destruct (open_ s) eqn:Ho; eexists; [by apply (wd_outcome (Ok tt))|by apply wd_closed].
    + destruct Hnf. eexists. by apply (wd_join c ready).
    + destruct Hnf. eexists. apply wd_watch_settled; [done|congruence].
Qed.
End WatchedDial.

(** ** [cancellable_blocking] *)
Module Lookup.
Section lookup.
Context {A : Type}.

(** The job: with the pool, running, delivered and deleted. The caller: before
    its submission, in [select], returned. *)
Inductive JobPc := JNone | JQueued | JRunning | JGone.
Inductive CallerPc := LStart | LSelect | LReturned (r : Result A).

(** What [submit] says; what the work does: a value, or an exception. *)
Inductive Submit := Accepted | Overloaded | Stopped.
Record LookupSys := mkLookup { l_token : bool; job : JobPc; out : list (Result A); caller : CallerPc; sent : list (Result A) }.

(** [try_send] into the channel of one place: a full channel drops the value. *)
Definition lookup_send (v : Result A) (l : list (Result A)) : list (Result A) := if decide (length l = 0) then [v] else l.
Definition deliver (v : Result A) (s : LookupSys) : LookupSys := mkLookup (l_token s) JGone (lookup_send v (out s)) (caller s) (sent s ++ [v]).
Definition return_ (r : Result A) (s : LookupSys) : LookupSys := mkLookup (l_token s) (job s) (out s) (LReturned r) (sent s).

(** [run_job]: the value of the work, [broken] for an exception. *)
Definition job_value (work : option (Result A)) : Result A := match work with Some v => v | None => Err (of_errc broken) end.

Inductive lookup_step : LookupSys -> LookupSys -> Prop :=
  | lk_cancel s : l_token s = false -> lookup_step s (mkLookup true (job s) (out s) (caller s) (sent s))
  | lk_cancelled s : caller s = LStart -> l_token s = true -> lookup_step s (return_ (Err (of_errc cancelled)) s)
  | lk_submit b s : caller s = LStart -> l_token s = false -> lookup_step s
      match b with
      | Accepted => mkLookup (l_token s) JQueued (out s) LSelect (sent s)
      | Overloaded => return_ (Err (of_errc overloaded)) s
      | Stopped => return_ (Err (of_errc shutdown)) s
      end
  (* the pool starts the job, or fails it when it stops *)
  | lk_start s : job s = JQueued -> lookup_step s (mkLookup (l_token s) JRunning (out s) (caller s) (sent s))
  | lk_fail s : job s = JQueued -> lookup_step s (deliver (Err (of_errc shutdown)) s)
  | lk_finish work s : job s = JRunning -> lookup_step s (deliver (job_value work) s)
  (* select *)
  | lk_received v l s : caller s = LSelect -> out s = v :: l -> lookup_step s (mkLookup (l_token s) (job s) l (LReturned v) (sent s))
  | lk_left s : caller s = LSelect -> l_token s = true -> lookup_step s (return_ (Err (of_errc cancelled)) s).

Definition lookup_init (fired : bool) : LookupSys := mkLookup fired JNone [] LStart [].

Record LookupInv (s : LookupSys) : Prop := {
  li_sent : match job s with JGone => exists v, sent s = [v] | _ => sent s = [] end;
  li_out : out s <> [] -> job s = JGone /\ out s = sent s;
  li_select : caller s = LSelect -> job s <> JNone /\ (job s = JGone -> out s <> []);
  li_start : caller s = LStart -> job s = JNone;
  li_returned : forall r, caller s = LReturned r -> (r = Err (of_errc cancelled) /\ l_token s = true) \/ sent s = [r] \/
    (job s = JNone /\ (r = Err (of_errc overloaded) \/ r = Err (of_errc shutdown))) }.

Lemma out_empty s : LookupInv s -> job s <> JGone -> out s = [].
Proof. intros Hi Hj. destruct (out s) eqn:Ho; [done|]. destruct (li_out _ Hi) as [? _]; [by rewrite Ho|done]. Qed.

(** The first delivery, into an empty channel. *)
Lemma deliver_inv v s : LookupInv s -> job s = JQueued \/ job s = JRunning -> LookupInv (deliver v s).
Proof.
  intros Hi Hj. assert (out s = []) as Ho by (apply out_empty; [done|destruct Hj; congruence]). destruct Hi as [H1 H2 H3 H4 H5].
  assert (sent s = []) as Hs by (destruct Hj as [Hj|Hj]; by rewrite Hj in H1).
  split; unfold deliver; cbn; rewrite ?Ho, ?Hs; cbn; try done.
  - by exists v.
  - intros Hc. specialize (H4 Hc). destruct Hj; congruence.
  - intros r Hr. destruct (H5 r Hr) as [?|[?|[? _]]]; [by left|congruence|destruct Hj; congruence].
Qed.

Lemma LookupInv_step s s' : LookupInv s -> lookup_step s s' -> LookupInv s'.
Proof.
  intros Hi Hs. destruct Hs as [s Ht|s Hp Ht|b s Hp Ht|s Hj|s Hj|work s Hj|v l s Hp Ho|s Hp Ht]; [..|by apply deliver_inv; auto|by apply deliver_inv; auto| |].
  - destruct Hi as [H1 H2 H3 H4 H5]. split; cbn; try done. intros r Hr. destruct (H5 r Hr) as [[-> _]|?]; auto.
  - destruct Hi as [H1 H2 H3 H4 H5]. split; cbn; try done. intros r [= <-]. by left.
  - pose proof (li_start _ Hi Hp) as Hj. pose proof (out_empty s Hi) as Ho. rewrite Hj in Ho. specialize (Ho ltac:(done)).
    destruct Hi as [H1 H2 H3 H4 H5]. rewrite Hj in H1.
    destruct b; split; cbn; rewrite ?Hj, ?Ho; try done; intros r [= <-]; right; right; auto.
  - pose proof (out_empty s Hi) as Ho. rewrite Hj in Ho. specialize (Ho ltac:(done)).
    destruct Hi as [H1 H2 H3 H4 H5]. rewrite Hj in H1. split; cbn; rewrite ?Ho; try done.
    + intros Hc. specialize (H4 Hc). congruence.
    + intros r Hr. destruct (H5 r Hr) as [?|[?|[? _]]]; [by left|by right; left|congruence].
  - destruct Hi as [H1 H2 H3 H4 H5]. destruct H2 as [Hj Hos]; [by rewrite Ho|]. rewrite Hj in H1. destruct H1 as [v' Hv']. rewrite Ho, Hv' in Hos. simplify_eq.
    split; cbn; rewrite ?Hj; try done; [by exists v'|]. intros r [= <-]. by right; left.
  - destruct Hi as [H1 H2 H3 H4 H5]. split; cbn; try done. intros r [= <-]. by left.
Qed.

Definition lookup_work (s : LookupSys) : nat :=
  (if l_token s then 0 else 1) + match job s with JNone => 3 | JQueued => 2 | JRunning => 1 | JGone => 0 end + match caller s with LStart => 5 | LSelect => 1 | LReturned _ => 0 end.

Lemma lookup_step_works s s' : lookup_step s s' -> lookup_work s' < lookup_work s.
Proof.
  intros Hs. destruct Hs as [s Ht|s Hp Ht|b s Hp Ht|s Hj|s Hj|work s Hj|v l s Hp Ho|s Hp Ht]; unfold lookup_work; cbn; rewrite ?Hp, ?Hj, ?Ht; cbn; try lia.
  destruct b; cbn; rewrite ?Hp, ?Ht; cbn; try lia; destruct (job s); lia.
Qed.

(** A lookup with a token ends, for the caller and for its job, whichever leaves
    first. The job delivers at most once and is then gone; the caller returns
    what it delivered, or [cancelled] when the token is, or what refused the
    submission; and no job is left behind. *)
Theorem lookup_ends fired : sn lookup_step (lookup_init fired) /\
  forall s, rtc lookup_step (lookup_init fired) s ->
    length (sent s) <= 1 /\
    (forall r, caller s = LReturned r -> (r = Err (of_errc cancelled) /\ l_token s = true) \/ sent s = [r] \/
      (job s = JNone /\ (r = Err (of_errc overloaded) \/ r = Err (of_errc shutdown)))) /\
    (nf lookup_step s -> (job s = JNone \/ job s = JGone) /\ exists r, caller s = LReturned r).
Proof.
  split; [apply (wf_projected lt lookup_work); [intros ??; apply lookup_step_works|apply lt_wf]|].
  intros s Hr. assert (LookupInv s) as Hi.
  { assert (LookupInv (lookup_init fired)) as Hi by by split. induction Hr; eauto using LookupInv_step. }
  split; [|split; [by apply li_returned|]].
  - pose proof (li_sent _ Hi) as Hs. destruct (job s); try (rewrite Hs; cbn; lia). destruct Hs as [v ->]. cbn. lia.
  - intros Hnf. assert (job s = JNone \/ job s = JGone) as Hj.
    { destruct (job s) eqn:Hj; [by left|..|by right]; destruct Hnf; eexists; [by apply lk_start|by apply (lk_finish None)]. }
    split; [done|]. destruct (caller s) eqn:Hc; [|..|by eexists].
    + destruct Hnf. destruct (l_token s) eqn:Ht; eexists; [by apply lk_cancelled|by apply (lk_submit Accepted)].
    + destruct (li_select _ Hi Hc) as [Hne Ho]. destruct Hj as [Hj|Hj]; [done|]. specialize (Ho Hj).
      destruct (out s) as [|v l] eqn:Hout; [done|]. destruct Hnf. eexists. by eapply lk_received.
Qed.
End lookup.
End Lookup.
