(* ===== verification/FramePool.v ===== *)
(** * The allocator of coroutine frames (include/cio/detail/frame_pool.hpp)

    The free lists of the threads and the central batches, with the links in the
    first words of the free blocks. The part of an operation outside the central
    lock touches what is its thread's own, so an operation is one step. *)

From S2P Require Import Prelude.
From stdpp Require Import functions list_relations list.

Set Default Proof Using "Type".

Definition kGranularity : nat := 32.
Definition kMaxSize : nat := 512.
Definition kClasses : nat := 16.
Definition kBatch : nat := 32.
Definition kCachePerClass : nat := 64.
Definition kCentralBatches : nat := 64.

(** [words] is the first word of each block, [blocks] what [operator new] gave
    and [operator delete] has not taken back, with its size; 0 is [nullptr]. The
    last batch of a central list comes first. *)
Record FramePool := mkPool {
  words : gmap Z Z;
  blocks : gmap Z nat;
  free_list : nat -> nat -> Z;
  count : nat -> nat -> nat;
  batches : nat -> list Z }.

Definition size_class (size : nat) : nat := (size - 1) / kGranularity.
Definition next_of (p : Z) (s : FramePool) : Z := default 0%Z (words s !! p).

(** One thread's cache of one class, one central list. *)
Definition upd2 {A} (f : nat -> nat -> A) (t c : nat) (v : A) : nat -> nat -> A := fun t' c' => if decide (t' = t /\ c' = c) then v else f t' c'.
Definition upd1 {A} (f : nat -> A) (c : nat) (v : A) : nat -> A := fun c' => if decide (c' = c) then v else f c'.

Definition put_cache (t c : nat) (p : Z) (n : nat) (s : FramePool) : FramePool :=
  mkPool (words s) (blocks s) (upd2 (free_list s) t c p) (upd2 (count s) t c n) (batches s).
Definition put_word (p q : Z) (s : FramePool) : FramePool := mkPool (<[p := q]> (words s)) (blocks s) (free_list s) (count s) (batches s).
Definition set_batches (c : nat) (l : list Z) (s : FramePool) : FramePool := mkPool (words s) (blocks s) (free_list s) (count s) (upd1 (batches s) c l).

(** [operator new], which gives the address [a] here, and [operator delete]. *)
Definition op_new (a : Z) (size : nat) (s : FramePool) : FramePool := mkPool (<[a := 0%Z]> (words s)) (<[a := size]> (blocks s)) (free_list s) (count s) (batches s).
Definition op_delete (p : Z) (s : FramePool) : FramePool := mkPool (delete p (words s)) (delete p (blocks s)) (free_list s) (count s) (batches s).

Definition pooled (size : nat) : bool := bool_decide (size <> 0 /\ size <= kMaxSize).

Definition allocate_slow (t c : nat) (a : Z) (s : FramePool) : Z * FramePool :=
  match batches s c with
  | chain :: l => (chain, put_cache t c (next_of chain s) (kBatch - 1) (set_batches c l s))
  | [] => (a, op_new a ((c + 1) * kGranularity) s)
  end.

Definition allocate (t size : nat) (a : Z) (s : FramePool) : Z * FramePool :=
  if negb (pooled size) then (a, op_new a size s)
  else
    let c := size_class size in
    let block := free_list s t c in
    if decide (block <> 0%Z) then (block, put_cache t c (next_of block s) (count s t c - 1) s)
    else allocate_slow t c a s.

(** [release_chain]; the fuel bounds its blocks. *)
Fixpoint release_chain (fuel : nat) (p : Z) (s : FramePool) : option FramePool :=
  if decide (p = 0%Z) then Some s
  else match fuel with O => None | S fuel => let next := next_of p s in release_chain fuel next (op_delete p s) end.

(** The block [n] links on. *)
Fixpoint walk (n : nat) (p : Z) (s : FramePool) : Z := match n with O => p | S n => walk n (next_of p s) s end.

(** The first [kBatch] blocks leave the cache. *)
Definition spill (t c : nat) (s : FramePool) : option FramePool :=
  let head := free_list s t c in
  let tail := walk (kBatch - 1) head s in
  let s := put_cache t c (next_of tail s) (count s t c - kBatch) s in
  let s := put_word tail 0 s in
  if decide (length (batches s c) < kCentralBatches) then Some (set_batches c (head :: batches s c) s)
  else release_chain kBatch head s.

Definition deallocate (t : nat) (block : Z) (size : nat) (s : FramePool) : option FramePool :=
  if decide (block = 0%Z) then Some s
  else if negb (pooled size) then Some (op_delete block s)
  else
    let c := size_class size in
    let s := put_word block (free_list s t c) s in
    let s := put_cache t c block (count s t c + 1) s in
    if decide (count s t c < kCachePerClass) then Some s else spill t c s.

(** [~Cache]: the classes from [c] on. The code leaves the lists as they were, in
    an object that is gone; here they are emptied, as for the thread's next cache. *)
Fixpoint release_classes (n c t : nat) (s : FramePool) : option FramePool :=
  match n with
  | O => Some s
  | S n => s ← release_chain kCachePerClass (free_list s t c) s; release_classes n (S c) t (put_cache t c 0 0 s)
  end.
Definition cache_exit (t : nat) (s : FramePool) : option FramePool := release_classes kClasses 0 t s.

(** ** What the blocks are for *)

(** A block is handed out for a request, in a thread's cache, or in the central
    batch that starts with [head]. *)
Inductive Place := PUsed (size : nat) | PCache (t c : nat) | PBatch (c : nat) (head : Z).

(** [l] are the blocks linked from [p]. *)
Fixpoint chain (w : gmap Z Z) (p : Z) (l : list Z) : Prop :=
  match l with [] => p = 0%Z | a :: l => p = a /\ a <> 0%Z /\ exists q, w !! a = Some q /\ chain w q l end.

(** The size of the block for a request. *)
Definition block_size (size : nat) : nat := if pooled size then (size_class size + 1) * kGranularity else size.

Definition mark (over : option (nat * nat)) (t c : nat) : nat := if decide (over = Some (t, c)) then S kCachePerClass else kCachePerClass.

Lemma mark_least over t c : kCachePerClass <= mark over t c.
Proof. unfold mark. case_decide; lia. Qed.

(** [L] are the blocks of the caches, [B] the central batches with theirs; the
    cache [over] may have reached its mark. *)
Record PoolInv (over : option (nat * nat)) (o : Z -> option Place) (L : nat -> nat -> list Z) (B : nat -> list (Z * list Z)) (s : FramePool) : Prop := {
  pi_cache t c : chain (words s) (free_list s t c) (L t c) /\ NoDup (L t c) /\ length (L t c) = count s t c /\  count s t c < mark over t c;
  pi_batches c : batches s c = (B c).*1 /\ NoDup (B c).*1 /\ length (B c) <= kCentralBatches;
  pi_batch c p l : (p, l) ∈ B c -> chain (words s) p l /\ NoDup l /\ length l = kBatch;
  pi_in_cache t c a : a ∈ L t c <-> o a = Some (PCache t c);
  pi_in_batch c p a : (exists l, (p, l) ∈ B c /\ a ∈ l) <-> o a = Some (PBatch c p);
  pi_blocks a : blocks s !! a = match o a with
    | Some (PUsed n) => Some (block_size n)
    | Some (PCache _ c) | Some (PBatch c _) => Some ((c + 1) * kGranularity)
    | None => None
    end;
  pi_null : o 0%Z = None }.

(** The blocks that are free, and the requests of those that are not. *)
Definition is_free (o : Z -> option Place) (a : Z) : Prop := match o a with Some (PCache _ _) | Some (PBatch _ _) => True | _ => False end.
Definition used (o : Z -> option Place) (a : Z) : option nat := match o a with Some (PUsed n) => Some n | _ => None end.

Lemma chain_frame w w' p l : chain w p l -> (forall a, a ∈ l -> w' !! a = w !! a) -> chain w' p l.
Proof.
  revert p. induction l as [|a l IH]; intros p; [done|]. cbn. intros (-> & Ha & q & Hq & Hc) Hw. split_and!; [done|done|].
  exists q. split; [rewrite Hw by set_solver; done|]. apply IH; [done|]. intros b Hb. apply Hw. set_solver.
Qed.

Lemma chain_nonzero w p l : chain w p l -> p <> 0%Z -> exists m, l = p :: m /\ exists q, w !! p = Some q /\ chain w q m.
Proof. destruct l as [|a l]; cbn; [done|]. intros (-> & _ & q & Hq & Hc) _. eauto. Qed.

(** A chain determines its blocks. *)
Lemma chain_fun w p l m : chain w p l -> chain w p m -> l = m.
Proof.
  revert p m. induction l as [|a l IH]; intros p m; cbn.
  - intros ->. destruct m; [done|]. by intros (<- & ? & _).
  - intros (-> & Ha & q & Hq & Hc). destruct m as [|b m]; cbn; [done|]. intros (<- & _ & q' & Hq' & Hc').
    simplify_eq. f_equal. eauto.
Qed.

(** Walking [n] links reaches the block after them. *)
Lemma walk_chain n s p l : chain (words s) p l -> n < length l -> l !! n = Some (walk n p s).
Proof.
  revert p l. induction n as [|n IH]; intros p l Hc Hn; destruct l as [|a l]; cbn in *; try lia; destruct Hc as (-> & Ha & q & Hq & Hc); [done|].
  assert (next_of a s = q) as -> by (unfold next_of; by rewrite Hq). apply IH; [done|lia].
Qed.

(** Ending a chain at [a]: the blocks up to it, and those after it. *)
Lemma chain_cut w p l a m : chain w p (l ++ a :: m) -> NoDup (l ++ a :: m) ->
  (exists q, w !! a = Some q /\ chain w q m) /\ chain (<[a := 0%Z]> w) p (l ++ [a]).
Proof.
  revert p. induction l as [|b l IH]; intros p; cbn.
  - intros (-> & Ha & q & Hq & Hc) _. split; [by exists q|]. split_and!; [done|done|]. exists 0%Z. by rewrite lookup_insert_eq.
  - intros (-> & Hb & q & Hq & Hc) [Hnb Hnd]%NoDup_cons. destruct (IH q Hc Hnd) as [Hq' Hc']. split; [done|].
    split_and!; [done|done|]. exists q. rewrite lookup_insert_ne by set_solver. done.
Qed.

(** [release_chain] gives back the blocks of the chain and nothing else. *)
Lemma release_chain_run fuel l : forall p s, chain (words s) p l -> NoDup l -> length l <= fuel ->
  exists s', release_chain fuel p s = Some s' /\
    (forall a, words s' !! a = if decide (a ∈ l) then None else words s !! a) /\
    (forall a, blocks s' !! a = if decide (a ∈ l) then None else blocks s !! a) /\
    free_list s' = free_list s /\ count s' = count s /\ batches s' = batches s.
Proof.
  revert l. induction fuel as [|fuel IH]; intros l p s Hc Hnd Hf; destruct l as [|b l]; cbn in *; try lia.
  1, 2: subst p; rewrite decide_True by done; exists s; split_and!; try done; intros a; by rewrite decide_False by set_solver.
  destruct Hc as (-> & Hb & q & Hq & Hc). apply NoDup_cons in Hnd as [Hnb Hnd]. rewrite decide_False by done.
  assert (next_of b s = q) as -> by (unfold next_of; by rewrite Hq).
  destruct (IH l q (op_delete b s)) as (s' & Hr & Hw & Hbl & Hfl & Hcn & Hba); [|done|lia|].
  { eapply chain_frame; [exact Hc|]. intros a Ha. cbn. rewrite lookup_delete_ne by set_solver. done. }
  exists s'. split_and!; try done; intros a; [rewrite Hw|rewrite Hbl]; cbn; (destruct (decide (a = b)) as [->|Hne];
    [rewrite lookup_delete_eq; rewrite (decide_True (P := b ∈ b :: l)) by set_solver; by case_decide
    |rewrite lookup_delete_ne by done; repeat case_decide; set_solver]).
Qed.

(** ** Each step keeps the lists *)

Definition moved (o : Z -> option Place) (P : list Z) (x : option Place) : Z -> option Place := fun a => if decide (a ∈ P) then x else o a.

Lemma moved_in o P x a : a ∈ P -> moved o P x a = x.
Proof. intros. unfold moved. by rewrite decide_True. Qed.
Lemma moved_out o P x a : a ∉ P -> moved o P x a = o a.
Proof. intros. unfold moved. by rewrite decide_False. Qed.
Lemma moved_one o p x : moved o [p] x p = x.
Proof. apply moved_in. by left. Qed.
Lemma moved_ne o p x a : a <> p -> moved o [p] x a = o a.
Proof. intros. apply moved_out. by rewrite list_elem_of_singleton. Qed.

Lemma free_chains x o L B s w : PoolInv x o L B s -> (forall a, is_free o a -> w !! a = words s !! a) ->
  (forall t c, chain w (free_list s t c) (L t c)) /\ forall c p l, (p, l) ∈ B c -> chain w p l.
Proof.
  intros Hi Hw. split.
  - intros t c. destruct (pi_cache _ _ _ _ _ Hi t c) as [Hc _]. eapply chain_frame; [exact Hc|]. intros a Ha. apply Hw.
    apply (pi_in_cache _ _ _ _ _ Hi) in Ha. unfold is_free. by rewrite Ha.
  - intros c p l Hl. destruct (pi_batch _ _ _ _ _ Hi c p l Hl) as [Hc _]. eapply chain_frame; [exact Hc|]. intros a Ha. apply Hw.
    assert (o a = Some (PBatch c p)) as Ho by (apply (pi_in_batch _ _ _ _ _ Hi); by exists l). unfold is_free. by rewrite Ho.
Qed.

(** The owner of a block in use writes to it. *)
Lemma inv_user_write x o L B s a q n : PoolInv x o L B s -> used o a = Some n -> PoolInv x o L B (put_word a q s).
Proof.
  intros Hi Hu. destruct (free_chains x o L B s (<[a := q]> (words s)) Hi) as [Hc Hb].
  { intros b Hf. rewrite lookup_insert_ne; [done|]. intros ->. unfold used, is_free in *. by destruct (o b) as [[]|]. }
  destruct Hi as [H1 H2 H3 H4 H5 H6 H7]. split; cbn; try done.
  - intros t c. destruct (H1 t c) as (_ & ? & ? & ?). split_and!; [apply Hc|done..].
  - intros c p l Hl. destruct (H3 c p l Hl) as (_ & ? & ?). split_and!; [by eapply Hb|done..].
Qed.

(** A block that is nobody's, from [operator new]. *)
Lemma inv_new x o L B s a n : PoolInv x o L B s -> blocks s !! a = None -> a <> 0%Z ->
  PoolInv x (moved o [a] (Some (PUsed n))) L B (op_new a (block_size n) s).
Proof.
  intros Hi Ha Hz. assert (o a = None) as Ho.
  { pose proof (pi_blocks _ _ _ _ _ Hi a) as Hb. rewrite Ha in Hb. by destruct (o a) as [[]|]. }
  destruct (free_chains x o L B s (<[a := 0%Z]> (words s)) Hi) as [Hc Hb].
  { intros b Hf. rewrite lookup_insert_ne; [done|]. intros ->. unfold is_free in Hf. by rewrite Ho in Hf. }
  destruct Hi as [H1 H2 H3 H4 H5 H6 H7]. split; cbn; try done.
  - intros t c. destruct (H1 t c) as (_ & ? & ? & ?). split_and!; [apply Hc|done..].
  - intros c p l Hl. destruct (H3 c p l Hl) as (_ & ? & ?). split_and!; [by eapply Hb|done..].
  - intros t c b. rewrite H4. destruct (decide (b = a)) as [->|Hd]; [by rewrite moved_one, Ho|by rewrite moved_ne].
  - intros c p b. rewrite H5. destruct (decide (b = a)) as [->|Hd]; [by rewrite moved_one, Ho|by rewrite moved_ne].
  - intros b. destruct (decide (b = a)) as [->|Hne]; [by rewrite lookup_insert_eq, moved_one|by rewrite lookup_insert_ne, moved_ne].
  - by rewrite moved_ne.
Qed.

(** The first block of a cache. *)
Lemma inv_pop x o L B s t c p l n : PoolInv x o L B s -> L t c = p :: l -> block_size n = (c + 1) * kGranularity ->
  PoolInv x (moved o [p] (Some (PUsed n))) (upd2 L t c l) B (put_cache t c (next_of p s) (count s t c - 1) s) /\ p <> 0%Z /\ o p = Some (PCache t c) /\ free_list s t c = p.
Proof.
  intros [H1 H2 H3 H4 H5 H6 H7] HL Hn. destruct (H1 t c) as (Hc & Hnd & Hlen & Hlt).
  assert (o p = Some (PCache t c)) as Ho by (apply H4; rewrite HL; by left).
  rewrite HL in Hc, Hnd, Hlen. cbn in Hc, Hlen.
  destruct Hc as (Hfl & Hp & q & Hq & Hc). apply NoDup_cons in Hnd as [Hpl Hnd].
  split; [|done]. split; cbn; try done.
  - intros t' c'. unfold upd2. case_decide as Hd; [destruct Hd as [-> ->]|apply H1]. unfold next_of. rewrite Hq. cbn. split_and!; [done|done|lia|lia].
  - intros t' c' a. unfold upd2. destruct (decide (a = p)) as [->|Hne].
    + rewrite moved_one. case_decide as Hd; [by split|]. rewrite H4, Ho. split; [intros [= -> ->]; by destruct Hd|done].
    + rewrite moved_ne by done. case_decide as Hd; [destruct Hd as [-> ->]|apply H4]. rewrite <-H4, HL, elem_of_cons. by split; [right|intros [?|?]].
  - intros c' h a. rewrite H5. destruct (decide (a = p)) as [->|Hne]; [by rewrite moved_one, Ho|by rewrite moved_ne].
  - intros a. rewrite H6. destruct (decide (a = p)) as [->|Hne]; [by rewrite moved_one, Ho, Hn|by rewrite moved_ne].
  - by rewrite moved_ne.
Qed.

(** A central batch: its first block is handed out, the rest fills the cache. *)
Lemma inv_refill x o L B s t c p l Bs n : PoolInv x o L B s -> L t c = [] -> B c = (p, l) :: Bs -> block_size n = (c + 1) * kGranularity ->
  exists m, l = p :: m /\
  PoolInv x (moved (moved o m (Some (PCache t c))) [p] (Some (PUsed n))) (upd2 L t c m) (upd1 B c Bs)
    (put_cache t c (next_of p s) (kBatch - 1) (set_batches c Bs.*1 s)) /\ p <> 0%Z /\ o p = Some (PBatch c p).
Proof.
  intros [H1 H2 H3 H4 H5 H6 H7] HL HB Hn. destruct (H3 c p l) as (Hc & Hnd & Hlen); [rewrite HB; by left|].
  destruct l as [|a m]; [done|]. cbn in Hc. destruct Hc as (<- & Hp & q & Hq & Hc). apply NoDup_cons in Hnd as [Hpm Hnd].
  assert (forall b, b ∈ p :: m <-> o b = Some (PBatch c p)) as Hob.
  { intros b. rewrite <-H5, HB. split; [intros Hb; exists (p :: m); split; [by left|done]|]. intros (k & Hk & Hb).
    assert (NoDup (B c).*1) as Hh by apply H2. rewrite HB in Hh. cbn in Hh. apply NoDup_cons in Hh as [Hh _].
    apply elem_of_cons in Hk as [[= ->]|Hk]; [done|]. destruct Hh. apply list_elem_of_fmap. by exists (p, k). }
  assert (o p = Some (PBatch c p)) as Hop by (apply Hob; by left).
  destruct (H2 c) as (Hb1 & Hb2 & Hb3). rewrite HB in Hb2, Hb3. cbn in Hb2, Hb3. apply NoDup_cons in Hb2 as [Hpn Hb2].
  assert (forall c' h k, (h, k) ∈ upd1 B c Bs c' <-> (h, k) ∈ B c' /\ (c' = c -> h <> p)) as HBs.
  { intros c' h k. unfold upd1. case_decide as Hd; [subst c'|naive_solver]. rewrite HB, elem_of_cons. split.
    - intros Hk. split; [by right|]. intros _ ->. apply Hpn. apply list_elem_of_fmap. by exists (p, k).
    - intros [[[= -> ->]|Hk] Hh]; [by destruct Hh|done]. }
  exists m. split; [done|]. split; [|done]. split; cbn.
  - intros t' c'. unfold upd2. case_decide as Hd; [destruct Hd as [-> ->]|apply H1]. unfold next_of. rewrite Hq. cbn in *. split_and!; [done|done|unfold kBatch in *; lia|pose proof (mark_least x t c); unfold kCachePerClass, kBatch in *; lia].
  - intros c'. unfold upd1. case_decide as Hd; [subst c'|apply H2]. split_and!; [done|done|lia].
  - intros c' h k Hk. apply (H3 c'). by apply HBs.
  - intros t' c' b. unfold upd2. destruct (decide (b = p)) as [->|Hne].
    + rewrite moved_one. case_decide as Hd; [by split|]. by rewrite H4, Hop.
    + rewrite moved_ne by done. destruct (decide (b ∈ m)) as [Hbm|Hbm].
      * rewrite moved_in by done. case_decide as Hd; [destruct Hd as [-> ->]; by split|].
        assert (o b = Some (PBatch c p)) as Hb by (apply Hob; by right). rewrite H4, Hb. split; [done|]. intros [= -> ->]. by destruct Hd.
      * rewrite moved_out by done. case_decide as Hd; [destruct Hd as [-> ->]|apply H4]. rewrite <-H4, HL. split; [done|]. by intros ?%elem_of_nil.
  - intros c' h b. transitivity (o b = Some (PBatch c' h) /\ (c' = c -> h <> p)).
    { rewrite <-H5. setoid_rewrite HBs. naive_solver. }
    destruct (decide (b = p)) as [->|Hne]; [rewrite moved_one, Hop; naive_solver|rewrite moved_ne by done].
    destruct (decide (b ∈ m)) as [Hbm|Hbm]; [rewrite moved_in by done|rewrite moved_out by done].
    + assert (o b = Some (PBatch c p)) as Hb by (apply Hob; by right). rewrite Hb. naive_solver.
    + split; [by intros [? _]|]. intros Hb. split; [done|]. intros -> ->. apply Hob in Hb. apply elem_of_cons in Hb as [?|?]; done.
  - intros b. rewrite H6. destruct (decide (b = p)) as [->|Hne]; [by rewrite moved_one, Hop, Hn|rewrite moved_ne by done].
    destruct (decide (b ∈ m)) as [Hbm|Hbm]; [rewrite moved_in by done|by rewrite moved_out].
    assert (o b = Some (PBatch c p)) as Hb by (apply Hob; by right). by rewrite Hb.
  - rewrite moved_ne by done. rewrite moved_out; [done|]. intros H0. assert (o 0%Z = Some (PBatch c p)) by (apply Hob; by right). congruence.
Qed.

Lemma block_size_fits n : n <= block_size n.
Proof.
  unfold block_size, size_class, kGranularity. case_match; [|done]. pose proof (Nat.div_mod (n - 1) 32 ltac:(lia)). pose proof (Nat.mod_upper_bound (n - 1) 32 ltac:(lia)). lia.
Qed.

Definition holds_pool (u : Z -> option nat) (s : FramePool) : Prop := exists o L B, PoolInv None o L B s /\ forall a, used o a = u a.

(** What the others hold is as it was. *)
Definition untouched (u : Z -> option nat) (s s' : FramePool) : Prop := forall a n, u a = Some n -> words s' !! a = words s !! a.

Lemma used_moved o p x a : used (moved o [p] x) a = if decide (a = p) then match x with Some (PUsed n) => Some n | _ => None end else used o a.
Proof. unfold used. case_decide as Hd; [subst; by rewrite moved_one|by rewrite moved_ne]. Qed.

Lemma allocate_run u s t n a : holds_pool u s -> blocks s !! a = None -> a <> 0%Z ->
  let r := allocate t n a s in
  r.1 <> 0%Z /\ u r.1 = None /\ blocks r.2 !! r.1 = Some (block_size n) /\ untouched u s r.2 /\
  holds_pool (fun b => if decide (b = r.1) then Some n else u b) r.2.
Proof.
  intros (o & L & B & Hi & Hu) Ha Hz. unfold allocate.
  assert (forall o' p, (forall b, used o' b = if decide (b = p) then Some n else used o b) -> forall b, used o' b = if decide (b = p) then Some n else u b) as Hu' by (intros o' p Hp b; by rewrite Hp, Hu).
  assert (o a = None) as Hoa.
  { pose proof (pi_blocks _ _ _ _ _ Hi a) as Hb. rewrite Ha in Hb. by destruct (o a) as [[]|]. }
  assert (forall m, m = block_size n -> (a <> 0%Z /\ u a = None /\ blocks (op_new a m s) !! a = Some (block_size n) /\ untouched u s (op_new a m s) /\
    holds_pool (fun b => if decide (b = a) then Some n else u b) (op_new a m s))) as Hnew.
  { intros m ->. split_and!; [done|by rewrite <-Hu; unfold used; rewrite Hoa|cbn; by rewrite lookup_insert_eq| |].
    - intros b k Hb. cbn. rewrite lookup_insert_ne; [done|]. intros <-. rewrite <-Hu in Hb. unfold used in Hb. by rewrite Hoa in Hb.
    - eexists _, L, B. split; [by apply inv_new|]. apply Hu'. intros b. apply used_moved. }
  destruct (pooled n) eqn:Hp; cbn [negb]; [|apply Hnew; unfold block_size; by rewrite Hp].
  assert (block_size n = (size_class n + 1) * kGranularity) as Hbs by (unfold block_size; by rewrite Hp). cbv zeta. generalize dependent (size_class n). intros c Hbs.
  destruct (pi_cache _ _ _ _ _ Hi t c) as (Hc & _). case_decide as Hf.
  - destruct (chain_nonzero _ _ _ Hc Hf) as (l & HL & _). destruct (inv_pop None o L B s t c _ l n Hi HL Hbs) as (Hi' & _ & Ho & _). cbn.
    split_and!; [done|by rewrite <-Hu; unfold used; rewrite Ho| |done|].
    + pose proof (pi_blocks _ _ _ _ _ Hi (free_list s t c)) as Hbl. rewrite Ho in Hbl. by rewrite Hbs.
    + eexists _, _, _. split; [exact Hi'|]. apply Hu'. intros b. apply used_moved.
  - assert (L t c = []) as HL. { destruct (L t c) as [|b l]; [done|]. cbn in Hc. destruct Hc as (E & Hb & _). by destruct Hf. }
    unfold allocate_slow. destruct (pi_batches _ _ _ _ _ Hi c) as (Hba & _). destruct (batches s c) as [|p ps] eqn:Hb; [by apply Hnew|].
    destruct (B c) as [|[p' l] Bs] eqn:HB; [done|]. cbn in Hba. injection Hba as -> ->.
    destruct (inv_refill None o L B s t c p' l Bs n Hi HL HB Hbs) as (m & -> & Hi' & Hp' & Ho). cbn.
    split_and!; [done|by rewrite <-Hu; unfold used; rewrite Ho| |done|].
    + pose proof (pi_blocks _ _ _ _ _ Hi p') as Hbl. rewrite Ho in Hbl. by rewrite Hbs.
    + eexists _, _, _. split; [exact Hi'|]. apply Hu'. intros b. rewrite used_moved. case_decide; [done|].
      destruct (decide (b ∈ m)) as [Hbm|Hbm]; [|unfold used; by rewrite moved_out].
      unfold used. rewrite moved_in by done. assert (o b = Some (PBatch c p')) as ->; [|done].
      apply (pi_in_batch _ _ _ _ _ Hi). exists (p' :: m). rewrite HB. split; [by left|by right].
Qed.

(** ** Giving a block back *)

Lemma inv_delete x o L B s p n : PoolInv x o L B s -> used o p = Some n -> PoolInv x (moved o [p] None) L B (op_delete p s).
Proof.
  intros Hi Hu. assert (o p = Some (PUsed n)) as Ho by (unfold used in Hu; destruct (o p) as [[]|]; congruence).
  destruct (free_chains x o L B s (delete p (words s)) Hi) as [Hc Hb].
  { intros b Hf. rewrite lookup_delete_ne; [done|]. intros <-. unfold is_free in Hf. by rewrite Ho in Hf. }
  destruct Hi as [H1 H2 H3 H4 H5 H6 H7]. split; cbn; try done.
  - intros t c. destruct (H1 t c) as (_ & ? & ? & ?). split_and!; [apply Hc|done..].
  - intros c q l Hl. destruct (H3 c q l Hl) as (_ & ? & ?). split_and!; [by eapply Hb|done..].
  - intros t c b. rewrite H4. destruct (decide (b = p)) as [->|Hd]; [by rewrite moved_one, Ho|by rewrite moved_ne].
  - intros c q b. rewrite H5. destruct (decide (b = p)) as [->|Hd]; [by rewrite moved_one, Ho|by rewrite moved_ne].
  - intros b. destruct (decide (b = p)) as [->|Hne]; [by rewrite lookup_delete_eq, moved_one|by rewrite lookup_delete_ne, moved_ne].
  - rewrite moved_ne; [done|]. intros <-. congruence.
Qed.

Lemma used_inv o p n : used o p = Some n -> o p = Some (PUsed n).
Proof. unfold used. by destruct (o p) as [[]|]; intros [= ->]. Qed.

(** A block joins a cache, which may reach its mark. *)
Lemma inv_push o L B s t c p n : PoolInv None o L B s -> used o p = Some n -> block_size n = (c + 1) * kGranularity ->
  PoolInv (Some (t, c)) (moved o [p] (Some (PCache t c))) (upd2 L t c (p :: L t c)) B
    (put_cache t c p (count s t c + 1) (put_word p (free_list s t c) s)).
Proof.
  intros Hi Hu Hn. pose proof (used_inv _ _ _ Hu) as Ho.
  destruct (free_chains None o L B s (<[p := free_list s t c]> (words s)) Hi) as [Hc Hb].
  { intros b Hf. rewrite lookup_insert_ne; [done|]. intros <-. unfold is_free in Hf. by rewrite Ho in Hf. }
  destruct Hi as [H1 H2 H3 H4 H5 H6 H7]. assert (p <> 0%Z) as Hp by (intros ->; congruence). split; cbn; try done.
  - intros t' c'. unfold upd2. case_decide as Hd.
    + destruct Hd as [-> ->]. destruct (H1 t c) as (_ & Hnd & Hlen & Hlt). split_and!.
      * split_and!; [done|done|]. exists (free_list s t c). rewrite lookup_insert_eq. split; [done|apply Hc].
      * apply NoDup_cons. split; [|done]. rewrite H4, Ho. done.
      * cbn. lia.
      * unfold mark in *. rewrite decide_False in Hlt by done. rewrite decide_True by done. lia.
    + destruct (H1 t' c') as (_ & Hnd & Hlen & Hlt). split_and!; [apply Hc|done|done|]. unfold mark in *. rewrite decide_False in Hlt by done. pose proof (mark_least (Some (t, c)) t' c') as Hm. unfold mark in Hm. lia.
  - intros c' h l Hl. destruct (H3 c' h l Hl) as (_ & ? & ?). split_and!; [by eapply Hb|done..].
  - intros t' c' a. unfold upd2. destruct (decide (a = p)) as [->|Hne].
    + rewrite moved_one. case_decide as Hd; [destruct Hd as [-> ->]; split; [done|by left]|]. rewrite H4, Ho. split; [done|]. intros [= -> ->]. by destruct Hd.
    + rewrite moved_ne by done. case_decide as Hd; [destruct Hd as [-> ->]|apply H4]. rewrite <-H4, elem_of_cons. split; [by intros [?|?]|by right].
  - intros c' h a. rewrite H5. destruct (decide (a = p)) as [->|Hne]; [by rewrite moved_one, Ho|by rewrite moved_ne].
  - intros a. rewrite H6. destruct (decide (a = p)) as [->|Hne]; [by rewrite moved_one, Ho, Hn|by rewrite moved_ne].
  - by rewrite moved_ne.
Qed.

Lemma inv_below t c o L B s : PoolInv (Some (t, c)) o L B s -> count s t c < kCachePerClass -> PoolInv None o L B s.
Proof.
  intros [H1 H2 H3 H4 H5 H6 H7] Hlt. split; try done. intros t' c'. destruct (H1 t' c') as (? & ? & ? & Hm). split_and!; [done..|].
  unfold mark in *. rewrite (decide_False (P := None = Some _)) by done. case_decide as Hd; [by simplify_eq|done].
Qed.

(** *** The spill *)

(** The cache [t], [c] is the first [kBatch] blocks, [P], and the rest, [m]; the
    state [s'] has the chains apart. *)
Record parted (t c : nat) (o : Z -> option Place) (L : nat -> nat -> list Z) (B : nat -> list (Z * list Z)) (s : FramePool) (P m : list Z) (s' : FramePool) : Prop := {
  pt_list : L t c = P ++ m;
  pt_length : length P = kBatch;
  pt_first : chain (words s') (free_list s t c) P;
  pt_rest : chain (words s') (free_list s' t c) m /\ count s' t c = length m;
  pt_other t' c' : ~ (t' = t /\ c' = c) -> chain (words s') (free_list s t' c') (L t' c') /\ free_list s' t' c' = free_list s t' c' /\ count s' t' c' = count s t' c';
  pt_batch c' p l : (p, l) ∈ B c' -> chain (words s') p l;
  pt_same : blocks s' = blocks s /\ batches s' = batches s;
  pt_used a : (forall b, b ∈ P -> a <> b) -> words s' !! a = words s !! a }.

Lemma parts t c o L B s tail : PoolInv (Some (t, c)) o L B s -> count s t c = kCachePerClass -> tail = walk (kBatch - 1) (free_list s t c) s ->
  exists P m, parted t c o L B s P m (put_word tail 0 (put_cache t c (next_of tail s) (count s t c - kBatch) s)).
Proof.
  intros Hi Hcn Htl. destruct (pi_cache _ _ _ _ _ Hi t c) as (Hc & Hnd & Hlen & _). rewrite Hcn in Hlen.
  assert (L t c !! (kBatch - 1) = Some tail) as Ht by (rewrite Htl; apply walk_chain; [done|rewrite Hlen; unfold kBatch, kCachePerClass; lia]).
  clear Htl.
  pose proof (take_drop_middle _ _ _ Ht) as Hsplit. set (l := take (kBatch - 1) (L t c)) in *. set (m := drop (S (kBatch - 1)) (L t c)) in *.
  assert (length l = kBatch - 1) as Hl by (unfold l; rewrite length_take, Hlen; unfold kBatch, kCachePerClass; lia).
  assert (length m = kCachePerClass - kBatch) as Hm by (unfold m; rewrite length_drop, Hlen; unfold kBatch, kCachePerClass; lia).
  clearbody l m. rewrite <-Hsplit in Hc, Hnd. destruct (chain_cut _ _ _ _ _ Hc Hnd) as [(q & Hq & Hrest) Hfirst].
  assert (tail ∈ L t c) as Hin by (by eapply list_elem_of_lookup_2). assert (o tail = Some (PCache t c)) as Ho by by apply (pi_in_cache _ _ _ _ _ Hi).
  apply NoDup_app in Hnd as (_ & _ & Hnd). apply NoDup_cons in Hnd as [Htm _].
  exists (l ++ [tail]), m. split; cbn.
  - by rewrite <-app_assoc.
  - rewrite length_app, Hl. done.
  - done.
  - unfold upd2. rewrite !decide_True by done. split; [|rewrite Hcn; lia]. unfold next_of. rewrite Hq. cbn.
    eapply chain_frame; [exact Hrest|]. intros a Ha. rewrite lookup_insert_ne; [done|]. by intros ->.
  - intros t' c' Hne. unfold upd2. rewrite !decide_False by done. split; [|done]. destruct (pi_cache _ _ _ _ _ Hi t' c') as (Hc' & _).
    eapply chain_frame; [exact Hc'|]. intros a Ha. rewrite lookup_insert_ne; [done|]. intros <-. apply (pi_in_cache _ _ _ _ _ Hi) in Ha. rewrite Ho in Ha. simplify_eq. by destruct Hne.
  - intros c' p k Hk. destruct (pi_batch _ _ _ _ _ Hi c' p k Hk) as (Hck & _). eapply chain_frame; [exact Hck|]. intros a Ha. rewrite lookup_insert_ne; [done|]. intros <-.
    assert (o tail = Some (PBatch c' p)) by (apply (pi_in_batch _ _ _ _ _ Hi); by exists k). congruence.
  - done.
  - intros a Ha. rewrite lookup_insert_ne; [done|]. intros <-. apply (Ha tail); [|done]. apply elem_of_app. right. by left.
Qed.

Lemma parted_owner t c x o L B s P m s' a : PoolInv x o L B s -> parted t c o L B s P m s' -> a ∈ P -> o a = Some (PCache t c).
Proof. intros Hi Hp Ha. apply (pi_in_cache _ _ _ _ _ Hi). rewrite (pt_list _ _ _ _ _ _ _ _ _ Hp). apply elem_of_app. by left. Qed.

(** The caches after the split, with the blocks of [P] elsewhere. *)
Lemma parted_caches t c o L B s P m s' w pl : PoolInv (Some (t, c)) o L B s -> parted t c o L B s P m s' -> count s t c = kCachePerClass ->
  (forall a, a ∉ P -> w !! a = words s' !! a) -> (forall t' c', pl <> Some (PCache t' c')) ->
  (forall t' c', chain w (free_list s' t' c') (upd2 L t c m t' c') /\ NoDup (upd2 L t c m t' c') /\ length (upd2 L t c m t' c') = count s' t' c' /\ count s' t' c' < mark None t' c') /\
  (forall t' c' a, a ∈ upd2 L t c m t' c' <-> moved o P pl a = Some (PCache t' c')) /\
  (forall c' p k, (p, k) ∈ B c' -> chain w p k).
Proof.
  intros Hi Hp Hcn Hw Hpl. pose proof (fun a => parted_owner _ _ _ _ _ _ _ _ _ _ a Hi Hp) as HP.
  destruct (pi_cache _ _ _ _ _ Hi t c) as (_ & Hnd & Hlen & _). destruct Hp as [E1 E2 _ [E4 E4'] E5 E6 _ _]. rewrite E1 in Hnd, Hlen.
  apply NoDup_app in Hnd as (_ & HPm & Hnd). rewrite length_app in Hlen. split_and!.
  - intros t' c'. unfold upd2. case_decide as Hd.
    + destruct Hd as [-> ->]. split_and!; [|done|done|unfold mark, kBatch, kCachePerClass in *; rewrite decide_False by done; lia].
      eapply chain_frame; [exact E4|]. intros a Ha. apply Hw. intros HaP. by apply (HPm a).
    + destruct (E5 t' c' Hd) as (Hc & -> & ->). destruct (pi_cache _ _ _ _ _ Hi t' c') as (_ & Hn' & Hl' & Hm). split_and!; [|done|done|].
      * eapply chain_frame; [exact Hc|]. intros a Ha. apply Hw. intros HaP. apply HP in HaP. apply (pi_in_cache _ _ _ _ _ Hi) in Ha. rewrite HaP in Ha. simplify_eq. by destruct Hd.
      * unfold mark in *. rewrite (decide_False (P := None = Some _)) by done. rewrite decide_False in Hm; [done|]. intros [= -> ->]. by destruct Hd.
  - intros t' c' a. unfold upd2. destruct (decide (a ∈ P)) as [HaP|HaP].
    + rewrite moved_in by done. split; [|intros Hx; by destruct (Hpl t' c')]. case_decide as Hd; [intros Ham; by destruct (HPm a HaP)|].
      intros Ha. apply HP in HaP. apply (pi_in_cache _ _ _ _ _ Hi) in Ha. rewrite HaP in Ha. simplify_eq. by destruct Hd.
    + rewrite moved_out by done. case_decide as Hd; [destruct Hd as [-> ->]|apply (pi_in_cache _ _ _ _ _ Hi)].
      rewrite <-(pi_in_cache _ _ _ _ _ Hi), E1, elem_of_app. naive_solver.
  - intros c' p k Hk. eapply chain_frame; [by eapply E6|]. intros a Ha. apply Hw. intros HaP. apply HP in HaP.
    assert (o a = Some (PBatch c' p)) by (apply (pi_in_batch _ _ _ _ _ Hi); by exists k). congruence.
Qed.

Lemma kept_null o P pl : o 0%Z = None -> (forall a, a ∈ P -> exists t c, o a = Some (PCache t c)) -> moved o P pl 0%Z = None.
Proof. intros Ho HP. rewrite moved_out; [done|]. intros H0. destruct (HP _ H0) as (t & c & Hc). congruence. Qed.

(** The batch goes to the central list. *)
Lemma inv_spill_push t c o L B s P m s' : PoolInv (Some (t, c)) o L B s -> parted t c o L B s P m s' -> count s t c = kCachePerClass ->
  length (batches s c) < kCentralBatches ->
  PoolInv None (moved o P (Some (PBatch c (free_list s t c)))) (upd2 L t c m) (upd1 B c ((free_list s t c, P) :: B c)) (set_batches c (free_list s t c :: batches s c) s').
Proof.
  intros Hi Hp Hcn Hroom. pose proof (fun a => parted_owner _ _ _ _ _ _ _ _ _ _ a Hi Hp) as HP.
  destruct (parted_caches _ _ _ _ _ _ _ _ _ (words s') (Some (PBatch c (free_list s t c))) Hi Hp Hcn) as (H1' & H4' & H3'); [done|done|].
  destruct Hp as [E1 E2 E3 _ _ _ [E7 E8] _]. destruct (pi_cache _ _ _ _ _ Hi t c) as (_ & Hnd & _). rewrite E1 in Hnd. apply NoDup_app in Hnd as (HndP & _ & _).
  set (h := free_list s t c) in *. destruct Hi as [H1 H2 H3 H4 H5 H6 H7].
  assert (h ∈ P) as Hh. { destruct P as [|b P]; [done|]. cbn in E3. destruct E3 as (-> & _). by left. }
  assert (h ∉ (B c).*1) as Hnew.
  { intros Hin. apply list_elem_of_fmap in Hin as ([h' k] & Ehh & Hk). cbn in Ehh. subst h'. destruct (H3 c h k Hk) as (Hc & _ & Hlk).
    assert (o h = Some (PBatch c h)) as Ho; [|rewrite (HP h Hh) in Ho; done]. apply H5. exists k. split; [done|]. destruct k as [|b k]; [done|]. cbn in Hc. destruct Hc as (-> & _). by left. }
  split; cbn; try done.
  - intros c'. rewrite E8. unfold upd1. case_decide as Hd; [subst c'|apply H2]. destruct (H2 c) as (Hb & Hn & Hl). cbn. rewrite <-Hb. split_and!; [done| |].
    + apply NoDup_cons. by rewrite Hb.
    + rewrite Hb, length_fmap in Hroom. lia.
  - intros c' p k. unfold upd1. case_decide as Hd; [subst c'; rewrite elem_of_cons; intros [[= -> ->]|Hk]|intros Hk].
    + by split_and!.
    + destruct (H3 c p k Hk) as (_ & ? & ?). split_and!; [by eapply H3'|done..].
    + destruct (H3 c' p k Hk) as (_ & ? & ?). split_and!; [by eapply H3'|done..].
  - intros c' p a. unfold upd1. destruct (decide (a ∈ P)) as [HaP|HaP].
    + rewrite moved_in by done. split.
      * intros (k & Hk & Hak). assert (~ (exists k', (p, k') ∈ B c' /\ a ∈ k')) as Hno by (rewrite H5, (HP a HaP); done).
        case_decide as Hd; [subst c'|by destruct Hno; exists k]. apply elem_of_cons in Hk as [[= -> ->]|Hk]; [done|by destruct Hno; exists k].
      * intros [= <- <-]. exists P. rewrite decide_True by done. split; [by left|done].
    + rewrite moved_out by done. rewrite <-H5. case_decide as Hd; [subst c'|done]. split.
      * intros (k & Hk & Hak). apply elem_of_cons in Hk as [[= -> ->]|Hk]; [done|by exists k].
      * intros (k & Hk & Hak). exists k. split; [by right|done].
  - intros a. rewrite E7, H6. destruct (decide (a ∈ P)) as [HaP|HaP]; [rewrite moved_in by done; by rewrite (HP a HaP)|by rewrite moved_out].
  - apply kept_null; [done|]. intros a Ha. eauto.
Qed.

(** The central list is full: the batch goes back to the process. *)
Lemma inv_spill_release t c o L B s P m s' s'' : PoolInv (Some (t, c)) o L B s -> parted t c o L B s P m s' -> count s t c = kCachePerClass ->
  (forall a, words s'' !! a = if decide (a ∈ P) then None else words s' !! a) ->
  (forall a, blocks s'' !! a = if decide (a ∈ P) then None else blocks s' !! a) ->
  free_list s'' = free_list s' -> count s'' = count s' -> batches s'' = batches s' ->
  PoolInv None (moved o P None) (upd2 L t c m) B s''.
Proof.
  intros Hi Hp Hcn Hw Hb Ef Ec Eb. pose proof (fun a => parted_owner _ _ _ _ _ _ _ _ _ _ a Hi Hp) as HP.
  destruct (parted_caches _ _ _ _ _ _ _ _ _ (words s'') None Hi Hp Hcn) as (H1' & H4' & H3'); [intros a Ha; by rewrite Hw, decide_False|done|].
  destruct Hp as [E1 E2 E3 _ _ _ [E7 E8] _]. destruct Hi as [H1 H2 H3 H4 H5 H6 H7].
  split; rewrite ?Ef, ?Ec, ?Eb, ?E8; try done.
  - intros c' p k Hk. destruct (H3 c' p k Hk) as (_ & ? & ?). split_and!; [by eapply H3'|done..].
  - intros c' p a. rewrite H5. destruct (decide (a ∈ P)) as [HaP|HaP]; [rewrite moved_in by done; by rewrite (HP a HaP)|by rewrite moved_out].
  - intros a. rewrite Hb, E7, H6. case_decide as HaP; [by rewrite moved_in|by rewrite moved_out].
  - apply kept_null; [done|]. intros a Ha. eauto.
Qed.

Lemma used_moved_free o P pl : (forall a, a ∈ P -> used o a = None) -> match pl with Some (PUsed _) => False | _ => True end -> forall a, used (moved o P pl) a = used o a.
Proof.
  intros HP Hpl a. destruct (decide (a ∈ P)) as [Ha|Ha]; [|unfold used; by rewrite moved_out].
  rewrite (HP a Ha). unfold used. rewrite moved_in by done. by destruct pl as [[]|].
Qed.

Lemma spill_run t c o L B s : PoolInv (Some (t, c)) o L B s -> count s t c = kCachePerClass ->
  exists s', spill t c s = Some s' /\ untouched (used o) s s' /\ holds_pool (used o) s'.
Proof.
  intros Hi Hcn. unfold spill. set (tail := walk (kBatch - 1) (free_list s t c) s).
  destruct (parts t c o L B s tail Hi Hcn eq_refl) as (P & m & Hp). clearbody tail. cbv zeta.
  set (s1 := put_word tail 0 (put_cache t c (next_of tail s) (count s t c - kBatch) s)) in *.
  pose proof (fun a => parted_owner _ _ _ _ _ _ _ _ _ _ a Hi Hp) as HP.
  assert (forall a, a ∈ P -> used o a = None) as HPu by (intros a Ha; unfold used; by rewrite (HP a Ha)).
  assert (forall a n, used o a = Some n -> a ∉ P) as Hua by (intros a n Ha HaP; apply HPu in HaP; congruence).
  assert (untouched (used o) s s1) as Hun. { intros a n Ha. apply (pt_used _ _ _ _ _ _ _ _ _ Hp). intros b Hb ->. by apply (Hua b n). }
  replace (batches s1 c) with (batches s c) by done. case_decide as Hroom.
  - eexists. split; [done|]. split; [exact Hun|]. eexists _, _, _. split; [by eapply inv_spill_push|]. by apply used_moved_free.
  - destruct (pt_length _ _ _ _ _ _ _ _ _ Hp) as [].
    destruct (release_chain_run (length P) P (free_list s t c) s1) as (s2 & Hr & Hw & Hb & Ef & Ec & Eb); [by apply Hp| |done|].
    { destruct (pi_cache _ _ _ _ _ Hi t c) as (_ & Hnd & _). rewrite (pt_list _ _ _ _ _ _ _ _ _ Hp) in Hnd. by apply NoDup_app in Hnd as (? & _). }
    rewrite Hr. eexists. split; [done|]. split.
    + intros a n Ha. rewrite Hw, decide_False by (by eapply Hua). by eapply Hun.
    + eexists _, _, _. split; [by eapply inv_spill_release|]. by apply used_moved_free.
Qed.

Definition without (p : Z) (u : Z -> option nat) : Z -> option nat := fun a => if decide (a = p) then None else u a.

Lemma deallocate_run u s t p n : holds_pool u s -> u p = Some n ->
  exists s', deallocate t p n s = Some s' /\ untouched (without p u) s s' /\ holds_pool (without p u) s'.
Proof.
  intros (o & L & B & Hi & Hu) Hp. rewrite <-Hu in Hp. pose proof (used_inv _ _ _ Hp) as Ho.
  assert (p <> 0%Z) as Hz by (intros ->; by rewrite (pi_null _ _ _ _ _ Hi) in Ho).
  assert (forall pl, match pl with Some (PUsed _) => False | _ => True end -> forall a, used (moved o [p] pl) a = without p u a) as Hwo.
  { intros pl Hpl a. rewrite used_moved. unfold without. case_decide; [by destruct pl as [[]|]|apply Hu]. }
  unfold deallocate. rewrite decide_False by done. destruct (pooled n) eqn:Hpo; cbn [negb].
  - assert (block_size n = (size_class n + 1) * kGranularity) as Hbs by (unfold block_size; by rewrite Hpo). cbv zeta. generalize dependent (size_class n). intros c Hbs.
    pose proof (inv_push o L B s t c p n Hi Hp Hbs) as Hi'. set (s1 := put_cache t c p (count s t c + 1) (put_word p (free_list s t c) s)) in *.
    assert (untouched (without p u) s s1) as Hun.
    { intros a k Ha. cbn. rewrite lookup_insert_ne; [done|]. intros <-. unfold without in Ha. by rewrite decide_True in Ha. }
    change (put_cache t c p (count (put_word p (free_list s t c) s) t c + 1) (put_word p (free_list s t c) s)) with s1. case_decide as Hlt.
    + eexists. split; [done|]. split; [done|]. eexists _, _, _. split; [by eapply inv_below|]. by apply Hwo.
    + destruct (pi_cache _ _ _ _ _ Hi' t c) as (_ & _ & _ & Hm). unfold mark in Hm. rewrite decide_True in Hm by done.
      destruct (spill_run t c _ _ _ _ Hi') as (s2 & Hs & Hun2 & (o2 & L2 & B2 & Hi2 & Hu2)); [lia|]. exists s2. split; [done|].
      assert (forall a, used o2 a = without p u a) as Hu3 by (intros a; rewrite Hu2; by apply Hwo).
      split; [|by exists o2, L2, B2]. intros a k Ha. rewrite <-(Hun a k Ha). apply (Hun2 a k). rewrite <-Hu2. by rewrite Hu3.
  - eexists. split; [done|]. split.
    + intros a k Ha. cbn. rewrite lookup_delete_ne; [done|]. intros <-. unfold without in Ha. by rewrite decide_True in Ha.
    + eexists _, _, _. split; [by eapply inv_delete|]. by apply Hwo.
Qed.

(** One class of a thread that ends. *)
Lemma release_class_run o L B s t c : PoolInv None o L B s ->
  exists s', release_chain kCachePerClass (free_list s t c) s = Some s' /\ untouched (used o) s s' /\
    PoolInv None (moved o (L t c) None) (upd2 L t c []) B (put_cache t c 0 0 s').
Proof.
  intros Hi. destruct (pi_cache _ _ _ _ _ Hi t c) as (Hc & Hnd & Hlen & Hm). unfold mark in Hm. rewrite decide_False in Hm by done.
  destruct (release_chain_run kCachePerClass (L t c) (free_list s t c) s Hc Hnd ltac:(lia)) as (s1 & Hr & Hw & Hb & Ef & Ec & Eb).
  set (P := L t c) in *. assert (forall a, a ∈ P -> o a = Some (PCache t c)) as HP by (intros a; apply (pi_in_cache _ _ _ _ _ Hi)).
  assert (forall a, a ∉ P -> words s1 !! a = words s !! a) as Hw' by (intros a Ha; by rewrite Hw, decide_False).
  exists s1. split; [done|]. split.
  { intros a n Ha. apply Hw'. intros HaP. apply HP in HaP. unfold used in Ha. by rewrite HaP in Ha. }
  destruct Hi as [H1 H2 H3 H4 H5 H6 H7]. split; cbn; rewrite ?Ef, ?Ec, ?Eb; try done.
  - intros t' c'. unfold upd2. case_decide as Hd; [split_and!; [done|constructor|done|unfold mark; rewrite decide_False by done; unfold kCachePerClass; lia]|].
    destruct (H1 t' c') as (Hc' & ? & ? & ?). split_and!; [|done..]. eapply chain_frame; [exact Hc'|]. intros a Ha. apply Hw'. intros HaP.
    apply HP in HaP. apply H4 in Ha. rewrite HaP in Ha. simplify_eq. by destruct Hd.
  - intros c' p k Hk. destruct (H3 c' p k Hk) as (Hc' & ? & ?). split_and!; [|done..]. eapply chain_frame; [exact Hc'|]. intros a Ha. apply Hw'. intros HaP.
    apply HP in HaP. assert (o a = Some (PBatch c' p)) by (apply H5; by exists k). congruence.
  - intros t' c' a. unfold upd2. destruct (decide (a ∈ P)) as [HaP|HaP].
    + rewrite moved_in by done. split; [|done]. case_decide as Hd; [by intros ?%elem_of_nil|]. intros Ha. apply HP in HaP. apply H4 in Ha. rewrite HaP in Ha. simplify_eq. by destruct Hd.
    + rewrite moved_out by done. case_decide as Hd; [destruct Hd as [-> ->]|apply H4]. rewrite <-H4. split; [by intros ?%elem_of_nil|done].
  - intros c' p a. rewrite H5. destruct (decide (a ∈ P)) as [HaP|HaP]; [rewrite moved_in by done; by rewrite (HP a HaP)|by rewrite moved_out].
  - intros a. rewrite Hb, H6. case_decide as HaP; [by rewrite moved_in|by rewrite moved_out].
  - apply kept_null; [done|]. intros a Ha. eauto.
Qed.

Lemma release_classes_run n u t : forall c s, holds_pool u s -> exists s', release_classes n c t s = Some s' /\ untouched u s s' /\ holds_pool u s' /\
  (forall c', c <= c' < c + n -> free_list s' t c' = 0%Z) /\ (forall c', c' < c -> free_list s' t c' = free_list s t c').
Proof.
  induction n as [|n IH]; intros c s Hh; cbn [release_classes].
  - exists s. split_and!; [done|done|done|intros; lia|done].
  - destruct Hh as (o & L & B & Hi & Hu). destruct (release_class_run o L B s t c Hi) as (s1 & Hr & Hun & Hi1). rewrite Hr. cbn [mbind option_bind].
    destruct (IH (S c) (put_cache t c 0 0 s1)) as (s2 & Hr2 & Hun2 & Hh2 & Hz & Hk).
    { eexists _, _, _. split; [exact Hi1|]. intros a. rewrite used_moved_free; [apply Hu| |done]. intros b Hb. apply (pi_in_cache _ _ _ _ _ Hi) in Hb. unfold used. by rewrite Hb. }
    assert (free_list s1 = free_list s) as Ef.
    { destruct (pi_cache _ _ _ _ _ Hi t c) as (Hc & Hnd & Hlen & Hm). unfold mark in Hm. rewrite decide_False in Hm by done.
      destruct (release_chain_run kCachePerClass (L t c) (free_list s t c) s Hc Hnd ltac:(lia)) as (s3 & Hr3 & _ & _ & Ef & _). congruence. }
    exists s2. split_and!; [done| |done| |].
    + intros a k Ha. rewrite (Hun2 a k Ha). apply (Hun a k). by rewrite Hu.
    + intros c' Hc'. destruct (decide (c' = c)) as [->|Hne]; [|apply Hz; lia]. rewrite (Hk c) by lia. cbn. unfold upd2. by rewrite decide_True.
    + intros c' Hc'. rewrite (Hk c') by lia. cbn. unfold upd2. rewrite decide_False by lia. by rewrite Ef.
Qed.

Definition empty_pool : FramePool := mkPool ∅ ∅ (fun _ _ => 0%Z) (fun _ _ => 0) (fun _ => []).

Lemma empty_pool_holds : holds_pool (fun _ => None) empty_pool.
Proof.
  exists (fun _ => None), (fun _ _ => []), (fun _ => []). split; [|done]. split; cbn; try done.
  - intros t c. split_and!; [done|constructor|done|unfold mark; rewrite decide_False by done; unfold kCachePerClass; lia].
  - intros c. split_and!; [done|constructor|lia].
  - intros c p l Hl. by apply elem_of_nil in Hl.
  - intros t c a. split; [by intros ?%elem_of_nil|done].
  - intros c p a. split; [|done]. intros (l & Hl & _). by apply elem_of_nil in Hl.
Qed.

(** C20: The frame pool is an allocator. Whatever blocks its owners hold, write
    to and give back on whatever threads: an allocation returns a block that
    nobody holds, at least as large as the request; giving a block back and the
    end of a thread succeed within the fuel; none of them touches the first word
    of a block that is held, although the links of the free lists are in the
    blocks themselves; and the pool then holds exactly the remaining blocks. *)
Theorem frame_pool_allocates u s : holds_pool u s ->
  (forall t n a, blocks s !! a = None -> a <> 0%Z -> let r := allocate t n a s in
    r.1 <> 0%Z /\ u r.1 = None /\ (exists size, blocks r.2 !! r.1 = Some size /\ n <= size) /\ untouched u s r.2 /\
    holds_pool (fun b => if decide (b = r.1) then Some n else u b) r.2) /\
  (forall t p n, u p = Some n -> exists s', deallocate t p n s = Some s' /\ untouched (without p u) s s' /\ holds_pool (without p u) s') /\
  (forall p n q, u p = Some n -> holds_pool u (put_word p q s)) /\
  (forall t, exists s', cache_exit t s = Some s' /\ untouched u s s' /\ holds_pool u s' /\ forall c, c < kClasses -> free_list s' t c = 0%Z).
Proof.
  intros Hh. split_and!.
  - intros t n a Ha Hz. destruct (allocate_run u s t n a Hh Ha Hz) as (H1 & H2 & H3 & H4 & H5). split_and!; [done|done| |done|done].
    eexists. split; [exact H3|apply block_size_fits].
  - intros t p n Hp. by apply deallocate_run.
  - intros p n q Hp. destruct Hh as (o & L & B & Hi & Hu). exists o, L, B. split; [|done]. eapply inv_user_write; [done|]. by rewrite Hu.
  - intros t. destruct (release_classes_run kClasses u t 0 s Hh) as (s' & Hr & Hun & Hh' & Hz & _). exists s'. split_and!; [done|done|done|]. intros c Hc. apply Hz. lia.
Qed.

(** A frame of 100 bytes, freed by the thread that made it. *)
Lemma frame_pool_allocates_witness : holds_pool (fun _ => None) empty_pool /\
  let r := allocate 0 100 4096 empty_pool in
  r.1 = 4096%Z /\ (exists size, blocks r.2 !! r.1 = Some size /\ 100 <= size) /\
  exists s', deallocate 0 4096 100 r.2 = Some s' /\ free_list s' 0 3 = 4096%Z.
Proof.
  split; [exact empty_pool_holds|].
  destruct (proj1 (frame_pool_allocates _ _ empty_pool_holds) 0 100 4096%Z eq_refl ltac:(done)) as (_ & _ & Hsz & _).
  split; [reflexivity|]. split; [exact Hsz|]. eexists. split; [vm_compute; reflexivity|reflexivity].
Defined.
